(* ===== verification/_CoqProject ===== *)
-Q . S2P
Prelude.v
Address.v
Riscv.v
Bitfield.v
Arch.v
RiscvPaging.v
PhysMap.v
ArrayVec.v
Machine.v
Table.v
Flush.v
AddressSpace.v
PageTable.v
Walk.v
TableOps.v
Visitors.v
AddressSpaceSpec.v
FastPath.v
TestAllocator.v
Demo.v
Mmu.v
LoaderRegions.v
BumpAllocator.v
Loader.v
KernelMapping.v
Interleaving.v
TaskState.v
Task.v
RwLock.v
SpinSync.v
TimerWheel.v
TimerCore.v
Timer.v
WavlTree.v
WavlRepr.v
WavlBalance.v
WavlShrink.v
WavlSearch.v
WavlOps.v
Wavl.v
Regions.v
FindSpot.v
KernelSpace.v
SpaceCorrect.v
SpaceDemo.v
FrameList.v
Vmo.v
KernelPaging.v
KernelPagingCorrect.v
KernelPagingDemo.v
KernelNew.v
KernelFrames.v
KernelFramesCorrect.v
KernelFramesNew.v
KernelFramesSelect.v
KernelFramesAlloc.v
KernelFramesRun.v
KernelFramesOps.v
KernelFramesInit.v
KernelFramesTrace.v
KernelTables.v
KernelBoot.v
KernelBootCorrect.v
KernelHeap.v
KernelFramesDemo.v
Fdt.v
FdtCorrect.v
FdtTree.v
FdtSafe.v
FdtRegs.v
LoaderFdt.v
LoaderFdtCorrect.v
FdtDemo.v
