(* ===== verification/Prelude.v ===== *)
(** * Verification of the memory, scheduling and synchronization core of k23

    k23 is an operating system kernel.  This development models the parts of
    it that other parts stand on - page tables and the loader that sets them
    up, frame allocation, containers, locks, the tasks of the async runtime
    and its timer - and proves what each promises to its users.

    ** The parts and how they interact

    - lib/mem-core defines addresses, page sizes, memory attributes, the
      architecture interface with its RISC-V implementations, the window
      through which physical memory is accessed (the physmap) and the frame
      allocator interface.  lib/riscv issues the firmware calls and accesses
      the satp register.
    - lib/mem-mmu walks and edits page tables with these.  It takes frames for
      tables from a frame allocator and records the TLB invalidations that are
      due.
    - sys/loader-flat and sys/loader-common boot the machine: they describe
      physical memory by regions (kept in a vector of lib/arrayvec), which they
      find in the device tree of the firmware with lib/fdt, allocate
      frames from them with a bump allocator, lay out the kernel's address
      space, map everything through lib/mem-mmu and hand the memory that is
      left to the kernel.
    - sys/async runs tasks: a reference-counted task is polled, woken and
      joined by several harts through one atomic state word; its timer wakes
      sleeping tasks.
    - lib/spin provides the locks, lib/wavltree the balanced tree in which the
      kernel keeps its memory regions.
    - sys/kernel/src/mem manages address spaces: the regions are nodes of that
      tree and keep a summary of their subtree through its hooks, by which
      room for new regions is found; mappings are collected in batches and
      carried over to the page tables, and page faults are resolved by the
      region that they fall into.  Frames for tables, objects and the heap come
      from its buddy allocator, which takes over the memory that an allocator
      for early boot has left.

    ** Files

    - [Prelude]: outcomes (a value, a panic, undefined behaviour), the state
      monad, 64-bit integers with checked, wrapping and saturating arithmetic,
      the hint database [runs] and the tactics [step] and [step_by].
      [Bitfield]: packed words; the crate that implements them is an interface
      with laws and a concrete instance.
    - [Address] (address.rs, address_range.rs), [Arch] (memory_attributes.rs,
      page_size.rs, arch/mod.rs), [Riscv] (sbi, satp.rs), [RiscvPaging]
      (arch/riscv64.rs), [PhysMap] (physmap.rs), [Machine] (memory as a finite
      map from addresses to words, and frame_allocator.rs): lib/mem-core and
      lib/riscv.  The traits [Arch] and [FrameAllocator] are classes;
      [ArchLaws] and [FrameAllocatorLaws] say what lib/mem-mmu relies on, and
      the RISC-V modes and the allocators are proved to satisfy them.
    - [Table] (table.rs, utils.rs), [Flush] (flush.rs), [AddressSpace]
      (address_space.rs): lib/mem-mmu.  [PageTable] is the abstract view of a
      tree of tables in memory, [Walk], [TableOps] and [Visitors] relate the
      walk and its four visitors to it, [AddressSpaceSpec] the operations to
      the translation of addresses, [FastPath] the single-page path to the
      general one.  [TestAllocator] (lib/mem-testkit) and [Demo] give a
      concrete machine.  [Mmu] has the theorems.
    - [ArrayVec] (lib/arrayvec): a vector over possibly uninitialized slots.
    - [LoaderRegions] (info.rs, fdt.rs), [BumpAllocator] and [Loader]
      (loader-flat: frame_alloc.rs, main.rs), [KernelMapping] (loader-common:
      mapping.rs, lib.rs): the loader.
    - [Fdt] (lib/fdt: parser.rs, lib.rs), [LoaderFdt] (loader-common: fdt.rs,
      loader-flat: machine_info.rs): the device tree and what the loader reads
      from it.  [FdtCorrect] gives the wire format as a grammar, [FdtTree]
      reads blobs of trees, [FdtSafe] treats arbitrary input, [FdtRegs]
      registers, [LoaderFdtCorrect] the memory of the machine, [FdtDemo] a
      small tree.
    - [Interleaving]: executions of concurrent agents, one access to shared
      memory at a time, and counting invariants.  [TaskState] (task/state.rs),
      [Task] (task.rs, task/join_handle.rs), [RwLock] (rw_lock.rs),
      [SpinSync] (once.rs, mutex.rs, barrier.rs) use it.
    - [TimerWheel] (time/timer/wheel.rs, entry.rs, the core of timer.rs),
      [TimerCore] its invariant, [Timer] (timer.rs, sleep.rs, time.rs).
    - [WavlTree] (lib/wavltree: lib.rs, utils.rs, entry.rs, cursor.rs,
      iter.rs): the intrusive balanced tree, its nodes' links as a heap.
      [WavlRepr] is a small separation logic for it: a state is described by
      a position in a tree and disjoint pieces of the heap, and [runs] says
      what an operation does to a description.  [WavlBalance] and
      [WavlShrink] treat the rebalancing after insertion and removal,
      [WavlSearch] the descents, [WavlOps] each operation, and [Wavl] has the
      theorems.
    - [Regions] (mem/address_space_region.rs): the regions of a kernel address
      space and the hooks by which they keep their summaries; [FindSpot] the
      search for room (find_spot_at_index of mem/address_space.rs);
      [KernelSpace] the operations of the address space (mem/address_space.rs),
      with mem/flush.rs, mem/mod.rs and the constants of arch/riscv64/mem.rs;
      [SpaceCorrect] its theorems, [SpaceDemo] a concrete machine.  A region is
      a node of the tree's heap; freshly boxed regions get some unused pointer.
    - [FrameList] (mem/frame_list.rs) keeps the frames of a memory object in
      the tree; [Vmo] (mem/vmo.rs, mem/provider.rs) is the paged object, an
      instance of the interface that [KernelSpace] uses.
    - [KernelPaging] (arch/riscv64/mem.rs): the page tables of the kernel;
      [KernelPagingCorrect] reads their entries as an instance of [Arch] and
      proves the operations against the abstract view of [PageTable], for any
      supply of frames ([TableFrames], [TableFramesLaws]); [KernelPagingDemo]
      is a concrete machine; [KernelNew] treats the creation of an address
      space, which shares the upper half of the active one.
    - [KernelFrames] (mem/frame_alloc): the buddy arenas with the slots of
      their frames, the selection of arenas, the caches of the CPUs and
      reference-counted frames; the lists of slots, of the crate cordyceps,
      are a class with laws.  [KernelFramesCorrect] treats an arena,
      [KernelFramesNew] its construction, [KernelFramesSelect] the selection,
      [KernelFramesAlloc] the state of the allocator, [KernelFramesRun] the
      search for contiguous frames in a cache, [KernelFramesOps] the
      operations, [KernelFramesInit] the start, [KernelFramesTrace] any use of
      it.  [KernelTables] makes it the supply of frames of the page tables.
    - [KernelBoot] (mem/bootstrap_alloc.rs, main.rs) is the memory during early
      boot, [KernelBootCorrect] its theorems; [KernelHeap] (allocator.rs) the
      source from which the heap grows, whose manager, the crate talc, is a
      class with a law.  [KernelFramesDemo] is a concrete machine for all of
      these.
    ** What the theorems show

    - Address spaces: every operation returns for well-formed arguments,
      changes the translation of exactly the range it is given as it should,
      records it for invalidation, and touches no other memory; errors only
      come from a frame allocator that refuses; lookup computes the
      translation that the tables define; mapping and unmapping is the
      identity; the fast path equals the general walk.
    - Vector: every operation implements a list operation, under unwinding
      predicates and for partly consumed iterators ([bounded_list]).
    - Loader: reservations are carved out of usable memory; allocations are
      aligned, disjoint and taken from free memory, refusals mean that none
      fits; the memory map handed over marks exactly the allocated memory as
      unusable, and so reserved memory as usable; after boot every page of the
      kernel image is mapped to its place in the staged image with the
      permissions of its segment, RELRO is read-only, and physical memory is
      mapped.
    - Tasks: transitions of the state word are atomic and lock-free and the
      packed word refines a record; no use after free, no double free, unique
      access to the future, the output and the join waker; a task is freed
      exactly when nobody refers to it; which panics can happen; no wakeup is lost, with the one exception that the code has.
    - Locks: exclusion, absence of assertion failures, one-time
      initialization also when the closure panics, rounds of a barrier, for
      any number of threads up to a bound beyond reach and any interleaving.
    - Device tree: on arbitrary words opening a blob and walking it returns, or
      panics where the header or a truncated root make it ([fdt_safe]); on the
      blob of a tree the walk, the lookup by path and the registers are what
      the tree says, and the memory the loader finds usable is what the memory
      nodes list without what is reserved ([physical_memory_ok]).
    - Timer: as long as every pending deadline is in the present turn of the
      uppermost wheel ([present_turn]), polling fires exactly what is due and
      returns when to poll next, turning the timer terminates, and registering
      and dropping sleeps keep the wheel well-formed; conversions of time are
      exact.  [far_poll] and [far_deadline_spins] show what a later deadline
      does.
    - Balanced tree: it refines a list of nodes sorted by key under insertion,
      removal, search, iteration and entries; parent links, rank parities and
      the size stay right and no assertion fails; searches take a logarithmic
      number of steps; the tree passes its own validity check.
    - Kernel address spaces: as long as nothing is unmapped, and in kernel
      spaces aligning does not overflow, the regions stay
      disjoint, in order and within the limits, with exact summaries; the
      search for room is complete and never picks a spot that is taken;
      requests that are ill-formed or begin in a region have no effect; a
      fault is resolved by the region that contains the page and permits the
      access.  Unmapping is modelled in full, but keeps less: the examples of
      [SpaceDemo] show what goes wrong.
    - Frame lists: a map from pages to frames, as long as nodes are made
      through entries or at their first page; reading a paged object yields
      the same frame from the first time on.
    - Kernel page tables: mapping and changing flags translate exactly the
      range anew and record it for invalidation, lookup computes what the
      tables define.  Unmapping is modelled; the examples show where it goes
      wrong.  On the kernel's frame allocator, a new address space shares the
      upper half of the active one, and tables never share a frame with
      anything in use.
    - Kernel frames: whatever the order of memory regions, allocations, clones
      and drops, a frame is free once or in use, counts its references, and
      never overlaps a slot or memory given out during early boot; contiguous
      allocation finds an aligned run whenever the cache or an arena has one;
      the heap keeps its cap.
    The examples that are not theorems about all inputs - named after what
    happens in them - are executions in which the code does something it does
    not mean to do.

    ** Bounds and fuel

    Integers are [Z] with the wrap-around or the overflow check of the
    operation written out.  The walk recurses on the number of paging levels.
    Loops over a range have the length of the range as their bound, loops over
    a device tree the length of what is left of it.  The loop
    of [core_poll] runs at most once per pending entry, and [turn_locked]
    consumes the readings of the clock it is given; [turn_terminates] says how
    many are enough.  Concurrent executions are unbounded.  Memory accesses
    interleave sequentially consistently.
    The loops of the tree get as many steps as there are nodes on the heap, and
    one: every descent and every climb visits a node at most once.
    The walk of the search for room visits each region at most three times.
    The loops over the regions of a range stop after the first, which is what
    the code does: a second round panics or is not reached.
    The loops of the kernel's page tables run at most once per page of the
    range and once more; an arena is made in as many steps as it has frames,
    and every selection of an arena uses up a memory region.
    ** Not modelled

    - Of the kernel proper (sys/kernel) all but its memory management: trap
      handling, devices and the WebAssembly runtime, which depends on crates
      outside the repository; of its memory management, copies to and from
      user memory (mmap.rs) and the interleaving of the atomic reference
      counts of frames.  The address space is verified against the interfaces
      [Frames] and [ArchAddressSpace].
    - In sys/async the executor with its queues (of another crate), block_on,
      polling a sleep through a wait cell (of another crate), [Instant] and
      [Timeout].
    - In lib/spin the variants that disable interrupts, the reentrant mutex,
      cells with data and the back-off; weak memory orderings.
    - In the loader ELF staging and relocation, assembly, logging and the UEFI
      variant.
    - In lib/wavltree the dot output, and builds without debug assertions,
      which differ in not carrying the rank beside its parity.
    - Formatting, comparison and conversion impls that delegate to the
      standard library; lib/wast and lib/sharded-slab, which are copies of
      upstream projects; lib/range-tree, lib/cpu-local, lib/unwind,
      lib/addr2line, lib/ecma-119 and small utility crates. *)

From stdpp Require Import base numbers list gmap.
From Stdlib Require Import ZArith Lia.

#[global] Open Scope Z_scope.

(** ** Outcomes

    The development models the checked (debug) build: overflow checks and
    [debug_assert!]s are on.  A call finishes with a value, panics, or - for
    the [unsafe] operations - runs into undefined behaviour.  A theorem that
    concludes [Done] therefore also covers the release build, which computes
    the same values whenever no check fires. *)
Inductive outcome (A : Type) : Type :=
  | Done (a : A)
  | Panicked
  | Undefined.
Arguments Done {A} a.
Arguments Panicked {A}.
Arguments Undefined {A}.

#[global] Instance outcome_ret : MRet outcome := fun _ a => Done a.
#[global] Instance outcome_bind : MBind outcome := fun _ _ f m =>
  match m with
  | Done a => f a
  | Panicked => Panicked
  | Undefined => Undefined
  end.

(** [Result<A, E>]. *)
Inductive result (E A : Type) : Type :=
  | Ok (a : A)
  | Err (e : E).
Arguments Ok {E A} a.
Arguments Err {E A} e.

(** State passing on top of outcomes: what [&mut] and memory accesses become. *)
Definition M (S A : Type) : Type := S -> outcome (A * S).

#[global] Instance M_ret {S} : MRet (M S) := fun _ a s => Done (a, s).
#[global] Instance M_bind {S} : MBind (M S) := fun _ _ f m s =>
  match m s with
  | Done (a, s') => f a s'
  | Panicked => Panicked
  | Undefined => Undefined
  end.

Definition lift {S A} (o : outcome A) : M S A := fun s =>
  match o with
  | Done a => Done (a, s)
  | Panicked => Panicked
  | Undefined => Undefined
  end.

(** The [?] operator: run [k] on an [Ok], return the [Err] to the caller. *)
Definition try_bind {S E A B} (m : M S (result E A)) (k : A -> M S (result E B)) :
    M S (result E B) :=
  fun s =>
    match m s with
    | Done (Ok a, s') => k a s'
    | Done (Err e, s') => Done (Err e, s')
    | Panicked => Panicked
    | Undefined => Undefined
    end.

Declare Scope k23_scope.
Delimit Scope k23_scope with k23.
#[global] Open Scope k23_scope.

Notation "x <-? m ; k" := (try_bind m (fun x => k))
  (at level 20, m at level 100, k at level 200, only parsing) : k23_scope.

(** [assert!] / [debug_assert!]. *)
Definition assert_ (b : bool) : outcome unit := if b then Done tt else Panicked.

(** ** Machine integers: [usize] as [Z] in [[0, 2^64)] *)

Abbreviation USIZE_MOD := 18446744073709551616%Z.
Abbreviation USIZE_MAX := 18446744073709551615%Z.

Definition is_usize (n : Z) : Prop := 0 <= n < USIZE_MOD.

Definition wrap (n : Z) : Z := n mod USIZE_MOD.
Definition wrapping_add (a b : Z) : Z := wrap (a + b).
Definition wrapping_sub (a b : Z) : Z := wrap (a - b).

(** [+], [-] and [*] with overflow checks. *)
Definition checked (n : Z) : outcome Z :=
  if (0 <=? n) && (n <? USIZE_MOD) then Done n else Panicked.
Definition u_add (a b : Z) : outcome Z := checked (a + b).
Definition u_sub (a b : Z) : outcome Z := checked (a - b).
Definition u_mul (a b : Z) : outcome Z := checked (a * b).

Definition checked_add (a b : Z) : option Z :=
  if a + b <? USIZE_MOD then Some (a + b) else None.
Definition saturating_add (a b : Z) : Z := Z.min (a + b) USIZE_MAX.

(** [x as isize]: the two's complement reading of a [usize]. *)
Definition as_isize (n : Z) : Z := if n <? 2 ^ 63 then n else n - USIZE_MOD.

(** [!x] on a [usize]. *)
Definition u_not (n : Z) : Z := USIZE_MAX - n.

Definition is_power_of_two (n : Z) : bool := (0 <? n) && (2 ^ Z.log2 n =? n).

(** [for _ in 0..n { body }] with the state threaded through. *)
Fixpoint repeat_M {S} (n : nat) (body : M S unit) : M S unit :=
  match n with
  | O => mret tt
  | Datatypes.S n' => body ≫= fun _ => repeat_M n' body
  end.

(** ** Lemmas on outcomes *)

Lemma M_bind_Done {S A B} (m : M S A) (f : A -> M S B) s a s' :
  m s = Done (a, s') -> (m ≫= f) s = f a s'.
Proof. intros H. unfold mbind, M_bind. by rewrite H. Qed.

Lemma M_bind_inv {S A B} (m : M S A) (f : A -> M S B) s r :
  (m ≫= f) s = Done r -> exists a s', m s = Done (a, s') /\ f a s' = Done r.
Proof. unfold mbind, M_bind. destruct (m s) as [[a s']| |]; naive_solver. Qed.

Lemma try_bind_Ok {S E A B} (m : M S (result E A)) (k : A -> M S (result E B)) s a s' :
  m s = Done (Ok a, s') -> try_bind m k s = k a s'.
Proof. intros H. unfold try_bind. by rewrite H. Qed.

Lemma try_bind_Err {S E A B} (m : M S (result E A)) (k : A -> M S (result E B)) s e s' :
  m s = Done (Err e, s') -> try_bind m k s = Done (Err e, s').
Proof. intros H. unfold try_bind. by rewrite H. Qed.

Lemma outcome_bind_Done {A B} (m : outcome A) (f : A -> outcome B) a :
  m = Done a -> (m ≫= f) = f a.
Proof. by intros ->. Qed.

Lemma outcome_bind_inv {A B} (m : outcome A) (f : A -> outcome B) r :
  (m ≫= f) = Done r -> exists a, m = Done a /\ f a = Done r.
Proof. destruct m; naive_solver. Qed.

Lemma lift_Done {S A} (o : outcome A) (a : A) (s : S) :
  o = Done a -> lift o s = Done (a, s).
Proof. by intros ->. Qed.

Lemma lift_Done_bind {S A B} (o : outcome A) (a : A) (f : A -> M S B) s :
  o = Done a -> (lift o ≫= f) s = f a s.
Proof. by intros ->. Qed.

Lemma assert_true b : b = true -> assert_ b = Done tt.
Proof. by intros ->. Qed.

Lemma assert_inv b u : assert_ b = Done u -> b = true.
Proof. by destruct b. Qed.

Lemma assert_ltb a b : a < b -> assert_ (a <? b) = Done tt.
Proof. intros. by apply assert_true, Z.ltb_lt. Qed.

Lemma assert_leb a b : a <= b -> assert_ (a <=? b) = Done tt.
Proof. intros. by apply assert_true, Z.leb_le. Qed.

(** Automation: [runs] holds the facts that an operation finishes normally;
    [step] runs the first operation of a bind with them, [step_by H] with the
    given equation. *)
Create HintDb runs.
#[export] Hint Resolve lift_Done assert_true assert_ltb assert_leb : runs.

Ltac step := first
  [ erewrite M_bind_Done by (eauto with runs)
  | erewrite outcome_bind_Done by (eauto with runs) ];
  cbv beta.
Tactic Notation "step_by" uconstr(H) := first
  [ erewrite M_bind_Done by (first [exact H | apply lift_Done; exact H])
  | erewrite outcome_bind_Done by exact H
  | erewrite try_bind_Ok by exact H ];
  cbv beta.

(** ** Lemmas on machine integers *)

Lemma wrap_small n : is_usize n -> wrap n = n.
Proof. apply Z.mod_small. Qed.

Lemma wrap_usize n : is_usize (wrap n).
Proof. by apply Z.mod_pos_bound. Qed.

Lemma checked_Done n : is_usize n -> checked n = Done n.
Proof.
  intros [? ?]. unfold checked.
  by rewrite (proj2 (Z.leb_le 0 n)), (proj2 (Z.ltb_lt n _)) by lia.
Qed.

Lemma checked_inv n r : checked n = Done r -> r = n /\ is_usize n.
Proof.
  unfold checked, is_usize. destruct (Z.leb_spec 0 n), (Z.ltb_spec n USIZE_MOD); naive_solver.
Qed.

Lemma checked_Panicked n : ~ is_usize n -> checked n = Panicked.
Proof.
  unfold checked, is_usize. intros H.
  destruct (Z.leb_spec 0 n), (Z.ltb_spec n USIZE_MOD); simpl; [lia | done..].
Qed.

Lemma u_add_Done a b : is_usize (a + b) -> u_add a b = Done (a + b).
Proof. apply checked_Done. Qed.
Lemma u_sub_Done a b : is_usize (a - b) -> u_sub a b = Done (a - b).
Proof. apply checked_Done. Qed.
Lemma u_mul_Done a b : is_usize (a * b) -> u_mul a b = Done (a * b).
Proof. apply checked_Done. Qed.

#[export] Hint Resolve u_add_Done u_sub_Done u_mul_Done : runs.

Lemma pow2_pos k : 0 <= k -> 0 < 2 ^ k.
Proof. intros. by apply Z.pow_pos_nonneg. Qed.

Lemma pow2_usize k : 0 <= k < 64 -> is_usize (2 ^ k).
Proof.
  intros. unfold is_usize. change USIZE_MOD with (2 ^ 64).
  split; [pose proof (pow2_pos k); lia |]. apply Z.pow_lt_mono_r; lia.
Qed.

Lemma pow2_split j k : 0 <= j <= k -> 2 ^ k = 2 ^ j * 2 ^ (k - j).
Proof. intros. rewrite <- Z.pow_add_r by lia. f_equal. lia. Qed.

Lemma is_power_of_two_spec n :
  is_power_of_two n = true <-> exists k, 0 <= k /\ n = 2 ^ k.
Proof.
  unfold is_power_of_two. rewrite andb_true_iff, Z.ltb_lt, Z.eqb_eq. split.
  - intros [? <-]. exists (Z.log2 n). split; [apply Z.log2_nonneg | done].
  - intros (k & ? & ->). split; [by apply pow2_pos | by rewrite Z.log2_pow2].
Qed.

Lemma is_power_of_two_pow2 k : 0 <= k -> is_power_of_two (2 ^ k) = true.
Proof. intros. apply is_power_of_two_spec. eauto. Qed.

Lemma usize_pow2_lt k : 0 <= k -> is_usize (2 ^ k) -> k < 64.
Proof.
  unfold is_usize. change USIZE_MOD with (2 ^ 64). intros ? [_ ?].
  by apply (Z.pow_lt_mono_r_iff 2) in H0.
Qed.

(** [x & (2^k - 1)] keeps the low [k] bits. *)
Lemma land_low_mask x k : 0 <= k -> Z.land x (2 ^ k - 1) = x mod 2 ^ k.
Proof. intros. rewrite <- Z.land_ones by done. by rewrite Z.ones_equiv. Qed.

(** Without common bits, [|] is addition. *)
Lemma lor_add a b k : 0 <= k -> a mod 2 ^ k = 0 -> 0 <= b < 2 ^ k -> Z.lor a b = a + b.
Proof.
  intros Hk Ha Hb. assert (Hdis : Z.land a b = 0).
  { apply Z.bits_inj'. intros i Hi. rewrite Z.land_spec, Z.bits_0. destruct (decide (i < k)).
    - rewrite <- (Z.mod_pow2_bits_low a k i), Ha, Z.bits_0 by lia. done.
    - rewrite <- (Z.mod_small b (2 ^ k)), Z.mod_pow2_bits_high, andb_false_r by lia. done. }
  by rewrite Z.add_nocarry_lxor, Z.lxor_lor.
Qed.

(** [x & (0usize.wrapping_sub(2^k))] clears the low [k] bits. *)
Lemma land_high_mask x k :
  is_usize x -> 0 <= k < 64 ->
  Z.land x (wrapping_sub 0 (2 ^ k)) = x - x mod 2 ^ k.
Proof.
  intros Hx Hk. pose proof (pow2_usize k Hk) as Hp. pose proof (pow2_pos k ltac:(lia)).
  assert (Hm : wrapping_sub 0 (2 ^ k) = Z.ldiff (Z.ones 64) (Z.ones k)).
  { unfold wrapping_sub, wrap, is_usize in *.
    replace (0 - 2 ^ k) with (USIZE_MOD - 2 ^ k + (-1) * USIZE_MOD) by lia.
    rewrite Z.mod_add, Z.mod_small by lia.
    pose proof (Z.sub_nocarry_ldiff (Z.ones 64) (Z.ones k)) as E.
    rewrite <- E, !Z.ones_equiv; [change USIZE_MOD with (2 ^ 64); lia |].
    apply Z.bits_inj'. intros i Hi. rewrite Z.ldiff_spec, !Z.testbit_ones_nonneg, Z.bits_0 by lia.
    destruct (Z.ltb_spec i k), (Z.ltb_spec i 64); simpl; lia. }
  rewrite Hm. rewrite <- (Z.land_ones x k) by lia.
  rewrite Z.sub_nocarry_ldiff.
  - apply Z.bits_inj'. intros i Hi.
    rewrite Z.land_spec, !Z.ldiff_spec, Z.land_spec, !Z.testbit_ones_nonneg by lia.
    destruct (Z.ltb_spec i 64).
    + destruct (Z.testbit x i), (i <? k); done.
    + rewrite (Z.bits_above_log2 x i); [done | apply Hx |].
      destruct (decide (x = 0)) as [-> | ?]; [simpl; lia |].
      apply Z.log2_lt_pow2; [destruct Hx; lia |].
      destruct Hx as [? Hx]. change USIZE_MOD with (2 ^ 64) in Hx.
      eapply Z.lt_le_trans; [exact Hx | apply Z.pow_le_mono_r; lia].
  - apply Z.bits_inj'. intros i Hi.
    rewrite Z.ldiff_spec, Z.land_spec, Z.bits_0. destruct (Z.testbit x i); simpl; [| done].
    by rewrite andb_false_r.
Qed.

(** Rounding up to a multiple. *)
Definition roundup (n A : Z) : Z := (n + (A - 1)) - (n + (A - 1)) mod A.

Lemma roundup_spec n A : 0 < A -> n <= roundup n A < n + A /\ roundup n A mod A = 0.
Proof.
  intros HA. unfold roundup. pose proof (Z.mod_pos_bound (n + (A - 1)) A HA). split; [lia |].
  by rewrite Zminus_mod_idemp_r, Z.sub_diag.
Qed.

Lemma roundup_least n A m : 0 < A -> m mod A = 0 -> n <= m -> roundup n A <= m.
Proof.
  intros HA Hm Hle. destruct (roundup_spec n A HA) as [[_ Hlt] Hr].
  apply Z.mod_divide in Hm as [q ->]; [| lia]. apply Z.mod_divide in Hr as [q' Hq']; [| lia].
  rewrite Hq' in *. assert (q' < q + 1) by nia. nia.
Qed.
