(* ===== verification/Address.v ===== *)
(** * Addresses and address ranges (lib/mem-core/src/address.rs, address_range.rs)

    [VirtualAddress] and [PhysicalAddress] are newtypes over [usize]; the
    macro [impl_address!] gives both the same methods, so one definition per
    method serves both.  Methods that can panic return an [outcome]. *)

From stdpp Require Import base numbers list.
From Stdlib Require Import ZArith Lia.
From S2P Require Import Prelude.

Abbreviation VirtualAddress := Z.
Abbreviation PhysicalAddress := Z.

(** ** Arithmetic *)

Definition ADDR_MAX : Z := USIZE_MAX.
Definition ADDR_MIN : Z := 0.

Definition addr_is_null (a : Z) : bool := a =? 0.

Definition addr_add (a offset : Z) : outcome Z := u_add a offset.
Definition addr_sub (a offset : Z) : outcome Z := u_sub a offset.

(** [overflowing_add_signed] reports overflow iff the sum leaves [usize]. *)
Definition addr_offset (a offset : Z) : outcome Z :=
  let '(s, b) := (wrap (a + offset), negb ((0 <=? a + offset) && (a + offset <? USIZE_MOD))) in
  if b then Panicked else Done s.

Definition addr_wrapping_add (a offset : Z) : Z := wrapping_add a offset.
Definition addr_wrapping_sub (a offset : Z) : Z := wrapping_sub a offset.
Definition addr_wrapping_offset (a offset : Z) : Z := wrap (a + offset).
Definition addr_saturating_add (a offset : Z) : Z := saturating_add a offset.
Definition addr_checked_add (a offset : Z) : option Z := checked_add a offset.

Definition addr_offset_from (a origin : Z) : Z := as_isize (wrapping_sub a origin).

Definition addr_offset_from_unsigned (a origin : Z) : outcome Z :=
  let '(d, b) := (wrapping_sub a origin, a <? origin) in
  if b then Panicked else Done d.

(** ** Alignment *)

Definition is_aligned_to (a align : Z) : outcome bool :=
  if is_power_of_two align then Done (Z.land a (align - 1) =? 0) else Panicked.

Definition align_up (a align : Z) : outcome Z :=
  if negb (is_power_of_two align) then Panicked else
  let align_minus_one := align - 1 in
  let aligned := Z.land (wrapping_add a align_minus_one) (wrapping_sub 0 align) in
  ok ← is_aligned_to aligned align;
  _ ← assert_ ok;
  _ ← assert_ (a <=? aligned);
  mret aligned.

Definition align_down (a align : Z) : outcome Z :=
  if negb (is_power_of_two align) then Panicked else
  let aligned := Z.land a (wrapping_sub 0 align) in
  ok ← is_aligned_to aligned align;
  _ ← assert_ ok;
  _ ← assert_ (aligned <=? a);
  mret aligned.

(** ** Canonical form.  [bits] is [A::VIRTUAL_ADDRESS_BITS]. *)

(** [((self.get() as isize) << shift) >> shift) as usize]; shifting by the
    full width panics. *)
Definition canonicalize (bits a : Z) : outcome Z :=
  shift ← u_sub 64 bits;
  if 64 <=? shift then Panicked else
  Done (wrap (Z.shiftr (as_isize (wrap (Z.shiftl (as_isize a) shift))) shift)).

Definition is_canonical (bits a : Z) : outcome bool :=
  if 64 <=? bits then Panicked else
  let mask := u_not (Z.shiftl 1 bits - 1) in
  let upper := Z.land a mask in
  Done ((upper =? 0) || (upper =? mask)).

(** ** Ranges: [core::range::Range<Address>] *)

Record range : Type := Range { r_start : Z; r_end : Z }.

#[global] Instance range_eq_dec : EqDecision range.
Proof. solve_decision. Defined.

Definition range_from_start_len (start len : Z) : outcome range :=
  e ← addr_add start len;
  mret (Range start e).

Definition range_is_empty (r : range) : bool := r_end r <=? r_start r.

Definition range_len (r : range) : outcome Z :=
  if r_end r <=? r_start r then Done 0
  else addr_offset_from_unsigned (r_end r) (r_start r).

Definition range_contains (r : range) (a : Z) : bool :=
  (r_start r <=? a) && (a <? r_end r).

Definition range_overlaps (r other : range) : bool :=
  (r_start r <? r_end other) && (r_start other <? r_end r).

Definition range_intersect (r other : range) : range :=
  Range (Z.max (r_start r) (r_start other)) (Z.min (r_end r) (r_end other)).

Definition range_align_in (r : range) (align : Z) : outcome range :=
  s ← align_up (r_start r) align;
  e ← align_down (r_end r) align;
  mret (Range s e).

Definition range_align_out (r : range) (align : Z) : outcome range :=
  s ← align_down (r_start r) align;
  e ← align_up (r_end r) align;
  mret (Range s e).

(** ** Lemmas *)

Lemma addr_offset_from_unsigned_Done a o :
  is_usize a -> is_usize o -> o <= a -> addr_offset_from_unsigned a o = Done (a - o).
Proof.
  unfold is_usize. intros. unfold addr_offset_from_unsigned.
  destruct (Z.ltb_spec a o); [lia |]. unfold wrapping_sub.
  rewrite wrap_small; [done | unfold is_usize; lia].
Qed.

Lemma is_aligned_to_pow2 a k :
  0 <= k -> is_aligned_to a (2 ^ k) = Done (a mod 2 ^ k =? 0).
Proof.
  intros. unfold is_aligned_to.
  by rewrite is_power_of_two_pow2, land_low_mask.
Qed.

Lemma align_down_pow2 a k :
  is_usize a -> 0 <= k < 64 -> align_down a (2 ^ k) = Done (a - a mod 2 ^ k).
Proof.
  intros Ha Hk. unfold align_down. pose proof (pow2_pos k ltac:(lia)) as Hp.
  rewrite is_power_of_two_pow2 by lia. simpl negb. cbv iota.
  rewrite land_high_mask by done. rewrite is_aligned_to_pow2 by lia.
  assert (Hm : (a - a mod 2 ^ k) mod 2 ^ k = 0).
  { by rewrite Zminus_mod_idemp_r, Z.sub_diag. }
  rewrite Hm. simpl. pose proof (Z.mod_pos_bound a (2 ^ k) Hp).
  by rewrite (proj2 (Z.leb_le _ _)) by lia.
Qed.

(** Rounding up to a multiple of [2^k], when the sum does not wrap. *)
Lemma align_up_pow2 a k :
  is_usize a -> 0 <= k < 64 -> a + (2 ^ k - 1) < USIZE_MOD ->
  align_up a (2 ^ k) = Done ((a + (2 ^ k - 1)) - (a + (2 ^ k - 1)) mod 2 ^ k).
Proof.
  intros Ha Hk Hov. unfold align_up. pose proof (pow2_pos k ltac:(lia)) as Hp.
  destruct Ha as [Ha1 Ha2].
  rewrite is_power_of_two_pow2 by lia. simpl negb. cbv iota.
  unfold wrapping_add. rewrite (wrap_small (a + (2 ^ k - 1))) by (unfold is_usize; lia).
  rewrite land_high_mask by (unfold is_usize; lia). rewrite is_aligned_to_pow2 by lia.
  set (b := a + (2 ^ k - 1)) in *.
  assert (Hm : (b - b mod 2 ^ k) mod 2 ^ k = 0).
  { by rewrite Zminus_mod_idemp_r, Z.sub_diag. }
  rewrite Hm. simpl. pose proof (Z.mod_pos_bound b (2 ^ k) Hp).
  by rewrite (proj2 (Z.leb_le _ _)) by lia.
Qed.

Lemma align_up_overflow a k :
  is_usize a -> 0 <= k < 64 -> USIZE_MOD <= a + (2 ^ k - 1) ->
  align_up a (2 ^ k) = Panicked.
Proof.
  intros [Ha1 Ha2] Hk Hov. unfold align_up. pose proof (pow2_pos k ltac:(lia)) as Hp.
  pose proof (pow2_usize k Hk) as [_ Hpu].
  rewrite is_power_of_two_pow2 by lia. simpl negb. cbv iota.
  assert (Hw : wrapping_add a (2 ^ k - 1) = a + (2 ^ k - 1) - USIZE_MOD).
  { unfold wrapping_add, wrap. symmetry. apply (Z.mod_unique_pos _ _ 1); lia. }
  rewrite Hw, land_high_mask by (unfold is_usize; lia).
  rewrite is_aligned_to_pow2 by lia.
  set (b := a + (2 ^ k - 1) - USIZE_MOD) in *.
  assert (Hm : (b - b mod 2 ^ k) mod 2 ^ k = 0).
  { by rewrite Zminus_mod_idemp_r, Z.sub_diag. }
  rewrite Hm. simpl. pose proof (Z.mod_pos_bound b (2 ^ k) Hp).
  by rewrite (proj2 (Z.leb_gt _ _)) by lia.
Qed.

(** Closed form of [canonicalize]: sign extension of the low [bits] bits. *)
Definition sign_extend (bits a : Z) : Z :=
  let m := a mod 2 ^ bits in
  if m <? 2 ^ (bits - 1) then m else m + (USIZE_MOD - 2 ^ bits).

Lemma as_isize_mod a : is_usize a -> as_isize a mod USIZE_MOD = a.
Proof.
  unfold as_isize, is_usize. intros.
  destruct (Z.ltb_spec a (2 ^ 63)); [by rewrite Z.mod_small by lia |].
  replace (a - USIZE_MOD) with (a + (-1) * USIZE_MOD) by lia.
  by rewrite Z.mod_add, Z.mod_small by lia.
Qed.

Lemma canonicalize_sign_extend bits a :
  is_usize a -> 0 < bits <= 64 -> canonicalize bits a = Done (sign_extend bits a).
Proof.
  intros Ha Hb. unfold canonicalize, sign_extend.
  rewrite u_sub_Done by (unfold is_usize; lia). simpl.
  destruct (Z.leb_spec 64 (64 - bits)); [lia |]. f_equal.
  set (s := 64 - bits) in *. set (m := a mod 2 ^ bits).
  pose proof (pow2_pos s ltac:(lia)) as Hs. pose proof (pow2_pos bits ltac:(lia)) as Hb'.
  pose proof (pow2_pos (bits - 1) ltac:(lia)) as Hb1.
  assert (HU : USIZE_MOD = 2 ^ bits * 2 ^ s)
    by (change USIZE_MOD with (2 ^ 64); rewrite <- Z.pow_add_r by lia; f_equal; lia).
  assert (H63 : 2 ^ 63 = 2 ^ (bits - 1) * 2 ^ s)
    by (rewrite <- Z.pow_add_r by lia; f_equal; lia).
  assert (Hb2 : 2 ^ bits = 2 * 2 ^ (bits - 1))
    by (rewrite <- Z.pow_succ_r by lia; f_equal; lia).
  pose proof (Z.mod_pos_bound a (2 ^ bits) Hb') as Hm. fold m in Hm.
  assert (Hshl : wrap (Z.shiftl (as_isize a) s) = m * 2 ^ s).
  { unfold wrap. rewrite Z.shiftl_mul_pow2 by lia.
    rewrite <- Z.mul_mod_idemp_l, (as_isize_mod a Ha) by lia.
    rewrite HU at 1. rewrite Z.mul_mod_distr_r by lia. done. }
  rewrite Hshl. unfold as_isize. rewrite H63.
  destruct (Z.ltb_spec (m * 2 ^ s) (2 ^ (bits - 1) * 2 ^ s)) as [Hlt | Hge];
    destruct (Z.ltb_spec m (2 ^ (bits - 1))) as [Hlt' | Hge']; [| nia | nia |];
    rewrite Z.shiftr_div_pow2 by lia.
  - rewrite Z.div_mul by lia. apply wrap_small. unfold is_usize. nia.
  - rewrite HU at 1. replace (m * 2 ^ s - 2 ^ bits * 2 ^ s) with ((m - 2 ^ bits) * 2 ^ s) by lia.
    rewrite Z.div_mul by lia. unfold wrap.
    replace (m - 2 ^ bits) with (m + (USIZE_MOD - 2 ^ bits) + (-1) * USIZE_MOD) by lia.
    rewrite Z.mod_add, Z.mod_small by nia. done.
Qed.

Lemma sign_extend_usize bits a : 0 < bits <= 64 -> is_usize (sign_extend bits a).
Proof.
  intros Hb. unfold sign_extend, is_usize.
  pose proof (Z.mod_pos_bound a (2 ^ bits) (pow2_pos bits ltac:(lia))).
  assert (2 ^ bits <= 2 ^ 64) by (apply Z.pow_le_mono_r; lia).
  change (2 ^ 64) with USIZE_MOD in *. destruct (_ <? _); lia.
Qed.

Lemma sign_extend_mod bits a :
  0 < bits <= 64 -> sign_extend bits a mod 2 ^ bits = a mod 2 ^ bits.
Proof.
  intros Hb. unfold sign_extend. pose proof (pow2_pos bits ltac:(lia)).
  destruct (_ <? _); [by rewrite Z.mod_mod by lia |].
  change USIZE_MOD with (2 ^ 64). rewrite (pow2_split bits 64) by lia.
  replace (a mod 2 ^ bits + (2 ^ bits * 2 ^ (64 - bits) - 2 ^ bits))
    with (a mod 2 ^ bits + (2 ^ (64 - bits) - 1) * 2 ^ bits) by lia.
  by rewrite Z.mod_add, Z.mod_mod by lia.
Qed.

(** An address is in sign-extended form: bits [bits-1..63] are all equal. *)
Definition sign_extended (bits a : Z) : Prop :=
  a < 2 ^ (bits - 1) \/ USIZE_MOD - 2 ^ (bits - 1) <= a.

Lemma sign_extend_id bits a :
  0 < bits <= 64 -> is_usize a -> (sign_extend bits a = a <-> sign_extended bits a).
Proof.
  intros Hb [Ha1 Ha2]. unfold sign_extend, sign_extended.
  pose proof (pow2_pos bits ltac:(lia)). pose proof (pow2_pos (bits - 1) ltac:(lia)).
  assert (Hb2 : 2 ^ bits = 2 * 2 ^ (bits - 1))
    by (rewrite <- Z.pow_succ_r by lia; f_equal; lia).
  assert (HU : USIZE_MOD = 2 ^ bits * 2 ^ (64 - bits))
    by (change USIZE_MOD with (2 ^ 64); apply pow2_split; lia).
  pose proof (pow2_pos (64 - bits) ltac:(lia)).
  pose proof (Z.mod_pos_bound a (2 ^ bits) ltac:(lia)) as Hm.
  split.
  - destruct (Z.ltb_spec (a mod 2 ^ bits) (2 ^ (bits - 1))); lia.
  - intros [Hlo | Hhi].
    + rewrite (Z.mod_small a) by lia. by rewrite (proj2 (Z.ltb_lt _ _)).
    + assert (Hmod : a mod 2 ^ bits = a - (USIZE_MOD - 2 ^ bits)).
      { symmetry. apply (Z.mod_unique_pos _ _ (2 ^ (64 - bits) - 1)); [lia |]. rewrite HU. lia. }
      rewrite Hmod. rewrite (proj2 (Z.ltb_ge _ _)) by lia. lia.
Qed.

(** What [is_canonical] accepts: the bits from [bits] on are equal.  Bit
    [bits - 1], the one [canonicalize] extends, is not compared. *)
Lemma is_canonical_spec bits a :
  0 < bits < 64 -> is_usize a ->
  is_canonical bits a = Done (bool_decide (a < 2 ^ bits \/ USIZE_MOD - 2 ^ bits <= a)).
Proof.
  intros Hb Ha. unfold is_canonical. destruct (Z.leb_spec 64 bits); [lia |].
  rewrite Z.shiftl_mul_pow2, Z.mul_1_l by lia. pose proof (pow2_pos bits ltac:(lia)) as Hp.
  pose proof (pow2_usize bits ltac:(lia)) as [_ Hpu].
  assert (Hmask : u_not (2 ^ bits - 1) = wrapping_sub 0 (2 ^ bits)).
  { unfold u_not, wrapping_sub, wrap. apply (Z.mod_unique_pos _ _ (-1)); lia. }
  rewrite Hmask, land_high_mask by (done || lia). rewrite <- Hmask. unfold u_not.
  assert (HU : USIZE_MOD = 2 ^ bits * 2 ^ (64 - bits))
    by (change USIZE_MOD with (2 ^ 64); apply pow2_split; lia).
  pose proof (pow2_pos (64 - bits) ltac:(lia)). pose proof (Z.mod_pos_bound a (2 ^ bits) Hp).
  pose proof (Z.div_mod a (2 ^ bits) ltac:(lia)) as Hdm. destruct Ha as [Ha1 Ha2].
  f_equal. apply eq_true_iff_eq. rewrite orb_true_iff, !Z.eqb_eq, bool_decide_eq_true.
  set (q := a / 2 ^ bits) in *. set (B := 2 ^ bits) in *. set (K := 2 ^ (64 - bits)) in *.
  split; intros [Hc | Hc].
  - left. lia.
  - right. lia.
  - left. assert (q = 0) by nia. lia.
  - right. assert (q = K - 1) by nia. subst q. nia.
Qed.

(** A range inside one half of the address space, [end] included. *)
Definition in_half (bits s e : Z) : Prop :=
  0 <= s /\ (e <= 2 ^ (bits - 1) \/ (USIZE_MOD - 2 ^ (bits - 1) <= s /\ e < USIZE_MOD)).

Lemma pow2_half bits : 0 < bits -> 2 ^ bits = 2 * 2 ^ (bits - 1).
Proof. intros. rewrite <- Z.pow_succ_r by lia. f_equal. lia. Qed.

Lemma in_half_usize bits s e a : 0 < bits < 64 -> in_half bits s e -> s <= a <= e -> is_usize a.
Proof.
  intros Hb [H0 Hh] Ha. pose proof (pow2_usize (bits - 1) ltac:(lia)) as [_ ?]. unfold is_usize. lia.
Qed.

Lemma in_half_canonical bits s e a :
  0 < bits < 64 -> in_half bits s e -> s <= a <= e -> is_canonical bits a = Done true.
Proof.
  intros Hb Hh Ha. rewrite is_canonical_spec by (done || by eapply in_half_usize).
  rewrite bool_decide_true; [done |]. destruct Hh as [H0 Hh].
  pose proof (pow2_half bits ltac:(lia)). pose proof (pow2_pos (bits - 1) ltac:(lia)). lia.
Qed.

Lemma in_half_canonicalize bits s e a :
  0 < bits < 64 -> in_half bits s e -> s <= a < e -> canonicalize bits a = Done a.
Proof.
  intros Hb Hh Ha. assert (Hu : is_usize a) by (eapply in_half_usize; [done | done | lia]).
  rewrite canonicalize_sign_extend by (done || lia). f_equal.
  apply sign_extend_id; [lia | done |]. destruct Hh as [H0 Hh]. unfold sign_extended. lia.
Qed.

(** Two addresses in the same block of size [2^j] differ only below bit [j]. *)
Lemma lxor_same_block x y j :
  0 <= j -> 0 <= x -> 0 <= y -> x / 2 ^ j = y / 2 ^ j -> 0 <= Z.lxor x y < 2 ^ j.
Proof.
  intros Hj Hx Hy Heq. assert (Hnn : 0 <= Z.lxor x y) by (apply Z.lxor_nonneg; lia). split; [done |].
  pose proof (pow2_pos j Hj) as Hp.
  assert (Hz : Z.lxor x y / 2 ^ j = 0).
  { rewrite <- Z.shiftr_div_pow2, Z.shiftr_lxor, !Z.shiftr_div_pow2 by done.
    by rewrite Heq, Z.lxor_nilpotent. }
  apply Z.div_small_iff in Hz; lia.
Qed.
