(* ===== verification/Riscv.v ===== *)
(** * RISC-V supervisor interface (lib/riscv/src/sbi, lib/riscv/src/register/satp.rs)

    The hart is modelled by the CSRs the code touches and by the trace of
    [ecall]s it issued.  The SBI firmware that answers an [ecall] is not part
    of the repository: it is the parameter [sbi_firmware] of class [Sbi]. *)

From stdpp Require Import base numbers list.
From Stdlib Require Import ZArith Lia.
From S2P Require Import Prelude.

(** An environment call: extension ([a7]), function ([a6]) and the argument
    registers the call site sets, as (register number, value).  Registers the
    call site does not name are not set by the inline assembly. *)
Record ecall : Type := Ecall { ec_ext : Z; ec_func : Z; ec_args : list (Z * Z) }.

Record hart : Type := Hart { csr_satp : Z; ecalls : list ecall }.

(** What the firmware leaves in [a0] (error, an [isize]) and [a1] (value). *)
Class Sbi : Type := sbi_firmware : ecall -> Z * Z.

(** ** sbi/mod.rs and sbi/error.rs *)

Definition EID_BASE : Z := 0x10.
Definition EID_TIME : Z := 0x54494d45.
Definition EID_IPI : Z := 0x735049.
Definition EID_RFNC : Z := 0x52464e43.
Definition EID_HSM : Z := 0x48534d.
Definition EID_SRST : Z := 0x53525354.
Definition EID_PMU : Z := 0x504d55.
Definition EID_DBCN : Z := 0x4442434e.
Definition EID_SUSP : Z := 0x53555350.
Definition EID_CPPC : Z := 0x43505043.
Definition EID_NACL : Z := 0x4e41434c.
Definition EID_STA : Z := 0x535441.
Definition EID_SSE : Z := 0x535345.
Definition EID_FWFT : Z := 0x46574654.
Definition EID_DBTR : Z := 0x44425452.
Definition EID_MPXY : Z := 0x4d505859.

Inductive SbiError : Type :=
  | SbiFailed
  | SbiNotSupported
  | SbiInvalidParam
  | SbiDenied
  | SbiInvalidAddress
  | SbiAlreadyAvailable
  | SbiAlreadyStarted
  | SbiAlreadyStopped
  | SbiNoShmem
  | SbiOther (code : Z).

Definition sbi_error_of (code : Z) : SbiError :=
  if code =? -1 then SbiFailed
  else if code =? -2 then SbiNotSupported
  else if code =? -3 then SbiInvalidParam
  else if code =? -4 then SbiDenied
  else if code =? -5 then SbiInvalidAddress
  else if code =? -6 then SbiAlreadyAvailable
  else if code =? -7 then SbiAlreadyStarted
  else if code =? -8 then SbiAlreadyStopped
  else if code =? -9 then SbiNoShmem
  else SbiOther code.

Section sbi.
Context {firmware : Sbi}.

(** The macro [sbi_call!]. *)
Definition sbi_call (ext func : Z) (args : list (Z * Z)) : M hart (result SbiError Z) := fun h =>
  let call := Ecall ext func args in
  let '(error, value) := sbi_firmware call in
  let h' := Hart (csr_satp h) (ecalls h ++ [call]) in
  if error =? 0 then Done (Ok value, h') else Done (Err (sbi_error_of error), h').

(** ** sbi/rfence.rs.  [a0] to [a4] are registers 10 to 14. *)

Definition sfence_vma (hart_mask hart_mask_base start_addr size : Z) :
    M hart (result SbiError unit) :=
  _ <-? sbi_call EID_RFNC 2 [(10, hart_mask); (11, hart_mask_base); (12, start_addr); (13, size)];
  mret (Ok tt).

Definition sfence_vma_asid (hart_mask hart_mask_base start_addr size asid : Z) :
    M hart (result SbiError unit) :=
  _ <-? sbi_call EID_RFNC 2
    [(10, hart_mask); (11, hart_mask_base); (12, start_addr); (13, size); (14, asid)];
  mret (Ok tt).

(** ** sbi/base.rs *)

Definition probe_sbi_extension (ext : Z) : M hart (result SbiError bool) :=
  id <-? sbi_call EID_BASE 3 [(10, ext)];
  mret (Ok (id =? 1)).

End sbi.

(** ** [struct Extension: u16] of sbi/mod.rs

    [bitflags] is an external crate; class [Bitflags] is what the code uses of
    it ([Flags::set]) and [BitflagsLaws] its documented behaviour. *)

Class Bitflags : Type := flags_set : Z -> Z -> bool -> Z.

Class BitflagsLaws {flags : Bitflags} : Prop := {
  flags_set_true : forall bits flag, flags_set bits flag true = Z.lor bits flag;
  flags_set_false : forall bits flag, flags_set bits flag false = Z.ldiff bits flag;
}.

Definition EXT_BASE : Z := Z.shiftl 1 0.
Definition EXT_TIME : Z := Z.shiftl 1 1.
Definition EXT_IPI : Z := Z.shiftl 1 2.
Definition EXT_RFENCE : Z := Z.shiftl 1 3.
Definition EXT_HSM : Z := Z.shiftl 1 4.
Definition EXT_SRST : Z := Z.shiftl 1 5.
Definition EXT_PMU : Z := Z.shiftl 1 6.
Definition EXT_DBCN : Z := Z.shiftl 1 7.
Definition EXT_SUSP : Z := Z.shiftl 1 8.
Definition EXT_CPPC : Z := Z.shiftl 1 9.
Definition EXT_NACL : Z := Z.shiftl 1 10.
Definition EXT_STA : Z := Z.shiftl 1 11.
Definition EXT_SSE : Z := Z.shiftl 1 11.
Definition EXT_FWFT : Z := Z.shiftl 1 11.
Definition EXT_DBTR : Z := Z.shiftl 1 11.
Definition EXT_MPXY : Z := Z.shiftl 1 11.

Section extensions.
Context {firmware : Sbi} {flags : Bitflags}.

(** One [supported.set(flag, base::probe_sbi_extension(eid)?)] per element. *)
Fixpoint set_extensions (todo : list (Z * Z)) (supported : Z) : M hart (result SbiError Z) :=
  match todo with
  | [] => mret (Ok supported)
  | (flag, eid) :: todo' =>
      present <-? probe_sbi_extension eid;
      set_extensions todo' (flags_set supported flag present)
  end.

Definition supported_extensions : M hart (result SbiError Z) :=
  set_extensions
    [(EXT_TIME, EID_TIME); (EXT_IPI, EID_IPI); (EXT_RFENCE, EID_RFNC); (EXT_HSM, EID_HSM);
     (EXT_SRST, EID_SRST); (EXT_PMU, EID_PMU); (EXT_DBCN, EID_DBCN); (EXT_SUSP, EID_SUSP);
     (EXT_CPPC, EID_CPPC); (EXT_NACL, EID_NACL); (EXT_STA, EID_STA); (EXT_SSE, EID_SSE);
     (EXT_FWFT, EID_FWFT); (EXT_DBTR, EID_DBTR); (EXT_MPXY, EID_MPXY)]
    EXT_BASE.

End extensions.

(** ** register/satp.rs (64-bit) *)

Inductive satp_Mode : Type := Bare | Sv39 | Sv48 | Sv57 | Sv64.

#[global] Instance satp_Mode_eq_dec : EqDecision satp_Mode.
Proof. solve_decision. Defined.

(** [mode as usize]. *)
Definition satp_Mode_bits (m : satp_Mode) : Z :=
  match m with Bare => 0 | Sv39 => 8 | Sv48 => 9 | Sv57 => 10 | Sv64 => 11 end.

Definition satp_ppn (bits : Z) : Z := Z.land bits 0xfffffffffff.
Definition satp_asid (bits : Z) : Z := Z.land (Z.shiftr bits 44) 0xffff.

Definition satp_mode (bits : Z) : outcome satp_Mode :=
  match Z.land (Z.shiftr bits 60) 0xf with
  | 0 => Done Bare
  | 8 => Done Sv39
  | 9 => Done Sv48
  | 10 => Done Sv57
  | 11 => Done Sv64
  | _ => Panicked
  end.

(** [Error::InvalidFieldValue { field, value, bitmask }] for the field "ppn". *)
Inductive satp_Error : Type := InvalidFieldValue (value bitmask : Z).

Definition satp_try_set (mode : satp_Mode) (asid ppn : Z) : M hart (result satp_Error unit) := fun h =>
  if negb (ppn =? Z.land ppn 0xfffffffffff) then
    Done (Err (InvalidFieldValue ppn 0xfffffffffff), h)
  else
    let bits := Z.lor (Z.lor (Z.shiftl (satp_Mode_bits mode) 60) (Z.shiftl asid 44)) ppn in
    Done (Ok tt, Hart bits (ecalls h)).

(** [try_set(..).unwrap()]. *)
Definition satp_set (mode : satp_Mode) (asid ppn : Z) : M hart unit :=
  r ← satp_try_set mode asid ppn;
  match r with
  | Ok _ => mret tt
  | Err _ => lift Panicked
  end.

Definition satp_read : M hart Z := fun h => Done (csr_satp h, h).

(** ** Lemmas *)

Lemma satp_fields mode asid ppn :
  0 <= asid < 2 ^ 16 -> 0 <= ppn < 2 ^ 44 ->
  let bits := Z.lor (Z.lor (Z.shiftl (satp_Mode_bits mode) 60) (Z.shiftl asid 44)) ppn in
  satp_mode bits = Done mode /\ satp_asid bits = asid /\ satp_ppn bits = ppn.
Proof.
  intros Ha Hp bits.
  assert (Hb : bits = satp_Mode_bits mode * 2 ^ 60 + asid * 2 ^ 44 + ppn).
  { subst bits. rewrite !Z.shiftl_mul_pow2 by lia.
    assert (Hd : forall a b k, 0 <= k -> 0 <= b < 2 ^ k -> Z.lor (a * 2 ^ k) b = a * 2 ^ k + b).
    { intros a b k Hk Hb. symmetry. apply Z.add_nocarry_lor.
      apply Z.bits_inj'. intros i Hi. rewrite Z.land_spec, Z.bits_0.
      destruct (Z.ltb_spec i k).
      - by rewrite Z.mul_pow2_bits_low.
      - rewrite <- (Z.mod_small b (2 ^ k)) by done.
        rewrite Z.mod_pow2_bits_high by lia. apply andb_false_r. }
    rewrite (Hd _ (asid * 2 ^ 44)) by lia.
    replace (satp_Mode_bits mode * 2 ^ 60 + asid * 2 ^ 44)
      with ((satp_Mode_bits mode * 2 ^ 16 + asid) * 2 ^ 44) by lia.
    rewrite Hd by lia. lia. }
  assert (Hm : 0 <= satp_Mode_bits mode < 16) by (destruct mode; simpl; lia).
  unfold satp_mode, satp_asid, satp_ppn.
  change 0xf with (2 ^ 4 - 1). change 0xffff with (2 ^ 16 - 1).
  change 0xfffffffffff with (2 ^ 44 - 1).
  rewrite !land_low_mask, !Z.shiftr_div_pow2 by lia. rewrite Hb. split_and!.
  - assert (E : ((satp_Mode_bits mode * 2 ^ 60 + asid * 2 ^ 44 + ppn) / 2 ^ 60) = satp_Mode_bits mode).
    { symmetry. apply (Z.div_unique_pos _ _ _ (asid * 2 ^ 44 + ppn)); lia. }
    rewrite E. destruct mode; reflexivity.
  - assert (E : ((satp_Mode_bits mode * 2 ^ 60 + asid * 2 ^ 44 + ppn) / 2 ^ 44)
                = satp_Mode_bits mode * 2 ^ 16 + asid).
    { symmetry. apply (Z.div_unique_pos _ _ _ ppn); lia. }
    rewrite E. rewrite Z.add_comm, Z.mod_add by lia. apply Z.mod_small. lia.
  - symmetry. apply (Z.mod_unique_pos _ _ (satp_Mode_bits mode * 2 ^ 16 + asid)); lia.
Qed.
