(* ===== verification/Bitfield.v ===== *)
(** * Packed bit fields

    The page-table entries and the task state are [mycelium_bitfield]
    structs.  That crate is external: class [Bitfield] is the part of it the
    code uses ([unpack]/[get] and [pack]/[with]) and [BitfieldLaws] states its
    documented behaviour - reading returns the bits of the field, writing an
    in-range value replaces exactly these bits.  [shift_mask] is a concrete
    implementation for which the laws hold. *)

From stdpp Require Import base numbers list.
From Stdlib Require Import ZArith Lia.
From S2P Require Import Prelude.

(** A packing spec: least significant bit and number of bits. *)
Record field : Type := Field { f_lsb : Z; f_width : Z }.

(** One past the most significant bit, as [most_significant_index] reports it. *)
Definition f_end (f : field) : Z := f_lsb f + f_width f.
(** [max_value()]. *)
Definition f_max (f : field) : Z := 2 ^ f_width f - 1.

Definition field_ok (f : field) : Prop := 0 <= f_lsb f /\ 0 < f_width f /\ f_end f <= 64.
Definition fields_disjoint (f g : field) : Prop := f_end f <= f_lsb g \/ f_end g <= f_lsb f.

Class Bitfield : Type := {
  bf_get : field -> Z -> Z;
  bf_with : field -> Z -> Z -> Z;
}.

Class BitfieldLaws {bf : Bitfield} : Prop := {
  bf_get_spec : forall f w i, field_ok f -> is_usize w -> 0 <= i ->
    Z.testbit (bf_get f w) i = (i <? f_width f) && Z.testbit w (i + f_lsb f);
  bf_get_nonneg : forall f w, field_ok f -> is_usize w -> 0 <= bf_get f w;
  bf_with_spec : forall f v w i, field_ok f -> is_usize w -> 0 <= v <= f_max f -> 0 <= i ->
    Z.testbit (bf_with f v w) i =
      if (f_lsb f <=? i) && (i <? f_end f) then Z.testbit v (i - f_lsb f) else Z.testbit w i;
  bf_with_usize : forall f v w, field_ok f -> is_usize w -> 0 <= v <= f_max f ->
    is_usize (bf_with f v w);
}.

(** Boolean fields. *)
Definition bf_flag `{Bitfield} (f : field) (w : Z) : bool := negb (bf_get f w =? 0).
Definition bf_with_flag `{Bitfield} (f : field) (b : bool) (w : Z) : Z := bf_with f (Z.b2z b) w.

(** The textbook implementation with shifts and masks. *)
Definition shift_mask : Bitfield := {|
  bf_get f w := Z.land (Z.shiftr w (f_lsb f)) (Z.ones (f_width f));
  bf_with f v w :=
    Z.lor (Z.ldiff w (Z.shiftl (Z.ones (f_width f)) (f_lsb f))) (Z.shiftl v (f_lsb f));
|}.

Lemma testbit_usize_high w i : is_usize w -> 64 <= i -> Z.testbit w i = false.
Proof.
  intros [? ?] ?. rewrite <- (Z.mod_small w (2 ^ 64)) by done.
  apply Z.mod_pow2_bits_high. lia.
Qed.

Lemma usize_of_bits w :
  0 <= w -> (forall i, 64 <= i -> Z.testbit w i = false) -> is_usize w.
Proof.
  intros H0 H. split; [done |]. change USIZE_MOD with (2 ^ 64).
  assert (E : w mod 2 ^ 64 = w).
  { apply Z.bits_inj'. intros i Hi. destruct (Z.ltb_spec i 64).
    - by apply Z.mod_pow2_bits_low.
    - by rewrite Z.mod_pow2_bits_high, H by lia. }
  rewrite <- E. by apply Z.mod_pos_bound.
Qed.

Lemma field_value_high f v i :
  0 <= v <= f_max f -> 0 < f_width f -> f_width f <= i -> Z.testbit v i = false.
Proof.
  unfold f_max. intros ? ? ?. rewrite <- (Z.mod_small v (2 ^ f_width f)) by lia.
  apply Z.mod_pow2_bits_high. lia.
Qed.

#[global] Instance shift_mask_laws : @BitfieldLaws shift_mask.
Proof.
  split; simpl; unfold field_ok, f_end.
  - intros f w i (? & ? & ?) Hw ?. rewrite Z.land_spec, Z.shiftr_spec, Z.testbit_ones_nonneg by lia.
    apply andb_comm.
  - intros f w (? & ? & ?) [? ?]. apply Z.land_nonneg. left. by apply Z.shiftr_nonneg.
  - intros f v w i (? & ? & ?) Hw Hv ?.
    rewrite Z.lor_spec, Z.ldiff_spec, !Z.shiftl_spec by lia.
    destruct (Z.leb_spec (f_lsb f) i); simpl.
    + rewrite Z.testbit_ones_nonneg by lia.
      destruct (Z.ltb_spec (i - f_lsb f) (f_width f)), (Z.ltb_spec i (f_lsb f + f_width f)); try lia; simpl.
      * by rewrite andb_false_r.
      * rewrite (field_value_high f v) by done. by rewrite andb_true_r, orb_false_r.
    + rewrite !(Z.testbit_neg_r _ (i - f_lsb f)) by lia. by rewrite andb_true_r, orb_false_r.
  - intros f v w (? & ? & ?) Hw Hv. apply usize_of_bits.
    + apply Z.lor_nonneg. split.
      * apply Z.ldiff_nonneg. left. apply Hw.
      * apply Z.shiftl_nonneg. lia.
    + intros i Hi. rewrite Z.lor_spec, Z.ldiff_spec, !Z.shiftl_spec by lia.
      rewrite (testbit_usize_high w), (field_value_high f v) by (done || lia). done.
Qed.

Section laws.
Context `{BitfieldLaws}.

Lemma bf_get_range f w : field_ok f -> is_usize w -> 0 <= bf_get f w <= f_max f.
Proof.
  intros Hf Hw. split; [by apply bf_get_nonneg |]. unfold f_max.
  assert (E : bf_get f w = bf_get f w mod 2 ^ f_width f).
  { apply Z.bits_inj'. intros i Hi. destruct (Z.ltb_spec i (f_width f)).
    - rewrite Z.mod_pow2_bits_low by lia. done.
    - rewrite Z.mod_pow2_bits_high by (destruct Hf as (? & ? & ?); lia).
      rewrite bf_get_spec by done. by rewrite (proj2 (Z.ltb_ge _ _)). }
  rewrite E. destruct Hf as (? & ? & ?).
  pose proof (Z.mod_pos_bound (bf_get f w) (2 ^ f_width f) (pow2_pos (f_width f) ltac:(lia))). lia.
Qed.

Lemma bf_get_0 f : field_ok f -> bf_get f 0 = 0.
Proof.
  intros Hf. apply Z.bits_inj'. intros i Hi. rewrite bf_get_spec by (done || (unfold is_usize; lia)).
  by rewrite !Z.bits_0, andb_false_r.
Qed.

Lemma bf_get_with_same f v w :
  field_ok f -> is_usize w -> 0 <= v <= f_max f -> bf_get f (bf_with f v w) = v.
Proof.
  intros Hf Hw Hv. apply Z.bits_inj'. intros i Hi.
  pose proof Hf as (? & ? & ?).
  rewrite bf_get_spec, bf_with_spec by (done || lia || by apply bf_with_usize).
  unfold f_end in *.
  destruct (Z.ltb_spec i (f_width f)).
  - rewrite (proj2 (Z.leb_le _ _)), (proj2 (Z.ltb_lt _ _)) by lia. simpl. f_equal. lia.
  - by rewrite (field_value_high f v i).
Qed.

Lemma bf_get_with_other f g v w :
  field_ok f -> field_ok g -> fields_disjoint f g -> is_usize w -> 0 <= v <= f_max f ->
  bf_get g (bf_with f v w) = bf_get g w.
Proof.
  intros Hf Hg Hd Hw Hv. apply Z.bits_inj'. intros i Hi.
  rewrite !bf_get_spec by (try done; by apply bf_with_usize).
  destruct (Z.ltb_spec i (f_width g)); [| done].
  rewrite bf_with_spec by (try done; destruct Hg as (? & ? & ?); lia). simpl.
  destruct Hf as (? & ? & ?), Hg as (? & ? & ?). unfold fields_disjoint, f_end in *.
  destruct (Z.leb_spec (f_lsb f) (i + f_lsb g)), (Z.ltb_spec (i + f_lsb g) (f_lsb f + f_width f)); done || lia.
Qed.

Lemma bf_flag_0 f : field_ok f -> bf_flag f 0 = false.
Proof. intros. unfold bf_flag. by rewrite bf_get_0. Qed.

Lemma b2z_in_range f b : 0 < f_width f -> 0 <= Z.b2z b <= f_max f.
Proof.
  unfold f_max. intros. assert (2 ^ 1 <= 2 ^ f_width f) by (apply Z.pow_le_mono_r; lia).
  destruct b; simpl; lia.
Qed.

Lemma bf_with_flag_usize f b w : field_ok f -> is_usize w -> is_usize (bf_with_flag f b w).
Proof. intros Hf Hw. apply bf_with_usize; [done..| apply b2z_in_range, Hf]. Qed.

Lemma bf_flag_with_same f b w : field_ok f -> is_usize w -> bf_flag f (bf_with_flag f b w) = b.
Proof.
  intros Hf Hw. unfold bf_flag, bf_with_flag.
  rewrite bf_get_with_same by (try done; apply b2z_in_range, Hf). by destruct b.
Qed.

Lemma bf_flag_with_other f g b w :
  field_ok f -> field_ok g -> fields_disjoint f g -> is_usize w ->
  bf_flag g (bf_with_flag f b w) = bf_flag g w.
Proof.
  intros Hf Hg Hd Hw. unfold bf_flag, bf_with_flag.
  rewrite bf_get_with_other by (try done; apply b2z_in_range, Hf). done.
Qed.

Lemma bf_get_with_flag_other f g b w :
  field_ok f -> field_ok g -> fields_disjoint f g -> is_usize w ->
  bf_get g (bf_with_flag f b w) = bf_get g w.
Proof.
  intros Hf Hg Hd Hw. unfold bf_with_flag.
  by rewrite bf_get_with_other by (try done; apply b2z_in_range, Hf).
Qed.

Lemma bf_flag_with_value_other f g v w :
  field_ok f -> field_ok g -> fields_disjoint f g -> is_usize w -> 0 <= v <= f_max f ->
  bf_flag g (bf_with f v w) = bf_flag g w.
Proof. intros. unfold bf_flag. by rewrite bf_get_with_other. Qed.

End laws.

(** Side conditions on concrete fields. *)
Ltac solve_field :=
  unfold field_ok, fields_disjoint, f_end, f_max; simpl; lia.
