(* ===== verification/Arch.v ===== *)
(** * Memory attributes, page sizes and the architecture interface
      (lib/mem-core/src/memory_attributes.rs, page_size.rs, arch/mod.rs)

    The traits [Arch] and [PageTableEntry] become classes; what the page-table
    engine relies on is stated separately as [ArchLaws], proved for the RISC-V
    paging modes in [RiscvPaging]. *)

From stdpp Require Import base numbers list.
From Stdlib Require Import ZArith Lia.
From S2P Require Import Prelude Address Riscv.

(** ** memory_attributes.rs *)

Inductive WriteOrExecute : Type := Neither | Write | Execute.
Inductive MemoryKind : Type := Normal | Device.

#[global] Instance WriteOrExecute_eq_dec : EqDecision WriteOrExecute.
Proof. solve_decision. Defined.
#[global] Instance MemoryKind_eq_dec : EqDecision MemoryKind.
Proof. solve_decision. Defined.

(** The typed fields of the packed byte. *)
Record MemoryAttributes : Type := MkAttributes {
  READ : bool;
  WRITE_OR_EXECUTE : WriteOrExecute;
  KIND : MemoryKind;
}.

#[global] Instance MemoryAttributes_eq_dec : EqDecision MemoryAttributes.
Proof. solve_decision. Defined.

(** [MemoryAttributes::new()]: all bits zero. *)
Definition attributes_new : MemoryAttributes := MkAttributes false Neither Normal.
Definition with_READ (b : bool) (m : MemoryAttributes) : MemoryAttributes :=
  MkAttributes b (WRITE_OR_EXECUTE m) (KIND m).
Definition with_WRITE_OR_EXECUTE (w : WriteOrExecute) (m : MemoryAttributes) : MemoryAttributes :=
  MkAttributes (READ m) w (KIND m).
Definition with_KIND (k : MemoryKind) (m : MemoryAttributes) : MemoryAttributes :=
  MkAttributes (READ m) (WRITE_OR_EXECUTE m) k.

Definition allows_read (m : MemoryAttributes) : bool := READ m.
Definition allows_write (m : MemoryAttributes) : bool :=
  match WRITE_OR_EXECUTE m with Write => true | _ => false end.
Definition allows_execution (m : MemoryAttributes) : bool :=
  match WRITE_OR_EXECUTE m with Execute => true | _ => false end.
Definition is_read_only (m : MemoryAttributes) : bool :=
  allows_read m && negb (allows_write m) && negb (allows_execution m).
Definition attributes_kind (m : MemoryAttributes) : MemoryKind := KIND m.
Definition is_device (m : MemoryAttributes) : bool :=
  match attributes_kind m with Device => true | Normal => false end.

(** ** page_size.rs *)

Inductive PageSize : Type := Size4KiB | Size2MiB | Size1GiB | Size512GiB | Size256TiB.

Definition SHIFT (s : PageSize) : Z :=
  match s with
  | Size4KiB => 12
  | Size2MiB => 21
  | Size1GiB => 30
  | Size512GiB => 39
  | Size256TiB => 48
  end.

Definition BYTES (s : PageSize) : Z := Z.shiftl 1 (SHIFT s).

(** ** arch/mod.rs: [PageTableLevel] *)

Record PageTableLevel : Type := MkLevel {
  entries : Z;
  supports_leaf : bool;
  index_shift : Z;
}.

Definition level_new (p : PageSize) (n : Z) (leaf : bool) : PageTableLevel :=
  MkLevel n leaf (SHIFT p).

Definition page_size (l : PageTableLevel) : Z := Z.shiftl 1 (index_shift l).

(** [u16::try_from(address >> index_shift & (entries - 1)).unwrap()] and the
    [debug_assert!(idx < entries)]. *)
Definition pte_index_of (l : PageTableLevel) (address : VirtualAddress) : outcome Z :=
  mask ← u_sub (entries l) 1;
  let idx := Z.land (Z.shiftr address (index_shift l)) mask in
  _ ← assert_ (idx <? 2 ^ 16);
  _ ← assert_ (idx <? entries l);
  mret idx.

Definition can_map (l : PageTableLevel) (virt : VirtualAddress) (phys : PhysicalAddress) (len : Z) :
    outcome bool :=
  va ← is_aligned_to virt (page_size l);
  pa ← is_aligned_to phys (page_size l);
  mret (va && pa && (page_size l <=? len) && supports_leaf l).

(** [core::alloc::Layout]. *)
Record Layout : Type := MkLayout { l_size : Z; l_align : Z }.

Definition MAX_PAGE_TABLE_LEVELS : Z := 5.

(** ** The traits [PageTableEntry] and [Arch]

    An entry is a [usize]-sized word.  [set_active_table], [fence] and
    [fence_all] act on the hart. *)

Class PageTableEntry : Type := {
  new_leaf : PhysicalAddress -> MemoryAttributes -> outcome Z;
  new_table : PhysicalAddress -> outcome Z;
  VACANT : Z;
  is_vacant : Z -> bool;
  is_leaf : Z -> bool;
  is_table : Z -> bool;
  pte_address : Z -> PhysicalAddress;
  pte_attributes : Z -> outcome MemoryAttributes;
}.

Class Arch : Type := {
  arch_pte :: PageTableEntry;
  LEVELS : list PageTableLevel;
  DEFAULT_PHYSMAP_BASE : VirtualAddress;
  active_table : M hart (option PhysicalAddress);
  set_active_table : PhysicalAddress -> M hart unit;
  fence : range -> M hart unit;
  fence_all : M hart unit;
}.

(** [size_of::<A::PageTableEntry>()]. *)
Definition PTE_SIZE : Z := 8.

Section arch.
Context `{Arch}.

(** The associated constants with default values; an empty [LEVELS] does not
    compile ([unreachable!()] in const evaluation). *)
Definition GRANULE_SIZE : Z :=
  match last LEVELS with Some l => page_size l | None => 0 end.

Definition GRANULE_LAYOUT : Layout := MkLayout GRANULE_SIZE GRANULE_SIZE.

Definition VIRTUAL_ADDRESS_BITS : Z :=
  match LEVELS with
  | l :: _ => Z.log2 (entries l) + index_shift l
  | [] => 0
  end.

(** [A::LEVELS[depth]]: indexing panics out of bounds. *)
Definition level_at (depth : nat) : outcome PageTableLevel :=
  match LEVELS !! depth with Some l => Done l | None => Panicked end.

(** The loop of [leaf_depth_of]. *)
Fixpoint leaf_depth_from (levels : list PageTableLevel) (s : PageSize) (depth : nat) : outcome nat :=
  match levels with
  | [] => Panicked
  | level :: levels' =>
      if (page_size level =? BYTES s) && supports_leaf level then Done depth
      else leaf_depth_from levels' s (S depth)
  end.

Definition leaf_depth_of (s : PageSize) : outcome nat := leaf_depth_from LEVELS s 0.

End arch.

(** [A: MapsAt<S>]: the depth of the level whose leaves have size [S]. *)
Class MapsAt `{Arch} (s : PageSize) : Type := {
  DEPTH : nat;
  DEPTH_leaf_depth_of : leaf_depth_of s = Done DEPTH;
}.

(** ** What the page-table engine relies on *)

(** Consecutive levels tile each other: one entry of a level spans exactly one
    table of the next level, and the last level is the granule. *)
Fixpoint levels_tile (levels : list PageTableLevel) : Prop :=
  match levels with
  | [] => True
  | l :: levels' =>
      (match levels' with
       | [] => True
       | l' :: _ => index_shift l = index_shift l' + Z.log2 (entries l')
       end) /\ levels_tile levels'
  end.

Definition level_ok (l : PageTableLevel) : Prop :=
  3 <= index_shift l /\ 0 < Z.log2 (entries l) < 16 /\ entries l = 2 ^ Z.log2 (entries l)
  /\ index_shift l + Z.log2 (entries l) < 64.

(** Attributes an entry can carry: at least one access is allowed. *)
Definition attributes_accessible (m : MemoryAttributes) : bool :=
  allows_read m || allows_write m || allows_execution m.

Class ArchLaws `{Arch} : Type := {
  (** Physical addresses an entry can hold are below this bound. *)
  PHYS_LIMIT : Z;
  (** What an entry keeps of the attributes it is given. *)
  normalize_attributes : MemoryAttributes -> MemoryAttributes;
  levels_nonempty : LEVELS <> [];
  levels_len : (length LEVELS <= 5)%nat;
  levels_ok : Forall level_ok LEVELS;
  levels_tiled : levels_tile LEVELS;
  levels_table_size : Forall (fun l => entries l * PTE_SIZE <= GRANULE_SIZE) LEVELS;
  phys_limit_usize : 0 < PHYS_LIMIT <= 2 ^ 63;
  vacant_zero : VACANT = 0;
  vacant_is_vacant : is_vacant 0 = true;
  pte_vacant_xor : forall w, is_usize w -> is_vacant w = negb (is_leaf w || is_table w);
  pte_leaf_not_table : forall w, is_usize w -> is_leaf w = true -> is_table w = false;
  pte_address_range : forall w, is_usize w ->
    0 <= pte_address w < PHYS_LIMIT /\ pte_address w mod GRANULE_SIZE = 0;
  leaf_attributes : forall w m, is_usize w -> is_leaf w = true -> pte_attributes w = Done m ->
    attributes_accessible m = true /\ normalize_attributes m = m;
  new_table_spec : forall p, 0 <= p < PHYS_LIMIT -> p mod GRANULE_SIZE = 0 ->
    exists w, new_table p = Done w /\ is_usize w /\ is_table w = true /\ pte_address w = p;
  new_leaf_spec : forall p m, 0 <= p < PHYS_LIMIT -> p mod GRANULE_SIZE = 0 ->
    attributes_accessible m = true ->
    exists w, new_leaf p m = Done w /\ is_usize w /\ is_leaf w = true /\ pte_address w = p
              /\ pte_attributes w = Done (normalize_attributes m);
}.
