(* ===== verification/RiscvPaging.v ===== *)
(** * RISC-V paging modes (lib/mem-core/src/arch/riscv64.rs)

    The page-table entry format and the [Arch] instances [Riscv64Sv39],
    [Riscv64Sv48] and [Riscv64Sv57], with the proof that each satisfies
    [ArchLaws]. *)

From stdpp Require Import base numbers list.
From Stdlib Require Import ZArith Lia.
From S2P Require Import Prelude Address Bitfield Riscv Arch.

(** ** The entry format: [bitfield! { pub struct PageTableEntry<usize> }] *)

Definition PTE_VALID : field := Field 0 1.
Definition PTE_READ : field := Field 1 1.
Definition PTE_WRITE : field := Field 2 1.
Definition PTE_EXECUTE : field := Field 3 1.
Definition PTE_USER : field := Field 4 1.
Definition PTE_GLOBAL : field := Field 5 1.
Definition PTE_ACCESSED : field := Field 6 1.
Definition PTE_DIRTY : field := Field 7 1.
Definition PTE_SOFTWARE_USE : field := Field 8 2.
Definition PTE_ADDRESS : field := Field 10 44.
Definition PTE_RESERVED : field := Field 54 7.
Definition PTE_PBMT : field := Field 61 2.
Definition PTE_NAPOT : field := Field 63 1.

Definition PHYSICAL_ADDRESS_BITS : Z := 56.
Definition PAGE_OFFSET_BITS : Z := 12.

Section pte.
Context `{Bitfield}.

Definition riscv_new_leaf (address : PhysicalAddress) (attributes : MemoryAttributes) : outcome Z :=
  let address_raw := Z.shiftr address PAGE_OFFSET_BITS in
  _ ← assert_ (address_raw <=? f_max PTE_ADDRESS);
  mret
    (bf_with_flag PTE_EXECUTE (allows_execution attributes)
      (bf_with_flag PTE_WRITE (allows_write attributes)
        (bf_with_flag PTE_READ (allows_read attributes)
          (bf_with PTE_ADDRESS address_raw
            (bf_with_flag PTE_VALID true 0))))).

Definition riscv_new_table (address : PhysicalAddress) : outcome Z :=
  let address_raw := Z.shiftr address PAGE_OFFSET_BITS in
  _ ← assert_ (address_raw <=? f_max PTE_ADDRESS);
  mret (bf_with PTE_ADDRESS address_raw (bf_with_flag PTE_VALID true 0)).

Definition riscv_VACANT : Z := 0.

Definition riscv_is_vacant (w : Z) : bool := negb (bf_flag PTE_VALID w).

Definition riscv_is_leaf (w : Z) : bool :=
  bf_flag PTE_VALID w
  && (bf_flag PTE_READ w || (bf_flag PTE_WRITE w || bf_flag PTE_EXECUTE w)).

Definition riscv_is_table (w : Z) : bool :=
  bf_flag PTE_VALID w
  && negb (bf_flag PTE_READ w) && negb (bf_flag PTE_WRITE w) && negb (bf_flag PTE_EXECUTE w).

(** [self.get(ADDRESS) << PAGE_OFFSET_BITS] (a [usize] shift drops high bits). *)
Definition riscv_pte_address (w : Z) : PhysicalAddress :=
  wrap (Z.shiftl (bf_get PTE_ADDRESS w) PAGE_OFFSET_BITS).

Definition riscv_pte_attributes (w : Z) : outcome MemoryAttributes :=
  write_or_execute ←
    match bf_flag PTE_WRITE w, bf_flag PTE_EXECUTE w with
    | true, false => Done Write
    | false, true => Done Execute
    | false, false => Done Neither
    | true, true => Panicked
    end;
  mret (with_WRITE_OR_EXECUTE write_or_execute (with_READ (bf_flag PTE_READ w) attributes_new)).

#[export] Instance riscv_pte : PageTableEntry := {|
  new_leaf := riscv_new_leaf;
  new_table := riscv_new_table;
  VACANT := riscv_VACANT;
  is_vacant := riscv_is_vacant;
  is_leaf := riscv_is_leaf;
  is_table := riscv_is_table;
  pte_address := riscv_pte_address;
  pte_attributes := riscv_pte_attributes;
|}.

(** ** Hart operations shared by the three modes *)

Definition riscv_active_table (asid : Z) (mode : satp_Mode) : M hart (option PhysicalAddress) :=
  satp ← satp_read;
  _ ← lift (assert_ (satp_asid satp =? asid));
  m ← lift (satp_mode satp);
  _ ← lift (assert_ (bool_decide (m = mode)));
  let address := wrap (Z.shiftl (satp_ppn satp) 12) in
  mret (if 0 <? address then Some address else None).

Definition riscv_set_active_table (asid : Z) (mode : satp_Mode) (addr : PhysicalAddress) : M hart unit :=
  let ppn := Z.shiftr addr 12 in
  satp_set mode asid ppn.

Context {firmware : Sbi}.

(** [.unwrap()] on the SBI result. *)
Definition sbi_unwrap {A} (m : M hart (result SbiError A)) : M hart A :=
  r ← m;
  match r with
  | Ok a => mret a
  | Err _ => lift Panicked
  end.

Definition riscv_fence (asid : Z) (address_range : range) : M hart unit :=
  len ← lift (range_len address_range);
  sbi_unwrap (sfence_vma_asid 0 USIZE_MAX (r_start address_range) len asid).

Definition riscv_fence_all : M hart unit :=
  sbi_unwrap (sfence_vma 0 USIZE_MAX 0 USIZE_MAX).

(** ** The three paging modes *)

Definition Sv39_LEVELS : list PageTableLevel :=
  [level_new Size1GiB 512 true; level_new Size2MiB 512 true; level_new Size4KiB 512 true].

Definition Sv48_LEVELS : list PageTableLevel :=
  [level_new Size512GiB 512 true; level_new Size1GiB 512 true; level_new Size2MiB 512 true;
   level_new Size4KiB 512 true].

Definition Sv57_LEVELS : list PageTableLevel :=
  [level_new Size256TiB 512 true; level_new Size512GiB 512 true; level_new Size1GiB 512 true;
   level_new Size2MiB 512 true; level_new Size4KiB 512 true].

Definition Riscv64Sv39 (asid : Z) : Arch := {|
  LEVELS := Sv39_LEVELS;
  DEFAULT_PHYSMAP_BASE := 0xffffffc000000000;
  active_table := riscv_active_table asid Sv39;
  set_active_table := riscv_set_active_table asid Sv39;
  fence := riscv_fence asid;
  fence_all := riscv_fence_all;
|}.

Definition Riscv64Sv48 (asid : Z) : Arch := {|
  LEVELS := Sv48_LEVELS;
  DEFAULT_PHYSMAP_BASE := 0xffffffc000000000;
  active_table := riscv_active_table asid Sv48;
  set_active_table := riscv_set_active_table asid Sv48;
  fence := riscv_fence asid;
  fence_all := riscv_fence_all;
|}.

Definition Riscv64Sv57 (asid : Z) : Arch := {|
  LEVELS := Sv57_LEVELS;
  DEFAULT_PHYSMAP_BASE := 0xffffffc000000000;
  active_table := riscv_active_table asid Sv57;
  set_active_table := riscv_set_active_table asid Sv57;
  fence := riscv_fence asid;
  fence_all := riscv_fence_all;
|}.

End pte.

(** ** Lemmas on entries *)

Section pte_laws.
Context `{BitfieldLaws}.

(** The [const _: () = { assert!(..) }] block: the fields tile the word. *)
Lemma pte_layout :
  f_lsb PTE_VALID = 0 /\ f_end PTE_VALID = f_lsb PTE_READ /\ f_end PTE_READ = f_lsb PTE_WRITE
  /\ f_end PTE_WRITE = f_lsb PTE_EXECUTE /\ f_end PTE_EXECUTE = f_lsb PTE_USER
  /\ f_end PTE_USER = f_lsb PTE_GLOBAL /\ f_end PTE_GLOBAL = f_lsb PTE_ACCESSED
  /\ f_end PTE_ACCESSED = f_lsb PTE_DIRTY /\ f_end PTE_DIRTY = f_lsb PTE_SOFTWARE_USE
  /\ f_end PTE_SOFTWARE_USE = f_lsb PTE_ADDRESS /\ f_end PTE_ADDRESS = f_lsb PTE_RESERVED
  /\ f_end PTE_RESERVED = f_lsb PTE_PBMT /\ f_end PTE_PBMT = f_lsb PTE_NAPOT
  /\ f_end PTE_NAPOT = 64.
Proof. by vm_compute. Qed.

Lemma usize_0 : is_usize 0.
Proof. unfold is_usize. lia. Qed.

Definition pte_base (address_raw : Z) : Z := bf_with PTE_ADDRESS address_raw (bf_with_flag PTE_VALID true 0).

Lemma pte_base_usize a : 0 <= a <= f_max PTE_ADDRESS -> is_usize (pte_base a).
Proof.
  intros. apply bf_with_usize; [solve_field | | done].
  apply bf_with_flag_usize; [solve_field | apply usize_0].
Qed.

Lemma pte_base_fields a :
  0 <= a <= f_max PTE_ADDRESS ->
  bf_flag PTE_VALID (pte_base a) = true /\ bf_get PTE_ADDRESS (pte_base a) = a
  /\ bf_flag PTE_READ (pte_base a) = false /\ bf_flag PTE_WRITE (pte_base a) = false
  /\ bf_flag PTE_EXECUTE (pte_base a) = false.
Proof.
  intros Ha. pose proof usize_0 as H0.
  assert (Hv : is_usize (bf_with_flag PTE_VALID true 0)) by (apply bf_with_flag_usize; [solve_field | done]).
  unfold pte_base. split_and!.
  - rewrite bf_flag_with_value_other by (done || solve_field).
    apply bf_flag_with_same; [solve_field | done].
  - by apply bf_get_with_same; [solve_field | |].
  - rewrite bf_flag_with_value_other, bf_flag_with_other by (done || solve_field).
    apply bf_flag_0. solve_field.
  - rewrite bf_flag_with_value_other, bf_flag_with_other by (done || solve_field).
    apply bf_flag_0. solve_field.
  - rewrite bf_flag_with_value_other, bf_flag_with_other by (done || solve_field).
    apply bf_flag_0. solve_field.
Qed.

(** The fields of a word built by [riscv_new_leaf]. *)
Lemma pte_leaf_fields a r w x :
  0 <= a <= f_max PTE_ADDRESS ->
  let pte := bf_with_flag PTE_EXECUTE x (bf_with_flag PTE_WRITE w (bf_with_flag PTE_READ r (pte_base a))) in
  is_usize pte /\ bf_flag PTE_VALID pte = true /\ bf_get PTE_ADDRESS pte = a
  /\ bf_flag PTE_READ pte = r /\ bf_flag PTE_WRITE pte = w /\ bf_flag PTE_EXECUTE pte = x.
Proof.
  intros Ha pte. destruct (pte_base_fields a Ha) as (Hv & Had & Hr & Hw & Hx).
  pose proof (pte_base_usize a Ha) as Hu.
  set (w1 := bf_with_flag PTE_READ r (pte_base a)).
  assert (Hu1 : is_usize w1) by (apply bf_with_flag_usize; [solve_field | done]).
  set (w2 := bf_with_flag PTE_WRITE w w1).
  assert (Hu2 : is_usize w2) by (apply bf_with_flag_usize; [solve_field | done]).
  assert (Hu3 : is_usize pte) by (apply bf_with_flag_usize; [solve_field | done]).
  subst pte. fold w1. fold w2.
  split; [done |]. split_and!.
  - unfold w2, w1. by rewrite !bf_flag_with_other by (done || solve_field).
  - unfold w2, w1. by rewrite !bf_get_with_flag_other by (done || solve_field).
  - unfold w2. rewrite !bf_flag_with_other by (done || solve_field).
    apply bf_flag_with_same; [solve_field | done].
  - rewrite bf_flag_with_other by (done || solve_field).
    apply bf_flag_with_same; [solve_field | done].
  - apply bf_flag_with_same; [solve_field | done].
Qed.

Lemma shiftr_address_range p :
  0 <= p < 2 ^ PHYSICAL_ADDRESS_BITS -> 0 <= Z.shiftr p PAGE_OFFSET_BITS <= f_max PTE_ADDRESS.
Proof.
  unfold PHYSICAL_ADDRESS_BITS, PAGE_OFFSET_BITS, f_max. simpl f_width. intros Hp.
  rewrite Z.shiftr_div_pow2 by lia.
  assert (p / 2 ^ 12 < 2 ^ 44) by (apply Z.div_lt_upper_bound; lia).
  split; [apply Z.div_pos; lia | lia].
Qed.

Lemma address_round_trip p :
  0 <= p < 2 ^ PHYSICAL_ADDRESS_BITS -> p mod 4096 = 0 ->
  wrap (Z.shiftl (Z.shiftr p PAGE_OFFSET_BITS) PAGE_OFFSET_BITS) = p.
Proof.
  unfold PHYSICAL_ADDRESS_BITS, PAGE_OFFSET_BITS. intros Hp Hm.
  rewrite Z.shiftr_div_pow2, Z.shiftl_mul_pow2 by lia. change (2 ^ 12) with 4096.
  replace (p / 4096 * 4096) with p.
  - apply wrap_small. unfold is_usize. lia.
  - pose proof (Z.div_mod p 4096 ltac:(lia)). lia.
Qed.

Lemma riscv_new_table_ok p :
  0 <= p < 2 ^ PHYSICAL_ADDRESS_BITS -> p mod 4096 = 0 ->
  exists w, riscv_new_table p = Done w /\ is_usize w /\ riscv_is_table w = true /\ riscv_pte_address w = p.
Proof.
  intros Hp Hm. pose proof (shiftr_address_range p Hp) as Hr.
  destruct (pte_base_fields _ Hr) as (Hv & Had & Hrd & Hw & Hx).
  eexists. split_and!.
  - unfold riscv_new_table. by rewrite (assert_true _ (proj2 (Z.leb_le _ _) (proj2 Hr))).
  - by apply pte_base_usize.
  - unfold riscv_is_table. fold (pte_base (Z.shiftr p PAGE_OFFSET_BITS)). by rewrite Hv, Hrd, Hw, Hx.
  - unfold riscv_pte_address. fold (pte_base (Z.shiftr p PAGE_OFFSET_BITS)).
    rewrite Had. by apply address_round_trip.
Qed.

Lemma riscv_new_leaf_ok p m :
  0 <= p < 2 ^ PHYSICAL_ADDRESS_BITS -> p mod 4096 = 0 ->
  exists w, riscv_new_leaf p m = Done w /\ is_usize w
    /\ riscv_is_leaf w = attributes_accessible m
    /\ riscv_is_table w = negb (attributes_accessible m)
    /\ riscv_pte_address w = p
    /\ riscv_pte_attributes w = Done (with_KIND Normal m).
Proof.
  intros Hp Hm. pose proof (shiftr_address_range p Hp) as Hr.
  destruct (pte_leaf_fields _ (allows_read m) (allows_write m) (allows_execution m) Hr)
    as (Hu & Hv & Had & Hrd & Hw & Hx).
  eexists. split_and!.
  - unfold riscv_new_leaf. by rewrite (assert_true _ (proj2 (Z.leb_le _ _) (proj2 Hr))).
  - exact Hu.
  - unfold riscv_is_leaf. fold (pte_base (Z.shiftr p PAGE_OFFSET_BITS)). rewrite Hv, Hrd, Hw, Hx.
    unfold attributes_accessible. by rewrite orb_assoc.
  - unfold riscv_is_table. fold (pte_base (Z.shiftr p PAGE_OFFSET_BITS)). rewrite Hv, Hrd, Hw, Hx.
    unfold attributes_accessible. by rewrite !negb_orb.
  - unfold riscv_pte_address. fold (pte_base (Z.shiftr p PAGE_OFFSET_BITS)).
    rewrite Had. by apply address_round_trip.
  - unfold riscv_pte_attributes. fold (pte_base (Z.shiftr p PAGE_OFFSET_BITS)). rewrite Hrd, Hw, Hx.
    unfold allows_write, allows_execution. destruct m as [? [] ?]; reflexivity.
Qed.

Lemma riscv_vacant_xor w : riscv_is_vacant w = negb (riscv_is_leaf w || riscv_is_table w).
Proof.
  unfold riscv_is_vacant, riscv_is_leaf, riscv_is_table.
  by destruct (bf_flag PTE_VALID w), (bf_flag PTE_READ w), (bf_flag PTE_WRITE w), (bf_flag PTE_EXECUTE w).
Qed.

Lemma riscv_leaf_not_table w : riscv_is_leaf w = true -> riscv_is_table w = false.
Proof.
  unfold riscv_is_leaf, riscv_is_table.
  by destruct (bf_flag PTE_VALID w), (bf_flag PTE_READ w), (bf_flag PTE_WRITE w), (bf_flag PTE_EXECUTE w).
Qed.

Lemma riscv_address_range w :
  is_usize w -> 0 <= riscv_pte_address w < 2 ^ PHYSICAL_ADDRESS_BITS /\ riscv_pte_address w mod 4096 = 0.
Proof.
  intros Hw. unfold riscv_pte_address, PAGE_OFFSET_BITS, PHYSICAL_ADDRESS_BITS.
  pose proof (bf_get_range PTE_ADDRESS w ltac:(solve_field) Hw) as Hr.
  unfold f_max in Hr. simpl f_width in Hr.
  rewrite Z.shiftl_mul_pow2 by lia. rewrite wrap_small by (unfold is_usize; lia).
  split; [lia |]. change (2 ^ 12) with 4096. by rewrite Z.mod_mul by lia.
Qed.

Lemma riscv_leaf_attributes w m :
  riscv_is_leaf w = true -> riscv_pte_attributes w = Done m ->
  attributes_accessible m = true /\ with_KIND Normal m = m.
Proof.
  unfold riscv_is_leaf, riscv_pte_attributes.
  destruct (bf_flag PTE_VALID w), (bf_flag PTE_READ w), (bf_flag PTE_WRITE w), (bf_flag PTE_EXECUTE w);
    try done; by intros _ [= <-].
Qed.

End pte_laws.

(** ** The modes satisfy the interface *)

Section modes.
Context `{BitfieldLaws} {firmware : Sbi} (asid : Z).

Local Ltac solve_arch_laws :=
  refine {| PHYS_LIMIT := 2 ^ PHYSICAL_ADDRESS_BITS; normalize_attributes := with_KIND Normal |};
  [ done
  | simpl; lia
  | repeat constructor; simpl; lia
  | simpl; lia
  | repeat (constructor; [vm_compute; done |]); constructor
  | by vm_compute
  | done
  | simpl; unfold riscv_is_vacant; rewrite bf_flag_0; [done | solve_field]
  | intros; apply riscv_vacant_xor
  | intros; by apply riscv_leaf_not_table
  | intros; by apply riscv_address_range
  | intros w m _ Hl Ha; by apply (riscv_leaf_attributes w)
  | intros; by apply riscv_new_table_ok
  | intros p m Hp Hm Ha; destruct (riscv_new_leaf_ok p m Hp Hm) as (w & ? & ? & Hl & ? & ? & ?);
    exists w; rewrite Ha in Hl; by split_and! ].

#[export] Instance Sv39_laws : @ArchLaws (Riscv64Sv39 asid).
Proof. solve_arch_laws. Defined.

#[export] Instance Sv48_laws : @ArchLaws (Riscv64Sv48 asid).
Proof. solve_arch_laws. Defined.

#[export] Instance Sv57_laws : @ArchLaws (Riscv64Sv57 asid).
Proof. solve_arch_laws. Defined.

(** [impl_maps_at!]: the leaf sizes of each mode. *)
#[export] Instance Sv39_maps_1GiB : @MapsAt (Riscv64Sv39 asid) Size1GiB :=
  @Build_MapsAt (Riscv64Sv39 asid) Size1GiB 0 eq_refl.
#[export] Instance Sv39_maps_2MiB : @MapsAt (Riscv64Sv39 asid) Size2MiB :=
  @Build_MapsAt (Riscv64Sv39 asid) Size2MiB 1 eq_refl.
#[export] Instance Sv39_maps_4KiB : @MapsAt (Riscv64Sv39 asid) Size4KiB :=
  @Build_MapsAt (Riscv64Sv39 asid) Size4KiB 2 eq_refl.

#[export] Instance Sv48_maps_512GiB : @MapsAt (Riscv64Sv48 asid) Size512GiB :=
  @Build_MapsAt (Riscv64Sv48 asid) Size512GiB 0 eq_refl.
#[export] Instance Sv48_maps_1GiB : @MapsAt (Riscv64Sv48 asid) Size1GiB :=
  @Build_MapsAt (Riscv64Sv48 asid) Size1GiB 1 eq_refl.
#[export] Instance Sv48_maps_2MiB : @MapsAt (Riscv64Sv48 asid) Size2MiB :=
  @Build_MapsAt (Riscv64Sv48 asid) Size2MiB 2 eq_refl.
#[export] Instance Sv48_maps_4KiB : @MapsAt (Riscv64Sv48 asid) Size4KiB :=
  @Build_MapsAt (Riscv64Sv48 asid) Size4KiB 3 eq_refl.

#[export] Instance Sv57_maps_256TiB : @MapsAt (Riscv64Sv57 asid) Size256TiB :=
  @Build_MapsAt (Riscv64Sv57 asid) Size256TiB 0 eq_refl.
#[export] Instance Sv57_maps_512GiB : @MapsAt (Riscv64Sv57 asid) Size512GiB :=
  @Build_MapsAt (Riscv64Sv57 asid) Size512GiB 1 eq_refl.
#[export] Instance Sv57_maps_1GiB : @MapsAt (Riscv64Sv57 asid) Size1GiB :=
  @Build_MapsAt (Riscv64Sv57 asid) Size1GiB 2 eq_refl.
#[export] Instance Sv57_maps_2MiB : @MapsAt (Riscv64Sv57 asid) Size2MiB :=
  @Build_MapsAt (Riscv64Sv57 asid) Size2MiB 3 eq_refl.
#[export] Instance Sv57_maps_4KiB : @MapsAt (Riscv64Sv57 asid) Size4KiB :=
  @Build_MapsAt (Riscv64Sv57 asid) Size4KiB 4 eq_refl.

End modes.
