(* ===== verification/PhysMap.v ===== *)
(** * The physical memory map (lib/mem-core/src/physmap.rs)

    The region of virtual memory through which the kernel reaches physical
    memory: construction from the machine's regions and the translation. *)

From stdpp Require Import base numbers list.
From Stdlib Require Import ZArith Lia.
From S2P Require Import Prelude Address Riscv Arch.

Record PhysMap : Type := MkPhysMap {
  translation_offset : Z; (* isize *)
  range_phys : range;
  range_virt : range;
}.

(** The loop over the regions: hull of all of them, starting inverted. *)
Definition regions_hull (regions : list range) : range :=
  fold_left
    (fun acc region => Range (Z.min (r_start acc) (r_start region)) (Z.max (r_end acc) (r_end region)))
    regions (Range ADDR_MAX ADDR_MIN).

Definition physmap_new (s : PageSize) (physmap_base : VirtualAddress) (regions : list range) :
    outcome PhysMap :=
  let rp := regions_hull regions in
  _ ← assert_ (negb (range_is_empty rp));
  let off := as_isize (wrapping_sub physmap_base (r_start rp)) in
  let rv := Range (addr_wrapping_offset (r_start rp) off) (addr_wrapping_offset (r_end rp) off) in
  rv' ← range_align_out rv (BYTES s);
  mret (MkPhysMap off rp rv').

Definition physmap_new_identity (s : PageSize) (regions : list range) : outcome PhysMap :=
  let rp := regions_hull regions in
  _ ← assert_ (negb (range_is_empty rp));
  let rv := Range (r_start rp) (r_end rp) in
  rv' ← range_align_out rv (BYTES s);
  mret (MkPhysMap 0 rp rv').

Definition phys_to_virt_internal (pm : PhysMap) (phys : PhysicalAddress) : VirtualAddress :=
  addr_wrapping_offset phys (translation_offset pm).

Definition phys_to_virt (pm : PhysMap) (phys : PhysicalAddress) : outcome VirtualAddress :=
  _ ← assert_ (range_contains (range_phys pm) phys);
  let virt := phys_to_virt_internal pm phys in
  _ ← assert_ (range_contains (range_virt pm) virt);
  mret virt.

Definition phys_to_virt_range (pm : PhysMap) (phys : range) : outcome range :=
  _ ← assert_ ((r_start (range_phys pm) <=? r_start phys) && (r_end phys <=? r_end (range_phys pm)));
  let virt := Range (phys_to_virt_internal pm (r_start phys)) (phys_to_virt_internal pm (r_end phys)) in
  _ ← assert_ ((r_start (range_virt pm) <=? r_start virt) && (r_end virt <=? r_end (range_virt pm)));
  mret virt.

(** ** Well-formed physmaps

    [pm_base] is the virtual address of the first physical byte. *)

Definition pm_base (pm : PhysMap) : Z := phys_to_virt_internal pm (r_start (range_phys pm)).

Record physmap_ok (pm : PhysMap) : Prop := {
  pm_phys_start : 0 <= r_start (range_phys pm);
  pm_phys_order : r_start (range_phys pm) < r_end (range_phys pm);
  pm_phys_end : r_end (range_phys pm) < USIZE_MOD;
  pm_virt_start : r_start (range_virt pm) <= pm_base pm;
  pm_virt_end : pm_base pm + (r_end (range_phys pm) - r_start (range_phys pm)) <= r_end (range_virt pm);
  pm_no_wrap : r_end (range_virt pm) < USIZE_MOD;
}.

(** The translation is a shift of the physical range onto [pm_base]. *)
Lemma phys_to_virt_internal_shift pm p :
  physmap_ok pm -> r_start (range_phys pm) <= p <= r_end (range_phys pm) ->
  phys_to_virt_internal pm p = pm_base pm + (p - r_start (range_phys pm)).
Proof.
  intros Hok Hp. unfold pm_base in *. set (s := r_start (range_phys pm)) in *.
  pose proof (wrap_usize (s + translation_offset pm)) as [Hb _].
  pose proof (pm_virt_end pm Hok) as He. pose proof (pm_no_wrap pm Hok) as Hn.
  unfold pm_base in He. fold s in He.
  unfold phys_to_virt_internal, addr_wrapping_offset in *.
  replace (p + translation_offset pm) with ((s + translation_offset pm) + (p - s)) by lia.
  unfold wrap in *. rewrite <- Z.add_mod_idemp_l by lia. apply Z.mod_small. lia.
Qed.

Lemma phys_to_virt_Done pm p :
  physmap_ok pm -> range_contains (range_phys pm) p = true ->
  phys_to_virt pm p = Done (pm_base pm + (p - r_start (range_phys pm))).
Proof.
  intros Hok Hc. unfold phys_to_virt. rewrite Hc. simpl.
  unfold range_contains in Hc. apply andb_true_iff in Hc as [H1 H2].
  apply Z.leb_le in H1. apply Z.ltb_lt in H2.
  rewrite phys_to_virt_internal_shift by (done || lia).
  pose proof (pm_virt_start pm Hok). pose proof (pm_virt_end pm Hok).
  unfold range_contains. by rewrite (proj2 (Z.leb_le _ _)), (proj2 (Z.ltb_lt _ _)) by lia.
Qed.

Lemma phys_to_virt_range_Done pm r :
  physmap_ok pm -> r_start (range_phys pm) <= r_start r -> r_start r <= r_end r ->
  r_end r <= r_end (range_phys pm) ->
  phys_to_virt_range pm r =
    Done (Range (pm_base pm + (r_start r - r_start (range_phys pm)))
                (pm_base pm + (r_end r - r_start (range_phys pm)))).
Proof.
  intros Hok H1 H2 H3. unfold phys_to_virt_range.
  rewrite (proj2 (Z.leb_le _ _) H1), (proj2 (Z.leb_le _ _) H3). simpl.
  rewrite !phys_to_virt_internal_shift by (done || lia).
  pose proof (pm_virt_start pm Hok). pose proof (pm_virt_end pm Hok).
  by rewrite !(proj2 (Z.leb_le _ _)) by lia.
Qed.

(** The hull contains every region. *)
Lemma regions_hull_spec regions :
  forall acc,
  let h := fold_left
    (fun acc region => Range (Z.min (r_start acc) (r_start region)) (Z.max (r_end acc) (r_end region)))
    regions acc in
  r_start h <= r_start acc /\ r_end acc <= r_end h
  /\ Forall (fun r => r_start h <= r_start r /\ r_end r <= r_end h) regions
  /\ (r_start h = r_start acc \/ Exists (fun r => r_start h = r_start r) regions)
  /\ (r_end h = r_end acc \/ Exists (fun r => r_end h = r_end r) regions).
Proof.
  induction regions as [| r rs IH]; intros acc; simpl.
  - split_and!; (done || lia || constructor || by left).
  - destruct (IH (Range (Z.min (r_start acc) (r_start r)) (Z.max (r_end acc) (r_end r))))
      as (H1 & H2 & H3 & H4 & H5). simpl in *.
    split_and!; [lia | lia | constructor; [lia | done] | |].
    + destruct H4 as [H4 | H4]; [| right; by right].
      destruct (Z.min_spec (r_start acc) (r_start r)) as [[? E] | [? E]];
        [left; by etrans | right; left; by etrans].
    + destruct H5 as [H5 | H5]; [| right; by right].
      destruct (Z.max_spec (r_end acc) (r_end r)) as [[? E] | [? E]];
        [right; left; by etrans | left; by etrans].
Qed.

Lemma wrap_offset_base b s :
  is_usize b -> wrap (s + as_isize (wrapping_sub b s)) = b.
Proof.
  intros Hb. unfold wrap. rewrite <- Z.add_mod_idemp_r by lia.
  rewrite as_isize_mod by apply wrap_usize. unfold wrapping_sub, wrap.
  rewrite Z.add_mod_idemp_r by lia. replace (s + (b - s)) with b by lia.
  by apply Z.mod_small.
Qed.

Lemma BYTES_pow2 s : BYTES s = 2 ^ SHIFT s.
Proof. unfold BYTES. rewrite Z.shiftl_mul_pow2 by (destruct s; simpl; lia). lia. Qed.

Lemma SHIFT_range s : 12 <= SHIFT s <= 48.
Proof. destruct s; simpl; lia. Qed.

Lemma range_align_out_spec s a b :
  is_usize a -> is_usize b -> b + (BYTES s - 1) < USIZE_MOD ->
  exists a' b', range_align_out (Range a b) (BYTES s) = Done (Range a' b')
    /\ 0 <= a' <= a /\ b <= b' < USIZE_MOD /\ a' mod BYTES s = 0 /\ b' mod BYTES s = 0
    /\ a - a' < BYTES s /\ b' - b < BYTES s.
Proof.
  intros Ha Hb Hov. rewrite BYTES_pow2 in *. pose proof (SHIFT_range s).
  pose proof (pow2_pos (SHIFT s) ltac:(lia)) as Hp. unfold range_align_out. simpl.
  rewrite align_down_pow2, align_up_pow2 by (done || lia). simpl.
  do 2 eexists. split; [done |].
  set (c := b + (2 ^ SHIFT s - 1)) in *.
  pose proof (Z.mod_pos_bound a (2 ^ SHIFT s) Hp). pose proof (Z.mod_pos_bound c (2 ^ SHIFT s) Hp).
  pose proof (Z.mod_le a (2 ^ SHIFT s) ltac:(apply Ha) Hp).
  unfold is_usize in *. split_and!; try lia.
  - by rewrite Zminus_mod_idemp_r, Z.sub_diag.
  - by rewrite Zminus_mod_idemp_r, Z.sub_diag.
Qed.

(** A machine description [PhysMap::new] accepts: the regions are [usize]
    ranges, one is not empty, and the mapped image does not run past the end
    of the address space. *)
Definition regions_ok (regions : list range) : Prop :=
  Forall (fun r => 0 <= r_start r /\ r_end r < USIZE_MOD) regions
  /\ Exists (fun r => r_start r < r_end r) regions.

Lemma regions_hull_ok regions :
  regions_ok regions ->
  let h := regions_hull regions in
  0 <= r_start h /\ r_start h < r_end h /\ r_end h < USIZE_MOD
  /\ Forall (fun r => r_start h <= r_start r /\ r_end r <= r_end h) regions.
Proof.
  intros [Hall Hex] h. pose proof (regions_hull_spec regions (Range ADDR_MAX ADDR_MIN)) as Hs.
  fold (regions_hull regions) in Hs. fold h in Hs. simpl in Hs.
  destruct Hs as (H1 & H2 & H3 & H4 & H5).
  apply Exists_exists in Hex as (r0 & Hin0 & Hr0).
  rewrite Forall_forall in H3. pose proof (H3 r0 Hin0). rewrite Forall_forall in Hall.
  assert (0 <= r_start h).
  { destruct H4 as [-> | (r & Hin & ->)%Exists_exists]; [unfold ADDR_MAX; lia | by apply Hall]. }
  assert (r_end h < USIZE_MOD).
  { destruct H5 as [-> | (r & Hin & ->)%Exists_exists]; [unfold ADDR_MIN; lia | by apply Hall]. }
  split_and!; [done | lia | done |]. rewrite Forall_forall. done.
Qed.

Lemma physmap_new_spec s base regions :
  is_usize base -> regions_ok regions ->
  let h := regions_hull regions in
  base + (r_end h - r_start h) + (BYTES s - 1) < USIZE_MOD ->
  exists pm, physmap_new s base regions = Done pm
    /\ physmap_ok pm /\ range_phys pm = h /\ pm_base pm = base
    /\ r_start (range_virt pm) mod BYTES s = 0 /\ r_end (range_virt pm) mod BYTES s = 0
    /\ base - BYTES s < r_start (range_virt pm) /\ r_end (range_virt pm) < base + (r_end h - r_start h) + BYTES s.
Proof.
  intros Hb Hr h Hov. destruct (regions_hull_ok regions Hr) as (H1 & H2 & H3 & _). fold h in H1, H2, H3.
  unfold physmap_new. fold h. unfold range_is_empty.
  rewrite (proj2 (Z.leb_gt _ _) H2). simpl.
  set (off := as_isize (wrapping_sub base (r_start h))).
  assert (Hs : addr_wrapping_offset (r_start h) off = base) by by apply wrap_offset_base.
  assert (He : addr_wrapping_offset (r_end h) off = base + (r_end h - r_start h)).
  { unfold addr_wrapping_offset in *. replace (r_end h + off) with ((r_start h + off) + (r_end h - r_start h)) by lia.
    unfold wrap in *. rewrite <- Z.add_mod_idemp_l, Hs by lia. apply Z.mod_small. unfold is_usize in *.
    rewrite BYTES_pow2 in *. pose proof (pow2_pos (SHIFT s)). pose proof (SHIFT_range s). lia. }
  rewrite Hs, He.
  assert (Hu : is_usize (base + (r_end h - r_start h))).
  { unfold is_usize in *. rewrite BYTES_pow2 in *. pose proof (pow2_pos (SHIFT s)). pose proof (SHIFT_range s). lia. }
  destruct (range_align_out_spec s base (base + (r_end h - r_start h)) Hb Hu Hov)
    as (a' & b' & -> & ? & ? & ? & ? & ? & ?).
  simpl. eexists. split; [done |]. simpl.
  assert (Hpb : pm_base (MkPhysMap off h (Range a' b')) = base) by exact Hs.
  split_and!; try done; try lia. split; simpl; rewrite ?Hpb; lia.
Qed.
