(* ===== verification/ArrayVec.v ===== *)
(** * Fixed-capacity vectors (lib/arrayvec/src/lib.rs)

    The vector is its length and its [MaybeUninit] slots; [to_list] is the
    slice [as_slice] returns.  The operations that move elements around inside
    the buffer are shown to implement the list operations they stand for. *)

From stdpp Require Import base numbers option list.
From Stdlib Require Import Lia.
From S2P Require Import Prelude.

#[local] Open Scope nat_scope.

Record ArrayVec (T : Type) : Type := MkArrayVec {
  av_len : nat;
  av_data : list (option T); (* [MaybeUninit<T>; CAP]; [None] is uninitialised *)
}.
Arguments MkArrayVec {T} _ _.
Arguments av_len {T} _.
Arguments av_data {T} _.

Section arrayvec.
Context {T : Type}.
Implicit Types v : ArrayVec T.

Definition av_new (CAP : nat) : ArrayVec T := MkArrayVec 0 (replicate CAP None).
Definition av_is_empty v : bool := av_len v =? 0.
Definition av_capacity v : nat := length (av_data v).
Definition av_is_full v : bool := av_len v =? av_capacity v.
(** [self.capacity() - self.len()]; the length never exceeds the capacity. *)
Definition av_remaining_capacity v : nat := av_capacity v - av_len v.

(** [as_slice]: the first [len] slots, which must all be initialised. *)
Definition av_as_slice v : outcome (list T) :=
  match mapM id (take (av_len v) (av_data v)) with
  | Some l => Done l
  | None => Undefined
  end.

Definition av_push_unchecked (element : T) v : outcome (ArrayVec T) :=
  let len := av_len v in
  _ ← assert_ (len <? av_capacity v);
  mret (MkArrayVec (len + 1) (<[len := Some element]> (av_data v))).

Definition av_try_push (element : T) v : outcome (result T unit * ArrayVec T) :=
  if av_len v <? av_capacity v then
    v' ← av_push_unchecked element v;
    mret (Ok tt, v')
  else mret (Err element, v).

Definition av_push (element : T) v : outcome (ArrayVec T) :=
  '(r, v') ← av_try_push element v;
  match r with Ok _ => mret v' | Err _ => Panicked end.

(** [ptr::read] of slot [i]. *)
Definition av_read (i : nat) v : outcome T :=
  match av_data v !! i with
  | Some (Some x) => Done x
  | _ => Undefined
  end.

Definition av_pop v : outcome (option T * ArrayVec T) :=
  if av_len v =? 0 then mret (None, v)
  else
    let v' := MkArrayVec (av_len v - 1) (av_data v) in
    x ← av_read (av_len v') v';
    mret (Some x, v').

Definition av_swap_remove (index : nat) v : outcome (T * ArrayVec T) :=
  let len := av_len v in
  if len <=? index then Panicked else
  value ← av_read index v;
  last ← av_read (len - 1) v;
  mret (value, MkArrayVec (len - 1) (<[index := Some last]> (av_data v))).

(** [clear]: the length is reset first, then the elements are dropped. *)
Definition av_clear v : ArrayVec T :=
  MkArrayVec 0 (replicate (av_len v) None ++ drop (av_len v) (av_data v)).

(** [truncate]: the slots past [new_len] are dropped. *)
Definition av_truncate (new_len : nat) v : ArrayVec T :=
  let len := av_len v in
  if new_len <? len then
    MkArrayVec new_len (take new_len (av_data v) ++ replicate (len - new_len) None ++ drop len (av_data v))
  else v.

(** [FromIterator]: pushes until the iterator ends, panicking when full. *)
Fixpoint av_extend (l : list T) v : outcome (ArrayVec T) :=
  match l with
  | [] => mret v
  | x :: l' => v' ← av_push x v; av_extend l' v'
  end.

Definition av_from_iter (CAP : nat) (l : list T) : outcome (ArrayVec T) := av_extend l (av_new CAP).

(** Writing the elements of a slice into consecutive slots. *)
Fixpoint write_slots (at_ : nat) (l : list T) (data : list (option T)) : list (option T) :=
  match l with
  | [] => data
  | x :: l' => write_slots (S at_) l' (<[at_ := Some x]> data)
  end.

Definition av_try_extend_from_slice (other : list T) v : outcome (result unit unit * ArrayVec T) :=
  if av_remaining_capacity v <? length other then mret (Err tt, v)
  else mret (Ok tt, MkArrayVec (av_len v + length other) (write_slots (av_len v) other (av_data v))).

(** [extend_from_slice]: [try_extend_from_slice(..).unwrap()]. *)
Definition av_extend_from_slice (slice : list T) v : outcome (ArrayVec T) :=
  '(r, v') ← av_try_extend_from_slice slice v;
  match r with Ok _ => mret v' | Err _ => Panicked end.

(** [clone_from], for elements whose clone is an equal value. *)
Definition av_clone_from (rhs : ArrayVec T) v : outcome (ArrayVec T) :=
  self ← av_as_slice v;
  other ← av_as_slice rhs;
  let prefix := Nat.min (length self) (length other) in
  let v' := MkArrayVec (av_len v) (write_slots 0 (take prefix other) (av_data v)) in
  if prefix <? av_len v' then mret (av_truncate prefix v')
  else av_extend_from_slice (drop (av_len v') other) v'.

(** [ptr::copy] of [n] slots, which may overlap. *)
Definition copy_slots (src dst n : nat) (data : list (option T)) : list (option T) :=
  take dst data ++ take n (drop src data) ++ drop (dst + n) data.

(** *** [retain]

    The predicate is an [FnMut(&mut T) -> bool]: it may change its captured
    state [A] and the element, and it may unwind. *)

Inductive verdict : Type := Keep | Delete | Unwind.

Record BackshiftOnDrop : Type := MkBackshift {
  g_data : list (option T);
  processed_len : nat;
  deleted_cnt : nat;
}.

Section retain.
Context {A : Type} (f : A -> T -> verdict * T * A).

Definition process_one (DELETED : bool) (a : A) (g : BackshiftOnDrop) :
    outcome (verdict * A * BackshiftOnDrop) :=
  match g_data g !! processed_len g with
  | Some (Some cur) =>
      let '(keep, cur', a') := f a cur in
      let data := <[processed_len g := Some cur']> (g_data g) in
      match keep with
      | Unwind => mret (Unwind, a', MkBackshift data (processed_len g) (deleted_cnt g))
      | Delete =>
          mret (Delete, a', MkBackshift (<[processed_len g := None]> data) (processed_len g + 1) (deleted_cnt g + 1))
      | Keep =>
          let data' := if DELETED then <[processed_len g - deleted_cnt g := Some cur']> data else data in
          mret (Keep, a', MkBackshift data' (processed_len g + 1) (deleted_cnt g))
      end
  | _ => Undefined
  end.

(** The two [while] loops; the flag says that the predicate unwound. *)
Fixpoint retain_deleted (fuel original_len : nat) (a : A) (g : BackshiftOnDrop) :
    outcome (bool * A * BackshiftOnDrop) :=
  if processed_len g =? original_len then mret (false, a, g) else
  match fuel with
  | O => Panicked
  | S fuel' =>
      '(keep, a', g') ← process_one true a g;
      match keep with
      | Unwind => mret (true, a', g')
      | _ => retain_deleted fuel' original_len a' g'
      end
  end.

Fixpoint retain_kept (fuel original_len : nat) (a : A) (g : BackshiftOnDrop) :
    outcome (bool * A * BackshiftOnDrop) :=
  if processed_len g =? original_len then mret (false, a, g) else
  match fuel with
  | O => Panicked
  | S fuel' =>
      '(keep, a', g') ← process_one false a g;
      match keep with
      | Unwind => mret (true, a', g')
      | Delete => retain_deleted fuel' original_len a' g'
      | Keep => retain_kept fuel' original_len a' g'
      end
  end.

(** [Drop for BackshiftOnDrop]: runs on return and on unwinding alike. *)
Definition backshift_drop (original_len : nat) (g : BackshiftOnDrop) : ArrayVec T :=
  let data :=
    if 0 <? deleted_cnt g then
      copy_slots (processed_len g) (processed_len g - deleted_cnt g) (original_len - processed_len g) (g_data g)
    else g_data g in
  MkArrayVec (original_len - deleted_cnt g) data.

Definition av_retain (a : A) v : outcome (bool * A * ArrayVec T) :=
  let original_len := av_len v in
  '(unwound, a', g) ← retain_kept original_len original_len a (MkBackshift (av_data v) 0 0);
  mret (unwound, a', backshift_drop original_len g).

End retain.

(** *** [drain] *)

Inductive Bound : Type := Included (i : nat) | Excluded (i : nat) | Unbounded.

(** [iter] is the slice iterator over the slots [drain_front..drain_back). *)
Record Drain : Type := MkDrain {
  tail_start : nat;
  tail_len : nat;
  drain_front : nat;
  drain_back : nat;
  drain_vec : ArrayVec T;
}.

(** Indices do not reach [usize::MAX], where [saturating_add] would differ
    from [+ 1]. *)
Definition start_index (lo : Bound) : nat :=
  match lo with Unbounded => 0 | Included i => i | Excluded i => i + 1 end.

Definition end_index (hi : Bound) (len : nat) : nat :=
  match hi with Unbounded => len | Included j => j + 1 | Excluded j => j end.

(** [slice::from_raw_parts] over slots that are not all initialised is
    undefined behaviour; [end - start] and [len - end] are overflow checked. *)
Definition av_drain (lo hi : Bound) v : outcome Drain :=
  let len := av_len v in
  let start := start_index lo in
  let end_ := end_index hi len in
  let v' := MkArrayVec start (av_data v) in
  if end_ <? start then Panicked else
  match mapM id (take (end_ - start) (drop start (av_data v))) with
  | Some slice =>
      if negb (length slice =? end_ - start) then Undefined
      else if len <? end_ then Panicked
      else mret (MkDrain end_ (len - end_) start end_ v')
  | None => Undefined
  end.

Definition drain_next (d : Drain) : outcome (option T * Drain) :=
  if drain_front d <? drain_back d then
    x ← av_read (drain_front d) (drain_vec d);
    mret (Some x, MkDrain (tail_start d) (tail_len d) (drain_front d + 1) (drain_back d) (drain_vec d))
  else mret (None, d).

Definition drain_next_back (d : Drain) : outcome (option T * Drain) :=
  if drain_front d <? drain_back d then
    x ← av_read (drain_back d - 1) (drain_vec d);
    mret (Some x, MkDrain (tail_start d) (tail_len d) (drain_front d) (drain_back d - 1) (drain_vec d))
  else mret (None, d).

(** [Drop for Drain]: drops what was not taken, then moves the tail back. *)
Definition drain_drop (d : Drain) : ArrayVec T :=
  let v := drain_vec d in
  let n := drain_back d - drain_front d in
  let dropped := take (drain_front d) (av_data v) ++ replicate n None ++ drop (drain_front d + n) (av_data v) in
  if 0 <? tail_len d then
    let start := av_len v in
    let data := if tail_start d =? start then dropped else copy_slots (tail_start d) start (tail_len d) dropped in
    MkArrayVec (start + tail_len d) data
  else MkArrayVec (av_len v) dropped.

(** *** [IntoIter] *)

Record IntoIter : Type := MkIntoIter { ii_index : nat; ii_vec : ArrayVec T }.

Definition av_into_iter v : IntoIter := MkIntoIter 0 v.

Definition into_iter_next (it : IntoIter) : outcome (option T * IntoIter) :=
  let v := ii_vec it in
  if av_is_empty v || (av_len v <=? ii_index it) then mret (None, it)
  else
    x ← av_read (ii_index it) v;
    mret (Some x, MkIntoIter (ii_index it + 1) (MkArrayVec (av_len v) (<[ii_index it := None]> (av_data v)))).

Definition into_iter_next_back (it : IntoIter) : outcome (option T * IntoIter) :=
  let v := ii_vec it in
  if av_is_empty v || (av_len v <=? ii_index it) then mret (None, it)
  else
    x ← av_read (av_len v - 1) v;
    mret (Some x, MkIntoIter (ii_index it) (MkArrayVec (av_len v - 1) (<[av_len v - 1 := None]> (av_data v)))).

Definition into_iter_size_hint (it : IntoIter) : nat * option nat :=
  (av_len (ii_vec it), Some (av_len (ii_vec it))).

(** ** Invariant and abstraction *)

(** The first [len] slots are initialised and hold [l]. *)
Definition av_holds v (l : list T) : Prop :=
  av_len v = length l /\ length l <= av_capacity v /\ take (length l) (av_data v) = Some <$> l.

Lemma av_new_holds CAP : av_holds (av_new CAP) [].
Proof. split_and!; simpl; [done | lia | done]. Qed.

Lemma av_capacity_new CAP : av_capacity (av_new CAP) = CAP.
Proof. apply length_replicate. Qed.

Lemma av_holds_lookup v l i : av_holds v l -> i < length l -> av_data v !! i = Some <$> (l !! i).
Proof.
  intros (_ & _ & Ht) Hi. rewrite <- (lookup_take_lt (av_data v) (length l)) by done.
  rewrite Ht. by rewrite list_lookup_fmap.
Qed.

Lemma mapM_id_fmap_Some (l : list T) : mapM id (Some <$> l) = Some l.
Proof. apply mapM_Some_2, Forall2_fmap_l, Forall_Forall2_diag, Forall_true. done. Qed.

Lemma av_as_slice_holds v l : av_holds v l -> av_as_slice v = Done l.
Proof.
  intros (Hl & _ & Ht). unfold av_as_slice. by rewrite Hl, Ht, mapM_id_fmap_Some.
Qed.

Lemma take_insert_snoc (data : list (option T)) (l : list T) x :
  length l < length data -> take (length l) data = Some <$> l ->
  take (length (l ++ [x])) (<[length l := Some x]> data) = Some <$> (l ++ [x]).
Proof.
  intros Hlt Ht. rewrite length_app. simpl. rewrite Nat.add_1_r.
  rewrite (take_S_r _ _ (Some x)) by by apply list_lookup_insert_eq.
  rewrite take_insert_ge by done. by rewrite Ht, fmap_app.
Qed.

Lemma av_push_unchecked_holds v l x :
  av_holds v l -> length l < av_capacity v ->
  exists v', av_push_unchecked x v = Done v' /\ av_holds v' (l ++ [x]) /\ av_capacity v' = av_capacity v.
Proof.
  intros (Hl & Hc & Ht) Hlt. unfold av_push_unchecked, av_capacity in *.
  rewrite Hl, (proj2 (Nat.ltb_lt _ _) Hlt). simpl. eexists. split; [done |].
  split; [split_and! |]; simpl.
  - by rewrite length_app.
  - unfold av_capacity. simpl. rewrite length_app, length_insert. simpl. lia.
  - by apply take_insert_snoc.
  - by rewrite length_insert.
Qed.

Lemma av_try_push_holds v l x :
  av_holds v l ->
  if decide (length l < av_capacity v) then
    exists v', av_try_push x v = Done (Ok tt, v') /\ av_holds v' (l ++ [x]) /\ av_capacity v' = av_capacity v
  else av_try_push x v = Done (Err x, v).
Proof.
  intros Hh. pose proof Hh as (Hl & _ & _). unfold av_try_push. rewrite Hl. case_decide as Hd.
  - rewrite (proj2 (Nat.ltb_lt _ _) Hd).
    destruct (av_push_unchecked_holds v l x Hh Hd) as (v' & -> & ?). simpl. eauto.
  - by rewrite (proj2 (Nat.ltb_ge _ _)) by lia.
Qed.

(** *** Reading, removing and overwriting elements *)

Lemma av_read_holds v l i x : av_holds v l -> l !! i = Some x -> av_read i v = Done x.
Proof.
  intros Hh Hi. unfold av_read. rewrite (av_holds_lookup v l i Hh) by (by eapply lookup_lt_Some).
  by rewrite Hi.
Qed.

(** A vector holds the first [n] elements of what it held, whatever is done
    to the slots from [n] on. *)
Lemma av_holds_take v l n data :
  av_holds v l -> n <= length l -> length data = av_capacity v ->
  take n data = take n (av_data v) -> av_holds (MkArrayVec n data) (take n l).
Proof.
  intros (Hl & Hc & Ht) Hn Hd E. unfold av_holds, av_capacity in *. simpl.
  rewrite length_take, Nat.min_l by done. split_and!; [done | lia |].
  rewrite E, fmap_take, <- Ht, take_take. by rewrite Nat.min_l.
Qed.

Lemma av_push_holds v l x :
  av_holds v l ->
  if decide (length l < av_capacity v) then
    exists v', av_push x v = Done v' /\ av_holds v' (l ++ [x]) /\ av_capacity v' = av_capacity v
  else av_push x v = Panicked.
Proof.
  intros Hh. pose proof (av_try_push_holds v l x Hh) as Hp. unfold av_push. case_decide.
  - destruct Hp as (v' & -> & ?). simpl. eauto.
  - by rewrite Hp.
Qed.

Lemma av_pop_holds v l :
  av_holds v l ->
  exists v', av_pop v = Done (last l, v') /\ av_holds v' (take (length l - 1) l) /\ av_capacity v' = av_capacity v.
Proof.
  intros Hh. pose proof Hh as (Hl & Hc & Ht). unfold av_pop. rewrite Hl.
  destruct (Nat.eqb_spec (length l) 0) as [E | E].
  - apply length_zero_iff_nil in E. subst l. exists v. split_and!; done.
  - destruct (lookup_lt_is_Some_2 l (length l - 1)) as [x Hx]; [lia |].
    assert (Hr : av_read (length l - 1) (MkArrayVec (length l - 1) (av_data v)) = Done x).
    { pose proof (av_read_holds v l _ x Hh Hx) as Hr. exact Hr. }
    simpl. rewrite Hr. simpl. eexists. split; [| split].
    + by rewrite last_lookup, <- Nat.sub_1_r, Hx.
    + apply (av_holds_take v l); auto. lia.
    + done.
Qed.

(** What [swap_remove] does to the contents. *)
Definition list_swap_remove (i : nat) (l : list T) : option (T * list T) :=
  match l !! i, last l with
  | Some x, Some y => Some (x, take (length l - 1) (<[i := y]> l))
  | _, _ => None
  end.

Lemma av_swap_remove_holds v l i :
  av_holds v l ->
  match list_swap_remove i l with
  | Some (x, l') => exists v', av_swap_remove i v = Done (x, v') /\ av_holds v' l' /\ av_capacity v' = av_capacity v
  | None => av_swap_remove i v = Panicked
  end.
Proof.
  intros Hh. pose proof Hh as (Hl & Hc & Ht). unfold list_swap_remove, av_swap_remove. rewrite Hl.
  destruct (l !! i) as [x |] eqn:Hi.
  - pose proof (lookup_lt_Some _ _ _ Hi) as Hlt.
    destruct (lookup_lt_is_Some_2 l (length l - 1)) as [y Hy]; [lia |].
    rewrite last_lookup, <- Nat.sub_1_r, Hy. rewrite (proj2 (Nat.leb_gt _ _)) by lia.
    rewrite (av_read_holds v l i x Hh Hi), (outcome_bind_Done _ _ x) by done.
    rewrite (av_read_holds v l _ y Hh Hy). simpl. eexists. split; [done |]. split.
    + assert (Hh' : av_holds (MkArrayVec (length l) (<[i := Some y]> (av_data v))) (<[i := y]> l)).
      { split_and!; simpl; [by rewrite length_insert | unfold av_capacity; simpl; by rewrite !length_insert |].
        rewrite length_insert, list_fmap_insert, <- Ht. apply take_insert_lt. lia. }
      rewrite <- (length_insert l i y). eapply av_holds_take; [exact Hh' | lia | | done].
      unfold av_capacity. simpl. by rewrite !length_insert.
    + unfold av_capacity. simpl. by rewrite length_insert.
  - apply lookup_ge_None in Hi. by rewrite (proj2 (Nat.leb_le _ _)) by lia.
Qed.

Lemma av_truncate_holds v l n :
  av_holds v l -> av_holds (av_truncate n v) (take n l) /\ av_capacity (av_truncate n v) = av_capacity v.
Proof.
  intros Hh. pose proof Hh as (Hl & Hc & Ht). unfold av_truncate. rewrite Hl.
  unfold av_capacity in *. destruct (Nat.ltb_spec n (length l)); [| by rewrite take_ge].
  assert (Hlen : length (take n (av_data v) ++ replicate (length l - n) None ++ drop (length l) (av_data v))
    = length (av_data v)).
  { rewrite !length_app, length_take, length_replicate, length_drop. lia. }
  split; [| exact Hlen]. apply (av_holds_take v l); auto; [lia |].
  rewrite take_app_le by (rewrite length_take; lia). by rewrite take_take, Nat.min_id.
Qed.

Lemma av_clear_holds v l : av_holds v l -> av_holds (av_clear v) [] /\ av_capacity (av_clear v) = av_capacity v.
Proof.
  intros (Hl & Hc & _). unfold av_clear, av_holds, av_capacity in *. simpl.
  rewrite length_app, length_replicate, length_drop. split_and!; [done | lia | done | lia].
Qed.

Lemma write_slots_length at_ l data : length (write_slots at_ l data) = length data.
Proof. revert at_ data. induction l as [| x l IH]; intros; [done |]. simpl. by rewrite IH, length_insert. Qed.

Lemma write_slots_take l : forall data l0,
  length l0 + length l <= length data -> take (length l0) data = Some <$> l0 ->
  take (length l0 + length l) (write_slots (length l0) l data) = Some <$> (l0 ++ l).
Proof.
  induction l as [| x l IH]; intros data l0 Hlen Ht; simpl in *.
  - by rewrite Nat.add_0_r, app_nil_r.
  - specialize (IH (<[length l0 := Some x]> data) (l0 ++ [x])).
    rewrite length_insert, length_app, <- app_assoc in IH. simpl in IH.
    rewrite Nat.add_1_r, Nat.add_succ_comm in IH. apply IH; [lia |].
    rewrite <- Nat.add_1_r. pose proof (take_insert_snoc data l0 x) as Hs. rewrite length_app in Hs.
    apply Hs; [lia | done].
Qed.

Lemma av_try_extend_holds v l other :
  av_holds v l ->
  if decide (length l + length other <= av_capacity v) then
    exists v', av_try_extend_from_slice other v = Done (Ok tt, v') /\ av_holds v' (l ++ other)
               /\ av_capacity v' = av_capacity v
  else av_try_extend_from_slice other v = Done (Err tt, v).
Proof.
  intros (Hl & Hc & Ht). unfold av_try_extend_from_slice, av_remaining_capacity, av_capacity in *. rewrite Hl.
  case_decide.
  - rewrite (proj2 (Nat.ltb_ge _ _)) by lia. eexists. split; [done |].
    split; [split_and! |]; unfold av_capacity; simpl; rewrite ?write_slots_length, ?length_app; try done; try lia.
    by apply write_slots_take.
  - by rewrite (proj2 (Nat.ltb_lt _ _)) by lia.
Qed.

Lemma av_extend_holds l : forall v l0,
  av_holds v l0 ->
  if decide (length l0 + length l <= av_capacity v) then
    exists v', av_extend l v = Done v' /\ av_holds v' (l0 ++ l) /\ av_capacity v' = av_capacity v
  else av_extend l v = Panicked.
Proof.
  induction l as [| x l IH]; intros v l0 Hh; simpl.
  - pose proof Hh as (_ & Hc & _). case_decide; [| lia]. exists v. by rewrite app_nil_r.
  - pose proof (av_push_holds v l0 x Hh) as Hp. destruct (decide (length l0 < av_capacity v)) as [Hd | Hd].
    + destruct Hp as (v' & -> & Hh' & Hcap). rewrite (outcome_bind_Done _ _ v') by done.
      specialize (IH v' _ Hh'). rewrite length_app, Hcap in IH. simpl in IH.
      repeat case_decide; try lia; [| done]. destruct IH as (v'' & ? & Hh'' & ?).
      exists v''. rewrite <- app_assoc in Hh''. split_and!; [done | done | congruence].
    + rewrite Hp. case_decide; [lia | done].
Qed.

(** *** [retain] *)

Section retain_facts.
Context {A : Type} (f : A -> T -> verdict * T * A).

(** What [retain] does to the contents: when the predicate unwinds, the
    elements not yet looked at stay. *)
Fixpoint retain_list (a : A) (l : list T) : bool * A * list T :=
  match l with
  | [] => (false, a, [])
  | x :: l' =>
      let '(keep, x', a') := f a x in
      match keep with
      | Unwind => (true, a', x' :: l')
      | Delete => retain_list a' l'
      | Keep => let '(unwound, a'', l'') := retain_list a' l' in (unwound, a'', x' :: l'')
      end
  end.

(** [kept] is in front, [rest] still has to be looked at. *)
Record guard_ok (n cap : nat) (g : BackshiftOnDrop) (kept rest : list T) : Prop := {
  gd_cap : length (g_data g) = cap;
  gd_bound : n <= cap;
  gd_processed : processed_len g = length kept + deleted_cnt g;
  gd_original : n = processed_len g + length rest;
  gd_kept : take (length kept) (g_data g) = Some <$> kept;
  gd_rest : take (length rest) (drop (processed_len g) (g_data g)) = Some <$> rest;
}.

Lemma drop_insert_at (data : list (option T)) i (y : option T) :
  i < length data -> drop i (<[i := y]> data) = y :: drop (S i) data.
Proof.
  intros Hi. rewrite (drop_S (<[i := y]> data) y i) by by apply list_lookup_insert_eq.
  by rewrite drop_insert_lt by lia.
Qed.

Lemma guard_next n cap g kept x rest :
  guard_ok n cap g kept (x :: rest) ->
  g_data g !! processed_len g = Some (Some x) /\ processed_len g < length (g_data g)
  /\ take (length rest) (drop (S (processed_len g)) (g_data g)) = Some <$> rest.
Proof.
  intros [Hcap Hb Hp Ho _ Hr]. simpl in *. assert (Hlt : processed_len g < length (g_data g)) by lia.
  destruct (lookup_lt_is_Some_2 _ _ Hlt) as [y Hy]. rewrite (drop_S _ y _ Hy) in Hr. simpl in Hr.
  by simplify_eq.
Qed.

(** Writing the current element's slot leaves the invariant's other parts. *)
Lemma guard_write n cap g kept x rest y :
  guard_ok n cap g kept (x :: rest) ->
  take (length kept) (<[processed_len g := y]> (g_data g)) = Some <$> kept
  /\ take (length rest) (drop (S (processed_len g)) (<[processed_len g := y]> (g_data g))) = Some <$> rest.
Proof.
  intros Hg. pose proof (guard_next _ _ _ _ _ _ Hg) as (_ & _ & Hr). destruct Hg.
  rewrite take_insert_ge, drop_insert_lt by lia. done.
Qed.

Lemma process_one_spec n cap a g kept x rest :
  guard_ok n cap g kept (x :: rest) ->
  let '(keep, x', a') := f a x in
  exists g', process_one f (0 <? deleted_cnt g) a g = Done (keep, a', g')
  /\ match keep with
     | Unwind => guard_ok n cap g' kept (x' :: rest)
     | Delete => guard_ok n cap g' kept rest /\ 0 < deleted_cnt g'
     | Keep => guard_ok n cap g' (kept ++ [x']) rest /\ deleted_cnt g' = deleted_cnt g
     end.
Proof.
  intros Hg. destruct (f a x) as [[keep x'] a'] eqn:Ef.
  destruct (guard_next _ _ _ _ _ _ Hg) as (Hx & Hlt & Hr).
  destruct (guard_write _ _ _ _ _ _ (Some x') Hg) as [Hk1 Hr1].
  unfold process_one. rewrite Hx, Ef. pose proof Hg as [Hcap Hb Hp Ho Hk _]. simpl in *.
  destruct keep; eexists; (split; [reflexivity |]).
  - split; [| done]. set (data := <[processed_len g := Some x']> (g_data g)) in *.
    assert (Ed : (if 0 <? deleted_cnt g then <[processed_len g - deleted_cnt g := Some x']> data else data)
      = <[length kept := Some x']> data).
    { destruct (Nat.ltb_spec 0 (deleted_cnt g)); [f_equal; lia |].
      symmetry. apply list_insert_id. subst data.
      replace (length kept) with (processed_len g) by lia. by apply list_lookup_insert_eq. }
    rewrite Ed. assert (Hlen : length data = length (g_data g)) by apply length_insert.
    split; simpl; rewrite ?length_insert, ?length_app; simpl; try lia.
    + pose proof (take_insert_snoc data kept x') as Hs. rewrite length_app in Hs. apply Hs; [lia | done].
    + rewrite drop_insert_lt by lia. by rewrite Nat.add_1_r.
  - split; [| simpl; lia]. rewrite list_insert_insert_eq.
    destruct (guard_write _ _ _ _ _ _ None Hg) as [Hk2 Hr2].
    split; simpl; rewrite ?length_insert; try lia; try done. by rewrite Nat.add_1_r.
  - split; simpl; rewrite ?length_insert; try lia; try done.
    rewrite drop_insert_at by lia. simpl. by rewrite Hr.
Qed.

(** Both loops end with some elements kept and some not looked at. *)
Lemma retain_deleted_spec n cap rest : forall fuel a g kept,
  length rest <= fuel -> guard_ok n cap g kept rest -> 0 < deleted_cnt g ->
  let '(unwound, a', l') := retain_list a rest in
  exists g' kept' rest', retain_deleted f fuel n a g = Done (unwound, a', g')
    /\ guard_ok n cap g' kept' rest' /\ kept' ++ rest' = kept ++ l'.
Proof.
  induction rest as [| x rest IH]; intros fuel a g kept Hf Hg Hd; pose proof Hg as [_ _ _ Ho _ _]; simpl in *.
  - exists g, kept, []. split; [| done]. destruct fuel; simpl; by rewrite (proj2 (Nat.eqb_eq _ _)) by lia.
  - destruct fuel as [| fuel]; [lia |]. pose proof (process_one_spec n cap a g kept x rest Hg) as Hp.
    destruct (f a x) as [[keep x'] a']. destruct Hp as (g' & Ep & Hg').
    simpl. rewrite (proj2 (Nat.eqb_neq _ _)) by lia.
    rewrite (proj2 (Nat.ltb_lt 0 (deleted_cnt g)) Hd) in Ep. rewrite Ep, (outcome_bind_Done _ _ (keep, a', g')) by done.
    destruct keep.
    + destruct Hg' as [Hg' Hd']. specialize (IH fuel a' g' _ ltac:(lia) Hg' ltac:(lia)).
      destruct (retain_list a' rest) as [[u a''] l'']. destruct IH as (g2 & k2 & r2 & E & Hg2 & Heq).
      exists g2, k2, r2. split_and!; [done | done |]. by rewrite Heq, <- app_assoc.
    + destruct Hg' as [Hg' Hd']. apply (IH fuel a' g' kept); [lia | done | done].
    + by exists g', kept, (x' :: rest).
Qed.

Lemma retain_kept_spec n cap rest : forall fuel a g kept,
  length rest <= fuel -> guard_ok n cap g kept rest -> deleted_cnt g = 0 ->
  let '(unwound, a', l') := retain_list a rest in
  exists g' kept' rest', retain_kept f fuel n a g = Done (unwound, a', g')
    /\ guard_ok n cap g' kept' rest' /\ kept' ++ rest' = kept ++ l'.
Proof.
  induction rest as [| x rest IH]; intros fuel a g kept Hf Hg Hd; pose proof Hg as [_ _ _ Ho _ _]; simpl in *.
  - exists g, kept, []. split; [| done]. destruct fuel; simpl; by rewrite (proj2 (Nat.eqb_eq _ _)) by lia.
  - destruct fuel as [| fuel]; [lia |]. pose proof (process_one_spec n cap a g kept x rest Hg) as Hp.
    destruct (f a x) as [[keep x'] a']. destruct Hp as (g' & Ep & Hg').
    simpl. rewrite (proj2 (Nat.eqb_neq _ _)) by lia.
    rewrite Hd in Ep. change (0 <? 0) with false in Ep. rewrite Ep, (outcome_bind_Done _ _ (keep, a', g')) by done.
    destruct keep.
    + destruct Hg' as [Hg' Hd']. specialize (IH fuel a' g' _ ltac:(lia) Hg' ltac:(lia)).
      destruct (retain_list a' rest) as [[u a''] l'']. destruct IH as (g2 & k2 & r2 & E & Hg2 & Heq).
      exists g2, k2, r2. split_and!; [done | done |]. by rewrite Heq, <- app_assoc.
    + destruct Hg' as [Hg' Hd']. apply (retain_deleted_spec n cap rest fuel a' g' kept); [lia | done | done].
    + by exists g', kept, (x' :: rest).
Qed.

Lemma copy_slots_length src dst n (data : list (option T)) :
  dst + n <= length data -> src + n <= length data -> length (copy_slots src dst n data) = length data.
Proof. intros. unfold copy_slots. rewrite !length_app, !length_take, !length_drop. lia. Qed.

(** Moving initialised slots behind an initialised prefix. *)
Lemma copy_slots_join src (data : list (option T)) (l1 l2 : list T) :
  length l1 <= src -> src + length l2 <= length data ->
  take (length l1) data = Some <$> l1 -> take (length l2) (drop src data) = Some <$> l2 ->
  take (length (l1 ++ l2)) (copy_slots src (length l1) (length l2) data) = Some <$> (l1 ++ l2).
Proof.
  intros Hle Hb H1 H2. unfold copy_slots. rewrite H1, H2, fmap_app, app_assoc, take_app_le.
  - apply take_ge. by rewrite !length_app, !length_fmap.
  - by rewrite !length_app, !length_fmap.
Qed.

Lemma backshift_drop_spec n cap g kept rest :
  guard_ok n cap g kept rest ->
  av_holds (backshift_drop n g) (kept ++ rest) /\ av_capacity (backshift_drop n g) = cap.
Proof.
  intros [Hcap Hb Hp Ho Hk Hr]. unfold backshift_drop, av_holds, av_capacity. simpl.
  replace (n - processed_len g) with (length rest) by lia.
  replace (processed_len g - deleted_cnt g) with (length kept) by lia.
  destruct (Nat.ltb_spec 0 (deleted_cnt g)).
  - rewrite copy_slots_length by lia. rewrite length_app. split_and!; try lia.
    rewrite <- length_app. apply copy_slots_join; (done || lia).
  - rewrite length_app. split_and!; try lia.
    replace (processed_len g) with (length kept) in Hr by lia.
    rewrite <- take_take_drop. by rewrite Hk, Hr, fmap_app.
Qed.

End retain_facts.

(** *** Double-ended iteration: [drain] and [IntoIter]

    A client pulls elements from either end ([true] is the back). *)

Definition deque_take (back : bool) (l : list T) : option T * list T :=
  if back then (last l, take (length l - 1) l) else (head l, tail l).

Fixpoint deque_takes (dirs : list bool) (l : list T) : list (option T) * list T :=
  match dirs with
  | [] => ([], l)
  | back :: dirs' =>
      let '(x, l') := deque_take back l in
      let '(xs, l'') := deque_takes dirs' l' in (x :: xs, l'')
  end.

(** Pulling with the [next] and [next_back] of an iterator [I]. *)
Fixpoint pulls {I : Type} (next next_back : I -> outcome (option T * I)) (dirs : list bool) (it : I) :
    outcome (list (option T) * I) :=
  match dirs with
  | [] => mret ([], it)
  | back :: dirs' =>
      '(x, it') ← (if back : bool then next_back it else next it);
      '(xs, it'') ← pulls next next_back dirs' it';
      mret (x :: xs, it'')
  end.

(** An iterator whose single steps act on the list it stands for as
    [deque_take] yields what [deque_takes] yields. *)
Lemma pulls_spec {I} next next_back (R : I -> list T -> Prop) dirs :
  (forall back it l, R it l -> exists it',
     (if back : bool then next_back it else next it) = Done ((deque_take back l).1, it') /\ R it' (deque_take back l).2) ->
  forall it l, R it l -> exists it',
    pulls (I := I) next next_back dirs it = Done ((deque_takes dirs l).1, it') /\ R it' (deque_takes dirs l).2.
Proof.
  intros Hstep. induction dirs as [| back dirs IH]; intros it l HR; [by exists it |]. simpl.
  destruct (Hstep back it l HR) as (it1 & E1 & HR1). rewrite E1.
  destruct (deque_take back l) as [x l']. simpl in *. destruct (IH it1 l' HR1) as (it2 & E2 & HR2).
  rewrite E2. destruct (deque_takes dirs l') as [xs l'']. by exists it2.
Qed.

(** The slots [front..back) hold [mid]. *)
Definition slots_hold (data : list (option T)) (front back : nat) (mid : list T) : Prop :=
  back = front + length mid /\ back <= length data /\ take (length mid) (drop front data) = Some <$> mid.

Lemma slots_hold_lookup data front back mid i x :
  slots_hold data front back mid -> mid !! i = Some x -> data !! (front + i) = Some (Some x).
Proof.
  intros (_ & _ & Ht) Hi. pose proof (lookup_lt_Some _ _ _ Hi).
  rewrite <- lookup_drop, <- (lookup_take_lt _ (length mid)) by done.
  by rewrite Ht, list_lookup_fmap, Hi.
Qed.

Lemma slots_hold_front data front back x mid :
  slots_hold data front back (x :: mid) -> slots_hold data (front + 1) back mid.
Proof.
  intros Hh. pose proof (slots_hold_lookup _ _ _ _ 0 x Hh eq_refl) as Hx. rewrite Nat.add_0_r in Hx.
  destruct Hh as (Hb & Hl & Ht). simpl in *. split_and!; [lia | done |].
  rewrite (drop_S _ _ _ Hx) in Ht. rewrite Nat.add_1_r. by injection Ht.
Qed.

Lemma slots_hold_back data front back mid :
  slots_hold data front back mid -> mid <> [] -> slots_hold data front (back - 1) (take (length mid - 1) mid).
Proof.
  intros (Hb & Hl & Ht) Hne. assert (0 < length mid) by (destruct mid; [done | simpl; lia]).
  split_and!; [rewrite length_take; lia | lia |].
  rewrite length_take, Nat.min_l by lia. rewrite fmap_take, <- Ht, take_take. f_equal. lia.
Qed.

Lemma slots_hold_last data front back mid x :
  slots_hold data front back mid -> last mid = Some x -> data !! (back - 1) = Some (Some x) /\ front < back.
Proof.
  intros Hh Hx. rewrite last_lookup in Hx. pose proof (lookup_lt_Some _ _ _ Hx).
  pose proof (slots_hold_lookup _ _ _ _ _ x Hh Hx) as Hd. destruct Hh as (-> & _).
  split; [| lia]. rewrite <- Hd. f_equal. lia.
Qed.

Lemma deque_take_nil back : deque_take back [] = (None, []).
Proof. by destruct back. Qed.

(** [d] drains [start..end) of a vector that held [l]; [mid] is left. *)
Definition drain_ok (data : list (option T)) (start end_ : nat) (l : list T) (d : Drain) (mid : list T) : Prop :=
  tail_start d = end_ /\ tail_len d = length l - end_ /\ drain_vec d = MkArrayVec start data
  /\ start <= drain_front d /\ drain_back d <= end_ /\ slots_hold data (drain_front d) (drain_back d) mid.

Lemma av_drain_spec v l lo hi :
  av_holds v l -> start_index lo <= end_index hi (length l) <= length l ->
  exists d, av_drain lo hi v = Done d
    /\ drain_ok (av_data v) (start_index lo) (end_index hi (length l)) l d
         (take (end_index hi (length l) - start_index lo) (drop (start_index lo) l)).
Proof.
  intros (Hl & Hc & Ht) Hr. unfold av_drain. rewrite Hl.
  set (s := start_index lo) in *. set (e := end_index hi (length l)) in *. unfold av_capacity in Hc.
  assert (Hsl : take (e - s) (drop s (av_data v)) = Some <$> take (e - s) (drop s l)).
  { rewrite fmap_take, fmap_drop, <- Ht.
    replace (length l) with (s + (length l - s)) by lia. rewrite <- take_drop_commute, take_take. f_equal. lia. }
  rewrite (proj2 (Nat.ltb_ge _ _)) by lia. rewrite Hsl, mapM_id_fmap_Some.
  rewrite length_take, length_drop, Nat.min_l by lia. rewrite Nat.eqb_refl. simpl negb. cbv iota.
  rewrite (proj2 (Nat.ltb_ge _ _)) by lia. eexists. split; [reflexivity |].
  split_and!; simpl; try done. split_and!; rewrite ?length_take, ?length_drop; try lia.
  rewrite Nat.min_l by lia. done.
Qed.

Lemma drain_step data start end_ l (back : bool) d mid :
  drain_ok data start end_ l d mid -> exists d',
    (if back then drain_next_back d else drain_next d) = Done ((deque_take back mid).1, d')
    /\ drain_ok data start end_ l d' (deque_take back mid).2.
Proof.
  intros Hd. pose proof Hd as (H1 & H2 & Hv & H3 & H4 & Hs). destruct (decide (mid = [])) as [-> | Hne].
  - rewrite deque_take_nil. exists d. split; [| done]. destruct Hs as (Hb & _). simpl in Hb.
    unfold drain_next, drain_next_back. rewrite (proj2 (Nat.ltb_ge _ _)) by lia. by destruct back.
  - destruct back; simpl.
    + destruct (last mid) as [x |] eqn:Hx; [| by apply last_None in Hx].
      destruct (slots_hold_last _ _ _ _ _ Hs Hx) as [Hlk Hlt].
      unfold drain_next_back, av_read. rewrite (proj2 (Nat.ltb_lt _ _)) by done. rewrite Hv. simpl. rewrite Hlk.
      eexists. split; [done |]. split_and!; simpl; try done; [lia |]. by apply slots_hold_back.
    + destruct mid as [| x mid]; [done |]. pose proof (slots_hold_lookup _ _ _ _ 0 x Hs eq_refl) as Hlk.
      rewrite Nat.add_0_r in Hlk. pose proof (slots_hold_front _ _ _ _ _ Hs) as Hs'. destruct Hs as (Hb & _). simpl in Hb.
      unfold drain_next, av_read. rewrite (proj2 (Nat.ltb_lt _ _)) by lia. rewrite Hv. simpl. rewrite Hlk.
      eexists. split; [done |]. split_and!; simpl; try done. lia.
Qed.

Lemma drain_drop_spec v l start end_ d mid :
  av_holds v l -> start <= end_ <= length l -> drain_ok (av_data v) start end_ l d mid ->
  av_holds (drain_drop d) (take start l ++ drop end_ l) /\ av_capacity (drain_drop d) = av_capacity v.
Proof.
  intros (Hl & Hc & Ht) Hr (H1 & H2 & Hv & H3 & H4 & (Hb & Hbl & Hm)). unfold drain_drop. rewrite Hv, H1, H2. simpl.
  unfold av_capacity in *. set (f := drain_front d) in *. replace (drain_back d - f) with (length mid) by lia.
  set (dropped := take f (av_data v) ++ replicate (length mid) None ++ drop (f + length mid) (av_data v)).
  assert (Hdl : length dropped = length (av_data v)).
  { unfold dropped. rewrite !length_app, length_take, length_replicate, length_drop. lia. }
  assert (Hpre : take start dropped = Some <$> take start l).
  { unfold dropped. rewrite take_app_le by (rewrite length_take; lia). rewrite take_take, fmap_take, <- Ht, take_take. f_equal. lia. }
  assert (Htail : take (length l - end_) (drop end_ dropped) = Some <$> drop end_ l).
  { unfold dropped. rewrite app_assoc, drop_app_ge by (rewrite length_app, length_take, length_replicate; lia).
    rewrite length_app, length_take, length_replicate, Nat.min_l by lia. rewrite drop_drop.
    replace (f + length mid + (end_ - (f + length mid))) with end_ by lia.
    rewrite fmap_drop, <- Ht. replace (length l) with (end_ + (length l - end_)) at 2 by lia.
    by rewrite <- take_drop_commute. }
  assert (Hls : length (take start l) = start) by (rewrite length_take; lia).
  assert (Hlen : length (take start l ++ drop end_ l) = start + (length l - end_)).
  { by rewrite length_app, Hls, length_drop. }
  unfold av_holds, av_capacity. rewrite Hlen. destruct (Nat.ltb_spec 0 (length l - end_)); simpl.
  - destruct (Nat.eqb_spec end_ start) as [-> |]; [rewrite Hdl; split_and!; try lia |].
    + rewrite <- take_take_drop, Hpre, Htail. by rewrite fmap_app.
    + rewrite copy_slots_length by lia. split_and!; try lia.
      rewrite <- Hlen. rewrite <- Hls at 2. rewrite <- (length_drop l end_).
      apply copy_slots_join; rewrite ?Hls, ?length_drop; (done || lia).
  - rewrite Hdl. split_and!; try lia. rewrite (drop_ge l) by lia. rewrite app_nil_r.
    replace (start + (length l - end_)) with start by lia. done.
Qed.

(** *** [IntoIter] *)

Definition into_iter_ok (it : IntoIter) (mid : list T) : Prop :=
  slots_hold (av_data (ii_vec it)) (ii_index it) (av_len (ii_vec it)) mid.

Lemma slots_hold_insert data front back mid i y :
  slots_hold data front back mid -> i < front \/ back <= i -> slots_hold (<[i := y]> data) front back mid.
Proof.
  intros (Hb & Hl & Ht) Hi. split_and!; [done | by rewrite length_insert |]. destruct Hi.
  - by rewrite drop_insert_lt.
  - rewrite drop_insert_ge by lia. by rewrite take_insert_ge by lia.
Qed.

Lemma into_iter_step (back : bool) it mid :
  into_iter_ok it mid -> exists it',
    (if back then into_iter_next_back it else into_iter_next it) = Done ((deque_take back mid).1, it')
    /\ into_iter_ok it' (deque_take back mid).2.
Proof.
  unfold into_iter_ok. intros Hs. pose proof Hs as (Hb & _).
  unfold into_iter_next, into_iter_next_back, av_is_empty.
  destruct (decide (mid = [])) as [-> | Hne].
  - rewrite deque_take_nil. simpl in Hb. exists it. split; [| done].
    rewrite (proj2 (Nat.leb_le _ _)) by lia. rewrite orb_true_r. by destruct back.
  - assert (0 < length mid) by (destruct mid; [done | simpl; lia]).
    rewrite (proj2 (Nat.eqb_neq _ _)), (proj2 (Nat.leb_gt _ _)) by lia. simpl orb. cbv iota.
    destruct back; simpl.
    + destruct (last mid) as [x |] eqn:Hx; [| by apply last_None in Hx].
      destruct (slots_hold_last _ _ _ _ _ Hs Hx) as [Hlk Hlt]. unfold av_read. rewrite Hlk.
      eexists. split; [done |]. simpl. apply slots_hold_insert; [by apply slots_hold_back | lia].
    + destruct mid as [| x mid]; [done |]. pose proof (slots_hold_lookup _ _ _ _ 0 x Hs eq_refl) as Hlk.
      rewrite Nat.add_0_r in Hlk. unfold av_read. rewrite Hlk. eexists. split; [done |]. simpl.
      apply slots_hold_insert; [by apply slots_hold_front in Hs | lia].
Qed.

End arrayvec.

(** ** The theorems *)

Section theorems.
Context {T : Type}.

(** *** The list behind the vector *)

(** A range of [drain] that lies in a vector of [n] elements. *)
Definition in_bounds (lo hi : Bound) (n : nat) : Prop := start_index lo <= end_index hi n <= n.

(** [m] succeeds and leaves a vector of the same capacity that holds [l]. *)
Definition leaves (v : ArrayVec T) (m : outcome (ArrayVec T)) (l : list T) : Prop :=
  exists v', m = Done v' /\ av_holds v' l /\ av_capacity v' = av_capacity v.
Definition yields {A} (v : ArrayVec T) (m : outcome (A * ArrayVec T)) (a : A) (l : list T) : Prop :=
  exists v', m = Done (a, v') /\ av_holds v' l /\ av_capacity v' = av_capacity v.

(** What the operations do to a vector that holds [l], in terms of [l] and of the
    capacity. *)
Record bounded_list (v : ArrayVec T) (l : list T) : Prop := {
  bl_slice : av_as_slice v = Done l /\ av_is_empty v = bool_decide (l = []) /\ av_is_full v = (length l =? av_capacity v)
    /\ av_remaining_capacity v = av_capacity v - length l;
  bl_push : forall x, if decide (length l < av_capacity v) then yields v (av_try_push x v) (Ok tt) (l ++ [x]) /\ leaves v (av_push x v) (l ++ [x])
    else av_try_push x v = Done (Err x, v) /\ av_push x v = Panicked;
  bl_pop : yields v (av_pop v) (last l) (take (length l - 1) l);
  bl_swap_remove : forall i, match list_swap_remove i l with
    | Some (x, l') => yields v (av_swap_remove i v) x l'
    | None => av_swap_remove i v = Panicked
    end;
  bl_truncate : forall n, leaves v (Done (av_truncate n v)) (take n l);
  bl_clear : leaves v (Done (av_clear v)) [];
  bl_extend : forall other, if decide (length l + length other <= av_capacity v) then
      yields v (av_try_extend_from_slice other v) (Ok tt) (l ++ other) /\ leaves v (av_extend_from_slice other v) (l ++ other)
      /\ leaves v (av_extend other v) (l ++ other)
    else av_try_extend_from_slice other v = Done (Err tt, v) /\ av_extend_from_slice other v = Panicked
      /\ av_extend other v = Panicked;
  bl_clone_from : forall rhs r, av_holds rhs r -> av_capacity rhs = av_capacity v -> leaves v (av_clone_from rhs v) r;
  bl_retain : forall A (f : A -> T -> verdict * T * A) a,
    let '(unwound, a', l') := retain_list f a l in yields v (av_retain f a v) (unwound, a') l';
  bl_drain : forall lo hi dirs, let start := start_index lo in let end_ := end_index hi (length l) in
    (in_bounds lo hi (length l) -> exists d d', av_drain lo hi v = Done d
       /\ pulls drain_next drain_next_back dirs d = Done ((deque_takes dirs (take (end_ - start) (drop start l))).1, d')
       /\ leaves v (Done (drain_drop d')) (take start l ++ drop end_ l))
    /\ (end_ < start -> av_drain lo hi v = Panicked)
    /\ (start <= end_ -> length l < end_ -> av_drain lo hi v = Panicked \/ av_drain lo hi v = Undefined);
  bl_into_iter : forall dirs, exists it,
    pulls into_iter_next into_iter_next_back dirs (av_into_iter v) = Done ((deque_takes dirs l).1, it);
}.

Lemma retain_ok {A} (f : A -> T -> verdict * T * A) (a : A) (v : ArrayVec T) (l : list T) :
  av_holds v l -> let '(unwound, a', l') := retain_list f a l in yields v (av_retain f a v) (unwound, a') l'.
Proof.
  intros (Hl & Hc & Ht).
  assert (Hg : guard_ok (length l) (av_capacity v) (MkBackshift (av_data v) 0 0) [] l) by by split.
  pose proof (retain_kept_spec f (length l) (av_capacity v) l (length l) a _ _ (le_n _) Hg eq_refl) as Hk.
  destruct (retain_list f a l) as [[u a'] l']. destruct Hk as (g & kept & rest & E & Hg' & Heq).
  unfold yields, av_retain. rewrite Hl, E. simpl. eexists. split; [done |]. simpl in Heq. rewrite <- Heq.
  by apply backshift_drop_spec.
Qed.

Lemma drain_run (v : ArrayVec T) (l : list T) lo hi dirs :
  av_holds v l -> in_bounds lo hi (length l) ->
  let start := start_index lo in let end_ := end_index hi (length l) in
  exists d d', av_drain lo hi v = Done d
    /\ pulls drain_next drain_next_back dirs d = Done ((deque_takes dirs (take (end_ - start) (drop start l))).1, d')
    /\ leaves v (Done (drain_drop d')) (take start l ++ drop end_ l).
Proof.
  intros Hh Hr start end_. destruct (av_drain_spec v l lo hi Hh Hr) as (d & Ed & Hd).
  destruct (pulls_spec _ _ _ dirs (drain_step (av_data v) start end_ l) d _ Hd) as (d' & Ep & Hd').
  exists d, d'. split_and!; [done | done |]. exists (drain_drop d'). split; [done |]. by eapply drain_drop_spec.
Qed.

Lemma drain_out_of_bounds (v : ArrayVec T) (l : list T) lo hi :
  av_holds v l ->
  (end_index hi (length l) < start_index lo -> av_drain lo hi v = Panicked)
  /\ (start_index lo <= end_index hi (length l) -> length l < end_index hi (length l) ->
      av_drain lo hi v = Panicked \/ av_drain lo hi v = Undefined).
Proof.
  intros (Hl & _). unfold av_drain. rewrite Hl. split.
  - intros Hlt. by rewrite (proj2 (Nat.ltb_lt _ _)).
  - intros Hle Hlt. rewrite (proj2 (Nat.ltb_ge _ _)) by done. rewrite (proj2 (Nat.ltb_lt _ _) Hlt).
    destruct (mapM _ _); [| by right]. destruct (negb _); [by right | by left].
Qed.

Lemma into_iter_run (v : ArrayVec T) (l : list T) dirs :
  av_holds v l ->
  exists it, pulls into_iter_next into_iter_next_back dirs (av_into_iter v) = Done ((deque_takes dirs l).1, it).
Proof.
  intros (Hl & Hc & Ht).
  destruct (pulls_spec _ _ _ dirs into_iter_step (av_into_iter v) l) as (it & E & _); [| by exists it].
  split_and!; simpl; [done | by rewrite Hl | done].
Qed.

Lemma extend_run (v : ArrayVec T) (l other : list T) :
  av_holds v l ->
  if decide (length l + length other <= av_capacity v) then
    yields v (av_try_extend_from_slice other v) (Ok tt) (l ++ other) /\ leaves v (av_extend_from_slice other v) (l ++ other)
    /\ leaves v (av_extend other v) (l ++ other)
  else av_try_extend_from_slice other v = Done (Err tt, v) /\ av_extend_from_slice other v = Panicked
    /\ av_extend other v = Panicked.
Proof.
  intros Hh. pose proof (av_try_extend_holds v l other Hh) as He. pose proof (av_extend_holds other v l Hh) as Hx.
  unfold av_extend_from_slice. case_decide; [| by rewrite He].
  destruct He as (v' & E & Hv'). split_and!; [by exists v' | | done]. rewrite E. by exists v'.
Qed.

(** Elements in front are overwritten, then the rest is cut off or appended. *)
Lemma clone_from_run (v rhs : ArrayVec T) (l r : list T) :
  av_holds v l -> av_holds rhs r -> av_capacity rhs = av_capacity v -> leaves v (av_clone_from rhs v) r.
Proof.
  intros Hv Hr Hcap. unfold av_clone_from. rewrite (av_as_slice_holds v l Hv), (av_as_slice_holds rhs r Hr). simpl.
  destruct Hv as (Hl & Hc & Ht), Hr as (_ & Hrc & _). rewrite Hcap in Hrc. unfold av_capacity in *.
  set (n := length l `min` length r). set (data := write_slots 0 (take n r) (av_data v)).
  assert (length (take n r) = n) as Hn by (rewrite length_take; lia).
  assert (length data = length (av_data v)) as Hd by apply write_slots_length.
  assert (take n data = Some <$> take n r) as Htake.
  { pose proof (write_slots_take (take n r) (av_data v) []) as Hw. simpl in Hw. rewrite Hn in Hw. apply Hw; [lia | done]. }
  rewrite Hl. destruct (Nat.ltb_spec n (length l)) as [Hlt | Hge].
  - assert (n = length r) as Hnr by lia. eexists. split; [done |]. unfold av_truncate, av_capacity, av_holds. simpl.
    rewrite (proj2 (Nat.ltb_lt _ _)) by lia. simpl. unfold av_capacity. simpl.
    assert (length (take n data ++ replicate (length l - n) None ++ drop (length l) data) = length (av_data v)) as Hlen.
    { rewrite !length_app, length_take, length_replicate, length_drop. lia. }
    rewrite Hlen. split_and!; [done | done | | done].
    rewrite <- Hnr, take_app_le by (rewrite length_take; lia). rewrite take_take, Nat.min_id, Htake.
    by rewrite (take_ge r) by lia.
  - assert (n = length l) as Hnl by lia.
    assert (av_holds (MkArrayVec (length l) data) (take (length l) r)) as Hh.
    { rewrite <- Hnl. unfold av_holds, av_capacity. simpl. rewrite Hn. split_and!; [done | lia | done]. }
    pose proof (extend_run _ _ (drop (length l) r) Hh) as He. unfold av_capacity in He. simpl in He.
    rewrite length_take, length_drop, Hd in He. rewrite decide_True in He by lia.
    destruct He as (_ & (v' & E & Hv' & Hc') & _). exists v'. split; [exact E |]. rewrite take_drop in Hv'. split; [done |].
    unfold av_capacity in *. simpl in Hc'. lia.
Qed.

(** C24: the vector implements a bounded list. On a vector that holds [l], each
    operation has the effect of the list operation it stands for and keeps the
    capacity: reading the slice and the counts, [push] and [try_push], [pop],
    [swap_remove], [truncate], [clear], the extensions by a slice and by an
    iterator, [clone_from], [retain] (also when the predicate unwinds), [drain]
    and consuming the vector from both ends in any interleaving. An operation
    fails exactly when the capacity or the index does not allow it, and one that
    reports an error leaves the vector as it was; a range of [drain] that ends
    past the length is a panic or undefined behaviour. [size_hint] of the
    by-value iterator is not among the operations. *)
Theorem arrayvec_refines (v : ArrayVec T) (l : list T) : av_holds v l -> bounded_list v l.
Proof.
  intros Hh. pose proof Hh as (Hl & Hc & _). constructor.
  - unfold av_is_empty, av_is_full, av_remaining_capacity. rewrite Hl. split_and!; [by apply av_as_slice_holds | | done | done].
    destruct l; by rewrite ?bool_decide_true, ?bool_decide_false by done.
  - intros x. pose proof (av_try_push_holds v l x Hh). pose proof (av_push_holds v l x Hh). by case_decide.
  - by apply av_pop_holds.
  - intros i. by apply av_swap_remove_holds.
  - intros n. eexists. split; [done |]. by apply av_truncate_holds.
  - eexists. split; [done |]. by apply (av_clear_holds v l).
  - intros other. by apply extend_run.
  - intros rhs r. by apply (clone_from_run v rhs l r).
  - intros A f a. by apply retain_ok.
  - intros lo hi dirs. split; [by apply drain_run | by apply drain_out_of_bounds].
  - intros dirs. by apply into_iter_run.
Qed.
End theorems.

Definition demo_vec : ArrayVec nat := MkArrayVec 3 [Some 10; Some 20; Some 30; None].

Lemma demo_vec_holds : av_holds demo_vec [10; 20; 30].
Proof. split_and!; simpl; [done | unfold av_capacity; simpl; lia | done]. Qed.

Lemma arrayvec_refines_witness :
  leaves demo_vec (av_push 40 demo_vec) [10; 20; 30; 40]
  /\ yields demo_vec (av_retain (fun n x => (if x =? 20 then Delete else Keep, x + 1, S n)) 0 demo_vec) (false, 3) [11; 31]
  /\ exists it, pulls into_iter_next into_iter_next_back [false; true; false; false] (av_into_iter demo_vec)
       = Done ([Some 10; Some 30; Some 20; None], it).
Proof.
  pose proof (arrayvec_refines demo_vec [10; 20; 30] demo_vec_holds) as Hb. split; [| split].
  - exact (proj2 (bl_push _ _ Hb 40)).
  - exact (bl_retain _ _ Hb nat (fun n x => (if x =? 20 then Delete else Keep, x + 1, S n)) 0).
  - exact (bl_into_iter _ _ Hb [false; true; false; false]).
Defined.

(** After one element is taken [size_hint] still reports the initial length,
    although [IntoIter] is an [ExactSizeIterator]. *)
Example into_iter_size_hint_stale :
  exists it, into_iter_next (av_into_iter demo_vec) = Done (Some 10, it)
    /\ into_iter_size_hint it = (3, Some 3)
    /\ exists it', pulls into_iter_next into_iter_next_back [false; false; false] it = Done ([Some 20; Some 30; None], it').
Proof. eexists. split; [reflexivity |]. split; [reflexivity |]. eexists. reflexivity. Qed.

(** A range that ends past the length reaches uninitialised slots before the
    bounds are looked at. *)
Example drain_past_the_end : av_drain (Included 1) (Excluded 4) demo_vec = Undefined.
Proof. reflexivity. Qed.
