(* ===== verification/Machine.v ===== *)
(** * Memory accesses and the frame allocator interface
      (the memory methods of lib/mem-core/src/arch/mod.rs, and
       lib/mem-core/src/frame_allocator.rs)

    Memory that page tables live in is a finite map from 8-byte-aligned
    virtual addresses to 64-bit words.  Touching an address outside the map,
    or a misaligned one, is undefined behaviour, as for the raw pointers the
    code uses. *)

From stdpp Require Import base numbers list gmap.
From Stdlib Require Import ZArith Lia.
From S2P Require Import Prelude Address Riscv Arch PhysMap.

(** The state the engine runs in: memory, the hart, and the state of the frame
    allocator (which allocates through [&self]). *)
Record world (F : Type) : Type := World {
  w_mem : gmap Z Z;
  w_hart : hart;
  w_frames : F;
}.
Arguments World {F} _ _ _.
Arguments w_mem {F} _.
Arguments w_hart {F} _.
Arguments w_frames {F} _.

Section memory.
Context {F : Type}.

Definition set_mem (m : gmap Z Z) (w : world F) : world F := World m (w_hart w) (w_frames w).

(** Running a hart operation or an allocator operation inside the world. *)
Definition on_hart {A} (op : M hart A) : M (world F) A := fun w =>
  match op (w_hart w) with
  | Done (a, h) => Done (a, World (w_mem w) h (w_frames w))
  | Panicked => Panicked
  | Undefined => Undefined
  end.

Definition on_frames {A} (op : M F A) : M (world F) A := fun w =>
  match op (w_frames w) with
  | Done (a, f) => Done (a, World (w_mem w) (w_hart w) f)
  | Panicked => Panicked
  | Undefined => Undefined
  end.

(** [arch.read::<PageTableEntry>(address)]. *)
Definition arch_read (address : VirtualAddress) : M (world F) Z := fun w =>
  if negb (address mod 8 =? 0) then Undefined else
  match w_mem w !! address with
  | Some v => Done (v, w)
  | None => Undefined
  end.

(** [arch.write(address, value)]. *)
Definition arch_write (address : VirtualAddress) (value : Z) : M (world F) unit := fun w =>
  if negb (address mod 8 =? 0) then Undefined else
  match w_mem w !! address with
  | Some _ => Done (tt, set_mem (<[address := value]> (w_mem w)) w)
  | None => Undefined
  end.

(** Byte [i] of a word replaced by [v]. *)
Definition set_byte (word i v : Z) : Z :=
  Z.lor (Z.ldiff word (Z.shiftl 0xff (8 * i))) (Z.shiftl v (8 * i)).

(** [ptr::write_bytes(address, value, count)], byte by byte. *)
Fixpoint memset (count : nat) (address value : Z) (m : gmap Z Z) : outcome (gmap Z Z) :=
  match count with
  | O => Done m
  | S count' =>
      let word_address := address - address mod 8 in
      match m !! word_address with
      | Some word =>
          memset count' (address + 1) value (<[word_address := set_byte word (address mod 8) value]> m)
      | None => Undefined
      end
  end.

Definition arch_write_bytes (address : VirtualAddress) (value count : Z) : M (world F) unit := fun w =>
  match memset (Z.to_nat count) address value (w_mem w) with
  | Done m => Done (tt, set_mem m w)
  | Panicked => Panicked
  | Undefined => Undefined
  end.

End memory.

(** ** frame_allocator.rs *)

Inductive AllocError : Type := MkAllocError.

(** The required methods of the trait. *)
Class FrameAllocator (F : Type) : Type := {
  allocate : Layout -> M F (result AllocError (list range));
  allocate_contiguous : Layout -> M F (result AllocError PhysicalAddress);
  deallocate : PhysicalAddress -> Layout -> M F unit;
}.

Section zeroed.
Context `{FrameAllocator F}.

(** What the iterator of [allocate_zeroed] does when a block is pulled. *)
Definition zero_block (physmap : PhysMap) (block : range) : M (world F) unit :=
  block_virt ← lift (phys_to_virt_range physmap block);
  plen ← lift (range_len block);
  vlen ← lift (range_len block_virt);
  _ ← lift (assert_ (plen =? vlen));
  arch_write_bytes (r_start block_virt) 0 plen.

(** [allocate_zeroed]: the blocks not pulled yet.  Zeroing is lazy
    ([Iterator::inspect]): it happens in [zeroed_next]. *)
Definition allocate_zeroed (layout : Layout) : M (world F) (result AllocError (list range)) :=
  blocks <-? on_frames (allocate layout);
  mret (Ok blocks).

Definition zeroed_next (physmap : PhysMap) (blocks : list range) :
    M (world F) (option (range * list range)) :=
  match blocks with
  | [] => mret None
  | block :: blocks' =>
      _ ← zero_block physmap block;
      mret (Some (block, blocks'))
  end.

Definition allocate_contiguous_zeroed (layout : Layout) (physmap : PhysMap) :
    M (world F) (result AllocError PhysicalAddress) :=
  phys <-? on_frames (allocate_contiguous layout);
  virt ← lift (phys_to_virt physmap phys);
  _ ← arch_write_bytes virt 0 (l_size layout);
  mret (Ok phys).

End zeroed.

(** ** The contract of the trait, for granule-sized blocks

    [fa_allocated f A]: the frames of [A] are currently handed out by [f].
    [fa_memory] is the physical memory the allocator manages. *)

Class FrameAllocatorLaws (granule : Z) (F : Type) {fa : FrameAllocator F} : Type := {
  fa_allocated : F -> gset Z -> Prop;
  fa_memory : range;
  fa_allocated_frame : forall f A p,
    fa_allocated f A -> p ∈ A ->
    p mod granule = 0 /\ r_start fa_memory <= p /\ p + granule <= r_end fa_memory;
  fa_allocate_spec : forall f A,
    fa_allocated f A ->
    exists r f', allocate_contiguous (MkLayout granule granule) f = Done (r, f')
      /\ match r with
         | Ok p => (p ∉ A) /\ fa_allocated f' ({[p]} ∪ A)
         | Err _ => fa_allocated f' A
         end;
}.

(** An allocator that can also take frames back. *)
Class FrameDeallocatorLaws (granule : Z) (F : Type) {fa : FrameAllocator F}
    {fal : FrameAllocatorLaws granule F} : Prop := {
  fa_deallocate_spec : forall f A p,
    fa_allocated f A -> p ∈ A ->
    exists f', deallocate p (MkLayout granule granule) f = Done (tt, f')
      /\ fa_allocated f' (A ∖ {[p]});
}.

(** ** Lemmas *)

Definition words_usize (m : gmap Z Z) : Prop := forall a v, m !! a = Some v -> is_usize v.

Lemma set_byte_zero_step w k :
  0 <= k -> set_byte (Z.ldiff w (Z.ones (8 * k))) k 0 = Z.ldiff w (Z.ones (8 * (k + 1))).
Proof.
  intros Hk. unfold set_byte. rewrite Z.shiftl_0_l, Z.lor_0_r.
  apply Z.bits_inj'. intros i Hi. rewrite !Z.ldiff_spec, Z.shiftl_spec, !Z.testbit_ones_nonneg by lia.
  change 255 with (Z.ones 8).
  destruct (Z.ltb_spec (i - 8 * k) 0).
  - rewrite (Z.testbit_neg_r _ (i - 8 * k)) by lia.
    rewrite !(proj2 (Z.ltb_lt _ _)) by lia. by rewrite !andb_false_r.
  - rewrite Z.testbit_ones_nonneg by lia.
    destruct (Z.ltb_spec (i - 8 * k) 8), (Z.ltb_spec i (8 * k)), (Z.ltb_spec i (8 * (k + 1)));
      try lia; destruct (Z.testbit w i); done.
Qed.

Lemma ldiff_ones_64 w : is_usize w -> Z.ldiff w (Z.ones 64) = 0.
Proof.
  intros Hw. rewrite Z.ldiff_ones_r by lia. rewrite Z.shiftr_div_pow2 by lia.
  rewrite Z.div_small by exact Hw. apply Z.shiftl_0_l.
Qed.

(** Zeroing the [n] bytes of a word from byte [k] on. *)
Lemma memset_word n k a w m r :
  a mod 8 = 0 -> 0 <= k -> k + Z.of_nat n = 8 ->
  m !! a = Some (Z.ldiff w (Z.ones (8 * k))) ->
  memset (n + r) (a + k) 0 m = memset r (a + 8) 0 (<[a := Z.ldiff w (Z.ones 64)]> m).
Proof.
  revert k m. induction n as [| n IH]; intros k m Ha Hk Hn Hm.
  - assert (k = 8) as -> by lia. simpl. by rewrite insert_id.
  - assert (Hmod : (a + k) mod 8 = k).
    { rewrite <- Z.add_mod_idemp_l, Ha by lia. apply Z.mod_small. lia. }
    simpl. rewrite Hmod. replace (a + k - k) with a by lia. rewrite Hm.
    rewrite set_byte_zero_step by done. replace (a + k + 1) with (a + (k + 1)) by lia.
    rewrite IH; [| done | lia | lia | by rewrite lookup_insert_eq].
    by rewrite insert_insert_eq.
Qed.

(** Zeroing [n] whole words. *)
Lemma memset_words n a m :
  a mod 8 = 0 -> words_usize m ->
  (forall i, 0 <= i < Z.of_nat n -> is_Some (m !! (a + 8 * i))) ->
  exists m', memset (8 * n) a 0 m = Done m' /\ words_usize m'
    /\ (forall i, 0 <= i < Z.of_nat n -> m' !! (a + 8 * i) = Some 0)
    /\ (forall b, (forall i, 0 <= i < Z.of_nat n -> b <> a + 8 * i) -> m' !! b = m !! b)
    /\ (forall b, is_Some (m !! b) -> is_Some (m' !! b)).
Proof.
  revert a m. induction n as [| n IH]; intros a m Ha Hu Hs.
  { exists m. split_and!; [done | done | lia | done | done]. }
  destruct (Hs 0 ltac:(lia)) as [w Hw]. rewrite Z.mul_0_r, Z.add_0_r in Hw.
  replace (8 * S n)%nat with (8 + 8 * n)%nat by lia.
  pose proof (memset_word 8 0 a w m (8 * n)) as E. rewrite Z.add_0_r in E.
  rewrite E; [| done | lia | done | by rewrite Z.mul_0_r, Z.ldiff_0_r].
  rewrite ldiff_ones_64 by (by eapply Hu).
  destruct (IH (a + 8) (<[a := 0]> m)) as (m' & -> & Hu' & Hz & Ho & Hd).
  - by rewrite <- Z.add_mod_idemp_l, Ha by lia.
  - intros b v. rewrite lookup_insert. case_decide; [| by apply Hu].
    intros [= <-]. unfold is_usize. lia.
  - intros i Hi. rewrite lookup_insert. case_decide; [eauto |].
    replace (a + 8 + 8 * i) with (a + 8 * (i + 1)) by lia. apply Hs. lia.
  - exists m'. split_and!; [done | done | | |].
    + intros i Hi. destruct (decide (i = 0)) as [-> | Hne].
      * rewrite Ho by lia. rewrite Z.mul_0_r, Z.add_0_r. by rewrite lookup_insert_eq.
      * replace (a + 8 * i) with (a + 8 + 8 * (i - 1)) by lia. apply Hz. lia.
    + intros b Hb. rewrite Ho.
      * rewrite lookup_insert_ne; [done |]. specialize (Hb 0). lia.
      * intros i Hi. specialize (Hb (i + 1)). lia.
    + intros b Hb. apply Hd. rewrite lookup_insert. by case_decide.
Qed.
