(* ===== verification/Table.v ===== *)
(** * Page tables and the generic walk (lib/mem-mmu/src/table.rs, utils.rs)

    [visit] walks a virtual range down to the leaf level of a page size and
    calls a visitor on the way down, at the leaves and on the way up.  The
    trait [Visitor] is a class; its [&mut self] is the second component of the
    state.  Recursion is on fuel: [length LEVELS] steps reach every depth, and
    running out of fuel coincides with the out-of-bounds [A::LEVELS[depth]]. *)

From stdpp Require Import base numbers list gmap.
From Stdlib Require Import ZArith Lia.
From S2P Require Import Prelude Address Riscv Arch PhysMap Machine.

(** ** utils.rs: splitting a range into the entries of one table *)

Section utils.
Context `{Arch}.

Record PageTableEntries : Type := MkEntries {
  pe_iter : list Z; (* what is left of the RangeInclusiveIter<u16> *)
  pe_page_start : VirtualAddress;
  pe_max : VirtualAddress;
  pe_page_size : Z;
}.

Definition page_table_entries_for (r : range) (level : PageTableLevel) : outcome PageTableEntries :=
  c1 ← is_canonical VIRTUAL_ADDRESS_BITS (r_start r);
  c2 ← is_canonical VIRTUAL_ADDRESS_BITS (r_end r);
  _ ← assert_ (c1 && c2);
  let va_mask := Z.shiftl 1 VIRTUAL_ADDRESS_BITS - 1 in
  table_span ← u_mul (entries level) (page_size level);
  last_byte ← addr_sub (r_end r) 1;
  _ ← assert_ (Z.land (Z.lxor (r_start r) last_byte) va_mask <? table_span);
  first ← pte_index_of level (r_start r);
  last ← pte_index_of level last_byte;
  mret (MkEntries (seqZ first (last - first + 1)) (r_start r) (r_end r) (page_size level)).

(** [Iterator::next]. *)
Definition entries_next (es : PageTableEntries) :
    outcome (option (Z * range) * PageTableEntries) :=
  match pe_iter es with
  | [] => mret (None, es)
  | entry_index :: iter' =>
      slot ← align_down (pe_page_start es) (pe_page_size es);
      let slot_end := addr_saturating_add slot (pe_page_size es) in
      let page_range := Range (pe_page_start es) (Z.min slot_end (pe_max es)) in
      if range_is_empty page_range then
        mret (None, MkEntries iter' (pe_page_start es) (pe_max es) (pe_page_size es))
      else
        page_start ← canonicalize VIRTUAL_ADDRESS_BITS (r_end page_range);
        mret (Some (entry_index, page_range), MkEntries iter' page_start (pe_max es) (pe_page_size es))
  end.

(** All items the iterator yields. *)
Fixpoint entries_collect (n : nat) (es : PageTableEntries) : outcome (list (Z * range)) :=
  '(item, es') ← entries_next es;
  match item, n with
  | None, _ => mret []
  | Some _, O => Panicked
  | Some x, S n' => rest ← entries_collect n' es'; mret (x :: rest)
  end.

End utils.

(** ** table.rs *)

Record Table : Type := MkTable { t_base : PhysicalAddress; t_depth : nat }.

Section table.
Context `{Arch} {F : Type}.

Definition table_level (t : Table) : outcome PageTableLevel := level_at (t_depth t).

Definition entry_address (t : Table) (index : Z) (physmap : PhysMap) : outcome VirtualAddress :=
  off ← u_mul index PTE_SIZE;
  entry_phys ← addr_add (t_base t) off;
  phys_to_virt physmap entry_phys.

Definition table_get (t : Table) (index : Z) (physmap : PhysMap) : M (world F) Z :=
  entry_virt ← lift (entry_address t index physmap);
  arch_read entry_virt.

(** [(0..entries).all(|i| get(i).is_vacant())], from index [i] on. *)
Fixpoint all_vacant (n : nat) (i : Z) (t : Table) (physmap : PhysMap) : M (world F) bool :=
  match n with
  | O => mret true
  | S n' =>
      entry ← table_get t i physmap;
      if is_vacant entry then all_vacant n' (i + 1) t physmap else mret false
  end.

Definition table_is_empty (t : Table) (physmap : PhysMap) : M (world F) bool :=
  level ← lift (table_level t);
  all_vacant (Z.to_nat (entries level)) 0 t physmap.

Definition table_set (t : Table) (index entry : Z) (physmap : PhysMap) : M (world F) unit :=
  level ← lift (table_level t);
  _ ← lift (assert_ (index <? entries level));
  entry_virt ← lift (entry_address t index physmap);
  arch_write entry_virt entry.

Definition table_allocate `{FrameAllocator F} (physmap : PhysMap) : M (world F) (result AllocError Table) :=
  base <-? allocate_contiguous_zeroed GRANULE_LAYOUT physmap;
  mret (Ok (MkTable base 0)).

Definition table_deallocate `{FrameAllocator F} (t : Table) : M (world F) unit :=
  on_frames (deallocate (t_base t) GRANULE_LAYOUT).

End table.

(** The trait [Visitor<A, S>], with [&mut self] of type [V]. *)
Class Visitor (F V E : Type) : Type := {
  descend : Table -> Z -> PhysMap -> M (world F * V) (result E (option PhysicalAddress));
  ascend : Table -> Z -> PhysicalAddress -> nat -> PhysMap -> M (world F * V) (result E unit);
  fill : Table -> Z -> Z -> VirtualAddress -> PhysMap -> M (world F * V) (result E unit);
}.

(** Operations on one component of the walk's state. *)
Definition on_world {F V A} (op : M (world F) A) : M (world F * V) A := fun '(w, v) =>
  match op w with
  | Done (a, w') => Done (a, (w', v))
  | Panicked => Panicked
  | Undefined => Undefined
  end.

Definition get_self {F V} : M (world F * V) V := fun s => Done (s.2, s).
Definition put_self {F V} (v : V) : M (world F * V) unit := fun s => Done (tt, (s.1, v)).

Lemma on_world_Done {F V A} (op : M (world F) A) w (v : V) a w' :
  op w = Done (a, w') -> on_world op (w, v) = Done (a, (w', v)).
Proof. intros H. simpl. by rewrite H. Qed.

Lemma get_self_Done {F V} (w : world F) (v : V) : get_self (w, v) = Done (v, (w, v)).
Proof. done. Qed.

Lemma put_self_Done {F V} (w : world F) (v v' : V) : put_self v' (w, v) = Done (tt, (w, v')).
Proof. done. Qed.

(** The default methods of the trait. *)
Definition default_descend `{Arch} {F V E} (t : Table) (index : Z) (physmap : PhysMap) :
    M (world F * V) (result E (option PhysicalAddress)) :=
  entry ← on_world (table_get t index physmap);
  _ ← lift (assert_ (negb (is_vacant entry)));
  if is_table entry then mret (Ok (Some (pte_address entry)))
  else mret (Ok None).

Definition default_ascend {F V E} (t : Table) (index : Z) (child_base : PhysicalAddress)
    (child_depth : nat) (physmap : PhysMap) : M (world F * V) (result E unit) :=
  mret (Ok tt).

Section visit.
Context `{Arch} (s : PageSize) `{!MapsAt s} {F V E : Type} `{Visitor F V E}.

Fixpoint visit_leaf (fuel : nat) (table : Table) (va : VirtualAddress) (physmap : PhysMap) :
    M (world F * V) (result E unit) :=
  match fuel with
  | O => lift Panicked
  | S fuel' =>
      let depth := t_depth table in
      level ← lift (level_at depth);
      index ← lift (pte_index_of level va);
      if (depth =? DEPTH)%nat then fill table index 1 va physmap
      else
        child <-? descend table index physmap;
        match child with
        | Some child_base =>
            let subtable := MkTable child_base (depth + 1) in
            _ <-? visit_leaf fuel' subtable va physmap;
            _ <-? ascend table index child_base (depth + 1) physmap;
            mret (Ok tt)
        | None => mret (Ok tt)
        end
  end.

(** [for (index, sub_range) in entries { body }]; the index iterator bounds
    the number of rounds. *)
Fixpoint for_entries (n : nat) (body : Z -> range -> M (world F * V) (result E unit))
    (es : PageTableEntries) : M (world F * V) (result E unit) :=
  '(item, es') ← lift (entries_next es);
  match item, n with
  | None, _ => mret (Ok tt)
  | Some _, O => lift Panicked
  | Some (index, sub_range), S n' =>
      _ <-? body index sub_range;
      for_entries n' body es'
  end.

(** [last - first + 1] on [u16]. *)
Definition run_length (first last : Z) : outcome Z :=
  if (first <=? last) && (last - first + 1 <? 2 ^ 16) then Done (last - first + 1) else Panicked.

Fixpoint visit_range (fuel : nat) (table : Table) (r : range) (physmap : PhysMap) :
    M (world F * V) (result E unit) :=
  match fuel with
  | O => lift Panicked
  | S fuel' =>
      let depth := t_depth table in
      if (depth =? DEPTH)%nat then
        level ← lift (level_at depth);
        first ← lift (pte_index_of level (r_start r));
        last_byte ← lift (addr_sub (r_end r) 1);
        last ← lift (pte_index_of level last_byte);
        count ← lift (run_length first last);
        fill table first count (r_start r) physmap
      else
        level ← lift (level_at depth);
        es ← lift (page_table_entries_for r level);
        for_entries (length (pe_iter es))
          (fun index sub_range =>
            child <-? descend table index physmap;
            match child with
            | Some child_base =>
                let subtable := MkTable child_base (depth + 1) in
                _ <-? visit_range fuel' subtable sub_range physmap;
                _ <-? ascend table index child_base (depth + 1) physmap;
                mret (Ok tt)
            | None => mret (Ok tt)
            end)
          es
  end.

Definition visit (table : Table) (r : range) (physmap : PhysMap) : M (world F * V) (result E unit) :=
  len ← lift (range_len r);
  if len =? BYTES s then visit_leaf (S (length LEVELS)) table (r_start r) physmap
  else visit_range (S (length LEVELS)) table r physmap.

End visit.
