(* ===== verification/Flush.v ===== *)
(** * Pending TLB invalidations (lib/mem-mmu/src/flush.rs) *)

From stdpp Require Import base numbers list sets.
From Stdlib Require Import ZArith Lia.
From S2P Require Import Prelude Address Riscv ArrayVec Arch.

(** [enum Flush<const CAP: usize = 16>]. *)
Inductive Flush : Type :=
  | Ranges (ranges : ArrayVec range)
  | All.

Definition FLUSH_CAP : nat := 16.

Definition flush_new : Flush := Ranges (av_new FLUSH_CAP).

Definition flush_invalidate (r : range) (f : Flush) : outcome Flush :=
  match f with
  | Ranges ranges =>
      '(pushed, ranges') ← av_try_push r ranges;
      match pushed with
      | Ok _ => mret (Ranges ranges')
      | Err _ => mret All
      end
  | All => mret All
  end.

Definition flush_invalidate_all (f : Flush) : Flush := All.

(** The loop of [flush] over the recorded ranges. *)
Fixpoint fence_each `{Arch} (rs : list range) : M hart unit :=
  match rs with
  | [] => mret tt
  | r :: rs' => _ ← fence r; fence_each rs'
  end.

Definition flush_flush `{Arch} (f : Flush) : M hart unit :=
  match f with
  | Ranges ranges => rs ← lift (av_as_slice ranges); fence_each rs
  | All => fence_all
  end.

(** [ignore]: drops the record without fencing. *)
Definition flush_ignore (f : Flush) : unit := tt.

(** ** Invariant and lemmas *)

(** The record is a well-formed vector of at most 16 ranges. *)
Definition flush_ok (f : Flush) : Prop :=
  match f with
  | Ranges v => av_capacity v = FLUSH_CAP /\ exists l, av_holds v l
  | All => True
  end.

(** Address [va] is invalidated when the record is flushed. *)
Definition flush_covers (f : Flush) (va : Z) : Prop :=
  match f with
  | Ranges v => exists l r, av_holds v l /\ r ∈ l /\ r_start r <= va < r_end r
  | All => True
  end.

Lemma flush_new_ok : flush_ok flush_new.
Proof. split; [done |]. exists []. apply av_new_holds. Qed.

Lemma flush_invalidate_spec r f :
  flush_ok f ->
  exists f', flush_invalidate r f = Done f' /\ flush_ok f'
    /\ (forall va, r_start r <= va < r_end r -> flush_covers f' va)
    /\ (forall va, flush_covers f va -> flush_covers f' va).
Proof.
  destruct f as [v |]; simpl; [| by exists All].
  intros (Hc & l & Hl). pose proof (av_try_push_holds v l r Hl) as Hp. case_decide.
  - destruct Hp as (v' & -> & Hv' & Hc'). simpl. eexists. split; [done |]. simpl.
    split; [split; [congruence | eauto] |]. split.
    + intros va Hva. exists (l ++ [r]), r. split_and!; [done | set_solver | lia | lia].
    + intros va (l' & r' & Hl' & Hin & Hr'). exists (l ++ [r]), r'. split; [done |].
      assert (l' = l) as -> by
        (apply av_as_slice_holds in Hl; apply av_as_slice_holds in Hl'; congruence).
      split; [set_solver | done].
  - rewrite Hp. simpl. by exists All.
Qed.
