(* ===== verification/AddressSpace.v ===== *)
(** * Hardware address spaces (lib/mem-mmu/src/address_space.rs)

    The four visitors of the page-table walk and the operations built from
    them.  The address space is its root table; [arch] is the class instance. *)

From stdpp Require Import base numbers list gmap.
From Stdlib Require Import ZArith Lia.
From S2P Require Import Prelude Address Riscv ArrayVec Arch PhysMap Machine Table Flush.

(** [core::convert::Infallible]. *)
Inductive Infallible : Type := .

(** ** MapVisitor *)

Record MapVisitor : Type := MkMapVisitor {
  mv_phys : PhysicalAddress;
  mv_attributes : MemoryAttributes;
  mv_flush : Flush;
}.

Section visitors.
Context `{Arch} (s : PageSize) {F : Type} `{FrameAllocator F}.

Definition map_descend (table : Table) (index : Z) (physmap : PhysMap) :
    M (world F * MapVisitor) (result AllocError (option PhysicalAddress)) :=
  entry ← on_world (table_get table index physmap);
  if is_table entry then mret (Ok (Some (pte_address entry)))
  else
    _ ← lift (assert_ (is_vacant entry));
    frame <-? on_world (allocate_contiguous_zeroed GRANULE_LAYOUT physmap);
    table_entry ← lift (new_table frame);
    _ ← on_world (table_set table index table_entry physmap);
    self ← get_self;
    _ ← put_self (MkMapVisitor (mv_phys self) (mv_attributes self) (flush_invalidate_all (mv_flush self)));
    mret (Ok (Some frame)).

(** The loop of [fill]: returns the physical address after the last page. *)
Fixpoint map_fill_loop (count : nat) (entry_virt phys : Z) (attributes : MemoryAttributes) :
    M (world F) Z :=
  match count with
  | O => mret phys
  | S count' =>
      old ← arch_read entry_virt;
      _ ← lift (assert_ (is_vacant old));
      leaf ← lift (new_leaf phys attributes);
      _ ← arch_write entry_virt leaf;
      entry_virt' ← lift (addr_add entry_virt PTE_SIZE);
      phys' ← lift (addr_add phys (BYTES s));
      map_fill_loop count' entry_virt' phys' attributes
  end.

(** [flush.invalidate(Range::from_start_len(va, count as usize * S::BYTES))]. *)
Definition invalidate_run (va count : Z) (flush : Flush) : outcome Flush :=
  len ← u_mul count (BYTES s);
  r ← range_from_start_len va len;
  flush_invalidate r flush.

Definition map_fill (table : Table) (first count : Z) (va : VirtualAddress) (physmap : PhysMap) :
    M (world F * MapVisitor) (result AllocError unit) :=
  level ← lift (table_level table);
  _ ← lift (assert_ (first + count <=? entries level));
  entry_virt ← lift (entry_address table first physmap);
  self ← get_self;
  phys ← on_world (map_fill_loop (Z.to_nat count) entry_virt (mv_phys self) (mv_attributes self));
  flush ← lift (invalidate_run va count (mv_flush self));
  _ ← put_self (MkMapVisitor phys (mv_attributes self) flush);
  mret (Ok tt).

#[local] Instance map_visitor : Visitor F MapVisitor AllocError :=
  {| descend := map_descend; ascend := default_ascend; fill := map_fill |}.

(** ** RemapVisitor *)

Record RemapVisitor : Type := MkRemapVisitor {
  rv_phys : PhysicalAddress;
  rv_flush : Flush;
}.

Fixpoint remap_fill_loop (count : nat) (entry_virt phys : Z) : M (world F) Z :=
  match count with
  | O => mret phys
  | S count' =>
      old ← arch_read entry_virt;
      _ ← lift (assert_ (is_leaf old));
      attributes ← lift (pte_attributes old);
      new ← lift (new_leaf phys attributes);
      _ ← arch_write entry_virt new;
      entry_virt' ← lift (addr_add entry_virt PTE_SIZE);
      phys' ← lift (addr_add phys (BYTES s));
      remap_fill_loop count' entry_virt' phys'
  end.

Definition remap_fill (table : Table) (first count : Z) (va : VirtualAddress) (physmap : PhysMap) :
    M (world F * RemapVisitor) (result Infallible unit) :=
  entry_virt ← lift (entry_address table first physmap);
  self ← get_self;
  phys ← on_world (remap_fill_loop (Z.to_nat count) entry_virt (rv_phys self));
  flush ← lift (invalidate_run va count (rv_flush self));
  _ ← put_self (MkRemapVisitor phys flush);
  mret (Ok tt).

#[local] Instance remap_visitor : Visitor F RemapVisitor Infallible :=
  {| descend := default_descend; ascend := default_ascend; fill := remap_fill |}.

(** ** SetAttributesVisitor *)

Record SetAttributesVisitor : Type := MkSetAttributesVisitor {
  sv_attributes : MemoryAttributes;
  sv_flush : Flush;
}.

Fixpoint set_attributes_fill_loop (count : nat) (entry_virt : Z) (attributes : MemoryAttributes) :
    M (world F) unit :=
  match count with
  | O => mret tt
  | S count' =>
      old ← arch_read entry_virt;
      _ ← lift (assert_ (is_leaf old));
      new ← lift (new_leaf (pte_address old) attributes);
      _ ← arch_write entry_virt new;
      entry_virt' ← lift (addr_add entry_virt PTE_SIZE);
      set_attributes_fill_loop count' entry_virt' attributes
  end.

Definition set_attributes_fill (table : Table) (first count : Z) (va : VirtualAddress)
    (physmap : PhysMap) : M (world F * SetAttributesVisitor) (result Infallible unit) :=
  entry_virt ← lift (entry_address table first physmap);
  self ← get_self;
  _ ← on_world (set_attributes_fill_loop (Z.to_nat count) entry_virt (sv_attributes self));
  flush ← lift (invalidate_run va count (sv_flush self));
  _ ← put_self (MkSetAttributesVisitor (sv_attributes self) flush);
  mret (Ok tt).

#[local] Instance set_attributes_visitor : Visitor F SetAttributesVisitor Infallible :=
  {| descend := default_descend; ascend := default_ascend; fill := set_attributes_fill |}.

(** ** UnmapVisitor: its [&mut self] is the flush record. *)

Record UnmapVisitor : Type := MkUnmapVisitor { uv_flush : Flush }.

Definition unmap_ascend (table : Table) (index : Z) (child_base : PhysicalAddress)
    (child_depth : nat) (physmap : PhysMap) : M (world F * UnmapVisitor) (result Infallible unit) :=
  let child := MkTable child_base child_depth in
  empty ← on_world (table_is_empty child physmap);
  if empty : bool then
    _ ← on_world (table_set table index VACANT physmap);
    _ ← on_world (on_frames (deallocate child_base GRANULE_LAYOUT));
    self ← get_self;
    _ ← put_self (MkUnmapVisitor (flush_invalidate_all (uv_flush self)));
    mret (Ok tt)
  else mret (Ok tt).

Fixpoint unmap_fill_loop (count : nat) (entry_virt : Z) : M (world F) unit :=
  match count with
  | O => mret tt
  | S count' =>
      old ← arch_read entry_virt;
      _ ← lift (assert_ (is_leaf old));
      _ ← arch_write entry_virt VACANT;
      entry_virt' ← lift (addr_add entry_virt PTE_SIZE);
      unmap_fill_loop count' entry_virt'
  end.

Definition unmap_fill (table : Table) (first count : Z) (va : VirtualAddress) (physmap : PhysMap) :
    M (world F * UnmapVisitor) (result Infallible unit) :=
  entry_virt ← lift (entry_address table first physmap);
  self ← get_self;
  _ ← on_world (unmap_fill_loop (Z.to_nat count) entry_virt);
  flush ← lift (invalidate_run va count (uv_flush self));
  _ ← put_self (MkUnmapVisitor flush);
  mret (Ok tt).

#[local] Instance unmap_visitor : Visitor F UnmapVisitor Infallible :=
  {| descend := default_descend; ascend := unmap_ascend; fill := unmap_fill |}.

(** ** HardwareAddressSpace *)

Record HardwareAddressSpace : Type := MkAddressSpace { root_page_table : Table }.

Definition aspace_new (physmap : PhysMap) : M (world F) (result AllocError HardwareAddressSpace) :=
  root <-? table_allocate physmap;
  mret (Ok (MkAddressSpace root)).

(** [into_raw_parts]: the root must be at depth 0. *)
Definition aspace_into_raw_parts (a : HardwareAddressSpace) : outcome PhysicalAddress :=
  _ ← assert_ (t_depth (root_page_table a) =? 0)%nat;
  mret (t_base (root_page_table a)).

Definition activate (a : HardwareAddressSpace) : M hart unit :=
  active ← active_table;
  _ ← lift (assert_ (match active with None => true | Some _ => false end));
  _ ← set_active_table (t_base (root_page_table a));
  fence_all.

(** The loop of [lookup] over the levels; falling off the end is the
    [debug_assert!(false)]. *)
Fixpoint lookup_loop (levels : list PageTableLevel) (table : Table) (virt : VirtualAddress)
    (physmap : PhysMap) : M (world F) (option (PhysicalAddress * MemoryAttributes * PageTableLevel)) :=
  match levels with
  | [] => lift Panicked
  | level :: levels' =>
      entry_index ← lift (pte_index_of level virt);
      entry ← table_get table entry_index physmap;
      if is_table entry then
        _ ← lift (assert_ (t_depth table + 1 <? length LEVELS)%nat);
        lookup_loop levels' (MkTable (pte_address entry) (t_depth table + 1)) virt physmap
      else if is_leaf entry then
        let lower_bits := Z.land virt (page_size level - 1) in
        attributes ← lift (pte_attributes entry);
        mret (Some (Z.lor (pte_address entry) lower_bits, attributes, level))
      else
        _ ← lift (assert_ (is_vacant entry));
        mret None
  end.

Definition aspace_lookup (a : HardwareAddressSpace) (virt : VirtualAddress) (physmap : PhysMap) :
    M (world F) (option (PhysicalAddress * MemoryAttributes * PageTableLevel)) :=
  lookup_loop LEVELS (root_page_table a) virt physmap.

End visitors.

(** ** The operations.  The caller's [&mut Flush] is returned. *)

Section operations.
Context `{Arch} (s : PageSize) `{!MapsAt s} {F : Type} `{FrameAllocator F}.

(** Runs a walk with visitor [v] and gives back its final state. *)
Definition run_visitor {V E} {Vis : Visitor F V E} (table : Table) (virt : range) (physmap : PhysMap)
    (v : V) : M (world F) (result E unit * V) := fun w =>
  match visit s table virt physmap (w, v) with
  | Done (r, (w', v')) => Done ((r, v'), w')
  | Panicked => Panicked
  | Undefined => Undefined
  end.

Definition map_contiguous (a : HardwareAddressSpace) (virt : range) (phys : PhysicalAddress)
    (attributes : MemoryAttributes) (physmap : PhysMap) (flush : Flush) :
    M (world F) (result AllocError unit * Flush) :=
  len ← lift (range_len virt);
  _ ← lift (assert_ (BYTES s <=? len));
  a1 ← lift (is_aligned_to (r_start virt) (BYTES s));
  _ ← lift (assert_ a1);
  a2 ← lift (is_aligned_to (r_end virt) (BYTES s));
  _ ← lift (assert_ a2);
  a3 ← lift (is_aligned_to phys (BYTES s));
  _ ← lift (assert_ a3);
  '(r, v) ← run_visitor (Vis := map_visitor s) (root_page_table a) virt physmap
              (MkMapVisitor phys attributes flush);
  mret (r, mv_flush v).

(** The loop of [map] over the physical blocks. *)
Fixpoint aspace_map (a : HardwareAddressSpace) (virt : range) (blocks : list range)
    (attributes : MemoryAttributes) (physmap : PhysMap) (flush : Flush) :
    M (world F) (result AllocError unit * Flush) :=
  match blocks with
  | [] => mret (Ok tt, flush)
  | block_phys :: blocks' =>
      _ ← lift (assert_ (negb (range_is_empty virt)));
      len ← lift (range_len block_phys);
      block_virt ← lift (range_from_start_len (r_start virt) len);
      '(r, flush') ← map_contiguous a block_virt (r_start block_phys) attributes physmap flush;
      match r with
      | Err e => mret (Err e, flush')
      | Ok _ =>
          start ← lift (addr_add (r_start virt) len);
          aspace_map a (Range start (r_end virt)) blocks' attributes physmap flush'
      end
  end.

(** [unwrap_unchecked] on an infallible walk. *)
Definition infallible {A} (r : result Infallible A) : A :=
  match r with Ok a => a | Err e => match e with end end.

Definition remap_contiguous (a : HardwareAddressSpace) (virt : range) (phys : PhysicalAddress)
    (physmap : PhysMap) (flush : Flush) : M (world F) Flush :=
  len ← lift (range_len virt);
  _ ← lift (assert_ (BYTES s <=? len));
  a1 ← lift (is_aligned_to (r_start virt) (BYTES s));
  _ ← lift (assert_ a1);
  a2 ← lift (is_aligned_to phys (BYTES s));
  _ ← lift (assert_ a2);
  '(r, v) ← run_visitor (Vis := remap_visitor s) (root_page_table a) virt physmap
              (MkRemapVisitor phys flush);
  let _ := infallible r in
  mret (rv_flush v).

Fixpoint aspace_remap (a : HardwareAddressSpace) (virt : range) (blocks : list range)
    (physmap : PhysMap) (flush : Flush) : M (world F) (result AllocError unit * Flush) :=
  match blocks with
  | [] => mret (Ok tt, flush)
  | block_phys :: blocks' =>
      _ ← lift (assert_ (negb (range_is_empty virt)));
      len ← lift (range_len block_phys);
      block_virt ← lift (range_from_start_len (r_start virt) len);
      flush' ← remap_contiguous a block_virt (r_start block_phys) physmap flush;
      start ← lift (addr_add (r_start virt) len);
      aspace_remap a (Range start (r_end virt)) blocks' physmap flush'
  end.

Definition set_attributes (a : HardwareAddressSpace) (virt : range) (attributes : MemoryAttributes)
    (physmap : PhysMap) (flush : Flush) : M (world F) Flush :=
  len ← lift (range_len virt);
  _ ← lift (assert_ (BYTES s <=? len));
  a1 ← lift (is_aligned_to (r_start virt) (BYTES s));
  _ ← lift (assert_ a1);
  '(r, v) ← run_visitor (Vis := set_attributes_visitor s) (root_page_table a) virt physmap
              (MkSetAttributesVisitor attributes flush);
  let _ := infallible r in
  mret (sv_flush v).

Definition unmap (a : HardwareAddressSpace) (virt : range) (physmap : PhysMap) (flush : Flush) :
    M (world F) Flush :=
  len ← lift (range_len virt);
  _ ← lift (assert_ (BYTES s <=? len));
  a1 ← lift (is_aligned_to (r_start virt) (BYTES s));
  _ ← lift (assert_ a1);
  '(r, v) ← run_visitor (Vis := unmap_visitor s) (root_page_table a) virt physmap
              (MkUnmapVisitor flush);
  let _ := infallible r in
  mret (uv_flush v).

Definition map_identity (a : HardwareAddressSpace) (phys : range) (attributes : MemoryAttributes)
    (physmap : PhysMap) (flush : Flush) : M (world F) (result AllocError unit * Flush) :=
  let virt := Range (r_start phys) (r_end phys) in
  map_contiguous a virt (r_start phys) attributes physmap flush.

End operations.
