(* ===== verification/PageTable.v ===== *)
(** * The abstract view of a page-table tree

    What the tables rooted at a frame mean: [obs] reads the status of every
    offset of the table's span out of memory, and [owns] says that the tree is
    well formed and which frames it consists of.  The central fact is
    [owns_focus]: one entry of a table can be replaced, together with the
    subtree below it, without affecting what the other entries mean. *)

From stdpp Require Import base numbers list gmap sets.
From Stdlib Require Import ZArith Lia.
From S2P Require Import Prelude Address Riscv Arch PhysMap Machine.

(** [set_solver] with the hypotheses about sets only. *)
Ltac sets :=
  repeat match goal with
  | H : ?P |- _ =>
      lazymatch type of P with
      | Prop =>
          lazymatch P with
          | _ ∈ _ => fail
          | _ ∉ _ => fail
          | _ ## _ => fail
          | _ ⊆ _ => fail
          | _ => clear H
          end
      end
  end; set_solver.

(** ** Level geometry *)

Section geometry.
Context `{Arch}.

(** Bytes one table of the first level of [ls] spans. *)
Definition span (ls : list PageTableLevel) : Z :=
  match ls with
  | l :: _ => entries l * page_size l
  | [] => 0
  end.

Record levels_wf (ls : list PageTableLevel) : Prop := {
  wf_ok : Forall level_ok ls;
  wf_tile : levels_tile ls;
  wf_fit : Forall (fun l => entries l * PTE_SIZE <= GRANULE_SIZE) ls;
}.

Lemma page_size_pow2 l : level_ok l -> page_size l = 2 ^ index_shift l.
Proof. intros (? & _). unfold page_size. rewrite Z.shiftl_mul_pow2 by lia. lia. Qed.

Lemma page_size_pos l : level_ok l -> 8 <= page_size l.
Proof.
  intros Hl. rewrite page_size_pow2 by done. change 8 with (2 ^ 3).
  apply Z.pow_le_mono_r; [lia |]. apply Hl.
Qed.

Lemma entries_pos l : level_ok l -> 2 <= entries l < 2 ^ 16.
Proof.
  intros (_ & Hlog & -> & _). split.
  - change 2 with (2 ^ 1) at 1. apply Z.pow_le_mono_r; lia.
  - apply Z.pow_lt_mono_r; lia.
Qed.

Lemma span_pow2 l ls : level_ok l -> span (l :: ls) = 2 ^ (Z.log2 (entries l) + index_shift l).
Proof.
  intros Hl. simpl. rewrite page_size_pow2 by done. destruct Hl as (? & ? & E & _).
  rewrite E at 1. by rewrite <- Z.pow_add_r by lia.
Qed.

Lemma levels_wf_cons l ls : levels_wf (l :: ls) -> level_ok l /\ levels_wf ls.
Proof.
  intros [H1 H2 H3]. inversion H1. inversion H3. simpl in H2.
  split; [done |]. split; [done | apply H2 | done].
Qed.

(** One entry spans one table of the next level. *)
Lemma page_size_span l ls : levels_wf (l :: ls) -> ls <> [] -> page_size l = span ls.
Proof.
  intros Hwf Hne. destruct (levels_wf_cons _ _ Hwf) as [Hl Hwf']. destruct ls as [| l' ls]; [done |].
  destruct (levels_wf_cons _ _ Hwf') as [Hl' _].
  rewrite span_pow2, page_size_pow2 by done. destruct Hwf as [_ [Ht _] _]. rewrite Ht. f_equal. lia.
Qed.

Lemma span_pos ls : levels_wf ls -> ls <> [] -> 0 < span ls.
Proof.
  intros Hwf Hne. destruct ls as [| l ls]; [done |]. destruct (levels_wf_cons _ _ Hwf) as [Hl _].
  simpl. pose proof (page_size_pos l Hl). pose proof (entries_pos l Hl). nia.
Qed.

Lemma levels_wf_drop `{!ArchLaws} d : levels_wf (drop d LEVELS).
Proof.
  assert (Hwf : levels_wf LEVELS).
  { split; [apply levels_ok | apply levels_tiled | apply levels_table_size]. }
  revert Hwf. generalize LEVELS. induction d as [| d IH]; intros [| l ls] Hwf; try done.
  simpl. apply IH. by apply (levels_wf_cons l).
Qed.

Lemma level_at_drop d l ls : drop d LEVELS = l :: ls -> level_at d = Done l.
Proof.
  intros Hd. unfold level_at. rewrite <- (Nat.add_0_r d), <- lookup_drop, Hd. done.
Qed.

Lemma drop_next d l ls : drop d LEVELS = l :: ls -> drop (d + 1) LEVELS = ls.
Proof. intros Hd. by rewrite <- drop_drop, Hd. Qed.

(** The depth of a page size is a level with leaves of that size. *)
Lemma leaf_depth_from_spec ls s n d :
  leaf_depth_from ls s n = Done d ->
  exists i l, d = (n + i)%nat /\ ls !! i = Some l /\ page_size l = BYTES s /\ supports_leaf l = true.
Proof.
  revert n. induction ls as [| l ls IH]; intros n; simpl; [done |].
  destruct (Z.eqb_spec (page_size l) (BYTES s)), (supports_leaf l) eqn:El; simpl.
  1: { intros [= <-]. exists 0%nat, l. split_and!; [lia | done..]. }
  all: intros (i & l' & -> & ? & ?)%IH; exists (S i), l'; split; [lia | done].
Qed.

Lemma DEPTH_level s `{!MapsAt s} :
  exists l ls, drop DEPTH LEVELS = l :: ls /\ page_size l = BYTES s.
Proof.
  pose proof DEPTH_leaf_depth_of as Hd. unfold leaf_depth_of in Hd.
  apply leaf_depth_from_spec in Hd as (i & l & Hi & Hl & Hb & _). simpl in Hi. rewrite <- Hi in Hl.
  exists l, (drop (S DEPTH) LEVELS). split; [by apply drop_S | done].
Qed.

(** Page sizes of lower levels divide those of higher ones. *)
Lemma page_size_divide ls k l l' :
  levels_wf (l :: ls) -> (l :: ls) !! k = Some l' -> (page_size l' | page_size l).
Proof.
  revert l k. induction ls as [| l1 ls IH]; intros l [| k] Hwf Hk; simpl in Hk;
    [by simplify_eq | by rewrite lookup_nil in Hk | by simplify_eq |].
  destruct (levels_wf_cons _ _ Hwf) as [_ Hwf']. etrans; [by apply (IH l1 k) |].
  rewrite (page_size_span l (l1 :: ls)) by done. simpl. apply Z.divide_factor_r.
Qed.

Lemma granule_last `{!ArchLaws} : exists l, last LEVELS = Some l /\ GRANULE_SIZE = page_size l.
Proof.
  unfold GRANULE_SIZE. destruct (last LEVELS) as [l |] eqn:El; [by exists l |].
  apply last_None in El. by destruct levels_nonempty.
Qed.

(** Above the leaf level of a page size pages are larger. *)
Lemma page_size_above `{!ArchLaws} s `{!MapsAt s} d l ls :
  (d < DEPTH)%nat -> drop d LEVELS = l :: ls -> page_size l <> BYTES s.
Proof.
  intros Hdd Hd. destruct (DEPTH_level s) as (lD & lsD & HD & <-).
  pose proof (drop_next _ _ _ Hd) as Hd'. pose proof (levels_wf_drop d) as Hwf. rewrite Hd in Hwf.
  assert (Hk : ls !! (DEPTH - (d + 1))%nat = Some lD).
  { rewrite <- Hd', lookup_drop. replace (d + 1 + (DEPTH - (d + 1)))%nat with (DEPTH + 0)%nat by lia.
    by rewrite <- lookup_drop, HD. }
  destruct ls as [| l' ls]; [by rewrite lookup_nil in Hk |].
  rewrite (page_size_span l (l' :: ls)) by done.
  destruct (levels_wf_cons _ _ Hwf) as [_ Hwf']. destruct (levels_wf_cons _ _ Hwf') as [Hl' _].
  apply page_size_divide in Hk; [| done]. pose proof (page_size_pos l' Hl'). pose proof (entries_pos l' Hl').
  apply Z.divide_pos_le in Hk; [| lia]. simpl. nia.
Qed.

(** The entry of an offset. *)
Lemma index_range l ls o :
  level_ok l -> 0 <= o < span (l :: ls) -> 0 <= o / page_size l < entries l.
Proof.
  intros Hl Ho. simpl in Ho. pose proof (page_size_pos l Hl). split; [apply Z.div_pos; lia |].
  apply Z.div_lt_upper_bound; [lia |]. lia.
Qed.

(** The offset inside the child table. *)
Lemma mod_span_child l ls va :
  levels_wf (l :: ls) -> ls <> [] -> (va mod span (l :: ls)) mod page_size l = va mod span ls.
Proof.
  intros Hwf Hne. rewrite <- (page_size_span l ls Hwf Hne).
  destruct (levels_wf_cons _ _ Hwf) as [Hl _]. pose proof (page_size_pos l Hl).
  pose proof (entries_pos l Hl). simpl. rewrite Z.mul_comm, Z.rem_mul_r by lia.
  by rewrite (Z.mul_comm (page_size l)), Z.mod_add, Z.mod_mod by lia.
Qed.

Lemma mod_add_small n s a : 0 < n -> s <= a -> s mod n + (a - s) < n -> a mod n = s mod n + (a - s).
Proof.
  intros Hn Hs Hlt. pose proof (Z.mod_pos_bound s n Hn). pose proof (Z.div_mod s n ltac:(lia)).
  symmetry. apply (Z.mod_unique_pos _ _ (s / n)); lia.
Qed.

Lemma div_slot p x y : 0 < p -> x <= y -> x mod p + (y - x) < p -> y / p = x / p.
Proof.
  intros Hp Hxy Hlt. pose proof (Z.mod_pos_bound x p Hp). pose proof (Z.div_mod x p ltac:(lia)).
  symmetry. apply (Z.div_unique_pos _ _ _ (x mod p + (y - x))); lia.
Qed.

(** The part [s..mid) of a range [s..e) that the first entry covers. *)
Lemma first_slot l ls s e :
  levels_wf (l :: ls) -> s < e -> s mod span (l :: ls) + (e - s) <= span (l :: ls) ->
  let mid := Z.min (s - s mod page_size l + page_size l) e in
  let j := s mod span (l :: ls) / page_size l in
  (forall va, s <= va < mid -> va mod span (l :: ls) / page_size l = j)
  /\ s mod page_size l + (mid - s) <= page_size l
  /\ (mid < e -> mid mod span (l :: ls) / page_size l = j + 1 /\ mid mod page_size l = 0
       /\ mid mod span (l :: ls) + (e - mid) <= span (l :: ls)).
Proof.
  intros Hwf Hse Hin mid j. destruct (levels_wf_cons _ _ Hwf) as [Hl _].
  pose proof (page_size_pos l Hl) as Hp. pose proof (entries_pos l Hl) as He.
  assert (Hsp : 0 < span (l :: ls)) by (simpl; nia).
  pose proof (Z.mod_pos_bound s (page_size l) ltac:(lia)) as Hm.
  assert (Hx : (s mod span (l :: ls)) mod page_size l = s mod page_size l).
  { simpl. rewrite Z.mul_comm, Z.rem_mul_r by lia.
    by rewrite (Z.mul_comm (page_size l)), Z.mod_add, Z.mod_mod by lia. }
  split_and!.
  - intros va Hva. rewrite (mod_add_small _ s va) by lia. apply div_slot; lia.
  - lia.
  - intros Hmid. rewrite (mod_add_small _ s mid) by lia. split_and!; [| | lia].
    + assert (Hmx : mid = s - s mod page_size l + page_size l) by lia. rewrite Hmx.
      pose proof (Z.div_mod (s mod span (l :: ls)) (page_size l) ltac:(lia)) as Hdm. rewrite Hx in Hdm.
      symmetry. apply (Z.div_unique_pos _ _ _ 0); [lia |]. unfold j. lia.
    + assert (Hmx : mid = s - s mod page_size l + page_size l) by lia. rewrite Hmx.
      pose proof (Z.div_mod s (page_size l) ltac:(lia)).
      symmetry. apply (Z.mod_unique_pos _ _ (s / page_size l + 1)); lia.
Qed.

(** The offset of a page-aligned address is the start of its entry. *)
Lemma aligned_offset l ls va :
  levels_wf (l :: ls) -> va mod page_size l = 0 ->
  va mod span (l :: ls) = va mod span (l :: ls) / page_size l * page_size l.
Proof.
  intros Hwf Hva. destruct (levels_wf_cons _ _ Hwf) as [Hl _]. pose proof (page_size_pos l Hl).
  assert ((va mod span (l :: ls)) mod page_size l = 0).
  { simpl. rewrite Z.mul_comm, Z.rem_mul_r by (pose proof (entries_pos l Hl); lia).
    by rewrite (Z.mul_comm (page_size l)), Z.mod_add, Z.mod_mod by lia. }
  pose proof (Z.div_mod (va mod span (l :: ls)) (page_size l) ltac:(lia)). lia.
Qed.

(** [pte_index_of] is the entry of the address' offset in the table. *)
Lemma pte_index_of_Done l ls va :
  level_ok l -> 0 <= va ->
  pte_index_of l va = Done (va mod span (l :: ls) / page_size l).
Proof.
  intros Hl Hva. unfold pte_index_of. pose proof (entries_pos l Hl) as He.
  rewrite u_sub_Done by (unfold is_usize; lia). simpl mbind. cbv beta.
  assert (Hidx : Z.land (Z.shiftr va (index_shift l)) (entries l - 1) = va mod span (l :: ls) / page_size l).
  { rewrite span_pow2, page_size_pow2 by done. destruct Hl as (Hs & Hlog & E & _).
    rewrite E at 1. rewrite land_low_mask, Z.shiftr_div_pow2 by lia.
    pose proof (pow2_pos (index_shift l) ltac:(lia)). pose proof (pow2_pos (Z.log2 (entries l)) ltac:(lia)).
    rewrite Z.add_comm, Z.pow_add_r by lia. rewrite Z.rem_mul_r by lia.
    rewrite (Z.mul_comm _ (_ mod _)), Z.div_add by lia.
    by rewrite (Z.div_small (va mod _)) by (apply Z.mod_pos_bound; lia). }
  rewrite Hidx.
  assert (0 < span (l :: ls)) by (simpl; pose proof (page_size_pos l Hl); nia).
  pose proof (index_range l ls (va mod span (l :: ls)) Hl (Z.mod_pos_bound _ _ ltac:(done))) as Hr.
  by rewrite !assert_ltb by lia.
Qed.

End geometry.

(** ** Trees *)

(** What a walk to the leaf level [k] levels down finds at an offset: a vacant
    entry at or above that level, a leaf at or above it, or a table below it
    (and what a walk to the end finds there). *)
Inductive status : Type :=
  | Vac
  | LeafAt (w : Z) (l : PageTableLevel)
  | Below (r : option (Z * PageTableLevel)).

Definition status_leaf (st : status) : option (Z * PageTableLevel) :=
  match st with
  | Vac => None
  | LeafAt w l => Some (w, l)
  | Below r => r
  end.

Section tree.
Context `{Arch} (pm : PhysMap) (region : range).

(** The virtual address of a physical address in the physmap. *)
Definition pv (p : PhysicalAddress) : VirtualAddress :=
  pm_base pm + (p - r_start (range_phys pm)).

(** Entry [i] of the table at frame [b]. *)
Definition ent (m : gmap Z Z) (b i : Z) : Z := default 0 (m !! pv (b + i * PTE_SIZE)).

Fixpoint lk (ls : list PageTableLevel) (m : gmap Z Z) (b o : Z) : option (Z * PageTableLevel) :=
  match ls with
  | [] => None
  | l :: ls' =>
      let e := ent m b (o / page_size l) in
      if is_table e then lk ls' m (pte_address e) (o mod page_size l)
      else if is_leaf e then Some (e, l) else None
  end.

Fixpoint obs (k : nat) (ls : list PageTableLevel) (m : gmap Z Z) (b o : Z) {struct ls} : status :=
  match ls with
  | [] => Vac
  | l :: ls' =>
      let e := ent m b (o / page_size l) in
      if is_table e then
        match k with
        | O => Below (lk ls' m (pte_address e) (o mod page_size l))
        | S k' => obs k' ls' m (pte_address e) (o mod page_size l)
        end
      else if is_leaf e then LeafAt e l else Vac
  end.

(** On the way to an offset, [k] levels down, no table below [b] is empty. *)
Fixpoint pruned (k : nat) (ls : list PageTableLevel) (m : gmap Z Z) (b o : Z) {struct k} : Prop :=
  match k, ls with
  | S k', l :: ((l' :: _) as ls') =>
      let e := ent m b (o / page_size l) in
      if is_table e then
        (exists j, 0 <= j < entries l' /\ is_vacant (ent m (pte_address e) j) = false)
        /\ pruned k' ls' m (pte_address e) (o mod page_size l)
      else True
  | _, _ => True
  end.

(** A frame of the region tables are allocated from. *)
Definition frame_ok (b : Z) : Prop :=
  b mod GRANULE_SIZE = 0 /\ r_start region <= b /\ b + GRANULE_SIZE <= r_end region.

Definition leaf_ok (l : PageTableLevel) (e : Z) : Prop :=
  is_leaf e = true -> pte_address e mod page_size l = 0 /\ exists a, pte_attributes e = Done a.

(** The tree rooted at frame [b] is well formed and consists of the frames
    [S]; no frame is used twice. *)
Fixpoint owns (ls : list PageTableLevel) (m : gmap Z Z) (b : Z) (S : gset Z) : Prop :=
  match ls with
  | [] => False
  | l :: ls' =>
      frame_ok b /\ exists C : Z -> gset Z,
        (forall x, x ∈ S <-> x = b \/ exists i, 0 <= i < entries l /\ x ∈ C i)
        /\ (forall i, 0 <= i < entries l -> b ∉ C i)
        /\ (forall i j, 0 <= i < entries l -> 0 <= j < entries l -> i <> j -> C i ## C j)
        /\ (forall i, 0 <= i < entries l ->
              if is_table (ent m b i) then owns ls' m (pte_address (ent m b i)) (C i)
              else C i = ∅ /\ leaf_ok l (ent m b i))
  end.

(** Entry [e] with the frames below it. *)
Definition entry_ok (l : PageTableLevel) (ls' : list PageTableLevel) (m : gmap Z Z) (e : Z)
    (Ci : gset Z) : Prop :=
  if is_table e then owns ls' m (pte_address e) Ci else Ci = ∅ /\ leaf_ok l e.

(** Two memories agree on the frames of [X]. *)
Definition agree (m m' : gmap Z Z) (X : gset Z) : Prop :=
  forall f i, f ∈ X -> 0 <= i -> i * PTE_SIZE < GRANULE_SIZE ->
  m' !! pv (f + i * PTE_SIZE) = m !! pv (f + i * PTE_SIZE).

Lemma agree_refl m X : agree m m X.
Proof. done. Qed.

Lemma agree_trans m1 m2 m3 X : agree m1 m2 X -> agree m2 m3 X -> agree m1 m3 X.
Proof. intros H1 H2 f i Hf Hi Hg. etrans; [by apply H2 | by apply H1]. Qed.

Lemma agree_mono m m' X Y : agree m m' X -> Y ⊆ X -> agree m m' Y.
Proof. intros Ha Hs f i Hf. apply Ha. sets. Qed.

Lemma ent_agree m m' X l ls b i :
  levels_wf (l :: ls) -> agree m m' X -> b ∈ X -> 0 <= i < entries l -> ent m' b i = ent m b i.
Proof.
  intros [_ _ Hf] Ha Hb Hi. inversion_clear Hf. unfold ent. rewrite Ha; [done | done | lia |].
  unfold PTE_SIZE in *. lia.
Qed.

Lemma obs_child k l ls m b i o :
  is_table (ent m b i) = true -> o / page_size l = i ->
  obs (S k) (l :: ls) m b o = obs k ls m (pte_address (ent m b i)) (o mod page_size l).
Proof. intros Ht <-. cbn [obs]. by rewrite Ht. Qed.

Lemma obs_lk k ls m b o : status_leaf (obs k ls m b o) = lk ls m b o.
Proof.
  revert k b o. induction ls as [| l ls IH]; intros k b o; [done |]. simpl.
  destruct (is_table _); [destruct k; [done | apply IH] | by destruct (is_leaf _)].
Qed.

Lemma owns_root ls m b S : owns ls m b S -> b ∈ S /\ frame_ok b.
Proof.
  destruct ls as [| l ls]; simpl; [done |]. intros (Hf & C & HS & _). split; [| done].
  apply HS. by left.
Qed.

Lemma owns_frames ls m b S x : owns ls m b S -> x ∈ S -> frame_ok x.
Proof.
  revert b S. induction ls as [| l ls IH]; intros b S; [done |].
  intros (Hf & C & HS & _ & _ & HC) Hx. apply HS in Hx as [-> | (i & Hi & Hx)]; [done |].
  specialize (HC i Hi). destruct (is_table _); [by eapply IH |]. destruct HC as [HC _]. by rewrite HC in Hx.
Qed.

(** A tree only depends on the memory of its own frames. *)
Lemma owns_agree ls m m' b S :
  levels_wf ls -> owns ls m b S -> agree m m' S -> owns ls m' b S.
Proof.
  revert b S. induction ls as [| l ls IH]; intros b S Hwf; [done |].
  intros (Hf & C & HS & Hb & Hd & HC) Ha. split; [done |]. exists C.
  split; [done |]. split; [done |]. split; [done |].
  intros i Hi. rewrite (ent_agree m m' S l ls) by (done || (apply HS; by left)).
  specialize (HC i Hi). destruct (is_table _); [| done].
  apply IH; [by apply (levels_wf_cons l) | done |]. eapply agree_mono; [done |].
  intros x Hx. apply HS. eauto.
Qed.

Lemma lk_agree ls m m' b S o :
  levels_wf ls -> owns ls m b S -> agree m m' S -> 0 <= o < span ls -> lk ls m' b o = lk ls m b o.
Proof.
  revert b S o. induction ls as [| l ls IH]; intros b S o Hwf; [done |].
  intros (Hf & C & HS & Hb & Hd & HC) Ha Ho.
  destruct (levels_wf_cons _ _ Hwf) as [Hl Hwf']. pose proof (index_range l ls o Hl Ho) as Hi.
  cbn [lk]. rewrite (ent_agree m m' S l ls) by (done || (apply HS; by left)).
  specialize (HC _ Hi). destruct (is_table _); [| done].
  eapply IH; [done | done | |].
  - eapply agree_mono; [done |]. intros x Hx. apply HS. eauto.
  - destruct ls; [by destruct HC |]. rewrite <- (page_size_span l) by done.
    apply Z.mod_pos_bound. pose proof (page_size_pos l Hl). lia.
Qed.

Lemma obs_agree k ls m m' b S o :
  levels_wf ls -> owns ls m b S -> agree m m' S -> 0 <= o < span ls -> obs k ls m' b o = obs k ls m b o.
Proof.
  revert k b S o. induction ls as [| l ls IH]; intros k b S o Hwf; [done |].
  intros (Hf & C & HS & Hb & Hd & HC) Ha Ho.
  destruct (levels_wf_cons _ _ Hwf) as [Hl Hwf']. pose proof (index_range l ls o Hl Ho) as Hi.
  cbn [obs]. rewrite (ent_agree m m' S l ls) by (done || (apply HS; by left)).
  specialize (HC _ Hi). destruct (is_table _); [| done].
  assert (agree m m' (C (o / page_size l))).
  { eapply agree_mono; [done |]. intros x Hx. apply HS. eauto. }
  assert (0 <= o mod page_size l < span ls).
  { destruct ls; [by destruct HC |]. rewrite <- (page_size_span l) by done.
    apply Z.mod_pos_bound. pose proof (page_size_pos l Hl). lia. }
  destruct k; [f_equal; by eapply lk_agree | by eapply IH].
Qed.

Lemma pruned_agree k ls m m' b S o :
  levels_wf ls -> owns ls m b S -> agree m m' S -> 0 <= o < span ls -> pruned k ls m b o -> pruned k ls m' b o.
Proof.
  revert ls b S o. induction k as [| k IH]; intros ls b S o Hwf HS Ha Ho; [done |].
  destruct ls as [| l [| l' ls]]; [done | done |]. pose proof HS as (Hf & C & HCS & Hb & Hd & HC).
  destruct (levels_wf_cons _ _ Hwf) as [Hl Hwf']. pose proof (index_range l _ o Hl Ho) as Hi. cbn [pruned].
  rewrite (ent_agree m m' S l (l' :: ls)) by (done || (apply HCS; by left)).
  specialize (HC _ Hi). destruct (is_table _); [| done].
  assert (Hac : agree m m' (C (o / page_size l))) by (eapply agree_mono; [done |]; intros x Hx; apply HCS; eauto).
  intros [(j & Hj & Hv) Hp]. split.
  - exists j. split; [done |]. rewrite (ent_agree m m' _ l' ls) by (done || by eapply owns_root). done.
  - eapply IH; [done | done | done | | done]. rewrite <- (page_size_span l) by done.
    apply Z.mod_pos_bound. pose proof (page_size_pos l Hl). lia.
Qed.

(** Focusing on entry [i]: the frames below it, and how the tree changes when
    the entry and the subtree below it are replaced. *)
Lemma owns_focus l ls m b S i :
  levels_wf (l :: ls) -> owns (l :: ls) m b S -> 0 <= i < entries l ->
  exists Ci, Ci ⊆ S /\ (b ∉ Ci) /\ entry_ok l ls m (ent m b i) Ci
  /\ forall m' Ci',
       agree m m' (S ∖ ({[b]} ∪ Ci)) ->
       (forall j, 0 <= j < entries l -> j <> i -> ent m' b j = ent m b j) ->
       entry_ok l ls m' (ent m' b i) Ci' -> Ci' ## S ∖ Ci ->
       owns (l :: ls) m' b ((S ∖ Ci) ∪ Ci')
       /\ forall k o, 0 <= o < span (l :: ls) -> o / page_size l <> i ->
            obs k (l :: ls) m' b o = obs k (l :: ls) m b o
            /\ (pruned k (l :: ls) m b o -> pruned k (l :: ls) m' b o).
Proof.
  intros Hwf (Hf & C & HS & Hb & Hd & HC) Hi. destruct (levels_wf_cons _ _ Hwf) as [Hl Hwf'].
  assert (Hsub : forall j, 0 <= j < entries l -> C j ⊆ S) by (intros j Hj x Hx; apply HS; eauto).
  exists (C i). split; [by apply Hsub |]. split; [by apply Hb |]. split; [by apply HC |].
  intros m' Ci' Ha He Hci' Hdis.
  assert (Hother : forall j, 0 <= j < entries l -> j <> i -> agree m m' (C j)).
  { intros j Hj Hne. eapply agree_mono; [done |]. pose proof (Hsub j Hj). pose proof (Hb j Hj).
    pose proof (Hd i j Hi Hj ltac:(done)). sets. }
  split.
  - split; [done |]. exists (fun j => if decide (j = i) then Ci' else C j). split_and!.
    + intros x. rewrite elem_of_union, elem_of_difference, HS. split.
      * intros [[[-> | (j & Hj & Hx)] Hn] | Hx]; [by left | | right; exists i; by case_decide].
        right. exists j. split; [done |]. case_decide; [by subst | done].
      * intros [-> | (j & Hj & Hx)]; [left; split; [by left | by apply Hb] |].
        case_decide; [by right |]. left. split; [eauto |].
        pose proof (Hd i j Hi Hj ltac:(done)). sets.
    + intros j Hj. case_decide; [| by apply Hb]. pose proof (Hb i Hi).
      assert (b ∈ S) by (apply HS; by left). sets.
    + intros j j' Hj Hj' Hne. pose proof (Hsub j Hj). pose proof (Hsub j' Hj').
      repeat case_decide; subst; [done | | |].
      * pose proof (Hd i j' Hi Hj' ltac:(done)). sets.
      * pose proof (Hd i j Hi Hj ltac:(done)). sets.
      * by apply Hd.
    + intros j Hj. case_decide as E; [by subst |]. rewrite He by done. specialize (HC j Hj).
      destruct (is_table _); [| done]. eapply owns_agree; [done | done | by apply Hother].
  - intros k o Ho Hne. pose proof (index_range l ls o Hl Ho) as Hidx. specialize (HC _ Hidx). specialize (Hother _ Hidx Hne).
    assert (Hom : is_table (ent m b (o / page_size l)) = true -> 0 <= o mod page_size l < span ls).
    { intros Ht. rewrite Ht in HC. destruct ls; [by destruct HC |]. rewrite <- (page_size_span l) by done.
      apply Z.mod_pos_bound. pose proof (page_size_pos l Hl). lia. }
    split.
    + cbn [obs]. rewrite He by done. destruct (is_table _); [| done].
      destruct k; [f_equal; by eapply lk_agree; auto | by eapply obs_agree; auto].
    + destruct k as [| k]; [done |]. destruct ls as [| l' ls]; [done |]. cbn [pruned]. rewrite He by done.
      destruct (is_table _) eqn:Ht; [| done]. intros [(j & Hj & Hv) Hp]. split.
      * exists j. split; [done |]. rewrite (ent_agree m m' _ l' ls) by (done || by eapply owns_root). done.
      * eapply pruned_agree; [done | done | done | by apply Hom | done].
Qed.

Lemma vacant_not_table `{!ArchLaws} e :
  is_usize e -> is_vacant e = true -> is_table e = false /\ is_leaf e = false.
Proof.
  intros Hu Hv. rewrite pte_vacant_xor in Hv by done. apply negb_true_iff, orb_false_iff in Hv. tauto.
Qed.

(** A table without entries. *)
Lemma vacant_table `{!ArchLaws} l ls m b :
  frame_ok b -> levels_wf (l :: ls) ->
  (forall i, 0 <= i < entries l -> is_usize (ent m b i) /\ is_vacant (ent m b i) = true) ->
  owns (l :: ls) m b {[b]}
  /\ forall k o, 0 <= o < span (l :: ls) -> obs k (l :: ls) m b o = Vac.
Proof.
  intros Hf Hwf Hv. destruct (levels_wf_cons _ _ Hwf) as [Hl _]. split.
  - split; [done |]. exists (fun _ => ∅). split_and!; try sets.
    intros i Hi. destruct (Hv i Hi) as [Hu Hvac].
    destruct (vacant_not_table _ Hu Hvac) as [-> E]. split; [done |]. unfold leaf_ok. by rewrite E.
  - intros k o Ho. destruct (Hv _ (index_range l ls o Hl Ho)) as [Hu Hvac]. cbn [obs].
    by destruct (vacant_not_table _ Hu Hvac) as [-> ->].
Qed.

(** The only frame of a tree without entries is its root. *)
Lemma vacant_table_frames `{!ArchLaws} l ls m b S :
  owns (l :: ls) m b S ->
  (forall i, 0 <= i < entries l -> is_usize (ent m b i) /\ is_vacant (ent m b i) = true) ->
  S = {[b]}.
Proof.
  intros (_ & C & HS & _ & _ & HC) Hv. apply set_eq. intros x. rewrite HS, elem_of_singleton. split.
  - intros [-> | (i & Hi & Hx)]; [done |]. destruct (Hv i Hi) as [Hu Hvac]. specialize (HC i Hi).
    destruct (vacant_not_table _ Hu Hvac) as [E _]. rewrite E in HC. destruct HC as [HC _].
    by rewrite HC in Hx.
  - by left.
Qed.

End tree.
