(* ===== verification/Walk.v ===== *)
(** * Correctness of the generic page-table walk

    [visit] of table.rs, proved once for any visitor that satisfies
    [VisitorSpec]: the walk processes the range from left to right, changes
    the status of exactly the addresses it has processed, keeps the tree well
    formed and touches no other memory. *)

From stdpp Require Import base numbers list gmap sets.
From Stdlib Require Import ZArith Lia.
From S2P Require Import Prelude Address Riscv Arch PhysMap Machine Table PageTable.

(** ** Table accesses through the physmap *)

Section memory.
Context {arch : Arch} {laws : ArchLaws} {F : Type} {fa : FrameAllocator F}
  {fal : FrameAllocatorLaws GRANULE_SIZE F} (pm : PhysMap).

(** The memory the frame allocator manages is reachable through the physmap
    and below the limit of what a page-table entry can address. *)
Record platform_ok : Prop := {
  po_physmap : physmap_ok pm;
  po_start : r_start (range_phys pm) <= r_start fa_memory;
  po_end : r_end fa_memory <= r_end (range_phys pm);
  po_limit : r_end fa_memory <= PHYS_LIMIT;
  po_align : (pm_base pm - r_start (range_phys pm)) mod 8 = 0;
}.

Definition mem_ok (m : gmap Z Z) : Prop :=
  words_usize m
  /\ forall p, r_start fa_memory <= p < r_end fa_memory -> p mod 8 = 0 -> is_Some (m !! pv pm p).

Context (Hpo : platform_ok).

Lemma granule_pow2 : exists g, 3 <= g < 64 /\ GRANULE_SIZE = 2 ^ g.
Proof.
  unfold GRANULE_SIZE. destruct (last LEVELS) as [l |] eqn:E.
  - apply last_Some_elem_of in E. pose proof levels_ok as Hok. rewrite Forall_forall in Hok.
    specialize (Hok l E). exists (index_shift l). split; [destruct Hok as (? & ? & ? & ?); lia |].
    by apply page_size_pow2.
  - apply last_None in E. by destruct levels_nonempty.
Qed.

Lemma granule_8 : 8 <= GRANULE_SIZE /\ GRANULE_SIZE mod 8 = 0 /\ GRANULE_SIZE < USIZE_MOD.
Proof.
  destruct granule_pow2 as (g & Hg & ->). split_and!.
  - change 8 with (2 ^ 3). apply Z.pow_le_mono_r; lia.
  - rewrite (pow2_split 3 g) by lia. change (2 ^ 3) with 8. by rewrite Z.mul_comm, Z.mod_mul.
  - apply pow2_usize. lia.
Qed.

(** Word [i] of a frame. *)
Lemma frame_word b i :
  frame_ok fa_memory b -> 0 <= i -> i * PTE_SIZE < GRANULE_SIZE ->
  r_start fa_memory <= b + i * PTE_SIZE < r_end fa_memory /\ (b + i * PTE_SIZE) mod 8 = 0.
Proof.
  intros (Hm & Hs & He) Hi Hg. unfold PTE_SIZE in *. split; [lia |].
  destruct granule_8 as (_ & H8 & _). rewrite Z.mod_add by lia.
  apply Z.mod_divide in Hm; [| destruct granule_8; lia]. apply Z.mod_divide in H8; [| lia].
  apply Z.mod_divide; [lia |]. by etrans.
Qed.

Lemma pv_mod_8 p : pv pm p mod 8 = p mod 8.
Proof.
  unfold pv. replace (pm_base pm + (p - r_start (range_phys pm)))
    with (p + (pm_base pm - r_start (range_phys pm))) by lia.
  rewrite <- Z.add_mod_idemp_r, (po_align Hpo) by lia. by rewrite Z.add_0_r.
Qed.

Lemma pv_usize p :
  r_start fa_memory <= p <= r_end fa_memory -> is_usize (pv pm p).
Proof.
  intros Hp. destruct Hpo as [[] ? ? ? ?]. unfold pv.
  pose proof (wrap_usize (r_start (range_phys pm) + translation_offset pm)) as Hw.
  unfold is_usize in *. unfold pm_base, phys_to_virt_internal, addr_wrapping_offset in *. lia.
Qed.

Lemma phys_to_virt_pv p :
  r_start fa_memory <= p < r_end fa_memory -> phys_to_virt pm p = Done (pv pm p).
Proof.
  intros Hp. destruct Hpo as [Hok ? ? ? ?]. apply phys_to_virt_Done; [done |].
  unfold range_contains. apply andb_true_iff. rewrite Z.leb_le, Z.ltb_lt. lia.
Qed.

Lemma entry_address_pv b d i :
  frame_ok fa_memory b -> 0 <= i -> i * PTE_SIZE < GRANULE_SIZE ->
  entry_address (MkTable b d) i pm = Done (pv pm (b + i * PTE_SIZE)).
Proof.
  intros Hf Hi Hg. pose proof (frame_word b i Hf Hi Hg) as [Hr _]. destruct Hpo as [[] ? ? ? ?].
  pose proof granule_8 as (_ & _ & ?). destruct Hf as (_ & ? & ?).
  unfold entry_address, PTE_SIZE in *. simpl t_base.
  rewrite u_mul_Done by (unfold is_usize; lia). simpl mbind. cbv beta.
  unfold addr_add. rewrite u_add_Done by (unfold is_usize; lia). by apply phys_to_virt_pv.
Qed.

Lemma arch_read_pv (w : world F) b i :
  mem_ok (w_mem w) -> frame_ok fa_memory b -> 0 <= i -> i * PTE_SIZE < GRANULE_SIZE ->
  arch_read (pv pm (b + i * PTE_SIZE)) w = Done (ent pm (w_mem w) b i, w)
  /\ is_usize (ent pm (w_mem w) b i).
Proof.
  intros [Hu Hm] Hf Hi Hg. destruct (frame_word b i Hf Hi Hg) as [Hr H8].
  destruct (Hm _ Hr H8) as [x Hx]. unfold arch_read, ent.
  rewrite pv_mod_8, H8, Hx. simpl. split; [done | by eapply Hu].
Qed.

Lemma arch_write_pv (w : world F) b i x :
  mem_ok (w_mem w) -> frame_ok fa_memory b -> 0 <= i -> i * PTE_SIZE < GRANULE_SIZE ->
  arch_write (pv pm (b + i * PTE_SIZE)) x w
  = Done (tt, set_mem (<[pv pm (b + i * PTE_SIZE) := x]> (w_mem w)) w).
Proof.
  intros [Hu Hm] Hf Hi Hg. destruct (frame_word b i Hf Hi Hg) as [Hr H8].
  destruct (Hm _ Hr H8) as [y Hy]. unfold arch_write. by rewrite pv_mod_8, H8, Hy.
Qed.

Lemma table_get_ent (w : world F) b d i :
  mem_ok (w_mem w) -> frame_ok fa_memory b -> 0 <= i -> i * PTE_SIZE < GRANULE_SIZE ->
  table_get (MkTable b d) i pm w = Done (ent pm (w_mem w) b i, w).
Proof.
  intros Hm Hf Hi Hg. unfold table_get. step_by (entry_address_pv b d i Hf Hi Hg).
  by apply arch_read_pv.
Qed.

Lemma mem_ok_insert m a x : mem_ok m -> is_usize x -> mem_ok (<[a := x]> m).
Proof.
  intros [Hu Hm] Hx. split.
  - intros b v. rewrite lookup_insert. case_decide; [by intros [= <-] | apply Hu].
  - intros p Hp H8. rewrite lookup_insert. case_decide; [done | by apply Hm].
Qed.

(** Distinct frames do not share words. *)
Lemma frame_words_disjoint b b' i j :
  frame_ok fa_memory b -> frame_ok fa_memory b' ->
  0 <= i -> i * PTE_SIZE < GRANULE_SIZE -> 0 <= j -> j * PTE_SIZE < GRANULE_SIZE ->
  pv pm (b + i * PTE_SIZE) = pv pm (b' + j * PTE_SIZE) -> b = b' /\ i = j.
Proof.
  intros (Hb & _) (Hb' & _) Hi Hig Hj Hjg Heq. unfold pv, PTE_SIZE in *.
  pose proof granule_8 as (? & _).
  apply Z.mod_divide in Hb as [x ->]; [| lia]. apply Z.mod_divide in Hb' as [y ->]; [| lia].
  assert (x = y) by nia. subst. lia.
Qed.

Lemma ent_insert m b i x :
  ent pm (<[pv pm (b + i * PTE_SIZE) := x]> m) b i = x.
Proof. unfold ent. by rewrite lookup_insert_eq. Qed.

Lemma ent_insert_ne m b b' i j x :
  frame_ok fa_memory b -> frame_ok fa_memory b' ->
  0 <= i -> i * PTE_SIZE < GRANULE_SIZE -> 0 <= j -> j * PTE_SIZE < GRANULE_SIZE ->
  b <> b' \/ i <> j ->
  ent pm (<[pv pm (b + i * PTE_SIZE) := x]> m) b' j = ent pm m b' j.
Proof.
  intros Hb Hb' ???? Hne. unfold ent. rewrite lookup_insert_ne; [done |].
  intros Heq. apply frame_words_disjoint in Heq; [| done..]. lia.
Qed.

Lemma agree_insert m b i x X :
  frame_ok fa_memory b -> 0 <= i -> i * PTE_SIZE < GRANULE_SIZE ->
  (forall y, y ∈ X -> frame_ok fa_memory y) -> b ∉ X ->
  agree pm m (<[pv pm (b + i * PTE_SIZE) := x]> m) X.
Proof.
  intros Hb ?? HX Hn f j Hf ??. rewrite lookup_insert_ne; [done |].
  intros Heq. apply frame_words_disjoint in Heq; [| by auto..]. by destruct Heq; subst.
Qed.

End memory.

(** ** Specifications of walks *)

Section spec.
Context {arch : Arch} {laws : ArchLaws} {F : Type} {fa : FrameAllocator F}
  {fal : FrameAllocatorLaws GRANULE_SIZE F} (pm : PhysMap).

(** The tree rooted at frame [b] is well formed and its frames are allocated;
    [R] are the other allocated frames. *)
Definition Inv (ls : list PageTableLevel) (b : Z) (R : gset Z) (w : world F) : Prop :=
  mem_ok pm (w_mem w)
  /\ exists S, owns pm fa_memory ls (w_mem w) b S /\ S ## R /\ fa_allocated (w_frames w) (S ∪ R).

(** What no operation touches: the hart, the frames of [R], and all memory the
    allocator does not manage. *)
Definition keeps (R : gset Z) (w w' : world F) : Prop :=
  w_hart w' = w_hart w /\ agree pm (w_mem w) (w_mem w') R
  /\ forall a, (forall p, r_start fa_memory <= p < r_end fa_memory -> a <> pv pm p) ->
       w_mem w' !! a = w_mem w !! a.

Lemma keeps_refl R w : keeps R w w.
Proof. done. Qed.

Lemma keeps_trans R w1 w2 w3 : keeps R w1 w2 -> keeps R w2 w3 -> keeps R w1 w3.
Proof.
  intros (Hh & Ha & Ho) (Hh' & Ha' & Ho'). split_and!.
  - by rewrite Hh'.
  - by eapply agree_trans.
  - intros a Hn. rewrite Ho' by done. by apply Ho.
Qed.

Lemma keeps_mono R R' w w' : keeps R w w' -> R' ⊆ R -> keeps R' w w'.
Proof. intros (? & ? & ?) ?. split_and!; [done | by eapply agree_mono | done]. Qed.

(** Opening the subtree below an entry, and closing it again after it has been
    processed. *)
Lemma Inv_open l ls b i R w :
  levels_wf (l :: ls) -> Inv (l :: ls) b R w -> 0 <= i < entries l ->
  is_table (ent pm (w_mem w) b i) = true ->
  let child := pte_address (ent pm (w_mem w) b i) in
  exists Rc, R ⊆ Rc /\ Inv ls child Rc w
  /\ forall w', Inv ls child Rc w' -> keeps Rc w w' ->
       Inv (l :: ls) b R w' /\ ent pm (w_mem w') b i = ent pm (w_mem w) b i
       /\ forall k o, 0 <= o < span (l :: ls) -> o / page_size l <> i ->
            obs pm k (l :: ls) (w_mem w') b o = obs pm k (l :: ls) (w_mem w) b o
            /\ (pruned pm k (l :: ls) (w_mem w) b o -> pruned pm k (l :: ls) (w_mem w') b o).
Proof.
  intros Hwf (Hm & S & HS & HSR & Hal) Hi Ht child.
  destruct (owns_focus pm fa_memory l ls _ b S i Hwf HS Hi) as (Ci & HCS & Hb & Hci & Hclose).
  unfold entry_ok in Hci. rewrite Ht in Hci. fold child in Hci.
  assert (HbS : b ∈ S) by by eapply owns_root.
  exists (R ∪ (S ∖ Ci)). split; [sets |]. split.
  { split; [done |]. exists Ci. split; [done |]. split; [sets |].
    replace (Ci ∪ (R ∪ S ∖ Ci)) with (S ∪ R); [done |].
    apply set_eq. intros x. destruct (decide (x ∈ Ci)); sets. }
  intros w' (Hm' & S' & HS' & HSR' & Hal') (Hh & Ha & Ho).
  assert (Hent : forall j, 0 <= j < entries l -> ent pm (w_mem w') b j = ent pm (w_mem w) b j).
  { intros j Hj. eapply ent_agree; [done | done | sets | done]. }
  destruct (Hclose (w_mem w') S') as [Hown Hobs].
  - eapply agree_mono; [done |]. sets.
  - intros j Hj _. by apply Hent.
  - unfold entry_ok. rewrite Hent by done. by rewrite Ht.
  - sets.
  - split; [| by auto]. split; [done |]. exists (S ∖ Ci ∪ S'). split; [done |]. split; [sets |].
    replace (S ∖ Ci ∪ S' ∪ R) with (S' ∪ (R ∪ S ∖ Ci)); [done |]. apply set_eq. sets.
Qed.

(** The visitor's side: [VI va v] is the invariant of its state when the walk
    has reached [va]; [P] is what it requires of an address and its status,
    [T] how it changes it; [EX] is what it means for the walk to fail; [tidy]
    says that it leaves no empty table behind. *)
Context {V E : Type} (VI : Z -> V -> Prop) (P : Z -> status -> Prop) (T : Z -> status -> status -> Prop)
  (EX : world F -> Prop) (tidy : Prop).

Definition is_Ok (r : result E unit) : Prop := match r with Ok _ => True | Err _ => False end.

(** The addresses [s..c) of the table at [b] have been processed, with result
    [r]; an error is the only reason to stop before [e]. *)
Record walked (k : nat) (ls : list PageTableLevel) (b s e : Z) (R : gset Z) (w : world F)
    (r : result E unit) (w' : world F) (v' : V) (c : Z) : Prop := {
  wk_cut : s <= c <= e;
  wk_ret : match r with Ok _ => c = e | Err _ => EX w' end;
  wk_inv : Inv ls b R w';
  wk_keeps : keeps R w w';
  wk_visitor : VI c v';
  wk_outside : forall o, 0 <= o < span ls -> (forall va, s <= va < c -> o <> va mod span ls) ->
    obs pm k ls (w_mem w') b o = obs pm k ls (w_mem w) b o;
  wk_inside : forall va, s <= va < c ->
    T va (obs pm k ls (w_mem w) b (va mod span ls)) (obs pm k ls (w_mem w') b (va mod span ls));
  wk_tidy : tidy -> is_Ok r ->
    (forall va, s <= va < c -> pruned pm k ls (w_mem w') b (va mod span ls))
    /\ forall o, 0 <= o < span ls -> pruned pm k ls (w_mem w) b o -> pruned pm k ls (w_mem w') b o;
}.

(** [op] processes the addresses [s..e) of the table at [b], from left to right. *)
Definition walk_spec (k : nat) (ls : list PageTableLevel) (b s e : Z)
    (op : M (world F * V) (result E unit)) : Prop :=
  forall R w v,
    Inv ls b R w -> VI s v ->
    (forall va, s <= va < e -> P va (obs pm k ls (w_mem w) b (va mod span ls))) ->
    exists r w' v' c, op (w, v) = Done (r, (w', v')) /\ walked k ls b s e R w r w' v' c.

Lemma walk_spec_ext k ls b s e op op' :
  (forall st, op st = op' st) -> walk_spec k ls b s e op' -> walk_spec k ls b s e op.
Proof. intros Heq Hs R w v HI HV HP. rewrite Heq. by apply Hs. Qed.

Lemma mod_interval_inj n s a a' :
  0 < n -> s <= a < s + n -> s <= a' < s + n -> a mod n = a' mod n -> a = a'.
Proof.
  intros Hn Ha Ha' Heq. pose proof (Z.div_mod a n ltac:(lia)). pose proof (Z.div_mod a' n ltac:(lia)).
  assert (a / n = a' / n) by nia. lia.
Qed.

(** Two steps that leave the status of every address as it is. *)
Lemma walked_after k ls b s e R w w1 r w' v' c :
  keeps R w w1 ->
  (forall o, 0 <= o < span ls -> obs pm k ls (w_mem w1) b o = obs pm k ls (w_mem w) b o) ->
  (tidy -> forall o, 0 <= o < span ls -> pruned pm k ls (w_mem w) b o -> pruned pm k ls (w_mem w1) b o) ->
  0 < span ls -> walked k ls b s e R w1 r w' v' c -> walked k ls b s e R w r w' v' c.
Proof.
  intros HK HO HQ Hsp []. split; try done.
  - by eapply keeps_trans.
  - intros o Ho Hn. rewrite <- HO by done. by auto.
  - intros va Hva. rewrite <- HO by (by apply Z.mod_pos_bound). by auto.
  - intros Ht Hr. destruct (wk_tidy0 Ht Hr). auto.
Qed.

End spec.

Section before.
Context {arch : Arch} {laws : ArchLaws} {F : Type} {fa : FrameAllocator F}
  {fal : FrameAllocatorLaws GRANULE_SIZE F} (pm : PhysMap).
Context {V E : Type} (VI : Z -> V -> Prop) (P : Z -> status -> Prop) (T : Z -> status -> status -> Prop)
  (EX : world F -> Prop) (tidy : Prop).

Abbreviation Inv := (Inv pm).
Abbreviation keeps := (keeps pm).

Lemma walked_before k ls b s e R (w w1 : world F) (v1 : V) w' v' :
  walked (E := E) pm VI T EX False k ls b s e R w (Ok tt) w1 v1 e ->
  Inv ls b R w' -> keeps R w1 w' -> VI e v' ->
  (forall o, 0 <= o < span ls -> obs pm k ls (w_mem w') b o = obs pm k ls (w_mem w1) b o) ->
  (tidy -> (forall va, s <= va < e -> pruned pm k ls (w_mem w') b (va mod span ls))
     /\ forall o, 0 <= o < span ls -> pruned pm k ls (w_mem w) b o -> pruned pm k ls (w_mem w') b o) ->
  0 < span ls -> walked (E := E) pm VI T EX tidy k ls b s e R w (Ok tt) w' v' e.
Proof.
  intros [] HI HK HV HO HQ Hsp. split; try done.
  - by eapply keeps_trans.
  - intros o Ho Hn. rewrite HO by done. by auto.
  - intros va Hva. rewrite HO by (by apply Z.mod_pos_bound). by auto.
  - intros Ht _. by apply HQ.
Qed.
End before.

Section sequence.
Context {arch : Arch} {laws : ArchLaws} {F : Type} {fa : FrameAllocator F}
  {fal : FrameAllocatorLaws GRANULE_SIZE F} (pm : PhysMap).
Context {V E : Type} (VI : Z -> V -> Prop) (P : Z -> status -> Prop) (T : Z -> status -> status -> Prop)
  (EX : world F -> Prop) (tidy : Prop).

Abbreviation Inv := (Inv pm).
Abbreviation keeps := (keeps pm).
Abbreviation walked := (walked (V := V) (E := E) pm VI T EX tidy).
Abbreviation walk_spec := (walk_spec (V := V) (E := E) pm VI P T EX tidy).

(** Stopping before anything has been processed. *)
Lemma walked_stop k ls b s e R w err w' v' :
  s <= e -> EX w' -> Inv ls b R w' -> keeps R w w' -> VI s v' ->
  (forall o, 0 <= o < span ls -> obs pm k ls (w_mem w') b o = obs pm k ls (w_mem w) b o) ->
  walked k ls b s e R w (Err err) w' v' s.
Proof. intros. split; try done; try lia. intros o Ho _. by auto. Qed.

(** What has not been processed yet keeps its status. *)
Lemma walked_later k ls b s mid e R w w1 v1 :
  0 < span ls -> e - s <= span ls -> walked k ls b s mid R w (Ok tt) w1 v1 mid ->
  forall va, mid <= va < e ->
    obs pm k ls (w_mem w1) b (va mod span ls) = obs pm k ls (w_mem w) b (va mod span ls).
Proof.
  intros Hsp Hlen [Hcut _ _ _ _ Hout _ _] va Hva. apply Hout; [by apply Z.mod_pos_bound |].
  intros va' Hva' Heq. apply (mod_interval_inj (span ls) s) in Heq; lia.
Qed.

Lemma walked_seq k ls b s mid e R w w1 v1 r w' v' c :
  0 < span ls -> mid <= e -> e - s <= span ls ->
  walked k ls b s mid R w (Ok tt) w1 v1 mid -> walked k ls b mid e R w1 r w' v' c ->
  walked k ls b s e R w r w' v' c.
Proof.
  intros Hsp Hmid Hlen [Hc1 _ _ HK1 _ HO1 HT1 HQ1] [Hc2 Hr2 HI2 HK2 HV2 HO2 HT2 HQ2].
  assert (Hinj : forall va va', s <= va < e -> s <= va' < e -> va mod span ls = va' mod span ls -> va = va').
  { intros va va' ???. apply (mod_interval_inj (span ls) s); lia. }
  split; try done; try lia.
  - by eapply keeps_trans.
  - intros o Ho Hn. rewrite HO2, HO1; [done | done | | done |]; intros va Hva; apply Hn; lia.
  - intros va Hva. destruct (decide (va < mid)).
    + rewrite HO2; [apply HT1; lia | by apply Z.mod_pos_bound |].
      intros va' Hva' Heq. apply Hinj in Heq; lia.
    + rewrite <- HO1; [apply HT2; lia | by apply Z.mod_pos_bound |].
      intros va' Hva' Heq. apply Hinj in Heq; lia.
  - intros Ht Hr. destruct (HQ1 Ht I) as [Hin1 Hk1], (HQ2 Ht Hr) as [Hin2 Hk2]. split; [| by auto].
    intros va Hva. destruct (decide (va < mid)); [apply Hk2; [by apply Z.mod_pos_bound |]; apply Hin1; lia | apply Hin2; lia].
Qed.

(** Sequencing. *)
Lemma walk_spec_seq k ls b s mid e op1 op2 :
  0 < span ls -> s <= mid <= e -> e - s <= span ls ->
  walk_spec k ls b s mid op1 -> walk_spec k ls b mid e op2 ->
  walk_spec k ls b s e (try_bind op1 (fun _ => op2)).
Proof.
  intros Hsp Hmid Hlen Hop1 Hop2 R w v HI HV HP.
  destruct (Hop1 R w v HI HV ltac:(intros; apply HP; lia))
    as ([[] | err] & w1 & v1 & c1 & E1 & Hw1); last first.
  { exists (Err err), w1, v1, c1. rewrite (try_bind_Err _ _ _ _ _ E1). split; [done |].
    destruct Hw1. split; try done; lia. }
  assert (Hc1 : c1 = mid) by (by destruct Hw1). subst c1.
  destruct (Hop2 R w1 v1) as (r & w2 & v2 & c & E2 & Hw2); [by destruct Hw1 | by destruct Hw1 | |].
  { intros va Hva. rewrite (walked_later _ _ _ _ _ e _ _ _ _ Hsp Hlen Hw1) by done. apply HP. lia. }
  exists r, w2, v2, c. rewrite (try_bind_Ok _ _ _ _ _ E1). split; [done |].
  eapply walked_seq; eauto; lia.
Qed.

End sequence.

(** Of a successful walk, the visitor's state only matters through its
    invariant. *)
Lemma walked_visitor {arch : Arch} {laws : ArchLaws} {F : Type} {fa : FrameAllocator F}
    {fal : FrameAllocatorLaws GRANULE_SIZE F} pm {V V' E E'} (VI : Z -> V -> Prop) (VI' : Z -> V' -> Prop)
    T EX EX' tidy k ls b s e R (w w' : world F) v c v' :
  walked (E := E) pm VI T EX tidy k ls b s e R w (Ok tt) w' v c -> VI' c v' ->
  walked (E := E') pm VI' T EX' tidy k ls b s e R w (Ok tt) w' v' c.
Proof. intros [] HV. by split. Qed.

(** ** What a visitor must satisfy *)

Section visitor_spec.
Context {arch : Arch} {laws : ArchLaws} {F : Type} {fa : FrameAllocator F}
  {fal : FrameAllocatorLaws GRANULE_SIZE F} (pm : PhysMap).
Context {V E : Type} (VI : Z -> V -> Prop) (P : Z -> status -> Prop) (T : Z -> status -> status -> Prop)
  (EX : world F -> Prop) (tidy : Prop).

Class VisitorSpec `{MapsAt s} `{!Visitor F V E} : Prop := {
  fill_spec : forall l ls b first count va,
    drop DEPTH LEVELS = l :: ls -> 0 <= va ->
    first = va mod span (l :: ls) / page_size l -> va mod page_size l = 0 ->
    0 < count -> first + count <= entries l -> va + count * page_size l < USIZE_MOD ->
    walk_spec pm VI P T EX tidy 0 (l :: ls) b va (va + count * page_size l) (fill (MkTable b DEPTH) first count va pm);
  descend_spec : forall k d l l' ls b i R w v va,
    (d < DEPTH)%nat -> drop d LEVELS = l :: l' :: ls ->
    Inv pm (l :: l' :: ls) b R w -> VI va v -> i = va mod span (l :: l' :: ls) / page_size l ->
    P va (obs pm (S k) (l :: l' :: ls) (w_mem w) b (va mod span (l :: l' :: ls))) ->
    exists r w' v', descend (MkTable b d) i pm (w, v) = Done (r, (w', v'))
      /\ Inv pm (l :: l' :: ls) b R w' /\ keeps pm R w w' /\ VI va v'
      /\ (forall o', 0 <= o' < span (l :: l' :: ls) ->
           obs pm (S k) (l :: l' :: ls) (w_mem w') b o' = obs pm (S k) (l :: l' :: ls) (w_mem w) b o')
      /\ (tidy -> forall o', 0 <= o' < span (l :: l' :: ls) ->
           pruned pm (S k) (l :: l' :: ls) (w_mem w) b o' -> pruned pm (S k) (l :: l' :: ls) (w_mem w') b o')
      /\ match r with
         | Ok (Some child) => is_table (ent pm (w_mem w') b i) = true
                              /\ pte_address (ent pm (w_mem w') b i) = child
         | Ok None => False
         | Err _ => EX w'
         end;
  ascend_spec : forall k d l l' ls b i child R w v va,
    drop d LEVELS = l :: l' :: ls ->
    Inv pm (l :: l' :: ls) b R w -> VI va v -> 0 <= i < entries l ->
    is_table (ent pm (w_mem w) b i) = true -> pte_address (ent pm (w_mem w) b i) = child ->
    exists w' v', ascend (MkTable b d) i child (d + 1) pm (w, v) = Done (Ok tt, (w', v'))
      /\ Inv pm (l :: l' :: ls) b R w' /\ keeps pm R w w' /\ VI va v'
      /\ (forall o', 0 <= o' < span (l :: l' :: ls) ->
           obs pm (S k) (l :: l' :: ls) (w_mem w') b o' = obs pm (S k) (l :: l' :: ls) (w_mem w) b o')
      /\ (tidy -> forall o', 0 <= o' < span (l :: l' :: ls) ->
           (if decide (o' / page_size l = i) then pruned pm k (l' :: ls) (w_mem w) child (o' mod page_size l)
            else pruned pm (S k) (l :: l' :: ls) (w_mem w) b o') ->
           pruned pm (S k) (l :: l' :: ls) (w_mem w') b o');
}.

End visitor_spec.

(** ** Splitting a range into entries *)

Section entries.
Context {arch : Arch} {laws : ArchLaws}.

Lemma address_bits : 0 < VIRTUAL_ADDRESS_BITS < 64 /\ span LEVELS = 2 ^ VIRTUAL_ADDRESS_BITS.
Proof.
  pose proof levels_nonempty. pose proof levels_ok as Hok. unfold VIRTUAL_ADDRESS_BITS.
  destruct LEVELS as [| l ls]; [done |]. inversion_clear Hok. split; [| by apply span_pow2].
  destruct H0 as (? & ? & ? & ?). lia.
Qed.

Lemma entries_next_spec l j rest s e :
  level_ok l -> s < e -> in_half VIRTUAL_ADDRESS_BITS s e ->
  let mid := Z.min (s - s mod page_size l + page_size l) e in
  exists start', entries_next (MkEntries (j :: rest) s e (page_size l))
    = Done (Some (j, Range s mid), MkEntries rest start' e (page_size l))
    /\ (mid < e -> start' = mid) /\ s < mid <= e.
Proof.
  intros Hl Hse Hh mid. pose proof (page_size_pos l Hl) as Hps.
  destruct address_bits as [Hb _]. pose proof (Z.mod_pos_bound s (page_size l) ltac:(lia)) as Hm.
  assert (Hu : forall a, s <= a <= e -> is_usize a) by (intros; by eapply in_half_usize).
  assert (Hmid : s < mid <= e) by lia.
  unfold entries_next. cbn [pe_iter pe_page_start pe_page_size pe_max].
  rewrite page_size_pow2, align_down_pow2, <- page_size_pow2; [| done | apply Hu; lia |
    destruct Hl as (? & ? & _ & ?); lia | done].
  assert (Hsl : Z.min (addr_saturating_add (s - s mod page_size l) (page_size l)) e = mid).
  { pose proof (Hu e ltac:(lia)) as [_ ?]. unfold addr_saturating_add, saturating_add. lia. }
  cbn [mbind outcome_bind]. rewrite Hsl. unfold range_is_empty. simpl.
  rewrite (proj2 (Z.leb_gt _ _)) by lia.
  destruct (decide (mid < e)).
  - rewrite (in_half_canonicalize _ s e) by (done || lia). eauto.
  - rewrite canonicalize_sign_extend by (lia || apply Hu; lia). simpl. eexists. split; [done |]. lia.
Qed.

(** The debug assertions of [page_table_entries_for] hold for a range inside
    one table. *)
Lemma page_table_entries_for_spec d l ls s e :
  drop d LEVELS = l :: ls -> s < e -> in_half VIRTUAL_ADDRESS_BITS s e ->
  s mod span (l :: ls) + (e - s) <= span (l :: ls) ->
  let first := s mod span (l :: ls) / page_size l in
  let last := (e - 1) mod span (l :: ls) / page_size l in
  page_table_entries_for (Range s e) l =
    Done (MkEntries (seqZ first (last - first + 1)) s e (page_size l)).
Proof.
  intros Hd Hse Hh Hin first last. destruct address_bits as [Hb _].
  pose proof (levels_wf_drop d) as Hwf. rewrite Hd in Hwf. destruct (levels_wf_cons _ _ Hwf) as [Hl _].
  assert (Hu : forall a, s <= a <= e -> is_usize a) by (intros; by eapply in_half_usize).
  assert (Hsp : 0 < span (l :: ls)) by by apply span_pos.
  unfold page_table_entries_for. cbn [r_start r_end].
  step_by (in_half_canonical _ s e s Hb Hh ltac:(lia)).
  step_by (in_half_canonical _ s e e Hb Hh ltac:(lia)). simpl.
  change (entries l * page_size l) with (span (l :: ls)).
  pose proof (Hu e ltac:(lia)) as [_ Heu]. pose proof (Hu s ltac:(lia)) as [Hs0 _].
  unfold u_mul. change (entries l * page_size l) with (span (l :: ls)).
  rewrite checked_Done by (rewrite span_pow2 by done; apply pow2_usize; destruct Hl as (? & ? & _ & ?); lia).
  simpl. unfold addr_sub. rewrite u_sub_Done by (apply Hu; lia). simpl mbind. cbv beta.
  assert (Hblk : s / span (l :: ls) = (e - 1) / span (l :: ls)).
  { pose proof (Z.div_mod s (span (l :: ls)) ltac:(lia)).
    apply (Z.div_unique_pos _ _ _ (s mod span (l :: ls) + (e - 1 - s))); [| lia].
    pose proof (Z.mod_pos_bound s (span (l :: ls)) ltac:(lia)). lia. }
  rewrite assert_ltb; [simpl | ].
  - rewrite !(pte_index_of_Done l ls) by (done || lia). done.
  - rewrite Z.shiftl_mul_pow2, Z.mul_1_l, land_low_mask by lia.
    pose proof (span_pow2 l ls Hl) as Hspan. rewrite Hspan in Hblk. destruct Hl as (? & ? & _ & ?).
    pose proof (lxor_same_block s (e - 1) (Z.log2 (entries l) + index_shift l)
      ltac:(lia) ltac:(lia) ltac:(lia) Hblk) as Hx. rewrite <- Hspan in Hx.
    eapply Z.le_lt_trans; [apply Z.mod_le; [lia | apply pow2_pos; lia] | apply Hx].
Qed.

End entries.

(** ** The walk *)

Section walk.
Context {arch : Arch} {laws : ArchLaws} {F : Type} {fa : FrameAllocator F}
  {fal : FrameAllocatorLaws GRANULE_SIZE F} (pm : PhysMap) (Hpo : platform_ok pm).
Context {V E : Type} (VI : Z -> V -> Prop) (P : Z -> status -> Prop) (T : Z -> status -> status -> Prop)
  (EX : world F -> Prop) (tidy : Prop).
Context (s : PageSize) {maps : MapsAt s} {Vis : Visitor F V E}
  {vspec : VisitorSpec pm VI P T EX tidy (s := s)}.

Abbreviation spec := (walk_spec pm VI P T EX tidy).

(** The body of the loops: descend, process the child, ascend. *)
Definition walk_body (d : nat) (b i : Z) (rec : Table -> M (world F * V) (result E unit)) :
    M (world F * V) (result E unit) :=
  child <-? descend (MkTable b d) i pm;
  match child with
  | Some child_base =>
      let subtable := MkTable child_base (d + 1) in
      _ <-? rec subtable;
      _ <-? ascend (MkTable b d) i child_base (d + 1) pm;
      mret (Ok tt)
  | None => mret (Ok tt)
  end.

(** Processing the child of entry [i] processes part of the table. *)
Lemma walk_child_spec k l l' ls b i s0 e0 (op : M (world F * V) (result E unit)) R w v :
  levels_wf (l :: l' :: ls) -> 0 <= i < entries l ->
  (forall va, s0 <= va < e0 -> va mod span (l :: l' :: ls) / page_size l = i) ->
  Inv pm (l :: l' :: ls) b R w -> VI s0 v ->
  is_table (ent pm (w_mem w) b i) = true ->
  (forall va, s0 <= va < e0 -> P va (obs pm (S k) (l :: l' :: ls) (w_mem w) b (va mod span (l :: l' :: ls)))) ->
  spec k (l' :: ls) (pte_address (ent pm (w_mem w) b i)) s0 e0 op ->
  exists r w' v' c, op (w, v) = Done (r, (w', v'))
    /\ walked pm VI T EX False (S k) (l :: l' :: ls) b s0 e0 R w r w' v' c
    /\ ent pm (w_mem w') b i = ent pm (w_mem w) b i
    /\ (tidy -> is_Ok r -> let child := pte_address (ent pm (w_mem w) b i) in
         (forall va, s0 <= va < c -> pruned pm k (l' :: ls) (w_mem w') child (va mod span (l :: l' :: ls) mod page_size l))
         /\ forall o, 0 <= o < span (l :: l' :: ls) ->
              if decide (o / page_size l = i)
              then pruned pm k (l' :: ls) (w_mem w) child (o mod page_size l) -> pruned pm k (l' :: ls) (w_mem w') child (o mod page_size l)
              else pruned pm (S k) (l :: l' :: ls) (w_mem w) b o -> pruned pm (S k) (l :: l' :: ls) (w_mem w') b o).
Proof.
  intros Hwf Hi Hslot HI HV Ht HP Hop.
  destruct (levels_wf_cons _ _ Hwf) as [Hl Hwf']. pose proof (page_size_pos l Hl) as Hps.
  assert (Hsp : 0 < span (l :: l' :: ls)) by by apply span_pos.
  pose proof (fun va => mod_span_child l (l' :: ls) va Hwf ltac:(done)) as Hmod.
  destruct (Inv_open pm l (l' :: ls) b i R w Hwf HI Hi Ht) as (Rc & HRc & HIc & Hclose).
  destruct (Hop Rc w v HIc HV) as (r & w' & v' & c & Eop & [Hc Hr HI' HK' HV' HO' HT' HQ']).
  { intros va Hva. rewrite <- Hmod, <- (obs_child pm k l (l' :: ls) (w_mem w) b i) by auto. by apply HP. }
  destruct (Hclose w' HI' HK') as (HIp & Hent & Hother).
  assert (Ht' : is_table (ent pm (w_mem w') b i) = true) by by rewrite Hent.
  exists r, w', v', c. split; [done |]. split; [| split; [done |]]; last first.
  { intros Htd Hok. destruct (HQ' Htd Hok) as [Hin Hkeep]. split.
    - intros va Hva. rewrite Hmod. by apply Hin.
    - intros o Ho. case_decide; [| by apply Hother]. apply Hkeep. rewrite <- (page_size_span l) by done. apply Z.mod_pos_bound. lia. }
  split; try done.
  - by eapply keeps_mono.
  - intros o Ho Hn. destruct (decide (o / page_size l = i)) as [Hoi | Hoi]; [| by apply Hother].
    rewrite !(obs_child pm k l _ _ b i) by done. rewrite Hent. apply HO'.
    + rewrite <- (page_size_span l) by done. apply Z.mod_pos_bound. lia.
    + intros va Hva Heq. apply (Hn va Hva). rewrite <- Hmod in Heq.
      pose proof (Hslot va ltac:(lia)) as Hvi.
      rewrite (Z.div_mod o (page_size l)), (Z.div_mod (va mod _) (page_size l)) by lia. congruence.
  - intros va Hva. rewrite !(obs_child pm k l _ _ b i) by (done || apply Hslot; lia).
    rewrite Hent, Hmod. by apply HT'.
Qed.

Lemma walk_body_spec k d l l' ls b i s0 e0 rec :
  (d < DEPTH)%nat -> drop d LEVELS = l :: l' :: ls -> s0 < e0 ->
  (forall va, s0 <= va < e0 -> va mod span (l :: l' :: ls) / page_size l = i) ->
  (forall child, spec k (l' :: ls) child s0 e0 (rec (MkTable child (d + 1)))) ->
  spec (S k) (l :: l' :: ls) b s0 e0 (walk_body d b i rec).
Proof.
  intros Hdd Hd Hse Hslot Hrec R w v HI HV HP.
  pose proof (levels_wf_drop d) as Hwf. rewrite Hd in Hwf.
  assert (Hsp : 0 < span (l :: l' :: ls)) by by apply span_pos.
  assert (Hi : 0 <= i < entries l).
  { rewrite <- (Hslot s0) by lia. apply (index_range l (l' :: ls)); [by destruct (levels_wf_cons _ _ Hwf) |].
    by apply Z.mod_pos_bound. }
  destruct (descend_spec (s := s) pm VI P T EX tidy k d l l' ls b i R w v s0 Hdd Hd HI HV)
    as (r1 & w1 & v1 & E1 & HI1 & HK1 & HV1 & HO1 & HQ1 & Hr1).
  { symmetry. apply Hslot. lia. } { apply HP. lia. }
  unfold walk_body. destruct r1 as [[child |] | err]; [| done |]; last first.
  { exists (Err err), w1, v1, s0. rewrite (try_bind_Err _ _ _ _ _ E1). split; [done |].
    apply walked_stop; auto; lia. }
  step_by E1. destruct Hr1 as [Ht Hchild].
  destruct (walk_child_spec k l l' ls b i s0 e0 (rec (MkTable child (d + 1))) R w1 v1 Hwf Hi Hslot HI1 HV1 Ht)
    as (r2 & w2 & v2 & c & E2 & Hw2 & Hent2 & HQ2).
  { intros va Hva. rewrite HO1 by (by apply Z.mod_pos_bound). by apply HP. }
  { rewrite Hchild. apply Hrec. }
  pose proof (walked_after _ _ _ _ False _ _ _ _ _ _ _ _ _ _ _ _ HK1 HO1 ltac:(done) Hsp Hw2) as Hw.
  destruct r2 as [[] | err]; last first.
  { exists (Err err), w2, v2, c. rewrite (try_bind_Err _ _ _ _ _ E2). split; [done |]. destruct Hw. by split. }
  assert (Hc : c = e0) by (by destruct Hw). subst c. step_by E2.
  destruct (ascend_spec (s := s) pm VI P T EX tidy k d l l' ls b i child R w2 v2 e0 Hd)
    as (w3 & v3 & E3 & HI3 & HK3 & HV3 & HO3 & HQ3); [by destruct Hw | by destruct Hw | done | | |].
  { by rewrite Hent2. } { by rewrite Hent2. }
  step_by E3. exists (Ok tt), w3, v3, e0. split; [done |]. eapply walked_before; try done.
  intros Htd. destruct (HQ2 Htd I) as [Hin Hkeep]. rewrite Hchild in Hin, Hkeep. split.
  - intros va Hva. apply HQ3; [done | by apply Z.mod_pos_bound |]. rewrite decide_True by (by apply Hslot). by apply Hin.
  - intros o Ho Hp. apply HQ1 in Hp; [| done | done]. specialize (Hkeep o Ho). apply HQ3; [done | done |].
    case_decide as Hoi; [| by apply Hkeep]. apply Hkeep. cbn [pruned] in Hp. rewrite Hoi, Ht, Hchild in Hp. by destruct Hp.
Qed.

(** The loop over the entries a range touches. *)
Lemma for_entries_spec k l ls b g (body : Z -> range -> M (world F * V) (result E unit)) e n s0 :
  levels_wf (l :: ls) -> 0 < g -> page_size l mod g = 0 ->
  s0 < e -> in_half VIRTUAL_ADDRESS_BITS s0 e -> s0 mod g = 0 -> e mod g = 0 ->
  s0 mod span (l :: ls) + (e - s0) <= span (l :: ls) ->
  Z.of_nat n = (e - 1) mod span (l :: ls) / page_size l - s0 mod span (l :: ls) / page_size l + 1 ->
  (forall i a a', s0 <= a < a' -> a' <= e -> a mod g = 0 -> a' mod g = 0 ->
     (forall va, a <= va < a' -> va mod span (l :: ls) / page_size l = i) ->
     a mod page_size l + (a' - a) <= page_size l ->
     spec k (l :: ls) b a a' (body i (Range a a'))) ->
  spec k (l :: ls) b s0 e
    (for_entries n body (MkEntries (seqZ (s0 mod span (l :: ls) / page_size l) (Z.of_nat n)) s0 e (page_size l))).
Proof.
  intros Hwf Hg Hpg Hse Hh Hsg Heg Hin Hn Hbody. revert s0 Hse Hh Hsg Hin Hn Hbody.
  destruct (levels_wf_cons _ _ Hwf) as [Hl _]. pose proof (page_size_pos l Hl) as Hps.
  assert (Hsp : 0 < span (l :: ls)) by by apply span_pos.
  induction n as [| n IH]; intros s0 Hse Hh Hsg Hin Hn Hbody;
    destruct (first_slot l ls s0 e Hwf Hse Hin) as (Hslot & Hfit & Hnext);
    pose proof (entries_next_spec l (s0 mod span (l :: ls) / page_size l)) as Hen.
  { exfalso. pose proof (Z.mod_pos_bound s0 (span (l :: ls)) Hsp).
    rewrite (mod_add_small _ s0 (e - 1)) in Hn by lia.
    pose proof (Z.div_le_mono (s0 mod span (l :: ls)) (s0 mod span (l :: ls) + (e - 1 - s0)) (page_size l)
      ltac:(lia) ltac:(lia)). lia. }
  set (j := s0 mod span (l :: ls) / page_size l) in *.
  set (mid := Z.min (s0 - s0 mod page_size l + page_size l) e) in *.
  rewrite seqZ_cons by lia. replace (Z.pred (Z.of_nat (S n))) with (Z.of_nat n) by lia.
  destruct (Hen (seqZ (Z.succ j) (Z.of_nat n)) s0 e Hl Hse Hh) as (start' & Hen1 & Hst & Hmid).
  fold mid in Hen1, Hst, Hmid.
  eapply walk_spec_ext.
  { intros st. cbn [for_entries]. step_by Hen1. reflexivity. }
  assert (Hmg : mid mod g = 0).
  { destruct (decide (mid < e)) as [Hlt | ?]; [| by replace mid with e by lia].
    destruct (Hnext Hlt) as (_ & Hm0 & _). apply Z.mod_divide in Hm0, Hpg; [| lia..].
    apply Z.mod_divide; [lia |]. by etrans. }
  pose proof (Z.mod_pos_bound s0 (span (l :: ls)) Hsp).
  apply (walk_spec_seq pm VI P T EX tidy k (l :: ls) b s0 mid e); try lia.
  { apply Hbody; auto; lia. }
  destruct (decide (mid < e)) as [Hlt | Hge].
  - rewrite Hst by done. destruct (Hnext Hlt) as (Hj & _ & Hin').
    replace (Z.succ j) with (mid mod span (l :: ls) / page_size l) by lia.
    apply IH; auto; try lia.
    + destruct Hh as [? Hh]. split; lia.
    + intros i a a' ??. apply Hbody; lia.
  - assert (mid = e) as -> by lia. rewrite (Hslot (e - 1)) in Hn by lia.
    assert (n = 0)%nat as -> by lia.
    intros R w v HI HV HP. exists (Ok tt), w, v, e. split; [done |].
    split; try done; try lia. intros _ _. split; [intros; lia | done].
Qed.

Lemma run_length_Done first last :
  first <= last -> last - first + 1 < 2 ^ 16 -> run_length first last = Done (last - first + 1).
Proof.
  intros. unfold run_length. by rewrite (proj2 (Z.leb_le _ _)), (proj2 (Z.ltb_lt _ _)).
Qed.

(** At the leaf level a page-aligned range is one run of entries. *)
Lemma leaf_run l ls s0 e :
  levels_wf (l :: ls) -> s0 < e -> s0 mod page_size l = 0 -> e mod page_size l = 0 ->
  s0 mod span (l :: ls) + (e - s0) <= span (l :: ls) ->
  let first := s0 mod span (l :: ls) / page_size l in
  let last := (e - 1) mod span (l :: ls) / page_size l in
  first <= last < entries l /\ e = s0 + (last - first + 1) * page_size l.
Proof.
  intros Hwf Hse Hs He Hin first last. destruct (levels_wf_cons _ _ Hwf) as [Hl _].
  pose proof (page_size_pos l Hl) as Hp. assert (Hsp : 0 < span (l :: ls)) by by apply span_pos.
  pose proof (Z.mod_pos_bound s0 (span (l :: ls)) Hsp) as Hx.
  assert (Hlr : 0 <= last < entries l) by (apply (index_range l ls); [done | by apply Z.mod_pos_bound]).
  assert (Hxs : s0 mod span (l :: ls) = first * page_size l) by by apply aligned_offset.
  apply Z.mod_divide in Hs as [qs Hqs], He as [qe Hqe]; [| lia..].
  assert (Hlast : last = first + (qe - qs) - 1).
  { unfold last. rewrite (mod_add_small _ s0 (e - 1)) by lia. symmetry.
    apply (Z.div_unique_pos _ _ _ (page_size l - 1)); lia. }
  split; [split; [nia | lia] | nia].
Qed.

(** The range of a table: inside one half of the address space, page aligned,
    and not crossing into the next table. *)
Record table_range (ls : list PageTableLevel) (s0 e : Z) : Prop := {
  tr_nonempty : s0 < e;
  tr_half : in_half VIRTUAL_ADDRESS_BITS s0 e;
  tr_start : s0 mod BYTES s = 0;
  tr_end : e mod BYTES s = 0;
  tr_inside : s0 mod span ls + (e - s0) <= span ls;
}.

Lemma BYTES_pos : 0 < BYTES s.
Proof. rewrite BYTES_pow2. apply pow2_pos. pose proof (SHIFT_range s). lia. Qed.

(** At the leaf level: one call of [fill]. *)
Lemma visit_range_leaf fuel l ls b s0 e :
  drop DEPTH LEVELS = l :: ls -> table_range (l :: ls) s0 e ->
  spec 0 (l :: ls) b s0 e (visit_range s (S fuel) (MkTable b DEPTH) (Range s0 e) pm).
Proof.
  intros HD [Hse Hh Hs He Hin]. destruct (DEPTH_level s) as (lD & lsD & HD' & Hbytes).
  rewrite HD in HD'. simplify_eq. rewrite <- Hbytes in *.
  pose proof (levels_wf_drop DEPTH) as Hwf. rewrite HD in Hwf.
  destruct (levels_wf_cons _ _ Hwf) as [Hl _]. pose proof (entries_pos lD Hl).
  destruct (leaf_run lD lsD s0 e Hwf Hse Hs He Hin) as [Hfl Hlen].
  assert (Hu : is_usize e) by (eapply in_half_usize; [apply address_bits | done | lia]).
  destruct Hu. assert (0 <= s0) by apply Hh.
  assert (Hf0 : 0 <= s0 mod span (lD :: lsD) / page_size lD).
  { apply (index_range lD lsD); [done |]. apply Z.mod_pos_bound. by apply span_pos. }
  eapply walk_spec_ext.
  { intros st. cbn [visit_range t_depth r_start r_end]. rewrite Nat.eqb_refl.
    step_by (level_at_drop _ _ _ HD). step_by (pte_index_of_Done lD lsD s0 Hl ltac:(lia)).
    step_by (u_sub_Done e 1 ltac:(unfold is_usize; lia)).
    step_by (pte_index_of_Done lD lsD (e - 1) Hl ltac:(lia)).
    step_by (run_length_Done _ _ (proj1 Hfl) ltac:(lia)). reflexivity. }
  rewrite Hlen at 1. apply (fill_spec (s := s) pm VI P T EX tidy); auto; lia.
Qed.

(** Above the leaf level: the loop over the entries. *)
Lemma visit_range_step k fuel d l l' ls b s0 e :
  (d + S k = DEPTH)%nat -> drop d LEVELS = l :: l' :: ls -> table_range (l :: l' :: ls) s0 e ->
  (forall child a a', table_range (l' :: ls) a a' ->
     spec k (l' :: ls) child a a' (visit_range s fuel (MkTable child (d + 1)) (Range a a') pm)) ->
  spec (S k) (l :: l' :: ls) b s0 e (visit_range s (S fuel) (MkTable b d) (Range s0 e) pm).
Proof.
  intros Hdk Hd [Hse Hh Hs He Hin] IH. destruct (DEPTH_level s) as (lD & lsD & HD & Hbytes).
  pose proof (levels_wf_drop d) as Hwf. rewrite Hd in Hwf. pose proof BYTES_pos as Hbp.
  pose proof (page_size_span l (l' :: ls) Hwf ltac:(done)) as Hps.
  destruct (levels_wf_cons _ _ Hwf) as [Hl _]. pose proof (page_size_pos l Hl).
  eapply walk_spec_ext.
  { intros st. cbn [visit_range t_depth]. rewrite (proj2 (Nat.eqb_neq d DEPTH)) by lia.
    step_by (level_at_drop _ _ _ Hd). step_by (page_table_entries_for_spec d l (l' :: ls) s0 e Hd Hse Hh Hin).
    reflexivity. }
  cbn [pe_iter]. rewrite length_seqZ.
  set (first := s0 mod span (l :: l' :: ls) / page_size l).
  set (last := (e - 1) mod span (l :: l' :: ls) / page_size l).
  assert (Hle : first <= last).
  { assert (0 < span (l :: l' :: ls)) by by apply span_pos.
    pose proof (Z.mod_pos_bound s0 (span (l :: l' :: ls)) ltac:(done)).
    unfold last. rewrite (mod_add_small _ s0 (e - 1)) by lia. apply Z.div_le_mono; lia. }
  replace (last - first + 1) with (Z.of_nat (Z.to_nat (last - first + 1))) at 2 by lia.
  apply (for_entries_spec (S k) l (l' :: ls) b (BYTES s)); auto; try lia.
  - rewrite <- Hbytes. apply Z.mod_divide; [lia |].
    apply (page_size_divide (l' :: ls) (S k)); [done |]. rewrite <- Hd, lookup_drop.
    replace (d + S k)%nat with (DEPTH + 0)%nat by lia. by rewrite <- lookup_drop, HD.
  - intros i a a' Haa Hae Ha Ha' Hslot Hfit.
    apply (walk_body_spec k d l l' ls b i a a' (fun t => visit_range s fuel t (Range a a') pm)); auto; try lia.
    intros child. rewrite Hps in Hfit. apply IH. split; auto; try lia.
    destruct Hh as [? Hh]. split; lia.
Qed.

(** With one unit of fuel per level down to the leaves, [visit_range] processes
    the whole range. *)
Lemma visit_range_spec k fuel d l ls b s0 e :
  (d + k = DEPTH)%nat -> (k < fuel)%nat -> drop d LEVELS = l :: ls -> table_range (l :: ls) s0 e ->
  spec k (l :: ls) b s0 e (visit_range s fuel (MkTable b d) (Range s0 e) pm).
Proof.
  revert fuel d l ls b s0 e.
  induction k as [| k IH]; intros [| fuel] d l ls b s0 e Hdk Hf Hd Htr; try lia.
  - assert (d = DEPTH) as -> by lia. by apply visit_range_leaf.
  - pose proof (drop_next _ _ _ Hd) as Hd'. destruct ls as [| l' ls].
    { exfalso. destruct (DEPTH_level s) as (lD & lsD & HD & _).
      replace DEPTH with ((d + 1) + k)%nat in HD by lia.
      by rewrite <- drop_drop, Hd', drop_nil in HD. }
    apply visit_range_step; auto. intros child a a' Htr'. apply IH; auto; lia.
Qed.

Lemma visit_leaf_bottom fuel l ls b s0 :
  drop DEPTH LEVELS = l :: ls -> table_range (l :: ls) s0 (s0 + BYTES s) ->
  spec 0 (l :: ls) b s0 (s0 + BYTES s) (visit_leaf s (S fuel) (MkTable b DEPTH) s0 pm).
Proof.
  intros HD [Hse Hh Hs He Hin]. destruct (DEPTH_level s) as (lD & lsD & HD' & Hbytes).
  rewrite HD in HD'. simplify_eq. pose proof (levels_wf_drop DEPTH) as Hwf. rewrite HD in Hwf.
  destruct (levels_wf_cons _ _ Hwf) as [Hl _].
  assert (Hsp : 0 < span (lD :: lsD)) by by apply span_pos.
  pose proof (index_range lD lsD (s0 mod span (lD :: lsD)) Hl (Z.mod_pos_bound _ _ Hsp)).
  assert (0 <= s0) by apply Hh.
  assert (Hu : is_usize (s0 + BYTES s)) by (eapply in_half_usize; [apply address_bits | done | lia]).
  destruct Hu. eapply walk_spec_ext.
  { intros st. cbn [visit_leaf t_depth]. rewrite Nat.eqb_refl.
    step_by (level_at_drop _ _ _ HD). step_by (pte_index_of_Done lD lsD s0 Hl ltac:(lia)). reflexivity. }
  rewrite <- Hbytes in *. replace (s0 + page_size lD) with (s0 + 1 * page_size lD) by lia.
  apply (fill_spec (s := s) pm VI P T EX tidy); auto; lia.
Qed.

(** A page lies in one entry of every table above it. *)
Lemma page_in_slot k d l l' ls s0 :
  (d + S k = DEPTH)%nat -> drop d LEVELS = l :: l' :: ls ->
  table_range (l :: l' :: ls) s0 (s0 + BYTES s) ->
  table_range (l' :: ls) s0 (s0 + BYTES s)
  /\ forall va, s0 <= va < s0 + BYTES s ->
       va mod span (l :: l' :: ls) / page_size l = s0 mod span (l :: l' :: ls) / page_size l.
Proof.
  intros Hdk Hd [Hse Hh Hs He Hin]. destruct (DEPTH_level s) as (lD & lsD & HD & Hbytes).
  pose proof (levels_wf_drop d) as Hwf. rewrite Hd in Hwf. pose proof BYTES_pos as Hbp.
  pose proof (page_size_span l (l' :: ls) Hwf ltac:(done)) as Hps.
  destruct (levels_wf_cons _ _ Hwf) as [Hl _]. pose proof (page_size_pos l Hl).
  destruct (page_size_divide (l' :: ls) (S k) l lD Hwf) as [c Hc].
  { rewrite <- Hd, lookup_drop. replace (d + S k)%nat with (DEPTH + 0)%nat by lia.
    by rewrite <- lookup_drop, HD. }
  rewrite Hbytes in Hc. assert (Hfit : s0 mod page_size l + BYTES s <= page_size l).
  { apply Z.mod_divide in Hs as [q Hq]; [| lia]. pose proof (Z.mod_pos_bound s0 (page_size l) ltac:(lia)).
    pose proof (Z.div_mod s0 (page_size l) ltac:(lia)).
    set (y := q - c * (s0 / page_size l)). assert (Hy : s0 mod page_size l = y * BYTES s) by (subst y; nia).
    assert (y < c) by nia. nia. }
  destruct (first_slot l (l' :: ls) s0 (s0 + BYTES s) Hwf Hse Hin) as (Hslot & _).
  split; [split; auto; rewrite <- Hps; lia |]. intros va Hva. apply Hslot. lia.
Qed.

(** The single-page path. *)
Lemma visit_leaf_spec k fuel d l ls b s0 :
  (d + k = DEPTH)%nat -> (k < fuel)%nat -> drop d LEVELS = l :: ls ->
  table_range (l :: ls) s0 (s0 + BYTES s) ->
  spec k (l :: ls) b s0 (s0 + BYTES s) (visit_leaf s fuel (MkTable b d) s0 pm).
Proof.
  revert fuel d l ls b s0.
  induction k as [| k IH]; intros [| fuel] d l ls b s0 Hdk Hf Hd Htr; try lia.
  - assert (d = DEPTH) as -> by lia. by apply visit_leaf_bottom.
  - pose proof (drop_next _ _ _ Hd) as Hd'. destruct ls as [| l' ls].
    { exfalso. destruct (DEPTH_level s) as (lD & lsD & HD & _).
      replace DEPTH with ((d + 1) + k)%nat in HD by lia.
      by rewrite <- drop_drop, Hd', drop_nil in HD. }
    destruct (page_in_slot k d l l' ls s0 Hdk Hd Htr) as [Htr' Hslot].
    pose proof (levels_wf_drop d) as Hwf. rewrite Hd in Hwf. destruct (levels_wf_cons _ _ Hwf) as [Hl _].
    eapply walk_spec_ext.
    { intros st. cbn [visit_leaf t_depth]. step_by (level_at_drop _ _ _ Hd).
      step_by (pte_index_of_Done l (l' :: ls) s0 Hl (proj1 (tr_half _ _ _ Htr))).
      rewrite (proj2 (Nat.eqb_neq d DEPTH)) by lia. reflexivity. }
    apply (walk_body_spec k d l l' ls b _ s0 (s0 + BYTES s) (fun t => visit_leaf s fuel t s0 pm));
      auto; [lia | apply Htr |].
    intros child. apply IH; auto; lia.
Qed.

Lemma range_len_Done a b : is_usize a -> is_usize b -> a <= b -> range_len (Range a b) = Done (b - a).
Proof.
  intros Ha Hb Hab. unfold range_len. cbn [r_start r_end]. destruct (Z.leb_spec b a); [f_equal; lia |].
  by apply addr_offset_from_unsigned_Done.
Qed.

(** [visit] from the root. *)
Lemma visit_spec b s0 e :
  table_range LEVELS s0 e ->
  spec DEPTH LEVELS b s0 e (visit s (MkTable b 0) (Range s0 e) pm).
Proof.
  intros Htr. pose proof Htr as [Hse Hh Hs He Hin]. destruct address_bits as [Hb _].
  destruct LEVELS as [| l ls] eqn:HL; [by destruct levels_nonempty |].
  assert (Hfuel : (DEPTH < S (length LEVELS))%nat).
  { destruct (DEPTH_level s) as (lD & lsD & HD & _).
    assert (drop DEPTH LEVELS <> []) as Hne by by rewrite HD.
    destruct (decide (DEPTH < length LEVELS)%nat); [lia |]. by rewrite drop_ge in Hne by (apply Nat.nlt_ge; done). }
  eapply walk_spec_ext.
  { intros st. unfold visit. cbn [r_start].
    step_by (range_len_Done s0 e (in_half_usize _ s0 e s0 Hb Hh ltac:(lia))
      (in_half_usize _ s0 e e Hb Hh ltac:(lia)) ltac:(lia)). reflexivity. }
  destruct (Z.eqb_spec (e - s0) (BYTES s)) as [Hlen | Hlen].
  - replace e with (s0 + BYTES s) in * by lia. by apply visit_leaf_spec.
  - by apply visit_range_spec.
Qed.

End walk.
