(* ===== verification/TableOps.v ===== *)
(** * Effects of the table primitives on the abstract view

    Writing one entry, allocating and zeroing a table frame, testing a table
    for emptiness, recording an invalidation: the steps the visitors of
    address_space.rs are made of. *)

From stdpp Require Import base numbers list gmap sets.
From Stdlib Require Import ZArith Lia.
From S2P Require Import Prelude Address Riscv ArrayVec Arch PhysMap Machine Table Flush.
From S2P Require Import AddressSpace PageTable Walk.

Section ops.
Context {arch : Arch} {laws : ArchLaws} {F : Type} {fa : FrameAllocator F}
  {fal : FrameAllocatorLaws GRANULE_SIZE F} (pm : PhysMap) (Hpo : platform_ok pm).

Lemma index_in_frame d l ls i :
  drop d LEVELS = l :: ls -> 0 <= i < entries l -> 0 <= i /\ i * PTE_SIZE < GRANULE_SIZE.
Proof.
  intros Hd Hi. pose proof (levels_wf_drop d) as Hwf. rewrite Hd in Hwf. destruct Hwf as [_ _ Hfit].
  inversion_clear Hfit. unfold PTE_SIZE in *. lia.
Qed.

Lemma index_in_frame_wf l ls i :
  levels_wf (l :: ls) -> 0 <= i < entries l -> 0 <= i /\ i * PTE_SIZE < GRANULE_SIZE.
Proof. intros [_ _ Hfit] Hi. inversion_clear Hfit. unfold PTE_SIZE in *. lia. Qed.

(** Entries read through an invariant. *)
Lemma Inv_ent l ls b R (w : world F) d i :
  levels_wf (l :: ls) -> Inv pm (l :: ls) b R w -> 0 <= i < entries l ->
  table_get (MkTable b d) i pm w = Done (ent pm (w_mem w) b i, w)
  /\ is_usize (ent pm (w_mem w) b i) /\ frame_ok fa_memory b.
Proof.
  intros Hwf (Hm & S & HS & _) Hi. apply owns_root in HS as [_ Hf].
  destruct (index_in_frame_wf l ls i Hwf Hi). split_and!; [| | done..].
  - by apply table_get_ent.
  - by apply (arch_read_pv pm Hpo w b i).
Qed.

(** The status an entry gives to its addresses when it is not a table. *)
Definition entry_status (l : PageTableLevel) (e : Z) : status :=
  if is_leaf e then LeafAt e l else Vac.

Lemma obs_entry k l ls m b o :
  is_table (ent pm m b (o / page_size l)) = false ->
  obs pm k (l :: ls) m b o = entry_status l (ent pm m b (o / page_size l)).
Proof. intros Ht. cbn [obs]. by rewrite Ht. Qed.

(** Memory outside the region the allocator manages. *)
Definition same_outside (m m' : gmap Z Z) : Prop :=
  forall a, (forall p, r_start fa_memory <= p < r_end fa_memory -> a <> pv pm p) -> m' !! a = m !! a.

(** Replacing entry [i] and the subtree below it: what has to be shown. *)
Lemma Inv_replace l ls b R (w : world F) i :
  levels_wf (l :: ls) -> Inv pm (l :: ls) b R w -> 0 <= i < entries l ->
  exists S Ci,
    owns pm fa_memory (l :: ls) (w_mem w) b S /\ fa_allocated (w_frames w) (S ∪ R) /\ S ## R
    /\ (b ∈ S) /\ Ci ⊆ S /\ (b ∉ Ci) /\ entry_ok pm fa_memory l ls (w_mem w) (ent pm (w_mem w) b i) Ci
    /\ (forall x, x ∈ S ∪ R -> frame_ok fa_memory x)
    /\ forall w' Ci',
         mem_ok pm (w_mem w') -> w_hart w' = w_hart w -> same_outside (w_mem w) (w_mem w') ->
         agree pm (w_mem w) (w_mem w') (S ∖ ({[b]} ∪ Ci) ∪ R) ->
         (forall j, 0 <= j < entries l -> j <> i -> ent pm (w_mem w') b j = ent pm (w_mem w) b j) ->
         entry_ok pm fa_memory l ls (w_mem w') (ent pm (w_mem w') b i) Ci' ->
         Ci' ## S ∖ Ci ∪ R -> fa_allocated (w_frames w') (Ci' ∪ (S ∖ Ci ∪ R)) ->
         Inv pm (l :: ls) b R w' /\ keeps pm R w w'
         /\ (forall k o, 0 <= o < span (l :: ls) -> o / page_size l <> i ->
              obs pm k (l :: ls) (w_mem w') b o = obs pm k (l :: ls) (w_mem w) b o)
         /\ forall k o, 0 <= o < span (l :: ls) -> o / page_size l <> i ->
              pruned pm k (l :: ls) (w_mem w) b o -> pruned pm k (l :: ls) (w_mem w') b o.
Proof.
  intros Hwf (Hm & S & HS & HSR & Hal) Hi.
  pose proof (owns_root pm fa_memory _ _ _ _ HS) as [HbS Hf].
  destruct (owns_focus pm fa_memory l ls _ b S i Hwf HS Hi) as (Ci & HCS & Hb & Hci & Hclose).
  exists S, Ci. split_and!; try done. { intros x Hx. by apply (fa_allocated_frame _ _ _ Hal). }
  intros w' Ci' Hm' Hh Hout Ha Hent He' Hdis Hal'.
  destruct (Hclose (w_mem w') Ci') as [Hown Hobs].
  - eapply agree_mono; [done |]. sets.
  - done.
  - done.
  - sets.
  - split_and!; [| | by apply Hobs | by apply Hobs].
    + split; [done |]. exists (S ∖ Ci ∪ Ci'). split; [done |]. split; [sets |].
      by replace (S ∖ Ci ∪ Ci' ∪ R) with (Ci' ∪ (S ∖ Ci ∪ R)) by (apply set_eq; sets).
    + split_and!; [done | | done]. eapply agree_mono; [done |]. sets.
Qed.

(** A write to an entry of table [b]. *)
Lemma write_outside m b i x :
  frame_ok fa_memory b -> 0 <= i -> i * PTE_SIZE < GRANULE_SIZE ->
  same_outside m (<[pv pm (b + i * PTE_SIZE) := x]> m).
Proof.
  intros Hf Hi Hg a Ha. destruct (frame_word b i Hf Hi Hg) as [Hr _].
  rewrite lookup_insert_ne; [done |]. intros <-. by apply (Ha _ Hr).
Qed.

(** Overwriting an entry that is not a table by another one. *)
Lemma Inv_set_entry l ls b R (w : world F) i x :
  levels_wf (l :: ls) -> Inv pm (l :: ls) b R w -> 0 <= i < entries l ->
  is_table (ent pm (w_mem w) b i) = false -> is_usize x -> is_table x = false -> leaf_ok l x ->
  let w' := set_mem (<[pv pm (b + i * PTE_SIZE) := x]> (w_mem w)) w in
  Inv pm (l :: ls) b R w' /\ keeps pm R w w' /\ ent pm (w_mem w') b i = x
  /\ forall k o, 0 <= o < span (l :: ls) -> o / page_size l <> i ->
       obs pm k (l :: ls) (w_mem w') b o = obs pm k (l :: ls) (w_mem w) b o.
Proof.
  intros Hwf HI Hi Ht Hx Htx Hlx w'. destruct (index_in_frame_wf l ls i Hwf Hi) as [Hi0 Hig].
  destruct (Inv_replace l ls b R w i Hwf HI Hi)
    as (S & Ci & HS & Hal & HSR & HbS & HCS & Hb & Hci & HSf & Hrep).
  unfold entry_ok in Hci. rewrite Ht in Hci. destruct Hci as [-> _].
  assert (Hf : frame_ok fa_memory b) by (apply HSf; sets).
  assert (He : ent pm (w_mem w') b i = x) by apply ent_insert.
  destruct (Hrep w' ∅) as (HI' & HK & HO & HQ); try done.
  - apply mem_ok_insert; [apply HI | done].
  - by apply write_outside.
  - apply agree_insert; try done; [intros; apply HSf; sets | sets].
  - intros j Hj Hne. destruct (index_in_frame_wf l ls j Hwf Hj).
    apply ent_insert_ne; auto.
  - rewrite He. unfold entry_ok. by rewrite Htx.
  - replace (∅ ∪ (S ∖ ∅ ∪ R)) with (S ∪ R) by (apply set_eq; sets). done.
Qed.

(** The addresses of the page at [va] and those of its entry. *)
Lemma page_slot l ls va :
  levels_wf (l :: ls) -> va mod page_size l = 0 ->
  let i := va mod span (l :: ls) / page_size l in
  (forall a, va <= a < va + page_size l -> a mod span (l :: ls) / page_size l = i)
  /\ (forall o, o / page_size l = i -> exists a, va <= a < va + page_size l /\ o = a mod span (l :: ls)).
Proof.
  intros Hwf Hva i. destruct (levels_wf_cons _ _ Hwf) as [Hl _]. pose proof (page_size_pos l Hl) as Hp.
  assert (Hsp : 0 < span (l :: ls)) by by apply span_pos.
  pose proof (Z.mod_pos_bound va (span (l :: ls)) Hsp) as Hx.
  assert (Hxm : va mod span (l :: ls) = i * page_size l).
  { by apply aligned_offset. }
  assert (Hfit : va mod span (l :: ls) + page_size l <= span (l :: ls)).
  { pose proof (index_range l ls _ Hl Hx) as Hi. fold i in Hi. simpl in *. nia. }
  split.
  - intros a Ha. rewrite (mod_add_small _ va a) by lia. rewrite Hxm.
    symmetry. apply (Z.div_unique_pos _ _ _ (a - va)); lia.
  - intros o Ho. pose proof (Z.div_mod o (page_size l) ltac:(lia)) as Hdm.
    pose proof (Z.mod_pos_bound o (page_size l) ltac:(lia)).
    exists (va + o mod page_size l). split; [lia |]. rewrite (mod_add_small _ va) by lia. lia.
Qed.

(** Overwriting the entry of one page, as a step of a walk. *)
Lemma write_page (T : Z -> status -> status -> Prop) (EX : world F -> Prop) (tidy : Prop) {E} l ls b R (w : world F) va x :
  levels_wf (l :: ls) -> Inv pm (l :: ls) b R w -> va mod page_size l = 0 ->
  let i := va mod span (l :: ls) / page_size l in
  let old := ent pm (w_mem w) b i in
  is_table old = false -> is_usize x -> is_table x = false -> leaf_ok l x ->
  (forall a, va <= a < va + page_size l -> T a (entry_status l old) (entry_status l x)) ->
  let w' := set_mem (<[pv pm (b + i * PTE_SIZE) := x]> (w_mem w)) w in
  arch_write (pv pm (b + i * PTE_SIZE)) x w = Done (tt, w')
  /\ walked (E := E) pm (fun _ _ => True) T EX tidy 0 (l :: ls) b va (va + page_size l) R w (Ok tt) w' tt (va + page_size l).
Proof.
  intros Hwf HI Hva i old Ht Hx Htx Hlx HT w'. destruct (levels_wf_cons _ _ Hwf) as [Hl _].
  pose proof (page_size_pos l Hl) as Hp. assert (Hsp : 0 < span (l :: ls)) by by apply span_pos.
  assert (Hi : 0 <= i < entries l) by (apply (index_range l ls); [done | by apply Z.mod_pos_bound]).
  destruct (page_slot l ls va Hwf Hva) as [Hin Hout]. fold i in Hin, Hout.
  destruct (Inv_set_entry l ls b R w i x Hwf HI Hi Ht Hx Htx Hlx) as (HI' & HK & He & HO).
  fold w' in HI', HK, He, HO. split.
  - destruct (index_in_frame_wf l ls i Hwf Hi), (Inv_ent l ls b R w 0 i Hwf HI Hi) as (_ & _ & Hf).
    apply arch_write_pv; auto. apply HI.
  - split; try done; try lia.
    + intros o Ho Hn. apply HO; [done |]. intros Hoi. destruct (Hout o Hoi) as (a & Ha & ->). by apply (Hn a).
    + intros a Ha. rewrite !obs_entry; rewrite Hin by done; try done; rewrite ?He; auto.
Qed.

(** A page's status determines its entry. *)
Lemma obs_Vac_entry l ls b (w : world F) R o :
  levels_wf (l :: ls) -> Inv pm (l :: ls) b R w -> 0 <= o < span (l :: ls) ->
  obs pm 0 (l :: ls) (w_mem w) b o = Vac ->
  let e := ent pm (w_mem w) b (o / page_size l) in is_table e = false /\ is_vacant e = true.
Proof.
  intros Hwf HI Ho Hobs e. destruct (levels_wf_cons _ _ Hwf) as [Hl _].
  destruct (Inv_ent l ls b R w 0 _ Hwf HI (index_range l ls o Hl Ho)) as (_ & Hu & _). fold e in Hu.
  cbn [obs] in Hobs. fold e in Hobs. destruct (is_table e) eqn:Et; [done |].
  destruct (is_leaf e) eqn:El; [done |]. split; [done |]. rewrite pte_vacant_xor by done. by rewrite Et, El.
Qed.

Lemma obs_LeafAt_entry l ls b (w : world F) R o x l0 :
  levels_wf (l :: ls) -> Inv pm (l :: ls) b R w -> 0 <= o < span (l :: ls) ->
  obs pm 0 (l :: ls) (w_mem w) b o = LeafAt x l0 ->
  ent pm (w_mem w) b (o / page_size l) = x /\ l0 = l /\ is_leaf x = true /\ is_table x = false
  /\ is_usize x /\ leaf_ok l x.
Proof.
  intros Hwf HI Ho Hobs. destruct (levels_wf_cons _ _ Hwf) as [Hl _].
  pose proof (index_range l ls o Hl Ho) as Hi.
  destruct (Inv_ent l ls b R w 0 _ Hwf HI Hi) as (_ & Hu & _).
  cbn [obs] in Hobs. destruct (is_table _) eqn:Et; [done |].
  destruct (is_leaf _) eqn:El; [| done]. simplify_eq. split_and!; try done.
  destruct HI as (_ & S & (_ & C & _ & _ & _ & HC) & _). specialize (HC _ Hi). rewrite Et in HC. apply HC.
Qed.

(** ** Allocating a table *)

Lemma granule_words : exists n, Z.to_nat GRANULE_SIZE = (8 * n)%nat /\ GRANULE_SIZE = Z.of_nat n * PTE_SIZE.
Proof.
  destruct granule_8 as (H8 & Hm & _). apply Z.mod_divide in Hm as [q Hq]; [| lia].
  exists (Z.to_nat q). unfold PTE_SIZE. lia.
Qed.

(** The allocator refused a request for a table frame and is left as it is. *)
Definition out_of_frames (w : world F) : Prop :=
  exists f, allocate_contiguous GRANULE_LAYOUT f = Done (Err MkAllocError, w_frames w).

Lemma allocate_zeroed_table (w : world F) A0 :
  mem_ok pm (w_mem w) -> fa_allocated (w_frames w) A0 ->
  exists r w', allocate_contiguous_zeroed GRANULE_LAYOUT pm w = Done (r, w') /\ w_hart w' = w_hart w
  /\ match r with
     | Ok p => (forall A, fa_allocated (w_frames w) A -> (p ∉ A) /\ fa_allocated (w_frames w') ({[p]} ∪ A))
         /\ frame_ok fa_memory p
         /\ mem_ok pm (w_mem w')
         /\ (forall i, 0 <= i -> i * PTE_SIZE < GRANULE_SIZE -> w_mem w' !! pv pm (p + i * PTE_SIZE) = Some 0)
         /\ (forall a, (forall i, 0 <= i -> i * PTE_SIZE < GRANULE_SIZE -> a <> pv pm (p + i * PTE_SIZE)) ->
              w_mem w' !! a = w_mem w !! a)
     | Err _ => w_mem w' = w_mem w
         /\ (forall A, fa_allocated (w_frames w) A -> fa_allocated (w_frames w') A) /\ out_of_frames w'
     end.
Proof.
  intros [Hu Hm] Hal. destruct (fa_allocate_spec _ _ Hal) as (r & f' & Ef & Hr).
  assert (Hdet : forall A, fa_allocated (w_frames w) A -> match r with
      | Ok p => (p ∉ A) /\ fa_allocated f' ({[p]} ∪ A) | Err _ => fa_allocated f' A end).
  { intros A HA. destruct (fa_allocate_spec _ _ HA) as (r' & f'' & Ef' & Hr').
    rewrite Ef in Ef'. by simplify_eq. }
  unfold allocate_contiguous_zeroed. fold GRANULE_LAYOUT in Ef. destruct r as [p | []]; last first.
  { exists (Err MkAllocError), (World (w_mem w) (w_hart w) f').
    erewrite try_bind_Err by (unfold on_frames; rewrite Ef; done). split_and!; try done. by exists (w_frames w). }
  destruct Hr as [Hp Hal']. pose proof (fa_allocated_frame _ _ p Hal' ltac:(sets)) as Hf.
  set (w1 := World (w_mem w) (w_hart w) f').
  erewrite try_bind_Ok by (unfold on_frames; rewrite Ef; done). fold w1.
  pose proof granule_8 as (Hg8 & _ & _). destruct granule_words as (n & Hn & Hgn).
  assert (Hw : forall i, 0 <= i < Z.of_nat n -> pv pm p + 8 * i = pv pm (p + i * PTE_SIZE)).
  { intros i Hi. unfold pv, PTE_SIZE. lia. }
  assert (Hfr : forall i, 0 <= i < Z.of_nat n -> 0 <= i /\ i * PTE_SIZE < GRANULE_SIZE) by (unfold PTE_SIZE in *; lia).
  step_by (phys_to_virt_pv pm Hpo p ltac:(destruct Hf; lia)).
  destruct (memset_words n (pv pm p) (w_mem w)) as (m' & Em & Hu' & Hz & Ho & Hdom).
  { rewrite pv_mod_8 by done. destruct (frame_word p 0 Hf ltac:(lia) ltac:(lia)) as [_ H8].
    by rewrite Z.mul_0_l, Z.add_0_r in H8. }
  { done. }
  { intros i Hi. rewrite Hw by done. destruct (Hfr i Hi). destruct (frame_word p i Hf) as [? ?]; auto. }
  assert (Ew : arch_write_bytes (pv pm p) 0 (l_size GRANULE_LAYOUT) w1 = Done (tt, set_mem m' w1)).
  { unfold arch_write_bytes. simpl l_size. rewrite Hn. simpl w_mem. by rewrite Em. }
  step_by Ew. eexists _, _. split; [reflexivity |]. split; [done |]. cbn [set_mem w_mem w_frames w1].
  split_and!; try done.
  - split; [done |]. intros q Hq Hq8. by apply Hdom, Hm.
  - intros i Hi0 Hig. rewrite <- Hw by (unfold PTE_SIZE in *; lia). apply Hz. unfold PTE_SIZE in *. lia.
  - intros a Ha. apply Ho. intros i Hi. rewrite Hw by done. by apply Ha; apply Hfr.
Qed.

Lemma table_set_spec (w : world F) d l ls b i x :
  drop d LEVELS = l :: ls -> mem_ok pm (w_mem w) -> frame_ok fa_memory b -> 0 <= i < entries l ->
  table_set (MkTable b d) i x pm w
  = Done (tt, set_mem (<[pv pm (b + i * PTE_SIZE) := x]> (w_mem w)) w).
Proof.
  intros Hd Hm Hf Hi. destruct (index_in_frame d l ls i Hd Hi) as [Hi0 Hig]. unfold table_set.
  step_by (level_at_drop _ _ _ Hd). step_by (assert_ltb i (entries l) (proj2 Hi)).
  step_by (entry_address_pv pm Hpo b d i Hf Hi0 Hig). by apply arch_write_pv.
Qed.

(** Linking a fresh, zeroed table [p] into a vacant entry. *)
Lemma Inv_new_table l l' ls b R (w w1 : world F) i x p :
  levels_wf (l :: l' :: ls) -> Inv pm (l :: l' :: ls) b R w -> 0 <= i < entries l ->
  is_table (ent pm (w_mem w) b i) = false -> is_leaf (ent pm (w_mem w) b i) = false ->
  (forall A, fa_allocated (w_frames w) A -> (p ∉ A) /\ fa_allocated (w_frames w1) ({[p]} ∪ A)) ->
  w_hart w1 = w_hart w -> mem_ok pm (w_mem w1) -> frame_ok fa_memory p ->
  (forall j, 0 <= j -> j * PTE_SIZE < GRANULE_SIZE -> w_mem w1 !! pv pm (p + j * PTE_SIZE) = Some 0) ->
  (forall a, (forall j, 0 <= j -> j * PTE_SIZE < GRANULE_SIZE -> a <> pv pm (p + j * PTE_SIZE)) ->
     w_mem w1 !! a = w_mem w !! a) ->
  is_usize x -> is_table x = true -> pte_address x = p ->
  let w' := set_mem (<[pv pm (b + i * PTE_SIZE) := x]> (w_mem w1)) w1 in
  Inv pm (l :: l' :: ls) b R w' /\ keeps pm R w w' /\ ent pm (w_mem w') b i = x
  /\ (forall k o, 0 <= o < span (l :: l' :: ls) -> o / page_size l <> i ->
       obs pm k (l :: l' :: ls) (w_mem w') b o = obs pm k (l :: l' :: ls) (w_mem w) b o)
  /\ forall k o, 0 <= o < span (l :: l' :: ls) ->
       obs pm (S k) (l :: l' :: ls) (w_mem w') b o = obs pm (S k) (l :: l' :: ls) (w_mem w) b o.
Proof.
  intros Hwf HI Hi Ht Hlf Hfresh Hh Hm1 Hfp Hz Hsame Hx Htx Hpx w'.
  destruct (index_in_frame_wf l _ i Hwf Hi) as [Hi0 Hig].
  destruct (levels_wf_cons _ _ Hwf) as [Hl Hwf']. destruct (levels_wf_cons _ _ Hwf') as [Hl' _].
  destruct (Inv_replace l _ b R w i Hwf HI Hi)
    as (S & Ci & HS & Hal & HSR & HbS & HCS & Hb & Hci & HSf & Hrep).
  unfold entry_ok in Hci. rewrite Ht in Hci. destruct Hci as [-> _].
  destruct (Hfresh _ Hal) as [Hpn Hal1].
  assert (Hf : frame_ok fa_memory b) by (apply HSf; sets).
  assert (Hbp : b <> p) by sets.
  assert (He : ent pm (w_mem w') b i = x) by apply ent_insert.
  (* words of frames other than [p] are those of [w] *)
  assert (Hother : forall f j, frame_ok fa_memory f -> f <> p -> 0 <= j -> j * PTE_SIZE < GRANULE_SIZE ->
    w_mem w1 !! pv pm (f + j * PTE_SIZE) = w_mem w !! pv pm (f + j * PTE_SIZE)).
  { intros f j Hff Hne Hj Hjg. apply Hsame. intros j' ?? Heq.
    apply frame_words_disjoint in Heq; [| done..]. by destruct Heq. }
  assert (Hpz : forall j, 0 <= j < entries l' -> ent pm (w_mem w') p j = 0).
  { intros j Hj. destruct (index_in_frame_wf l' ls j Hwf' Hj).
    unfold w'. simpl w_mem. rewrite ent_insert_ne by auto. unfold ent. by rewrite Hz. }
  assert (Hchild : owns pm fa_memory (l' :: ls) (w_mem w') p {[p]} /\
    forall k o, 0 <= o < span (l' :: ls) -> obs pm k (l' :: ls) (w_mem w') p o = Vac).
  { apply vacant_table; try done. intros j Hj. rewrite Hpz by done.
    split; [unfold is_usize; lia | apply vacant_is_vacant]. }
  destruct Hchild as [Hown Hobs].
  destruct (Hrep w' {[p]}) as (HI' & HK & HO & _).
  - by apply mem_ok_insert.
  - done.
  - intros a Ha. unfold w'. simpl w_mem. rewrite (write_outside (w_mem w1)) by done.
    apply Hsame. intros j Hj Hjg ->. destruct (frame_word p j Hfp Hj Hjg) as [Hr _]. by apply (Ha _ Hr).
  - intros f j Hf' Hj Hjg. assert (f <> b /\ f <> p /\ frame_ok fa_memory f) as (? & ? & ?).
    { split_and!; [sets | sets | apply HSf; sets]. }
    unfold w'. simpl w_mem. rewrite lookup_insert_ne; [by apply Hother |].
    intros Heq. apply frame_words_disjoint in Heq; [| done..]. by destruct Heq.
  - intros j Hj Hne. destruct (index_in_frame_wf l _ j Hwf Hj). unfold w'. simpl w_mem.
    rewrite ent_insert_ne by auto. unfold ent. by rewrite Hother.
  - rewrite He. unfold entry_ok. by rewrite Htx, Hpx.
  - sets.
  - replace ({[p]} ∪ (S ∖ ∅ ∪ R)) with ({[p]} ∪ (S ∪ R)) by (apply set_eq; sets). done.
  - split_and!; try done. intros k o Ho. destruct (decide (o / page_size l = i)) as [Hoi |]; [| by apply HO].
    rewrite (obs_child pm k l _ _ b i) by (done || by rewrite He). rewrite He, Hpx, Hobs.
    + rewrite obs_entry; rewrite Hoi; [| done]. unfold entry_status. by rewrite Hlf.
    + rewrite <- (page_size_span l) by done. apply Z.mod_pos_bound. pose proof (page_size_pos l Hl). lia.
Qed.

(** ** Reclaiming an empty table *)

Lemma all_vacant_spec (w : world F) d b n i :
  mem_ok pm (w_mem w) -> frame_ok fa_memory b -> 0 <= i -> (i + Z.of_nat n) * PTE_SIZE <= GRANULE_SIZE ->
  exists r, all_vacant n i (MkTable b d) pm w = Done (r, w)
    /\ (r = true <-> forall j, i <= j < i + Z.of_nat n -> is_vacant (ent pm (w_mem w) b j) = true).
Proof.
  intros Hm Hf. revert i. induction n as [| n IH]; intros i Hi Hg; cbn [all_vacant].
  { exists true. split; [done |]. split; [lia | done]. }
  step_by (table_get_ent pm Hpo w b d i Hm Hf Hi ltac:(unfold PTE_SIZE in *; lia)).
  destruct (is_vacant (ent pm (w_mem w) b i)) eqn:Ev; last first.
  { exists false. split; [done |]. split; [done |]. intros Hall. rewrite Hall in Ev by lia. done. }
  destruct (IH (i + 1)) as (r & Er & Hr); [lia | unfold PTE_SIZE in *; lia |].
  exists r. split; [done |]. rewrite Hr. split; intros Hall j Hj.
  - destruct (decide (j = i)) as [-> |]; [done |]. apply Hall. lia.
  - apply Hall. lia.
Qed.

(** Unlinking an empty child table and giving its frame back. *)
(** All entries satisfy a test, or one does not. *)
Lemma all_or_one (f : Z -> bool) (n : nat) :
  (forall j, 0 <= j < Z.of_nat n -> f j = true) \/ exists j, 0 <= j < Z.of_nat n /\ f j = false.
Proof.
  induction n as [| n [IH | (j & Hj & Hf)]]; [left; lia | | right; exists j; split; [lia | done]].
  destruct (f (Z.of_nat n)) eqn:E; [left | right; exists (Z.of_nat n); split; [lia | done]].
  intros j Hj. destruct (decide (j = Z.of_nat n)) as [-> |]; [done |]. apply IH. lia.
Qed.

Lemma Inv_drop_table `{!FrameDeallocatorLaws GRANULE_SIZE F} l l' ls b R (w : world F) i :
  levels_wf (l :: l' :: ls) -> Inv pm (l :: l' :: ls) b R w -> 0 <= i < entries l ->
  is_table (ent pm (w_mem w) b i) = true ->
  let child := pte_address (ent pm (w_mem w) b i) in
  (forall j, 0 <= j < entries l' -> is_vacant (ent pm (w_mem w) child j) = true) ->
  let m' := <[pv pm (b + i * PTE_SIZE) := VACANT]> (w_mem w) in
  exists f', deallocate child GRANULE_LAYOUT (w_frames w) = Done (tt, f')
  /\ let w' := World m' (w_hart w) f' in
     Inv pm (l :: l' :: ls) b R w' /\ keeps pm R w w'
     /\ (forall k o, 0 <= o < span (l :: l' :: ls) ->
          obs pm (S k) (l :: l' :: ls) (w_mem w') b o = obs pm (S k) (l :: l' :: ls) (w_mem w) b o)
     /\ forall k o, 0 <= o < span (l :: l' :: ls) ->
          o / page_size l = i \/ pruned pm (S k) (l :: l' :: ls) (w_mem w) b o -> pruned pm (S k) (l :: l' :: ls) (w_mem w') b o.
Proof.
  intros Hwf HI Hi Ht child Hvac m'. destruct (index_in_frame_wf l _ i Hwf Hi) as [Hi0 Hig].
  destruct (levels_wf_cons _ _ Hwf) as [Hl Hwf']. destruct (levels_wf_cons _ _ Hwf') as [Hl' _].
  destruct (Inv_open pm l _ b i R w Hwf HI Hi Ht) as (Rc & _ & HIc & _). fold child in HIc.
  assert (Hcv : forall j, 0 <= j < entries l' ->
    is_usize (ent pm (w_mem w) child j) /\ is_vacant (ent pm (w_mem w) child j) = true).
  { intros j Hj. split; [| by auto]. by eapply (Inv_ent l' ls child Rc w 0 j). }
  destruct (Inv_ent l' ls child Rc w 0 0 Hwf' HIc ltac:(pose proof (entries_pos l' Hl'); lia)) as (_ & _ & Hfc).
  destruct (vacant_table pm fa_memory l' ls (w_mem w) child Hfc Hwf' Hcv) as [_ Hcobs].
  destruct (Inv_replace l _ b R w i Hwf HI Hi)
    as (S & Ci & HS & Hal & HSR & HbS & HCS & Hb & Hci & HSf & Hrep).
  unfold entry_ok in Hci. rewrite Ht in Hci. fold child in Hci.
  assert (Ci = {[child]}) as -> by by eapply vacant_table_frames.
  assert (Hf : frame_ok fa_memory b) by (apply HSf; sets).
  destruct (fa_deallocate_spec (w_frames w) _ child Hal ltac:(sets)) as (f' & Ef & Hal').
  exists f'. split; [done |]. intros w'.
  assert (Hv0 : is_usize VACANT) by (rewrite vacant_zero; unfold is_usize; lia).
  destruct (vacant_not_table VACANT Hv0) as [Htv Hlv].
  { rewrite vacant_zero. apply vacant_is_vacant. }
  assert (He : ent pm (w_mem w') b i = VACANT) by apply ent_insert.
  destruct (Hrep w' ∅) as (HI' & HK & HO & HQ); try done.
  - apply mem_ok_insert; [apply HI | done].
  - by apply write_outside.
  - apply agree_insert; try done; [intros; apply HSf; sets | sets].
  - intros j Hj Hne. destruct (index_in_frame_wf l _ j Hwf Hj). apply ent_insert_ne; auto.
  - rewrite He. unfold entry_ok, leaf_ok. by rewrite Htv, Hlv.
  - replace (∅ ∪ (S ∖ {[child]} ∪ R)) with ((S ∪ R) ∖ {[child]}); [done |].
    apply set_eq. intros y. assert (child ∉ R) by sets. sets.
  - split_and!; try done.
    + intros k o Ho. destruct (decide (o / page_size l = i)) as [Hoi |]; [| by apply HO].
      rewrite (obs_child pm k l _ (w_mem w) b i) by done. fold child. rewrite Hcobs.
      * rewrite obs_entry; rewrite Hoi, He; [| done]. unfold entry_status. by rewrite Hlv.
      * rewrite <- (page_size_span l) by done. apply Z.mod_pos_bound. pose proof (page_size_pos l Hl). lia.
    + intros k o Ho Hor. destruct (decide (o / page_size l = i)) as [Hoi |]; [| apply HQ; [done | done |]; by destruct Hor].
      cbn [pruned]. by rewrite Hoi, He, Htv.
Qed.

(** ** Recording invalidations *)

(** The record covers what it covered before and the addresses [s0..va). *)
Definition flush_tracks (flush0 : Flush) (s0 va : Z) (f : Flush) : Prop :=
  flush_ok f /\ (forall a, s0 <= a < va -> flush_covers f a)
  /\ (forall a, flush_covers flush0 a -> flush_covers f a).

Lemma flush_tracks_init f s0 : flush_ok f -> flush_tracks f s0 s0 f.
Proof. intros. split_and!; [done | lia | done]. Qed.

Lemma flush_tracks_all flush0 s0 va f : flush_tracks flush0 s0 va (flush_invalidate_all f).
Proof. done. Qed.

Lemma invalidate_run_spec s flush0 s0 va count f :
  flush_tracks flush0 s0 va f -> 0 <= va -> 0 <= count -> va + count * BYTES s < USIZE_MOD ->
  exists f', invalidate_run s va count f = Done f' /\ flush_tracks flush0 s0 (va + count * BYTES s) f'.
Proof.
  intros (Hok & Hc & H0) Hva Hcount Hov. unfold invalidate_run.
  assert (0 < BYTES s) by (rewrite BYTES_pow2; apply pow2_pos; pose proof (SHIFT_range s); lia).
  step_by (u_mul_Done count (BYTES s) ltac:(unfold is_usize; nia)).
  unfold range_from_start_len, addr_add. rewrite u_add_Done by (unfold is_usize; nia).
  destruct (flush_invalidate_spec (Range va (va + count * BYTES s)) f Hok) as (f' & Ef & Hok' & Hnew & Hold).
  simpl. exists f'. split; [done |]. split_and!; [done | | by auto].
  intros a Ha. destruct (decide (a < va)); [apply Hold, Hc; lia | apply Hnew; simpl; lia].
Qed.

End ops.
