(* ===== verification/Visitors.v ===== *)
(** * The four visitors of address_space.rs satisfy [VisitorSpec] *)

From stdpp Require Import base numbers list gmap sets.
From Stdlib Require Import ZArith Lia.
From S2P Require Import Prelude Address Riscv ArrayVec Arch PhysMap Machine Table Flush.
From S2P Require Import AddressSpace PageTable Walk TableOps.

Section visitors.
Context {arch : Arch} {laws : ArchLaws} {F : Type} {fa : FrameAllocator F}
  {fal : FrameAllocatorLaws GRANULE_SIZE F} (pm : PhysMap) (Hpo : platform_ok pm).
Context (s : PageSize) {maps : MapsAt s}.

Abbreviation walked_pages T EX tidy := (walked (E := AllocError) pm (fun _ (_ : unit) => True) T EX tidy).

(** ** Shared steps *)

(** Advancing the entry pointer. *)
Lemma next_entry b i :
  frame_ok fa_memory b -> 0 <= i -> i * PTE_SIZE < GRANULE_SIZE ->
  addr_add (pv pm (b + i * PTE_SIZE)) PTE_SIZE = Done (pv pm (b + (i + 1) * PTE_SIZE)).
Proof.
  intros Hf Hi Hg. destruct granule_8 as (_ & H8 & _). apply Z.mod_divide in H8 as [q Hq]; [| lia].
  unfold addr_add. replace (pv pm (b + (i + 1) * PTE_SIZE)) with (pv pm (b + i * PTE_SIZE) + PTE_SIZE)
    by (unfold pv, PTE_SIZE; lia).
  apply u_add_Done. replace (pv pm (b + i * PTE_SIZE) + PTE_SIZE) with (pv pm (b + (i + 1) * PTE_SIZE))
    by (unfold pv, PTE_SIZE; lia).
  apply pv_usize; [done |]. destruct Hf as (_ & ? & ?). unfold PTE_SIZE in *. lia.
Qed.

(** The leaf level. *)
Record leaf_level (l : PageTableLevel) (ls : list PageTableLevel) : Prop := {
  ll_drop : drop DEPTH LEVELS = l :: ls;
  ll_wf : levels_wf (l :: ls);
  ll_size : page_size l = BYTES s;
}.

Lemma leaf_level_of l ls : drop DEPTH LEVELS = l :: ls -> leaf_level l ls.
Proof.
  intros Hd. pose proof (levels_wf_drop DEPTH) as Hwf. rewrite Hd in Hwf.
  destruct (DEPTH_level s) as (l' & ls' & Hd' & Hs). rewrite Hd in Hd'. by simplify_eq.
Qed.

(** One page of a fill loop and the rest of it. *)
Lemma walked_page_seq T EX tidy l ls b R (w w1 w' : world F) va n :
  leaf_level l ls -> 0 < span (l :: ls) -> (Z.of_nat (S n)) * page_size l <= span (l :: ls) ->
  walked_pages T EX tidy 0 (l :: ls) b va (va + page_size l) R w (Ok tt) w1 tt (va + page_size l) ->
  walked_pages T EX tidy 0 (l :: ls) b (va + page_size l) (va + page_size l + Z.of_nat n * page_size l) R w1
    (Ok tt) w' tt (va + page_size l + Z.of_nat n * page_size l) ->
  walked_pages T EX tidy 0 (l :: ls) b va (va + Z.of_nat (S n) * page_size l) R w (Ok tt) w' tt
    (va + Z.of_nat (S n) * page_size l).
Proof.
  intros Hll Hsp Hn Hw1 Hw2. destruct (levels_wf_cons _ _ (ll_wf _ _ Hll)) as [Hl _].
  pose proof (page_size_pos l Hl).
  replace (va + Z.of_nat (S n) * page_size l) with (va + page_size l + Z.of_nat n * page_size l) by lia.
  eapply (walked_seq pm _ _ _ _ 0 (l :: ls) b va (va + page_size l)); [done | lia | lia | done | done].
Qed.

(** Where the entry of page [va] is, and where that of the next page is. *)
Record at_entry (l : PageTableLevel) (ls : list PageTableLevel) (va i : Z) (n : nat) : Prop := {
  ae_nonneg : 0 <= i;
  ae_room : i + Z.of_nat n <= entries l;
  ae_aligned : va mod page_size l = 0;
  ae_index : (0 < n)%nat -> i = va mod span (l :: ls) / page_size l;
}.

Lemma at_entry_next l ls va i n :
  levels_wf (l :: ls) -> at_entry l ls va i (S n) -> at_entry l ls (va + page_size l) (i + 1) n.
Proof.
  intros Hwf [Hi Hr Ha Hx]. destruct (levels_wf_cons _ _ Hwf) as [Hl _].
  pose proof (page_size_pos l Hl) as Hp. assert (Hsp : 0 < span (l :: ls)) by by apply span_pos.
  specialize (Hx ltac:(lia)). split; [lia | lia | |].
  - rewrite <- (Z.mul_1_l (page_size l)) at 1. by rewrite Z.mod_add by lia.
  - intros Hn. pose proof (Z.mod_pos_bound va (span (l :: ls)) Hsp).
    assert (Hxm : va mod span (l :: ls) = i * page_size l) by (rewrite Hx; by apply aligned_offset).
    rewrite (mod_add_small (span (l :: ls)) va) by (rewrite ?Hxm; simpl; nia). rewrite Hxm.
    replace (i * page_size l + (va + page_size l - va)) with ((i + 1) * page_size l) by lia.
    by rewrite Z.div_mul by lia.
Qed.

(** Reading the entry a fill loop is at. *)
Lemma fill_read l ls b R (w : world F) va i n :
  levels_wf (l :: ls) -> Inv pm (l :: ls) b R w -> at_entry l ls va i (S n) ->
  frame_ok fa_memory b /\ 0 <= i /\ i * PTE_SIZE < GRANULE_SIZE
  /\ i = va mod span (l :: ls) / page_size l
  /\ arch_read (pv pm (b + i * PTE_SIZE)) w = Done (ent pm (w_mem w) b i, w).
Proof.
  intros Hwf HI [Hi Hr Ha Hx]. assert (Hi' : 0 <= i < entries l) by lia.
  destruct (index_in_frame_wf l ls i Hwf Hi'), (Inv_ent pm Hpo l ls b R w 0 i Hwf HI Hi') as (_ & _ & Hf).
  split_and!; auto; [apply Hx; lia |]. apply arch_read_pv; auto. apply HI.
Qed.

Lemma aligned_shift g p q r :
  0 < g -> p mod g = 0 -> q mod g = 0 -> r mod g = 0 -> (p + (q - r)) mod g = 0.
Proof.
  intros Hg Hp Hq Hr. apply Z.mod_divide in Hp, Hq, Hr; [| lia..]. apply Z.mod_divide; [lia |].
  by apply Z.divide_add_r, Z.divide_sub_r.
Qed.

(** A fill loop whose round at page [va] replaces the page's entry by [y] and
    advances the accumulator from [acc va] to the next page's. *)
Definition fill_round {X} (loop : nat -> Z -> X -> M (world F) X) (acc : Z -> X)
    (T : Z -> status -> status -> Prop) l b n va i (w : world F) : Prop :=
  let old := ent pm (w_mem w) b i in
  exists y, is_table old = false /\ is_usize y /\ is_table y = false /\ leaf_ok l y
    /\ (forall a, va <= a < va + page_size l -> T a (entry_status l old) (entry_status l y))
    /\ loop (S n) (pv pm (b + i * PTE_SIZE)) (acc va) w
       = loop n (pv pm (b + (i + 1) * PTE_SIZE)) (acc (va + page_size l))
           (set_mem (<[pv pm (b + i * PTE_SIZE) := y]> (w_mem w)) w).

Lemma fill_loop_spec {X} (loop : nat -> Z -> X -> M (world F) X) (acc : Z -> X) (P : Z -> status -> Prop)
    T EX tidy l ls b R lo hi :
  leaf_level l ls ->
  (forall ev x, loop O ev x = mret x) ->
  (forall n va i w, Inv pm (l :: ls) b R w -> at_entry l ls va i (S n) -> lo <= va -> va + page_size l <= hi ->
     P va (obs pm 0 (l :: ls) (w_mem w) b (va mod span (l :: ls))) -> fill_round loop acc T l b n va i w) ->
  forall n va i w,
  Inv pm (l :: ls) b R w -> at_entry l ls va i n -> lo <= va -> va + Z.of_nat n * page_size l <= hi ->
  (forall a, va <= a < va + Z.of_nat n * page_size l -> P a (obs pm 0 (l :: ls) (w_mem w) b (a mod span (l :: ls)))) ->
  exists w', loop n (pv pm (b + i * PTE_SIZE)) (acc va) w = Done (acc (va + Z.of_nat n * page_size l), w')
    /\ walked_pages T EX tidy 0 (l :: ls) b va (va + Z.of_nat n * page_size l) R w (Ok tt) w' tt
         (va + Z.of_nat n * page_size l).
Proof.
  intros Hll H0 Hround. pose proof Hll as [Hd Hwf Hsz]. destruct (levels_wf_cons _ _ Hwf) as [Hl _].
  pose proof (page_size_pos l Hl) as Hp. assert (Hsp : 0 < span (l :: ls)) by by apply span_pos.
  induction n as [| n IH]; intros va i w HI Hae Hlo Hhi HP.
  { exists w. rewrite Z.mul_0_l, Z.add_0_r, H0. split; [done |]. by split; try done; try lia. }
  destruct (Hround n va i w HI Hae Hlo ltac:(lia) (HP va ltac:(lia))) as (y & Ht & Hy & Hty & Hly & HT & Eloop).
  pose proof Hae as [Hi0 Hroom Hal Hidx]. specialize (Hidx ltac:(lia)).
  destruct (write_page pm Hpo T EX tidy (E := AllocError) l ls b R w va y) as [_ Hw1]; rewrite <- ?Hidx; auto.
  rewrite <- Hidx in Hw1. set (w1 := set_mem _ w) in *.
  assert (Hlen : va + Z.of_nat (S n) * page_size l - va <= span (l :: ls)) by (cbn [span]; nia).
  pose proof (walked_later _ _ _ _ _ _ _ _ _ _ _ _ _ _ _ Hsp Hlen Hw1) as Hlater.
  destruct (IH (va + page_size l) (i + 1) w1) as (w' & E' & Hw'); try lia.
  { by destruct Hw1. } { by apply at_entry_next. }
  { intros a Ha. rewrite Hlater by lia. apply HP. lia. }
  exists w'. split; [| eapply walked_page_seq; eauto; lia].
  rewrite Eloop, E'. do 2 f_equal. f_equal. lia.
Qed.

(** What a [fill] knows when it is called. *)
Lemma fill_setup l ls b R (w : world F) first count va :
  drop DEPTH LEVELS = l :: ls -> Inv pm (l :: ls) b R w ->
  first = va mod span (l :: ls) / page_size l -> va mod page_size l = 0 ->
  0 < count -> first + count <= entries l ->
  leaf_level l ls /\ 8 <= page_size l /\ at_entry l ls va first (Z.to_nat count)
  /\ entry_address (MkTable b DEPTH) first pm = Done (pv pm (b + first * PTE_SIZE)).
Proof.
  intros Hd HI Hfirst Hal Hcount Hroom. pose proof (leaf_level_of l ls Hd) as Hll.
  pose proof Hll as [_ Hwf Hsz]. destruct (levels_wf_cons _ _ Hwf) as [Hl _].
  assert (Hsp : 0 < span (l :: ls)) by by apply span_pos.
  pose proof (index_range l ls _ Hl (Z.mod_pos_bound va _ Hsp)) as Hi. rewrite <- Hfirst in Hi.
  destruct (Inv_ent pm Hpo l ls b R w 0 first Hwf HI Hi) as (_ & _ & Hf).
  destruct (index_in_frame_wf l ls first Hwf Hi).
  split_and!; [done | by apply page_size_pos | split; auto; lia | by apply entry_address_pv].
Qed.

(** ** MapVisitor *)

Section map.
Context (s0 e phys0 : Z) (attrs : MemoryAttributes) (flush0 : Flush).
Context (Hphys : 0 <= phys0 /\ phys0 + (e - s0) <= PHYS_LIMIT)
  (Hpa : phys0 mod BYTES s = 0) (Hsa : s0 mod BYTES s = 0)
  (Hgran : forall p, p mod BYTES s = 0 -> p mod GRANULE_SIZE = 0)
  (Hacc : attributes_accessible attrs = true).

Definition map_VI (va : Z) (v : MapVisitor) : Prop :=
  mv_phys v = phys0 + (va - s0) /\ mv_attributes v = attrs /\ flush_tracks flush0 s0 va (mv_flush v).

Definition map_P (va : Z) (st : status) : Prop := st = Vac /\ s0 <= va < e.

(** The address is translated to its place in the physical block, with the
    requested attributes. *)
Definition map_T (va : Z) (_ st : status) : Prop :=
  exists x l, st = LeafAt x l /\ page_size l = BYTES s
    /\ pte_address x + va mod page_size l = phys0 + (va - s0)
    /\ pte_attributes x = Done (normalize_attributes attrs).

Lemma map_round l ls b R n va i (w : world F) :
  leaf_level l ls -> Inv pm (l :: ls) b R w -> at_entry l ls va i (S n) ->
  s0 <= va -> va + page_size l <= e ->
  map_P va (obs pm 0 (l :: ls) (w_mem w) b (va mod span (l :: ls))) ->
  fill_round (fun n ev phys => map_fill_loop s n ev phys attrs) (fun va => phys0 + (va - s0)) map_T l b n va i w.
Proof.
  intros [Hd Hwf Hsz] HI Hae Hs0 He [Hvac _]. destruct (levels_wf_cons _ _ Hwf) as [Hl _].
  pose proof (page_size_pos l Hl) as Hp. assert (Hsp : 0 < span (l :: ls)) by by apply span_pos.
  destruct (fill_read l ls b R w va i n Hwf HI Hae) as (Hf & Hi0 & Hig & Hidx & Hrd).
  pose proof Hae as [_ Hroom Hal _]. pose proof phys_limit_usize.
  destruct (obs_Vac_entry pm Hpo l ls b w R _ Hwf HI (Z.mod_pos_bound va _ Hsp) Hvac) as [Ht Hv].
  rewrite <- Hidx in *.
  assert (Hpal : (phys0 + (va - s0)) mod BYTES s = 0)
    by (apply aligned_shift; [apply BYTES_pos | done | by rewrite <- Hsz | done]).
  destruct (new_leaf_spec (phys0 + (va - s0)) attrs) as (x & Ex & Hx & Hlx & Hax & Hatx); [lia | auto | done |].
  exists x. split_and!; try done.
  - by apply pte_leaf_not_table.
  - intros _. rewrite Hax, Hsz. eauto.
  - intros a Ha. exists x, l. unfold entry_status. rewrite Hlx. split_and!; try done.
    rewrite Hax, (mod_add_small _ va a) by lia. lia.
  - cbn [map_fill_loop]. step_by Hrd. step_by (assert_true _ Hv). step_by Ex.
    step_by (arch_write_pv pm Hpo w b i x (proj1 HI) Hf Hi0 Hig). step_by (next_entry b i Hf Hi0 Hig).
    unfold addr_add. step_by (u_add_Done (phys0 + (va - s0)) (BYTES s) ltac:(unfold is_usize; lia)).
    f_equal. lia.
Qed.

Lemma map_fill_spec l ls b first count va :
  drop DEPTH LEVELS = l :: ls -> 0 <= va ->
  first = va mod span (l :: ls) / page_size l -> va mod page_size l = 0 ->
  0 < count -> first + count <= entries l -> va + count * page_size l < USIZE_MOD ->
  walk_spec pm map_VI map_P map_T out_of_frames False 0 (l :: ls) b va (va + count * page_size l)
    (map_fill s (MkTable b DEPTH) first count va pm).
Proof.
  intros Hd Hva Hfirst Hal Hcount Hroom Hov R w v HI (Hph & Hat & Hfl) HP.
  destruct (fill_setup l ls b R w first count va Hd HI Hfirst Hal Hcount Hroom) as (Hll & Hp & Hae & Hea).
  destruct (HP va ltac:(nia)) as [_ Hlo]. destruct (HP (va + count * page_size l - 1) ltac:(nia)) as [_ Hhi].
  destruct (fill_loop_spec (fun n ev phys => map_fill_loop s n ev phys attrs) (fun va => phys0 + (va - s0))
    map_P map_T out_of_frames False l ls b R s0 e Hll (fun _ _ => eq_refl)
    (fun n va i w => map_round l ls b R n va i w Hll) (Z.to_nat count) va first w HI Hae) as (w' & E & Hw);
    rewrite ?Z2Nat.id by lia; [lia | lia | done |].
  rewrite Z2Nat.id in E, Hw by lia. rewrite <- Hph, <- Hat in E. rewrite (ll_size _ _ Hll) in Hov.
  destruct (invalidate_run_spec s flush0 s0 va count (mv_flush v) Hfl Hva ltac:(lia) Hov) as (f' & Ef & Hfl').
  rewrite <- (ll_size _ _ Hll) in Hfl'.
  unfold map_fill, table_level. cbn [t_depth]. step_by (level_at_drop _ _ _ Hd).
  step_by (assert_leb (first + count) (entries l) Hroom). step_by Hea. step_by (get_self_Done w v).
  step_by (on_world_Done _ w v _ _ E). step_by Ef. step_by (put_self_Done w' v _).
  eexists (Ok tt), w', _, _. split; [reflexivity |]. eapply walked_visitor; [done |]. by split_and!.
Qed.

Lemma map_descend_spec k d l l' ls b i R (w : world F) v va :
  drop d LEVELS = l :: l' :: ls ->
  Inv pm (l :: l' :: ls) b R w -> map_VI va v -> i = va mod span (l :: l' :: ls) / page_size l ->
  map_P va (obs pm (S k) (l :: l' :: ls) (w_mem w) b (va mod span (l :: l' :: ls))) ->
  exists r w' v', map_descend (MkTable b d) i pm (w, v) = Done (r, (w', v'))
    /\ Inv pm (l :: l' :: ls) b R w' /\ keeps pm R w w' /\ map_VI va v'
    /\ (forall o', 0 <= o' < span (l :: l' :: ls) ->
         obs pm (S k) (l :: l' :: ls) (w_mem w') b o' = obs pm (S k) (l :: l' :: ls) (w_mem w) b o')
    /\ (False -> forall o', 0 <= o' < span (l :: l' :: ls) ->
         pruned pm (S k) (l :: l' :: ls) (w_mem w) b o' -> pruned pm (S k) (l :: l' :: ls) (w_mem w') b o')
    /\ match r with
       | Ok (Some child) => is_table (ent pm (w_mem w') b i) = true
                            /\ pte_address (ent pm (w_mem w') b i) = child
       | Ok None => False
       | Err _ => out_of_frames w'
       end.
Proof.
  intros Hd HI HV Hi [Hvac _]. pose proof (levels_wf_drop d) as Hwf. rewrite Hd in Hwf.
  destruct (levels_wf_cons _ _ Hwf) as [Hl _]. assert (Hsp : 0 < span (l :: l' :: ls)) by by apply span_pos.
  pose proof (index_range l (l' :: ls) _ Hl (Z.mod_pos_bound va _ Hsp)) as Hir. rewrite <- Hi in Hir.
  destruct (Inv_ent pm Hpo l _ b R w d i Hwf HI Hir) as (Hget & Hu & Hf).
  unfold map_descend. step_by (on_world_Done _ w v _ _ Hget).
  destruct (is_table (ent pm (w_mem w) b i)) eqn:Ht.
  { exists (Ok (Some (pte_address (ent pm (w_mem w) b i)))), w, v. by split_and!. }
  rewrite obs_entry in Hvac by (by rewrite <- Hi). rewrite <- Hi in Hvac. unfold entry_status in Hvac.
  destruct (is_leaf (ent pm (w_mem w) b i)) eqn:Hlf; [done |].
  assert (Hv : is_vacant (ent pm (w_mem w) b i) = true) by (rewrite pte_vacant_xor, Ht, Hlf by done; done).
  step_by (assert_true _ Hv). pose proof HI as (Hm & S & HS & HSR & Hal).
  destruct (allocate_zeroed_table pm Hpo w _ Hm Hal) as ([p | []] & w1 & Ea & Hh & Hr); last first.
  { destruct Hr as (Hmem & HA & HEX).
    erewrite try_bind_Err by (apply on_world_Done; exact Ea). eexists _, w1, v. split; [reflexivity |].
    split; [split; [by rewrite Hmem |]; exists S; split_and!; [by rewrite Hmem | done | by apply HA] |].
    split; [split_and!; [done | by rewrite Hmem | intros; by rewrite Hmem] |].
    split_and!; try done. intros. by rewrite Hmem. }
  destruct Hr as (HA & Hfp & Hm1 & Hz & Hsame). step_by (on_world_Done _ w v _ _ Ea).
  destruct (new_table_spec p) as (x & Ex & Hx & Htx & Hpx).
  { destruct Hfp as (_ & ? & ?), Hpo as [[] ? ? ? ?], granule_8 as (? & _). lia. } { apply Hfp. }
  step_by Ex. step_by (on_world_Done _ w1 v _ _ (table_set_spec pm Hpo w1 d l _ b i x Hd Hm1 Hf Hir)).
  destruct (Inv_new_table pm l l' ls b R w w1 i x p Hwf HI Hir Ht Hlf HA Hh Hm1 Hfp Hz Hsame Hx Htx Hpx)
    as (HI' & HK & He & _ & HO).
  step_by (get_self_Done _ v). step_by (put_self_Done _ v _).
  eexists _, _, _. split; [reflexivity |]. split_and!; try done.
  - by destruct HV as (? & ? & _).
  - intros o' Ho'. by apply HO.
  - by rewrite He.
  - by rewrite He.
Qed.

Lemma map_visitor_spec :
  VisitorSpec pm map_VI map_P map_T out_of_frames False (s := s) (Visitor0 := map_visitor s).
Proof.
  split.
  - intros. by apply map_fill_spec.
  - intros k d l l' ls b i R w v va _. by apply map_descend_spec.
  - intros k d l l' ls b i child R w v va Hd HI HV Hi Ht Hc. exists w, v. by split_and!.
Qed.

End map.

(** ** Visitors over mapped ranges *)

(** The address is mapped with a leaf of size [s]. *)
Definition mapped_P (s0 e va : Z) (st : status) : Prop :=
  (exists x l, st = LeafAt x l /\ page_size l = BYTES s) /\ s0 <= va < e.

Definition never (w : world F) : Prop := False.

(** The default [descend] goes down to the leaves of a mapped range. *)
Lemma default_descend_spec {V} (VI : Z -> V -> Prop) (tidy : Prop) s0 e k d l l' ls b i R (w : world F) v va :
  (d < DEPTH)%nat -> drop d LEVELS = l :: l' :: ls ->
  Inv pm (l :: l' :: ls) b R w -> VI va v -> i = va mod span (l :: l' :: ls) / page_size l ->
  mapped_P s0 e va (obs pm (S k) (l :: l' :: ls) (w_mem w) b (va mod span (l :: l' :: ls))) ->
  exists (r : result Infallible (option PhysicalAddress)) w' v',
    default_descend (MkTable b d) i pm (w, v) = Done (r, (w', v'))
    /\ Inv pm (l :: l' :: ls) b R w' /\ keeps pm R w w' /\ VI va v'
    /\ (forall o', 0 <= o' < span (l :: l' :: ls) ->
         obs pm (S k) (l :: l' :: ls) (w_mem w') b o' = obs pm (S k) (l :: l' :: ls) (w_mem w) b o')
    /\ (tidy -> forall o', 0 <= o' < span (l :: l' :: ls) ->
         pruned pm (S k) (l :: l' :: ls) (w_mem w) b o' -> pruned pm (S k) (l :: l' :: ls) (w_mem w') b o')
    /\ match r with
       | Ok (Some child) => is_table (ent pm (w_mem w') b i) = true
                            /\ pte_address (ent pm (w_mem w') b i) = child
       | Ok None => False
       | Err _ => never w'
       end.
Proof.
  intros Hdd Hd HI HV Hi [(x & l0 & Hobs & Hsz) _]. pose proof (levels_wf_drop d) as Hwf. rewrite Hd in Hwf.
  destruct (levels_wf_cons _ _ Hwf) as [Hl _]. assert (Hsp : 0 < span (l :: l' :: ls)) by by apply span_pos.
  pose proof (index_range l (l' :: ls) _ Hl (Z.mod_pos_bound va _ Hsp)) as Hir. rewrite <- Hi in Hir.
  destruct (Inv_ent pm Hpo l _ b R w d i Hwf HI Hir) as (Hget & Hu & Hf).
  assert (Ht : is_table (ent pm (w_mem w) b i) = true).
  { destruct (is_table _) eqn:Ht; [done |]. rewrite obs_entry in Hobs by (by rewrite <- Hi).
    unfold entry_status in Hobs. destruct (is_leaf _); [| done]. simplify_eq.
    by destruct (page_size_above s d l0 (l' :: ls) Hdd Hd). }
  assert (Hnv : negb (is_vacant (ent pm (w_mem w) b i)) = true).
  { rewrite pte_vacant_xor, Ht by done. by rewrite orb_true_r. }
  unfold default_descend. step_by (on_world_Done _ w v _ _ Hget). step_by (assert_true _ Hnv). rewrite Ht.
  eexists _, w, v. split; [reflexivity |]. by split_and!.
Qed.

(** Reading the leaf a fill loop is at. *)
Lemma mapped_read l ls b R n va i (w : world F) s0 e :
  leaf_level l ls -> Inv pm (l :: ls) b R w -> at_entry l ls va i (S n) ->
  mapped_P s0 e va (obs pm 0 (l :: ls) (w_mem w) b (va mod span (l :: ls))) ->
  let x := ent pm (w_mem w) b i in
  frame_ok fa_memory b /\ 0 <= i /\ i * PTE_SIZE < GRANULE_SIZE
  /\ arch_read (pv pm (b + i * PTE_SIZE)) w = Done (x, w)
  /\ is_leaf x = true /\ is_table x = false /\ is_usize x /\ leaf_ok l x.
Proof.
  intros [Hd Hwf Hsz] HI Hae [(x & l0 & Hobs & _) _].
  assert (Hsp : 0 < span (l :: ls)) by by apply span_pos.
  destruct (fill_read l ls b R w va i n Hwf HI Hae) as (Hf & Hi0 & Hig & Hidx & Hrd).
  destruct (obs_LeafAt_entry pm Hpo l ls b w R _ x l0 Hwf HI (Z.mod_pos_bound va _ Hsp) Hobs)
    as (Hx & _ & Hlf & Ht & Hu & Hok).
  rewrite <- Hidx in Hx. rewrite Hx in *. by split_and!.
Qed.

(** *** RemapVisitor *)

Section remap.
Context (s0 e phys0 : Z) (flush0 : Flush).
Context (Hphys : 0 <= phys0 /\ phys0 + (e - s0) <= PHYS_LIMIT)
  (Hpa : phys0 mod BYTES s = 0) (Hsa : s0 mod BYTES s = 0)
  (Hgran : forall p, p mod BYTES s = 0 -> p mod GRANULE_SIZE = 0).

Definition remap_VI (va : Z) (v : RemapVisitor) : Prop :=
  rv_phys v = phys0 + (va - s0) /\ flush_tracks flush0 s0 va (rv_flush v).

(** The address keeps its attributes and moves to the new physical block. *)
Definition remap_T (va : Z) (st st' : status) : Prop :=
  exists x x' l a, st = LeafAt x l /\ st' = LeafAt x' l
    /\ pte_address x' + va mod page_size l = phys0 + (va - s0)
    /\ pte_attributes x = Done a /\ pte_attributes x' = Done a.

Lemma remap_round l ls b R n va i (w : world F) :
  leaf_level l ls -> Inv pm (l :: ls) b R w -> at_entry l ls va i (S n) ->
  s0 <= va -> va + page_size l <= e ->
  mapped_P s0 e va (obs pm 0 (l :: ls) (w_mem w) b (va mod span (l :: ls))) ->
  fill_round (remap_fill_loop s) (fun va => phys0 + (va - s0)) remap_T l b n va i w.
Proof.
  intros Hll HI Hae Hs0 He HP. pose proof Hll as [Hd Hwf Hsz]. destruct (levels_wf_cons _ _ Hwf) as [Hl _].
  pose proof (page_size_pos l Hl) as Hp. pose proof Hae as [_ _ Hal _]. pose proof phys_limit_usize.
  destruct (mapped_read l ls b R n va i w s0 e Hll HI Hae HP) as (Hf & Hi0 & Hig & Hrd & Hlf & Ht & Hu & Hok).
  destruct (Hok Hlf) as (_ & a0 & Ha0). destruct (leaf_attributes _ a0 Hu Hlf Ha0) as [Hacc Hnorm].
  assert (Hpal : (phys0 + (va - s0)) mod BYTES s = 0)
    by (apply aligned_shift; [apply BYTES_pos | done | by rewrite <- Hsz | done]).
  destruct (new_leaf_spec (phys0 + (va - s0)) a0) as (x & Ex & Hx & Hlx & Hax & Hatx); [lia | auto | done |].
  rewrite Hnorm in Hatx. exists x. split_and!; try done.
  - by apply pte_leaf_not_table.
  - intros _. rewrite Hax, Hsz. eauto.
  - intros a Ha. exists (ent pm (w_mem w) b i), x, l, a0. unfold entry_status. rewrite Hlx, Hlf.
    split_and!; try done. rewrite Hax, (mod_add_small _ va a) by lia. lia.
  - cbn [remap_fill_loop]. step_by Hrd. step_by (assert_true _ Hlf). step_by Ha0. step_by Ex.
    step_by (arch_write_pv pm Hpo w b i x (proj1 HI) Hf Hi0 Hig). step_by (next_entry b i Hf Hi0 Hig).
    unfold addr_add. step_by (u_add_Done (phys0 + (va - s0)) (BYTES s) ltac:(unfold is_usize; lia)).
    f_equal. lia.
Qed.

Lemma remap_fill_spec l ls b first count va :
  drop DEPTH LEVELS = l :: ls -> 0 <= va ->
  first = va mod span (l :: ls) / page_size l -> va mod page_size l = 0 ->
  0 < count -> first + count <= entries l -> va + count * page_size l < USIZE_MOD ->
  walk_spec pm remap_VI (mapped_P s0 e) remap_T never False 0 (l :: ls) b va (va + count * page_size l)
    (remap_fill s (MkTable b DEPTH) first count va pm).
Proof.
  intros Hd Hva Hfirst Hal Hcount Hroom Hov R w v HI (Hph & Hfl) HP.
  destruct (fill_setup l ls b R w first count va Hd HI Hfirst Hal Hcount Hroom) as (Hll & Hp & Hae & Hea).
  destruct (HP va ltac:(nia)) as [_ Hlo]. destruct (HP (va + count * page_size l - 1) ltac:(nia)) as [_ Hhi].
  destruct (fill_loop_spec (remap_fill_loop s) (fun va => phys0 + (va - s0))
    (mapped_P s0 e) remap_T never False l ls b R s0 e Hll (fun _ _ => eq_refl)
    (fun n va i w => remap_round l ls b R n va i w Hll) (Z.to_nat count) va first w HI Hae) as (w' & E & Hw);
    rewrite ?Z2Nat.id by lia; [lia | lia | done |].
  rewrite Z2Nat.id in E, Hw by lia. rewrite <- Hph in E. rewrite (ll_size _ _ Hll) in Hov.
  destruct (invalidate_run_spec s flush0 s0 va count (rv_flush v) Hfl Hva ltac:(lia) Hov) as (f' & Ef & Hfl').
  rewrite <- (ll_size _ _ Hll) in Hfl'.
  unfold remap_fill. step_by Hea. step_by (get_self_Done w v).
  step_by (on_world_Done _ w v _ _ E). step_by Ef. step_by (put_self_Done w' v _).
  eexists (Ok tt), w', _, _. split; [reflexivity |]. eapply walked_visitor; [done |]. by split_and!.
Qed.

Lemma remap_visitor_spec :
  VisitorSpec pm remap_VI (mapped_P s0 e) remap_T never False (s := s) (Visitor0 := remap_visitor s).
Proof.
  split.
  - intros. by apply remap_fill_spec.
  - intros. by eapply default_descend_spec.
  - intros k d l l' ls b i child R w v va Hd HI HV Hi Ht Hc. exists w, v. by split_and!.
Qed.

End remap.

(** *** SetAttributesVisitor *)

Section set_attributes.
Context (s0 e : Z) (attrs : MemoryAttributes) (flush0 : Flush).
Context (Hgran : forall p, p mod BYTES s = 0 -> p mod GRANULE_SIZE = 0)
  (Hacc : attributes_accessible attrs = true).

Definition set_attributes_VI (va : Z) (v : SetAttributesVisitor) : Prop :=
  sv_attributes v = attrs /\ flush_tracks flush0 s0 va (sv_flush v).

(** The address stays where it is and gets the new attributes. *)
Definition set_attributes_T (va : Z) (st st' : status) : Prop :=
  exists x x' l, st = LeafAt x l /\ st' = LeafAt x' l /\ pte_address x' = pte_address x
    /\ pte_attributes x' = Done (normalize_attributes attrs).

Lemma set_attributes_round l ls b R n va i (w : world F) :
  leaf_level l ls -> Inv pm (l :: ls) b R w -> at_entry l ls va i (S n) ->
  s0 <= va -> va + page_size l <= e ->
  mapped_P s0 e va (obs pm 0 (l :: ls) (w_mem w) b (va mod span (l :: ls))) ->
  fill_round (fun n ev (_ : unit) => set_attributes_fill_loop n ev attrs) (fun _ => tt)
    set_attributes_T l b n va i w.
Proof.
  intros Hll HI Hae Hs0 He HP. pose proof Hll as [_ _ Hsz].
  destruct (mapped_read l ls b R n va i w s0 e Hll HI Hae HP) as (Hf & Hi0 & Hig & Hrd & Hlf & Ht & Hu & Hok).
  destruct (Hok Hlf) as (Hpal & _). destruct (pte_address_range _ Hu) as [Hrange Hgal].
  destruct (new_leaf_spec _ attrs Hrange Hgal Hacc) as (x & Ex & Hx & Hlx & Hax & Hatx).
  exists x. split_and!; try done.
  - by apply pte_leaf_not_table.
  - intros _. rewrite Hax. eauto.
  - intros a Ha. exists (ent pm (w_mem w) b i), x, l. unfold entry_status. by rewrite Hlx, Hlf.
  - cbn [set_attributes_fill_loop]. step_by Hrd. step_by (assert_true _ Hlf). step_by Ex.
    step_by (arch_write_pv pm Hpo w b i x (proj1 HI) Hf Hi0 Hig). by step_by (next_entry b i Hf Hi0 Hig).
Qed.

Lemma set_attributes_fill_spec l ls b first count va :
  drop DEPTH LEVELS = l :: ls -> 0 <= va ->
  first = va mod span (l :: ls) / page_size l -> va mod page_size l = 0 ->
  0 < count -> first + count <= entries l -> va + count * page_size l < USIZE_MOD ->
  walk_spec pm set_attributes_VI (mapped_P s0 e) set_attributes_T never False 0 (l :: ls) b va
    (va + count * page_size l) (set_attributes_fill s (MkTable b DEPTH) first count va pm).
Proof.
  intros Hd Hva Hfirst Hal Hcount Hroom Hov R w v HI (Hat & Hfl) HP.
  destruct (fill_setup l ls b R w first count va Hd HI Hfirst Hal Hcount Hroom) as (Hll & Hp & Hae & Hea).
  destruct (HP va ltac:(nia)) as [_ Hlo]. destruct (HP (va + count * page_size l - 1) ltac:(nia)) as [_ Hhi].
  destruct (fill_loop_spec (fun n ev (_ : unit) => set_attributes_fill_loop n ev attrs) (fun _ => tt)
    (mapped_P s0 e) set_attributes_T never False l ls b R s0 e Hll ltac:(by intros ? [])
    (fun n va i w => set_attributes_round l ls b R n va i w Hll) (Z.to_nat count) va first w HI Hae)
    as (w' & E & Hw); rewrite ?Z2Nat.id by lia; [lia | lia | done |].
  rewrite Z2Nat.id in Hw by lia. rewrite <- Hat in E. rewrite (ll_size _ _ Hll) in Hov.
  destruct (invalidate_run_spec s flush0 s0 va count (sv_flush v) Hfl Hva ltac:(lia) Hov) as (f' & Ef & Hfl').
  rewrite <- (ll_size _ _ Hll) in Hfl'.
  unfold set_attributes_fill. step_by Hea. step_by (get_self_Done w v).
  step_by (on_world_Done _ w v _ _ E). step_by Ef. step_by (put_self_Done w' v _).
  eexists (Ok tt), w', _, _. split; [reflexivity |]. eapply walked_visitor; [done |]. by split_and!.
Qed.

Lemma set_attributes_visitor_spec :
  VisitorSpec pm set_attributes_VI (mapped_P s0 e) set_attributes_T never False (s := s)
    (Visitor0 := set_attributes_visitor s).
Proof.
  split.
  - intros. by apply set_attributes_fill_spec.
  - intros. by eapply default_descend_spec.
  - intros k d l l' ls b i child R w v va Hd HI HV Hi Ht Hc. exists w, v. by split_and!.
Qed.

End set_attributes.

(** *** UnmapVisitor *)

Section unmap.
Context (s0 e : Z) (flush0 : Flush) {fdl : FrameDeallocatorLaws GRANULE_SIZE F}.

Definition unmap_VI (va : Z) (v : UnmapVisitor) : Prop := flush_tracks flush0 s0 va (uv_flush v).

Definition unmap_T (va : Z) (_ st' : status) : Prop := st' = Vac.

Lemma VACANT_entry :
  is_usize VACANT /\ is_table VACANT = false /\ is_leaf VACANT = false.
Proof.
  assert (Hv0 : is_usize VACANT) by (rewrite vacant_zero; unfold is_usize; lia).
  split; [done |]. apply vacant_not_table; [done |]. rewrite vacant_zero. apply vacant_is_vacant.
Qed.

Lemma unmap_round l ls b R n va i (w : world F) :
  leaf_level l ls -> Inv pm (l :: ls) b R w -> at_entry l ls va i (S n) ->
  s0 <= va -> va + page_size l <= e ->
  mapped_P s0 e va (obs pm 0 (l :: ls) (w_mem w) b (va mod span (l :: ls))) ->
  fill_round (fun n ev (_ : unit) => unmap_fill_loop n ev) (fun _ => tt) unmap_T l b n va i w.
Proof.
  intros Hll HI Hae Hs0 He HP. destruct VACANT_entry as (Hvu & Hvt & Hvl).
  destruct (mapped_read l ls b R n va i w s0 e Hll HI Hae HP) as (Hf & Hi0 & Hig & Hrd & Hlf & Ht & Hu & Hok).
  exists VACANT. split_and!; try done.
  - unfold leaf_ok. by rewrite Hvl.
  - intros a Ha. unfold unmap_T, entry_status. by rewrite Hvl.
  - cbn [unmap_fill_loop]. step_by Hrd. step_by (assert_true _ Hlf).
    step_by (arch_write_pv pm Hpo w b i VACANT (proj1 HI) Hf Hi0 Hig). by step_by (next_entry b i Hf Hi0 Hig).
Qed.

Lemma unmap_fill_spec l ls b first count va :
  drop DEPTH LEVELS = l :: ls -> 0 <= va ->
  first = va mod span (l :: ls) / page_size l -> va mod page_size l = 0 ->
  0 < count -> first + count <= entries l -> va + count * page_size l < USIZE_MOD ->
  walk_spec pm unmap_VI (mapped_P s0 e) unmap_T never True 0 (l :: ls) b va (va + count * page_size l)
    (unmap_fill s (MkTable b DEPTH) first count va pm).
Proof.
  intros Hd Hva Hfirst Hal Hcount Hroom Hov R w v HI Hfl HP.
  destruct (fill_setup l ls b R w first count va Hd HI Hfirst Hal Hcount Hroom) as (Hll & Hp & Hae & Hea).
  destruct (HP va ltac:(nia)) as [_ Hlo]. destruct (HP (va + count * page_size l - 1) ltac:(nia)) as [_ Hhi].
  destruct (fill_loop_spec (fun n ev (_ : unit) => unmap_fill_loop n ev) (fun _ => tt)
    (mapped_P s0 e) unmap_T never True l ls b R s0 e Hll ltac:(by intros ? [])
    (fun n va i w => unmap_round l ls b R n va i w Hll) (Z.to_nat count) va first w HI Hae)
    as (w' & E & Hw); rewrite ?Z2Nat.id by lia; [lia | lia | done |].
  rewrite Z2Nat.id in Hw by lia. rewrite (ll_size _ _ Hll) in Hov.
  destruct (invalidate_run_spec s flush0 s0 va count (uv_flush v) Hfl Hva ltac:(lia) Hov) as (f' & Ef & Hfl').
  rewrite <- (ll_size _ _ Hll) in Hfl'.
  unfold unmap_fill. step_by Hea. step_by (get_self_Done w v).
  step_by (on_world_Done _ w v _ _ E). step_by Ef. step_by (put_self_Done w' v _).
  eexists (Ok tt), w', _, _. split; [reflexivity |]. eapply walked_visitor; [done |]. exact Hfl'.
Qed.

Lemma unmap_ascend_spec k d l l' ls b i child R (w : world F) v va :
  drop d LEVELS = l :: l' :: ls ->
  Inv pm (l :: l' :: ls) b R w -> unmap_VI va v -> 0 <= i < entries l ->
  is_table (ent pm (w_mem w) b i) = true -> pte_address (ent pm (w_mem w) b i) = child ->
  exists w' v', unmap_ascend (MkTable b d) i child (d + 1) pm (w, v) = Done (Ok tt, (w', v'))
    /\ Inv pm (l :: l' :: ls) b R w' /\ keeps pm R w w' /\ unmap_VI va v'
    /\ (forall o', 0 <= o' < span (l :: l' :: ls) ->
         obs pm (S k) (l :: l' :: ls) (w_mem w') b o' = obs pm (S k) (l :: l' :: ls) (w_mem w) b o')
    /\ (True -> forall o', 0 <= o' < span (l :: l' :: ls) ->
         (if decide (o' / page_size l = i) then pruned pm k (l' :: ls) (w_mem w) child (o' mod page_size l)
          else pruned pm (S k) (l :: l' :: ls) (w_mem w) b o') ->
         pruned pm (S k) (l :: l' :: ls) (w_mem w') b o').
Proof.
  intros Hd HI HV Hi Ht Hc. pose proof (levels_wf_drop d) as Hwf. rewrite Hd in Hwf.
  pose proof (drop_next _ _ _ Hd) as Hd'. destruct (levels_wf_cons _ _ Hwf) as [_ Hwf'].
  destruct (levels_wf_cons _ _ Hwf') as [Hl' _]. pose proof (entries_pos l' Hl') as He.
  destruct (Inv_ent pm Hpo l _ b R w d i Hwf HI Hi) as (_ & _ & Hf).
  destruct (Inv_open pm l _ b i R w Hwf HI Hi Ht) as (Rc & _ & HIc & _). rewrite Hc in HIc.
  destruct (Inv_ent pm Hpo l' ls child Rc w 0 0 Hwf' HIc ltac:(lia)) as (_ & _ & Hfc).
  pose proof (wf_fit _ Hwf') as Hfit. inversion_clear Hfit as [| ?? Hfit' _].
  destruct (all_vacant_spec pm Hpo w (d + 1) child (Z.to_nat (entries l')) 0 (proj1 HI) Hfc) as (r & Er & Hr);
    [lia | rewrite Z2Nat.id by lia; lia |]. rewrite Z2Nat.id in Hr by lia.
  unfold unmap_ascend, table_is_empty, table_level. cbn [t_depth].
  assert (Ee : (level ← lift (level_at (d + 1)); all_vacant (Z.to_nat (entries level)) 0 (MkTable child (d + 1)) pm) w
    = Done (r, w)) by (step_by (level_at_drop _ _ _ Hd'); exact Er).
  step_by (on_world_Done _ w v _ _ Ee). destruct r.
  - destruct (Inv_drop_table pm Hpo l l' ls b R w i Hwf HI Hi Ht) as (f' & Ef & HI' & HK & HO & HQ).
    { rewrite Hc. intros j Hj. apply Hr; [done | lia]. }
    rewrite Hc in Ef. step_by (on_world_Done _ w v _ _ (table_set_spec pm Hpo w d l _ b i VACANT Hd (proj1 HI) Hf Hi)).
    erewrite M_bind_Done by (apply on_world_Done; unfold on_frames; simpl; rewrite Ef; reflexivity).
    cbv beta. step_by (get_self_Done _ v). step_by (put_self_Done _ v _).
    eexists _, _. split; [reflexivity |]. split_and!; [done | done | apply flush_tracks_all | intros; by apply HO |].
    intros _ o' Ho' Hp. apply HQ; [done |]. case_decide; auto.
  - exists w, v. split_and!; try done. intros _ o' Ho' Hp. case_decide as Ho; [| done]. cbn [pruned]. rewrite Ho, Ht, Hc.
    split; [| done]. destruct (all_or_one (fun j => is_vacant (ent pm (w_mem w) child j)) (Z.to_nat (entries l'))) as [Hall | (j & Hj & Hvj)].
    + assert (false = true) by (apply Hr; intros j Hj; apply Hall; lia). done.
    + exists j. split; [lia | done].
Qed.

Lemma unmap_visitor_spec :
  VisitorSpec pm unmap_VI (mapped_P s0 e) unmap_T never True (s := s) (Visitor0 := unmap_visitor s).
Proof.
  split.
  - intros. by apply unmap_fill_spec.
  - intros. by eapply default_descend_spec.
  - intros. by apply unmap_ascend_spec.
Qed.

End unmap.

End visitors.
