(* ===== verification/AddressSpaceSpec.v ===== *)
(** * Correctness of the address space operations

    [translate] is the abstract view of an address space: the function from
    virtual addresses to physical addresses and attributes that its page
    tables in memory stand for.  [lookup] computes it, and each operation
    changes it exactly on the range it is given. *)

From stdpp Require Import base numbers list gmap sets.
From Stdlib Require Import ZArith Lia.
From S2P Require Import Prelude Address Riscv ArrayVec Arch PhysMap Machine Table Flush.
From S2P Require Import AddressSpace PageTable Walk TableOps Visitors.

Section view.
Context {arch : Arch} {laws : ArchLaws} {F : Type} {fa : FrameAllocator F}
  {fal : FrameAllocatorLaws GRANULE_SIZE F} (pm : PhysMap).

(** The root table's tree is well formed; [R] are the frames in use elsewhere. *)
Definition aspace_ok (a : HardwareAddressSpace) (R : gset Z) (w : world F) : Prop :=
  t_depth (root_page_table a) = 0%nat /\ Inv pm LEVELS (t_base (root_page_table a)) R w.

(** The offset of an address in the root table's span. *)
Definition root_offset (va : Z) : Z := va mod span LEVELS.

Definition leaf_translation (va : Z) (leaf : Z * PageTableLevel) :
    option (PhysicalAddress * MemoryAttributes * PageTableLevel) :=
  let '(x, l) := leaf in
  match pte_attributes x with
  | Done attrs => Some (pte_address x + va mod page_size l, attrs, l)
  | _ => None
  end.

Definition translate (a : HardwareAddressSpace) (w : world F) (va : Z) :
    option (PhysicalAddress * MemoryAttributes * PageTableLevel) :=
  lk pm LEVELS (w_mem w) (t_base (root_page_table a)) (root_offset va) ≫= leaf_translation va.

(** The status of an address with respect to pages of size [s]. *)
Definition status_at (s : PageSize) {maps : MapsAt s} (a : HardwareAddressSpace) (w : world F) (va : Z) : status :=
  obs pm DEPTH LEVELS (w_mem w) (t_base (root_page_table a)) (root_offset va).

(** Nothing is mapped at [va], and no table sits where its leaf of size [s]
    would go. *)
Definition unmapped_at (s : PageSize) {maps : MapsAt s} a w va : Prop := status_at s a w va = Vac.

(** [va] is mapped by a leaf of size [s]. *)
Definition mapped_at (s : PageSize) {maps : MapsAt s} a w va : Prop :=
  exists x l, status_at s a w va = LeafAt x l /\ page_size l = BYTES s.

(** On the way to [va], no table below the root is empty. *)
Definition no_empty_table (a : HardwareAddressSpace) (w : world F) (va : Z) : Prop :=
  pruned pm (length LEVELS) LEVELS (w_mem w) (t_base (root_page_table a)) (root_offset va).

(** Below a vacant entry there are no tables. *)
Lemma pruned_vacant n k ls m b o : obs pm k ls m b o = Vac -> pruned pm k ls m b o -> pruned pm n ls m b o.
Proof.
  revert k ls b o. induction n as [| n IH]; intros k ls b o Hv Hp; [done |].
  destruct ls as [| l [| l' ls]]; [done | done |]. cbn [pruned]. cbn [obs] in Hv.
  destruct (is_table (ent pm m b (o / page_size l))) eqn:Ht; [| done]. destruct k as [| k]; [done |].
  cbn [pruned] in Hp. rewrite Ht in Hp. destruct Hp as [He Hp]. split; [done |]. by eapply IH.
Qed.

Lemma translate_status s {maps : MapsAt s} a w va :
  translate a w va = status_leaf (status_at s a w va) ≫= leaf_translation va.
Proof. unfold translate, status_at. by rewrite obs_lk. Qed.

Context (Hpo : platform_ok pm).

(** The loop of [lookup] from a table of any depth computes [lk]. *)
Lemma lookup_loop_spec ls d b R (w : world F) va :
  drop d LEVELS = ls -> Inv pm ls b R w -> 0 <= va ->
  lookup_loop ls (MkTable b d) va pm w
  = Done (lk pm ls (w_mem w) b (va mod span ls) ≫= leaf_translation va, w).
Proof.
  revert d b R. induction ls as [| l ls IH]; intros d b R Hd HI Hva.
  { by destruct HI as (_ & S & [] & _). }
  pose proof (levels_wf_drop d) as Hwf. rewrite Hd in Hwf. destruct (levels_wf_cons _ _ Hwf) as [Hl Hwf'].
  assert (Hsp : 0 < span (l :: ls)) by by apply span_pos.
  pose proof (index_range l ls _ Hl (Z.mod_pos_bound va _ Hsp)) as Hi.
  destruct (Inv_ent pm Hpo l ls b R w d _ Hwf HI Hi) as (Hget & Hu & Hf).
  cbn [lookup_loop lk]. step_by (pte_index_of_Done l ls va Hl Hva). step_by Hget.
  set (i := va mod span (l :: ls) / page_size l) in *. set (x := ent pm (w_mem w) b i) in *.
  destruct (is_table x) eqn:Et.
  - destruct (Inv_open pm l ls b i R w Hwf HI Hi Et) as (Rc & _ & HIc & _). fold x in HIc.
    assert (Hne : ls <> []) by (intros ->; by destruct HIc as (_ & S & [] & _)).
    cbn [t_depth]. rewrite (lift_Done_bind _ tt).
    + rewrite (IH _ _ _ (drop_next _ _ _ Hd) HIc Hva). by rewrite mod_span_child.
    + apply assert_true, Nat.ltb_lt. assert (Hlen : length (drop d LEVELS) = S (length ls)) by by rewrite Hd.
      rewrite length_drop in Hlen. destruct ls; [done |]. simpl in Hlen. lia.
  - destruct (is_leaf x) eqn:El.
    + assert (Hok : leaf_ok l x).
      { destruct HI as (_ & S & (_ & C & _ & _ & _ & HC) & _). specialize (HC _ Hi). fold x in HC.
        rewrite Et in HC. apply HC. }
      destruct (Hok El) as (Hal & at0 & Hat). step_by Hat. simpl. rewrite Hat.
      unfold mret, M_ret. do 3 f_equal. rewrite page_size_pow2 in * by done. destruct Hl as (? & _).
      rewrite land_low_mask by lia. rewrite (lor_add _ _ (index_shift l)); [done | lia | done |].
      apply Z.mod_pos_bound, pow2_pos. lia.
    + rewrite (lift_Done_bind _ tt); [done |]. apply assert_true.
      rewrite pte_vacant_xor by done. by rewrite Et, El.
Qed.

(** A leaf found by a walk has decodable attributes. *)
Lemma obs_leaf_attributes k ls b R (w : world F) o x l :
  levels_wf ls -> Inv pm ls b R w -> 0 <= o < span ls ->
  obs pm k ls (w_mem w) b o = LeafAt x l -> exists attrs, pte_attributes x = Done attrs.
Proof.
  revert k b R o. induction ls as [| l0 ls IH]; intros k b R o Hwf HI Ho Hobs; [done |].
  destruct (levels_wf_cons _ _ Hwf) as [Hl Hwf']. pose proof (index_range l0 ls o Hl Ho) as Hi.
  cbn [obs] in Hobs. destruct (is_table _) eqn:Et.
  - destruct (Inv_open pm l0 ls b _ R w Hwf HI Hi Et) as (Rc & _ & HIc & _).
    destruct k; [done |]. eapply IH; [done | done | | done].
    destruct ls; [by destruct HIc as (_ & S & [] & _) |]. rewrite <- (page_size_span l0) by done.
    apply Z.mod_pos_bound. pose proof (page_size_pos l0 Hl). lia.
  - destruct (is_leaf _) eqn:El; [| done]. simplify_eq.
    destruct HI as (_ & S & (_ & C & _ & _ & _ & HC) & _). specialize (HC _ Hi). rewrite Et in HC.
    destruct HC as [_ Hok]. by destruct (Hok El).
Qed.

Lemma mapped_attributes s {maps : MapsAt s} a R (w : world F) va x l :
  aspace_ok a R w -> status_at s a w va = LeafAt x l -> exists attrs, pte_attributes x = Done attrs.
Proof.
  intros [_ HI] Hst. eapply (obs_leaf_attributes DEPTH LEVELS); [| exact HI | | exact Hst].
  - apply (levels_wf_drop 0).
  - apply Z.mod_pos_bound. apply span_pos; [apply (levels_wf_drop 0) | apply levels_nonempty].
Qed.

End view.

(** ** Running a visitor from the root *)

Section operations.
Context {arch : Arch} {laws : ArchLaws} {F : Type} {fa : FrameAllocator F}
  {fal : FrameAllocatorLaws GRANULE_SIZE F} (pm : PhysMap) (Hpo : platform_ok pm).
Context (s : PageSize) {maps : MapsAt s}.

(** A canonical address: the form [canonicalize] produces. *)
Definition canonical (va : Z) : Prop := is_usize va /\ sign_extended VIRTUAL_ADDRESS_BITS va.

(** The virtual ranges the operations accept: not empty, aligned to the page
    size, inside one half of the address space. *)
Definition virt_ok (r : range) : Prop :=
  r_start r < r_end r /\ in_half VIRTUAL_ADDRESS_BITS (r_start r) (r_end r)
  /\ r_start r mod BYTES s = 0 /\ r_end r mod BYTES s = 0.

Lemma root_offset_inj va va' :
  canonical va -> canonical va' -> root_offset va = root_offset va' -> va = va'.
Proof.
  intros [Hu Hs] [Hu' Hs'] Heq. destruct address_bits as [Hb Hsp]. unfold root_offset in Heq. rewrite Hsp in Heq.
  assert (Hb' : 0 < VIRTUAL_ADDRESS_BITS <= 64) by lia.
  rewrite <- (proj2 (sign_extend_id _ va Hb' Hu) Hs).
  rewrite <- (proj2 (sign_extend_id _ va' Hb' Hu') Hs'). unfold sign_extend. by rewrite Heq.
Qed.

Lemma virt_canonical r va : virt_ok r -> r_start r <= va < r_end r -> canonical va.
Proof.
  intros (Hse & Hh & _) Hva. destruct address_bits as [Hb _]. split.
  - apply (in_half_usize _ _ _ va Hb Hh). lia.
  - destruct Hh as [? Hh]. unfold sign_extended. lia.
Qed.

Lemma virt_table_range r : virt_ok r -> table_range s LEVELS (r_start r) (r_end r).
Proof.
  intros (Hse & Hh & Hs & He). split; try done. destruct address_bits as [Hb ->].
  set (bits := VIRTUAL_ADDRESS_BITS) in *.
  pose proof (pow2_half bits ltac:(lia)). pose proof (pow2_pos (bits - 1) ltac:(lia)).
  destruct Hh as [H0' [Hlo | [Hhi Hend]]].
  - rewrite Z.mod_small by lia. lia.
  - assert (HU : USIZE_MOD = 2 ^ bits * 2 ^ (64 - bits)) by (change USIZE_MOD with (2 ^ 64); apply pow2_split; lia).
    assert (Hm : r_start r mod 2 ^ bits = r_start r - (USIZE_MOD - 2 ^ bits)).
    { symmetry. apply (Z.mod_unique_pos _ _ (2 ^ (64 - bits) - 1)); lia. }
    lia.
Qed.

Lemma granule_divides p : p mod BYTES s = 0 -> p mod GRANULE_SIZE = 0.
Proof.
  intros Hp. destruct (DEPTH_level s) as (l & ls & Hd & Hsz). pose proof granule_8 as (Hg & _).
  pose proof (levels_wf_drop DEPTH) as Hwf. rewrite Hd in Hwf. pose proof (BYTES_pos s) as Hb.
  apply Z.mod_divide in Hp; [| lia]. apply Z.mod_divide; [lia |]. etrans; [| exact Hp].
  rewrite <- Hsz. destruct granule_last as (lg & Elast & ->). rewrite last_lookup in Elast.
  apply (page_size_divide ls (pred (length LEVELS) - DEPTH)); [done |].
  assert (Hlen : (DEPTH < length LEVELS)%nat).
  { assert (Hl : length (drop DEPTH LEVELS) = S (length ls)) by by rewrite Hd. rewrite length_drop in Hl. lia. }
  rewrite <- Hd, lookup_drop. by replace (DEPTH + (pred (length LEVELS) - DEPTH))%nat with (pred (length LEVELS)) by lia.
Qed.

Lemma run_visitor_spec {V E} {Vis : Visitor F V E} VI P T EX tidy
    (vspec : VisitorSpec pm VI P T EX tidy (s := s)) a R (w : world F) v r :
  aspace_ok pm a R w -> virt_ok r -> VI (r_start r) v ->
  (forall va, r_start r <= va < r_end r -> P va (status_at pm s a w va)) ->
  exists res w' v' c,
    run_visitor s (root_page_table a) r pm v w = Done ((res, v'), w')
    /\ r_start r <= c <= r_end r
    /\ match res with Ok _ => c = r_end r | Err _ => EX w' end
    /\ aspace_ok pm a R w' /\ keeps pm R w w' /\ VI c v'
    /\ (forall va, canonical va -> ~ r_start r <= va < c -> status_at pm s a w' va = status_at pm s a w va)
    /\ (forall va, r_start r <= va < c -> T va (status_at pm s a w va) (status_at pm s a w' va))
    /\ (tidy -> is_Ok res -> forall va, r_start r <= va < c ->
          pruned pm DEPTH LEVELS (w_mem w') (t_base (root_page_table a)) (root_offset va)).
Proof.
  intros [Hd HI] Hv HV HP. destruct a as [[b d]]. cbn [root_page_table t_base t_depth] in *. subst d.
  destruct r as [s0 e]. cbn [r_start r_end] in *.
  destruct (visit_spec pm VI P T EX tidy s b s0 e (virt_table_range _ Hv) R w v HI HV HP)
    as (res & w' & v' & c & Ev & [Hc Hr HI' HK HV' HO HT HQ]).
  exists res, w', v', c. split; [unfold run_visitor; by rewrite Ev |]. split_and!; try done; try lia; [| intros Htd Hok; by apply HQ].
  intros va Hva Hn. apply HO.
  - apply Z.mod_pos_bound. destruct address_bits as [Hb ->]. apply pow2_pos. lia.
  - intros va' Hva' Heq. apply root_offset_inj in Heq; [| done | apply (virt_canonical (Range s0 e)); [done | simpl; lia]].
    subst. lia.
Qed.

Lemma phys_aligned p : p mod BYTES s = 0 -> is_aligned_to p (BYTES s) = Done true.
Proof.
  intros Hp. rewrite BYTES_pow2 in *. pose proof (SHIFT_range s).
  rewrite is_aligned_to_pow2 by lia. by rewrite Hp.
Qed.

(** The assertions at the head of the operations. *)
Lemma virt_asserts r :
  virt_ok r ->
  range_len r = Done (r_end r - r_start r) /\ BYTES s <= r_end r - r_start r
  /\ is_aligned_to (r_start r) (BYTES s) = Done true /\ is_aligned_to (r_end r) (BYTES s) = Done true.
Proof.
  intros (Hse & Hh & Hs & He). destruct address_bits as [Hb _]. pose proof (BYTES_pos s) as Hp.
  split_and!.
  - destruct r as [s0 e]. apply range_len_Done; [| | simpl in *; lia];
      apply (in_half_usize _ s0 e _ Hb Hh); simpl in *; lia.
  - apply Z.mod_divide in Hs as [q Hq], He as [q' Hq']; [| lia..].
    assert (q < q') by nia. nia.
  - by apply phys_aligned.
  - by apply phys_aligned.
Qed.

(** ** map *)

(** [va] is mapped to [pa] by a leaf of size [s] with attributes [attrs]. *)
Definition leaf_maps (st : status) (va pa : Z) (attrs : MemoryAttributes) : Prop :=
  exists x l, st = LeafAt x l /\ page_size l = BYTES s
    /\ pte_address x + va mod page_size l = pa /\ pte_attributes x = Done attrs.

Lemma leaf_maps_translate a (w : world F) va pa attrs :
  leaf_maps (status_at pm s a w va) va pa attrs ->
  exists l, translate pm a w va = Some (pa, attrs, l) /\ page_size l = BYTES s.
Proof.
  intros (x & l & Hst & Hsz & Hpa & Hat). exists l. rewrite (translate_status pm s), Hst. simpl.
  by rewrite Hat, Hpa.
Qed.

(** What an operation that has processed the addresses [s0..c) did: their
    status changed as [T] says, that of all other addresses did not, the
    changes are recorded for invalidation. *)
Record changed (a : HardwareAddressSpace) (R : gset Z) (w : world F) (s0 c : Z)
    (T : Z -> status -> status -> Prop) (flush flush' : Flush) (w' : world F) : Prop := {
  ch_ok : aspace_ok pm a R w';
  ch_keeps : keeps pm R w w';
  ch_flush : flush_tracks flush s0 c flush';
  ch_outside : forall va, canonical va -> ~ s0 <= va < c -> status_at pm s a w' va = status_at pm s a w va;
  ch_inside : forall va, s0 <= va < c -> T va (status_at pm s a w va) (status_at pm s a w' va);
}.

Lemma changed_mono a R w s0 c T T' f f' w' :
  (forall va st st', s0 <= va < c -> T va st st' -> T' va st st') ->
  changed a R w s0 c T f f' w' -> changed a R w s0 c T' f f' w'.
Proof. intros HT []. split; auto. Qed.

Lemma changed_nil a R w s0 T f : aspace_ok pm a R w -> flush_ok f -> changed a R w s0 s0 T f f w.
Proof. intros. split; try done; try lia. by apply flush_tracks_init. Qed.

Lemma changed_seq a R (w w1 w' : world F) s0 mid c T f f1 f' :
  s0 <= mid <= c -> (forall va, s0 <= va < c -> canonical va) ->
  changed a R w s0 mid T f f1 w1 -> changed a R w1 mid c T f1 f' w' ->
  changed a R w s0 c T f f' w'.
Proof.
  intros Hmid Hcan [_ HK1 (_ & Hcov1 & Hf1) HO1 HI1] [Hok2 HK2 (Hfok & Hcov2 & Hf2) HO2 HI2].
  split; try done.
  - by eapply keeps_trans.
  - split_and!; [done | | by auto]. intros va Hva. destruct (decide (va < mid)); [apply Hf2, Hcov1; lia | apply Hcov2; lia].
  - intros va Hva Hn. rewrite HO2, HO1; [done | done | lia | done | lia].
  - intros va Hva. destruct (decide (va < mid)).
    + rewrite HO2 by (lia || apply Hcan; lia). apply HI1. lia.
    + rewrite <- (HO1 va) by (lia || apply Hcan; lia). apply HI2. lia.
Qed.

(** Mapping an address to what [tgt] says. *)
Definition maps_T (tgt : Z -> Z) (attrs : MemoryAttributes) (va : Z) (_ st' : status) : Prop :=
  leaf_maps st' va (tgt va) (normalize_attributes attrs).

(** The outcome of mapping [s0..e): the part [s0..c) has been mapped, and only
    running out of frames stops it before the end. *)
Definition map_outcome (a : HardwareAddressSpace) (R : gset Z) (w : world F) (s0 e : Z) (tgt : Z -> Z)
    (attrs : MemoryAttributes) (flush : Flush) (r : result AllocError unit) (flush' : Flush)
    (w' : world F) (c : Z) : Prop :=
  s0 <= c <= e /\ (match r with Ok _ => c = e | Err _ => out_of_frames w' end)
  /\ changed a R w s0 c (maps_T tgt attrs) flush flush' w'.

(** What [map_contiguous] asks of the physical block. *)
Definition phys_ok (p len : Z) : Prop := 0 <= p /\ p + len <= PHYS_LIMIT /\ p mod BYTES s = 0.

Lemma map_contiguous_run a R (w : world F) virt phys attrs flush :
  aspace_ok pm a R w -> virt_ok virt -> phys_ok phys (r_end virt - r_start virt) ->
  attributes_accessible attrs = true -> flush_ok flush ->
  (forall va, r_start virt <= va < r_end virt -> unmapped_at pm s a w va) ->
  exists r flush' w' c, map_contiguous s a virt phys attrs pm flush w = Done ((r, flush'), w')
    /\ map_outcome a R w (r_start virt) (r_end virt) (fun va => phys + (va - r_start virt)) attrs flush r flush' w' c.
Proof.
  intros Hok Hv (Hp0 & Hpl & Hpa) Hacc Hfl Hun. destruct (virt_asserts virt Hv) as (Hlen & Hlb & Ha1 & Ha2).
  set (s0 := r_start virt) in *. set (e := r_end virt) in *. pose proof Hv as (_ & _ & Hsa & _). fold s0 in Hsa.
  pose proof (map_visitor_spec pm Hpo s s0 e phys attrs flush (conj Hp0 Hpl) Hpa Hsa granule_divides Hacc) as Hspec.
  destruct (run_visitor_spec (Vis := map_visitor s) _ _ _ _ _ Hspec a R w (MkMapVisitor phys attrs flush) virt Hok Hv)
    as (r & w' & v' & c & Erun & Hc & Hr & Hok' & HK & (_ & _ & Hft) & HO & HT & _).
  { split_and!; cbn; [lia | done | by apply flush_tracks_init]. }
  { intros va Hva. split; [by apply Hun | done]. }
  exists r, (mv_flush v'), w', c. split; [| split; [lia | split; [done | by split]]].
  - unfold map_contiguous. step_by Hlen. step_by (assert_leb _ _ Hlb). step_by Ha1. step_by (assert_true true eq_refl).
    step_by Ha2. step_by (assert_true true eq_refl). step_by (phys_aligned phys Hpa). step_by (assert_true true eq_refl).
    by step_by Erun.
Qed.

(** *** Discontiguous blocks *)

Definition blocks_len (blocks : list range) : Z := foldr (fun b n => (r_end b - r_start b) + n) 0 blocks.

(** The physical address at offset [off] of the concatenated blocks. *)
Fixpoint block_target (blocks : list range) (off : Z) : Z :=
  match blocks with
  | [] => 0
  | b :: blocks' =>
      if off <? r_end b - r_start b then r_start b + off else block_target blocks' (off - (r_end b - r_start b))
  end.

Definition block_ok (b : range) : Prop :=
  r_start b < r_end b /\ r_end b mod BYTES s = 0 /\ phys_ok (r_start b) (r_end b - r_start b).

Lemma block_len b : block_ok b -> range_len b = Done (r_end b - r_start b) /\ (r_end b - r_start b) mod BYTES s = 0.
Proof.
  intros (Hse & He & Hp0 & Hpl & Hpa). pose proof phys_limit_usize. destruct b as [p0 p1]. simpl in *. split.
  - apply range_len_Done; unfold is_usize; lia.
  - by rewrite Zminus_mod, He, Hpa.
Qed.

Lemma blocks_len_pos blocks :
  Forall block_ok blocks -> 0 <= blocks_len blocks /\ (blocks <> [] -> 0 < blocks_len blocks).
Proof. induction 1 as [| b blocks [Hb _] _ IH]; simpl; [done | lia]. Qed.

Lemma virt_ok_sub s0 e s1 e1 :
  virt_ok (Range s0 e) -> s0 <= s1 -> s1 < e1 -> e1 <= e -> s1 mod BYTES s = 0 -> e1 mod BYTES s = 0 ->
  virt_ok (Range s1 e1).
Proof.
  intros (_ & [H0' Hh] & _ & _) ?????. cbn [r_start r_end] in *. split_and!; try done; cbn; try lia.
  split; [lia |]. cbn. lia.
Qed.

(** What a block operation computes before it handles the first block, and the
    virtual range it hands on. *)
Lemma block_step s0 e b blocks :
  Forall block_ok (b :: blocks) -> s0 + blocks_len (b :: blocks) <= e ->
  virt_ok (Range s0 (s0 + blocks_len (b :: blocks))) ->
  let n := r_end b - r_start b in
  0 < n /\ blocks_len (b :: blocks) = n + blocks_len blocks
  /\ negb (range_is_empty (Range s0 e)) = true /\ range_len b = Done n
  /\ range_from_start_len s0 n = Done (Range s0 (s0 + n)) /\ addr_add s0 n = Done (s0 + n)
  /\ virt_ok (Range s0 (s0 + n))
  /\ (blocks <> [] -> virt_ok (Range (s0 + n) (s0 + n + blocks_len blocks))).
Proof.
  intros Hbs He Hv n. inversion_clear Hbs as [| ?? Hb Hbs']. destruct (block_len b Hb) as [Hlen Hlal].
  destruct (blocks_len_pos blocks Hbs') as [HL HLp].
  cbn [blocks_len foldr] in *. fold (blocks_len blocks) in *. fold n in Hlen, Hlal, Hv, He |- *.
  assert (Hn : 0 < n) by (destruct Hb; lia).
  pose proof Hv as (_ & Hh & Hs0a & Hea). cbn [r_start r_end] in *. pose proof (BYTES_pos s).
  assert (Hmida : (s0 + n) mod BYTES s = 0) by (rewrite Z.add_mod, Hs0a, Hlal by lia; done).
  assert (Hu : is_usize (s0 + n)) by (apply (in_half_usize _ _ _ _ (proj1 address_bits) Hh); lia).
  split_and!; try done.
  - unfold range_is_empty. cbn. by rewrite (proj2 (Z.leb_gt _ _)) by lia.
  - unfold range_from_start_len, addr_add. by rewrite u_add_Done.
  - by apply u_add_Done.
  - apply (virt_ok_sub s0 (s0 + (n + blocks_len blocks))); auto; lia.
  - intros Hne. specialize (HLp Hne). apply (virt_ok_sub s0 (s0 + (n + blocks_len blocks))); auto; try lia.
    by rewrite <- Z.add_assoc.
Qed.

Lemma block_target_head b blocks s0 va :
  s0 <= va < s0 + (r_end b - r_start b) -> block_target (b :: blocks) (va - s0) = r_start b + (va - s0).
Proof. intros Hva. simpl. by rewrite (proj2 (Z.ltb_lt _ _)) by lia. Qed.

Lemma block_target_tail b blocks s0 va :
  let n := r_end b - r_start b in
  s0 + n <= va -> block_target (b :: blocks) (va - s0) = block_target blocks (va - (s0 + n)).
Proof. intros n Hva. simpl. fold n. rewrite (proj2 (Z.ltb_ge _ _)) by lia. f_equal. lia. Qed.

Lemma aspace_map_run a R attrs blocks :
  attributes_accessible attrs = true -> Forall block_ok blocks ->
  forall (w : world F) s0 e flush,
  aspace_ok pm a R w -> flush_ok flush -> s0 + blocks_len blocks <= e ->
  (blocks <> [] -> virt_ok (Range s0 (s0 + blocks_len blocks))) ->
  (forall va, s0 <= va < s0 + blocks_len blocks -> unmapped_at pm s a w va) ->
  exists r flush' w' c, aspace_map s a (Range s0 e) blocks attrs pm flush w = Done ((r, flush'), w')
    /\ map_outcome a R w s0 (s0 + blocks_len blocks) (fun va => block_target blocks (va - s0)) attrs flush r flush' w' c.
Proof.
  intros Hacc. induction blocks as [| b blocks IH]; intros Hbs w s0 e flush Hok Hfl He Hv Hun; cbn [aspace_map].
  { exists (Ok tt), flush, w, s0. simpl. rewrite Z.add_0_r. split; [done |].
    split_and!; try done; try lia. by apply changed_nil. }
  specialize (Hv ltac:(done)). pose proof Hbs as Hbs0. inversion_clear Hbs as [| ?? Hb Hbs'].
  destruct (block_step s0 e b blocks Hbs0 He Hv) as (Hn & HL & Hne & Hlen & Hfs & Had & Hv1 & Hv2).
  destruct (blocks_len_pos blocks Hbs') as [HL0 _]. rewrite HL in *. set (n := r_end b - r_start b) in *.
  destruct (map_contiguous_run a R w (Range s0 (s0 + n)) (r_start b) attrs flush)
    as (r & f1 & w1 & c & E1 & Hc1 & Hr1 & Hch1); auto; cbn [r_start r_end] in *.
  { replace (s0 + n - s0) with n by lia. apply Hb. } { intros va Hva. apply Hun. lia. }
  apply (changed_mono _ _ _ _ _ _ (maps_T (fun va => block_target (b :: blocks) (va - s0)) attrs)) in Hch1; last first.
  { intros va st st' Hva. unfold maps_T. by rewrite block_target_head by lia. }
  step_by (assert_true _ Hne). step_by Hlen. step_by Hfs. step_by E1.
  destruct r as [[] | err]; [subst c | exists (Err err), f1, w1, c; split; [done | split; [lia | by split]]].
  step_by Had.
  assert (Hcan : forall va, s0 <= va < s0 + (n + blocks_len blocks) -> canonical va)
    by (intros va Hva; by apply (virt_canonical (Range s0 (s0 + (n + blocks_len blocks))))).
  destruct (IH Hbs' w1 (s0 + n) e f1) as (r & f' & w' & c & E2 & Hc2 & Hr2 & Hch2); auto; try lia.
  { by destruct Hch1. } { by destruct (ch_flush _ _ _ _ _ _ _ _ _ Hch1). }
  { intros va Hva. unfold unmapped_at. rewrite (ch_outside _ _ _ _ _ _ _ _ _ Hch1);
      [apply Hun; lia | apply Hcan; lia | lia]. }
  rewrite <- Z.add_assoc in Hc2, Hr2. exists r, f', w', c. split; [done |]. split; [lia |]. split; [done |].
  apply (changed_seq _ _ _ w1 _ _ (s0 + n) _ _ _ f1); [lia | intros; apply Hcan; lia | done |].
  eapply changed_mono; [| exact Hch2]. intros va st st' Hva. unfold maps_T. by rewrite block_target_tail by (fold n; lia).
Qed.

(** ** remap, set_attributes, unmap *)

(** [va] keeps its leaf and attributes and moves to [tgt va]. *)
Definition moves_T (tgt : Z -> Z) (va : Z) (st st' : status) : Prop :=
  exists x x' l attrs, st = LeafAt x l /\ st' = LeafAt x' l /\ pte_attributes x = Done attrs
    /\ pte_address x' + va mod page_size l = tgt va /\ pte_attributes x' = Done attrs.

Lemma remap_contiguous_run a R (w : world F) virt phys flush :
  aspace_ok pm a R w -> virt_ok virt -> phys_ok phys (r_end virt - r_start virt) -> flush_ok flush ->
  (forall va, r_start virt <= va < r_end virt -> mapped_at pm s a w va) ->
  exists flush' w', remap_contiguous s a virt phys pm flush w = Done (flush', w')
    /\ changed a R w (r_start virt) (r_end virt) (moves_T (fun va => phys + (va - r_start virt))) flush flush' w'.
Proof.
  intros Hok Hv (Hp0 & Hpl & Hpa) Hfl Hm. destruct (virt_asserts virt Hv) as (Hlen & Hlb & Ha1 & _).
  set (s0 := r_start virt) in *. set (e := r_end virt) in *. pose proof Hv as (_ & _ & Hsa & _). fold s0 in Hsa.
  pose proof (remap_visitor_spec pm Hpo s s0 e phys flush (conj Hp0 Hpl) Hpa Hsa granule_divides) as Hspec.
  destruct (run_visitor_spec (Vis := remap_visitor s) _ _ _ _ _ Hspec a R w (MkRemapVisitor phys flush) virt Hok Hv)
    as ([[] | []] & w' & v' & c & Erun & Hc & Hr & Hok' & HK & (_ & Hft) & HO & HT & _).
  { split; cbn; [lia | by apply flush_tracks_init]. }
  { intros va Hva. split; [by apply Hm | done]. }
  fold s0 e in Hr, Hc, HO, HT. subst c. exists (rv_flush v'), w'. split.
  - unfold remap_contiguous. step_by Hlen. step_by (assert_leb _ _ Hlb). step_by Ha1. step_by (assert_true true eq_refl).
    step_by (phys_aligned phys Hpa). step_by (assert_true true eq_refl). by step_by Erun.
  - split; try done. intros va Hva. destruct (HT va Hva) as (x & x' & l & a0 & ?). exists x, x', l, a0. naive_solver.
Qed.

Lemma moves_keeps_mapped tgt va st st' :
  moves_T tgt va st st' -> (exists x l, st = LeafAt x l /\ page_size l = BYTES s) ->
  exists x l, st' = LeafAt x l /\ page_size l = BYTES s.
Proof. intros (x & x' & l & at0 & -> & -> & _) (y & l' & [= -> ->] & Hsz). eauto. Qed.

Lemma aspace_remap_run a R blocks :
  Forall block_ok blocks ->
  forall (w : world F) s0 e flush,
  aspace_ok pm a R w -> flush_ok flush -> s0 + blocks_len blocks <= e ->
  (blocks <> [] -> virt_ok (Range s0 (s0 + blocks_len blocks))) ->
  (forall va, s0 <= va < s0 + blocks_len blocks -> mapped_at pm s a w va) ->
  exists flush' w', aspace_remap s a (Range s0 e) blocks pm flush w = Done ((Ok tt, flush'), w')
    /\ changed a R w s0 (s0 + blocks_len blocks) (moves_T (fun va => block_target blocks (va - s0))) flush flush' w'.
Proof.
  induction blocks as [| b blocks IH]; intros Hbs w s0 e flush Hok Hfl He Hv Hm; cbn [aspace_remap].
  { exists flush, w. simpl. rewrite Z.add_0_r. split; [done |]. by apply changed_nil. }
  specialize (Hv ltac:(done)). pose proof Hbs as Hbs0. inversion_clear Hbs as [| ?? Hb Hbs'].
  destruct (block_step s0 e b blocks Hbs0 He Hv) as (Hn & HL & Hne & Hlen & Hfs & Had & Hv1 & Hv2).
  destruct (blocks_len_pos blocks Hbs') as [HL0 _]. rewrite HL in *. set (n := r_end b - r_start b) in *.
  destruct (remap_contiguous_run a R w (Range s0 (s0 + n)) (r_start b) flush) as (f1 & w1 & E1 & Hch1);
    auto; cbn [r_start r_end] in *.
  { replace (s0 + n - s0) with n by lia. apply Hb. } { intros va Hva. apply Hm. lia. }
  apply (changed_mono _ _ _ _ _ _ (moves_T (fun va => block_target (b :: blocks) (va - s0)))) in Hch1; last first.
  { intros va st st' Hva. unfold moves_T. by rewrite block_target_head by lia. }
  step_by (assert_true _ Hne). step_by Hlen. step_by Hfs. step_by E1. step_by Had.
  assert (Hcan : forall va, s0 <= va < s0 + (n + blocks_len blocks) -> canonical va)
    by (intros va Hva; by apply (virt_canonical (Range s0 (s0 + (n + blocks_len blocks))))).
  destruct (IH Hbs' w1 (s0 + n) e f1) as (f' & w' & E2 & Hch2); auto; try lia.
  { by destruct Hch1. } { by destruct (ch_flush _ _ _ _ _ _ _ _ _ Hch1). }
  { intros va Hva. unfold mapped_at. rewrite (ch_outside _ _ _ _ _ _ _ _ _ Hch1);
      [apply Hm; lia | apply Hcan; lia | lia]. }
  exists f', w'. split; [done |]. rewrite <- Z.add_assoc in Hch2.
  apply (changed_seq _ _ _ w1 _ _ (s0 + n) _ _ _ f1); [lia | done | done |].
  eapply changed_mono; [| exact Hch2]. intros va st st' Hva. unfold moves_T. by rewrite block_target_tail by (fold n; lia).
Qed.

(** [va] stays at its physical address with the new attributes. *)
Definition protects_T (attrs : MemoryAttributes) (va : Z) (st st' : status) : Prop :=
  exists x x' l, st = LeafAt x l /\ st' = LeafAt x' l /\ pte_address x' = pte_address x
    /\ pte_attributes x' = Done (normalize_attributes attrs).

Lemma set_attributes_run a R (w : world F) virt attrs flush :
  aspace_ok pm a R w -> virt_ok virt -> attributes_accessible attrs = true -> flush_ok flush ->
  (forall va, r_start virt <= va < r_end virt -> mapped_at pm s a w va) ->
  exists flush' w', set_attributes s a virt attrs pm flush w = Done (flush', w')
    /\ changed a R w (r_start virt) (r_end virt) (protects_T attrs) flush flush' w'.
Proof.
  intros Hok Hv Hacc Hfl Hm. destruct (virt_asserts virt Hv) as (Hlen & Hlb & Ha1 & _).
  pose proof (set_attributes_visitor_spec pm Hpo s (r_start virt) (r_end virt) attrs flush Hacc) as Hspec.
  destruct (run_visitor_spec (Vis := set_attributes_visitor s) _ _ _ _ _ Hspec a R w (MkSetAttributesVisitor attrs flush) virt Hok Hv)
    as ([[] | []] & w' & v' & c & Erun & Hc & -> & Hok' & HK & (_ & Hft) & HO & HT & _).
  { split; cbn; [done | by apply flush_tracks_init]. }
  { intros va Hva. split; [by apply Hm | done]. }
  exists (sv_flush v'), w'. split; [| by split].
  unfold set_attributes. step_by Hlen. step_by (assert_leb _ _ Hlb). step_by Ha1. step_by (assert_true true eq_refl).
  by step_by Erun.
Qed.

Lemma unmap_run `{!FrameDeallocatorLaws GRANULE_SIZE F} a R (w : world F) virt flush :
  aspace_ok pm a R w -> virt_ok virt -> flush_ok flush ->
  (forall va, r_start virt <= va < r_end virt -> mapped_at pm s a w va) ->
  exists flush' w', unmap s a virt pm flush w = Done (flush', w')
    /\ changed a R w (r_start virt) (r_end virt) (fun _ _ st' => st' = Vac) flush flush' w'
    /\ forall va, r_start virt <= va < r_end virt -> no_empty_table pm a w' va.
Proof.
  intros Hok Hv Hfl Hm. destruct (virt_asserts virt Hv) as (Hlen & Hlb & Ha1 & _).
  pose proof (unmap_visitor_spec pm Hpo s (r_start virt) (r_end virt) flush) as Hspec.
  destruct (run_visitor_spec (Vis := unmap_visitor s) _ _ _ _ _ Hspec a R w (MkUnmapVisitor flush) virt Hok Hv)
    as ([[] | []] & w' & v' & c & Erun & Hc & -> & Hok' & HK & Hft & HO & HT & HQ).
  { by apply flush_tracks_init. }
  { intros va Hva. split; [by apply Hm | done]. }
  exists (uv_flush v'), w'. split; [| split; [by split |]]; last first.
  { intros va Hva. eapply pruned_vacant; [exact (HT va Hva) | by apply HQ]. }
  unfold unmap. step_by Hlen. step_by (assert_leb _ _ Hlb). step_by Ha1. step_by (assert_true true eq_refl).
  by step_by Erun.
Qed.

(** ** new *)

Lemma aspace_new_run (w : world F) A :
  mem_ok pm (w_mem w) -> fa_allocated (w_frames w) A ->
  exists r w', aspace_new pm w = Done (r, w') /\ keeps pm A w w'
  /\ match r with
     | Ok a => aspace_ok pm a A w' /\ (forall va, unmapped_at pm s a w' va)
     | Err _ => out_of_frames w' /\ fa_allocated (w_frames w') A
     end.
Proof.
  intros Hm Hal. destruct (allocate_zeroed_table pm Hpo w A Hm Hal) as ([p | []] & w' & Ea & Hh & Hr);
    unfold aspace_new, table_allocate.
  - destruct Hr as (HA & Hfp & Hm' & Hz & Hsame). destruct (HA A Hal) as [Hp Hal'].
    exists (Ok (MkAddressSpace (MkTable p 0))), w'. split.
    { erewrite try_bind_Ok; [reflexivity |]. by erewrite try_bind_Ok by exact Ea. }
    destruct LEVELS as [| l ls] eqn:HL; [by destruct levels_nonempty |].
    assert (Hd0 : drop 0 LEVELS = l :: ls) by by rewrite HL.
    pose proof (levels_wf_drop 0) as Hwf. rewrite Hd0 in Hwf.
    destruct (vacant_table pm fa_memory l ls (w_mem w') p Hfp Hwf) as [Hown Hobs].
    { intros i Hi. destruct (index_in_frame 0 l ls i Hd0 Hi). unfold ent. rewrite Hz by done.
      split; [unfold is_usize; simpl; lia | apply vacant_is_vacant]. }
    split; [split_and!; [done | |] | split].
    + intros f j Hf Hj Hjg. apply Hsame. intros j' ?? Heq. pose proof (fa_allocated_frame _ _ f Hal Hf).
      apply frame_words_disjoint in Heq; [| done..]. destruct Heq. by subst.
    + intros a Ha. apply Hsame. intros j Hj Hjg ->. destruct (frame_word p j Hfp Hj Hjg) as [Hw _]. by apply (Ha _ Hw).
    + split; [done |]. rewrite HL. cbn [root_page_table t_base]. split; [done |]. exists {[p]}.
      split; [done |]. split; [sets | done].
    + intros va. unfold unmapped_at, status_at, root_offset. rewrite HL. apply Hobs.
      apply Z.mod_pos_bound. by apply span_pos.
  - destruct Hr as (Hmem & HA & Hex). exists (Err MkAllocError), w'. split.
    { erewrite try_bind_Err; [reflexivity |]. by erewrite try_bind_Err by exact Ea. }
    split; [| by auto]. split_and!; [done | by rewrite Hmem | intros; by rewrite Hmem].
Qed.

End operations.
