(* ===== verification/FastPath.v ===== *)
(** * Two facts about the walk itself

    The single-page path [visit_leaf] does exactly what the general
    [visit_range] does on one page, for any visitor; and the entries iterator
    splits a range without gaps or overlaps. *)

From stdpp Require Import base numbers list gmap.
From Stdlib Require Import ZArith Lia.
From S2P Require Import Prelude Address Riscv Arch PhysMap Machine Table PageTable Walk.

Section fast_path.
Context {arch : Arch} {laws : ArchLaws} (s : PageSize) {maps : MapsAt s} (pm : PhysMap).
Context {F V E : Type} {Vis : Visitor F V E}.

Lemma try_bind_ret_unit {S} (m : M S (result E unit)) st :
  try_bind m (fun _ => mret (Ok tt)) st = m st.
Proof. unfold try_bind. by destruct (m st) as [[[[] |] s'] | |]. Qed.

Lemma leaf_level_fast_path fuel l ls b s0 st :
  drop DEPTH LEVELS = l :: ls -> table_range s (l :: ls) s0 (s0 + BYTES s) ->
  visit_leaf s (S fuel) (MkTable b DEPTH) s0 pm st
  = visit_range s (S fuel) (MkTable b DEPTH) (Range s0 (s0 + BYTES s)) pm st.
Proof.
  intros HD [Hse Hh Hs He Hin]. destruct (DEPTH_level s) as (lD & lsD & HD' & Hbytes).
  rewrite HD in HD'. simplify_eq. pose proof (levels_wf_drop DEPTH) as Hwf. rewrite HD in Hwf.
  destruct (levels_wf_cons _ _ Hwf) as [Hl _]. pose proof (page_size_pos lD Hl).
  assert (0 <= s0) by apply Hh. pose proof (in_half_usize _ _ _ (s0 + BYTES s) (proj1 address_bits) Hh ltac:(lia)) as [_ ?].
  rewrite <- Hbytes in *. destruct (leaf_run lD lsD s0 (s0 + page_size lD) Hwf Hse Hs He Hin) as [Hfl Hlen].
  assert (Hone : (s0 + page_size lD - 1) mod span (lD :: lsD) / page_size lD = s0 mod span (lD :: lsD) / page_size lD) by nia.
  cbn [visit_leaf visit_range t_depth r_start r_end]. rewrite Nat.eqb_refl.
  step_by (level_at_drop _ _ _ HD). step_by (pte_index_of_Done lD lsD s0 Hl ltac:(lia)). symmetry.
  step_by (level_at_drop _ _ _ HD). step_by (pte_index_of_Done lD lsD s0 Hl ltac:(lia)).
  step_by (u_sub_Done (s0 + page_size lD) 1 ltac:(unfold is_usize; lia)).
  step_by (pte_index_of_Done lD lsD (s0 + page_size lD - 1) Hl ltac:(lia)). rewrite Hone.
  set (i := s0 mod span (lD :: lsD) / page_size lD).
  step_by (run_length_Done i i (Z.le_refl i) ltac:(lia)). f_equal. lia.
Qed.

(** One page above the leaf level: the entries iterator yields one item. *)
Lemma one_page_entries k d l l' ls s0 :
  (d + S k = DEPTH)%nat -> drop d LEVELS = l :: l' :: ls ->
  table_range s (l :: l' :: ls) s0 (s0 + BYTES s) ->
  let i := s0 mod span (l :: l' :: ls) / page_size l in
  let e := s0 + BYTES s in
  exists start', page_table_entries_for (Range s0 e) l = Done (MkEntries [i] s0 e (page_size l))
    /\ entries_next (MkEntries [i] s0 e (page_size l)) = Done (Some (i, Range s0 e), MkEntries [] start' e (page_size l)).
Proof.
  intros Hdk Hd Htr i e. pose proof Htr as [Hse Hh Hs He Hin].
  pose proof (levels_wf_drop d) as Hwf. rewrite Hd in Hwf. destruct (levels_wf_cons _ _ Hwf) as [Hl _].
  destruct (page_in_slot s k d l l' ls s0 Hdk Hd Htr) as [[_ _ _ _ Hfit] Hslot].
  rewrite <- (page_size_span l (l' :: ls) Hwf ltac:(done)) in Hfit.
  destruct (entries_next_spec l i [] s0 e Hl Hse Hh) as (start' & En & _ & _).
  replace (Z.min (s0 - s0 mod page_size l + page_size l) e) with e in En by lia.
  exists start'. split; [| done].
  rewrite (page_table_entries_for_spec d l (l' :: ls) s0 e Hd Hse Hh Hin).
  pose proof (BYTES_pos s). rewrite (Hslot (e - 1)) by lia. fold i. by replace (i - i + 1) with 1 by lia.
Qed.

Lemma fast_path_equiv k fuel d l ls b s0 st :
  (d + k = DEPTH)%nat -> (k < fuel)%nat -> drop d LEVELS = l :: ls ->
  table_range s (l :: ls) s0 (s0 + BYTES s) ->
  visit_leaf s fuel (MkTable b d) s0 pm st
  = visit_range s fuel (MkTable b d) (Range s0 (s0 + BYTES s)) pm st.
Proof.
  revert fuel d l ls b st.
  induction k as [| k IH]; intros [| fuel] d l ls b st Hdk Hf Hd Htr; try lia.
  { assert (d = DEPTH) as -> by lia. by eapply leaf_level_fast_path. }
  pose proof (drop_next _ _ _ Hd) as Hd'. destruct ls as [| l' ls].
  { exfalso. destruct (DEPTH_level s) as (lD & lsD & HD & _).
    replace DEPTH with ((d + 1) + k)%nat in HD by lia. by rewrite <- drop_drop, Hd', drop_nil in HD. }
  destruct (one_page_entries k d l l' ls s0 Hdk Hd Htr) as (start' & Ees & En).
  destruct (page_in_slot s k d l l' ls s0 Hdk Hd Htr) as [Htr' _].
  pose proof (levels_wf_drop d) as Hwf. rewrite Hd in Hwf. destruct (levels_wf_cons _ _ Hwf) as [Hl _].
  cbn [visit_leaf visit_range t_depth r_start r_end].
  rewrite (proj2 (Nat.eqb_neq d DEPTH)) by lia.
  step_by (level_at_drop _ _ _ Hd). step_by (pte_index_of_Done l (l' :: ls) s0 Hl (proj1 (tr_half _ _ _ _ Htr))).
  symmetry. step_by (level_at_drop _ _ _ Hd). step_by Ees. cbn [pe_iter length for_entries]. step_by En.
  cbv match. match goal with |- try_bind ?X _ _ = _ => etrans; [exact (try_bind_ret_unit X st) |] end.
  set (i := s0 mod span (l :: l' :: ls) / page_size l).
  unfold try_bind at 1 4. destruct (descend (MkTable b d) i pm st) as [[[[child |] | err] st'] | |]; try done.
  unfold try_bind at 1 3. rewrite (IH fuel (d + 1)%nat l' ls child st') by (done || lia). done.
Qed.

(** ** The entries of a range tile it *)

(** The sub-ranges are contiguous, not empty, start at [s0] and end at [e]. *)
Fixpoint tiles (s0 e : Z) (chunks : list (Z * range)) : Prop :=
  match chunks with
  | [] => s0 = e
  | (_, r) :: chunks' => r_start r = s0 /\ s0 < r_end r /\ tiles (r_end r) e chunks'
  end.

Lemma entries_collect_tiles l ls n s0 e :
  levels_wf (l :: ls) -> s0 < e -> in_half VIRTUAL_ADDRESS_BITS s0 e ->
  s0 mod span (l :: ls) + (e - s0) <= span (l :: ls) ->
  Z.of_nat n = (e - 1) mod span (l :: ls) / page_size l - s0 mod span (l :: ls) / page_size l + 1 ->
  exists chunks,
    entries_collect n (MkEntries (seqZ (s0 mod span (l :: ls) / page_size l) (Z.of_nat n)) s0 e (page_size l)) = Done chunks
    /\ tiles s0 e chunks
    /\ Forall (fun '(i, r) => forall va, r_start r <= va < r_end r -> va mod span (l :: ls) / page_size l = i) chunks.
Proof.
  intros Hwf. destruct (levels_wf_cons _ _ Hwf) as [Hl _]. pose proof (page_size_pos l Hl) as Hps.
  assert (Hsp : 0 < span (l :: ls)) by by apply span_pos. revert s0.
  induction n as [| n IH]; intros s0 Hse Hh Hin Hn;
    destruct (first_slot l ls s0 e Hwf Hse Hin) as (Hslot & Hfit & Hnext).
  { exfalso. pose proof (Z.mod_pos_bound s0 (span (l :: ls)) Hsp).
    rewrite (mod_add_small _ s0 (e - 1)) in Hn by lia.
    pose proof (Z.div_le_mono (s0 mod span (l :: ls)) (s0 mod span (l :: ls) + (e - 1 - s0)) (page_size l)
      ltac:(lia) ltac:(lia)). lia. }
  set (j := s0 mod span (l :: ls) / page_size l) in *.
  set (mid := Z.min (s0 - s0 mod page_size l + page_size l) e) in *.
  rewrite seqZ_cons by lia. replace (Z.pred (Z.of_nat (S n))) with (Z.of_nat n) by lia.
  destruct (entries_next_spec l j (seqZ (Z.succ j) (Z.of_nat n)) s0 e Hl Hse Hh) as (start' & En & Hst & Hmid).
  fold mid in En, Hst, Hmid. cbn [entries_collect]. step_by En.
  destruct (decide (mid < e)) as [Hlt | Hge].
  - rewrite Hst by done. destruct (Hnext Hlt) as (Hj & _ & Hin').
    replace (Z.succ j) with (mid mod span (l :: ls) / page_size l) by lia.
    destruct (IH mid) as (chunks & Ec & Ht & Hall); try lia; [destruct Hh as [? Hh]; split; lia |].
    rewrite Ec. exists ((j, Range s0 mid) :: chunks). split; [done |]. split; [simpl; split_and!; auto; lia |].
    by constructor.
  - assert (mid = e) as Hme by lia. rewrite (Hslot (e - 1)) in Hn by lia. assert (n = 0)%nat as -> by lia.
    exists [(j, Range s0 mid)]. split; [done |]. split; [simpl; split_and!; [done | lia | done] |]. by repeat constructor.
Qed.

End fast_path.
