(* ===== verification/TestAllocator.v ===== *)
(** * The frame allocator of the test kit (lib/mem-testkit/src/frame_allocator.rs)

    It tracks every free frame and supports deallocation.  The [BTreeSet] of
    free frames is a strictly increasing list; the [Mutex] around it is taken
    for the duration of each call. *)

From stdpp Require Import base numbers list gmap sets sorting.
From Stdlib Require Import ZArith Lia.
From S2P Require Import Prelude Address Riscv Arch Machine.

(** ** [BTreeSet] as an increasing list *)

Fixpoint bt_contains (x : Z) (l : list Z) : bool :=
  match l with
  | [] => false
  | y :: l' => (x =? y) || bt_contains x l'
  end.

(** [insert] returns whether the element was new. *)
Fixpoint bt_insert (x : Z) (l : list Z) : bool * list Z :=
  match l with
  | [] => (true, [x])
  | y :: l' =>
      if x =? y then (false, l)
      else if x <? y then (true, x :: l)
      else let '(new, l'') := bt_insert x l' in (new, y :: l'')
  end.

Fixpoint bt_remove (x : Z) (l : list Z) : list Z :=
  match l with
  | [] => []
  | y :: l' => if x =? y then l' else y :: bt_remove x l'
  end.

(** ** The allocator *)

Record TestFrameAllocator : Type := MkTestAllocator {
  tf_granule : Z;
  tf_free : list Z;
}.

(** [usize::div_ceil]; the granule is never zero. *)
Definition div_ceil (a b : Z) : Z := (a + b - 1) / b.

(** The [while] loop of [new] over one region. *)
Fixpoint insert_frames (fuel : nat) (frame end_ granule : Z) (free : list Z) : outcome (list Z) :=
  if frame <? end_ then
    match fuel with
    | O => Panicked
    | S fuel' =>
        let '(_, free') := bt_insert frame free in
        frame' ← addr_add frame granule;
        insert_frames fuel' frame' end_ granule free'
    end
  else mret free.

Fixpoint insert_regions (regions : list range) (granule : Z) (free : list Z) : outcome (list Z) :=
  match regions with
  | [] => mret free
  | region :: regions' =>
      region' ← range_align_in region granule;
      free' ← insert_frames (Z.to_nat (div_ceil (r_end region' - r_start region') granule))
                (r_start region') (r_end region') granule free;
      insert_regions regions' granule free'
  end.

Definition test_new (granule : Z) (regions : list range) : outcome TestFrameAllocator :=
  free ← insert_regions regions granule [];
  mret (MkTestAllocator granule free).

Definition free_frames (f : TestFrameAllocator) : Z := Z.of_nat (length (tf_free f)).

(** The loop of [allocate]: takes the lowest free frames. *)
Fixpoint take_frames (n : nat) (granule : Z) (free : list Z) : outcome (list range * list Z) :=
  match n with
  | O => mret ([], free)
  | S n' =>
      match free with
      | [] => Panicked
      | frame :: free' =>
          e ← addr_add frame granule;
          '(blocks, free'') ← take_frames n' granule free';
          mret (Range frame e :: blocks, free'')
      end
  end.

Definition test_allocate (layout : Layout) : M TestFrameAllocator (result AllocError (list range)) := fun f =>
  if l_size layout =? 0 then Done (Err MkAllocError, f) else
  _ ← assert_ (l_align layout <=? tf_granule f);
  let nframes := div_ceil (l_size layout) (tf_granule f) in
  if free_frames f <? nframes then Done (Err MkAllocError, f)
  else
    '(blocks, free') ← take_frames (Z.to_nat nframes) (tf_granule f) (tf_free f);
    mret (Ok blocks, MkTestAllocator (tf_granule f) free').

(** [(i..n).all(|i| free.contains(&start.add(i * granule)))]. *)
Fixpoint run_free (n : nat) (i start granule : Z) (free : list Z) : outcome bool :=
  match n with
  | O => mret true
  | S n' =>
      off ← u_mul i granule;
      frame ← addr_add start off;
      if bt_contains frame free then run_free n' (i + 1) start granule free else mret false
  end.

(** [free.iter().copied().find(..)] over the remaining candidates. *)
Fixpoint find_run (candidates : list Z) (nframes : nat) (align granule : Z) (free : list Z) :
    outcome (option Z) :=
  match candidates with
  | [] => mret None
  | start :: candidates' =>
      aligned ← is_aligned_to start align;
      ok ← (if aligned : bool then run_free nframes 0 start granule free else mret false);
      if ok : bool then mret (Some start) else find_run candidates' nframes align granule free
  end.

Fixpoint remove_frames (n : nat) (i base granule : Z) (free : list Z) : outcome (list Z) :=
  match n with
  | O => mret free
  | S n' =>
      off ← u_mul i granule;
      frame ← addr_add base off;
      remove_frames n' (i + 1) base granule (bt_remove frame free)
  end.

Definition test_allocate_contiguous (layout : Layout) :
    M TestFrameAllocator (result AllocError PhysicalAddress) := fun f =>
  if l_size layout =? 0 then Done (Err MkAllocError, f) else
  let align := Z.max (l_align layout) (tf_granule f) in
  let nframes := Z.to_nat (div_ceil (l_size layout) (tf_granule f)) in
  base ← find_run (tf_free f) nframes align (tf_granule f) (tf_free f);
  match base with
  | None => Done (Err MkAllocError, f)
  | Some base =>
      free' ← remove_frames nframes 0 base (tf_granule f) (tf_free f);
      mret (Ok base, MkTestAllocator (tf_granule f) free')
  end.

Fixpoint insert_back (n : nat) (i block granule : Z) (free : list Z) : outcome (list Z) :=
  match n with
  | O => mret free
  | S n' =>
      off ← u_mul i granule;
      frame ← addr_add block off;
      aligned ← is_aligned_to frame granule;
      _ ← assert_ aligned;
      let '(newly_freed, free') := bt_insert frame free in
      _ ← assert_ newly_freed;
      insert_back n' (i + 1) block granule free'
  end.

Definition test_deallocate (block : PhysicalAddress) (layout : Layout) : M TestFrameAllocator unit := fun f =>
  let nframes := Z.to_nat (div_ceil (l_size layout) (tf_granule f)) in
  free' ← insert_back nframes 0 block (tf_granule f) (tf_free f);
  mret (tt, MkTestAllocator (tf_granule f) free').

#[export] Instance test_frame_allocator : FrameAllocator TestFrameAllocator := {|
  allocate := test_allocate;
  allocate_contiguous := test_allocate_contiguous;
  deallocate := test_deallocate;
|}.

(** ** It satisfies the contract of the trait *)

Lemma bt_contains_spec x l : bt_contains x l = true <-> x ∈ l.
Proof.
  induction l as [| y l IH]; simpl; [set_solver |].
  rewrite orb_true_iff, IH, Z.eqb_eq, elem_of_cons. done.
Qed.

Lemma bt_insert_spec x l :
  x ∉ l -> exists l', bt_insert x l = (true, l') /\ forall y, y ∈ l' <-> y = x \/ y ∈ l.
Proof.
  induction l as [| z l IH]; intros Hx; simpl.
  { eexists. split; [done |]. set_solver. }
  destruct (Z.eqb_spec x z); [set_solver |]. destruct (x <? z).
  - eexists. split; [done |]. set_solver.
  - destruct IH as (l' & -> & Hl'); [set_solver |]. eexists. split; [done |].
    intros y. rewrite elem_of_cons, Hl'. set_solver.
Qed.

Lemma bt_insert_old x l : NoDup l -> x ∈ l -> StronglySorted Z.lt l -> bt_insert x l = (false, l).
Proof.
  induction l as [| z l IH]; intros Hnd Hx Hs; simpl; [set_solver |].
  destruct (Z.eqb_spec x z); [done |]. inversion_clear Hs as [| ?? Hs' Hall]. inversion_clear Hnd.
  assert (x ∈ l) by set_solver. rewrite Forall_forall in Hall. specialize (Hall x ltac:(done)).
  rewrite (proj2 (Z.ltb_ge _ _)) by lia. by rewrite IH.
Qed.

Lemma bt_insert_sorted x l : StronglySorted Z.lt l -> StronglySorted Z.lt (bt_insert x l).2.
Proof.
  induction l as [| z l IH]; intros Hs; simpl.
  { repeat constructor. }
  destruct (Z.eqb_spec x z); [done |]. destruct (Z.ltb_spec x z).
  - simpl. constructor; [done |]. inversion_clear Hs as [| ?? Hs' Hall]. constructor; [done |].
    eapply Forall_impl; [exact Hall |]. simpl. lia.
  - inversion_clear Hs as [| ?? Hs' Hall]. specialize (IH Hs').
    destruct (bt_insert x l) as [new l'] eqn:E. simpl in *. constructor; [done |].
    rewrite Forall_forall in *. intros y Hy.
    destruct (decide (x ∈ l)) as [Hin | Hn].
    + rewrite bt_insert_old in E; [| | done | done]; [simplify_eq; auto |].
      clear -Hs'. induction Hs' as [| y l _ IH Hall]; constructor; [| done].
      rewrite Forall_forall in Hall. intros Hin. specialize (Hall y Hin). lia.
    + destruct (bt_insert_spec x l Hn) as (l'' & E' & Hl''). rewrite E in E'. simplify_eq.
      apply Hl'' in Hy as [-> | Hy]; [lia | auto].
Qed.

Section laws.
Context (granule : Z) (k : Z) (Hk : 0 <= k < 64) (Hg : granule = 2 ^ k) (mem : range).
Context (Hmem : 0 <= r_start mem /\ r_end mem < USIZE_MOD).

Definition frame_in (p : Z) : Prop := p mod granule = 0 /\ r_start mem <= p /\ p + granule <= r_end mem.

(** The free frames are in increasing order; free and allocated frames are
    disjoint frames of the managed memory. *)
Definition test_allocated (f : TestFrameAllocator) (A : gset Z) : Prop :=
  tf_granule f = granule /\ StronglySorted Z.lt (tf_free f) /\ Forall frame_in (tf_free f)
  /\ (forall p, p ∈ A -> frame_in p) /\ (forall p, p ∈ A -> p ∉ tf_free f).

Lemma test_allocated_init free :
  StronglySorted Z.lt free -> Forall frame_in free -> test_allocated (MkTestAllocator granule free) ∅.
Proof. intros Hs Hf. split_and!; try done; set_solver. Qed.

Lemma granule_pos : 0 < granule.
Proof. subst. apply pow2_pos. lia. Qed.

Lemma div_ceil_one : div_ceil granule granule = 1.
Proof. pose proof granule_pos. unfold div_ceil. symmetry. apply (Z.div_unique_pos _ _ _ (granule - 1)); lia. Qed.

Lemma frame_aligned p : frame_in p -> is_aligned_to p granule = Done true.
Proof. intros (Hm & _). subst. rewrite is_aligned_to_pow2 by lia. by rewrite Hm. Qed.

Lemma frame_usize p : frame_in p -> is_usize p.
Proof. intros (_ & ? & ?). pose proof granule_pos. unfold is_usize. lia. Qed.

Lemma test_allocate_contiguous_granule f :
  tf_granule f = granule -> Forall frame_in (tf_free f) ->
  test_allocate_contiguous (MkLayout granule granule) f =
    match tf_free f with
    | [] => Done (Err MkAllocError, f)
    | p :: free' => Done (Ok p, MkTestAllocator granule free')
    end.
Proof.
  intros Hfg Hall. unfold test_allocate_contiguous. cbn [l_size l_align]. pose proof granule_pos.
  destruct (Z.eqb_spec granule 0); [lia |]. rewrite Hfg, div_ceil_one, Z.max_id.
  destruct (tf_free f) as [| p free'] eqn:Ef; [done |]. inversion_clear Hall as [| ?? Hp _].
  assert (Hp0 : addr_add p (0 * granule) = Done p).
  { unfold addr_add. rewrite u_add_Done; [f_equal; lia |]. rewrite Z.add_0_r. by apply frame_usize. }
  change (Z.to_nat 1) with 1%nat. cbn [find_run]. rewrite (frame_aligned p Hp). simpl.
  rewrite Hp0. simpl. rewrite Z.eqb_refl. simpl. rewrite Hp0. simpl. by rewrite Z.eqb_refl.
Qed.

Definition test_allocator_laws : FrameAllocatorLaws granule TestFrameAllocator.
Proof using Hk Hg Hmem.
  refine {| fa_allocated := test_allocated; fa_memory := mem |}.
  - intros f A p (_ & _ & _ & HA & _) Hp. by apply HA.
  - intros f A (Hfg & Hsort & Hall & HA & Hdis). cbn [allocate_contiguous test_frame_allocator].
    rewrite (test_allocate_contiguous_granule f Hfg Hall).
    destruct (tf_free f) as [| p free'] eqn:Ef.
    { eexists _, _. split; [done |]. split_and!; try done; by rewrite Ef. }
    inversion_clear Hall as [| ?? Hp Hall']. inversion_clear Hsort as [| ?? Hs' Hlt].
    eexists _, _. split; [done |]. cbn. split; [intros Hin; apply (Hdis p Hin); set_solver |].
    split_and!; try done; cbn.
    + intros q. rewrite elem_of_union, elem_of_singleton. intros [-> | Hq]; auto.
    + intros q. rewrite elem_of_union, elem_of_singleton. intros [-> | Hq] Hin.
      * rewrite Forall_forall in Hlt. specialize (Hlt p Hin). lia.
      * apply (Hdis q Hq). set_solver.
Defined.

Lemma test_deallocator_laws :
  FrameDeallocatorLaws granule TestFrameAllocator (fal := test_allocator_laws).
Proof using Hk Hg Hmem.
  split. intros f A p (Hfg & Hsort & Hall & HA & Hdis) Hp. pose proof granule_pos.
  pose proof (HA p Hp) as Hfp. cbn [deallocate test_frame_allocator]. unfold test_deallocate.
  cbn [l_size]. rewrite Hfg, div_ceil_one. change (Z.to_nat 1) with 1%nat. cbn [insert_back].
  assert (Hp0 : addr_add p (0 * granule) = Done p).
  { unfold addr_add. rewrite u_add_Done; [f_equal; lia |]. rewrite Z.add_0_r. by apply frame_usize. }
  simpl. rewrite Hp0. simpl. rewrite (frame_aligned p Hfp). simpl.
  pose proof (bt_insert_sorted p (tf_free f) Hsort) as Hsort'.
  destruct (bt_insert_spec p (tf_free f) (Hdis p Hp)) as (l' & E & Hl'). rewrite E in *. simpl in *.
  eexists. split; [done |]. split_and!; cbn; try done.
  - rewrite Forall_forall in *. intros q Hq. apply Hl' in Hq as [-> | Hq]; auto.
  - intros q. rewrite elem_of_difference. intros [Hq _]. by apply HA.
  - intros q. rewrite elem_of_difference, elem_of_singleton. intros [Hq Hne] Hin.
    apply Hl' in Hin as [-> | Hin]; [done |]. by apply (Hdis q Hq).
Qed.

End laws.
