(* ===== verification/Demo.v ===== *)
(** * A small concrete machine

    A RISC-V hart in Sv39 mode with sixteen frames of memory, all free, seen
    through a physmap at the default base.  It instantiates the parameters of
    the development, so that the theorems can be applied to a running system. *)

From stdpp Require Import base numbers list gmap sets sorting.
From Stdlib Require Import ZArith Lia.
From S2P Require Import Prelude Address Bitfield Riscv Arch RiscvPaging PhysMap Machine Table.
From S2P Require Import Flush AddressSpace PageTable Walk TableOps Visitors AddressSpaceSpec.
From S2P Require Import TestAllocator.

(** The firmware accepts every call. *)
Definition demo_firmware : Sbi := fun _ => (0, 0).

#[export] Instance demo_bitfield : Bitfield := shift_mask.
#[export] Instance demo_arch : Arch := @Riscv64Sv39 shift_mask demo_firmware 0.
#[export] Instance demo_laws : ArchLaws := @Sv39_laws shift_mask shift_mask_laws demo_firmware 0.
#[export] Instance demo_maps_4KiB : MapsAt Size4KiB := @Sv39_maps_4KiB shift_mask demo_firmware 0.
#[export] Instance demo_maps_2MiB : MapsAt Size2MiB := @Sv39_maps_2MiB shift_mask demo_firmware 0.

Definition demo_ram : range := Range 0x80000000 0x80010000.

Definition demo_physmap : PhysMap :=
  match physmap_new Size4KiB DEFAULT_PHYSMAP_BASE [demo_ram] with
  | Done pm => pm
  | _ => MkPhysMap 0 demo_ram demo_ram
  end.

Lemma demo_granule : GRANULE_SIZE = 2 ^ 12.
Proof. done. Qed.

#[export] Instance demo_fal : FrameAllocatorLaws GRANULE_SIZE TestFrameAllocator :=
  test_allocator_laws GRANULE_SIZE 12 ltac:(lia) demo_granule demo_ram ltac:(simpl; lia).

#[export] Instance demo_fdl : FrameDeallocatorLaws GRANULE_SIZE TestFrameAllocator :=
  test_deallocator_laws GRANULE_SIZE 12 ltac:(lia) demo_granule demo_ram ltac:(simpl; lia).

Lemma demo_platform : platform_ok demo_physmap.
Proof. split; [split | ..]; by vm_compute. Qed.

(** Zeroed memory of [n] words at [base]. *)
Fixpoint zeroed_from (base : Z) (n : nat) : gmap Z Z :=
  match n with O => ∅ | S n => <[base := 0]> (zeroed_from (base + 8) n) end.
Definition zeroed_words (base : Z) (n : Z) : gmap Z Z := zeroed_from base (Z.to_nat n).

Lemma zeroed_words_lookup base n i :
  0 <= i < n -> zeroed_words base n !! (base + 8 * i) = Some 0.
Proof.
  intros Hi. unfold zeroed_words. assert (Hn : i < Z.of_nat (Z.to_nat n)) by lia. destruct Hi as [Hi _]. clear -Hi Hn.
  revert base i Hi Hn. induction (Z.to_nat n) as [| k IH]; intros base i Hi Hn; [lia |]. simpl.
  destruct (decide (i = 0)) as [-> | ?]; [rewrite Z.mul_0_r, Z.add_0_r; apply lookup_insert_eq |].
  rewrite lookup_insert_ne by lia. replace (base + 8 * i) with (base + 8 + 8 * (i - 1)) by lia. apply IH; lia.
Qed.

Lemma zeroed_words_usize base n : words_usize (zeroed_words base n).
Proof.
  unfold zeroed_words. revert base. induction (Z.to_nat n) as [| k IH]; intros base a v Hv; simpl in Hv.
  - by rewrite lookup_empty in Hv.
  - apply lookup_insert_Some in Hv as [[_ <-] | [_ Hv]]; [unfold is_usize; lia | by eapply IH].
Qed.

Definition demo_world : world TestFrameAllocator :=
  World (zeroed_words DEFAULT_PHYSMAP_BASE 8192) (Hart 0 [])
    (match test_new GRANULE_SIZE [demo_ram] with Done f => f | _ => MkTestAllocator 0 [] end).

Lemma demo_mem_ok : mem_ok demo_physmap (w_mem demo_world).
Proof.
  split; [apply zeroed_words_usize |]. intros p Hp H8. simpl in Hp.
  apply Z.mod_divide in H8 as [q Hq]; [| lia]. eexists.
  replace (pv demo_physmap p) with (DEFAULT_PHYSMAP_BASE + 8 * (q - 268435456)).
  - apply zeroed_words_lookup. lia.
  - change (pv demo_physmap p) with (DEFAULT_PHYSMAP_BASE + (p - 0x80000000)). lia.
Qed.

Lemma demo_frames_ok : fa_allocated (w_frames demo_world) ∅.
Proof.
  assert (E : w_frames demo_world = MkTestAllocator 4096 ((fun i => 0x80000000 + i * 4096) <$> seqZ 0 16))
    by by vm_compute.
  rewrite E. apply test_allocated_init.
  - cbn. repeat (constructor; [| repeat constructor; lia]). constructor.
  - cbn. repeat constructor; vm_compute; done.
Qed.

(** ** A fresh address space, and one with two pages mapped *)

Definition demo_aspace : HardwareAddressSpace := MkAddressSpace (MkTable 0x80000000 0).

Definition demo_fresh : world TestFrameAllocator :=
  match aspace_new demo_physmap demo_world with Done (_, w) => w | _ => demo_world end.

Lemma demo_fresh_unmapped (s : PageSize) {maps : MapsAt s} :
  aspace_ok demo_physmap demo_aspace ∅ demo_fresh
  /\ forall va, unmapped_at demo_physmap s demo_aspace demo_fresh va.
Proof.
  destruct (aspace_new_run demo_physmap demo_platform s demo_world ∅ demo_mem_ok demo_frames_ok)
    as (r & w' & E & _ & Hr).
  assert (Hroot : match aspace_new demo_physmap demo_world with
    | Done (Ok a, _) => bool_decide (t_base (root_page_table a) = 0x80000000 /\ t_depth (root_page_table a) = 0%nat)
    | _ => false end = true) by by vm_compute.
  unfold demo_fresh. rewrite E in *. destruct r as [[[b d]] | ?]; [| done].
  apply bool_decide_eq_true in Hroot as [Hb Hd]. cbn in Hb, Hd. subst. done.
Qed.

Lemma demo_fresh_ok :
  aspace_ok demo_physmap demo_aspace ∅ demo_fresh
  /\ forall va, unmapped_at demo_physmap Size4KiB demo_aspace demo_fresh va.
Proof. exact (demo_fresh_unmapped Size4KiB). Qed.

Definition demo_virt : range := Range 0x3fffffe000 0x4000000000.
Definition demo_attrs : MemoryAttributes := MkAttributes true Write Normal.

Definition demo_mapped : Flush * world TestFrameAllocator :=
  match map_contiguous Size4KiB demo_aspace demo_virt 0x90000000 demo_attrs demo_physmap flush_new demo_fresh with
  | Done ((_, f), w) => (f, w)
  | _ => (flush_new, demo_fresh)
  end.

Lemma demo_virt_ok : virt_ok Size4KiB demo_virt.
Proof.
  split; [by vm_compute |]. split; [| by vm_compute]. split; [by vm_compute |]. left. by vm_compute.
Qed.

Lemma demo_phys_ok p : 0 <= p < 2 ^ 55 -> p mod 4096 = 0 -> phys_ok Size4KiB p (r_end demo_virt - r_start demo_virt).
Proof. intros Hp Hm. split; [lia |]. split; [| done]. simpl PHYS_LIMIT. simpl. unfold PHYSICAL_ADDRESS_BITS. lia. Qed.

Lemma demo_mapped_ok :
  aspace_ok demo_physmap demo_aspace ∅ demo_mapped.2 /\ flush_ok demo_mapped.1
  /\ forall va, r_start demo_virt <= va < r_end demo_virt ->
       mapped_at demo_physmap Size4KiB demo_aspace demo_mapped.2 va.
Proof.
  destruct demo_fresh_ok as [Hok Hun].
  destruct (map_contiguous_run demo_physmap demo_platform Size4KiB demo_aspace ∅ demo_fresh demo_virt 0x90000000
    demo_attrs flush_new Hok demo_virt_ok (demo_phys_ok 0x90000000 ltac:(lia) eq_refl) eq_refl flush_new_ok)
    as (r & f' & w' & c & E & _ & Hr & Hch); [by intros; apply Hun |].
  assert (Hres : match map_contiguous Size4KiB demo_aspace demo_virt 0x90000000 demo_attrs demo_physmap flush_new demo_fresh with
    | Done ((Ok _, _), _) => true | _ => false end = true) by by vm_compute.
  unfold demo_mapped. rewrite E in *. destruct r as [[] |]; [| done]. subst c. cbn [fst snd].
  destruct Hch as [Hok' _ (Hf & _) _ Hin]. split_and!; [done | done |].
  intros va Hva. destruct (Hin va Hva) as (x & l & Hst & Hsz & _).
  exists x, l. split; [exact Hst | exact Hsz].
Qed.
