(* ===== verification/Mmu.v ===== *)
(** * What the address space operations guarantee

    The theorems about lib/mem-mmu, each with an application to the concrete
    machine of [Demo]. *)

From stdpp Require Import base numbers list gmap sets.
From Stdlib Require Import ZArith Lia.
From S2P Require Import Prelude Address Riscv ArrayVec Arch PhysMap Machine Table Flush.
From S2P Require Import AddressSpace PageTable Walk TableOps Visitors AddressSpaceSpec.
From S2P Require Import FastPath TestAllocator Demo.

Section mmu.
Context {arch : Arch} {laws : ArchLaws} {F : Type} {fa : FrameAllocator F}
  {fal : FrameAllocatorLaws GRANULE_SIZE F}.

(** Outside the processed range the translation is the old one. *)
Lemma changed_translate pm s {maps : MapsAt s} a R (w : world F) s0 c T f f' w' va :
  changed pm s a R w s0 c T f f' w' -> canonical va -> ~ s0 <= va < c ->
  translate pm a w' va = translate pm a w va.
Proof. intros [] Hc Hn. rewrite !(translate_status pm s). by rewrite ch_outside. Qed.

(** C1: [map_contiguous] always returns.  It maps a prefix [start..c) of the
    range to the physical block with the requested attributes, all of it if the
    result is [Ok]; an error means that the frame allocator refused a table.
    The addresses mapped are recorded for TLB invalidation, every other
    canonical address keeps its translation, and no memory in use elsewhere
    changes. *)
Theorem map_contiguous_correct pm s {maps : MapsAt s} a R (w : world F) virt phys attrs flush :
  platform_ok pm -> aspace_ok pm a R w -> virt_ok s virt ->
  phys_ok s phys (r_end virt - r_start virt) ->
  attributes_accessible attrs = true -> flush_ok flush ->
  (forall va, r_start virt <= va < r_end virt -> unmapped_at pm s a w va) ->
  exists r flush' w' c,
    map_contiguous s a virt phys attrs pm flush w = Done ((r, flush'), w')
    /\ r_start virt <= c <= r_end virt
    /\ match r with Ok _ => c = r_end virt | Err _ => out_of_frames w' end
    /\ aspace_ok pm a R w' /\ keeps pm R w w' /\ flush_ok flush'
    /\ (forall va, r_start virt <= va < c ->
          (exists l, translate pm a w' va = Some (phys + (va - r_start virt), normalize_attributes attrs, l)
                     /\ page_size l = BYTES s)
          /\ flush_covers flush' va)
    /\ (forall va, canonical va -> ~ r_start virt <= va < c -> translate pm a w' va = translate pm a w va).
Proof.
  intros Hpo Hok Hv Hp Hacc Hf Hun.
  destruct (map_contiguous_run pm Hpo s a R w virt phys attrs flush Hok Hv Hp Hacc Hf Hun)
    as (r & f' & w' & c & E & Hc & Hr & Hch). pose proof Hch as [Hok' HK (Hfok & Hcov & _) _ Hin].
  exists r, f', w', c. split_and!; try done; try lia.
  - intros va Hva. split; [| by apply Hcov]. by apply (leaf_maps_translate pm s), Hin.
  - intros va Hcan Hn. by eapply changed_translate.
Qed.

(** C2: [map] over discontiguous blocks maps the virtual range to the
    concatenation of the blocks, in order, under the same guarantees. *)
Theorem map_correct pm s {maps : MapsAt s} a R (w : world F) virt blocks attrs flush :
  platform_ok pm -> aspace_ok pm a R w ->
  let e := r_start virt + blocks_len blocks in
  e <= r_end virt -> virt_ok s (Range (r_start virt) e) -> Forall (block_ok s) blocks ->
  attributes_accessible attrs = true -> flush_ok flush ->
  (forall va, r_start virt <= va < e -> unmapped_at pm s a w va) ->
  exists r flush' w' c,
    aspace_map s a virt blocks attrs pm flush w = Done ((r, flush'), w')
    /\ r_start virt <= c <= e
    /\ match r with Ok _ => c = e | Err _ => out_of_frames w' end
    /\ aspace_ok pm a R w' /\ keeps pm R w w' /\ flush_ok flush'
    /\ (forall va, r_start virt <= va < c ->
          (exists l, translate pm a w' va
                     = Some (block_target blocks (va - r_start virt), normalize_attributes attrs, l)
                     /\ page_size l = BYTES s)
          /\ flush_covers flush' va)
    /\ (forall va, canonical va -> ~ r_start virt <= va < c -> translate pm a w' va = translate pm a w va).
Proof.
  intros Hpo Hok e He Hv Hbs Hacc Hf Hun. destruct virt as [s0 e0]. cbn [r_start r_end] in *.
  destruct (aspace_map_run pm Hpo s a R attrs blocks Hacc Hbs w s0 e0 flush Hok Hf He (fun _ => Hv) Hun)
    as (r & f' & w' & c & E & Hc & Hr & Hch). pose proof Hch as [Hok' HK (Hfok & Hcov & _) _ Hin].
  exists r, f', w', c. split_and!; try done; try lia.
  - intros va Hva. split; [| by apply Hcov]. by apply (leaf_maps_translate pm s), Hin.
  - intros va Hcan Hn. by eapply changed_translate.
Qed.

(** C3: [unmap] of a mapped range removes its translations, records the range
    for invalidation and keeps every other canonical address' translation.  On
    the way to an address of the range no table is left empty below the root,
    and the frames still allocated are exactly those of the tables of the tree
    and the others that were: tables that became empty went back to the
    allocator. *)
Theorem unmap_correct {fdl : FrameDeallocatorLaws GRANULE_SIZE F}
    pm s {maps : MapsAt s} a R (w : world F) virt flush :
  platform_ok pm -> aspace_ok pm a R w -> virt_ok s virt -> flush_ok flush ->
  (forall va, r_start virt <= va < r_end virt -> mapped_at pm s a w va) ->
  exists flush' w', unmap s a virt pm flush w = Done (flush', w')
    /\ aspace_ok pm a R w' /\ keeps pm R w w' /\ flush_ok flush'
    /\ (forall va, r_start virt <= va < r_end virt ->
          translate pm a w' va = None /\ unmapped_at pm s a w' va /\ flush_covers flush' va
          /\ no_empty_table pm a w' va)
    /\ (exists S, owns pm fa_memory LEVELS (w_mem w') (t_base (root_page_table a)) S /\ S ## R
          /\ fa_allocated (w_frames w') (S ∪ R))
    /\ (forall va, canonical va -> ~ r_start virt <= va < r_end virt ->
          translate pm a w' va = translate pm a w va).
Proof.
  intros Hpo Hok Hv Hf Hm. destruct (unmap_run pm Hpo s a R w virt flush Hok Hv Hf Hm) as (f' & w' & E & Hch & Hne).
  pose proof Hch as [Hok' HK (Hfok & Hcov & _) _ Hin]. exists f', w'. split_and!; try done; [| by apply Hok' |].
  - intros va Hva. split_and!; [| by apply Hin | by apply Hcov | by apply Hne].
    rewrite (translate_status pm s). by rewrite (Hin va Hva).
  - intros va Hcan Hn. by eapply changed_translate.
Qed.

(** [remap] moves a mapped range to the given blocks, keeping each
    address' attributes. *)
Theorem remap_correct pm s {maps : MapsAt s} a R (w : world F) virt blocks flush :
  platform_ok pm -> aspace_ok pm a R w ->
  let e := r_start virt + blocks_len blocks in
  e <= r_end virt -> virt_ok s (Range (r_start virt) e) -> Forall (block_ok s) blocks -> flush_ok flush ->
  (forall va, r_start virt <= va < e -> mapped_at pm s a w va) ->
  exists flush' w', aspace_remap s a virt blocks pm flush w = Done ((Ok tt, flush'), w')
    /\ aspace_ok pm a R w' /\ keeps pm R w w' /\ flush_ok flush'
    /\ (forall va, r_start virt <= va < e ->
          (exists pa attrs l, translate pm a w va = Some (pa, attrs, l)
             /\ translate pm a w' va = Some (block_target blocks (va - r_start virt), attrs, l))
          /\ flush_covers flush' va)
    /\ (forall va, canonical va -> ~ r_start virt <= va < e -> translate pm a w' va = translate pm a w va).
Proof.
  intros Hpo Hok e He Hv Hbs Hf Hm. destruct virt as [s0 e0]. cbn [r_start r_end] in *.
  destruct (aspace_remap_run pm Hpo s a R blocks Hbs w s0 e0 flush Hok Hf He (fun _ => Hv) Hm) as (f' & w' & E & Hch).
  pose proof Hch as [Hok' HK (Hfok & Hcov & _) _ Hin]. exists f', w'. split_and!; try done.
  - intros va Hva. split; [| by apply Hcov]. destruct (Hin va Hva) as (x & x' & l & attrs & Hst & Hst' & Ha & Hpa & Ha').
    exists (pte_address x + va mod page_size l), attrs, l.
    rewrite !(translate_status pm s), Hst, Hst'. simpl. by rewrite Ha, Ha', Hpa.
  - intros va Hcan Hn. by eapply changed_translate.
Qed.

(** C4: [set_attributes] changes the attributes of a mapped range and leaves
    the physical address of every address as it is. *)
Theorem set_attributes_correct pm s {maps : MapsAt s} a R (w : world F) virt attrs flush :
  platform_ok pm -> aspace_ok pm a R w -> virt_ok s virt -> attributes_accessible attrs = true -> flush_ok flush ->
  (forall va, r_start virt <= va < r_end virt -> mapped_at pm s a w va) ->
  exists flush' w', set_attributes s a virt attrs pm flush w = Done (flush', w')
    /\ aspace_ok pm a R w' /\ keeps pm R w w' /\ flush_ok flush'
    /\ (forall va, r_start virt <= va < r_end virt ->
          (exists pa old l, translate pm a w va = Some (pa, old, l)
             /\ translate pm a w' va = Some (pa, normalize_attributes attrs, l))
          /\ flush_covers flush' va)
    /\ (forall va, canonical va -> ~ r_start virt <= va < r_end virt ->
          translate pm a w' va = translate pm a w va).
Proof.
  intros Hpo Hok Hv Hacc Hf Hm.
  destruct (set_attributes_run pm Hpo s a R w virt attrs flush Hok Hv Hacc Hf Hm) as (f' & w' & E & Hch).
  pose proof Hch as [Hok' HK (Hfok & Hcov & _) _ Hin]. exists f', w'. split_and!; try done.
  - intros va Hva. split; [| by apply Hcov]. destruct (Hin va Hva) as (x & x' & l & Hst & Hst' & Hpa & Ha').
    destruct (mapped_attributes pm s a R w va x l Hok Hst) as [old Ho].
    exists (pte_address x + va mod page_size l), old, l.
    rewrite !(translate_status pm s), Hst, Hst'. simpl. by rewrite Ho, Ha', Hpa.
  - intros va Hcan Hn. by eapply changed_translate.
Qed.

(** C5: [lookup] computes the abstract translation without changing
    anything, for every [usize] address. *)
Theorem lookup_correct pm a R (w : world F) va :
  platform_ok pm -> aspace_ok pm a R w -> is_usize va ->
  aspace_lookup a va pm w = Done (translate pm a w va, w).
Proof.
  intros Hpo [Hd HI] [Hva _]. destruct a as [[b d]]. cbn in Hd, HI. subst d.
  unfold aspace_lookup. cbn [root_page_table]. by apply (lookup_loop_spec pm Hpo LEVELS 0 b R w va).
Qed.

(** C6: mapping a range and unmapping it again restores the translation
    of every canonical address. *)
Theorem map_unmap_roundtrip {fdl : FrameDeallocatorLaws GRANULE_SIZE F}
    pm s {maps : MapsAt s} a R (w : world F) virt phys attrs flush flush1 w1 :
  platform_ok pm -> aspace_ok pm a R w -> virt_ok s virt ->
  phys_ok s phys (r_end virt - r_start virt) ->
  attributes_accessible attrs = true -> flush_ok flush ->
  (forall va, r_start virt <= va < r_end virt -> unmapped_at pm s a w va) ->
  map_contiguous s a virt phys attrs pm flush w = Done ((Ok tt, flush1), w1) ->
  exists flush2 w2, unmap s a virt pm flush1 w1 = Done (flush2, w2) /\ aspace_ok pm a R w2
    /\ forall va, canonical va -> translate pm a w2 va = translate pm a w va.
Proof.
  intros Hpo Hok Hv Hp Hacc Hf Hun E1.
  destruct (map_contiguous_run pm Hpo s a R w virt phys attrs flush Hok Hv Hp Hacc Hf Hun)
    as (r & f' & w' & c & E & Hc & Hr & Hch). rewrite E1 in E. simplify_eq.
  destruct (unmap_run pm Hpo s a R w' virt f') as (f2 & w2 & E2 & Hch2 & _); auto.
  { by destruct Hch. } { by destruct (ch_flush _ _ _ _ _ _ _ _ _ _ _ Hch). }
  { intros va Hva. destruct (ch_inside _ _ _ _ _ _ _ _ _ _ _ Hch va Hva) as (x & l & Hst & Hsz & _). by exists x, l. }
  exists f2, w2. split; [done |]. split; [by destruct Hch2 |]. intros va Hcan.
  destruct (decide (r_start virt <= va < r_end virt)) as [Hin | Hout].
  - rewrite !(translate_status pm s). rewrite (ch_inside _ _ _ _ _ _ _ _ _ _ _ Hch2 va Hin).
    by rewrite (Hun va Hin).
  - etrans; [by eapply changed_translate | by eapply changed_translate].
Qed.

(** Creating an address space allocates one zeroed table; in the new
    address space nothing is mapped. *)
Theorem new_correct pm s {maps : MapsAt s} (w : world F) A :
  platform_ok pm -> mem_ok pm (w_mem w) -> fa_allocated (w_frames w) A ->
  exists r w', aspace_new pm w = Done (r, w') /\ keeps pm A w w'
  /\ match r with
     | Ok a => aspace_ok pm a A w' /\ forall va, unmapped_at pm s a w' va /\ translate pm a w' va = None
     | Err _ => out_of_frames w' /\ fa_allocated (w_frames w') A
     end.
Proof.
  intros Hpo Hm Hal. destruct (aspace_new_run pm Hpo s w A Hm Hal) as (r & w' & E & HK & Hr).
  exists r, w'. split; [done |]. split; [done |]. destruct r as [a |]; [| done].
  destruct Hr as [Hok Hun]. split; [done |]. intros va. split; [by apply Hun |].
  rewrite (translate_status pm s). by rewrite (Hun va).
Qed.

(** [map_identity] makes every address of the range translate to itself. *)
Theorem map_identity_correct pm s {maps : MapsAt s} a R (w : world F) phys attrs flush :
  platform_ok pm -> aspace_ok pm a R w -> virt_ok s phys -> r_end phys <= PHYS_LIMIT ->
  attributes_accessible attrs = true -> flush_ok flush ->
  (forall va, r_start phys <= va < r_end phys -> unmapped_at pm s a w va) ->
  exists r flush' w', map_identity s a phys attrs pm flush w = Done ((r, flush'), w') /\ aspace_ok pm a R w'
    /\ match r with
       | Ok _ => forall va, r_start phys <= va < r_end phys ->
           exists l, translate pm a w' va = Some (va, normalize_attributes attrs, l)
       | Err _ => out_of_frames w'
       end.
Proof.
  intros Hpo Hok Hv Hl Hacc Hf Hun. destruct phys as [s0 e]. unfold map_identity. cbn [r_start r_end] in *.
  pose proof Hv as (Hse & [Hs0 _] & Hal & _). cbn [r_start r_end] in *.
  destruct (map_contiguous_run pm Hpo s a R w (Range s0 e) s0 attrs flush Hok Hv) as (r & f' & w' & c & E & Hc & Hr & Hch);
    auto; [cbn; split_and!; [lia | lia | done] |].
  exists r, f', w'. split; [done |]. split; [by destruct Hch |]. destruct r as [[] |]; [subst c | done].
  intros va Hva. destruct (leaf_maps_translate pm s a w' va _ _ (ch_inside _ _ _ _ _ _ _ _ _ _ _ Hch va Hva)) as (l & Ht & _).
  exists l. rewrite Ht. cbn. by replace (s0 + (va - s0)) with va by lia.
Qed.

End mmu.

Section walk_facts.
Context {arch : Arch} {laws : ArchLaws}.

(** C7: the fast path [visit_leaf] for one page is equivalent to the
    general [visit_range], for every visitor and from every table on the way
    down to the leaf level. *)
Theorem visit_leaf_equiv s {maps : MapsAt s} pm {F V E} {Vis : Visitor F V E} k d l ls b va st :
  (d + k = DEPTH)%nat -> drop d LEVELS = l :: ls -> table_range s (l :: ls) va (va + BYTES s) ->
  visit_leaf s (S k) (MkTable b d) va pm st
  = visit_range s (S k) (MkTable b d) (Range va (va + BYTES s)) pm st.
Proof. intros Hd Hl Htr. apply (fast_path_equiv s pm k (S k) d l ls b va st); auto. Qed.

(** The entries iterator splits a range of one table into contiguous,
    non-empty pieces that cover it exactly, each inside the entry it is
    yielded with. *)
Theorem entries_partition d l ls s0 e :
  drop d LEVELS = l :: ls -> s0 < e -> in_half VIRTUAL_ADDRESS_BITS s0 e ->
  s0 mod span (l :: ls) + (e - s0) <= span (l :: ls) ->
  exists es chunks,
    page_table_entries_for (Range s0 e) l = Done es
    /\ entries_collect (length (pe_iter es)) es = Done chunks
    /\ tiles s0 e chunks
    /\ Forall (fun '(i, r) => forall va, r_start r <= va < r_end r -> pte_index_of l va = Done i) chunks.
Proof.
  intros Hd Hse Hh Hin. pose proof (levels_wf_drop d) as Hwf. rewrite Hd in Hwf.
  destruct (levels_wf_cons _ _ Hwf) as [Hl _]. assert (Hsp : 0 < span (l :: ls)) by by apply span_pos.
  set (first := s0 mod span (l :: ls) / page_size l). set (last := (e - 1) mod span (l :: ls) / page_size l).
  assert (Hle : first <= last).
  { pose proof (Z.mod_pos_bound s0 (span (l :: ls)) Hsp). pose proof (page_size_pos l Hl).
    unfold last. rewrite (mod_add_small _ s0 (e - 1)) by lia. apply Z.div_le_mono; lia. }
  destruct (entries_collect_tiles l ls (Z.to_nat (last - first + 1)) s0 e Hwf Hse Hh Hin)
    as (chunks & Ec & Ht & Hall); [rewrite Z2Nat.id by lia; done |].
  exists (MkEntries (seqZ first (last - first + 1)) s0 e (page_size l)), chunks. cbn [pe_iter].
  rewrite Z2Nat.id in Ec by lia. rewrite length_seqZ. split_and!; [| exact Ec | done |].
  - apply (page_table_entries_for_spec d l ls s0 e Hd Hse Hh Hin).
  - clear Ec. assert (Hs0 : 0 <= s0) by apply Hh. revert s0 Hs0 Ht Hall Hse Hh Hin first last Hle. intros s0 Hs0 Ht Hall _ _ _ _ _ _.
    revert s0 Hs0 Ht. induction Hall as [| [i r] chunks Hi _ IH]; intros s0 Hs0 Ht; constructor.
    + destruct Ht as (Hr & _ & _). intros va Hva. rewrite (pte_index_of_Done l ls) by (done || lia). by rewrite Hi.
    + destruct Ht as (Hr & Hlt & Ht). apply (IH (r_end r)); [lia | done].
Qed.

End walk_facts.

(** ** On the concrete machine *)

Opaque demo_fresh demo_mapped.

Lemma map_contiguous_correct_witness :
  exists r flush' w' c,
    map_contiguous Size4KiB demo_aspace demo_virt 0x90000000 demo_attrs demo_physmap flush_new demo_fresh = Done ((r, flush'), w')
    /\ r_start demo_virt <= c <= r_end demo_virt.
Proof.
  destruct (map_contiguous_correct demo_physmap Size4KiB demo_aspace ∅ demo_fresh demo_virt 0x90000000 demo_attrs flush_new)
    as (r & f' & w' & c & E & Hc & _).
  - exact demo_platform.
  - exact (proj1 demo_fresh_ok).
  - exact demo_virt_ok.
  - exact (demo_phys_ok 0x90000000 ltac:(lia) eq_refl).
  - reflexivity.
  - exact flush_new_ok.
  - intros va _. exact (proj2 demo_fresh_ok va).
  - exists r, f', w', c. split; [exact E | exact Hc].
Defined.

Definition demo_blocks : list range := [Range 0x90001000 0x90002000; Range 0x91000000 0x91001000].

Lemma demo_blocks_ok : Forall (block_ok Size4KiB) demo_blocks.
Proof.
  repeat constructor; unfold phys_ok; try (vm_compute; done).
Qed.

Lemma map_correct_witness :
  exists r flush' w' c,
    aspace_map Size4KiB demo_aspace demo_virt demo_blocks demo_attrs demo_physmap flush_new demo_fresh = Done ((r, flush'), w')
    /\ r_start demo_virt <= c <= r_start demo_virt + blocks_len demo_blocks.
Proof.
  destruct (map_correct demo_physmap Size4KiB demo_aspace ∅ demo_fresh demo_virt demo_blocks demo_attrs flush_new)
    as (r & f' & w' & c & E & Hc & _).
  - exact demo_platform.
  - exact (proj1 demo_fresh_ok).
  - vm_compute. discriminate.
  - exact demo_virt_ok.
  - exact demo_blocks_ok.
  - reflexivity.
  - exact flush_new_ok.
  - intros va _. exact (proj2 demo_fresh_ok va).
  - exists r, f', w', c. split; [exact E | exact Hc].
Defined.

Lemma unmap_correct_witness :
  exists flush' w', unmap Size4KiB demo_aspace demo_virt demo_physmap demo_mapped.1 demo_mapped.2 = Done (flush', w')
    /\ aspace_ok demo_physmap demo_aspace ∅ w'.
Proof.
  destruct demo_mapped_ok as (Hok & Hf & Hm).
  pose proof (unmap_correct demo_physmap Size4KiB demo_aspace ∅ demo_mapped.2 demo_virt demo_mapped.1) as Hspec.
  destruct (Hspec demo_platform Hok demo_virt_ok Hf Hm) as (f' & w' & E & Hok' & _).
  exists f', w'. split; [exact E | exact Hok'].
Defined.

Lemma remap_correct_witness :
  exists flush' w',
    aspace_remap Size4KiB demo_aspace demo_virt demo_blocks demo_physmap demo_mapped.1 demo_mapped.2
    = Done ((Ok tt, flush'), w').
Proof.
  destruct demo_mapped_ok as (Hok & Hf & Hm).
  pose proof (remap_correct demo_physmap Size4KiB demo_aspace ∅ demo_mapped.2 demo_virt demo_blocks demo_mapped.1) as Hspec.
  destruct (Hspec demo_platform Hok) as (f' & w' & E & _).
  - vm_compute. discriminate.
  - exact demo_virt_ok.
  - exact demo_blocks_ok.
  - exact Hf.
  - exact Hm.
  - exists f', w'. exact E.
Defined.

Lemma set_attributes_correct_witness :
  exists flush' w',
    set_attributes Size4KiB demo_aspace demo_virt (MkAttributes true Execute Normal) demo_physmap demo_mapped.1 demo_mapped.2
    = Done (flush', w').
Proof.
  destruct demo_mapped_ok as (Hok & Hf & Hm).
  pose proof (set_attributes_correct demo_physmap Size4KiB demo_aspace ∅ demo_mapped.2 demo_virt
    (MkAttributes true Execute Normal) demo_mapped.1) as Hspec.
  destruct (Hspec demo_platform Hok demo_virt_ok eq_refl Hf Hm) as (f' & w' & E & _).
  exists f', w'. exact E.
Defined.

Lemma lookup_correct_witness :
  aspace_lookup demo_aspace 0x3fffffe123 demo_physmap demo_mapped.2
  = Done (translate demo_physmap demo_aspace demo_mapped.2 0x3fffffe123, demo_mapped.2).
Proof.
  pose proof (lookup_correct demo_physmap demo_aspace ∅ demo_mapped.2 0x3fffffe123) as Hspec.
  apply (Hspec demo_platform (proj1 demo_mapped_ok)). unfold is_usize. lia.
Defined.

Lemma map_unmap_roundtrip_witness :
  exists flush1 w1 flush2 w2,
    map_contiguous Size4KiB demo_aspace demo_virt 0x90000000 demo_attrs demo_physmap flush_new demo_fresh
    = Done ((Ok tt, flush1), w1)
    /\ unmap Size4KiB demo_aspace demo_virt demo_physmap flush1 w1 = Done (flush2, w2).
Proof.
  assert (Hres : exists f1 w1,
    map_contiguous Size4KiB demo_aspace demo_virt 0x90000000 demo_attrs demo_physmap flush_new demo_fresh = Done ((Ok tt, f1), w1)).
  { assert (Hb : match map_contiguous Size4KiB demo_aspace demo_virt 0x90000000 demo_attrs demo_physmap flush_new demo_fresh with
      | Done ((Ok _, _), _) => true | _ => false end = true) by (vm_compute; reflexivity).
    destruct (map_contiguous _ _ _ _ _ _ _ _) as [[[[[] |] f1] w1] | |]; try discriminate Hb.
    exists f1, w1. reflexivity. }
  destruct Hres as (f1 & w1 & E1).
  destruct (map_unmap_roundtrip demo_physmap Size4KiB demo_aspace ∅ demo_fresh demo_virt 0x90000000 demo_attrs flush_new f1 w1)
    as (f2 & w2 & E2 & _).
  - exact demo_platform.
  - exact (proj1 demo_fresh_ok).
  - exact demo_virt_ok.
  - exact (demo_phys_ok 0x90000000 ltac:(lia) eq_refl).
  - reflexivity.
  - exact flush_new_ok.
  - intros va _. exact (proj2 demo_fresh_ok va).
  - exact E1.
  - exists f1, w1, f2, w2. split; [exact E1 | exact E2].
Defined.

Lemma new_correct_witness :
  exists r w', aspace_new demo_physmap demo_world = Done (r, w') /\ keeps demo_physmap ∅ demo_world w'.
Proof.
  pose proof (new_correct demo_physmap Size4KiB demo_world ∅) as Hspec.
  destruct (Hspec demo_platform demo_mem_ok demo_frames_ok) as (r & w' & E & HK & _).
  exists r, w'. split; [exact E | exact HK].
Defined.

Lemma map_identity_correct_witness :
  exists r flush' w',
    map_identity Size4KiB demo_aspace demo_virt demo_attrs demo_physmap flush_new demo_fresh = Done ((r, flush'), w').
Proof.
  destruct (map_identity_correct demo_physmap Size4KiB demo_aspace ∅ demo_fresh demo_virt demo_attrs flush_new)
    as (r & f' & w' & E & _).
  - exact demo_platform.
  - exact (proj1 demo_fresh_ok).
  - exact demo_virt_ok.
  - vm_compute. discriminate.
  - reflexivity.
  - exact flush_new_ok.
  - intros va _. exact (proj2 demo_fresh_ok va).
  - exists r, f', w'. exact E.
Defined.

#[local] Instance demo_map_visitor : Visitor TestFrameAllocator MapVisitor AllocError := map_visitor Size4KiB.

Lemma visit_leaf_equiv_witness :
  visit_leaf Size4KiB 3 (MkTable 0x80000000 0) 0x3fffffe000 demo_physmap
    (demo_fresh, MkMapVisitor 0x90000000 demo_attrs flush_new)
  = visit_range Size4KiB 3 (MkTable 0x80000000 0) (Range 0x3fffffe000 0x3ffffff000) demo_physmap
    (demo_fresh, MkMapVisitor 0x90000000 demo_attrs flush_new).
Proof.
  apply (visit_leaf_equiv Size4KiB demo_physmap 2 0 (level_new Size1GiB 512 true)
    [level_new Size2MiB 512 true; level_new Size4KiB 512 true] 0x80000000 0x3fffffe000
    (demo_fresh, MkMapVisitor 0x90000000 demo_attrs flush_new)).
  - reflexivity.
  - reflexivity.
  - split; try (vm_compute; done). split; [lia |]. left. vm_compute. discriminate.
Defined.

Lemma entries_partition_witness :
  exists es chunks,
    page_table_entries_for (Range 0x1ff000 0x601000) (level_new Size2MiB 512 true) = Done es
    /\ entries_collect (length (pe_iter es)) es = Done chunks /\ tiles 0x1ff000 0x601000 chunks.
Proof.
  destruct (entries_partition 1 (level_new Size2MiB 512 true) [level_new Size4KiB 512 true] 0x1ff000 0x601000)
    as (es & chunks & E1 & E2 & Ht & _).
  - reflexivity.
  - lia.
  - split; [lia |]. left. vm_compute. discriminate.
  - vm_compute. discriminate.
  - exists es, chunks. split; [exact E1 | split; [exact E2 | exact Ht]].
Defined.
