(* ===== verification/LoaderRegions.v ===== *)
(** * Memory regions and reservations
      (sys/loader-api/src/info.rs, [apply_reservation] of
       sys/loader-common/src/fdt.rs)

    The loader describes physical memory by a vector of regions and carves
    the reserved ranges out of it. *)

From stdpp Require Import base numbers list sets.
From Stdlib Require Import ZArith Lia.
From S2P Require Import Prelude Address ArrayVec.

Inductive MemoryRegionKind : Type :=
  | Unusable
  | Usable
  | LoaderReclaimable
  | FirmwareTableReclaimable.

#[global] Instance MemoryRegionKind_eq_dec : EqDecision MemoryRegionKind.
Proof. solve_decision. Defined.

Definition is_usable (k : MemoryRegionKind) : bool :=
  match k with Usable => true | _ => false end.

Record MemoryRegion : Type := MkRegion { mr_range : range; mr_kind : MemoryRegionKind }.

#[global] Instance MemoryRegion_eq_dec : EqDecision MemoryRegion.
Proof. solve_decision. Defined.

Definition MAX_MEMORY_REGIONS : nat := 128.

(** The one error [apply_reservation] returns. *)
Inductive LoaderError : Type := TooManyRegions.

(** [regions.try_push(region).map_err(|_| Error::TooManyRegions)]. *)
Definition push_region (region : MemoryRegion) : M (ArrayVec MemoryRegion) (result LoaderError unit) := fun v =>
  '(r, v') ← av_try_push region v;
  mret (match r with Ok _ => Ok tt | Err _ => Err TooManyRegions end, v').

(** [regions[i].clone()]. *)
Definition region_at (i : nat) : M (ArrayVec MemoryRegion) MemoryRegion := fun v =>
  l ← av_as_slice v;
  match l !! i with Some r => Done (r, v) | None => Panicked end.

(** The body of the loop, for index [i]. *)
Definition reserve_one (reservation : range) (i : nat) : M (ArrayVec MemoryRegion) (result LoaderError unit) :=
  r ← region_at i;
  if bool_decide (mr_kind r = Unusable) then mret (Ok tt)
  else if (r_end reservation <=? r_start (mr_range r)) || (r_end (mr_range r) <=? r_start reservation)
  then mret (Ok tt)
  else
    _ ← (av_swap_remove i : M (ArrayVec MemoryRegion) MemoryRegion);
    _ <-? (if r_start (mr_range r) <? r_start reservation
           then push_region (MkRegion (Range (r_start (mr_range r)) (r_start reservation)) Usable)
           else mret (Ok tt));
    (if r_end reservation <? r_end (mr_range r)
     then push_region (MkRegion (Range (r_end reservation) (r_end (mr_range r))) Usable)
     else mret (Ok tt)).

(** [for i in (0..n).rev()]. *)
Fixpoint reserve_loop (reservation : range) (n : nat) : M (ArrayVec MemoryRegion) (result LoaderError unit) :=
  match n with
  | O => mret (Ok tt)
  | S i =>
      _ <-? reserve_one reservation i;
      reserve_loop reservation i
  end.

Definition apply_reservation (reservation : range) (kind : MemoryRegionKind) :
    M (ArrayVec MemoryRegion) (result LoaderError unit) := fun v =>
  (_ <-? reserve_loop reservation (av_len v);
   push_region (MkRegion reservation kind)) v.

(** ** What a reservation does to the regions *)

(** The pieces of one region that remain. *)
Definition carve (reservation : range) (r : MemoryRegion) : list MemoryRegion :=
  if bool_decide (mr_kind r = Unusable)
     || (r_end reservation <=? r_start (mr_range r)) || (r_end (mr_range r) <=? r_start reservation)
  then [r]
  else
    (if r_start (mr_range r) <? r_start reservation
     then [MkRegion (Range (r_start (mr_range r)) (r_start reservation)) Usable] else [])
    ++ (if r_end reservation <? r_end (mr_range r)
        then [MkRegion (Range (r_end reservation) (r_end (mr_range r))) Usable] else []).

Lemma carve_length res r : (length (carve res r) <= 2)%nat.
Proof. unfold carve. repeat case_match; simpl; lia. Qed.

(** The vector holds [l] and has room for [cap] elements. *)
Definition holds_cap (cap : nat) (v : ArrayVec MemoryRegion) (l : list MemoryRegion) : Prop :=
  av_holds v l /\ av_capacity v = cap.

Lemma push_region_spec cap v l r :
  holds_cap cap v l ->
  if decide (length l < cap)%nat then
    exists v', push_region r v = Done (Ok tt, v') /\ holds_cap cap v' (l ++ [r])
  else push_region r v = Done (Err TooManyRegions, v).
Proof.
  intros [Hh Hc]. pose proof (av_try_push_holds v l r Hh) as Hp. rewrite Hc in Hp. unfold push_region. case_decide.
  - destruct Hp as (v' & -> & Hh' & Hc'). exists v'. split; [done | split; [done | congruence]].
  - by rewrite Hp.
Qed.

(** Pushing an optional region. *)
Lemma push_some_spec cap v l (b : bool) r :
  holds_cap cap v l ->
  let l' := l ++ (if b then [r] else []) in
  if decide (length l' <= cap)%nat then
    exists v', (if b then push_region r else mret (Ok tt)) v = Done (Ok tt, v') /\ holds_cap cap v' l'
  else (if b then push_region r else mret (Ok tt)) v = Done (Err TooManyRegions, v).
Proof.
  intros Hh. destruct b; simpl.
  - pose proof (push_region_spec cap v l r Hh) as Hp. rewrite length_app. simpl. repeat case_decide; (done || lia).
  - pose proof Hh as [(_ & Hl & _) Hc]. rewrite app_nil_r. case_decide; [by exists v | lia].
Qed.

Lemma region_at_spec cap v l i r : holds_cap cap v l -> l !! i = Some r -> region_at i v = Done (r, v).
Proof. intros [Hh _] Hi. unfold region_at. rewrite (av_as_slice_holds v l Hh). simpl. by rewrite Hi. Qed.

(** Removing the last unprocessed region keeps the unprocessed ones in place. *)
Lemma swap_remove_middle {T} (l1 : list T) x l2 :
  exists l2', list_swap_remove (length l1) (l1 ++ x :: l2) = Some (x, l1 ++ l2') /\ l2' ≡ₚ l2.
Proof.
  unfold list_swap_remove. rewrite list_lookup_middle by done.
  assert (Hlast : exists y, last (l1 ++ x :: l2) = Some y).
  { destruct (last (l1 ++ x :: l2)) as [y |] eqn:E; [by exists y |]. apply last_None in E. by destruct l1. }
  destruct Hlast as [y Hy]. rewrite Hy. rewrite insert_app_r_alt by lia. rewrite Nat.sub_diag. simpl.
  rewrite length_app. simpl. replace (length l1 + S (length l2) - 1)%nat with (length l1 + length l2)%nat by lia.
  rewrite take_app_add. eexists. split; [done |].
  destruct l2 as [| z l2] using rev_ind; [done |]. rewrite last_app, last_cons, last_snoc in Hy. simplify_eq.
  rewrite length_app, Nat.add_1_r. simpl. rewrite take_app_length. by rewrite <- Permutation_cons_append.
Qed.

Lemma reserve_one_spec res cap v l1 r l2 :
  holds_cap cap v (l1 ++ r :: l2) ->
  exists e v', reserve_one res (length l1) v = Done (e, v')
  /\ match e with
     | Ok _ => exists l2', holds_cap cap v' (l1 ++ l2') /\ l2' ≡ₚ carve res r ++ l2
     | Err _ => (cap < length l1 + length (carve res r ++ l2))%nat
     end.
Proof.
  intros Hh. unfold reserve_one.
  step_by (region_at_spec cap v _ (length l1) r Hh (list_lookup_middle _ _ _ _ eq_refl)).
  unfold carve. destruct (bool_decide (mr_kind r = Unusable)); cbn [orb].
  { exists (Ok tt), v. split; [done |]. by exists (r :: l2). }
  destruct (_ || _).
  { exists (Ok tt), v. split; [done |]. by exists (r :: l2). }
  destruct (swap_remove_middle l1 r l2) as (P & Es & HP).
  destruct Hh as [Hh Hc]. pose proof (av_swap_remove_holds v _ (length l1) Hh) as Hs. rewrite Es in Hs.
  destruct Hs as (v1 & E1 & Hh1 & Hc1). step_by E1. rewrite Hc in Hc1.
  set (b1 := r_start (mr_range r) <? r_start res). set (b2 := r_end res <? r_end (mr_range r)).
  pose proof (push_some_spec cap v1 _ b1 (MkRegion (Range (r_start (mr_range r)) (r_start res)) Usable) (conj Hh1 Hc1)) as H1.
  assert (HlP : length P = length l2) by by rewrite HP.
  cbv zeta in H1. rewrite !length_app in H1. case_decide as Hd1.
  2: { rewrite (try_bind_Err _ _ _ _ _ H1). eexists _, v1. split; [done |]. rewrite !length_app. lia. }
  destruct H1 as (v2 & E2 & Hh2). rewrite (try_bind_Ok _ _ _ _ _ E2).
  pose proof (push_some_spec cap v2 _ b2 (MkRegion (Range (r_end res) (r_end (mr_range r))) Usable) Hh2) as H3.
  cbv zeta in H3. rewrite !length_app in H3. case_decide as Hd2.
  - destruct H3 as (v3 & E3 & Hh3). exists (Ok tt), v3. split; [done |].
    eexists. rewrite <- !app_assoc in Hh3. split; [exact Hh3 |]. rewrite HP. solve_Permutation.
  - exists (Err TooManyRegions), v2. split; [done |]. rewrite !length_app. lia.
Qed.

(** While the regions are carved, from the last one on, the vector has room for
    those that come before, the pieces of those behind, and [n] more. *)
Definition room_to_carve (res : range) (cap n : nat) (l : list MemoryRegion) : Prop :=
  forall i, (i <= length l)%nat -> (i + length (drop i l ≫= carve res) + n <= cap)%nat.

Lemma room_to_carve_snoc res cap n l r :
  (length l + 1 + n <= cap)%nat ->
  room_to_carve res cap n (l ++ [r]) <-> room_to_carve res cap (length (carve res r) + n) l.
Proof.
  intros Hn. assert (forall i, (i <= length l)%nat ->
    length (drop i (l ++ [r]) ≫= carve res) = (length (drop i l ≫= carve res) + length (carve res r))%nat) as Hd.
  { intros i Hi. rewrite drop_app_le by done. by rewrite bind_app, length_app, bind_cons, app_nil_r. }
  split; intros H i Hi.
  - specialize (H i). rewrite length_app, Hd in H by done. simpl in H. lia.
  - rewrite length_app in Hi. simpl in Hi. destruct (decide (i = length l + 1)%nat) as [->|].
    + rewrite drop_ge by (rewrite length_app; simpl; lia). simpl. lia.
    + rewrite Hd by lia. specialize (H i). lia.
Qed.

Lemma reserve_loop_spec res cap todo : forall v P,
  holds_cap cap v (todo ++ P) ->
  exists e v', reserve_loop res (length todo) v = Done (e, v')
  /\ match e with
     | Ok _ => room_to_carve res cap (length P) todo /\ exists P', holds_cap cap v' P' /\ P' ≡ₚ (todo ≫= carve res) ++ P
     | Err _ => ~ room_to_carve res cap (length P) todo
     end.
Proof.
  induction todo as [| r todo IH] using rev_ind; intros v P Hh; simpl.
  - exists (Ok tt), v. split; [done |]. split; [| by exists P]. intros i Hi. simpl in *. destruct Hh as [(_ & Hle & _) Hc].
    assert (i = 0%nat) as -> by lia. simpl. lia.
  - assert (length todo + 1 + length P <= cap)%nat as Hle.
    { destruct Hh as [(_ & Hle & _) Hc]. rewrite !length_app in Hle. simpl in Hle. lia. }
    pose proof (room_to_carve_snoc res cap (length P) todo r Hle) as Hsnoc.
    rewrite length_app, Nat.add_1_r. simpl. rewrite <- app_assoc in Hh. simpl in Hh.
    destruct (reserve_one_spec res cap v todo r P Hh) as (e & v1 & E1 & He).
    destruct e as [[] | []].
    2: { rewrite (try_bind_Err _ _ _ _ _ E1). eexists _, v1. split; [done |]. intros Hroom%Hsnoc.
         specialize (Hroom (length todo) (le_n _)). rewrite drop_ge in Hroom by done. rewrite length_app in He. simpl in Hroom. lia. }
    destruct He as (P1 & Hh1 & HP1). rewrite (try_bind_Ok _ _ _ _ _ E1).
    destruct (IH v1 P1 Hh1) as (e & v2 & E2 & He). exists e, v2. split; [done |].
    assert (Hlen : length P1 = (length (carve res r) + length P)%nat) by by rewrite HP1, length_app.
    rewrite Hlen in He. destruct e as [u | e]; [| by intros Hroom%Hsnoc].
    destruct He as (Hroom & P2 & Hh2 & HP2). split; [by apply Hsnoc |]. exists P2. split; [done |].
    rewrite HP2, HP1, bind_app. simpl. rewrite app_nil_r. by rewrite <- app_assoc.
Qed.

(** The vector has room for the carving and for the reservation itself. *)
Definition room_to_reserve (res : range) (cap : nat) (l : list MemoryRegion) : Prop :=
  room_to_carve res cap 0 l /\ (length (l ≫= carve res) < cap)%nat.

Lemma carved_length res l : (length (l ≫= carve res) <= 2 * length l)%nat.
Proof. induction l as [| r l IH]; [simpl; lia |]. rewrite bind_cons, length_app. pose proof (carve_length res r). simpl. lia. Qed.

Lemma room_enough res cap l : (2 * length l < cap)%nat -> room_to_reserve res cap l.
Proof.
  intros Hc. split; [| pose proof (carved_length res l); lia]. intros i Hi. pose proof (carved_length res (drop i l)) as Hl.
  rewrite length_drop in Hl. lia.
Qed.

(** [apply_reservation] carves every region and appends the reservation. *)
Lemma apply_reservation_run res kind cap v l :
  holds_cap cap v l ->
  exists e v', apply_reservation res kind v = Done (e, v')
  /\ match e with
     | Ok _ => room_to_reserve res cap l /\ exists l', holds_cap cap v' l' /\ l' ≡ₚ MkRegion res kind :: (l ≫= carve res)
     | Err _ => ~ room_to_reserve res cap l
     end.
Proof.
  intros Hh. pose proof Hh as [(Hl & _) _]. unfold apply_reservation. rewrite Hl.
  destruct (reserve_loop_spec res cap l v []) as (e & v1 & E1 & He); [by rewrite app_nil_r |].
  destruct e as [[] | []].
  2: { rewrite (try_bind_Err _ _ _ _ _ E1). eexists _, v1. split; [done |]. by intros [Hr _]. }
  destruct He as (Hroom & P & HhP & HP). rewrite (try_bind_Ok _ _ _ _ _ E1). rewrite app_nil_r in HP.
  pose proof (push_region_spec cap v1 P (MkRegion res kind) HhP) as Hp. assert (Hlen : length P = length (l ≫= carve res)) by by rewrite HP.
  case_decide as Hd.
  - destruct Hp as (v2 & E2 & Hh2). exists (Ok tt), v2. split; [done |]. split; [by split; [| lia] |]. eexists. split; [exact Hh2 |].
    rewrite HP. by rewrite <- Permutation_cons_append.
  - exists (Err TooManyRegions), v1. split; [done |]. intros [_ Hr]. lia.
Qed.

(** ** Reading a region list by address *)

Definition in_region (a : Z) (r : MemoryRegion) : Prop := r_start (mr_range r) <= a < r_end (mr_range r).

#[global] Instance in_region_dec a r : Decision (in_region a r).
Proof. unfold in_region. apply _. Defined.

(** How many regions an address is in. *)
Definition regions_at (a : Z) (l : list MemoryRegion) : nat := length (filter (in_region a) l).

Definition usable_at (l : list MemoryRegion) (a : Z) : Prop := exists r, r ∈ l /\ mr_kind r = Usable /\ in_region a r.

(** Memory another reservation with a reclaimable kind had claimed, in a
    region that overlaps the new one. *)
Definition reclaimed_at (res : range) (l : list MemoryRegion) (a : Z) : Prop :=
  exists r, r ∈ l /\ (mr_kind r = LoaderReclaimable \/ mr_kind r = FirmwareTableReclaimable)
    /\ r_start (mr_range r) < r_end res /\ r_start res < r_end (mr_range r) /\ in_region a r.

Lemma regions_at_perm a l l' : l ≡ₚ l' -> regions_at a l = regions_at a l'.
Proof. unfold regions_at. by intros ->. Qed.

Lemma regions_at_cons a r l : regions_at a (r :: l) = ((if decide (in_region a r) then 1 else 0) + regions_at a l)%nat.
Proof. unfold regions_at. rewrite filter_cons. by case_decide. Qed.

Lemma regions_at_app a l l' : regions_at a (l ++ l') = (regions_at a l + regions_at a l')%nat.
Proof. unfold regions_at. by rewrite filter_app, length_app. Qed.

(** The two cases of [carve]. *)
Lemma carve_cases res r :
  ((mr_kind r = Unusable \/ r_end res <= r_start (mr_range r) \/ r_end (mr_range r) <= r_start res)
     /\ carve res r = [r])
  \/ (mr_kind r <> Unusable /\ r_start (mr_range r) < r_end res /\ r_start res < r_end (mr_range r)
      /\ forall s, s ∈ carve res r <->
           mr_kind s = Usable
           /\ (mr_range s = Range (r_start (mr_range r)) (r_start res) /\ r_start (mr_range r) < r_start res
               \/ mr_range s = Range (r_end res) (r_end (mr_range r)) /\ r_end res < r_end (mr_range r))).
Proof.
  unfold carve. case_bool_decide; simpl; [left; auto |].
  destruct (Z.leb_spec (r_end res) (r_start (mr_range r))); simpl; [left; auto |].
  destruct (Z.leb_spec (r_end (mr_range r)) (r_start res)); simpl; [left; auto |].
  right. split_and!; try done. intros [sr sk]. simpl.
  destruct (Z.ltb_spec (r_start (mr_range r)) (r_start res)), (Z.ltb_spec (r_end res) (r_end (mr_range r)));
    simpl; set_unfold; split; intros; destruct_and?; destruct_or?; simplify_eq; try lia; auto;
    destruct_and?; destruct_or?; simplify_eq; try lia; auto; try (right; f_equal; done); try (left; f_equal; done).
Qed.

(** Carving never adds an address, and removes those of the reservation. *)
Lemma carve_at res r a :
  r_start res <= r_end res ->
  (regions_at a (carve res r) <= regions_at a [r])%nat
  /\ (r_start res <= a < r_end res -> mr_kind r <> Unusable -> regions_at a (carve res r) = 0%nat).
Proof.
  intros Hres. rewrite (regions_at_cons a r []). change (regions_at a []) with 0%nat. rewrite Nat.add_0_r.
  unfold carve. case_bool_decide; simpl; [rewrite regions_at_cons; change (regions_at a []) with 0%nat; split; [lia | done] |].
  destruct (Z.leb_spec (r_end res) (r_start (mr_range r))), (Z.leb_spec (r_end (mr_range r)) (r_start res)); simpl;
    rewrite ?regions_at_cons, ?regions_at_app; change (regions_at a []) with 0%nat; unfold in_region.
  1-3: split; [lia | intros; case_decide; lia].
  destruct (Z.ltb_spec (r_start (mr_range r)) (r_start res)), (Z.ltb_spec (r_end res) (r_end (mr_range r)));
    rewrite ?regions_at_cons; change (regions_at a []) with 0%nat; unfold in_region; simpl;
    split; intros; repeat case_decide; lia.
Qed.

Lemma carved_at res l a :
  r_start res <= r_end res ->
  (regions_at a (l ≫= carve res) <= regions_at a l)%nat
  /\ (r_start res <= a < r_end res -> (forall r, r ∈ l -> mr_kind r = Unusable -> ~ in_region a r) ->
      regions_at a (l ≫= carve res) = 0%nat).
Proof.
  intros Hres. induction l as [| r l [IH1 IH2]]; [done |]. rewrite bind_cons, regions_at_app.
  destruct (carve_at res r a Hres) as [H1 H2]. rewrite (regions_at_cons a r []) in H1.
  change (regions_at a []) with 0%nat in H1. rewrite Nat.add_0_r in H1. rewrite regions_at_cons. split; [lia |].
  intros Ha Hun. rewrite IH2; [| done | intros s Hs; apply Hun; by right].
  destruct (decide (mr_kind r = Unusable)) as [E |]; [| by rewrite H2].
  specialize (Hun r ltac:(by left) E). case_decide; [done | lia].
Qed.

(** An address of a carved region that is not reserved stays, as usable. *)
Lemma carve_keeps res r a :
  mr_kind r <> Unusable -> in_region a r -> ~ r_start res <= a < r_end res ->
  r_start (mr_range r) < r_end res -> r_start res < r_end (mr_range r) ->
  exists s, s ∈ carve res r /\ mr_kind s = Usable /\ in_region a s.
Proof.
  intros Hk Hin Ha Ho1 Ho2. unfold in_region in *.
  destruct (carve_cases res r) as [[[E | [E | E]] _] | (_ & _ & _ & Hc)]; [done | lia | lia |].
  destruct (decide (a < r_start res)).
  - exists (MkRegion (Range (r_start (mr_range r)) (r_start res)) Usable). rewrite Hc. simpl.
    split_and!; try done; try lia. left. split; [done | lia].
  - exists (MkRegion (Range (r_end res) (r_end (mr_range r))) Usable). rewrite Hc. simpl.
    split_and!; try done; try lia. right. split; [done | lia].
Qed.

(** Which addresses are usable after carving. *)
Lemma carved_usable res l a :
  ~ r_start res <= a < r_end res ->
  usable_at (l ≫= carve res) a <-> usable_at l a \/ reclaimed_at res l a.
Proof.
  intros Ha. unfold usable_at, reclaimed_at. split.
  - intros (s & Hs & Hk & Hin). apply list_elem_of_bind in Hs as (r & Hs & Hr).
    destruct (carve_cases res r) as [[_ E] | (Hn & Ho1 & Ho2 & Hc)].
    + rewrite E in Hs. apply list_elem_of_singleton in Hs. subst s. left. eauto.
    + apply Hc in Hs as [_ Hs]. assert (Hir : in_region a r).
      { unfold in_region in *. destruct Hs as [[E ?] | [E ?]]; rewrite E in Hin; simpl in Hin; lia. }
      destruct (mr_kind r) eqn:Ek; [done | left; exists r; auto | right; exists r; auto 6 | right; exists r; auto 6].
  - assert (Hone : forall r s, r ∈ l -> s ∈ carve res r -> s ∈ l ≫= carve res).
    { intros r s ? ?. apply list_elem_of_bind. eauto. }
    intros [(r & Hr & Hk & Hin) | (r & Hr & Hk & Ho1 & Ho2 & Hin)].
    + destruct (carve_cases res r) as [[_ E] | (Hn & Ho1 & Ho2 & Hc)].
      * exists r. split_and!; try done. apply (Hone r); [done |]. rewrite E. by left.
      * destruct (carve_keeps res r a Hn Hin Ha Ho1 Ho2) as (s & ? & ? & ?). eauto 6.
    + destruct (carve_keeps res r a) as (s & ? & ? & ?); auto; [destruct Hk; congruence |]. eauto 6.
Qed.

(** No address of the reservation is usable after carving. *)
Lemma carved_reserved res l a : r_start res <= a < r_end res -> ~ usable_at (l ≫= carve res) a.
Proof.
  intros Ha (s & Hs & Hks & Hin). apply list_elem_of_bind in Hs as (r & Hs & Hr).
  destruct (carve_cases res r) as [[Hc E'] | (Hn & Ho1 & Ho2 & Hc)].
  - rewrite E' in Hs. apply list_elem_of_singleton in Hs. subst s. unfold in_region in *. destruct Hc as [? | Hc]; [congruence | lia].
  - apply Hc in Hs as [_ Hs]. unfold in_region in *. destruct Hs as [[Es ?] | [Es ?]]; rewrite Es in Hin; simpl in Hin; lia.
Qed.

(** A region that is not usable does not count. *)
Lemma usable_cons_unusable r l l' a : l' ≡ₚ r :: l -> mr_kind r <> Usable -> usable_at l' a <-> usable_at l a.
Proof.
  intros HP Hk. unfold usable_at. setoid_rewrite HP. split; intros (s & Hs & Hks & Hin); exists s; split_and!; try done.
  - apply elem_of_cons in Hs as [-> | Hs]; done.
  - by right.
Qed.

(** ** The theorem *)

(** C25: [apply_reservation], for a kind other than usable, always returns. It
    fails exactly if, at some point on the way from the last region to the first,
    the regions that are left and the pieces of those that have been carved do
    not fit into the vector, or these pieces and the reservation do not. On
    success the reserved range is listed with its kind and no address of it is
    usable any more; every other address is usable exactly if it was before, or if
    it belonged to a reclaimable region that overlaps the reservation. Regions
    that did not overlap still do not, provided the reservation meets no unusable
    region: it is listed beside those. *)
Theorem apply_reservation_correct res kind v l :
  av_holds v l -> r_start res <= r_end res -> kind <> Usable ->
  exists e v', apply_reservation res kind v = Done (e, v')
  /\ match e with
     | Err _ => ~ room_to_reserve res (av_capacity v) l
     | Ok _ => room_to_reserve res (av_capacity v) l /\ exists l', av_holds v' l' /\ MkRegion res kind ∈ l'
         /\ (forall a, r_start res <= a < r_end res -> ~ usable_at l' a)
         /\ (forall a, ~ r_start res <= a < r_end res ->
               usable_at l' a <-> usable_at l a \/ reclaimed_at res l a)
         /\ ((forall a, regions_at a l <= 1)%nat ->
             (forall r a, r ∈ l -> mr_kind r = Unusable -> in_region a r -> ~ r_start res <= a < r_end res) ->
             forall a, (regions_at a l' <= 1)%nat)
     end.
Proof.
  intros Hh Hres Hk. destruct (apply_reservation_run res kind (av_capacity v) v l) as (e & v' & E & He); [by split |].
  exists e, v'. split; [done |]. destruct e; [| done]. destruct He as (Hroom & l' & [Hh' _] & HP). split; [done |]. exists l'.
  assert (Hu : forall b, usable_at l' b <-> usable_at (l ≫= carve res) b) by (intros b; by eapply usable_cons_unusable).
  split_and!; [done | rewrite HP; by left | | |].
  - intros b Hb Hub. apply Hu in Hub. by eapply carved_reserved.
  - intros b Hb. rewrite Hu. by apply carved_usable.
  - intros H1 Hun b. rewrite (regions_at_perm _ _ _ HP), regions_at_cons.
    destruct (carved_at res l b Hres) as [Hle H0]. specialize (H1 b). case_decide as Hin; [| lia].
    rewrite H0; [lia | exact Hin | intros r Hr Hkr Hin']. by apply (Hun r b Hr Hkr Hin').
Qed.

Definition demo_regions : ArrayVec MemoryRegion :=
  MkArrayVec 1 (Some (MkRegion (Range 0x80000000 0x88000000) Usable) :: replicate 127 None).

Lemma demo_regions_hold : av_holds demo_regions [MkRegion (Range 0x80000000 0x88000000) Usable].
Proof. split_and!; simpl; [done | unfold av_capacity; simpl; lia | done]. Qed.

Lemma apply_reservation_correct_witness :
  exists e v', apply_reservation (Range 0x80000000 0x80080000) Unusable demo_regions = Done (e, v').
Proof.
  destruct (apply_reservation_correct (Range 0x80000000 0x80080000) Unusable demo_regions
    [MkRegion (Range 0x80000000 0x88000000) Usable]) as (e & v' & E & _).
  - exact demo_regions_hold.
  - simpl. lia.
  - discriminate.
  - exists e, v'. exact E.
Defined.
