(* ===== verification/BumpAllocator.v ===== *)
(** * The loader's bump allocator (sys/loader-flat/src/frame_alloc.rs)

    One arena per memory region, allocated from the top of the region
    downwards.  The state behind the mutex is passed explicitly; the
    [ArrayVec]s are the lists they hold ([ArrayVec] shows that they behave as
    such), with the capacity checked where elements are added.  The [log]
    calls are not modelled. *)

From stdpp Require Import base numbers list sets gmap sorting.
From Stdlib Require Import ZArith Lia.
From S2P Require Import Prelude Address Riscv Arch ArrayVec Machine LoaderRegions.

(** ** Rounding and layouts *)

Definition round_up_to (n divisor : Z) : outcome (option Z) :=
  _ ← assert_ (0 <? divisor);
  _ ← assert_ (is_power_of_two divisor);
  match checked_add n (divisor - 1) with
  | Some x => mret (Some (Z.land x (u_not (divisor - 1))))
  | None => mret None
  end.

Definition round_up_to_unchecked (n divisor : Z) : outcome Z :=
  r ← round_up_to n divisor;
  match r with
  | Some x => mret x
  | None => _ ← assert_ false; Undefined
  end.

(** [Layout::from_size_align]. *)
Definition layout_from_size_align (size align : Z) : option Layout :=
  if is_power_of_two align && (size <=? 2 ^ 63 - align) then Some (MkLayout size align) else None.

(** ** [Arena] *)

Record Arena : Type := MkArena { a_region : MemoryRegion; a_ptr : PhysicalAddress }.

Definition arena_capacity (a : Arena) : outcome Z :=
  addr_offset_from_unsigned (a_ptr a) (r_start (mr_range (a_region a))).

Definition arena_has_capacity (a : Arena) : outcome bool :=
  c ← arena_capacity a;
  mret (0 <? c).

Definition arena_usage (a : Arena) : outcome Z :=
  addr_offset_from_unsigned (r_end (mr_range (a_region a))) (a_ptr a).

Definition arena_used (a : Arena) : range := Range (a_ptr a) (r_end (mr_range (a_region a))).
Definition arena_free (a : Arena) : range := Range (r_start (mr_range (a_region a))) (a_ptr a).

Definition deallocate_if_last (block : range) (a : Arena) : bool * Arena :=
  if a_ptr a =? r_start block then (true, MkArena (a_region a) (r_end block)) else (false, a).

(** The [match layout.align().cmp(&min_align)]: the new bump pointer. *)
Definition arena_aligned_ptr (min_align : Z) (layout : Layout) (a : Arena) : outcome (option PhysicalAddress) :=
  match l_align layout ?= min_align with
  | Lt =>
      size ← round_up_to (l_size layout) min_align;
      match size with
      | None => mret None
      | Some aligned_size =>
          c ← arena_capacity a;
          if c <? aligned_size then mret None else mret (Some (addr_wrapping_sub (a_ptr a) aligned_size))
      end
  | Eq =>
      aligned_size ← round_up_to_unchecked (l_size layout) (l_align layout);
      c ← arena_capacity a;
      if c <? aligned_size then mret None else mret (Some (addr_wrapping_sub (a_ptr a) aligned_size))
  | Gt =>
      aligned_size ← round_up_to_unchecked (l_size layout) (l_align layout);
      aligned_ptr ← align_down (a_ptr a) (l_align layout);
      capacity ← addr_offset_from_unsigned aligned_ptr (r_start (mr_range (a_region a)));
      if (aligned_ptr <? r_start (mr_range (a_region a))) || (capacity <? aligned_size) then mret None
      else mret (Some (addr_wrapping_sub aligned_ptr aligned_size))
  end.

Definition arena_allocate (min_align : Z) (layout : Layout) : M Arena (option PhysicalAddress) := fun a =>
  if negb (is_usable (mr_kind (a_region a))) then Done (None, a) else
  ok ← is_aligned_to (a_ptr a) min_align;
  _ ← assert_ ok;
  ptr ← arena_aligned_ptr min_align layout a;
  match ptr with
  | None => Done (None, a)
  | Some aligned_ptr =>
      ok ← is_aligned_to aligned_ptr (l_align layout);
      _ ← assert_ ok;
      ok ← is_aligned_to aligned_ptr min_align;
      _ ← assert_ ok;
      _ ← assert_ (range_contains (mr_range (a_region a)) aligned_ptr);
      Done (Some aligned_ptr, MkArena (a_region a) aligned_ptr)
  end.

(** ** [BumpAllocatorInner] *)

Record BumpAllocatorInner : Type := MkInner { arenas : list Arena; current_arena_hint : nat }.

(** [self.arenas[i]]. *)
Definition arena_at (i : nat) : M BumpAllocatorInner Arena := fun b =>
  match arenas b !! i with Some a => Done (a, b) | None => Panicked end.

(** [self.arenas[i].allocate(..)]. *)
Definition allocate_at (i : nat) (min_align : Z) (layout : Layout) : M BumpAllocatorInner (option PhysicalAddress) := fun b =>
  match arenas b !! i with
  | Some a =>
      '(r, a') ← arena_allocate min_align layout a;
      Done (r, MkInner (<[i := a']> (arenas b)) (current_arena_hint b))
  | None => Panicked
  end.

Definition set_hint (i : nat) : M BumpAllocatorInner unit := fun b => Done (tt, MkInner (arenas b) i).

Definition allocate_contiguous_fast (min_align : Z) (layout : Layout) : M BumpAllocatorInner (option PhysicalAddress) :=
  fun b => allocate_at (current_arena_hint b) min_align layout b.

(** [for offset in ..]: the offsets still to be tried; [hint] is the hint on entry. *)
Fixpoint contiguous_slow_loop (offsets : list nat) (hint : nat) (min_align : Z) (layout : Layout) :
    M BumpAllocatorInner (option PhysicalAddress) :=
  match offsets with
  | [] => mret None
  | offset :: offsets' => fun b =>
      let i := ((hint + offset) mod length (arenas b))%nat in
      (a ← arena_at i;
       cap ← lift (arena_has_capacity a);
       block ← (if cap : bool then allocate_at i min_align layout else mret None);
       match block with
       | Some p => _ ← set_hint i; mret (Some p)
       | None => contiguous_slow_loop offsets' hint min_align layout
       end) b
  end.

Definition allocate_contiguous_slow (min_align : Z) (layout : Layout) : M BumpAllocatorInner (option PhysicalAddress) :=
  fun b => contiguous_slow_loop (seq 1 (length (arenas b) - 1)) (current_arena_hint b) min_align layout b.

(** One iteration of the loop of [allocate_slow]: the remaining bytes and the
    blocks allocated so far. *)
Definition slow_step (MAX_REGIONS : nat) (i : nat) (min_align align : Z) (remaining : Z) (blocks : list range) :
    M BumpAllocatorInner (Z * list range) :=
  a ← arena_at i;
  cap ← lift (arena_has_capacity a);
  if cap : bool then
    c ← lift (arena_capacity a);
    let requested_size := Z.min remaining c in
    match layout_from_size_align requested_size align with
    | None => lift Panicked
    | Some layout =>
        block ← allocate_at i min_align layout;
        match block with
        | Some p =>
            _ ← set_hint i;
            remaining' ← lift (u_sub remaining requested_size);
            r ← lift (range_from_start_len p requested_size);
            _ ← lift (assert_ (length blocks <? MAX_REGIONS)%nat);
            mret (remaining', blocks ++ [r])
        | None => mret (remaining, blocks)
        end
    end
  else mret (remaining, blocks).

(** The loop: [inl] is the early return with all blocks allocated. *)
Fixpoint slow_loop (MAX_REGIONS : nat) (offsets : list nat) (hint : nat) (min_align align remaining : Z)
    (blocks : list range) : M BumpAllocatorInner (list range + list range) :=
  match offsets with
  | [] => mret (inr blocks)
  | offset :: offsets' => fun b =>
      let i := ((hint + offset) mod length (arenas b))%nat in
      ('(remaining', blocks') ← slow_step MAX_REGIONS i min_align align remaining blocks;
       if remaining' =? 0 then mret (inl blocks')
       else slow_loop MAX_REGIONS offsets' hint min_align align remaining' blocks') b
  end.

(** The first arena whose region overlaps the block gets it back. *)
Fixpoint free_block (block : range) (l : list Arena) : outcome (list Arena) :=
  match l with
  | [] => _ ← assert_ false; mret []
  | a :: l' =>
      if range_overlaps (mr_range (a_region a)) block then
        let '(freed, a') := deallocate_if_last block a in
        _ ← assert_ freed;
        mret (a' :: l')
      else
        l'' ← free_block block l';
        mret (a :: l'')
  end.

Fixpoint free_blocks (blocks : list range) (l : list Arena) : outcome (list Arena) :=
  match blocks with
  | [] => mret l
  | block :: blocks' => l' ← free_block block l; free_blocks blocks' l'
  end.

(** The clean-up after a failed [allocate_slow]. *)
Definition give_back (blocks : list range) : M BumpAllocatorInner unit := fun b =>
  l ← free_blocks blocks (arenas b);
  Done (tt, MkInner l (current_arena_hint b)).

Definition allocate_slow (MAX_REGIONS : nat) (min_align : Z) (layout : Layout) : M BumpAllocatorInner (option (list range)) :=
  fun b =>
  (r ← slow_loop MAX_REGIONS (seq 0 (length (arenas b))) (current_arena_hint b) min_align (l_align layout) (l_size layout) [];
   match r with
   | inl blocks => mret (Some blocks)
   | inr blocks => _ ← give_back blocks; mret None
   end) b.

(** ** [BumpAllocator] *)

Record BumpAllocator : Type := MkBump { inner : BumpAllocatorInner; min_align : Z; max_regions : nat }.

Definition on_inner {A} (op : M BumpAllocatorInner A) : M BumpAllocator A := fun b =>
  '(a, i) ← op (inner b);
  Done (a, MkBump i (min_align b) (max_regions b)).

(** [sort_unstable_by_key(|region| region.range.start)]. *)
Fixpoint insert_region (r : MemoryRegion) (l : list MemoryRegion) : list MemoryRegion :=
  match l with
  | [] => [r]
  | s :: l' => if r_start (mr_range r) <=? r_start (mr_range s) then r :: l else s :: insert_region r l'
  end.

Fixpoint sort_regions (l : list MemoryRegion) : list MemoryRegion :=
  match l with [] => [] | r :: l' => insert_region r (sort_regions l') end.

(** The loop over [windows(2)]. *)
Fixpoint assert_disjoint (l : list MemoryRegion) : outcome unit :=
  match l with
  | cur :: ((next :: _) as l') =>
      _ ← assert_ (negb (range_overlaps (mr_range cur) (mr_range next)));
      assert_disjoint l'
  | _ => mret tt
  end.

(** The closure of [map], over the enumerated regions. *)
Fixpoint make_arenas (granule : Z) (i : nat) (largest_size : Z) (largest_idx : nat) (l : list MemoryRegion) :
    outcome (list Arena * nat) :=
  match l with
  | [] => mret ([], largest_idx)
  | region :: l' =>
      aligned ← range_align_in (mr_range region) granule;
      len ← range_len aligned;
      let '(size, idx) := if largest_size <? len then (len, i) else (largest_size, largest_idx) in
      '(rest, idx') ← make_arenas granule (S i) size idx l';
      mret (MkArena (MkRegion aligned (mr_kind region)) (r_end aligned) :: rest, idx')
  end.

Definition bump_new (MAX_REGIONS : nat) (granule : Z) (regions : list MemoryRegion) : outcome BumpAllocator :=
  let sorted := if (1 <? length regions)%nat then sort_regions regions else regions in
  _ ← (if (1 <? length regions)%nat then assert_disjoint sorted else mret tt);
  '(l, largest_region_idx) ← make_arenas granule 0 0 0 sorted;
  _ ← assert_ (length l <=? MAX_REGIONS)%nat;
  _ ← assert_ (negb (granule =? 0));
  mret (MkBump (MkInner l largest_region_idx) granule MAX_REGIONS).

(** Collecting into [loader_api::MemoryRegions] panics past its capacity. *)
Definition collect_regions (l : list MemoryRegion) : outcome (list MemoryRegion) :=
  v ← av_from_iter MAX_MEMORY_REGIONS l;
  av_as_slice v.

Definition free_regions (b : BumpAllocator) : outcome (list MemoryRegion) :=
  collect_regions ((fun a => MkRegion (arena_free a) Usable) <$> arenas (inner b)).

Definition used_regions (b : BumpAllocator) : outcome (list MemoryRegion) :=
  collect_regions ((fun a => MkRegion (arena_used a) Unusable) <$> arenas (inner b)).

Fixpoint sum_of (f : Arena -> outcome Z) (l : list Arena) : outcome Z :=
  match l with
  | [] => mret 0
  | a :: l' => x ← f a; s ← sum_of f l'; u_add x s
  end.

Definition bump_capacity (b : BumpAllocator) : outcome Z := sum_of arena_capacity (arenas (inner b)).
Definition bump_usage (b : BumpAllocator) : outcome Z := sum_of arena_usage (arenas (inner b)).

Definition bump_allocate (layout : Layout) : M BumpAllocator (result AllocError (list range)) := fun b =>
  if l_size layout =? 0 then Done (Err MkAllocError, b) else
  (p ← on_inner (allocate_contiguous_fast (min_align b) layout);
   match p with
   | Some p =>
       block ← lift (range_from_start_len p (l_size layout));
       mret (Ok [block])
   | None =>
       blocks ← on_inner (allocate_slow (max_regions b) (min_align b) layout);
       match blocks with
       | Some blocks => mret (Ok blocks)
       | None => mret (Err MkAllocError)
       end
   end) b.

Definition bump_allocate_contiguous (layout : Layout) : M BumpAllocator (result AllocError PhysicalAddress) := fun b =>
  if l_size layout =? 0 then Done (Err MkAllocError, b) else
  (p ← on_inner (allocate_contiguous_fast (min_align b) layout);
   match p with
   | Some p => mret (Ok p)
   | None =>
       p' ← on_inner (allocate_contiguous_slow (min_align b) layout);
       match p' with
       | Some p => mret (Ok p)
       | None => mret (Err MkAllocError)
       end
   end) b.

(** [unimplemented!()]. *)
Definition bump_deallocate (block : PhysicalAddress) (layout : Layout) : M BumpAllocator unit := lift Panicked.

#[export] Instance bump_frame_allocator : FrameAllocator BumpAllocator := {|
  allocate := bump_allocate;
  allocate_contiguous := bump_allocate_contiguous;
  deallocate := bump_deallocate;
|}.

(** ** The closure [finalize] of sys/loader-flat/src/main.rs *)

(** [partition_dedup_by] with its closure: [b] is the last region kept. *)
Fixpoint coalesce (b : MemoryRegion) (l : list MemoryRegion) : list MemoryRegion :=
  match l with
  | [] => [b]
  | a :: l' =>
      if bool_decide (mr_kind a = mr_kind b) && (r_start (mr_range a) <=? r_end (mr_range b)) then
        coalesce (MkRegion (Range (r_start (mr_range b)) (Z.max (r_end (mr_range b)) (r_end (mr_range a)))) (mr_kind b)) l'
      else b :: coalesce a l'
  end.

Definition finalize (b : BumpAllocator) : outcome (list MemoryRegion) :=
  used ← used_regions b;
  free ← free_regions b;
  regions ← collect_regions (filter (fun r => range_is_empty (mr_range r) = false) (used ++ free));
  match sort_regions regions with
  | [] => mret []
  | r :: l => mret (coalesce r l)
  end.

(** ** One arena *)

Lemma round_up_to_Done n j :
  0 <= n -> 0 <= j < 64 -> n + (2 ^ j - 1) < USIZE_MOD ->
  round_up_to n (2 ^ j) = Done (Some (roundup n (2 ^ j))).
Proof.
  intros Hn Hj Hov. pose proof (pow2_pos j ltac:(lia)) as Hp. unfold round_up_to, checked_add, roundup.
  step. rewrite (outcome_bind_Done _ _ tt) by (apply assert_true, is_power_of_two_pow2; lia).
  rewrite (proj2 (Z.ltb_lt _ _)) by done. simpl. do 2 f_equal.
  assert (Hm : u_not (2 ^ j - 1) = wrapping_sub 0 (2 ^ j)).
  { unfold u_not, wrapping_sub, wrap. pose proof (pow2_usize j Hj) as [_ ?]. apply (Z.mod_unique_pos _ _ (-1)); lia. }
  rewrite Hm. apply land_high_mask; [unfold is_usize; lia | done].
Qed.

Definition layout_ok (l : Layout) : Prop :=
  0 < l_size l <= 2 ^ 63 - l_align l /\ exists j, 0 <= j < 63 /\ l_align l = 2 ^ j.

Record arena_ok (g : Z) (a : Arena) : Prop := {
  ao_start : 0 <= r_start (mr_range (a_region a));
  ao_ptr : r_start (mr_range (a_region a)) <= a_ptr a <= r_end (mr_range (a_region a));
  ao_end : r_end (mr_range (a_region a)) < USIZE_MOD;
  ao_start_aligned : r_start (mr_range (a_region a)) mod g = 0;
  ao_ptr_aligned : a_ptr a mod g = 0;
}.

Lemma arena_capacity_Done g a :
  arena_ok g a -> arena_capacity a = Done (a_ptr a - r_start (mr_range (a_region a))).
Proof. intros []. apply addr_offset_from_unsigned_Done; unfold is_usize; lia. Qed.

Lemma arena_usage_Done g a :
  arena_ok g a -> arena_usage a = Done (r_end (mr_range (a_region a)) - a_ptr a).
Proof. intros []. apply addr_offset_from_unsigned_Done; unfold is_usize; lia. Qed.

(** The effective alignment, the bump pointer rounded down to it, and the
    number of bytes an allocation takes. *)
Definition eff_align (g : Z) (l : Layout) : Z := Z.max (l_align l) g.
Definition arena_top (g : Z) (l : Layout) (a : Arena) : Z := a_ptr a - a_ptr a mod eff_align g l.
Definition needed (g : Z) (l : Layout) : Z := roundup (l_size l) (eff_align g l).

Definition arena_fits (g : Z) (l : Layout) (a : Arena) : Prop :=
  mr_kind (a_region a) = Usable /\ needed g l <= arena_top g l a - r_start (mr_range (a_region a)).

#[global] Instance arena_fits_dec g l a : Decision (arena_fits g l a).
Proof. unfold arena_fits. apply _. Defined.

(** Rounding the pointer down does not leave the arena.  Automatic for
    alignments up to the granule ([arena_top_granule]). *)
Definition arena_reaches (g : Z) (l : Layout) (a : Arena) : Prop :=
  mr_kind (a_region a) = Usable -> r_start (mr_range (a_region a)) <= arena_top g l a.

Section arena.
Context (k : Z) (Hk : 0 <= k < 63).
Notation g := (2 ^ k).

Lemma eff_align_pow2 l : layout_ok l -> exists j, k <= j < 63 /\ eff_align g l = 2 ^ j /\ l_align l <= 2 ^ j
  /\ (2 ^ j) mod g = 0 /\ (2 ^ j) mod l_align l = 0.
Proof.
  intros [_ (j & Hj & Ha)]. exists (Z.max j k). unfold eff_align. rewrite Ha.
  destruct (Z.le_ge_cases j k) as [Hle | Hge].
  - rewrite (Z.max_r j k) by done. pose proof (Z.pow_le_mono_r 2 j k ltac:(lia) Hle).
    rewrite Z.max_r by done. split_and!; try lia; [apply Z_mod_same_full |].
    rewrite (pow2_split j k) by lia. rewrite Z.mul_comm. apply Z_mod_mult.
  - rewrite (Z.max_l j k) by done. pose proof (Z.pow_le_mono_r 2 k j ltac:(lia) Hge).
    rewrite Z.max_l by done. split_and!; try lia; [| apply Z_mod_same_full].
    rewrite (pow2_split k j) by lia. rewrite Z.mul_comm. apply Z_mod_mult.
Qed.

Lemma arena_top_granule l a : arena_ok g a -> l_align l <= g -> arena_top g l a = a_ptr a.
Proof. intros [] Hl. unfold arena_top, eff_align. rewrite Z.max_r by done. lia. Qed.

Lemma mod_mod_0 x A B : 0 < B -> 0 < A -> A mod B = 0 -> x mod A = 0 -> x mod B = 0.
Proof.
  intros HB HA H1 H2. apply Z.mod_divide in H1; [| lia]. apply Z.mod_divide in H2; [| lia].
  apply Z.mod_divide; [lia |]. by eapply Z.divide_trans.
Qed.

Lemma arena_aligned_ptr_spec l a :
  layout_ok l -> arena_ok g a ->
  let start := r_start (mr_range (a_region a)) in
  arena_aligned_ptr g l a =
    if arena_top g l a <? start then Panicked
    else if arena_top g l a - start <? needed g l then Done None
    else Done (Some (arena_top g l a - needed g l)).
Proof.
  intros Hl Hok start. pose proof Hl as [Hs (j & Hj & Ha)]. destruct (eff_align_pow2 l Hl) as (m & Hm & Em & _).
  assert (Hmod : USIZE_MOD = 2 * 2 ^ 63) by done. pose proof (pow2_pos j ltac:(lia)). pose proof (pow2_pos k ltac:(lia)).
  assert (Hgk : g <= 2 ^ 62) by (apply Z.pow_le_mono_r; lia). assert (E63 : 2 ^ 63 = 2 * 2 ^ 62) by done.
  pose proof Hok as [Hst Hp He Hsa Hpa]. fold start in Hst, Hp. unfold arena_aligned_ptr.
  assert (Htop : l_align l <= g -> arena_top g l a = a_ptr a) by by apply arena_top_granule.
  assert (Hneed : needed g l = roundup (l_size l) (eff_align g l)) by done.
  assert (Hsub : forall n t, 0 <= t <= a_ptr a -> 0 <= n <= t -> addr_wrapping_sub t n = t - n).
  { intros. apply wrap_small. unfold is_usize. lia. }
  destruct (roundup_spec (l_size l) (eff_align g l)) as [[Hr1 Hr2] _]; [rewrite Em; apply pow2_pos; lia |].
  rewrite <- Hneed in *. unfold eff_align in Hneed.
  destruct (Z.compare_spec (l_align l) g) as [E | E | E].
  - rewrite Z.max_r in Hneed by lia. rewrite Htop by lia. rewrite (proj2 (Z.ltb_ge _ _)) by lia.
    unfold round_up_to_unchecked. rewrite E, round_up_to_Done by lia. rewrite <- Hneed. simpl.
    rewrite (arena_capacity_Done g a Hok). simpl. fold start. destruct (Z.ltb_spec (a_ptr a - start) (needed g l)); [done |].
    by rewrite Hsub by lia.
  - rewrite Z.max_r in Hneed by lia. rewrite Htop by lia. rewrite (proj2 (Z.ltb_ge _ _)) by lia.
    rewrite round_up_to_Done by lia. rewrite <- Hneed. simpl.
    rewrite (arena_capacity_Done g a Hok). simpl. fold start. destruct (Z.ltb_spec (a_ptr a - start) (needed g l)); [done |].
    by rewrite Hsub by lia.
  - rewrite Z.max_l in Hneed by lia. unfold round_up_to_unchecked. rewrite Ha, round_up_to_Done, <- Ha, <- Hneed by lia. simpl.
    rewrite Ha, align_down_pow2 by (unfold is_usize; lia). simpl.
    assert (Et : a_ptr a - a_ptr a mod 2 ^ j = arena_top g l a).
    { unfold arena_top, eff_align. rewrite Z.max_l by lia. by rewrite Ha. }
    rewrite Et. pose proof (Z.mod_pos_bound (a_ptr a) (2 ^ j) ltac:(lia)).
    pose proof (Z.mod_le (a_ptr a) (2 ^ j) ltac:(lia) ltac:(lia)).
    destruct (Z.ltb_spec (arena_top g l a) start) as [Hlt | Hge].
    + unfold addr_offset_from_unsigned. fold start. by rewrite (proj2 (Z.ltb_lt _ _)).
    + fold start. rewrite addr_offset_from_unsigned_Done by (unfold is_usize; lia). simpl.
      rewrite (proj2 (Z.ltb_ge _ _)) by done. simpl. destruct (Z.ltb_spec (arena_top g l a - start) (needed g l)); [done |].
      by rewrite Hsub by lia.
Qed.

(** The behaviour of [Arena::allocate] on every branch. *)
Lemma arena_allocate_spec l a :
  layout_ok l -> arena_ok g a ->
  let start := r_start (mr_range (a_region a)) in
  arena_allocate g l a =
    if decide (mr_kind (a_region a) = Usable) then
      if arena_top g l a <? start then Panicked
      else if decide (arena_fits g l a)
           then Done (Some (arena_top g l a - needed g l), MkArena (a_region a) (arena_top g l a - needed g l))
           else Done (None, a)
    else Done (None, a).
Proof.
  intros Hl Hok start. unfold arena_allocate. case_decide as Hu.
  2: { destruct (mr_kind (a_region a)); done. }
  rewrite Hu. simpl. pose proof Hok as [Hst Hp He Hsa Hpa]. fold start in Hst, Hp.
  rewrite is_aligned_to_pow2, Hpa by lia. simpl. rewrite arena_aligned_ptr_spec by done. fold start.
  destruct (Z.ltb_spec (arena_top g l a) start) as [? | Hge]; [done |].
  destruct (Z.ltb_spec (arena_top g l a - start) (needed g l)) as [Hlt | Hfit]; simpl.
  { rewrite decide_False; [done |]. intros [_ Hf]. fold start in Hf. lia. }
  rewrite decide_True by done. pose proof Hl as [Hs (j & Hj & Ha)].
  destruct (eff_align_pow2 l Hl) as (m & Hm & Em & Hal & Hmg & Hmj). pose proof (pow2_pos m ltac:(lia)).
  assert (Hmod : (arena_top g l a - needed g l) mod 2 ^ m = 0).
  { unfold arena_top, needed. rewrite Em. destruct (roundup_spec (l_size l) (2 ^ m)) as [_ Hr]; [done |].
    rewrite Zminus_mod, Hr, Z.sub_0_r, Z.mod_mod by lia. by rewrite Zminus_mod_idemp_r, Z.sub_diag. }
  rewrite Ha in *. rewrite (is_aligned_to_pow2 _ j) by lia.
  rewrite (mod_mod_0 _ (2 ^ m) (2 ^ j)) by (try apply pow2_pos; (done || lia)). simpl.
  rewrite (is_aligned_to_pow2 _ k) by lia. rewrite (mod_mod_0 _ (2 ^ m) g) by (try apply pow2_pos; (done || lia)). simpl.
  assert (Hneed : 0 < needed g l).
  { unfold needed. rewrite Em. destruct (roundup_spec (l_size l) (2 ^ m)) as [[? _] _]; [done | lia]. }
  pose proof (Z.mod_pos_bound (a_ptr a) (2 ^ m) ltac:(done)). unfold arena_top in *. rewrite Em in *.
  unfold range_contains. fold start. by rewrite (proj2 (Z.leb_le _ _)), (proj2 (Z.ltb_lt _ _)) by lia.
Qed.

(** What an allocation does to the arena: the block comes out of the free part. *)
Lemma arena_allocated l a :
  layout_ok l -> arena_ok g a -> arena_fits g l a ->
  let p := arena_top g l a - needed g l in
  arena_ok g (MkArena (a_region a) p) /\ p mod l_align l = 0 /\ p mod g = 0
  /\ r_start (mr_range (a_region a)) <= p /\ p + l_size l <= p + needed g l <= a_ptr a.
Proof.
  intros Hl Hok [Hu Hfit] p. pose proof Hok as [Hst Hp He Hsa Hpa]. pose proof Hl as [Hs (j & Hj & Ha)].
  destruct (eff_align_pow2 l Hl) as (m & Hm & Em & Hal & Hmg & Hmj). pose proof (pow2_pos m ltac:(lia)).
  destruct (roundup_spec (l_size l) (2 ^ m)) as [[Hr1 Hr2] Hr3]; [done |].
  assert (Hmod : p mod 2 ^ m = 0).
  { subst p. unfold arena_top, needed. rewrite Em.
    rewrite Zminus_mod, Hr3, Z.sub_0_r, Z.mod_mod by lia. by rewrite Zminus_mod_idemp_r, Z.sub_diag. }
  assert (Hpg : p mod g = 0) by (apply (mod_mod_0 _ (2 ^ m) g); try apply pow2_pos; (done || lia)).
  pose proof (Z.mod_pos_bound (a_ptr a) (2 ^ m) ltac:(done)).
  assert (Hneed : needed g l = roundup (l_size l) (2 ^ m)) by (unfold needed; by rewrite Em).
  assert (Htop : arena_top g l a = a_ptr a - a_ptr a mod 2 ^ m) by (unfold arena_top; by rewrite Em).
  subst p. split_and!; try lia; try done.
  - split; simpl; (done || lia).
  - rewrite Ha in *. apply (mod_mod_0 _ (2 ^ m) (2 ^ j)); try apply pow2_pos; (done || lia).
Qed.

End arena.

(** ** All arenas *)

Section inner.
Context (k : Z) (Hk : 0 <= k < 63).
Notation g := (2 ^ k).

Definition arena_start (a : Arena) : Z := r_start (mr_range (a_region a)).
Definition arena_end (a : Arena) : Z := r_end (mr_range (a_region a)).
Definition with_ptr (p : Z) (a : Arena) : Arena := MkArena (a_region a) p.

(** Distinct arenas manage disjoint memory. *)
Definition arenas_disjoint (l : list Arena) : Prop :=
  forall i j a b, i <> j -> l !! i = Some a -> l !! j = Some b ->
    arena_end a <= arena_start b \/ arena_end b <= arena_start a.

Definition arenas_ok (l : list Arena) : Prop := Forall (arena_ok g) l /\ arenas_disjoint l.

Definition reach_all (lay : Layout) (l : list Arena) : Prop := Forall (arena_reaches g lay) l.

Lemma MkInner_eta b : MkInner (arenas b) (current_arena_hint b) = b.
Proof. by destruct b. Qed.

Lemma arena_at_Done b i a : arenas b !! i = Some a -> arena_at i b = Done (a, b).
Proof. intros H. unfold arena_at. by rewrite H. Qed.

Lemma has_capacity_Done a : arena_ok g a -> arena_has_capacity a = Done (0 <? a_ptr a - arena_start a).
Proof. intros Ha. unfold arena_has_capacity. by rewrite (arena_capacity_Done g). Qed.

Lemma allocate_at_spec lay b i a :
  layout_ok lay -> arena_ok g a -> arena_reaches g lay a -> arenas b !! i = Some a ->
  allocate_at i g lay b =
    if decide (arena_fits g lay a) then
      let p := arena_top g lay a - needed g lay in
      Done (Some p, MkInner (<[i := with_ptr p a]> (arenas b)) (current_arena_hint b))
    else Done (None, b).
Proof.
  intros Hl Ha Hr Hi. unfold allocate_at. rewrite Hi, (arena_allocate_spec k Hk) by done.
  destruct (decide (mr_kind (a_region a) = Usable)) as [Hu | Hu].
  - rewrite (proj2 (Z.ltb_ge _ _)) by by apply Hr. case_decide; simpl; [done |].
    by rewrite list_insert_id, MkInner_eta.
  - rewrite decide_False by (by intros [? _]). simpl. by rewrite list_insert_id, MkInner_eta.
Qed.

Lemma needed_pos lay : layout_ok lay -> 0 < needed g lay.
Proof.
  intros Hl. pose proof Hl as [Hs _]. destruct (eff_align_pow2 k Hk lay Hl) as (m & Hm & Em & _).
  unfold needed. rewrite Em. destruct (roundup_spec (l_size lay) (2 ^ m)) as [[? _] _]; [apply pow2_pos; lia | lia].
Qed.

(** An arena without capacity fits nothing. *)
Lemma no_capacity_unfit lay a :
  layout_ok lay -> arena_ok g a -> a_ptr a - arena_start a <= 0 -> ~ arena_fits g lay a.
Proof.
  intros Hl Ha Hc [_ Hf]. pose proof (needed_pos lay Hl). unfold arena_start in *.
  destruct (eff_align_pow2 k Hk lay Hl) as (m & Hm & Em & _). unfold arena_top in Hf. rewrite Em in Hf.
  pose proof (Z.mod_pos_bound (a_ptr a) (2 ^ m) (pow2_pos m ltac:(lia))). lia.
Qed.

Lemma arenas_ok_lookup l i a : arenas_ok l -> l !! i = Some a -> arena_ok g a.
Proof. intros [H _]. by apply Forall_lookup_1. Qed.

(** Moving the pointer of one arena keeps the invariant. *)
Lemma arenas_ok_insert l i a p :
  arenas_ok l -> l !! i = Some a -> arena_ok g (with_ptr p a) -> arenas_ok (<[i := with_ptr p a]> l).
Proof.
  intros [HF Hd] Hi Hp. split; [by apply Forall_insert |].
  assert (Hsame : forall j b, <[i := with_ptr p a]> l !! j = Some b ->
    exists b', l !! j = Some b' /\ arena_start b' = arena_start b /\ arena_end b' = arena_end b).
  { intros j b Hj. destruct (decide (i = j)) as [-> | Hne].
    - rewrite list_lookup_insert_eq in Hj by (by eapply lookup_lt_Some). simplify_eq. by exists a.
    - rewrite list_lookup_insert_ne in Hj by done. by exists b. }
  intros i1 j1 b1 b2 Hne H1 H2. destruct (Hsame _ _ H1) as (c1 & Hc1 & <- & <-).
  destruct (Hsame _ _ H2) as (c2 & Hc2 & <- & <-). by apply (Hd i1 j1).
Qed.

(** *** The contiguous path *)

(** Arena [i] served the request. *)
Definition served (lay : Layout) (l l' : list Arena) (p : Z) : Prop :=
  exists i a, l !! i = Some a /\ arena_fits g lay a /\ p = arena_top g lay a - needed g lay
    /\ l' = <[i := with_ptr p a]> l.

Lemma served_ok lay l l' p : layout_ok lay -> arenas_ok l -> served lay l l' p -> arenas_ok l' /\ length l' = length l.
Proof.
  intros Hl Hok (i & a & Hi & Hf & -> & ->). split; [| by rewrite length_insert].
  apply arenas_ok_insert; [done | done |].
  by destruct (arena_allocated k Hk lay a Hl (arenas_ok_lookup _ _ _ Hok Hi) Hf) as [? _].
Qed.

Lemma contiguous_slow_loop_spec lay hint offsets b :
  layout_ok lay -> arenas_ok (arenas b) -> reach_all lay (arenas b) -> arenas b <> [] ->
  exists r b', contiguous_slow_loop offsets hint g lay b = Done (r, b')
  /\ match r with
     | Some p => served lay (arenas b) (arenas b') p /\ (current_arena_hint b' < length (arenas b'))%nat
     | None => b' = b /\ forall o a, o ∈ offsets -> arenas b !! ((hint + o) mod length (arenas b))%nat = Some a ->
                 ~ arena_fits g lay a
     end.
Proof.
  intros Hl Hok Hr Hne. induction offsets as [| o offsets IH]; simpl.
  { exists None, b. split; [done |]. split; [done | set_solver]. }
  set (i := ((hint + o) mod length (arenas b))%nat).
  assert (Hi : (i < length (arenas b))%nat) by (apply Nat.mod_upper_bound; by destruct (arenas b)).
  destruct (lookup_lt_is_Some_2 _ _ Hi) as [a Ha]. pose proof (arenas_ok_lookup _ _ _ Hok Ha) as Hoka.
  step_by (arena_at_Done b i a Ha). step_by (has_capacity_Done a Hoka).
  pose proof (allocate_at_spec lay b i a Hl Hoka (Forall_lookup_1 _ _ _ _ Hr Ha) Ha) as Hal.
  assert (Hskip : ~ arena_fits g lay a -> exists r b', contiguous_slow_loop offsets hint g lay b = Done (r, b')
    /\ match r with
       | Some p => served lay (arenas b) (arenas b') p /\ (current_arena_hint b' < length (arenas b'))%nat
       | None => b' = b /\ forall o' a', o' ∈ o :: offsets ->
                   arenas b !! ((hint + o') mod length (arenas b))%nat = Some a' -> ~ arena_fits g lay a'
       end).
  { intros Hn. destruct IH as (r & b' & E & HIH). exists r, b'. split; [done |]. destruct r; [done |].
    destruct HIH as [-> HIH]. split; [done |]. intros o' a' [-> | Ho']%elem_of_cons Ha'; [| by eapply HIH].
    fold i in Ha'. by simplify_eq. }
  destruct (Z.ltb_spec 0 (a_ptr a - arena_start a)) as [Hc | Hc].
  - case_decide as Hf; step_by Hal; [| by apply Hskip].
    eexists _, _. split; [reflexivity |]. simpl. rewrite length_insert. split; [| done]. by exists i, a.
  - rewrite (M_bind_Done _ _ _ None b) by done. apply Hskip. by apply no_capacity_unfit.
Qed.

(** [(hint + o) mod n] over all offsets visits every index once. *)
Lemma offsets_perm n hint : (0 < n)%nat -> (fun o => (hint + o) mod n)%nat <$> seq 0 n ≡ₚ seq 0 n.
Proof.
  intros Hn. assert (Hnd : NoDup ((fun o => (hint + o) mod n)%nat <$> seq 0 n)).
  { apply NoDup_fmap_2_strong; [| apply NoDup_seq]. intros x y Hx%elem_of_seq Hy%elem_of_seq E.
    pose proof (Nat.div_mod_eq (hint + x) n) as Ex. pose proof (Nat.div_mod_eq (hint + y) n) as Ey.
    cbv beta in E. rewrite E in Ex. destruct (Nat.lt_trichotomy ((hint + x) / n) ((hint + y) / n)) as [? | [? | ?]]; nia. }
  apply submseteq_length_Permutation; [apply NoDup_submseteq; [done |] | by rewrite length_fmap].
  intros x Hx. apply list_elem_of_fmap in Hx as (o & -> & _). apply elem_of_seq.
  pose proof (Nat.mod_upper_bound (hint + o) n). lia.
Qed.

Lemma contiguous_run lay b :
  layout_ok lay -> arenas_ok (arenas b) -> reach_all lay (arenas b) -> (current_arena_hint b < length (arenas b))%nat ->
  exists r b', (p ← allocate_contiguous_fast g lay;
                match p with Some p => mret (Some p) | None => allocate_contiguous_slow g lay end) b = Done (r, b')
  /\ (current_arena_hint b' < length (arenas b'))%nat
  /\ match r with
     | Some p => served lay (arenas b) (arenas b') p
     | None => b' = b /\ Forall (fun a => ~ arena_fits g lay a) (arenas b)
     end.
Proof.
  intros Hl Hok Hr Hh. destruct (lookup_lt_is_Some_2 _ _ Hh) as [a Ha].
  pose proof (arenas_ok_lookup _ _ _ Hok Ha) as Hoka.
  pose proof (allocate_at_spec lay b _ a Hl Hoka (Forall_lookup_1 _ _ _ _ Hr Ha) Ha) as Hal.
  unfold allocate_contiguous_fast. case_decide as Hf.
  - step_by Hal. eexists _, _. split; [reflexivity |]. simpl. rewrite length_insert. split; [done |]. by exists (current_arena_hint b), a.
  - step_by Hal. unfold allocate_contiguous_slow.
    destruct (contiguous_slow_loop_spec lay (current_arena_hint b) (seq 1 (length (arenas b) - 1)) b Hl Hok Hr)
      as (r & b' & E & HE); [by destruct (arenas b) |].
    exists r, b'. split; [done |]. destruct r as [p |]; [by destruct HE |]. destruct HE as [-> HE]. split; [done |].
    split; [done |]. apply Forall_lookup. intros i a' Hi.
    assert (Hlt : (i < length (arenas b))%nat) by (by eapply lookup_lt_Some).
    assert (Hin : i ∈ (fun o => (current_arena_hint b + o) mod length (arenas b))%nat <$> seq 0 (length (arenas b))).
    { rewrite offsets_perm by lia. apply elem_of_seq. lia. }
    apply list_elem_of_fmap in Hin as (o & -> & Ho%elem_of_seq). destruct (decide (o = 0)%nat) as [-> | Hne].
    + rewrite Nat.add_0_r, Nat.mod_small in Hi by done. by simplify_eq.
    + apply (HE o); [apply elem_of_seq; lia | done].
Qed.

(** *** The discontiguous path

    [blocks_from align l0 l ids blocks]: block [n] was taken from the free part
    of arena [ids !! n] of [l0]; [l] are the arenas afterwards. *)

Definition block_from (align : Z) (l0 l : list Arena) (i : nat) (block : range) : Prop :=
  exists a, l0 !! i = Some a /\ mr_kind (a_region a) = Usable
    /\ arena_start a <= r_start block < r_end block /\ r_end block <= a_ptr a
    /\ r_start block mod align = 0 /\ r_start block mod g = 0
    /\ l !! i = Some (with_ptr (r_start block) a).

Record blocks_from (align : Z) (l0 l : list Arena) (ids : list nat) (blocks : list range) : Prop := {
  bf_nodup : NoDup ids;
  bf_blocks : Forall2 (block_from align l0 l) ids blocks;
  bf_others : forall j, j ∉ ids -> l !! j = l0 !! j;
  bf_length : length l = length l0;
  bf_ok : arenas_ok l;
}.

Definition block_len (block : range) : Z := r_end block - r_start block.
Definition total_len (blocks : list range) : Z := foldr Z.add 0 (block_len <$> blocks).

Lemma total_len_snoc blocks block : total_len (blocks ++ [block]) = total_len blocks + block_len block.
Proof.
  unfold total_len. rewrite fmap_app. induction (block_len <$> blocks) as [| b l IH]; simpl in *; lia.
Qed.

Lemma blocks_from_nil align l : arenas_ok l -> blocks_from align l l [] [].
Proof. intros. split; try done. constructor. Qed.

(** Taking a block from an arena not used so far. *)
Lemma blocks_from_snoc align l0 l ids blocks i a p e :
  blocks_from align l0 l ids blocks -> i ∉ ids -> l0 !! i = Some a -> mr_kind (a_region a) = Usable ->
  arena_start a <= p < e -> e <= a_ptr a -> p mod align = 0 -> p mod g = 0 -> arena_ok g (with_ptr p a) ->
  blocks_from align l0 (<[i := with_ptr p a]> l) (ids ++ [i]) (blocks ++ [Range p e]).
Proof.
  intros [Hnd Hb Ho Hlen Hok] Hi Ha Hu Hpe He Hal Hg Hp. pose proof Ha as Ha'. rewrite <- (Ho i Hi) in Ha'. split.
  - apply NoDup_app. split_and!; [done | set_solver | apply NoDup_singleton].
  - apply Forall2_app.
    + rewrite Forall2_same_length_lookup in Hb |- *. destruct Hb as [Hlb Hb].
      split; [done |]. intros n j block Hj Hbl. destruct (Hb n j block Hj Hbl) as (a' & ? & ? & ? & ? & ? & ? & Hl).
      exists a'. split_and!; try done; try lia. rewrite list_lookup_insert_ne; [done |].
      intros ->. apply Hi. by eapply list_elem_of_lookup_2.
    + constructor; [| constructor]. exists a. simpl. split_and!; try done; try lia.
      rewrite list_lookup_insert_eq; [done | by eapply lookup_lt_Some].
  - intros j Hj. rewrite list_lookup_insert_ne by set_solver. apply Ho. set_solver.
  - by rewrite length_insert.
  - by apply arenas_ok_insert.
Qed.

(** One arena is visited: it is skipped, or as much as possible is taken. *)
Lemma slow_step_spec MAX i align remaining blocks b l0 ids a :
  blocks_from align l0 (arenas b) ids blocks -> i ∉ ids -> l0 !! i = Some a -> arenas_ok l0 ->
  0 < remaining -> (length blocks < MAX)%nat -> layout_ok (MkLayout remaining align) ->
  arena_reaches g (MkLayout remaining align) a ->
  let c := a_ptr a - arena_start a in
  let lay := MkLayout (Z.min remaining c) align in
  exists b',
    (slow_step MAX i g align remaining blocks b = Done ((remaining, blocks), b') /\ b' = b
     /\ (0 < c -> ~ arena_fits g lay a))
    \/ (exists p, slow_step MAX i g align remaining blocks b
                  = Done ((remaining - Z.min remaining c, blocks ++ [Range p (p + Z.min remaining c)]), b')
        /\ 0 < c /\ p = arena_top g lay a - needed g lay /\ arena_fits g lay a
        /\ blocks_from align l0 (arenas b') (ids ++ [i]) (blocks ++ [Range p (p + Z.min remaining c)])
        /\ current_arena_hint b' = i).
Proof.
  intros Hbf Hi Ha Hok0 Hrem HMAX [[_ Hsz] (j & Hj & Hal)] Hr c lay. cbn [l_size l_align] in *.
  pose proof (arenas_ok_lookup _ _ _ Hok0 Ha) as Hoka. pose proof Ha as Ha'. rewrite <- (bf_others _ _ _ _ _ Hbf i Hi) in Ha'.
  unfold slow_step. rewrite (M_bind_Done _ _ _ _ _ (arena_at_Done b i a Ha')).
  rewrite (M_bind_Done _ _ _ _ _ (lift_Done _ _ _ (has_capacity_Done a Hoka))). fold c.
  destruct (Z.ltb_spec 0 c) as [Hc | Hc].
  2: { exists b. left. split_and!; [done | done | lia]. }
  rewrite (M_bind_Done _ _ _ _ _ (lift_Done _ _ _ (arena_capacity_Done g a Hoka))).
  change (a_ptr a - r_start (mr_range (a_region a))) with c.
  assert (Hlay : layout_ok lay) by (split; cbn; [lia | by exists j]).
  assert (El : layout_from_size_align (Z.min remaining c) align = Some lay).
  { unfold layout_from_size_align. rewrite Hal, is_power_of_two_pow2, <- Hal, (proj2 (Z.leb_le _ _)) by lia. done. }
  rewrite El. pose proof (allocate_at_spec lay b i a Hlay Hoka Hr Ha') as Hall. case_decide as Hf.
  2: { exists b. left. by rewrite (M_bind_Done _ _ _ _ _ Hall). }
  rewrite (M_bind_Done _ _ _ _ _ Hall). cbv zeta. set (p := arena_top g lay a - needed g lay).
  destruct (arena_allocated k Hk lay a Hlay Hoka Hf) as (Hp1 & Hp2 & Hp3 & Hp4 & Hp5). fold p in Hp1, Hp2, Hp3, Hp4, Hp5.
  cbn [l_size lay] in Hp5. pose proof Hoka as [Hst Hpt Hen _ _].
  eexists. right. exists p. split; [| split_and!; [done | done | done | | ]].
  - erewrite M_bind_Done by reflexivity.
    rewrite (lift_Done_bind _ (remaining - Z.min remaining c)) by (apply u_sub_Done; unfold is_usize; lia).
    rewrite (lift_Done_bind _ (Range p (p + Z.min remaining c))).
    2: { unfold range_from_start_len, addr_add. by rewrite u_add_Done by (unfold is_usize; lia). }
    rewrite (lift_Done_bind _ tt) by (apply assert_true, Nat.ltb_lt; lia). reflexivity.
  - cbn [arenas]. apply (blocks_from_snoc align l0 _ ids blocks i a); try done; unfold arena_start; try lia.
    by destruct Hf.
  - done.
Qed.

(** A block that is the whole free part of its arena. *)
Definition whole_block (l0 : list Arena) (i : nat) (block : range) : Prop :=
  exists a, l0 !! i = Some a /\ block = arena_free a /\ arena_start a < a_ptr a.

(** Free bytes of arena [i], if it is usable. *)
Definition free_of (l0 : list Arena) (i : nat) : Z :=
  match l0 !! i with
  | Some a => if is_usable (mr_kind (a_region a)) then a_ptr a - arena_start a else 0
  | None => 0
  end.

Definition sum_free (l0 : list Arena) (ids : list nat) : Z := foldr Z.add 0 (free_of l0 <$> ids).

Lemma sum_free_cons l0 i ids : sum_free l0 (i :: ids) = free_of l0 i + sum_free l0 ids.
Proof. done. Qed.

(** With an alignment up to the granule an arena fits whatever it has left. *)
Lemma fits_granule a size align :
  arena_ok g a -> mr_kind (a_region a) = Usable -> align <= g ->
  size <= a_ptr a - arena_start a -> arena_fits g (MkLayout size align) a.
Proof.
  intros Ha Hu Hal Hs. split; [done |]. rewrite (arena_top_granule k) by done. unfold needed, eff_align. simpl.
  rewrite Z.max_r by done. pose proof (pow2_pos k ltac:(lia)). destruct Ha as [_ _ _ H1 H2].
  apply roundup_least; [lia | | exact Hs]. by rewrite Zminus_mod, H1, H2.
Qed.

(** An arena that cannot complete the request is taken whole. *)
Lemma whole_take lay a :
  layout_ok lay -> arena_ok g a -> arena_fits g lay a -> l_size lay = a_ptr a - arena_start a ->
  arena_top g lay a - needed g lay = arena_start a.
Proof.
  intros Hl Ha Hf E. destruct (arena_allocated k Hk lay a Hl Ha Hf) as (_ & _ & _ & H1 & H2).
  unfold arena_start in *. lia.
Qed.

Lemma slow_loop_spec MAX align l0 hint offsets :
  arenas_ok l0 -> reach_all (MkLayout 1 align) l0 -> l0 <> [] ->
  NoDup ((fun o => (hint + o) mod length l0)%nat <$> offsets) ->
  forall remaining blocks b ids,
  blocks_from align l0 (arenas b) ids blocks -> Forall2 (whole_block l0) ids blocks ->
  (forall o, o ∈ offsets -> ((hint + o) mod length l0)%nat ∉ ids) ->
  0 < remaining -> layout_ok (MkLayout remaining align) -> (length blocks + length offsets <= MAX)%nat ->
  (current_arena_hint b < length l0)%nat ->
  exists r b', slow_loop MAX offsets hint g align remaining blocks b = Done (r, b')
  /\ (current_arena_hint b' < length l0)%nat
  /\ match r with
     | inl bl => exists ids', blocks_from align l0 (arenas b') ids' bl /\ total_len bl = total_len blocks + remaining
     | inr bl => exists ids', blocks_from align l0 (arenas b') ids' bl /\ Forall2 (whole_block l0) ids' bl
         /\ total_len bl < total_len blocks + remaining
         /\ (align <= g -> total_len bl
             = total_len blocks + sum_free l0 ((fun o => (hint + o) mod length l0)%nat <$> offsets))
     end.
Proof.
  intros Hok0 Hreach Hne. induction offsets as [| o offsets IH];
    intros Hnd remaining blocks b ids Hbf Hw Hids Hrem Hlay HMAX Hhint; cbn [slow_loop].
  { exists (inr blocks), b. split_and!; [done | done |]. exists ids. unfold sum_free. simpl. split_and!; (done || lia). }
  rewrite (bf_length _ _ _ _ _ Hbf). set (i := ((hint + o) mod length l0)%nat).
  assert (Hi : (i < length l0)%nat) by (apply Nat.mod_upper_bound; by destruct l0).
  destruct (lookup_lt_is_Some_2 _ _ Hi) as [a Ha]. pose proof (arenas_ok_lookup _ _ _ Hok0 Ha) as Hoka.
  rewrite fmap_cons in Hnd. apply NoDup_cons in Hnd as [Hni Hnd]. simpl in HMAX.
  assert (Hids' : forall o', o' ∈ offsets -> ((hint + o') mod length l0)%nat ∉ ids).
  { intros o' Ho'. apply Hids. by right. }
  destruct (slow_step_spec MAX i align remaining blocks b l0 ids a Hbf (Hids o ltac:(by left)) Ha Hok0 Hrem
    ltac:(lia) Hlay (Forall_lookup_1 _ _ _ _ Hreach Ha)) as (b' & [(E & -> & Hunfit) | (p & E & Hc & Hp & Hf & Hbf' & Hh)]).
  - rewrite (M_bind_Done _ _ _ _ _ E). cbv match. rewrite (proj2 (Z.eqb_neq _ _)) by lia.
    destruct (IH Hnd remaining blocks b ids Hbf Hw Hids' Hrem Hlay ltac:(lia) Hhint) as (r & b' & Er & Hhr & Hr).
    exists r, b'. split_and!; [done | done |]. destruct r as [bl | bl]; [done |].
    destruct Hr as (ids' & Hb & Hwb & Hlt & Hsum). exists ids'. split_and!; try done. intros Hal.
    rewrite (Hsum Hal), fmap_cons, sum_free_cons. fold i. unfold free_of. rewrite Ha.
    destruct (is_usable _) eqn:Hu; [| lia]. destruct (decide (0 < a_ptr a - arena_start a)) as [Hc | Hc].
    + exfalso. apply (Hunfit Hc). apply fits_granule; [done | by destruct (mr_kind _) | done | lia].
    + destruct Hoka. unfold arena_start in *. lia.
  - rewrite (M_bind_Done _ _ _ _ _ E). cbv match. set (c := a_ptr a - arena_start a) in *.
    destruct (Z.eqb_spec (remaining - Z.min remaining c) 0) as [Hz | Hz].
    { eexists _, b'. split; [reflexivity |]. rewrite Hh. split; [done |]. eexists. split; [exact Hbf' |].
      rewrite total_len_snoc. unfold block_len. cbn [r_start r_end]. lia. }
    assert (Hcr : c < remaining) by lia. rewrite (Z.min_r remaining c) in * by lia. pose proof Hlay as [[_ Hsz] (j & Hj & Hal)]. cbn in Hsz, Hal.
    assert (Hlc : layout_ok (MkLayout c align)) by (split; cbn; [lia | by exists j]).
    rewrite (whole_take _ a Hlc Hoka Hf eq_refl) in Hp.
    assert (Hw' : Forall2 (whole_block l0) (ids ++ [i]) (blocks ++ [Range p (p + c)])).
    { apply Forall2_app; [done |]. constructor; [| constructor]. exists a. split_and!; [done | | lia].
      unfold arena_free. fold (arena_start a). subst p c. f_equal. lia. }
    assert (Hids2 : forall o', o' ∈ offsets -> ((hint + o') mod length l0)%nat ∉ ids ++ [i]).
    { intros o' Ho'. apply not_elem_of_app. split; [by apply Hids' |]. rewrite list_elem_of_singleton. intros Eo.
      apply Hni. apply list_elem_of_fmap. exists o'. by rewrite Eo. }
    assert (HM2 : (length (blocks ++ [Range p (p + c)]) + length offsets <= MAX)%nat) by (rewrite length_app; simpl; lia).
    destruct (IH Hnd (remaining - c) _ b' _ Hbf' Hw' Hids2 ltac:(lia) ltac:(split; cbn; [lia | by exists j]) HM2 ltac:(by rewrite Hh))
      as (r & b'' & Er & Hhr & Hr).
    exists r, b''. split_and!; [done | done |]. rewrite !total_len_snoc in Hr. unfold block_len in Hr. cbn [r_start r_end] in Hr.
    destruct r as [bl | bl].
    + destruct Hr as (ids' & Hb & Ht). exists ids'. split; [done | lia].
    + destruct Hr as (ids' & Hb & Hwb & Hlt & Hsum). exists ids'. split_and!; try done; [lia |]. intros Hag.
      rewrite (Hsum Hag), fmap_cons, sum_free_cons. fold i. unfold free_of. rewrite Ha.
      destruct Hf as [Hu _]. rewrite Hu. simpl. fold c. lia.
Qed.

(** *** Cleaning up *)

Lemma free_block_at block l : forall i a,
  l !! i = Some a -> range_overlaps (mr_range (a_region a)) block = true -> a_ptr a = r_start block ->
  (forall j b, (j < i)%nat -> l !! j = Some b -> range_overlaps (mr_range (a_region b)) block = false) ->
  free_block block l = Done (<[i := with_ptr (r_end block) a]> l).
Proof.
  induction l as [| b l IH]; intros [| i] a Hi Ho Hp Hj; simplify_eq/=.
  - rewrite Ho. unfold deallocate_if_last. by rewrite Hp, Z.eqb_refl.
  - rewrite (Hj 0%nat b) by (done || lia). rewrite (IH i a); [done | done | done | done |].
    intros j c Hlt Hc. apply (Hj (S j)); [lia | done].
Qed.

(** Giving back whole free parts restores the arenas. *)
Lemma free_blocks_restore l0 ids blocks :
  arenas_ok l0 -> Forall2 (whole_block l0) ids blocks -> NoDup ids ->
  forall l, length l = length l0 ->
  (forall i a, i ∈ ids -> l0 !! i = Some a -> l !! i = Some (with_ptr (arena_start a) a)) ->
  (forall j, j ∉ ids -> l !! j = l0 !! j) ->
  free_blocks blocks l = Done l0.
Proof.
  intros [HF Hd] Hw. induction Hw as [| i block ids blocks (a & Ha & -> & Hlt) Hw IH]; intros Hnd l Hlen Hin Hout; simpl.
  { f_equal. apply list_eq. intros j. apply Hout. set_solver. }
  apply NoDup_cons in Hnd as [Hni Hnd]. pose proof (Hin i a ltac:(by left) Ha) as Hi.
  pose proof (Forall_lookup_1 _ _ _ _ HF Ha) as [_ Hp _ _ _]. unfold arena_start in *.
  rewrite (free_block_at _ l i (with_ptr (arena_start a) a)); [| done | | done |].
  - rewrite (outcome_bind_Done _ _ (<[i := with_ptr (a_ptr a) (with_ptr (arena_start a) a)]> l)) by done.
    apply IH; [done | by rewrite length_insert | |].
    + intros j b Hj Hb. rewrite list_lookup_insert_ne by set_solver. apply Hin; [by right | done].
    + intros j Hj. destruct (decide (i = j)) as [<- | Hne].
      * rewrite list_lookup_insert_eq by (by eapply lookup_lt_Some). rewrite Ha. by destruct a.
      * rewrite list_lookup_insert_ne by done. apply Hout. set_solver.
  - unfold range_overlaps, arena_free. simpl. by rewrite !(proj2 (Z.ltb_lt _ _)) by lia.
  - intros j b Hj Hb. assert (Hb0 : exists b0, l0 !! j = Some b0 /\ a_region b0 = a_region b).
    { destruct (decide (j ∈ ids)) as [Hjin | Hjout].
      - assert (Hlj : (j < length l0)%nat) by (rewrite <- Hlen; by eapply lookup_lt_Some).
        destruct (lookup_lt_is_Some_2 _ _ Hlj) as [b0 Hb0]. rewrite (Hin j b0 ltac:(by right) Hb0) in Hb. simplify_eq. by exists b0.
      - rewrite Hout in Hb by (apply not_elem_of_cons; split; [lia | done]). by exists b. }
    destruct Hb0 as (b0 & Hb0 & <-). pose proof (Hd j i b0 a ltac:(lia) Hb0 Ha) as Hdis. unfold arena_start, arena_end in Hdis.
    unfold range_overlaps, arena_free. simpl. apply andb_false_iff. rewrite !Z.ltb_ge. lia.
Qed.

Lemma allocate_slow_run MAX lay b :
  layout_ok lay -> arenas_ok (arenas b) -> reach_all lay (arenas b) -> (current_arena_hint b < length (arenas b))%nat ->
  (length (arenas b) <= MAX)%nat ->
  exists r b', allocate_slow MAX g lay b = Done (r, b')
  /\ (current_arena_hint b' < length (arenas b'))%nat
  /\ match r with
     | Some bl => exists ids, blocks_from (l_align lay) (arenas b) (arenas b') ids bl /\ total_len bl = l_size lay
     | None => arenas b' = arenas b
         /\ (l_align lay <= g -> sum_free (arenas b) (seq 0 (length (arenas b))) < l_size lay)
     end.
Proof.
  intros Hl Hok Hr Hh HM. pose proof Hl as [Hs _]. destruct lay as [size align]. cbn [l_size l_align] in *.
  assert (Hne : arenas b <> []) by (by destruct (arenas b); simpl in *; [lia |]).
  assert (Hlen : (0 < length (arenas b))%nat) by lia.
  assert (Hnd0 : NoDup ((fun o => (current_arena_hint b + o) mod length (arenas b))%nat <$> seq 0 (length (arenas b)))).
  { rewrite offsets_perm by done. apply NoDup_seq. }
  destruct (slow_loop_spec MAX align (arenas b) (current_arena_hint b) _ Hok Hr Hne
    Hnd0 size [] b [] (blocks_from_nil _ _ Hok) ltac:(constructor)
    ltac:(set_solver) ltac:(lia) Hl ltac:(rewrite length_seq; simpl; lia) Hh) as (r & b' & E & Hh' & HE).
  unfold allocate_slow. cbn [l_size l_align]. rewrite (M_bind_Done _ _ _ _ _ E).
  change (total_len []) with 0 in HE. destruct r as [bl | bl].
  - destruct HE as (ids & Hbf & Ht). exists (Some bl), b'. rewrite (bf_length _ _ _ _ _ Hbf). split_and!; [done | done |]. by exists ids.
  - destruct HE as (ids & Hbf & Hw & Hlt & Hsum). pose proof Hbf as [Hnd Hb Ho Hlb _].
    assert (Hg : free_blocks bl (arenas b') = Done (arenas b)).
    { apply (free_blocks_restore _ ids); try done. intros i a Hi Ha.
      apply list_elem_of_lookup in Hi as [m Hm]. destruct (Forall2_lookup_l _ _ _ _ _ Hb Hm) as (blk & Hblk & (a' & Ha' & _ & _ & _ & _ & _ & Hl')).
      destruct (Forall2_lookup_lr _ _ _ _ _ _ Hw Hm Hblk) as (a2 & Ha2 & -> & _). simplify_eq. exact Hl'. }
    unfold give_back. eexists None, _. split.
    { erewrite M_bind_Done; [reflexivity |]. cbv beta. rewrite Hg. reflexivity. }
    cbn [current_arena_hint arenas]. split_and!; [done | done |]. intros Hal. specialize (Hsum Hal).
    assert (Hperm : forall l l', l ≡ₚ l' -> sum_free (arenas b) l = sum_free (arenas b) l').
    { intros l l' Hll. unfold sum_free. apply (foldr_permutation_proper (=) Z.add 0); [lia | by rewrite Hll]. }
    rewrite (Hperm _ _ (offsets_perm _ _ Hlen)) in Hsum. lia.
Qed.

End inner.

(** ** Construction *)

Definition start_le (r s : MemoryRegion) : Prop := r_start (mr_range r) <= r_start (mr_range s).
Definition before (r s : MemoryRegion) : Prop := r_end (mr_range r) <= r_start (mr_range s).
Definition nonempty (r : MemoryRegion) : Prop := r_start (mr_range r) < r_end (mr_range r).

Lemma insert_region_perm r l : insert_region r l ≡ₚ r :: l.
Proof. induction l as [| s l IH]; simpl; [done |]. destruct (_ <=? _); [done |]. rewrite IH. constructor. Qed.

Lemma sort_regions_perm l : sort_regions l ≡ₚ l.
Proof. induction l as [| r l IH]; simpl; [done |]. by rewrite insert_region_perm, IH. Qed.

Lemma insert_region_sorted r l : StronglySorted start_le l -> StronglySorted start_le (insert_region r l).
Proof.
  unfold start_le. induction 1 as [| s l Hs IH Hall]; simpl; [repeat constructor |].
  destruct (Z.leb_spec (r_start (mr_range r)) (r_start (mr_range s))).
  - constructor; [by constructor |]. constructor; [done |]. eapply Forall_impl; [exact Hall |]. simpl. lia.
  - constructor; [done |]. rewrite insert_region_perm. constructor; [lia | done].
Qed.

Lemma sort_regions_sorted l : StronglySorted start_le (sort_regions l).
Proof. induction l; simpl; [constructor | by apply insert_region_sorted]. Qed.

(** Sorted non-empty regions pass the check iff no address is in two of them. *)
Lemma assert_disjoint_sorted l :
  StronglySorted start_le l -> Forall nonempty l -> (forall a, regions_at a l <= 1)%nat -> assert_disjoint l = Done tt.
Proof.
  unfold start_le, nonempty. induction 1 as [| cur l Hs IH Hall]; intros Hne H1; [done |].
  apply Forall_cons in Hne as [Hc Hne]. destruct l as [| next l]; [done |].
  assert (Htail : (forall a, regions_at a (next :: l) <= 1)%nat).
  { intros a. specialize (H1 a). rewrite regions_at_cons in H1. lia. }
  cbn [assert_disjoint]. rewrite (outcome_bind_Done _ _ tt); [by apply IH |].
  apply assert_true, negb_true_iff. destruct (range_overlaps _ _) eqn:Ho; [exfalso | done].
  unfold range_overlaps in Ho. rewrite andb_true_iff, !Z.ltb_lt in Ho.
  apply Forall_cons in Hall as [Hcn _]. apply Forall_cons in Hne as [Hn _].
  specialize (H1 (r_start (mr_range next))). rewrite !regions_at_cons in H1.
  rewrite !decide_True in H1 by (unfold in_region; lia). lia.
Qed.

Lemma assert_disjoint_inv l :
  StronglySorted start_le l -> Forall nonempty l -> assert_disjoint l = Done tt -> StronglySorted before l.
Proof.
  unfold start_le, nonempty, before. induction 1 as [| cur l Hs IH Hall]; intros Hne Ha; [constructor |].
  apply Forall_cons in Hne as [Hc Hne]. destruct l as [| next l]; [repeat constructor |].
  cbn [assert_disjoint] in Ha. apply outcome_bind_inv in Ha as ([] & Hb & Ha).
  apply assert_inv, negb_true_iff, andb_false_iff in Hb. rewrite !Z.ltb_ge in Hb.
  specialize (IH Hne Ha). constructor; [done |]. apply Forall_cons in Hne as [Hn Hne'].
  apply Forall_cons in Hall as [Hcn Hall]. constructor; [lia |].
  apply StronglySorted_inv in IH as [_ Hbef]. eapply Forall_impl; [exact Hbef |]. simpl. lia.
Qed.

Lemma before_regions_at l a : StronglySorted before l -> Forall nonempty l -> (regions_at a l <= 1)%nat.
Proof.
  unfold before, nonempty. induction 1 as [| r l Hs IH Hall]; intros Hne; [unfold regions_at; simpl; lia |].
  apply Forall_cons in Hne as [Hr Hne]. rewrite regions_at_cons. case_decide as Hin; [| by apply IH].
  assert (E : regions_at a l = 0%nat); [| lia]. unfold regions_at. apply length_zero_iff_nil.
  clear IH Hs. unfold in_region in *. induction l as [| s l IH]; [done |]. apply Forall_cons in Hall as [? ?].
  apply Forall_cons in Hne as [? ?]. rewrite filter_cons_False by lia. by apply IH.
Qed.

Lemma assert_disjoint_outcome l : assert_disjoint l = Done tt \/ assert_disjoint l = Panicked.
Proof.
  induction l as [| cur [| next l] IH]; [by left | by left |]. cbn [assert_disjoint].
  destruct (range_overlaps _ _); [by right |]. exact IH.
Qed.

Section construction.
Context (k : Z) (Hk : 0 <= k < 63).
Notation g := (2 ^ k).

(** A region that contains at least the aligned bounds. *)
Definition region_ok (r : MemoryRegion) : Prop :=
  0 <= r_start (mr_range r) < r_end (mr_range r) /\ r_end (mr_range r) < USIZE_MOD
  /\ roundup (r_start (mr_range r)) g <= r_end (mr_range r) - r_end (mr_range r) mod g.

Definition fresh_arena (r : MemoryRegion) : Arena :=
  let e := r_end (mr_range r) - r_end (mr_range r) mod g in
  MkArena (MkRegion (Range (roundup (r_start (mr_range r)) g) e) (mr_kind r)) e.

Lemma region_align_in r :
  region_ok r ->
  range_align_in (mr_range r) g = Done (mr_range (a_region (fresh_arena r))) /\ arena_ok g (fresh_arena r).
Proof.
  intros (Hse & He & Hal). pose proof (pow2_pos k ltac:(lia)) as Hp. unfold range_align_in.
  destruct (roundup_spec (r_start (mr_range r)) g Hp) as [[Hr1 Hr2] Hr3].
  pose proof (Z.mod_pos_bound (r_end (mr_range r)) g Hp).
  assert (Hov : r_start (mr_range r) + (g - 1) < USIZE_MOD).
  { assert (r_start (mr_range r) + (g - 1) - (r_start (mr_range r) + (g - 1)) mod g + g <= USIZE_MOD); [| ].
    - fold (roundup (r_start (mr_range r)) g).
      assert (Hd : (USIZE_MOD - roundup (r_start (mr_range r)) g) mod g = 0).
      { rewrite Zminus_mod, Hr3. change USIZE_MOD with (2 ^ 64). rewrite (pow2_split k 64), Z.mul_comm, Z_mod_mult by lia. done. }
      apply Z.mod_divide in Hd as [q Hq]; [| lia]. assert (0 < q) by nia. nia.
    - pose proof (Z.mod_pos_bound (r_start (mr_range r) + (g - 1)) g Hp). lia. }
  rewrite align_up_pow2 by (unfold is_usize; lia). fold (roundup (r_start (mr_range r)) g). simpl.
  rewrite align_down_pow2 by (unfold is_usize; lia). split; [done |].
  split; simpl; try lia; try exact Hr3; by rewrite Zminus_mod_idemp_r, Z.sub_diag.
Qed.

Lemma make_arenas_spec l : Forall region_ok l -> forall i size idx, (0 <= size) ->
  exists idx', make_arenas g i size idx l = Done (fresh_arena <$> l, idx')
    /\ (idx' = idx \/ i <= idx' < i + length l)%nat.
Proof.
  induction 1 as [| r l Hr Hall IH]; intros i size idx Hs; [by exists idx; split; [| left] |].
  destruct (region_align_in r Hr) as [Ea [_ Hp He _ _]]. cbn [make_arenas]. rewrite Ea, (outcome_bind_Done _ _ _ eq_refl).
  set (a := fresh_arena r) in *. assert (Hlen : exists n, range_len (mr_range (a_region a)) = Done n /\ 0 <= n).
  { unfold range_len. destruct (Z.leb_spec (r_end (mr_range (a_region a))) (r_start (mr_range (a_region a)))); [by exists 0 |].
    pose proof Hr as (? & ? & ?). destruct (region_align_in r Hr) as [_ [Hst _ _ _ _]]. fold a in Hst.
    rewrite addr_offset_from_unsigned_Done by (unfold is_usize; lia). eexists. split; [done | lia]. }
  destruct Hlen as (n & -> & Hn). rewrite (outcome_bind_Done _ _ _ eq_refl).
  destruct (size <? n); cbv match.
  - destruct (IH (S i) n i Hn) as (idx' & -> & Hi). exists idx'. split; [done |]. simpl. lia.
  - destruct (IH (S i) size idx Hs) as (idx' & -> & Hi). exists idx'. split; [done |]. simpl. lia.
Qed.

Lemma fresh_arenas_ok l : Forall region_ok l -> StronglySorted before l -> arenas_ok k (fresh_arena <$> l).
Proof.
  intros HF Hs. pose proof (pow2_pos k ltac:(lia)) as Hp. split.
  - apply Forall_fmap. eapply Forall_impl; [exact HF |]. intros r Hr. by apply region_align_in.
  - assert (Hbef : forall i j r s, (i < j)%nat -> l !! i = Some r -> l !! j = Some s ->
      arena_end (fresh_arena r) <= arena_start (fresh_arena s)).
    { intros i j r s Hij Hi Hj. assert (Hb : before r s).
      { clear HF. revert i j Hij Hi Hj. induction Hs as [| x l Hs IH Hall]; intros i j Hij Hi Hj; [done |].
        destruct i as [| i], j as [| j]; simplify_eq/=; try lia.
        - by eapply Forall_lookup_1 in Hall.
        - apply (IH i j); [lia | done | done]. }
      unfold before in Hb. unfold arena_end, arena_start. simpl.
      pose proof (Z.mod_pos_bound (r_end (mr_range r)) g Hp). destruct (roundup_spec (r_start (mr_range s)) g Hp) as [[? _] _]. lia. }
    intros i j a b Hne Hi Hj. apply list_lookup_fmap_Some in Hi as (r & -> & Hi). apply list_lookup_fmap_Some in Hj as (s & -> & Hj).
    destruct (Nat.lt_total i j) as [Hlt | [-> | Hlt]]; [left | done | right]; by eapply Hbef.
Qed.

End construction.
