(* ===== verification/Loader.v ===== *)
(** * What the loader's memory management guarantees

    The theorems about sys/loader-flat/src/frame_alloc.rs and the [finalize]
    closure of sys/loader-flat/src/main.rs, the contract the page-table engine
    needs from the allocator, and applications to concrete memory. *)

From stdpp Require Import base numbers list sets gmap sorting.
From Stdlib Require Import ZArith Lia.
From S2P Require Import Prelude Address Riscv Arch ArrayVec Machine LoaderRegions BumpAllocator.

(** ** The invariant of the allocator *)

Record bump_ok (k : Z) (b : BumpAllocator) : Prop := {
  bo_align : min_align b = 2 ^ k;
  bo_arenas : arenas_ok k (arenas (inner b));
  bo_hint : (current_arena_hint (inner b) < length (arenas (inner b)))%nat;
  bo_max : (length (arenas (inner b)) <= max_regions b)%nat;
}.

Lemma on_inner_Done {A} (op : M BumpAllocatorInner A) b a i :
  op (inner b) = Done (a, i) -> on_inner op b = Done (a, MkBump i (min_align b) (max_regions b)).
Proof. intros E. unfold on_inner. by rewrite E. Qed.

(** The memory that can still be handed out. *)
Definition free_at (l : list Arena) (x : Z) : Prop :=
  exists a, a ∈ l /\ mr_kind (a_region a) = Usable /\ arena_start a <= x < a_ptr a.

Section loader.
Context (k : Z) (Hk : 0 <= k < 63).
Notation g := (2 ^ k).

Lemma served_block lay l l' p :
  layout_ok lay -> arenas_ok k l -> served k lay l l' p ->
  exists i, blocks_from k (l_align lay) l l' [i] [Range p (p + l_size lay)].
Proof.
  intros Hl Hok (i & a & Hi & Hf & -> & ->). exists i.
  destruct (arena_allocated k Hk lay a Hl (arenas_ok_lookup _ _ _ _ Hok Hi) Hf) as (H1 & H2 & H3 & H4 & H5).
  pose proof Hl as [[Hs _] _]. pose proof Hf as [Hu _].
  apply (blocks_from_snoc k Hk (l_align lay) l l [] [] i a); try done; try (unfold arena_start; lia).
  - by apply blocks_from_nil.
  - set_solver.
Qed.

(** Blocks taken from distinct arenas are disjoint, were free and are not any more. *)
Lemma blocks_from_disjoint align l0 l ids blocks :
  arenas_ok k l0 -> blocks_from k align l0 l ids blocks ->
  (forall m n b1 b2, m <> n -> blocks !! m = Some b1 -> blocks !! n = Some b2 ->
     r_end b1 <= r_start b2 \/ r_end b2 <= r_start b1)
  /\ (forall b x, b ∈ blocks -> r_start b <= x < r_end b -> free_at l0 x /\ ~ free_at l x)
  /\ (forall x, free_at l x -> free_at l0 x).
Proof.
  intros [HF Hd] [Hnd Hb Ho Hlen [HF' Hd']].
  assert (Hin : forall n b, blocks !! n = Some b -> exists i, ids !! n = Some i /\ block_from k align l0 l i b).
  { intros n b Hn. destruct (Forall2_lookup_r _ _ _ _ _ Hb Hn) as (i & Hi & Hbf). eauto. }
  split_and!.
  - intros m n b1 b2 Hne H1 H2. destruct (Hin m b1 H1) as (i & Hi & (a1 & Ha1 & _ & Hr1 & He1 & _)).
    destruct (Hin n b2 H2) as (j & Hj & (a2 & Ha2 & _ & Hr2 & He2 & _)).
    assert (i <> j) by (intros <-; apply Hne; by eapply NoDup_lookup).
    pose proof (Forall_lookup_1 _ _ _ _ HF Ha1) as [_ ? _ _ _]. pose proof (Forall_lookup_1 _ _ _ _ HF Ha2) as [_ ? _ _ _].
    destruct (Hd i j a1 a2 ltac:(done) Ha1 Ha2); unfold arena_start, arena_end in *; lia.
  - intros b x Hb' Hx. apply list_elem_of_lookup in Hb' as [n Hn].
    destruct (Hin n b Hn) as (i & Hi & (a & Ha & Hu & Hr & He & _ & _ & Hl)). split.
    + exists a. split_and!; [by eapply list_elem_of_lookup_2 | done | lia | lia].
    + intros (a' & Ha' & Hu' & Hx'). apply list_elem_of_lookup in Ha' as [j Hj].
      destruct (decide (i = j)) as [<- | Hne].
      * simplify_eq. unfold with_ptr in Hx'. simpl in Hx'. lia.
      * pose proof (Forall_lookup_1 _ _ _ _ HF Ha) as [_ ? _ _ _]. pose proof (Forall_lookup_1 _ _ _ _ HF' Hj) as [_ ? _ _ _].
        destruct (Hd' i j _ _ Hne Hl Hj); unfold arena_start, arena_end, with_ptr in *; simpl in *; lia.
  - intros x (a & Ha & Hu & Hx). apply list_elem_of_lookup in Ha as [j Hj].
    destruct (decide (j ∈ ids)) as [Hin' | Hout].
    + apply list_elem_of_lookup in Hin' as [n Hn]. destruct (Forall2_lookup_l _ _ _ _ _ Hb Hn) as (b & Hbn & (a0 & Ha0 & Hu0 & Hr & He & _ & _ & Hl)).
      simplify_eq. exists a0. unfold with_ptr, arena_start in *. simpl in *. split_and!; [by eapply list_elem_of_lookup_2 | done | lia | lia].
    + rewrite Ho in Hj by done. exists a. split_and!; try lia; [by eapply list_elem_of_lookup_2 | done].
Qed.

Lemma bump_allocate_contiguous_run lay b :
  bump_ok k b -> layout_ok lay -> reach_all k lay (arenas (inner b)) ->
  exists r b', bump_allocate_contiguous lay b = Done (r, b') /\ bump_ok k b'
  /\ match r with
     | Ok p => served k lay (arenas (inner b)) (arenas (inner b')) p
     | Err _ => b' = b /\ Forall (fun a => ~ arena_fits g lay a) (arenas (inner b))
     end.
Proof.
  intros [Hal Hok Hh HM] Hl Hr. pose proof Hl as [[Hs _] _]. destruct b as [ib ma mx]. cbn [inner min_align max_regions] in *. subst ma.
  destruct (contiguous_run k Hk lay ib Hl Hok Hr Hh) as (r & ib' & E & Hh' & HE).
  unfold bump_allocate_contiguous. rewrite (proj2 (Z.eqb_neq _ _)) by lia.
  exists (match r with Some p => Ok p | None => Err MkAllocError end), (MkBump ib' g mx). split.
  - apply M_bind_inv in E as (o & i1 & E1 & E2). cbn [min_align].
    rewrite (M_bind_Done _ _ _ _ _ (on_inner_Done _ (MkBump ib g mx) _ _ E1)). destruct o as [p |].
    + unfold mret, M_ret in E2. by simplify_eq.
    + rewrite (M_bind_Done _ _ _ _ _ (on_inner_Done _ (MkBump i1 g mx) _ _ E2)). by destruct r.
  - destruct r as [p |].
    + destruct (served_ok k Hk lay _ _ p Hl Hok HE) as [Hok' Hlen]. split; [| done]. split; cbn; (done || lia).
    + destruct HE as [-> HE]. by split.
Qed.

Lemma bump_allocate_run lay b :
  bump_ok k b -> layout_ok lay -> reach_all k lay (arenas (inner b)) ->
  exists r b', bump_allocate lay b = Done (r, b') /\ bump_ok k b'
  /\ match r with
     | Ok blocks => exists ids, blocks_from k (l_align lay) (arenas (inner b)) (arenas (inner b')) ids blocks
         /\ total_len blocks = l_size lay
     | Err _ => arenas (inner b') = arenas (inner b)
         /\ (l_align lay <= g -> sum_free (arenas (inner b)) (seq 0 (length (arenas (inner b)))) < l_size lay)
     end.
Proof.
  intros [Hal Hok Hh HM] Hl Hr. pose proof Hl as [[Hs _] _]. destruct b as [ib ma mx]. cbn [inner min_align max_regions] in *. subst ma.
  destruct (lookup_lt_is_Some_2 _ _ Hh) as [a Ha]. pose proof (arenas_ok_lookup _ _ _ _ Hok Ha) as Hoka.
  pose proof (allocate_at_spec k Hk lay ib _ a Hl Hoka (Forall_lookup_1 _ _ _ _ Hr Ha) Ha) as Hfast.
  unfold bump_allocate. rewrite (proj2 (Z.eqb_neq _ _)) by lia. cbn [min_align max_regions]. case_decide as Hf.
  - rewrite (M_bind_Done _ _ _ _ _ (on_inner_Done (allocate_contiguous_fast g lay) (MkBump ib g mx) _ _ Hfast)). cbv match zeta.
    set (p := arena_top g lay a - needed g lay). set (l' := <[_ := _]> _).
    assert (Hsv : served k lay (arenas ib) l' p) by by exists (current_arena_hint ib), a.
    destruct (served_ok k Hk lay _ _ p Hl Hok Hsv) as [Hok' Hlen]. destruct (served_block lay _ _ p Hl Hok Hsv) as [i Hb].
    eexists _, _. split; [| split].
    + rewrite (lift_Done_bind _ (Range p (p + l_size lay))); [reflexivity |].
      destruct (arena_allocated k Hk lay a Hl Hoka Hf) as (_ & _ & _ & H4 & H5). fold p in H4, H5. destruct Hoka.
      unfold range_from_start_len, addr_add. by rewrite u_add_Done by (unfold is_usize; lia).
    + split; cbn; (done || lia).
    + exists [i]. split; [exact Hb |]. unfold total_len, BumpAllocator.block_len. cbn. lia.
  - rewrite (M_bind_Done _ _ _ _ _ (on_inner_Done (allocate_contiguous_fast g lay) (MkBump ib g mx) _ _ Hfast)). cbn [inner min_align max_regions].
    destruct (allocate_slow_run k Hk mx lay ib Hl Hok Hr Hh HM) as (r & ib' & E & Hh' & HE).
    rewrite (M_bind_Done _ _ _ _ _ (on_inner_Done _ (MkBump ib g mx) _ _ E)). cbn [min_align max_regions].
    destruct r as [bl |]; eexists _, _; (split; [reflexivity |]).
    + destruct HE as (ids & Hb & Ht). split; [| by exists ids]. destruct Hb. split; cbn; (done || lia).
    + destruct HE as [Ea Hs']. rewrite Ea in Hh'. split; [split; cbn; rewrite ?Ea; (done || lia) |]. by split.
Qed.

(** ** The theorems *)

(** How far the pointer of an arena moves. *)
Lemma arena_top_bounds lay a :
  layout_ok lay -> arena_ok g a ->
  let p := arena_top g lay a - needed g lay in let rounded := roundup (l_size lay) (Z.max (l_align lay) g) in
  p + rounded <= a_ptr a < p + rounded + Z.max (l_align lay) g /\ (l_align lay <= g -> p + rounded = a_ptr a).
Proof.
  intros Hl Ha p rounded. destruct (eff_align_pow2 k Hk lay Hl) as (m & Hm & Em & _). pose proof (pow2_pos m ltac:(lia)).
  assert (p + rounded = a_ptr a - a_ptr a mod eff_align g lay) as Hp by (unfold p, rounded, needed, arena_top, eff_align; lia).
  pose proof (Z.mod_pos_bound (a_ptr a) (eff_align g lay) ltac:(lia)). fold (eff_align g lay). split; [lia |].
  intros Hal. rewrite Hp. unfold eff_align. rewrite Z.max_r, (ao_ptr_aligned _ _ Ha) by done. lia.
Qed.

(** Lowering the pointer of one arena takes the addresses above it. *)
Lemma free_with_ptr l i a p x :
  arenas_ok k l -> l !! i = Some a -> mr_kind (a_region a) = Usable -> arena_start a <= p <= a_ptr a ->
  free_at (<[i := with_ptr p a]> l) x <-> free_at l x /\ ~ p <= x < a_ptr a.
Proof.
  intros Hok Hi Hu Hp. pose proof (lookup_lt_Some _ _ _ Hi) as Hlt. pose proof (arenas_ok_lookup _ _ _ _ Hok Hi) as Ha. split.
  - intros (b & Hb & Hub & Hx). apply list_elem_of_lookup in Hb as [j Hj]. destruct (decide (j = i)) as [-> | Hne].
    + rewrite list_lookup_insert_eq in Hj by done. injection Hj as <-. unfold arena_start in *. cbn in *.
      split; [| lia]. exists a. split; [by eapply list_elem_of_lookup_2 |]. unfold arena_start. split; [done | lia].
    + rewrite list_lookup_insert_ne in Hj by done. split; [exists b; split; [by eapply list_elem_of_lookup_2 | done] |].
      pose proof (proj2 Hok i j a b ltac:(done) Hi Hj) as Hd. pose proof (arenas_ok_lookup _ _ _ _ Hok Hj) as Hb.
      destruct Ha, Hb. unfold arena_start, arena_end in *. lia.
  - intros [(b & Hb & Hub & Hx) Hn]. apply list_elem_of_lookup in Hb as [j Hj]. destruct (decide (j = i)) as [-> | Hne].
    + assert (b = a) as -> by congruence. exists (with_ptr p a). split; [| unfold arena_start in *; cbn; split; [done | lia]].
      eapply list_elem_of_lookup_2. by apply list_lookup_insert_eq.
    + exists b. split; [| done]. eapply list_elem_of_lookup_2. by rewrite list_lookup_insert_ne.
Qed.

(** C26: a contiguous allocation always returns, provided rounding the end of
    what is free in an arena down to an alignment above the granule does not lead
    below the arena. A block handed out is aligned as requested and to the
    granule and was free memory of one usable region. What is removed from the
    free memory is the block, rounded up to the granule and to its alignment,
    with what lies above it in its arena, which is less than the alignment and
    nothing for alignments up to the granule; no other arena changes. A refusal
    changes nothing and means that no arena has room for the request. *)
Theorem bump_allocate_contiguous_correct lay b :
  bump_ok k b -> layout_ok lay -> reach_all k lay (arenas (inner b)) ->
  exists r b', bump_allocate_contiguous lay b = Done (r, b') /\ bump_ok k b'
  /\ match r with
     | Ok p => p mod l_align lay = 0 /\ p mod g = 0
         /\ exists i a, arenas (inner b) !! i = Some a /\ mr_kind (a_region a) = Usable
              /\ arena_start a <= p /\ p + l_size lay <= a_ptr a
              /\ arenas (inner b') = <[i := with_ptr p a]> (arenas (inner b))
              /\ (let rounded := roundup (l_size lay) (Z.max (l_align lay) g) in
                  p + rounded <= a_ptr a < p + rounded + Z.max (l_align lay) g
                  /\ (l_align lay <= g -> p + rounded = a_ptr a))
              /\ forall x, free_at (arenas (inner b')) x <-> free_at (arenas (inner b)) x /\ ~ p <= x < a_ptr a
     | Err _ => b' = b /\ Forall (fun a => ~ arena_fits g lay a) (arenas (inner b))
     end.
Proof.
  intros Hb Hl Hr. destruct (bump_allocate_contiguous_run lay b Hb Hl Hr) as (r & b' & E & Hb' & HE).
  exists r, b'. split_and!; [done | done |]. destruct r; [| done]. destruct HE as (i & a' & Hi & Hf & -> & Ea).
  destruct (arena_allocated k Hk lay a' Hl (arenas_ok_lookup _ _ _ _ (bo_arenas _ _ Hb) Hi) Hf) as (_ & H2 & H3 & H4 & H5).
  split_and!; [done | done |]. exists i, a'. pose proof Hf as [Hu _].
  refine (conj Hi (conj Hu (conj H4 (conj _ (conj Ea (conj _ _)))))); [lia | |].
  - apply arena_top_bounds; [done |]. apply (arenas_ok_lookup _ _ _ _ (bo_arenas _ _ Hb) Hi).
  - intros x. rewrite Ea. apply free_with_ptr; [apply Hb | done | done | destruct Hl as [[Hs _] _]; unfold arena_start; lia].
Qed.

(** C27: a discontiguous allocation hands out disjoint blocks of the
    requested total size that were free and are not any more, and never frees
    anything, provided rounding the end of what is free in an arena down to an
    alignment above the granule does not lead below the arena.  If it fails every
    arena is as before; for alignments up to the granule it fails only if less
    memory than requested is free. *)
Theorem bump_allocate_correct lay b :
  bump_ok k b -> layout_ok lay -> reach_all k lay (arenas (inner b)) ->
  exists r b', bump_allocate lay b = Done (r, b') /\ bump_ok k b'
  /\ match r with
     | Ok blocks =>
         total_len blocks = l_size lay
         /\ Forall (fun b => r_start b mod l_align lay = 0 /\ r_start b < r_end b) blocks
         /\ (forall m n b1 b2, m <> n -> blocks !! m = Some b1 -> blocks !! n = Some b2 ->
               r_end b1 <= r_start b2 \/ r_end b2 <= r_start b1)
         /\ (forall b0 x, b0 ∈ blocks -> r_start b0 <= x < r_end b0 ->
               free_at (arenas (inner b)) x /\ ~ free_at (arenas (inner b')) x)
         /\ (forall x, free_at (arenas (inner b')) x -> free_at (arenas (inner b)) x)
     | Err _ => arenas (inner b') = arenas (inner b)
         /\ (l_align lay <= g -> sum_free (arenas (inner b)) (seq 0 (length (arenas (inner b)))) < l_size lay)
     end.
Proof.
  intros Hb Hl Hr. destruct (bump_allocate_run lay b Hb Hl Hr) as (r & b' & E & Hb' & HE).
  exists r, b'. split_and!; [done | done |]. destruct r as [blocks |]; [| done]. destruct HE as (ids & Hbf & Ht).
  destruct (blocks_from_disjoint _ _ _ _ _ (bo_arenas _ _ Hb) Hbf) as (H1 & H2 & H3). split_and!; try done.
  apply Forall_lookup. intros n blk Hn. destruct (Forall2_lookup_r _ _ _ _ _ (bf_blocks _ _ _ _ _ _ Hbf) Hn) as (i & _ & (a & _ & _ & ? & _ & ? & _)).
  split; [done | lia].
Qed.

(** Construction.  For regions that are not empty after alignment, [new]
    panics exactly if two regions share an address; otherwise the allocator
    is well-formed and nothing is allocated. *)
Theorem bump_new_correct MAX regions :
  regions <> [] -> (length regions <= MAX)%nat -> Forall (region_ok k) regions ->
  ((exists a, 1 < regions_at a regions)%nat -> bump_new MAX g regions = Panicked)
  /\ ((forall a, regions_at a regions <= 1)%nat ->
      exists b, bump_new MAX g regions = Done b /\ bump_ok k b
        /\ exists sorted, sorted ≡ₚ regions /\ arenas (inner b) = fresh_arena k <$> sorted).
Proof.
  intros Hne HM HF. set (sorted := if (1 <? length regions)%nat then sort_regions regions else regions).
  assert (Hp : sorted ≡ₚ regions) by (unfold sorted; destruct (_ <? _)%nat; [apply sort_regions_perm | done]).
  assert (Hs : StronglySorted start_le sorted).
  { unfold sorted. destruct (Nat.ltb_spec 1 (length regions)); [apply sort_regions_sorted |].
    destruct regions as [| r [| ? ?]]; simpl in *; [done | repeat constructor | lia]. }
  assert (HF' : Forall (region_ok k) sorted) by by rewrite Hp.
  assert (Hne' : Forall nonempty sorted) by (eapply Forall_impl; [exact HF' |]; intros r (? & _); unfold nonempty; lia).
  assert (Echeck : (if (1 <? length regions)%nat then assert_disjoint sorted else mret tt) = assert_disjoint sorted).
  { unfold sorted. destruct (Nat.ltb_spec 1 (length regions)); [done |]. destruct regions as [| r [| ? ?]]; simpl in *; (done || lia). }
  unfold bump_new. fold sorted. rewrite Echeck. split.
  - intros (a & Ha). destruct (assert_disjoint_outcome sorted) as [E | ->]; [exfalso | done].
    pose proof (before_regions_at sorted a (assert_disjoint_inv _ Hs Hne' E) Hne'). rewrite (regions_at_perm _ _ _ Hp) in *. lia.
  - intros H1. assert (E : assert_disjoint sorted = Done tt).
    { apply assert_disjoint_sorted; try done. intros a. by rewrite (regions_at_perm _ _ _ Hp). }
    rewrite E, (outcome_bind_Done _ _ tt) by done.
    destruct (make_arenas_spec k Hk sorted HF' 0%nat 0 0%nat ltac:(lia)) as (idx & -> & Hi). cbn [mbind outcome_bind].
    assert (Hlen : length sorted = length regions) by by rewrite Hp.
    assert (Hpos : (0 < length regions)%nat) by (destruct regions; [done | simpl; lia]).
    rewrite length_fmap, (proj2 (Nat.leb_le (length sorted) MAX)) by lia.
    pose proof (pow2_pos k ltac:(lia)). rewrite (proj2 (Z.eqb_neq g 0)) by lia. eexists. split; [reflexivity |]. split.
    + split; cbn; rewrite ?length_fmap; try lia. apply fresh_arenas_ok; try done. by apply assert_disjoint_inv.
    + by exists sorted.
Qed.

End loader.

(** ** The contract of the page-table engine *)

Section contract.
Context (k : Z) (Hk : 3 <= k < 63) (memory : range).
Notation g := (2 ^ k).

Definition bump_allocated (b : BumpAllocator) (A : gset Z) : Prop :=
  bump_ok k b
  /\ (forall a, a ∈ arenas (inner b) -> r_start memory <= arena_start a /\ arena_end a <= r_end memory)
  /\ (forall p, p ∈ A -> p mod g = 0 /\ exists a, a ∈ arenas (inner b) /\ a_ptr a <= p /\ p + g <= arena_end a).

Lemma granule_layout_ok : layout_ok (MkLayout g g).
Proof.
  pose proof (pow2_pos k ltac:(lia)). assert (g <= 2 ^ 62) by (apply Z.pow_le_mono_r; lia).
  split; cbn; [lia |]. exists k. split; [lia | done].
Qed.

Lemma granule_needed : needed g (MkLayout g g) = g.
Proof.
  pose proof (pow2_pos k ltac:(lia)). unfold needed, eff_align. simpl. rewrite Z.max_id.
  destruct (roundup_spec g g) as [[H1 _] _]; [done |]. pose proof (roundup_least g g g ltac:(done) (Z_mod_same_full g) ltac:(lia)). lia.
Qed.

Lemma granule_reach l : arenas_ok k l -> reach_all k (MkLayout g g) l.
Proof.
  intros [HF _]. eapply Forall_impl; [exact HF |]. intros a Ha _.
  rewrite (arena_top_granule k ltac:(lia) _ a Ha) by (cbn; lia). destruct Ha. lia.
Qed.

Lemma bump_allocated_serve b b' A p :
  bump_allocated b A -> bump_ok k b' -> served k (MkLayout g g) (arenas (inner b)) (arenas (inner b')) p ->
  (p ∉ A) /\ bump_allocated b' ({[p]} ∪ A).
Proof.
  intros (Hb & Hmem & HA) Hb' (i & a & Hi & Hf & Ep & Ea). pose proof granule_layout_ok as Hl.
  pose proof (arenas_ok_lookup _ _ _ _ (bo_arenas _ _ Hb) Hi) as Hoka.
  destruct (arena_allocated k ltac:(lia) _ a Hl Hoka Hf) as (_ & _ & H3 & H4 & H5). rewrite <- Ep in H3, H4, H5.
  rewrite granule_needed in H5. simpl in H5. pose proof (pow2_pos k ltac:(lia)). pose proof Hoka as [_ Hp _ _ _].
  assert (Hlt : (i < length (arenas (inner b)))%nat) by (by eapply lookup_lt_Some). split.
  - intros Hin. destruct (HA p Hin) as (_ & a' & Ha' & H1 & H2). apply list_elem_of_lookup in Ha' as [j Hj].
    destruct (decide (i = j)) as [<- | Hne]; [simplify_eq; lia |].
    pose proof (arenas_ok_lookup _ _ _ _ (bo_arenas _ _ Hb) Hj) as [_ Hp' _ _ _].
    destruct (bo_arenas _ _ Hb) as [_ Hd]. destruct (Hd i j a a' Hne Hi Hj); unfold arena_start, arena_end in *; lia.
  - assert (Hold : forall c, c ∈ arenas (inner b) -> exists c', c' ∈ arenas (inner b') /\ a_ptr c' <= a_ptr c /\ arena_end c' = arena_end c).
    { intros c Hc. apply list_elem_of_lookup in Hc as [j Hj]. rewrite Ea. destruct (decide (i = j)) as [<- | Hne].
      - rewrite Hi in Hj. injection Hj as <-. exists (with_ptr p a). unfold with_ptr, arena_end. simpl.
        split; [| split; [lia | done]]. eapply list_elem_of_lookup_2. by apply list_lookup_insert_eq.
      - exists c. split; [| split; [lia | done]]. eapply list_elem_of_lookup_2. by rewrite list_lookup_insert_ne. }
    split_and!; [done | |].
    + intros c Hc. rewrite Ea in Hc. apply list_elem_of_lookup in Hc as [j Hj]. destruct (decide (i = j)) as [<- | Hne].
      * rewrite list_lookup_insert_eq in Hj by done. simplify_eq. apply (Hmem a). by eapply list_elem_of_lookup_2.
      * rewrite list_lookup_insert_ne in Hj by done. apply Hmem. by eapply list_elem_of_lookup_2.
    + intros q [->%elem_of_singleton | Hq]%elem_of_union.
      * split; [done |]. exists (with_ptr p a). unfold with_ptr, arena_end in *. simpl. split_and!; try lia.
        rewrite Ea. eapply list_elem_of_lookup_2. by apply list_lookup_insert_eq.
      * destruct (HA q Hq) as (Hq1 & c & Hc & Hc1 & Hc2). split; [done |]. destruct (Hold c Hc) as (c' & Hc' & ? & E).
        exists c'. rewrite E. split_and!; (done || lia).
Qed.

#[export] Instance bump_allocator_laws : FrameAllocatorLaws g BumpAllocator.
Proof.
  refine {| fa_allocated := bump_allocated; fa_memory := memory |}.
  - intros b A p (Hb & Hmem & HA) Hp. destruct (HA p Hp) as (Hg & a & Ha & H1 & H2).
    destruct (Hmem a Ha) as [H3 H4]. pose proof (bo_arenas _ _ Hb) as [HF _].
    apply list_elem_of_lookup in Ha as [j Hj]. pose proof (Forall_lookup_1 _ _ _ _ HF Hj) as [_ Hpp _ _ _].
    unfold arena_start, arena_end in *. split_and!; (done || lia).
  - intros b A Hal. pose proof Hal as (Hb & Hmem & HA).
    destruct (bump_allocate_contiguous_run k ltac:(lia) (MkLayout g g) b Hb granule_layout_ok
      (granule_reach _ (bo_arenas _ _ Hb))) as (r & b' & E & Hb' & HE).
    exists r, b'. split; [exact E |]. destruct r as [p | e]; [by eapply bump_allocated_serve | by destruct HE as [-> _]].
Defined.

End contract.

(** ** The memory map handed to the kernel *)

Lemma collect_regions_Done l : (length l <= MAX_MEMORY_REGIONS)%nat -> collect_regions l = Done l.
Proof.
  intros Hl. unfold collect_regions, av_from_iter.
  pose proof (av_extend_holds l (av_new MAX_MEMORY_REGIONS) [] (av_new_holds _)) as He.
  rewrite av_capacity_new in He. case_decide; [| simpl in *; lia]. destruct He as (v & E & Hh & _).
  rewrite E, (outcome_bind_Done _ _ v) by done. by apply av_as_slice_holds.
Qed.

(** Some region of [l] with kind [kd] contains [x]. *)
Definition covers (l : list MemoryRegion) (kd : MemoryRegionKind) (x : Z) : Prop :=
  exists r, r ∈ l /\ mr_kind r = kd /\ in_region x r.

Lemma covers_cons r l kd x : covers (r :: l) kd x <-> (mr_kind r = kd /\ in_region x r) \/ covers l kd x.
Proof.
  unfold covers. setoid_rewrite elem_of_cons. split.
  - intros (s & [-> | Hs] & ? & ?); [by left | right; eauto].
  - intros [[? ?] | (s & ? & ? & ?)]; eauto.
Qed.

Lemma covers_perm l l' kd x : l ≡ₚ l' -> covers l kd x <-> covers l' kd x.
Proof. intros Hp. unfold covers. by setoid_rewrite Hp. Qed.

(** Coalescing sorted, disjoint regions keeps them sorted and disjoint and
    covers the same addresses with the same kinds. *)
Lemma coalesce_spec l : forall b,
  StronglySorted before (b :: l) -> Forall nonempty (b :: l) ->
  StronglySorted before (coalesce b l) /\ (forall kd x, covers (coalesce b l) kd x <-> covers (b :: l) kd x)
  /\ (forall c, Forall (before c) (b :: l) -> Forall (before c) (coalesce b l)).
Proof.
  unfold before, nonempty. induction l as [| a l IH]; intros b Hs Hne; [done |].
  apply StronglySorted_inv in Hs as [Hs Hb]. apply Forall_cons in Hne as [Hnb Hne].
  pose proof Hs as Hs2. apply StronglySorted_inv in Hs as [Hsl Ha]. apply Forall_cons in Hb as [Hba Hbl].
  pose proof Hne as Hne2. apply Forall_cons in Hne as [Hna Hnl]. cbn [coalesce].
  destruct (bool_decide (mr_kind a = mr_kind b) && _) eqn:Em.
  - apply andb_true_iff in Em as [Hkd%bool_decide_eq_true Hle%Z.leb_le].
    set (m := MkRegion _ _). assert (Hm1 : r_start (mr_range m) = r_start (mr_range b)) by done.
    assert (Hm2 : r_end (mr_range m) = r_end (mr_range a)) by (simpl; lia).
    destruct (IH m) as (H1 & H2 & H3).
    { constructor; [done |]. eapply Forall_impl; [exact Ha |]. simpl. intros. lia. }
    { constructor; [lia | done]. }
    split_and!; [done | |].
    + intros kd x. rewrite H2, !covers_cons. change (mr_kind m) with (mr_kind b). unfold in_region. rewrite Hm1, Hm2, Hkd.
      split; [intros [[-> ?] | ?] | intros [[-> ?] | [[-> ?] | ?]]]; try (by right; right); try (by right).
      * destruct (decide (x < r_end (mr_range b))); [left | right; left]; (split; [done | lia]).
      * left. split; [done | lia].
      * left. split; [done | lia].
    + intros c Hc. apply H3. apply Forall_cons in Hc as [? Hc]. apply Forall_cons in Hc as [? Hc]. constructor; [simpl; lia | done].
  - destruct (IH a Hs2 Hne2) as (H1 & H2 & H3). split_and!.
    + constructor; [done |]. apply H3. by constructor.
    + intros kd x. by rewrite (covers_cons b), H2, (covers_cons b).
    + intros c Hc. apply Forall_cons in Hc as [? Hc]. constructor; [done |]. by apply H3.
Qed.

Lemma parts_elsewhere (l : list Arena) x (f : Arena -> range) kd :
  (forall b, b ∈ l -> ~ (r_start (f b) <= x < r_end (f b))) ->
  regions_at x ((fun b => MkRegion (f b) kd) <$> l) = 0%nat.
Proof.
  unfold regions_at. intros Hall. apply length_zero_iff_nil. induction l as [| b l IH]; [done |].
  rewrite fmap_cons, filter_cons_False.
  - apply IH. intros c Hc. apply Hall. by right.
  - unfold in_region. simpl. apply Hall. by left.
Qed.

(** The parts of disjoint arenas are disjoint. *)
Lemma parts_at k (l : list Arena) x :
  arenas_ok k l ->
  (regions_at x ((fun a => MkRegion (arena_used a) Unusable) <$> l)
   + regions_at x ((fun a => MkRegion (arena_free a) Usable) <$> l) <= 1)%nat.
Proof.
  intros [HF Hd]. induction l as [| a l IH]; [unfold regions_at; simpl; lia |].
  apply Forall_cons in HF as [Ha HF]. rewrite !fmap_cons, !regions_at_cons.
  assert (Hd' : arenas_disjoint l) by (intros i j b c Hne Hi Hj; by apply (Hd (S i) (S j) b c (fun E => Hne (eq_add_S _ _ E)))).
  specialize (IH HF Hd'). pose proof Ha as [_ Hp _ _ _].
  destruct (decide (arena_start a <= x < arena_end a)) as [Hin | Hin]; unfold arena_start, arena_end in *.
  - assert (Hout : forall b, b ∈ l -> (arena_start b <= a_ptr b <= arena_end b) /\ ~ (arena_start b <= x < arena_end b)).
    { intros b Hb. apply list_elem_of_lookup in Hb as [j Hj]. pose proof (Forall_lookup_1 _ _ _ _ HF Hj) as [_ Hpb _ _ _].
      destruct (Hd 0%nat (S j) a b ltac:(lia) eq_refl Hj); unfold arena_start, arena_end in *; lia. }
    rewrite !parts_elsewhere; [unfold in_region; simpl; repeat case_decide; lia | |];
      intros b Hb; destruct (Hout b Hb); unfold arena_start, arena_end in *; simpl; lia.
  - rewrite !decide_False by (unfold in_region; simpl; lia). lia.
Qed.

Lemma filter_regions_at x l :
  regions_at x (filter (fun r => range_is_empty (mr_range r) = false) l) = regions_at x l.
Proof.
  unfold regions_at. induction l as [| r l IH]; [done |]. rewrite (filter_cons _ r l), (filter_cons (in_region x) r l).
  case_decide as Hr; unfold range_is_empty in Hr.
  - rewrite filter_cons. case_decide; simpl; by rewrite IH.
  - rewrite Z.leb_gt in Hr. rewrite decide_False by (unfold in_region; lia). done.
Qed.

Lemma filter_covers l kd x :
  covers (filter (fun r => range_is_empty (mr_range r) = false) l) kd x <-> covers l kd x.
Proof.
  unfold covers. split; intros (r & Hr & Hkd & Hin).
  - apply list_elem_of_filter in Hr as [_ Hr]. eauto.
  - exists r. split_and!; try done. apply list_elem_of_filter. split; [| done].
    unfold range_is_empty, in_region in *. apply Z.leb_gt. lia.
Qed.

(** C28: the memory map handed to the kernel is sorted, its regions do not
    overlap, and it describes every address of the loader's arenas and no other:
    what was allocated is unusable and everything else is usable, in every arena,
    whatever the kind of the region the arena was made from.  The arenas over
    regions that were reserved as unusable are no exception, although the
    allocator takes nothing from them: their memory is reported as usable, which
    is not what the documentation of [apply_reservation] and of
    [MemoryRegionKind] promises. *)
Theorem finalize_correct k b :
  bump_ok k b -> (2 * length (arenas (inner b)) <= MAX_MEMORY_REGIONS)%nat ->
  exists out, finalize b = Done out /\ StronglySorted before out
    /\ forall kd x, covers out kd x <->
         exists a, a ∈ arenas (inner b)
           /\ (kd = Unusable /\ a_ptr a <= x < arena_end a \/ kd = Usable /\ arena_start a <= x < a_ptr a).
Proof.
  intros Hb Hlen. set (l := arenas (inner b)) in *.
  set (used := (fun a => MkRegion (arena_used a) Unusable) <$> l). set (free := (fun a => MkRegion (arena_free a) Usable) <$> l).
  set (kept := filter (fun r => range_is_empty (mr_range r) = false) (used ++ free)).
  assert (Hl1 : length used = length l) by apply length_fmap. assert (Hl2 : length free = length l) by apply length_fmap.
  assert (Hk : (length kept <= MAX_MEMORY_REGIONS)%nat).
  { unfold kept. pose proof (length_filter (fun r => range_is_empty (mr_range r) = false) (used ++ free)) as Hf.
    rewrite length_app in Hf. lia. }
  assert (Hfin : finalize b = match sort_regions kept with [] => mret [] | r :: l => mret (coalesce r l) end).
  { unfold finalize, used_regions, free_regions. fold l used free.
    rewrite !collect_regions_Done by lia. simpl. fold kept. by rewrite collect_regions_Done. }
  assert (Hcov : forall kd x, covers (sort_regions kept) kd x <-> exists a, a ∈ l
    /\ (kd = Unusable /\ a_ptr a <= x < arena_end a \/ kd = Usable /\ arena_start a <= x < a_ptr a)).
  { intros kd x. rewrite (covers_perm _ _ _ _ (sort_regions_perm kept)). unfold kept. rewrite filter_covers. unfold covers, used, free.
    setoid_rewrite elem_of_app. setoid_rewrite list_elem_of_fmap. unfold in_region. split.
    - intros (r & [(a & -> & Ha) | (a & -> & Ha)] & <- & Hin); exists a; (split; [done |]); [left | right]; (split; [reflexivity | exact Hin]).
    - intros (a & Ha & [[-> Hin] | [-> Hin]]).
      + exists (MkRegion (arena_used a) Unusable). split; [left; by exists a |]. split; [reflexivity | exact Hin].
      + exists (MkRegion (arena_free a) Usable). split; [right; by exists a |]. split; [reflexivity | exact Hin]. }
  assert (Hne : Forall nonempty (sort_regions kept)).
  { rewrite sort_regions_perm. apply Forall_forall. intros r Hr. apply list_elem_of_filter in Hr as [Hr _].
    unfold range_is_empty in Hr. apply Z.leb_gt in Hr. done. }
  assert (Hs : StronglySorted before (sort_regions kept)).
  { apply assert_disjoint_inv; [apply sort_regions_sorted | done |]. apply assert_disjoint_sorted; [apply sort_regions_sorted | done |].
    intros x. rewrite (regions_at_perm _ _ _ (sort_regions_perm kept)). unfold kept. rewrite filter_regions_at, regions_at_app.
    apply (parts_at k), Hb. }
  rewrite Hfin. destruct (sort_regions kept) as [| r rest].
  - exists []. split_and!; [done | constructor | exact Hcov].
  - destruct (coalesce_spec rest r Hs Hne) as (H1 & H2 & _). eexists. split_and!; [reflexivity | done |].
    intros kd x. by rewrite H2, Hcov.
Qed.

(** ** Concrete memory *)

Definition demo_arenas : list Arena :=
  [MkArena (MkRegion (Range 0x80000000 0x80080000) Unusable) 0x80080000;
   MkArena (MkRegion (Range 0x80080000 0x80084000) Usable) 0x80082000;
   MkArena (MkRegion (Range 0x100000000 0x100002000) Usable) 0x100002000].

Definition demo_bump : BumpAllocator := MkBump (MkInner demo_arenas 1) 4096 16.

Lemma demo_bump_ok : bump_ok 12 demo_bump.
Proof.
  split; [done | | simpl; lia | simpl; lia]. split.
  - repeat constructor; done.
  - intros i j a b Hne Hi Hj. unfold arena_start, arena_end.
    do 3 (destruct i as [| i]; [do 3 (destruct j as [| j]; [simplify_eq/=; lia |]); done |]). done.
Qed.

Lemma small_align_reach lay : l_align lay <= 4096 -> reach_all 12 lay (arenas (inner demo_bump)).
Proof.
  intros Hl. pose proof (bo_arenas _ _ demo_bump_ok) as [HF _]. eapply Forall_impl; [exact HF |]. intros a Ha _.
  rewrite (arena_top_granule 12 ltac:(lia) _ a Ha) by exact Hl. destruct Ha. lia.
Qed.

Lemma bump_allocate_contiguous_correct_witness :
  exists r b', bump_allocate_contiguous (MkLayout 0x2000 8) demo_bump = Done (r, b') /\ bump_ok 12 b'.
Proof.
  destruct (bump_allocate_contiguous_correct 12 ltac:(lia) (MkLayout 0x2000 8) demo_bump) as (r & b' & E & Hb & _).
  - exact demo_bump_ok.
  - split; [cbn; lia |]. exists 3. split; [lia | done].
  - apply small_align_reach. cbn. lia.
  - exists r, b'. split; [exact E | exact Hb].
Defined.

Lemma bump_allocate_correct_witness :
  exists r b', bump_allocate (MkLayout 0x3000 4096) demo_bump = Done (r, b') /\ bump_ok 12 b'.
Proof.
  destruct (bump_allocate_correct 12 ltac:(lia) (MkLayout 0x3000 4096) demo_bump) as (r & b' & E & Hb & _).
  - exact demo_bump_ok.
  - split; [cbn; lia |]. exists 12. split; [lia | done].
  - apply small_align_reach. cbn. lia.
  - exists r, b'. split; [exact E | exact Hb].
Defined.

(** Two regions that share a page. *)
Definition demo_overlap : list MemoryRegion :=
  [MkRegion (Range 0x80000000 0x80010000) Usable; MkRegion (Range 0x8000f000 0x80020000) Usable].

Lemma bump_new_correct_witness : bump_new 16 4096 demo_overlap = Panicked.
Proof.
  apply (bump_new_correct 12 ltac:(lia) 16 demo_overlap).
  - discriminate.
  - simpl. lia.
  - repeat constructor; cbn; done.
  - exists 0x8000f800. apply Nat.ltb_lt. by vm_compute.
Defined.

Lemma finalize_correct_witness :
  exists out, finalize demo_bump = Done out /\ StronglySorted before out.
Proof.
  destruct (finalize_correct 12 demo_bump) as (out & E & Hs & _).
  - exact demo_bump_ok.
  - apply Nat.leb_le. reflexivity.
  - exists out. split; [exact E | exact Hs].
Defined.

(** ** What modelling showed *)

(** From the firmware's reservation to the map handed to the kernel: memory
    reserved as unusable comes out as usable. *)
Example reserved_memory_reported_usable :
  exists v l b out,
    apply_reservation (Range 0x80000000 0x80080000) Unusable demo_regions = Done (Ok tt, v)
    /\ av_as_slice v = Done l
    /\ bump_new 128 4096 l = Done b
    /\ finalize b = Done out
    /\ out = [MkRegion (Range 0x80000000 0x88000000) Usable].
Proof.
  eexists _, _, _, _. split; [vm_compute; reflexivity |]. split; [vm_compute; reflexivity |].
  split; [vm_compute; reflexivity |]. split; [vm_compute; reflexivity |]. reflexivity.
Qed.

(** A request aligned to more than the granule panics, instead of being
    refused, in an arena that does not reach down to an aligned address. *)
Example large_alignment_panics :
  arena_allocate 4096 (MkLayout 4096 0x200000) (MkArena (MkRegion (Range 0x80001000 0x80004000) Usable) 0x80004000)
  = Panicked.
Proof. reflexivity. Qed.

(** A region smaller than a granule is accepted, and makes the slow path of a
    later allocation panic. *)
Example small_region_panics :
  exists b b', bump_new 16 4096 [MkRegion (Range 0x1800 0x1900) Usable; MkRegion (Range 0x10000 0x11000) Usable] = Done b
    /\ bump_allocate_contiguous (MkLayout 4096 4096) b = Done (Ok 0x10000, b')
    /\ bump_allocate_contiguous (MkLayout 4096 4096) b' = Panicked.
Proof. eexists _, _. split; [reflexivity |]. split; reflexivity. Qed.
