(* ===== verification/KernelMapping.v ===== *)
(** * Laying out and mapping the kernel
      (sys/loader-common/src/mapping.rs, [layout_kernel_aspace],
       [build_uart_info] and the mapping steps of [boot] in
       sys/loader-common/src/lib.rs, the segment types of
       sys/loader-common/src/kernel.rs)

    The kernel image is represented by what these functions read of it; ELF
    parsing and relocation are the business of the [object] crate and of
    [Kernel], which are not modelled.  [size_of::<BootInfo>()] and the linker
    symbols of the hand-off trampoline are arguments. *)

From stdpp Require Import base numbers list gmap sets.
From Stdlib Require Import ZArith Lia.
From S2P Require Import Prelude Address Bitfield Riscv ArrayVec Arch RiscvPaging PhysMap Machine Table Flush.
From S2P Require Import AddressSpace PageTable Walk TableOps Visitors AddressSpaceSpec.
From S2P Require Import TestAllocator Demo.

(** ** kernel.rs *)

Inductive Permissions : Type := ReadOnly | ReadWrite | ReadExecute.

Record LoadSegment : Type := MkSegment {
  image_offset : Z;
  mem_size : Z;
  file_offset : Z;
  file_size : Z;
  perms : Permissions;
}.

(** Byte range in the in-memory image. *)
Definition unaligned_mem_range (seg : LoadSegment) : outcome range :=
  e ← u_add (image_offset seg) (mem_size seg);
  mret (Range (image_offset seg) e).

(** What the loader reads of the staged and relocated kernel. *)
Record RelocatedKernel : Type := MkKernel {
  k_load : list LoadSegment;
  k_phys_base : PhysicalAddress;
  k_relro : range;
  k_size : Z;
  k_tls_mem_size : Z;
}.

(** ** lib.rs: the layout of the kernel address space *)

Record KernelAspaceLayout : Type := MkLayoutOf {
  kl_physmap : PhysMap;
  kl_kernel_image : range;
  kl_boot_hart_tls : range;
  kl_boot_hart_stack : range;
  kl_boot_info : range;
  kl_uart : option range;
}.

Definition LAYOUT_BASE : VirtualAddress := 0xffffffc000000000.

(** [Range::from_start_len(start, len).align_out(granule)]. *)
Definition page_range (start len granule : Z) : outcome range :=
  r ← range_from_start_len start len;
  range_align_out r granule.

Definition layout_kernel_aspace (kernel : RelocatedKernel) (boot_hart_stack_size stack_guard_region : Z)
    (physical_memory_regions : list range) (uart_phys : option range) (granule boot_info_size : Z) :
    outcome KernelAspaceLayout :=
  physmap ← physmap_new Size1GiB LAYOUT_BASE physical_memory_regions;
  kernel_image ← page_range (r_end (range_virt physmap)) (k_size kernel) granule;
  boot_hart_tls ← page_range (r_end kernel_image) (k_tls_mem_size kernel) granule;
  boot_hart_stack ← page_range (r_end boot_hart_tls) boot_hart_stack_size granule;
  guard_end ← addr_add (r_end boot_hart_stack) stack_guard_region;
  boot_info ← page_range guard_end boot_info_size granule;
  uart ← match uart_phys with
         | Some regs =>
             r ← range_align_out regs granule;
             len ← range_len r;
             v ← page_range (r_end boot_info) len granule;
             mret (Some v)
         | None => mret None
         end;
  mret (MkLayoutOf physmap kernel_image boot_hart_tls boot_hart_stack boot_info uart).

Record DiscoveredUart : Type := MkDiscovered {
  du_regs : range;
  du_clock_frequency : Z;
  du_baud_rate : Z;
  du_reg_shift : Z;
  du_reg_io_width : Z;
  du_irq_num : Z;
}.

Record UartInfo : Type := MkUartInfo {
  ui_regs : range;
  ui_clock_frequency : Z;
  ui_baud_rate : Z;
  ui_reg_shift : Z;
  ui_reg_io_width : Z;
  ui_irq_num : Z;
}.

Definition build_uart_info (discovered : option DiscoveredUart) (virt : option range) (granule : Z) :
    outcome (option UartInfo) :=
  match discovered, virt with
  | Some d, Some v =>
      down ← align_down (r_start (du_regs d)) granule;
      page_offset ← u_sub (r_start (du_regs d)) down;
      start ← addr_add (r_start v) page_offset;
      len ← range_len (du_regs d);
      regs ← range_from_start_len start len;
      mret (Some (MkUartInfo regs (du_clock_frequency d) (du_baud_rate d) (du_reg_shift d)
                    (du_reg_io_width d) (du_irq_num d)))
  | _, _ => mret None
  end.

(** ** mapping.rs *)

Definition segment_attributes (p : Permissions) : MemoryAttributes :=
  let attrs := with_READ true attributes_new in
  match p with
  | ReadOnly => attrs
  | ReadWrite => with_WRITE_OR_EXECUTE Write attrs
  | ReadExecute => with_WRITE_OR_EXECUTE Execute attrs
  end.

Section mapping.
Context {arch : Arch} {maps4K : MapsAt Size4KiB} {maps1G : MapsAt Size1GiB} {F : Type} {fa : FrameAllocator F}.

(** The mapping functions share the flush record: it is part of the state. *)
Notation KM := (M (world F * Flush)).

Definition with_flush {A} (op : Flush -> M (world F) (A * Flush)) : KM A := fun '(w, f) =>
  match op f w with
  | Done ((a, f'), w') => Done (a, (w', f'))
  | Panicked => Panicked
  | Undefined => Undefined
  end.

(** [aspace.map_contiguous::<Size4KiB>(..)?] *)
Definition map_4K (a : HardwareAddressSpace) (virt : range) (phys : Z) (attrs : MemoryAttributes) (physmap : PhysMap) :
    KM (result AllocError unit) := with_flush (map_contiguous Size4KiB a virt phys attrs physmap).

(** Where a segment goes: the virtual range and the physical address. *)
Definition segment_target (layout : KernelAspaceLayout) (kernel : RelocatedKernel) (seg : LoadSegment) :
    outcome (range * PhysicalAddress) :=
  span ← unaligned_mem_range seg;
  start ← addr_add (r_start (kl_kernel_image layout)) (r_start span);
  len ← u_sub (r_end span) (r_start span);
  virt ← page_range start len GRANULE_SIZE;
  p ← addr_add (k_phys_base kernel) (r_start span);
  phys ← align_down p GRANULE_SIZE;
  mret (virt, phys).

Fixpoint map_segments (a : HardwareAddressSpace) (layout : KernelAspaceLayout) (kernel : RelocatedKernel)
    (physmap : PhysMap) (segs : list LoadSegment) : KM (result AllocError unit) :=
  match segs with
  | [] => mret (Ok tt)
  | seg :: segs' =>
      target ← lift (segment_target layout kernel seg);
      _ <-? map_4K a target.1 target.2 (segment_attributes (perms seg)) physmap;
      map_segments a layout kernel physmap segs'
  end.

Definition relro_range (layout : KernelAspaceLayout) (kernel : RelocatedKernel) : outcome range :=
  s ← addr_add (r_start (kl_kernel_image layout)) (r_start (k_relro kernel));
  start ← align_down s GRANULE_SIZE;
  e ← addr_add (r_start (kl_kernel_image layout)) (r_end (k_relro kernel));
  end_ ← align_down e GRANULE_SIZE;
  mret (Range start end_).

Definition protect_relro (a : HardwareAddressSpace) (layout : KernelAspaceLayout) (kernel : RelocatedKernel)
    (physmap : PhysMap) : KM unit :=
  relro ← lift (relro_range layout kernel);
  with_flush (fun f => flush' ← set_attributes Size4KiB a relro (with_READ true attributes_new) physmap f;
                       mret (tt, flush')).

Definition map_kernel_image (a : HardwareAddressSpace) (layout : KernelAspaceLayout) (kernel : RelocatedKernel)
    (physmap : PhysMap) : KM (result AllocError unit) :=
  s ← lift (is_aligned_to (r_start (kl_kernel_image layout)) GRANULE_SIZE);
  e ← lift (if s : bool then is_aligned_to (r_end (kl_kernel_image layout)) GRANULE_SIZE else mret false);
  _ ← lift (assert_ e);
  _ <-? map_segments a layout kernel physmap (k_load kernel);
  _ ← protect_relro a layout kernel physmap;
  mret (Ok tt).

(** The TLS block, the stack and the boot info live at the physical addresses
    of the memory the loader allocated for them. *)
Definition map_tls_block (a : HardwareAddressSpace) (layout : KernelAspaceLayout) (boot_hart_tls : PhysicalAddress)
    (physmap : PhysMap) : KM (result AllocError unit) :=
  map_4K a (kl_boot_hart_tls layout) boot_hart_tls
    (with_WRITE_OR_EXECUTE Write (with_READ true attributes_new)) physmap.

Definition map_stack (a : HardwareAddressSpace) (layout : KernelAspaceLayout) (boot_hart_stack : PhysicalAddress)
    (physmap : PhysMap) : KM (result AllocError unit) :=
  map_4K a (kl_boot_hart_stack layout) boot_hart_stack
    (with_WRITE_OR_EXECUTE Write (with_READ true attributes_new)) physmap.

Definition map_boot_info (a : HardwareAddressSpace) (layout : KernelAspaceLayout) (boot_info : PhysicalAddress)
    (physmap : PhysMap) : KM (result AllocError unit) :=
  map_4K a (kl_boot_info layout) boot_info (with_READ true attributes_new) physmap.

Definition map_physical_memory (a : HardwareAddressSpace) (layout : KernelAspaceLayout) (physmap : PhysMap) :
    KM (result AllocError unit) :=
  with_flush (map_contiguous Size1GiB a (range_virt (kl_physmap layout)) (r_start (range_phys (kl_physmap layout)))
    (with_WRITE_OR_EXECUTE Write (with_READ true attributes_new)) physmap).

Definition map_uart (a : HardwareAddressSpace) (virt phys : range) (physmap : PhysMap) : KM (result AllocError unit) :=
  p ← lift (range_align_out phys GRANULE_SIZE);
  v ← lift (range_align_out virt GRANULE_SIZE);
  vl ← lift (range_len v);
  pl ← lift (range_len p);
  _ ← lift (assert_ (vl =? pl));
  map_4K a v (r_start p)
    (with_KIND Device (with_WRITE_OR_EXECUTE Write (with_READ true attributes_new))) physmap.

Definition map_handoff_trampoline (a : HardwareAddressSpace) (start end_ : PhysicalAddress) (physmap : PhysMap) :
    KM (result AllocError range) :=
  s ← lift (is_aligned_to start GRANULE_SIZE);
  _ ← lift (assert_ s);
  e ← lift (is_aligned_to end_ GRANULE_SIZE);
  _ ← lift (assert_ e);
  _ <-? with_flush (map_identity Size4KiB a (Range start end_)
          (with_WRITE_OR_EXECUTE Execute (with_READ true attributes_new)) physmap);
  mret (Ok (Range start end_)).

(** Step 7 of [boot]: everything the kernel needs is mapped, in this order. *)
Definition map_kernel_and_resources (a : HardwareAddressSpace) (layout : KernelAspaceLayout) (kernel : RelocatedKernel)
    (boot_hart_tls boot_hart_stack boot_info : PhysicalAddress) (uart : option range)
    (trampoline_start trampoline_end : PhysicalAddress) (physmap : PhysMap) : KM (result AllocError range) :=
  _ <-? map_kernel_image a layout kernel physmap;
  _ <-? map_tls_block a layout boot_hart_tls physmap;
  _ <-? map_stack a layout boot_hart_stack physmap;
  _ <-? map_boot_info a layout boot_info physmap;
  _ <-? match kl_uart layout, uart with
        | Some virt, Some regs => map_uart a virt regs physmap
        | _, _ => mret (Ok tt)
        end;
  _ <-? map_physical_memory a layout physmap;
  map_handoff_trampoline a trampoline_start trampoline_end physmap.

End mapping.

(** ** Sequences of mappings *)

Section requests.
Context {arch : Arch} {laws : ArchLaws} {maps4K : MapsAt Size4KiB} {F : Type} {fa : FrameAllocator F}
  {fal : FrameAllocatorLaws GRANULE_SIZE F} (pm : PhysMap) (Hpo : platform_ok pm).

Notation KM := (M (world F * Flush)).

Record request : Type := MkRequest { rq_virt : range; rq_phys : Z; rq_attrs : MemoryAttributes }.

Fixpoint map_requests (a : HardwareAddressSpace) (qs : list request) : KM (result AllocError unit) :=
  match qs with
  | [] => mret (Ok tt)
  | q :: qs' =>
      _ <-? map_4K (F := F) a (rq_virt q) (rq_phys q) (rq_attrs q) pm;
      map_requests a qs'
  end.

Definition request_ok (q : request) : Prop :=
  virt_ok Size4KiB (rq_virt q) /\ phys_ok Size4KiB (rq_phys q) (r_end (rq_virt q) - r_start (rq_virt q))
  /\ attributes_accessible (rq_attrs q) = true.

Definition in_request (q : request) (va : Z) : Prop := r_start (rq_virt q) <= va < r_end (rq_virt q).

Definition request_disjoint (q q' : request) : Prop := forall va, in_request q va -> ~ in_request q' va.

Definition maps_request (st : status) (va : Z) (q : request) : Prop :=
  leaf_maps Size4KiB st va (rq_phys q + (va - r_start (rq_virt q))) (normalize_attributes (rq_attrs q)).

Lemma map_requests_run a R qs :
  Forall request_ok qs -> ForallOrdPairs request_disjoint qs ->
  forall (w : world F) f, aspace_ok pm a R w -> flush_ok f ->
  (forall q va, q ∈ qs -> in_request q va -> unmapped_at pm Size4KiB a w va) ->
  exists r f' w', map_requests a qs (w, f) = Done (r, (w', f'))
    /\ aspace_ok pm a R w' /\ keeps pm R w w' /\ flush_ok f'
    /\ (forall va, canonical va -> (forall q, q ∈ qs -> ~ in_request q va) ->
          status_at pm Size4KiB a w' va = status_at pm Size4KiB a w va)
    /\ match r with
       | Ok _ => forall q va, q ∈ qs -> in_request q va -> maps_request (status_at pm Size4KiB a w' va) va q
       | Err _ => out_of_frames w'
       end.
Proof.
  induction qs as [| q qs IH]; intros Hall Hdis w f Hok Hf Hun.
  { exists (Ok tt), f, w. split; [done |]. split_and!; try done; set_solver. }
  apply Forall_cons in Hall as [(Hv & Hp & Hacc) Hall]. inversion Hdis as [| ? ? Hq Hdis']; subst.
  rewrite List.Forall_forall in Hq. assert (Hq' : forall q', q' ∈ qs -> request_disjoint q q') by (intros; apply Hq; by apply list_elem_of_In).
  destruct (map_contiguous_run pm Hpo Size4KiB a R w (rq_virt q) (rq_phys q) (rq_attrs q) f Hok Hv Hp Hacc Hf) as
    (r & f1 & w1 & c & E & Hc & Hr & Hch); [intros va Hva; by apply (Hun q); [left |] |].
  assert (E1 : map_4K a (rq_virt q) (rq_phys q) (rq_attrs q) pm (w, f) = Done (r, (w1, f1))).
  { unfold map_4K, with_flush. by rewrite E. }
  pose proof Hch as [Hok1 HK1 (Hf1 & _ & _) Hout1 Hin1]. cbn [map_requests]. destruct r as [[] | e].
  2: { rewrite (try_bind_Err _ _ _ _ _ E1). exists (Err e), f1, w1. split_and!; try done.
       intros va Hcan Hn. apply Hout1; [done |]. specialize (Hn q ltac:(by left)). unfold in_request in Hn. lia. }
  rewrite (try_bind_Ok _ _ _ _ _ E1). subst c.
  destruct (IH Hall Hdis' w1 f1 Hok1 Hf1) as (r2 & f2 & w2 & E2 & Hok2 & HK2 & Hf2 & Hout2 & Hr2).
  { intros q' va Hq2 Hva. unfold unmapped_at. rewrite Hout1.
    - apply (Hun q'); [by right | done].
    - rewrite Forall_forall in Hall. by eapply virt_canonical; [apply (Hall q' Hq2) |].
    - intros Hin. by apply (Hq' q' Hq2 va Hin). }
  exists r2, f2, w2. split_and!; try done; [by eapply keeps_trans | |].
  - intros va Hcan Hn. rewrite Hout2, Hout1; [done | done | | done |].
    + specialize (Hn q ltac:(by left)). exact Hn.
    + intros q' Hq2. apply Hn. by right.
  - destruct r2 as [[] |]; [| done]. intros q' va [-> | Hq2]%elem_of_cons Hva; [| by apply Hr2].
    unfold maps_request. rewrite Hout2; [by apply Hin1 | by eapply virt_canonical |].
    intros q2 Hq2 Hin2. by apply (Hq' q2 Hq2 va Hva).
Qed.

(** The segments of the kernel as mapping requests. *)
Definition segment_request (layout : KernelAspaceLayout) (kernel : RelocatedKernel) (seg : LoadSegment) (q : request) : Prop :=
  segment_target layout kernel seg = Done (rq_virt q, rq_phys q) /\ rq_attrs q = segment_attributes (perms seg).

Lemma map_segments_requests a layout kernel segs qs st :
  Forall2 (segment_request layout kernel) segs qs ->
  map_segments (F := F) a layout kernel pm segs st = map_requests a qs st.
Proof.
  intros H. revert st. induction H as [| seg q segs qs [E1 E2] _ IH]; intros st; [done |]. cbn [map_segments map_requests].
  rewrite (lift_Done_bind _ _ _ _ E1). cbv beta. cbn [fst snd]. rewrite E2. unfold try_bind.
  destruct (map_4K _ _ _ _ _ _) as [[[[] |] st'] | |]; try done.
Qed.

Lemma segment_attributes_accessible p : attributes_accessible (segment_attributes p) = true.
Proof. by destruct p. Qed.

Lemma protect_relro_run a R layout kernel relro (w : world F) f :
  aspace_ok pm a R w -> flush_ok f -> relro_range layout kernel = Done relro -> virt_ok Size4KiB relro ->
  (forall va, r_start relro <= va < r_end relro -> mapped_at pm Size4KiB a w va) ->
  exists f' w', protect_relro a layout kernel pm (w, f) = Done (tt, (w', f'))
    /\ changed pm Size4KiB a R w (r_start relro) (r_end relro) (protects_T (with_READ true attributes_new)) f f' w'.
Proof.
  intros Hok Hf Er Hv Hm.
  destruct (set_attributes_run pm Hpo Size4KiB a R w relro (with_READ true attributes_new) f Hok Hv eq_refl Hf Hm)
    as (f' & w' & E & Hch).
  exists f', w'. split; [| done]. unfold protect_relro. rewrite (lift_Done_bind _ _ _ _ Er). unfold with_flush.
  by rewrite (M_bind_Done _ _ _ _ _ E).
Qed.

Lemma map_image_requests a R layout kernel qs relro (w : world F) f :
  aspace_ok pm a R w -> flush_ok f ->
  is_aligned_to (r_start (kl_kernel_image layout)) GRANULE_SIZE = Done true ->
  is_aligned_to (r_end (kl_kernel_image layout)) GRANULE_SIZE = Done true ->
  Forall2 (segment_request layout kernel) (k_load kernel) qs ->
  Forall request_ok qs -> ForallOrdPairs request_disjoint qs ->
  relro_range layout kernel = Done relro -> virt_ok Size4KiB relro ->
  (forall va, r_start relro <= va < r_end relro -> exists q, q ∈ qs /\ in_request q va) ->
  (forall q va, q ∈ qs -> in_request q va -> unmapped_at pm Size4KiB a w va) ->
  exists r f' w', map_kernel_image a layout kernel pm (w, f) = Done (r, (w', f'))
    /\ aspace_ok pm a R w' /\ keeps pm R w w'
    /\ (forall va, canonical va -> (forall q, q ∈ qs -> ~ in_request q va) -> translate pm a w' va = translate pm a w va)
    /\ match r with
       | Err _ => out_of_frames w'
       | Ok _ => forall q va, q ∈ qs -> in_request q va ->
           exists l, translate pm a w' va
             = Some (rq_phys q + (va - r_start (rq_virt q)),
                     normalize_attributes (if decide (r_start relro <= va < r_end relro)
                                           then with_READ true attributes_new else rq_attrs q), l)
       end.
Proof.
  intros Hok Hf Ha1 Ha2 Hseg Hall Hdis Er Hrv Hrin Hun.
  destruct (map_requests_run a R qs Hall Hdis w f Hok Hf Hun) as (r & f1 & w1 & E1 & Hok1 & HK1 & Hf1 & Hout1 & Hr1).
  rewrite <- (map_segments_requests a layout kernel (k_load kernel) qs (w, f) Hseg) in E1.
  unfold map_kernel_image. rewrite (lift_Done_bind _ _ _ _ Ha1), (lift_Done_bind _ _ _ _ Ha2).
  rewrite (lift_Done_bind _ tt) by done. destruct r as [[] | e].
  2: { rewrite (try_bind_Err _ _ _ _ _ E1). exists (Err e), f1, w1. split_and!; try done.
       intros va Hcan Hn. rewrite !(translate_status pm Size4KiB). by rewrite Hout1. }
  rewrite (try_bind_Ok _ _ _ _ _ E1).
  destruct (protect_relro_run a R layout kernel relro w1 f1 Hok1 Hf1 Er Hrv) as (f2 & w2 & E2 & Hch).
  { intros va Hva. destruct (Hrin va Hva) as (q & Hq & Hin). destruct (Hr1 q va Hq Hin) as (x & l & Hst & Hsz & _). by exists x, l. }
  rewrite (M_bind_Done _ _ _ _ _ E2). pose proof Hch as [Hok2 HK2 _ Hout2 Hin2].
  exists (Ok tt), f2, w2. split_and!; try done; [by eapply keeps_trans | |].
  - intros va Hcan Hn. rewrite !(translate_status pm Size4KiB). rewrite Hout2, Hout1; try done.
    intros Hva. destruct (Hrin va Hva) as (q & Hq & Hin). by apply (Hn q).
  - intros q va Hq Hin. destruct (Hr1 q va Hq Hin) as (x & l & Hst & Hsz & Hpa & Hat). exists l.
    rewrite (translate_status pm Size4KiB). case_decide as Hva.
    + destruct (Hin2 va Hva) as (x1 & x' & l' & Hst1 & Hst' & Hpa' & Hat'). rewrite Hst in Hst1. simplify_eq.
      rewrite Hst'. simpl. by rewrite Hat', Hpa', Hpa.
    + rewrite Hout2, Hst; [simpl; by rewrite Hat, Hpa | | done].
      rewrite Forall_forall in Hall. by eapply virt_canonical; [apply (Hall q Hq) |].
Qed.

End requests.

(** ** The kernel image *)

Section image_mapping.
Context {arch : Arch} {laws : ArchLaws} {maps4K : MapsAt Size4KiB} {F : Type} {fa : FrameAllocator F}
  {fal : FrameAllocatorLaws GRANULE_SIZE F} (pm : PhysMap) (Hpo : platform_ok pm).

(** What the segments of an image at [base] ask for, in pages of the image: page
    [n] holds the bytes from [4096 * n] on. *)

Definition page_of (base va : Z) : Z := (va - base) / 4096.

(** The page holds a byte of the segment. *)
Definition in_segment (base : Z) (seg : LoadSegment) (va : Z) : Prop :=
  exists i, image_offset seg <= i < image_offset seg + mem_size seg /\ page_of base va = i / 4096.

(** The page is part of RELRO: it does not end before RELRO starts, and ends
    within it. *)
Definition in_relro (base : Z) (relro : range) (va : Z) : Prop :=
  r_start relro < (page_of base va + 1) * 4096 <= r_end relro.

#[global] Instance in_relro_dec base relro va : Decision (in_relro base relro va).
Proof. unfold in_relro. apply _. Defined.

Definition granted (p : Permissions) : MemoryAttributes :=
  MkAttributes true (match p with ReadOnly => Neither | ReadWrite => Write | ReadExecute => Execute end) Normal.

(** The image is on page boundaries, virtually and physically, and holds its
    segments, none of which is empty; no page holds bytes of two segments; RELRO
    has at least one page, and its pages are pages of segments. *)
Record image_ok (image : range) (kernel : RelocatedKernel) : Prop := {
  im_pages : r_start image mod 4096 = 0 /\ r_end image mod 4096 = 0;
  im_half : in_half VIRTUAL_ADDRESS_BITS (r_start image) (r_end image) /\ r_end image < USIZE_MOD;
  im_phys : 0 <= k_phys_base kernel /\ k_phys_base kernel mod 4096 = 0
    /\ k_phys_base kernel + (r_end image - r_start image) <= PHYS_LIMIT /\ PHYS_LIMIT < USIZE_MOD;
  im_segments : Forall (fun seg => 0 <= image_offset seg /\ 0 < mem_size seg
    /\ image_offset seg + mem_size seg <= r_end image - r_start image) (k_load kernel);
  im_apart : ForallOrdPairs (fun s t => forall va, in_segment (r_start image) s va -> ~ in_segment (r_start image) t va) (k_load kernel);
  im_relro : 0 <= r_start (k_relro kernel) /\ r_end (k_relro kernel) <= r_end image - r_start image
    /\ r_start (k_relro kernel) / 4096 < r_end (k_relro kernel) / 4096;
  im_relro_segments : forall va, in_relro (r_start image) (k_relro kernel) va ->
    exists seg, seg ∈ k_load kernel /\ in_segment (r_start image) seg va;
}.


(** *** The requests that the code makes for an image *)

Definition pages_down (x : Z) : Z := x / 4096 * 4096.
Definition pages_up (x : Z) : Z := (x + 4095) / 4096 * 4096.

Definition segment_of (base phys : Z) (seg : LoadSegment) : request :=
  MkRequest (Range (base + pages_down (image_offset seg)) (base + pages_up (image_offset seg + mem_size seg)))
    (phys + pages_down (image_offset seg)) (granted (perms seg)).

Lemma round_base base x : base mod 4096 = 0 ->
  base + x - (base + x) mod 4096 = base + pages_down x /\ base + x + 4095 - (base + x + 4095) mod 4096 = base + pages_up x.
Proof.
  intros Hb. unfold pages_down, pages_up. rewrite <- !Z.add_assoc.
  assert (forall y, (base + y) mod 4096 = y mod 4096) as Hm by (intros y; by rewrite Zplus_mod, Hb, Z.add_0_l, Z.mod_mod).
  rewrite !Hm. pose proof (Z.div_mod x 4096 ltac:(lia)). pose proof (Z.div_mod (x + 4095) 4096 ltac:(lia)). lia.
Qed.

(** A multiple of the page size is not below the rounded values. *)
Lemma pages_bounds x : pages_down x <= x < pages_down x + 4096 /\ x <= pages_up x < x + 4096
  /\ pages_down x mod 4096 = 0 /\ pages_up x mod 4096 = 0.
Proof.
  unfold pages_down, pages_up. pose proof (Z.div_mod x 4096 ltac:(lia)). pose proof (Z.div_mod (x + 4095) 4096 ltac:(lia)).
  pose proof (Z.mod_pos_bound x 4096 ltac:(lia)). pose proof (Z.mod_pos_bound (x + 4095) 4096 ltac:(lia)).
  rewrite !Z.mod_mul by lia. split_and!; lia.
Qed.

Lemma pages_up_below x m : x <= m -> m mod 4096 = 0 -> pages_up x <= m.
Proof.
  intros Hx Hm. apply Z.mod_divide in Hm as [q ->]; [|lia]. unfold pages_up.
  assert ((x + 4095) / 4096 < q + 1) by (apply Z.div_lt_upper_bound; lia). lia.
Qed.

(** The pages of a segment are those that hold one of its bytes. *)
Lemma in_segment_request base phys seg va :
  0 < mem_size seg -> in_segment base seg va <-> in_request (segment_of base phys seg) va.
Proof.
  intros Hs. unfold in_segment, in_request, page_of, segment_of, pages_down, pages_up. cbn [rq_virt r_start r_end].
  set (o := image_offset seg). set (e := o + mem_size seg). set (x := va - base).
  assert (base + o / 4096 * 4096 <= va < base + (e + 4095) / 4096 * 4096 <-> o / 4096 <= x / 4096 < (e + 4095) / 4096) as ->.
  { pose proof (Z.div_mod x 4096 ltac:(lia)). pose proof (Z.mod_pos_bound x 4096 ltac:(lia)). unfold x in *. lia. }
  assert ((e + 4095) / 4096 = (e - 1) / 4096 + 1) as ->.
  { replace (e + 4095) with (e - 1 + 1 * 4096) by lia. by rewrite Z.div_add by lia. }
  split.
  - intros (i & Hi & ->). split; [apply Z.div_le_mono; lia|]. assert (i / 4096 <= (e - 1) / 4096) by (apply Z.div_le_mono; lia). lia.
  - intros Hx. exists (Z.max o (x / 4096 * 4096)).
    pose proof (Z.div_mod (e - 1) 4096 ltac:(lia)). pose proof (Z.mod_pos_bound (e - 1) 4096 ltac:(lia)).
    pose proof (Z.div_mod o 4096 ltac:(lia)). pose proof (Z.mod_pos_bound o 4096 ltac:(lia)).
    split; [lia|]. apply (Z.div_unique _ _ _ (Z.max o (x / 4096 * 4096) - x / 4096 * 4096)); lia.
Qed.

Lemma in_relro_range base relro va :
  in_relro base relro va <-> base + pages_down (r_start relro) <= va < base + pages_down (r_end relro).
Proof.
  unfold in_relro, page_of, pages_down. set (x := va - base).
  pose proof (Z.div_mod x 4096 ltac:(lia)). pose proof (Z.mod_pos_bound x 4096 ltac:(lia)).
  pose proof (Z.div_mod (r_start relro) 4096 ltac:(lia)). pose proof (Z.mod_pos_bound (r_start relro) 4096 ltac:(lia)).
  pose proof (Z.div_mod (r_end relro) 4096 ltac:(lia)). pose proof (Z.mod_pos_bound (r_end relro) 4096 ltac:(lia)).
  unfold x in *. lia.
Qed.

Section image.
Context (Hgranule : GRANULE_SIZE = 4096) (layout : KernelAspaceLayout) (kernel : RelocatedKernel)
  (Him : image_ok (kl_kernel_image layout) kernel).

Abbreviation base := (r_start (kl_kernel_image layout)).
Abbreviation phys := (k_phys_base kernel).

Lemma image_usize x : 0 <= x <= r_end (kl_kernel_image layout) - base ->
  is_usize (base + x) /\ base + x + 4095 < USIZE_MOD /\ is_usize (phys + x).
Proof.
  intros Hx. destruct (im_half _ _ Him) as [[H0 _] H1], (im_phys _ _ Him) as (Hp & _ & Hl & Hu), (im_pages _ _ Him) as [_ He].
  apply Z.mod_divide in He as [q Hq]; [|lia]. unfold is_usize. change USIZE_MOD with (4503599627370496 * 4096) in *. lia.
Qed.

Lemma segment_target_of seg : seg ∈ k_load kernel ->
  segment_request layout kernel seg (segment_of base phys seg) /\ request_ok (segment_of base phys seg).
Proof.
  intros Hin. pose proof (im_segments _ _ Him) as Hs. rewrite Forall_forall in Hs. destruct (Hs seg Hin) as (Ho & Hm & Hf).
  destruct (im_pages _ _ Him) as [Hb He], (im_phys _ _ Him) as (Hp0 & Hp1 & Hl & _), (im_half _ _ Him) as [Hhalf Heu].
  destruct (image_usize (image_offset seg) ltac:(lia)) as (Hu1 & _ & Hu2).
  destruct (image_usize (image_offset seg + mem_size seg) ltac:(lia)) as (Hu3 & Hov & _).
  destruct (round_base base (image_offset seg) Hb) as [Hd1 _]. destruct (round_base base (image_offset seg + mem_size seg) Hb) as [_ Hd2].
  destruct (round_base phys (image_offset seg) Hp1) as [Hd3 _].
  destruct (pages_bounds (image_offset seg)) as (Hb1 & _ & Hb2 & _).
  destruct (pages_bounds (image_offset seg + mem_size seg)) as (_ & Hb3 & _ & Hb4).
  pose proof (pages_up_below (image_offset seg + mem_size seg) (r_end (kl_kernel_image layout) - base) ltac:(lia)
    ltac:(by rewrite Zminus_mod, Hb, He)) as Hup.
  assert (0 <= pages_down (image_offset seg)) as Hd0 by (unfold pages_down; pose proof (Z.div_pos (image_offset seg) 4096 ltac:(lia) ltac:(lia)); lia).
  assert (0 <= base) as Hb0 by apply Hhalf.
  split; [split; [|cbn [segment_of rq_attrs]; by destruct (perms seg)]|].
  - unfold is_usize in *. unfold segment_target, unaligned_mem_range, page_range, range_from_start_len, range_align_out, addr_add.
    rewrite Hgranule, (u_add_Done (image_offset seg) (mem_size seg)) by (unfold is_usize; lia). cbn [mbind outcome_bind mret outcome_ret r_start r_end].
    rewrite !u_add_Done, u_sub_Done by (unfold is_usize; lia). cbn [mbind outcome_bind mret outcome_ret r_start r_end].
    replace (image_offset seg + mem_size seg - image_offset seg) with (mem_size seg) by lia.
    rewrite u_add_Done by (unfold is_usize; lia). cbn [mbind outcome_bind mret outcome_ret r_start r_end].
    rewrite <- Z.add_assoc. change 4096 with (2 ^ 12).
    rewrite !align_down_pow2 by (unfold is_usize; lia). cbn [mbind outcome_bind].
    rewrite align_up_pow2 by (unfold is_usize; change (2 ^ 12) with 4096; lia). cbn [mbind outcome_bind mret outcome_ret].
    change (2 ^ 12 - 1) with 4095. change (2 ^ 12) with 4096. by rewrite Hd1, Hd2, Hd3.
  - assert (forall x y, x mod 4096 = 0 -> y mod 4096 = 0 -> (x + y) mod 4096 = 0) as Hadd by (intros x y Hx Hy; by rewrite Zplus_mod, Hx, Hy).
    unfold segment_of, request_ok, virt_ok, phys_ok. cbn [rq_virt rq_phys rq_attrs r_start r_end].
    change (BYTES Size4KiB) with 4096. split_and!; try lia; try (by apply Hadd); [|by destruct (perms seg)].
    unfold in_half in *. lia.
Qed.

Lemma relro_of : relro_range layout kernel = Done (Range (base + pages_down (r_start (k_relro kernel))) (base + pages_down (r_end (k_relro kernel))))
  /\ virt_ok Size4KiB (Range (base + pages_down (r_start (k_relro kernel))) (base + pages_down (r_end (k_relro kernel)))).
Proof.
  destruct (im_relro _ _ Him) as (H0 & H1 & H2). destruct (im_pages _ _ Him) as [Hb _], (im_half _ _ Him) as [Hhalf _].
  destruct (pages_bounds (r_start (k_relro kernel))) as (Hb1 & _ & Hb2 & _). destruct (pages_bounds (r_end (k_relro kernel))) as (Hb3 & _ & Hb4 & _).
  assert (0 <= pages_down (r_start (k_relro kernel)) < pages_down (r_end (k_relro kernel))) as Hlt.
  { unfold pages_down. pose proof (Z.div_pos (r_start (k_relro kernel)) 4096 ltac:(lia) ltac:(lia)). lia. }
  assert (r_start (k_relro kernel) < r_end (k_relro kernel)).
  { apply Z.nle_gt. intros Hle. apply (Z.div_le_mono _ _ 4096) in Hle; lia. }
  destruct (image_usize (r_start (k_relro kernel)) ltac:(lia)) as (Hu1 & _ & _). destruct (image_usize (r_end (k_relro kernel)) ltac:(lia)) as (Hu2 & _ & _).
  destruct (round_base base (r_start (k_relro kernel)) Hb) as [Hd1 _]. destruct (round_base base (r_end (k_relro kernel)) Hb) as [Hd2 _]. split.
  - unfold relro_range, addr_add. rewrite Hgranule. change 4096 with (2 ^ 12).
    rewrite u_add_Done by done. cbn [mbind outcome_bind]. rewrite align_down_pow2 by (done || lia). cbn [mbind outcome_bind].
    rewrite u_add_Done by done. cbn [mbind outcome_bind]. rewrite align_down_pow2 by (done || lia). cbn [mbind outcome_bind].
    change (2 ^ 12) with 4096. rewrite Hd1, Hd2. done.
  - unfold virt_ok. cbn [r_start r_end]. change (BYTES Size4KiB) with 4096. split_and!; [lia| |by rewrite Zplus_mod, Hb, Hb2|by rewrite Zplus_mod, Hb, Hb4].
    unfold in_half in *. lia.
Qed.
End image.

Lemma page_aligned x : x mod 4096 = 0 -> is_aligned_to x 4096 = Done true.
Proof. intros Hx. change 4096 with (2 ^ 12). rewrite is_aligned_to_pow2 by lia. change (2 ^ 12) with 4096. by rewrite Hx. Qed.

(** Segments that share no page make requests that share no address. *)
Lemma segments_apart base phys segs :
  (forall seg, seg ∈ segs -> 0 < mem_size seg) ->
  ForallOrdPairs (fun s t => forall va, in_segment base s va -> ~ in_segment base t va) segs ->
  ForallOrdPairs request_disjoint (segment_of base phys <$> segs).
Proof.
  intros Hs H. induction H as [|seg segs Hseg _ IH]; [constructor|]. cbn [fmap list_fmap]. constructor; [|apply IH; intros; apply Hs; by right].
  rewrite List.Forall_forall in Hseg. apply List.Forall_forall. intros x Hx. apply list_elem_of_In, list_elem_of_fmap in Hx as (t & -> & Ht).
  intros va Ha Hb. apply (Hseg t ltac:(by apply list_elem_of_In) va); (eapply in_segment_request; [apply Hs|done]); [by left|by right].
Qed.

(** C29: mapping the kernel image. The image is laid out on page boundaries, its
    segments are not empty and share no pages, and RELRO covers at least one
    whole page and only pages of segments. Then mapping returns, and after success
    every address of a page that holds a byte of a segment is translated to the
    address at the same offset of the staged image. It is readable there, and
    writable or executable exactly as its segment is, except in the pages of
    RELRO, from the one that holds its first byte to the last one that ends within
    it, which are only readable. No other address is translated differently than
    before. Failure means that the frame allocator refused a table. *)
Theorem map_kernel_image_correct a R layout kernel (w : world F) f (base := r_start (kl_kernel_image layout)) :
  GRANULE_SIZE = 4096 -> image_ok (kl_kernel_image layout) kernel -> aspace_ok pm a R w -> flush_ok f ->
  (forall seg va, seg ∈ k_load kernel -> in_segment base seg va -> unmapped_at pm Size4KiB a w va) ->
  exists r f' w', map_kernel_image a layout kernel pm (w, f) = Done (r, (w', f'))
    /\ aspace_ok pm a R w' /\ keeps pm R w w'
    /\ (forall va, canonical va -> (forall seg, seg ∈ k_load kernel -> ~ in_segment base seg va) ->
          translate pm a w' va = translate pm a w va)
    /\ match r with
       | Err _ => out_of_frames w'
       | Ok _ => forall seg va, seg ∈ k_load kernel -> in_segment base seg va ->
           exists l, translate pm a w' va
             = Some (k_phys_base kernel + (va - base),
                     normalize_attributes (granted (if decide (in_relro base (k_relro kernel) va) then ReadOnly else perms seg)), l)
       end.
Proof.
  intros HG Him Hok Hf Hun. set (q seg := segment_of base (k_phys_base kernel) seg).
  pose proof (im_segments _ _ Him) as Hseg. rewrite Forall_forall in Hseg.
  assert (forall seg va, seg ∈ k_load kernel -> in_segment base seg va <-> in_request (q seg) va) as Hin.
  { intros seg va Hs. apply in_segment_request. by apply Hseg. }
  assert (forall va x, x ∈ q <$> k_load kernel -> in_request x va -> exists seg, seg ∈ k_load kernel /\ x = q seg /\ in_segment base seg va) as Hof.
  { intros va x (seg & -> & Hs)%list_elem_of_fmap Hx. exists seg. split_and!; [done..|by apply Hin]. }
  destruct (relro_of HG layout kernel Him) as [Er Hrv]. destruct (im_pages _ _ Him) as [Hb He].
  destruct (map_image_requests pm Hpo a R layout kernel (q <$> k_load kernel)
    (Range (base + pages_down (r_start (k_relro kernel))) (base + pages_down (r_end (k_relro kernel)))) w f Hok Hf) as (r & f' & w' & Hrun & Hok' & HK & Hout & Hr);
    [rewrite HG; by apply page_aligned|rewrite HG; by apply page_aligned
    | | | |exact Er|exact Hrv| | |].
  - apply Forall2_fmap_r, Forall_Forall2_diag, Forall_forall. intros seg Hs. by apply segment_target_of.
  - apply Forall_fmap, Forall_forall. intros seg Hs. cbn. by apply segment_target_of.
  - apply segments_apart; [intros seg Hs; by apply Hseg|apply (im_apart _ _ Him)].
  - intros va Hva. destruct (im_relro_segments _ _ Him va) as (seg & Hs & Hsv); [by apply in_relro_range|]. exists (q seg).
    split; [by apply list_elem_of_fmap_2|by apply Hin].
  - intros x va Hx Hva. destruct (Hof va x Hx Hva) as (seg & Hs & -> & Hsv). by apply (Hun seg).
  - exists r, f', w'. split_and!; [done..| |].
    + intros va Hcan Hn. apply Hout; [done|]. intros x Hx Hva. destruct (Hof va x Hx Hva) as (seg & Hs & -> & Hsv). by apply (Hn seg).
    + destruct r as [[]|]; [|done]. intros seg va Hs Hsv.
      destruct (Hr (q seg) va) as (l & Hl); [by apply list_elem_of_fmap_2|by apply Hin|]. exists l. rewrite Hl.
      unfold q, segment_of. cbn [rq_phys rq_virt rq_attrs r_start r_end]. do 3 f_equal; [lia|]. f_equal.
      destruct (decide (in_relro base (k_relro kernel) va)) as [Hrel|Hrel]; rewrite in_relro_range in Hrel; [by rewrite decide_True|by rewrite decide_False].
Qed.

End image_mapping.

(** ** The layout *)

(** A range of whole pages at a page boundary. *)
Lemma page_range_Done k start len :
  0 <= k < 63 -> 0 <= start -> 0 <= len -> start mod 2 ^ k = 0 -> start + len + 2 ^ k < USIZE_MOD ->
  page_range start len (2 ^ k) = Done (Range start (start + roundup len (2 ^ k))).
Proof.
  intros Hk Hs Hl Hm Hov. pose proof (pow2_pos k ltac:(lia)) as Hp. unfold page_range, range_from_start_len, addr_add.
  rewrite u_add_Done by (unfold is_usize; lia). simpl. unfold range_align_out. simpl.
  rewrite align_down_pow2, Hm, Z.sub_0_r by (unfold is_usize; lia). simpl.
  rewrite align_up_pow2 by (unfold is_usize; lia). simpl. do 2 f_equal. unfold roundup.
  replace (start + len + (2 ^ k - 1)) with (start + (len + (2 ^ k - 1))) by lia.
  rewrite <- Zplus_mod_idemp_l, Hm, Z.add_0_l. lia.
Qed.

(** [r] is the page range of [len] bytes that starts at [start]. *)
Record placed (k : Z) (start len : Z) (r : range) : Prop := {
  pl_start : r_start r = start;
  pl_aligned : r_start r mod 2 ^ k = 0 /\ r_end r mod 2 ^ k = 0;
  pl_len : len <= r_end r - r_start r < len + 2 ^ k;
}.

Lemma page_range_placed k start len :
  0 <= k < 63 -> 0 <= start -> 0 <= len -> start mod 2 ^ k = 0 -> start + len + 2 ^ k < USIZE_MOD ->
  exists r, page_range start len (2 ^ k) = Done r /\ placed k start len r.
Proof.
  intros Hk Hs Hl Hm Hov. rewrite page_range_Done by done. eexists. split; [done |].
  destruct (roundup_spec len (2 ^ k) (pow2_pos k ltac:(lia))) as [Hr Hr'].
  split; simpl; [done | split; [done |] | lia]. by rewrite Zplus_mod, Hm, Hr'.
Qed.

Lemma mod_1GiB k x : 0 <= k <= 30 -> x mod BYTES Size1GiB = 0 -> x mod 2 ^ k = 0.
Proof.
  intros Hk Hx. change (BYTES Size1GiB) with (2 ^ 30) in Hx. apply Z.mod_divide in Hx as [q ->]; [| lia].
  rewrite (pow2_split k 30) by lia. apply Z.mod_divide; [pose proof (pow2_pos k ltac:(lia)); lia |].
  exists (q * 2 ^ (30 - k)). ring.
Qed.

Lemma uart_pages k regs :
  0 <= k < 62 -> 0 <= r_start regs < r_end regs -> r_end regs < 2 ^ 62 ->
  exists r, range_align_out regs (2 ^ k) = Done r
    /\ exists n, range_len r = Done n /\ r_end regs - r_start regs <= n /\ n < r_end regs - r_start regs + 2 * 2 ^ k.
Proof.
  intros Hk Hs He. pose proof (pow2_pos k ltac:(lia)) as Hp. assert (Hpk : 2 ^ k <= 2 ^ 62) by (apply Z.pow_le_mono_r; lia).
  assert (HU : USIZE_MOD = 4 * 2 ^ 62) by done. unfold range_align_out.
  rewrite align_down_pow2 by (unfold is_usize; lia). cbn [mbind outcome_bind].
  rewrite align_up_pow2 by (unfold is_usize; lia). eexists. split; [reflexivity |].
  fold (roundup (r_end regs) (2 ^ k)). destruct (roundup_spec (r_end regs) (2 ^ k) Hp) as [Hr _].
  pose proof (Z.mod_pos_bound (r_start regs) (2 ^ k) Hp). pose proof (Z.mod_le (r_start regs) (2 ^ k) ltac:(lia) Hp).
  eexists. split; [apply range_len_Done; unfold is_usize; lia | lia].
Qed.

(** The sizes the layout is computed from fit the upper half of Sv39. *)
Definition layout_sizes_ok (k : Z) (sizes : list Z) (regions : list range) : Prop :=
  0 <= k <= 30 /\ regions_ok regions
  /\ r_end (regions_hull regions) - r_start (regions_hull regions) <= 2 ^ 36
  /\ Forall (fun n => 0 < n <= 2 ^ 34) sizes.

(** The layout of the kernel address space.  Every part starts on a page
    boundary directly after the previous one - the boot info after the guard
    region -, is large enough, and ends on a page boundary; so the parts are
    disjoint, and all of it lies in the upper half of the address space. *)
Theorem layout_kernel_aspace_correct k kernel stack_size guard regions uart bi_size :
  layout_sizes_ok k [k_size kernel; k_tls_mem_size kernel; stack_size; guard; bi_size] regions -> guard mod 2 ^ k = 0 ->
  (forall regs, uart = Some regs -> 0 <= r_start regs < r_end regs /\ r_end regs < 2 ^ 62 /\ r_end regs - r_start regs <= 2 ^ 33) ->
  exists l, layout_kernel_aspace kernel stack_size guard regions uart (2 ^ k) bi_size = Done l
    /\ physmap_ok (kl_physmap l) /\ pm_base (kl_physmap l) = LAYOUT_BASE
    /\ placed k (r_end (range_virt (kl_physmap l))) (k_size kernel) (kl_kernel_image l)
    /\ placed k (r_end (kl_kernel_image l)) (k_tls_mem_size kernel) (kl_boot_hart_tls l)
    /\ placed k (r_end (kl_boot_hart_tls l)) stack_size (kl_boot_hart_stack l)
    /\ placed k (r_end (kl_boot_hart_stack l) + guard) bi_size (kl_boot_info l)
    /\ in_half 39 (r_start (range_virt (kl_physmap l))) (r_end (kl_boot_info l))
    /\ match uart, kl_uart l with
       | None, None => True
       | Some regs, Some r => placed k (r_end (kl_boot_info l)) (r_end r - r_start r) r
           /\ r_end regs - r_start regs <= r_end r - r_start r /\ r_end r < USIZE_MOD
       | _, _ => False
       end.
Proof.
  intros (Hk & Hreg & Hh & Hsz) Hg Hu. apply Forall_cons in Hsz as [H1 Hsz]. apply Forall_cons in Hsz as [H2 Hsz].
  apply Forall_cons in Hsz as [H3 Hsz]. apply Forall_cons in Hsz as [H4 Hsz]. apply Forall_cons in Hsz as [H5 _].
  assert (Hpk : 0 < 2 ^ k <= 2 ^ 30) by (split; [apply pow2_pos; lia | apply Z.pow_le_mono_r; lia]).
  change (2 ^ 30) with 1073741824 in Hpk. change (2 ^ 34) with 17179869184 in *. change (2 ^ 36) with 68719476736 in *.
  unfold LAYOUT_BASE. destruct (physmap_new_spec Size1GiB 0xffffffc000000000 regions) as (pm & Epm & Hok & Hrp & Hpb & Hm1 & Hm2 & Ht1 & Ht2);
    [unfold is_usize; lia | done | change (BYTES Size1GiB) with 1073741824; lia |].
  change (BYTES Size1GiB) with 1073741824 in Ht1, Ht2. pose proof (pm_virt_end pm Hok) as Hve. rewrite Hpb, Hrp in Hve.
  pose proof (pm_virt_start pm Hok) as Hvs. rewrite Hpb in Hvs. pose proof Hok as [_ Hord _ _ _ _]. rewrite Hrp in Hord.
  assert (Hvb : r_start (range_virt pm) = 0xffffffc000000000).
  { change (BYTES Size1GiB) with 1073741824 in Hm1. apply Z.mod_divide in Hm1 as [q Hq]; [lia | done]. }
  unfold layout_kernel_aspace, LAYOUT_BASE. rewrite Epm, (outcome_bind_Done _ _ pm) by done.
  pose proof (mod_1GiB k _ Hk Hm2) as Hm2'.
  destruct (page_range_placed k (r_end (range_virt pm)) (k_size kernel)) as (r1 & -> & P1); try done; try lia.
  destruct P1 as [E1 [A1 B1] L1]. rewrite (outcome_bind_Done _ _ r1) by done.
  destruct (page_range_placed k (r_end r1) (k_tls_mem_size kernel)) as (r2 & -> & P2); try done; try lia.
  destruct P2 as [E2 [A2 B2] L2]. rewrite (outcome_bind_Done _ _ r2) by done.
  destruct (page_range_placed k (r_end r2) stack_size) as (r3 & -> & P3); try done; try lia.
  destruct P3 as [E3 [A3 B3] L3]. rewrite (outcome_bind_Done _ _ r3) by done.
  unfold addr_add. rewrite u_add_Done by (unfold is_usize; lia). rewrite (outcome_bind_Done _ _ (r_end r3 + guard)) by done.
  destruct (page_range_placed k (r_end r3 + guard) bi_size) as (r4 & -> & P4); try done; try lia.
  { by rewrite Zplus_mod, B3, Hg. }
  destruct P4 as [E4 [A4 B4] L4]. rewrite (outcome_bind_Done _ _ r4) by done.
  assert (Hhalf : in_half 39 (r_start (range_virt pm)) (r_end r4)).
  { split; [lia |]. right. change (2 ^ (39 - 1)) with 274877906944. lia. }
  destruct uart as [regs |].
  - destruct (Hu regs eq_refl) as (Hu1 & Hu2 & Hu3). change (2 ^ 33) with 8589934592 in Hu3.
    destruct (uart_pages k regs ltac:(lia) Hu1 Hu2) as (ru & Eu & n & En & Hn1 & Hn2).
    destruct (page_range_placed k (r_end r4) n) as (r5 & E5 & P5); try done; try lia.
    rewrite Eu. cbn [mbind outcome_bind]. rewrite En. cbn [mbind outcome_bind]. rewrite E5. cbn [mbind outcome_bind].
    pose proof P5 as [E5' [A5 B5] L5].
    eexists. split; [reflexivity |]. cbn. split_and!; try done; try lia; try (split; [done | done | lia]).
  - eexists. split; [reflexivity |]. cbn. split_and!; try done; try (split; [done | done | lia]).
Qed.

(** ** Physical memory *)

Section physical_memory.
Context {arch : Arch} {laws : ArchLaws} {maps1G : MapsAt Size1GiB} {F : Type} {fa : FrameAllocator F}
  {fal : FrameAllocatorLaws GRANULE_SIZE F} (pm : PhysMap) (Hpo : platform_ok pm).

Definition rw_attributes : MemoryAttributes := with_WRITE_OR_EXECUTE Write (with_READ true attributes_new).

(** What [PhysMap::new] made of the machine's memory. *)
Lemma layout_physmap regions pk :
  physmap_new Size1GiB LAYOUT_BASE regions = Done pk -> regions_ok regions ->
  r_end (regions_hull regions) - r_start (regions_hull regions) <= 2 ^ 36 ->
  physmap_ok pk /\ pm_base pk = LAYOUT_BASE /\ r_start (range_virt pk) = LAYOUT_BASE
  /\ r_end (range_virt pk) mod BYTES Size1GiB = 0
  /\ BYTES Size1GiB <= r_end (range_virt pk) - r_start (range_virt pk) < 2 ^ 37.
Proof.
  intros E Hreg Hh. unfold LAYOUT_BASE in *. change (2 ^ 36) with 68719476736 in Hh. change (2 ^ 37) with 137438953472.
  destruct (physmap_new_spec Size1GiB 0xffffffc000000000 regions) as (pm' & Epm & Hok & Hrp & Hpb & Hm1 & Hm2 & Ht1 & Ht2);
    [unfold is_usize; lia | done | change (BYTES Size1GiB) with 1073741824; lia |].
  rewrite E in Epm. simplify_eq. change (BYTES Size1GiB) with 1073741824 in *.
  pose proof (pm_virt_end pm' Hok) as Hve. rewrite Hpb, Hrp in Hve. pose proof (pm_virt_start pm' Hok) as Hvs. rewrite Hpb in Hvs.
  pose proof Hok as [_ Hord _ _ _ _]. rewrite Hrp in Hord.
  apply Z.mod_divide in Hm1 as [q Hq]; [| done]. pose proof Hm2 as Hm2'. apply Z.mod_divide in Hm2 as [q' Hq']; [| done].
  split_and!; try done; lia.
Qed.

(** C30: after physical memory has been mapped, the page tables and the
    physmap agree: every physical address is what its physmap address
    translates to, readable and writable. *)
Theorem map_physical_memory_correct a R layout regions (w : world F) f :
  aspace_ok pm a R w -> flush_ok f -> regions_ok regions ->
  r_end (regions_hull regions) - r_start (regions_hull regions) <= 2 ^ 36 ->
  physmap_new Size1GiB LAYOUT_BASE regions = Done (kl_physmap layout) ->
  let phys := range_phys (kl_physmap layout) in
  let virt := range_virt (kl_physmap layout) in
  r_start phys mod BYTES Size1GiB = 0 -> r_start phys + (r_end virt - r_start virt) <= PHYS_LIMIT ->
  in_half VIRTUAL_ADDRESS_BITS (r_start virt) (r_end virt) ->
  (forall va, r_start virt <= va < r_end virt -> unmapped_at pm Size1GiB a w va) ->
  exists r f' w', map_physical_memory a layout pm (w, f) = Done (r, (w', f')) /\ aspace_ok pm a R w'
    /\ match r with
       | Err _ => out_of_frames w'
       | Ok _ => forall p, r_start phys <= p < r_end phys ->
           exists v l, phys_to_virt (kl_physmap layout) p = Done v
             /\ translate pm a w' v = Some (p, normalize_attributes rw_attributes, l)
       end.
Proof.
  intros Hok Hf Hreg Hh Epk phys virt Hal Hlim Hhalf Hun.
  destruct (layout_physmap regions _ Epk Hreg Hh) as (Hpk & Hb & Hvs & Hve & Hlen). fold phys virt in Hvs, Hve, Hlen.
  assert (Hvok : virt_ok Size1GiB virt) by (split_and!; [pose proof (BYTES_pos Size1GiB); lia | done | by rewrite Hvs | done]).
  pose proof Hpk as [Hp0 Hp1 _ Hv1 Hv2 _]. rewrite Hb in Hv1, Hv2. fold phys virt in Hp0, Hp1, Hv1, Hv2.
  destruct (map_contiguous_run pm Hpo Size1GiB a R w virt (r_start phys) rw_attributes f Hok Hvok) as
    (r & f' & w' & c & E & Hc & Hr & Hch); try done.
  exists r, f', w'. split; [unfold map_physical_memory, with_flush; fold phys virt; fold rw_attributes; by rewrite E |].
  split; [by destruct Hch |]. destruct r as [[] |]; [| done]. subst c. intros p Hp.
  exists (LAYOUT_BASE + (p - r_start phys)).
  assert (Hin : r_start virt <= LAYOUT_BASE + (p - r_start phys) < r_end virt) by lia.
  destruct (leaf_maps_translate pm Size1GiB a w' _ _ _ (ch_inside _ _ _ _ _ _ _ _ _ _ _ Hch _ Hin)) as (l & Ht & _).
  exists l. rewrite Ht. split.
  - rewrite (phys_to_virt_Done _ p Hpk), Hb; [done |]. unfold range_contains. fold phys.
    by rewrite (proj2 (Z.leb_le _ _)), (proj2 (Z.ltb_lt _ _)) by lia.
  - do 3 f_equal. lia.
Qed.

(** If the machine's memory does not start at a multiple of 1 GiB, the
    loader panics when it maps physical memory, whatever the address space. *)
Theorem map_physical_memory_misaligned a layout regions (w : world F) f :
  regions_ok regions -> r_end (regions_hull regions) - r_start (regions_hull regions) <= 2 ^ 36 ->
  physmap_new Size1GiB LAYOUT_BASE regions = Done (kl_physmap layout) ->
  r_start (range_phys (kl_physmap layout)) mod BYTES Size1GiB <> 0 ->
  map_physical_memory a layout pm (w, f) = Panicked.
Proof.
  intros Hreg Hh Epk Hal. destruct (layout_physmap regions _ Epk Hreg Hh) as (Hpk & Hb & Hvs & Hve & Hlen).
  pose proof (pm_no_wrap _ Hpk) as Hnw. set (virt := range_virt (kl_physmap layout)) in *.
  assert (E30 : BYTES Size1GiB = 2 ^ 30) by done. unfold map_physical_memory, with_flush, map_contiguous. fold virt.
  assert (Hl : range_len virt = Done (r_end virt - r_start virt)).
  { destruct virt as [vs ve]. cbn [r_start r_end] in *. unfold LAYOUT_BASE in *. apply range_len_Done; unfold is_usize; lia. }
  rewrite (lift_Done_bind _ _ _ _ Hl), (lift_Done_bind _ tt) by (apply assert_leb; lia).
  rewrite (lift_Done_bind _ true) by (rewrite E30, is_aligned_to_pow2, Hvs by lia; done). rewrite (lift_Done_bind _ tt) by done.
  rewrite (lift_Done_bind _ true) by (rewrite E30 in *; rewrite is_aligned_to_pow2, Hve by lia; done). rewrite (lift_Done_bind _ tt) by done.
  rewrite (lift_Done_bind _ false).
  - done.
  - rewrite E30 in *. rewrite is_aligned_to_pow2 by lia. f_equal. by apply Z.eqb_neq.
Qed.

End physical_memory.

(** ** A kernel of three pages on the demonstration machine *)

#[export] Instance demo_maps_1GiB : MapsAt Size1GiB := @Sv39_maps_1GiB shift_mask demo_firmware 0.

Opaque demo_fresh.

Definition demo_kernel : RelocatedKernel :=
  MkKernel [MkSegment 0 0x1800 0 0x1800 ReadExecute; MkSegment 0x2000 0x1000 0x1800 0x800 ReadWrite]
    0x90000000 (Range 0x2000 0x3000) 0x3000 0x40.

Definition demo_layout : KernelAspaceLayout :=
  match layout_kernel_aspace demo_kernel 0x8000 0x1000 [demo_ram] (Some (Range 0x10000000 0x10000100)) 4096 200 with
  | Done l => l
  | _ => MkLayoutOf demo_physmap demo_ram demo_ram demo_ram demo_ram None
  end.

Lemma demo_regions_ok : regions_ok [demo_ram].
Proof. split; repeat constructor; by vm_compute. Qed.

(** Concrete ranges of the upper half. *)
Ltac upper_virt_ok := split; [by vm_compute | split; [split; [by vm_compute | right; by vm_compute] | split; by vm_compute]].

Lemma demo_image : kl_kernel_image demo_layout = Range 0xffffffc040000000 0xffffffc040003000.
Proof. by vm_compute. Qed.

Lemma demo_image_ok : image_ok (kl_kernel_image demo_layout) demo_kernel.
Proof.
  rewrite demo_image. split.
  - by vm_compute.
  - split; [split; [by vm_compute | right; by vm_compute] | by vm_compute].
  - split_and!; by vm_compute.
  - repeat constructor; by vm_compute.
  - repeat constructor. intros va (i & Hi & E1) (j & Hj & E2). cbn in Hi, Hj. rewrite E1 in E2.
    assert (i / 4096 < 2) by (apply Z.div_lt_upper_bound; lia). assert (2 <= j / 4096) by (apply Z.div_le_lower_bound; lia). lia.
  - split_and!; by vm_compute.
  - intros va Hva. exists (MkSegment 0x2000 0x1000 0x1800 0x800 ReadWrite). split; [right; left |]. exists 0x2000.
    split; [cbn; lia |]. unfold in_relro in Hva. cbn in Hva |- *. change (8192 / 4096) with 2. lia.
Qed.

Lemma layout_kernel_aspace_correct_witness :
  exists l, layout_kernel_aspace demo_kernel 0x8000 0x1000 [demo_ram] (Some (Range 0x10000000 0x10000100)) (2 ^ 12) 200 = Done l
    /\ r_start (kl_boot_hart_stack l) = r_end (kl_boot_hart_tls l).
Proof.
  destruct (layout_kernel_aspace_correct 12 demo_kernel 0x8000 0x1000 [demo_ram] (Some (Range 0x10000000 0x10000100)) 200)
    as (l & E & _ & _ & _ & _ & [Hs _ _] & _).
  - split; [lia |]. split; [exact demo_regions_ok |]. split; [by vm_compute |]. repeat constructor; by vm_compute.
  - reflexivity.
  - intros regs [= <-]. cbn. lia.
  - exists l. split; [exact E | exact Hs].
Defined.

Lemma map_kernel_image_correct_witness :
  exists r f' w', map_kernel_image demo_aspace demo_layout demo_kernel demo_physmap (demo_fresh, flush_new) = Done (r, (w', f')).
Proof.
  destruct (map_kernel_image_correct demo_physmap demo_platform demo_aspace ∅ demo_layout demo_kernel demo_fresh flush_new
    eq_refl demo_image_ok (proj1 demo_fresh_ok) flush_new_ok) as (r & f' & w' & E & _).
  - intros seg va _ _. exact (proj2 demo_fresh_ok va).
  - exists r, f', w'. exact E.
Defined.

Lemma map_physical_memory_correct_witness :
  exists r f' w', map_physical_memory demo_aspace demo_layout demo_physmap (demo_fresh, flush_new) = Done (r, (w', f')).
Proof.
  pose proof (map_physical_memory_correct demo_physmap demo_platform demo_aspace ∅ demo_layout [demo_ram] demo_fresh flush_new
    (proj1 demo_fresh_ok) flush_new_ok demo_regions_ok) as Hspec.
  destruct Hspec as (r & f' & w' & E & _).
  - by vm_compute.
  - by vm_compute.
  - by vm_compute.
  - by vm_compute.
  - split; [by vm_compute | right; by vm_compute].
  - intros va _. exact (proj2 (demo_fresh_unmapped Size1GiB) va).
  - exists r, f', w'. exact E.
Defined.

(** Memory that starts 2 MiB after a gigabyte. *)
Definition demo_layout_misaligned : KernelAspaceLayout :=
  match layout_kernel_aspace demo_kernel 0x8000 0x1000 [Range 0x80200000 0x80400000] None 4096 200 with
  | Done l => l
  | _ => demo_layout
  end.

Lemma map_physical_memory_misaligned_witness :
  map_physical_memory demo_aspace demo_layout_misaligned demo_physmap (demo_fresh, flush_new) = Panicked.
Proof.
  apply (map_physical_memory_misaligned demo_physmap demo_aspace demo_layout_misaligned [Range 0x80200000 0x80400000]).
  - split; repeat constructor; by vm_compute.
  - by vm_compute.
  - by vm_compute.
  - by vm_compute.
Defined.

(** A RELRO range that does not reach the end of a page is rounded down to an
    empty range, and [set_attributes] rejects it with a panic. *)
Example small_relro_panics :
  let kernel := MkKernel (k_load demo_kernel) 0x90000000 (Range 0x2000 0x2800) 0x3000 0x40 in
  map_kernel_image demo_aspace demo_layout kernel demo_physmap (demo_fresh, flush_new) = Panicked.
Proof. Transparent demo_fresh. by vm_compute. Qed.
