(* ===== verification/Interleaving.v ===== *)
(** * Interleaved executions

    Concurrent code is modelled by agents that share a state: [step] performs
    the next access of one agent to the shared state, and yields the agents it
    turns into.  An execution interleaves such accesses.  Invariants count
    agents: [total f ags] adds up a weight over all of them. *)

From stdpp Require Import base numbers list.
From Stdlib Require Import ZArith Lia.
From S2P Require Import Prelude.

Fixpoint total {A} (f : A -> Z) (ags : list A) : Z :=
  match ags with [] => 0 | ag :: ags' => f ag + total f ags' end.

Section totals.
Context {A : Type}.
Implicit Types (f g : A -> Z) (l : list A).

Lemma total_app f l l' : total f (l ++ l') = total f l + total f l'.
Proof. induction l; cbn [app total]; lia. Qed.

Lemma total_nonneg f l : (forall ag, 0 <= f ag) -> 0 <= total f l.
Proof. intros Hf. induction l as [| ag l IH]; cbn [total]; [done | pose proof (Hf ag); lia]. Qed.

Lemma total_le f g l : (forall ag, f ag <= g ag) -> total f l <= total g l.
Proof. intros Hf. induction l as [| ag l IH]; cbn [total]; [done | pose proof (Hf ag); lia]. Qed.

Lemma total_le_in f g l : Forall (fun ag => f ag <= g ag) l -> total f l <= total g l.
Proof. induction 1; cbn [total]; lia. Qed.

Lemma total_zero f l : (forall ag, 0 <= f ag) -> total f l = 0 -> Forall (fun ag => f ag = 0) l.
Proof.
  intros Hf. induction l as [| ag l IH]; cbn [total]; intros H; [done |]. pose proof (Hf ag). pose proof (total_nonneg f l Hf).
  constructor; [lia | apply IH; lia].
Qed.

Lemma total_perm f l l' : l ≡ₚ l' -> total f l = total f l'.
Proof. induction 1; cbn [total]; lia. Qed.

Lemma total_plus f g l : total (fun ag => f ag + g ag) l = total f l + total g l.
Proof. induction l; cbn [total]; lia. Qed.

Lemma total_elem f l ag : (forall ag, 0 <= f ag) -> ag ∈ l -> f ag <= total f l.
Proof.
  intros Hf. induction 1 as [| x y l _ IH]; cbn [total]; [pose proof (total_nonneg f l Hf); lia | pose proof (Hf y); lia].
Qed.

End totals.

Section interleaving.
Context {St A C : Type} (step : A -> C -> St -> outcome (list A * St)).

(** One agent performs an access. *)
Inductive interleaved : St * list A -> St * list A -> Prop :=
| interleaved_step s l1 ag l2 c ags s' :
    step ag c s = Done (ags, s') -> interleaved (s, l1 ++ ag :: l2) (s', l1 ++ ags ++ l2).

Inductive reached (init : St * list A) : St * list A -> Prop :=
| reached_init : reached init init
| reached_step x y : reached init x -> interleaved x y -> reached init y.

(** Invariants that do not depend on the order of the agents. *)
Lemma reached_invariant (I : St -> list A -> Prop) init s ags :
  (forall s l l', l ≡ₚ l' -> I s l -> I s l') ->
  (forall s ag rest c ags s', I s (ag :: rest) -> step ag c s = Done (ags, s') -> I s' (ags ++ rest)) ->
  I init.1 init.2 -> reached init (s, ags) -> I s ags.
Proof.
  intros Hp Hs Hi Hr. change (I (s, ags).1 (s, ags).2). induction Hr as [| x y _ IH Hy]; [done |].
  destruct Hy as [s0 l1 ag l2 c ags0 s1 E]. cbn [fst snd] in *.
  apply (Hp _ _ (ag :: l1 ++ l2)) in IH; [| symmetry; apply Permutation_middle].
  apply (Hp _ (ags0 ++ l1 ++ l2)); [rewrite !(assoc_L (++)); f_equiv; apply Permutation_app_comm |].
  by apply (Hs s0 ag _ c).
Qed.

(** A schedule: which agent acts next, and its choice. *)
Fixpoint schedule (steps : list (nat * C)) (x : St * list A) : option (St * list A) :=
  match steps with
  | [] => Some x
  | (i, c) :: steps' =>
      match x.2 !! i with
      | Some ag =>
          match step ag c x.1 with
          | Done (ags, s') => schedule steps' (s', take i x.2 ++ ags ++ drop (S i) x.2)
          | _ => None
          end
      | None => None
      end
  end.

Lemma schedule_reached steps init x y : reached init x -> schedule steps x = Some y -> reached init y.
Proof.
  revert x. induction steps as [| [i c] steps IH]; intros x Hr; cbn; [by intros [= <-] |].
  destruct (x.2 !! i) as [ag |] eqn:Ei; [| done]. destruct (step ag c x.1) as [[ags s'] | |] eqn:E; [| done..].
  apply IH. eapply reached_step; [done |]. destruct x as [s l]. cbn [fst snd] in *.
  rewrite <- (take_drop_middle l i ag Ei) at 1. by apply (interleaved_step _ _ _ _ c).
Qed.

End interleaving.
