(* ===== verification/TaskState.v ===== *)
(** * The state word of a task (sys/async/src/task/state.rs)

    A task keeps its life cycle, its join waker protocol and its reference
    count in one atomic word.  Every operation of [State] is either a single
    read-modify-write or a closure run by [transition], a compare-and-swap
    loop.  The closures are translated on the packed word; [snapshot] is the
    unpacked view, and each operation is shown to compute on it.  The loop
    itself is a machine whose steps interleave with other writers. *)

From stdpp Require Import base numbers list.
From Stdlib Require Import ZArith Lia.
From S2P Require Import Prelude Bitfield.

(** ** The fields *)

Definition POLLING : field := Field 0 1.
Definition COMPLETE : field := Field 1 1.
Definition WOKEN : field := Field 2 1.
Definition CANCELLED : field := Field 3 1.
Definition HAS_JOIN_HANDLE : field := Field 4 1.
Definition JOIN_WAKER : field := Field 5 2.
Definition HAS_OUTPUT : field := Field 7 1.
Definition REFS : field := Field 8 56.

Inductive JoinWakerState : Type := JW_Empty | JW_Registering | JW_Waiting | JW_Woken.

#[export] Instance JoinWakerState_eq_dec : EqDecision JoinWakerState.
Proof. solve_decision. Defined.

Definition jw_into_bits (j : JoinWakerState) : Z :=
  match j with JW_Empty => 0 | JW_Registering => 1 | JW_Waiting => 2 | JW_Woken => 3 end.

Definition jw_try_from_bits (bits : Z) : outcome JoinWakerState :=
  if bits =? jw_into_bits JW_Registering then Done JW_Registering
  else if bits =? jw_into_bits JW_Waiting then Done JW_Waiting
  else if bits =? jw_into_bits JW_Empty then Done JW_Empty
  else if bits =? jw_into_bits JW_Woken then Done JW_Woken
  else Panicked.

Inductive StartPollAction : Type := Poll | DontPoll | Cancelled (wake_join_waker : bool).
Inductive JoinAction : Type := TakeOutput | Canceled (completed : bool) | Register | Reregister.
Inductive WakeByRefAction : Type := EnqueueRef | NoneRef.
Inductive WakeByValAction : Type := EnqueueVal | DropVal.
Inductive PollResult : Type := Ready | ReadyJoined | Pending | PendingSchedule.

#[export] Instance PollResult_eq_dec : EqDecision PollResult.
Proof. solve_decision. Defined.

(** [first_bit] and [raw_mask] of the packing spec. *)
Definition REF_ONE : Z := 2 ^ f_lsb REFS.
Definition REF_MAX : Z := f_max REFS * 2 ^ f_lsb REFS.

Section operations.
Context {bf : Bitfield}.
Implicit Types s w : Z.

Definition get_join_waker s : outcome JoinWakerState := jw_try_from_bits (bf_get JOIN_WAKER s).
Definition set_join_waker (j : JoinWakerState) s : Z := bf_with JOIN_WAKER (jw_into_bits j) s.
Definition ref_count s : Z := bf_get REFS s.

Definition state_new : Z := REF_ONE.

(** [Snapshot::has_join_waker]; [should_wait] is the caller's flag. *)
Definition has_join_waker (should_wait : bool) s : outcome (bool * bool * Z) :=
  j ← get_join_waker s;
  match j with
  | JW_Empty => mret (false, should_wait, s)
  | JW_Registering => _ ← assert_ (bf_flag HAS_JOIN_HANDLE s); mret (true, true, s)
  | JW_Waiting => _ ← assert_ (bf_flag HAS_JOIN_HANDLE s); mret (true, false, set_join_waker JW_Empty s)
  | JW_Woken => Panicked
  end.

(** The closures: captured variables, the snapshot, and what they return. *)

Definition start_poll_fn (should_wait : bool) s : outcome (StartPollAction * bool * Z) :=
  if bf_flag POLLING s || bf_flag COMPLETE s then mret (DontPoll, should_wait, s)
  else if bf_flag CANCELLED s then
    r ← has_join_waker should_wait s;
    mret (Cancelled r.1.1, r.1.2, r.2)
  else mret (Poll, should_wait, bf_with_flag WOKEN false (bf_with_flag POLLING true s)).

Definition end_poll_fn (completed : bool) (should_wait : bool) s : outcome (PollResult * bool * Z) :=
  _ ← assert_ (bf_flag POLLING s);
  _ ← assert_ (negb (bf_flag COMPLETE s));
  _ ← assert_ (0 <? ref_count s);
  let s1 := bf_with_flag COMPLETE completed (bf_with_flag POLLING false s) in
  if negb completed && bf_flag WOKEN s1 then mret (PendingSchedule, should_wait, s1)
  else if completed then
    r ← has_join_waker should_wait (bf_with_flag HAS_OUTPUT true s1);
    mret (if r.1.1 : bool then ReadyJoined else Ready, r.1.2, r.2)
  else mret (Pending, should_wait, s1).

Definition should_register s : outcome (JoinAction * Z) :=
  j ← get_join_waker s;
  action ← match j with
           | JW_Empty => mret Register
           | x => _ ← assert_ (bool_decide (x = JW_Waiting)); mret Reregister
           end;
  mret (action, set_join_waker JW_Registering s).

Definition try_join_fn (_ : unit) s : outcome (JoinAction * unit * Z) :=
  let has_output := bf_flag HAS_OUTPUT s in
  if bf_flag CANCELLED s then mret (Canceled has_output, tt, s)
  else if negb (bf_flag COMPLETE s) then r ← should_register s; mret (r.1, tt, r.2)
  else if negb has_output then r ← should_register s; mret (r.1, tt, r.2)
  else mret (TakeOutput, tt, bf_with_flag HAS_OUTPUT false s).

Definition join_waker_registered_fn (_ : unit) s : outcome (unit * unit * Z) :=
  j ← get_join_waker s;
  _ ← assert_ (bool_decide (j = JW_Registering));
  mret (tt, tt, set_join_waker JW_Waiting (bf_with_flag HAS_JOIN_HANDLE true s)).

Definition wake_by_val_fn (_ : unit) s : outcome (WakeByValAction * unit * Z) :=
  if bf_flag POLLING s then mret (DropVal, tt, s)
  else if bf_flag COMPLETE s || bf_flag WOKEN s then mret (DropVal, tt, s)
  else mret (EnqueueVal, tt, bf_with_flag WOKEN true s).

Definition wake_by_ref_fn (_ : unit) s : outcome (WakeByRefAction * unit * Z) :=
  if bf_flag COMPLETE s || bf_flag WOKEN s then mret (NoneRef, tt, s)
  else if bf_flag POLLING s then mret (NoneRef, tt, bf_with_flag WOKEN true s)
  else mret (EnqueueRef, tt, bf_with_flag WOKEN true s).

Definition cancel_fn (_ : unit) s : outcome (bool * unit * Z) :=
  if bf_flag CANCELLED s then mret (false, tt, s)
  else mret (true, tt, bf_with_flag WOKEN true (bf_with_flag CANCELLED true s)).

Definition create_join_handle_fn (_ : unit) s : outcome (unit * unit * Z) :=
  _ ← assert_ (negb (bf_flag HAS_JOIN_HANDLE s));
  mret (tt, tt, bf_with_flag HAS_JOIN_HANDLE true s).

(** The single read-modify-write operations, on the word they find. *)

Definition refcount w : Z := bf_get REFS w.

Definition clone_ref w : outcome (unit * Z) :=
  let w' := wrapping_add w REF_ONE in
  _ ← assert_ (w <? USIZE_MOD - 1);
  _ ← assert_ (bf_get REFS w <? REF_MAX);
  mret (tt, w').

Definition drop_ref w : outcome (bool * Z) :=
  let w' := wrapping_sub w REF_ONE in
  let old_refs := bf_get REFS w in
  _ ← assert_ (negb (old_refs =? 0));
  mret (negb (1 <? old_refs), w').

Definition drop_join_handle w : outcome (unit * Z) :=
  let w' := Z.land w (USIZE_MOD - 1 - 2 ^ f_lsb HAS_JOIN_HANDLE) in
  _ ← assert_ (bf_flag HAS_JOIN_HANDLE w);
  mret (tt, w').

End operations.

(** ** [transition]: the compare-and-swap loop *)

(** Where a thread is in the loop: before the first load; about to swap
    [next] for [current], having computed the answer [a]; or returned. *)
Inductive cas_loop (A S : Type) : Type :=
| Loading (s : S)
| Swapping (current next : Z) (a : A) (s : S)
| Returned (a : A) (s : S).
Arguments Loading {A S} _.
Arguments Swapping {A S} _ _ _ _.
Arguments Returned {A S} _ _.

Section transition.
Context {A S : Type} (transition_fn : S -> Z -> outcome (A * S * Z)).

(** Run the closure on the snapshot [current]. *)
Definition attempt (s : S) (current : Z) : outcome (cas_loop A S) :=
  r ← transition_fn s current;
  mret (if current =? r.2 then Returned r.1.1 r.1.2 else Swapping current r.2 r.1.1 r.1.2).

(** One atomic access to the word [w].  A weak exchange may fail spuriously. *)
Definition transition_step (spurious : bool) (t : cas_loop A S) (w : Z) : outcome (cas_loop A S * Z) :=
  match t with
  | Loading s => t' ← attempt s w; mret (t', w)
  | Swapping current next a s =>
      if (w =? current) && negb spurious then mret (Returned a s, next)
      else t' ← attempt s w; mret (t', w)
  | Returned a s => mret (Returned a s, w)
  end.

End transition.

(** ** [wait_for_join_waker]: spin until the join waker has been written *)

(** Before the load of the snapshot, waiting with the last one seen, or done. *)
Inductive wait_loop : Type := Wait_load | Waiting_on (state : Z) | Waited.

Definition wait_step `{Bitfield} (spurious : bool) (t : wait_loop) (w : Z) : wait_loop * Z :=
  match t with
  | Wait_load => (Waiting_on w, w)
  | Waiting_on state =>
      let state := set_join_waker JW_Waiting state in
      let next := set_join_waker JW_Woken state in
      if (w =? state) && negb spurious then (Waited, next) else (Waiting_on w, w)
  | Waited => (Waited, w)
  end.

(** ** The unpacked view *)

Record snapshot : Type := MkSnap {
  sn_polling : bool;
  sn_complete : bool;
  sn_woken : bool;
  sn_cancelled : bool;
  sn_has_join : bool;
  sn_join_waker : JoinWakerState;
  sn_has_output : bool;
  sn_refs : Z;
}.

Definition snap_polling (b : bool) (x : snapshot) : snapshot :=
  MkSnap b (sn_complete x) (sn_woken x) (sn_cancelled x) (sn_has_join x) (sn_join_waker x) (sn_has_output x) (sn_refs x).
Definition snap_complete (b : bool) (x : snapshot) : snapshot :=
  MkSnap (sn_polling x) b (sn_woken x) (sn_cancelled x) (sn_has_join x) (sn_join_waker x) (sn_has_output x) (sn_refs x).
Definition snap_woken (b : bool) (x : snapshot) : snapshot :=
  MkSnap (sn_polling x) (sn_complete x) b (sn_cancelled x) (sn_has_join x) (sn_join_waker x) (sn_has_output x) (sn_refs x).
Definition snap_cancelled (b : bool) (x : snapshot) : snapshot :=
  MkSnap (sn_polling x) (sn_complete x) (sn_woken x) b (sn_has_join x) (sn_join_waker x) (sn_has_output x) (sn_refs x).
Definition snap_has_join (b : bool) (x : snapshot) : snapshot :=
  MkSnap (sn_polling x) (sn_complete x) (sn_woken x) (sn_cancelled x) b (sn_join_waker x) (sn_has_output x) (sn_refs x).
Definition snap_join_waker (j : JoinWakerState) (x : snapshot) : snapshot :=
  MkSnap (sn_polling x) (sn_complete x) (sn_woken x) (sn_cancelled x) (sn_has_join x) j (sn_has_output x) (sn_refs x).
Definition snap_has_output (b : bool) (x : snapshot) : snapshot :=
  MkSnap (sn_polling x) (sn_complete x) (sn_woken x) (sn_cancelled x) (sn_has_join x) (sn_join_waker x) b (sn_refs x).
Definition snap_refs (n : Z) (x : snapshot) : snapshot :=
  MkSnap (sn_polling x) (sn_complete x) (sn_woken x) (sn_cancelled x) (sn_has_join x) (sn_join_waker x) (sn_has_output x) n.

Definition jw_of_bits (bits : Z) : JoinWakerState :=
  if bits =? 1 then JW_Registering else if bits =? 2 then JW_Waiting else if bits =? 3 then JW_Woken else JW_Empty.

(** What each operation does to the unpacked state. *)
Module Snap.

Definition take_join_waker (should_wait : bool) (x : snapshot) : outcome (bool * bool * snapshot) :=
  match sn_join_waker x with
  | JW_Empty => Done (false, should_wait, x)
  | JW_Registering => if sn_has_join x then Done (true, true, x) else Panicked
  | JW_Waiting => if sn_has_join x then Done (true, false, snap_join_waker JW_Empty x) else Panicked
  | JW_Woken => Panicked
  end.

Definition start_poll (should_wait : bool) (x : snapshot) : outcome (StartPollAction * bool * snapshot) :=
  if sn_polling x || sn_complete x then Done (DontPoll, should_wait, x)
  else if sn_cancelled x then
    r ← take_join_waker should_wait x; Done (Cancelled r.1.1, r.1.2, r.2)
  else Done (Poll, should_wait, snap_woken false (snap_polling true x)).

Definition end_poll (completed should_wait : bool) (x : snapshot) : outcome (PollResult * bool * snapshot) :=
  if sn_polling x && negb (sn_complete x) && (0 <? sn_refs x) then
    let y := snap_complete completed (snap_polling false x) in
    if completed then
      r ← take_join_waker should_wait (snap_has_output true y);
      Done (if r.1.1 : bool then ReadyJoined else Ready, r.1.2, r.2)
    else Done (if sn_woken x then PendingSchedule else Pending, should_wait, y)
  else Panicked.

Definition try_join (_ : unit) (x : snapshot) : outcome (JoinAction * unit * snapshot) :=
  if sn_cancelled x then Done (Canceled (sn_has_output x), tt, x)
  else if sn_complete x && sn_has_output x then Done (TakeOutput, tt, snap_has_output false x)
  else match sn_join_waker x with
       | JW_Empty => Done (Register, tt, snap_join_waker JW_Registering x)
       | JW_Waiting => Done (Reregister, tt, snap_join_waker JW_Registering x)
       | _ => Panicked
       end.

Definition join_waker_registered (_ : unit) (x : snapshot) : outcome (unit * unit * snapshot) :=
  match sn_join_waker x with
  | JW_Registering => Done (tt, tt, snap_join_waker JW_Waiting (snap_has_join true x))
  | _ => Panicked
  end.

Definition wake_by_val (_ : unit) (x : snapshot) : outcome (WakeByValAction * unit * snapshot) :=
  if sn_polling x || sn_complete x || sn_woken x then Done (DropVal, tt, x)
  else Done (EnqueueVal, tt, snap_woken true x).

Definition wake_by_ref (_ : unit) (x : snapshot) : outcome (WakeByRefAction * unit * snapshot) :=
  if sn_complete x || sn_woken x then Done (NoneRef, tt, x)
  else Done (if sn_polling x then NoneRef else EnqueueRef, tt, snap_woken true x).

Definition cancel (_ : unit) (x : snapshot) : outcome (bool * unit * snapshot) :=
  if sn_cancelled x then Done (false, tt, x) else Done (true, tt, snap_woken true (snap_cancelled true x)).

Definition create_join_handle (_ : unit) (x : snapshot) : outcome (unit * unit * snapshot) :=
  if sn_has_join x then Panicked else Done (tt, tt, snap_has_join true x).

Definition add_ref (x : snapshot) : outcome (unit * snapshot) :=
  Done (tt, snap_refs (sn_refs x + 1) x).

Definition remove_ref (x : snapshot) : outcome (bool * snapshot) :=
  if sn_refs x =? 0 then Panicked else Done (sn_refs x =? 1, snap_refs (sn_refs x - 1) x).

Definition remove_join_handle (x : snapshot) : outcome (unit * snapshot) :=
  if sn_has_join x then Done (tt, snap_has_join false x) else Panicked.

End Snap.

Definition unpack `{Bitfield} (w : Z) : snapshot :=
  MkSnap (bf_flag POLLING w) (bf_flag COMPLETE w) (bf_flag WOKEN w) (bf_flag CANCELLED w)
    (bf_flag HAS_JOIN_HANDLE w) (jw_of_bits (bf_get JOIN_WAKER w)) (bf_flag HAS_OUTPUT w) (bf_get REFS w).

Section unpack.
Context {bf : Bitfield} {bfl : BitfieldLaws}.
Implicit Types w : Z.

(** Writing a field changes exactly its component. *)
Ltac unpack_write :=
  intros Hw; unfold unpack, set_join_waker, snap_polling, snap_complete, snap_woken, snap_cancelled, snap_has_join,
    snap_join_waker, snap_has_output; cbn [sn_polling sn_complete sn_woken sn_cancelled sn_has_join sn_join_waker sn_has_output sn_refs];
  f_equal; repeat first
    [ rewrite bf_flag_with_same by (done || solve_field) | rewrite bf_flag_with_other by (done || solve_field)
    | rewrite bf_get_with_flag_other by (done || solve_field) | done ].

Lemma unpack_polling b w : is_usize w -> unpack (bf_with_flag POLLING b w) = snap_polling b (unpack w).
Proof. unpack_write. Qed.
Lemma unpack_complete b w : is_usize w -> unpack (bf_with_flag COMPLETE b w) = snap_complete b (unpack w).
Proof. unpack_write. Qed.
Lemma unpack_woken b w : is_usize w -> unpack (bf_with_flag WOKEN b w) = snap_woken b (unpack w).
Proof. unpack_write. Qed.
Lemma unpack_cancelled b w : is_usize w -> unpack (bf_with_flag CANCELLED b w) = snap_cancelled b (unpack w).
Proof. unpack_write. Qed.
Lemma unpack_has_join b w : is_usize w -> unpack (bf_with_flag HAS_JOIN_HANDLE b w) = snap_has_join b (unpack w).
Proof. unpack_write. Qed.
Lemma unpack_has_output b w : is_usize w -> unpack (bf_with_flag HAS_OUTPUT b w) = snap_has_output b (unpack w).
Proof. unpack_write. Qed.

Lemma jw_bits_range j : 0 <= jw_into_bits j <= f_max JOIN_WAKER.
Proof. destruct j; solve_field. Qed.

Lemma unpack_join_waker j w : is_usize w -> unpack (set_join_waker j w) = snap_join_waker j (unpack w).
Proof.
  intros Hw. pose proof (jw_bits_range j). unfold unpack, set_join_waker, snap_join_waker. cbn [sn_polling sn_complete sn_woken sn_cancelled sn_has_join sn_join_waker sn_has_output sn_refs].
  f_equal; try (apply bf_flag_with_value_other; done || solve_field).
  - rewrite bf_get_with_same by (done || solve_field). by destruct j.
  - apply bf_get_with_other; done || solve_field.
Qed.

Lemma set_flag_usize f b w : field_ok f -> is_usize w -> is_usize (bf_with_flag f b w).
Proof. apply bf_with_flag_usize. Qed.

Lemma set_join_waker_usize j w : is_usize w -> is_usize (set_join_waker j w).
Proof. intros Hw. apply bf_with_usize; [solve_field | done | apply jw_bits_range]. Qed.

Lemma get_join_waker_unpack w : is_usize w -> get_join_waker w = Done (sn_join_waker (unpack w)).
Proof.
  intros Hw. unfold get_join_waker, jw_try_from_bits, unpack, jw_of_bits. cbn [sn_join_waker jw_into_bits].
  pose proof (bf_get_range JOIN_WAKER w ltac:(solve_field) Hw) as Hr. unfold f_max in Hr. cbn in Hr.
  repeat case_match; done || lia.
Qed.

(** [f] on the packed word computes [g] on the unpacked one: same answer, same
    captured variables, same panics. *)
Definition computes {A S} (f : S -> Z -> outcome (A * S * Z)) (g : S -> snapshot -> outcome (A * S * snapshot)) : Prop :=
  forall s w, is_usize w ->
    match f s w with
    | Done (a, s', w') => is_usize w' /\ g s (unpack w) = Done (a, s', unpack w')
    | Panicked => g s (unpack w) = Panicked
    | Undefined => False
    end.

(** The same for a single read-modify-write. *)
Definition computes_rmw {A} (f : Z -> outcome (A * Z)) (g : snapshot -> outcome (A * snapshot)) (P : snapshot -> Prop) : Prop :=
  forall w, is_usize w -> P (unpack w) ->
    match f w with
    | Done (a, w') => is_usize w' /\ g (unpack w) = Done (a, unpack w')
    | Panicked => g (unpack w) = Panicked
    | Undefined => False
    end.

(** Reads of the word are reads of the unpacked state, and so are updates. *)
Ltac unpack_reads :=
  unfold ref_count; repeat match goal with
  | |- context [bf_flag POLLING ?w] => change (bf_flag POLLING w) with (sn_polling (unpack w))
  | |- context [bf_flag COMPLETE ?w] => change (bf_flag COMPLETE w) with (sn_complete (unpack w))
  | |- context [bf_flag WOKEN ?w] => change (bf_flag WOKEN w) with (sn_woken (unpack w))
  | |- context [bf_flag CANCELLED ?w] => change (bf_flag CANCELLED w) with (sn_cancelled (unpack w))
  | |- context [bf_flag HAS_JOIN_HANDLE ?w] => change (bf_flag HAS_JOIN_HANDLE w) with (sn_has_join (unpack w))
  | |- context [bf_flag HAS_OUTPUT ?w] => change (bf_flag HAS_OUTPUT w) with (sn_has_output (unpack w))
  | |- context [bf_get REFS ?w] => change (bf_get REFS w) with (sn_refs (unpack w))
  end.

Ltac usize := repeat first [assumption | apply set_flag_usize; [solve_field |] | apply set_join_waker_usize].

Ltac unpack_writes :=
  repeat first [rewrite unpack_polling by usize | rewrite unpack_complete by usize | rewrite unpack_woken by usize
    | rewrite unpack_cancelled by usize | rewrite unpack_has_join by usize | rewrite unpack_has_output by usize
    | rewrite unpack_join_waker by usize].

(** Evaluate both sides, by cases on what is tested. *)
Ltac compute_step :=
  unfold mret, mbind, outcome_ret, outcome_bind, assert_;
  cbn -[unpack bf_with_flag set_join_waker REFS Z.ltb Z.eqb snap_polling snap_complete snap_woken snap_cancelled snap_has_join
        snap_join_waker snap_has_output snap_refs].

Ltac compute_cases :=
  compute_step;
  repeat match goal with
  | |- context [match ?x with _ => _ end] =>
      lazymatch x with
      | negb ?y => destruct y eqn:?
      | ?y && _ => destruct y eqn:?
      | ?y || _ => destruct y eqn:?
      | bool_decide ?P => destruct (bool_decide_reflect P)
      | context [match _ with _ => _ end] => fail
      | _ => destruct x eqn:?
      end; compute_step
  end;
  simplify_eq; try done; try (split; [by usize | by unpack_writes]).

Lemma has_join_waker_computes : computes has_join_waker Snap.take_join_waker.
Proof.
  intros s w Hw. unfold has_join_waker, Snap.take_join_waker. rewrite get_join_waker_unpack by done. unpack_reads.
  compute_cases.
Qed.

Lemma start_poll_computes : computes start_poll_fn Snap.start_poll.
Proof.
  intros s w Hw. unfold start_poll_fn, Snap.start_poll. pose proof (has_join_waker_computes s w Hw) as Hj. unpack_reads.
  destruct (has_join_waker s w) as [[[a b] w'] | |]; [destruct Hj as [Hw' ->] | rewrite Hj | done]; compute_cases.
Qed.

Lemma end_poll_computes completed : computes (end_poll_fn completed) (Snap.end_poll completed).
Proof.
  intros s w Hw. unfold end_poll_fn, Snap.end_poll.
  pose proof (has_join_waker_computes s (bf_with_flag HAS_OUTPUT true (bf_with_flag COMPLETE completed (bf_with_flag POLLING false w))) ltac:(usize)) as Hj.
  revert Hj. unpack_reads. unpack_writes. intros Hj.
  change (sn_woken (snap_complete completed (snap_polling false (unpack w)))) with (sn_woken (unpack w)).
  destruct (has_join_waker s _) as [[[a b] w'] | |]; [destruct Hj as [Hw' Hj] | | done]; destruct completed; compute_cases.
Qed.

Lemma try_join_computes : computes try_join_fn Snap.try_join.
Proof.
  intros s w Hw. unfold try_join_fn, should_register, Snap.try_join. rewrite get_join_waker_unpack by done. unpack_reads.
  compute_cases.
Qed.

Lemma join_waker_registered_computes : computes join_waker_registered_fn Snap.join_waker_registered.
Proof.
  intros s w Hw. unfold join_waker_registered_fn, Snap.join_waker_registered. rewrite get_join_waker_unpack by done. unpack_reads.
  compute_cases.
Qed.

Lemma wake_by_val_computes : computes wake_by_val_fn Snap.wake_by_val.
Proof. intros s w Hw. unfold wake_by_val_fn, Snap.wake_by_val. unpack_reads. compute_cases. Qed.

Lemma wake_by_ref_computes : computes wake_by_ref_fn Snap.wake_by_ref.
Proof. intros s w Hw. unfold wake_by_ref_fn, Snap.wake_by_ref. unpack_reads. compute_cases. Qed.

Lemma cancel_computes : computes cancel_fn Snap.cancel.
Proof. intros s w Hw. unfold cancel_fn, Snap.cancel. unpack_reads. compute_cases. Qed.

Lemma create_join_handle_computes : computes create_join_handle_fn Snap.create_join_handle.
Proof. intros s w Hw. unfold create_join_handle_fn, Snap.create_join_handle. unpack_reads. compute_cases. Qed.

(** The count occupies the upper bits, so it can be counted up and down there. *)
Lemma bf_get_div f w : field_ok f -> is_usize w -> bf_get f w = (w / 2 ^ f_lsb f) mod 2 ^ f_width f.
Proof.
  intros Hf Hw. apply Z.bits_inj'. intros i Hi. rewrite bf_get_spec by done. destruct Hf as (H1 & H2 & H3).
  rewrite <- Z.shiftr_div_pow2 by lia. destruct (Z.ltb_spec i (f_width f)).
  - by rewrite Z.mod_pow2_bits_low, Z.shiftr_spec by lia.
  - by rewrite Z.mod_pow2_bits_high by lia.
Qed.

Lemma bf_get_add_refs f n w :
  field_ok f -> f_end f <= f_lsb REFS -> is_usize w -> is_usize (w + n * REF_ONE) -> bf_get f (w + n * REF_ONE) = bf_get f w.
Proof.
  intros Hf He Hw Hw'. rewrite !bf_get_div by done. destruct Hf as (H1 & H2 & H3). unfold f_end in *. unfold REF_ONE.
  replace (f_lsb REFS) with ((f_lsb REFS - f_end f) + f_width f + f_lsb f) by (unfold f_end; lia).
  rewrite !Z.pow_add_r by (unfold f_end; lia). pose proof (pow2_pos (f_lsb f) ltac:(lia)).
  replace (n * (2 ^ (f_lsb REFS - f_end f) * 2 ^ f_width f * 2 ^ f_lsb f))
    with (n * 2 ^ (f_lsb REFS - f_end f) * 2 ^ f_width f * 2 ^ f_lsb f) by lia.
  rewrite Z.div_add by lia. pose proof (pow2_pos (f_width f) ltac:(lia)). by rewrite Z.mod_add by lia.
Qed.

Lemma refs_div w : is_usize w -> bf_get REFS w = w / REF_ONE.
Proof.
  intros Hw. rewrite bf_get_div by (done || solve_field). unfold REF_ONE. rewrite Z.mod_small; [done |]. unfold is_usize in Hw.
  change (2 ^ f_lsb REFS) with 256. change (2 ^ f_width REFS) with 72057594037927936. split; [apply Z.div_pos; lia |].
  apply Z.div_lt_upper_bound; lia.
Qed.

Lemma unpack_add_refs n w :
  is_usize w -> 0 <= sn_refs (unpack w) + n < 2 ^ f_width REFS ->
  is_usize (w + n * REF_ONE) /\ unpack (w + n * REF_ONE) = snap_refs (sn_refs (unpack w) + n) (unpack w).
Proof.
  intros Hw Hn. assert (Hw' : is_usize (w + n * REF_ONE)).
  { cbn [unpack sn_refs] in Hn. rewrite refs_div in Hn by done. change (2 ^ f_width REFS) with 72057594037927936 in Hn.
    pose proof (Z.div_mod w REF_ONE ltac:(done)) as Hd. pose proof (Z.mod_pos_bound w REF_ONE ltac:(done)).
    unfold is_usize, REF_ONE in *. change (2 ^ f_lsb REFS) with 256 in *. lia. }
  split; [done |]. unfold unpack, snap_refs, bf_flag. cbn [sn_polling sn_complete sn_woken sn_cancelled sn_has_join sn_join_waker sn_has_output sn_refs].
  rewrite !(bf_get_add_refs _ n w) by (done || solve_field). f_equal.
  rewrite !refs_div by done. by rewrite Z.div_add by done.
Qed.

Lemma clone_ref_computes : computes_rmw clone_ref Snap.add_ref (fun x => sn_refs x < f_max REFS).
Proof.
  intros w Hw Hr. destruct (unpack_add_refs 1 w Hw) as [Hw' Hu].
  { pose proof (bf_get_nonneg REFS w ltac:(solve_field) Hw). cbn [unpack sn_refs] in *. unfold f_max in Hr. lia. }
  rewrite Z.mul_1_l in Hw', Hu. unfold clone_ref, Snap.add_ref, wrapping_add.
  pose proof (bf_get_range REFS w ltac:(solve_field) Hw). unfold is_usize in Hw'.
  rewrite (proj2 (Z.ltb_lt w _)) by (change REF_ONE with 256 in Hw'; lia).
  rewrite (proj2 (Z.ltb_lt (bf_get REFS w) _)) by (unfold f_max in *; change REF_MAX with (2 ^ 64 - 2 ^ 8); cbn in *; lia).
  unfold mbind, outcome_bind, mret, outcome_ret, assert_. rewrite wrap_small by done. by rewrite <- Hu.
Qed.

Lemma drop_ref_computes : computes_rmw drop_ref Snap.remove_ref (fun _ => True).
Proof.
  intros w Hw _. unfold drop_ref, Snap.remove_ref. unpack_reads. pose proof (bf_get_range REFS w ltac:(solve_field) Hw) as Hr.
  change (bf_get REFS w) with (sn_refs (unpack w)) in Hr. destruct (Z.eqb_spec (sn_refs (unpack w)) 0) as [| Hne]; [done |].
  destruct (unpack_add_refs (-1) w Hw) as [Hw' Hu]; [unfold f_max in Hr; lia |]. cbn -[unpack REFS Z.ltb Z.eqb]. unfold wrapping_sub.
  replace (w + -1 * REF_ONE) with (w - REF_ONE) in * by lia. rewrite wrap_small by done. split; [done |]. rewrite Hu. do 3 f_equal.
  destruct (Z.eqb_spec (sn_refs (unpack w)) 1), (Z.ltb_spec 1 (sn_refs (unpack w))); done || lia.
Qed.

Lemma clear_has_join w : is_usize w -> Z.land w (USIZE_MOD - 1 - 2 ^ f_lsb HAS_JOIN_HANDLE) = bf_with_flag HAS_JOIN_HANDLE false w.
Proof.
  intros Hw. apply Z.bits_inj'. intros i Hi. unfold bf_with_flag.
  rewrite bf_with_spec by (done || solve_field || (cbn; lia)).
  change (USIZE_MOD - 1 - 2 ^ f_lsb HAS_JOIN_HANDLE) with (Z.ldiff (Z.ones 64) (2 ^ 4)).
  rewrite Z.land_spec, Z.ldiff_spec, Z.testbit_ones_nonneg, Z.pow2_bits_eqb by lia. change (f_end HAS_JOIN_HANDLE) with (4 + 1). cbn [HAS_JOIN_HANDLE f_lsb].
  destruct (Z.leb_spec 4 i), (Z.ltb_spec i (4 + 1)), (Z.eqb_spec 4 i); try lia; cbn [andb negb];
    rewrite ?Z.bits_0, ?andb_false_r, ?andb_true_r; try done.
  all: destruct (Z.ltb_spec i 64); cbn [andb]; rewrite ?andb_true_r, ?andb_false_r; try done; by rewrite testbit_usize_high by (done || lia).
Qed.

Lemma drop_join_handle_computes : computes_rmw drop_join_handle Snap.remove_join_handle (fun _ => True).
Proof.
  intros w Hw _. unfold drop_join_handle, Snap.remove_join_handle. rewrite clear_has_join by done. unpack_reads. compute_cases.
Qed.

End unpack.

(** ** The loop is atomic *)

Section atomicity.
Context {A S : Type} (f : S -> Z -> outcome (A * S * Z)).

(** [R] relates the captured variables to the word, at every moment. *)
Definition loop_ok (R : S -> Z -> Prop) (t : cas_loop A S) (w : Z) : Prop :=
  match t with
  | Loading s => R s w
  | Swapping current next a s => R s w /\ exists s0, R s0 current /\ f s0 current = Done (a, s, next)
  | Returned _ _ => False
  end.

Definition loop_keeps (R : S -> Z -> Prop) : Prop := forall s w a s' w', R s w -> f s w = Done (a, s', w') -> R s' w.

(** An access either leaves the word alone and the loop running, or it is the
    closure run atomically on the word it finds. *)
Lemma transition_step_cases R spurious t w t' w' :
  loop_keeps R -> loop_ok R t w -> transition_step f spurious t w = Done (t', w') ->
  (w' = w /\ loop_ok R t' w)
  \/ (exists a s s0, t' = Returned a s /\ R s0 w /\ f s0 w = Done (a, s, w')).
Proof.
  intros Hk Hok Hs.
  assert (Hatt : forall s, R s w -> (t' ← attempt f s w; mret (t', w)) = Done (t', w') ->
    (w' = w /\ loop_ok R t' w) \/ (exists a s s0, t' = Returned a s /\ R s0 w /\ f s0 w = Done (a, s, w'))).
  { intros s HR. unfold attempt. destruct (f s w) as [[[a s'] w1] | |] eqn:Ef; cbn; [| done..].
    intros [= <- <-]. destruct (Z.eqb_spec w w1) as [Hw |]; [right | left].
    - exists a, s', s. split_and!; [done | done | by rewrite Hw at 2].
    - split; [done |]. split; [by eapply Hk | by exists s]. }
  destruct t as [s | cur next a s |]; cbn [transition_step loop_ok] in *; [by apply (Hatt s) | | done].
  destruct Hok as (HR & s0 & HR0 & Ef). destruct (Z.eqb_spec w cur) as [-> |]; cbn [andb] in Hs; [| by apply (Hatt s)].
  destruct spurious; cbn [negb] in Hs; [by apply (Hatt s) |]. injection Hs as <- <-. right. by exists a, s, s0.
Qed.

Lemma transition_step_panics R spurious t w :
  loop_ok R t w -> transition_step f spurious t w = Panicked -> exists s0, R s0 w /\ f s0 w = Panicked.
Proof.
  intros Hok Hs.
  assert (Hatt : forall s, R s w -> (t' ← attempt f s w; mret (t', w)) = Panicked -> exists s0, R s0 w /\ f s0 w = Panicked).
  { intros s HR. unfold attempt. destruct (f s w) as [[[a s'] w1] | |] eqn:Ef; cbn; [done | | done]. by exists s. }
  destruct t as [s | cur next a s |]; cbn [transition_step loop_ok] in *; [by apply (Hatt s) | | done].
  destruct Hok as (HR & _). destruct ((w =? cur) && negb spurious); [done | by apply (Hatt s)].
Qed.

(** A schedule: other threads write the word, or this one accesses it. *)
Inductive event : Type := Others (w : Z) | Own (spurious : bool).

(** The run of a schedule, with the log of this thread's accesses. *)
Fixpoint run (evs : list event) (t : cas_loop A S) (w : Z) : outcome (cas_loop A S * Z * list (Z * Z)) :=
  match evs, t with
  | [], _ => mret (t, w, [])
  | Others w' :: evs', _ => run evs' t w'
  | Own _ :: evs', Returned a s => run evs' t w
  | Own spurious :: evs', _ =>
      r ← transition_step f spurious t w;
      q ← run evs' r.1 r.2;
      mret (q.1, (w, r.2) :: q.2)
  end.

Lemma run_returned evs a s w t' w' l : run evs (Returned a s) w = Done (t', w', l) -> t' = Returned a s /\ l = [].
Proof.
  revert w. induction evs as [| [w1 | b] evs IH]; intros w; cbn; [intros [= <- <- <-]; done | apply IH | apply IH].
Qed.

Lemma run_atomic evs t w a s w' l :
  loop_ok (fun _ _ => True) t w -> run evs t w = Done (Returned a s, w', l) ->
  exists l0 v v' s0, l = l0 ++ [(v, v')] /\ Forall (fun p => p.1 = p.2) l0 /\ f s0 v = Done (a, s, v').
Proof.
  revert t w l. induction evs as [| [w1 | b] evs IH]; intros t w l Hok; [by destruct t | |].
  - intros E. assert (E' : run evs t w1 = Done (Returned a s, w', l)) by by destruct t. by apply (IH t w1).
  - intros E. assert (E' : (r ← transition_step f b t w; q ← run evs r.1 r.2; mret (q.1, (w, r.2) :: q.2)) = Done (Returned a s, w', l))
      by (by destruct t). clear E.
    destruct (transition_step f b t w) as [[t1 w1] | |] eqn:Es; cbn in E'; [| done..].
    destruct (run evs t1 w1) as [[q l1] | |] eqn:Er; cbn in E'; [| done..]. injection E' as -> <-.
    destruct (transition_step_cases (fun _ _ => True) b t w t1 w1 ltac:(done) Hok Es) as [[-> Hok1] | (a1 & s1 & s0 & -> & _ & Ef)].
    + destruct (IH t1 w l1 Hok1 Er) as (l0 & v & v' & s0 & -> & Hl & Ef). exists ((w, w) :: l0), v, v', s0. split_and!; [done | by constructor | done].
    + destruct (run_returned _ _ _ _ _ _ _ Er) as [[= <- <-] ->]. by exists [], w, w1, s0.
Qed.

(** C31: [transition] is atomic.  However other threads write the word in
    between, and however often the weak exchange fails, when [transition]
    returns exactly its last access took effect: there the closure computed
    the answer from the word it found and the word became what the closure
    made of it; all accesses before it changed nothing. *)
Theorem transition_atomic evs s w a s' w' l :
  run evs (Loading s) w = Done (Returned a s', w', l) ->
  exists l0 v v' s0, l = l0 ++ [(v, v')] /\ Forall (fun p => p.1 = p.2) l0 /\ f s0 v = Done (a, s', v').
Proof. by apply run_atomic. Qed.

(** [transition] is lock-free: wherever the loop is, two accesses that
    do not fail spuriously and during which no other thread writes the word
    are enough for it to return. *)
Theorem transition_progress t w :
  (forall s v, exists r, f s v = Done r) ->
  exists a s w' l, run [Own false; Own false] t w = Done (Returned a s, w', l).
Proof.
  intros Hf.
  assert (H1 : forall s, exists t', (t' ← attempt f s w; mret (t', w)) = Done (t', w)
    /\ (exists a s1, t' = Returned a s1 \/ exists next, t' = Swapping w next a s1)).
  { intros s. unfold attempt. destruct (Hf s w) as [[[a s1] w1] ->]. cbn. eexists. split; [done |]. exists a, s1.
    destruct (w =? w1); [by left | right; by exists w1]. }
  assert (H2 : forall a s next, transition_step f false (Swapping w next a s) w = Done (Returned a s, next)).
  { intros a s next. cbn. by rewrite Z.eqb_refl. }
  destruct t as [s | cur next a s | a s]; [| | by exists a, s, w, []].
  - destruct (H1 s) as (t' & E & a & s1 & [-> | [next ->]]); cbn [run transition_step]; rewrite E; cbn [mbind outcome_bind fst snd].
    + by exists a, s1, w, [(w, w)].
    + rewrite H2. by exists a, s1, next, [(w, w); (w, next)].
  - cbn [run]. destruct (Z.eqb_spec w cur) as [<- |].
    + rewrite H2. by exists a, s, next, [(w, next)].
    + cbn [transition_step]. rewrite (proj2 (Z.eqb_neq w cur)) by done. cbn [andb].
      destruct (H1 s) as (t' & E & a' & s1 & [-> | [next' ->]]); rewrite E; cbn [mbind outcome_bind fst snd].
      * by exists a', s1, w, [(w, w)].
      * rewrite H2. by exists a', s1, next', [(w, w); (w, next')].
Qed.

End atomicity.

(** ** Concrete runs, with fields packed by shifts and masks *)

(** Another thread drops its reference between load and exchange. *)
Lemma transition_atomic_witness :
  exists l0 v v' s0, [(0x200, 0x200); (0x100, 0x100); (0x100, 0x104)] = l0 ++ [(v, v')] /\ Forall (fun p => p.1 = p.2) l0
    /\ @wake_by_ref_fn shift_mask s0 v = Done (EnqueueRef, tt, v').
Proof.
  apply (transition_atomic (@wake_by_ref_fn shift_mask) [Own false; Others 0x100; Own false; Own false] tt 0x200 EnqueueRef tt 0x104).
  reflexivity.
Defined.

Lemma transition_progress_witness :
  exists a s w' l, run (@wake_by_ref_fn shift_mask) [Own false; Own false] (Swapping 0x200 0x204 EnqueueRef tt) 0x100
    = Done (Returned a s, w', l).
Proof.
  apply (transition_progress (@wake_by_ref_fn shift_mask)). intros s v. unfold wake_by_ref_fn.
  destruct (_ || _); [eexists; reflexivity |]. destruct (bf_flag POLLING v); eexists; reflexivity.
Defined.

(** The guard of [clone_ref] compares the count with the mask of its bits, not
    with the largest count, and never fires: one more reference wraps the
    count to zero. *)
Example ref_count_wraps :
  @clone_ref shift_mask (f_max REFS * REF_ONE) = Done (tt, 0) /\ @refcount shift_mask (f_max REFS * REF_ONE) = 2 ^ 56 - 1.
Proof. by vm_compute. Qed.

(** A wake by value during a poll leaves no trace, and the poll ends idle. *)
Example wake_by_val_during_poll :
  @wake_by_val_fn shift_mask tt 0x101 = Done (DropVal, tt, 0x101)
  /\ @end_poll_fn shift_mask false false 0x101 = Done (Pending, false, 0x100).
Proof. by vm_compute. Qed.
