(* ===== verification/Task.v ===== *)
(** * Tasks shared between harts (sys/async/src/task.rs,
      sys/async/src/task/join_handle.rs)

    A task is polled by an executor, woken through wakers and awaited through
    its [JoinHandle], all concurrently.  Everybody who takes part is an
    [agent]: where it is in the function it executes.  [agent_step] performs
    its next access to shared memory - one atomic access to the state word, or
    one access to the future or to the join waker -, so that interleavings of
    agents are the executions of the code on several harts under sequential
    consistency.  What the environment decides is an argument: which operation
    an idle reference performs next, what the future answers when it is polled
    and whether a weak exchange fails spuriously.

    [TaskRef::cancel] ends in a [todo!()]: no agent cancels the task. *)

From stdpp Require Import base numbers list.
From Stdlib Require Import ZArith Lia.
From S2P Require Import Prelude Bitfield Interleaving TaskState.

(** ** The task *)

Inductive JoinErrorKind : Type := JoinCancelled (completed : bool) | JoinPanic.

(** The life cycle of the future: itself, or its output. *)
Inductive Stage (O : Type) : Type :=
| StPending
| StReady (output : result JoinErrorKind O)
| StConsumed.
Arguments StPending {O}.
Arguments StReady {O} _.
Arguments StConsumed {O}.

(** What the future answers; [FutPanics] is caught by [catch_unwind]. *)
Inductive future_answer (O : Type) : Type := FutPending | FutReady (output : O) | FutPanics.
Arguments FutPending {O}.
Arguments FutReady {O} _.
Arguments FutPanics {O}.

(** The memory of a task; wakers are represented by numbers. *)
Record task (O : Type) : Type := MkTask {
  t_state : Z;
  t_stage : Stage O;
  t_join_waker : option Z;
  t_freed : bool;
}.
Arguments MkTask {O} _ _ _ _.
Arguments t_state {O} _.
Arguments t_stage {O} _.
Arguments t_join_waker {O} _.
Arguments t_freed {O} _.

(** [Stage::poll]: is it ready, and the new stage.  Polling a stage that is
    not pending is a panic inside [catch_unwind]. *)
Definition stage_poll {O} (ans : future_answer O) (stage : Stage O) : bool * Stage O :=
  match stage, ans with
  | StPending, FutPending => (false, StPending)
  | StPending, FutReady ready => (true, StReady (Ok ready))
  | _, _ => (true, StReady (Err JoinPanic))
  end.

Definition take_output {O} (stage : Stage O) : outcome (result JoinErrorKind O * Stage O) :=
  match stage with
  | StReady output => Done (output, StConsumed)
  | _ => Panicked
  end.

(** [TaskRef::new_allocated]: one reference for the scheduler, one for the join handle. *)
Definition new_allocated `{Bitfield} : outcome Z :=
  _ ← assert_ (refcount state_new =? 1);
  c ← clone_ref state_new;
  h ← create_join_handle_fn tt c.2;
  mret h.2.

(** [TaskRef::cancel]: waking the cancelled task is not implemented. *)
Definition task_cancel `{Bitfield} (w : Z) : outcome (bool * Z) :=
  r ← cancel_fn tt w;
  if r.1.1 : bool then Panicked else mret (r.1.1, r.2).

(** ** Agents *)

(** In [Task::poll]. *)
Inductive poller : Type :=
| P_start (t : cas_loop StartPollAction bool)      (* [start_poll] *)
| P_start_wait (t : wait_loop) (a : StartPollAction)
| P_polling                                        (* inside the future *)
| P_self_wake (t : cas_loop WakeByRefAction unit)  (* which wakes itself *)
| P_self_schedule
| P_end (completed : bool) (t : cas_loop PollResult bool) (* [end_poll] *)
| P_end_wait (t : wait_loop) (r : PollResult)
| P_wake_join (r : PollResult)                     (* [wake_join_waker] *)
| P_done (r : PollResult).

(** In [JoinHandle::poll] or [JoinHandle::drop]. *)
Inductive joiner : Type :=
| J_idle
| J_try (waker : Z) (t : cas_loop JoinAction unit)
| J_register (waker : Z)
| J_reregister (waker : Z)
| J_registered (t : cas_loop unit unit)
| J_take
| J_drop.

Inductive agent : Type :=
| Ref                                               (* a [TaskRef] or a waker at rest *)
| WakeVal (t : cas_loop WakeByValAction unit)       (* [TaskRef::wake] *)
| WakeRef (t : cas_loop WakeByRefAction unit)       (* [TaskRef::wake_by_val], by reference *)
| WakeClone                                         (* which clones itself to schedule *)
| Scheduling                                        (* about to be enqueued *)
| Queued                                            (* in the run queue *)
| Dropping                                          (* [TaskRef::drop] *)
| Deallocating
| Poller (p : poller)
| Handle (j : joiner).

(** What an agent does next, where it has a choice. *)
Inductive choice (O : Type) : Type :=
| Go (spurious : bool)
| DoClone
| DoDrop
| DoWake
| DoWakeByRef
| DoJoin (waker : Z)
| FutureAnswers (ans : future_answer O).
Arguments Go {O} _.
Arguments DoClone {O}.
Arguments DoDrop {O}.
Arguments DoWake {O}.
Arguments DoWakeByRef {O}.
Arguments DoJoin {O} _.
Arguments FutureAnswers {O} _.

Section steps.
Context {bf : Bitfield} {O : Type}.
Implicit Types (t : task O) (c : choice O).

Definition with_state (w : Z) t : task O := MkTask w (t_stage t) (t_join_waker t) (t_freed t).
Definition with_stage (st : Stage O) t : task O := MkTask (t_state t) st (t_join_waker t) (t_freed t).
Definition with_waker (wk : option Z) t : task O := MkTask (t_state t) (t_stage t) wk (t_freed t).
Definition with_freed t : task O := MkTask (t_state t) (t_stage t) (t_join_waker t) true.

(** An access of a [transition] loop: [running] if it goes on, [returned]
    with its answer. *)
Definition on_loop {A S} (f : S -> Z -> outcome (A * S * Z)) (spurious : bool) (l : cas_loop A S)
    (running : cas_loop A S -> agent) (returned : A -> S -> outcome (list agent)) t : outcome (list agent * task O) :=
  r ← transition_step f spurious l (t_state t);
  ags ← match r.1 with
        | Returned a s => returned a s
        | l' => mret [running l']
        end;
  mret (ags, with_state r.2 t).

(** [TaskRef::clone] *)
Definition on_clone (ags : list agent) t : outcome (list agent * task O) :=
  r ← clone_ref (t_state t);
  mret (ags, with_state r.2 t).

(** After [start_poll] returned. *)
Definition after_start_poll (a : StartPollAction) : agent :=
  match a with
  | Poll => Poller P_polling
  | DontPoll => Poller (P_done Ready)
  | Cancelled wake_join_waker => if wake_join_waker then Poller (P_wake_join ReadyJoined) else Poller (P_done Ready)
  end.

(** After [end_poll] returned. *)
Definition after_end_poll (r : PollResult) : agent :=
  match r with ReadyJoined => Poller (P_wake_join r) | _ => Poller (P_done r) end.

Definition poll_step (p : poller) c t : outcome (list agent * task O) :=
  match p, c with
  | P_start l, Go b =>
      on_loop start_poll_fn b l (fun l' => Poller (P_start l'))
        (fun a should_wait =>
           if should_wait : bool then
             _ ← assert_ (match a with Cancelled _ => true | _ => false end);
             mret [Poller (P_start_wait Wait_load a)]
           else mret [after_start_poll a]) t
  | P_start_wait l a, Go b =>
      let r := wait_step b l (t_state t) in
      mret ([match r.1 with Waited => after_start_poll a | l' => Poller (P_start_wait l' a) end], with_state r.2 t)
  | P_polling, DoClone => on_clone [Poller P_polling; Ref] t
  | P_polling, DoWakeByRef => mret ([Poller (P_self_wake (Loading tt))], t)
  | P_polling, FutureAnswers ans =>
      let r := stage_poll ans (t_stage t) in
      mret ([Poller (P_end r.1 (Loading false))], with_stage r.2 t)
  | P_self_wake l, Go b =>
      on_loop wake_by_ref_fn b l (fun l' => Poller (P_self_wake l'))
        (fun a _ => mret [match a with EnqueueRef => Poller P_self_schedule | NoneRef => Poller P_polling end]) t
  | P_self_schedule, Go _ => on_clone [Poller P_polling; Scheduling] t
  | P_end completed l, Go b =>
      on_loop (end_poll_fn completed) b l (fun l' => Poller (P_end completed l'))
        (fun r should_wait =>
           if should_wait : bool then
             _ ← assert_ (bool_decide (r = ReadyJoined));
             mret [Poller (P_end_wait Wait_load r)]
           else mret [after_end_poll r]) t
  | P_end_wait l r, Go b =>
      let q := wait_step b l (t_state t) in
      mret ([match q.1 with Waited => after_end_poll r | l' => Poller (P_end_wait l' r) end], with_state q.2 t)
  | P_wake_join r, Go _ => mret ([Poller (P_done r)], with_waker None t)
  | P_done r, Go _ => mret ([match r with PendingSchedule => Scheduling | _ => Dropping end], t)
  | _, _ => mret ([Poller p], t)
  end.

Definition join_step (j : joiner) c t : outcome (list agent * task O) :=
  match j, c with
  | J_idle, DoJoin waker => mret ([Handle (J_try waker (Loading tt))], t)
  | J_idle, DoDrop => mret ([Handle J_drop], t)
  | J_try waker l, Go b =>
      on_loop try_join_fn b l (fun l' => Handle (J_try waker l'))
        (fun a _ => mret [Handle match a with
                                 | TakeOutput => J_take
                                 | Canceled completed => if completed then J_take else J_drop
                                 | Register => J_register waker
                                 | Reregister => J_reregister waker
                                 end]) t
  | J_register waker, Go _ => mret ([Handle (J_registered (Loading tt))], with_waker (Some waker) t)
  | J_reregister waker, Go _ =>
      match t_join_waker t with
      | None => Panicked
      | Some old => mret ([Handle (J_registered (Loading tt))], with_waker (Some (if old =? waker then old else waker)) t)
      end
  | J_registered l, Go b =>
      on_loop join_waker_registered_fn b l (fun l' => Handle (J_registered l')) (fun _ _ => mret [Handle J_idle]) t
  | J_take, Go _ =>
      r ← take_output (t_stage t);
      mret ([Handle J_drop], with_stage r.2 t)
  | J_drop, Go _ =>
      r ← drop_join_handle (t_state t);
      mret ([Dropping], with_state r.2 t)
  | _, _ => mret ([Handle j], t)
  end.

(** One access of an agent: the agents it turns into, and the task.  An access
    to a task that has been deallocated is undefined. *)
Definition agent_step (ag : agent) c t : outcome (list agent * task O) :=
  if t_freed t then Undefined else
  match ag, c with
  | Ref, DoClone => on_clone [Ref; Ref] t
  | Ref, DoDrop => mret ([Dropping], t)
  | Ref, DoWake => mret ([WakeVal (Loading tt)], t)
  | Ref, DoWakeByRef => mret ([WakeRef (Loading tt)], t)
  | WakeVal l, Go b =>
      on_loop wake_by_val_fn b l WakeVal
        (fun a _ => mret [match a with EnqueueVal => Scheduling | DropVal => Dropping end]) t
  | WakeRef l, Go b =>
      on_loop wake_by_ref_fn b l WakeRef
        (fun a _ => mret [match a with EnqueueRef => WakeClone | NoneRef => Ref end]) t
  | WakeClone, Go _ => on_clone [Ref; Scheduling] t
  | Scheduling, Go _ => mret ([Queued], t)
  | Queued, Go _ => mret ([Poller (P_start (Loading false))], t)
  | Dropping, Go _ =>
      r ← drop_ref (t_state t);
      mret (if r.1 : bool then [Deallocating] else [], with_state r.2 t)
  | Deallocating, Go _ =>
      _ ← assert_ (ref_count (t_state t) =? 0);
      mret ([], with_freed t)
  | Poller p, _ => poll_step p c t
  | Handle j, _ => join_step j c t
  | _, _ => mret ([ag], t)
  end.

End steps.

(** ** The system *)

(** The task, everybody who refers to it, and two history variables: whether a
    wake took effect since the last poll began, and whether one did that
    [wake_by_val] ignored because the task was being polled. *)
Record system (O : Type) : Type := MkSystem {
  sy_task : task O;
  sy_agents : list agent;
  sy_notified : bool;
  sy_ignored : bool;
}.
Arguments MkSystem {O} _ _ _ _.
Arguments sy_task {O} _.
Arguments sy_agents {O} _.
Arguments sy_notified {O} _.
Arguments sy_ignored {O} _.

Section system.
Context {bf : Bitfield} {O : Type}.

Definition ref_of (ag : agent) : Z := match ag with Deallocating => 0 | _ => 1 end.

(** The history variables after a step of [ag] on the word [w] that produced [ags]. *)
Definition history (ag : agent) (w : Z) (ags : list agent) (h : bool * bool) : bool * bool :=
  match ag, ags with
  | WakeVal _, [Scheduling] => (true, h.2)
  | WakeVal _, [Dropping] => (true, h.2 || bf_flag POLLING w && negb (bf_flag WOKEN w))
  | WakeRef _, ([Ref] | [WakeClone]) => (true, h.2)
  | Poller (P_self_wake _), ([Poller P_polling] | [Poller P_self_schedule]) => (true, h.2)
  | Poller (P_start _), [Poller P_polling] => (false, false)
  | _, _ => h
  end.

(** Any agent performs its next access.  The number of references fits the
    count of the state word. *)
Inductive system_step : system O -> system O -> Prop :=
| sys_step t l1 ag l2 n i c ags t' :
    agent_step ag c t = Done (ags, t') ->
    total ref_of (l1 ++ ags ++ l2) <= f_max REFS ->
    system_step (MkSystem t (l1 ++ ag :: l2) n i)
      (MkSystem t' (l1 ++ ags ++ l2) (history ag (t_state t) ags (n, i)).1 (history ag (t_state t) ags (n, i)).2).

(** A spawned task: a reference in the run queue and the join handle. *)
Definition spawned (w : Z) : system O :=
  MkSystem (MkTask w StPending None false) [Queued; Handle J_idle] false false.

Inductive reachable : system O -> Prop :=
| reach_init w : new_allocated = Done w -> reachable (spawned w)
| reach_step s s' : reachable s -> system_step s s' -> reachable s'.

(** An agent whose next access panics. *)
Definition panics (s : system O) (ag : agent) : Prop :=
  ag ∈ sy_agents s /\ exists c, agent_step ag c (sy_task s) = Panicked.

End system.

(** ** The invariant *)

(** Who may schedule or poll the task. *)
Definition token_of (ag : agent) : Z :=
  match ag with
  | Queued | Scheduling | WakeClone => 1
  | Poller (P_start _ | P_polling | P_self_wake _ | P_self_schedule | P_end _ _ | P_done PendingSchedule) => 1
  | _ => 0
  end.

(** Who is between [start_poll] and [end_poll]. *)
Definition polling_of (ag : agent) : Z :=
  match ag with Poller (P_polling | P_self_wake _ | P_self_schedule | P_end _ _) => 1 | _ => 0 end.

(** Who wakes the join waker after the task completed. *)
Definition finishing_of (ag : agent) : Z :=
  match ag with Poller (P_end_wait _ _ | P_wake_join _) => 1 | _ => 0 end.

Definition handle_of (ag : agent) : Z := match ag with Handle _ => 1 | _ => 0 end.

(** The join handle while it writes the join waker. *)
Definition writing_of (ag : agent) : Z :=
  match ag with Handle (J_register _ | J_reregister _ | J_registered _) => 1 | _ => 0 end.

(** The join handle before it takes the output. *)
Definition joining_of (ag : agent) : Z := match ag with Handle (J_take | J_drop) => 0 | Handle _ => 1 | _ => 0 end.
Definition taking_of (ag : agent) : Z := match ag with Handle J_take => 1 | _ => 0 end.

(** Who may wake the task. *)
Definition waker_of (ag : agent) : Z := match ag with Ref | WakeVal _ | WakeRef _ | WakeClone => 1 | _ => 0 end.

Definition freeing_of (ag : agent) : Z := match ag with Deallocating => 1 | _ => 0 end.

(** The executor has to wait for a join waker, or to wake it. *)
Definition jw_set (x : snapshot) : bool :=
  match sn_join_waker x with JW_Registering | JW_Waiting => true | _ => false end.

Definition is_ready {O} (st : Stage O) : bool := match st with StReady _ => true | _ => false end.
Definition is_pending {O} (st : Stage O) : bool := match st with StPending => true | _ => false end.
Definition is_some {A} (o : option A) : bool := match o with Some _ => true | None => false end.

Section invariant.
Context {bf : Bitfield} {O : Type}.
Implicit Types (t : task O).

(** What the captured flag of [start_poll] and [end_poll] says. *)
Definition start_flag (b : bool) (w : Z) : Prop := b = false /\ sn_cancelled (unpack w) = false.
Definition end_flag (completed b : bool) (w : Z) : Prop :=
  is_usize w /\ (b = true -> completed = true /\ jw_set (unpack w) = true).
Definition any_flag {S} (_ : S) (_ : Z) : Prop := True.

Definition local_ok t (ag : agent) : Prop :=
  let x := unpack (t_state t) in
  match ag with
  | WakeVal l => loop_ok wake_by_val_fn any_flag l (t_state t)
  | WakeRef l => loop_ok wake_by_ref_fn any_flag l (t_state t)
  | Poller (P_start l) => loop_ok start_poll_fn start_flag l (t_state t)
  | Poller P_polling => is_pending (t_stage t) = true
  | Poller (P_self_wake l) => is_pending (t_stage t) = true /\ loop_ok wake_by_ref_fn any_flag l (t_state t)
  | Poller (P_end completed l) =>
      loop_ok (end_poll_fn completed) (end_flag completed) l (t_state t)
      /\ (if completed then is_ready (t_stage t) else is_pending (t_stage t)) = true
  | Poller (P_end_wait l r) =>
      r = ReadyJoined /\ match l with Wait_load => True | Waiting_on state => is_usize state | Waited => False end
      /\ sn_complete x = true /\ jw_set x = true
  | Poller (P_wake_join r) => r = ReadyJoined /\ sn_complete x = true /\ jw_set x = false
  | Poller (P_start_wait _ _ | P_self_schedule) => False
  | Handle (J_try _ l) => loop_ok try_join_fn any_flag l (t_state t)
  | Handle (J_reregister _) => is_some (t_join_waker t) = true
  | Handle (J_registered l) => is_some (t_join_waker t) = true /\ loop_ok join_waker_registered_fn any_flag l (t_state t)
  | Handle J_take => sn_complete x = true /\ is_ready (t_stage t) = true
  | _ => True
  end.

Record invariant t (ags : list agent) (notified ignored : bool) : Prop := {
  iv_usize : is_usize (t_state t);
  iv_cancelled : sn_cancelled (unpack (t_state t)) = false;
  (** the count of the state word is the number of references, and the task is
      deallocated when and only when there is none *)
  iv_refs : sn_refs (unpack (t_state t)) = total ref_of ags;
  iv_fit : total ref_of ags <= f_max REFS;
  iv_freed : total ref_of ags = 0 /\ total freeing_of ags + Z.b2z (t_freed t) = 1
             \/ 0 < total ref_of ags /\ total freeing_of ags + Z.b2z (t_freed t) = 0;
  (** at most one agent polls, and it is the one that set [POLLING] *)
  iv_polling : total polling_of ags = Z.b2z (sn_polling (unpack (t_state t)));
  iv_complete : sn_polling (unpack (t_state t)) = true -> sn_complete (unpack (t_state t)) = false;
  iv_finishing : total finishing_of ags <= Z.b2z (sn_complete (unpack (t_state t)));
  (** a task that is polled or woken is scheduled once; one that is neither is
      not, or it has just been spawned *)
  iv_token_complete : sn_complete (unpack (t_state t)) = true -> total token_of ags = 0;
  iv_token_active : sn_complete (unpack (t_state t)) = false ->
    sn_polling (unpack (t_state t)) = true \/ sn_woken (unpack (t_state t)) = true -> total token_of ags = 1;
  iv_token_idle : sn_polling (unpack (t_state t)) = false -> sn_woken (unpack (t_state t)) = false ->
    total token_of ags = 0 \/ total token_of ags = 1 /\ total waker_of ags = 0;
  (** the join handle and its waker *)
  iv_handle : total handle_of ags = Z.b2z (sn_has_join (unpack (t_state t)));
  iv_writing : total writing_of ags = Z.b2z (bool_decide (sn_join_waker (unpack (t_state t)) = JW_Registering));
  iv_woken : sn_join_waker (unpack (t_state t)) = JW_Woken -> sn_complete (unpack (t_state t)) = true;
  iv_slot : sn_join_waker (unpack (t_state t)) = JW_Waiting -> is_some (t_join_waker t) = true;
  (** the future and its output *)
  iv_stage : sn_complete (unpack (t_state t)) = false -> sn_polling (unpack (t_state t)) = false -> is_pending (t_stage t) = true;
  iv_taking : total taking_of ags <= Z.b2z (sn_complete (unpack (t_state t)));
  iv_output : sn_complete (unpack (t_state t)) = true -> total joining_of ags = 1 ->
    sn_has_output (unpack (t_state t)) = true /\ is_ready (t_stage t) = true;
  iv_local : Forall (local_ok t) ags;
  (** no wake is lost, other than the ignored ones *)
  iv_notified : notified = true -> ignored = false -> sn_complete (unpack (t_state t)) = false ->
    total token_of ags = 1 /\ (sn_polling (unpack (t_state t)) = true -> sn_woken (unpack (t_state t)) = true);
}.

End invariant.

(** ** Counting agents *)

Lemma weights_nonneg ag :
  0 <= ref_of ag /\ 0 <= token_of ag /\ 0 <= polling_of ag /\ 0 <= finishing_of ag /\ 0 <= handle_of ag /\ 0 <= writing_of ag
  /\ 0 <= joining_of ag /\ 0 <= taking_of ag /\ 0 <= waker_of ag /\ 0 <= freeing_of ag.
Proof. destruct ag as [| | | | | | | | [| | | | | | | | []] | []]; cbn; lia. Qed.

Lemma weights_le ag :
  polling_of ag <= token_of ag /\ writing_of ag <= joining_of ag /\ joining_of ag + taking_of ag <= handle_of ag.
Proof. destruct ag as [| | | | | | | | [| | | | | | | | []] | []]; cbn; lia. Qed.

(** What is known of the totals of any list of agents. *)
Ltac totals l :=
  pose proof (total_nonneg ref_of l ltac:(intros; apply weights_nonneg));
  pose proof (total_nonneg token_of l ltac:(intros; apply weights_nonneg));
  pose proof (total_nonneg polling_of l ltac:(intros; apply weights_nonneg));
  pose proof (total_nonneg finishing_of l ltac:(intros; apply weights_nonneg));
  pose proof (total_nonneg handle_of l ltac:(intros; apply weights_nonneg));
  pose proof (total_nonneg writing_of l ltac:(intros; apply weights_nonneg));
  pose proof (total_nonneg joining_of l ltac:(intros; apply weights_nonneg));
  pose proof (total_nonneg taking_of l ltac:(intros; apply weights_nonneg));
  pose proof (total_nonneg waker_of l ltac:(intros; apply weights_nonneg));
  pose proof (total_nonneg freeing_of l ltac:(intros; apply weights_nonneg));
  pose proof (total_le polling_of token_of l ltac:(intros; apply weights_le));
  pose proof (total_le writing_of joining_of l ltac:(intros; apply weights_le));
  pose proof (total_le (fun ag => joining_of ag + taking_of ag) handle_of l ltac:(intros; apply weights_le)).

Section stability.
Context {bf : Bitfield} {O : Type}.
Implicit Types (t : task O).

Lemma invariant_perm t l l' n i : l ≡ₚ l' -> invariant t l n i -> invariant t l' n i.
Proof.
  intros Hp []. pose proof (fun f => total_perm f l l' Hp) as Ht.
  constructor; rewrite <- ?Ht; try done. by rewrite <- Hp.
Qed.

(** What another agent's access may change without disturbing [ag]. *)
Record undisturbed t t' (ag : agent) : Prop := {
  ud_usize : is_usize (t_state t');
  ud_cancelled : sn_cancelled (unpack (t_state t')) = false;
  ud_complete : sn_complete (unpack (t_state t)) = true -> sn_complete (unpack (t_state t')) = true;
  ud_jw_set : jw_set (unpack (t_state t)) = true -> jw_set (unpack (t_state t')) = true \/ polling_of ag + finishing_of ag = 0;
  ud_jw_unset : jw_set (unpack (t_state t)) = false -> jw_set (unpack (t_state t')) = false \/ finishing_of ag = 0;
  ud_stage : t_stage t' = t_stage t \/ polling_of ag + taking_of ag = 0;
  ud_slot : is_some (t_join_waker t) = true -> is_some (t_join_waker t') = true \/ writing_of ag = 0;
}.

Lemma loop_any {A S} (f : S -> Z -> outcome (A * S * Z)) l w w' : loop_ok f any_flag l w -> loop_ok f any_flag l w'.
Proof. by destruct l. Qed.

Lemma loop_flag {A S} (f : S -> Z -> outcome (A * S * Z)) (R : S -> Z -> Prop) l w w' :
  (forall s, R s w -> R s w') -> loop_ok f R l w -> loop_ok f R l w'.
Proof. intros HR. destruct l; cbn; [apply HR | intros [? ?]; split; [by apply HR | done] | done]. Qed.

Lemma local_ok_stable t t' ag : undisturbed t t' ag -> local_ok t ag -> local_ok t' ag.
Proof.
  intros [H0 H1 H2 H3 H4 H5 H6]. destruct ag as [| | | | | | | | [] | []]; cbn -[unpack]; cbn -[unpack] in H3, H4, H5, H6; try done.
  all: try apply loop_any.
  - apply loop_flag. unfold start_flag. naive_solver.
  - destruct H5 as [-> |]; [done | lia].
  - destruct H5 as [-> |]; [| lia]. intros [? ?]. split; [done | by eapply loop_any].
  - destruct H5 as [-> |]; [| lia]. intros [Hl ?]. split; [| done]. revert Hl. apply loop_flag. unfold end_flag.
    intros b [_ Hb]. split; [done |]. intros Ht. destruct (Hb Ht) as [-> Hj]. destruct (H3 Hj) as [? | ?]; [done | lia].
  - intros (? & ? & ? & Hj). destruct (H3 Hj) as [? | ?]; [auto | lia].
  - intros (? & ? & Hj). destruct (H4 Hj) as [? | ?]; [auto | lia].
  - intros Hs. destruct (H6 Hs); [done | lia].
  - intros [Hs ?]. destruct (H6 Hs); [| lia]. split; [done | by eapply loop_any].
  - destruct H5 as [-> |]; [| lia]. intros [? ?]. auto.
Qed.

Lemma rest_stable t t' rest :
  is_usize (t_state t') -> sn_cancelled (unpack (t_state t')) = false ->
  (sn_complete (unpack (t_state t)) = true -> sn_complete (unpack (t_state t')) = true) ->
  (jw_set (unpack (t_state t)) = true -> jw_set (unpack (t_state t')) = true \/ total polling_of rest + total finishing_of rest = 0) ->
  (jw_set (unpack (t_state t)) = false -> jw_set (unpack (t_state t')) = false \/ total finishing_of rest = 0) ->
  (t_stage t' = t_stage t \/ total polling_of rest + total taking_of rest = 0) ->
  (is_some (t_join_waker t) = true -> is_some (t_join_waker t') = true \/ total writing_of rest = 0) ->
  Forall (local_ok t) rest -> Forall (local_ok t') rest.
Proof.
  intros Hu H1 H2 H3 H4 H5 H6 HF. rewrite <- total_plus in H3, H5.
  assert (Hz : forall f ag, (forall ag, 0 <= f ag) -> ag ∈ rest -> total f rest = 0 -> f ag = 0).
  { intros f ag Hf Hin H0. pose proof (total_zero f rest Hf H0) as HF0. rewrite Forall_forall in HF0. by apply HF0. }
  apply Forall_forall. intros ag Hin. apply (local_ok_stable t); [| rewrite Forall_forall in HF; by apply HF].
  assert (Hw : forall ag, 0 <= polling_of ag + finishing_of ag /\ 0 <= polling_of ag + taking_of ag)
    by (intros a; pose proof (weights_nonneg a); lia).
  constructor; try done.
  - intros Hj. destruct (H3 Hj) as [? | H0]; [by left | right]. by apply (Hz _ ag (fun a => proj1 (Hw a)) Hin).
  - intros Hj. destruct (H4 Hj) as [? | H0]; [by left | right]. apply (Hz finishing_of ag); [apply weights_nonneg | done..].
  - destruct H5 as [? | H0]; [by left | right]. by apply (Hz _ ag (fun a => proj2 (Hw a)) Hin).
  - intros Hs. destruct (H6 Hs) as [? | H0]; [by left | right]. apply (Hz writing_of ag); [apply weights_nonneg | done..].
Qed.

End stability.

(** ** Every access preserves the invariant *)

Section preservation.
Context {bf : Bitfield} {bfl : BitfieldLaws} {O : Type}.
Implicit Types (t : task O).

Lemma with_state_same t : with_state (t_state t) t = t.
Proof. by destruct t. Qed.

(** An access of a [transition] loop, on the unpacked state. *)
Lemma on_loop_cases {A S} (f : S -> Z -> outcome (A * S * Z)) g R b l running returned t ags t' :
  computes f g -> loop_keeps f R -> is_usize (t_state t) -> loop_ok f R l (t_state t) ->
  on_loop f b l running returned t = Done (ags, t') ->
  (exists l', ags = [running l'] /\ t' = t /\ loop_ok f R l' (t_state t))
  \/ (exists a s s0 w' x', R s0 (t_state t) /\ is_usize w' /\ unpack w' = x' /\ g s0 (unpack (t_state t)) = Done (a, s, x')
        /\ returned a s = Done ags /\ t' = with_state w' t).
Proof.
  intros Hc Hk Hw Hl. unfold on_loop. destruct (transition_step f b l (t_state t)) as [[l' w'] | |] eqn:Es; cbn; [| done..].
  destruct (transition_step_cases f R b l _ l' w' Hk Hl Es) as [[-> Hl'] | (a & s & s0 & -> & HR & Ef)].
  - intros E. left. exists l'. assert (E' : Done ([running l'], with_state (t_state t) t) = Done (ags, t')) by by destruct l'.
    injection E' as <- <-. by rewrite with_state_same.
  - destruct (returned a s) as [ags' | |] eqn:Er; cbn; [| done..]. intros [= <- <-]. right. exists a, s, s0, w', (unpack w').
    specialize (Hc s0 _ Hw). rewrite Ef in Hc. destruct Hc as [? ?]. done.
Qed.

Lemma keeps_any {A S} (f : S -> Z -> outcome (A * S * Z)) : loop_keeps f any_flag.
Proof. done. Qed.

(** An agent goes on without touching the task. *)
Lemma invariant_move t ag new rest n i :
  invariant t (ag :: rest) n i ->
  total ref_of new = ref_of ag /\ total freeing_of new = freeing_of ag /\ total polling_of new = polling_of ag
    /\ total finishing_of new = finishing_of ag /\ total token_of new = token_of ag /\ total handle_of new = handle_of ag
    /\ total writing_of new = writing_of ag /\ total taking_of new = taking_of ag ->
  total waker_of new <= waker_of ag -> total joining_of new <= joining_of ag -> Forall (local_ok t) new ->
  invariant t (new ++ rest) n i.
Proof.
  intros [] (E1 & E2 & E3 & E4 & E5 & E6 & E7 & E8) Hwk Hj Hl. totals new. totals rest. cbn [total] in *.
  apply Forall_cons in iv_local0 as [_ HF]. rewrite !total_plus in *.
  assert (Hh : handle_of ag + total handle_of rest <= 1) by (rewrite iv_handle0; destruct (sn_has_join _); cbn; lia).
  constructor; rewrite ?total_app, ?E1, ?E2, ?E3, ?E4, ?E5, ?E6, ?E7, ?E8; try done.
  - intros Hp Hk. destruct (iv_token_idle0 Hp Hk) as [? | [? ?]]; [by left | right; lia].
  - intros Hc Hn. apply iv_output0; [done |]. pose proof (weights_le ag). pose proof (weights_nonneg ag). lia.
  - by apply Forall_app.
Qed.

Lemma token_at_most_one t ags n i : invariant t ags n i -> total token_of ags <= 1.
Proof.
  intros []. destruct (sn_complete _); [rewrite iv_token_complete0 by done; lia |].
  destruct (sn_polling _); [rewrite iv_token_active0 by auto; lia |].
  destruct (sn_woken _); [rewrite iv_token_active0 by auto; lia |]. destruct (iv_token_idle0 eq_refl eq_refl); lia.
Qed.

Ltac unpacked :=
  cbn [snap_polling snap_complete snap_woken snap_cancelled snap_has_join snap_join_waker snap_has_output snap_refs
       sn_polling sn_complete sn_woken sn_cancelled sn_has_join sn_join_waker sn_has_output sn_refs] in *.

(** Open the invariant of an agent and the others; prove the fields of the
    new one with what is known of the new word. *)
Ltac open_invariant H t rest :=
  pose proof (iv_usize _ _ _ _ H) as Husize; pose proof (iv_cancelled _ _ _ _ H) as Hcan; pose proof (iv_refs _ _ _ _ H) as Hrefs;
  pose proof (iv_fit _ _ _ _ H) as Hfit; pose proof (iv_freed _ _ _ _ H) as Hfreed; pose proof (iv_polling _ _ _ _ H) as Hpol;
  pose proof (iv_complete _ _ _ _ H) as Hcom; pose proof (iv_finishing _ _ _ _ H) as Hfin;
  pose proof (iv_token_complete _ _ _ _ H) as Htc; pose proof (iv_token_active _ _ _ _ H) as Hta;
  pose proof (iv_token_idle _ _ _ _ H) as Hti; pose proof (iv_handle _ _ _ _ H) as Hhan; pose proof (iv_writing _ _ _ _ H) as Hwri;
  pose proof (iv_woken _ _ _ _ H) as Hwok; pose proof (iv_slot _ _ _ _ H) as Hslo; pose proof (iv_stage _ _ _ _ H) as Hsta;
  pose proof (token_at_most_one _ _ _ _ H) as Hone; pose proof (iv_output _ _ _ _ H) as Hout; pose proof (iv_taking _ _ _ _ H) as Htak; pose proof (iv_notified _ _ _ _ H) as Hnot;
  pose proof (iv_local _ _ _ _ H) as Hloc; apply Forall_cons in Hloc as [Hag Hrest]; totals rest; rewrite !total_plus in *;
  cbn [total ref_of token_of polling_of finishing_of handle_of writing_of joining_of taking_of waker_of freeing_of local_ok] in *;
  destruct (unpack (t_state t)) as [pol com wok can hj jw ho rf] eqn:Ex; unpacked.

Ltac decide_jw :=
  repeat match goal with
  | H : context [bool_decide (?a = ?b)] |- _ =>
      first [rewrite (bool_decide_eq_true_2 (a = b) eq_refl) in H | rewrite (bool_decide_eq_false_2 (a = b) ltac:(discriminate)) in H]
  | |- context [bool_decide (?a = ?b)] =>
      first [rewrite (bool_decide_eq_true_2 (a = b) eq_refl) | rewrite (bool_decide_eq_false_2 (a = b) ltac:(discriminate))]
  end.

Ltac prove_fields :=
  constructor; cbn [with_state with_stage with_waker with_freed t_state t_stage t_join_waker t_freed]; rewrite ?total_app;
  try match goal with Hx : unpack _ = _ |- context [unpack _] => rewrite Hx end;
  cbn [total app ref_of token_of polling_of finishing_of handle_of writing_of joining_of taking_of waker_of freeing_of after_end_poll];
  unpacked; decide_jw; cbn [Z.b2z] in *; try done; try lia;
  try (by intros; auto).

(** The other agents are not disturbed. *)
Ltac prove_rest t :=
  apply (rest_stable t); cbn [with_state with_stage with_waker with_freed t_state t_stage t_join_waker t_freed]; unpacked;
  repeat match goal with Hx : unpack _ = _ |- context [unpack _] => rewrite Hx end; unpacked; cbn [jw_set sn_join_waker]; try done; try lia;
  try by left.

Lemma start_poll_keeps : loop_keeps start_poll_fn start_flag.
Proof.
  intros s w a s' w' [-> Hc] Ef. split; [| done]. revert Ef. unfold start_poll_fn.
  change (bf_flag CANCELLED w) with (sn_cancelled (unpack w)). rewrite Hc. destruct (_ || _); by intros [= _ <- _].
Qed.

Lemma invariant_start t l rest n i a s s0 w' x' :
  invariant t (Poller (P_start l) :: rest) n i -> start_flag s0 (t_state t) -> is_usize w' -> unpack w' = x' ->
  Snap.start_poll s0 (unpack (t_state t)) = Done (a, s, x') ->
  a = Poll /\ s = false /\ invariant (with_state w' t) (Poller P_polling :: rest) false false.
Proof.
  intros H [-> _] Hw' Hx. open_invariant H t rest.
  destruct com; [specialize (Htc eq_refl); lia |].
  destruct pol; [specialize (Hta eq_refl (or_introl eq_refl)); cbn in *; lia |].
  subst can. cbn. intros [= <- <- <-]. split; [done |]. split; [done |].
  prove_fields. constructor; [by apply Hsta | prove_rest t].
Qed.

Lemma invariant_self_wake t l rest n i a s s0 w' x' :
  invariant t (Poller (P_self_wake l) :: rest) n i -> is_usize w' -> unpack w' = x' ->
  Snap.wake_by_ref s0 (unpack (t_state t)) = Done (a, s, x') ->
  a = NoneRef /\ invariant (with_state w' t) (Poller P_polling :: rest) true i.
Proof.
  intros H Hw' Hx. open_invariant H t rest. destruct pol; [| cbn in *; lia]. rewrite (Hcom eq_refl) in *.
  destruct wok; cbn; intros [= <- <- <-]; (split; [done |]).
  all: prove_fields; constructor; [by destruct Hag | prove_rest t].
Qed.

Lemma invariant_wake_ref t l rest n i a s s0 w' x' :
  invariant t (WakeRef l :: rest) n i -> is_usize w' -> unpack w' = x' ->
  Snap.wake_by_ref s0 (unpack (t_state t)) = Done (a, s, x') ->
  invariant (with_state w' t) (match a with EnqueueRef => WakeClone | NoneRef => Ref end :: rest) true i.
Proof.
  intros H Hw' Hx. open_invariant H t rest. destruct com; [| destruct wok; [| destruct pol]]; cbn; intros [= <- <- <-].
  all: prove_fields; constructor; [done | prove_rest t].
Qed.

Lemma invariant_wake_val t l rest n i a s s0 w' x' :
  invariant t (WakeVal l :: rest) n i -> is_usize w' -> unpack w' = x' ->
  Snap.wake_by_val s0 (unpack (t_state t)) = Done (a, s, x') ->
  match a with
  | EnqueueVal => invariant (with_state w' t) (Scheduling :: rest) true i
  | DropVal => invariant (with_state w' t) (Dropping :: rest) true
      (i || sn_polling (unpack (t_state t)) && negb (sn_woken (unpack (t_state t))))
  end.
Proof.
  intros H Hw' Hx. open_invariant H t rest. destruct pol, com, wok; try by specialize (Hcom eq_refl).
  all: cbn; intros [= <- <- <-].
  all: prove_fields; constructor; [done | prove_rest t].
Qed.

Lemma invariant_future t rest n i ans :
  invariant t (Poller P_polling :: rest) n i ->
  let r := stage_poll ans (t_stage t) in
  invariant (with_stage r.2 t) (Poller (P_end r.1 (Loading false)) :: rest) n i.
Proof.
  intros H. open_invariant H t rest. destruct pol; [| cbn in *; lia]. rewrite (Hcom eq_refl) in *.
  destruct (t_stage t) eqn:Est; [| done..]. cbn zeta. prove_fields. constructor; [| prove_rest t].
  split; [by split | by destruct ans].
Qed.

Lemma end_poll_keeps completed : loop_keeps (end_poll_fn completed) (end_flag completed).
Proof.
  intros s w a s' w' [Hw Hs] Ef. split; [done |]. pose proof (end_poll_computes completed s w Hw) as Hc. rewrite Ef in Hc.
  destruct Hc as [_ Hc]. revert Hc. unfold Snap.end_poll, Snap.take_join_waker, jw_set in *.
  destruct (unpack w) as [pol com wok can hj jw ho rf]. unpacked. destruct (_ && _ && _); [| done].
  destruct completed; [| intros [= _ -> _]; apply Hs]. destruct jw, hj; cbn; intros [= _ <- _]; tauto.
Qed.

Lemma invariant_end t completed l rest n i r s s0 w' x' :
  invariant t (Poller (P_end completed l) :: rest) n i -> end_flag completed s0 (t_state t) -> is_usize w' -> unpack w' = x' ->
  Snap.end_poll completed s0 (unpack (t_state t)) = Done (r, s, x') ->
  if s then r = ReadyJoined /\ invariant (with_state w' t) (Poller (P_end_wait Wait_load r) :: rest) n i
  else invariant (with_state w' t) (after_end_poll r :: rest) n i.
Proof.
  intros H [_ Hf] Hw' Hx. open_invariant H t rest. destruct pol; [| cbn in *; lia]. rewrite (Hcom eq_refl) in *.
  destruct Hag as [_ Hst]. unfold Snap.end_poll. unpacked. rewrite (proj2 (Z.ltb_lt 0 rf)) by lia. cbn [andb negb].
  destruct completed; cbn [mbind outcome_bind].
  - unfold Snap.take_join_waker. unpacked. unfold jw_set in Hf. unpacked. destruct jw; [| destruct hj; [| done]..| done].
    + cbn. intros [= <- <- <-]. destruct s0; [by destruct (Hf eq_refl) |]. prove_fields. constructor; [done | prove_rest t].
    + cbn. intros [= <- <- <-]. split; [done |]. prove_fields. constructor; [cbn [after_end_poll local_ok with_state t_state]; by rewrite Hx | prove_rest t].
    + cbn. intros [= <- <- <-]. prove_fields. constructor; [cbn [after_end_poll local_ok with_state t_state]; by rewrite Hx | prove_rest t].
  - intros [= <- <- <-]. destruct s0; [by destruct (Hf eq_refl) |]. destruct wok; cbn [after_end_poll].
    all: prove_fields; try (constructor; [done | prove_rest t]).
    intros Hn Hi _. by destruct (Hnot Hn Hi eq_refl) as [_ Hw%(fun H => H eq_refl)].
Qed.

Lemma wait_step_cases b l w l' w' :
  is_usize w -> match l with Wait_load => True | Waiting_on state => is_usize state | Waited => False end ->
  wait_step b l w = (l', w') ->
  w' = w /\ l' = Waiting_on w
  \/ l' = Waited /\ sn_join_waker (unpack w) = JW_Waiting /\ is_usize w' /\ unpack w' = snap_join_waker JW_Woken (unpack w).
Proof.
  intros Hw Hl. destruct l as [| state |]; cbn [wait_step]; [intros [= <- <-]; by left | | done].
  destruct (Z.eqb_spec w (set_join_waker JW_Waiting state)) as [E |]; [| intros [= <- <-]; by left].
  destruct b; cbn [andb negb]; [intros [= <- <-]; by left |]. intros [= <- <-]. right. rewrite <- E.
  split_and!; [done | | by apply set_join_waker_usize | by apply unpack_join_waker].
  rewrite E, unpack_join_waker by done. done.
Qed.

Lemma invariant_end_wait t l r rest n i b :
  invariant t (Poller (P_end_wait l r) :: rest) n i ->
  let q := wait_step b l (t_state t) in
  invariant (with_state q.2 t) (match q.1 with Waited => after_end_poll r | l' => Poller (P_end_wait l' r) end :: rest) n i.
Proof.
  intros H. destruct (wait_step b l (t_state t)) as [l' w'] eqn:Ew. cbn [fst snd].
  assert (Hl : local_ok t (Poller (P_end_wait l r))) by (by destruct (Forall_inv (iv_local _ _ _ _ H))).
  destruct (wait_step_cases b l _ l' w' (iv_usize _ _ _ _ H) (proj1 (proj2 Hl)) Ew) as [[-> ->] | (-> & Hj & Hw' & Hx)].
  - rewrite with_state_same. destruct Hl as (-> & _ & ? & ?). pose proof (iv_usize _ _ _ _ H).
    apply (invariant_move t _ [_] rest n i H); [done.. |]. constructor; [by split_and! | constructor].
  - revert Hj. open_invariant H t rest. intros ->. destruct Hl as (-> & _ & -> & _). prove_fields.
    constructor; [cbn [after_end_poll local_ok with_state t_state]; by rewrite Hx | prove_rest t].
Qed.

Lemma invariant_wake_join t r rest n i :
  invariant t (Poller (P_wake_join r) :: rest) n i -> invariant (with_waker None t) (Poller (P_done r) :: rest) n i.
Proof.
  intros H. open_invariant H t rest. destruct Hag as (-> & -> & Hj). unfold jw_set in Hj. unpacked.
  destruct jw; try done; prove_fields; rewrite ?Ex; try done; constructor; done || prove_rest t.
Qed.

Lemma Done_snd {A B} (a a' : A) (b b' : B) : Done (a, b) = Done (a', b') -> b = b'.
Proof. by intros [= _ ->]. Qed.

Lemma on_clone_cases ags t out t' :
  is_usize (t_state t) -> sn_refs (unpack (t_state t)) < f_max REFS -> on_clone ags t = Done (out, t') ->
  out = ags /\ exists w', t' = with_state w' t /\ is_usize w'
    /\ unpack w' = snap_refs (sn_refs (unpack (t_state t)) + 1) (unpack (t_state t)).
Proof.
  intros Hw Hr. unfold on_clone. pose proof (clone_ref_computes (t_state t) Hw Hr) as Hc.
  destruct (clone_ref (t_state t)) as [[[] w'] | |]; cbn; [| done..]. intros [= <- <-]. split; [done |]. exists w'.
  destruct Hc as [Hw' Hx]. by rewrite <- (Done_snd _ _ _ _ Hx).
Qed.

Lemma invariant_clone t ag new rest n i w' :
  invariant t (ag :: rest) n i -> total ref_of (new ++ rest) <= f_max REFS ->
  (ag, new) ∈ [(Ref, [Ref; Ref]); (WakeClone, [Ref; Scheduling]); (Poller P_polling, [Poller P_polling; Ref])] ->
  is_usize w' -> unpack w' = snap_refs (sn_refs (unpack (t_state t)) + 1) (unpack (t_state t)) ->
  invariant (with_state w' t) (new ++ rest) n i.
Proof.
  intros H Hf Hin Hw' Hx. rewrite total_app in Hf.
  repeat (apply elem_of_cons in Hin as [[= -> ->] | Hin]); [..| by apply elem_of_nil in Hin]; cbn [total ref_of] in Hf.
  all: open_invariant H t rest; cbn [app]; prove_fields; rewrite ?Forall_cons; try (split_and!; [done.. | prove_rest t]).
  all: intros -> ->; cbn [Z.b2z] in *; destruct (Hti eq_refl eq_refl); lia.
Qed.

Lemma on_clone_invariant t ag new rest n i ags t' :
  invariant t (ag :: rest) n i ->
  (ag, new) ∈ [(Ref, [Ref; Ref]); (WakeClone, [Ref; Scheduling]); (Poller P_polling, [Poller P_polling; Ref])] ->
  on_clone new t = Done (ags, t') -> total ref_of (ags ++ rest) <= f_max REFS ->
  ags = new /\ invariant t' (new ++ rest) n i.
Proof.
  intros H Hin E Hfit. assert (ags = new) as ->.
  { revert E. unfold on_clone. destruct (clone_ref _); cbn; [| done..]. by intros [= <- _]. }
  split; [done |]. destruct (on_clone_cases new t new t' (iv_usize _ _ _ _ H)) as (_ & w' & -> & Hw' & Hx); [| done |].
  - rewrite (iv_refs _ _ _ _ H). rewrite total_app in Hfit. cbn [total].
    repeat (apply elem_of_cons in Hin as [[= -> ->] | Hin]); [..| by apply elem_of_nil in Hin]; cbn [total ref_of] in *; lia.
  - by apply (invariant_clone t ag new rest n i w').
Qed.

Lemma invariant_drop t rest n i last w' x' :
  invariant t (Dropping :: rest) n i -> is_usize w' -> unpack w' = x' ->
  Snap.remove_ref (unpack (t_state t)) = Done (last, x') ->
  invariant (with_state w' t) ((if last then [Deallocating] else []) ++ rest) n i.
Proof.
  intros H Hw' Hx. open_invariant H t rest. unfold Snap.remove_ref. unpacked. rewrite (proj2 (Z.eqb_neq rf 0)) by lia.
  intros [= <- <-]. destruct (Z.eqb_spec rf 1); cbn [app].
  all: prove_fields; rewrite ?Forall_cons; try split; try done; prove_rest t.
Qed.

Lemma invariant_dealloc t rest n i : invariant t (Deallocating :: rest) n i -> t_freed t = false -> invariant (with_freed t) rest n i.
Proof.
  intros H Hfr. open_invariant H t rest. rewrite Hfr in Hfreed. prove_fields; by rewrite ?Ex.
Qed.

Lemma invariant_try_join t wk l rest n i a s s0 w' x' :
  invariant t (Handle (J_try wk l) :: rest) n i -> is_usize w' -> unpack w' = x' ->
  Snap.try_join s0 (unpack (t_state t)) = Done (a, s, x') ->
  invariant (with_state w' t) (Handle match a with
                                      | TakeOutput => J_take
                                      | Canceled completed => if completed then J_take else J_drop
                                      | Register => J_register wk
                                      | Reregister => J_reregister wk
                                      end :: rest) n i.
Proof.
  intros H Hw' Hx. open_invariant H t rest. destruct hj; [| cbn in *; lia]. unfold Snap.try_join. unpacked. subst can.
  destruct com.
  - destruct (Hout eq_refl ltac:(cbn in *; lia)) as [-> Hr]. cbn. intros [= <- <- <-]. prove_fields.
    constructor; [cbn [local_ok with_state t_state t_stage]; by rewrite Hx | prove_rest t].
  - cbn. destruct jw; try done; intros [= <- <- <-]; prove_fields; (constructor; [| prove_rest t]); try done. by apply Hslo.
Qed.

Lemma invariant_register t wk rest n i (new : Z) :
  invariant t (Handle (J_register wk) :: rest) n i \/ invariant t (Handle (J_reregister wk) :: rest) n i ->
  invariant (with_waker (Some new) t) (Handle (J_registered (Loading tt)) :: rest) n i.
Proof.
  intros [H | H]; open_invariant H t rest; prove_fields; rewrite ?Ex; try done; constructor; done || prove_rest t.
Qed.

Lemma invariant_registered t l rest n i a s s0 w' x' :
  invariant t (Handle (J_registered l) :: rest) n i -> is_usize w' -> unpack w' = x' ->
  Snap.join_waker_registered s0 (unpack (t_state t)) = Done (a, s, x') ->
  invariant (with_state w' t) (Handle J_idle :: rest) n i.
Proof.
  intros H Hw' Hx. open_invariant H t rest. destruct hj; [| cbn in *; lia]. unfold Snap.join_waker_registered. unpacked.
  destruct jw; try done. intros [= <- <- <-]. destruct Hag as [Hs _]. prove_fields. constructor; [done | prove_rest t].
Qed.

Lemma invariant_take t rest n i : invariant t (Handle J_take :: rest) n i -> invariant (with_stage StConsumed t) (Handle J_drop :: rest) n i.
Proof.
  intros H. open_invariant H t rest. destruct hj; [| cbn in *; lia]. destruct Hag as [-> _].
  destruct pol; [by specialize (Hcom eq_refl) |]. prove_fields; rewrite ?Ex; try done. constructor; [done | prove_rest t].
Qed.

Lemma invariant_drop_handle t rest n i w' x' u :
  invariant t (Handle J_drop :: rest) n i -> is_usize w' -> unpack w' = x' ->
  Snap.remove_join_handle (unpack (t_state t)) = Done (u, x') ->
  invariant (with_state w' t) (Dropping :: rest) n i.
Proof.
  intros H Hw' Hx. open_invariant H t rest. unfold Snap.remove_join_handle. unpacked. destruct hj; [| done]. intros [= _ <-].
  prove_fields. constructor; [done | prove_rest t].
Qed.

(** The loop of an agent goes on. *)
Ltac loop_runs H :=
  apply (invariant_move _ _ [_] _ _ _ H); [done.. |]; constructor; [| constructor].

Lemma poll_step_invariant t p rest n i c ags t' :
  invariant t (Poller p :: rest) n i -> poll_step p c t = Done (ags, t') -> total ref_of (ags ++ rest) <= f_max REFS ->
  let h := history (Poller p) (t_state t) ags (n, i) in invariant t' (ags ++ rest) h.1 h.2.
Proof.
  intros H E Hfit. pose proof (iv_usize _ _ _ _ H) as Hw. pose proof (Forall_inv (iv_local _ _ _ _ H)) as Hl.
  assert (Hsame : Done ([Poller p], t) = Done (ags, t') -> let h := history (Poller p) (t_state t) ags (n, i) in invariant t' (ags ++ rest) h.1 h.2).
  { intros [= <- <-]. by destruct p. }
  destruct p as [l | l a | | l | | completed l | l r | r | r]; destruct c as [b | | | | | wk | ans]; try exact (Hsame E); cbn [poll_step] in E; try done.
  - destruct (on_loop_cases _ _ start_flag b l _ _ t ags t' start_poll_computes start_poll_keeps Hw Hl E)
      as [(l' & -> & -> & Hl') | (a & s & s0 & w' & x' & HR & Hw' & Hx & Eg & Er & ->)].
    + loop_runs H. done.
    + destruct (invariant_start t l rest n i a s s0 w' x' H HR Hw' Hx Eg) as (-> & -> & Hi). by injection Er as <-.
  - by destruct (on_clone_invariant t _ _ rest n i ags t' H ltac:(repeat constructor) E Hfit) as [-> Hi].
  - injection E as <- <-. loop_runs H. by split.
  - injection E as <- <-. apply (invariant_future t rest n i ans H).
  - destruct Hl as [Hst Hl].
    destruct (on_loop_cases _ _ any_flag b l _ _ t ags t' wake_by_ref_computes (keeps_any _) Hw Hl E)
      as [(l' & -> & -> & Hl') | (a & s & s0 & w' & x' & HR & Hw' & Hx & Eg & Er & ->)].
    + loop_runs H. by split.
    + destruct (invariant_self_wake t l rest n i a s s0 w' x' H Hw' Hx Eg) as (-> & Hi). by injection Er as <-.
  - destruct Hl as [Hl Hst].
    destruct (on_loop_cases _ _ (end_flag completed) b l _ _ t ags t' (end_poll_computes completed) (end_poll_keeps completed) Hw Hl E)
      as [(l' & -> & -> & Hl') | (r & s & s0 & w' & x' & HR & Hw' & Hx & Eg & Er & ->)].
    + loop_runs H. by split.
    + pose proof (invariant_end t completed l rest n i r s s0 w' x' H HR Hw' Hx Eg) as Hi. destruct s.
      * destruct Hi as [-> Hi]. injection Er as <-. exact Hi.
      * injection Er as <-. exact Hi.
  - injection E as <- <-. apply (invariant_end_wait t l r rest n i b H).
  - injection E as <- <-. apply (invariant_wake_join t r rest n i H).
  - injection E as <- <-. apply (invariant_move t _ [_] rest n i H); by destruct r; repeat constructor.
Qed.

Lemma join_step_invariant t j rest n i c ags t' :
  invariant t (Handle j :: rest) n i -> join_step j c t = Done (ags, t') -> invariant t' (ags ++ rest) n i.
Proof.
  intros H E. pose proof (iv_usize _ _ _ _ H) as Hw. pose proof (Forall_inv (iv_local _ _ _ _ H)) as Hl.
  assert (Hsame : Done ([Handle j], t) = Done (ags, t') -> invariant t' (ags ++ rest) n i) by (by intros [= <- <-]).
  destruct j as [| wk l | wk | wk | l | |]; destruct c as [b | | | | | wk' | ans]; try exact (Hsame E); cbn [join_step] in E.
  - injection E as <- <-. by apply (invariant_move t _ [_] rest n i H); repeat constructor.
  - injection E as <- <-. by loop_runs H.
  - destruct (on_loop_cases _ _ any_flag b l _ _ t ags t' try_join_computes (keeps_any _) Hw Hl E)
      as [(l' & -> & -> & Hl') | (a & s & s0 & w' & x' & HR & Hw' & Hx & Eg & Er & ->)]; [by loop_runs H |].
    injection Er as <-. apply (invariant_try_join t wk l rest n i a s s0 w' x' H Hw' Hx Eg).
  - injection E as <- <-. apply (invariant_register t wk). by left.
  - destruct (t_join_waker t); [| done]. injection E as <- <-. apply (invariant_register t wk). by right.
  - destruct Hl as [Hs Hl].
    destruct (on_loop_cases _ _ any_flag b l _ _ t ags t' join_waker_registered_computes (keeps_any _) Hw Hl E)
      as [(l' & -> & -> & Hl') | (a & s & s0 & w' & x' & HR & Hw' & Hx & Eg & Er & ->)]; [by loop_runs H |].
    injection Er as <-. apply (invariant_registered t l rest n i a s s0 w' x' H Hw' Hx Eg).
  - destruct (t_stage t) eqn:Est; try done. injection E as <- <-. apply (invariant_take t rest n i H).
  - pose proof (drop_join_handle_computes (t_state t) Hw I) as Hc. destruct (drop_join_handle (t_state t)) as [[u w'] | |]; [| done..].
    injection E as <- <-. destruct Hc as [Hw' Hc]. by apply (invariant_drop_handle t rest n i w' _ u H Hw' eq_refl).
Qed.

Lemma agent_step_invariant t ag rest n i c ags t' :
  invariant t (ag :: rest) n i -> agent_step ag c t = Done (ags, t') -> total ref_of (ags ++ rest) <= f_max REFS ->
  let h := history ag (t_state t) ags (n, i) in invariant t' (ags ++ rest) h.1 h.2.
Proof.
  intros H E Hfit. pose proof (iv_usize _ _ _ _ H) as Hw. pose proof (Forall_inv (iv_local _ _ _ _ H)) as Hl.
  unfold agent_step in E. destruct (t_freed t) eqn:Efr; [done |].
  assert (Hsame : Done ([ag], t) = Done (ags, t') -> let h := history ag (t_state t) ags (n, i) in invariant t' (ags ++ rest) h.1 h.2).
  { intros [= <- <-]. by destruct ag as [| | | | | | | | [] |]. }
  destruct ag as [| l | l | | | | | | p | j]; try exact (poll_step_invariant t p rest n i c ags t' H E Hfit);
    try exact (join_step_invariant t j rest n i c ags t' H E); destruct c as [b | | | | | wk' | ans]; try exact (Hsame E); clear Hsame.
  - by destruct (on_clone_invariant t _ _ rest n i ags t' H ltac:(repeat constructor) E Hfit) as [-> Hi].
  - injection E as <- <-. by apply (invariant_move t _ [_] rest n i H); repeat constructor.
  - injection E as <- <-. by loop_runs H.
  - injection E as <- <-. by loop_runs H.
  - destruct (on_loop_cases _ _ any_flag b l _ _ t ags t' wake_by_val_computes (keeps_any _) Hw Hl E)
      as [(l' & -> & -> & Hl') | (a & s & s0 & w' & x' & HR & Hw' & Hx & Eg & Er & ->)]; [by loop_runs H |].
    injection Er as <-. pose proof (invariant_wake_val t l rest n i a s s0 w' x' H Hw' Hx Eg) as Hi. by destruct a.
  - destruct (on_loop_cases _ _ any_flag b l _ _ t ags t' wake_by_ref_computes (keeps_any _) Hw Hl E)
      as [(l' & -> & -> & Hl') | (a & s & s0 & w' & x' & HR & Hw' & Hx & Eg & Er & ->)]; [by loop_runs H |].
    injection Er as <-. pose proof (invariant_wake_ref t l rest n i a s s0 w' x' H Hw' Hx Eg) as Hi. by destruct a.
  - by destruct (on_clone_invariant t _ _ rest n i ags t' H ltac:(repeat constructor) E Hfit) as [-> Hi].
  - injection E as <- <-. by apply (invariant_move t _ [_] rest n i H); repeat constructor.
  - injection E as <- <-. loop_runs H. split; [done | apply (iv_cancelled _ _ _ _ H)].
  - pose proof (drop_ref_computes (t_state t) Hw I) as Hc. destruct (drop_ref (t_state t)) as [[last w'] | |]; [| done..].
    injection E as <- <-. destruct Hc as [Hw' Hc]. by apply (invariant_drop t rest n i last w' _ H Hw' eq_refl).
  - destruct (ref_count (t_state t) =? 0); [| done]. injection E as <- <-. by apply invariant_dealloc.
Qed.

Lemma unpack_0 : unpack 0 = MkSnap false false false false false JW_Empty false 0.
Proof. unfold unpack, bf_flag. by rewrite !bf_get_0 by solve_field. Qed.

Lemma unpack_new : is_usize state_new /\ unpack state_new = MkSnap false false false false false JW_Empty false 1.
Proof.
  destruct (unpack_add_refs 1 0) as [Hw Hx]; [done | by rewrite unpack_0 |]. rewrite unpack_0 in Hx.
  by change state_new with (0 + 1 * REF_ONE).
Qed.

Lemma new_allocated_unpack w :
  new_allocated = Done w -> is_usize w /\ unpack w = MkSnap false false false false true JW_Empty false 2.
Proof.
  destruct unpack_new as [H0 Hx0]. unfold new_allocated. change (refcount state_new) with (sn_refs (unpack state_new)). rewrite Hx0.
  cbn [sn_refs]. rewrite (outcome_bind_Done _ _ tt) by done.
  pose proof (clone_ref_computes state_new H0) as Hc. rewrite Hx0 in Hc. specialize (Hc ltac:(done)).
  destruct (clone_ref state_new) as [[u1 w1] | |]; [| done..]. destruct Hc as [H1 Hc%Done_snd].
  rewrite (outcome_bind_Done _ _ (u1, w1)) by done. cbn [snd].
  pose proof (create_join_handle_computes tt w1 H1) as Hh. rewrite <- Hc in Hh.
  destruct (create_join_handle_fn tt w1) as [[[u2 u3] w2] | |]; [| done..]. destruct Hh as [H2 Hh%Done_snd].
  rewrite (outcome_bind_Done _ _ (u2, u3, w2)) by done. cbn. intros [= <-]. by rewrite <- Hh.
Qed.

Lemma reachable_invariant (s : system O) :
  reachable s -> invariant (sy_task s) (sy_agents s) (sy_notified s) (sy_ignored s).
Proof.
  induction 1 as [w Hn | s s' _ IH Hs].
  - destruct (new_allocated_unpack w Hn) as [Hw Hx]. constructor; cbn [spawned sy_task sy_agents sy_notified sy_ignored t_state]; rewrite ?Hx; cbn; try done; try lia; auto.
    by repeat constructor.
  - destruct Hs as [t l1 ag l2 n i c ags t' E Hfit]. cbn [sy_task sy_agents sy_notified sy_ignored] in *.
    apply (invariant_perm t _ (ag :: l1 ++ l2)) in IH; [| symmetry; apply Permutation_middle].
    apply (invariant_perm t' (ags ++ l1 ++ l2)); [rewrite !(assoc_L (++)); f_equiv; apply Permutation_app_comm |].
    apply (agent_step_invariant t ag (l1 ++ l2) n i c); [done.. |].
    rewrite !total_app in *. lia.
Qed.

(** ** Which accesses panic *)

Lemma on_loop_panics {A S} (f : S -> Z -> outcome (A * S * Z)) g R b l running returned t :
  computes f g -> loop_keeps f R -> is_usize (t_state t) -> loop_ok f R l (t_state t) ->
  on_loop f b l running returned t = Panicked ->
  exists s0, R s0 (t_state t)
    /\ (g s0 (unpack (t_state t)) = Panicked
        \/ exists a s w', is_usize w' /\ g s0 (unpack (t_state t)) = Done (a, s, unpack w') /\ returned a s = Panicked).
Proof.
  intros Hc Hk Hw Hl. unfold on_loop. destruct (transition_step f b l (t_state t)) as [[l' w'] | |] eqn:Es; cbn; [| | done].
  - destruct (transition_step_cases f R b l _ l' w' Hk Hl Es) as [[-> Hl'] | (a & s & s0 & -> & HR & Ef)]; [by destruct l' |].
    destruct (returned a s) eqn:Er; cbn; [done | | done]. intros _. exists s0. split; [done |]. right. exists a, s, w'.
    specialize (Hc s0 _ Hw). rewrite Ef in Hc. by destruct Hc.
  - intros _. destruct (transition_step_panics f R b l _ Hl Es) as (s0 & HR & Ef). exists s0. split; [done |]. left.
    specialize (Hc s0 _ Hw). by rewrite Ef in Hc.
Qed.

(** The assertions of [clone_ref] always hold. *)
Lemma on_clone_safe ags t :
  is_usize (t_state t) -> sn_cancelled (unpack (t_state t)) = false -> on_clone ags t <> Panicked.
Proof.
  intros Hw Hcan. unfold on_clone, clone_ref. destruct (Z.ltb_spec (t_state t) (USIZE_MOD - 1)) as [| Hmax].
  - pose proof (bf_get_range REFS (t_state t) ltac:(solve_field) Hw) as Hr.
    rewrite (proj2 (Z.ltb_lt (bf_get REFS _) REF_MAX)); [done |]. unfold f_max in Hr. change REF_MAX with (2 ^ 64 - 2 ^ 8). cbn in *. lia.
  - exfalso. unfold is_usize in Hw. assert (E : t_state t = USIZE_MOD - 1) by lia. rewrite E in Hcan. cbn [unpack sn_cancelled] in Hcan.
    unfold bf_flag in Hcan. rewrite bf_get_div in Hcan by (done || solve_field). done.
Qed.

(** [end_poll] of a completed future, after the join handle registered a waker
    and was dropped. *)
Definition stale_join_waker t (ag : agent) : Prop :=
  (exists l, ag = Poller (P_end true l)) /\ sn_join_waker (unpack (t_state t)) = JW_Waiting
  /\ sn_has_join (unpack (t_state t)) = false.

Lemma poll_step_panics t p rest n i c :
  invariant t (Poller p :: rest) n i -> poll_step p c t = Panicked -> stale_join_waker t (Poller p).
Proof.
  intros H E. destruct p as [l | l a | | l | | completed l | l r | r | r]; destruct c as [b | | | | | wk | ans]; try done.
  all: cbn [poll_step] in E; pose proof (Forall_inv (iv_local _ _ _ _ H)) as Hl; cbn [local_ok] in Hl.
  - destruct (on_loop_panics _ _ start_flag b l _ _ t start_poll_computes start_poll_keeps (iv_usize _ _ _ _ H) Hl E)
      as (s0 & HR & [Eg | (a & s & w' & Hw' & Eg & Er)]).
    + revert Eg. pose proof (iv_cancelled _ _ _ _ H) as Hcan. unfold Snap.start_poll. rewrite Hcan. by destruct (_ || _).
    + destruct (invariant_start t l rest n i a s s0 w' _ H HR Hw' eq_refl Eg) as (-> & -> & _). done.
  - by apply on_clone_safe in E; [| apply (iv_usize _ _ _ _ H) | apply (iv_cancelled _ _ _ _ H)].
  - destruct Hl as [_ Hl].
    destruct (on_loop_panics _ _ any_flag b l _ _ t wake_by_ref_computes (keeps_any _) (iv_usize _ _ _ _ H) Hl E)
      as (s0 & _ & [Eg | (a & s & w' & Hw' & Eg & Er)]); [| done].
    revert Eg. unfold Snap.wake_by_ref. by destruct (_ || _).
  - done.
  - destruct Hl as [Hl _].
    destruct (on_loop_panics _ _ (end_flag completed) b l _ _ t (end_poll_computes completed) (end_poll_keeps completed)
      (iv_usize _ _ _ _ H) Hl E) as (s0 & HR & [Eg | (r & s & w' & Hw' & Eg & Er)]).
    + clear E. revert Eg. open_invariant H t rest. destruct pol; [| cbn in *; lia]. rewrite (Hcom eq_refl) in *.
      unfold Snap.end_poll. unpacked. rewrite (proj2 (Z.ltb_lt 0 rf)) by lia. cbn [andb negb]. destruct completed; [| done].
      unfold Snap.take_join_waker. unpacked. destruct jw; [done | destruct hj | destruct hj | by specialize (Hwok eq_refl)]; try done.
      * decide_jw. cbn in *. lia.
      * intros _. split; [by exists l |]. by rewrite Ex.
    + pose proof (invariant_end t completed l rest n i r s s0 w' _ H HR Hw' eq_refl Eg) as Hi.
      destruct s; [by destruct Hi as [-> _] | done].
Qed.

Lemma join_step_safe t j rest n i c :
  invariant t (Handle j :: rest) n i -> join_step j c t <> Panicked.
Proof.
  intros H E. destruct j as [| wk l | wk | wk | l | |]; destruct c as [b | | | | | wk' | ans]; try done.
  all: cbn [join_step] in E; pose proof (Forall_inv (iv_local _ _ _ _ H)) as Hl; cbn [local_ok] in Hl.
  - destruct (on_loop_panics _ _ any_flag b l _ _ t try_join_computes (keeps_any _) (iv_usize _ _ _ _ H) Hl E)
      as (s0 & _ & [Eg | (a & s & w' & Hw' & Eg & Er)]); [| done]. clear E. revert Eg. open_invariant H t rest.
    destruct hj; [| cbn in *; lia]. unfold Snap.try_join. unpacked. subst can.
    destruct com; [destruct (Hout eq_refl ltac:(cbn in *; lia)) as [-> _]; done |].
    destruct jw; try done; [decide_jw; cbn in *; lia | by specialize (Hwok eq_refl)].
  - by destruct (t_join_waker t).
  - destruct Hl as [_ Hl].
    destruct (on_loop_panics _ _ any_flag b l _ _ t join_waker_registered_computes (keeps_any _) (iv_usize _ _ _ _ H) Hl E)
      as (s0 & _ & [Eg | (a & s & w' & Hw' & Eg & Er)]); [| done]. clear E. revert Eg. open_invariant H t rest.
    unfold Snap.join_waker_registered. unpacked. destruct jw; try done; decide_jw; cbn in *; lia.
  - destruct Hl as [_ Hr]. by destruct (t_stage t).
  - pose proof (drop_join_handle_computes (t_state t) (iv_usize _ _ _ _ H) I) as Hc.
    destruct (drop_join_handle (t_state t)); try done. revert Hc. open_invariant H t rest. unfold Snap.remove_join_handle. unpacked.
    destruct hj; [done | cbn in *; lia].
Qed.

Lemma agent_step_panics t ag rest n i c :
  invariant t (ag :: rest) n i -> agent_step ag c t = Panicked -> stale_join_waker t ag.
Proof.
  intros H E. unfold agent_step in E. destruct (t_freed t) eqn:Efr; [done |].
  pose proof (iv_usize _ _ _ _ H) as Hw. pose proof (iv_cancelled _ _ _ _ H) as Hcan. pose proof (Forall_inv (iv_local _ _ _ _ H)) as Hl.
  destruct ag as [| l | l | | | | | | p | j]; try exact (poll_step_panics t p rest n i c H E);
    try by destruct (join_step_safe t j rest n i c H). all: destruct c as [b | | | | | wk' | ans]; try done.
  - by apply on_clone_safe in E.
  - destruct (on_loop_panics _ _ any_flag b l _ _ t wake_by_val_computes (keeps_any _) Hw Hl E)
      as (s0 & _ & [Eg | (a & s & w' & Hw' & Eg & Er)]); [| done]. revert Eg. unfold Snap.wake_by_val. by destruct (_ || _).
  - destruct (on_loop_panics _ _ any_flag b l _ _ t wake_by_ref_computes (keeps_any _) Hw Hl E)
      as (s0 & _ & [Eg | (a & s & w' & Hw' & Eg & Er)]); [| done]. revert Eg. unfold Snap.wake_by_ref. by destruct (_ || _).
  - by apply on_clone_safe in E.
  - pose proof (drop_ref_computes (t_state t) Hw I) as Hc. destruct (drop_ref (t_state t)); try done. revert Hc.
    unfold Snap.remove_ref. rewrite (iv_refs _ _ _ _ H). totals rest. cbn [total ref_of]. rewrite (proj2 (Z.eqb_neq _ 0)) by lia. done.
  - change (ref_count (t_state t)) with (sn_refs (unpack (t_state t))) in E. revert E. rewrite (iv_refs _ _ _ _ H).
    destruct (iv_freed _ _ _ _ H) as [[-> _] | [_ Hf]]; [done |]. totals rest. rewrite Efr in Hf. cbn [total freeing_of Z.b2z] in Hf. lia.
Qed.

(** No access is undefined while the task is allocated. *)
Lemma on_loop_defined {A S} (f : S -> Z -> outcome (A * S * Z)) g b l running returned t :
  computes f g -> is_usize (t_state t) -> (forall a s, returned a s <> Undefined) -> on_loop f b l running returned t <> Undefined.
Proof.
  intros Hc Hw Hr. unfold on_loop.
  assert (Ha : forall s, attempt f s (t_state t) <> Undefined).
  { intros s. unfold attempt. specialize (Hc s _ Hw). by destruct (f s (t_state t)) as [[[? ?] ?] | |]. }
  destruct (transition_step f b l (t_state t)) as [[l' w'] | |] eqn:Es; cbn; [| done |].
  - destruct l' as [| | a s]; try done. specialize (Hr a s). by destruct (returned a s).
  - destruct l as [s | cur next a s |]; cbn in Es; [specialize (Ha s); by destruct (attempt f s _) | | done].
    destruct (_ && _); [done |]. specialize (Ha s). by destruct (attempt f s _).
Qed.

Lemma agent_step_defined t ag c : t_freed t = false -> is_usize (t_state t) -> agent_step ag c t <> Undefined.
Proof.
  intros Hf Hw. unfold agent_step. rewrite Hf.
  assert (Hclone : forall ags, on_clone ags t <> Undefined).
  { intros ags. unfold on_clone, clone_ref, assert_. by repeat case_match. }
  destruct ag as [| l | l | | | | | | [l | | | l | | cpl l | | |] | [| wk l | | | l | |]], c as [b | | | | | wk' | ans]; try done; cbn [poll_step join_step];
    try apply Hclone; try (eapply on_loop_defined; [first [exact wake_by_val_computes | exact wake_by_ref_computes | exact start_poll_computes
      | exact (end_poll_computes cpl) | exact try_join_computes | exact join_waker_registered_computes] | done |];
      by intros ? []; unfold assert_; repeat case_match).
  - pose proof (drop_ref_computes (t_state t) Hw I) as Hc. by destruct (drop_ref (t_state t)) as [[? ?] | |].
  - unfold assert_. by case_match.
  - by case_match.
  - by destruct (t_stage t).
  - pose proof (drop_join_handle_computes (t_state t) Hw I) as Hc. by destruct (drop_join_handle (t_state t)) as [[? ?] | |].
Qed.

(** Any agent of the system can be taken to the front. *)
Lemma invariant_front t ags n i ag : invariant t ags n i -> ag ∈ ags -> exists rest, ags ≡ₚ ag :: rest /\ invariant t (ag :: rest) n i.
Proof.
  intros H (l1 & l2 & ->)%list_elem_of_split. exists (l1 ++ l2).
  split; [symmetry; apply Permutation_middle |]. eapply invariant_perm; [symmetry; apply Permutation_middle | done].
Qed.

(** Agents that are about to access the join waker. *)
Definition slot_of (ag : agent) : Z :=
  match ag with Poller (P_wake_join _) | Handle (J_register _ | J_reregister _) => 1 | _ => 0 end.

Lemma slot_at_most_one t ags n i : invariant t ags n i -> total slot_of ags <= 1.
Proof.
  intros H. pose proof (iv_writing _ _ _ _ H) as Hwri. pose proof (iv_finishing _ _ _ _ H) as Hfin.
  destruct (sn_join_waker (unpack (t_state t))) eqn:Ej; decide_jw; cbn [Z.b2z] in Hwri.
  2: { assert (Hle : total slot_of ags <= total writing_of ags); [| lia]. apply total_le_in.
       eapply Forall_impl; [exact (iv_local _ _ _ _ H) |]. intros ag Hl.
       destruct ag as [| | | | | | | | [] | []]; cbn; try lia. cbn [local_ok] in Hl. unfold jw_set in Hl. rewrite Ej in Hl. by destruct Hl as (_ & _ & ?). }
  all: assert (Hle : total slot_of ags <= total (fun ag => writing_of ag + finishing_of ag) ags)
         by (apply total_le; intros [| | | | | | | | [] | []]; cbn; lia).
  all: rewrite total_plus in Hle; destruct (sn_complete _); cbn in *; lia.
Qed.

(** C32: memory safety of tasks.  In every state that any interleaving of
    polling, waking, joining, cloning and dropping reaches, the count of the
    state word is the number of references.  The task is deallocated exactly when
    nobody is left: while there are references neither has it been deallocated nor
    is it about to be, once there are none it has been, or one agent is about to,
    and never two are.  No access to a deallocated task happens.  At most one agent is
    inside the future or takes its output, and at most one is about to access
    the join waker. *)
Theorem task_safe (s : system O) :
  reachable s ->
  refcount (t_state (sy_task s)) = total ref_of (sy_agents s)
  /\ (t_freed (sy_task s) = true <-> sy_agents s = [])
  /\ total freeing_of (sy_agents s) + Z.b2z (t_freed (sy_task s)) = Z.b2z (bool_decide (total ref_of (sy_agents s) = 0))
  /\ (forall ag c, ag ∈ sy_agents s -> agent_step ag c (sy_task s) = Undefined -> False)
  /\ total polling_of (sy_agents s) + total taking_of (sy_agents s) <= 1
  /\ total slot_of (sy_agents s) <= 1.
Proof.
  intros Hr. pose proof (reachable_invariant s Hr) as H. destruct s as [t ags n i]. cbn [sy_task sy_agents sy_notified sy_ignored] in *.
  assert (Hempty : t_freed t = true -> ags = []).
  { intros Hf. destruct ags as [| ag ags]; [done |]. pose proof (iv_freed _ _ _ _ H) as Hfr. rewrite Hf in Hfr. totals ags.
    pose proof (weights_nonneg ag). assert (Hd : 0 < ref_of ag + freeing_of ag) by (by destruct ag). cbn [total Z.b2z] in Hfr. lia. }
  split_and!; [apply (iv_refs _ _ _ _ H) | split; [done | intros ->] | | | |].
  - pose proof (iv_freed _ _ _ _ H) as Hfr. cbn in Hfr. destruct (t_freed t); [done |]. cbn in Hfr. lia.
  - pose proof (iv_freed _ _ _ _ H) as Hfr. case_bool_decide; cbn [Z.b2z]; lia.
  - intros ag c Hin E. destruct (invariant_front t ags n i ag H Hin) as (rest & _ & H').
    destruct (t_freed t) eqn:Ef; [by rewrite (Hempty eq_refl) in Hin; apply elem_of_nil in Hin |].
    by apply agent_step_defined in E; [..| apply (iv_usize _ _ _ _ H)].
  - pose proof (iv_polling _ _ _ _ H) as Hp. pose proof (iv_taking _ _ _ _ H) as Ht. pose proof (iv_complete _ _ _ _ H) as Hc.
    destruct (sn_polling _); [rewrite (Hc eq_refl) in Ht; cbn in *; lia | destruct (sn_complete _); cbn in *; lia].
  - by apply (slot_at_most_one t ags n i).
Qed.

(** The assertions of the state protocol hold.  The only access that can
    panic is [end_poll] of a future that completed, when the join handle had
    registered its waker and was dropped since. *)
Theorem task_panics (s : system O) ag : reachable s -> panics s ag -> stale_join_waker (sy_task s) ag.
Proof.
  intros Hr [Hin [c E]]. pose proof (reachable_invariant s Hr) as H.
  destruct (invariant_front _ _ _ _ ag H Hin) as (rest & _ & H'). by apply (agent_step_panics _ ag rest _ _ c H').
Qed.

(** C33: no wakeup is lost.  If a wake took effect since the last poll of the
    task began, other than a [wake_by_val] during that poll, and the task is
    not complete, then exactly one agent is scheduling, queueing or polling
    the task; and while it is polled [WOKEN] is set, with which [end_poll]
    reschedules it. *)
Theorem no_lost_wakeup (s : system O) :
  reachable s -> sy_notified s = true -> sy_ignored s = false -> bf_flag COMPLETE (t_state (sy_task s)) = false ->
  total token_of (sy_agents s) = 1
  /\ (0 < total polling_of (sy_agents s) ->
      bf_flag WOKEN (t_state (sy_task s)) = true
      /\ exists w', end_poll_fn false false (t_state (sy_task s)) = Done (PendingSchedule, false, w')).
Proof.
  intros Hr Hn Hi Hc. pose proof (reachable_invariant s Hr) as H. destruct (iv_notified _ _ _ _ H Hn Hi Hc) as [Ht Hw].
  split; [done |]. intros Hp. pose proof (iv_polling _ _ _ _ H) as Hpol.
  destruct (sn_polling (unpack (t_state (sy_task s)))) eqn:Ep; [| cbn in Hpol; lia]. specialize (Hw eq_refl). split; [done |].
  assert (Hrefs : 0 < sn_refs (unpack (t_state (sy_task s)))).
  { rewrite (iv_refs _ _ _ _ H). pose proof (total_le polling_of ref_of (sy_agents s)) as Hle.
    enough (total polling_of (sy_agents s) <= total ref_of (sy_agents s)) by lia. apply Hle. intros [| | | | | | | | [] |]; cbn; lia. }
  pose proof (end_poll_computes false false _ (iv_usize _ _ _ _ H)) as He. unfold Snap.end_poll in He.
  change (bf_flag COMPLETE (t_state (sy_task s))) with (sn_complete (unpack (t_state (sy_task s)))) in Hc.
  rewrite Ep, Hc, Hw, (proj2 (Z.ltb_lt _ _) Hrefs) in He. cbn [andb negb] in He.
  destruct (end_poll_fn false false _) as [[[r f] w'] | |]; [| done..]. destruct He as [_ [= <- <- _]]. by exists w'.
Qed.

End preservation.

(** ** The state word implements the unpacked state *)

Section refinement.
Context {bf : Bitfield} {bfl : BitfieldLaws}.

(** C34: the packed representation is correct.  On every word, each operation
    of the task state returns, panics and changes the fields as specified on
    the unpacked state; counting references up and down does not disturb the
    flags as long as the count fits its 56 bits. *)
Theorem task_state_refines :
  (computes start_poll_fn Snap.start_poll /\ (forall completed, computes (end_poll_fn completed) (Snap.end_poll completed))
   /\ computes try_join_fn Snap.try_join /\ computes join_waker_registered_fn Snap.join_waker_registered
   /\ computes wake_by_val_fn Snap.wake_by_val /\ computes wake_by_ref_fn Snap.wake_by_ref
   /\ computes cancel_fn Snap.cancel /\ computes create_join_handle_fn Snap.create_join_handle)
  /\ computes_rmw clone_ref Snap.add_ref (fun x => sn_refs x < f_max REFS)
  /\ computes_rmw drop_ref Snap.remove_ref (fun _ => True)
  /\ computes_rmw drop_join_handle Snap.remove_join_handle (fun _ => True).
Proof.
  split_and!; [exact start_poll_computes | exact end_poll_computes | exact try_join_computes | exact join_waker_registered_computes
    | exact wake_by_val_computes | exact wake_by_ref_computes | exact cancel_computes | exact create_join_handle_computes
    | exact clone_ref_computes | exact drop_ref_computes | exact drop_join_handle_computes].
Qed.

End refinement.

(** ** Executions *)

Section executions.
Context {bf : Bitfield} {O : Type}.

(** The [i]-th agent performs its next access. *)
Definition step_at (i : nat) (c : choice O) (s : system O) : option (system O) :=
  match sy_agents s !! i with
  | Some ag =>
      match agent_step ag c (sy_task s) with
      | Done (ags, t') =>
          let agents := take i (sy_agents s) ++ ags ++ drop (S i) (sy_agents s) in
          let h := history ag (t_state (sy_task s)) ags (sy_notified s, sy_ignored s) in
          if total ref_of agents <=? f_max REFS then Some (MkSystem t' agents h.1 h.2) else None
      | _ => None
      end
  | None => None
  end.

Fixpoint exec (steps : list (nat * choice O)) (s : system O) : option (system O) :=
  match steps with
  | [] => Some s
  | (i, c) :: steps' => match step_at i c s with Some s' => exec steps' s' | None => None end
  end.

Lemma step_at_step i c s s' : step_at i c s = Some s' -> system_step s s'.
Proof.
  unfold step_at. destruct (sy_agents s !! i) as [ag |] eqn:Ei; [| done].
  destruct (agent_step ag c (sy_task s)) as [[ags t'] | |] eqn:E; [| done..].
  destruct (Z.leb_spec (total ref_of (take i (sy_agents s) ++ ags ++ drop (S i) (sy_agents s))) (f_max REFS)) as [Hf |]; [| done].
  intros [= <-]. destruct s as [t agents n ig]. cbn [sy_task sy_agents sy_notified sy_ignored] in *.
  rewrite <- (take_drop_middle agents i ag Ei) at 1. by apply (sys_step _ _ _ _ _ _ c).
Qed.

Lemma exec_reachable steps s s' : reachable s -> exec steps s = Some s' -> reachable s'.
Proof.
  revert s. induction steps as [| [i c] steps IH]; intros s Hr; cbn; [by intros [= <-] |].
  destruct (step_at i c s) as [s1 |] eqn:E; [| done]. apply IH. eapply reach_step; [done | by eapply step_at_step].
Qed.

End executions.

(** ** Concrete executions *)

#[local] Instance task_bitfield : Bitfield := shift_mask.
#[local] Instance task_bitfield_laws : BitfieldLaws := shift_mask_laws.

Definition task_word : Z := match new_allocated with Done w => w | _ => 0 end.

Definition demo_task : system unit := spawned task_word.

Lemma demo_task_reachable : reachable demo_task.
Proof. apply reach_init. by vm_compute. Qed.

(** The task is dequeued and polled; the future keeps a clone of its waker. *)
Definition demo_poll : list (nat * choice unit) :=
  [(0, Go false); (0, Go false); (0, Go false); (0, DoClone)]%nat.

Definition demo_run (steps : list (nat * choice unit)) : system unit :=
  match exec steps demo_task with Some s => s | None => demo_task end.

Lemma demo_run_reachable steps : reachable (demo_run steps).
Proof.
  unfold demo_run. destruct (exec steps demo_task) as [s |] eqn:E; [| exact demo_task_reachable].
  exact (exec_reachable steps demo_task s demo_task_reachable E).
Qed.

Lemma task_safe_witness : refcount (t_state (sy_task (demo_run demo_poll))) = 3 /\ total slot_of (sy_agents (demo_run demo_poll)) <= 1.
Proof.
  destruct (task_safe (demo_run demo_poll)) as (H1 & _ & _ & _ & _ & H2).
  - exact (demo_run_reachable demo_poll).
  - split; [rewrite H1; vm_compute; reflexivity | exact H2].
Defined.

(** The waker wakes the task by reference while it is polled. *)
Definition demo_wake : list (nat * choice unit) :=
  demo_poll ++ [(1, DoWakeByRef); (1, Go false); (1, Go false); (0, FutureAnswers FutPending)]%nat.

Lemma no_lost_wakeup_witness : total token_of (sy_agents (demo_run demo_wake)) = 1.
Proof.
  apply (no_lost_wakeup (demo_run demo_wake)).
  - exact (demo_run_reachable demo_wake).
  - vm_compute. reflexivity.
  - vm_compute. reflexivity.
  - vm_compute. reflexivity.
Defined.

(** The handle is polled, which registers a waker, and dropped; then the future
    completes. *)
Definition demo_drop_handle : list (nat * choice unit) :=
  [(1, DoJoin 7); (1, Go false); (1, Go false); (1, Go false); (1, Go false); (1, Go false); (1, DoDrop); (1, Go false);
   (0, Go false); (0, Go false); (0, Go false); (0, FutureAnswers (FutReady tt))]%nat.

Example dropped_handle_panics : panics (demo_run demo_drop_handle) (Poller (P_end true (Loading false))).
Proof.
  split; [| exists (Go false); by vm_compute]. replace (sy_agents _) with [Poller (P_end true (Loading false)); Dropping] by by vm_compute. left.
Qed.

Lemma task_panics_witness : stale_join_waker (sy_task (demo_run demo_drop_handle)) (Poller (P_end true (Loading false))).
Proof.
  apply (task_panics (demo_run demo_drop_handle)).
  - exact (demo_run_reachable demo_drop_handle).
  - exact dropped_handle_panics.
Defined.

Lemma task_state_refines_witness :
  match @end_poll_fn shift_mask true false 0x131 with
  | Done (a, s, w') => a = ReadyJoined /\ s = true /\ sn_complete (unpack w') = true
  | _ => False
  end.
Proof.
  destruct (task_state_refines (bf := shift_mask) (bfl := shift_mask_laws)) as ((_ & H & _) & _).
  specialize (H true false 0x131 ltac:(split; reflexivity || discriminate)). vm_compute in H. by vm_compute.
Defined.

(** A wake by value while the task is polled is lost: the task is pending, has
    been woken, and nobody but its join handle refers to it. *)
Definition demo_lost : list (nat * choice unit) :=
  demo_poll ++ [(1, DoWake); (1, Go false); (0, FutureAnswers FutPending); (0, Go false); (0, Go false); (0, Go false);
                (0, Go false); (0, Go false)]%nat.

Example lost_wakeup :
  reachable (demo_run demo_lost) /\ sy_notified (demo_run demo_lost) = true
  /\ sn_complete (unpack (t_state (sy_task (demo_run demo_lost)))) = false /\ sy_agents (demo_run demo_lost) = [Handle J_idle].
Proof. split; [exact (demo_run_reachable demo_lost) | by vm_compute]. Qed.

(** Cancelling a task sets its flags and panics. *)
Example cancel_not_implemented : task_cancel task_word = Panicked.
Proof. by vm_compute. Qed.
