(* ===== verification/RwLock.v ===== *)
(** * The reader-writer spinlock (lib/spin/src/rw_lock.rs)

    The lock is one word: bit 0 [WRITER], bit 1 [UPGRADED], and the number of
    readers above.  An agent is a thread: outside, holding a guard, or between
    two accesses of an operation.  The spinning operations [read], [write],
    [upgradeable_read] and [upgrade] repeat the corresponding attempt; the
    backoff does not touch the lock.  The [force_] functions, whose contract is
    that the caller knows better, are not operations of agents. *)

From stdpp Require Import base numbers list.
From Stdlib Require Import ZArith Lia.
From S2P Require Import Prelude Interleaving.

Definition READER : Z := Z.shiftl 1 2.
Definition UPGRADED : Z := Z.shiftl 1 1.
Definition WRITER : Z := 1.

(** [usize::MAX / READER / 2] *)
Definition MAX_READERS : Z := (USIZE_MOD - 1) / READER / 2.

(** The complement of a mask, [!m]. *)
Definition unot (m : Z) : Z := USIZE_MOD - 1 - m.

(** What can be asked of the lock without taking it. *)
Definition rw_is_locked (w : Z) : bool := negb (w =? 0).
Definition is_locked_exclusive (w : Z) : bool := negb (Z.land w WRITER =? 0).
Definition reader_count (w : Z) : Z := w / READER + Z.land w UPGRADED / UPGRADED.
Definition writer_count (w : Z) : Z := Z.land w WRITER / WRITER.

(** ** Threads *)

Inductive rw_thread : Type :=
| Outside
| ReadUndo                          (* [try_read] found the lock taken *)
| TooManyReaders                    (* [acquire_reader] is about to panic *)
| ReadGuard
| ReadUnlock                        (* in [drop], after the assertion *)
| UpgradableGuard
| UpgradableDowngrade               (* in [downgrade], having reserved a read guard *)
| UpgradableUnlock (next : rw_thread)  (* in [drop], after the assertion *)
| WriteGuard
| WriteDowngrade
| WriteUnlock (next : rw_thread)
| WriteToUpgradable.                (* in [downgrade_to_upgradeable], after the assertion *)

Inductive rw_op : Type :=
| Continue
| TryRead
| TryWrite (strong spurious : bool)
| TryUpgradeableRead
| TryUpgrade (strong spurious : bool)
| Downgrade
| DowngradeToUpgradeable
| Drop.

(** [acquire_reader]: the value found, or the count is too large. *)
Definition acquire_reader (w : Z) : option Z * Z :=
  (if MAX_READERS * READER <? w then None else Some w, wrapping_add w READER).

(** [compare_exchange]: a weak exchange may fail spuriously. *)
Definition compare_exchange (current new : Z) (strong spurious : bool) (w : Z) : bool * Z :=
  if (w =? current) && (strong || negb spurious) then (true, new) else (false, w).

(** ** The accesses of each operation: what the thread has become, and the word. *)

Definition try_read (w : Z) : outcome (list rw_thread * Z) :=
  match acquire_reader w with
  | (None, w') => mret ([TooManyReaders], w')
  | (Some value, w') =>
      mret ([if Z.land value (Z.lor WRITER UPGRADED) =? 0 then ReadGuard else ReadUndo], w')
  end.

Definition try_write_internal (strong spurious : bool) (w : Z) : outcome (list rw_thread * Z) :=
  let r := compare_exchange 0 WRITER strong spurious w in
  mret ([if r.1 : bool then WriteGuard else Outside], r.2).

Definition try_upgradeable_read (w : Z) : outcome (list rw_thread * Z) :=
  mret ([if Z.land w (Z.lor WRITER UPGRADED) =? 0 then UpgradableGuard else Outside], Z.lor w UPGRADED).

(** The destructor of a read guard: the assertion reads the word, then the count is decremented. *)
Definition read_drop (w : Z) : outcome (list rw_thread * Z) :=
  _ ← assert_ (0 <? Z.land w (unot (Z.lor WRITER UPGRADED)));
  mret ([ReadUnlock], w).

Definition try_upgrade_internal (strong spurious : bool) (w : Z) : outcome (list rw_thread * Z) :=
  let r := compare_exchange UPGRADED WRITER strong spurious w in
  mret ([if r.1 : bool then WriteGuard else UpgradableGuard], r.2).

(** [downgrade] of an upgradable guard; it drops the guard next. *)
Definition upgradable_downgrade (w : Z) : outcome (list rw_thread * Z) :=
  match acquire_reader w with
  | (None, w') => mret ([TooManyReaders], w')
  | (Some _, w') => mret ([UpgradableDowngrade], w')
  end.

(** The destructor of an upgradable guard, in a thread that then is [next]. *)
Definition upgradable_drop (next : rw_thread) (w : Z) : outcome (list rw_thread * Z) :=
  _ ← assert_ (Z.land w (Z.lor WRITER UPGRADED) =? UPGRADED);
  mret ([UpgradableUnlock next], w).

(** [downgrade] of a write guard; it drops the guard next. *)
Definition write_downgrade (w : Z) : outcome (list rw_thread * Z) :=
  match acquire_reader w with
  | (None, w') => mret ([TooManyReaders], w')
  | (Some _, w') => mret ([WriteDowngrade], w')
  end.

Definition downgrade_to_upgradeable (w : Z) : outcome (list rw_thread * Z) :=
  _ ← assert_ (Z.land w (Z.lor WRITER UPGRADED) =? WRITER);
  mret ([WriteToUpgradable], w).

(** The destructor of a write guard, in a thread that then is [next]. *)
Definition write_drop (next : rw_thread) (w : Z) : outcome (list rw_thread * Z) :=
  _ ← assert_ (Z.land w WRITER =? WRITER);
  mret ([WriteUnlock next], w).

(** One access of a thread: the next of the operation it is in, or the first
    of an operation it starts.  [read], [write], [upgradeable_read] and
    [upgrade] repeat the operation that tries. *)
Definition rw_step (th : rw_thread) (op : rw_op) (w : Z) : outcome (list rw_thread * Z) :=
  match th, op with
  | Outside, TryRead => try_read w
  | ReadUndo, Continue => mret ([Outside], wrapping_sub w READER)
  | TooManyReaders, Continue => Panicked
  | Outside, TryWrite strong spurious => try_write_internal strong spurious w
  | Outside, TryUpgradeableRead => try_upgradeable_read w
  | ReadGuard, Drop => read_drop w
  | ReadUnlock, Continue => mret ([Outside], wrapping_sub w READER)
  | UpgradableGuard, TryUpgrade strong spurious => try_upgrade_internal strong spurious w
  | UpgradableGuard, Downgrade => upgradable_downgrade w
  | UpgradableGuard, Drop => upgradable_drop Outside w
  | UpgradableDowngrade, Continue => upgradable_drop ReadGuard w
  | UpgradableUnlock next, Continue => mret ([next], wrapping_sub w UPGRADED)
  | WriteGuard, Downgrade => write_downgrade w
  | WriteGuard, DowngradeToUpgradeable => downgrade_to_upgradeable w
  | WriteToUpgradable, Continue => mret ([UpgradableGuard], UPGRADED)
  | WriteGuard, Drop => write_drop Outside w
  | WriteDowngrade, Continue => write_drop ReadGuard w
  | WriteUnlock next, Continue => mret ([next], Z.land w (unot (Z.lor WRITER UPGRADED)))
  | _, _ => mret ([th], w)
  end.

(** The lock without [downgrade_to_upgradeable]. *)
Definition rw_step_core (th : rw_thread) (op : rw_op) (w : Z) : outcome (list rw_thread * Z) :=
  match op with DowngradeToUpgradeable => mret ([th], w) | _ => rw_step th op w end.

(** [n] threads and a new lock. *)
Definition rw_init (n : nat) : Z * list rw_thread := (0, replicate n Outside).

(** ** Counting guards *)

Definition writing (th : rw_thread) : Z :=
  match th with WriteGuard | WriteDowngrade | WriteUnlock _ | WriteToUpgradable => 1 | _ => 0 end.
Definition upgradable (th : rw_thread) : Z :=
  match th with UpgradableGuard | UpgradableDowngrade | UpgradableUnlock _ => 1 | _ => 0 end.
Definition reading (th : rw_thread) : Z := match th with ReadGuard | ReadUnlock => 1 | _ => 0 end.

(** Threads that are counted as readers: with a read guard, with one reserved,
    or about to undo an attempt. *)
Definition counted (th : rw_thread) : Z :=
  match th with
  | ReadUndo | ReadGuard | ReadUnlock | UpgradableDowngrade | WriteDowngrade => 1
  | UpgradableUnlock ReadGuard | WriteUnlock ReadGuard => 1
  | _ => 0
  end.

Definition thread_ok (th : rw_thread) : Prop :=
  match th with
  | TooManyReaders | WriteToUpgradable => False
  | UpgradableUnlock next | WriteUnlock next => next = Outside \/ next = ReadGuard
  | _ => True
  end.

(** ** The word *)

Definition lock_word (readers : Z) (u wr : bool) : Z := 4 * readers + 2 * Z.b2z u + Z.b2z wr.

Section word.
Context (a : Z) (Ha : 0 <= a) (u wr : bool).

Lemma word_low : Z.land (lock_word a u wr) 3 = 2 * Z.b2z u + Z.b2z wr.
Proof.
  change 3 with (2 ^ 2 - 1). rewrite land_low_mask by done. unfold lock_word. change (2 ^ 2) with 4.
  replace (4 * a + 2 * Z.b2z u + Z.b2z wr) with (2 * Z.b2z u + Z.b2z wr + a * 4) by lia.
  rewrite Z.mod_add by done. apply Z.mod_small. by destruct u, wr.
Qed.

Lemma word_writer : Z.land (lock_word a u wr) 1 = Z.b2z wr.
Proof.
  change 1 with (2 ^ 1 - 1) at 1. rewrite land_low_mask by done. unfold lock_word. change (2 ^ 1) with 2.
  replace (4 * a + 2 * Z.b2z u + Z.b2z wr) with (Z.b2z wr + (2 * a + Z.b2z u) * 2) by lia.
  rewrite Z.mod_add by done. apply Z.mod_small. by destruct wr.
Qed.

Lemma word_readers : lock_word a u wr < USIZE_MOD -> Z.land (lock_word a u wr) (unot 3) = 4 * a.
Proof.
  intros Hw. change (unot 3) with (wrapping_sub 0 (2 ^ 2)).
  rewrite land_high_mask by (done || (unfold is_usize, lock_word in *; destruct u, wr; cbn in *; lia)).
  pose proof word_low as Hl. change 3 with (2 ^ 2 - 1) in Hl. rewrite land_low_mask in Hl by done. rewrite Hl. unfold lock_word. lia.
Qed.

Lemma word_upgrade : Z.lor (lock_word a u wr) 2 = lock_word a true wr.
Proof.
  assert (E : forall b, lock_word a b wr = Z.lor (4 * a) (2 * Z.b2z b + Z.b2z wr)).
  { intros b. rewrite (lor_add _ _ 2) by (done || (by rewrite Z.mul_comm, Z.mod_mul) || by destruct b, wr). unfold lock_word. lia. }
  rewrite !E, <- Z.lor_assoc. f_equal. by destruct u, wr.
Qed.

End word.

(** ** The invariant *)

Record rw_invariant (n : nat) (w : Z) (ths : list rw_thread) (u wr : bool) : Prop := {
  rwi_threads : length ths = n;
  rwi_ok : Forall thread_ok ths;
  rwi_word : w = lock_word (total counted ths) u wr;
  rwi_writing : total writing ths = Z.b2z wr;
  rwi_shared : wr = false -> total upgradable ths = Z.b2z u;
  rwi_exclusive : wr = true -> total upgradable ths = 0 /\ total reading ths = 0;
}.

Lemma rw_thread_weights th :
  0 <= writing th /\ 0 <= upgradable th /\ 0 <= reading th <= counted th /\ counted th <= 1.
Proof. destruct th as [| | | | | | | [] | | | [] |]; cbn; lia. Qed.

Lemma counted_length l : total counted l <= Z.of_nat (length l).
Proof. induction l as [| th l IH]; cbn [total length]; [done | pose proof (rw_thread_weights th); lia]. Qed.

Ltac weights := cbn [app total length counted writing upgradable reading Z.b2z] in *.

Ltac open_rw H rest :=
  destruct H as [Hlen Hok _ Hwri Hsha Hexc]; apply Forall_cons in Hok as [Hth Hok];
  pose proof (total_nonneg writing rest ltac:(intros; apply rw_thread_weights));
  pose proof (total_nonneg upgradable rest ltac:(intros; apply rw_thread_weights));
  pose proof (total_nonneg reading rest ltac:(intros; apply rw_thread_weights));
  pose proof (total_le reading counted rest ltac:(intros; apply rw_thread_weights));
  pose proof (counted_length rest); weights.

Ltac use_cases :=
  repeat match goal with H : ?b = ?b -> _ |- _ => specialize (H eq_refl) | H : _ /\ _ |- _ => destruct H end.

Ltac prove_rw :=
  constructor; weights; [lia | constructor; [cbn; auto | done] | unfold lock_word in *; weights; lia | lia
    | intros Hcase; subst; try done; use_cases; weights; lia..].

Section preservation.
Context (n : nat) (Hn : Z.of_nat n < 2 ^ 60).

Lemma word_bounds w ths u wr : rw_invariant n w ths u wr -> 0 <= w <= MAX_READERS * READER /\ 0 <= total counted ths.
Proof.
  intros [Hlen _ -> _ _ _]. pose proof (counted_length ths).
  assert (0 <= total counted ths) by (apply total_nonneg; intros th; pose proof (rw_thread_weights th); lia).
  unfold lock_word. change (MAX_READERS * READER) with 9223372036854775804. change (2 ^ 60) with 1152921504606846976 in Hn.
  destruct u, wr; cbn [Z.b2z]; lia.
Qed.

(** A reader is added to the count, or taken off it. *)
Lemma acquire_word w ths u wr :
  rw_invariant n w ths u wr -> acquire_reader w = (Some w, lock_word (total counted ths + 1) u wr).
Proof.
  intros H. destruct (word_bounds _ _ _ _ H) as [Hb _]. unfold acquire_reader. rewrite (proj2 (Z.ltb_ge _ _) (proj2 Hb)). f_equal.
  unfold wrapping_add. rewrite wrap_small.
  - rewrite (rwi_word _ _ _ _ _ H). change READER with 4. unfold lock_word. lia.
  - revert Hb. change (MAX_READERS * READER) with 9223372036854775804. change READER with 4. unfold is_usize. lia.
Qed.

Lemma release_word w ths u wr d :
  rw_invariant n w ths u wr -> 0 <= d <= w -> wrapping_sub w d = w - d.
Proof.
  intros H Hd. destruct (word_bounds _ _ _ _ H) as [Hb _]. unfold wrapping_sub. apply wrap_small.
  revert Hb. change (MAX_READERS * READER) with 9223372036854775804. unfold is_usize. lia.
Qed.

(** What the operations read of the word. *)
Lemma read_word w ths u wr :
  rw_invariant n w ths u wr ->
  Z.land w 3 = 2 * Z.b2z u + Z.b2z wr /\ Z.land w 1 = Z.b2z wr /\ Z.land w (unot 3) = 4 * total counted ths
  /\ Z.lor w 2 = lock_word (total counted ths) true wr.
Proof.
  intros H. destruct (word_bounds _ _ _ _ H) as [Hb Ha]. pose proof (rwi_word _ _ _ _ _ H) as Hw. split_and!.
  - rewrite Hw. by apply word_low.
  - rewrite Hw. by apply word_writer.
  - rewrite Hw. apply word_readers; [done |]. rewrite <- Hw. revert Hb. change (MAX_READERS * READER) with 9223372036854775804. lia.
  - rewrite Hw. by apply word_upgrade.
Qed.

Lemma rw_step_invariant w th rest u wr op ths w' :
  rw_invariant n w (th :: rest) u wr -> rw_step_core th op w = Done (ths, w') ->
  exists u' wr', rw_invariant n w' (ths ++ rest) u' wr'.
Proof.
  intros H E. pose proof (word_bounds _ _ _ _ H) as [Hb Ha]. pose proof (acquire_word _ _ _ _ H) as Hacq.
  pose proof (fun d => release_word _ _ _ _ d H) as Hrel. destruct (read_word _ _ _ _ H) as (Hlow & Hone & Hhigh & Hor).
  pose proof (rwi_word _ _ _ _ _ H) as Hw.
  assert (Hsame : Done ([th], w) = Done (ths, w') -> exists u' wr', rw_invariant n w' (ths ++ rest) u' wr')
    by (intros [= <- <-]; by exists u, wr).
  destruct op as [| | strong spur | | strong spur | | |], th as [| | | | | | | next | | | next |]; try exact (Hsame E);
    cbn [rw_step_core rw_step] in E;
    unfold try_read, try_write_internal, try_upgradeable_read, read_drop, try_upgrade_internal, upgradable_downgrade, upgradable_drop, write_downgrade, write_drop in E;
    change (Z.lor WRITER UPGRADED) with 3 in E; change READER with 4 in E; change UPGRADED with 2 in E;
    change WRITER with 1 in E; try done.
  - injection E as <- <-. open_rw H rest. unfold lock_word in Hw. rewrite Hrel by (destruct u, wr; weights; lia). exists u, wr. prove_rw.
  - injection E as <- <-. open_rw H rest. unfold lock_word in Hw. rewrite Hrel by (destruct u, wr; weights; lia). exists u, wr. prove_rw.
  - rewrite Hlow in E. destruct (_ =? 2); [| done]. injection E as <- <-. open_rw H rest. exists u, wr. prove_rw.
  - injection E as <- <-. open_rw H rest. unfold lock_word in Hw. destruct wr; [destruct (Hexc eq_refl); lia |].
    destruct u; [| specialize (Hsha eq_refl); weights; lia]. rewrite Hrel by (weights; lia). exists false, false.
    destruct Hth as [-> | ->]; prove_rw.
  - rewrite Hone in E. destruct (_ =? 1); [| done]. injection E as <- <-. open_rw H rest. exists u, wr. prove_rw.
  - injection E as <- <-. rewrite Hhigh. open_rw H rest. destruct wr; [| weights; lia]. exists false, false.
    destruct (Hexc eq_refl). destruct Hth as [-> | ->]; prove_rw.
  - by open_rw H rest.
  - rewrite Hacq, Hlow in E. destruct (_ =? 0) eqn:El; injection E as <- <-; open_rw H rest.
    + exists false, false. destruct u, wr; try done. prove_rw.
    + exists u, wr. prove_rw.
  - unfold compare_exchange in E. destruct (Z.eqb_spec w 0) as [E0 |]; [| by apply Hsame]. destruct (_ || _); [| by apply Hsame].
    injection E as <- <-. open_rw H rest. unfold lock_word in Hw. exists false, true. destruct u, wr; weights; try lia. prove_rw.
  - rewrite Hlow, Hor in E. destruct (_ =? 0) eqn:El; injection E as <- <-; open_rw H rest; destruct u, wr; try done; weights.
    + exists true, false. prove_rw.
    + exists true, true. prove_rw.
    + exists true, false. prove_rw.
    + exists true, true. prove_rw.
  - unfold compare_exchange in E. destruct (Z.eqb_spec w 2) as [E0 |]; [| by apply Hsame]. destruct (_ || _); [| by apply Hsame].
    injection E as <- <-. open_rw H rest. unfold lock_word in Hw. exists false, true. destruct u, wr; weights; try lia. prove_rw.
  - rewrite Hacq in E. injection E as <- <-. open_rw H rest. exists u, wr. prove_rw.
  - rewrite Hacq in E. injection E as <- <-. open_rw H rest. exists u, wr. prove_rw.
  - destruct (0 <? _); [| done]. injection E as <- <-. open_rw H rest. exists u, wr. prove_rw.
  - destruct (_ =? 2); [| done]. injection E as <- <-. open_rw H rest. exists u, wr. prove_rw.
  - destruct (_ =? 1); [| done]. injection E as <- <-. open_rw H rest. exists u, wr. prove_rw.
Qed.

(** The assertions hold, and the count never gets too large. *)
Lemma rw_step_safe w th rest u wr op : rw_invariant n w (th :: rest) u wr -> exists r, rw_step_core th op w = Done r.
Proof.
  intros H. pose proof (acquire_word _ _ _ _ H) as Hacq. destruct (read_word _ _ _ _ H) as (Hlow & Hone & Hhigh & _).
  destruct op as [| | strong spur | | strong spur | | |], th as [| | | | | | | next | | | next |]; try by eexists.
  all: cbn [rw_step_core rw_step];
    unfold try_read, try_write_internal, try_upgradeable_read, read_drop, try_upgrade_internal, upgradable_downgrade, upgradable_drop, write_downgrade, write_drop;
    change (Z.lor WRITER UPGRADED) with 3; change UPGRADED with 2; change WRITER with 1;
    rewrite ?Hacq; try by eexists.
  all: rewrite ?Hlow, ?Hone, ?Hhigh; open_rw H rest; try done.
  all: destruct wr; try (destruct (Hexc eq_refl)); try specialize (Hsha eq_refl); destruct u; weights; try lia; try by eexists.
  all: rewrite (proj2 (Z.ltb_lt 0 _)) by lia; by eexists.
Qed.

Lemma rw_reached_invariant w ths :
  reached rw_step_core (rw_init n) (w, ths) -> exists u wr, rw_invariant n w ths u wr.
Proof.
  apply (reached_invariant rw_step_core (fun w ths => exists u wr, rw_invariant n w ths u wr)).
  - intros s l l' Hp (u & wr & []). exists u, wr. pose proof (fun f : rw_thread -> Z => total_perm f l l' Hp) as Ht.
    constructor; rewrite <- ?Ht, <- ?Hp; done.
  - intros s th rest op ths' s' (u & wr & H) E. by apply (rw_step_invariant s th rest u wr op).
  - exists false, false. cbn [rw_init fst snd].
    assert (Ht : forall f : rw_thread -> Z, f Outside = 0 -> total f (replicate n Outside) = 0)
      by (intros f Hf; clear Hn; induction n; cbn [replicate total]; lia).
    constructor; rewrite ?Ht; try done; [apply length_replicate | by apply Forall_replicate].
Qed.

(** The assertions hold whenever they are evaluated, and the number of readers
    never exceeds its bound. *)
Lemma rw_reached_safe w ths th op :
  reached rw_step_core (rw_init n) (w, ths) -> th ∈ ths -> exists r, rw_step_core th op w = Done r.
Proof.
  intros Hr (l1 & l2 & ->)%list_elem_of_split. destruct (rw_reached_invariant _ _ Hr) as (u & wr & []).
  apply (rw_step_safe w th (l1 ++ l2) u wr). pose proof (fun f : rw_thread -> Z => total_perm f _ _ (Permutation_middle l1 l2 th)) as Ht.
  constructor; rewrite ?Ht, ?(Permutation_middle l1 l2 th); done.
Qed.

(** C35: the reader-writer lock excludes.  In every interleaving of fewer than
    [2^60] threads that read, write, upgrade, downgrade and unlock, other than
    with [downgrade_to_upgradeable], at most one thread holds the write guard, and then nobody holds
    another guard; at most one holds the upgradeable guard; the lock says that
    it is held exclusively when and only when it is; no operation of a thread
    panics, neither in the assertions of the guards' destructors nor at the
    bound on the readers, which so many threads do not reach; and when every thread
    is outside, so that not only no guard is left but also no failed attempt is
    still to be undone, the lock is free and any attempt to take it succeeds. *)
Theorem rwlock_exclusive w ths :
  reached rw_step_core (rw_init n) (w, ths) ->
  total writing ths + total upgradable ths <= 1
  /\ (0 < total writing ths -> total reading ths = 0)
  /\ (is_locked_exclusive w = true <-> total writing ths = 1)
  /\ (forall th op, th ∈ ths -> exists r, rw_step_core th op w = Done r)
  /\ (Forall (eq Outside) ths ->
      rw_step_core Outside (TryWrite true false) w = Done ([WriteGuard], WRITER)
      /\ rw_step_core Outside TryUpgradeableRead w = Done ([UpgradableGuard], UPGRADED)
      /\ rw_step_core Outside TryRead w = Done ([ReadGuard], READER)).
Proof.
  intros Hr. destruct (rw_reached_invariant w ths Hr) as (u & wr & H). destruct (read_word _ _ _ _ H) as (_ & Hone & _).
  pose proof H as [_ _ Hword Hwri Hsha Hexc]. split_and!.
  - destruct wr; use_cases; destruct u; weights; lia.
  - destruct wr; [| weights; lia]. intros _. by destruct (Hexc eq_refl).
  - unfold is_locked_exclusive. change WRITER with 1. rewrite Hone, Hwri. by destruct wr.
  - intros th op Hth. by eapply rw_reached_safe.
  - intros Hout. assert (Ht : forall f : rw_thread -> Z, f Outside = 0 -> total f ths = 0).
    { intros f Hf. clear -Hout Hf. induction Hout as [| th l <- _ IH]; cbn [total]; lia. }
    assert (w = 0) as ->; [| done].
    rewrite (Ht writing) in Hwri by done. destruct wr; [done |]. use_cases. rewrite (Ht upgradable) in Hsha by done. destruct u; [done |].
    by rewrite Hword, (Ht counted).
Qed.

End preservation.

(** ** Concrete executions *)

Definition demo_rw : list (nat * rw_op) :=
  [(0, TryUpgradeableRead); (1, TryRead); (1, Continue); (0, TryUpgrade true false); (1, TryUpgradeableRead)]%nat.

Lemma demo_rw_reached : reached rw_step_core (rw_init 2) (3, [WriteGuard; Outside]).
Proof. apply (schedule_reached _ demo_rw _ (rw_init 2)); [constructor | by vm_compute]. Qed.

Lemma rwlock_exclusive_witness : is_locked_exclusive 3 = true <-> total writing [WriteGuard; Outside] = 1.
Proof.
  apply (rwlock_exclusive 2).
  - vm_compute. reflexivity.
  - exact demo_rw_reached.
Defined.

(** [downgrade_to_upgradeable] stores a whole word and so forgets a reader that
    is about to undo its attempt.  Here that reader's decrement takes another
    reader off the count, and a writer gets in beside it. *)
Definition demo_downgrade : list (nat * rw_op) :=
  [(0, TryWrite true false); (1, TryRead); (0, DowngradeToUpgradeable); (0, Continue); (0, Drop); (0, Continue);
   (2, TryRead); (1, Continue); (0, TryWrite true false)]%nat.

Example downgrade_to_upgradeable_unsound : reached rw_step (rw_init 3) (1, [WriteGuard; Outside; ReadGuard]).
Proof. apply (schedule_reached _ demo_downgrade _ (rw_init 3)); [constructor | by vm_compute]. Qed.

(** Its assertion fails if another thread has tried for an upgradeable guard. *)
Example downgrade_to_upgradeable_panics :
  reached rw_step (rw_init 2) (3, [WriteGuard; Outside]) /\ rw_step WriteGuard DowngradeToUpgradeable 3 = Panicked.
Proof.
  split; [| by vm_compute]. apply (schedule_reached _ [(0, TryWrite true false); (1, TryUpgradeableRead)]%nat _ (rw_init 2));
    [constructor | by vm_compute].
Qed.
