(* ===== verification/SpinSync.v ===== *)
(** * One-time initialization, the spinlock and the barrier
      (lib/spin/src/once.rs, lib/spin/src/mutex.rs, lib/spin/src/barrier.rs)

    Threads that call [Once::call_once] or [Once::wait], and threads that meet
    at a [Barrier], whose state is protected by a [Mutex].  Every step is one
    access to the shared state. *)

From stdpp Require Import base numbers list.
From Stdlib Require Import ZArith Lia.
From S2P Require Import Prelude Interleaving.

(** ** Once *)

Module Once.

Definition STATUS_INCOMPLETE : Z := 0.
Definition STATUS_POISONED : Z := 1.
Definition STATUS_RUNNING : Z := 2.
Definition STATUS_COMPLETE : Z := 4.

(** The status; and, for the statements, how many closures have been started,
    how many of them returned and how many panicked, which no access reads. *)
Record once : Type := MkOnce { status : Z; started : Z; finished : Z; panicked : Z }.

Definition once_new : once := MkOnce STATUS_INCOMPLETE 0 0 0.

Definition with_status (st : Z) (o : once) : once := MkOnce st (started o) (finished o) (panicked o).
Definition count_started (o : once) : once := MkOnce (status o) (started o + 1) (finished o) (panicked o).
Definition count_finished (o : once) : once := MkOnce (status o) (started o) (finished o + 1) (panicked o).
Definition count_panicked (o : once) : once := MkOnce (status o) (started o) (finished o) (panicked o + 1).

Definition is_completed (o : once) : bool := status o =? STATUS_COMPLETE.

Inductive once_thread : Type :=
| CallOnce                 (* before the fast path check *)
| Calling                  (* in [call] *)
| Running                  (* executing the closure *)
| Storing                  (* the closure returned *)
| Unwinding                (* the closure panicked: [PanicGuard] *)
| Waiting (in_call : bool) (* in [wait] *)
| Returned
| Panicking.

Inductive once_choice : Type := Continue | ClosurePanics.

(** [poll]: [None] if it panics. *)
Definition poll (o : once) : option bool :=
  if (status o =? STATUS_INCOMPLETE) || (status o =? STATUS_RUNNING) then Some false
  else if status o =? STATUS_COMPLETE then Some true
  else None.

Definition once_step (th : once_thread) (c : once_choice) (o : once) : outcome (list once_thread * once) :=
  match th, c with
  | CallOnce, Continue => mret ([if is_completed o then Returned else Calling], o)
  | Calling, Continue =>
      if status o =? STATUS_INCOMPLETE then mret ([Running], count_started (with_status STATUS_RUNNING o))
      else if status o =? STATUS_COMPLETE then mret ([Returned], o)
      else if status o =? STATUS_RUNNING then mret ([Waiting true], o)
      else if status o =? STATUS_POISONED then mret ([Panicking], o)
      else Undefined (* [unreachable!] *)
  | Running, Continue => mret ([Storing], count_finished o)
  | Running, ClosurePanics => mret ([Unwinding], count_panicked o)
  | Storing, Continue => mret ([Returned], with_status STATUS_COMPLETE o)
  | Unwinding, Continue => mret ([Panicking], with_status STATUS_POISONED o)
  | Waiting in_call, Continue =>
      match poll o with
      | Some true => mret ([if in_call then Calling else Returned], o)
      | Some false => mret ([th], o)
      | None => mret ([Panicking], o)
      end
  | _, _ => mret ([th], o)
  end.

(** Inside the closure; about to publish that it returned, or that it panicked;
    back from the call. *)
Definition running (th : once_thread) : Z := match th with Running => 1 | _ => 0 end.
Definition storing (th : once_thread) : Z := match th with Storing => 1 | _ => 0 end.
Definition unwinding (th : once_thread) : Z := match th with Unwinding => 1 | _ => 0 end.
Definition returned (th : once_thread) : Z := match th with Returned => 1 | _ => 0 end.

(** What the status says: nothing has been started; the closure runs, or its
    result is not published yet; it returned; it panicked. *)
Definition once_invariant (o : once) (ths : list once_thread) : Prop :=
  let r := total running ths in let f := total storing ths in let p := total unwinding ths in
  (total returned ths = 0 \/ status o = STATUS_COMPLETE)
  /\ (status o = STATUS_INCOMPLETE /\ started o = 0 /\ finished o = 0 /\ panicked o = 0 /\ r = 0 /\ f = 0 /\ p = 0
      \/ status o = STATUS_RUNNING /\ started o = 1 /\ finished o = f /\ panicked o = p /\ r + f + p = 1
      \/ status o = STATUS_COMPLETE /\ started o = 1 /\ finished o = 1 /\ panicked o = 0 /\ r = 0 /\ f = 0 /\ p = 0
      \/ status o = STATUS_POISONED /\ started o = 1 /\ finished o = 0 /\ panicked o = 1 /\ r = 0 /\ f = 0 /\ p = 0).

Lemma weights th : 0 <= running th /\ 0 <= storing th /\ 0 <= unwinding th /\ 0 <= returned th.
Proof. by destruct th. Qed.

Lemma totals_nonneg ths : 0 <= total running ths /\ 0 <= total storing ths /\ 0 <= total unwinding ths /\ 0 <= total returned ths.
Proof. split_and!; apply total_nonneg; intros; apply weights. Qed.

Ltac by_status H :=
  destruct H as [(-> & -> & -> & -> & ? & ? & ?) | [(-> & -> & -> & -> & ?) | [(-> & -> & -> & -> & ? & ? & ?) | (-> & -> & -> & -> & ? & ? & ?)]]].

Ltac open_once := unfold once_invariant, is_completed, poll, with_status, count_started, count_finished, count_panicked,
  STATUS_INCOMPLETE, STATUS_POISONED, STATUS_RUNNING, STATUS_COMPLETE in *;
  cbn [status started finished panicked total running storing unwinding returned app] in *.

Lemma once_step_invariant o th rest c ths o' :
  once_invariant o (th :: rest) -> once_step th c o = Done (ths, o') -> once_invariant o' (ths ++ rest).
Proof.
  intros H E. pose proof (totals_nonneg rest) as Hn.
  assert (Hsame : Done ([th], o) = Done (ths, o') -> once_invariant o' (ths ++ rest)) by (by intros [= <- <-]).
  destruct o as [st k fi pa]. destruct th as [| | | | | [] | |], c; try by apply Hsame in E.
  all: clear Hsame; cbn [once_step] in E; open_once; destruct H as [Hret H]; by_status H;
    cbn in E; injection E as <- <-; open_once; lia.
Qed.

Lemma reached_once n o ths :
  reached once_step (once_new, n) (o, ths) -> Forall (fun th => th = CallOnce \/ th = Waiting false) n -> once_invariant o ths.
Proof.
  intros Hr Hn. apply (reached_invariant once_step once_invariant (once_new, n)); [..| done].
  - intros s l l' Hp H. unfold once_invariant in *. by rewrite <- !(total_perm _ l l' Hp).
  - intros s th rest c ths' s' H E. by apply (once_step_invariant s th rest c).
  - clear Hr. assert (Ht : forall f : once_thread -> Z, f CallOnce = 0 -> f (Waiting false) = 0 -> total f n = 0).
    { intros f H1 H2. induction Hn as [| th l [-> | ->] _ IH]; cbn [total]; lia. }
    unfold once_invariant. cbn [fst snd]. rewrite !Ht by done. split; by left.
Qed.

(** C36: one-time initialization.  However many threads call [call_once] or
    [wait], at most one closure is ever started, and it is running, has returned or
    has panicked.  A thread only returns after the closure has returned, and
    [is_completed] only says so then.  If the closure panics nobody returns,
    then or later: once the panic has left the call the cell is poisoned, and
    every caller that looks, whether it is about to call or waits, panics too.
    The status never has an unexpected value. *)
Theorem once_correct threads o ths :
  Forall (fun th => th = CallOnce \/ th = Waiting false) threads -> reached once_step (once_new, threads) (o, ths) ->
  started o <= 1 /\ started o = total running ths + finished o + panicked o
  /\ (0 < total returned ths -> is_completed o = true) /\ (is_completed o = true -> finished o = 1 /\ total storing ths = 0)
  /\ (status o = STATUS_POISONED <-> panicked o = 1 /\ total unwinding ths = 0)
  /\ (panicked o = 1 -> total returned ths = 0 /\ is_completed o = false)
  /\ (panicked o = 1 -> total unwinding ths = 0 -> forall th, th = Calling \/ th = Waiting true \/ th = Waiting false ->
        once_step th Continue o = Done ([Panicking], o))
  /\ (forall th c, once_step th c o <> Undefined).
Proof.
  intros Hn Hr. pose proof (reached_once _ _ _ Hr Hn) as H. pose proof (totals_nonneg ths) as Hnn. destruct o as [st k fi pa].
  open_once. destruct H as [Hret H]. by_status H.
  all: split_and!; try lia; try done; try (intros [] []; done); try (by intros [| | | | | [] | |] []).
  all: intros; destruct_or!; subst; done || lia.
Qed.

Lemma once_correct_witness :
  once_step (Waiting true) Continue (MkOnce STATUS_POISONED 1 0 1) = Done ([Panicking], MkOnce STATUS_POISONED 1 0 1).
Proof.
  destruct (once_correct [CallOnce; CallOnce] (MkOnce STATUS_POISONED 1 0 1) [Panicking; Waiting true]) as (_ & _ & _ & _ & _ & _ & H & _).
  - constructor; [left; reflexivity | constructor; [left; reflexivity | constructor]].
  - apply (schedule_reached once_step [(0, Continue); (1, Continue); (0, Continue); (1, Continue); (0, ClosurePanics); (0, Continue)]%nat
             _ (once_new, [CallOnce; CallOnce])); [constructor | vm_compute; reflexivity].
  - apply H; [reflexivity | reflexivity | right; left; reflexivity].
Defined.

End Once.

(** ** The barrier *)

Module Barrier.

(** [Mutex]: the flag, and the state it protects. *)
Record barrier : Type := MkBarrier { lock : bool; count : Z; generation_id : Z }.

Definition barrier_new : barrier := MkBarrier false 0 0.

Definition is_locked (b : barrier) : bool := lock b.

(** [try_lock_internal]: a weak exchange may fail spuriously. *)
Definition try_lock_internal (strong spurious : bool) (b : barrier) : bool * barrier :=
  if negb (lock b) && (strong || negb spurious) then (true, MkBarrier true (count b) (generation_id b)) else (false, b).

(** The guard's destructor. *)
Definition force_unlock (b : barrier) : barrier := MkBarrier false (count b) (generation_id b).

(** Where a thread is in [Mutex::lock]: trying, or reading the flag until it is clear. *)
Inductive locking : Type := Trying | Spinning.

Definition lock_step (spurious : bool) (l : locking) (b : barrier) : option locking * barrier :=
  match l with
  | Trying => let r := try_lock_internal false spurious b in (if r.1 : bool then None else Some Spinning, r.2)
  | Spinning => (Some (if is_locked b then Spinning else Trying), b)
  end.

(** In [wait]. *)
Inductive barrier_thread : Type :=
| Arriving (l : locking)                     (* [self.lock.lock()] *)
| Arrived                                    (* holding the lock *)
| Checking (local_gen : Z)                   (* the loop condition, holding the lock *)
| Releasing (local_gen : Z)                  (* [drop(lock)] *)
| Retrying (local_gen : Z) (l : locking)     (* [lock = self.lock.lock()] *)
| Leaving (leader : bool)                    (* the guard is dropped on return *)
| Left (leader : bool).

Definition barrier_step (num_threads : Z) (th : barrier_thread) (spurious : bool) (b : barrier) : outcome (list barrier_thread * barrier) :=
  match th with
  | Arriving l =>
      let r := lock_step spurious l b in
      mret ([match r.1 with None => Arrived | Some l' => Arriving l' end], r.2)
  | Arrived =>
      count' ← u_add (count b) 1;
      if count' <? num_threads then mret ([Checking (generation_id b)], MkBarrier (lock b) count' (generation_id b))
      else mret ([Leaving true], MkBarrier (lock b) 0 (wrapping_add (generation_id b) 1))
  | Checking local_gen =>
      mret ([if (local_gen =? generation_id b) && (count b <? num_threads) then Releasing local_gen else Leaving false], b)
  | Releasing local_gen => mret ([Retrying local_gen Trying], force_unlock b)
  | Retrying local_gen l =>
      let r := lock_step spurious l b in
      mret ([match r.1 with None => Checking local_gen | Some l' => Retrying local_gen l' end], r.2)
  | Leaving leader => mret ([Left leader], force_unlock b)
  | Left leader => mret ([Left leader], b)
  end.

(** Threads that hold the lock, that have arrived, that wait for the round
    [g], that are done, and the leaders among those. *)
Definition holding (th : barrier_thread) : Z :=
  match th with Arrived | Checking _ | Releasing _ | Leaving _ => 1 | _ => 0 end.
Definition arrived (th : barrier_thread) : Z := match th with Arriving _ | Arrived => 0 | _ => 1 end.
Definition waits_for (g : Z) (th : barrier_thread) : Z :=
  match th with Checking g' | Releasing g' | Retrying g' _ => if g' =? g then 1 else 0 | _ => 0 end.
Definition passed (th : barrier_thread) : Z := match th with Leaving _ | Left _ => 1 | _ => 0 end.
Definition leads (th : barrier_thread) : Z := match th with Leaving true | Left true => 1 | _ => 0 end.

Definition round_ok (g : Z) (th : barrier_thread) : Prop :=
  match th with Checking g' | Releasing g' | Retrying g' _ => 0 <= g' <= g | _ => True end.

Section correctness.
Context (n : Z) (Hn : 0 < n) (N : nat) (HN : Z.of_nat N < 2 ^ 63).

Record barrier_invariant (b : barrier) (ths : list barrier_thread) : Prop := {
  iv_threads : length ths = N;
  iv_lock : total holding ths = Z.b2z (lock b);
  iv_count : 0 <= count b < n;
  iv_generation : 0 <= generation_id b;
  iv_arrived : total arrived ths = n * generation_id b + count b;
  iv_waiting : total (waits_for (generation_id b)) ths = count b;
  iv_leaders : total leads ths = generation_id b;
  iv_rounds : Forall (round_ok (generation_id b)) ths;
}.

Lemma barrier_thread_weights g th :
  0 <= holding th /\ 0 <= waits_for g th /\ 0 <= passed th /\ 0 <= leads th /\ 0 <= arrived th <= 1 /\ passed th + waits_for g th <= arrived th.
Proof. destruct th as [| | g' | g' | g' | [] | []]; cbn; try lia; destruct (g' =? g); lia. Qed.

Lemma arrived_length l : total arrived l <= Z.of_nat (length l).
Proof. induction l as [| th l IH]; cbn [total length]; [done | pose proof (barrier_thread_weights 0 th); lia]. Qed.

Lemma no_later_round g l : Forall (round_ok g) l -> total (waits_for (g + 1)) l = 0 /\ Forall (round_ok (g + 1)) l.
Proof.
  induction 1 as [| th l Hth _ [IH1 IH2]]; [done |]. cbn [total]. rewrite IH1. split.
  - destruct th as [| | g' | g' | g' | |]; cbn in *; try done; by rewrite (proj2 (Z.eqb_neq g' (g + 1))) by lia.
  - constructor; [| done]. destruct th; cbn in *; lia || done.
Qed.

Lemma lock_step_cases spurious l b r b' :
  lock_step spurious l b = (r, b') ->
  b' = b /\ r <> None \/ r = None /\ lock b = false /\ b' = MkBarrier true (count b) (generation_id b).
Proof.
  destruct l; cbn; unfold try_lock_internal; [| intros [= <- <-]; by left].
  destruct (lock b) eqn:El; cbn; [intros [= <- <-]; by left |]. destruct spurious; intros [= <- <-]; [by left | by right].
Qed.

Ltac sums := cbn [total length app force_unlock holding arrived waits_for leads lock count generation_id Z.b2z] in *.

Lemma barrier_step_invariant b th rest spurious ths b' :
  barrier_invariant b (th :: rest) -> barrier_step n th spurious b = Done (ths, b') -> barrier_invariant b' (ths ++ rest).
Proof.
  intros [H1 H2 H3 H4 H5 H6 H7 H8] E. destruct b as [lk k g]. apply Forall_cons in H8 as [Hth H8]. sums.
  pose proof (total_nonneg holding rest ltac:(intros; apply (barrier_thread_weights 0))).
  pose proof (arrived_length rest). destruct th as [l | | g' | g' | g' l | leader | leader]; cbn [barrier_step] in E.
  - destruct (lock_step spurious l _) as [r b1] eqn:El. cbn [fst snd] in E. injection E as <- <-.
    destruct (lock_step_cases _ _ _ _ _ El) as [[-> Hr] | (-> & Hl & ->)]; [destruct r; [| done] |]; sums; try subst lk; constructor; sums; try lia; by constructor.
  - unfold u_add, checked in E. destruct (_ && _); [| done]. cbn [mbind outcome_bind lock count generation_id] in E. destruct (Z.ltb_spec (k + 1) n); injection E as <- <-.
    + constructor; sums; rewrite ?Z.eqb_refl; try lia. constructor; [cbn; lia | done].
    + assert (k + 1 = n) by lia. assert (Hg : wrapping_add g 1 = g + 1).
      { apply wrap_small. unfold is_usize. change (2 ^ 63) with 9223372036854775808 in HN. cbn [arrived] in H5.
        pose proof (Z.mul_le_mono_nonneg_r 1 n g H4 ltac:(lia)). lia. }
      rewrite Hg. destruct (no_later_round g rest H8) as [Hw Hr]. constructor; sums; rewrite ?Hw; try lia. by constructor.
  - injection E as <- <-. destruct (_ && _) eqn:Ec; constructor; sums; try lia; try by constructor.
    apply andb_false_iff in Ec as [Ec | Ec]; [rewrite Ec in *; lia | apply Z.ltb_ge in Ec; lia].
  - injection E as <- <-. constructor; sums; destruct lk; sums; try lia; by constructor.
  - destruct (lock_step spurious l _) as [r b1] eqn:El. cbn [fst snd] in E. injection E as <- <-.
    destruct (lock_step_cases _ _ _ _ _ El) as [[-> Hr] | (-> & Hl & ->)]; [destruct r; [| done] |]; sums; try subst lk; constructor; sums; try lia; by constructor.
  - injection E as <- <-. constructor; sums; destruct lk; sums; try lia; by constructor.
  - injection E as <- <-. constructor; sums; try lia; by constructor.
Qed.

Lemma reached_barrier b ths :
  reached (barrier_step n) (barrier_new, replicate N (Arriving Trying)) (b, ths) -> barrier_invariant b ths.
Proof.
  apply (reached_invariant (barrier_step n) barrier_invariant).
  - intros s l l' Hp []. pose proof (fun f : barrier_thread -> Z => total_perm f l l' Hp) as Ht. constructor; rewrite <- ?Ht, <- ?Hp; done.
  - intros s th rest c ths' s' H E. by apply (barrier_step_invariant s th rest c).
  - cbn [fst snd]. assert (Ht : forall f : barrier_thread -> Z, f (Arriving Trying) = 0 -> total f (replicate N (Arriving Trying)) = 0)
      by (intros f Hf; clear HN; induction N; cbn [replicate total]; lia).
    constructor; rewrite ?Ht; cbn; try done; try lia; [apply length_replicate | by apply Forall_replicate].
Qed.

(** C37: the barrier, of at least one thread.  However many threads arrive, fewer
    than [2^63], and however their accesses interleave, at most one holds the lock; the generation counts the
    completed rounds, each of them has exactly [num_threads] arrivals and
    exactly one leader; and a thread only passes once its round is complete:
    never have more threads passed than arrived in completed rounds. *)
Theorem barrier_correct b ths :
  reached (barrier_step n) (barrier_new, replicate N (Arriving Trying)) (b, ths) ->
  total holding ths <= 1
  /\ generation_id b = total arrived ths / n /\ count b = total arrived ths mod n
  /\ total leads ths = generation_id b
  /\ total passed ths <= n * generation_id b.
Proof.
  intros Hr. destruct (reached_barrier b ths Hr) as [H1 H2 H3 H4 H5 H6 H7 H8]. split_and!; try done.
  - rewrite H2. destruct (lock b); cbn; lia.
  - rewrite H5. rewrite Z.mul_comm, Z.div_add_l by lia. rewrite Z.div_small by lia. lia.
  - rewrite H5. rewrite Z.add_comm, Z.mul_comm, Z.mod_add by lia. symmetry. by apply Z.mod_small.
  - pose proof (total_le (fun th => passed th + waits_for (generation_id b) th) arrived ths) as Hle. rewrite total_plus in Hle.
    specialize (Hle ltac:(intros th; pose proof (barrier_thread_weights (generation_id b) th); lia)). lia.
Qed.

End correctness.

(** Two threads meet. *)
Lemma barrier_correct_witness : total leads [Left false; Left true] = 1.
Proof.
  apply (barrier_correct 2 ltac:(lia) 2 ltac:(vm_compute; reflexivity) (MkBarrier false 0 1)).
  apply (schedule_reached (barrier_step 2) [(0, false); (0, false); (0, false); (0, false); (1, false); (1, false); (1, false);
                                    (0, false); (0, false); (0, false)]%nat
           _ (barrier_new, replicate 2 (Arriving Trying))); [constructor | vm_compute; reflexivity].
Defined.

End Barrier.
