(* ===== verification/TimerWheel.v ===== *)
(** * The hierarchical timer wheel (sys/async/src/time/timer/wheel.rs,
      timer/entry.rs, the [Core] of timer.rs)

    Six wheels of 64 slots each.  A sleeping task's [Entry] with deadline [d]
    is in the wheel of the highest base-64 digit in which [d] differs from the
    current tick, in the slot of that digit of [d].  [poll] advances the time,
    fires what has expired and moves the rest of the opened slots to lower
    wheels.

    The intrusive list of the slots comes from another crate; it is the
    interface [EntryList].  Entries are objects in memory that the lists point
    to: a pointer is a number and the memory a finite map. *)

From stdpp Require Import base numbers list gmap.
From Stdlib Require Import ZArith Lia.
From S2P Require Import Prelude.

(** ** Bits of a [u64] *)

Fixpoint pos_trailing_zeros (p : positive) : Z :=
  match p with xO p' => 1 + pos_trailing_zeros p' | _ => 0 end.

Definition trailing_zeros (w : Z) : Z := match w with Zpos p => pos_trailing_zeros p | _ => 64 end.
Definition leading_zeros (w : Z) : Z := if w =? 0 then 64 else 63 - Z.log2 w.
Definition rotate_right (w n : Z) : Z := Z.lor (Z.shiftr w n) (Z.shiftl w (64 - n) mod 2 ^ 64).
Definition count_ones (w : Z) : Z := Z.of_nat (length (filter (fun i => Z.testbit w i = true) (seqZ 0 64))).

(** ** Entries *)

Record Entry : Type := MkEntry { deadline : Z; is_registered : bool; closed : bool }.

Definition entry_new (d : Z) : Entry := MkEntry d false false.

(** The exchange clears the flag if it was set; the wait cell is closed. *)
Definition fire (e : Entry) : Entry := MkEntry (deadline e) false true.

Abbreviation ptr := Z (only parsing).
Abbreviation memory := (gmap ptr Entry).

Definition entry_at (h : memory) (p : ptr) : outcome Entry :=
  match h !! p with Some e => Done e | None => Undefined end.

(** ** The list of a slot *)

Class EntryList : Type := {
  elist : Type;
  list_new : elist;
  push_front : ptr -> elist -> elist;
  list_remove : ptr -> elist -> option ptr * elist;
  split_off : nat -> elist -> elist * elist;
  list_is_empty : elist -> bool;
  into_iter : elist -> list ptr;
  into_iter_new : into_iter list_new = [];
  into_iter_push_front p l : into_iter (push_front p l) = p :: into_iter l;
  list_is_empty_spec l : list_is_empty l = bool_decide (into_iter l = []);
  split_off_spec n l :
    (n <= length (into_iter l))%nat ->
    into_iter (split_off n l).1 = take n (into_iter l) /\ into_iter (split_off n l).2 = drop n (into_iter l);
  list_remove_spec p l :
    p ∈ into_iter l -> NoDup (into_iter l) ->
    exists l', list_remove p l = (Some p, l') /\ into_iter l' = filter (fun q => q <> p) (into_iter l);
}.

(** ** One wheel *)

Definition SLOTS : Z := 64.
Definition BITS : Z := trailing_zeros SLOTS.
Definition WHEELS : Z := BITS.
Definition MAX_SLEEP_TICKS : Z := Z.shiftl 1 (BITS * WHEELS) - 1.

Record Deadline : Type := MkDeadline { d_ticks : Z; d_slot : Z; d_wheel : Z }.

Section wheels.
Context `{EntryList}.

Record Wheel : Type := MkWheel {
  occupied_slots : Z;
  slots : list elist;
  level : Z;
  ticks_per_slot : Z;
  ticks_per_wheel : Z;
  wheel_mask : Z;
}.

Definition wheel_new (level : Z) : outcome Wheel :=
  ticks_per_slot ← checked (SLOTS ^ level);
  ticks_per_wheel ← u_mul ticks_per_slot SLOTS;
  _ ← assert_ (is_power_of_two ticks_per_slot);
  _ ← assert_ (is_power_of_two ticks_per_wheel);
  wheel_mask ← u_sub ticks_per_wheel 1;
  mret (MkWheel 0 (replicate (Z.to_nat SLOTS) list_new) level ticks_per_slot ticks_per_wheel (u_not wheel_mask)).

Definition slot_index (w : Wheel) (ticks : Z) : Z :=
  let shift := level w * BITS in
  Z.shiftr ticks shift mod SLOTS.

Definition with_occupied (occ : Z) (w : Wheel) : Wheel :=
  MkWheel occ (slots w) (level w) (ticks_per_slot w) (ticks_per_wheel w) (wheel_mask w).
Definition with_slot (i : nat) (l : elist) (w : Wheel) : Wheel :=
  MkWheel (occupied_slots w) (<[i := l]> (slots w)) (level w) (ticks_per_slot w) (ticks_per_wheel w) (wheel_mask w).

(** [self.slots[slot]] *)
Definition slot_at (slot : Z) (w : Wheel) : outcome elist :=
  match slots w !! Z.to_nat slot with Some l => Done l | None => Panicked end.

Definition clear_slot (slot : Z) (w : Wheel) : outcome Wheel :=
  _ ← assert_ (slot <? SLOTS);
  let w' := with_occupied (Z.land (occupied_slots w) (u_not (Z.shiftl 1 slot))) w in
  _ ← assert_ (count_ones (occupied_slots w') <=? SLOTS);
  mret w'.

Definition fill_slot (slot : Z) (w : Wheel) : outcome Wheel :=
  _ ← assert_ (slot <? SLOTS);
  let w' := with_occupied (Z.lor (occupied_slots w) (Z.shiftl 1 slot)) w in
  _ ← assert_ (count_ones (occupied_slots w') <=? SLOTS);
  mret w'.

Definition wheel_insert (deadline : Z) (p : ptr) (w : Wheel) : outcome Wheel :=
  let slot := slot_index w deadline in
  l ← slot_at slot w;
  fill_slot slot (with_slot (Z.to_nat slot) (push_front p l) w).

Definition wheel_remove (d : Z) (p : ptr) (w : Wheel) (h : memory) : outcome (Wheel * memory) :=
  let slot := slot_index w d in
  l ← slot_at slot w;
  let r := list_remove p l in
  h' ← match r.1 with
       | Some q =>
           e ← entry_at h q;
           _ ← assert_ (is_registered e);
           mret (<[q := MkEntry (deadline e) false (closed e)]> h)
       | None => mret h
       end;
  let w' := with_slot (Z.to_nat slot) r.2 w in
  w'' ← if list_is_empty r.2 then clear_slot slot w' else mret w';
  mret (w'', h').

Definition next_set_bit (bitmap offset : Z) : outcome (option Z) :=
  _ ← assert_ (offset <? 64);
  if bitmap =? 0 then mret None
  else
    let shifted := Z.shiftr bitmap offset in
    let zeros := if shifted =? 0 then trailing_zeros (rotate_right bitmap offset) else trailing_zeros shifted in
    r ← u_add zeros offset;
    mret (Some r).

Definition next_slot_distance (now : Z) (w : Wheel) : outcome (option Z) :=
  if occupied_slots w =? 0 then mret None
  else
    let now_slot := (now / ticks_per_slot w) mod 2 ^ 32 mod SLOTS in
    r ← next_set_bit (occupied_slots w) now_slot;
    mret (match r with Some next => Some (next mod SLOTS) | None => None end).

Definition wheel_next_deadline (now : Z) (w : Wheel) : outcome (option Deadline) :=
  r ← next_slot_distance now w;
  match r with
  | None => mret None
  | Some distance =>
      let slot := distance mod SLOTS in
      let skipped := Z.max 0 (distance - SLOTS) in
      _ ← assert_ (distance <? SLOTS * 2);
      _ ← assert_ ((skipped =? 0) || (level w =? WHEELS - 1));
      let rotation_start := Z.land now (wheel_mask w) in
      skipped_ticks ← u_mul skipped (ticks_per_wheel w);
      offset ← u_mul slot (ticks_per_slot w);
      t ← u_add rotation_start offset;
      ticks ← u_add t skipped_ticks;
      mret (Some (MkDeadline ticks slot (level w)))
  end.

Definition take_slot (slot : Z) (w : Wheel) : outcome (elist * Wheel) :=
  _ ← assert_ (negb (Z.land (occupied_slots w) (Z.shiftl 1 slot) =? 0));
  l ← slot_at slot w;
  let r := split_off 0 l in
  _ ← assert_ (negb (list_is_empty r.2));
  w' ← clear_slot slot (with_slot (Z.to_nat slot) r.1 w);
  mret (r.2, w').

(** ** The core *)

Record Core : Type := MkCore { c_now : Z; c_wheels : list Wheel }.

Definition core_new : outcome Core :=
  w0 ← wheel_new 0; w1 ← wheel_new 1; w2 ← wheel_new 2; w3 ← wheel_new 3; w4 ← wheel_new 4; w5 ← wheel_new 5;
  mret (MkCore 0 [w0; w1; w2; w3; w4; w5]).

Definition wheel_index (now ticks : Z) : Z :=
  let WHEEL_MASK := Z.shiftl 1 BITS - 1 in
  let wheel_indices := Z.lor (Z.lxor now ticks) WHEEL_MASK in
  let wheel_indices := if MAX_SLEEP_TICKS <=? wheel_indices then MAX_SLEEP_TICKS - 1 else wheel_indices in
  let rest := 63 - leading_zeros wheel_indices in
  rest / WHEELS.

(** [find_map] over the wheels. *)
Fixpoint first_deadline (now : Z) (ws : list Wheel) : outcome (option Deadline) :=
  match ws with
  | [] => mret None
  | w :: ws' =>
      r ← wheel_next_deadline now w;
      match r with Some d => mret (Some d) | None => first_deadline now ws' end
  end.

Definition core_next_deadline (c : Core) : outcome (option Deadline) := first_deadline (c_now c) (c_wheels c).

(** Run [f] on [self.wheels[i]]. *)
Definition on_wheel {A} (i : Z) (f : Wheel -> outcome (A * Wheel)) (c : Core) : outcome (A * Core) :=
  match c_wheels c !! Z.to_nat i with
  | None => Panicked
  | Some w => r ← f w; mret (r.1, MkCore (c_now c) (<[Z.to_nat i := r.2]> (c_wheels c)))
  end.

Definition insert_at (d : Z) (p : ptr) (c : Core) : outcome Core :=
  r ← on_wheel (wheel_index (c_now c) d) (fun w => w' ← wheel_insert d p w; mret (tt, w')) c;
  mret r.2.

(** The loop over the entries of an opened slot. *)
Fixpoint expire (now wheel : Z) (entries : list ptr) (h : memory) (pending : elist) (expired : Z) :
    outcome (memory * elist * Z) :=
  match entries with
  | [] => mret (h, pending, expired)
  | p :: entries' =>
      e ← entry_at h p;
      if now <? deadline e then
        _ ← assert_ (negb (wheel =? 0));
        expire now wheel entries' h (push_front p pending) expired
      else expire now wheel entries' (<[p := fire e]> h) pending (expired + 1)
  end.

(** The loop over the slots that begin no later than [now]. *)
Fixpoint poll_loop (fuel : nat) (now : Z) (next : option Deadline) (h : memory) (c : Core) (pending : elist) (expired : Z) :
    outcome (option Deadline * memory * Core * elist * Z) :=
  match fuel, next with
  | _, None => mret (next, h, c, pending, expired)
  | O, Some _ => Undefined
  | S fuel', Some d =>
      if now <? d_ticks d then mret (next, h, c, pending, expired)
      else
        r ← on_wheel (d_wheel d) (take_slot (d_slot d)) c;
        x ← expire now (d_wheel d) (into_iter r.1) h pending expired;
        let c' := MkCore (d_ticks d) (c_wheels r.2) in
        next' ← core_next_deadline c';
        poll_loop fuel' now next' x.1.1 c' x.1.2 x.2
  end.

Fixpoint reschedule (entries : list ptr) (h : memory) (c : Core) : outcome Core :=
  match entries with
  | [] => mret c
  | p :: entries' =>
      e ← entry_at h p;
      _ ← assert_ (c_now c <? deadline e);
      _ ← assert_ (negb (deadline e =? 0));
      c' ← insert_at (deadline e) p c;
      reschedule entries' h c'
  end.

(** The pointers in the lists of a wheel, and of all of them. *)
Definition wheel_ptrs (w : Wheel) : list ptr := mjoin (into_iter <$> slots w).
Definition ptrs (c : Core) : list ptr := mjoin (wheel_ptrs <$> c_wheels c).

(** Every round of the loop opens a slot that has entries: one round per entry is enough. *)
Definition core_poll (now : Z) (h : memory) (c : Core) : outcome (Z * option Deadline * memory * Core) :=
  next ← core_next_deadline c;
  r ← poll_loop (S (length (ptrs c))) now next h c list_new 0;
  let '(next, h', c', pending, expired) := r in
  let any := negb (list_is_empty pending) in
  c'' ← reschedule (into_iter pending) h' (MkCore now (c_wheels c'));
  next' ← if any then core_next_deadline c'' else mret next;
  mret (expired, next', h', c'').

Definition core_cancel (p : ptr) (h : memory) (c : Core) : outcome (memory * Core) :=
  e ← entry_at h p;
  on_wheel (wheel_index (c_now c) (deadline e))
    (fun w => r ← wheel_remove (deadline e) p w h; mret (r.2, r.1)) c.

(** [true] is [Poll::Ready]. *)
Definition core_register (p : ptr) (h : memory) (c : Core) : outcome (bool * memory * Core) :=
  e ← entry_at h p;
  if deadline e <=? c_now c then mret (true, <[p := fire e]> h, c)
  else
    _ ← assert_ (negb (is_registered e));
    c' ← insert_at (deadline e) p c;
    mret (false, <[p := MkEntry (deadline e) true (closed e)]> h, c').

End wheels.

(** ** Where an entry belongs *)

(** [d] first differs from [now] in its digit [l]. *)
Definition placed (now d l : Z) : Prop := now / 64 ^ (l + 1) = d / 64 ^ (l + 1) /\ now / 64 ^ l < d / 64 ^ l.

(** When the slot of [d] in the wheel [l] begins. *)
Definition slot_start (d l : Z) : Z := d / 64 ^ l * 64 ^ l.

Lemma pow64_pos l : 0 <= l -> 0 < 64 ^ l.
Proof. intros. apply Z.pow_pos_nonneg; lia. Qed.

Lemma pow64_2 l : 0 <= l -> 64 ^ l = 2 ^ (l * 6).
Proof. intros. rewrite Z.mul_comm. by rewrite Z.pow_mul_r by lia. Qed.

Lemma pow64_succ l : 0 <= l -> 64 ^ (l + 1) = 64 ^ l * 64.
Proof. intros. by rewrite Z.pow_add_r by lia. Qed.

Lemma slot_start_le d l : 0 <= l -> slot_start d l <= d.
Proof. intros Hl. unfold slot_start. pose proof (Z.mul_div_le d (64 ^ l) (pow64_pos l Hl)). lia. Qed.

Lemma before_slot s d l : 0 <= l -> s < slot_start d l <-> s / 64 ^ l < d / 64 ^ l.
Proof.
  intros Hl. pose proof (pow64_pos l Hl). unfold slot_start. split; intros Hs.
  - apply Z.div_lt_upper_bound; lia.
  - pose proof (Z.mul_succ_div_gt s (64 ^ l) ltac:(lia)). nia.
Qed.

Lemma placed_lt now d l : 0 <= l -> placed now d l -> now < slot_start d l.
Proof. intros Hl [_ Hd]. by apply before_slot. Qed.

(** Time may pass until the slot begins. *)
Lemma placed_advance now s d l : 0 <= l -> placed now d l -> now <= s -> s < slot_start d l -> placed s d l.
Proof.
  intros Hl [Heq _] Hle Hlt. split; [| by apply before_slot]. pose proof (slot_start_le d l Hl).
  pose proof (Z.div_le_mono now s _ (pow64_pos (l + 1) ltac:(lia)) Hle).
  pose proof (Z.div_le_mono s d _ (pow64_pos (l + 1) ltac:(lia)) ltac:(lia)). lia.
Qed.

Lemma div_pow64 x l m : 0 <= l <= m -> x / 64 ^ m = x / 64 ^ l / 64 ^ (m - l).
Proof.
  intros. rewrite Z.div_div by (try apply Z.pow_nonzero; try apply pow64_pos; lia). f_equal.
  rewrite <- Z.pow_add_r by lia. f_equal. lia.
Qed.

Lemma placed_exists now d : 0 <= now < d -> now / 64 ^ 6 = d / 64 ^ 6 -> exists l, 0 <= l < 6 /\ placed now d l.
Proof.
  intros Hd.
  assert (H : forall n : nat, now / 64 ^ Z.of_nat n = d / 64 ^ Z.of_nat n -> exists l, 0 <= l < Z.of_nat n /\ placed now d l).
  { induction n as [| n IH]; [rewrite !Z.div_1_r; lia |]. intros Heq. rewrite Nat2Z.inj_succ in Heq.
    pose proof (Z.div_le_mono now d _ (pow64_pos (Z.of_nat n) ltac:(lia)) ltac:(lia)).
    destruct (Z.eq_dec (now / 64 ^ Z.of_nat n) (d / 64 ^ Z.of_nat n)) as [E |].
    - destruct (IH E) as (l & ? & ?). exists l. split; [lia | done].
    - exists (Z.of_nat n). split; [lia |]. split; [done | lia]. }
  apply (H 6%nat).
Qed.

(** The digits below the sixth place an entry within the present turn of the uppermost wheel. *)
Lemma placed_turn now d l : 0 <= l < 6 -> placed now d l -> now / 64 ^ 6 = d / 64 ^ 6.
Proof. intros Hl [Heq _]. by rewrite !(div_pow64 _ (l + 1) 6), Heq by lia. Qed.

Lemma placed_order now d e l m : 0 <= l < m -> placed now d l -> placed now e m -> slot_start d l < slot_start e m.
Proof.
  intros Hl [Heq _] He. pose proof (placed_lt now e m ltac:(lia) He) as Hlt. pose proof (slot_start_le d l ltac:(lia)).
  pose proof (pow64_pos (l + 1) ltac:(lia)). pose proof (Z.mul_succ_div_gt d (64 ^ (l + 1)) ltac:(lia)).
  assert (slot_start e m = e / 64 ^ m * 64 ^ (m - (l + 1)) * 64 ^ (l + 1)) as Es.
  { unfold slot_start. rewrite <- Z.mul_assoc, <- Z.pow_add_r by lia. do 2 f_equal. lia. }
  set (q := e / 64 ^ m * 64 ^ (m - (l + 1))) in Es. assert (now / 64 ^ (l + 1) < q) by (apply Z.div_lt_upper_bound; lia). nia.
Qed.

(** The digit itself. *)
Lemma placed_digit now d l :
  0 <= l -> placed now d l ->
  now / 64 ^ l mod 64 < d / 64 ^ l mod 64 /\ slot_start d l = now / 64 ^ (l + 1) * 64 ^ (l + 1) + (d / 64 ^ l mod 64) * 64 ^ l.
Proof.
  intros Hl [Heq Hlt]. rewrite pow64_succ in Heq |- * by done. rewrite <- !Z.div_div in * by (try apply Z.pow_nonzero; lia).
  unfold slot_start. pose proof (Z.div_mod (now / 64 ^ l) 64). pose proof (Z.div_mod (d / 64 ^ l) 64). nia.
Qed.

Lemma lxor_shiftr a b k : 0 <= k -> Z.shiftr (Z.lxor a b) k = 0 <-> a / 2 ^ k = b / 2 ^ k.
Proof. intros. rewrite Z.shiftr_lxor, Z.lxor_eq_0_iff, !Z.shiftr_div_pow2 by done. done. Qed.

Lemma wheel_index_placed now d l : 0 <= now -> 0 <= d -> 0 <= l < 6 -> placed now d l -> wheel_index now d = l.
Proof.
  intros Hn Hd Hl [Heq Hlt]. unfold wheel_index, leading_zeros. change (Z.shiftl 1 BITS - 1) with 63. change WHEELS with 6.
  set (x := Z.lxor now d). assert (Hx : 0 <= x) by (unfold x; rewrite Z.lxor_nonneg; lia).
  assert (Hhi : x < 2 ^ ((l + 1) * 6)).
  { rewrite !pow64_2 in Heq by lia. apply lxor_shiftr in Heq; [| lia]. fold x in Heq. rewrite Z.shiftr_div_pow2 in Heq by lia.
    apply Z.div_small_iff in Heq; [lia | apply Z.pow_nonzero; lia]. }
  assert (Hlo : 2 ^ (l * 6) <= x).
  { apply Z.nlt_ge. intros Hsm. rewrite pow64_2 in Hlt by lia. apply (Z.lt_irrefl (d / 2 ^ (l * 6))).
    rewrite <- (proj1 (lxor_shiftr now d (l * 6) ltac:(lia))) at 1; [done |]. rewrite Z.shiftr_div_pow2 by lia. by apply Z.div_small. }
  assert (Hx0 : 0 < x) by (pose proof (pow2_pos (l * 6)); lia).
  assert (Hlor : Z.log2 (Z.lor x 63) = Z.max (Z.log2 x) 5) by (rewrite Z.log2_lor by lia; done).
  assert (Hlog : l * 6 <= Z.log2 x < (l + 1) * 6) by (split; [apply Z.log2_le_pow2 | apply Z.log2_lt_pow2]; lia).
  assert (Hlow : Z.log2 (Z.lor x 63) / 6 = l) by (rewrite Hlor; symmetry; apply Z.div_unique with (Z.max (Z.log2 x) 5 - 6 * l); lia).
  destruct (Z.leb_spec MAX_SLEEP_TICKS (Z.lor x 63)) as [Hmax |].
  - apply Z.log2_le_mono in Hmax. change (Z.log2 MAX_SLEEP_TICKS) with 35 in Hmax. change (Z.log2 (MAX_SLEEP_TICKS - 1)) with 35.
    change (_ =? 0) with false. cbv iota. assert (l = 5) by lia. subst l. done.
  - destruct (Z.eqb_spec (Z.lor x 63) 0) as [E |]; [rewrite E in Hlor; change (Z.log2 0) with 0 in Hlor; lia |].
    by replace (63 - (63 - Z.log2 (Z.lor x 63))) with (Z.log2 (Z.lor x 63)) by lia.
Qed.

(** ** Bits *)

Lemma pos_trailing_zeros_spec p :
  0 <= pos_trailing_zeros p /\ Z.testbit (Zpos p) (pos_trailing_zeros p) = true
  /\ forall j, 0 <= j < pos_trailing_zeros p -> Z.testbit (Zpos p) j = false.
Proof.
  induction p as [p _ | p (IH0 & IH1 & IH2) |]; cbn [pos_trailing_zeros]; [by split_and!; try (intros; lia) | | by split_and!; try (intros; lia)].
  change (Zpos (xO p)) with (2 * Zpos p). split_and!; [lia | |].
  - rewrite Z.add_1_l, Z.testbit_even_succ by done. done.
  - intros j Hj. destruct (Z.eq_dec j 0) as [-> |]; [done |]. replace j with (Z.succ (j - 1)) by lia.
    rewrite Z.testbit_even_succ by lia. apply IH2. lia.
Qed.

Lemma trailing_zeros_spec w :
  0 < w -> 0 <= trailing_zeros w /\ Z.testbit w (trailing_zeros w) = true
           /\ forall j, 0 <= j < trailing_zeros w -> Z.testbit w j = false.
Proof. destruct w; try lia. intros _. apply pos_trailing_zeros_spec. Qed.

Lemma count_ones_le w : count_ones w <= SLOTS.
Proof. unfold count_ones. pose proof (length_filter (fun i => Z.testbit w i = true) (seqZ 0 64)) as H. rewrite length_seqZ in H. change SLOTS with 64. lia. Qed.

Lemma testbit_single i j : 0 <= i -> Z.testbit (Z.shiftl 1 i) j = bool_decide (j = i).
Proof.
  intros. rewrite Z.shiftl_1_l. destruct (Z.eq_dec j i) as [-> | Hne].
  - rewrite Z.pow2_bits_true by done. by rewrite bool_decide_true.
  - rewrite bool_decide_false by done. destruct (Z.lt_ge_cases j 0); [by apply Z.testbit_neg_r | by apply Z.pow2_bits_false].
Qed.

Lemma testbit_set w i j : 0 <= i -> 0 <= j -> Z.testbit (Z.lor w (Z.shiftl 1 i)) j = Z.testbit w j || bool_decide (j = i).
Proof. intros. by rewrite Z.lor_spec, testbit_single. Qed.

Lemma testbit_not m j : 0 <= m < 2 ^ 64 -> 0 <= j < 64 -> Z.testbit (u_not m) j = negb (Z.testbit m j).
Proof.
  intros Hm Hj. unfold u_not. change USIZE_MAX with (Z.ones 64).
  rewrite Z.sub_nocarry_ldiff; [rewrite Z.ldiff_spec, Z.testbit_ones_nonneg by lia; rewrite (proj2 (Z.ltb_lt j 64)) by lia; done |].
  apply Z.bits_inj'. intros k Hk. rewrite Z.ldiff_spec, Z.testbit_0_l. destruct (Z.lt_ge_cases k 64).
  - rewrite Z.testbit_ones_nonneg by lia. rewrite (proj2 (Z.ltb_lt k 64)) by lia. apply andb_false_r.
  - rewrite <- (Z.mod_small m (2 ^ 64)) by done. rewrite Z.mod_pow2_bits_high by lia. done.
Qed.

Lemma testbit_clear w i j :
  0 <= i < 64 -> 0 <= j < 64 -> Z.testbit (Z.land w (u_not (Z.shiftl 1 i))) j = Z.testbit w j && negb (bool_decide (j = i)).
Proof.
  intros Hi Hj. rewrite Z.land_spec, testbit_not, testbit_single; try done; try lia.
  rewrite Z.shiftl_1_l. split; [apply Z.pow_nonneg; lia | apply Z.pow_lt_mono_r; lia].
Qed.

Lemma bits_bound w : 0 <= w -> (forall j, 64 <= j -> Z.testbit w j = false) -> w < 2 ^ 64.
Proof.
  intros H0 Hj. destruct (Z.eq_dec w 0) as [-> |]; [done |]. apply Z.log2_lt_pow2; [lia |].
  apply Z.nle_gt. intros Hl. pose proof (Z.bit_log2 w ltac:(lia)). by rewrite Hj in *.
Qed.

(** ** The invariant *)

Section invariant.
Context `{EntryList}.

Record wheel_ok (l : Z) (w : Wheel) : Prop := {
  wo_level : level w = l;
  wo_slot : ticks_per_slot w = 64 ^ l;
  wo_wheel : ticks_per_wheel w = 64 ^ (l + 1);
  wo_mask : wheel_mask w = u_not (64 ^ (l + 1) - 1);
  wo_slots : length (slots w) = 64%nat;
  wo_occupied : 0 <= occupied_slots w < 2 ^ 64;
  wo_bits i sl : slots w !! i = Some sl -> Z.testbit (occupied_slots w) (Z.of_nat i) = negb (list_is_empty sl);
}.

(** An entry in the slot [i] of the wheel [l]. *)
Definition entry_ok (h : memory) (now l i : Z) (p : ptr) : Prop :=
  exists e, h !! p = Some e /\ is_registered e = true /\ 0 <= deadline e < 2 ^ 64 /\ placed now (deadline e) l
            /\ deadline e / 64 ^ l mod 64 = i.

Definition entries_ok (h : memory) (now l : Z) (w : Wheel) : Prop :=
  forall i sl p, slots w !! i = Some sl -> p ∈ into_iter sl -> entry_ok h now l (Z.of_nat i) p.

Lemma list_nonempty l : negb (list_is_empty l) = true <-> into_iter l <> [].
Proof. rewrite list_is_empty_spec, negb_true_iff, bool_decide_eq_false. done. Qed.

Lemma slot_bound l w i sl : wheel_ok l w -> slots w !! i = Some sl -> (i < 64)%nat.
Proof. intros [] Hi%lookup_lt_Some. lia. Qed.

Lemma slot_at_bit l w j : wheel_ok l w -> 0 <= j < 64 -> exists sl, slots w !! Z.to_nat j = Some sl.
Proof. intros [] Hj. apply lookup_lt_is_Some_2. lia. Qed.

Lemma wheel_update l w i sl' occ' :
  wheel_ok l w -> 0 <= occ' < 2 ^ 64 -> (i < 64)%nat ->
  (forall j, 0 <= j < 64 ->
     Z.testbit occ' j = if bool_decide (j = Z.of_nat i) then negb (list_is_empty sl') else Z.testbit (occupied_slots w) j) ->
  wheel_ok l (with_occupied occ' (with_slot i sl' w)).
Proof.
  intros [H1 H2 H3 H4 H5 H6 H7] Ho Hi Hb. constructor; try done; cbn [slots with_slot with_occupied].
  - by rewrite length_insert.
  - intros j sl Hj. pose proof (lookup_lt_Some _ _ _ Hj) as Hlt. rewrite length_insert in Hlt.
    cbn [occupied_slots]. rewrite Hb by lia. destruct (decide (j = i)) as [-> | Hne].
    + rewrite list_lookup_insert_eq in Hj by lia. injection Hj as <-. by rewrite bool_decide_true.
    + rewrite list_lookup_insert_ne in Hj by done. rewrite bool_decide_false by lia. by apply H7.
Qed.

Lemma slot_index_ok l w d : wheel_ok l w -> 0 <= l -> slot_index w d = d / 64 ^ l mod 64.
Proof. intros [] Hl. unfold slot_index. change BITS with 6. rewrite wo_level0, Z.shiftr_div_pow2, pow64_2 by lia. done. Qed.

Lemma fill_slot_ok i w :
  0 <= i < 64 -> fill_slot i w = Done (with_occupied (Z.lor (occupied_slots w) (Z.shiftl 1 i)) w).
Proof.
  intros Hi. unfold fill_slot. rewrite assert_ltb by (change SLOTS with 64; lia). cbn [mbind outcome_bind].
  by rewrite assert_leb by apply count_ones_le.
Qed.

Lemma clear_slot_ok i w :
  0 <= i < 64 -> clear_slot i w = Done (with_occupied (Z.land (occupied_slots w) (u_not (Z.shiftl 1 i))) w).
Proof.
  intros Hi. unfold clear_slot. rewrite assert_ltb by (change SLOTS with 64; lia). cbn [mbind outcome_bind].
  by rewrite assert_leb by apply count_ones_le.
Qed.

Lemma land_usize a b : 0 <= a < 2 ^ 64 -> 0 <= Z.land a b < 2 ^ 64.
Proof.
  intros Ha. assert (0 <= Z.land a b) by (apply Z.land_nonneg; lia). split; [done |]. apply bits_bound; [done |].
  intros j Hj. rewrite Z.land_spec. rewrite <- (Z.mod_small a (2 ^ 64)) by done. by rewrite Z.mod_pow2_bits_high by lia.
Qed.

Lemma set_usize a i : 0 <= a < 2 ^ 64 -> 0 <= i < 64 -> 0 <= Z.lor a (Z.shiftl 1 i) < 2 ^ 64.
Proof.
  intros Ha Hi. assert (0 <= Z.lor a (Z.shiftl 1 i)) by (apply Z.lor_nonneg; rewrite Z.shiftl_nonneg; lia). split; [done |].
  apply bits_bound; [done |]. intros j Hj. rewrite testbit_set, bool_decide_false by lia.
  rewrite <- (Z.mod_small a (2 ^ 64)) by done. by rewrite Z.mod_pow2_bits_high by lia.
Qed.

Lemma wheel_insert_ok l w d p :
  wheel_ok l w -> 0 <= l ->
  exists w' sl, slots w !! Z.to_nat (d / 64 ^ l mod 64) = Some sl /\ wheel_insert d p w = Done w' /\ wheel_ok l w'
                /\ slots w' = <[Z.to_nat (d / 64 ^ l mod 64) := push_front p sl]> (slots w).
Proof.
  intros Hw Hl. unfold wheel_insert. rewrite (slot_index_ok l) by done. pose proof (Z.mod_pos_bound (d / 64 ^ l) 64 ltac:(lia)) as Hi.
  set (i := d / 64 ^ l mod 64) in *. destruct (slot_at_bit l w i Hw Hi) as [sl Hs]. unfold slot_at. rewrite Hs. cbn [mbind outcome_bind].
  rewrite fill_slot_ok by done. eexists _, sl. split; [done |]. split; [done |]. split; [| done].
  apply wheel_update; [done | apply set_usize; [apply Hw | done] | lia |]. intros j Hj. cbn [occupied_slots with_slot].
  rewrite testbit_set, Z2Nat.id by lia. destruct (decide (j = i)) as [-> | Hne].
  - rewrite !bool_decide_true by done. rewrite orb_true_r. symmetry. apply list_nonempty. by rewrite into_iter_push_front.
  - by rewrite !bool_decide_false, orb_false_r.
Qed.

Lemma take_slot_ok l w i sl :
  wheel_ok l w -> slots w !! i = Some sl -> into_iter sl <> [] ->
  exists es w' sl', take_slot (Z.of_nat i) w = Done (es, w') /\ into_iter es = into_iter sl /\ wheel_ok l w'
                    /\ into_iter sl' = [] /\ slots w' = <[i := sl']> (slots w).
Proof.
  intros Hw Hs Hne. pose proof (slot_bound _ _ _ _ Hw Hs) as Hi. destruct (split_off_spec 0 sl ltac:(lia)) as [Hs1 Hs2].
  pose proof (wo_bits _ _ Hw i sl Hs) as Hb. rewrite (proj2 (list_nonempty sl) Hne) in Hb. unfold take_slot.
  assert (Hz : Z.land (occupied_slots w) (Z.shiftl 1 (Z.of_nat i)) <> 0).
  { intros E. pose proof (f_equal (fun x => Z.testbit x (Z.of_nat i)) E) as E'. cbv beta in E'.
    rewrite Z.land_spec, testbit_single, Hb, bool_decide_true, Z.testbit_0_l in E' by lia. done. }
  rewrite (proj2 (Z.eqb_neq _ _) Hz). cbn [negb assert_ mbind outcome_bind]. unfold slot_at. rewrite Nat2Z.id, Hs. cbn [mbind outcome_bind].
  rewrite assert_true by (apply list_nonempty; by rewrite Hs2). cbn [mbind outcome_bind]. rewrite clear_slot_ok by lia.
  eexists _, _, (split_off 0 sl).1. split; [done |]. split; [by rewrite Hs2 |]. split; [| by rewrite Hs1].
  apply wheel_update; [done | apply land_usize; apply Hw | lia |]. intros j Hj. cbn [occupied_slots with_slot].
  rewrite testbit_clear by lia. destruct (decide (j = Z.of_nat i)) as [-> | Hn].
  - rewrite !bool_decide_true by done. rewrite andb_false_r, list_is_empty_spec, Hs1. by rewrite bool_decide_true.
  - by rewrite !bool_decide_false, andb_true_r.
Qed.

Lemma wheel_remove_ok l w d p sl h e :
  wheel_ok l w -> 0 <= l -> slots w !! Z.to_nat (d / 64 ^ l mod 64) = Some sl -> p ∈ into_iter sl -> NoDup (into_iter sl) ->
  h !! p = Some e -> is_registered e = true ->
  exists w' sl', wheel_remove d p w h = Done (w', <[p := MkEntry (deadline e) false (closed e)]> h) /\ wheel_ok l w'
                 /\ into_iter sl' = filter (fun q => q <> p) (into_iter sl) /\ slots w' = <[Z.to_nat (d / 64 ^ l mod 64) := sl']> (slots w).
Proof.
  intros Hw Hl Hs Hp Hnd He Hr. unfold wheel_remove. rewrite (slot_index_ok l) by done.
  pose proof (Z.mod_pos_bound (d / 64 ^ l) 64 ltac:(lia)) as Hi. set (i := d / 64 ^ l mod 64) in *.
  unfold slot_at. rewrite Hs. cbn [mbind outcome_bind]. destruct (list_remove_spec p sl Hp Hnd) as (sl' & -> & Hsl'). cbn [fst snd].
  unfold entry_at. rewrite He. cbn [mbind outcome_bind]. rewrite Hr. cbn [assert_ mbind outcome_bind mret outcome_ret].
  assert (Hbit : Z.testbit (occupied_slots w) i = true).
  { rewrite <- (Z2Nat.id i), (wo_bits _ _ Hw _ _ Hs) by lia. apply list_nonempty. by intros E; rewrite E in Hp; apply not_elem_of_nil in Hp. }
  destruct (list_is_empty sl') eqn:Ee.
  - rewrite clear_slot_ok by done. cbn [mbind outcome_bind]. eexists _, sl'. split; [done |]. split; [| done].
    apply wheel_update; [done | apply land_usize; apply Hw | lia |]. intros j Hj. cbn [occupied_slots with_slot].
    rewrite testbit_clear, Z2Nat.id, Ee by lia. destruct (decide (j = i)) as [-> | Hn].
    + by rewrite !bool_decide_true, andb_false_r.
    + by rewrite !bool_decide_false, andb_true_r.
  - eexists _, sl'. split; [done |]. split; [| done]. apply (wheel_update l w (Z.to_nat i) sl' (occupied_slots w)); [done | apply Hw | lia |].
    intros j Hj. rewrite Z2Nat.id, Ee by lia. case_bool_decide; [by subst j | done].
Qed.

(** The bits that are set lie beyond the present slot, and the search finds the first one. *)
Lemma next_set_bit_ok bitmap offset :
  0 <= offset < 64 -> 0 < bitmap < 2 ^ 64 -> (forall j, 0 <= j < 64 -> Z.testbit bitmap j = true -> offset < j) ->
  exists i, next_set_bit bitmap offset = Done (Some i) /\ 0 <= i < 64 /\ Z.testbit bitmap i = true
            /\ forall j, 0 <= j < 64 -> Z.testbit bitmap j = true -> i <= j.
Proof.
  intros Ho Hb Hbits. unfold next_set_bit. rewrite assert_ltb by lia. cbn [mbind outcome_bind]. rewrite (proj2 (Z.eqb_neq bitmap 0)) by lia.
  assert (Hlog : 0 <= Z.log2 bitmap < 64) by (split; [apply Z.log2_nonneg | apply Z.log2_lt_pow2; lia]).
  pose proof (Hbits _ Hlog (Z.bit_log2 bitmap ltac:(lia))) as Hlt.
  assert (Hsh : 0 < Z.shiftr bitmap offset).
  { apply Z.le_neq. split; [apply Z.shiftr_nonneg; lia |]. intros E.
    pose proof (Z.shiftr_spec bitmap offset (Z.log2 bitmap - offset) ltac:(lia)) as Hb'.
    rewrite <- E, Z.testbit_0_l, Z.sub_add, Z.bit_log2 in Hb' by lia. done. }
  rewrite (proj2 (Z.eqb_neq _ 0)) by lia. destruct (trailing_zeros_spec _ Hsh) as (Hz0 & Hz1 & Hz2).
  set (z := trailing_zeros _) in *. rewrite Z.shiftr_spec in Hz1 by done.
  assert (z + offset < 64).
  { apply Z.nle_gt. intros Hge. rewrite <- (Z.mod_small bitmap (2 ^ 64)), Z.mod_pow2_bits_high in Hz1 by lia. done. }
  rewrite u_add_Done by (unfold is_usize; lia). exists (z + offset). split_and!; try done; try lia. intros j Hj Hjb.
  apply Z.nlt_ge. intros Hc. pose proof (Hbits j Hj Hjb). specialize (Hz2 (j - offset) ltac:(lia)).
  rewrite Z.shiftr_spec, Z.sub_add in Hz2 by lia. congruence.
Qed.

Lemma rotation_start l now : 0 <= l < 6 -> is_usize now -> Z.land now (u_not (64 ^ (l + 1) - 1)) = now / 64 ^ (l + 1) * 64 ^ (l + 1).
Proof.
  intros Hl Hn. rewrite !pow64_2 by lia. pose proof (pow2_usize ((l + 1) * 6) ltac:(lia)) as Hp. pose proof (pow2_pos ((l + 1) * 6) ltac:(lia)).
  replace (u_not (2 ^ ((l + 1) * 6) - 1)) with (wrapping_sub 0 (2 ^ ((l + 1) * 6))).
  - rewrite land_high_mask by (done || lia). pose proof (Z.div_mod now (2 ^ ((l + 1) * 6))). lia.
  - unfold wrapping_sub, wrap, u_not, is_usize in *. replace (0 - 2 ^ ((l + 1) * 6)) with (USIZE_MOD - 2 ^ ((l + 1) * 6) + (-1) * USIZE_MOD) by lia.
    rewrite Z.mod_add, Z.mod_small by lia. lia.
Qed.

Lemma wheel_ptrs_empty w : (forall i sl, slots w !! i = Some sl -> into_iter sl = []) -> wheel_ptrs w = [].
Proof.
  unfold wheel_ptrs. induction (slots w) as [| sl l IH]; intros He; [done |]. cbn. rewrite (He O sl eq_refl). cbn.
  apply IH. intros i. apply (He (S i)).
Qed.

Lemma next_slot_ok h now l w :
  wheel_ok l w -> entries_ok h now l w -> 0 <= l < 6 -> is_usize now ->
  (next_slot_distance now w = Done None /\ wheel_ptrs w = [])
  \/ exists i sl, slots w !! i = Some sl /\ into_iter sl <> [] /\ next_slot_distance now w = Done (Some (Z.of_nat i))
                  /\ forall j sl', slots w !! j = Some sl' -> into_iter sl' <> [] -> (i <= j)%nat.
Proof.
  intros Hw He Hl Hn. unfold next_slot_distance. rewrite (wo_slot _ _ Hw). change SLOTS with 64.
  destruct (Z.eqb_spec (occupied_slots w) 0) as [E0 | Hne].
  - left. split; [done |]. apply wheel_ptrs_empty. intros i sl Hs. pose proof (wo_bits _ _ Hw i sl Hs) as Hb.
    rewrite E0, Z.testbit_0_l in Hb. symmetry in Hb. rewrite negb_false_iff, list_is_empty_spec, bool_decide_eq_true in Hb. done.
  - right. rewrite <- (Znumtheory.Zmod_div_mod 64 (2 ^ 32)) by (try done; by exists (2 ^ 26)).
    destruct (next_set_bit_ok (occupied_slots w) (now / 64 ^ l mod 64)) as (i & -> & Hi & Hb & Hmin).
    + by apply Z.mod_pos_bound.
    + pose proof (wo_occupied _ _ Hw). lia.
    + intros j Hj Hb. destruct (slot_at_bit l w j Hw Hj) as [sl Hs]. pose proof (wo_bits _ _ Hw _ _ Hs) as Hbit.
      rewrite Z2Nat.id, Hb in Hbit by lia. symmetry in Hbit. apply list_nonempty in Hbit. destruct (into_iter sl) as [| p ps] eqn:Esl; [done |].
      destruct (He _ _ p Hs) as (e & _ & _ & _ & Hpl & Hd); [rewrite Esl; left |]. rewrite Z2Nat.id in Hd by lia.
      pose proof (placed_digit _ _ _ (proj1 Hl) Hpl). lia.
    + destruct (slot_at_bit l w i Hw Hi) as [sl Hs]. exists (Z.to_nat i), sl. split; [done |]. split_and!.
      * apply list_nonempty. rewrite <- (wo_bits _ _ Hw _ _ Hs), Z2Nat.id by lia. done.
      * cbn [mbind outcome_bind]. by rewrite Z.mod_small, Z2Nat.id by lia.
      * intros j sl' Hs' Hn'. pose proof (slot_bound _ _ _ _ Hw Hs'). specialize (Hmin (Z.of_nat j) ltac:(lia)).
        rewrite (wo_bits _ _ Hw _ _ Hs'), (proj2 (list_nonempty sl') Hn') in Hmin. lia.
Qed.

Lemma wheel_next_deadline_ok h now l w :
  wheel_ok l w -> entries_ok h now l w -> 0 <= l < 6 -> is_usize now ->
  (wheel_next_deadline now w = Done None /\ wheel_ptrs w = [])
  \/ exists i sl, slots w !! i = Some sl /\ into_iter sl <> []
                  /\ wheel_next_deadline now w
                     = Done (Some (MkDeadline (now / 64 ^ (l + 1) * 64 ^ (l + 1) + Z.of_nat i * 64 ^ l) (Z.of_nat i) l))
                  /\ forall j sl', slots w !! j = Some sl' -> into_iter sl' <> [] -> (i <= j)%nat.
Proof.
  intros Hw He Hl Hn. unfold wheel_next_deadline.
  destruct (next_slot_ok h now l w Hw He Hl Hn) as [[-> Hp] | (i & sl & Hs & Hne & -> & Hmin)]; [by left |]. right.
  exists i, sl. do 2 (split; [done |]). split; [| done]. pose proof (slot_bound _ _ _ _ Hw Hs) as Hi.
  cbn [mbind outcome_bind]. change SLOTS with 64. rewrite assert_ltb, Z.mod_small by lia. replace (Z.max 0 (Z.of_nat i - 64)) with 0 by lia.
  cbn [mbind outcome_bind]. rewrite Z.eqb_refl. cbn [orb assert_ mbind outcome_bind]. unfold u_mul. rewrite Z.mul_0_l. cbn [checked mbind outcome_bind].
  rewrite (wo_slot _ _ Hw), (wo_mask _ _ Hw), (wo_level _ _ Hw), rotation_start by done.
  destruct (into_iter sl) as [| p ps] eqn:Esl; [done |]. destruct (He _ _ p Hs) as (e & _ & _ & Hr & Hpl & Hd); [rewrite Esl; left |].
  destruct (placed_digit _ _ _ (proj1 Hl) Hpl) as [_ Hst]. rewrite Hd in Hst. pose proof (slot_start_le (deadline e) l (proj1 Hl)).
  pose proof (pow64_pos l (proj1 Hl)). pose proof (pow64_pos (l + 1) ltac:(lia)).
  assert (0 <= now / 64 ^ (l + 1)) by (apply Z.div_pos; unfold is_usize in Hn; lia).
  unfold u_add. rewrite !checked_Done by (unfold is_usize; nia). cbn [mbind outcome_bind]. rewrite checked_Done by (unfold is_usize; nia).
  cbn [mbind outcome_bind]. rewrite Z.add_0_r, checked_Done by (unfold is_usize; nia). done.
Qed.

End invariant.
