(* ===== verification/TimerCore.v ===== *)
(** * Correctness of the timer wheel

    The invariant of the whole wheel, and what [poll], [register] and [cancel]
    do in terms of the set of pending entries: the wheel behaves like a set
    of deadlines from which [poll] takes those that have passed. *)

From stdpp Require Import base numbers list gmap.
From Stdlib Require Import ZArith Lia.
From S2P Require Import Prelude TimerWheel.

Section core.
Context `{EntryList}.

(** The list [sl] of the slot [i] of the wheel [l]. *)
Definition at_slot (c : Core) (l i : nat) (sl : elist) : Prop :=
  exists w, c_wheels c !! l = Some w /\ slots w !! i = Some sl.

Record core_ok (h : memory) (c : Core) : Prop := {
  co_now : is_usize (c_now c);
  co_wheels : length (c_wheels c) = 6%nat;
  co_wheel l w : c_wheels c !! l = Some w -> wheel_ok (Z.of_nat l) w;
  co_entry l i sl p : at_slot c l i sl -> p ∈ into_iter sl -> entry_ok h (c_now c) (Z.of_nat l) (Z.of_nat i) p;
  co_nodup : NoDup (ptrs c);
}.

Lemma join_insert {A} (ls : list (list A)) i x y :
  ls !! i = Some x -> mjoin (<[i := y]> ls) ++ x ≡ₚ y ++ mjoin ls.
Proof.
  intros Hi. rewrite insert_take_drop by (by eapply lookup_lt_Some). rewrite <- (take_drop_middle ls i x Hi) at 3.
  rewrite !join_app. cbn. solve_Permutation.
Qed.

Lemma elem_of_ptrs c p : p ∈ ptrs c <-> exists l i sl, at_slot c l i sl /\ p ∈ into_iter sl.
Proof.
  unfold ptrs, wheel_ptrs, at_slot. rewrite list_elem_of_join. setoid_rewrite list_elem_of_fmap. split.
  - intros (? & Hp & w & -> & (l & Hl)%list_elem_of_lookup). apply list_elem_of_join in Hp as (? & Hp & (sl & -> & Hs)%list_elem_of_fmap).
    apply list_elem_of_lookup in Hs as [i Hi]. eauto 8.
  - intros (l & i & sl & (w & Hl & Hi) & Hp). exists (mjoin (into_iter <$> slots w)).
    split; [| exists w; split; [done |]; by eapply list_elem_of_lookup_2].
    apply list_elem_of_join. exists (into_iter sl). split; [done |]. apply list_elem_of_fmap. exists sl. split; [done |]. by eapply list_elem_of_lookup_2.
Qed.

(** ** One slot changes *)

Definition slot_update (c c' : Core) (l i : nat) (sl sl' : elist) : Prop :=
  exists w w', c_wheels c !! l = Some w /\ slots w !! i = Some sl /\ slots w' = <[i := sl']> (slots w)
               /\ c_wheels c' = <[l := w']> (c_wheels c) /\ wheel_ok (Z.of_nat l) w'.

Lemma slot_update_ptrs c c' l i sl sl' : slot_update c c' l i sl sl' -> ptrs c' ++ into_iter sl ≡ₚ into_iter sl' ++ ptrs c.
Proof.
  intros (w & w' & Hl & Hi & Hs & Hc & _). unfold ptrs. rewrite Hc, list_fmap_insert.
  assert (Hw : wheel_ptrs w' ++ into_iter sl ≡ₚ into_iter sl' ++ wheel_ptrs w).
  { unfold wheel_ptrs. rewrite Hs, list_fmap_insert. apply join_insert. by rewrite list_lookup_fmap, Hi. }
  apply (Permutation_app_inv_r (wheel_ptrs w)). pose proof (join_insert (wheel_ptrs <$> c_wheels c) l (wheel_ptrs w) (wheel_ptrs w')) as Hp.
  rewrite list_lookup_fmap, Hl in Hp. specialize (Hp eq_refl).
  transitivity ((mjoin (<[l:=wheel_ptrs w']> (wheel_ptrs <$> c_wheels c)) ++ wheel_ptrs w) ++ into_iter sl); [solve_Permutation |].
  rewrite Hp. transitivity ((wheel_ptrs w' ++ into_iter sl) ++ mjoin (wheel_ptrs <$> c_wheels c)); [solve_Permutation |].
  rewrite Hw. solve_Permutation.
Qed.

Lemma slot_update_at c c' l i sl sl' m j x :
  slot_update c c' l i sl sl' -> at_slot c' m j x -> (m = l /\ j = i /\ x = sl') \/ ((m, j) <> (l, i) /\ at_slot c m j x).
Proof.
  intros (w & w' & Hl & Hi & Hs & Hc & _) (v & Hm & Hj). rewrite Hc in Hm. pose proof (lookup_lt_Some _ _ _ Hl). pose proof (lookup_lt_Some _ _ _ Hi).
  destruct (decide (m = l)) as [-> | Hne].
  - rewrite list_lookup_insert_eq in Hm by done. injection Hm as <-. rewrite Hs in Hj. destruct (decide (j = i)) as [-> | Hnj].
    + rewrite list_lookup_insert_eq in Hj by done. injection Hj as <-. by left.
    + rewrite list_lookup_insert_ne in Hj by done. right. split; [naive_solver |]. by exists w.
  - rewrite list_lookup_insert_ne in Hm by done. right. split; [naive_solver |]. by exists v.
Qed.

Lemma slot_update_wheel c c' l i sl sl' h :
  slot_update c c' l i sl sl' -> core_ok h c ->
  length (c_wheels c') = 6%nat /\ forall m v, c_wheels c' !! m = Some v -> wheel_ok (Z.of_nat m) v.
Proof.
  intros (w & w' & Hl & Hi & Hs & Hc & Hw) Hok. rewrite Hc, length_insert. split; [apply Hok |]. intros m v Hm.
  destruct (decide (m = l)) as [-> | Hne].
  - rewrite list_lookup_insert_eq in Hm by (by eapply lookup_lt_Some). by injection Hm as <-.
  - rewrite list_lookup_insert_ne in Hm by done. by apply (co_wheel _ _ Hok).
Qed.

(** ** Memory outside the wheel, and time *)

Lemma core_ok_memory h h' c : core_ok h c -> (forall p, p ∈ ptrs c -> h' !! p = h !! p) -> core_ok h' c.
Proof.
  intros [H1 H2 H3 H4 H5] Hh. constructor; try done. intros l i sl p Hs Hp. destruct (H4 l i sl p Hs Hp) as (e & He & ?).
  exists e. split; [| done]. rewrite Hh; [done |]. apply elem_of_ptrs. eauto 6.
Qed.

Definition deadline_of (h : memory) (p : ptr) : Z := match h !! p with Some e => deadline e | None => 0 end.

(** What holds of the wheels whatever the deadlines: an entry is in the slot that
    [wheel_index] and [slot_index] choose for it. *)
Record wheels_ok (h : memory) (c : Core) : Prop := {
  wo_now : is_usize (c_now c);
  wo_wheels : length (c_wheels c) = 6%nat;
  wo_wheel l w : c_wheels c !! l = Some w -> wheel_ok (Z.of_nat l) w;
  wo_entry l i sl p : at_slot c l i sl -> p ∈ into_iter sl ->
    exists e, h !! p = Some e /\ is_registered e = true /\ c_now c < deadline e < 2 ^ 64
              /\ wheel_index (c_now c) (deadline e) = Z.of_nat l /\ deadline e / 64 ^ Z.of_nat l mod 64 = Z.of_nat i;
  wo_nodup : NoDup (ptrs c);
}.

(** Every pending deadline is in the present turn of the uppermost wheel, which
    takes [64 ^ 6 = 2 ^ 36] ticks. *)
Definition present_turn (h : memory) (c : Core) : Prop :=
  forall p, p ∈ ptrs c -> deadline_of h p / 2 ^ 36 = c_now c / 2 ^ 36.

Lemma core_ok_turn h c : core_ok h c <-> wheels_ok h c /\ present_turn h c.
Proof.
  unfold present_turn. change (2 ^ 36) with (64 ^ 6). split.
  - intros [H1 H2 H3 H4 H5].
    assert (Hl : forall l i sl, at_slot c l i sl -> 0 <= Z.of_nat l < 6) by (intros l i sl (w & Hw & _); apply lookup_lt_Some in Hw; lia).
    split; [constructor; try done |].
    + intros l i sl p Hs Hp. destruct (H4 l i sl p Hs Hp) as (e & He & Hr & Hd & Hpl & Hi). specialize (Hl l i sl Hs).
      pose proof (placed_lt (c_now c) (deadline e) (Z.of_nat l) ltac:(lia) Hpl). pose proof (slot_start_le (deadline e) (Z.of_nat l) ltac:(lia)). destruct H1.
      exists e. split_and!; try done; try lia. apply wheel_index_placed; done || lia.
    + intros p (l & i & sl & Hs & Hp)%elem_of_ptrs. destruct (H4 l i sl p Hs Hp) as (e & He & _ & _ & Hpl & _).
      unfold deadline_of. rewrite He. symmetry. by apply (placed_turn _ _ (Z.of_nat l)); [apply (Hl l i sl) |].
  - intros [[H1 H2 H3 H4 H5] Ht]. constructor; try done. intros l i sl p Hs Hp. destruct (H4 l i sl p Hs Hp) as (e & He & Hr & Hd & Hl & Hi).
    assert (Hin : p ∈ ptrs c) by (apply elem_of_ptrs; eauto 6). specialize (Ht p Hin). unfold deadline_of in Ht. rewrite He in Ht. destruct H1.
    destruct (placed_exists (c_now c) (deadline e)) as (k & Hk & Hpl); [lia | done |].
    rewrite (wheel_index_placed _ _ k) in Hl by (done || lia). subst k. exists e. split_and!; done || lia.
Qed.

Lemma entry_ok_advance h now s l i p :
  0 <= l -> entry_ok h now l i p -> now <= s -> s < slot_start (deadline_of h p) l -> entry_ok h s l i p.
Proof.
  intros Hl (e & He & Hr & Hd & Hp & Hi) Hle Hlt. unfold deadline_of in Hlt. rewrite He in Hlt. exists e. split_and!; try done; try lia.
  by apply (placed_advance now).
Qed.

Lemma core_ok_advance h c s :
  core_ok h c -> c_now c <= s -> is_usize s ->
  (forall l i sl p, at_slot c l i sl -> p ∈ into_iter sl -> s < slot_start (deadline_of h p) (Z.of_nat l)) ->
  core_ok h (MkCore s (c_wheels c)).
Proof.
  intros [H1 H2 H3 H4 H5] Hle Hs Hlt. constructor; try done. intros l i sl p Ha Hp.
  apply (entry_ok_advance h (c_now c)); [lia | by apply (H4 l i sl) | done | by apply (Hlt l i sl)].
Qed.

(** ** The next slot *)

Record next_slot (h : memory) (c : Core) (d : Deadline) (l i : nat) (sl : elist) : Prop := {
  ns_wheel : d_wheel d = Z.of_nat l;
  ns_slot : d_slot d = Z.of_nat i;
  ns_at : at_slot c l i sl;
  ns_nonempty : into_iter sl <> [];
  ns_start p : p ∈ into_iter sl -> slot_start (deadline_of h p) (Z.of_nat l) = d_ticks d;
  ns_first m j sl' p : at_slot c m j sl' -> p ∈ into_iter sl' -> (m, j) <> (l, i) -> d_ticks d < slot_start (deadline_of h p) (Z.of_nat m);
}.

Lemma first_deadline_ok h now ws (k : nat) :
  (k + length ws <= 6)%nat -> is_usize now ->
  (forall j w, ws !! j = Some w -> wheel_ok (Z.of_nat (k + j)) w /\ entries_ok h now (Z.of_nat (k + j)) w) ->
  (first_deadline now ws = Done None /\ mjoin (wheel_ptrs <$> ws) = [])
  \/ exists j w i sl, ws !! j = Some w /\ slots w !! i = Some sl /\ into_iter sl <> []
       /\ first_deadline now ws
          = Done (Some (MkDeadline (now / 64 ^ (Z.of_nat (k + j) + 1) * 64 ^ (Z.of_nat (k + j) + 1) + Z.of_nat i * 64 ^ Z.of_nat (k + j))
                                   (Z.of_nat i) (Z.of_nat (k + j))))
       /\ (forall m v, (m < j)%nat -> ws !! m = Some v -> wheel_ptrs v = [])
       /\ (forall i' sl', slots w !! i' = Some sl' -> into_iter sl' <> [] -> (i <= i')%nat).
Proof.
  revert k. induction ws as [| w ws IH]; intros k Hlen Hn Hws; [by left |]. cbn [first_deadline length] in *.
  destruct (Hws O w eq_refl) as [Hw He]. rewrite Nat.add_0_r in Hw, He.
  destruct (wheel_next_deadline_ok h now (Z.of_nat k) w Hw He ltac:(lia) Hn) as [[-> Hp] | (i & sl & Hs & Hne & -> & Hmin)]; cbn [mbind outcome_bind].
  - destruct (IH (S k) ltac:(lia) Hn) as [[-> Hc] | (j & v & i & sl & Hj & Hs & Hne & -> & Hm & Hmin)].
    + intros j v Hj. replace (S k + j)%nat with (k + S j)%nat by lia. by apply Hws.
    + left. split; [done |]. cbn. by rewrite Hp.
    + right. exists (S j), v, i, sl. replace (k + S j)%nat with (S k + j)%nat by lia. split_and!; try done.
      intros [| m] u Hlt; [by intros [= <-] |]. apply Hm. lia.
  - right. exists O, w, i, sl. rewrite Nat.add_0_r. split_and!; try done. intros m v Hlt. lia.
Qed.

Lemma core_next_ok h c :
  core_ok h c ->
  (core_next_deadline c = Done None /\ ptrs c = [])
  \/ exists d l i sl, core_next_deadline c = Done (Some d) /\ next_slot h c d l i sl.
Proof.
  intros Hok. destruct (first_deadline_ok h (c_now c) (c_wheels c) 0) as [[? ?] | (l & w & i & sl & Hl & Hi & Hne & Hd & Hlow & Hmin)].
  - rewrite (co_wheels _ _ Hok). lia.
  - apply Hok.
  - intros j w Hj. split; [by apply (co_wheel _ _ Hok) |]. intros i sl p Hi Hp. apply (co_entry _ _ Hok j i sl); [by exists w | done].
  - by left.
  - right. cbn [Nat.add] in Hd. eexists _, l, i, sl. split; [exact Hd |].
    assert (Hstart : forall j sl' p, slots w !! j = Some sl' -> p ∈ into_iter sl' ->
      slot_start (deadline_of h p) (Z.of_nat l)
      = c_now c / 64 ^ (Z.of_nat l + 1) * 64 ^ (Z.of_nat l + 1) + Z.of_nat j * 64 ^ Z.of_nat l).
    { intros j sl' p Hj Hp. destruct (co_entry _ _ Hok l j sl' p) as (e & He & _ & _ & Hpl & Hdig); [by exists w | done |].
      unfold deadline_of. rewrite He, <- Hdig. apply (placed_digit (c_now c)); [lia | done]. }
    constructor; try done; cbn [d_wheel d_slot d_ticks].
    + by exists w.
    + intros p Hp. by apply (Hstart i sl).
    + intros m j sl' p (v & Hm & Hj) Hp Hne'. pose proof (pow64_pos (Z.of_nat l) ltac:(lia)). destruct (decide (m = l)) as [-> | Hml].
      * assert (v = w) as -> by congruence. rewrite (Hstart j sl' p Hj Hp). pose proof (Hmin j sl' Hj) as Hij.
        assert (into_iter sl' <> []) as Hn' by (intros E; rewrite E in Hp; by apply not_elem_of_nil in Hp). specialize (Hij Hn').
        assert (i <> j) by congruence. nia.
      * assert (l < m)%nat.
        { apply Nat.nle_gt. intros Hle. specialize (Hlow m v ltac:(lia) Hm). assert (p ∈ wheel_ptrs v) as Hin.
          { unfold wheel_ptrs. apply list_elem_of_join. exists (into_iter sl'). split; [done |]. apply list_elem_of_fmap. exists sl'. split; [done |]. by eapply list_elem_of_lookup_2. }
          rewrite Hlow in Hin. by apply not_elem_of_nil in Hin. }
        destruct (into_iter sl) as [| q qs] eqn:Esl; [done |].
        rewrite <- (Hstart i sl q Hi) by (rewrite Esl; left).
        destruct (co_entry _ _ Hok l i sl q) as (e & He & _ & _ & Hpl & _); [by exists w | rewrite Esl; left |].
        destruct (co_entry _ _ Hok m j sl' p) as (e' & He' & _ & _ & Hpl' & _); [by exists v | done |].
        unfold deadline_of. rewrite He, He'. apply (placed_order (c_now c)); [lia | done | done].
Qed.

(** ** The operations on the core *)

Lemma on_wheel_ok {A} (f : Wheel -> outcome (A * Wheel)) c l w a w' :
  c_wheels c !! Z.to_nat l = Some w -> f w = Done (a, w') ->
  on_wheel l f c = Done (a, MkCore (c_now c) (<[Z.to_nat l := w']> (c_wheels c))).
Proof. intros Hl Hf. unfold on_wheel. rewrite Hl, Hf. done. Qed.

Lemma core_level h c l w : core_ok h c -> c_wheels c !! l = Some w -> 0 <= Z.of_nat l < 6.
Proof. intros Hok Hl%lookup_lt_Some. rewrite (co_wheels _ _ Hok) in Hl. lia. Qed.

Lemma open_slot_ok h c d l i sl :
  core_ok h c -> next_slot h c d l i sl ->
  exists es c1, on_wheel (d_wheel d) (take_slot (d_slot d)) c = Done (es, c1) /\ into_iter es = into_iter sl
                /\ ptrs c ≡ₚ into_iter sl ++ ptrs c1 /\ core_ok h (MkCore (d_ticks d) (c_wheels c1)) /\ c_now c < d_ticks d.
Proof.
  intros Hok [Hdl Hds (w & Hl & Hi) Hne Hst Hfirst]. pose proof (core_level _ _ _ _ Hok Hl) as Hlev.
  destruct (take_slot_ok _ w i sl (co_wheel _ _ Hok _ _ Hl) Hi Hne) as (es & w' & sl' & Ht & Hes & Hw' & Hsl' & Hsw).
  rewrite Hdl, Hds, (on_wheel_ok _ c (Z.of_nat l) w es w'), Nat2Z.id by (rewrite ?Nat2Z.id; done). eexists es, _. split; [done |]. split; [done |].
  set (c1 := MkCore (c_now c) (<[l := w']> (c_wheels c))). assert (Hu : slot_update c c1 l i sl sl') by (exists w, w'; done).
  pose proof (slot_update_ptrs _ _ _ _ _ _ Hu) as Hp. rewrite Hsl', app_nil_l in Hp.
  assert (Hnow : c_now c < d_ticks d /\ is_usize (d_ticks d)).
  { destruct (into_iter sl) as [| p ps] eqn:Esl; [done |]. rewrite <- (Hst p) by left.
    destruct (co_entry _ _ Hok l i sl p) as (e & He & _ & Hr & Hpl & _); [by exists w | rewrite Esl; left |].
    unfold deadline_of. rewrite He. pose proof (placed_lt _ _ _ (proj1 Hlev) Hpl). pose proof (slot_start_le (deadline e) _ (proj1 Hlev)).
    pose proof (co_now _ _ Hok) as [? ?]. change (2 ^ 64) with USIZE_MOD in Hr. unfold is_usize. lia. }
  split; [rewrite <- Hp; apply Permutation_app_comm |]. split; [| apply Hnow].
  apply (core_ok_advance h c1 (d_ticks d)); try apply Hnow.
  - destruct (slot_update_wheel _ _ _ _ _ _ _ Hu Hok) as [Hlen Hws]. constructor; try done; [apply Hok | |].
    + intros m j x p Hx Hpx. destruct (slot_update_at _ _ _ _ _ _ _ _ _ Hu Hx) as [(-> & -> & ->) | [_ Hx']].
      * rewrite Hsl' in Hpx. by apply not_elem_of_nil in Hpx.
      * by apply (co_entry _ _ Hok m j x).
    + pose proof (co_nodup _ _ Hok) as Hnd. rewrite <- Hp in Hnd. by apply NoDup_app in Hnd as [? _].
  - cbn. lia.
  - intros m j x p Hx Hpx. destruct (slot_update_at _ _ _ _ _ _ _ _ _ Hu Hx) as [(-> & -> & ->) | [Hneq Hx']].
    + rewrite Hsl' in Hpx. by apply not_elem_of_nil in Hpx.
    + by apply (Hfirst m j x).
Qed.

Lemma insert_at_ok h c p e :
  core_ok h c -> p ∉ ptrs c -> h !! p = Some e -> is_registered e = true -> deadline e < 2 ^ 64 -> c_now c < deadline e ->
  c_now c / 64 ^ 6 = deadline e / 64 ^ 6 ->
  exists c', insert_at (deadline e) p c = Done c' /\ core_ok h c' /\ c_now c' = c_now c /\ ptrs c' ≡ₚ p :: ptrs c.
Proof.
  intros Hok Hnp He Hr Hd Hlt Hturn. pose proof (co_now _ _ Hok) as [Hn0 Hn1].
  destruct (placed_exists (c_now c) (deadline e) ltac:(lia) Hturn) as (l & Hl & Hpl).
  destruct (lookup_lt_is_Some_2 (c_wheels c) (Z.to_nat l)) as [w Hw]; [rewrite (co_wheels _ _ Hok); lia |].
  pose proof (co_wheel _ _ Hok _ _ Hw) as Hwok. rewrite Z2Nat.id in Hwok by lia.
  destruct (wheel_insert_ok l w (deadline e) p Hwok (proj1 Hl)) as (w' & sl & Hs & Hins & Hw' & Hsw).
  set (i := deadline e / 64 ^ l mod 64) in *. assert (Hi : 0 <= i < 64) by (apply Z.mod_pos_bound; lia).
  unfold insert_at. rewrite (wheel_index_placed _ _ l) by (done || lia).
  rewrite (on_wheel_ok _ c l w tt w') by (done || (rewrite Hins; done)). cbn [mbind outcome_bind snd].
  set (c1 := MkCore (c_now c) (<[Z.to_nat l := w']> (c_wheels c))).
  assert (Hu : slot_update c c1 (Z.to_nat l) (Z.to_nat i) sl (push_front p sl)) by (exists w, w'; rewrite Z2Nat.id by lia; done).
  exists c1. split; [done |]. pose proof (slot_update_ptrs _ _ _ _ _ _ Hu) as Hp. rewrite into_iter_push_front in Hp.
  assert (Hp' : ptrs c1 ≡ₚ p :: ptrs c).
  { apply (Permutation_app_inv_r (into_iter sl)). rewrite Hp. cbn. by rewrite (Permutation_app_comm (into_iter sl)). }
  split; [| split; [done | exact Hp']]. destruct (slot_update_wheel _ _ _ _ _ _ _ Hu Hok) as [Hlen Hws]. constructor; try done.
  - intros m j x q Hx Hqx. destruct (slot_update_at _ _ _ _ _ _ _ _ _ Hu Hx) as [(-> & -> & ->) | [_ Hx']]; [| by apply (co_entry _ _ Hok m j x)].
    rewrite into_iter_push_front in Hqx. apply elem_of_cons in Hqx as [-> | Hq].
    + exists e. rewrite !Z2Nat.id by lia. split_and!; try done; lia.
    + apply (co_entry _ _ Hok _ _ sl); [by exists w | done].
  - rewrite Hp'. by constructor; [| apply Hok].
Qed.

Lemma reschedule_ok h entries c :
  core_ok h c -> NoDup (entries ++ ptrs c) ->
  (forall p, p ∈ entries -> exists e, h !! p = Some e /\ is_registered e = true /\ deadline e < 2 ^ 64 /\ c_now c < deadline e
                                    /\ c_now c / 64 ^ 6 = deadline e / 64 ^ 6) ->
  exists c', reschedule entries h c = Done c' /\ core_ok h c' /\ c_now c' = c_now c /\ ptrs c' ≡ₚ entries ++ ptrs c.
Proof.
  revert c. induction entries as [| p ps IH]; intros c Hok Hnd Hes; [by exists c |]. cbn [reschedule app] in *. apply NoDup_cons in Hnd as [Hnp Hnd].
  destruct (Hes p) as (e & He & Hr & Hd & Hlt & Hturn); [left |]. pose proof (co_now _ _ Hok) as [Hn0 _].
  unfold entry_at. rewrite He. cbn [mbind outcome_bind]. rewrite assert_ltb by done. cbn [mbind outcome_bind].
  rewrite (proj2 (Z.eqb_neq _ 0)) by lia. cbn [negb assert_ mbind outcome_bind].
  destruct (insert_at_ok h c p e) as (c1 & -> & Hok1 & Hn1 & Hp1); try done; [intros Hin; apply Hnp, elem_of_app; by right |].
  cbn [mbind outcome_bind]. destruct (IH c1 Hok1) as (c2 & -> & Hok2 & Hn2 & Hp2).
  - rewrite Hp1. rewrite <- Permutation_middle. by constructor.
  - intros q Hq. rewrite Hn1. apply Hes. by right.
  - exists c2. split; [done |]. split; [done |]. split; [congruence |]. rewrite Hp2, Hp1. by rewrite <- Permutation_middle.
Qed.

(** ** Firing *)

(** [h'] is [h] with the entries of [F] fired. *)
Definition fired (h h' : memory) (F : list ptr) : Prop :=
  forall p, h' !! p = if decide (p ∈ F) then fire <$> h !! p else h !! p.

Lemma fired_nil h : fired h h [].
Proof. intros p. by rewrite decide_False by apply not_elem_of_nil. Qed.

Lemma fired_app h h1 h2 F G : fired h h1 F -> fired h1 h2 G -> (forall p, p ∈ F -> p ∉ G) -> fired h h2 (F ++ G).
Proof.
  intros H1 H2 Hd p. rewrite H2, H1. destruct (decide (p ∈ F)) as [HF | HF].
  - rewrite decide_False by (by apply Hd). rewrite decide_True by (apply elem_of_app; by left). done.
  - destruct (decide (p ∈ G)) as [HG | HG]; [rewrite decide_True by (apply elem_of_app; by right) | rewrite decide_False by (by intros [?|?]%elem_of_app)]; done.
Qed.

Lemma fired_perm h h' F G : F ≡ₚ G -> fired h h' F -> fired h h' G.
Proof.
  intros Hp Hf p. rewrite Hf. destruct (decide (p ∈ F)) as [HF | HF]; [rewrite decide_True | rewrite decide_False]; try done; by rewrite <- Hp.
Qed.

Lemma fired_deadline h h' F p : fired h h' F -> deadline_of h' p = deadline_of h p.
Proof. intros Hf. unfold deadline_of. rewrite Hf. case_decide; destruct (h !! p); done. Qed.

Lemma fired_other h h' F p : fired h h' F -> p ∉ F -> h' !! p = h !! p.
Proof. intros Hf Hp. rewrite Hf. by rewrite decide_False. Qed.

Lemma fired_insert h p e : h !! p = Some e -> fired h (<[p := fire e]> h) [p].
Proof.
  intros He q. destruct (decide (q ∈ [p])) as [->%list_elem_of_singleton | Hq].
  - by rewrite lookup_insert_eq, He.
  - rewrite lookup_insert_ne; [done |]. intros ->. by apply Hq, list_elem_of_singleton.
Qed.

(** The entries whose time has come, and those whose time has not. *)
Definition due (h : memory) (now : Z) (ps : list ptr) : list ptr := filter (fun p => deadline_of h p <= now) ps.
Definition later (h : memory) (now : Z) (ps : list ptr) : list ptr := filter (fun p => now < deadline_of h p) ps.

Lemma due_later h now ps : ps ≡ₚ due h now ps ++ later h now ps.
Proof.
  induction ps as [| p ps IH]; [done |]. unfold due, later in *. rewrite !filter_cons. destruct (decide (deadline_of h p <= now)).
  - rewrite decide_False by lia. cbn. by rewrite <- IH.
  - rewrite decide_True by lia. rewrite <- Permutation_middle. by rewrite <- IH.
Qed.

Lemma elem_of_due h now ps p : p ∈ due h now ps <-> deadline_of h p <= now /\ p ∈ ps.
Proof. unfold due. by rewrite list_elem_of_filter. Qed.
Lemma elem_of_later h now ps p : p ∈ later h now ps <-> now < deadline_of h p /\ p ∈ ps.
Proof. unfold later. by rewrite list_elem_of_filter. Qed.

Lemma filter_deadline h h' F now ps : fired h h' F -> due h' now ps = due h now ps /\ later h' now ps = later h now ps.
Proof.
  intros Hf. unfold due, later. split; apply list_filter_iff; intros p; by rewrite (fired_deadline _ _ _ _ Hf).
Qed.

Lemma expire_ok now wheel entries h pending expired :
  NoDup entries -> (forall p, p ∈ entries -> is_Some (h !! p)) -> (wheel = 0 -> later h now entries = []) ->
  exists h' pending',
    expire now wheel entries h pending expired = Done (h', pending', expired + Z.of_nat (length (due h now entries)))
    /\ fired h h' (due h now entries) /\ into_iter pending' ≡ₚ later h now entries ++ into_iter pending.
Proof.
  revert h pending expired. induction entries as [| p ps IH]; intros h pending expired Hnd Hin Hw.
  { exists h, pending. cbn. rewrite Z.add_0_r. split; [done |]. split; [apply fired_nil | done]. }
  apply NoDup_cons in Hnd as [Hnp Hnd]. destruct (Hin p) as [e He]; [left |]. cbn [expire]. unfold entry_at. rewrite He. cbn [mbind outcome_bind].
  assert (Hdp : deadline_of h p = deadline e) by (unfold deadline_of; by rewrite He).
  unfold due, later in *. rewrite !filter_cons in *. rewrite Hdp in *. destruct (Z.ltb_spec now (deadline e)) as [Hlt | Hle].
  - rewrite (decide_False (P := deadline e <= now)) by lia. rewrite (decide_True (P := now < deadline e)) in * by lia.
    destruct (Z.eqb_spec wheel 0) as [-> | Hw0]; [by specialize (Hw eq_refl) |]. cbn [negb assert_ mbind outcome_bind].
    destruct (IH h (push_front p pending) expired Hnd) as (h' & pend' & -> & Hf & Hp); [| done |].
    + intros q Hq. apply Hin. by right.
    + exists h', pend'. split; [done |]. split; [done |]. rewrite Hp, into_iter_push_front. by rewrite <- Permutation_middle.
  - rewrite (decide_True (P := deadline e <= now)) by lia. rewrite (decide_False (P := now < deadline e)) in * by lia.
    pose proof (fired_insert h p e He) as Hf0. pose proof (filter_deadline _ _ _ now ps Hf0) as [Hdue Hlat]. unfold due, later in Hdue, Hlat.
    destruct (IH (<[p := fire e]> h) pending (expired + 1) Hnd) as (h' & pend' & -> & Hf & Hp).
    + intros q Hq. rewrite lookup_insert_ne by congruence. apply Hin. by right.
    + rewrite Hlat. done.
    + rewrite Hdue, Hlat in *. exists h', pend'. split; [do 2 f_equal; cbn; lia |]. split; [| done].
      apply (fired_app _ _ _ [p] _ Hf0 Hf). intros q ->%list_elem_of_singleton [_ ?]%list_elem_of_filter. done.
Qed.

(** ** The loop of [poll] *)

Lemma slots_begin h c d now :
  core_ok h c -> core_next_deadline c = Done d -> (match d with Some d => now < d_ticks d | None => True end) ->
  forall l i sl p, at_slot c l i sl -> p ∈ into_iter sl -> now < slot_start (deadline_of h p) (Z.of_nat l).
Proof.
  intros Hok Hd Hlt l i sl p Hs Hp. destruct (core_next_ok h c Hok) as [[E Hnil] | (d' & m & j & sl' & E & [])].
  - assert (p ∈ ptrs c) as Hin by (apply elem_of_ptrs; eauto 6). rewrite Hnil in Hin. by apply not_elem_of_nil in Hin.
  - rewrite E in Hd. injection Hd as <-. destruct (decide ((l, i) = (m, j))) as [[= -> ->] | Hne].
    + assert (sl = sl') as -> by (destruct Hs as (? & ? & ?), ns_at0 as (? & ? & ?); congruence). rewrite ns_start0 by done. done.
    + specialize (ns_first0 _ _ _ _ Hs Hp Hne). lia.
Qed.

Lemma ptrs_memory h c p : core_ok h c -> p ∈ ptrs c ->
  exists e, h !! p = Some e /\ is_registered e = true /\ deadline e < 2 ^ 64 /\ c_now c < deadline e /\ c_now c / 64 ^ 6 = deadline e / 64 ^ 6.
Proof.
  intros Hok (l & i & sl & Hs & Hp)%elem_of_ptrs. destruct (co_entry _ _ Hok l i sl p Hs Hp) as (e & He & Hr & Hd & Hpl & _).
  assert (Hl : 0 <= Z.of_nat l < 6) by (destruct Hs as (w & Hw & _); by apply (core_level h c l w)).
  exists e. pose proof (placed_lt _ _ _ (proj1 Hl) Hpl). pose proof (slot_start_le (deadline e) _ (proj1 Hl)).
  split_and!; try done; try lia. by apply (placed_turn _ _ (Z.of_nat l)).
Qed.

(** What the loop has done: the entries [F] are fired, [Q] wait to be
    rescheduled, and no slot that is left has begun. *)
Record loop_done (now : Z) (h : memory) (c : Core) (pending : elist) (next : option Deadline) (h' : memory) (c' : Core) (pending' : elist)
    (F Q : list ptr) : Prop := {
  ld_fired : fired h h' F;
  ld_ptrs : ptrs c ≡ₚ F ++ Q ++ ptrs c';
  ld_pending : into_iter pending' ≡ₚ Q ++ into_iter pending;
  ld_due p : p ∈ F -> deadline_of h p <= now;
  ld_later p : p ∈ Q -> now < deadline_of h p;
  ld_ok : core_ok h' c';
  ld_next : core_next_deadline c' = Done next;
  ld_now : c_now c <= c_now c' <= Z.max now (c_now c);
  ld_stop : match next with Some d => now < d_ticks d | None => True end;
}.

Lemma loop_done_stop now h c pending next :
  core_ok h c -> core_next_deadline c = Done next -> (match next with Some d => now < d_ticks d | None => True end) ->
  loop_done now h c pending next h c pending [] [].
Proof. intros. constructor; try done; try lia; try apply fired_nil; by intros p ?%not_elem_of_nil. Qed.

(** One round, and the rounds after it. *)
Lemma loop_done_step now h c pending c1 h1 pend1 ps c2 next h' c' pending' F Q :
  core_ok h c -> ptrs c ≡ₚ ps ++ ptrs c1 -> fired h h1 (due h now ps) -> into_iter pend1 ≡ₚ later h now ps ++ into_iter pending ->
  c_wheels c2 = c_wheels c1 -> c_now c < c_now c2 <= now ->
  loop_done now h1 c2 pend1 next h' c' pending' F Q ->
  loop_done now h c pending next h' c' pending' (due h now ps ++ F) (later h now ps ++ Q).
Proof.
  intros Hok Hp1 Hf1 Hq1 Hw Hn [Hf Hp Hq HF HQ Hok' Hn' Hnow' Hm'].
  assert (Hp2 : ptrs c1 ≡ₚ F ++ Q ++ ptrs c') by (rewrite <- Hp; unfold ptrs; by rewrite Hw).
  pose proof (co_nodup _ _ Hok) as Hnd. rewrite Hp1 in Hnd. apply NoDup_app in Hnd as (_ & Hdis & _).
  constructor; try done.
  - apply (fired_app _ _ _ _ _ Hf1 Hf). intros p [_ Hp']%elem_of_due HpF. apply (Hdis p Hp'). rewrite Hp2. apply elem_of_app. by left.
  - rewrite Hp1, Hp2. rewrite (due_later h now ps) at 1. solve_Permutation.
  - rewrite Hq, Hq1. solve_Permutation.
  - intros p [[]%elem_of_due | Hp']%elem_of_app; [done |]. rewrite <- (fired_deadline _ _ _ p Hf1). by apply HF.
  - intros p [[]%elem_of_later | Hp']%elem_of_app; [done |]. rewrite <- (fired_deadline _ _ _ p Hf1). by apply HQ.
  - lia.
Qed.

Lemma poll_loop_ok now fuel next h c pending expired :
  core_ok h c -> core_next_deadline c = Done next -> (length (ptrs c) < fuel)%nat ->
  exists next' h' c' pending' F Q,
    poll_loop fuel now next h c pending expired = Done (next', h', c', pending', expired + Z.of_nat (length F))
    /\ loop_done now h c pending next' h' c' pending' F Q.
Proof.
  revert next h c pending expired. induction fuel as [| fuel IH]; intros next h c pending expired Hok Hnext Hfuel; [lia |].
  cbn [poll_loop]. destruct (core_next_ok h c Hok) as [[E _] | (d & l & i & sl & E & Hns)]; rewrite E in Hnext; injection Hnext as <-.
  { eexists _, _, _, _, [], []. split; [by rewrite Z.add_0_r |]. by apply loop_done_stop. }
  destruct (Z.ltb_spec now (d_ticks d)) as [Hlt | Hge].
  { eexists _, _, _, _, [], []. split; [by rewrite Z.add_0_r |]. by apply loop_done_stop. }
  destruct (open_slot_ok h c d l i sl Hok Hns) as (es & c1 & -> & Hes & Hp1 & Hok1 & Hnow1). cbn [mbind outcome_bind fst snd]. rewrite Hes.
  pose proof (co_nodup _ _ Hok) as Hnd. rewrite Hp1 in Hnd. apply NoDup_app in Hnd as (Hnd1 & Hdis & Hnd2).
  destruct (expire_ok now (d_wheel d) (into_iter sl) h pending expired) as (h1 & pend1 & -> & Hf1 & Hq1); [done | | |].
  { intros p Hp. destruct (ptrs_memory h c p Hok) as (e & -> & _); [rewrite Hp1; apply elem_of_app; by left | done]. }
  { intros Hw0. destruct (later h now (into_iter sl)) as [| p ps] eqn:El; [done |]. exfalso.
    assert (p ∈ later h now (into_iter sl)) as [Hlt Hp]%elem_of_later by (rewrite El; left). pose proof (ns_start _ _ _ _ _ _ Hns p Hp) as Hst.
    rewrite <- (ns_wheel _ _ _ _ _ _ Hns), Hw0 in Hst. unfold slot_start in Hst. rewrite Z.div_1_r in Hst. lia. }
  cbn [mbind outcome_bind fst snd]. set (c2 := MkCore (d_ticks d) (c_wheels c1)) in *.
  assert (Hok2 : core_ok h1 c2).
  { apply (core_ok_memory h); [done |]. intros p Hp. apply (fired_other _ _ _ _ Hf1). intros [_ Hin]%elem_of_due. by apply (Hdis p). }
  assert (Hlen : (length (ptrs c2) < fuel)%nat).
  { apply Permutation_length in Hp1. rewrite length_app in Hp1. change (ptrs c2) with (ptrs c1).
    pose proof (ns_nonempty _ _ _ _ _ _ Hns). destruct (into_iter sl); [done | cbn in Hp1; lia]. }
  assert (exists next2, core_next_deadline c2 = Done next2) as [next2 E2].
  { destruct (core_next_ok h1 c2 Hok2) as [[E2 _] | (d2 & _ & _ & _ & E2 & _)]; eauto. }
  rewrite E2. cbn [mbind outcome_bind].
  destruct (IH next2 h1 c2 pend1 (expired + Z.of_nat (length (due h now (into_iter sl)))) Hok2 E2 Hlen) as (n' & h' & c' & p' & F & Q & -> & Hd).
  eexists n', h', c', p', _, _. split; [| eapply (loop_done_step now h c pending c1 h1 pend1 (into_iter sl) c2); try done; cbn; lia].
  rewrite length_app. do 2 f_equal. lia.
Qed.

(** What [poll] did: it has fired the entries that are due, kept the others
    and returned when to poll next. *)
Record polled (now : Z) (h : memory) (c : Core) (expired : Z) (next : option Deadline) (h' : memory) (c' : Core) : Prop := {
  po_ok : core_ok h' c';
  po_now : c_now c' = now;
  po_fired : fired h h' (due h now (ptrs c));
  po_ptrs : ptrs c' ≡ₚ later h now (ptrs c);
  po_expired : expired = Z.of_nat (length (due h now (ptrs c)));
  po_next : core_next_deadline c' = Done next;
}.

Lemma filter_all {A} (P : A -> Prop) `{!forall x, Decision (P x)} (l : list A) : (forall x, x ∈ l -> P x) -> filter P l = l.
Proof.
  induction l as [| x l IH]; intros Hl; [done |]. rewrite filter_cons_True by (apply Hl; left). f_equal. apply IH. intros y Hy. apply Hl. by right.
Qed.
Lemma filter_none {A} (P : A -> Prop) `{!forall x, Decision (P x)} (l : list A) : (forall x, x ∈ l -> ~ P x) -> filter P l = [].
Proof.
  induction l as [| x l IH]; intros Hl; [done |]. rewrite filter_cons_False by (apply Hl; left). apply IH. intros y Hy. apply Hl. by right.
Qed.

(** [F] and [L] are the due and the other entries of [ps]. *)
Lemma split_due h now ps F L :
  ps ≡ₚ F ++ L -> (forall p, p ∈ F -> deadline_of h p <= now) -> (forall p, p ∈ L -> now < deadline_of h p) ->
  due h now ps ≡ₚ F /\ later h now ps ≡ₚ L.
Proof.
  intros Hp HF HL. unfold due, later. rewrite Hp, !filter_app.
  rewrite (filter_all _ F), (filter_none _ L), (filter_none _ F), (filter_all _ L), app_nil_r; try done.
  - intros p Hin. specialize (HF p Hin). lia.
  - intros p Hin. specialize (HL p Hin). lia.
Qed.

Lemma next_slot_unique h c c' d d' l i sl l' i' sl' :
  c_wheels c = c_wheels c' -> next_slot h c d l i sl -> next_slot h c' d' l' i' sl' -> d = d'.
Proof.
  intros Hw [H1 H2 H3 H4 H5 H6] [G1 G2 G3 G4 G5 G6]. unfold at_slot in *. rewrite Hw in *.
  destruct (into_iter sl) as [| p ps] eqn:Esl; [done |]. destruct (into_iter sl') as [| q qs] eqn:Esl'; [done |].
  destruct (decide ((l, i) = (l', i'))) as [[= <- <-] | Hne].
  - assert (sl = sl') as -> by (destruct H3 as (? & ? & ?), G3 as (? & ? & ?); congruence).
    assert (d_ticks d = d_ticks d') by (rewrite <- (H5 p), <- (G5 p); [done | rewrite <- Esl', Esl | ]; left). destruct d, d'; cbn in *; congruence.
  - pose proof (H6 l' i' sl' q G3 ltac:(rewrite Esl'; left) ltac:(congruence)) as E1. rewrite G5 in E1 by left.
    pose proof (G6 l i sl p H3 ltac:(rewrite Esl; left) Hne) as E2. rewrite H5 in E2 by left. lia.
Qed.

(** The next deadline depends on the wheels only. *)
Lemma next_deadline_wheels h c c' :
  core_ok h c -> core_ok h c' -> c_wheels c = c_wheels c' -> core_next_deadline c = core_next_deadline c'.
Proof.
  intros Hok Hok' Hw. assert (Hp : ptrs c = ptrs c') by (unfold ptrs; by rewrite Hw).
  assert (Hne : forall d l i sl c, next_slot h c d l i sl -> ptrs c <> []).
  { intros d l i sl c0 [_ _ H3 H4 _ _] E. destruct (into_iter sl) as [| p ps] eqn:Esl; [done |]. apply (not_elem_of_nil p). rewrite <- E.
    apply elem_of_ptrs. exists l, i, sl. rewrite Esl. split; [done | left]. }
  destruct (core_next_ok h c Hok) as [[-> Hn] | (d & l & i & sl & -> & Hns)], (core_next_ok h c' Hok') as [[-> Hn'] | (d' & l' & i' & sl' & -> & Hns')].
  - done.
  - apply Hne in Hns'. congruence.
  - apply Hne in Hns. congruence.
  - by rewrite (next_slot_unique h c c' d d' l i sl l' i' sl').
Qed.

Lemma core_poll_ok now h c :
  core_ok h c -> c_now c <= now -> is_usize now ->
  exists expired next h' c', core_poll now h c = Done (expired, next, h', c') /\ polled now h c expired next h' c'.
Proof.
  intros Hok Hle Hn. unfold core_poll.
  assert (exists next, core_next_deadline c = Done next) as [next E].
  { destruct (core_next_ok h c Hok) as [[E _] | (d & _ & _ & _ & E & _)]; eauto. }
  rewrite E. cbn [mbind outcome_bind].
  destruct (poll_loop_ok now (S (length (ptrs c))) next h c list_new 0 Hok E ltac:(lia)) as (n1 & h1 & c1 & pend & F & Q & -> & [Hf Hp Hq HF HQ Hok1 Hn1 Hnow1 Hstop]).
  cbn [mbind outcome_bind]. rewrite into_iter_new, app_nil_r in Hq.
  pose proof (core_ok_advance h1 c1 now Hok1 ltac:(lia) Hn (slots_begin h1 c1 n1 now Hok1 Hn1 Hstop)) as Hok2. set (c2 := MkCore now (c_wheels c1)) in *.
  assert (HL : forall p, p ∈ Q ++ ptrs c1 -> now < deadline_of h p).
  { intros p [HpQ | Hp1]%elem_of_app; [by apply HQ |]. rewrite <- (fired_deadline _ _ _ p Hf).
    destruct (ptrs_memory h1 c2 p Hok2 Hp1) as (e & He & _ & _ & Hlt & _). unfold deadline_of. by rewrite He. }
  destruct (split_due h now (ptrs c) F (Q ++ ptrs c1) Hp HF HL) as [Hdue Hlater].
  pose proof (co_nodup _ _ Hok) as Hnd. rewrite Hp in Hnd. apply NoDup_app in Hnd as (HndF & Hdis & HndL).
  destruct (reschedule_ok h1 (into_iter pend) c2 Hok2) as (c3 & Hres & Hok3 & Hn3 & Hp3).
  { change (ptrs c2) with (ptrs c1). by rewrite Hq. }
  { intros p HpQ. rewrite Hq in HpQ. assert (Hin : p ∈ ptrs c) by (rewrite Hp; apply elem_of_app; right; apply elem_of_app; by left).
    destruct (ptrs_memory h c p Hok Hin) as (e & He & Hr & Hd & Hlt & Hturn). exists e.
    rewrite (fired_other _ _ _ _ Hf) by (intros HpF; apply (Hdis p HpF), elem_of_app; by left). specialize (HQ p HpQ). unfold deadline_of in HQ. rewrite He in HQ.
    split_and!; try done. cbn [c_now c2]. pose proof (Z.div_le_mono (c_now c) now (64 ^ 6) ltac:(lia) Hle).
    pose proof (Z.div_le_mono now (deadline e) (64 ^ 6) ltac:(lia) ltac:(lia)). lia. }
  rewrite Hres. cbn [mbind outcome_bind].
  assert (exists next', core_next_deadline c3 = Done next') as [next' E3].
  { destruct (core_next_ok h1 c3 Hok3) as [[E3 _] | (d & _ & _ & _ & E3 & _)]; eauto. }
  assert (Hnext : (if negb (list_is_empty pend) then core_next_deadline c3 else mret n1) = Done next').
  { destruct (list_is_empty pend) eqn:Ee; [| done]. cbn [negb]. change (Done n1 = Done next'). rewrite <- Hn1, <- E3. apply (next_deadline_wheels h1); [done.. |].
    rewrite list_is_empty_spec, bool_decide_eq_true in Ee. rewrite Ee in Hres. by injection Hres as <-. }
  rewrite Hnext. eexists _, next', h1, c3. split; [done |]. constructor; try done.
  - by apply (fired_perm _ _ F).
  - rewrite Hp3, Hq, Hlater. done.
  - by rewrite Hdue.
Qed.

(** ** Registering and cancelling *)

Lemma join_lookup {A} (ls : list (list A)) i x : ls !! i = Some x -> exists rest, mjoin ls ≡ₚ x ++ rest.
Proof.
  intros Hi. rewrite <- (take_drop_middle ls i x Hi), join_app. cbn. exists (mjoin (take i ls) ++ mjoin (drop (S i) ls)). solve_Permutation.
Qed.

Lemma at_slot_nodup h c l i sl : core_ok h c -> at_slot c l i sl -> NoDup (into_iter sl).
Proof.
  intros Hok (w & Hl & Hi). pose proof (co_nodup _ _ Hok) as Hnd. unfold ptrs in Hnd.
  destruct (join_lookup (wheel_ptrs <$> c_wheels c) l (wheel_ptrs w)) as [r Hr]; [by rewrite list_lookup_fmap, Hl |].
  rewrite Hr in Hnd. apply NoDup_app in Hnd as [Hnd _]. unfold wheel_ptrs in Hnd.
  destruct (join_lookup (into_iter <$> slots w) i (into_iter sl)) as [r' Hr']; [by rewrite list_lookup_fmap, Hi |].
  rewrite Hr' in Hnd. by apply NoDup_app in Hnd as [? _].
Qed.

Lemma filter_out {A} `{!EqDecision A} (p : A) l : NoDup l -> p ∈ l -> l ≡ₚ p :: filter (fun q => q <> p) l.
Proof.
  induction l as [| q l IH]; intros Hnd Hp; [by apply not_elem_of_nil in Hp |]. apply NoDup_cons in Hnd as [Hq Hnd].
  destruct (decide (q = p)) as [-> | Hne].
  - rewrite filter_cons_False by (by intros ?). rewrite filter_all; [done |]. intros x Hx. congruence.
  - rewrite filter_cons_True by done. apply elem_of_cons in Hp as [-> | Hp]; [done |]. rewrite (IH Hnd Hp) at 1. constructor.
Qed.

Lemma core_cancel_ok h c p e :
  core_ok h c -> p ∈ ptrs c -> h !! p = Some e ->
  exists c', core_cancel p h c = Done (<[p := MkEntry (deadline e) false (closed e)]> h, c')
             /\ core_ok (<[p := MkEntry (deadline e) false (closed e)]> h) c' /\ c_now c' = c_now c /\ ptrs c ≡ₚ p :: ptrs c'.
Proof.
  intros Hok Hin He. apply elem_of_ptrs in Hin as (l & i & sl & Hat & Hp). pose proof (at_slot_nodup _ _ _ _ _ Hok Hat) as Hnd.
  destruct (co_entry _ _ Hok l i sl p Hat Hp) as (e' & He' & Hr & Hd & Hpl & Hdig). assert (e' = e) as -> by congruence.
  destruct Hat as (w & Hl & Hi). pose proof (core_level _ _ _ _ Hok Hl) as Hlev. pose proof (co_now _ _ Hok) as [Hn0 _].
  destruct (wheel_remove_ok (Z.of_nat l) w (deadline e) p sl h e (co_wheel _ _ Hok _ _ Hl) (proj1 Hlev)) as (w' & sl' & Hrm & Hw' & Hsl' & Hsw);
    [by rewrite Hdig, Nat2Z.id | done.. |].
  rewrite Hdig, Nat2Z.id in Hsw. unfold core_cancel, entry_at. rewrite He. cbn [mbind outcome_bind].
  rewrite (wheel_index_placed _ _ (Z.of_nat l)) by (done || lia).
  rewrite (on_wheel_ok _ c (Z.of_nat l) w (<[p := MkEntry (deadline e) false (closed e)]> h) w') by (rewrite ?Nat2Z.id; done || (rewrite Hrm; done)).
  rewrite Nat2Z.id. set (c1 := MkCore (c_now c) (<[l := w']> (c_wheels c))). exists c1. split; [done |].
  assert (Hu : slot_update c c1 l i sl sl') by (exists w, w'; done). pose proof (slot_update_ptrs _ _ _ _ _ _ Hu) as Hpt.
  assert (Hp' : ptrs c ≡ₚ p :: ptrs c1).
  { apply (Permutation_app_inv_l (into_iter sl')). rewrite <- Hpt, Hsl'. rewrite (filter_out p (into_iter sl) Hnd Hp) at 1. solve_Permutation. }
  split; [| done]. destruct (slot_update_wheel _ _ _ _ _ _ _ Hu Hok) as [Hlen Hws]. pose proof (co_nodup _ _ Hok) as Hndc. rewrite Hp' in Hndc.
  apply NoDup_cons in Hndc as [Hnp Hndc]. apply (core_ok_memory h).
  - constructor; try done; [apply Hok |]. intros m j x q Hx Hqx. destruct (slot_update_at _ _ _ _ _ _ _ _ _ Hu Hx) as [(-> & -> & ->) | [_ Hx']].
    + rewrite Hsl' in Hqx. apply list_elem_of_filter in Hqx as [_ Hqx]. apply (co_entry _ _ Hok l i sl); [by exists w | done].
    + by apply (co_entry _ _ Hok m j x).
  - intros q Hq. rewrite lookup_insert_ne by congruence. done.
Qed.

Lemma core_register_ok h c p e :
  core_ok h c -> p ∉ ptrs c -> h !! p = Some e -> is_registered e = false -> c_now c < deadline e < 2 ^ 64 ->
  c_now c / 64 ^ 6 = deadline e / 64 ^ 6 ->
  exists c', core_register p h c = Done (false, <[p := MkEntry (deadline e) true (closed e)]> h, c')
             /\ core_ok (<[p := MkEntry (deadline e) true (closed e)]> h) c' /\ c_now c' = c_now c /\ ptrs c' ≡ₚ p :: ptrs c.
Proof.
  intros Hok Hnp He Hr Hd Hturn. unfold core_register, entry_at. rewrite He. cbn [mbind outcome_bind].
  rewrite (proj2 (Z.leb_gt _ _)) by lia. rewrite Hr. cbn [negb assert_ mbind outcome_bind].
  assert (Hok' : core_ok (<[p := MkEntry (deadline e) true (closed e)]> h) c).
  { apply (core_ok_memory h); [done |]. intros q Hq. rewrite lookup_insert_ne by congruence. done. }
  destruct (insert_at_ok _ c p (MkEntry (deadline e) true (closed e)) Hok' Hnp) as (c' & Hins & Hokc & Hn & Hp); try done; [by rewrite lookup_insert_eq | apply Hd.. |].
  cbn [deadline] in Hins. rewrite Hins. by exists c'.
Qed.

(** ** The empty wheel *)

Lemma wheel_new_ok (l : Z) : 0 <= l < 6 -> exists w, wheel_new l = Done w /\ wheel_ok l w /\ wheel_ptrs w = [].
Proof.
  intros Hl. unfold wheel_new. change SLOTS with 64. pose proof (pow64_pos l ltac:(lia)). pose proof (pow2_usize ((l + 1) * 6) ltac:(lia)) as Hu.
  rewrite <- pow64_2 in Hu by lia. rewrite pow64_succ in Hu by lia. unfold u_mul, u_sub, is_usize in *.
  rewrite checked_Done by (unfold is_usize; lia). cbn [mbind outcome_bind]. rewrite checked_Done by (unfold is_usize; lia). cbn [mbind outcome_bind].
  rewrite !assert_true by (rewrite <- ?pow64_succ, pow64_2 by lia; apply is_power_of_two_pow2; lia). cbn [mbind outcome_bind].
  rewrite checked_Done by (unfold is_usize; lia). cbn [mbind outcome_bind]. eexists. split; [done |]. split.
  - rewrite <- pow64_succ by lia. constructor; try done. intros i sl Hi. cbn [slots occupied_slots] in *.
    apply lookup_replicate in Hi as [-> _]. rewrite Z.testbit_0_l, list_is_empty_spec, into_iter_new. by rewrite bool_decide_true.
  - apply wheel_ptrs_empty. cbn [slots]. intros i sl [-> _]%lookup_replicate. apply into_iter_new.
Qed.

Lemma core_new_ok h : exists c, core_new = Done c /\ core_ok h c /\ c_now c = 0 /\ ptrs c = [].
Proof.
  unfold core_new. destruct (wheel_new_ok 0) as (w0 & -> & H0 & E0); [lia |]. destruct (wheel_new_ok 1) as (w1 & -> & H1 & E1); [lia |].
  destruct (wheel_new_ok 2) as (w2 & -> & H2 & E2); [lia |]. destruct (wheel_new_ok 3) as (w3 & -> & H3 & E3); [lia |].
  destruct (wheel_new_ok 4) as (w4 & -> & H4 & E4); [lia |]. destruct (wheel_new_ok 5) as (w5 & -> & H5 & E5); [lia |].
  cbn [mbind outcome_bind]. eexists. split; [done |].
  assert (Hp : ptrs (MkCore 0 [w0; w1; w2; w3; w4; w5]) = []) by (unfold ptrs; cbn; by rewrite E0, E1, E2, E3, E4, E5).
  split; [| done]. constructor; try done.
  - intros l w Hl. do 6 (destruct l as [| l]; [by injection Hl as <- |]). done.
  - intros l i sl p Hs Hin. assert (p ∈ ptrs (MkCore 0 [w0; w1; w2; w3; w4; w5])) as Hpp by (apply elem_of_ptrs; eauto 6).
    rewrite Hp in Hpp. by apply not_elem_of_nil in Hpp.
  - rewrite Hp. constructor.
Qed.

End core.
