(* ===== verification/Timer.v ===== *)
(** * Timers and sleeps (sys/async/src/time/timer.rs, time/sleep.rs, time.rs)

    The timer counts ticks of a hardware clock, scaled by a ratio, and owns
    the wheel.  What the clock answers is an argument: the readings are
    consumed one by one. *)

From stdpp Require Import base numbers list gmap.
From Stdlib Require Import ZArith Lia.
From S2P Require Import Prelude Interleaving TimerWheel TimerCore.

(** ** Durations *)

Definition NANOS_PER_SEC : Z := 1000000000.

(** [core::time::Duration] *)
Record Duration : Type := MkDuration { as_secs : Z; subsec_nanos : Z }.

Definition is_duration (d : Duration) : Prop := is_usize (as_secs d) /\ 0 <= subsec_nanos d < NANOS_PER_SEC.

Definition from_nanos (n : Z) : Duration := MkDuration (n / NANOS_PER_SEC) (n mod NANOS_PER_SEC).

(** [Duration::saturating_mul] *)
Definition saturating_mul (d : Duration) (n : Z) : Duration :=
  let total := (as_secs d * NANOS_PER_SEC + subsec_nanos d) * n in
  if total / NANOS_PER_SEC <? USIZE_MOD then from_nanos total else MkDuration USIZE_MAX (NANOS_PER_SEC - 1).

Definition duration_to_nanos (d : Duration) : outcome Z :=
  s ← u_mul (as_secs d) NANOS_PER_SEC; u_add s (subsec_nanos d).

Definition checked_mul (a b : Z) : option Z := if a * b <? USIZE_MOD then Some (a * b) else None.

Definition checked_duration_to_nanos (d : Duration) : option Z :=
  match checked_mul (as_secs d) NANOS_PER_SEC with
  | Some s => checked_add s (subsec_nanos d)
  | None => None
  end.

Definition max_duration (tick_duration : Duration) : Duration := saturating_mul tick_duration (2 ^ 32 - 1).

Inductive TimeError : Type :=
| NoGlobalTimer
| DurationTooLong (requested max : Duration).

(** ** The timer *)

Record Timer : Type := MkTimer { tick_duration : Duration; tick_duration_nanos : Z; tick_ratio : Z }.

(** [NonZeroU64::new(n).unwrap()] *)
Definition non_zero (n : Z) : outcome Z := if n =? 0 then Panicked else Done n.

Definition div_ceil (a b : Z) : Z := (a + (b - 1)) / b.

Definition timer_new (tick_duration clock_tick_duration : Duration) : outcome Timer :=
  n ← duration_to_nanos tick_duration;
  tick_duration_nanos ← non_zero n;
  m ← duration_to_nanos clock_tick_duration;
  clock_duration_nanos ← non_zero m;
  _ ← assert_ (clock_duration_nanos <? tick_duration_nanos);
  mret (MkTimer tick_duration tick_duration_nanos (div_ceil tick_duration_nanos clock_duration_nanos)).

(** The current tick, when the clock reads [raw]. *)
Definition timer_now (t : Timer) (raw : Z) : Z := raw / tick_ratio t.

Definition ticks_to_duration (t : Timer) (ticks : Z) : option Duration :=
  match checked_mul ticks (tick_duration_nanos t) with Some n => Some (from_nanos n) | None => None end.

Definition duration_to_ticks (t : Timer) (d : Duration) : result TimeError Z :=
  match checked_duration_to_nanos d with
  | Some n => Ok (n / tick_duration_nanos t)
  | None => Err (DurationTooLong d (max_duration (tick_duration t)))
  end.

(** The clock reading at which a wakeup is requested. *)
Definition schedule_wakeup (t : Timer) (next : option Deadline) : Z :=
  match next with
  | Some d => Z.min (d_ticks d * tick_ratio t) USIZE_MAX
  | None => USIZE_MAX
  end.

Section timer.
Context `{EntryList}.

Definition timer_cancel (t : Timer) (p : Z) (h : memory) (c : Core) : outcome (Z * memory * Core) :=
  r ← core_cancel p h c;
  next ← core_next_deadline r.2;
  mret (schedule_wakeup t next, r.1, r.2).

Definition timer_register (t : Timer) (p : Z) (h : memory) (c : Core) : outcome (bool * Z * memory * Core) :=
  r ← core_register p h c;
  next ← core_next_deadline r.2;
  mret (r.1.1, schedule_wakeup t next, r.1.2, r.2).

(** [turn_locked] polls again as long as the next deadline passes meanwhile;
    [None] if it still waits for a reading of the clock. *)
Fixpoint turn_loop (t : Timer) (readings : list Z) (now expired : Z) (h : memory) (c : Core) :
    outcome (option (Z * option Deadline * memory * Core)) :=
  r ← core_poll now h c;
  let '(n, next, h', c') := r in
  match next with
  | None => mret (Some (expired + n, next, h', c'))
  | Some d =>
      match readings with
      | [] => mret None
      | raw :: readings' =>
          let now := timer_now t raw in
          if d_ticks d <=? now then turn_loop t readings' now (expired + n) h' c'
          else mret (Some (expired + n, next, h', c'))
      end
  end.

Definition turn_locked (t : Timer) (readings : list Z) (h : memory) (c : Core) :
    outcome (option (Z * option Deadline * memory * Core)) :=
  match readings with
  | [] => mret None
  | raw :: readings' =>
      let now := timer_now t raw in
      let now := if now <? c_now c then c_now c else now in
      turn_loop t readings' now 0 h c
  end.

(** [sleep]: the deadline of the new entry. *)
Definition sleep (t : Timer) (d : Duration) (raw : Z) : outcome (result TimeError Entry) :=
  match duration_to_ticks t d with
  | Err e => mret (Err e)
  | Ok ticks => dl ← u_add ticks (timer_now t raw); mret (Ok (entry_new dl))
  end.

(** Dropping a [Sleep]. *)
Definition sleep_drop (t : Timer) (p : Z) (h : memory) (c : Core) : outcome (option Z * memory * Core) :=
  e ← entry_at h p;
  if is_registered e then r ← timer_cancel t p h c; mret (Some r.1.1, r.1.2, r.2)
  else mret (None, h, c).

(** ** The next deadline *)

Lemma next_bounds h c next :
  core_ok h c -> core_next_deadline c = Done next ->
  match next with
  | None => ptrs c = []
  | Some d => c_now c < d_ticks d /\ (forall p, p ∈ ptrs c -> d_ticks d <= deadline_of h p)
              /\ exists p, p ∈ ptrs c /\ slot_start (deadline_of h p) (wheel_index (c_now c) (deadline_of h p)) = d_ticks d
  end.
Proof.
  intros Hok Hn. destruct (core_next_ok h c Hok) as [[E Hp] | (d & l & i & sl & E & Hns)]; rewrite E in Hn; injection Hn as <-; [done |].
  assert (Hall : forall m j sl' p, at_slot c m j sl' -> p ∈ into_iter sl' ->
    c_now c < slot_start (deadline_of h p) (Z.of_nat m) /\ d_ticks d <= slot_start (deadline_of h p) (Z.of_nat m) <= deadline_of h p
    /\ wheel_index (c_now c) (deadline_of h p) = Z.of_nat m).
  { intros m j sl' p Hs Hp. destruct (co_entry _ _ Hok m j sl' p Hs Hp) as (e & He & _ & Hr & Hpl & _).
    assert (Hm : 0 <= Z.of_nat m < 6) by (destruct Hs as (w & Hw & _); by apply (core_level h c m w)). pose proof (co_now _ _ Hok) as [? _].
    pose proof (placed_lt _ _ _ (proj1 Hm) Hpl). pose proof (slot_start_le (deadline e) _ (proj1 Hm)).
    assert (Hd : deadline_of h p = deadline e) by (unfold deadline_of; by rewrite He). pose proof (slots_begin h c (Some d) (d_ticks d - 1) Hok E ltac:(cbn; lia) m j sl' p Hs Hp).
    rewrite Hd in *. split_and!; try lia. apply wheel_index_placed; done || lia. }
  destruct (into_iter sl) as [| q qs] eqn:Esl; [by destruct (ns_nonempty _ _ _ _ _ _ Hns) |].
  assert (Hq : q ∈ into_iter sl) by (rewrite Esl; left). pose proof (ns_at _ _ _ _ _ _ Hns) as Hat. pose proof (ns_start _ _ _ _ _ _ Hns q Hq) as Hst.
  destruct (Hall l i sl q Hat Hq) as (Hn & _ & Hwi). split; [lia |]. split.
  - intros p (m & j & sl' & Hs & Hp)%elem_of_ptrs. destruct (Hall m j sl' p Hs Hp) as (_ & ? & _). lia.
  - exists q. split; [apply elem_of_ptrs; eauto 6 |]. by rewrite Hwi.
Qed.

Lemma next_exists h c : core_ok h c -> exists next, core_next_deadline c = Done next.
Proof. intros Hok. destruct (core_next_ok h c Hok) as [[E _] | (d & _ & _ & _ & E & _)]; eauto. Qed.

(** A wakeup is requested no later than at any deadline. *)
Lemma wakeup_bound t h c next p :
  0 < tick_ratio t -> core_ok h c -> core_next_deadline c = Done next -> p ∈ ptrs c -> schedule_wakeup t next <= deadline_of h p * tick_ratio t.
Proof.
  intros Ht Hok Hn Hp. pose proof (next_bounds h c next Hok Hn) as Hb. destruct next as [d |].
  - destruct Hb as (_ & Hall & _). specialize (Hall p Hp). unfold schedule_wakeup. nia.
  - rewrite Hb in Hp. by apply not_elem_of_nil in Hp.
Qed.

(** ** Polling repeatedly *)

Lemma polled_le now h c e next h' c' : core_ok h c -> polled now h c e next h' c' -> forall p, p ∈ ptrs c' -> p ∈ ptrs c /\ now < deadline_of h p.
Proof. intros Hok Hp p Hin. rewrite (po_ptrs _ _ _ _ _ _ _ Hp) in Hin. apply elem_of_later in Hin as [? ?]. done. Qed.

Lemma polled_trans now now' h c e next h1 c1 e' next' h2 c2 :
  core_ok h c -> now <= now' -> polled now h c e next h1 c1 -> polled now' h1 c1 e' next' h2 c2 -> polled now' h c (e + e') next' h2 c2.
Proof.
  intros Hok Hle [_ _ Hf1 Hp1 He1 _] [Hok2 Hn2 Hf2 Hp2 He2 Hx2]. pose proof (co_nodup _ _ Hok) as Hnd.
  destruct (filter_deadline _ _ _ now' (ptrs c1) Hf1) as [Ed El]. rewrite Ed in Hf2, He2. rewrite El in Hp2.
  assert (Hsplit : ptrs c ≡ₚ (due h now (ptrs c) ++ due h now' (ptrs c1)) ++ later h now' (ptrs c1)).
  { rewrite <- app_assoc, <- due_later, Hp1. apply due_later. }
  destruct (split_due h now' (ptrs c) _ _ Hsplit) as [Hd Hl].
  - intros p [[? _]%elem_of_due | [? _]%elem_of_due]%elem_of_app; lia.
  - intros p [? _]%elem_of_later. done.
  - constructor; try done.
    + apply (fired_perm _ _ _ _ (symmetry Hd)), (fired_app _ _ _ _ _ Hf1 Hf2). intros p [? _]%elem_of_due [_ Hin]%elem_of_due.
      rewrite Hp1 in Hin. apply elem_of_later in Hin as [? _]. lia.
    + by rewrite Hl.
    + rewrite Hd, length_app. lia.
Qed.

Lemma wheel_index_advance now now' d :
  0 <= now <= now' -> now' < d -> now / 64 ^ 6 = d / 64 ^ 6 ->
  wheel_index now' d <= wheel_index now d /\ (slot_start d (wheel_index now d) <= now' -> wheel_index now' d < wheel_index now d).
Proof.
  intros Hn Hd Hturn. destruct (placed_exists now d ltac:(lia) Hturn) as (l & Hl & Hpl).
  assert (Hmono : forall k, 0 <= k -> now / 64 ^ k = d / 64 ^ k -> now' / 64 ^ k = d / 64 ^ k).
  { intros k Hk E. pose proof (Z.div_le_mono now now' (64 ^ k) (pow64_pos k Hk) ltac:(lia)).
    pose proof (Z.div_le_mono now' d (64 ^ k) (pow64_pos k Hk) ltac:(lia)). lia. }
  destruct (placed_exists now' d ltac:(lia) (Hmono 6 ltac:(lia) Hturn)) as (m & Hm & Hpm).
  rewrite (wheel_index_placed now d l), (wheel_index_placed now' d m) by (done || lia).
  assert (m <= l).
  { apply Z.nlt_ge. intros Hlt. destruct Hpl as [Heq _], Hpm as [_ Hne]. apply Hmono in Heq; [| lia].
    rewrite (div_pow64 now' (l + 1) m), (div_pow64 d (l + 1) m), Heq in Hne by lia. lia. }
  split; [done |]. intros Hs. pose proof (placed_lt now' d m (proj1 Hm) Hpm). assert (m <> l) by congruence || (intros ->; lia). lia.
Qed.

(** Every entry moves down a bounded number of wheels. *)
Definition weight (h : memory) (c : Core) : Z := total (fun p => wheel_index (c_now c) (deadline_of h p) + 1) (ptrs c).

Lemma wheel_index_range h c p : core_ok h c -> p ∈ ptrs c -> 0 <= wheel_index (c_now c) (deadline_of h p) < 6.
Proof.
  intros Hok Hp. destruct (ptrs_memory h c p Hok Hp) as (e & He & _ & _ & Hlt & Hturn). pose proof (co_now _ _ Hok) as [? _].
  unfold deadline_of. rewrite He. destruct (placed_exists (c_now c) (deadline e) ltac:(lia) Hturn) as (l & Hl & Hpl).
  by rewrite (wheel_index_placed _ _ l) by (done || lia).
Qed.

Lemma total_bounds {A} (f : A -> Z) l lo hi : (forall x, x ∈ l -> lo <= f x <= hi) -> lo * Z.of_nat (length l) <= total f l <= hi * Z.of_nat (length l).
Proof.
  induction l as [| x l IH]; intros Hf; cbn [total length]; [lia |]. specialize (Hf x ltac:(left)) as Hx.
  specialize (IH (fun y Hy => Hf y (list_elem_of_further _ _ _ Hy))). lia.
Qed.

Lemma weight_bounds h c : core_ok h c -> Z.of_nat (length (ptrs c)) <= weight h c <= 6 * Z.of_nat (length (ptrs c)).
Proof.
  intros Hok. rewrite <- (Z.mul_1_l (Z.of_nat _)) at 1. apply total_bounds. intros p Hp. pose proof (wheel_index_range h c p Hok Hp). lia.
Qed.

Lemma weight_decreases now h c e next h' c' d :
  core_ok h c -> polled now h c e next h' c' -> c_now c <= now -> core_next_deadline c = Done (Some d) -> d_ticks d <= now -> weight h' c' < weight h c.
Proof.
  intros Hok Hpo Hle Hn Hd. pose proof (next_bounds h c _ Hok Hn) as (_ & _ & q & Hq & Hst). pose proof (co_now _ _ Hok) as [Hn0 _].
  unfold weight. set (f := fun p => wheel_index (c_now c) (deadline_of h p) + 1). set (g := fun p => wheel_index (c_now c') (deadline_of h' p) + 1).
  assert (Hg : forall p, p ∈ ptrs c -> now < deadline_of h p -> g p <= f p /\ (slot_start (deadline_of h p) (wheel_index (c_now c) (deadline_of h p)) <= now -> g p < f p)).
  { intros p Hp Hlt. destruct (ptrs_memory h c p Hok Hp) as (e0 & He & _ & _ & _ & Hturn). unfold g, f.
    rewrite (po_now _ _ _ _ _ _ _ Hpo), (fired_deadline _ _ _ p (po_fired _ _ _ _ _ _ _ Hpo)).
    destruct (wheel_index_advance (c_now c) now (deadline_of h p)) as [H1 H2]; [lia | done | unfold deadline_of; by rewrite He |]. split; [lia |]. intros Hs. specialize (H2 Hs). lia. }
  assert (Hf1 : forall p, p ∈ ptrs c -> 1 <= f p) by (intros p Hp; pose proof (wheel_index_range h c p Hok Hp); unfold f; lia).
  rewrite (total_perm g _ _ (po_ptrs _ _ _ _ _ _ _ Hpo)), (total_perm f _ _ (due_later h now (ptrs c))), total_app.
  assert (Hle' : total g (later h now (ptrs c)) <= total f (later h now (ptrs c))).
  { apply total_le_in, Forall_forall. intros p [Hlt Hp]%elem_of_later. by apply Hg. }
  assert (Hdue : 0 <= total f (due h now (ptrs c))).
  { pose proof (total_bounds f (due h now (ptrs c)) 0 7) as Hb. rewrite Z.mul_0_l in Hb. apply Hb. intros p [_ Hp]%elem_of_due.
    pose proof (wheel_index_range h c p Hok Hp). unfold f. lia. }
  destruct (Z.le_gt_cases (deadline_of h q) now) as [Hqd | Hql].
  - destruct (proj1 (elem_of_Permutation (due h now (ptrs c)) q)) as [r Hr]; [by apply elem_of_due |].
    rewrite (total_perm f _ _ Hr) in *. cbn [total] in *. pose proof (Hf1 q Hq).
    pose proof (total_bounds f r 0 7) as Hb. rewrite Z.mul_0_l in Hb. assert (0 <= total f r); [| lia]. apply Hb. intros p Hp.
    assert (p ∈ due h now (ptrs c)) as [_ Hpin]%elem_of_due by (rewrite Hr; by right). pose proof (wheel_index_range h c p Hok Hpin). unfold f. lia.
  - destruct (proj1 (elem_of_Permutation (later h now (ptrs c)) q)) as [r Hr]; [by apply elem_of_later |].
    rewrite (total_perm g _ _ Hr), (total_perm f _ _ Hr) in *. cbn [total] in *. destruct (Hg q Hq Hql) as [_ Hlt]. specialize (Hlt ltac:(lia)).
    assert (total g r <= total f r); [| lia]. apply total_le_in, Forall_forall. intros p Hp.
    assert (p ∈ later h now (ptrs c)) as [? Hpin]%elem_of_later by (rewrite Hr; by right). by apply Hg.
Qed.

Lemma timer_now_usize t raw : 0 < tick_ratio t -> is_usize raw -> is_usize (timer_now t raw).
Proof.
  intros Ht [? ?]. unfold timer_now. split; [apply Z.div_pos; lia |]. apply Z.div_lt_upper_bound; [done | nia].
Qed.

Lemma turn_loop_ok t readings now expired h c :
  0 < tick_ratio t -> Forall is_usize readings -> core_ok h c -> c_now c <= now -> is_usize now ->
  (forall e next h1 c1, polled now h c e next h1 c1 -> weight h1 c1 <= Z.of_nat (length readings)) ->
  exists now' e next h' c',
    turn_loop t readings now expired h c = Done (Some (expired + e, next, h', c')) /\ polled now' h c e next h' c' /\ now <= now'.
Proof.
  intros Ht. revert now expired h c. induction readings as [| raw readings IH]; intros now expired h c Hr Hok Hle Hn Hw.
  all: destruct (core_poll_ok now h c Hok Hle Hn) as (e & next & h1 & c1 & E & Hpo); cbn [turn_loop]; rewrite E; cbn [mbind outcome_bind].
  all: pose proof (po_ok _ _ _ _ _ _ _ Hpo) as Hok1; specialize (Hw e next h1 c1 Hpo); destruct next as [d |]; [| by exists now, e, None, h1, c1].
  - pose proof (next_bounds h1 c1 _ Hok1 (po_next _ _ _ _ _ _ _ Hpo)) as (_ & _ & q & Hq & _). pose proof (weight_bounds h1 c1 Hok1).
    destruct (ptrs c1); [by apply not_elem_of_nil in Hq | cbn in *; lia].
  - apply Forall_cons in Hr as [Hraw Hr]. destruct (Z.leb_spec (d_ticks d) (timer_now t raw)) as [Hd |]; [| by exists now, e, (Some d), h1, c1].
    pose proof (next_bounds h1 c1 _ Hok1 (po_next _ _ _ _ _ _ _ Hpo)) as (Hlt & _). rewrite (po_now _ _ _ _ _ _ _ Hpo) in Hlt.
    destruct (IH (timer_now t raw) (expired + e) h1 c1) as (now' & e' & next' & h' & c' & -> & Hpo' & Hle'); try done.
    + rewrite (po_now _ _ _ _ _ _ _ Hpo). lia.
    + by apply timer_now_usize.
    + intros e2 n2 h2 c2 Hpo2. cbn [length] in Hw. assert (weight h2 c2 < weight h1 c1); [| lia].
      apply (weight_decreases (timer_now t raw) h1 c1 e2 n2 h2 c2 d); try done; [rewrite (po_now _ _ _ _ _ _ _ Hpo); lia | apply (po_next _ _ _ _ _ _ _ Hpo)].
    + exists now', (e + e'), next', h', c'. rewrite Z.add_assoc. split; [done |]. split; [| lia].
      apply (polled_trans now now' h c e (Some d) h1 c1); done || lia.
Qed.

Lemma turn_locked_ok t raw readings h c :
  0 < tick_ratio t -> Forall is_usize (raw :: readings) -> core_ok h c -> (6 * length (ptrs c) <= length readings)%nat ->
  exists now e next h' c',
    turn_locked t (raw :: readings) h c = Done (Some (e, next, h', c')) /\ polled now h c e next h' c' /\ c_now c <= now /\ timer_now t raw <= now.
Proof.
  intros Ht [Hraw Hr]%Forall_cons Hok Hlen. pose proof (timer_now_usize t raw Ht Hraw) as Hu. cbn [turn_locked].
  set (now := if timer_now t raw <? c_now c then c_now c else timer_now t raw).
  assert (Hnow : c_now c <= now /\ timer_now t raw <= now /\ is_usize now).
  { unfold now. pose proof (co_now _ _ Hok). destruct (Z.ltb_spec (timer_now t raw) (c_now c)); split_and!; done || lia. }
  destruct (turn_loop_ok t readings now 0 h c Ht Hr Hok) as (now' & e & next & h' & c' & -> & Hpo & Hle); try apply Hnow.
  - intros e next h1 c1 Hpo. pose proof (weight_bounds h1 c1 (po_ok _ _ _ _ _ _ _ Hpo)).
    assert (length (ptrs c1) <= length (ptrs c))%nat by (rewrite (po_ptrs _ _ _ _ _ _ _ Hpo); apply length_filter). lia.
  - exists now', e, next, h', c'. rewrite Z.add_0_l. split_and!; try done; lia.
Qed.

(** ** The theorems *)

(** C38: polling the wheel.  Provided that every pending deadline is in the
    present turn of the uppermost wheel, at any later time, in this turn or not, the
    call returns without an assertion failing; it fires exactly the pending entries
    whose deadline has passed, counts them, keeps exactly the others, each in its
    slot and in the present turn, and returns when to poll next: nothing if
    nothing is pending, else a time in the future that is no later than any
    deadline.  (With a deadline in a later turn this fails, see [far_poll].) *)
Theorem poll_correct now h c :
  wheels_ok h c -> present_turn h c -> c_now c <= now -> is_usize now ->
  exists expired next h' c',
    core_poll now h c = Done (expired, next, h', c')
    /\ wheels_ok h' c' /\ present_turn h' c' /\ c_now c' = now
    /\ (forall p, p ∈ ptrs c' <-> p ∈ ptrs c /\ now < deadline_of h p)
    /\ fired h h' (due h now (ptrs c)) /\ expired = Z.of_nat (length (due h now (ptrs c)))
    /\ match next with
       | None => ptrs c' = []
       | Some d => now < d_ticks d /\ forall p, p ∈ ptrs c' -> d_ticks d <= deadline_of h p
       end.
Proof.
  intros Hw Ht Hle Hn. destruct (core_poll_ok now h c (proj2 (core_ok_turn h c) (conj Hw Ht)) Hle Hn) as (e & next & h' & c' & E & [Hok' Hnow Hf Hp He Hx]).
  exists e, next, h', c'. pose proof (proj1 (core_ok_turn h' c') Hok') as [Hw' Ht']. split_and!; try done.
  - intros p. rewrite Hp, elem_of_later. tauto.
  - pose proof (next_bounds h' c' next Hok' Hx) as Hb. destruct next as [d |]; [| done]. rewrite Hnow in Hb. destruct Hb as (Hlt & Hall & _).
    split; [done |]. intros p Hin. specialize (Hall p Hin). by rewrite (fired_deadline _ _ _ p Hf) in Hall.
Qed.

(** C39: turning the timer.  Provided that every pending deadline is in the
    present turn of the uppermost wheel, the loop ends whatever the clock reads:
    six polls per pending entry and one are enough.  Then, at some time [now] no
    earlier than the first reading, exactly the entries that are due have been
    fired, each once, and the others are pending, in the present turn.  (With a
    deadline in a later turn the loop may spin, see [far_deadline_spins].) *)
Theorem turn_terminates t raw readings h c :
  0 < tick_ratio t -> Forall is_usize (raw :: readings) -> wheels_ok h c -> present_turn h c -> (6 * length (ptrs c) <= length readings)%nat ->
  exists expired next h' c',
    turn_locked t (raw :: readings) h c = Done (Some (expired, next, h', c'))
    /\ wheels_ok h' c' /\ present_turn h' c' /\ c_now c <= c_now c' /\ timer_now t raw <= c_now c'
    /\ (forall p, p ∈ ptrs c' <-> p ∈ ptrs c /\ c_now c' < deadline_of h p)
    /\ fired h h' (due h (c_now c') (ptrs c)) /\ expired = Z.of_nat (length (due h (c_now c') (ptrs c))).
Proof.
  intros Ht Hr Hw Htu Hlen.
  destruct (turn_locked_ok t raw readings h c Ht Hr (proj2 (core_ok_turn h c) (conj Hw Htu)) Hlen)
    as (now & e & next & h' & c' & E & [Hok' Hnow Hf Hp He Hx] & Hle & Hle').
  exists e, next, h', c'. pose proof (proj1 (core_ok_turn h' c') Hok') as [Hw' Ht']. rewrite Hnow. split_and!; try done.
  intros p. rewrite Hp, elem_of_later. tauto.
Qed.

(** C40: registering an entry.  A deadline that has passed, in whatever turn,
    fires at once and changes nothing else; a deadline in the future that is in
    the present turn of the uppermost wheel joins the pending ones in its slot, and
    the deadlines in it stay in the present turn.  In both cases the hardware is asked for a
    wakeup no later than at any pending deadline. *)
Theorem register_correct t p h c e :
  0 < tick_ratio t -> wheels_ok h c -> present_turn h c -> p ∉ ptrs c -> h !! p = Some e -> is_registered e = false -> is_usize (deadline e) ->
  (c_now c < deadline e -> deadline e / 2 ^ 36 = c_now c / 2 ^ 36) ->
  exists ready at_ h' c',
    timer_register t p h c = Done (ready, at_, h', c') /\ wheels_ok h' c' /\ present_turn h' c' /\ c_now c' = c_now c
    /\ (if ready : bool then deadline e <= c_now c /\ h' = <[p := fire e]> h /\ c' = c
        else c_now c < deadline e /\ h' = <[p := MkEntry (deadline e) true (closed e)]> h /\ ptrs c' ≡ₚ p :: ptrs c)
    /\ forall q, q ∈ ptrs c' -> at_ <= deadline_of h' q * tick_ratio t.
Proof.
  intros Ht Hw Htu Hnp He Hr Hd Hturn. assert (Hok : core_ok h c) by (by apply core_ok_turn).
  unfold timer_register. destruct (Z.le_gt_cases (deadline e) (c_now c)) as [Hle | Hgt].
  - unfold core_register, entry_at. rewrite He. cbn [mbind outcome_bind]. rewrite (proj2 (Z.leb_le _ _) Hle). cbn [mbind outcome_bind mret outcome_ret fst snd].
    assert (Hok' : core_ok (<[p := fire e]> h) c).
    { apply (core_ok_memory h); [done |]. intros q Hq. by rewrite lookup_insert_ne by congruence. }
    destruct (next_exists _ c Hok') as [next E]. rewrite E. eexists true, _, _, c. split; [done |].
    pose proof (proj1 (core_ok_turn _ c) Hok') as [Hw' Ht']. split_and!; try done.
    intros q Hq. by apply (wakeup_bound t _ c next).
  - change (2 ^ 36) with (64 ^ 6) in Hturn.
    destruct (core_register_ok h c p e Hok Hnp He Hr ltac:(unfold is_usize in Hd; lia) (eq_sym (Hturn Hgt))) as (c' & -> & Hok' & Hn & Hp).
    cbn [mbind outcome_bind fst snd]. destruct (next_exists _ c' Hok') as [next E]. rewrite E. eexists false, _, _, c'. split; [done |].
    pose proof (proj1 (core_ok_turn _ c') Hok') as [Hw' Ht']. split_and!; try done.
    intros q Hq. by apply (wakeup_bound t _ c' next).
Qed.

(** Dropping a sleep.  A pending entry leaves the wheel and is not
    registered any more, the others stay pending in a well-formed wheel and
    still have their wakeup; a sleep that is not pending leaves everything as
    it is. *)
Theorem sleep_drop_correct t p h c e :
  0 < tick_ratio t -> core_ok h c -> h !! p = Some e -> (is_registered e = true <-> p ∈ ptrs c) ->
  exists at_ h' c',
    sleep_drop t p h c = Done (at_, h', c') /\ core_ok h' c' /\ c_now c' = c_now c
    /\ (forall q, q ∈ ptrs c' <-> q ∈ ptrs c /\ q <> p) /\ h' = <[p := MkEntry (deadline e) false (closed e)]> h
    /\ forall a q, at_ = Some a -> q ∈ ptrs c' -> a <= deadline_of h' q * tick_ratio t.
Proof.
  intros Ht Hok He Hreg. unfold sleep_drop, entry_at. rewrite He. cbn [mbind outcome_bind]. destruct (is_registered e) eqn:Er.
  - assert (Hin : p ∈ ptrs c) by (by apply Hreg). unfold timer_cancel.
    destruct (core_cancel_ok h c p e Hok Hin He) as (c' & -> & Hok' & Hn & Hp). cbn [mbind outcome_bind fst snd].
    destruct (next_exists _ c' Hok') as [next E]. rewrite E. cbn [mbind outcome_bind fst snd]. eexists _, _, c'. split; [done |].
    pose proof (co_nodup _ _ Hok) as Hnd. rewrite Hp in Hnd. apply NoDup_cons in Hnd as [Hnp _]. split_and!; try done.
    + intros q. rewrite Hp, elem_of_cons. split; [intros Hq; split; [by right | congruence] | intros [[-> | ?] ?]; done].
    + intros a q [= <-] Hq. by apply (wakeup_bound t _ c' next).
  - exists None, h, c. assert (Hnp : p ∉ ptrs c) by (intros Hin; apply Hreg in Hin; done). split_and!; try done.
    + intros q. split; [intros Hq; split; congruence | by intros [? _]].
    + destruct e as [d r k]. cbn in *. subst r. by rewrite insert_id.
Qed.

End timer.

(** ** Time and ticks *)

Definition nanos_of (d : Duration) : Z := as_secs d * NANOS_PER_SEC + subsec_nanos d.

Lemma checked_nanos d : is_duration d -> checked_duration_to_nanos d = if nanos_of d <? USIZE_MOD then Some (nanos_of d) else None.
Proof.
  intros [[H1 H2] H3]. unfold checked_duration_to_nanos, checked_mul, checked_add, nanos_of. change NANOS_PER_SEC with 1000000000 in *.
  destruct (Z.ltb_spec (as_secs d * 1000000000) USIZE_MOD); [done |]. by rewrite (proj2 (Z.ltb_ge _ _)) by lia.
Qed.

Lemma from_nanos_ok n : is_usize n -> is_duration (from_nanos n) /\ nanos_of (from_nanos n) = n.
Proof.
  intros Hn. unfold from_nanos, is_duration, nanos_of, is_usize in *. change NANOS_PER_SEC with 1000000000. cbn [as_secs subsec_nanos].
  pose proof (Z.div_mod n 1000000000). pose proof (Z.mod_pos_bound n 1000000000). split; [split |]; lia.
Qed.

Lemma timer_new_ok td cd t :
  timer_new td cd = Done t -> is_duration td -> is_duration cd ->
  tick_duration_nanos t = nanos_of td /\ 0 < nanos_of cd < nanos_of td /\ 1 < tick_ratio t
  /\ nanos_of td <= tick_ratio t * nanos_of cd < nanos_of td + nanos_of cd.
Proof.
  intros E [Ht1 Ht2] [Hc1 Hc2]. unfold timer_new in E. change NANOS_PER_SEC with 1000000000 in *.
  apply outcome_bind_inv in E as (n & En & E). apply outcome_bind_inv in E as (n' & En' & E). apply outcome_bind_inv in E as (m & Em & E).
  apply outcome_bind_inv in E as (m' & Em' & E). apply outcome_bind_inv in E as (u & Ea & E). apply assert_inv, Z.ltb_lt in Ea.
  assert (Hnanos : forall d k, duration_to_nanos d = Done k -> k = nanos_of d).
  { intros d k Hk. unfold duration_to_nanos in Hk. apply outcome_bind_inv in Hk as (x & Hx & Hk). apply checked_inv in Hx as [-> _].
    apply checked_inv in Hk as [-> _]. done. }
  apply Hnanos in En, Em. unfold non_zero in En', Em'. destruct (Z.eqb_spec n 0); [done |]. destruct (Z.eqb_spec m 0); [done |].
  injection En' as <-. injection Em' as <-. injection E as <-. cbn [tick_duration_nanos tick_ratio]. unfold is_usize, nanos_of in *.
  change NANOS_PER_SEC with 1000000000 in *. unfold div_ceil. pose proof (Z.div_mod (n + (m - 1)) m). pose proof (Z.mod_pos_bound (n + (m - 1)) m). nia.
Qed.

(** Converting between durations and ticks.  Every number of ticks that
    is a duration at all comes back from it; a duration becomes the ticks it
    contains in full, and is refused exactly if its nanoseconds exceed 64
    bits. *)
Theorem duration_roundtrip t d :
  0 < tick_duration_nanos t -> is_duration d ->
  (forall ticks d', is_usize ticks -> ticks_to_duration t ticks = Some d' -> duration_to_ticks t d' = Ok ticks)
  /\ (forall ticks, duration_to_ticks t d = Ok ticks ->
        ticks * tick_duration_nanos t <= nanos_of d < (ticks + 1) * tick_duration_nanos t)
  /\ (duration_to_ticks t d = Err (DurationTooLong d (max_duration (tick_duration t))) <-> USIZE_MOD <= nanos_of d).
Proof.
  intros Ht Hd. split_and!.
  - intros ticks d' Hticks. unfold ticks_to_duration, checked_mul. destruct (Z.ltb_spec (ticks * tick_duration_nanos t) USIZE_MOD) as [Hlt |]; [| done].
    intros [= <-]. unfold is_usize in Hticks. destruct (from_nanos_ok (ticks * tick_duration_nanos t)) as [Hd' Hn']; [unfold is_usize; nia |].
    unfold duration_to_ticks. rewrite checked_nanos, Hn', (proj2 (Z.ltb_lt _ _) Hlt) by done. by rewrite Z.div_mul by lia.
  - intros ticks. unfold duration_to_ticks. rewrite checked_nanos by done. destruct (Z.ltb_spec (nanos_of d) USIZE_MOD); [| done]. intros [= <-].
    pose proof (Z.mul_div_le (nanos_of d) _ Ht). pose proof (Z.mul_succ_div_gt (nanos_of d) _ Ht). lia.
  - unfold duration_to_ticks. rewrite checked_nanos by done. destruct (Z.ltb_spec (nanos_of d) USIZE_MOD); split; done || lia.
Qed.

(** The requested wakeup is exact.  As long as the product fits 64 bits,
    the clock has reached the requested reading exactly when the timer has
    reached the deadline: the interrupt comes neither early nor late. *)
Theorem wakeup_exact td cd t d raw :
  timer_new td cd = Done t -> is_duration td -> is_duration cd -> d_ticks d * tick_ratio t <= USIZE_MAX ->
  schedule_wakeup t (Some d) <= raw <-> d_ticks d <= timer_now t raw.
Proof.
  intros E Htd Hcd Hfit. destruct (timer_new_ok td cd t E Htd Hcd) as (_ & _ & Hr & _). unfold schedule_wakeup, timer_now.
  rewrite Z.min_l by done. split; intros Hle.
  - apply Z.div_le_lower_bound; lia.
  - pose proof (Z.mul_div_le raw (tick_ratio t) ltac:(lia)). nia.
Qed.

(** ** Examples *)

(** A list of entries, front first. *)
#[global] Program Instance plain_list : EntryList := {|
  elist := list Z;
  list_new := [];
  push_front := cons;
  list_remove p l := if decide (p ∈ l) then (Some p, filter (fun q => q <> p) l) else (None, l);
  split_off n l := (take n l, drop n l);
  list_is_empty l := bool_decide (l = []);
  into_iter l := l;
|}.
Next Obligation. done. Qed.
Next Obligation. done. Qed.
Next Obligation. done. Qed.
Next Obligation. done. Qed.
Next Obligation. intros p l Hp _. cbn. rewrite decide_True by done. eauto. Qed.

(** A timer of 1 ms ticks on a clock of 1 us ticks. *)
Definition demo_timer : Timer :=
  match timer_new (MkDuration 0 1000000) (MkDuration 0 1000) with Done t => t | _ => MkTimer (MkDuration 0 0) 0 0 end.

(** Entries due at 5 and 100, the second one not registered yet. *)
Definition demo_core : Core := match core_new with Done c => c | _ => MkCore 0 [] end.
Definition demo_entries : memory := {[ 1 := entry_new 5; 2 := entry_new 100 ]}.
Definition demo_registered : memory * Core :=
  match core_register 1 demo_entries demo_core with Done (_, h, c) => (h, c) | _ => (demo_entries, demo_core) end.

Lemma demo_core_ok : core_ok demo_entries demo_core /\ c_now demo_core = 0 /\ ptrs demo_core = [].
Proof. destruct (core_new_ok demo_entries) as (c & E & H). unfold demo_core. by rewrite E. Qed.

Lemma demo_registered_ok : core_ok demo_registered.1 demo_registered.2 /\ ptrs demo_registered.2 ≡ₚ [1] /\ c_now demo_registered.2 = 0.
Proof.
  destruct demo_core_ok as (Hok & Hn & Hp).
  destruct (core_register_ok demo_entries demo_core 1 (entry_new 5)) as (c' & E & Hok' & Hn' & Hp');
    [exact Hok | rewrite Hp; apply not_elem_of_nil | reflexivity | reflexivity | rewrite Hn; cbn; lia | rewrite Hn; reflexivity |].
  unfold demo_registered. rewrite E. cbn [fst snd]. rewrite Hn', Hn, Hp', Hp. done.
Qed.

Lemma poll_correct_witness : exists next h' c', core_poll 10 demo_registered.1 demo_registered.2 = Done (1, next, h', c').
Proof.
  destruct demo_registered_ok as (Hok & Hp & Hn). apply core_ok_turn in Hok as [Hw Ht].
  destruct (poll_correct 10 demo_registered.1 demo_registered.2) as (e & next & h' & c' & E & _ & _ & _ & _ & _ & He & _);
    [exact Hw | exact Ht | rewrite Hn; lia | unfold is_usize; lia |].
  exists next, h', c'. rewrite E. f_equal. f_equal. f_equal. rewrite He. vm_compute. reflexivity.
Defined.

Lemma turn_terminates_witness :
  exists expired next h' c', turn_locked demo_timer (replicate 7 3000) demo_registered.1 demo_registered.2 = Done (Some (expired, next, h', c')).
Proof.
  destruct demo_registered_ok as (Hok & Hp & _). apply core_ok_turn in Hok as [Hw Ht].
  destruct (turn_terminates demo_timer 3000 (replicate 6 3000) demo_registered.1 demo_registered.2) as (e & next & h' & c' & E & _);
    [vm_compute; reflexivity | apply (Forall_replicate is_usize 7 3000); unfold is_usize; lia | exact Hw | exact Ht | rewrite Hp; cbn; lia |].
  exists e, next, h', c'. exact E.
Defined.

Lemma register_correct_witness :
  exists at_ h' c', timer_register demo_timer 2 demo_registered.1 demo_registered.2 = Done (false, at_, h', c').
Proof.
  destruct demo_registered_ok as (Hok & Hp & Hn). apply core_ok_turn in Hok as [Hw Ht].
  destruct (register_correct demo_timer 2 demo_registered.1 demo_registered.2 (entry_new 100)) as (ready & a & h' & c' & E & _ & _ & _ & Hr & _);
    [vm_compute; reflexivity | exact Hw | exact Ht | rewrite Hp; intros Hin; apply list_elem_of_singleton in Hin; lia | vm_compute; reflexivity | reflexivity
    | unfold is_usize; cbn; lia | intros _; rewrite Hn; reflexivity |].
  destruct ready; [destruct Hr as [Hle _]; rewrite Hn in Hle; cbn in Hle; lia |]. exists a, h', c'. exact E.
Defined.

Lemma sleep_drop_correct_witness :
  exists at_ h' c', sleep_drop demo_timer 1 demo_registered.1 demo_registered.2 = Done (at_, h', c').
Proof.
  destruct demo_registered_ok as (Hok & Hp & Hn).
  destruct (sleep_drop_correct demo_timer 1 demo_registered.1 demo_registered.2 (MkEntry 5 true false)) as (a & h' & c' & E & _);
    [vm_compute; reflexivity | exact Hok | vm_compute; reflexivity
    | split; [intros _; rewrite Hp; apply list_elem_of_singleton; reflexivity | intros _; reflexivity] |].
  exists a, h', c'. exact E.
Defined.

Lemma duration_roundtrip_witness :
  duration_to_ticks demo_timer (MkDuration 18446744074 0)
  = Err (DurationTooLong (MkDuration 18446744074 0) (max_duration (tick_duration demo_timer))).
Proof.
  apply (duration_roundtrip demo_timer (MkDuration 18446744074 0)); [vm_compute; reflexivity | vm_compute; split_and!; (reflexivity || discriminate) |
    vm_compute; discriminate].
Defined.

Lemma wakeup_exact_witness : 5 <= timer_now demo_timer 5001.
Proof.
  apply (wakeup_exact (MkDuration 0 1000000) (MkDuration 0 1000) demo_timer (MkDeadline 5 5 0) 5001); vm_compute;
    first [reflexivity | discriminate | split_and!; (reflexivity || discriminate)].
Defined.

(** A deadline beyond the present turn of the uppermost wheel.  Its slot is
    taken for one that has begun, so that polling opens it, puts the entry
    back and returns a deadline in the past - and [turn_locked] polls again,
    for as long as the clock has not reached the next turn.  Here the clock
    does not advance. *)
Definition far_entries : memory := {[ 1 := entry_new (2 ^ 36) ]}.
Definition far_registered : memory * Core :=
  match core_register 1 far_entries demo_core with Done (_, h, c) => (h, c) | _ => (far_entries, demo_core) end.

Lemma far_poll :
  core_poll 7 far_registered.1 (MkCore 7 (c_wheels far_registered.2))
  = Done (0, Some (MkDeadline 0 0 5), far_registered.1, MkCore 7 (c_wheels far_registered.2)).
Proof. vm_compute. reflexivity. Qed.

Example far_deadline_spins (n : nat) :
  turn_locked demo_timer (replicate n 7000) far_registered.1 (MkCore 7 (c_wheels far_registered.2)) = Done None.
Proof.
  destruct n as [| n]; [reflexivity |]. cbn [replicate turn_locked]. change (timer_now demo_timer 7000) with 7. cbn [c_now].
  change (7 <? 7) with false. cbv iota zeta. generalize 0. induction n as [| n IH]; intros e; cbn [replicate turn_loop]; rewrite far_poll; cbn [mbind outcome_bind].
  - reflexivity.
  - change (timer_now demo_timer 7000) with 7. cbn [d_ticks]. change (0 <=? 7) with true. cbv iota. apply IH.
Qed.
