(* ===== verification/WavlTree.v ===== *)
(** * The intrusive weak AVL tree

    [lib/wavltree]: the links of the nodes as a heap from node addresses to
    [Links], the tree as its root and size, and the operations of [lib.rs],
    [utils.rs], [cursor.rs], [entry.rs] and [iter.rs] as state-passing
    functions over both. The build is the one with debug assertions, in which
    the links carry the rank beside its parity. What users keep in the nodes is
    a parameter, and the hooks of [Linked], which maintain it, are a class; the
    key of a node is a function of its address, for [Linked] asks that it does
    not change while the node is linked. A loop takes its fuel from the number
    of nodes on the heap. *)

From stdpp Require Import base numbers list gmap.
From Stdlib Require Import ZArith Lia.
From S2P Require Import Prelude.

Abbreviation nptr := positive.
Abbreviation Link := (option positive).

Inductive Side := Left | Right.
#[global] Instance Side_eq_dec : EqDecision Side := ltac:(solve_decision).

Definition opposite (s : Side) : Side :=
  match s with Left => Right | Right => Left end.

Inductive Bound (A : Type) := Included (a : A) | Excluded (a : A) | Unbounded.
Arguments Included {A} a.
Arguments Excluded {A} a.
Arguments Unbounded {A}.

(** What the tree relies on of the keys: [Ord], a total order. *)
Class Ord (K : Type) := {
  cmp : K -> K -> comparison;
  cmp_eq a b : cmp a b = Eq <-> a = b;
  cmp_opp a b : cmp b a = CompOpp (cmp a b);
  cmp_lt_trans a b c : cmp a b = Lt -> cmp b c = Lt -> cmp a c = Lt;
}.

(** The order of [usize] and of addresses. *)
#[global] Program Instance Z_ord : Ord Z := {| cmp := Z.compare |}.
Next Obligation. apply Z.compare_eq_iff. Qed.
Next Obligation. intros. apply Z.compare_antisym. Qed.
Next Obligation. intros a b c. rewrite !Z.compare_lt_iff. lia. Qed.

Record Links := MkLinks {
  rank_parity : bool;
  l_up : Link;
  l_left : Link;
  l_right : Link;
  l_rank : Z;
}.

(** The tree, with the links and the users' data of all nodes. *)
Record WAVLTree (D : Type) := MkTree { w_root : Link; w_size : Z; w_links : gmap nptr Links; w_data : D }.
Arguments MkTree {D}.
Arguments w_root {D}.
Arguments w_size {D}.
Arguments w_links {D}.
Arguments w_data {D}.

(** The hooks of the trait [Linked]; they see the links and change the data. *)
Class Linked (D : Type) := {
  after_rotate : gmap nptr Links -> nptr -> nptr -> Link -> Link -> Side -> D -> outcome D;
  after_remove : gmap nptr Links -> nptr -> Link -> D -> outcome D;
  after_insert : gmap nptr Links -> nptr -> D -> outcome D;
}.

(** The hooks that the trait provides do nothing. *)
#[global] Instance default_hooks : Linked unit := {|
  after_rotate _ _ _ _ _ _ d := Done d;
  after_remove _ _ _ d := Done d;
  after_insert _ _ d := Done d;
|}.

Abbreviation W D := (M (WAVLTree D)).

(** ** Links *)

Definition links_new : Links := MkLinks false None None None 0.

Definition is_linked (l : Links) : bool :=
  bool_decide (is_Some (l_up l)) || bool_decide (is_Some (l_left l)) || bool_decide (is_Some (l_right l)).

Definition is_leaf (l : Links) : bool :=
  bool_decide (l_left l = None) && bool_decide (l_right l = None).

Definition child (l : Links) (s : Side) : Link :=
  match s with Left => l_left l | Right => l_right l end.

Section ops.
Context {D : Type} {L : Linked D}.

(** [T::links(ptr).as_ref()] and [as_mut()]. *)
Definition links (p : nptr) : W D Links := fun w =>
  match w_links w !! p with Some l => Done (l, w) | None => Undefined end.

Definition update (p : nptr) (f : Links -> outcome Links) : W D unit := fun w =>
  match w_links w !! p with
  | Some l =>
      match f l with
      | Done l' => Done (tt, MkTree (w_root w) (w_size w) (<[p := l']> (w_links w)) (w_data w))
      | Panicked => Panicked
      | Undefined => Undefined
      end
  | None => Undefined
  end.

Definition set_up (lk : Link) (l : Links) : Links := MkLinks (rank_parity l) lk (l_left l) (l_right l) (l_rank l).
Definition set_child (s : Side) (lk : Link) (l : Links) : Links :=
  match s with
  | Left => MkLinks (rank_parity l) (l_up l) lk (l_right l) (l_rank l)
  | Right => MkLinks (rank_parity l) (l_up l) (l_left l) lk (l_rank l)
  end.

Definition replace_parent (p : nptr) (lk : Link) : W D unit := update p (fun l => Done (set_up lk l)).
Definition replace_child (p : nptr) (s : Side) (lk : Link) : W D unit := update p (fun l => Done (set_child s lk l)).
Definition replace_left (p : nptr) (lk : Link) : W D unit := replace_child p Left lk.
Definition replace_right (p : nptr) (lk : Link) : W D unit := replace_child p Right lk.

Definition with_rank (par : bool) (r : Z) (l : Links) : Links := MkLinks par (l_up l) (l_left l) (l_right l) r.

Definition promote (p : nptr) : W D unit :=
  update p (fun l => r ← u_add (l_rank l) 1; mret (with_rank (negb (rank_parity l)) r l)).
Definition demote (p : nptr) : W D unit :=
  update p (fun l => r ← u_sub (l_rank l) 1; mret (with_rank (negb (rank_parity l)) r l)).
Definition double_promote (p : nptr) : W D unit :=
  update p (fun l => r ← u_add (l_rank l) 2; mret (with_rank (rank_parity l) r l)).
Definition double_demote (p : nptr) : W D unit :=
  update p (fun l => r ← u_sub (l_rank l) 2; mret (with_rank (rank_parity l) r l)).
Definition set_rank (p : nptr) (other : Links) : W D unit :=
  update p (fun l => Done (with_rank (rank_parity other) (l_rank other) l)).

Definition unlink (p : nptr) : W D unit := update p (fun l => Done (MkLinks false None None None (l_rank l))).

Definition get_root : W D Link := fun w => Done (w_root w, w).
Definition set_root (lk : Link) : W D unit := fun w => Done (tt, MkTree lk (w_size w) (w_links w) (w_data w)).
Definition update_size (f : Z -> outcome Z) : W D unit := fun w =>
  match f (w_size w) with
  | Done n => Done (tt, MkTree (w_root w) n (w_links w) (w_data w))
  | Panicked => Panicked
  | Undefined => Undefined
  end.

Definition hook (f : gmap nptr Links -> D -> outcome D) : W D unit := fun w =>
  match f (w_links w) (w_data w) with
  | Done d => Done (tt, MkTree (w_root w) (w_size w) (w_links w) d)
  | Panicked => Panicked
  | Undefined => Undefined
  end.

(** As many steps as there are nodes, and one. *)
Definition get_fuel : W D nat := fun w => Done (S (size (w_links w)), w).
Definition out_of_fuel {A} : W D A := fun _ => Undefined.
Definition panic {A} : W D A := fun _ => Panicked.
Definition unwrap {A} (o : option A) : W D A := match o with Some a => mret a | None => panic end.

(** [if let Some(y) = lk { T::links(y).replace_parent(up) }]. *)
Definition reparent (lk up : Link) : W D unit :=
  match lk with Some y => replace_parent y up | None => mret tt end.

(** ** utils.rs *)

Definition get_sibling (node : Link) (parent : nptr) : W D (Link * Side) :=
  _ ← match node with
      | Some n => n_links ← links n; lift (assert_ (bool_decide (l_up n_links = Some parent)))
      | None => mret tt
      end;
  parent_lks ← links parent;
  mret (if bool_decide (l_left parent_lks = node) then (l_right parent_lks, Right) else (l_left parent_lks, Left)).

Definition get_link_parity (lk : Link) : W D bool :=
  match lk with
  | Some x => x_links ← links x; mret (rank_parity x_links)
  | None => mret true
  end.

Definition node_is_2_child (node parent : nptr) : W D bool :=
  node_links ← links node;
  parent_links ← links parent;
  _ ← lift (assert_ (negb (is_leaf parent_links)));
  _ ← lift (assert_ (bool_decide (l_left parent_links = Some node) || bool_decide (l_right parent_links = Some node)));
  mret (eqb (rank_parity node_links) (rank_parity parent_links)).

(** [find_minimum] with [Left], [find_maximum] with [Right]. *)
Fixpoint find_extreme (fuel : nat) (s : Side) (curr : nptr) : W D nptr :=
  match fuel with
  | O => out_of_fuel
  | S fuel =>
      curr_links ← links curr;
      match child curr_links s with
      | Some c => find_extreme fuel s c
      | None => mret curr
      end
  end.

Definition find_minimum (curr : nptr) : W D nptr := fuel ← get_fuel; find_extreme fuel Left curr.
Definition find_maximum (curr : nptr) : W D nptr := fuel ← get_fuel; find_extreme fuel Right curr.

(** The upward loop of [next] ([s = Right]) and of [prev] ([s = Left]): to the
    first parent of which the node is not the [s]-child. *)
Fixpoint climb (fuel : nat) (s : Side) (curr : nptr) : W D Link :=
  match fuel with
  | O => out_of_fuel
  | S fuel =>
      curr_links ← links curr;
      match l_up curr_links with
      | None => mret None
      | Some parent =>
          parent_links ← links parent;
          if bool_decide (child parent_links s = Some curr) then climb fuel s parent else mret (Some parent)
      end
  end.

Definition wavl_next (node : nptr) : W D Link :=
  node_links ← links node;
  match l_right node_links with
  | Some right_ => m ← find_minimum right_; mret (Some m)
  | None => fuel ← get_fuel; climb fuel Right node
  end.

Definition wavl_prev (node : nptr) : W D Link :=
  node_links ← links node;
  match l_left node_links with
  | Some left_ => m ← find_maximum left_; mret (Some m)
  | None => fuel ← get_fuel; climb fuel Left node
  end.

(** ** Rotations *)

(** The parent [p] of [old], or the root, now points to [new]. *)
Definition replace_in_parent (p : Link) (old : nptr) (new : nptr) : W D unit :=
  match p with
  | Some p =>
      p_links ← links p;
      if bool_decide (l_left p_links = Some old) then replace_left p (Some new) else replace_right p (Some new)
  | None => set_root (Some new)
  end.

Definition rotate_at (x : nptr) (side : Side) : W D unit :=
  x_links ← links x;
  let y := child x_links side in
  z ← unwrap (l_up x_links);
  z_links ← links z;
  let p_z := l_up z_links in
  sib ← get_sibling (Some x) z;
  _ ← hook (fun h => after_rotate h x z sib.1 y side);
  _ ← replace_parent x p_z;
  _ ← replace_in_parent p_z z x;
  _ ← replace_child x side (Some z);
  _ ← replace_parent z (Some x);
  _ ← replace_child z (opposite side) y;
  reparent y (Some z).

Definition move_subtrees (y lt gt : nptr) : W D unit :=
  y_links ← links y;
  _ ← replace_right lt (l_left y_links);
  _ ← reparent (l_left y_links) (Some lt);
  _ ← replace_left y (Some lt);
  _ ← replace_parent lt (Some y);
  y_links ← links y;
  _ ← replace_left gt (l_right y_links);
  _ ← reparent (l_right y_links) (Some gt);
  _ ← replace_right y (Some gt);
  replace_parent gt (Some y).

Definition double_rotate_at (y : nptr) (side : Side) : W D unit :=
  y_links ← links y;
  x ← unwrap (l_up y_links);
  x_links ← links x;
  z ← unwrap (l_up x_links);
  z_links ← links z;
  let p_z := l_up z_links in
  sib ← get_sibling (Some y) x;
  _ ← hook (fun h => after_rotate h y x sib.1 (child y_links (opposite side)) (opposite side));
  sib ← get_sibling (Some x) z;
  _ ← hook (fun h => after_rotate h y z sib.1 (child y_links side) side);
  _ ← replace_parent y p_z;
  _ ← replace_in_parent p_z z y;
  match side with
  | Left => move_subtrees y z x
  | Right => move_subtrees y x z
  end.

Definition swap_in_node_at (old new : nptr) : W D unit :=
  old_links ← links old;
  let parent := l_up old_links in
  let left_ := l_left old_links in
  let right_ := l_right old_links in
  _ ← replace_parent new parent;
  _ ← replace_in_parent parent old new;
  _ ← replace_left new left_;
  _ ← reparent left_ (Some new);
  _ ← replace_left old None;
  _ ← replace_right new right_;
  _ ← reparent right_ (Some new);
  _ ← replace_right old None;
  old_links ← links old;
  _ ← set_rank new old_links;
  replace_parent old None.

(** ** Insertion *)

(** The promotions; the result is [x], the parities of [x], its parent and its
    sibling, and the side of the sibling, where the loop breaks, and [None]
    where it returns at the root. *)
Fixpoint promote_loop (fuel : nat) (parent : nptr) : W D (option (nptr * bool * bool * bool * Side)) :=
  match fuel with
  | O => out_of_fuel
  | S fuel =>
      _ ← promote parent;
      parent_links ← links parent;
      match l_up parent_links with
      | None => mret None
      | Some parent_ =>
          let x := parent in
          let parent := parent_ in
          x_links ← links x;
          let par_x := rank_parity x_links in
          parent_links ← links parent;
          let par_parent := rank_parity parent_links in
          sib ← get_sibling (Some x) parent;
          let '(sibling, side) := sib in
          par_sibling ← get_link_parity sibling;
          if (negb par_x || negb par_parent || par_sibling) && (par_x || par_parent || negb par_sibling)
          then mret (Some (x, par_x, par_parent, par_sibling, side))
          else promote_loop fuel parent
      end
  end.

(** The rotation at a 0-child [x] beside a 2-child. *)
Definition insert_rotation (x : nptr) (par_x : bool) (sibling_side : Side) : W D unit :=
  x_links ← links x;
  _ ← lift (assert_ (bool_decide (is_Some (l_up x_links))));
  let y := child x_links sibling_side in
  let z := l_up x_links in
  par_y ← match y with
          | Some y => y_links ← links y; mret (Some (y, rank_parity y_links))
          | None => mret None
          end;
  _ ← match par_y with
      | Some (y, par_y) =>
          if negb (eqb par_y par_x) then
            _ ← double_rotate_at y sibling_side;
            _ ← promote y;
            demote x
          else rotate_at x sibling_side
      | None => rotate_at x sibling_side
      end;
  match z with Some z => demote z | None => mret tt end.

Definition balance_after_insert (x : nptr) : W D unit :=
  x_links ← links x;
  parent ← unwrap (l_up x_links);
  fuel ← get_fuel;
  r ← promote_loop fuel parent;
  match r with
  | None => mret tt
  | Some (x, par_x, par_parent, par_sibling, sibling_side) =>
      if negb (eqb par_x par_parent) || negb (eqb par_x par_sibling) then mret tt
      else insert_rotation x par_x sibling_side
  end.

(** ** Removal *)

Definition is_22_node (y_links : Links) : W D bool :=
  if rank_parity y_links then
    l ← get_link_parity (l_left y_links);
    if l : bool then get_link_parity (l_right y_links) else mret false
  else
    match l_left y_links, l_right y_links with
    | Some l, Some r => ll ← links l; rl ← links r; mret (negb (rank_parity ll) && negb (rank_parity rl))
    | Some l, None => ll ← links l; mret false
    | None, Some r => rl ← links r; mret false
    | None, None => mret false
    end.

(** Demote [z], with its child [y] if that is a 2,2-node; [false] where the
    loop breaks. *)
Definition demote_round (z : nptr) (z_links : Links) (y : Link) : W D bool :=
  par_y ← get_link_parity y;
  if eqb par_y (rank_parity z_links) then _ ← demote z; mret true
  else
    y ← unwrap y;
    y_links ← links y;
    y_is_22_node ← is_22_node y_links;
    if y_is_22_node : bool then _ ← demote y; _ ← demote z; mret true else mret false.

(** The demotions: where the loop breaks the result is [x] and [z]. *)
Fixpoint demote_loop (fuel : nat) (x : Link) (z : nptr) : W D (option (Link * nptr)) :=
  match fuel with
  | O => out_of_fuel
  | S fuel =>
      z_links ← links z;
      let y := if bool_decide (l_left z_links = x) then l_right z_links else l_left z_links in
      creates_3_node ← match l_up z_links with
                       | Some p_z => p_links ← links p_z; mret (eqb (rank_parity p_links) (rank_parity z_links))
                       | None => mret false
                       end;
      continue ← demote_round z z_links y;
      if continue : bool then
        z_links ← links z;
        match l_up z_links with
        | Some parent => if creates_3_node : bool then demote_loop fuel (Some z) parent else mret None
        | None => mret None
        end
      else mret (Some (x, z))
  end.

(** The rotation at the 3-child [x] of [z]. *)
Definition remove_rotation (x : Link) (z : nptr) : W D unit :=
  sib ← get_sibling x z;
  let '(y, y_side) := sib in
  y ← unwrap y;
  y_links ← links y;
  let v := child y_links (opposite y_side) in
  let w := child y_links y_side in
  par_w ← get_link_parity w;
  if negb (eqb par_w (rank_parity y_links)) then
    _ ← rotate_at y (opposite y_side);
    _ ← promote y;
    _ ← demote z;
    z_links ← links z;
    if is_leaf z_links then demote z else mret tt
  else
    v ← unwrap v;
    _ ← double_rotate_at v (opposite y_side);
    _ ← double_promote v;
    _ ← demote y;
    double_demote z.

Definition rebalance_after_remove_3_child (x : Link) (z : nptr) : W D unit :=
  fuel ← get_fuel;
  r ← demote_loop fuel x z;
  match r with
  | None => mret tt
  | Some (x, z) => remove_rotation x z
  end.

Definition rebalance_after_remove_2_2_leaf (x : nptr) : W D unit :=
  x_links ← links x;
  if negb (rank_parity x_links) || bool_decide (is_Some (l_left x_links)) || bool_decide (is_Some (l_right x_links))
  then mret tt
  else
    match l_up x_links with
    | Some parent =>
        two ← node_is_2_child x parent;
        if two : bool then _ ← demote x; rebalance_after_remove_3_child (Some x) parent else demote x
    | None => demote x
    end.

(** The child [x] of [y] takes the place of [y] below [parent]. *)
Definition splice_out (parent : Link) (y : nptr) (x : Link) : W D unit :=
  _ ← match parent with
      | Some p_y =>
          p_y_links ← links p_y;
          if bool_decide (l_left p_y_links = Some y) then replace_left p_y x
          else
            _ ← lift (assert_ (bool_decide (l_right p_y_links = Some y)));
            replace_right p_y x
      | None => set_root x
      end;
  reparent x parent.

(** The rebalancing at the end of [remove_internal]. *)
Definition rebalance_after_remove (x p_y : Link) (is_2_child : bool) : W D unit :=
  match p_y with
  | Some p_y =>
      _ ← (if is_2_child then rebalance_after_remove_3_child x p_y
           else if bool_decide (x = None) then
             p_links ← links p_y;
             if is_leaf p_links then rebalance_after_remove_2_2_leaf p_y else mret tt
           else mret tt);
      p_links ← links p_y;
      lift (assert_ (negb (is_leaf p_links && rank_parity p_links)))
  | None => mret tt
  end.

(** Takes the node [y], which has at most one child [x], out of the tree; the
    result is [x], the parent, and whether [y] was its 2-child. *)
Definition take_out (y : nptr) : W D (Link * Link * bool) :=
  y_links ← links y;
  let p_y := l_up y_links in
  let x := match l_left y_links with Some l => Some l | None => l_right y_links end in
  is_2_child ← match p_y with Some parent => node_is_2_child y parent | None => mret false end;
  _ ← splice_out p_y y x;
  mret (x, p_y, is_2_child).

Definition remove_internal (node : nptr) : W D nptr :=
  node_links ← links node;
  y ← match l_right node_links, l_left node_links with
      | Some right_, Some _ => find_minimum right_
      | _, _ => mret node
      end;
  r ← take_out y;
  let '(x, p_y, is_2_child) := r in
  p_y ← (if bool_decide (y = node) then mret p_y
         else
           _ ← swap_in_node_at node y;
           mret (if bool_decide (p_y = Some node) then Some y else p_y));
  _ ← hook (fun h => after_remove h node (l_up node_links));
  _ ← rebalance_after_remove x p_y is_2_child;
  _ ← unlink node;
  mret node.

(** ** clear, take *)

Fixpoint clear_inner (fuel : nat) (node : nptr) : W D unit :=
  match fuel with
  | O => out_of_fuel
  | S fuel =>
      node_links ← links node;
      _ ← match l_left node_links with Some left_ => clear_inner fuel left_ | None => mret tt end;
      _ ← match l_right node_links with Some right_ => clear_inner fuel right_ | None => mret tt end;
      unlink node
  end.

Definition wavl_clear : W D unit :=
  root ← get_root;
  _ ← set_root None;
  match root with Some root => fuel ← get_fuel; clear_inner fuel root | None => mret tt end.

(** The new tree and the old one, which keeps the size. *)
Definition wavl_take (w : WAVLTree D) : WAVLTree D * WAVLTree D :=
  (MkTree (w_root w) (w_size w) (w_links w) (w_data w), MkTree None (w_size w) (w_links w) (w_data w)).

Definition wavl_new (h : gmap nptr Links) (d : D) : WAVLTree D := MkTree None 0 h d.

Definition wavl_is_empty : W D bool := fun w =>
  if eqb (bool_decide (w_root w = None)) (w_size w =? 0)%Z then Done ((w_size w =? 0)%Z, w) else Panicked.

(** ** Operations that compare keys *)

Section keys.
Context {K : Type} `{Ord K} (key : nptr -> K).

Fixpoint insert_loop (fuel : nat) (ptr curr : nptr) : W D bool :=
  match fuel with
  | O => out_of_fuel
  | S fuel =>
      curr_links ← links curr;
      side ← match cmp (key ptr) (key curr) with
             | Eq => panic
             | Lt => mret Left
             | Gt => mret Right
             end;
      match child curr_links side with
      | Some child => insert_loop fuel ptr child
      | None =>
          let was_leaf := is_leaf curr_links in
          _ ← replace_parent ptr (Some curr);
          _ ← replace_child curr side (Some ptr);
          mret was_leaf
      end
  end.

Definition wavl_insert (ptr : nptr) : W D nptr :=
  root ← get_root;
  _ ← lift (assert_ (negb (bool_decide (root = Some ptr))));
  ptr_links ← links ptr;
  _ ← lift (assert_ (negb (is_linked ptr_links)));
  was_leaf ← match root with
             | Some curr => fuel ← get_fuel; insert_loop fuel ptr curr
             | None => _ ← set_root (Some ptr); mret false
             end;
  _ ← hook (fun h => after_insert h ptr);
  _ ← update_size (fun n => u_add n 1);
  _ ← (if was_leaf : bool then balance_after_insert ptr else mret tt);
  mret ptr.

Fixpoint find_loop (fuel : nat) (k : K) (parent : option (nptr * Side)) (tree : Link) :
    W D (Link * option (nptr * Side)) :=
  match tree with
  | None => mret (None, parent)
  | Some curr =>
      match fuel with
      | O => out_of_fuel
      | S fuel =>
          curr_lks ← links curr;
          match cmp k (key curr) with
          | Eq => mret (Some curr, parent)
          | Lt => find_loop fuel k (Some (curr, Left)) (l_left curr_lks)
          | Gt => find_loop fuel k (Some (curr, Right)) (l_right curr_lks)
          end
      end
  end.

Definition find_internal (k : K) : W D (Link * option (nptr * Side)) :=
  root ← get_root; fuel ← get_fuel; find_loop fuel k None root.

Definition wavl_remove (k : K) : W D Link :=
  r ← find_internal k;
  match r.1 with
  | None => mret None
  | Some ptr =>
      _ ← update_size (fun n => u_sub n 1);
      p ← remove_internal ptr;
      mret (Some p)
  end.

(** [key <= k] and [key < k] of the bound's key against a node's. *)
Definition key_le (a b : K) : bool := match cmp a b with Gt => false | _ => true end.
Definition key_lt (a b : K) : bool := match cmp a b with Lt => true | _ => false end.

Definition lower_cond (bound : Bound K) (k : K) : bool :=
  match bound with Included b => key_le b k | Excluded b => key_lt b k | Unbounded => true end.
Definition upper_cond (bound : Bound K) (k : K) : bool :=
  match bound with Included b => key_lt b k | Excluded b => key_le b k | Unbounded => false end.

Fixpoint lower_loop (fuel : nat) (bound : Bound K) (result tree : Link) : W D Link :=
  match tree with
  | None => mret result
  | Some curr =>
      match fuel with
      | O => out_of_fuel
      | S fuel =>
          curr_lks ← links curr;
          if lower_cond bound (key curr) then lower_loop fuel bound tree (l_left curr_lks)
          else lower_loop fuel bound result (l_right curr_lks)
      end
  end.

Definition find_lower_bound (bound : Bound K) : W D Link :=
  root ← get_root; fuel ← get_fuel; lower_loop fuel bound None root.

Fixpoint upper_loop (fuel : nat) (bound : Bound K) (result tree : Link) : W D Link :=
  match tree with
  | None => mret result
  | Some curr =>
      match fuel with
      | O => out_of_fuel
      | S fuel =>
          curr_lks ← links curr;
          if upper_cond bound (key curr) then upper_loop fuel bound result (l_left curr_lks)
          else upper_loop fuel bound tree (l_right curr_lks)
      end
  end.

Definition find_upper_bound (bound : Bound K) : W D Link :=
  root ← get_root; fuel ← get_fuel; upper_loop fuel bound None root.

(** ** assert_valid *)

Definition ne_links (a b : Link) : W D unit :=
  match a, b with
  | Some a, Some b => lift (assert_ (negb (bool_decide (a = b))))
  | _, _ => mret tt
  end.

Definition links_assert_valid (node : nptr) : W D unit :=
  l ← links node;
  _ ← ne_links (l_up l) (Some node);
  _ ← ne_links (l_left l) (Some node);
  _ ← ne_links (l_right l) (Some node);
  _ ← ne_links (l_up l) (l_left l);
  _ ← ne_links (l_up l) (l_right l);
  ne_links (l_left l) (l_right l).

Fixpoint assert_valid_inner (fuel : nat) (node parent : nptr) : W D unit :=
  match fuel with
  | O => out_of_fuel
  | S fuel =>
      node_links ← links node;
      _ ← links_assert_valid node;
      parent_links ← links parent;
      rank_diff ← lift (u_sub (l_rank parent_links) (l_rank node_links));
      _ ← lift (assert_ ((rank_diff <=? 2)%Z && (0 <? rank_diff)%Z));
      _ ← (if is_leaf node_links then lift (assert_ (l_rank node_links =? 0)%Z) else mret tt);
      _ ← match l_left node_links with
          | Some left_ => _ ← lift (assert_ (key_lt (key left_) (key node))); assert_valid_inner fuel left_ node
          | None => mret tt
          end;
      match l_right node_links with
      | Some right_ => _ ← lift (assert_ (key_lt (key node) (key right_))); assert_valid_inner fuel right_ node
      | None => mret tt
      end
  end.

Definition wavl_assert_valid : W D unit :=
  root ← get_root;
  match root with
  | None => mret tt
  | Some root =>
      fuel ← get_fuel;
      root_links ← links root;
      _ ← links_assert_valid root;
      _ ← match l_left root_links with Some left_ => assert_valid_inner fuel left_ root | None => mret tt end;
      match l_right root_links with Some right_ => assert_valid_inner fuel right_ root | None => mret tt end
  end.

(** ** Entries *)

Definition insert_inner (parent_and_side : option (nptr * Side)) (ptr : nptr) : W D unit :=
  ptr_links ← links ptr;
  _ ← lift (assert_ (negb (is_linked ptr_links)));
  was_leaf ← match parent_and_side with
             | Some (parent, side) =>
                 parent_links ← links parent;
                 let was_leaf := is_leaf parent_links in
                 _ ← replace_parent ptr (Some parent);
                 _ ← replace_child parent side (Some ptr);
                 mret was_leaf
             | None =>
                 root ← get_root;
                 _ ← lift (assert_ (bool_decide (root = None)));
                 _ ← set_root (Some ptr);
                 mret false
             end;
  _ ← update_size (fun n => u_add n 1);
  _ ← hook (fun h => after_insert h ptr);
  if was_leaf : bool then balance_after_insert ptr else mret tt.

(** [VacantEntry::insert]. *)
Definition vacant_insert (parent_and_side : option (nptr * Side)) (ptr : nptr) : W D nptr :=
  root ← get_root;
  _ ← lift (assert_ (negb (bool_decide (root = Some ptr))));
  _ ← insert_inner parent_and_side ptr;
  mret ptr.

Inductive WavlEntry := Occupied (node : nptr) | Vacant (parent_and_side : option (nptr * Side)).

Definition wavl_entry (k : K) : W D WavlEntry :=
  r ← find_internal k;
  mret (match r.1 with Some node => Occupied node | None => Vacant r.2 end).

(** [or_insert_with], for a [default] that makes the node [ptr]. *)
Definition or_insert_with (e : WavlEntry) (ptr : nptr) : W D nptr :=
  match e with
  | Occupied node => mret node
  | Vacant ps => vacant_insert ps ptr
  end.

Definition occupied_remove (node : nptr) : W D nptr := remove_internal node.

(** The loop of [peek_next_inner] ([s = Left]) and of [peek_prev_inner]
    ([s = Right]); [side] is the variable that the loop does not change. *)
Fixpoint vacant_climb (fuel : nat) (s side : Side) (parent : Link) : W D Link :=
  match parent with
  | None => mret None
  | Some p =>
      match fuel with
      | O => out_of_fuel
      | S fuel =>
          parent_links ← links p;
          if bool_decide (side = s) then mret (Some p) else vacant_climb fuel s side (l_up parent_links)
      end
  end.

Definition peek_next_inner (parent_and_side : option (nptr * Side)) : W D Link :=
  match parent_and_side with
  | None => mret None
  | Some (parent, side) =>
      parent_links ← links parent;
      match l_right parent_links, side with
      | Some right_, Left => m ← find_minimum right_; mret (Some m)
      | _, _ => fuel ← get_fuel; vacant_climb fuel Left side (Some parent)
      end
  end.

Definition peek_prev_inner (parent_and_side : option (nptr * Side)) : W D Link :=
  match parent_and_side with
  | None => mret None
  | Some (parent, side) =>
      parent_links ← links parent;
      match l_left parent_links, side with
      | Some left_, Right => m ← find_maximum left_; mret (Some m)
      | _, _ => fuel ← get_fuel; vacant_climb fuel Right side (Some parent)
      end
  end.

(** ** Iterators *)

Record Iter := MkIter { i_head : Link; i_tail : Link }.

Definition map_root (f : nptr -> W D nptr) : W D Link :=
  root ← get_root;
  match root with Some r => m ← f r; mret (Some m) | None => mret None end.

Definition wavl_front : W D Link := map_root find_minimum.
Definition wavl_back : W D Link := map_root find_maximum.

Definition wavl_iter : W D Iter :=
  head ← map_root find_minimum;
  tail ← map_root find_maximum;
  mret (MkIter head tail).

(** Cursors, by the node that they are at. *)
Definition cursor_move_next (current : Link) : W D Link :=
  match current with Some c => wavl_next c | None => mret None end.
Definition cursor_move_prev (current : Link) : W D Link :=
  match current with Some c => wavl_prev c | None => mret None end.

(** [CursorMut::remove]; the second component is where the cursor is then. *)
Definition cursor_remove (current : Link) : W D (Link * Link) :=
  match current with
  | Some c => handle ← remove_internal c; mret (Some handle, None)
  | None => mret (None, None)
  end.

Definition wavl_range (lo hi : Bound K) : W D Iter :=
  e ← wavl_is_empty;
  if e : bool then mret (MkIter None None)
  else
    start ← find_lower_bound lo;
    fin ← find_upper_bound hi;
    mret (MkIter start fin).

Definition wavl_range_mut (lo hi : Bound K) : W D Iter :=
  e ← wavl_is_empty;
  if e : bool then mret (MkIter None None)
  else
    head ← find_lower_bound lo;
    tail ← find_upper_bound hi;
    mret (MkIter (match head with Some h => Some h | None => tail end) tail).

Definition iter_next (it : Iter) : W D (Link * Iter) :=
  match i_head it with
  | None => mret (None, it)
  | Some head =>
      if bool_decide (Some head = i_tail it) then mret (Some head, MkIter None None)
      else h ← wavl_next head; mret (Some head, MkIter h (i_tail it))
  end.

Definition iter_next_back (it : Iter) : W D (Link * Iter) :=
  match i_tail it with
  | None => mret (None, it)
  | Some tail =>
      if bool_decide (Some tail = i_head it) then mret (Some tail, MkIter None None)
      else t ← wavl_prev tail; mret (Some tail, MkIter (i_head it) t)
  end.

(** The owning iterator; its [tail] is cleared at the last node in both
    directions. *)
Definition into_next (it : Iter) : W D (Link * Iter) :=
  match i_head it with
  | None => mret (None, it)
  | Some head =>
      head_links ← links head;
      let parent := l_up head_links in
      let right_ := l_right head_links in
      tail ← match parent with
             | Some p => _ ← replace_left p right_; mret (i_tail it)
             | None => _ ← set_root right_; mret (match right_ with None => None | Some _ => i_tail it end)
             end;
      head' ← match right_ with
              | Some r => _ ← replace_parent r parent; m ← find_minimum r; mret (Some m)
              | None => mret parent
              end;
      _ ← unlink head;
      mret (Some head, MkIter head' tail)
  end.

Definition into_next_back (it : Iter) : W D (Link * Iter) :=
  match i_tail it with
  | None => mret (None, it)
  | Some tail =>
      tail_links ← links tail;
      let parent := l_up tail_links in
      let left_ := l_left tail_links in
      _ ← match parent with
          | Some p => replace_right p left_
          | None => set_root left_
          end;
      tail' ← match left_ with
              | Some l => _ ← replace_parent l parent; m ← find_maximum l; mret (Some m)
              | None => mret parent
              end;
      _ ← unlink tail;
      mret (Some tail, MkIter (i_head it) tail')
  end.

(** Taking all that an iterator yields. *)
Fixpoint collect (fuel : nat) (next : Iter -> W D (Link * Iter)) (it : Iter) : W D (list nptr) :=
  match fuel with
  | O => out_of_fuel
  | S fuel =>
      r ← next it;
      match r.1 with
      | None => mret []
      | Some p => ps ← collect fuel next r.2; mret (p :: ps)
      end
  end.
End keys.
End ops.
