(* ===== verification/WavlRepr.v ===== *)
(** * Trees on the heap of links

    A small separation logic for the tree's pointer operations. The state is
    described by a context (the path from a position up to the root, with the
    subtrees beside it) and a list of pieces that are disjoint from it and
    from each other: single nodes with their links, and subtrees with the
    parent they hang below. [runs] says what an operation does to such a
    description; the rules of the primitive steps, and with them those of the
    rotations, are proved here. *)

From stdpp Require Import base numbers list gmap.
From Stdlib Require Import ZArith Lia.
From S2P Require Import Prelude WavlTree.

(** ** Trees and contexts *)

Inductive tree := E | N (l : tree) (p : nptr) (k : Z) (r : tree).

Definition root_of (t : tree) : Link := match t with E => None | N _ p _ _ => Some p end.
Definition rk (t : tree) : Z := match t with E => -1 | N _ _ k _ => k end.

(** The nodes in order. *)
Fixpoint nodes (t : tree) : list nptr :=
  match t with E => [] | N l p _ r => nodes l ++ p :: nodes r end.

(** The node with [a] on the side [s]. *)
Definition bin (s : Side) (a : tree) (p : nptr) (k : Z) (b : tree) : tree :=
  match s with Left => N a p k b | Right => N b p k a end.

(** A node above the position, the side of the position, and its other child. *)
Record frame := Frame { f_side : Side; f_ptr : nptr; f_rank : Z; f_sib : tree }.

Definition up_of (c : list frame) : Link := match c with [] => None | f :: _ => Some (f_ptr f) end.

Definition fill (f : frame) (t : tree) : tree := bin (f_side f) t (f_ptr f) (f_rank f) (f_sib f).

Fixpoint plug (t : tree) (c : list frame) : tree :=
  match c with [] => t | f :: c => plug (fill f t) c end.

Fixpoint ctx_nodes (c : list frame) : list nptr :=
  match c with [] => [] | f :: c => f_ptr f :: nodes (f_sib f) ++ ctx_nodes c end.

(** ** Pieces *)

Definition node_links (up l : Link) (k : Z) (r : Link) : Links := MkLinks (Z.odd k) up l r k.

Definition frame_links (f : frame) (up hole : Link) : Links :=
  match f_side f with
  | Left => node_links up hole (f_rank f) (root_of (f_sib f))
  | Right => node_links up (root_of (f_sib f)) (f_rank f) hole
  end.

Fixpoint repr (h : gmap nptr Links) (up : Link) (t : tree) : Prop :=
  match t with
  | E => True
  | N l p k r => h !! p = Some (node_links up (root_of l) k (root_of r)) /\ repr h (Some p) l /\ repr h (Some p) r
  end.

Fixpoint repr_ctx (h : gmap nptr Links) (root : Link) (c : list frame) (hole : Link) : Prop :=
  match c with
  | [] => root = hole
  | f :: c =>
      h !! f_ptr f = Some (frame_links f (up_of c) hole)
      /\ repr h (Some (f_ptr f)) (f_sib f) /\ repr_ctx h root c (Some (f_ptr f))
  end.

Inductive piece := PNode (p : nptr) (l : Links) | PTree (up : Link) (t : tree).

Definition piece_nodes (x : piece) : list nptr :=
  match x with PNode p _ => [p] | PTree _ t => nodes t end.
Definition piece_holds (h : gmap nptr Links) (x : piece) : Prop :=
  match x with PNode p l => h !! p = Some l | PTree up t => repr h up t end.

Definition owned (c : list frame) (ps : list piece) : list nptr := ctx_nodes c ++ mjoin (piece_nodes <$> ps).

Record sat {D} (w : WAVLTree D) (c : list frame) (o : Link) (ps : list piece) : Prop := {
  sat_ctx : repr_ctx (w_links w) (w_root w) c o;
  sat_pieces : Forall (piece_holds (w_links w)) ps;
  sat_nodup : NoDup (owned c ps);
}.

(** ** Equivalent descriptions *)

Record sameps (c : list frame) (o : Link) (ps : list piece) (c' : list frame) (o' : Link) (ps' : list piece) : Prop := {
  same_holds h root :
    repr_ctx h root c o /\ Forall (piece_holds h) ps <-> repr_ctx h root c' o' /\ Forall (piece_holds h) ps';
  same_owned : owned c ps ≡ₚ owned c' ps';
}.

(** Equal pieces, whatever the context. *)
Definition eqp (ps ps' : list piece) : Prop :=
  (forall h, Forall (piece_holds h) ps <-> Forall (piece_holds h) ps')
  /\ mjoin (piece_nodes <$> ps) ≡ₚ mjoin (piece_nodes <$> ps').

#[global] Instance eqp_equiv : Equivalence eqp.
Proof.
  split.
  - by intros ?.
  - intros ?? [H1 H2]. split; [intros h; by rewrite H1 | by symmetry].
  - intros ??? [H1 H2] [H3 H4]. split; [intros h; by rewrite H1 | by rewrite H2].
Qed.

#[global] Instance eqp_cons x : Proper (eqp ==> eqp) (cons x).
Proof. intros ?? [H1 H2]. split; [intros h; by rewrite !Forall_cons, H1 | cbn; by rewrite H2]. Qed.

Lemma eqp_perm ps ps' : ps ≡ₚ ps' -> eqp ps ps'.
Proof. intros Hp. split; [intros h; by rewrite Hp | by rewrite Hp]. Qed.

Lemma eqp_N up l p k r ps :
  eqp (PTree up (N l p k r) :: ps)
      (PNode p (node_links up (root_of l) k (root_of r)) :: PTree (Some p) l :: PTree (Some p) r :: ps).
Proof.
  split.
  - intros h. rewrite !Forall_cons. cbn. tauto.
  - cbn. rewrite <- !app_assoc. cbn. solve_Permutation.
Qed.

Lemma eqp_E up ps : eqp (PTree up E :: ps) ps.
Proof. split; [intros h; rewrite Forall_cons; cbn; tauto | done]. Qed.

Lemma eqp_same c o ps ps' : eqp ps ps' -> sameps c o ps c o ps'.
Proof. intros [H1 H2]. split; [intros h root; by rewrite H1 | unfold owned; by rewrite H2]. Qed.

Lemma same_trans c o ps c1 o1 ps1 c2 o2 ps2 :
  sameps c o ps c1 o1 ps1 -> sameps c1 o1 ps1 c2 o2 ps2 -> sameps c o ps c2 o2 ps2.
Proof. intros [H1 H2] [H3 H4]. split; [intros; by rewrite H1 | by rewrite H2]. Qed.

Lemma same_sym c o ps c1 o1 ps1 : sameps c o ps c1 o1 ps1 -> sameps c1 o1 ps1 c o ps.
Proof. intros [H1 H2]. split; [intros; by rewrite H1 | by symmetry]. Qed.

Lemma same_sat {D} (w : WAVLTree D) c o ps c' o' ps' : sameps c o ps c' o' ps' -> sat w c o ps -> sat w c' o' ps'.
Proof.
  intros [H1 H2] [Hc Hp Hn]. destruct (proj1 (H1 (w_links w) (w_root w)) (conj Hc Hp)). split; [done | done | by rewrite <- H2].
Qed.

(** The innermost frame of the context as a piece. *)
Lemma same_frame f c o ps :
  sameps (f :: c) o ps c (Some (f_ptr f)) (PNode (f_ptr f) (frame_links f (up_of c) o) :: PTree (Some (f_ptr f)) (f_sib f) :: ps).
Proof.
  split.
  - intros h root. rewrite !Forall_cons. cbn. tauto.
  - unfold owned. cbn. rewrite <- !app_assoc. solve_Permutation.
Qed.

Lemma same_fill f c t ps :
  sameps (f :: c) (root_of t) (PTree (Some (f_ptr f)) t :: ps) c (root_of (fill f t)) (PTree (up_of c) (fill f t) :: ps).
Proof.
  eapply same_trans; [apply same_frame |]. destruct f as [[] p k sib]; cbn.
  - apply eqp_same. rewrite eqp_N. apply eqp_perm. solve_Permutation.
  - apply eqp_same. rewrite eqp_N. done.
Qed.

Lemma same_plug c1 c t ps :
  sameps (c1 ++ c) (root_of t) (PTree (up_of (c1 ++ c)) t :: ps) c (root_of (plug t c1)) (PTree (up_of c) (plug t c1) :: ps).
Proof.
  revert t. induction c1 as [| f c1 IH]; intros t; cbn; [by apply eqp_same |].
  eapply same_trans; [apply same_fill | apply IH].
Qed.

(** ** What an operation does *)

Section runs.
Context {D : Type}.
Implicit Types w : WAVLTree D.

(** From a state so described, [m] returns [a] in a state as described, and
    changes neither the size, nor the nodes that the description leaves out,
    nor the users' data. *)
Definition runs (c : list frame) (o : Link) (ps : list piece) {A} (m : W D A) (a : A)
    (c' : list frame) (o' : Link) (ps' : list piece) : Prop :=
  owned c ps ≡ₚ owned c' ps' /\
  forall w, sat w c o ps ->
    exists w', m w = Done (a, w') /\ sat w' c' o' ps' /\ w_size w' = w_size w
      /\ (forall q, q ∉ owned c ps -> w_links w' !! q = w_links w !! q) /\ w_data w' = w_data w.

Lemma runs_bind {A B} c o ps (m : W D A) (f : A -> W D B) a c1 o1 ps1 b c2 o2 ps2 :
  runs c o ps m a c1 o1 ps1 -> runs c1 o1 ps1 (f a) b c2 o2 ps2 -> runs c o ps (m ≫= f) b c2 o2 ps2.
Proof.
  intros [Hp Hm] [Hp' Hf]. split; [by rewrite Hp |]. intros w Hs.
  destruct (Hm w Hs) as (w1 & E1 & Hs1 & Hz1 & Ho1 & Hd1). destruct (Hf w1 Hs1) as (w2 & E2 & Hs2 & Hz2 & Ho2 & Hd2).
  exists w2. split; [by rewrite (M_bind_Done m f w a w1) |]. split; [done |]. split; [congruence |]. split; [| congruence].
  intros q Hq. rewrite Ho2, Ho1; [done | done | by rewrite <- Hp].
Qed.

Lemma runs_ret {A} c o ps (a : A) : runs c o ps (mret a) a c o ps.
Proof. split; [done |]. intros w Hs. by exists w. Qed.

Lemma runs_conseq {A} (m : W D A) a c o ps c' o' ps' c1 o1 ps1 c1' o1' ps1' :
  sameps c o ps c1 o1 ps1 -> sameps c1' o1' ps1' c' o' ps' -> runs c1 o1 ps1 m a c1' o1' ps1' -> runs c o ps m a c' o' ps'.
Proof.
  intros H1 H2 [Hp Hm]. split; [by rewrite (same_owned _ _ _ _ _ _ H1), Hp, (same_owned _ _ _ _ _ _ H2) |].
  intros w Hs. destruct (Hm w (same_sat _ _ _ _ _ _ _ H1 Hs)) as (w1 & E1 & Hs1 & Hz & Ho & Hd).
  exists w1. split; [done |]. split; [by eapply same_sat |]. split; [done |]. split; [| done]. intros q Hq. apply Ho. by rewrite <- (same_owned _ _ _ _ _ _ H1).
Qed.

Lemma same_refl c o ps : sameps c o ps c o ps.
Proof. by apply eqp_same. Qed.

Lemma runs_pre {A} (m : W D A) a c o ps c1 o1 ps1 c' o' ps' :
  sameps c o ps c1 o1 ps1 -> runs c1 o1 ps1 m a c' o' ps' -> runs c o ps m a c' o' ps'.
Proof. intros. eapply runs_conseq; [done | apply same_refl | done]. Qed.

Lemma runs_post {A} (m : W D A) a c o ps c1 o1 ps1 c' o' ps' :
  sameps c1 o1 ps1 c' o' ps' -> runs c o ps m a c1 o1 ps1 -> runs c o ps m a c' o' ps'.
Proof. intros. eapply runs_conseq; [apply same_refl | done | done]. Qed.

(** The same for operations that call the hooks: the users' data, which
    satisfied [P], satisfies [Q]. *)
Definition hruns (P : D -> Prop) (c : list frame) (o : Link) (ps : list piece) {A} (m : W D A) (a : A)
    (Q : D -> Prop) (c' : list frame) (o' : Link) (ps' : list piece) : Prop :=
  owned c ps ≡ₚ owned c' ps' /\
  forall w, sat w c o ps -> P (w_data w) ->
    exists w', m w = Done (a, w') /\ sat w' c' o' ps' /\ w_size w' = w_size w
      /\ (forall q, q ∉ owned c ps -> w_links w' !! q = w_links w !! q) /\ Q (w_data w').

Lemma runs_hruns {A} (P Q : D -> Prop) c o ps (m : W D A) a c' o' ps' :
  (forall d, P d -> Q d) -> runs c o ps m a c' o' ps' -> hruns P c o ps m a Q c' o' ps'.
Proof.
  intros HPQ [Hp Hm]. split; [done |]. intros w Hs HP. destruct (Hm w Hs) as (w1 & E1 & Hs1 & Hz1 & Ho1 & Hd1).
  exists w1. rewrite Hd1. split_and!; auto.
Qed.

Lemma hruns_bind {A B} P Q R c o ps (m : W D A) (f : A -> W D B) a c1 o1 ps1 b c2 o2 ps2 :
  hruns P c o ps m a Q c1 o1 ps1 -> hruns Q c1 o1 ps1 (f a) b R c2 o2 ps2 -> hruns P c o ps (m ≫= f) b R c2 o2 ps2.
Proof.
  intros [Hp Hm] [Hp' Hf]. split; [by rewrite Hp |]. intros w Hs HP.
  destruct (Hm w Hs HP) as (w1 & E1 & Hs1 & Hz1 & Ho1 & HQ). destruct (Hf w1 Hs1 HQ) as (w2 & E2 & Hs2 & Hz2 & Ho2 & HR).
  exists w2. split; [by rewrite (M_bind_Done m f w a w1) |]. split; [done |]. split; [congruence |]. split; [| done].
  intros q Hq. rewrite Ho2, Ho1; [done | done | by rewrite <- Hp].
Qed.

Lemma hruns_step {A B} P R c o ps (m : W D A) (f : A -> W D B) a c1 o1 ps1 b c2 o2 ps2 :
  runs c o ps m a c1 o1 ps1 -> hruns P c1 o1 ps1 (f a) b R c2 o2 ps2 -> hruns P c o ps (m ≫= f) b R c2 o2 ps2.
Proof. intros Hm. eapply hruns_bind. by eapply runs_hruns. Qed.

Lemma hruns_conseq {A} (P Q P1 Q1 : D -> Prop) (m : W D A) a c o ps c' o' ps' c1 o1 ps1 c1' o1' ps1' :
  sameps c o ps c1 o1 ps1 -> sameps c1' o1' ps1' c' o' ps' -> (forall d, P d -> P1 d) -> (forall d, Q1 d -> Q d) ->
  hruns P1 c1 o1 ps1 m a Q1 c1' o1' ps1' -> hruns P c o ps m a Q c' o' ps'.
Proof.
  intros H1 H2 HP HQ [Hp Hm]. split; [by rewrite (same_owned _ _ _ _ _ _ H1), Hp, (same_owned _ _ _ _ _ _ H2) |].
  intros w Hs Hw. destruct (Hm w (same_sat _ _ _ _ _ _ _ H1 Hs) (HP _ Hw)) as (w1 & E1 & Hs1 & Hz & Ho & Hd).
  exists w1. split; [done |]. split; [by eapply same_sat |]. split; [done |]. split; [| auto].
  intros q Hq. apply Ho. by rewrite <- (same_owned _ _ _ _ _ _ H1).
Qed.

Lemma hruns_pre {A} P Q (m : W D A) a c o ps c1 o1 ps1 c' o' ps' :
  sameps c o ps c1 o1 ps1 -> hruns P c1 o1 ps1 m a Q c' o' ps' -> hruns P c o ps m a Q c' o' ps'.
Proof. intros. eapply hruns_conseq; [done | apply same_refl | done | done | done]. Qed.

Lemma hruns_post {A} P Q (m : W D A) a c o ps c1 o1 ps1 c' o' ps' :
  sameps c1 o1 ps1 c' o' ps' -> hruns P c o ps m a Q c1 o1 ps1 -> hruns P c o ps m a Q c' o' ps'.
Proof. intros. eapply hruns_conseq; [apply same_refl | done | done | done | done]. Qed.

Lemma runs_hook (P Q : D -> Prop) f c o ps :
  (forall w, sat w c o ps -> P (w_data w) -> exists d, f (w_links w) (w_data w) = Done d /\ Q d) ->
  hruns P c o ps (hook f) tt Q c o ps.
Proof.
  intros Hf. split; [done |]. intros w Hs HP. destruct (Hf w Hs HP) as (d & Hd & HQ).
  eexists. split; [unfold hook; by rewrite Hd |]. split; [by destruct Hs | done].
Qed.
End runs.

(** ** Disjointness *)

Lemma repr_frame h h' up t : (forall q, q ∈ nodes t -> h' !! q = h !! q) -> repr h up t -> repr h' up t.
Proof.
  revert up. induction t as [| l IHl p k r IHr]; intros up Hq; cbn; [done |]. intros (Hp & Hl & Hr).
  cbn in Hq. setoid_rewrite elem_of_app in Hq. setoid_rewrite elem_of_cons in Hq.
  split; [by rewrite Hq; [| auto] |]. split; [apply IHl | apply IHr]; auto.
Qed.

Lemma repr_ctx_frame h h' root c o : (forall q, q ∈ ctx_nodes c -> h' !! q = h !! q) -> repr_ctx h root c o -> repr_ctx h' root c o.
Proof.
  revert o. induction c as [| f c IH]; intros o Hq; cbn; [done |]. intros (Hp & Hs & Hc).
  cbn in Hq. setoid_rewrite elem_of_cons in Hq. setoid_rewrite elem_of_app in Hq.
  split; [by rewrite Hq; [| auto] |]. split; [eapply repr_frame, Hs; auto | apply IH, Hc; auto].
Qed.

Lemma pieces_frame h h' ps :
  (forall q, q ∈ mjoin (piece_nodes <$> ps) -> h' !! q = h !! q) -> Forall (piece_holds h) ps -> Forall (piece_holds h') ps.
Proof.
  intros Hq. induction 1 as [| x ps Hx Hps IH]; [done |]. cbn in Hq. setoid_rewrite elem_of_app in Hq. constructor; [| apply IH; auto].
  destruct x as [p l | up t]; cbn in *.
  - rewrite Hq; [done |]. left. by apply list_elem_of_singleton.
  - eapply repr_frame, Hx. auto.
Qed.

Lemma owned_cons c x ps : owned c (x :: ps) ≡ₚ piece_nodes x ++ owned c ps.
Proof. unfold owned. cbn. solve_Permutation. Qed.

Section prims.
Context {D : Type}.
Implicit Types w : WAVLTree D.
#[local] Abbreviation runs := (runs (D := D)).

(** Replacing one piece by another over the same nodes. *)
Lemma sat_replace w h' c o x x' ps :
  sat w c o (x :: ps) -> piece_nodes x' = piece_nodes x -> piece_holds h' x' ->
  (forall q, q ∉ piece_nodes x -> h' !! q = w_links w !! q) ->
  sat (MkTree (w_root w) (w_size w) h' (w_data w)) c o (x' :: ps).
Proof.
  intros [Hc Hp Hn] Hx Hx' Hq. inversion_clear Hp as [| ?? Hpx Hps].
  assert (Hd : forall q, q ∈ owned c ps -> q ∉ piece_nodes x).
  { rewrite owned_cons in Hn. apply NoDup_app in Hn as (_ & Hn & _). intros q Hq1 Hq2. by apply (Hn q). }
  unfold owned in Hd. setoid_rewrite elem_of_app in Hd. split; cbn.
  - eapply repr_ctx_frame, Hc. intros q ?. apply Hq. auto.
  - constructor; [done |]. eapply pieces_frame, Hps. intros q ?. apply Hq. auto.
  - revert Hn. by rewrite !owned_cons, Hx.
Qed.

(** ** Primitive steps *)

Lemma runs_links c o p l ps : runs c o (PNode p l :: ps) (links p) l c o (PNode p l :: ps).
Proof.
  split; [done |]. intros w Hs. exists w. split; [| done].
  destruct Hs as [_ Hp _]. inversion_clear Hp. unfold links. cbn in *. by simplify_option_eq.
Qed.

Lemma runs_update c o p l l' f ps : f l = Done l' -> runs c o (PNode p l :: ps) (update p f) tt c o (PNode p l' :: ps).
Proof.
  intros Hf. split; [by rewrite !owned_cons |]. intros w Hs. pose proof (sat_pieces _ _ _ _ Hs) as Hp. inversion_clear Hp as [| ?? Hx _]. cbn in Hx.
  eexists. split; [unfold update; rewrite Hx, Hf; done |]. cbn. split.
  - eapply (sat_replace w _ _ _ (PNode p l)); [done | done | apply lookup_insert_eq |].
    intros q Hq. apply lookup_insert_ne. intros ->. apply Hq, list_elem_of_singleton. done.
  - split; [done |]. split; [| done]. intros q Hq. apply lookup_insert_ne. intros ->. apply Hq. rewrite owned_cons. set_solver.
Qed.

Lemma runs_reparent c o up up' t ps :
  runs c o (PTree up t :: ps) (reparent (root_of t) up') tt c o (PTree up' t :: ps).
Proof.
  destruct t as [| l p k r]; cbn [reparent root_of].
  - eapply runs_conseq; [apply eqp_same, eqp_E | apply same_sym, eqp_same, eqp_E | apply runs_ret].
  - eapply runs_conseq; [apply eqp_same, eqp_N | apply same_sym, eqp_same, eqp_N |]. by apply runs_update.
Qed.

Lemma runs_link_parity c o up t ps :
  runs c o (PTree up t :: ps) (get_link_parity (root_of t)) (Z.odd (rk t)) c o (PTree up t :: ps).
Proof.
  destruct t as [| l p k r]; cbn [get_link_parity root_of rk]; [apply runs_ret |].
  eapply runs_conseq; [apply eqp_same, eqp_N | apply same_sym, eqp_same, eqp_N |].
  eapply runs_bind; [apply runs_links | apply runs_ret].
Qed.

Lemma runs_set_root o o' ps : runs [] o ps (set_root o') tt [] o' ps.
Proof.
  split; [done |]. intros w [Hc Hp Hn]. eexists. split; [done |]. split; [by split |]. done.
Qed.

Lemma root_in_nodes t p : root_of t = Some p -> p ∈ nodes t.
Proof. destruct t as [| l q k r]; [done |]. intros [= ->]. cbn. rewrite elem_of_app, elem_of_cons. auto. Qed.

(** The sibling of the position is another node than those of the pieces. *)
Lemma sat_sib_ne w f c o ps q : sat w (f :: c) o ps -> q ∈ mjoin (piece_nodes <$> ps) -> root_of (f_sib f) <> Some q.
Proof.
  intros [_ _ Hn] Hq Hr%root_in_nodes. unfold owned in Hn. cbn in Hn. apply NoDup_cons in Hn as [_ Hn].
  rewrite <- app_assoc in Hn. apply NoDup_app in Hn as (_ & Hn & _). apply (Hn q); [done |]. apply elem_of_app. auto.
Qed.

(** A fact that follows from the description may be used. *)
Lemma runs_fact {A} (P : Prop) (m : W D A) a c o ps c' o' ps' :
  (forall w, sat w c o ps -> P) -> owned c ps ≡ₚ owned c' ps' -> (P -> runs c o ps m a c' o' ps') -> runs c o ps m a c' o' ps'.
Proof. intros HP Ho Hr. split; [done |]. intros w Hs. by apply Hr; [eapply HP |]. Qed.

Lemma frame_set_hole f up o o' : set_child (f_side f) o' (frame_links f up o) = frame_links f up o'.
Proof. by destruct f as [[] ???]. Qed.

Lemma runs_set_hole f c o o' ps :
  runs (f :: c) o ps (replace_child (f_ptr f) (f_side f) o') tt (f :: c) o' ps.
Proof.
  eapply runs_conseq; [apply same_frame | apply same_sym, same_frame |].
  apply runs_update. by rewrite frame_set_hole.
Qed.

Lemma runs_replace_in_parent c old new l ps :
  runs c (Some old) (PNode old l :: ps) (replace_in_parent (up_of c) old new) tt c (Some new) (PNode old l :: ps).
Proof.
  destruct c as [| f c]; cbn [replace_in_parent up_of]; [apply runs_set_root |].
  apply (runs_fact (root_of (f_sib f) <> Some old)); [| done | intros Hne].
  - intros w Hs. apply (sat_sib_ne _ _ _ _ _ _ Hs). cbn. by left.
  - eapply runs_bind.
    { eapply runs_conseq; [apply same_frame | apply same_sym, same_frame | apply runs_links]. }
    pose proof (runs_set_hole f c (Some old) (Some new) (PNode old l :: ps)) as Hr. destruct f as [[] p k sib]; cbn in *.
    + by rewrite bool_decide_true.
    + by rewrite bool_decide_false.
Qed.

Lemma runs_assert c o ps b : b = true -> runs c o ps (lift (assert_ b)) tt c o ps.
Proof. intros ->. apply runs_ret. Qed.

Lemma runs_splice_out c y l up x ps :
  runs c (Some y) (PNode y l :: PTree up x :: ps) (splice_out (up_of c) y (root_of x)) tt
       c (root_of x) (PNode y l :: PTree (up_of c) x :: ps).
Proof.
  unfold splice_out. eapply (runs_bind _ _ _ _ _ tt c (root_of x) (PTree up x :: PNode y l :: ps)).
  2: { eapply runs_post; [| apply runs_reparent]. apply eqp_same, eqp_perm. solve_Permutation. }
  eapply runs_post; [apply eqp_same, eqp_perm, Permutation_swap |].
  destruct c as [| f c]; cbn [up_of]; [apply runs_set_root |].
  apply (runs_fact (root_of (f_sib f) <> Some y)); [| done | intros Hne].
  - intros w Hs. apply (sat_sib_ne _ _ _ _ _ _ Hs). cbn. by left.
  - eapply runs_bind.
    { eapply runs_conseq; [apply same_frame | apply same_sym, same_frame | apply runs_links]. }
    pose proof (runs_set_hole f c (Some y) (root_of x) (PNode y l :: PTree up x :: ps)) as Hr. destruct f as [[] p k sib]; cbn in *.
    + by rewrite bool_decide_true.
    + rewrite bool_decide_false by done. eapply runs_bind; [by apply runs_assert, bool_decide_true | done].
Qed.

(** ** Ranks *)

Lemma runs_with_rank c o p up l k r k' par f ps :
  f (node_links up l k r) = Done (with_rank par k' (node_links up l k r)) -> par = Z.odd k' ->
  runs c o (PNode p (node_links up l k r) :: ps) (update p f) tt c o (PNode p (node_links up l k' r) :: ps).
Proof. intros Hf ->. by apply runs_update. Qed.

Lemma runs_promote c o p up l k r ps :
  0 <= k < USIZE_MAX ->
  runs c o (PNode p (node_links up l k r) :: ps) (promote p) tt c o (PNode p (node_links up l (k + 1) r) :: ps).
Proof.
  intros Hk. apply runs_with_rank with (par := negb (Z.odd k)); [cbn | by rewrite Z.odd_add; destruct (Z.odd k)].
  by rewrite u_add_Done by (unfold is_usize; lia).
Qed.

Lemma runs_demote c o p up l k r ps :
  1 <= k <= USIZE_MAX ->
  runs c o (PNode p (node_links up l k r) :: ps) (demote p) tt c o (PNode p (node_links up l (k - 1) r) :: ps).
Proof.
  intros Hk. apply runs_with_rank with (par := negb (Z.odd k)); [cbn | by rewrite Z.odd_sub; destruct (Z.odd k)].
  by rewrite u_sub_Done by (unfold is_usize; lia).
Qed.

Lemma runs_double_promote c o p up l k r ps :
  0 <= k < USIZE_MAX - 1 ->
  runs c o (PNode p (node_links up l k r) :: ps) (double_promote p) tt c o (PNode p (node_links up l (k + 2) r) :: ps).
Proof.
  intros Hk. apply runs_with_rank with (par := Z.odd k); [cbn | by rewrite Z.odd_add; destruct (Z.odd k)].
  by rewrite u_add_Done by (unfold is_usize; lia).
Qed.

Lemma runs_double_demote c o p up l k r ps :
  2 <= k <= USIZE_MAX ->
  runs c o (PNode p (node_links up l k r) :: ps) (double_demote p) tt c o (PNode p (node_links up l (k - 2) r) :: ps).
Proof.
  intros Hk. apply runs_with_rank with (par := Z.odd k); [cbn | by rewrite Z.odd_sub; destruct (Z.odd k)].
  by rewrite u_sub_Done by (unfold is_usize; lia).
Qed.

(** ** Automation: one step on the piece that it is about *)

Lemma runs_at {A} (m : W D A) a c o o' x x' pre ps :
  (forall qs, runs c o (x :: qs) m a c o' (x' :: qs)) ->
  runs c o (rev_append pre (x :: ps)) m a c o' (rev_append pre (x' :: ps)).
Proof.
  intros Hm. eapply runs_conseq; [| | apply (Hm (rev_append pre ps))]; apply eqp_same, eqp_perm; rewrite !rev_append_rev; solve_Permutation.
Qed.

Lemma hruns_fact {A} (F : Prop) P Q (m : W D A) a c o ps c' o' ps' :
  (forall w, sat w c o ps -> F) -> owned c ps ≡ₚ owned c' ps' -> (F -> hruns P c o ps m a Q c' o' ps') -> hruns P c o ps m a Q c' o' ps'.
Proof. intros HF Ho Hr. split; [done |]. intros w Hs. by apply Hr; [eapply HF |]. Qed.
End prims.

Ltac locate_node p ps pre k :=
  lazymatch ps with
  | PNode p ?l :: ?rest => k pre (PNode p l) rest
  | ?x :: ?rest => locate_node p rest (x :: pre) k
  end.

Ltac locate_tree t ps pre k :=
  lazymatch ps with
  | PTree ?up t :: ?rest => k pre (PTree up t) rest
  | ?x :: ?rest => locate_tree t rest (x :: pre) k
  end.

Ltac at_piece locate key tac :=
  lazymatch goal with
  | |- runs ?c ?o ?ps ?m ?a ?c' ?o' ?ps' =>
      locate key ps (@nil piece) ltac:(fun pre x rest =>
        change (runs c o (rev_append pre (x :: rest)) m a c' o' ps'));
      eapply runs_at; intros ?; tac
  end.

Ltac link_cbn :=
  cbn [child l_up l_left l_right rank_parity l_rank set_up set_child with_rank node_links frame_links opposite root_of bin fill
       f_side f_ptr f_rank f_sib rev_append unwrap fst snd up_of rk].

Ltac prim :=
  lazymatch goal with
  | |- runs _ _ _ ?m _ _ _ _ =>
      lazymatch m with
      | links ?p => at_piece locate_node p ltac:(apply runs_links)
      | replace_parent ?p _ => at_piece locate_node p ltac:(apply runs_update; reflexivity)
      | replace_child ?p _ _ => at_piece locate_node p ltac:(apply runs_update; reflexivity)
      | replace_left ?p _ => at_piece locate_node p ltac:(apply runs_update; reflexivity)
      | replace_right ?p _ => at_piece locate_node p ltac:(apply runs_update; reflexivity)
      | set_rank ?p _ => at_piece locate_node p ltac:(apply runs_update; reflexivity)
      | unlink ?p => at_piece locate_node p ltac:(apply runs_update; reflexivity)
      | reparent (root_of ?t) _ => at_piece locate_tree t ltac:(apply runs_reparent)
      | get_link_parity (root_of ?t) => at_piece locate_tree t ltac:(apply runs_link_parity)
      | promote ?p => at_piece locate_node p ltac:(apply runs_promote; lia)
      | demote ?p => at_piece locate_node p ltac:(apply runs_demote; lia)
      | double_promote ?p => at_piece locate_node p ltac:(apply runs_double_promote; lia)
      | double_demote ?p => at_piece locate_node p ltac:(apply runs_double_demote; lia)
      | replace_in_parent _ ?p _ => at_piece locate_node p ltac:(apply runs_replace_in_parent)
      | get_sibling (Some _) _ =>
          unfold get_sibling; eapply runs_bind; [eapply runs_bind; [prim | link_cbn; prim] | eapply runs_bind; [prim | link_cbn; prim]]
      | lift (assert_ _) => apply runs_assert; first [by apply bool_decide_true | done]
      | mret _ => apply runs_ret
      end
  end.

Ltac run := first [eapply runs_bind | eapply hruns_step]; [prim | link_cbn].

(** Show the nodes of the trees in the description before, and of that after. *)
Ltac open_pieces := apply eqp_same; repeat setoid_rewrite eqp_N; link_cbn; reflexivity.
Ltac open_before := first [eapply runs_pre | eapply hruns_pre]; [open_pieces |].
Ltac open_after := first [eapply runs_post | eapply hruns_post]; [apply same_sym; open_pieces |].
Ltac reorder := link_cbn; apply eqp_same, eqp_perm; unfold node_links; solve_Permutation.
(** Run to the end and compare the pieces. *)
Ltac run_all := repeat run; eapply runs_post; [| prim]; reorder.

(** ** Users' data *)

(** The tree up to the ranks. *)
Fixpoint shape (t : tree) : tree :=
  match t with E => E | N l p _ r => N (shape l) p 0 (shape r) end.

(** The node [p] with the parent [up] is taken out of the tree: its only child
    takes its place, or else the least node of its right subtree. *)
Inductive spliced : tree -> nptr -> Link -> tree -> Prop :=
| spliced_one c s a p k : spliced (plug (bin s a p k E) c) p (up_of c) (plug a c)
| spliced_two c l p k r y r' :
    l <> E -> nodes r = y :: nodes r' -> spliced (plug (N l p k r) c) p (up_of c) (plug (N l y k r') c).

(** What users keep in the nodes of a tree as an invariant, what they see to
    for a node before it is inserted, which nodes they remove, and that their
    hooks keep the invariant. *)
Class Augmentation (D : Type) {L : Linked D} := {
  inv : tree -> D -> Prop;
  ready : nptr -> D -> Prop;
  removable : tree -> nptr -> Prop;
  inv_shape t t' d : shape t = shape t' -> inv t d -> inv t' d;
  inv_rotate h c o A x kx Y z kz C d :
    NoDup (nodes (plug (bin o (bin o A x kx Y) z kz C) c)) -> inv (plug (bin o (bin o A x kx Y) z kz C) c) d ->
    exists d', after_rotate h x z (root_of C) (root_of Y) (opposite o) d = Done d'
      /\ inv (plug (bin o A x kx (bin o Y z kz C)) c) d';
  inv_insert h c p d :
    repr h None (plug (N E p 0 E) c) -> NoDup (nodes (plug (N E p 0 E) c)) -> inv (plug E c) d -> ready p d ->
    exists d', after_insert h p d = Done d' /\ inv (plug (N E p 0 E) c) d';
  inv_remove h t p up t' d :
    repr h None t' -> NoDup (nodes t') -> spliced t p up t' -> removable t p -> inv t d ->
    exists d', after_remove h p up d = Done d' /\ inv t' d';
}.

(** With the provided hooks there is nothing to keep. *)
#[global] Program Instance no_augmentation : Augmentation unit := {|
  inv _ _ := True; ready _ _ := True; removable _ _ := True;
|}.
Solve Obligations with intros; eexists; by split.

Lemma ctx_plug c t : ctx_nodes c ++ nodes t ≡ₚ nodes (plug t c).
Proof.
  revert t. induction c as [| f c IH]; intros t; cbn; [done |]. rewrite <- IH.
  destruct f as [[] p k sib]; cbn; solve_Permutation.
Qed.

Lemma sat_plug {D} (w : WAVLTree D) c up t ps : sat w c (root_of t) (PTree up t :: ps) -> NoDup (nodes (plug t c)).
Proof.
  intros [_ _ Hn]. rewrite <- ctx_plug. unfold owned in Hn. cbn in Hn. rewrite app_assoc in Hn. by apply NoDup_app in Hn as [? _].
Qed.

Lemma sat_repr {D} (w : WAVLTree D) c t ps : sat w c (root_of t) (PTree (up_of c) t :: ps) -> repr (w_links w) None (plug t c).
Proof.
  intros Hs. pose proof (same_plug c [] t ps) as Hp. rewrite app_nil_r in Hp. apply (same_sat _ _ _ _ _ _ _ Hp) in Hs as [_ Hf _].
  by inversion_clear Hf.
Qed.

(** ** Rotations *)

Section rotations.
Context {D : Type} {L : Linked D} {Au : Augmentation D}.
#[local] Abbreviation runs := (runs (D := D)).
#[local] Abbreviation hruns := (hruns (D := D)).

Lemma nodup_inner c o t z kz C x : root_of t = Some x -> NoDup (nodes (plug (bin o t z kz C) c)) -> root_of C <> Some x.
Proof.
  intros Ht%root_in_nodes Hn HC%root_in_nodes. rewrite <- ctx_plug in Hn. apply NoDup_app in Hn as (_ & _ & Hn).
  destruct o; cbn in Hn; apply NoDup_app in Hn as (_ & Hn & _); apply (Hn x); rewrite ?elem_of_cons; auto.
Qed.

(** The call of a hook, with what its law gives. *)
Ltac call_hook Hi := eapply hruns_bind; [apply runs_hook; intros w _; rewrite ?bool_decide_true, ?bool_decide_false by done; apply Hi | link_cbn].

Lemma rotate_at_ok c o A x kx Y z kz C ps (t := bin o (bin o A x kx Y) z kz C) (t' := bin o A x kx (bin o Y z kz C)) :
  hruns (inv (plug t c)) c (Some z) (PTree (up_of c) t :: ps) (rotate_at x (opposite o)) tt
        (inv (plug t' c)) c (Some x) (PTree (up_of c) t' :: ps).
Proof.
  apply (hruns_fact (NoDup (nodes (plug t c)))); [| | intros Hn].
  - intros w Hs. apply (sat_plug w c (up_of c) t ps). unfold t in *. by destruct o.
  - subst t t'. rewrite !owned_cons. destruct o; cbn; solve_Permutation.
  - unfold rotate_at. assert (Hi := fun h d => inv_rotate h c o A x kx Y z kz C d Hn). subst t t'.
    assert (Hne : root_of C <> Some x) by (eapply nodup_inner, Hn; by destruct o).
    destruct o; link_cbn; cbn in Hi; open_before; open_after; repeat run; call_hook Hi; apply runs_hruns; [done | run_all | done | run_all].
Qed.

Lemma double_rotate_at_ok c o A x kx B y ky E' z kz C ps
    (t := bin o (bin o A x kx (bin o B y ky E')) z kz C) (t' := bin o (bin o A x kx B) y ky (bin o E' z kz C)) :
  hruns (inv (plug t c)) c (Some z) (PTree (up_of c) t :: ps) (double_rotate_at y (opposite o)) tt
        (inv (plug t' c)) c (Some y) (PTree (up_of c) t' :: ps).
Proof.
  apply (hruns_fact (NoDup (nodes (plug t c)))); [| | intros Hn].
  - intros w Hs. apply (sat_plug w c (up_of c) t ps). unfold t in *. by destruct o.
  - subst t t'. rewrite !owned_cons. destruct o; cbn; solve_Permutation.
  - unfold double_rotate_at, move_subtrees. set (t1 := bin o (bin o (bin o A x kx B) y ky E') z kz C).
    assert (Hi1 := fun h d => inv_rotate h (Frame o z kz C :: c) (opposite o) E' y ky B x kx A d).
    assert (Hi2 := fun h d => inv_rotate h c o (bin o A x kx B) y ky E' z kz C d).
    assert (Hn1 : NoDup (nodes (plug t1 c))).
    { assert (Hp : nodes t1 ≡ₚ nodes t) by (subst t t1; destruct o; cbn; solve_Permutation). by rewrite <- ctx_plug, Hp, ctx_plug. }
    assert (Hne1 : root_of C <> Some x) by (eapply nodup_inner, Hn; by destruct o).
    assert (Hne2 : root_of A <> Some y).
    { eapply (nodup_inner (Frame o z kz C :: c) (opposite o) (bin o B y ky E') x kx A); [by destruct o |]. subst t. by destruct o. }
    subst t t' t1. destruct o; link_cbn; cbn in Hi1, Hi2, Hn, Hn1; open_before; open_after; repeat run;
      (call_hook (fun h d => Hi1 h d Hn)); repeat run; (call_hook (fun h d => Hi2 h d Hn1)); apply runs_hruns; [done | run_all | done | run_all].
Qed.

(** The node [new] takes the place and the rank of [old], which is unlinked. *)
Lemma swap_in_node_at_ok c l old k r new ln ps :
  runs c (Some old) (PTree (up_of c) (N l old k r) :: PNode new ln :: ps) (swap_in_node_at old new) tt
       c (Some new) (PTree (up_of c) (N l new k r) :: PNode old (MkLinks (Z.odd k) None None None k) :: ps).
Proof. unfold swap_in_node_at. open_before. open_after. run_all. Qed.
End rotations.
