(* ===== verification/WavlBalance.v ===== *)
(** * Rebalancing of the weak AVL tree

    The rank rule (rank differences of one and two, leaves of rank zero), and
    that the rebalancing loops, which see only the parity of the ranks,
    restore it after an insertion and after a removal without changing the
    order of the nodes. *)

From stdpp Require Import base numbers list gmap.
From Stdlib Require Import ZArith Lia.
From S2P Require Import Prelude WavlTree WavlRepr.

(** ** The rank rule *)

Definition node_ok (k a b : Z) : Prop := 1 <= k - a <= 2 /\ 1 <= k - b <= 2 /\ (a = -1 -> b = -1 -> k = 0).

Fixpoint wavl (t : tree) : Prop :=
  match t with
  | E => True
  | N l _ k r => node_ok k (rk l) (rk r) /\ wavl l /\ wavl r
  end.

(** The rule for a context around a subtree of rank [a]. *)
Fixpoint ctx_ok (c : list frame) (a : Z) : Prop :=
  match c with
  | [] => True
  | f :: c => node_ok (f_rank f) a (rk (f_sib f)) /\ wavl (f_sib f) /\ ctx_ok c (f_rank f)
  end.

Definition small (c : list frame) : Prop := Forall (fun f => f_rank f < USIZE_MAX) c.

Lemma node_ok_sym k a b : node_ok k a b <-> node_ok k b a.
Proof. unfold node_ok. lia. Qed.

Lemma wavl_bin s a p k b : wavl (bin s a p k b) <-> node_ok k (rk a) (rk b) /\ wavl a /\ wavl b.
Proof. destruct s; cbn; [tauto |]. rewrite node_ok_sym. tauto. Qed.

Lemma rk_bin s a p k b : rk (bin s a p k b) = k.
Proof. by destruct s. Qed.

Lemma root_bin s a p k b : root_of (bin s a p k b) = Some p.
Proof. by destruct s. Qed.

Lemma wavl_plug t c : wavl (plug t c) <-> wavl t /\ ctx_ok c (rk t).
Proof.
  revert t. induction c as [| f c IH]; intros t; cbn; [tauto |]. rewrite IH. unfold fill. rewrite wavl_bin, rk_bin. tauto.
Qed.

Lemma wavl_rk t : wavl t -> -1 <= rk t.
Proof. induction t as [| l IHl p k r IHr]; cbn; [lia |]. unfold node_ok. intros (? & Hl & Hr). specialize (IHl Hl). lia. Qed.

Lemma wavl_empty t : wavl t -> rk t = -1 -> t = E.
Proof. destruct t as [| l p k r]; [done |]. cbn. unfold node_ok. intros (? & Hl%wavl_rk & _). lia. Qed.

Lemma wavl_node t : wavl t -> 0 <= rk t -> exists s, forall o, exists a b, t = bin o a s (rk t) b.
Proof. destruct t as [| l p k r]; cbn; [lia |]. intros _ _. exists p. intros []; [by exists l, r | by exists r, l]. Qed.

Lemma plug_app t c1 c2 : plug t (c1 ++ c2) = plug (plug t c1) c2.
Proof. revert t. induction c1 as [| f c1 IH]; intros t; cbn; [done | apply IH]. Qed.

Lemma nodes_plug t t' c : nodes t = nodes t' -> nodes (plug t c) = nodes (plug t' c).
Proof.
  revert t t'. induction c as [| f c IH]; intros t t' Ht; cbn; [done |]. apply IH. destruct f as [[] p k sib]; cbn; by rewrite Ht.
Qed.

Lemma shape_plug t t' c : shape t = shape t' -> shape (plug t c) = shape (plug t' c).
Proof.
  revert t t'. induction c as [| f c IH]; intros t t' Ht; cbn; [done |]. apply IH. destruct f as [[] p k sib]; cbn; by rewrite Ht.
Qed.

Lemma nodes_shape t : nodes (shape t) = nodes t.
Proof. induction t as [| l IHl p k r IHr]; cbn; [done |]. by rewrite IHl, IHr. Qed.

Lemma shape_nodes t t' : shape t = shape t' -> nodes t = nodes t'.
Proof. intros Hs. by rewrite <- nodes_shape, Hs, nodes_shape. Qed.

Lemma nodes_bin_rank s a p k k' b : nodes (bin s a p k b) = nodes (bin s a p k' b).
Proof. by destruct s. Qed.

(** The parity tells a rank difference of one from one of two. *)
Lemma parity_diff k a : 1 <= k - a <= 2 -> eqb (Z.odd a) (Z.odd k) = (k - a =? 2).
Proof.
  intros Hd. assert (a = k - 1 \/ a = k - 2) as [-> | ->] by lia; rewrite Z.odd_sub; cbn.
  - destruct (Z.odd k); cbn; symmetry; apply Z.eqb_neq; lia.
  - destruct (Z.odd k); cbn; symmetry; apply Z.eqb_eq; lia.
Qed.

(** The test for a node that has become a 0,1-node by a promotion to [k + 1]
    of its child, as [balance_after_insert] has it. *)
Lemma zero_one_test K k s (px := Z.odd (k + 1)) (pp := Z.odd K) (ps := Z.odd s) :
  1 <= K - k <= 2 -> 1 <= K - s <= 2 ->
  (negb px || negb pp || ps) && (px || pp || negb ps) = negb ((K - k =? 1) && (K - s =? 1)).
Proof.
  intros H1 H2. subst px pp ps.
  assert (k = K - 1 \/ k = K - 2) as [-> | ->] by lia; assert (s = K - 1 \/ s = K - 2) as [-> | ->] by lia;
    rewrite ?Z.odd_add, ?Z.odd_sub; cbn; destruct (Z.odd K); cbn; symmetry;
    first [apply negb_true_iff, andb_false_iff | apply negb_false_iff, andb_true_iff]; rewrite ?Z.eqb_neq, ?Z.eqb_eq; lia.
Qed.

(** ** Steps at a position of a tree *)

Lemma sat_size {D} (w : WAVLTree D) c o ps : sat w c o ps -> (length (owned c ps) <= size (w_links w))%nat.
Proof.
  intros [Hc Hp Hn]. rewrite <- size_dom, <- (size_list_to_set (C := gset nptr)) by done.
  apply subseteq_size. intros q Hq. apply elem_of_list_to_set in Hq. apply elem_of_dom. revert Hq. unfold owned. rewrite elem_of_app.
  assert (Ht : forall up t, repr (w_links w) up t -> q ∈ nodes t -> is_Some (w_links w !! q)).
  { intros up t. revert up. induction t as [| l IHl p k r IHr]; intros up; cbn; [by intros _ ?%not_elem_of_nil |].
    rewrite elem_of_app, elem_of_cons. intros (? & Hl & Hr) [Hq | [-> | Hq]]; [eauto | by eexists | eauto]. }
  intros [Hq | Hq].
  - clear Hp Hn. revert o Hc Hq. induction c as [| f c IH]; intros o; cbn; [by intros _ ?%not_elem_of_nil |].
    rewrite elem_of_cons, elem_of_app. intros (? & Hs & Hc) [-> | [Hq | Hq]]; [by eexists | eauto | eauto].
  - clear Hc Hn. induction Hp as [| [p l | up t] ps Hx Hps IH]; cbn in Hq; [by apply not_elem_of_nil in Hq | |];
      rewrite ?elem_of_cons, ?elem_of_app in Hq; destruct Hq as [Hq | Hq]; eauto.
    rewrite Hq. by eexists.
Qed.

Lemma runs_fuel {D A} c o ps (f : nat -> W D A) a c' o' ps' :
  (forall n, (length (owned c ps) < n)%nat -> runs c o ps (f n) a c' o' ps') -> runs c o ps (fuel ← get_fuel; f fuel) a c' o' ps'.
Proof.
  intros Hf. destruct (Hf (S (length (owned c ps)))) as [Hp _]; [lia |]. split; [done |]. intros w Hs.
  destruct (Hf (S (size (w_links w)))) as [_ Hw]; [pose proof (sat_size _ _ _ _ Hs); lia |]. apply (Hw w Hs).
Qed.

Lemma ctx_length c ps : (length c <= length (owned c ps))%nat.
Proof. unfold owned. rewrite length_app. induction c as [| f c IH]; cbn; [lia |]. rewrite length_app. lia. Qed.

Lemma frame_parity f up o : rank_parity (frame_links f up o) = Z.odd (f_rank f).
Proof. by destruct f as [[] ???]. Qed.

Lemma frame_up f up o : l_up (frame_links f up o) = up.
Proof. by destruct f as [[] ???]. Qed.

Section steps.
Context {D : Type} (f : frame) (c : list frame).
#[local] Abbreviation runs := (runs (D := D)).

Lemma ctx_links o ps : runs (f :: c) o ps (links (f_ptr f)) (frame_links f (up_of c) o) (f :: c) o ps.
Proof. eapply runs_conseq; [apply same_frame | apply same_sym, same_frame | apply runs_links]. Qed.

Definition at_rank (k : Z) : frame := Frame (f_side f) (f_ptr f) k (f_sib f).

Lemma ctx_update o ps u k :
  (forall up l r, runs c (Some (f_ptr f)) (PNode (f_ptr f) (node_links up l (f_rank f) r) :: PTree (Some (f_ptr f)) (f_sib f) :: ps) u tt
     c (Some (f_ptr f)) (PNode (f_ptr f) (node_links up l k r) :: PTree (Some (f_ptr f)) (f_sib f) :: ps)) ->
  runs (f :: c) o ps u tt (at_rank k :: c) o ps.
Proof.
  intros Hu. eapply runs_conseq; [apply same_frame | apply same_sym, same_frame |].
  unfold frame_links. cbn. destruct (f_side f); apply Hu.
Qed.

Lemma ctx_promote o ps : 0 <= f_rank f < USIZE_MAX -> runs (f :: c) o ps (promote (f_ptr f)) tt (at_rank (f_rank f + 1) :: c) o ps.
Proof. intros Hk. apply ctx_update. intros. by apply runs_promote. Qed.

Lemma ctx_demote o ps : 1 <= f_rank f <= USIZE_MAX -> runs (f :: c) o ps (demote (f_ptr f)) tt (at_rank (f_rank f - 1) :: c) o ps.
Proof. intros Hk. apply ctx_update. intros. by apply runs_demote. Qed.

Lemma sib_links up o l p k r ps :
  f_sib f = N l p k r -> up = Some (f_ptr f) ->
  runs (f :: c) o ps (links p) (node_links up (root_of l) k (root_of r)) (f :: c) o ps.
Proof.
  intros Hs ->. eapply runs_conseq; [apply same_frame | apply same_sym, same_frame |]. rewrite Hs. open_before. open_after. run_all.
Qed.

Lemma sib_parity o ps : runs (f :: c) o ps (get_link_parity (root_of (f_sib f))) (Z.odd (rk (f_sib f))) (f :: c) o ps.
Proof. eapply runs_conseq; [apply same_frame | apply same_sym, same_frame | run_all]. Qed.
End steps.

(** The rule of a node, from what is known of its ranks. *)
Ltac wavl_solve := repeat (apply wavl_bin; split; [| split]); rewrite ?rk_bin; try done; unfold node_ok in *; lia.

Ltac nodes_eq := cbn; repeat (rewrite <- app_assoc; cbn); done.

Section balance.
Context {D : Type} {L : Linked D} {Au : Augmentation D}.
#[local] Abbreviation runs := (runs (D := D)).
#[local] Abbreviation hruns := (hruns (D := D)).

Lemma tree_links c o up l p k r ps :
  runs c o (PTree up (N l p k r) :: ps) (links p) (node_links up (root_of l) k (root_of r)) c o (PTree up (N l p k r) :: ps).
Proof. open_before. open_after. run_all. Qed.

Lemma bin_links c o s a p k b ps :
  runs c o (PTree (up_of c) (bin s a p k b) :: ps) (links p) (frame_links (Frame s p k b) (up_of c) (root_of a)) c o
       (PTree (up_of c) (bin s a p k b) :: ps).
Proof. destruct s; apply tree_links. Qed.

(** The sibling of the position, where one of both exists. *)
Lemma get_sibling_ok f c t ps :
  t <> E \/ f_sib f <> E ->
  runs (f :: c) (root_of t) (PTree (Some (f_ptr f)) t :: ps) (get_sibling (root_of t) (f_ptr f))
       (root_of (f_sib f), opposite (f_side f)) (f :: c) (root_of t) (PTree (Some (f_ptr f)) t :: ps).
Proof.
  intros Hne. unfold get_sibling. eapply runs_bind.
  { destruct t as [| l p k r]; [apply runs_ret |]. link_cbn. eapply runs_bind; [apply tree_links |]. by apply runs_assert, bool_decide_true. }
  eapply runs_bind; [apply ctx_links |].
  apply (runs_fact (root_of (f_sib f) <> root_of t)); [| done | intros Hrt].
  - intros w Hs. destruct t as [| l p k r]; [destruct (f_sib f); [tauto | done] |]. cbn [root_of].
    apply (sat_sib_ne _ _ _ _ _ _ Hs). cbn. rewrite !elem_of_app, elem_of_cons. auto.
  - eapply runs_post; [apply same_refl |]. destruct f as [[] p k sib]; cbn [f_sib] in Hrt; link_cbn.
    + rewrite bool_decide_true by done. apply runs_ret.
    + rewrite bool_decide_false by done. apply runs_ret.
Qed.

(** ** Insertion *)

(** How the promotions end: at the root with the rule restored, or at a node
    [x] of which one child has a rank difference of one and the other of two,
    below a parent where the rule holds or [x] is a 0-child beside a 2-child. *)
Definition promoted (res : option (nptr * bool * bool * bool * Side)) (c : list frame) (t : tree) : Prop :=
  match res with
  | None => c = [] /\ wavl t
  | Some (x, par_x, par_parent, par_sibling, side) =>
      exists s a k b f c', t = bin s a x k b /\ c = f :: c' /\ k - rk a = 1 /\ k - rk b = 2 /\ wavl a /\ wavl b
        /\ wavl (f_sib f) /\ ctx_ok c' (f_rank f)
        /\ par_x = Z.odd k /\ par_parent = Z.odd (f_rank f) /\ par_sibling = Z.odd (rk (f_sib f)) /\ side = opposite (f_side f)
        /\ (f_rank f = k + 1 /\ 1 <= f_rank f - rk (f_sib f) <= 2 \/ f_rank f = k /\ f_rank f - rk (f_sib f) = 2)
  end.

(** One round below the root. *)
Lemma promote_loop_up f f2 c t n ps res c' o' ps' (t1 := fill (at_rank f (f_rank f + 1)) t)
    (par_x := Z.odd (f_rank f + 1)) (par_parent := Z.odd (f_rank f2)) (par_sibling := Z.odd (rk (f_sib f2))) :
  0 <= f_rank f < USIZE_MAX ->
  runs (f2 :: c) (root_of t1) (PTree (Some (f_ptr f2)) t1 :: ps)
    (if (negb par_x || negb par_parent || par_sibling) && (par_x || par_parent || negb par_sibling)
     then mret (Some (f_ptr f, par_x, par_parent, par_sibling, opposite (f_side f2)))
     else promote_loop n (f_ptr f2)) res c' o' ps' ->
  runs (f :: f2 :: c) (root_of t) (PTree (Some (f_ptr f)) t :: ps) (promote_loop (S n) (f_ptr f)) res c' o' ps'.
Proof.
  intros Hk Hr. cbn [promote_loop]. set (f1 := at_rank f (f_rank f + 1)) in *.
  eapply runs_bind; [apply ctx_promote; lia |]. eapply runs_bind; [apply (ctx_links f1) |].
  rewrite frame_up. cbn [up_of].
  eapply runs_pre; [apply (same_fill f1) |].
  eapply runs_bind; [apply (bin_links (f2 :: c)) |]. eapply runs_bind; [apply ctx_links |].
  rewrite !frame_parity. cbv zeta. cbn [f_rank].
  replace (Some (f_ptr f)) with (root_of t1) by apply root_bin.
  eapply runs_bind; [apply get_sibling_ok; left; by destruct f as [[] ???] |].
  cbv beta iota. eapply runs_bind; [apply sib_parity | apply Hr].
Qed.

Lemma promote_loop_ok c f t :
  wavl t -> rk t = f_rank f -> f_rank f - rk (f_sib f) = 1 -> wavl (f_sib f) -> ctx_ok c (f_rank f) -> small (f :: c) ->
  exists res c1 t1,
    (forall n ps, (length c < n)%nat ->
      runs (f :: c) (root_of t) (PTree (Some (f_ptr f)) t :: ps) (promote_loop n (f_ptr f)) res
           c1 (root_of t1) (PTree (up_of c1) t1 :: ps))
    /\ shape (plug t1 c1) = shape (plug (fill f t) c) /\ small c1 /\ promoted res c1 t1.
Proof.
  revert f t. induction c as [| f2 c IH]; intros f t Ht Hk Hsib Hws Hc Hsm;
    inversion_clear Hsm as [| ?? Hkm Hsm']; pose proof (wavl_rk _ Ht) as Ht0; pose proof (wavl_rk _ Hws) as Hs0;
    set (f1 := at_rank f (f_rank f + 1)); set (t1 := fill f1 t).
  - exists None, [], t1. split; [| split; [by destruct f as [[] ???] |]].
    + intros [| n] ps Hn; [cbn in Hn; lia |]. cbn [promote_loop]. eapply runs_bind; [apply ctx_promote; lia |].
      eapply runs_bind; [apply (ctx_links f1) |]. eapply runs_post; [apply (same_fill f1) |].
      unfold frame_links. destruct (f_side f1); apply runs_ret.
    + split; [constructor |]. split; [done |]. apply wavl_bin. cbn. unfold node_ok. repeat split; try done; lia.
  - cbn in Hc. destruct Hc as ((Hd1 & Hd2 & Hd3) & Hws2 & Hc2).
    assert (Hw1 : wavl t1) by (apply wavl_bin; cbn; unfold node_ok; repeat split; try done; lia).
    assert (Hr1 : rk t1 = f_rank f + 1) by apply rk_bin.
    assert (Hn1 : shape (plug t1 (f2 :: c)) = shape (plug (fill f t) (f2 :: c))) by (apply shape_plug; by destruct f as [[] ???]).
    pose proof (zero_one_test _ _ _ Hd1 Hd2) as Htest. destruct ((f_rank f2 - f_rank f =? 1) && (f_rank f2 - rk (f_sib f2) =? 1)) eqn:Hb.
    + apply andb_true_iff in Hb as [Hb1%Z.eqb_eq Hb2%Z.eqb_eq].
      destruct (IH f2 t1) as (res & c1 & t2 & Hrun & Hnd & Hsm2 & Hres); try done; [lia |].
      exists res, c1, t2. split; [| split; [by rewrite Hnd | done]].
      intros [| n] ps Hn; [cbn in Hn; lia |]. apply promote_loop_up; [lia |]. rewrite Htest. apply Hrun. cbn in Hn; lia.
    + exists (Some (f_ptr f, Z.odd (f_rank f + 1), Z.odd (f_rank f2), Z.odd (rk (f_sib f2)), opposite (f_side f2))), (f2 :: c), t1.
      split; [| split; [done | split; [done |]]].
      * intros [| n] ps Hn; [cbn in Hn; lia |]. apply promote_loop_up; [lia |]. rewrite Htest. apply runs_ret.
      * exists (f_side f), t, (f_rank f + 1), (f_sib f), f2, c. apply andb_false_iff in Hb. rewrite !Z.eqb_neq in Hb.
        repeat split; try done; lia.
Qed.

(** The rotation that ends the rebalancing, at the 0-child [x]. *)
Lemma bin_opposite s a p k b : bin (opposite s) a p k b = bin s b p k a.
Proof. by destruct s. Qed.

Lemma frame_child f up o : child (frame_links f up o) (f_side f) = o /\ child (frame_links f up o) (opposite (f_side f)) = root_of (f_sib f).
Proof. by destruct f as [[] ???]. Qed.

Lemma inner_parity c o up s A x k Y ps :
  runs c o (PTree up (bin s A x k Y) :: ps)
    (match root_of Y with
     | Some y => y_links ← links y; mret (Some (y, rank_parity y_links))
     | None => mret None
     end)
    (match Y with E => None | N _ y ky _ => Some (y, Z.odd ky) end) c o (PTree up (bin s A x k Y) :: ps).
Proof.
  destruct Y as [| l y ky r]; cbn [root_of]; [apply runs_ret |]. destruct s; link_cbn; open_before; open_after; run_all.
Qed.

Lemma same_fill_bin c s z k C s' a x k' b ps :
  sameps (Frame s z k C :: c) (Some x) (PTree (Some z) (bin s' a x k' b) :: ps)
         c (Some z) (PTree (up_of c) (bin s (bin s' a x k' b) z k C) :: ps).
Proof. pose proof (same_fill (Frame s z k C) c (bin s' a x k' b) ps) as Hs. unfold fill in Hs. cbn in Hs. by rewrite !root_bin in Hs. Qed.

(** What the rebalancing as a whole does: from the position it leads to a
    valid tree of the same nodes, with the users' invariant. *)
Definition rebalances (c : list frame) (t : tree) (m : W D unit) : Prop :=
  exists T, wavl T /\ nodes T = nodes (plug t c) /\
    forall ps, hruns (inv (plug t c)) c (root_of t) (PTree (up_of c) t :: ps) m tt (inv T) [] (root_of T) (PTree None T :: ps).

Lemma plug_hruns c t t1 c1 (m : W D unit) :
  nodes (plug t1 c1) = nodes (plug t c) -> wavl t1 -> ctx_ok c1 (rk t1) ->
  (forall ps, hruns (inv (plug t c)) c (root_of t) (PTree (up_of c) t :: ps) m tt
                (inv (plug t1 c1)) c1 (root_of t1) (PTree (up_of c1) t1 :: ps)) -> rebalances c t m.
Proof.
  intros Hn Hw Hc Hr. exists (plug t1 c1). split; [by apply wavl_plug |]. split; [done |]. intros ps. eapply hruns_post; [| apply Hr].
  pose proof (same_plug c1 [] t1 ps) as Hp. rewrite app_nil_r in Hp. done.
Qed.

Lemma plug_runs c t t1 c1 (m : W D unit) :
  shape (plug t1 c1) = shape (plug t c) -> wavl t1 -> ctx_ok c1 (rk t1) ->
  (forall ps, runs c (root_of t) (PTree (up_of c) t :: ps) m tt c1 (root_of t1) (PTree (up_of c1) t1 :: ps)) -> rebalances c t m.
Proof.
  intros Hn Hw Hc Hr. eapply plug_hruns; [by apply shape_nodes | done | done |]. intros ps.
  eapply runs_hruns, Hr. intros d. by apply inv_shape.
Qed.

Lemma rebalances_bind {A} c t (m : W D A) (f : A -> W D unit) a c1 t1 :
  shape (plug t1 c1) = shape (plug t c) ->
  (forall ps, runs c (root_of t) (PTree (up_of c) t :: ps) m a c1 (root_of t1) (PTree (up_of c1) t1 :: ps)) ->
  rebalances c1 t1 (f a) -> rebalances c t (m ≫= f).
Proof.
  intros Hn Hm (T & HT & HnT & Hr). exists T. split; [done |]. split; [rewrite HnT; by apply shape_nodes |]. intros ps.
  eapply hruns_bind; [eapply runs_hruns, Hm | apply Hr]. intros d. by apply inv_shape.
Qed.

Lemma hruns_fuel {A} P Q c o ps (f : nat -> W D A) a c' o' ps' :
  (forall n, (length (owned c ps) < n)%nat -> hruns P c o ps (f n) a Q c' o' ps') -> hruns P c o ps (fuel ← get_fuel; f fuel) a Q c' o' ps'.
Proof.
  intros Hf. destruct (Hf (S (length (owned c ps)))) as [Hp _]; [lia |]. split; [done |]. intros w Hs.
  destruct (Hf (S (size (w_links w)))) as [_ Hw]; [pose proof (sat_size _ _ _ _ Hs); lia |]. apply (Hw w Hs).
Qed.

Lemma rebalances_loop {A} c t (loop : nat -> W D A) (f : A -> W D unit) a c1 t1 :
  shape (plug t1 c1) = shape (plug t c) ->
  (forall n ps, (length c < n)%nat -> runs c (root_of t) (PTree (up_of c) t :: ps) (loop n) a c1 (root_of t1) (PTree (up_of c1) t1 :: ps)) ->
  rebalances c1 t1 (f a) -> rebalances c t (fuel ← get_fuel; r ← loop fuel; f r).
Proof.
  intros Hn Hm (T & HT & HnT & Hr). exists T. split; [done |]. split; [rewrite HnT; by apply shape_nodes |]. intros ps.
  apply hruns_fuel. intros n Hlt. pose proof (ctx_length c (PTree (up_of c) t :: ps)).
  eapply hruns_bind; [eapply runs_hruns, Hm; [| lia] | apply Hr]. intros d. by apply inv_shape.
Qed.

Lemma rebalances_ret c t : wavl t -> ctx_ok c (rk t) -> rebalances c t (mret tt).
Proof. intros Ht Hc. apply (plug_runs c t t c); [done | done | done |]. intros ps. apply runs_ret. Qed.

Lemma rebalances_local f c t t' (m : W D unit) :
  ctx_ok c (f_rank f) -> wavl t' -> rk t' = f_rank f -> nodes t' = nodes (fill f t) ->
  (forall ps, hruns (inv (plug (fill f t) c)) (f :: c) (root_of t) (PTree (Some (f_ptr f)) t :: ps) m tt
                (inv (plug t' c)) c (root_of t') (PTree (up_of c) t' :: ps)) ->
  rebalances (f :: c) t m.
Proof. intros Hc Hw Hk Hn Hr. apply (plug_hruns _ _ t' c); [cbn; by apply nodes_plug | done | by rewrite Hk | done]. Qed.

Section insert_rotation.
Context (s : Side) (A : tree) (x : nptr) (k : Z) (z : nptr) (C : tree) (c : list frame).
Context (HA : wavl A) (HC : wavl C) (HkC : k - rk C = 2) (Hk : 1 <= k < USIZE_MAX) (Hc : ctx_ok c k).

Lemma insert_rotation_single Y :
  wavl Y -> k - rk A = 1 -> k - rk Y = 2 ->
  rebalances (Frame s z k C :: c) (bin s A x k Y) (insert_rotation x (Z.odd k) (opposite s)).
Proof.
  intros HY HkA HkY. apply (rebalances_local _ _ _ (bin s A x k (bin s Y z (k - 1) C))); [done | wavl_solve | apply rk_bin | destruct s; nodes_eq |].
  intros ps. rewrite !root_bin.
  unfold insert_rotation. eapply hruns_step; [apply (bin_links (Frame s z k C :: c)) |]. rewrite frame_up.
  eapply hruns_step; [by apply runs_assert, bool_decide_true |]. destruct (frame_child (Frame s x k Y) (Some z) (root_of A)) as [_ Hch].
  cbn [f_side f_sib up_of f_ptr] in Hch |- *. rewrite Hch. eapply hruns_step; [apply inner_parity |].
  eapply hruns_pre; [apply same_fill_bin |]. eapply hruns_bind.
  { assert (Hrot := rotate_at_ok c s A x k Y z k C ps). destruct Y as [| l y ky r]; [apply Hrot |].
    cbn in HkY. replace ky with (k - 2) in * by lia. rewrite Z.odd_sub, xorb_false_r, eqb_reflx. apply Hrot. }
  eapply runs_hruns; [intros d; apply inv_shape, shape_plug; by destruct s |].
  destruct s; link_cbn; open_before; open_after; run_all.
Qed.

Lemma insert_rotation_double B y F :
  wavl (bin s B y (k - 1) F) -> k - rk A = 2 ->
  rebalances (Frame s z k C :: c) (bin s A x k (bin s B y (k - 1) F)) (insert_rotation x (Z.odd k) (opposite s)).
Proof.
  intros (HkY & HB & HF)%wavl_bin HkA. pose proof (wavl_rk _ HB). pose proof (wavl_rk _ HF).
  apply (rebalances_local _ _ _ (bin s (bin s A x (k - 1) B) y k (bin s F z (k - 1) C))); [done | wavl_solve | apply rk_bin | destruct s; nodes_eq |].
  intros ps. rewrite !root_bin.
  unfold insert_rotation. eapply hruns_step; [apply (bin_links (Frame s z k C :: c)) |]. rewrite frame_up.
  eapply hruns_step; [by apply runs_assert, bool_decide_true |]. destruct (frame_child (Frame s x k (bin s B y (k - 1) F)) (Some z) (root_of A)) as [_ Hch].
  cbn [f_side f_sib up_of f_ptr] in Hch |- *. rewrite Hch. eapply hruns_step; [apply inner_parity |].
  eapply hruns_pre; [apply same_fill_bin |].
  replace (match bin s B y (k - 1) F with E => None | N _ y ky _ => Some (y, Z.odd ky) end) with (Some (y, Z.odd (k - 1))) by (by destruct s).
  rewrite parity_diff by lia. replace (k - (k - 1) =? 2) with false by (symmetry; apply Z.eqb_neq; lia). cbn [negb].
  assert (Hrot := double_rotate_at_ok c s A x k B y (k - 1) F z k C ps).
  destruct s;
    (eapply hruns_bind; [eapply hruns_bind; [apply Hrot |]; eapply runs_hruns; [intros d Hd; apply Hd |]; link_cbn; open_before; run; prim |]);
    (eapply runs_hruns; [intros d; by apply inv_shape, shape_plug |]);
    link_cbn; open_after; replace (k - 1 + 1) with k by lia; run_all.
Qed.
End insert_rotation.

Lemma balance_after_insert_ok x f c :
  f_sib f = E -> f_rank f = 0 -> ctx_ok c 0 -> small (f :: c) ->
  rebalances (f :: c) (N E x 0 E) (balance_after_insert x).
Proof.
  intros Hsib Hk Hc Hsm. set (t := N E x 0 E). assert (Ht : wavl t) by (cbn; unfold node_ok; lia).
  destruct (promote_loop_ok c f t) as (res & c1 & t1 & Hrun & Hn & Hsm1 & Hres); try done; try (rewrite ?Hsib, ?Hk; done).
  eapply (rebalances_bind _ _ (links x) _ _ (f :: c) t); [done | intros; apply tree_links |]. cbn [node_links l_up unwrap up_of].
  eapply (rebalances_bind _ _ (mret _) _ _ (f :: c) t); [done | intros; apply runs_ret |].
  eapply rebalances_loop; [done | intros; apply Hrun; cbn in *; lia |].
  destruct res as [[[[[x' px] pp] psib] side] |]; [| destruct Hres as [-> Hw]; by apply rebalances_ret].
  destruct Hres as (s & a & k & b & f1 & c2 & -> & -> & Hka & Hkb & Ha & Hb & Hs1 & Hc1 & -> & -> & -> & -> & Hcase).
  pose proof (wavl_rk _ Hb) as Hb0. pose proof (wavl_rk _ Hs1) as Hs0. inversion_clear Hsm1 as [| ?? Hf1 Hsm2].
  destruct Hcase as [[Hf Hd] | [Hf Hd]].
  - rewrite Hf, (Z.odd_add k 1). replace (eqb (Z.odd k) _) with false by (by destruct (Z.odd k)). cbn [negb orb].
    apply rebalances_ret; [wavl_solve |]. rewrite rk_bin. cbn. unfold node_ok. rewrite Hf in *. repeat split; try done; lia.
  - rewrite Hf. replace (rk (f_sib f1)) with (k - 2) by lia. rewrite Z.odd_sub, xorb_false_r, !eqb_reflx. cbn [negb orb].
    destruct f1 as [fs z kz C]; cbn [f_side f_ptr f_rank f_sib] in *. subst kz.
    assert (s = fs \/ s = opposite fs) as [-> | ->] by (destruct s, fs; auto).
    + apply insert_rotation_single; done || lia.
    + rewrite bin_opposite. destruct (wavl_node a Ha ltac:(lia)) as (y & Hy). destruct (Hy fs) as (B & F & Hae).
      replace (rk a) with (k - 1) in Hae by lia. rewrite Hae in *. apply insert_rotation_double; done || lia.
Qed.
End balance.
