(* ===== verification/WavlShrink.v ===== *)
(** * Rebalancing after a removal

    The demotions and the rotation that follow the removal of a node restore
    the rank rule; the removal of a node as a whole. *)

From stdpp Require Import base numbers list gmap.
From Stdlib Require Import ZArith Lia.
From S2P Require Import Prelude WavlTree WavlRepr WavlBalance.

Section shrink.
Context {D : Type} {L : Linked D} {Au : Augmentation D}.
#[local] Abbreviation runs := (runs (D := D)).
#[local] Abbreviation hruns := (hruns (D := D)).

Lemma is_22_node_ok c o up l y ky r ps :
  wavl (N l y ky r) -> 1 <= ky ->
  runs c o (PTree up (N l y ky r) :: ps) (is_22_node (node_links up (root_of l) ky (root_of r))) ((ky - rk l =? 2) && (ky - rk r =? 2))
       c o (PTree up (N l y ky r) :: ps).
Proof.
  intros ((Hdl & Hdr & _) & Hl & Hr) Hky. pose proof (parity_diff _ _ Hdl) as Hpl. pose proof (parity_diff _ _ Hdr) as Hpr.
  rewrite <- Hpl, <- Hpr. unfold is_22_node. cbn [rank_parity node_links l_left l_right]. destruct (Z.odd ky) eqn:Hodd.
  - open_before. open_after. eapply runs_bind; [prim | link_cbn]. destruct (Z.odd (rk l)); cbn [eqb andb]; [| run_all].
    replace (eqb (Z.odd (rk r)) true) with (Z.odd (rk r)) by (by destruct (Z.odd (rk r))). run_all.
  - destruct l as [| ll pl kl lr]; [cbn in Hdl; assert (ky = 1) as -> by lia; done |].
    destruct r as [| rl pr kr rr]; [cbn in Hdr; assert (ky = 1) as -> by lia; done |].
    open_before. open_after. link_cbn. run. run.
    replace (negb (Z.odd kl) && negb (Z.odd kr)) with (eqb (Z.odd kl) false && eqb (Z.odd kr) false) by (by destruct (Z.odd kl), (Z.odd kr)). run_all.
Qed.

Lemma sib_22_ok f c o l y ky r ps :
  f_sib f = N l y ky r -> wavl (N l y ky r) -> 1 <= ky ->
  runs (f :: c) o ps (is_22_node (node_links (Some (f_ptr f)) (root_of l) ky (root_of r))) ((ky - rk l =? 2) && (ky - rk r =? 2)) (f :: c) o ps.
Proof.
  intros Hs Hw Hk. eapply runs_conseq; [apply same_frame | apply same_sym, same_frame |]. rewrite Hs.
  eapply runs_conseq; [apply eqp_same, eqp_perm, Permutation_swap | apply eqp_same, eqp_perm, Permutation_swap |].
  by apply is_22_node_ok.
Qed.

Lemma ctx_links2 f f2 c o ps :
  runs (f :: f2 :: c) o ps (links (f_ptr f2)) (frame_links f2 (up_of c) (Some (f_ptr f))) (f :: f2 :: c) o ps.
Proof. eapply runs_conseq; [apply same_frame | apply same_sym, same_frame | apply ctx_links]. Qed.

(** The node and its child on the side [s] with their ranks lowered by one. *)
Definition lower (t : tree) : tree := match t with E => E | N l p k r => N l p (k - 1) r end.

Definition is_22 (t : tree) : bool := match t with E => false | N l _ k r => (k - rk l =? 2) && (k - rk r =? 2) end.

(** The frame after a round. *)
Definition demoted_frame (f : frame) : frame :=
  Frame (f_side f) (f_ptr f) (f_rank f - 1) (if f_rank f - rk (f_sib f) =? 2 then f_sib f else lower (f_sib f)).

Lemma demote_round_ok f c o ps :
  wavl (f_sib f) -> 2 <= f_rank f < USIZE_MAX -> 1 <= f_rank f - rk (f_sib f) <= 2 ->
  let b := (f_rank f - rk (f_sib f) =? 2) || is_22 (f_sib f) in
  runs (f :: c) o ps (demote_round (f_ptr f) (frame_links f (up_of c) o) (root_of (f_sib f))) b
       ((if b then demoted_frame f else f) :: c) o ps.
Proof.
  intros Hw Hk Hd b. unfold demote_round. eapply runs_bind; [apply sib_parity |]. rewrite frame_parity, parity_diff by done.
  destruct (f_rank f - rk (f_sib f) =? 2) eqn:H2; subst b; cbn [orb].
  - unfold demoted_frame. rewrite H2. eapply runs_bind; [apply ctx_demote; lia | apply runs_ret].
  - apply Z.eqb_neq in H2. unfold demoted_frame. rewrite (proj2 (Z.eqb_neq _ _)) by lia.
    destruct f as [s z k [| l y ky r]]; cbn [f_side f_ptr f_rank f_sib rk lower is_22 root_of] in *; [lia |]. cbn [unwrap].
    eapply runs_bind; [apply runs_ret |]. eapply runs_bind; [by apply (sib_links (Frame s z k (N l y ky r))) |].
    eapply runs_bind; [apply (sib_22_ok (Frame s z k (N l y ky r)) c o l y); done || lia |].
    destruct ((ky - rk l =? 2) && (ky - rk r =? 2)); [| apply runs_ret].
    eapply runs_conseq; [apply (same_frame (Frame s z k (N l y ky r))) | apply same_sym, same_frame |].
    destruct s; link_cbn; open_before; open_after; run_all.
Qed.

(** How the demotions end: with the rule restored, or with a 3-child beside a
    1-child that is no 2,2-node. *)
Definition demoted (res : option (Link * nptr)) (c : list frame) (t : tree) : Prop :=
  match res with
  | None => wavl t /\ ctx_ok c (rk t)
  | Some (x, z) =>
      exists f c', c = f :: c' /\ x = root_of t /\ z = f_ptr f /\ wavl t /\ wavl (f_sib f) /\ ctx_ok c' (f_rank f)
        /\ f_rank f - rk t = 3 /\ f_rank f - rk (f_sib f) = 1 /\ is_22 (f_sib f) = false
  end.

Lemma demoted_frame_ok f t :
  wavl t -> wavl (f_sib f) -> f_rank f - rk t = 3 -> 1 <= f_rank f - rk (f_sib f) <= 2 ->
  (f_rank f - rk (f_sib f) =? 2) || is_22 (f_sib f) = true ->
  wavl (fill (demoted_frame f) t) /\ rk (fill (demoted_frame f) t) = f_rank f - 1
  /\ shape (fill (demoted_frame f) t) = shape (fill f t).
Proof.
  intros Ht Hw Hd3 Hd Hb. pose proof (wavl_rk _ Ht). unfold demoted_frame, fill. cbn. rewrite wavl_bin, rk_bin.
  destruct (f_rank f - rk (f_sib f) =? 2) eqn:H2; [apply Z.eqb_eq in H2; unfold node_ok; repeat split; try done; try lia; by destruct (f_side f) |].
  apply Z.eqb_neq in H2. destruct (f_sib f) as [| l y ky r] eqn:Hs; [done |]. cbn in *. apply andb_true_iff in Hb as [Hb1%Z.eqb_eq Hb2%Z.eqb_eq].
  destruct Hw as (Hok & Hl & Hr). pose proof (wavl_rk _ Hl). unfold node_ok in *.
  repeat split; try done; try lia. by destruct (f_side f).
Qed.

(** The first part of a round: the sibling and whether [z] is a 2-child. *)
Definition creates_3 (f : frame) (c : list frame) : bool :=
  match c with [] => false | f2 :: _ => f_rank f2 - f_rank f =? 2 end.

Lemma demote_loop_round f c t n ps res c' o' ps' :
  t <> E \/ f_sib f <> E -> ctx_ok c (f_rank f) ->
  runs (f :: c) (root_of t) (PTree (Some (f_ptr f)) t :: ps)
    (continue ← demote_round (f_ptr f) (frame_links f (up_of c) (root_of t)) (root_of (f_sib f));
     if continue : bool then
       z_links ← links (f_ptr f);
       match l_up z_links with
       | Some parent => if creates_3 f c then demote_loop n (Some (f_ptr f)) parent else mret None
       | None => mret None
       end
     else mret (Some (root_of t, f_ptr f))) res c' o' ps' ->
  runs (f :: c) (root_of t) (PTree (Some (f_ptr f)) t :: ps) (demote_loop (S n) (root_of t) (f_ptr f)) res c' o' ps'.
Proof.
  intros Hne Hc Hr. cbn [demote_loop]. eapply runs_bind; [apply ctx_links |].
  apply (runs_fact (root_of (f_sib f) <> root_of t)).
  { intros w Hs. destruct t as [| l p k r]; [destruct (f_sib f); [tauto | done] |].
    apply (sat_sib_ne _ _ _ _ _ _ Hs). cbn. rewrite !elem_of_app, elem_of_cons. auto. }
  { apply Hr. }
  intros Hrt.
  set (y := if bool_decide (l_left (frame_links f (up_of c) (root_of t)) = root_of t) then _ else _).
  assert (y = root_of (f_sib f)) as ->.
  { unfold y. destruct f as [[] z k sib]; cbn; [by rewrite bool_decide_true | by rewrite bool_decide_false]. }
  eapply runs_bind; [| apply Hr]. rewrite frame_up. destruct c as [| f2 c]; [apply runs_ret |]. cbn [up_of].
  eapply runs_bind; [apply ctx_links2 |]. rewrite !frame_parity. destruct Hc as ((Hd & _) & _). cbn [creates_3]. rewrite <- parity_diff by done.
  replace (eqb (Z.odd (f_rank f2)) (Z.odd (f_rank f))) with (eqb (Z.odd (f_rank f)) (Z.odd (f_rank f2))) by (by destruct (Z.odd (f_rank f)), (Z.odd (f_rank f2))).
  apply runs_ret.
Qed.

Ltac round Hb :=
  intros [| n] ps Hn; [cbn in Hn; lia |]; apply demote_loop_round; [done | done |];
  eapply runs_bind; [apply demote_round_ok; done || lia |]; rewrite Hb.

Lemma demote_loop_ok c f t :
  wavl t -> wavl (f_sib f) -> f_rank f - rk t = 3 -> 1 <= f_rank f - rk (f_sib f) <= 2 -> ctx_ok c (f_rank f) -> small (f :: c) ->
  exists res c1 t1,
    (forall n ps, (length c < n)%nat ->
      runs (f :: c) (root_of t) (PTree (Some (f_ptr f)) t :: ps) (demote_loop n (root_of t) (f_ptr f)) res
           c1 (root_of t1) (PTree (up_of c1) t1 :: ps))
    /\ shape (plug t1 c1) = shape (plug (fill f t) c) /\ small c1 /\ demoted res c1 t1.
Proof.
  revert f t. induction c as [| f2 c IH]; intros f t Ht Hws Hd3 Hd Hc Hsm;
    inversion_clear Hsm as [| ?? Hkm Hsm']; pose proof (wavl_rk _ Ht) as Ht0;
    assert (Hne : t <> E \/ f_sib f <> E) by (right; intros He; rewrite He in Hd; cbn in Hd; lia);
    destruct ((f_rank f - rk (f_sib f) =? 2) || is_22 (f_sib f)) eqn:Hb.
  - destruct (demoted_frame_ok f t) as (Hw1 & Hr1 & Hn1); try done. exists None, [], (fill (demoted_frame f) t).
    split; [| split; [done | split; [constructor | by split]]]. round Hb.
    eapply runs_bind; [apply (ctx_links (demoted_frame f)) |]. rewrite frame_up. cbn [up_of].
    eapply runs_post; [apply (same_fill (demoted_frame f)) | apply runs_ret].
  - exists (Some (root_of t, f_ptr f)), [f], t. split; [round Hb; apply runs_ret |].
    split; [done |]. split; [by constructor |]. apply orb_false_iff in Hb as [Hb1%Z.eqb_neq Hb2]. exists f, []. repeat split; try done; lia.
  - destruct (demoted_frame_ok f t) as (Hw1 & Hr1 & Hn1); try done.
    assert (Hn2 : shape (plug (fill (demoted_frame f) t) (f2 :: c)) = shape (plug (fill f t) (f2 :: c))) by (by apply shape_plug).
    pose proof Hc as ((Hd1 & Hd2 & _) & Hws2 & Hc2). destruct (f_rank f2 - f_rank f =? 2) eqn:H3.
    + apply Z.eqb_eq in H3. destruct (IH f2 (fill (demoted_frame f) t)) as (res & c1 & t1 & Hrun & Hnd & Hsm1 & Hres); try done; [lia |].
      exists res, c1, t1. split; [| by rewrite Hnd]. round Hb.
      eapply runs_bind; [apply (ctx_links (demoted_frame f)) |]. rewrite frame_up. cbn [up_of creates_3]. rewrite H3, Z.eqb_refl.
      eapply runs_pre; [apply (same_fill (demoted_frame f)) |]. replace (Some (f_ptr f)) with (root_of (fill (demoted_frame f) t)) by apply root_bin.
      apply Hrun. cbn in Hn. lia.
    + exists None, (f2 :: c), (fill (demoted_frame f) t). split; [| split; [done | split; [done |]]].
      * round Hb. eapply runs_bind; [apply (ctx_links (demoted_frame f)) |]. rewrite frame_up. cbn [up_of creates_3]. rewrite H3.
        eapply runs_post; [apply (same_fill (demoted_frame f)) | apply runs_ret].
      * apply Z.eqb_neq in H3. split; [done |]. rewrite Hr1. cbn. unfold node_ok. repeat split; try done; lia.
  - exists (Some (root_of t, f_ptr f)), (f :: f2 :: c), t. split; [round Hb; apply runs_ret |].
    split; [done |]. split; [by constructor |]. apply orb_false_iff in Hb as [Hb1%Z.eqb_neq Hb2]. exists f, (f2 :: c). repeat split; try done; try lia; apply Hc.
Qed.

Lemma root_none t : wavl t -> bool_decide (root_of t = None) = (rk t =? -1).
Proof.
  destruct t as [| l p k r]; [done |]. cbn. unfold node_ok. intros (? & Hl%wavl_rk & _). symmetry. apply Z.eqb_neq. lia.
Qed.

(** The position of the 3-child, the sibling being on the side [o]. *)
Definition at_3_child (o : Side) (U : tree) (y : nptr) (k : Z) (z : nptr) (V : tree) : frame :=
  Frame (opposite o) z k (bin o U y (k - 1) V).

Lemma fill_3_child o U y k z V X : fill (at_3_child o U y k z V) X = bin o (bin o U y (k - 1) V) z k X.
Proof. by destruct o. Qed.

Lemma same_3_child o U y k z V X c ps :
  sameps (at_3_child o U y k z V :: c) (root_of X) (PTree (Some z) X :: ps) c (Some z) (PTree (up_of c) (bin o (bin o U y (k - 1) V) z k X) :: ps).
Proof. destruct o; [apply (same_fill (at_3_child Left U y k z V) c X) | apply (same_fill (at_3_child Right U y k z V) c X)]. Qed.

Section remove_rotation.
Context (o : Side) (U : tree) (y : nptr) (k : Z) (z : nptr) (X : tree) (c : list frame).
Context (HU : wavl U) (HX : wavl X) (HkX : k - rk X = 3) (Hk : 2 <= k < USIZE_MAX) (Hc : ctx_ok c k).

(** Up to the rotation. *)
Lemma remove_rotation_probe P Q V ps c' o' ps' :
  hruns P (at_3_child o U y k z V :: c) (root_of X) (PTree (Some z) X :: ps)
    (if negb (eqb (Z.odd (rk U)) (Z.odd (k - 1))) then
       _ ← rotate_at y (opposite o); _ ← promote y; _ ← demote z; z_links ← links z; if is_leaf z_links then demote z else mret tt
     else
       v ← unwrap (root_of V); _ ← double_rotate_at v (opposite o); _ ← double_promote v; _ ← demote y; double_demote z) tt Q c' o' ps' ->
  hruns P (at_3_child o U y k z V :: c) (root_of X) (PTree (Some z) X :: ps) (remove_rotation (root_of X) z) tt Q c' o' ps'.
Proof.
  intros Hr. unfold remove_rotation. set (f := at_3_child o U y k z V) in *.
  eapply hruns_step; [apply (get_sibling_ok f); right; unfold f; by destruct o |].
  replace (root_of (f_sib f)) with (Some y) by (symmetry; apply root_bin). replace (opposite (f_side f)) with o by (by destruct o).
  cbv beta iota. eapply hruns_step; [apply runs_ret |].
  assert (Hpw : runs (f :: c) (root_of X) (PTree (Some z) X :: ps) (get_link_parity (root_of U)) (Z.odd (rk U)) (f :: c) (root_of X) (PTree (Some z) X :: ps)).
  { eapply runs_conseq; [apply same_frame | apply same_sym, same_frame |]. unfold f. destruct o; link_cbn; open_before; open_after; run_all. }
  destruct o; (eapply hruns_step; [apply (sib_links f); done |]); link_cbn; (eapply hruns_step; [apply Hpw | apply Hr]).
Qed.

Lemma remove_rotation_single V :
  wavl V -> k - rk U = 2 -> 2 <= k - rk V <= 3 ->
  rebalances (at_3_child o U y k z V :: c) X (remove_rotation (root_of X) z).
Proof.
  intros HV HkU HkV. pose proof (wavl_rk _ HX) as HX0.
  set (k' := if (rk V =? -1) && (rk X =? -1) then k - 2 else k - 1).
  apply (rebalances_local _ _ _ (bin o U y k (bin o V z k' X))); [done | | apply rk_bin | destruct o; nodes_eq |].
  { apply wavl_bin; rewrite rk_bin; split; [| split; [done |]]; [| apply wavl_bin; split; [| done]]; unfold node_ok, k';
      destruct (rk V =? -1) eqn:H1; destruct (rk X =? -1) eqn:H2; cbn [andb]; lia. }
  intros ps. rewrite root_bin, fill_3_child. apply remove_rotation_probe.
  rewrite parity_diff by lia. replace (k - 1 - rk U =? 2) with false by (symmetry; apply Z.eqb_neq; lia). cbn [negb].
  eapply hruns_pre; [apply same_3_child |]. eapply hruns_bind; [apply rotate_at_ok |].
  eapply runs_hruns; [intros d; apply inv_shape, shape_plug; by destruct o |].
  unfold k', is_leaf. destruct o; link_cbn; open_before; open_after; run; run; run; rewrite !root_none, ?(andb_comm (rk X =? -1)) by done;
    (destruct ((rk V =? -1) && (rk X =? -1)); [replace (k - 2) with (k - 1 - 1) by lia |]; replace (k - 1 + 1) with k by lia; run_all).
Qed.

Lemma remove_rotation_double B v F :
  k - rk U = 3 -> wavl (bin o B v (k - 2) F) ->
  rebalances (at_3_child o U y k z (bin o B v (k - 2) F) :: c) X (remove_rotation (root_of X) z).
Proof.
  intros HkU (HkV & HB & HF)%wavl_bin. pose proof (wavl_rk _ HX) as HX0. pose proof (wavl_rk _ HB). pose proof (wavl_rk _ HF).
  apply (rebalances_local _ _ _ (bin o (bin o U y (k - 2) B) v k (bin o F z (k - 2) X))); [done | wavl_solve | apply rk_bin | destruct o; nodes_eq |].
  intros ps. rewrite root_bin, fill_3_child. apply remove_rotation_probe.
  rewrite parity_diff by lia. replace (k - 1 - rk U =? 2) with true by (symmetry; apply Z.eqb_eq; lia). cbn [negb].
  eapply hruns_pre; [apply same_3_child |]. rewrite root_bin. eapply hruns_step; [apply runs_ret |].
  eapply hruns_bind; [apply double_rotate_at_ok |].
  eapply runs_hruns; [intros d; apply inv_shape, shape_plug; by destruct o |].
  destruct o; link_cbn; open_before; open_after; run; run; replace (k - 2 + 2) with k by lia; replace (k - 1 - 1) with (k - 2) by lia; run_all.
Qed.
End remove_rotation.

Lemma is_22_bin s a p k b : is_22 (bin s a p k b) = (k - rk a =? 2) && (k - rk b =? 2).
Proof. destruct s; [done | apply andb_comm]. Qed.

Lemma rebalance_3_child_ok f c t :
  wavl t -> wavl (f_sib f) -> f_rank f - rk t = 3 -> 1 <= f_rank f - rk (f_sib f) <= 2 -> ctx_ok c (f_rank f) -> small (f :: c) ->
  rebalances (f :: c) t (rebalance_after_remove_3_child (root_of t) (f_ptr f)).
Proof.
  intros Ht Hs Hd3 Hd Hc Hsm. destruct (demote_loop_ok c f t) as (res & c1 & t1 & Hrun & Hn & Hsm1 & Hres); try done.
  eapply rebalances_loop; [done | intros; apply Hrun; cbn in *; lia |].
  destruct res as [[x z] |]; [| destruct Hres; by apply rebalances_ret].
  destruct Hres as (f1 & c2 & -> & -> & -> & Ht1 & Hs1 & Hc1 & Hk1 & Hk2 & H22). inversion_clear Hsm1 as [| ?? Hf1 Hsm2].
  pose proof (wavl_rk _ Ht1) as Ht10. destruct (wavl_node _ Hs1 ltac:(lia)) as (y & Hy).
  destruct f1 as [s z k sib]; cbn [f_side f_ptr f_rank f_sib] in *. destruct (Hy (opposite s)) as (U & V & Hsib).
  replace (rk sib) with (k - 1) in Hsib by lia. rewrite Hsib in *. clear Hy Hsib.
  rewrite is_22_bin in H22. apply wavl_bin in Hs1 as ((HdU & HdV & _) & HU & HV).
  replace (Frame s z k (bin (opposite s) U y (k - 1) V)) with (at_3_child (opposite s) U y k z V) by (by destruct s).
  apply andb_false_iff in H22. rewrite !Z.eqb_neq in H22.
  assert (k - rk U = 2 \/ k - rk U = 3) as [HkU | HkU] by lia.
  - apply remove_rotation_single; done || lia.
  - destruct (wavl_node _ HV ltac:(lia)) as (v & Hv). destruct (Hv (opposite s)) as (B & F & HVe).
    replace (rk V) with (k - 2) in HVe by lia. rewrite HVe in *. apply remove_rotation_double; done || lia.
Qed.

Lemma tree_demote c o up l p k r ps :
  1 <= k <= USIZE_MAX -> runs c o (PTree up (N l p k r) :: ps) (demote p) tt c o (PTree up (N l p (k - 1) r) :: ps).
Proof. intros Hk. open_before. open_after. run_all. Qed.

Lemma node_is_2_child_ok f c l p k r ps :
  runs (f :: c) (Some p) (PTree (Some (f_ptr f)) (N l p k r) :: ps) (node_is_2_child p (f_ptr f)) (eqb (Z.odd k) (Z.odd (f_rank f)))
       (f :: c) (Some p) (PTree (Some (f_ptr f)) (N l p k r) :: ps).
Proof.
  unfold node_is_2_child. eapply runs_bind; [apply tree_links |]. eapply runs_bind; [apply ctx_links |].
  rewrite frame_parity. eapply runs_bind; [apply runs_assert; destruct f as [[] ?? []]; done |].
  eapply runs_bind; [apply runs_assert; destruct f as [[] ?? sib]; cbn; rewrite (bool_decide_true (Some p = Some p)) by done; [done | by rewrite orb_true_r] |].
  apply runs_ret.
Qed.

Lemma rebalance_2_2_leaf_ok c z :
  ctx_ok c 1 -> small c -> rebalances c (N E z 1 E) (rebalance_after_remove_2_2_leaf z).
Proof.
  intros Hc Hsm. eapply (rebalances_bind _ _ (links z) _ _ c (N E z 1 E)); [done | intros; apply tree_links |]. cbn.
  assert (Hdem : forall ps, runs c (Some z) (PTree (up_of c) (N E z 1 E) :: ps) (demote z) tt c (Some z) (PTree (up_of c) (N E z 0 E) :: ps))
    by (intros; by apply tree_demote).
  assert (Hn : shape (plug (N E z 0 E) c) = shape (plug (N E z 1 E) c)) by (by apply shape_plug).
  assert (Hw : wavl (N E z 0 E)) by (cbn; unfold node_ok; lia).
  destruct c as [| f c]; cbn [up_of]; [by eapply plug_runs |]. destruct Hc as ((Hd & Hds & Hl) & Hws & Hc).
  eapply (rebalances_bind _ _ (node_is_2_child z (f_ptr f)) _ _ (f :: c) (N E z 1 E)); [done | intros; apply node_is_2_child_ok |].
  rewrite parity_diff by done. destruct (f_rank f - 1 =? 2) eqn:H2.
  - apply Z.eqb_eq in H2. eapply (rebalances_bind _ _ (demote z)); [done | done |].
    apply (rebalance_3_child_ok f c (N E z 0 E)); try done. cbn. lia.
  - apply Z.eqb_neq in H2. eapply plug_runs; [done | done | | done]. cbn. unfold node_ok. repeat split; try done; lia.
Qed.

(** ** The removal as a whole *)

(** A node of a valid tree is not a leaf of odd rank. *)
Lemma node_links_ok t p : wavl t -> p ∈ nodes t ->
  forall up, exists l, is_leaf l && rank_parity l = false /\ forall c o ps, runs c o (PTree up t :: ps) (links p) l c o (PTree up t :: ps).
Proof.
  induction t as [| l IHl q k r IHr]; [by intros _ ?%not_elem_of_nil |]. intros (Hk & Hl & Hr) Hp up.
  cbn [nodes] in Hp. rewrite elem_of_app, elem_of_cons in Hp. destruct Hp as [Hp | [-> | Hp]].
  - destruct (IHl Hl Hp (Some q)) as (lk & Hlk & Hrun). exists lk. split; [done |]. intros c o ps. open_before. open_after.
    eapply runs_post; [| at_piece locate_tree l ltac:(apply Hrun)]; reorder.
  - exists (node_links up (root_of l) k (root_of r)). split; [| intros; apply tree_links]. unfold is_leaf. cbn.
    rewrite !root_none by done. destruct (rk l =? -1) eqn:E1; [| done]. destruct (rk r =? -1) eqn:E2; [| done].
    apply Z.eqb_eq in E1, E2. destruct Hk as (_ & _ & Hk). by rewrite Hk.
  - destruct (IHr Hr Hp (Some q)) as (lk & Hlk & Hrun). exists lk. split; [done |]. intros c o ps. open_before. open_after.
    eapply runs_post; [| at_piece locate_tree r ltac:(apply Hrun)]; reorder.
Qed.

Lemma up_in_nodes f c t : f_ptr f ∈ nodes (plug t (f :: c)).
Proof.
  assert (Hp : f_ptr f ∈ nodes (fill f t)) by (destruct f as [[] ???]; cbn; rewrite elem_of_app, elem_of_cons; auto).
  revert Hp. cbn. generalize (fill f t). induction c as [| g c IH]; intros t' Hp; cbn; [done |]. apply IH.
  destruct g as [[] ???]; cbn; rewrite elem_of_app, elem_of_cons; auto.
Qed.

Definition is_2 (c : list frame) (k : Z) : bool := match c with [] => false | f :: _ => eqb (Z.odd k) (Z.odd (f_rank f)) end.

Lemma rebalance_after_remove_ok c t k :
  wavl t -> rk t = k - 1 -> ctx_ok c k -> small c ->
  rebalances c t (rebalance_after_remove (root_of t) (up_of c) (is_2 c k)).
Proof.
  intros Ht Hk Hc Hsm. pose proof (wavl_rk _ Ht) as Ht0. destruct c as [| f c]; cbn [up_of rebalance_after_remove is_2]; [by apply rebalances_ret |].
  destruct Hc as (Hok & Hws & Hc). pose proof Hok as (Hd & Hds & Hl). pose proof (wavl_rk _ Hws) as Hs0.
  match goal with |- rebalances _ _ (_ ← ?m; _) => assert (Hm : rebalances (f :: c) t m) end.
  { rewrite parity_diff by done. destruct (f_rank f - k =? 2) eqn:H2.
    - apply Z.eqb_eq in H2. apply rebalance_3_child_ok; done || lia.
    - apply Z.eqb_neq in H2. rewrite root_none by done. destruct (rk t =? -1) eqn:HE.
      + apply Z.eqb_eq in HE. assert (t = E) as -> by (by apply wavl_empty).
        eapply (rebalances_bind _ _ (links (f_ptr f)) _ _ (f :: c) E); [done | intros; apply ctx_links |].
        assert (Hleaf : is_leaf (frame_links f (up_of c) (root_of E)) = (rk (f_sib f) =? -1)).
        { rewrite <- root_none by done. unfold is_leaf. destruct f as [[] ???]; cbn; [done | by rewrite andb_true_r]. }
        rewrite Hleaf. destruct (rk (f_sib f) =? -1) eqn:HS; [apply Z.eqb_eq in HS | apply Z.eqb_neq in HS].
        * assert (f_rank f = 1) as H1 by lia. inversion_clear Hsm. pose proof (rebalance_2_2_leaf_ok c (f_ptr f)) as Hleaf2.
          assert (Hf : fill f E = N E (f_ptr f) 1 E) by (unfold fill; rewrite (wavl_empty _ Hws HS), H1; by destruct (f_side f)).
          destruct Hleaf2 as (T & HT & HnT & Hr); [by rewrite <- H1 | done |]. exists T. split; [done |]. split; [cbn; by rewrite Hf |].
          intros ps. cbn [plug]. rewrite Hf. eapply hruns_pre; [apply (same_fill f c E) |]. rewrite Hf. apply Hr.
        * apply rebalances_ret; [done |]. cbn. unfold node_ok. repeat split; try done; lia.
      + apply Z.eqb_neq in HE. apply rebalances_ret; [done |]. cbn. unfold node_ok. repeat split; try done; lia. }
  destruct Hm as (T & HT & HnT & Hr). exists T. split; [done |]. split; [done |]. intros ps. eapply hruns_bind; [apply Hr |].
  eapply runs_hruns; [intros d Hi; apply Hi |].
  destruct (node_links_ok T (f_ptr f) HT) with (up := @None nptr) as (lk & Hlk & Hlinks); [rewrite HnT; apply up_in_nodes |].
  eapply runs_bind; [apply Hlinks |]. rewrite Hlk. by apply runs_assert.
Qed.

(** The only child of a node that has at most one. *)
Definition only_child (l r : tree) : tree := match l with E => r | _ => l end.

Lemma only_child_rk l p k r : wavl (N l p k r) -> l = E \/ r = E -> wavl (only_child l r) /\ rk (only_child l r) = k - 1.
Proof.
  intros ((Hl & Hr & Hk) & Hwl & Hwr) He. pose proof (wavl_rk _ Hwl). pose proof (wavl_rk _ Hwr). destruct l as [| ll pl kl rl]; cbn in *.
  - split; [done |]. lia.
  - destruct He as [? | ->]; [done |]. cbn in *. split; [done |]. destruct Hwl as ((? & _) & Hll%wavl_rk & _). lia.
Qed.

Lemma take_out_ok c l y k r ps :
  l = E \/ r = E ->
  runs c (Some y) (PTree (up_of c) (N l y k r) :: ps) (take_out y) (root_of (only_child l r), up_of c, is_2 c k)
       c (root_of (only_child l r))
       (PNode y (node_links (up_of c) (root_of l) k (root_of r)) :: PTree (up_of c) (only_child l r) :: ps).
Proof.
  intros He. unfold take_out. eapply runs_bind; [apply tree_links |]. cbn [l_up l_left l_right node_links].
  replace (match root_of l with Some l0 => Some l0 | None => root_of r end) with (root_of (only_child l r)) by (by destruct l).
  eapply (runs_bind _ _ _ _ _ (is_2 c k) c (Some y)); [destruct c as [| f c]; [apply runs_ret | apply node_is_2_child_ok] |].
  eapply runs_bind; [| apply runs_ret]. eapply runs_pre; [| apply (runs_splice_out c y _ (Some y))].
  apply eqp_same. rewrite eqp_N. destruct l as [| ll pl kl rl]; [by rewrite eqp_E |]. destruct He as [? | ->]; [done |].
  apply eqp_cons, eqp_cons, eqp_E.
Qed.

(** The end of a subtree on one side, as a position in it. *)
Lemma find_extreme_ok s t p :
  root_of t = Some p ->
  exists c2 y ky X, t = plug (bin s E y ky X) c2 /\ Forall (fun f => f_side f = s) c2 /\
    forall n c o up ps, (length (nodes t) <= n)%nat -> runs c o (PTree up t :: ps) (find_extreme n s p) y c o (PTree up t :: ps).
Proof.
  revert p. induction t as [| l IHl q k r IHr]; intros p; [done |]. intros [= ->].
  set (sub := match s with Left => l | Right => r end). set (oth := match s with Left => r | Right => l end).
  destruct sub as [| sl sp sk sr] eqn:Hsub.
  - exists [], p, k, oth. split; [subst sub oth; destruct s; cbn; congruence |]. split; [constructor |]. intros [| n] c o up ps Hn; [cbn in Hn; rewrite length_app in Hn; cbn in Hn; lia |].
    cbn [find_extreme]. eapply runs_bind; [apply tree_links |]. replace (child _ s) with (root_of sub) by (by destruct s). rewrite Hsub. apply runs_ret.
  - assert (IH : exists c2 y ky X, sub = plug (bin s E y ky X) c2 /\ Forall (fun f => f_side f = s) c2 /\
      forall n c o up ps, (length (nodes sub) <= n)%nat -> runs c o (PTree up sub :: ps) (find_extreme n s sp) y c o (PTree up sub :: ps))
      by (subst sub; destruct s; [apply IHl | apply IHr]; by rewrite Hsub).
    destruct IH as (c2 & y & ky & X & Hpl & Hall & Hrun). exists (c2 ++ [Frame s p k oth]), y, ky, X. split; [| split].
    + rewrite plug_app, <- Hpl. subst sub oth. by destruct s.
    + apply Forall_app. by repeat constructor.
    + intros [| n] c o up ps Hn; [cbn in Hn; rewrite length_app in Hn; cbn in Hn; lia |]. cbn [find_extreme].
      eapply runs_bind; [apply tree_links |]. replace (child _ s) with (root_of sub) by (by destruct s). rewrite Hsub. cbn [root_of].
      cbn [nodes] in Hn. rewrite length_app in Hn. cbn in Hn. open_before. open_after.
      subst sub; destruct s; (eapply runs_post; [| (at_piece locate_tree l ltac:(apply Hrun; lia)) || (at_piece locate_tree r ltac:(apply Hrun; lia))]); reorder.
Qed.

Lemma nodes_around c : exists A B, forall t, nodes (plug t c) = A ++ nodes t ++ B.
Proof.
  induction c as [| [[] p k sib] c (A & B & IH)]; cbn.
  - exists [], []. intros t. by rewrite app_nil_r.
  - exists A, (p :: nodes sib ++ B). intros t. rewrite IH. nodes_eq.
  - exists (A ++ nodes sib ++ [p]), B. intros t. rewrite IH. nodes_eq.
Qed.

Lemma nodes_min c2 y ky X : Forall (fun f => f_side f = Left) c2 -> nodes (plug (N E y ky X) c2) = y :: nodes (plug X c2).
Proof.
  intros Hall. assert (Hg : forall t, exists B, nodes (plug t c2) = nodes t ++ B /\ forall t', nodes (plug t' c2) = nodes t' ++ B).
  { induction Hall as [| [s p k sib] c Hs Hc IH]; intros t; cbn in *; [exists []; split; [| intros]; by rewrite app_nil_r |]. subst s.
    destruct (IH (N t p k sib)) as (B & HB & HB'). exists (p :: nodes sib ++ B). split; [| intros]; rewrite HB'; nodes_eq. }
  destruct (Hg X) as (B & HX & HB). by rewrite HB, HX.
Qed.

Lemma rk_plug c t : wavl (plug t c) -> rk t <= rk (plug t c).
Proof.
  revert t. induction c as [| g c IH]; intros t Hw; cbn in *; [done |]. specialize (IH _ Hw). apply wavl_plug in Hw as [(Hk & _)%wavl_bin _].
  unfold fill in IH at 1. rewrite rk_bin in IH. unfold node_ok in Hk. lia.
Qed.

Lemma ctx_ranks c t : wavl (plug t c) -> Forall (fun f => f_rank f <= rk (plug t c)) c.
Proof.
  revert t. induction c as [| f c IH]; intros t Hw; constructor; cbn in *; [| by apply IH].
  apply rk_plug in Hw. unfold fill in Hw at 1. by rewrite rk_bin in Hw.
Qed.

Definition removed (k : Z) : Links := MkLinks false None None None k.

(** What the removal of the node [p] of rank [k] leaves. *)
Definition removes (c : list frame) (l : tree) (p : nptr) (k : Z) (r : tree) : Prop :=
  exists T A B, wavl T /\ nodes (plug (N l p k r) c) = A ++ p :: B /\ nodes T = A ++ B /\
    forall ps, hruns (inv (plug (N l p k r) c)) c (Some p) (PTree (up_of c) (N l p k r) :: ps) (remove_internal p) p
                     (inv T) [] (root_of T) (PTree None T :: PNode p (removed k) :: ps).

(** The call of the hook once the node is out of the tree. *)
Lemma hook_remove c t t0 p up ps :
  removable t0 p -> spliced t0 p up (plug t c) ->
  hruns (inv t0) c (root_of t) (PTree (up_of c) t :: ps) (hook (fun h => after_remove h p up)) tt
        (inv (plug t c)) c (root_of t) (PTree (up_of c) t :: ps).
Proof.
  intros Hrem Hsp. apply runs_hook. intros w Hs Hi. eapply inv_remove; [by eapply sat_repr | by eapply sat_plug | done..].
Qed.

Lemma spliced_outer c l p k r : l = E \/ r = E -> spliced (plug (N l p k r) c) p (up_of c) (plug (only_child l r) c).
Proof.
  intros He. destruct l as [| ll pl kl rl]; [apply (spliced_one c Right r) |]. destruct He as [? | ->]; [done |].
  apply (spliced_one c Left (N ll pl kl rl)).
Qed.

(** A node with at most one child. *)
Lemma remove_outer c l p k r :
  wavl (N l p k r) -> ctx_ok c k -> small c -> l = E \/ r = E -> removable (plug (N l p k r) c) p -> removes c l p k r.
Proof.
  intros Hw Hc Hsm He Hrem. destruct (only_child_rk _ _ _ _ Hw He) as [Hwx Hkx]. destruct (nodes_around c) as (A & B & HAB).
  destruct (rebalance_after_remove_ok c (only_child l r) k) as (T & HT & HnT & Hr); try done.
  exists T, (A ++ nodes l), (nodes r ++ B). split; [done |]. split; [rewrite HAB; nodes_eq |]. split.
  { rewrite HnT, HAB. destruct l; cbn; [by rewrite app_nil_r |]. destruct He as [? | ->]; [done |]. nodes_eq. }
  intros ps. unfold remove_internal. eapply hruns_step; [apply tree_links |]. cbn [l_up l_left l_right node_links].
  eapply (hruns_step _ _ _ _ _ _ _ p c (Some p) (PTree (up_of c) (N l p k r) :: ps));
    [destruct l as [| ? ? ? ?], r as [| ? ? ? ?]; [apply runs_ret.. | by destruct He] |].
  eapply hruns_step; [by apply take_out_ok |]. cbv beta iota. rewrite bool_decide_true by done. eapply hruns_step; [apply runs_ret |].
  eapply hruns_pre; [apply eqp_same, eqp_perm, Permutation_swap |].
  eapply hruns_bind; [eapply hook_remove; [done |]; by apply spliced_outer |].
  eapply hruns_bind; [apply Hr |]. eapply runs_hruns; [intros d Hi; apply Hi |]. run. run_all.
Qed.

Lemma owned_plug c up t ps : owned c (PTree up t :: ps) ≡ₚ nodes (plug t c) ++ mjoin (piece_nodes <$> ps).
Proof.
  pose proof (same_owned _ _ _ _ _ _ (same_plug c [] t ps)) as Hs. rewrite app_nil_r in Hs. exact Hs.
Qed.

Lemma same_inner c l p k t c2 ps :
  sameps c (Some p) (PTree (up_of c) (N l p k (plug t c2)) :: ps)
         (c2 ++ Frame Right p k l :: c) (root_of t) (PTree (up_of (c2 ++ Frame Right p k l :: c)) t :: ps).
Proof.
  apply same_sym. eapply same_trans; [apply same_plug |]. apply (same_fill (Frame Right p k l) c).
Qed.

Lemma ctx_ok_inner c l p q k t c2 : wavl (N l p k (plug t c2)) -> ctx_ok c k -> ctx_ok (c2 ++ Frame Right q k l :: c) (rk t).
Proof.
  intros Hw Hc. apply (wavl_plug t). rewrite plug_app. cbn [plug]. apply wavl_plug. by split.
Qed.

Lemma small_inner c l q k t c2 : wavl (plug t c2) -> rk (plug t c2) <= k -> small c -> k < USIZE_MAX -> small (c2 ++ Frame Right q k l :: c).
Proof.
  intros Hw%ctx_ranks Hr Hc Hk. apply Forall_app. split; [| by constructor]. eapply Forall_impl; [exact Hw |]. cbn. lia.
Qed.

(** The next node [y] is taken out and comes in the place of [p]. *)
Lemma swap_next {A} P Q c l p k y ky X c2 ps (K : Link -> Link -> bool -> W D A) a c3 o3 ps3 (c' := c2 ++ Frame Right y k l :: c) :
  p ∉ nodes (plug (N E y ky X) c2) ->
  hruns P c' (root_of X) (PTree (up_of c') X :: PNode p (MkLinks (Z.odd k) None None None k) :: ps) (K (root_of X) (up_of c') (is_2 c' ky)) a Q c3 o3 ps3 ->
  hruns P c (Some p) (PTree (up_of c) (N l p k (plug (N E y ky X) c2)) :: ps)
    (r ← take_out y;
     let '(x, p_y, is_2_child) := r in
     p_y ← (if bool_decide (y = p) then mret p_y
            else _ ← swap_in_node_at p y; mret (if bool_decide (p_y = Some p) then Some y else p_y));
     K x p_y is_2_child) a Q c3 o3 ps3.
Proof.
  intros Hp HK. eapply hruns_pre; [apply same_inner |]. eapply hruns_step; [apply take_out_ok; by left |]. cbv beta iota.
  assert (Hy : y <> p) by (intros ->; apply Hp; destruct (nodes_around c2) as (A1 & B1 & ->); rewrite !elem_of_app; cbn; rewrite elem_of_cons; auto).
  assert (Hg : forall g c2', c2 = g :: c2' -> f_ptr g <> p) by (intros g c2' -> Hge; apply Hp; rewrite <- Hge; apply up_in_nodes).
  rewrite bool_decide_false by done. cbn [only_child].
  eapply hruns_pre. { eapply same_trans; [apply eqp_same, eqp_perm, Permutation_swap | apply same_sym, same_inner]. }
  eapply (hruns_step _ _ _ _ _ _ _ (up_of c')).
  - eapply runs_bind; [apply swap_in_node_at_ok |].
    replace (if bool_decide _ then _ else _) with (up_of c'); [apply runs_ret |].
    unfold c'. destruct c2 as [| g c2]; cbn; [by rewrite bool_decide_true |]. rewrite bool_decide_false; [done |]. intros [= Hge]. by eapply Hg.
  - eapply hruns_pre; [apply same_inner |]. replace (is_2 (c2 ++ Frame Right p k l :: c) ky) with (is_2 c' ky); [apply HK |]. unfold c'. by destruct c2.
Qed.

(** A node with two children, in whose place comes the next one. *)
Lemma remove_inner c l p k r :
  wavl (N l p k r) -> ctx_ok c k -> small c -> k < USIZE_MAX -> l <> E -> r <> E ->
  removable (plug (N l p k r) c) p -> removes c l p k r.
Proof.
  intros Hw Hc Hsm Hk Hl Hr Hrem. pose proof Hw as ((Hdl & Hdr & Hdk) & Hwl & Hwr).
  destruct (root_of r) as [pr |] eqn:Hpr; [| by destruct r]. destruct (find_extreme_ok Left r pr Hpr) as (c2 & y & ky & X & Hpl & Hall & Hmin).
  cbn [bin] in Hpl. destruct (only_child_rk E y ky X) as [HwX HkX]; [apply (wavl_plug (N E y ky X) c2); by rewrite <- Hpl | by left |]. cbn in HwX, HkX.
  destruct (nodes_around c) as (A & B & HAB).
  destruct (rebalance_after_remove_ok (c2 ++ Frame Right y k l :: c) X ky) as (T & HT & HnT & Hrun); try done.
  { apply (ctx_ok_inner c l p y k (N E y ky X)); [by rewrite <- Hpl | done]. }
  { apply (small_inner c l y k (N E y ky X)); rewrite <- ?Hpl; done || lia. }
  assert (HnA : nodes T = A ++ (nodes l ++ nodes r) ++ B) by (rewrite HnT, plug_app; cbn [plug]; rewrite HAB, Hpl, nodes_min by done; nodes_eq).
  exists T, (A ++ nodes l), (nodes r ++ B). split; [done |]. split; [rewrite HAB; nodes_eq |]. split; [rewrite HnA; nodes_eq |].
  intros ps. apply (hruns_fact (p ∉ nodes r)).
  { intros w [_ _ Hn]. rewrite owned_plug, HAB in Hn. cbn in Hn. rewrite !NoDup_app, NoDup_cons in Hn. tauto. }
  { rewrite owned_plug, HAB. unfold owned. cbn. rewrite HnA. cbn. solve_Permutation. }
  intros Hp. unfold remove_internal. eapply hruns_step; [apply tree_links |]. cbn [l_up l_left l_right node_links]. rewrite Hpr.
  destruct (root_of l) as [pl |] eqn:Hpl'; [| by destruct l].
  eapply (hruns_step _ _ _ _ _ _ _ y c (Some p) (PTree (up_of c) (N l p k r) :: ps)).
  { unfold find_minimum. apply runs_fuel. intros n Hn. open_before. open_after.
    eapply runs_post; [| at_piece locate_tree r ltac:(apply Hmin)]; [reorder |]. rewrite owned_plug, HAB in Hn. cbn in Hn. rewrite !length_app in Hn. cbn in Hn. lia. }
  assert (Hsp : spliced (plug (N l p k r) c) p (up_of c) (plug X (c2 ++ Frame Right y k l :: c))).
  { rewrite plug_app. apply (spliced_two c l p k r y (plug X c2)); [done |]. rewrite Hpl. by apply nodes_min. }
  rewrite Hpl in Hp, Hrem, Hsp |- *. apply swap_next; [done |]. eapply hruns_bind; [by eapply hook_remove |].
  eapply hruns_bind; [apply Hrun |]. eapply runs_hruns; [intros d Hi; apply Hi |]. run. run_all.
Qed.

Lemma remove_internal_ok c l p k r :
  wavl (plug (N l p k r) c) -> rk (plug (N l p k r) c) < USIZE_MAX -> removable (plug (N l p k r) c) p -> removes c l p k r.
Proof.
  intros Hw Hr Hrem. pose proof (ctx_ranks _ _ Hw) as Hrk. pose proof (rk_plug _ _ Hw) as Hkr. apply wavl_plug in Hw as [Hw Hc].
  assert (Hsm : small c) by (eapply Forall_impl; [exact Hrk |]; cbn; lia). cbn in Hkr, Hc.
  destruct l as [| ll pl kl rl]; [apply remove_outer; auto |]. destruct r as [| lr pr kr rr]; [apply remove_outer; auto |].
  apply remove_inner; done || lia.
Qed.
End shrink.
