(* ===== verification/WavlSearch.v ===== *)
(** * Search in the weak AVL tree

    The descents from the root by key, as a position in the tree that divides
    its nodes into those before and those after the key. *)

From stdpp Require Import base numbers list gmap sorting.
From Stdlib Require Import ZArith Lia.
From S2P Require Import Prelude WavlTree WavlRepr WavlBalance WavlShrink.

(** The nodes before and after a position. *)
Fixpoint befores (c : list frame) : list nptr :=
  match c with
  | [] => []
  | f :: c => match f_side f with Left => befores c | Right => befores c ++ nodes (f_sib f) ++ [f_ptr f] end
  end.

Fixpoint afters (c : list frame) : list nptr :=
  match c with
  | [] => []
  | f :: c => match f_side f with Left => f_ptr f :: nodes (f_sib f) ++ afters c | Right => afters c end
  end.

Lemma nodes_split t c : nodes (plug t c) = befores c ++ nodes t ++ afters c.
Proof.
  revert t. induction c as [| [[] p k sib] c IH]; intros t; cbn; [by rewrite app_nil_r | |]; rewrite IH; nodes_eq.
Qed.

Section search.
Context {D : Type} {K : Type} `{Ord K} (key : nptr -> K).
#[local] Abbreviation runs := (runs (D := D)).

Definition klt (a b : K) : Prop := cmp a b = Lt.
Definition before (p q : nptr) : Prop := klt (key p) (key q).
Abbreviation sorted l := (StronglySorted before l).

Lemma cmp_Gt a b : cmp a b = Gt -> klt b a.
Proof. unfold klt. intros Hc. by rewrite cmp_opp, Hc. Qed.

Lemma klt_irrefl a : ~ klt a a.
Proof. unfold klt. rewrite (proj2 (cmp_eq a a) eq_refl). done. Qed.

Lemma klt_trans a b c : klt a b -> klt b c -> klt a c.
Proof. apply cmp_lt_trans. Qed.

Lemma cmp_not_lt a b : klt a b -> cmp b a = Gt.
Proof. unfold klt. intros Hc. by rewrite cmp_opp, Hc. Qed.

(** The position at which the search for a key ends, and the subtree there. *)
Fixpoint locate (k : K) (t : tree) (c : list frame) : list frame * tree :=
  match t with
  | E => (c, E)
  | N l p kp r =>
      match cmp k (key p) with
      | Eq => (c, t)
      | Lt => locate k l (Frame Left p kp r :: c)
      | Gt => locate k r (Frame Right p kp l :: c)
      end
  end.

(** All nodes outside of the subtree are on their side of the key. *)
Definition divides (k : K) (c : list frame) : Prop :=
  (forall q, q ∈ befores c -> klt (key q) k) /\ (forall q, q ∈ afters c -> klt k (key q)).

Definition found (k : K) (t : tree) : Prop := match t with E => True | N _ p _ _ => key p = k end.

Lemma divides_left k l p kp r c :
  sorted (nodes (plug (N l p kp r) c)) -> divides k c -> klt k (key p) -> divides k (Frame Left p kp r :: c).
Proof.
  intros Hs [Hb Ha] Hk. split; cbn; [done |]. intros q Hq. rewrite elem_of_cons, elem_of_app in Hq. destruct Hq as [-> | [Hq | Hq]]; [done | | auto].
  rewrite nodes_split in Hs. apply StronglySorted_app_1_r, StronglySorted_app_1_l in Hs. cbn in Hs. apply StronglySorted_app_1_r, StronglySorted_inv in Hs.
  destruct Hs as [_ Hs]. rewrite Forall_forall in Hs. eapply klt_trans; [done |]. by apply Hs.
Qed.

Lemma divides_right k l p kp r c :
  sorted (nodes (plug (N l p kp r) c)) -> divides k c -> klt (key p) k -> divides k (Frame Right p kp l :: c).
Proof.
  intros Hs [Hb Ha] Hk. split; cbn; [| done]. intros q Hq. rewrite !elem_of_app, list_elem_of_singleton in Hq. destruct Hq as [Hq | [Hq | ->]]; [auto | | done].
  rewrite nodes_split in Hs. apply StronglySorted_app_1_r, StronglySorted_app_1_l in Hs. cbn in Hs.
  eapply klt_trans; [| done]. eapply (StronglySorted_app_1_elem_of before); [exact Hs | done |]. by left.
Qed.

Lemma locate_ok k t c :
  sorted (nodes (plug t c)) -> divides k c ->
  let '(c', t') := locate k t c in
  plug t' c' = plug t c /\ divides k c' /\ found k t'.
Proof.
  revert c. induction t as [| l IHl p kp r IHr]; intros c Hs Hd; cbn [locate]; [done |]. destruct (cmp k (key p)) eqn:Hc.
  - split; [done |]. split; [done |]. symmetry. by apply cmp_eq.
  - apply (IHl (Frame Left p kp r :: c)); [done |]. by eapply divides_left.
  - apply (IHr (Frame Right p kp l :: c)); [done |]. eapply divides_right; [done | done |]. by apply cmp_Gt.
Qed.

(** ** The search of [find_internal] *)

Definition side_of (c : list frame) : option (nptr * Side) := match c with [] => None | f :: _ => Some (f_ptr f, f_side f) end.

Lemma wavl_N l p k r : wavl (N l p k r) -> 0 <= k /\ wavl l /\ wavl r /\ rk l < k /\ rk r < k.
Proof. intros ((? & ? & _) & Hl & Hr). pose proof (wavl_rk _ Hl). repeat split; try done; lia. Qed.

Lemma find_loop_ok k t c0 n c o up ps :
  wavl t -> rk t < Z.of_nat n ->
  runs c o (PTree up t :: ps) (find_loop key n k (side_of c0) (root_of t)) (root_of (locate k t c0).2, side_of (locate k t c0).1)
       c o (PTree up t :: ps).
Proof.
  revert n c0 c o up ps. induction t as [| l IHl p kp r IHr]; intros n c0 c o up ps Hw Hn; [destruct n; apply runs_ret |].
  apply wavl_N in Hw as (Hk & Hwl & Hwr & Hl & Hr). cbn in Hn. destruct n as [| n]; [lia |].
  cbn [find_loop root_of locate]. eapply runs_bind; [apply tree_links |]. cbn [l_left l_right node_links].
  destruct (cmp k (key p)); [apply runs_ret | |]; open_before; open_after.
  - eapply runs_post; [| at_piece locate_tree l ltac:(apply (IHl n (Frame Left p kp r :: c0)); done || lia)]; reorder.
  - eapply runs_post; [| at_piece locate_tree r ltac:(apply (IHr n (Frame Right p kp l :: c0)); done || lia)]; reorder.
Qed.

(** ** The bounds *)

(** The search for the least node that satisfies a condition that holds of all
    greater ones. *)
Definition upward (f : K -> bool) : Prop := forall a b, klt a b -> f a = true -> f b = true.

Lemma lower_cond_upward b : upward (lower_cond b).
Proof.
  intros x y Hxy. destruct b as [k | k |]; cbn; unfold key_le, key_lt; [| | done].
  - destruct (cmp k x) eqn:Hc; [| | done]; intros _.
    + apply cmp_eq in Hc as ->. by rewrite Hxy.
    + by rewrite (klt_trans k x y Hc Hxy).
  - destruct (cmp k x) eqn:Hc; [done | | done]; intros _. by rewrite (klt_trans k x y Hc Hxy).
Qed.

Lemma upper_cond_upward b : upward (upper_cond b).
Proof.
  destruct b as [k | k |]; [apply (lower_cond_upward (Excluded k)) | apply (lower_cond_upward (Included k)) | by intros ???].
Qed.

Definition orelse {A} (a b : option A) : option A := match a with Some x => Some x | None => b end.

Lemma orelse_assoc {A} (a b c : option A) : orelse (orelse a b) c = orelse a (orelse b c).
Proof. by destruct a. Qed.

Lemma find_app {A} (f : A -> bool) l1 l2 : List.find f (l1 ++ l2) = orelse (List.find f l1) (List.find f l2).
Proof. induction l1 as [| x l1 IH]; cbn; [done |]. by destruct (f x). Qed.

Lemma find_none {A} (f : A -> bool) l : (forall x, x ∈ l -> f x = false) -> List.find f l = None.
Proof. intros Hf. induction l as [| x l IH]; cbn; [done |]. rewrite Hf by (by left). apply IH. intros y Hy. apply Hf. by right. Qed.

Lemma find_first {A} (f : A -> bool) x l : f x = true -> List.find f (x :: l) = Some x.
Proof. intros Hf. cbn. by rewrite Hf. Qed.

Lemma sorted_N l p k r : sorted (nodes (N l p k r)) -> sorted (nodes l) /\ sorted (nodes r)
  /\ (forall q, q ∈ nodes l -> before q p) /\ (forall q, q ∈ nodes r -> before p q).
Proof.
  cbn. rewrite StronglySorted_app, StronglySorted_cons, Forall_forall. intros (Hlr & Hl & Hr & Hs). repeat split; try done.
  intros q Hq. apply Hlr; [done | by left].
Qed.

Lemma lower_loop_ok b t n res c o up ps :
  wavl t -> rk t < Z.of_nat n -> sorted (nodes t) ->
  runs c o (PTree up t :: ps) (lower_loop key n b res (root_of t))
       (orelse (List.find (fun q => lower_cond b (key q)) (nodes t)) res)
       c o (PTree up t :: ps).
Proof.
  revert n res c o up ps. induction t as [| l IHl p kp r IHr]; intros n res c o up ps Hw Hn Hs; [destruct n; apply runs_ret |].
  apply wavl_N in Hw as (Hk & Hwl & Hwr & Hl & Hr). apply sorted_N in Hs as (Hsl & Hsr & Hpl & Hpr). cbn in Hn. destruct n as [| n]; [lia |].
  cbn [lower_loop root_of]. eapply runs_bind; [apply tree_links |]. cbn [l_left l_right node_links nodes]. rewrite find_app, orelse_assoc.
  destruct (lower_cond b (key p)) eqn:Hc; open_before; open_after.
  - rewrite find_first by done.
    eapply runs_post; [| at_piece locate_tree l ltac:(apply (IHl n (Some p)); done || lia)]; reorder.
  - rewrite (find_none _ (nodes l)); [cbn [orelse List.find]; rewrite Hc |].
    + eapply runs_post; [| at_piece locate_tree r ltac:(apply (IHr n res); done || lia)]; reorder.
    + intros q Hq. destruct (lower_cond b (key q)) eqn:Hq'; [| done]. rewrite <- Hc. symmetry. eapply lower_cond_upward; [by apply Hpl | done].
Qed.

Lemma upper_loop_ok b t n res c o up ps :
  wavl t -> rk t < Z.of_nat n -> sorted (nodes t) ->
  runs c o (PTree up t :: ps) (upper_loop key n b res (root_of t))
       (orelse (List.find (fun q => negb (upper_cond b (key q))) (reverse (nodes t))) res)
       c o (PTree up t :: ps).
Proof.
  revert n res c o up ps. induction t as [| l IHl p kp r IHr]; intros n res c o up ps Hw Hn Hs; [destruct n; apply runs_ret |].
  apply wavl_N in Hw as (Hk & Hwl & Hwr & Hl & Hr). apply sorted_N in Hs as (Hsl & Hsr & Hpl & Hpr). cbn in Hn. destruct n as [| n]; [lia |].
  cbn [upper_loop root_of]. eapply runs_bind; [apply tree_links |]. cbn [l_left l_right node_links nodes].
  rewrite reverse_app, reverse_cons, <- app_assoc, find_app, orelse_assoc.
  destruct (upper_cond b (key p)) eqn:Hc; open_before; open_after.
  - rewrite (find_none _ (reverse (nodes r))); [cbn [app orelse List.find]; rewrite Hc; cbn [negb] |].
    + eapply runs_post; [| at_piece locate_tree l ltac:(apply (IHl n res); done || lia)]; reorder.
    + intros q Hq. rewrite elem_of_reverse in Hq. rewrite negb_false_iff. eapply upper_cond_upward; [by apply Hpr | done].
  - cbn [app]. rewrite find_first by (by rewrite Hc).
    eapply runs_post; [| at_piece locate_tree r ltac:(apply (IHr n (Some p)); done || lia)]; reorder.
Qed.
End search.

(** ** Operations that change nothing *)

Lemma repr_lookup h h' up t q : repr h up t -> repr h' up t -> q ∈ nodes t -> h' !! q = h !! q.
Proof.
  revert up. induction t as [| l IHl p k r IHr]; intros up; cbn; [by intros _ _ ?%not_elem_of_nil |].
  rewrite elem_of_app, elem_of_cons. intros (Hp & Hl & Hr) (Hp' & Hl' & Hr') [Hq | [-> | Hq]]; [by eapply IHl | by rewrite Hp, Hp' | by eapply IHr].
Qed.

Section readonly.
Context {D : Type}.
Implicit Types w : WAVLTree D.
#[local] Abbreviation runs := (runs (D := D)).

Lemma sat_lookup w w' c o ps q : sat w c o ps -> sat w' c o ps -> q ∈ owned c ps -> w_links w' !! q = w_links w !! q.
Proof.
  intros [Hc Hp _] [Hc' Hp' _]. unfold owned. rewrite elem_of_app. intros [Hq | Hq].
  - clear Hp Hp'. revert o Hc Hc' Hq. induction c as [| f c IH]; intros o; cbn; [by intros _ _ ?%not_elem_of_nil |].
    rewrite elem_of_cons, elem_of_app. intros (Hf & Hs & Hc) (Hf' & Hs' & Hc') [-> | [Hq | Hq]]; [by rewrite Hf, Hf' | by eapply repr_lookup | by eapply IH].
  - clear Hc Hc'. induction ps as [| x ps IH]; cbn in Hq; [by apply not_elem_of_nil in Hq |].
    inversion_clear Hp as [| ?? Hx Hps]. inversion_clear Hp' as [| ?? Hx' Hps']. rewrite elem_of_app in Hq. destruct Hq as [Hq | Hq]; [| by apply IH].
    destruct x as [p l | up t]; cbn in *; [| by eapply repr_lookup]. apply list_elem_of_singleton in Hq as ->. by rewrite Hx, Hx'.
Qed.

Lemma ctx_root h h' r r' c o : repr_ctx h r c o -> repr_ctx h' r' c o -> r = r'.
Proof. revert o. induction c as [| f c IH]; intros o; cbn; [congruence |]. intros (_ & _ & Hc) (_ & _ & Hc'). by eapply IH. Qed.

(** The description determines the state where it is complete. *)
Lemma sat_unique w w' c o ps :
  sat w c o ps -> sat w' c o ps -> w_size w' = w_size w -> (forall q, q ∉ owned c ps -> w_links w' !! q = w_links w !! q) ->
  w_data w' = w_data w -> w' = w.
Proof.
  intros Hs Hs' Hz Ho Hd. assert (w_links w' = w_links w).
  { apply map_eq. intros q. destruct (decide (q ∈ owned c ps)) as [Hq | Hq]; [by eapply sat_lookup | auto]. }
  pose proof (ctx_root _ _ _ _ _ _ (sat_ctx _ _ _ _ Hs) (sat_ctx _ _ _ _ Hs')). destruct w, w'. cbn in *. congruence.
Qed.

Lemma runs_readonly {A} c o ps (m : W D A) a w : runs c o ps m a c o ps -> sat w c o ps -> m w = Done (a, w).
Proof.
  intros [_ Hm] Hs. destruct (Hm w Hs) as (w' & Em & Hs' & Hz & Ho & Hd). rewrite Em. do 2 f_equal. by eapply sat_unique.
Qed.

(** Two operations that do the same to the description do the same. *)
Lemma runs_same {A} c o ps (m m' : W D A) a c' o' ps' w : runs c o ps m a c' o' ps' -> runs c o ps m' a c' o' ps' -> sat w c o ps -> m w = m' w.
Proof.
  intros [Hown Hm] [_ Hm'] Hs. destruct (Hm w Hs) as (w1 & E1 & Hs1 & Hz1 & Ho1 & Hd1). destruct (Hm' w Hs) as (w2 & E2 & Hs2 & Hz2 & Ho2 & Hd2).
  rewrite E1, E2. do 2 f_equal. eapply sat_unique; [done | done | congruence | | congruence]. intros q Hq. rewrite <- Hown in Hq. by rewrite Ho1, Ho2.
Qed.

(** ** The neighbours of a node *)

Definition neighbour (s : Side) (c : list frame) : Link := match s with Right => head (afters c) | Left => last (befores c) end.

Lemma root_ptr t p : root_of t = Some p -> exists l k r, t = N l p k r.
Proof. destruct t as [| l q k r]; [done |]. intros [= ->]. by exists l, k, r. Qed.

Lemma climb_ok s c t p n ps :
  root_of t = Some p -> (length c < n)%nat ->
  runs c (root_of t) (PTree (up_of c) t :: ps) (climb n s p) (neighbour s c) c (root_of t) (PTree (up_of c) t :: ps).
Proof.
  revert t p n. induction c as [| f c IH]; intros t p n Hp Hn; (destruct n as [| n]; [cbn in Hn; lia |]); cbn [climb];
    destruct (root_ptr t p Hp) as (l & k & r & ->); (eapply runs_bind; [apply tree_links |]); cbn [l_up node_links up_of].
  - destruct s; apply runs_ret.
  - eapply runs_bind; [apply ctx_links |]. apply (runs_fact (root_of (f_sib f) <> Some p)); [| done | intros Hne].
    { intros w Hs. apply (sat_sib_ne _ _ _ _ _ _ Hs). cbn. rewrite !elem_of_app, elem_of_cons. auto. }
    destruct (frame_child f (up_of c) (Some p)) as [Hc1 Hc2]. destruct (decide (f_side f = s)) as [<- | Hside].
    + cbn [root_of]. rewrite Hc1, bool_decide_true by done.
      replace (neighbour (f_side f) (f :: c)) with (neighbour (f_side f) c) by (unfold neighbour; cbn; by destruct (f_side f)).
      eapply runs_conseq; [apply (same_fill f c (N l p k r)) | apply same_sym, (same_fill f c (N l p k r)) |].
      apply IH; [apply root_bin | cbn in Hn; lia].
    + assert (s = opposite (f_side f)) as -> by (destruct s, (f_side f); done).
      cbn [root_of]. rewrite Hc2, bool_decide_false by done.
      replace (neighbour (opposite (f_side f)) (f :: c)) with (Some (f_ptr f)); [apply runs_ret |].
      unfold neighbour. cbn. destruct (f_side f); cbn; [done |]. by rewrite app_assoc, last_snoc.
Qed.

Lemma nodes_max c2 y ky X : Forall (fun f => f_side f = Right) c2 -> nodes (plug (N X y ky E) c2) = nodes (plug X c2) ++ [y].
Proof.
  intros Hall. assert (Ha : afters c2 = []) by (induction Hall as [| f c Hs _ IH]; cbn; [done |]; by rewrite Hs).
  rewrite !nodes_split, Ha. nodes_eq.
Qed.

Lemma find_minimum_ok t p c o up ps :
  root_of t = Some p -> exists y, head (nodes t) = Some y /\ runs c o (PTree up t :: ps) (find_minimum p) y c o (PTree up t :: ps).
Proof.
  intros Hp. destruct (find_extreme_ok (D := D) Left t p Hp) as (c2 & y & ky & X & Hpl & Hall & Hmin). exists y. split.
  - rewrite Hpl. cbn [bin]. by rewrite nodes_min.
  - unfold find_minimum. apply runs_fuel. intros n Hn. apply Hmin. rewrite owned_cons, length_app in Hn. cbn in Hn. lia.
Qed.

Lemma find_maximum_ok t p c o up ps :
  root_of t = Some p -> exists y, last (nodes t) = Some y /\ runs c o (PTree up t :: ps) (find_maximum p) y c o (PTree up t :: ps).
Proof.
  intros Hp. destruct (find_extreme_ok (D := D) Right t p Hp) as (c2 & y & ky & X & Hpl & Hall & Hmax). exists y. split.
  - rewrite Hpl. cbn [bin]. by rewrite nodes_max, last_snoc.
  - unfold find_maximum. apply runs_fuel. intros n Hn. apply Hmax. rewrite owned_cons, length_app in Hn. cbn in Hn. lia.
Qed.

Lemma next_at c l p k r ps :
  runs c (Some p) (PTree (up_of c) (N l p k r) :: ps) (wavl_next p) (head (nodes r ++ afters c)) c (Some p) (PTree (up_of c) (N l p k r) :: ps).
Proof.
  unfold wavl_next. eapply runs_bind; [apply tree_links |]. cbn [l_right node_links]. destruct (root_of r) as [q |] eqn:Hr.
  - destruct (find_minimum_ok r q c (Some p) (Some p) (PNode p (node_links (up_of c) (root_of l) k (Some q)) :: PTree (Some p) l :: ps) Hr) as (y & Hy & Hmin).
    destruct (root_ptr r q Hr) as (rl & rk' & rr & Hre). replace (head (nodes r ++ afters c)) with (Some y) by (rewrite <- Hy, Hre; cbn; by destruct (nodes rl)).
    eapply runs_bind; [| apply runs_ret]. eapply runs_conseq; [| | apply Hmin]; [| apply same_sym];
      (apply eqp_same; rewrite eqp_N, Hr; apply eqp_perm; solve_Permutation).
  - assert (r = E) as -> by (by destruct r). cbn. apply runs_fuel. intros n Hn. pose proof (ctx_length c (PTree (up_of c) (N l p k E) :: ps)).
    apply (climb_ok Right c (N l p k E)); [done | lia].
Qed.

Lemma prev_at c l p k r ps :
  runs c (Some p) (PTree (up_of c) (N l p k r) :: ps) (wavl_prev p) (last (befores c ++ nodes l)) c (Some p) (PTree (up_of c) (N l p k r) :: ps).
Proof.
  unfold wavl_prev. eapply runs_bind; [apply tree_links |]. cbn [l_left node_links]. destruct (root_of l) as [q |] eqn:Hl.
  - destruct (find_maximum_ok l q c (Some p) (Some p) (PNode p (node_links (up_of c) (Some q) k (root_of r)) :: PTree (Some p) r :: ps) Hl) as (y & Hy & Hmax).
    replace (last (befores c ++ nodes l)) with (Some y) by (by rewrite last_app, Hy).
    eapply runs_bind; [| apply runs_ret]. eapply runs_conseq; [| | apply Hmax]; [| apply same_sym];
      (apply eqp_same; rewrite eqp_N, Hl; apply eqp_perm; solve_Permutation).
  - assert (l = E) as -> by (by destruct l). cbn. rewrite app_nil_r. apply runs_fuel. intros n Hn. pose proof (ctx_length c (PTree (up_of c) (N E p k r) :: ps)).
    apply (climb_ok Left c (N E p k r)); [done | lia].
Qed.

Lemma node_position t p : p ∈ nodes t -> exists c l k r, t = plug (N l p k r) c.
Proof.
  induction t as [| l IHl q k r IHr]; cbn; [by intros ?%not_elem_of_nil |]. rewrite elem_of_app, elem_of_cons. intros [Hp | [-> | Hp]].
  - destruct (IHl Hp) as (c & l' & k' & r' & ->). exists (c ++ [Frame Left q k r]), l', k', r'. by rewrite plug_app.
  - by exists [], l, k, r.
  - destruct (IHr Hp) as (c & l' & k' & r' & ->). exists (c ++ [Frame Right q k l]), l', k', r'. by rewrite plug_app.
Qed.

Lemma nodup_split {A} (p : A) l1 l2 l1' l2' : NoDup (l1 ++ p :: l2) -> l1 ++ p :: l2 = l1' ++ p :: l2' -> l1 = l1' /\ l2 = l2'.
Proof.
  revert l1'. induction l1 as [| x l1 IH]; intros [| y l1']; cbn; intros Hn Hl; apply NoDup_cons in Hn as [Hp Hn].
  - injection Hl as Hl. by subst.
  - injection Hl as <- ->. destruct Hp. apply elem_of_app. right. by left.
  - injection Hl as -> <-. destruct Hp. apply elem_of_app. right. by left.
  - injection Hl as -> Hl. by destruct (IH l1' Hn Hl) as [-> ->].
Qed.

(** In terms of the whole tree. *)
Lemma neighbours_ok t A p B :
  NoDup (nodes t) -> nodes t = A ++ p :: B ->
  runs [] (root_of t) [PTree None t] (wavl_next p) (head B) [] (root_of t) [PTree None t]
  /\ runs [] (root_of t) [PTree None t] (wavl_prev p) (last A) [] (root_of t) [PTree None t].
Proof.
  intros Hn Ht. destruct (node_position t p) as (c & l & k & r & ->); [rewrite Ht; apply elem_of_app; right; by left |].
  pose proof (nodes_split (N l p k r) c) as Hs. cbn [nodes] in Hs. rewrite Ht in Hn, Hs.
  replace (befores c ++ (nodes l ++ p :: nodes r) ++ afters c) with ((befores c ++ nodes l) ++ p :: (nodes r ++ afters c)) in Hs by (by rewrite <- !app_assoc).
  destruct (nodup_split _ _ _ _ _ Hn Hs) as [-> ->].
  pose proof (same_plug c [] (N l p k r) []) as Hp. rewrite app_nil_r in Hp.
  split; (eapply runs_conseq; [apply same_sym, Hp | apply Hp |]); [apply next_at | apply prev_at].
Qed.
End readonly.
