(* ===== verification/WavlOps.v ===== *)
(** * The operations of the weak AVL tree on the list that it holds

    A valid tree holds a list of nodes in the order of their keys. The lemmas
    on insertion, removal, search, iteration, entries, clearing and the tree's
    own check in terms of that list; the height is logarithmic in its
    length. *)

From stdpp Require Import base numbers list gmap sorting.
From Stdlib Require Import ZArith Lia.
From S2P Require Import Prelude ArrayVec WavlTree WavlRepr WavlBalance WavlShrink WavlSearch.

(** ** Ranks and sizes *)

Lemma rk_length t : wavl t -> rk t + 1 <= Z.of_nat (length (nodes t)).
Proof.
  induction t as [| l IHl p k r IHr]; [cbn; lia |]. intros ((Hl & Hr & Hk) & Hwl & Hwr). specialize (IHl Hwl). specialize (IHr Hwr).
  cbn. rewrite length_app. cbn. pose proof (wavl_rk _ Hwl). pose proof (wavl_rk _ Hwr). lia.
Qed.

Lemma rk_log t : wavl t -> 2 ^ ((rk t + 1) / 2) <= Z.of_nat (length (nodes t)) + 1.
Proof.
  induction t as [| l IHl p k r IHr]; [done |]. intros ((Hl & Hr & Hk) & Hwl & Hwr). specialize (IHl Hwl). specialize (IHr Hwr).
  pose proof (wavl_rk _ Hwl). pose proof (wavl_rk _ Hwr). cbn [nodes rk]. rewrite length_app. cbn [length].
  assert (Hmono : forall a, k - 2 <= a -> -1 <= a -> 2 ^ ((k + 1) / 2) <= 2 * 2 ^ ((a + 1) / 2)).
  { intros a Ha Ha'. rewrite <- Z.pow_succ_r by (apply Z.div_pos; lia). apply Z.pow_le_mono_r; [lia |].
    pose proof (Z.div_le_mono (k + 1) (a + 1 + 1 * 2) 2 ltac:(lia) ltac:(lia)) as Hd. rewrite Z.div_add in Hd by lia. lia. }
  pose proof (Hmono (rk l) ltac:(lia) ltac:(lia)). pose proof (Hmono (rk r) ltac:(lia) ltac:(lia)). lia.
Qed.

Lemma rk_bound t : wavl t -> rk t + 1 <= 2 * Z.log2 (Z.of_nat (length (nodes t)) + 1) + 1.
Proof.
  intros Hw. pose proof (rk_log t Hw) as Hl. pose proof (wavl_rk _ Hw).
  apply Z.log2_le_mono in Hl. rewrite Z.log2_pow2 in Hl by (apply Z.div_pos; lia). pose proof (Z.mod_pos_bound (rk t + 1) 2 ltac:(lia)).
  pose proof (Z.div_mod (rk t + 1) 2 ltac:(lia)). lia.
Qed.

Lemma rk_usize t : wavl t -> is_usize (Z.of_nat (length (nodes t))) -> rk t < USIZE_MAX - 1.
Proof.
  unfold is_usize. intros Hw Hn. pose proof (rk_bound t Hw) as Hb.
  assert (Z.log2 (Z.of_nat (length (nodes t)) + 1) <= Z.log2 (2 ^ 64)) as Hl by (apply Z.log2_le_mono; lia). rewrite Z.log2_pow2 in Hl by lia. lia.
Qed.

(** ** What a tree holds *)

Section correct.
Context {D : Type} {LD : Linked D} {Au : Augmentation D} {K : Type} `{Ord K} (key : nptr -> K).
#[local] Abbreviation runs := (runs (D := D)).
Implicit Types (w : WAVLTree D) (d : D).

Record tree_ok (w : WAVLTree D) (t : tree) : Prop := {
  to_sat : sat w [] (root_of t) [PTree None t];
  to_wavl : wavl t;
  to_sorted : StronglySorted (before key) (nodes t);
  to_size : w_size w = Z.of_nat (length (nodes t));
  to_usize : is_usize (w_size w);
  to_inv : inv t (w_data w);
}.

(** The tree is valid and holds the nodes [l], in order. *)
Definition contents (w : WAVLTree D) (l : list nptr) : Prop := exists t, tree_ok w t /\ nodes t = l.

Lemma tree_nodup w t : tree_ok w t -> NoDup (nodes t).
Proof. intros Hok. pose proof (sat_nodup _ _ _ _ (to_sat _ _ Hok)) as Hn. unfold owned in Hn. cbn in Hn. by rewrite app_nil_r in Hn. Qed.

Lemma tree_fuel w t n : tree_ok w t -> (length (owned [] [PTree None t]) < n)%nat -> rk t < Z.of_nat n.
Proof.
  intros Hok Hn. pose proof (rk_length t (to_wavl _ _ Hok)). unfold owned in Hn. cbn in Hn. rewrite app_nil_r in Hn. lia.
Qed.

Lemma sat_redata w n d c o ps : sat w c o ps -> sat (MkTree (w_root w) n (w_links w) d) c o ps.
Proof. by intros [Hc Hp Hn]. Qed.

Lemma sat_drop w c o x ps : sat w c o (x :: ps) -> sat w c o ps.
Proof.
  intros [Hc Hp Hn]. inversion_clear Hp. split; [done | done |]. rewrite owned_cons in Hn. by apply NoDup_app in Hn as (_ & _ & Hn).
Qed.

Lemma sat_add w c o ps p l : sat w c o ps -> w_links w !! p = Some l -> p ∉ owned c ps -> sat w c o (PNode p l :: ps).
Proof.
  intros [Hc Hp Hn] Hl Hno. split; [done | by constructor |]. rewrite owned_cons. by apply NoDup_cons.
Qed.

Lemma runs_get_root o ps : runs [] o ps get_root o [] o ps.
Proof. split; [done |]. intros w Hs. exists w. split; [| done]. unfold get_root. pose proof (sat_ctx _ _ _ _ Hs) as Hr. cbn in Hr. by rewrite Hr. Qed.

(** ** Insertion *)

Definition leaf_at (c : list frame) : bool := match c with [] => false | f :: _ => bool_decide (root_of (f_sib f) = None) end.

(** Hanging the node [p] into the free position [f :: c]. *)
Lemma link_ok f c p ps :
  runs (f :: c) None (PNode p links_new :: ps)
    (_ ← replace_parent p (Some (f_ptr f)); _ ← replace_child (f_ptr f) (f_side f) (Some p); mret (leaf_at (f :: c))) (leaf_at (f :: c))
    (f :: c) (Some p) (PTree (Some (f_ptr f)) (N E p 0 E) :: ps).
Proof.
  eapply runs_bind; [prim |]. eapply runs_bind; [apply runs_set_hole |]. eapply runs_post; [| apply runs_ret].
  apply eqp_same. link_cbn. rewrite eqp_N, eqp_E, eqp_E. done.
Qed.


Lemma insert_loop_ok p t c n q c' ps :
  root_of t = Some q -> wavl t -> rk t < Z.of_nat n -> locate key (key p) t c = (c', E) ->
  runs c (root_of t) (PTree (up_of c) t :: PNode p links_new :: ps) (insert_loop key n p q) (leaf_at c')
       c' (Some p) (PTree (up_of c') (N E p 0 E) :: ps).
Proof.
  revert c n q. induction t as [| l IHl x k r IHr]; intros c n q; [done |]. intros [= ->] (Hk & Hwl & Hwr & Hl & Hr)%wavl_N Hn Hloc.
  cbn in Hn. destruct n as [| n]; [lia |]. cbn [insert_loop]. eapply runs_bind; [apply tree_links |].
  cbn [locate] in Hloc. destruct (cmp (key p) (key q)); [done | |]; (eapply runs_bind; [apply runs_ret |]); link_cbn.
  - pose proof (same_fill (Frame Left q k r) c l (PNode p links_new :: ps)) as Hf. eapply runs_pre; [apply same_sym, Hf |].
    destruct (root_of l) as [ql |] eqn:Hql; [apply (IHl (Frame Left q k r :: c)); done || lia |].
    assert (l = E) as -> by (by destruct l). injection Hloc as <-. eapply runs_pre; [apply eqp_same, eqp_E |].
    replace (is_leaf _) with (leaf_at (Frame Left q k r :: c)) by done. apply (link_ok (Frame Left q k r)).
  - pose proof (same_fill (Frame Right q k l) c r (PNode p links_new :: ps)) as Hf. eapply runs_pre; [apply same_sym, Hf |].
    destruct (root_of r) as [qr |] eqn:Hqr; [apply (IHr (Frame Right q k l :: c)); done || lia |].
    assert (r = E) as -> by (by destruct r). injection Hloc as <-. eapply runs_pre; [apply eqp_same, eqp_E |].
    replace (is_leaf _) with (leaf_at (Frame Right q k l :: c)) by (unfold is_leaf; cbn; by rewrite andb_true_r). apply (link_ok (Frame Right q k l)).
Qed.

Definition panics (c : list frame) (o : Link) (ps : list piece) {A} (m : W D A) : Prop := forall w, sat w c o ps -> m w = Panicked.

Lemma panics_bind {A B} c o ps (m : W D A) (f : A -> W D B) a c1 o1 ps1 :
  runs c o ps m a c1 o1 ps1 -> panics c1 o1 ps1 (f a) -> panics c o ps (m ≫= f).
Proof.
  intros [_ Hm] Hf w Hs. destruct (Hm w Hs) as (w1 & E1 & Hs1 & _). rewrite (M_bind_Done m f w a w1 E1). by apply Hf.
Qed.

Lemma panics_pre {A} c o ps c1 o1 ps1 (m : W D A) : sameps c o ps c1 o1 ps1 -> panics c1 o1 ps1 m -> panics c o ps m.
Proof. intros Hs Hp w Hw. eapply Hp, same_sat, Hw. done. Qed.

Lemma insert_loop_panics p t c n q c' l' p' k' r' c0 o up ps :
  root_of t = Some q -> wavl t -> rk t < Z.of_nat n -> locate key (key p) t c0 = (c', N l' p' k' r') ->
  panics c o (PTree up t :: ps) (insert_loop key n p q).
Proof.
  revert c0 n q c o up ps. induction t as [| l IHl x k r IHr]; intros c0 n q c1 o up ps; [done |]. intros [= ->] (Hk & Hwl & Hwr & Hl & Hr)%wavl_N Hn Hloc.
  cbn in Hn. destruct n as [| n]; [lia |]. cbn [insert_loop]. eapply panics_bind; [apply tree_links |].
  cbn [locate] in Hloc. destruct (cmp (key p) (key q)); [by intros w _ | |]; (eapply panics_bind; [apply runs_ret |]); link_cbn.
  - destruct (root_of l) as [ql |] eqn:Hql; [| by destruct l].
    eapply panics_pre; [| eapply IHl; done || lia]. apply eqp_same. rewrite eqp_N. apply eqp_perm, Permutation_swap.
  - destruct (root_of r) as [qr |] eqn:Hqr; [| by destruct r].
    apply (panics_pre _ _ _ c1 o (PTree (Some q) r :: PNode q (node_links up (root_of l) k (root_of r)) :: PTree (Some q) l :: ps));
      [| eapply IHr; done || lia]. apply eqp_same. rewrite eqp_N. apply eqp_perm. solve_Permutation.
Qed.

(** The node is hung in at the position that the search for its key ends at. *)
Definition hang (p : nptr) (root : Link) : W D bool :=
  match root with
  | Some curr => fuel ← get_fuel; insert_loop key fuel p curr
  | None => _ ← set_root (Some p); mret false
  end.

Lemma owned_node t p l : (length (owned [] [PTree None t; PNode p l]) = S (length (nodes t)))%nat.
Proof. unfold owned. cbn. rewrite length_app. cbn. lia. Qed.

Lemma hang_ok p t c :
  wavl t -> locate key (key p) t [] = (c, E) ->
  runs [] (root_of t) [PTree None t; PNode p links_new] (hang p (root_of t)) (leaf_at c) c (Some p) [PTree (up_of c) (N E p 0 E)].
Proof.
  intros Hw Hloc. destruct (root_of t) as [q |] eqn:Hq; cbn [hang].
  - apply runs_fuel. intros n Hn. rewrite <- Hq. apply (insert_loop_ok p t []); [done | done | | done].
    pose proof (rk_length t Hw). rewrite owned_node in Hn. lia.
  - assert (t = E) as -> by (by destruct t). injection Hloc as <-. eapply runs_bind; [apply runs_set_root |].
    eapply runs_conseq; [apply eqp_same, eqp_E | | apply runs_ret]. apply eqp_same. rewrite eqp_N, !eqp_E. done.
Qed.

Definition restore (p : nptr) (was_leaf : bool) : W D unit := if was_leaf then balance_after_insert p else mret tt.

Lemma restore_ok p c : ctx_ok c (-1) -> small c -> rebalances c (N E p 0 E) (restore p (leaf_at c)).
Proof.
  intros Hc Hsm. assert (Hw : wavl (N E p 0 E)) by (cbn; unfold node_ok; lia). destruct c as [| f c]; [by apply rebalances_ret |].
  destruct Hc as ((Hd & Hds & Hl) & Hws & Hc). pose proof (wavl_rk _ Hws). cbn [leaf_at]. rewrite root_none by done.
  destruct (rk (f_sib f) =? -1) eqn:HE; cbn [restore].
  - apply Z.eqb_eq in HE. apply balance_after_insert_ok; [by apply wavl_empty | lia | | done]. by rewrite <- Hl.
  - apply Z.eqb_neq in HE. apply rebalances_ret; [done |]. cbn. unfold node_ok. repeat split; try done; lia.
Qed.

Lemma sorted_insert_at p A B :
  StronglySorted (before key) (A ++ B) -> (forall q, q ∈ A -> before key q p) -> (forall q, q ∈ B -> before key p q) ->
  StronglySorted (before key) (A ++ p :: B).
Proof.
  rewrite !StronglySorted_app, StronglySorted_cons, Forall_forall. intros (HAB & HA & HB) Hp Hq. repeat split; try done.
  intros x y Hx [-> | Hy]%elem_of_cons; auto.
Qed.

(** The insertion after its checks. *)
Definition insert_linked (p : nptr) (link : W D bool) : W D unit :=
  was_leaf ← link; _ ← hook (fun h => after_insert h p); _ ← update_size (fun n => u_add n 1); restore p was_leaf.

Lemma insert_linked_ok w t p c (link : W D bool) :
  tree_ok w t -> w_links w !! p = Some links_new -> p ∉ nodes t -> ready p (w_data w) -> Z.of_nat (length (nodes t)) + 1 < USIZE_MOD ->
  locate key (key p) t [] = (c, E) ->
  runs [] (root_of t) [PTree None t; PNode p links_new] link (leaf_at c) c (Some p) [PTree (up_of c) (N E p 0 E)] ->
  exists w' T, insert_linked p link w = Done (tt, w') /\ tree_ok w' T /\ nodes T = befores c ++ p :: afters c
    /\ forall q, q ∉ p :: nodes t -> w_links w' !! q = w_links w !! q.
Proof.
  intros Hok Hp Hno Hrdy Hlen Hloc Hlink. pose proof (to_wavl _ _ Hok) as Hw. pose proof (to_size _ _ Hok) as Hz.
  pose proof (locate_ok key (key p) t [] (to_sorted _ _ Hok)) as Hl. rewrite Hloc in Hl.
  destruct Hl as (Hpl & Hdiv & _); [by split; intros ? ?%not_elem_of_nil |]. cbn in Hpl.
  assert (Hs : sat w [] (root_of t) [PTree None t; PNode p links_new]).
  { eapply same_sat; [apply eqp_same, eqp_perm, Permutation_swap |]. apply sat_add; [apply Hok | done |]. unfold owned. cbn. by rewrite app_nil_r. }
  pose proof Hw as Hwc. rewrite <- Hpl in Hwc. pose proof (ctx_ranks _ _ Hwc) as Hrk. apply wavl_plug in Hwc as [_ Hc].
  destruct (restore_ok p c Hc) as (T & HT & HnT & Hrun).
  { eapply Forall_impl; [exact Hrk |]. cbn. rewrite Hpl. pose proof (rk_usize t Hw). unfold is_usize in *. lia. }
  destruct Hlink as [Hown Hlink]. destruct (Hlink w Hs) as (w1 & E1 & Hs1 & Hz1 & Ho1 & Hd1).
  destruct (inv_insert (w_links w1) c p (w_data w1)) as (d & Ed & Hd); [by eapply sat_repr | by eapply sat_plug | rewrite Hpl, Hd1; apply Hok | by rewrite Hd1 |].
  destruct (Hrun []) as [Hown2 Hrest].
  destruct (Hrest _ (sat_redata _ (w_size w + 1) d _ _ _ Hs1) Hd) as (w' & E2 & Hs2 & Hz2 & Ho2 & HdT).
  rewrite nodes_split in HnT. cbn in HnT. exists w', T. split; [| split; [| split; [done |]]].
  - unfold insert_linked. rewrite (M_bind_Done _ _ _ _ _ E1).
    rewrite (M_bind_Done _ _ w1 tt (MkTree (w_root w1) (w_size w1) (w_links w1) d)) by (unfold hook; by rewrite Ed).
    rewrite (M_bind_Done _ _ _ tt (MkTree (w_root w1) (w_size w + 1) (w_links w1) d)); [exact E2 |].
    unfold update_size. cbn. by rewrite Hz1, u_add_Done by (unfold is_usize; lia).
  - assert (Hsz : w_size w' = Z.of_nat (length (nodes T))) by (rewrite Hz2, HnT; cbn; rewrite Hz, <- Hpl, nodes_split, !length_app; cbn; lia).
    split; [done | done | | done | | done].
    + rewrite HnT. apply sorted_insert_at; [| apply Hdiv | apply Hdiv]. pose proof (to_sorted _ _ Hok) as Hso. by rewrite <- Hpl, nodes_split in Hso.
    + rewrite Hz2. cbn. unfold is_usize. lia.
  - intros q Hq. assert (Hq' : q ∉ owned [] [PTree None t; PNode p links_new]) by (unfold owned; cbn; set_solver).
    rewrite Ho2, Ho1; [done | done |]. by rewrite <- Hown.
Qed.

Lemma wavl_insert_unfold w p :
  w_root w <> Some p -> w_links w !! p = Some links_new ->
  wavl_insert key p w = match insert_linked p (hang p (w_root w)) w with Done (_, w') => Done (p, w') | Panicked => Panicked | Undefined => Undefined end.
Proof.
  intros Hr Hp. unfold wavl_insert, insert_linked.
  rewrite (M_bind_Done _ _ w (w_root w) w eq_refl). rewrite (M_bind_Done _ _ w tt w) by (by rewrite bool_decide_false).
  rewrite (M_bind_Done _ _ w links_new w) by (unfold links; by rewrite Hp). rewrite (M_bind_Done _ _ w tt w) by done.
  fold (hang p (w_root w)). unfold mbind, M_bind. destruct (hang p (w_root w) w) as [[b w1] | |]; [| done | done].
  destruct (hook _ w1) as [[[] w2] | |]; [| done | done]. destruct (update_size _ w2) as [[[] w3] | |]; [| done | done].
  unfold restore. destruct b; [| done]. by destruct (balance_after_insert p w3) as [[[] w4] | |].
Qed.

(** ** The list that the tree holds *)

Definition has_key (k : K) (q : nptr) : bool := match cmp k (key q) with Eq => true | _ => false end.

Fixpoint sorted_insert (p : nptr) (l : list nptr) : list nptr :=
  match l with
  | [] => [p]
  | q :: l' => if key_lt (key p) (key q) then p :: l else q :: sorted_insert p l'
  end.

Lemma sorted_insert_split p A B :
  (forall q, q ∈ A -> before key q p) -> (forall q, q ∈ B -> before key p q) -> sorted_insert p (A ++ B) = A ++ p :: B.
Proof.
  intros HA HB. induction A as [| x A IH]; cbn.
  - destruct B as [| y B]; cbn; [done |]. unfold key_lt. by rewrite (HB y) by (by left).
  - unfold key_lt. rewrite (cmp_not_lt (key x) (key p)) by (apply HA; by left). rewrite IH; [done |]. intros q Hq. apply HA. by right.
Qed.

Lemma has_key_lt k q : klt (key q) k \/ klt k (key q) -> has_key k q = false.
Proof. unfold has_key. intros [Hq | Hq]; [by rewrite (cmp_not_lt _ _ Hq) | by rewrite Hq]. Qed.

Lemma divides_keys k c q : divides key k c -> q ∈ befores c \/ q ∈ afters c -> has_key k q = false.
Proof. intros [Hb Ha] [Hq | Hq]; apply has_key_lt; auto. Qed.

(** The search of a tree that holds [l], as a division of [l]. *)
Lemma locate_tree_ok w t k : tree_ok w t ->
  let '(c, t') := locate key k t [] in plug t' c = t /\ divides key k c /\ found key k t'.
Proof.
  intros Hok. pose proof (locate_ok key k t [] (to_sorted _ _ Hok)) as Hl. apply Hl. by split; intros ? ?%not_elem_of_nil.
Qed.

Lemma sorted_subtree w l p kp r c : tree_ok w (plug (N l p kp r) c) -> forall q, q ∈ nodes l \/ q ∈ nodes r -> has_key (key p) q = false.
Proof.
  intros Hok q Hq. pose proof (to_sorted _ _ Hok) as Hs. rewrite nodes_split in Hs.
  apply StronglySorted_app_1_r, StronglySorted_app_1_l in Hs. apply (sorted_N key) in Hs as (_ & _ & Hl & Hr).
  apply has_key_lt. destruct Hq; [left; by apply Hl | right; by apply Hr].
Qed.

Lemma find_locate w t k : tree_ok w t -> List.find (has_key k) (nodes t) = root_of (locate key k t []).2.
Proof.
  intros Hok. pose proof (locate_tree_ok w t k Hok) as Hl. destruct (locate key k t []) as [c t'] eqn:Hloc. destruct Hl as (Hpl & Hd & Hf). cbn.
  rewrite <- Hpl, nodes_split, !find_app, (find_none _ (befores c)), (find_none _ (afters c)) by (intros; eapply divides_keys; eauto).
  cbn [orelse]. destruct t' as [| l p kp r]; [done |]. cbn in Hf. subst k.
  cbn [nodes]. rewrite find_app, (find_none _ (nodes l)).
  - cbn. unfold has_key at 1. by rewrite (proj2 (cmp_eq (key p) (key p)) eq_refl).
  - intros q Hq. eapply (sorted_subtree w); [by rewrite Hpl | by left].
Qed.

Lemma root_fresh w t p : tree_ok w t -> p ∉ nodes t -> w_root w <> Some p.
Proof.
  intros Hok Hp. pose proof (sat_ctx _ _ _ _ (to_sat _ _ Hok)) as Hr. cbn in Hr. rewrite Hr. intros Hroot. by apply Hp, root_in_nodes.
Qed.

(** The insertion of a node with a key that is not in the tree. *)
Lemma wavl_insert_ok w t p :
  tree_ok w t -> w_links w !! p = Some links_new -> p ∉ nodes t -> ready p (w_data w) -> Z.of_nat (length (nodes t)) + 1 < USIZE_MOD ->
  List.find (has_key (key p)) (nodes t) = None ->
  exists w' T, wavl_insert key p w = Done (p, w') /\ tree_ok w' T /\ nodes T = sorted_insert p (nodes t)
    /\ forall q, q ∉ p :: nodes t -> w_links w' !! q = w_links w !! q.
Proof.
  intros Hok Hp Hno Hrdy Hlen Hf. rewrite wavl_insert_unfold by (done || by eapply root_fresh).
  rewrite (find_locate w t _ Hok) in Hf. pose proof (locate_tree_ok w t (key p) Hok) as Hl.
  pose proof (sat_ctx _ _ _ _ (to_sat _ _ Hok)) as Hr. cbn in Hr. rewrite Hr.
  destruct (locate key (key p) t []) as [c [| l' p' k' r']] eqn:Hloc; [| done].
  destruct (insert_linked_ok w t p c (hang p (root_of t))) as (w' & T & E1 & HT & HnT & Ho); try done; [apply hang_ok; [apply Hok | done] |].
  rewrite E1. exists w', T. split_and!; try done. destruct Hl as (Hpl & [Hb Ha] & _).
  rewrite HnT, <- Hpl, nodes_split. cbn [nodes app]. by rewrite sorted_insert_split.
Qed.

Lemma filter_keep (f : nptr -> bool) l : (forall q, q ∈ l -> f q = true) -> List.filter f l = l.
Proof. intros Hf. induction l as [| x l IH]; cbn; [done |]. rewrite Hf by (by left). f_equal. apply IH. intros q Hq. apply Hf. by right. Qed.

Lemma filter_drop (f : nptr -> bool) l : (forall q, q ∈ l -> f q = false) -> List.filter f l = [].
Proof. intros Hf. induction l as [| x l IH]; cbn; [done |]. rewrite Hf by (by left). apply IH. intros q Hq. apply Hf. by right. Qed.

(** ** Search *)

Lemma find_internal_ok w t k :
  tree_ok w t -> find_internal key k w = Done ((root_of (locate key k t []).2, side_of (locate key k t []).1), w).
Proof.
  intros Hok. eapply runs_readonly, Hok. unfold find_internal. eapply runs_bind; [apply runs_get_root |]. apply runs_fuel. intros n Hn.
  apply (find_loop_ok key k t []); [apply Hok | by eapply tree_fuel].
Qed.

(** As many steps as the height bound are enough for every search. *)
Definition steps (l : list nptr) : Z := 2 * Z.log2 (Z.of_nat (length l) + 1) + 1.

Lemma steps_fuel w t n : tree_ok w t -> steps (nodes t) <= Z.of_nat n -> rk t < Z.of_nat n.
Proof. intros Hok Hn. pose proof (rk_bound t (to_wavl _ _ Hok)). unfold steps in Hn. lia. Qed.

Lemma searches_ok w t n k b : tree_ok w t -> rk t < Z.of_nat n ->
  find_loop key n k None (w_root w) w = Done ((root_of (locate key k t []).2, side_of (locate key k t []).1), w)
  /\ lower_loop key n b None (w_root w) w = Done (List.find (fun q => lower_cond b (key q)) (nodes t), w)
  /\ upper_loop key n b None (w_root w) w = Done (List.find (fun q => negb (upper_cond b (key q))) (reverse (nodes t)), w).
Proof.
  intros Hok Hn. pose proof (sat_ctx _ _ _ _ (to_sat _ _ Hok)) as Hr. cbn in Hr. rewrite Hr.
  assert (Ho : forall o : Link, orelse o None = o) by (by intros []).
  split; [| split]; (eapply runs_readonly, Hok).
  - apply (find_loop_ok key k t []); [apply Hok | done].
  - rewrite <- (Ho (List.find _ _)). apply (lower_loop_ok key b t n None); [apply Hok | done | apply Hok].
  - rewrite <- (Ho (List.find _ _)). apply (upper_loop_ok key b t n None); [apply Hok | done | apply Hok].
Qed.

Lemma bounds_ok w t b : tree_ok w t ->
  find_lower_bound key b w = Done (List.find (fun q => lower_cond b (key q)) (nodes t), w)
  /\ find_upper_bound key b w = Done (List.find (fun q => negb (upper_cond b (key q))) (reverse (nodes t)), w).
Proof.
  intros Hok. assert (Hn : rk t < Z.of_nat (S (size (w_links w)))).
  { eapply tree_fuel; [done |]. pose proof (sat_size _ _ _ _ (to_sat _ _ Hok)). lia. }
  destruct (w_root w) as [r |] eqn:Hr; unfold find_lower_bound, find_upper_bound;
    rewrite !(M_bind_Done _ _ w (w_root w) w eq_refl), !(M_bind_Done _ _ w (S (size (w_links w))) w eq_refl);
    by destruct (searches_ok w t (S (size (w_links w))) (key 1%positive) b Hok Hn) as (_ & Hl & Hu).
Qed.

(** ** Removal *)

Lemma remove_at_ok w t p l k r c :
  tree_ok w t -> t = plug (N l p k r) c -> removable t p ->
  exists w' T A B, remove_internal p (MkTree (w_root w) (w_size w - 1) (w_links w) (w_data w)) = Done (p, w')
    /\ tree_ok w' T /\ nodes t = A ++ p :: B /\ nodes T = A ++ B
    /\ w_links w' !! p = Some (removed k) /\ (forall q, q ∉ nodes t -> w_links w' !! q = w_links w !! q).
Proof.
  intros Hok -> Hrem. pose proof (to_wavl _ _ Hok) as Hw. pose proof (to_size _ _ Hok) as Hz. pose proof (to_usize _ _ Hok) as Hu.
  destruct (remove_internal_ok c l p k r Hw) as (T & A & B & HT & Ht & HnT & Hrun);
    [assert (Hrk := rk_usize _ Hw); rewrite <- Hz in Hrk; specialize (Hrk Hu); lia | done |].
  pose proof (same_plug c [] (N l p k r) []) as Hp. rewrite app_nil_r in Hp. destruct (Hrun []) as [Hown Hr].
  destruct (Hr (MkTree (w_root w) (w_size w - 1) (w_links w) (w_data w))) as (w' & E1 & Hs & Hz' & Ho & HdT).
  { apply sat_redata. eapply same_sat; [apply same_sym, Hp |]. apply Hok. }
  { apply Hok. }
  assert (Hlen : Z.of_nat (length (nodes (plug (N l p k r) c))) = Z.of_nat (length (nodes T)) + 1) by (rewrite Ht, HnT, !length_app; cbn; lia).
  exists w', T, A, B. split; [done |]. split; [| split; [done | split; [done |]]].
  - split; [| done | | | | done].
    + eapply sat_drop, same_sat, Hs. apply eqp_same, eqp_perm, Permutation_swap.
    + pose proof (to_sorted _ _ Hok) as Hso. rewrite Ht in Hso. rewrite HnT. rewrite !StronglySorted_app, StronglySorted_cons in *.
      destruct Hso as (HAB & HA & _ & HB). repeat split; try done. intros x y Hx Hy. apply HAB; [done | by right].
    + rewrite Hz'. cbn. lia.
    + rewrite Hz'. cbn. unfold is_usize in *. lia.
  - destruct Hs as [_ Hps _]. inversion_clear Hps as [| ?? _ Hps']. inversion_clear Hps' as [| ?? Hpn _]. split; [exact Hpn |].
    intros q Hq. apply Ho. rewrite owned_plug. cbn. by rewrite app_nil_r.
Qed.

Lemma filter_split k p A B :
  (forall q, q ∈ A \/ q ∈ B -> has_key k q = false) -> has_key k p = true ->
  List.filter (fun q => negb (has_key k q)) (A ++ p :: B) = A ++ B.
Proof.
  intros Hn Hp. rewrite List.filter_app. cbn. rewrite Hp. cbn. rewrite !filter_keep; [done | |]; intros q Hq; rewrite Hn; auto.
Qed.

Lemma sorted_keys p A B : StronglySorted (before key) (A ++ p :: B) -> forall q, q ∈ A \/ q ∈ B -> has_key (key p) q = false.
Proof.
  rewrite StronglySorted_app, StronglySorted_cons, Forall_forall. intros (HA & _ & HB & _) q [Hq | Hq]; apply has_key_lt;
    [left; apply HA; [done | by left] | right; by apply HB].
Qed.

(** ** Iteration *)

(** The iterator over a part [L] of the nodes. *)
Definition seg_iter (L : list nptr) : Iter := MkIter (head L) (last L).

Lemma next_readonly w t A p B : tree_ok w t -> nodes t = A ++ p :: B -> wavl_next p w = Done (head B, w) /\ wavl_prev p w = Done (last A, w).
Proof.
  intros Hok Ht. destruct (neighbours_ok (D := D) t A p B (tree_nodup _ _ Hok) Ht) as [Hn Hp].
  split; (eapply runs_readonly; [done | apply Hok]).
Qed.

Lemma iter_next_ok w t A p L C : tree_ok w t -> nodes t = A ++ (p :: L) ++ C -> iter_next (seg_iter (p :: L)) w = Done ((Some p, seg_iter L), w).
Proof.
  intros Hok Ht. pose proof (tree_nodup _ _ Hok) as Hn. rewrite Ht in Hn. apply NoDup_app in Hn as (_ & _ & Hn). cbn in Hn. apply NoDup_cons in Hn as [Hp _].
  unfold iter_next, seg_iter. cbn [head i_head i_tail]. destruct L as [| q L]; [by rewrite bool_decide_true |].
  rewrite last_cons_cons, bool_decide_false.
  - destruct (next_readonly w t A p ((q :: L) ++ C) Hok Ht) as [En _]. by rewrite (M_bind_Done _ _ _ _ _ En).
  - intros Hl. symmetry in Hl. apply last_Some_elem_of in Hl. apply Hp, elem_of_app. by left.
Qed.

Lemma iter_next_back_ok w t A q L C : tree_ok w t -> nodes t = A ++ (L ++ [q]) ++ C -> iter_next_back (seg_iter (L ++ [q])) w = Done ((Some q, seg_iter L), w).
Proof.
  intros Hok Ht. pose proof (tree_nodup _ _ Hok) as Hn. rewrite Ht in Hn. apply NoDup_app in Hn as (_ & _ & Hn). apply NoDup_app in Hn as (Hn & _ & _).
  apply NoDup_app in Hn as (_ & Hq & _). unfold iter_next_back, seg_iter. cbn [i_head i_tail]. rewrite last_snoc. destruct L as [| p L]; [by rewrite bool_decide_true |].
  cbn [head app]. rewrite bool_decide_false.
  - destruct (next_readonly w t (A ++ p :: L) q C Hok) as [_ Ep]; [rewrite Ht, <- !app_assoc; done |]. rewrite last_app_cons in Ep.
    by rewrite (M_bind_Done _ _ _ _ _ Ep).
  - intros [= ->]. eapply (Hq p); by left.
Qed.

(** The iterators with the tree that they borrow. *)
Definition with_tree (next : Iter -> W D (Link * Iter)) (s : Iter * WAVLTree D) : outcome (Link * (Iter * WAVLTree D)) :=
  match next s.1 s.2 with Done ((x, it), w) => Done (x, (it, w)) | Panicked => Panicked | Undefined => Undefined end.

Definition iterates (w : WAVLTree D) (l : list nptr) (s : Iter * WAVLTree D) (L : list nptr) : Prop :=
  s = (seg_iter L, w) /\ exists A C, l = A ++ L ++ C.

Lemma iter_step w t back s L : tree_ok w t -> iterates w (nodes t) s L ->
  exists s', (if back : bool then with_tree iter_next_back s else with_tree iter_next s) = Done ((deque_take back L).1, s')
    /\ iterates w (nodes t) s' (deque_take back L).2.
Proof.
  intros Hok [-> (A & C & Ht)]. unfold with_tree. cbn [fst snd]. destruct back; cbn [deque_take fst snd].
  - destruct L as [| q L _] using rev_ind; [exists (seg_iter [], w); split; [done |]; split; [done | by exists A, C] |].
    rewrite (iter_next_back_ok w t A q L C Hok Ht), last_snoc. exists (seg_iter L, w). split; [done |].
    rewrite length_app, take_app_le, take_ge by (cbn; lia). split; [done |]. exists A, (q :: C). by rewrite Ht, <- app_assoc.
  - destruct L as [| p L]; [exists (seg_iter [], w); split; [done |]; split; [done | by exists A, C] |].
    rewrite (iter_next_ok w t A p L C Hok Ht). exists (seg_iter L, w). split; [done |]. split; [done |]. exists (A ++ [p]), C. by rewrite Ht, <- app_assoc.
Qed.

Lemma pulls_ok w t dirs L A C : tree_ok w t -> nodes t = A ++ L ++ C ->
  exists it, pulls (with_tree iter_next) (with_tree iter_next_back) dirs (seg_iter L, w) = Done ((deque_takes dirs L).1, (it, w)).
Proof.
  intros Hok Ht. destruct (pulls_spec (with_tree iter_next) (with_tree iter_next_back) (iterates w (nodes t)) dirs) with (it := (seg_iter L, w)) (l := L)
    as (s & E1 & [-> _]); [| split; [done | by exists A, C] | by eexists].
  intros back s L' Hs. by apply iter_step.
Qed.

Lemma wavl_ends_ok w t : tree_ok w t -> wavl_front w = Done (head (nodes t), w) /\ wavl_back w = Done (last (nodes t), w).
Proof.
  intros Hok. destruct (root_of t) as [p |] eqn:Hp.
  - destruct (find_minimum_ok (D := D) t p [] (Some p) None [] Hp) as (x & Hx & Hmin). destruct (find_maximum_ok (D := D) t p [] (Some p) None [] Hp) as (y & Hy & Hmax).
    split; (eapply runs_readonly; [| apply Hok]); rewrite Hp, ?Hx, ?Hy; (eapply runs_bind; [apply runs_get_root |]; eapply runs_bind; [done | apply runs_ret]).
  - assert (t = E) as -> by (by destruct t). split; (eapply runs_readonly; [| apply Hok]); (eapply runs_bind; [apply runs_get_root | apply runs_ret]).
Qed.

Lemma wavl_iter_ok w t : tree_ok w t -> wavl_iter w = Done (seg_iter (nodes t), w).
Proof.
  intros [Ef Eb]%wavl_ends_ok. unfold wavl_iter. by rewrite (M_bind_Done _ _ _ _ _ Ef), (M_bind_Done _ _ _ _ _ Eb).
Qed.

Lemma sorted_cut f l : StronglySorted (before key) l -> upward f ->
  exists A B, l = A ++ B /\ (forall q, q ∈ A -> f (key q) = false) /\ (forall q, q ∈ B -> f (key q) = true).
Proof.
  intros Hs Hf. induction Hs as [| p l Hs IH Hp]; [exists [], []; by split; [| split; intros ? ?%not_elem_of_nil] |].
  destruct (f (key p)) eqn:Hfp.
  - exists [], (p :: l). split; [done |]. split; [by intros ? ?%not_elem_of_nil |]. intros q [-> | Hq]%elem_of_cons; [done |].
    rewrite Forall_forall in Hp. eapply Hf; [by apply Hp | done].
  - destruct IH as (A & B & -> & HA & HB). exists (p :: A), B. split; [done |]. split; [| done]. by intros q [-> | Hq]%elem_of_cons; [| apply HA].
Qed.

Lemma wavl_is_empty_ok w t : tree_ok w t -> wavl_is_empty w = Done (bool_decide (nodes t = []), w).
Proof.
  intros Hok. pose proof (to_size _ _ Hok) as Hz. pose proof (sat_ctx _ _ _ _ (to_sat _ _ Hok)) as Hr. cbn in Hr. unfold wavl_is_empty. rewrite Hr, Hz.
  destruct t as [| l p k r]; [done |]. replace (Z.of_nat (length (nodes (N l p k r))) =? 0) with false.
  - rewrite !bool_decide_false; [done | | done]. cbn. by destruct (nodes l).
  - symmetry. apply Z.eqb_neq. cbn. rewrite length_app. cbn. lia.
Qed.

(** The nodes in a range. *)
Definition in_range (lo hi : Bound K) (q : nptr) : bool := lower_cond lo (key q) && negb (upper_cond hi (key q)).

Lemma range_cut lo hi l : StronglySorted (before key) l ->
  exists A C, l = A ++ List.filter (in_range lo hi) l ++ C
    /\ (forall q, q ∈ A -> lower_cond lo (key q) = false) /\ (forall q, q ∈ C -> upper_cond hi (key q) = true).
Proof.
  intros Hs. destruct (sorted_cut _ l Hs (lower_cond_upward lo)) as (A & B & -> & HA & HB).
  apply StronglySorted_app_1_r in Hs. destruct (sorted_cut _ B Hs (upper_cond_upward hi)) as (L & C & -> & HL & HC).
  exists A, C. split; [| done]. rewrite !List.filter_app. unfold in_range.
  rewrite (filter_drop _ A) by (intros q Hq; by rewrite HA). rewrite (filter_drop _ C) by (intros q Hq; rewrite HC by done; apply andb_false_r).
  rewrite filter_keep; [by rewrite app_nil_r |]. intros q Hq. rewrite HL, HB by (done || (apply elem_of_app; by left)). done.
Qed.

Lemma wavl_range_ok w t lo hi (L := List.filter (in_range lo hi) (nodes t)) :
  tree_ok w t -> L <> [] -> wavl_range key lo hi w = Done (seg_iter L, w) /\ exists A C, nodes t = A ++ L ++ C.
Proof.
  intros Hok HL. destruct (range_cut lo hi (nodes t) (to_sorted _ _ Hok)) as (A & C & Ht & HA & HC). fold L in Ht. split; [| by exists A, C].
  unfold wavl_range. destruct (bounds_ok w t lo Hok) as [El _]. destruct (bounds_ok w t hi Hok) as [_ Eu].
  assert (Hin : forall q, q ∈ L -> in_range lo hi q = true) by (intros q Hq; apply list_elem_of_In in Hq; by apply List.filter_In in Hq as [_ Hq]).
  clearbody L. assert (Hne : wavl_is_empty w = Done (false, w)).
  { rewrite (wavl_is_empty_ok w t Hok), bool_decide_false; [done |]. rewrite Ht. by destruct L, A. }
  rewrite (M_bind_Done _ _ _ _ _ Hne), (M_bind_Done _ _ _ _ _ El), (M_bind_Done _ _ _ _ _ Eu). unfold seg_iter, mret, M_ret. do 3 f_equal.
  - rewrite Ht, find_app, (find_none _ A) by done. cbn [orelse]. destruct L as [| x L']; [done |]. cbn. specialize (Hin x (list_elem_of_here _ _)).
    apply andb_true_iff in Hin as [-> _]. done.
  - rewrite Ht, !reverse_app, <- app_assoc, find_app, (find_none _ (reverse C)) by (intros q Hq; rewrite elem_of_reverse in Hq; by rewrite HC). cbn [orelse].
    destruct L as [| x L' _] using rev_ind; [done |]. rewrite reverse_snoc, last_snoc. cbn.
    assert (Hx : in_range lo hi x = true) by (apply Hin, elem_of_app; right; by left). apply andb_true_iff in Hx as [_ ->]. done.
Qed.

(** ** Entries *)

Definition hang_at (p : nptr) (ps : option (nptr * Side)) : W D bool :=
  match ps with
  | Some (parent, side) =>
      parent_links ← links parent;
      let was_leaf := is_leaf parent_links in
      _ ← replace_parent p (Some parent);
      _ ← replace_child parent side (Some p);
      mret was_leaf
  | None =>
      root ← get_root;
      _ ← lift (assert_ (bool_decide (root = None)));
      _ ← set_root (Some p);
      mret false
  end.

Lemma hang_at_ok p c t :
  plug E c = t ->
  runs [] (root_of t) [PTree None t; PNode p links_new] (hang_at p (side_of c)) (leaf_at c) c (Some p) [PTree (up_of c) (N E p 0 E)].
Proof.
  intros <-. pose proof (same_plug c [] E [PNode p links_new]) as Hp. rewrite app_nil_r in Hp. eapply runs_pre; [apply same_sym, Hp |].
  eapply runs_pre; [apply eqp_same, eqp_E |]. cbn [root_of]. destruct c as [| f c]; cbn [side_of hang_at].
  - eapply runs_bind; [apply runs_get_root |]. eapply runs_bind; [by apply runs_assert, bool_decide_true |]. eapply runs_bind; [apply runs_set_root |].
    eapply runs_post; [| apply runs_ret]. apply eqp_same. rewrite eqp_N, !eqp_E. done.
  - eapply runs_bind; [apply ctx_links |]. replace (is_leaf _) with (leaf_at (f :: c)); [apply link_ok |].
    unfold is_leaf. destruct f as [[] ???]; cbn; [done | by rewrite andb_true_r].
Qed.

(** A hook that returns and the count of the nodes may be exchanged. *)
Lemma hook_size {A} f n (m : W D A) w d :
  f (w_links w) (w_data w) = Done d ->
  (_ ← update_size n; _ ← hook f; m) w = (_ ← hook f; _ ← update_size n; m) w.
Proof.
  intros Hf. unfold mbind, M_bind, update_size, hook. rewrite Hf. cbn. destruct (n (w_size w)) as [s | |]; [| done | done]. cbn. by rewrite Hf.
Qed.

Lemma vacant_insert_unfold w p ps b w1 d :
  w_root w <> Some p -> w_links w !! p = Some links_new -> hang_at p ps w = Done (b, w1) -> after_insert (w_links w1) p (w_data w1) = Done d ->
  vacant_insert ps p w = match insert_linked p (hang_at p ps) w with Done (_, w') => Done (p, w') | Panicked => Panicked | Undefined => Undefined end.
Proof.
  intros Hr Hp Eh Ed. unfold vacant_insert, insert_inner, insert_linked.
  rewrite (M_bind_Done _ _ w (w_root w) w eq_refl). rewrite (M_bind_Done _ _ w tt w) by (by rewrite bool_decide_false).
  unfold mbind at 1, M_bind at 1. rewrite (M_bind_Done _ _ w links_new w) by (unfold links; by rewrite Hp). rewrite (M_bind_Done _ _ w tt w) by done.
  fold (hang_at p ps). rewrite !(M_bind_Done _ _ _ _ _ Eh). rewrite (hook_size _ _ _ _ d) by done.
  unfold mbind, M_bind. destruct (hook _ w1) as [[[] w2] | |]; [| done | done]. destruct (update_size _ w2) as [[[] w3] | |]; [| done | done].
  unfold restore. destruct b; [| done]. by destruct (balance_after_insert p w3) as [[[] w4] | |].
Qed.

Lemma vacant_insert_same w t p c :
  tree_ok w t -> w_links w !! p = Some links_new -> p ∉ nodes t -> ready p (w_data w) -> locate key (key p) t [] = (c, E) ->
  vacant_insert (side_of c) p w = wavl_insert key p w.
Proof.
  intros Hok Hp Hno Hrdy Hloc. pose proof (locate_tree_ok w t (key p) Hok) as Hl. rewrite Hloc in Hl. destruct Hl as (Hpl & _).
  assert (Hs : sat w [] (root_of t) [PTree None t; PNode p links_new]).
  { eapply same_sat; [apply eqp_same, eqp_perm, Permutation_swap |]. apply sat_add; [apply Hok | done |]. unfold owned. cbn. by rewrite app_nil_r. }
  destruct (hang_at_ok p c t Hpl) as [_ Hh]. destruct (Hh w Hs) as (w1 & E1 & Hs1 & _ & _ & Hd1).
  destruct (inv_insert (w_links w1) c p (w_data w1)) as (d & Ed & _); [by eapply sat_repr | by eapply sat_plug | rewrite Hpl, Hd1; apply Hok | by rewrite Hd1 |].
  rewrite (vacant_insert_unfold w p (side_of c) (leaf_at c) w1 d), wavl_insert_unfold by (done || by eapply root_fresh).
  pose proof (sat_ctx _ _ _ _ Hs) as Hr. cbn in Hr. rewrite Hr.
  assert (Hsame : hang_at p (side_of c) w = hang p (root_of t) w) by (eapply runs_same; [by apply hang_at_ok | apply hang_ok; [apply Hok | done] | done]).
  unfold insert_linked, mbind, M_bind. by rewrite Hsame.
Qed.

(** ** The tree's own check *)

Lemma ne_links_ok c o ps a b : (forall x, a = Some x -> b <> Some x) -> runs c o ps (ne_links a b) tt c o ps.
Proof.
  intros Hne. destruct a as [a |], b as [b |]; try apply runs_ret. cbn. apply runs_assert. rewrite bool_decide_false; [done |]. intros ->. by apply (Hne b).
Qed.

Lemma links_assert_valid_ok c l p k r ps :
  runs c (Some p) (PTree (up_of c) (N l p k r) :: ps) (links_assert_valid p) tt c (Some p) (PTree (up_of c) (N l p k r) :: ps).
Proof.
  unfold links_assert_valid. eapply runs_bind; [apply tree_links |]. cbn [l_up l_left l_right node_links].
  apply (runs_fact (NoDup (nodes l ++ p :: nodes r ++ ctx_nodes c))); [| done | intros Hn].
  { intros w Hs. pose proof (sat_nodup _ _ _ _ Hs) as Hd. rewrite owned_cons in Hd. unfold owned in Hd. cbn in Hd.
    replace ((nodes l ++ p :: nodes r) ++ ctx_nodes c ++ mjoin (piece_nodes <$> ps))
      with ((nodes l ++ p :: nodes r ++ ctx_nodes c) ++ mjoin (piece_nodes <$> ps)) in Hd by nodes_eq. by apply NoDup_app in Hd as (Hd & _). }
  assert (Hup : forall x, up_of c = Some x -> x ∈ ctx_nodes c) by (destruct c as [| f c]; [done |]; intros x [= <-]; by left).
  pose proof (root_in_nodes l) as Hl. pose proof (root_in_nodes r) as Hr.
  rewrite NoDup_app, NoDup_cons, NoDup_app in Hn. setoid_rewrite elem_of_cons in Hn. setoid_rewrite elem_of_app in Hn. destruct Hn as (_ & H1 & H2 & _ & H3 & _).
  repeat (eapply runs_bind; [apply ne_links_ok; naive_solver |]). apply ne_links_ok. naive_solver.
Qed.

(** The check of the subtree on one side of the node [p]. *)
Lemma check_side_ok s a p k b c n ps :
  (forall q f c' ps', root_of a = Some q -> f_rank f = k -> f_ptr f = p ->
     runs (f :: c') (Some q) (PTree (Some p) a :: ps') (assert_valid_inner key n q p) tt (f :: c') (Some q) (PTree (Some p) a :: ps')) ->
  (forall q, root_of a = Some q -> match s with Left => before key q p | Right => before key p q end) ->
  runs c (Some p) (PTree (up_of c) (bin s a p k b) :: ps)
    (match root_of a with
     | Some q => _ ← lift (assert_ (match s with Left => key_lt (key q) (key p) | Right => key_lt (key p) (key q) end)); assert_valid_inner key n q p
     | None => mret tt
     end) tt c (Some p) (PTree (up_of c) (bin s a p k b) :: ps).
Proof.
  intros Hrec Hlt. destruct (root_of a) as [q |] eqn:Hq; [| apply runs_ret].
  eapply runs_bind; [apply runs_assert; specialize (Hlt q eq_refl); destruct s; unfold key_lt; unfold before, klt in Hlt; by rewrite Hlt |].
  pose proof (same_fill (Frame s p k b) c a ps) as Hf. unfold fill in Hf. cbn [f_side f_ptr f_rank f_sib] in Hf. rewrite root_bin, Hq in Hf.
  eapply runs_conseq; [apply same_sym, Hf | apply Hf |]. by apply (Hrec q (Frame s p k b)).
Qed.

Lemma assert_valid_inner_ok t : wavl t -> StronglySorted (before key) (nodes t) ->
  forall n p f c ps, root_of t = Some p -> 1 <= f_rank f - rk t <= 2 -> f_rank f < USIZE_MOD -> rk t < Z.of_nat n ->
  runs (f :: c) (Some p) (PTree (Some (f_ptr f)) t :: ps) (assert_valid_inner key n p (f_ptr f)) tt (f :: c) (Some p) (PTree (Some (f_ptr f)) t :: ps).
Proof.
  induction t as [| l IHl p k r IHr]; [done |]. intros Hw Hs n p' f c ps [= <-] Hd Hf Hn. pose proof Hw as ((Hdl & Hdr & Hdk) & Hwl & Hwr).
  pose proof (wavl_N _ _ _ _ Hw) as (Hk & _). apply (sorted_N key) in Hs as (Hsl & Hsr & Hpl & Hpr). cbn [rk] in Hd, Hn.
  destruct n as [| n]; [lia |]. cbn [assert_valid_inner]. eapply runs_bind; [apply tree_links |].
  eapply runs_bind; [apply (links_assert_valid_ok (f :: c)) |]. eapply runs_bind; [apply ctx_links |]. cbn [l_rank l_left l_right node_links].
  replace (l_rank (frame_links f (up_of c) (Some p))) with (f_rank f) by (by destruct f as [[] ???]).
  rewrite u_sub_Done by (unfold is_usize; lia). eapply runs_bind; [apply runs_ret |].
  eapply runs_bind; [apply runs_assert, andb_true_iff; lia |]. eapply (runs_bind _ _ _ _ _ tt).
  { unfold is_leaf. cbn [l_left l_right node_links]. rewrite !root_none by done. destruct (rk l =? -1) eqn:E1; [| apply runs_ret].
    destruct (rk r =? -1) eqn:E2; [| apply runs_ret]. apply Z.eqb_eq in E1, E2. cbn [andb]. apply runs_assert, Z.eqb_eq. auto. }
  eapply runs_bind; [apply (check_side_ok Left l p k r (f :: c)) | apply (check_side_ok Right r p k l (f :: c))].
  - intros q g c' ps' Hq Hgk Hgp. rewrite <- Hgp. apply IHl; done || lia.
  - intros q Hq. by apply Hpl, root_in_nodes.
  - intros q g c' ps' Hq Hgk Hgp. rewrite <- Hgp. apply IHr; done || lia.
  - intros q Hq. by apply Hpr, root_in_nodes.
Qed.

Lemma wavl_assert_valid_ok w t : tree_ok w t -> wavl_assert_valid key w = Done (tt, w).
Proof.
  intros Hok. eapply runs_readonly, Hok. unfold wavl_assert_valid. eapply runs_bind; [apply runs_get_root |].
  pose proof (to_wavl _ _ Hok) as Hw. pose proof (rk_usize t Hw) as Hu. rewrite <- (to_size _ _ Hok) in Hu. specialize (Hu (to_usize _ _ Hok)).
  destruct t as [| l p k r]; [apply runs_ret |]. cbn [root_of rk] in *. apply runs_fuel. intros n Hn. pose proof (tree_fuel w _ n Hok Hn) as Hnk. cbn in Hnk.
  pose proof Hw as ((Hdl & Hdr & _) & Hwl & Hwr). pose proof (sorted_N key _ _ _ _ (to_sorted _ _ Hok)) as (Hsl & Hsr & _).
  eapply runs_bind; [apply tree_links |]. eapply runs_bind; [apply (links_assert_valid_ok []) |]. cbn [l_left l_right node_links].
  eapply (runs_bind _ _ _ _ _ tt [] (Some p) [PTree None (N l p k r)]).
  - destruct (root_of l) as [q |] eqn:Hq; [| apply runs_ret]. pose proof (same_fill (Frame Left p k r) [] l []) as Hf. rewrite Hq in Hf.
    eapply runs_conseq; [apply same_sym, Hf | apply Hf |]. apply (assert_valid_inner_ok l Hwl Hsl n q (Frame Left p k r)); cbn; done || lia.
  - destruct (root_of r) as [q |] eqn:Hq; [| apply runs_ret]. pose proof (same_fill (Frame Right p k l) [] r []) as Hf. rewrite Hq in Hf.
    eapply runs_conseq; [apply same_sym, Hf | apply Hf |]. apply (assert_valid_inner_ok r Hwr Hsr n q (Frame Right p k l)); cbn; done || lia.
Qed.

(** ** Clearing *)

(** The nodes of a tree, unlinked. *)
Fixpoint removed_all (t : tree) : list piece :=
  match t with E => [] | N l p k r => PNode p (removed k) :: removed_all l ++ removed_all r end.

Lemma clear_inner_ok t : wavl t -> forall n p up ps, root_of t = Some p -> rk t < Z.of_nat n ->
  runs [] None (PTree up t :: ps) (clear_inner n p) tt [] None (removed_all t ++ ps).
Proof.
  induction t as [| l IHl p k r IHr]; [done |]. intros (Hk & Hwl & Hwr & Hl & Hr)%wavl_N n p' up ps [= <-] Hn. cbn [rk] in Hn.
  destruct n as [| n]; [lia |]. cbn [clear_inner]. eapply runs_bind; [apply tree_links |]. cbn [l_left l_right node_links].
  set (pn := PNode p (node_links up (root_of l) k (root_of r))).
  eapply runs_pre; [apply eqp_same, eqp_N |]. fold pn.
  assert (Hsub : forall t qs, (forall m q, root_of t = Some q -> rk t < Z.of_nat m -> forall up ps, runs [] None (PTree up t :: ps) (clear_inner m q) tt [] None (removed_all t ++ ps)) ->
    rk t < Z.of_nat n ->
    runs [] None (PTree (Some p) t :: qs) (match root_of t with Some q => clear_inner n q | None => mret tt end) tt [] None (removed_all t ++ qs)).
  { intros t qs IH Hm. destruct t as [| tl q tk tr]; [eapply runs_pre; [apply eqp_same, eqp_E | apply runs_ret] |]. by apply IH. }
  eapply (runs_bind _ _ _ _ _ tt [] None (PTree (Some p) r :: pn :: removed_all l ++ ps)).
  { eapply runs_conseq; [| | apply (Hsub l (pn :: PTree (Some p) r :: ps)); [intros; by apply IHl | lia]].
    - apply eqp_same, eqp_perm, Permutation_swap.
    - apply eqp_same, eqp_perm. solve_Permutation. }
  eapply runs_bind; [apply Hsub; [intros; by apply IHr | lia] |].
  eapply runs_pre; [apply eqp_same, eqp_perm, Permutation_sym, Permutation_middle |].
  eapply runs_post; [| by apply runs_update]. apply eqp_same, eqp_perm. cbn. solve_Permutation.
Qed.

Lemma removed_all_holds h t p : Forall (piece_holds h) (removed_all t) -> p ∈ nodes t -> exists k, h !! p = Some (removed k).
Proof.
  induction t as [| l IHl q k r IHr]; cbn; [by intros _ ?%not_elem_of_nil |]. rewrite Forall_cons, Forall_app, elem_of_app, elem_of_cons.
  intros (Hq & Hl & Hr) [Hp | [-> | Hp]]; [auto | by exists k | auto].
Qed.

Lemma wavl_clear_ok w t : tree_ok w t ->
  exists w', wavl_clear w = Done (tt, w') /\ w_root w' = None
    /\ (forall p, p ∈ nodes t -> exists lk, w_links w' !! p = Some lk /\ is_linked lk = false)
    /\ (forall q, q ∉ nodes t -> w_links w' !! q = w_links w !! q).
Proof.
  intros Hok. assert (Hrun : runs [] (root_of t) [PTree None t] wavl_clear tt [] None (removed_all t ++ [])).
  { unfold wavl_clear. eapply runs_bind; [apply runs_get_root |]. eapply runs_bind; [apply runs_set_root |].
    destruct (root_of t) as [p |] eqn:Hp; [| assert (t = E) as -> by (by destruct t); eapply runs_pre; [apply eqp_same, eqp_E | apply runs_ret]].
    apply runs_fuel. intros n Hn. apply clear_inner_ok; [apply Hok | done | by eapply tree_fuel]. }
  destruct Hrun as [Hown Hrun]. destruct (Hrun w (to_sat _ _ Hok)) as (w' & E1 & Hs & _ & Ho). exists w'. split; [done |]. split; [apply Hs |]. split.
  - intros p Hp. pose proof (sat_pieces _ _ _ _ Hs) as Hps. rewrite app_nil_r in Hps. destruct (removed_all_holds _ _ _ Hps Hp) as [k Hk]. by exists (removed k).
  - intros q Hq. apply Ho. unfold owned. cbn. by rewrite app_nil_r.
Qed.
End correct.
