(* ===== verification/Wavl.v ===== *)
(** * Correctness of the weak AVL tree

    The tree refines a list of nodes sorted by key: what its operations do to
    that list, for every tree that holds one. *)

From stdpp Require Import base numbers list gmap sorting.
From Stdlib Require Import ZArith Lia.
From S2P Require Import Prelude ArrayVec WavlTree WavlRepr WavlBalance WavlShrink WavlSearch WavlOps.

Section correct.
Context {D : Type} {LD : Linked D} {Au : Augmentation D} {K : Type} `{Ord K} (key : nptr -> K).
Implicit Types w : WAVLTree D.

(** A node of a tree is its root or has a parent. *)
Lemma repr_linked h up t p lk :
  repr h up t -> p ∈ nodes t -> h !! p = Some lk -> (root_of t = Some p /\ l_up lk = up) \/ is_linked lk = true.
Proof.
  revert up. induction t as [|l IHl q k r IHr]; intros up Ht Hin Hp; [by apply elem_of_nil in Hin|]. destruct Ht as (Hq & Hl & Hr).
  assert (forall t', repr h (Some q) t' -> p ∈ nodes t' -> (root_of t' = Some p /\ l_up lk = Some q) \/ is_linked lk = true -> is_linked lk = true) as Hup.
  { intros t' _ _ [[_ Hu]|?]; [|done]. unfold is_linked. by rewrite Hu. }
  cbn [nodes] in Hin. rewrite elem_of_app, elem_of_cons in Hin. destruct Hin as [Hin|[->|Hin]].
  - right. eapply Hup; [exact Hl|done|by eapply IHl].
  - left. rewrite Hq in Hp. injection Hp as <-. done.
  - right. eapply Hup; [exact Hr|done|by eapply IHr].
Qed.

(** A node that is linked is refused. *)
Lemma insert_linked_panics w t p lk :
  tree_ok key w t -> w_links w !! p = Some lk -> p ∈ nodes t \/ is_linked lk = true -> wavl_insert key p w = Panicked.
Proof.
  intros Hok Hp Hl. unfold wavl_insert. rewrite (M_bind_Done _ _ w (w_root w) w eq_refl). destruct (decide (w_root w = Some p)) as [Hr|Hr].
  { unfold mbind at 1, M_bind at 1. by rewrite bool_decide_true. }
  rewrite (M_bind_Done _ _ w tt w) by (by rewrite bool_decide_false). rewrite (M_bind_Done _ _ w lk w) by (unfold links; by rewrite Hp).
  destruct Hl as [Hin|Hl]; [|unfold mbind at 1, M_bind at 1; by rewrite Hl].
  pose proof (to_sat _ _ _ Hok) as [Hc [Hps _]%Forall_cons _]. cbn in Hc, Hps.
  destruct (repr_linked _ _ _ p lk Hps Hin Hp) as [[Hroot _]|Hl]; [congruence|]. unfold mbind at 1, M_bind at 1. by rewrite Hl.
Qed.

(** C20: Inserting a node into a tree that holds the nodes [l] panics if the node
    is one of them or has a link to another node. A node that is not among them
    and whose links are those of a new node (they are also those of a node that
    is alone in another tree) is inserted: the operation returns, keeps the tree
    valid and the users' invariant, puts the node at its place in the order of the
    keys, and changes no node outside, unless a node of the tree has the same key:
    then it panics. *)
Theorem insert_correct w l p lk :
  contents key w l -> w_links w !! p = Some lk -> Z.of_nat (length l) + 1 < USIZE_MOD ->
  (p ∈ l \/ is_linked lk = true -> wavl_insert key p w = Panicked)
  /\ (p ∉ l -> lk = links_new -> ready p (w_data w) ->
      match List.find (has_key key (key p)) l with
      | Some _ => wavl_insert key p w = Panicked
      | None => exists w', wavl_insert key p w = Done (p, w') /\ contents key w' (sorted_insert key p l)
                  /\ forall q, q ∉ p :: l -> w_links w' !! q = w_links w !! q
      end).
Proof.
  intros (t & Hok & <-) Hp Hlen. split; [by apply insert_linked_panics|]. intros Hno -> Hrdy. destruct (List.find _ _) as [q |] eqn:Hf.
  - rewrite wavl_insert_unfold by (done || by eapply root_fresh). rewrite (find_locate key w t _ Hok) in Hf.
    pose proof (sat_ctx _ _ _ _ (to_sat _ _ _ Hok)) as Hr. cbn in Hr. rewrite Hr.
    destruct (locate key (key p) t []) as [c [| l' p' k' r']] eqn:Hloc; [done |].
    unfold insert_linked. destruct (root_of t) as [q' |] eqn:Hq; [| by destruct t]. cbn [hang].
    unfold mbind, M_bind. cbn [get_fuel]. unfold get_fuel.
    rewrite (insert_loop_panics key p t [] (S (size (w_links w))) q' c l' p' k' r' [] (Some q') None []); try done; [apply Hok | |].
    + eapply tree_fuel; [done |]. pose proof (sat_size _ _ _ _ (to_sat _ _ _ Hok)). lia.
    + rewrite <- Hq. apply Hok.
  - destruct (wavl_insert_ok key w t p) as (w' & T & E1 & HT & HnT & Ho); try done. exists w'. split; [done |]. split; [by exists T | done].
Qed.

(** C21: Removing by key from a tree that holds [l] always returns: the node
    with that key, unlinked, and the tree, with the users' invariant, holds the
    others; or nothing, and the tree is as it was. No node outside changes. *)
Theorem remove_correct w l k :
  contents key w l -> (forall t p, tree_ok key w t -> List.find (has_key key k) l = Some p -> removable t p) ->
  exists w', wavl_remove key k w = Done (List.find (has_key key k) l, w')
    /\ contents key w' (List.filter (fun q => negb (has_key key k q)) l)
    /\ (forall p, List.find (has_key key k) l = Some p -> exists lk, w_links w' !! p = Some lk /\ is_linked lk = false)
    /\ (forall q, q ∉ l -> w_links w' !! q = w_links w !! q).
Proof.
  intros (t & Hok & <-) Hrem. pose proof (locate_tree_ok key w t k Hok) as Hl. pose proof (find_internal_ok key w t k Hok) as Ef.
  specialize (fun p => Hrem t p Hok). rewrite (find_locate key w t k Hok) in Hrem |- *. unfold wavl_remove. rewrite (M_bind_Done _ _ _ _ _ Ef).
  destruct (locate key k t []) as [c t'] eqn:Hloc. destruct Hl as (Hpl & Hd & Hf). cbn [fst snd]. destruct t' as [| l p kp r]; cbn [root_of].
  - exists w. split; [done |]. split; [| done]. exists t. split; [done |]. symmetry. apply filter_keep. intros q Hq.
    rewrite <- Hpl, nodes_split, !elem_of_app in Hq. cbn in Hq. rewrite (divides_keys key k c q Hd); [done |].
    destruct Hq as [Hq | [Hq | Hq]]; [by left | by apply not_elem_of_nil in Hq | by right].
  - cbn in Hf. subst k. destruct (remove_at_ok key w t p l kp r c Hok) as (w' & T & A & B & E1 & HT & Ht & HnT & Hp & Ho); [done | by apply Hrem |].
    exists w'. split; [| split; [| split]].
    + rewrite (M_bind_Done _ _ w tt (MkTree (w_root w) (w_size w - 1) (w_links w) (w_data w))); [by rewrite (M_bind_Done _ _ _ _ _ E1) |].
      unfold update_size. rewrite u_sub_Done; [done |]. pose proof (to_size _ _ _ Hok) as Hz. pose proof (to_usize _ _ _ Hok).
      rewrite Hz, Ht, length_app in *. unfold is_usize in *. cbn in *. lia.
    + exists T. split; [done |]. rewrite Ht, filter_split; [done | |].
      * apply sorted_keys. rewrite <- Ht. apply Hok.
      * unfold has_key. by rewrite (proj2 (cmp_eq (key p) (key p)) eq_refl).
    + intros q [= <-]. by eexists.
    + done.
Qed.

(** C22: The searches in a tree that holds [l] change nothing and find: the
    node with the key, if there is one; the first node within a lower bound;
    the last within an upper bound. Their loops take no more steps than twice
    the logarithm of the number of nodes, and one. *)
Theorem search_correct w l k b n :
  contents key w l -> steps l <= Z.of_nat n ->
  exists ps, find_internal key k w = Done ((List.find (has_key key k) l, ps), w)
    /\ find_loop key n k None (w_root w) w = find_internal key k w
    /\ find_lower_bound key b w = Done (List.find (fun q => lower_cond b (key q)) l, w)
    /\ lower_loop key n b None (w_root w) w = find_lower_bound key b w
    /\ find_upper_bound key b w = Done (List.find (fun q => negb (upper_cond b (key q))) (reverse l), w)
    /\ upper_loop key n b None (w_root w) w = find_upper_bound key b w.
Proof.
  intros (t & Hok & <-) Hn. apply (steps_fuel key w t n Hok) in Hn. destruct (bounds_ok key w t b Hok) as [El Eu].
  destruct (searches_ok key w t n k b Hok Hn) as (Ef & El' & Eu'). exists (side_of (locate key k t []).1).
  rewrite (find_locate key w t k Hok), El, Eu, Ef, El', Eu'. by rewrite (find_internal_ok key w t k Hok).
Qed.

(** C23: Iterating over a tree that holds [l], from both ends in any
    interleaving, changes nothing and yields [l] as a double-ended queue does;
    iterating over a range yields in the same way the nodes of [l] within its
    bounds, if there is one. The cursors begin at the ends of [l] and move to
    the neighbours in it. *)
Theorem iter_correct w l lo hi dirs (L := List.filter (in_range key lo hi) l) :
  contents key w l ->
  (exists it it', wavl_iter w = Done (it, w)
     /\ pulls (with_tree iter_next) (with_tree iter_next_back) dirs (it, w) = Done ((deque_takes dirs l).1, (it', w)))
  /\ (L <> [] -> exists it it', wavl_range key lo hi w = Done (it, w)
     /\ pulls (with_tree iter_next) (with_tree iter_next_back) dirs (it, w) = Done ((deque_takes dirs L).1, (it', w)))
  /\ wavl_front w = Done (head l, w) /\ wavl_back w = Done (last l, w)
  /\ (forall A p B, l = A ++ p :: B ->
       cursor_move_next (Some p) w = Done (head B, w) /\ cursor_move_prev (Some p) w = Done (last A, w)).
Proof.
  intros (t & Hok & <-). split; [| split; [| split; [by apply (wavl_ends_ok key) | split; [by apply (wavl_ends_ok key) | intros A p B; by apply (next_readonly key)]]]].
  - destruct (pulls_ok key w t dirs (nodes t) [] []) as [it' Ep]; [done | by rewrite app_nil_r |].
    exists (seg_iter (nodes t)), it'. split; [by apply (wavl_iter_ok key) | done].
  - intros HL. destruct (wavl_range_ok key w t lo hi Hok HL) as [Er (A & C & Ht)].
    destruct (pulls_ok key w t dirs L A C Hok Ht) as [it' Ep]. by exists (seg_iter L), it'.
Qed.

(** Getting the entry of a key and inserting a node with that key if it is
    vacant does the same as inserting the node, and yields the node that is
    there, changing nothing, if it is occupied. *)
Theorem entry_correct w l p :
  contents key w l -> w_links w !! p = Some links_new -> p ∉ l -> ready p (w_data w) ->
  (e ← wavl_entry key (key p); or_insert_with e p) w
  = match List.find (has_key key (key p)) l with
    | Some q => Done (q, w)
    | None => wavl_insert key p w
    end.
Proof.
  intros (t & Hok & <-) Hp Hno Hrdy. rewrite (find_locate key w t _ Hok).
  assert (Ee : wavl_entry key (key p) w
    = Done (match root_of (locate key (key p) t []).2 with Some q => Occupied q | None => Vacant (side_of (locate key (key p) t []).1) end, w)).
  { unfold wavl_entry. by rewrite (M_bind_Done _ _ _ _ _ (find_internal_ok key w t (key p) Hok)). }
  rewrite (M_bind_Done _ _ _ _ _ Ee). destruct (locate key (key p) t []) as [c [| l' p' k' r']] eqn:Hloc; cbn [fst snd root_of or_insert_with]; [| done].
  by apply (vacant_insert_same key w t p c).
Qed.

(** A tree that holds a list passes its own validity check and reports
    whether it is empty; clearing it leaves it without a root, every node
    unlinked and the nodes outside as they were. *)
Theorem valid_correct w l :
  contents key w l ->
  wavl_assert_valid key w = Done (tt, w) /\ wavl_is_empty w = Done (bool_decide (l = []), w)
  /\ exists w', wavl_clear w = Done (tt, w') /\ w_root w' = None
       /\ (forall p, p ∈ l -> exists lk, w_links w' !! p = Some lk /\ is_linked lk = false)
       /\ (forall q, q ∉ l -> w_links w' !! q = w_links w !! q).
Proof.
  intros (t & Hok & <-). split; [by apply (wavl_assert_valid_ok key) in Hok |]. split; [by apply (wavl_is_empty_ok key) |].
  by apply (wavl_clear_ok key).
Qed.
End correct.

(** ** A tree *)

Definition demo_key (p : nptr) : Z := Z.pos p * 10.

(** Nodes 1, 2 and 3, with keys 10, 20 and 30, and the free nodes 4 and 5. *)
Definition demo_shape : tree := N (N E 1 0 E) 2 1 (N E 3 0 E).
Definition demo_nodes : gmap nptr Links :=
  list_to_map [(1%positive, MkLinks false (Some 2%positive) None None 0);
               (2%positive, MkLinks true None (Some 1%positive) (Some 3%positive) 1);
               (3%positive, MkLinks false (Some 2%positive) None None 0);
               (4%positive, links_new); (5%positive, links_new)].
Definition demo_tree : WAVLTree unit := MkTree (Some 2%positive) 3 demo_nodes tt.
Definition demo_list : list nptr := [1; 2; 3]%positive.

Lemma demo_contents : contents demo_key demo_tree demo_list.
Proof.
  exists demo_shape. split; [| done]. split.
  - split; [done | |].
    + constructor; [| constructor]. repeat split; vm_compute; reflexivity.
    + apply (bool_decide_unpack _). vm_compute. exact I.
  - cbn. unfold node_ok. repeat split; lia.
  - unfold before, klt. repeat constructor.
  - done.
  - vm_compute. split; [discriminate | reflexivity].
  - done.
Qed.

Lemma demo_free : w_links demo_tree !! 4%positive = Some links_new /\ (4%positive ∉ demo_list) /\ Z.of_nat (length demo_list) + 1 < USIZE_MOD.
Proof. split; [vm_compute; reflexivity |]. split; [apply (bool_decide_unpack _); vm_compute; exact I | vm_compute; reflexivity]. Qed.

Lemma insert_correct_witness :
  exists w', wavl_insert demo_key 4 demo_tree = Done (4%positive, w') /\ contents demo_key w' [1; 2; 3; 4]%positive.
Proof.
  destruct demo_free as (Hf & Hno & Hlen).
  destruct (insert_correct demo_key demo_tree demo_list 4 links_new demo_contents Hf Hlen) as [_ Hins].
  destruct (Hins Hno eq_refl I) as (w' & E1 & Hc & _).
  exists w'. split; [exact E1 | exact Hc].
Defined.

Lemma remove_correct_witness :
  exists w', wavl_remove demo_key 20 demo_tree = Done (Some 2%positive, w') /\ contents demo_key w' [1; 3]%positive.
Proof.
  destruct (remove_correct demo_key demo_tree demo_list 20 demo_contents (fun _ _ _ _ => I)) as (w' & E1 & Hc & _).
  exists w'. split; [exact E1 | exact Hc].
Defined.

Lemma search_correct_witness :
  steps demo_list <= Z.of_nat 5 /\ exists ps, find_internal demo_key 30 demo_tree = Done ((Some 3%positive, ps), demo_tree)
    /\ find_lower_bound demo_key (Excluded 10) demo_tree = Done (Some 2%positive, demo_tree).
Proof.
  assert (Hn : steps demo_list <= Z.of_nat 5) by (vm_compute; discriminate). split; [exact Hn |].
  destruct (search_correct demo_key demo_tree demo_list 30 (Excluded 10) 5 demo_contents Hn) as (ps & E1 & _ & E2 & _).
  exists ps. split; [exact E1 | exact E2].
Defined.

Lemma iter_correct_witness :
  exists it it', wavl_range demo_key (Included 15) Unbounded demo_tree = Done (it, demo_tree)
    /\ pulls (with_tree iter_next) (with_tree iter_next_back) [true; false; false] (it, demo_tree)
       = Done ([Some 3%positive; Some 2%positive; None], (it', demo_tree)).
Proof.
  destruct (iter_correct demo_key demo_tree demo_list (Included 15) Unbounded [true; false; false] demo_contents) as (_ & Hr & _).
  apply Hr. vm_compute. discriminate.
Defined.

Lemma entry_correct_witness :
  (e ← wavl_entry demo_key 40; or_insert_with e 4) demo_tree = wavl_insert demo_key 4 demo_tree.
Proof. exact (entry_correct demo_key demo_tree demo_list 4 demo_contents (proj1 demo_free) (proj1 (proj2 demo_free)) I). Defined.

Lemma valid_correct_witness : wavl_assert_valid demo_key demo_tree = Done (tt, demo_tree).
Proof. exact (proj1 (valid_correct demo_key demo_tree demo_list demo_contents)). Defined.

(** ** Deviations *)

Definition value {A} (o : outcome (A * WAVLTree unit)) : option A := match o with Done (a, _) => Some a | _ => None end.

(** Removing a node leaves its rank in the links: inserted again, a node that
    was not a leaf fails the check of the tree, in a build that has it. *)
Example stale_rank :
  (_ ← wavl_remove demo_key 20; _ ← wavl_insert demo_key 4; _ ← wavl_insert demo_key 2; wavl_assert_valid demo_key) demo_tree = Panicked.
Proof. vm_compute. reflexivity. Qed.

(** A range that contains no key yields the nodes from its upper end on, or
    from its lower end back; of a mutable range beyond all keys, the last. *)
Example empty_range_yields :
  value ((it ← wavl_range demo_key (Included 12) (Excluded 15); collect 9 iter_next it) demo_tree) = Some [2; 3]%positive
  /\ value ((it ← wavl_range_mut demo_key (Included 35) Unbounded; collect 9 iter_next it) demo_tree) = Some [3]%positive.
Proof. split; vm_compute; reflexivity. Qed.

(** The removal through a cursor or an occupied entry, and [take], leave the
    size: the empty tree panics when it is asked whether it is empty. *)
Example size_not_kept :
  (_ ← wavl_insert demo_key 4; _ ← occupied_remove 4; wavl_is_empty) (wavl_new demo_nodes tt) = Panicked
  /\ (_ ← wavl_insert demo_key 4; _ ← cursor_remove (Some 4%positive); wavl_is_empty) (wavl_new demo_nodes tt) = Panicked
  /\ wavl_is_empty (wavl_take demo_tree).2 = Panicked
  /\ (_ ← wavl_clear; wavl_is_empty) demo_tree = Panicked.
Proof. split; [| split; [| split]]; vm_compute; reflexivity. Qed.

(** The neighbours of a vacant entry: of the one right of node 1 it is node 2
    that comes next, and of the one left of node 4, which has a right child, it
    is node 4. *)
Example vacant_neighbours :
  value ((e ← wavl_entry demo_key 15; match e with Vacant ps => peek_next_inner ps | _ => mret None end) demo_tree) = Some None
  /\ value ((_ ← wavl_insert demo_key 4; _ ← wavl_insert demo_key 5; e ← wavl_entry demo_key 35;
             match e with Vacant ps => peek_next_inner ps | _ => mret None end) (wavl_new demo_nodes tt)) = Some (Some 5%positive).
Proof. split; vm_compute; reflexivity. Qed.

(** The owning iterator yields its last node from the back and again from the
    front. *)
Example into_iter_twice :
  value ((_ ← wavl_insert demo_key 4; r ← into_next_back (MkIter (Some 4%positive) (Some 4%positive)); r' ← into_next r.2;
          mret (r.1, r'.1)) (wavl_new demo_nodes tt)) = Some (Some 4%positive, Some 4%positive).
Proof. vm_compute. reflexivity. Qed.

(** The only node of a tree does not count as linked. *)
Example sole_node_not_linked :
  value ((_ ← wavl_insert demo_key 4; l ← links 4; mret (is_linked l)) (wavl_new demo_nodes tt)) = Some false.
Proof. vm_compute. reflexivity. Qed.
