(* ===== verification/Regions.v ===== *)
(** * Regions of a kernel address space (sys/kernel/src/mem/address_space_region.rs)

    The nodes of the tree of regions: a region with the summary of its subtree
    (the addresses that it spans and its largest gap), the hooks by which the
    region keeps the summaries, and that these are exact after every insertion
    and after the removal of a region that has at most one child. *)

From stdpp Require Import base numbers list gmap.
From Stdlib Require Import ZArith Lia.
From S2P Require Import Prelude Address WavlTree WavlRepr WavlBalance WavlShrink WavlSearch.

(** ** Regions *)

(** What a region is, without the summary: [V] is the memory behind it. *)
Record Static (V : Type) := MkStatic { s_range : range; s_permissions : Z; s_vmo : V; s_vmo_offset : Z }.
Arguments MkStatic {V}.
Arguments s_range {V}.
Arguments s_permissions {V}.
Arguments s_vmo {V}.
Arguments s_vmo_offset {V}.

Record AddressSpaceRegion (V : Type) := MkRegion { reg_static : Static V; max_range : range; max_gap : Z }.
Arguments MkRegion {V}.
Arguments reg_static {V}.
Arguments max_range {V}.
Arguments max_gap {V}.

(** The summary of a new region is that of a tree with it alone. *)
Definition region_new {V} (r : range) (permissions : Z) (vmo : V) : AddressSpaceRegion V :=
  MkRegion (MkStatic r permissions vmo 0) r 0.

Definition reg_range {V} (r : AddressSpaceRegion V) : range := s_range (reg_static r).

Abbreviation Regions V := (gmap nptr (AddressSpaceRegion V)).

(** ** The summary *)

Definition gap (left_last_byte right_first_byte : Z) : Z := Z.max 0 (right_first_byte - left_last_byte).

Section hooks.
Context {V : Type}.
Implicit Types d : Regions V.

Definition region_at (p : nptr) (d : Regions V) : outcome (AddressSpaceRegion V) :=
  match d !! p with Some r => Done r | None => Undefined end.

Lemma region_at_Some p d n : d !! p = Some n -> region_at p d = Done n.
Proof. intros Hp. unfold region_at. by rewrite Hp. Qed.

Definition set_summary (start_ end_ gap_ : Z) (r : AddressSpaceRegion V) : AddressSpaceRegion V :=
  MkRegion (reg_static r) (Range start_ end_) gap_.

Definition region_update (node : nptr) (left_ right_ : Link) (d : Regions V) : outcome (Regions V) :=
  n ← region_at node d;
  lr ← match left_ with
       | Some left_ =>
           l ← region_at left_ d;
           let left_gap := gap (r_end (max_range l)) (r_start (reg_range n)) in
           mret (Z.max left_gap (max_gap l), r_start (max_range l))
       | None => mret (0, r_start (reg_range n))
       end;
  let d := <[node := set_summary lr.2 (r_end (max_range n)) (max_gap n) n]> d in
  rr ← match right_ with
       | Some right_ =>
           r ← region_at right_ d;
           let right_gap := gap (r_end (reg_range n)) (r_start (max_range r)) in
           mret (Z.max right_gap (max_gap r), r_end (max_range r))
       | None => mret (0, r_end (reg_range n))
       end;
  mret (<[node := set_summary lr.2 rr.2 (Z.max lr.1 rr.1) n]> d).

Fixpoint propagate_loop (fuel : nat) (h : gmap nptr Links) (maybe_node : Link) (d : Regions V) : outcome (Regions V) :=
  match maybe_node with
  | None => Done d
  | Some node =>
      match fuel with
      | O => Undefined
      | S fuel =>
          match h !! node with
          | None => Undefined
          | Some links => d ← region_update node (l_left links) (l_right links) d; propagate_loop fuel h (l_up links) d
          end
      end
  end.

Definition propagate_to_root (h : gmap nptr Links) (maybe_node : Link) (d : Regions V) : outcome (Regions V) :=
  propagate_loop (S (size h)) h maybe_node d.

Definition region_after_insert (h : gmap nptr Links) (self : nptr) (d : Regions V) : outcome (Regions V) :=
  r ← region_at self d;
  _ ← assert_ (r_start (max_range r) =? r_start (reg_range r));
  _ ← assert_ (r_end (max_range r) =? r_end (reg_range r));
  _ ← assert_ (max_gap r =? 0);
  match h !! self with Some links => propagate_to_root h (l_up links) d | None => Undefined end.

Definition region_after_remove (h : gmap nptr Links) (self : nptr) (parent : Link) (d : Regions V) : outcome (Regions V) :=
  propagate_to_root h parent d.

Definition region_after_rotate (h : gmap nptr Links) (self parent : nptr) (sibling lr_child : Link) (side : Side) (d : Regions V) :
    outcome (Regions V) :=
  this ← region_at self d;
  parent_ ← region_at parent d;
  let d := <[self := MkRegion (reg_static this) (max_range parent_) (max_gap parent_)]> d in
  if decide (side = Left) then region_update parent sibling lr_child d else region_update parent lr_child sibling d.
End hooks.

#[global] Instance region_hooks V : Linked (Regions V) := {|
  after_rotate := region_after_rotate;
  after_remove := region_after_remove;
  after_insert := region_after_insert;
|}.

(** ** What the summaries are to be *)

(** The largest gap between neighbours in a list of ranges. *)
Fixpoint gaps_max (l : list range) : Z :=
  match l with
  | a :: (b :: _) as l' => Z.max (gap (r_end a) (r_start b)) (gaps_max l')
  | _ => 0
  end.

Definition span (l : list range) : option range :=
  match head l, last l with Some a, Some b => Some (Range (r_start a) (r_end b)) | _, _ => None end.

Lemma gaps_nonneg l : 0 <= gaps_max l.
Proof. induction l as [| a [| b l] IH]; cbn in *; lia. Qed.

Lemma gaps_cons b B : gaps_max (b :: B) = match head B with Some c => Z.max (gap (r_end b) (r_start c)) (gaps_max B) | None => 0 end.
Proof. by destruct B. Qed.

Lemma gaps_app A b B : gaps_max (A ++ b :: B) = Z.max (gaps_max (A ++ [b])) (gaps_max (b :: B)).
Proof.
  induction A as [| a A IH]; cbn [app]; [pose proof (gaps_nonneg (b :: B)); change (gaps_max [b]) with 0; lia |]. rewrite !(gaps_cons a), IH.
  destruct A; cbn [app head]; lia.
Qed.

Lemma gaps_snoc A b : gaps_max (A ++ [b]) = match last A with Some a => Z.max (gap (r_end a) (r_start b)) (gaps_max A) | None => 0 end.
Proof.
  induction A as [| a A IH]; [done |]. cbn [app]. rewrite (gaps_cons a (A ++ [b])), IH, (gaps_cons a A). destruct A as [| a' A]; [cbn; lia |].
  rewrite last_cons_cons. cbn [app head]. destruct (last (a' :: A)) eqn:Hl; [lia |]. by apply last_None in Hl.
Qed.

Section exact.
Context {V : Type} (st : gmap nptr (Static V)).
Implicit Types d : Regions V.

Definition rng (p : nptr) : range := match st !! p with Some s => s_range s | None => Range 0 0 end.
Definition statics d : gmap nptr (Static V) := reg_static <$> d.

(** The region sums up the nodes [L]. *)
Definition summed (L : list nptr) (r : AddressSpaceRegion V) : Prop :=
  span (rng <$> L) = Some (max_range r) /\ max_gap r = gaps_max (rng <$> L).

Fixpoint aug (t : tree) d : Prop :=
  match t with
  | E => True
  | N l p _ r => (exists reg, d !! p = Some reg /\ summed (nodes t) reg) /\ aug l d /\ aug r d
  end.

(** The regions above a position, for the nodes [L] below it. *)
Fixpoint aug_ctx (c : list frame) (L : list nptr) d : Prop :=
  match c with
  | [] => True
  | f :: c =>
      let L := match f_side f with Left => L ++ f_ptr f :: nodes (f_sib f) | Right => nodes (f_sib f) ++ f_ptr f :: L end in
      (exists reg, d !! f_ptr f = Some reg /\ summed L reg) /\ aug (f_sib f) d /\ aug_ctx c L d
  end.

Lemma aug_plug t c d : aug (plug t c) d <-> aug t d /\ aug_ctx c (nodes t) d.
Proof.
  revert t. induction c as [| [[] p k sib] c IH]; intros t; cbn; [tauto | |]; rewrite IH; cbn; tauto.
Qed.

Lemma aug_shape t t' d : shape t = shape t' -> aug t d -> aug t' d.
Proof.
  revert t'. induction t as [| l IHl p k r IHr]; intros [| l' p' k' r']; cbn; try done. intros [= Hl -> Hr] (Hp & Hal & Har).
  rewrite <- (shape_nodes _ _ Hl), <- (shape_nodes _ _ Hr). auto.
Qed.

Lemma aug_frame t d d' : (forall q, q ∈ nodes t -> d' !! q = d !! q) -> aug t d -> aug t d'.
Proof.
  induction t as [| l IHl p k r IHr]; cbn [aug nodes]; [done |]. setoid_rewrite elem_of_app. setoid_rewrite elem_of_cons. intros Hq ((reg & Hp & Hs) & Hl & Hr).
  split; [exists reg; split; [| done]; rewrite Hq; auto |]. split; [apply IHl | apply IHr]; auto.
Qed.

Lemma aug_ctx_frame c L d d' : (forall q, q ∈ ctx_nodes c -> d' !! q = d !! q) -> aug_ctx c L d -> aug_ctx c L d'.
Proof.
  revert L. induction c as [| f c IH]; intros L; cbn [aug_ctx ctx_nodes]; [done |]. setoid_rewrite elem_of_cons. setoid_rewrite elem_of_app.
  intros Hq ((reg & Hp & Hs) & Hl & Hc). split; [exists reg; split; [| done]; rewrite Hq; auto |].
  split; [eapply aug_frame, Hl; auto | apply IH, Hc; auto].
Qed.

(** The summary of a subtree at its root. *)
Lemma aug_root t p d : aug t d -> root_of t = Some p -> exists reg, d !! p = Some reg /\ summed (nodes t) reg.
Proof. destruct t as [| l q k r]; [done |]. intros (Hp & _) [= ->]. done. Qed.

Lemma static_range d p n : statics d = st -> d !! p = Some n -> rng p = reg_range n.
Proof. intros Hs Hp. unfold rng. rewrite <- Hs. unfold statics. by rewrite lookup_fmap, Hp. Qed.

Lemma statics_insert d p n n' : d !! p = Some n -> reg_static n' = reg_static n -> statics (<[p := n']> d) = statics d.
Proof. intros Hp Hn. unfold statics. rewrite fmap_insert, Hn. apply insert_id. by rewrite lookup_fmap, Hp. Qed.

Lemma span_app A b B : span (A ++ b :: B) =
  Some (Range (match head A with Some a => r_start a | None => r_start b end) (match last B with Some c => r_end c | None => r_end b end)).
Proof.
  unfold span. rewrite last_app_cons. assert (Hl : last (b :: B) = Some (match last B with Some c => c | None => b end)).
  { rewrite last_cons. by destruct (last B). }
  rewrite Hl. destruct A; cbn; by destruct (last B).
Qed.

(** The effect of [update] on a node with correct children. *)
Lemma region_update_ok l p k r d n :
  statics d = st -> d !! p = Some n -> aug l d -> aug r d -> p ∉ nodes r ->
  exists n', region_update p (root_of l) (root_of r) d = Done (<[p := n']> d) /\ reg_static n' = reg_static n /\ summed (nodes (N l p k r)) n'.
Proof.
  intros Hst Hp Hl Hr Hpr. pose proof (static_range _ _ _ Hst Hp) as Hrng. cbn [nodes]. unfold summed. rewrite fmap_app, fmap_cons, Hrng.
  unfold region_update. rewrite (region_at_Some p d n Hp). cbn [mbind outcome_bind].
  set (lr := match root_of l with Some _ => _ | None => _ end).
  assert (Hlr : lr = Done (gaps_max ((rng <$> nodes l) ++ [reg_range n]), match head (rng <$> nodes l) with Some a => r_start a | None => r_start (reg_range n) end)).
  { subst lr. destruct (root_of l) as [pl |] eqn:Hpl; [| by destruct l]. destruct (aug_root _ _ _ Hl Hpl) as (ln & Hln & Hs & Hg).
    rewrite (region_at_Some _ _ _ Hln). cbn. rewrite gaps_snoc, Hg. unfold span in Hs. destruct (head (rng <$> nodes l)) as [a |], (last (rng <$> nodes l)) as [b |]; try done.
    injection Hs as <-. done. }
  rewrite Hlr. cbn [mbind outcome_bind fst snd]. set (d1 := <[p := _]> d).
  set (rr := match root_of r with Some _ => _ | None => _ end).
  assert (Hrr : rr = Done (gaps_max (reg_range n :: (rng <$> nodes r)), match last (rng <$> nodes r) with Some a => r_end a | None => r_end (reg_range n) end)).
  { subst rr. destruct (root_of r) as [pr |] eqn:Hpr'; [| by destruct r]. destruct (aug_root _ _ _ Hr Hpr') as (rn & Hrn & Hs & Hg).
    rewrite (region_at_Some pr d1 rn) by (unfold d1; rewrite lookup_insert_ne; [done |]; intros ->; by apply Hpr, root_in_nodes). cbn [mbind outcome_bind]. rewrite gaps_cons, Hg.
    unfold span in Hs. destruct (head (rng <$> nodes r)) as [a |], (last (rng <$> nodes r)) as [b |]; try done. injection Hs as <-. done. }
  rewrite Hrr. cbn [mbind outcome_bind fst snd]. eexists. split; [unfold d1; rewrite insert_insert_eq; reflexivity |]. split; [done |].
  cbn [set_summary max_gap max_range]. rewrite span_app. split; [done |]. symmetry. apply gaps_app.
Qed.

(** ** The loop to the root *)

Lemma repr_plug h t c : repr h None (plug t c) -> repr h (up_of c) t /\ repr_ctx h (root_of (plug t c)) c (root_of t).
Proof.
  revert t. induction c as [| f c IH]; intros t; cbn [plug]; [done |]. intros [Hf Hc]%IH.
  destruct f as [[] p k sib]; cbn in *; tauto.
Qed.

Lemma repr_size h t : repr h None t -> NoDup (nodes t) -> (length (nodes t) <= size h)%nat.
Proof.
  intros Hr Hn. pose proof (sat_size (MkTree (root_of t) 0 h tt) [] (root_of t) [PTree None t]) as Hs. unfold owned in Hs. cbn in Hs.
  rewrite app_nil_r in Hs. apply Hs. split; [done | by repeat constructor |]. unfold owned. cbn. by rewrite app_nil_r.
Qed.

Lemma plug_length t c : (length c <= length (nodes (plug t c)))%nat.
Proof. rewrite <- ctx_plug, length_app. induction c as [| f c IH]; cbn; [lia |]. rewrite length_app in *. lia. Qed.

(** The regions above the position are there, and those beside it summed up. *)
Definition ctx_ready (c : list frame) d : Prop := Forall (fun f => is_Some (d !! f_ptr f) /\ aug (f_sib f) d) c.

Lemma aug_ctx_ready c L d : aug_ctx c L d -> ctx_ready c d.
Proof.
  revert L. induction c as [| f c IH]; intros L; cbn [aug_ctx]; [constructor |].
  intros ((reg & Hp & _) & Hs & Hc). constructor; [by split | by eapply IH].
Qed.

Lemma update_frame f c t d :
  statics d = st -> aug t d -> ctx_ready (f :: c) d -> NoDup (nodes (plug t (f :: c))) ->
  exists d', region_update (f_ptr f) (l_left (frame_links f (up_of c) (root_of t))) (l_right (frame_links f (up_of c) (root_of t))) d = Done d'
    /\ statics d' = st /\ aug (fill f t) d' /\ ctx_ready c d'.
Proof.
  intros Hst Ht Hc Hn. apply Forall_cons in Hc as [[[n Hp] Hs] Hc]. rewrite <- ctx_plug in Hn. cbn in Hn.
  apply NoDup_cons in Hn as [Hpn _]. rewrite !elem_of_app in Hpn.
  assert (Hgo : forall l r, (f_side f = Left /\ l = t /\ r = f_sib f) \/ (f_side f = Right /\ l = f_sib f /\ r = t) ->
    exists d', region_update (f_ptr f) (root_of l) (root_of r) d = Done d' /\ statics d' = st /\ aug (fill f t) d' /\ ctx_ready c d').
  { intros l r Hlr. destruct (region_update_ok l (f_ptr f) (f_rank f) r d n Hst Hp) as (n' & Hu & Hsn & Hsum); [naive_solver.. |].
    exists (<[f_ptr f := n']> d). split; [done |]. split; [by rewrite (statics_insert _ _ n) |].
    assert (Hfr : forall u, f_ptr f ∉ nodes u -> aug u d -> aug u (<[f_ptr f := n']> d))
      by (intros u Hu'; apply aug_frame; intros q Hq; apply lookup_insert_ne; by intros <-).
    split.
    - unfold fill. destruct Hlr as [(-> & -> & ->) | (-> & -> & ->)]; cbn [bin aug];
        (split; [exists n'; by rewrite lookup_insert_eq | split; apply Hfr; tauto]).
    - clear Hlr Hu. unfold ctx_ready in *. rewrite Forall_forall in Hc |- *. intros g Hg. destruct (Hc g Hg) as [Hgp Hgs].
      assert (Hgn : f_ptr g ∈ ctx_nodes c /\ forall q, q ∈ nodes (f_sib g) -> q ∈ ctx_nodes c).
      { clear -Hg. induction Hg as [| g g' c Hg IH]; cbn; setoid_rewrite elem_of_cons; setoid_rewrite elem_of_app; naive_solver. }
      split; [rewrite lookup_insert_ne; [done |]; intros Heq; apply Hpn; rewrite Heq; tauto |]. apply Hfr; [| done]. intros Hq. apply Hpn. left. right. by apply Hgn. }
  destruct f as [[] p k sib]; cbn in *; [apply (Hgo t sib) | apply (Hgo sib t)]; auto.
Qed.

Lemma propagate_ok h root c t d n :
  statics d = st -> aug t d -> ctx_ready c d -> NoDup (nodes (plug t c)) -> repr_ctx h root c (root_of t) -> (length c < n)%nat ->
  exists d', propagate_loop n h (up_of c) d = Done d' /\ statics d' = st /\ aug (plug t c) d'.
Proof.
  revert t d n. induction c as [| f c IH]; intros t d n Hst Ht Hc Hn Hr Hlen; [exists d; by destruct n |].
  destruct n as [| n]; [cbn in Hlen; lia |]. destruct Hr as (Hf & _ & Hr). cbn [propagate_loop up_of]. rewrite Hf.
  destruct (update_frame f c t d Hst Ht Hc Hn) as (d1 & Hu & Hst1 & Ht1 & Hc1). rewrite Hu. cbn [mbind outcome_bind]. rewrite frame_up.
  apply (IH (fill f t)); try done; [unfold fill; by rewrite root_bin | cbn in Hlen; lia].
Qed.

(** From a position of the linked tree on. *)
Lemma propagate_to_root_ok h c t d :
  statics d = st -> aug t d -> ctx_ready c d -> NoDup (nodes (plug t c)) -> repr h None (plug t c) ->
  exists d', propagate_to_root h (up_of c) d = Done d' /\ statics d' = st /\ aug (plug t c) d'.
Proof.
  intros Hst Ht Hc Hn Hr. pose proof (repr_size _ _ Hr Hn). pose proof (plug_length t c). apply repr_plug in Hr as [_ Hr].
  unfold propagate_to_root. eapply propagate_ok; [done | done | done | done | done | lia].
Qed.
(** ** Rotations *)

Lemma nodes_rotate o A x kx Y z kz C : nodes (bin o A x kx (bin o Y z kz C)) = nodes (bin o (bin o A x kx Y) z kz C).
Proof. destruct o; nodes_eq. Qed.

(** The subtrees at a rotation: [x] and [z] are in none of them, nor above. *)
Lemma nodup_rotate c o A x kx Y z kz C :
  NoDup (nodes (plug (bin o (bin o A x kx Y) z kz C) c)) ->
  x <> z /\ forall q, q ∈ nodes A \/ q ∈ nodes Y \/ q ∈ nodes C \/ q ∈ ctx_nodes c -> q <> x /\ q <> z.
Proof.
  rewrite <- ctx_plug. intros Hn. assert (Hp : ctx_nodes c ++ nodes (bin o (bin o A x kx Y) z kz C) ≡ₚ x :: z :: nodes A ++ nodes Y ++ nodes C ++ ctx_nodes c).
  { destruct o; cbn; solve_Permutation. }
  rewrite Hp, !NoDup_cons, elem_of_cons, !elem_of_app in Hn. destruct Hn as (Hx & Hz & _). split; [naive_solver |]. intros q Hq.
  split; intros ->; [apply Hx | apply Hz]; tauto.
Qed.

Lemma rotate_ok h c o A x kx Y z kz C d :
  NoDup (nodes (plug (bin o (bin o A x kx Y) z kz C) c)) -> statics d = st -> aug (plug (bin o (bin o A x kx Y) z kz C) c) d ->
  exists d', region_after_rotate h x z (root_of C) (root_of Y) (opposite o) d = Done d'
    /\ statics d' = st /\ aug (plug (bin o A x kx (bin o Y z kz C)) c) d'.
Proof.
  intros Hn Hst Ha. destruct (nodup_rotate _ _ _ _ _ _ _ _ _ Hn) as [Hxz Hout]. apply aug_plug in Ha as [Ha Hc].
  assert (Hparts : (exists zr, d !! z = Some zr /\ summed (nodes (bin o (bin o A x kx Y) z kz C)) zr) /\ (exists xr, d !! x = Some xr)
    /\ aug A d /\ aug Y d /\ aug C d) by (destruct o; cbn in Ha; naive_solver).
  destruct Hparts as ((zr & Hz & Hsz) & (xr & Hx) & HA & HY & HC).
  unfold region_after_rotate. rewrite (region_at_Some x d xr Hx), (region_at_Some z d zr Hz). cbn [mbind outcome_bind].
  set (d1 := <[x := _]> d).
  assert (Hd1 : forall q, q <> x -> d1 !! q = d !! q) by (intros q Hq; by apply lookup_insert_ne).
  assert (Hst1 : statics d1 = st) by (unfold d1; by rewrite (statics_insert _ _ xr)).
  assert (Hfr : forall t, (forall q, q ∈ nodes t -> q <> x /\ q <> z) -> aug t d -> aug t d1)
    by (intros t Ht; apply aug_frame; intros q Hq; apply Hd1, Ht, Hq).
  assert (Hup : exists n', (if decide (opposite o = Left) then region_update z (root_of C) (root_of Y) d1 else region_update z (root_of Y) (root_of C) d1)
      = Done (<[z := n']> d1) /\ reg_static n' = reg_static zr /\ summed (nodes (bin o Y z kz C)) n').
  { assert (HY1 : aug Y d1) by (apply Hfr; naive_solver). assert (HC1 : aug C d1) by (apply Hfr; naive_solver).
    destruct o; cbn [opposite]; (destruct (decide _) as [He | He]; [try done | try done]);
      (apply region_update_ok; [done | by rewrite Hd1 | done | done |]); intros Hq; by destruct (Hout z ltac:(tauto)). }
  destruct Hup as (n' & -> & Hsn & Hsum). exists (<[z := n']> d1). split; [done |].
  split; [rewrite (statics_insert _ _ zr); [done | by rewrite Hd1 | done] |].
  assert (Hfr2 : forall t, (forall q, q ∈ nodes t -> q <> x /\ q <> z) -> aug t d -> aug t (<[z := n']> d1))
    by (intros t Ht; apply aug_frame; intros q Hq; rewrite lookup_insert_ne, Hd1; [done | apply Ht, Hq | symmetry; apply Ht, Hq]).
  apply aug_plug. rewrite nodes_rotate. split.
  - assert (Hxn : exists reg, <[z := n']> d1 !! x = Some reg /\ summed (nodes (bin o A x kx (bin o Y z kz C))) reg)
      by (eexists; split; [rewrite lookup_insert_ne by done; apply lookup_insert_eq | by rewrite nodes_rotate]).
    assert (Hzn : exists reg, <[z := n']> d1 !! z = Some reg /\ summed (nodes (bin o Y z kz C)) reg) by (exists n'; by rewrite lookup_insert_eq).
    assert (aug A (<[z := n']> d1) /\ aug Y (<[z := n']> d1) /\ aug C (<[z := n']> d1)) as (HA2 & HY2 & HC2) by (split_and!; apply Hfr2; naive_solver).
    destruct o; cbn [bin aug]; auto.
  - eapply aug_ctx_frame, Hc. intros q Hq. rewrite lookup_insert_ne, Hd1; [done | |]; [| symmetry]; apply Hout; auto.
Qed.

(** ** The laws of the hooks *)

(** A region that has not been linked. *)
Definition fresh_region (p : nptr) d : Prop := exists r, d !! p = Some r /\ max_range r = reg_range r /\ max_gap r = 0.

Definition at_most_one_child (t : tree) (p : nptr) : Prop := forall c l k r, t = plug (N l p k r) c -> l = E \/ r = E.

Definition exact (t : tree) d : Prop := statics d = st /\ aug t d.

Lemma insert_exact h c p d :
  repr h None (plug (N E p 0 E) c) -> NoDup (nodes (plug (N E p 0 E) c)) -> exact (plug E c) d -> fresh_region p d ->
  exists d', region_after_insert h p d = Done d' /\ exact (plug (N E p 0 E) c) d'.
Proof.
  intros Hr Hn [Hst Ha] (r & Hp & Hmr & Hmg). apply aug_plug in Ha as [_ Hc].
  unfold region_after_insert. rewrite (region_at_Some p d r Hp). cbn [mbind outcome_bind]. rewrite Hmr, Hmg, !Z.eqb_refl. cbn.
  pose proof (repr_plug _ _ _ Hr) as [[Hl _] _]. cbn in Hl. rewrite Hl. cbn [l_up node_links].
  apply (propagate_to_root_ok h c (N E p 0 E)); [done | | by eapply aug_ctx_ready | done | done].
  cbn. split; [| done]. exists r. split; [done |]. unfold summed. cbn. rewrite (static_range _ _ _ Hst Hp), Hmr. split; [| done].
  by destruct (reg_range r).
Qed.

Lemma remove_exact h t p up t' d :
  repr h None t' -> NoDup (nodes t') -> spliced t p up t' -> at_most_one_child t p -> exact t d ->
  exists d', region_after_remove h p up d = Done d' /\ exact t' d'.
Proof.
  intros Hr Hn Hsp Hone [Hst Ha]. destruct Hsp as [c s a p k | c l p k r y r' Hl Hy].
  - apply aug_plug in Ha as [Ha Hc]. apply propagate_to_root_ok; [done | | by eapply aug_ctx_ready | done | done].
    destruct s; cbn in Ha; tauto.
  - destruct (Hone c l k r eq_refl) as [-> | ->]; [done |]. done.
Qed.

(** The regions of the tree exist; this the hooks keep in any case. *)
Definition present (t : tree) d : Prop := statics d = st /\ forall q, q ∈ nodes t -> is_Some (st !! q).

Lemma static_present d p : statics d = st -> is_Some (st !! p) -> exists n, d !! p = Some n.
Proof. intros <- [s Hs]. unfold statics in Hs. apply lookup_fmap_Some in Hs as (n & _ & Hn). by exists n. Qed.

Lemma region_update_present p l r d :
  statics d = st -> is_Some (st !! p) -> (forall q, l = Some q \/ r = Some q -> is_Some (st !! q)) ->
  exists d', region_update p l r d = Done d' /\ statics d' = st.
Proof.
  intros Hst Hp Hq. destruct (static_present d p Hst Hp) as [n Hn]. unfold region_update. rewrite (region_at_Some p d n Hn). cbn [mbind outcome_bind].
  set (lr := match l with Some _ => _ | None => _ end). assert (Hl : exists v, lr = Done v).
  { subst lr. destruct l as [q |]; [| by eexists]. destruct (static_present d q Hst) as [ln Hln]; [by apply Hq; left |]. rewrite (region_at_Some _ _ _ Hln). by eexists. }
  destruct Hl as [v ->]. cbn [mbind outcome_bind]. set (d1 := <[p := _]> d).
  assert (Hst1 : statics d1 = st) by (unfold d1; by rewrite (statics_insert _ _ n)).
  set (rr := match r with Some _ => _ | None => _ end). assert (Hr : exists v, rr = Done v).
  { subst rr. destruct r as [q |]; [| by eexists]. destruct (static_present d1 q Hst1) as [rn Hrn]; [by apply Hq; right |]. rewrite (region_at_Some _ _ _ Hrn). by eexists. }
  destruct Hr as [v' ->]. cbn [mbind outcome_bind]. eexists. split; [reflexivity |]. unfold d1. rewrite insert_insert_eq. by rewrite (statics_insert _ _ n).
Qed.

Lemma propagate_present h root c o d n :
  statics d = st -> (forall q, q ∈ ctx_nodes c \/ o = Some q -> is_Some (st !! q)) -> repr_ctx h root c o -> (length c < n)%nat ->
  exists d', propagate_loop n h (up_of c) d = Done d' /\ statics d' = st.
Proof.
  revert o d n. induction c as [| f c IH]; intros o d n Hst Hp Hr Hlen; [exists d; by destruct n |].
  destruct n as [| n]; [cbn in Hlen; lia |]. destruct Hr as (Hf & _ & Hr). cbn [propagate_loop up_of]. rewrite Hf. cbn [ctx_nodes] in Hp.
  setoid_rewrite elem_of_cons in Hp. setoid_rewrite elem_of_app in Hp.
  destruct (region_update_present (f_ptr f) (l_left (frame_links f (up_of c) o)) (l_right (frame_links f (up_of c) o)) d) as (d1 & Hu & Hst1); [done | auto | |].
  { intros q Hq. apply Hp. destruct f as [[] p k sib]; cbn in Hq; destruct Hq as [Hq | Hq]; auto; left; right; left; by apply root_in_nodes. }
  rewrite Hu. cbn [mbind outcome_bind]. rewrite frame_up. apply (IH (Some (f_ptr f))); [done | | done | cbn in Hlen; lia].
  intros q [Hq | [= <-]]; apply Hp; auto.
Qed.

Lemma propagate_to_root_present h c t d :
  statics d = st -> (forall q, q ∈ nodes (plug t c) -> is_Some (st !! q)) -> NoDup (nodes (plug t c)) -> repr h None (plug t c) ->
  exists d', propagate_to_root h (up_of c) d = Done d' /\ present (plug t c) d'.
Proof.
  intros Hst Hp Hn Hr. pose proof (repr_size _ _ Hr Hn). pose proof (plug_length t c). apply repr_plug in Hr as [_ Hr].
  destruct (propagate_present h (root_of (plug t c)) c (root_of t) d (S (size h))) as (d' & Hd & Hst'); [done | | done | lia | by exists d'].
  intros q Hq. apply Hp. rewrite <- ctx_plug, elem_of_app. destruct Hq as [Hq | Hq%root_in_nodes]; auto.
Qed.

Lemma insert_present h c p d :
  repr h None (plug (N E p 0 E) c) -> NoDup (nodes (plug (N E p 0 E) c)) -> present (plug E c) d -> fresh_region p d ->
  exists d', region_after_insert h p d = Done d' /\ present (plug (N E p 0 E) c) d'.
Proof.
  intros Hr Hn [Hst Ha] (r & Hp & Hmr & Hmg). unfold region_after_insert. rewrite (region_at_Some p d r Hp). cbn [mbind outcome_bind].
  rewrite Hmr, Hmg, !Z.eqb_refl. cbn. pose proof (repr_plug _ _ _ Hr) as [[Hl _] _]. cbn in Hl. rewrite Hl. cbn [l_up node_links].
  apply propagate_to_root_present; [done | | done | done]. intros q. rewrite <- ctx_plug, elem_of_app. cbn. rewrite list_elem_of_singleton. intros [Hq | ->].
  - apply Ha. rewrite <- ctx_plug, elem_of_app. auto.
  - rewrite <- Hst. unfold statics. rewrite lookup_fmap, Hp. by eexists.
Qed.

Lemma remove_present h t p up t' d :
  repr h None t' -> NoDup (nodes t') -> spliced t p up t' -> present t d ->
  exists d', region_after_remove h p up d = Done d' /\ present t' d'.
Proof.
  intros Hr Hn Hsp [Hst Ha]. destruct Hsp as [c s a p k | c l p k r y r' Hl Hy]; (apply propagate_to_root_present; [done | | done | done]); intros q;
    rewrite <- ctx_plug, elem_of_app; intros Hq; apply Ha; rewrite <- ctx_plug, elem_of_app.
  - destruct Hq as [Hq | Hq]; [auto |]. right. destruct s; cbn; rewrite ?elem_of_app, ?elem_of_cons; auto.
  - cbn in Hq |- *. rewrite Hy. rewrite !elem_of_app, !elem_of_cons in *. tauto.
Qed.

Lemma rotate_present h c o A x kx Y z kz C d :
  present (plug (bin o (bin o A x kx Y) z kz C) c) d ->
  exists d', region_after_rotate h x z (root_of C) (root_of Y) (opposite o) d = Done d' /\ present (plug (bin o A x kx (bin o Y z kz C)) c) d'.
Proof.
  intros [Hst Ha]. assert (Hin : forall q, q = x \/ q = z \/ q ∈ nodes Y \/ q ∈ nodes C -> is_Some (st !! q)).
  { intros q Hq. apply Ha. rewrite <- ctx_plug, elem_of_app. right. destruct o; cbn; rewrite !elem_of_app, !elem_of_cons, ?elem_of_app, ?elem_of_cons; tauto. }
  destruct (static_present d x Hst) as [xr Hx]; [auto |]. destruct (static_present d z Hst) as [zr Hz]; [auto |].
  unfold region_after_rotate. rewrite (region_at_Some x d xr Hx), (region_at_Some z d zr Hz). cbn [mbind outcome_bind]. set (d1 := <[x := _]> d).
  assert (Hst1 : statics d1 = st) by (unfold d1; by rewrite (statics_insert _ _ xr)).
  assert (Hu : forall l r, (l = root_of C \/ l = root_of Y) -> (r = root_of C \/ r = root_of Y) -> exists d', region_update z l r d1 = Done d' /\ statics d' = st).
  { intros l r Hl Hr. apply region_update_present; [done | auto |]. intros q Hq. apply Hin.
    assert (root_of C = Some q \/ root_of Y = Some q) as [Hq' | Hq'] by naive_solver; apply root_in_nodes in Hq'; auto. }
  assert (Hn : forall q, q ∈ nodes (plug (bin o A x kx (bin o Y z kz C)) c) -> is_Some (st !! q)).
  { intros q Hq. apply Ha. revert Hq. by rewrite <- !ctx_plug, nodes_rotate. }
  destruct (decide _); edestruct Hu as (d' & Hd & Hst'); [| | by exists d' | | | by exists d']; auto.
Qed.
End exact.

(** The regions as users' data of the tree: with exact summaries as long as no
    region with two children is removed, and with some summaries always. *)
Program Definition exact_augmentation {V} (st : gmap nptr (Static V)) : Augmentation (Regions V) :=
  {| inv := exact st; ready := fresh_region; removable := at_most_one_child |}.
Next Obligation. intros V st t t' d Hs [Hst Ha]. split; [done |]. by eapply aug_shape. Qed.
Next Obligation. intros V st h c o A x kx Y z kz C d Hn [Hst Ha]. by apply rotate_ok. Qed.
Next Obligation. intros V st h c p d. apply insert_exact. Qed.
Next Obligation. intros V st h t p up t' d. apply remove_exact. Qed.

Program Definition present_augmentation {V} (st : gmap nptr (Static V)) : Augmentation (Regions V) :=
  {| inv := present st; ready := fresh_region; removable := fun _ _ => True |}.
Next Obligation. intros V st t t' d Hs [Hst Ha]. split; [done |]. by rewrite <- (shape_nodes _ _ Hs). Qed.
Next Obligation. intros V st h c o A x kx Y z kz C d _. apply rotate_present. Qed.
Next Obligation. intros V st h c p d. apply insert_present. Qed.
Next Obligation. intros V st h t p up t' d Hr Hn Hsp _. by apply remove_present. Qed.
