(* ===== verification/FindSpot.v ===== *)
(** * The search for a free spot in an address space (find_spot of sys/kernel/src/mem/address_space.rs)

    The search walks the tree of regions along the summaries of the subtrees,
    skips those without a large enough gap, and picks the spot with a given
    index among the candidates. It is shown to pick from a list of gaps between
    neighbouring regions that misses no gap that is large enough. *)

From stdpp Require Import base numbers list gmap sorting.
From Stdlib Require Import ZArith Lia.
From S2P Require Import Prelude Address Riscv Arch WavlTree WavlRepr WavlBalance WavlShrink WavlSearch WavlOps Regions.

Definition ilog2 (n : Z) : Z := Z.log2 n.

(** ** The code *)

Definition spots_in_range (layout : Layout) (aligned : range) : outcome Z :=
  a ← is_aligned_to (r_start aligned) (l_align layout);
  b ← is_aligned_to (r_end aligned) (l_align layout);
  _ ← assert_ (a && b);
  if range_is_empty aligned then mret 0
  else
    range_size ← range_len aligned;
    if l_size layout <=? range_size then
      rest ← u_sub range_size (l_size layout);
      u_add (Z.shiftr rest (ilog2 (l_align layout))) 1
    else mret 0.

(** The state of the search: the index that is left and the spots counted. *)
Record Search := MkSearch { target_index : Z; candidate_spot_count : Z }.

(** One gap: the spot in it, or the search goes on. *)
Definition try_gap (layout : Layout) (aligned_gap : range) (s : Search) : outcome (Z + Search) :=
  spot_count ← spots_in_range layout aligned_gap;
  count ← u_add (candidate_spot_count s) spot_count;
  if target_index s <? spot_count then
    spot ← addr_add (r_start aligned_gap) (wrap (Z.shiftl (target_index s) (ilog2 (l_align layout))));
    mret (inl spot)
  else
    target ← u_sub (target_index s) spot_count;
    mret (inr (MkSearch target count)).

Definition try_raw_gap (layout : Layout) (a b : Z) (s : Search) : outcome (Z + Search) :=
  aligned_gap ← range_align_in (Range a b) (l_align layout);
  try_gap layout aligned_gap s.

(** [?] on the early returns of the search. *)
Definition or_found {A} (m : outcome (Z + Search)) (k : Search -> outcome (Z + A)) : outcome (Z + A) :=
  r ← m; match r with inl spot => mret (inl spot) | inr s => k s end.

Lemma or_found_Done {A} x (k : Search -> outcome (Z + A)) : or_found (Done x) k = match x with inl a => Done (inl a) | inr s => k s end.
Proof. by destruct x. Qed.

Section code.
Context {V : Type}.
Implicit Types w : WAVLTree (Regions V).

(** The body of the loop at one node: a spot, or the next node, the address up
    to which all was visited, and the state of the search. *)
Definition visit_node (layout : Layout) w (node : nptr) (already_visited : Z) (s : Search) : outcome (Z + Link * Z * Search) :=
  n ← region_at node (w_data w);
  match w_links w !! node with
  | None => Undefined
  | Some links =>
      let up s := mret (inr (l_up links, r_end (max_range n), s)) in
      let right_part s :=
        match l_right links with
        | None => up s
        | Some right_ =>
            r ← region_at right_ (w_data w);
            or_found (try_raw_gap layout (r_end (reg_range n)) (r_start (max_range r)) s) (fun s =>
              if (l_size layout <=? max_gap r) && (already_visited <? r_end (max_range r))
              then mret (inr (Some right_, already_visited, s)) else up s)
        end in
      if l_size layout <=? max_gap n then
        match l_left links with
        | None => right_part s
        | Some left_ =>
            l ← region_at left_ (w_data w);
            if (l_size layout <=? max_gap l) && (already_visited <? r_end (max_range l))
            then mret (inr (Some left_, already_visited, s))
            else or_found (try_raw_gap layout (r_end (max_range l)) (r_start (reg_range n)) s) right_part
        end
      else up s
  end.

Fixpoint walk (fuel : nat) (layout : Layout) w (maybe_node : Link) (already_visited : Z) (s : Search) : outcome (Z + Search) :=
  match maybe_node with
  | None => mret (inr s)
  | Some node =>
      match fuel with
      | O => Undefined
      | S fuel =>
          r ← visit_node layout w node already_visited s;
          match r with
          | inl spot => mret (inl spot)
          | inr (maybe_node, already_visited, s) => walk fuel layout w maybe_node already_visited s
          end
      end
  end.

(** [max_range] is the inclusive range of the address space. The result is a
    spot, or the number of candidates. *)
Definition find_spot_at_index (target : Z) (layout : Layout) (first last_ : Z) w : outcome (result Z Z) :=
  let s := MkSearch target 0 in
  e ← wavl_is_empty w;
  r ← or_found
    (if e.1 : bool then
       start_ ← align_up first (l_align layout);
       l ← addr_sub last_ 1;
       end_ ← align_down l (l_align layout);
       try_gap layout (Range start_ end_) s
     else mret (inr s))
    (fun s =>
       match w_root w with
       | None => mret (inr s)
       | Some root =>
           r ← region_at root (w_data w);
           or_found (try_raw_gap layout first (r_start (max_range r)) s) (fun s =>
             or_found (walk (S (3 * size (w_links w))) layout w (Some root) 0 s) (fun s =>
               try_raw_gap layout (r_end (max_range r)) last_ s))
       end);
  mret (match r with inl spot => Ok spot | inr s => Err (candidate_spot_count s) end).
End code.

(** ** The candidates in a gap *)

Section gaps.
Context (sz k : Z) (Hsz : 0 < sz) (Hk : 0 <= k < 64).
Abbreviation A := (2 ^ k).
Abbreviation layout := (MkLayout sz A).

(** The first and last multiples of the alignment in a gap, and the number of
    spots between them. *)
Definition gap_start (g : range) : Z := roundup (r_start g) A.
Definition gap_end (g : range) : Z := r_end g - r_end g mod A.
Definition spots (g : range) : Z :=
  if sz <=? gap_end g - gap_start g then (gap_end g - gap_start g - sz) / A + 1 else 0.

(** The gap does not reach the end of the address space. *)
Definition gap_ok (g : range) : Prop := 0 <= r_start g /\ r_start g + (A - 1) < USIZE_MOD /\ is_usize (r_end g).

Lemma A_pos : 0 < A.
Proof. apply pow2_pos. lia. Qed.

Lemma spots_nonneg g : 0 <= spots g.
Proof. unfold spots. pose proof A_pos. destruct (Z.leb_spec sz (gap_end g - gap_start g)); [| done]. pose proof (Z.div_pos (gap_end g - gap_start g - sz) A). lia. Qed.

(** The pure search in a gap, and in a list of gaps. *)
Definition pick1 (g : range) (s : Search) : Z + Search :=
  if target_index s <? spots g then inl (gap_start g + target_index s * A)
  else inr (MkSearch (target_index s - spots g) (candidate_spot_count s + spots g)).

Fixpoint pick (gs : list range) (s : Search) : Z + Search :=
  match gs with
  | [] => inr s
  | g :: gs => match pick1 g s with inl a => inl a | inr s => pick gs s end
  end.

Lemma pick_app g1 g2 s : pick (g1 ++ g2) s = match pick g1 s with inl a => inl a | inr s => pick g2 s end.
Proof. revert s. induction g1 as [| g g1 IH]; intros s; cbn; [done |]. by destruct (pick1 g s). Qed.

(** The counters cannot overflow before as many spots are seen. *)
Definition search_ok (n : Z) (s : Search) : Prop :=
  is_usize (target_index s) /\ 0 <= candidate_spot_count s /\ candidate_spot_count s + n < USIZE_MOD.

Fixpoint spots_sum (gs : list range) : Z := match gs with [] => 0 | g :: gs => spots g + spots_sum gs end.

Lemma spots_sum_nonneg gs : 0 <= spots_sum gs.
Proof. induction gs as [| g gs IH]; cbn; [done |]. pose proof (spots_nonneg g). lia. Qed.

Lemma spots_sum_app g1 g2 : spots_sum (g1 ++ g2) = spots_sum g1 + spots_sum g2.
Proof. induction g1 as [| g g1 IH]; cbn; [done |]. lia. Qed.

Lemma gap_start_ok g : gap_ok g -> align_up (r_start g) A = Done (gap_start g) /\ is_usize (gap_start g) /\ gap_start g mod A = 0.
Proof.
  intros (H0 & H1 & H2). pose proof A_pos. pose proof (roundup_spec (r_start g) A A_pos) as [[? ?] ?]. unfold is_usize, gap_start in *.
  split; [rewrite align_up_pow2 by (unfold is_usize; lia); done |]. split; [lia | done].
Qed.

Lemma gap_end_ok g : gap_ok g -> align_down (r_end g) A = Done (gap_end g) /\ is_usize (gap_end g) /\ gap_end g mod A = 0 /\ gap_end g <= r_end g.
Proof.
  intros (H0 & H1 & H2). pose proof (Z.mod_pos_bound (r_end g) A A_pos) as Hm. pose proof A_pos. unfold is_usize, gap_end in *.
  pose proof (Z.mod_le (r_end g) A ltac:(lia) ltac:(lia)).
  split; [by rewrite align_down_pow2 by (unfold is_usize; lia) |]. split; [lia |]. split; [by rewrite Zminus_mod_idemp_r, Z.sub_diag | lia].
Qed.

Lemma spots_in_range_ok g : gap_ok g -> spots_in_range layout (Range (gap_start g) (gap_end g)) = Done (spots g).
Proof.
  intros Hg. destruct (gap_start_ok g Hg) as (_ & Hu1 & Hm1). destruct (gap_end_ok g Hg) as (_ & Hu2 & Hm2 & _). pose proof A_pos.
  unfold spots_in_range. cbn [r_start r_end l_align l_size]. rewrite !is_aligned_to_pow2, Hm1, Hm2 by lia. cbn [mbind outcome_bind Z.eqb assert_ andb].
  unfold range_is_empty, range_len. cbn [r_start r_end]. unfold spots. destruct (Z.leb_spec (gap_end g) (gap_start g)) as [Hle | Hlt].
  - destruct (Z.leb_spec sz (gap_end g - gap_start g)); [lia | done].
  - rewrite addr_offset_from_unsigned_Done by (done || lia). cbn [mbind outcome_bind].
    destruct (Z.leb_spec sz (gap_end g - gap_start g)); [| done]. unfold is_usize in *. rewrite u_sub_Done by (unfold is_usize; lia). cbn [mbind outcome_bind].
    unfold ilog2. rewrite Z.log2_pow2, Z.shiftr_div_pow2 by lia. apply u_add_Done. unfold is_usize.
    pose proof (Z.div_pos (gap_end g - gap_start g - sz) A). pose proof (Z.div_le_upper_bound (gap_end g - gap_start g - sz) A (gap_end g - gap_start g - sz)). nia.
Qed.

(** A spot in the gap. *)
Lemma spot_in_gap g i : gap_ok g -> 0 <= i < spots g ->
  let a := gap_start g + i * A in r_start g <= a /\ a + sz <= r_end g /\ a mod A = 0.
Proof.
  intros Hg Hi a. destruct (gap_end_ok g Hg) as (_ & _ & _ & He). pose proof (roundup_spec (r_start g) A A_pos) as [[? _] Hm].
  unfold spots in Hi. destruct (Z.leb_spec sz (gap_end g - gap_start g)) as [Hle |]; [| lia]. pose proof A_pos.
  pose proof (Z.mul_div_le (gap_end g - gap_start g - sz) A ltac:(lia)).
  pose proof (Z.mul_le_mono_nonneg_l i ((gap_end g - gap_start g - sz) / A) A ltac:(lia) ltac:(lia)).
  pose proof (Z.mul_nonneg_nonneg i A ltac:(lia) ltac:(lia)). unfold a, gap_start in *. split; [lia |]. split; [lia |].
  rewrite Z.mod_add by lia. done.
Qed.

Lemma try_gap_ok g s : gap_ok g -> search_ok (spots g) s -> try_gap layout (Range (gap_start g) (gap_end g)) s = Done (pick1 g s).
Proof.
  intros Hg (Hi & Hc & Hn). pose proof (spots_nonneg g). unfold try_gap, pick1. rewrite (spots_in_range_ok g Hg). cbn [mbind outcome_bind].
  rewrite (u_add_Done (candidate_spot_count s)) by (unfold is_usize; lia). cbn [mbind outcome_bind r_start l_align]. destruct (Z.ltb_spec (target_index s) (spots g)) as [Hlt | Hge].
  - unfold is_usize in Hi. destruct (spot_in_gap g (target_index s) Hg ltac:(lia)) as (Ha1 & Ha2 & _). destruct Hg as (Hg0 & Hg1 & Hg2).
    pose proof (roundup_spec (r_start g) A A_pos) as [[? _] _]. pose proof A_pos. unfold is_usize, ilog2, gap_start in *.
    rewrite Z.log2_pow2, Z.shiftl_mul_pow2, wrap_small by (unfold is_usize; nia). unfold addr_add. by rewrite u_add_Done by (unfold is_usize; nia).
  - by rewrite u_sub_Done by (unfold is_usize in *; lia).
Qed.

Lemma try_raw_gap_ok a b s : gap_ok (Range a b) -> search_ok (spots (Range a b)) s -> try_raw_gap layout a b s = Done (pick1 (Range a b) s).
Proof.
  intros Hg Hs. unfold try_raw_gap, range_align_in. cbn [r_start r_end l_align]. destruct (gap_start_ok _ Hg) as [E1 _]. destruct (gap_end_ok _ Hg) as [E2 _].
  cbn in E1, E2. rewrite E1, E2. cbn [mbind outcome_bind]. by apply try_gap_ok.
Qed.

Lemma search_next n g s s' : pick1 g s = inr s' -> search_ok (spots g + n) s -> search_ok n s'.
Proof.
  unfold pick1, search_ok. pose proof (spots_nonneg g). destruct (Z.ltb_spec (target_index s) (spots g)); [done |]. intros [= <-] (Hi & Hc & Hn). cbn.
  unfold is_usize in *. lia.
Qed.

Lemma pick_next n gs s s' : pick gs s = inr s' -> search_ok (spots_sum gs + n) s -> search_ok n s'.
Proof.
  revert s. induction gs as [| g gs IH]; intros s; cbn; [by intros [= ->] |]. destruct (pick1 g s) as [a | s1] eqn:E1; [done |]. intros Hp Hs.
  eapply IH; [done |]. eapply search_next; [done |]. by rewrite Z.add_assoc.
Qed.

Lemma search_weaken n n' s : n' <= n -> search_ok n s -> search_ok n' s.
Proof. unfold search_ok. intros Hn (? & ? & ?). split_and!; [done | done | lia]. Qed.

(** ** The walk *)

Section walk.
Context {V : Type} (st : gmap nptr (Static V)) (w : WAVLTree (Regions V)) (Hst : statics (w_data w) = st).
Abbreviation ranges t := (rng st <$> nodes t).

(** What the region at the root of a subtree says of it. *)
Definition tspan (t : tree) : range := match span (ranges t) with Some r => r | None => Range 0 0 end.
Definition big (t : tree) : bool := sz <=? gaps_max (ranges t).

(** The gaps beside the root. *)
Definition left_gap (l : tree) (p : nptr) : list range := match l with E => [] | _ => [Range (r_end (tspan l)) (r_start (rng st p))] end.
Definition right_gap (p : nptr) (r : tree) : list range := match r with E => [] | _ => [Range (r_end (rng st p)) (r_start (tspan r))] end.

(** The gaps that the walk visits, in order; those beside a node come again
    after the walk through its right subtree. *)
Fixpoint visited (t : tree) : list range :=
  match t with
  | E => []
  | N l p _ r =>
      if big t then
        let gs := left_gap l p ++ right_gap p r in
        visited l ++ gs ++ (if big r then visited r ++ gs else [])
      else []
  end.

Fixpoint steps_of (t : tree) : nat :=
  match t with
  | E => 0
  | N l _ _ r => (if big l then 1 + steps_of l else 0) + 1 + (if big r then steps_of r + 1 else 0)
  end.

Lemma steps_bound t : (steps_of t <= 3 * length (nodes t))%nat.
Proof. induction t as [| l IHl p kp r IHr]; cbn; [lia |]. rewrite length_app. cbn. destruct (big l), (big r); lia. Qed.

(** Regions that are not empty, one after the other, and not up to the end of
    the address space. *)
Definition ordered (l : list range) : Prop :=
  Forall (fun r => 0 <= r_start r < r_end r /\ r_end r + (A - 1) < USIZE_MOD) l /\ StronglySorted (fun a b => r_end a <= r_start b) l.

Lemma big_E : big E = false.
Proof. unfold big. cbn. apply Z.leb_gt. lia. Qed.

Lemma ordered_app l1 l2 : ordered (l1 ++ l2) -> ordered l1 /\ ordered l2 /\ forall a b, a ∈ l1 -> b ∈ l2 -> r_end a <= r_start b.
Proof. unfold ordered. rewrite Forall_app, StronglySorted_app. naive_solver. Qed.

Lemma tspan_ends t : t <> E -> exists a b, a ∈ nodes t /\ b ∈ nodes t /\ tspan t = Range (r_start (rng st a)) (r_end (rng st b)).
Proof.
  intros Ht. assert (Hne : nodes t <> []) by (destruct t as [| l p kp r]; [done | cbn; by destruct (nodes l)]).
  unfold tspan, span. rewrite fmap_last. replace (head (ranges t)) with (rng st <$> head (nodes t)) by (by destruct (nodes t)). destruct (head (nodes t)) as [a |] eqn:Ha; [| by destruct (nodes t)].
  destruct (last (nodes t)) as [b |] eqn:Hb; [| by apply last_None in Hb]. exists a, b. split; [by apply head_Some_elem_of |]. split; [by apply last_Some_elem_of | done].
Qed.

Lemma root_region t p : aug st t (w_data w) -> root_of t = Some p ->
  exists reg, region_at p (w_data w) = Done reg /\ max_range reg = tspan t /\ max_gap reg = gaps_max (ranges t).
Proof.
  intros Ha Hp. destruct (aug_root _ _ _ _ Ha Hp) as (reg & Hr & Hs & Hg). exists reg. split; [by apply region_at_Some |]. split; [| done].
  unfold tspan. by rewrite Hs.
Qed.

(** The data of a node and its neighbours in an ordered subtree. *)
Lemma node_order l p kp r : ordered (ranges (N l p kp r)) ->
  ordered (ranges l) /\ ordered (ranges r) /\ 0 <= r_start (rng st p) < r_end (rng st p) /\ r_end (rng st p) + (A - 1) < USIZE_MOD
  /\ (forall q, q ∈ nodes l -> r_end (rng st q) <= r_start (rng st p)) /\ (forall q, q ∈ nodes r -> r_end (rng st p) <= r_start (rng st q))
  /\ (forall q q', q ∈ nodes l -> q' ∈ nodes r -> r_end (rng st q) <= r_start (rng st q'))
  /\ (forall q, q ∈ nodes (N l p kp r) -> 0 <= r_start (rng st q) < r_end (rng st q) /\ r_end (rng st q) + (A - 1) < USIZE_MOD).
Proof.
  intros Ho. pose proof Ho as [Hall _]. cbn in Ho. rewrite fmap_app, fmap_cons in Ho. apply ordered_app in Ho as (Hl & Hpr & Hlp).
  pose proof Hpr as [Hf Hs]. apply Forall_cons in Hf as [Hp Hf]. apply StronglySorted_inv in Hs as [Hs Hr]. rewrite Forall_forall in Hr, Hall.
  split; [done |]. split; [by split |]. split; [tauto |]. split; [tauto |].
  split; [intros q Hq; apply Hlp; [by apply list_elem_of_fmap_2 | by left] |].
  split; [intros q Hq; apply Hr; by apply list_elem_of_fmap_2 |].
  split; [intros q q' Hq Hq'; apply Hlp; [by apply list_elem_of_fmap_2 | right; by apply list_elem_of_fmap_2] |].
  intros q Hq. apply Hall. by apply list_elem_of_fmap_2.
Qed.

Lemma gaps_ok l p kp r : ordered (ranges (N l p kp r)) -> Forall (gap_ok) (left_gap l p ++ right_gap p r).
Proof.
  intros Ho. destruct (node_order _ _ _ _ Ho) as (_ & _ & Hp & Hpo & Hlp & Hpr & _ & Hin). pose proof A_pos.
  apply Forall_app. unfold left_gap, right_gap, gap_ok, is_usize. split.
  - destruct l as [| ll pl kl lr]; [constructor |]. constructor; [| constructor]. destruct (tspan_ends (N ll pl kl lr)) as (a & b & Ha & Hb & ->); [done |]. cbn.
    destruct (Hin b); [cbn [nodes]; apply elem_of_app; auto |]. lia.
  - destruct r as [| rl pr kr rr]; [constructor |]. constructor; [| constructor]. destruct (tspan_ends (N rl pr kr rr)) as (a & b & Ha & Hb & ->); [done |]. cbn.
    destruct (Hin a); [cbn [nodes]; rewrite elem_of_app, elem_of_cons; auto |]. lia.
Qed.

Lemma big_sub l p kp r : big (N l p kp r) = false -> big l = false /\ big r = false.
Proof.
  unfold big. rewrite !Z.leb_gt. cbn [nodes]. rewrite fmap_app, fmap_cons, gaps_app, gaps_snoc, gaps_cons.
  assert (Hl : last (ranges l) = None -> gaps_max (ranges l) = 0) by (rewrite last_None; by intros ->).
  assert (Hr : head (ranges r) = None -> gaps_max (ranges r) = 0) by (by destruct (ranges r)).
  destruct (last (ranges l)), (head (ranges r)); try (rewrite Hl by done); try (rewrite Hr by done); lia.
Qed.

(** The right part of a visit. *)
Definition finish (up : Link) (t r : tree) (v : Z) (x : Z + Search) : outcome (Z + Link * Z * Search) :=
  match x with
  | inl a => Done (inl a)
  | inr s => if big r && (v <? r_end (tspan r)) then Done (inr (root_of r, v, s)) else Done (inr (up, r_end (tspan t), s))
  end.

Lemma visit_ok l p kp r up v s (t := N l p kp r) :
  repr (w_links w) up t -> aug st t (w_data w) -> ordered (ranges t) ->
  (big t = true -> search_ok (spots_sum (left_gap l p ++ right_gap p r)) s) ->
  visit_node layout w p v s =
    if negb (big t) then Done (inr (up, r_end (tspan t), s))
    else if big l && (v <? r_end (tspan l)) then Done (inr (root_of l, v, s))
    else finish up t r v (pick (left_gap l p ++ right_gap p r) s).
Proof.
  intros (Hlk & _ & _) Ha Ho Hs. pose proof (gaps_ok _ _ _ _ Ho) as Hg. apply Forall_app in Hg as [Hgl Hgr].
  destruct (root_region t p Ha eq_refl) as (n & En & Hmr & Hmg). pose proof Ha as (_ & Hal & Har). cbn [aug] in Hal, Har.
  assert (Hrn : rng st p = reg_range n).
  { unfold region_at in En. destruct (w_data w !! p) as [n' |] eqn:Hp; [| done]. injection En as ->. by eapply static_range. }
  unfold visit_node. rewrite En, Hlk. cbn [mbind outcome_bind l_left l_right l_up node_links l_size]. rewrite Hmg, Hmr, <- Hrn. fold (big t).
  destruct (big t); cbn [negb]; [| done]. specialize (Hs eq_refl). rewrite pick_app, spots_sum_app in *.
  assert (Hright : forall s, search_ok (spots_sum (right_gap p r)) s ->
    match root_of r with
    | None => mret (inr (up, r_end (tspan t), s))
    | Some right_ => r0 ← region_at right_ (w_data w);
        or_found (try_raw_gap layout (r_end (rng st p)) (r_start (max_range r0)) s) (fun s =>
          if (sz <=? max_gap r0) && (v <? r_end (max_range r0)) then mret (inr (Some right_, v, s)) else mret (inr (up, r_end (tspan t), s)))
    end = finish up t r v (pick (right_gap p r) s)).
  { intros s' Hs'. destruct (root_of r) as [pr |] eqn:Hpr; [| assert (r = E) as -> by (by destruct r); cbn; by rewrite big_E].
    destruct (root_region r pr Har Hpr) as (rn & Er & Hrr & Hrg). rewrite Er. cbn [mbind outcome_bind]. rewrite Hrr, Hrg. fold (big r).
    assert (Hgr' : right_gap p r = [Range (r_end (rng st p)) (r_start (tspan r))]) by (by destruct r). rewrite Hgr' in *. apply Forall_cons in Hgr as [Hgr _].
    cbn [spots_sum] in Hs'. rewrite Z.add_0_r in Hs'. unfold or_found. rewrite try_raw_gap_ok by done. cbn [mbind outcome_bind pick finish].
    destruct (pick1 _ s') as [a | s'']; [done |]. cbn [finish]. rewrite Hpr. by destruct (_ && _). }
  destruct (root_of l) as [pl |] eqn:Hpl.
  - destruct (root_region l pl Hal Hpl) as (ln & El & Hlr & Hlg). rewrite El. cbn [mbind outcome_bind]. rewrite Hlr, Hlg. fold (big l).
    destruct (big l && (v <? r_end (tspan l))); [done |].
    assert (Hgl' : left_gap l p = [Range (r_end (tspan l)) (r_start (rng st p))]) by (by destruct l). rewrite Hgl' in *. apply Forall_cons in Hgl as [Hgl _].
    cbn [spots_sum] in Hs. rewrite Z.add_0_r in Hs. pose proof (spots_sum_nonneg (right_gap p r)).
    unfold or_found at 1. rewrite try_raw_gap_ok; [| done | eapply search_weaken, Hs; lia]. cbn [mbind outcome_bind pick].
    destruct (pick1 _ s) as [a | s'] eqn:E1; [done |]. apply Hright. eapply search_next; done.
  - assert (l = E) as -> by (by destruct l). rewrite big_E. cbn [andb left_gap pick spots_sum] in *. by apply Hright.
Qed.

Definition resume (n : nat) (up : Link) (v : Z) (x : Z + Search) : outcome (Z + Search) :=
  match x with inl a => Done (inl a) | inr s => walk n layout w up v s end.

(** A visit that does not go to the left. *)
Lemma walk_enter l p kp r up v s n (t := N l p kp r) :
  repr (w_links w) up t -> aug st t (w_data w) -> ordered (ranges t) -> search_ok (spots_sum (left_gap l p ++ right_gap p r)) s ->
  big t = true -> big l && (v <? r_end (tspan l)) = false ->
  walk (S n) layout w (Some p) v s =
    match pick (left_gap l p ++ right_gap p r) s with
    | inl a => Done (inl a)
    | inr s => if big r && (v <? r_end (tspan r)) then walk n layout w (root_of r) v s else walk n layout w up (r_end (tspan t)) s
    end.
Proof.
  intros Hr Ha Ho Hs Hb Hl. cbn [walk]. rewrite (visit_ok l p kp r up v s Hr Ha Ho (fun _ => Hs)). fold t. rewrite Hb, Hl. cbn [negb]. unfold finish.
  destruct (pick _ s) as [a | s']; [done |]. by destruct (big r && _).
Qed.

(** After the walk through the left subtree: the gaps beside the node, the
    right subtree, and again the gaps. *)
Lemma walk_right l p kp r up v s n (t := N l p kp r) (gs := left_gap l p ++ right_gap p r) :
  repr (w_links w) up t -> aug st t (w_data w) -> ordered (ranges t) -> big t = true -> big l && (v <? r_end (tspan l)) = false ->
  (forall q, q ∈ nodes r -> v < r_end (rng st q)) ->
  (r <> E -> forall n v s, (forall q, q ∈ nodes r -> v < r_end (rng st q)) -> search_ok (spots_sum (visited r)) s -> (steps_of r <= n)%nat ->
     walk n layout w (root_of r) v s = resume (n - steps_of r) (Some p) (r_end (tspan r)) (pick (visited r) s)) ->
  search_ok (spots_sum (gs ++ (if big r then visited r ++ gs else []))) s -> (1 + (if big r then steps_of r + 1 else 0) <= n)%nat ->
  walk n layout w (Some p) v s
  = resume (n - (1 + (if big r then steps_of r + 1 else 0))) up (r_end (tspan t)) (pick (gs ++ (if big r then visited r ++ gs else [])) s).
Proof.
  intros Hr Ha Ho Hb Hl Hv IH Hs Hn. destruct n as [| n]; [lia |]. pose proof (spots_sum_nonneg (if big r then visited r ++ gs else [])) as Hnn.
  rewrite spots_sum_app in Hs. rewrite (walk_enter l p kp r up v s n Hr Ha Ho); [| eapply search_weaken, Hs; fold gs; lia | done | done].
  fold gs. rewrite pick_app. destruct (pick gs s) as [a | s1] eqn:E1; [done |]. apply (pick_next _ _ _ _ E1) in Hs.
  destruct (big r) eqn:Hbr; cbn [andb]; [| cbn [pick resume]; by replace (S n - (1 + 0))%nat with n by lia].
  assert (Hre : r <> E) by (intros ->; by rewrite big_E in Hbr). destruct (tspan_ends r Hre) as (a & b & _ & Hbr' & Hsp).
  rewrite (proj2 (Z.ltb_lt v (r_end (tspan r)))) by (rewrite Hsp; by apply Hv). pose proof (spots_sum_nonneg gs). rewrite spots_sum_app in Hs.
  rewrite IH; [| done | done | eapply search_weaken, Hs; lia | lia]. rewrite pick_app. destruct (pick (visited r) s1) as [a' | s2] eqn:E2; [done |].
  apply (pick_next _ _ _ _ E2) in Hs. cbn [resume]. destruct (n - steps_of r)%nat as [| m] eqn:Hm; [lia |].
  rewrite (walk_enter l p kp r up _ s2 m Hr Ha Ho); [| done | done |].
  - rewrite Z.ltb_irrefl, andb_false_r. fold gs. destruct (pick gs s2) as [a' | s3]; [done |]. cbn [resume]. f_equal. lia.
  - destruct l as [| ll pl kl lr]; [by rewrite big_E |]. destruct (tspan_ends (N ll pl kl lr)) as (a1 & b1 & _ & Hb1 & ->); [done |].
    destruct (node_order _ _ _ _ Ho) as (_ & _ & _ & _ & _ & _ & Hlr & Hin). specialize (Hlr b1 b Hb1 Hbr'). destruct (Hin b) as [? _].
    { cbn [nodes]. rewrite elem_of_app, elem_of_cons. auto. }
    rewrite Hsp. cbn [r_end]. rewrite (proj2 (Z.ltb_ge _ _)) by lia. apply andb_false_r.
Qed.

Lemma walk_ok t : t <> E -> forall up n v s,
  repr (w_links w) up t -> aug st t (w_data w) -> ordered (ranges t) -> (forall q, q ∈ nodes t -> v < r_end (rng st q)) ->
  search_ok (spots_sum (visited t)) s -> (steps_of t <= n)%nat ->
  walk n layout w (root_of t) v s = resume (n - steps_of t) up (r_end (tspan t)) (pick (visited t) s).
Proof.
  induction t as [| l IHl p kp r IHr]; [done |]. intros _ up n v s Hr Ha Ho Hv Hs Hn. cbn [root_of].
  pose proof Hr as (_ & Hrl & Hrr). pose proof Ha as (_ & Hal & Har). pose proof (node_order _ _ _ _ Ho) as (Hol & Hor & _ & _ & _ & _ & Hlr & Hin).
  cbn [nodes] in Hv, Hin. setoid_rewrite elem_of_app in Hv. setoid_rewrite elem_of_cons in Hv. setoid_rewrite elem_of_app in Hin. setoid_rewrite elem_of_cons in Hin.
  cbn [visited] in Hs |- *. cbv zeta in Hs |- *. destruct (big (N l p kp r)) eqn:Hb.
  - cbn [steps_of] in Hn |- *. destruct (big l) eqn:Hbl.
    + assert (Hle : l <> E) by (intros ->; by rewrite big_E in Hbl). destruct (tspan_ends l Hle) as (a & b & _ & Hbl' & Hsp).
      destruct n as [| n]; [lia |]. rewrite spots_sum_app in Hs. pose proof (spots_sum_nonneg ((left_gap l p ++ right_gap p r) ++ (if big r then visited r ++ left_gap l p ++ right_gap p r else []))) as Hnn.
      cbn [walk]. rewrite (visit_ok l p kp r up v s Hr Ha Ho).
      2: { intros _. eapply search_weaken, Hs. pose proof (spots_sum_nonneg (visited l)). rewrite !spots_sum_app in *.
           pose proof (spots_sum_nonneg (if big r then visited r ++ left_gap l p ++ right_gap p r else [])). lia. }
      rewrite Hb, Hbl. cbn [negb andb]. rewrite (proj2 (Z.ltb_lt v (r_end (tspan l)))) by (rewrite Hsp; apply Hv; auto). cbn [mbind outcome_bind].
      rewrite (IHl Hle (Some p)); [| done | done | done | auto | eapply search_weaken, Hs; lia | lia]. rewrite pick_app.
      destruct (pick (visited l) s) as [a' | s1] eqn:E1; [done |]. cbn [resume]. apply (pick_next _ _ _ _ E1) in Hs.
      rewrite (walk_right l p kp r up); [f_equal; lia | done | done | done | done | by rewrite Z.ltb_irrefl, andb_false_r | | | done | lia].
      * intros q Hq. rewrite Hsp. cbn. specialize (Hlr b q Hbl' Hq). destruct (Hin q) as [? _]; [auto | lia].
      * intros Hre n' v' s' Hv' Hs' Hn'. by apply (IHr Hre (Some p)).
    + assert (Hvl : visited l = []) by (destruct l as [| ll pl kl lr]; [done |]; cbn [visited]; by rewrite Hbl). rewrite Hvl in *. cbn [app] in *.
     
      rewrite (walk_right l p kp r up); [done | done | done | done | done | by rewrite Hbl | auto | | done | lia].
      intros Hre n' v' s' Hv' Hs' Hn'. by apply (IHr Hre (Some p)).
  - destruct (big_sub _ _ _ _ Hb) as [Hbl Hbr]. cbn [steps_of] in Hn |- *. rewrite Hbl, Hbr in *. destruct n as [| n]; [lia |]. cbn [walk].
    rewrite (visit_ok l p kp r up v s Hr Ha Ho) by (by rewrite Hb). rewrite Hb. cbn [negb mbind outcome_bind pick resume]. f_equal. lia.
Qed.

(** ** The visited gaps and those between neighbours *)

Fixpoint between (l : list range) : list range :=
  match l with a :: (b :: _) as l' => Range (r_end a) (r_start b) :: between l' | _ => [] end.

Lemma between_cons b B : between (b :: B) = match head B with Some c => [Range (r_end b) (r_start c)] | None => [] end ++ between B.
Proof. by destruct B. Qed.

Lemma between_app A' b B : between (A' ++ b :: B) = between (A' ++ [b]) ++ between (b :: B).
Proof. induction A' as [| a A' IH]; cbn [app]; [done |]. rewrite !(between_cons a), IH, app_assoc. by destruct A'. Qed.

Lemma between_snoc A' b : between (A' ++ [b]) = between A' ++ match last A' with Some a => [Range (r_end a) (r_start b)] | None => [] end.
Proof.
  induction A' as [| a A' IH]; [done |]. cbn [app]. rewrite (between_cons a (A' ++ [b])), IH, (between_cons a A'). destruct A' as [| a' A']; [done |].
  rewrite last_cons_cons. by rewrite <- app_assoc.
Qed.

Lemma left_gap_eq l p : left_gap l p = match last (ranges l) with Some a => [Range (r_end a) (r_start (rng st p))] | None => [] end.
Proof.
  unfold left_gap, tspan, span. destruct l as [| ll pl kl lr]; [done |]. set (L := ranges _). assert (L <> []) by (subst L; cbn; by destruct (nodes ll)).
  destruct (head L) eqn:Hh; [| by destruct L]. destruct (last L) eqn:Hl; [done |]. by apply last_None in Hl.
Qed.

Lemma right_gap_eq p r : right_gap p r = match head (ranges r) with Some b => [Range (r_end (rng st p)) (r_start b)] | None => [] end.
Proof.
  unfold right_gap, tspan, span. destruct r as [| rl pr kr rr]; [done |]. set (L := ranges _). assert (L <> []) by (subst L; cbn; by destruct (nodes rl)).
  destruct (head L) eqn:Hh; [| by destruct L]. destruct (last L) eqn:Hl; [done |]. by apply last_None in Hl.
Qed.

Lemma between_node l p kp r : between (ranges (N l p kp r)) = between (ranges l) ++ (left_gap l p ++ right_gap p r) ++ between (ranges r).
Proof. cbn [nodes]. rewrite fmap_app, fmap_cons, between_app, between_snoc, between_cons, left_gap_eq, right_gap_eq. by rewrite <- !app_assoc. Qed.

Lemma gap_le_max g l : g ∈ between l -> r_end g - r_start g <= gaps_max l.
Proof.
  induction l as [| a l IH]; cbn; [by intros ?%not_elem_of_nil |]. destruct l as [| b l]; [by intros ?%not_elem_of_nil |].
  rewrite elem_of_cons. intros [-> | Hg]; [unfold gap; cbn; lia |]. specialize (IH Hg). lia.
Qed.

Lemma visited_between t g : g ∈ visited t -> g ∈ between (ranges t).
Proof.
  revert g. induction t as [| l IHl p kp r IHr]; [done |]. intros g. cbn [visited]. rewrite between_node. destruct (big (N l p kp r)); [| by intros ?%not_elem_of_nil].
  cbv zeta. rewrite !elem_of_app. intros [Hg | [Hg | Hg]]; [auto | auto |]. destruct (big r); [| by apply not_elem_of_nil in Hg].
  rewrite !elem_of_app in Hg. destruct Hg as [Hg | Hg]; auto.
Qed.

Lemma between_visited t g : g ∈ between (ranges t) -> sz <= r_end g - r_start g -> g ∈ visited t.
Proof.
  revert g. induction t as [| l IHl p kp r IHr]; [done |]. intros g Hg Hs. pose proof (gap_le_max _ _ Hg) as Hm.
  cbn [visited]. unfold big at 1. rewrite (proj2 (Z.leb_le _ _)) by lia. cbv zeta. rewrite between_node, !elem_of_app in Hg. rewrite !elem_of_app.
  destruct Hg as [Hg | [Hg | Hg]]; [auto | auto |]. right. right. pose proof (gap_le_max _ _ Hg). unfold big. rewrite (proj2 (Z.leb_le _ _)) by lia.
  rewrite !elem_of_app. auto.
Qed.

Lemma visited_sum t : spots_sum (visited t) <= 2 * spots_sum (between (ranges t)).
Proof.
  induction t as [| l IHl p kp r IHr]; [done |]. cbn [visited]. rewrite between_node. pose proof (spots_sum_nonneg (between (ranges l))).
  pose proof (spots_sum_nonneg (left_gap l p ++ right_gap p r)). pose proof (spots_sum_nonneg (between (ranges r))).
  cbv zeta. destruct (big (N l p kp r)), (big r); rewrite ?spots_sum_app in *; cbn [spots_sum]; lia.
Qed.

(** ** The number of candidates *)

Lemma spots_le g : gap_ok g -> spots g <= Z.max 0 (r_end g - r_start g).
Proof.
  intros Hg. destruct (gap_end_ok g Hg) as (_ & _ & _ & He). pose proof (roundup_spec (r_start g) A A_pos) as [[Hs _] _]. pose proof A_pos.
  unfold spots. destruct (Z.leb_spec sz (gap_end g - gap_start g)) as [Hle |]; [| lia]. unfold gap_start in *.
  pose proof (Z.div_le_upper_bound (gap_end g - roundup (r_start g) A - sz) A (gap_end g - roundup (r_start g) A - sz) ltac:(lia) ltac:(nia)). lia.
Qed.

Lemma ordered_cons a l : ordered (a :: l) -> ordered l /\ 0 <= r_start a < r_end a /\ r_end a + (A - 1) < USIZE_MOD /\ forall b, b ∈ l -> r_end a <= r_start b.
Proof.
  intros [Hf Hs]. apply Forall_cons in Hf as [Ha Hf]. apply StronglySorted_inv in Hs as [Hs Hb]. rewrite Forall_forall in Hb.
  split; [by split |]. split; [tauto |]. split; [tauto | done].
Qed.

Lemma between_ok l : ordered l -> Forall gap_ok (between l).
Proof.
  induction l as [| a [| b l] IH]; intros Ho; [constructor.. |]. cbn [between]. apply ordered_cons in Ho as (Ho & Ha & Hao & Hlt).
  constructor; [| by apply IH]. apply ordered_cons in Ho as (_ & Hb & Hbo & _). specialize (Hlt b (list_elem_of_here _ _)).
  unfold gap_ok, is_usize. cbn. pose proof A_pos. lia.
Qed.

Lemma between_sum a l : ordered (a :: l) -> spots_sum (between (a :: l)) <= r_end (default a (last l)) - r_end a.
Proof.
  revert a. induction l as [| b l IH]; intros a Ho; [cbn; lia |]. pose proof (between_ok _ Ho) as Hg. cbn [between] in *. apply Forall_cons in Hg as [Hg _].
  pose proof (spots_le _ Hg) as Hsp. cbn [r_start r_end] in Hsp. cbn [spots_sum]. apply ordered_cons in Ho as (Ho & Ha & _ & Hlt). specialize (IH b Ho).
  apply ordered_cons in Ho as (_ & Hb & _). specialize (Hlt b (list_elem_of_here _ _)). rewrite last_cons. destruct (last l) as [c |]; cbn [from_option id] in *; lia.
Qed.

(** ** The search as a whole *)

Context (first last_ : Z) (Hfirst : 0 <= first) (Hfo : first + (A - 1) < USIZE_MOD) (Hlast : first < last_ < USIZE_MOD) (Hroom : 2 * (last_ - first) < USIZE_MOD).

Definition inside (l : list range) : Prop := Forall (fun r => first <= r_start r /\ r_end r <= last_) l.

Definition all_gaps (t : tree) : list range :=
  match t with E => [Range first (last_ - 1)] | _ => Range first (r_start (tspan t)) :: visited t ++ [Range (r_end (tspan t)) last_] end.

(** The ends of a tree that is not empty. *)
Lemma tree_ends t : t <> E -> ordered (ranges t) -> inside (ranges t) ->
  first <= r_start (tspan t) /\ r_start (tspan t) < r_end (tspan t) /\ r_end (tspan t) <= last_ /\ r_end (tspan t) + (A - 1) < USIZE_MOD
  /\ spots_sum (between (ranges t)) <= r_end (tspan t) - r_start (tspan t).
Proof.
  intros Ht Ho Hi. unfold tspan, span. assert (Hne : ranges t <> []) by (destruct t as [| l p kp r]; [done | cbn; by destruct (nodes l)]).
  destruct (ranges t) as [| a l] eqn:Hl; [done |]. cbn [head]. rewrite last_cons. pose proof (between_sum a l Ho) as Hs.
  assert (Hb : exists b, last (a :: l) = Some b /\ b = default a (last l)) by (rewrite last_cons; destruct (last l); by eexists). destruct Hb as (b & Hb & Hbd).
  assert (Hin : b ∈ a :: l) by (by apply last_Some_elem_of). rewrite last_cons in Hb. rewrite Hb. cbn [r_start r_end]. rewrite <- Hbd in Hs.
  unfold inside in Hi. rewrite Forall_forall in Hi. destruct (Hi a (list_elem_of_here _ _)). destruct (Hi b Hin). pose proof (ordered_cons _ _ Ho) as (_ & _ & _ & Hord). destruct Ho as [Hf _]. rewrite Forall_forall in Hf.
  destruct (Hf b Hin). destruct (Hf a (list_elem_of_here _ _)). split; [lia |]. split; [| lia].
  apply elem_of_cons in Hin as [-> | Hin]; [lia |]. specialize (Hord b Hin). lia.
Qed.

Lemma all_gaps_ok t : ordered (ranges t) -> inside (ranges t) -> Forall gap_ok (all_gaps t) /\ spots_sum (all_gaps t) < USIZE_MOD.
Proof.
  intros Ho Hi. destruct t as [| l p kp r]; cbn [all_gaps].
  - assert (Hg : gap_ok (Range first (last_ - 1))) by (unfold gap_ok, is_usize; cbn; lia). split; [by apply Forall_singleton |].
    pose proof (spots_le _ Hg). cbn [spots_sum r_start r_end] in *. lia.
  - set (t := N l p kp r) in *. destruct (tree_ends t) as (H1 & H2 & H3 & H4 & H5); [done | done | done |]. pose proof A_pos.
    assert (Hg1 : gap_ok (Range first (r_start (tspan t)))) by (unfold gap_ok, is_usize; cbn; lia).
    assert (Hg2 : gap_ok (Range (r_end (tspan t)) last_)) by (unfold gap_ok, is_usize; cbn; lia).
    pose proof (between_ok _ Ho) as Hb. rewrite Forall_forall in Hb. split.
    + constructor; [done |]. apply Forall_app. split; [| by apply Forall_singleton]. apply Forall_forall. intros g Hg. by apply Hb, visited_between.
    + cbn [spots_sum]. rewrite spots_sum_app. cbn [spots_sum]. pose proof (visited_sum t). pose proof (spots_le _ Hg1). pose proof (spots_le _ Hg2). cbn [r_start r_end] in *. lia.
Qed.

Lemma pick_ok n gs s : Forall gap_ok gs -> search_ok (spots_sum gs + n) s ->
  (target_index s < spots_sum gs -> exists a g, g ∈ gs /\ pick gs s = inl a /\ r_start g <= a /\ a + sz <= r_end g /\ a mod A = 0)
  /\ (spots_sum gs <= target_index s -> pick gs s = inr (MkSearch (target_index s - spots_sum gs) (candidate_spot_count s + spots_sum gs))).
Proof.
  intros Hg. revert s. induction Hg as [| g gs Hg Hgs IH]; intros s Hs; cbn [pick spots_sum].
  - destruct Hs as ([Hi _] & _). split; [lia |]. intros _. destruct s as [i c]. cbn. do 2 f_equal; lia.
  - pose proof (spots_nonneg g). pose proof (spots_sum_nonneg gs). destruct (pick1 g s) as [a | s1] eqn:E1.
    + pose proof E1 as E2. unfold pick1 in E2. destruct (Z.ltb_spec (target_index s) (spots g)) as [Hlt |]; [| done]. injection E2 as <-. split; [| lia]. intros _.
      destruct Hs as ([Hi _] & _). destruct (spot_in_gap g (target_index s) Hg ltac:(lia)) as (Ha & Hb & Hc). exists (gap_start g + target_index s * A), g. split; [by left |]. done.
    + cbn [spots_sum] in Hs. rewrite <- Z.add_assoc in Hs. pose proof (search_next _ _ _ _ E1 Hs) as Hs1. destruct (IH s1 Hs1) as [IH1 IH2].
      unfold pick1 in E1. destruct (Z.ltb_spec (target_index s) (spots g)); [done |]. injection E1 as <-. cbn [target_index candidate_spot_count] in *. split.
      * intros Hlt. destruct IH1 as (a & g' & Hg' & Hr); [lia |]. exists a, g'. split; [by right | done].
      * intros Hge. rewrite IH2 by lia. do 2 f_equal; lia.
Qed.

Context {key : nptr -> Z}.

(** The search picks from the list of gaps. *)
Lemma find_spot_at_index_picks t i :
  tree_ok (Au := exact_augmentation st) key w t -> ordered (ranges t) -> inside (ranges t) -> is_usize i ->
  find_spot_at_index i layout first last_ w
  = Done (match pick (all_gaps t) (MkSearch i 0) with inl a => Ok a | inr s => Err (candidate_spot_count s) end).
Proof.
  intros Hok Ho Hin Hi. destruct (all_gaps_ok t Ho Hin) as [Hg Hsum]. unfold find_spot_at_index. rewrite (wavl_is_empty_ok key w t Hok). cbn [mbind outcome_bind fst].
  pose proof (sat_ctx _ _ _ _ (to_sat _ _ _ Hok)) as Hr. cbn in Hr. rewrite Hr.
  assert (Hs : search_ok (spots_sum (all_gaps t)) (MkSearch i 0)) by (unfold search_ok; cbn [target_index candidate_spot_count]; split_and!; [done | lia | lia]).
  destruct t as [| l p kp r]; cbn [root_of all_gaps pick] in *.
  - rewrite bool_decide_true by done. apply Forall_cons in Hg as [Hg _]. destruct (gap_start_ok _ Hg) as [E1 _]. destruct (gap_end_ok _ Hg) as [E2 _]. cbn in E1, E2.
    unfold addr_sub. cbn [l_align]. rewrite E1, u_sub_Done by (unfold is_usize; lia). cbn [mbind outcome_bind]. rewrite E2. cbn [mbind outcome_bind].
    cbn [spots_sum] in Hs. rewrite Z.add_0_r in Hs. unfold or_found. pose proof (try_gap_ok _ _ Hg Hs) as Et. rewrite Et. cbn [mbind outcome_bind]. by destruct (pick1 _ _).
  - rewrite bool_decide_false by (cbn; by destruct (nodes l)). set (t := N l p kp r) in *. destruct (to_inv _ _ _ Hok) as [_ Ha].
    destruct (root_region t p Ha eq_refl) as (reg & Er & Hmr & _). change (mret (inr (MkSearch i 0))) with (Done (@inr Z Search (MkSearch i 0))).
    rewrite or_found_Done, Er. cbn [mbind outcome_bind]. rewrite Hmr.
    cbn [spots_sum] in Hs. rewrite spots_sum_app in Hs. cbn [spots_sum] in Hs. rewrite Z.add_0_r in Hs. apply Forall_cons in Hg as [Hg1 Hg]. apply Forall_app in Hg as [_ Hg2]. apply Forall_cons in Hg2 as [Hg2 _].
    pose proof (spots_sum_nonneg (visited t)). pose proof (spots_nonneg (Range (r_end (tspan t)) last_)).
    rewrite try_raw_gap_ok, or_found_Done by (done || (eapply search_weaken, Hs; lia)).
    destruct (pick1 (Range first (r_start (tspan t))) (MkSearch i 0)) as [a | s1] eqn:E1; [done |]. apply (search_next _ _ _ _ E1) in Hs.
    pose proof (to_sat _ _ _ Hok) as Hsat. pose proof (sat_pieces _ _ _ _ Hsat) as Hps. apply Forall_cons in Hps as [Hrep _].
    change (Some p) with (root_of t).
    rewrite (walk_ok t) with (up := None); [| done | done | done | done | | eapply search_weaken, Hs; lia |].
    + rewrite pick_app. destruct (pick (visited t) s1) as [a | s2] eqn:E2; [done |]. apply (pick_next _ _ _ _ E2) in Hs. cbn [resume].
      replace (walk _ layout w None _ s2) with (Done (@inr Z Search s2)) by (by destruct (_ - _)%nat).
      rewrite or_found_Done, try_raw_gap_ok by done. cbn [mbind outcome_bind pick]. by destruct (pick1 _ s2).
    + destruct Ho as [Hf _]. rewrite Forall_forall in Hf. intros q Hq. destruct (Hf (rng st q)); [by apply list_elem_of_fmap_2 | lia].
    + pose proof (steps_bound t). pose proof (sat_size _ _ _ _ Hsat) as Hz. unfold owned in Hz. cbn [ctx_nodes app fmap list_fmap piece_nodes mjoin list_join] in Hz.
      rewrite app_nil_r in Hz. lia.
Qed.

(** ** Free spots *)

Definition free_spot (l : list range) (a : Z) : Prop :=
  a mod A = 0 /\ first <= a /\ a + sz <= last_ /\ Forall (fun r => a + sz <= r_start r \/ r_end r <= a) l.

Lemma between_ends l g : g ∈ between l -> exists x y, x ∈ l /\ y ∈ l /\ g = Range (r_end x) (r_start y).
Proof.
  induction l as [| a [| b l] IH]; intros Hg; [by apply not_elem_of_nil in Hg.. |]. cbn [between] in Hg. apply elem_of_cons in Hg as [-> | Hg].
  - exists a, b. split; [by left |]. split; [right; by left | done].
  - destruct (IH Hg) as (x & y & Hx & Hy & He). exists x, y. split; [by right |]. split; [by right | done].
Qed.

Lemma between_sep l g : ordered l -> g ∈ between l -> forall r, r ∈ l -> r_end r <= r_start g \/ r_end g <= r_start r.
Proof.
  induction l as [| a [| b l] IH]; intros Ho Hg; [by apply not_elem_of_nil in Hg.. |]. cbn [between] in Hg. apply ordered_cons in Ho as (Ho & Ha & _ & Hlt).
  apply elem_of_cons in Hg as [-> | Hg]; cbn [r_start r_end]; intros r Hr; apply elem_of_cons in Hr as [-> | Hr].
  - left. lia.
  - right. apply ordered_cons in Ho as (_ & Hb & _ & Hlt'). apply elem_of_cons in Hr as [-> | Hr]; [lia |]. specialize (Hlt' r Hr). lia.
  - left. destruct (between_ends (b :: l) g Hg) as (c & y & Hc & _ & ->). pose proof (Hlt c Hc). destruct Ho as [Hf _]. rewrite Forall_forall in Hf. destruct (Hf c Hc). cbn. lia.
  - by apply IH.
Qed.

Lemma tspan_least t r : ordered (ranges t) -> r ∈ ranges t -> r_start (tspan t) <= r_start r < r_end r /\ r_end r <= r_end (tspan t).
Proof.
  intros Ho Hq. pose proof Ho as [Hf _]. rewrite Forall_forall in Hf. destruct (Hf r Hq) as [Hr _]. unfold tspan, span.
  destruct (ranges t) as [| a l] eqn:Hl; [by apply not_elem_of_nil in Hq |]. cbn [head].
  destruct (last (a :: l)) as [b |] eqn:Hb; [| by apply last_None in Hb]. cbn [r_start r_end]. apply last_Some in Hb as [l' Hl']. split.
  - apply ordered_cons in Ho as (Ho & Ha & _ & Hlt). apply elem_of_cons in Hq as [-> | Hq]; [lia |]. specialize (Hlt _ Hq). lia.
  - rewrite Hl' in Ho, Hq. apply ordered_app in Ho as (_ & Hob & Hlt). apply elem_of_app in Hq as [Hq | Hq].
    + specialize (Hlt _ b Hq ltac:(by left)). apply ordered_cons in Hob as (_ & Hb' & _). lia.
    + apply list_elem_of_singleton in Hq as ->. done.
Qed.

Lemma gap_free t g a : ordered (ranges t) -> inside (ranges t) -> g ∈ all_gaps t -> r_start g <= a -> a + sz <= r_end g -> a mod A = 0 -> free_spot (ranges t) a.
Proof.
  intros Ho Hi Hg Ha Hb Hm. split; [done |]. destruct t as [| l p kp r]; cbn [all_gaps] in Hg.
  { apply list_elem_of_singleton in Hg as ->. cbn in *. split; [lia |]. split; [lia | constructor]. }
  set (t := N l p kp r) in *. destruct (tree_ends t) as (H1 & H2 & H3 & _ & _); [done | done | done |].
  rewrite elem_of_cons, elem_of_app, list_elem_of_singleton in Hg. destruct Hg as [-> | [Hg | ->]]; cbn [r_start r_end] in *.
  - split; [lia |]. split; [lia |]. apply Forall_forall. intros x Hx. destruct (tspan_least t x Ho Hx). lia.
  - apply visited_between in Hg. pose proof (between_sep _ _ Ho Hg) as Hsep. destruct (between_ends _ _ Hg) as (x & y & Hx & Hy & ->). cbn [r_start r_end] in *.
    destruct (tspan_least t x Ho Hx). destruct (tspan_least t y Ho Hy). split; [lia |]. split; [lia |]. apply Forall_forall. intros z Hz. specialize (Hsep z Hz). lia.
  - split; [lia |]. split; [lia |]. apply Forall_forall. intros x Hx. destruct (tspan_least t x Ho Hx). lia.
Qed.

(** A free spot is before the first region, after the last, or between two. *)
Lemma free_between x l a : ordered (x :: l) -> Forall (fun r => a + sz <= r_start r \/ r_end r <= a) (x :: l) ->
  a + sz <= r_start x \/ (exists g, g ∈ between (x :: l) /\ r_start g <= a /\ a + sz <= r_end g) \/ (forall y, last (x :: l) = Some y -> r_end y <= a).
Proof.
  revert x. induction l as [| y l IH]; intros x Ho Hf; apply Forall_cons in Hf as [Hx Hf].
  { destruct Hx as [Hx | Hx]; [auto |]. right. right. by intros y [= <-]. }
  destruct Hx as [Hx | Hx]; [auto |]. right. apply ordered_cons in Ho as (Ho & _). rewrite last_cons_cons. destruct (IH y Ho Hf) as [Hy | [(g & Hg & Hr) | Hy]]; [| | auto].
  - left. exists (Range (r_end x) (r_start y)). cbn [between]. split; [by left | done].
  - left. exists g. cbn [between]. split; [by right | done].
Qed.

Lemma spot_counts g a : gap_ok g -> a mod A = 0 -> sz mod A = 0 -> r_start g <= a -> a + sz <= r_end g -> 0 < spots g.
Proof.
  intros Hg Hm Hs Ha Hb. pose proof A_pos. pose proof (roundup_least (r_start g) A a ltac:(lia) Hm Ha).
  assert (Hge : a + sz <= gap_end g).
  { unfold gap_end. pose proof (Z.mod_pos_bound (r_end g) A ltac:(lia)). apply Z.mod_divide in Hm as [x ->]; [| lia]. apply Z.mod_divide in Hs as [y Hy]; [| lia].
    pose proof (Z.div_mod (r_end g) A ltac:(lia)). rewrite Hy in *. assert (x + y <= r_end g / A) by nia. nia. }
  unfold spots. unfold gap_start in *. rewrite (proj2 (Z.leb_le _ _)) by lia. pose proof (Z.div_pos (gap_end g - roundup (r_start g) A - sz) A). lia.
Qed.

Lemma spots_sum_elem g gs : g ∈ gs -> spots g <= spots_sum gs.
Proof. induction 1 as [g gs | g g' gs Hg IH]; cbn; [pose proof (spots_sum_nonneg gs) | pose proof (spots_nonneg g')]; lia. Qed.

Lemma free_counts t a : ordered (ranges t) -> inside (ranges t) -> sz mod A = 0 -> free_spot (ranges t) a -> a + sz < last_ -> 0 < spots_sum (all_gaps t).
Proof.
  intros Ho Hi Hm (Hma & Ha & Hb & Hf) Hl. destruct (all_gaps_ok t Ho Hi) as [Hg _]. rewrite Forall_forall in Hg.
  assert (Hex : exists g, g ∈ all_gaps t /\ r_start g <= a /\ a + sz <= r_end g).
  { destruct t as [| l p kp r]; [exists (Range first (last_ - 1)); cbn; split; [by left | lia] |]. set (t := N l p kp r) in *.
    assert (Hne : ranges t <> []) by (cbn; by destruct (nodes l)). unfold all_gaps. fold t. assert (Hend : forall y, last (ranges t) = Some y -> r_end (tspan t) = r_end y).
    { intros y Hy. unfold tspan, span. rewrite Hy. by destruct (ranges t). }
    assert (Hst' : forall x L, ranges t = x :: L -> r_start (tspan t) = r_start x).
    { intros x L HL. unfold tspan, span. rewrite HL. cbn [head]. destruct (last (x :: L)) eqn:He; [done | by apply last_None in He]. }
    destruct (ranges t) as [| x L] eqn:HL; [done |]. rewrite (Hst' x L eq_refl). destruct (free_between x L a Ho Hf) as [H1 | [(g & H1 & H2 & H3) | H1]].
    - exists (Range first (r_start x)). split; [by left | done].
    - exists g. split; [| done]. right. apply elem_of_app. left. apply between_visited; [by rewrite HL | lia].
    - exists (Range (r_end (tspan t)) last_). split; [right; apply elem_of_app; right; by left |]. cbn. destruct (last (x :: L)) as [y |] eqn:He; [| by apply last_None in He].
      rewrite (Hend y eq_refl). specialize (H1 y eq_refl). lia. }
  destruct Hex as (g & Hgi & H1 & H2). pose proof (spots_sum_elem _ _ Hgi). pose proof (spot_counts g a (Hg g Hgi) Hma Hm H1 H2). lia.
Qed.

(** What the search finds: below a number of candidates, a free spot for every
    index; and there are candidates if there is a free spot. *)
Lemma find_spot_at_index_ok t :
  tree_ok (Au := exact_augmentation st) key w t -> ordered (ranges t) -> inside (ranges t) -> sz mod A = 0 ->
  exists N, 0 <= N < USIZE_MOD
    /\ (forall i, 0 <= i < N -> exists a, find_spot_at_index i layout first last_ w = Done (Ok a) /\ free_spot (ranges t) a)
    /\ (forall i, N <= i < USIZE_MOD -> find_spot_at_index i layout first last_ w = Done (Err N))
    /\ (forall a, free_spot (ranges t) a -> a + sz < last_ -> 0 < N).
Proof.
  intros Hok Ho Hi Hm. destruct (all_gaps_ok t Ho Hi) as [Hg Hsum]. pose proof (spots_sum_nonneg (all_gaps t)) as Hnn. exists (spots_sum (all_gaps t)).
  assert (Hso : forall i, is_usize i -> search_ok (spots_sum (all_gaps t) + 0) (MkSearch i 0))
    by (intros i Hiu; unfold search_ok; cbn [target_index candidate_spot_count]; split_and!; [done | lia | lia]).
  split; [lia |]. split; [| split].
  - intros i Hlt. assert (Hiu : is_usize i) by (unfold is_usize; lia). rewrite (find_spot_at_index_picks t i Hok Ho Hi Hiu).
    destruct (pick_ok 0 _ _ Hg (Hso i Hiu)) as [Hp _]. destruct Hp as (a & g & Hgi & -> & H1 & H2 & H3); [cbn; lia |]. exists a. split; [done |]. by eapply gap_free.
  - intros i Hge. assert (Hiu : is_usize i) by (unfold is_usize; lia). rewrite (find_spot_at_index_picks t i Hok Ho Hi Hiu).
    destruct (pick_ok 0 _ _ Hg (Hso i Hiu)) as [_ Hp]. rewrite Hp by (cbn; lia). done.
  - intros a Hf Hl. by eapply free_counts.
Qed.
End walk.
End gaps.
