(* ===== verification/KernelSpace.v ===== *)
(** * Address spaces of the kernel (sys/kernel/src/mem)

    [AddressSpace]: the tree of regions, with a batch of mappings that are
    carried over to the page tables. The page tables ([ArchAddressSpace]) and
    the paged memory objects are interfaces, the random number generator is a
    parameter. A region is a node on a heap of its own: it appears when it is
    boxed and goes when its box is dropped. *)

From stdpp Require Import base numbers list gmap sorting.
From Stdlib Require Import ZArith Lia.
From S2P Require Import Prelude Address Riscv Arch WavlTree WavlRepr WavlBalance WavlShrink WavlSearch WavlOps Regions FindSpot.

(** ** Constants of the architecture (arch/riscv64/mem.rs) *)

Definition PAGE_SIZE : Z := 4096.
Definition VIRT_ADDR_BITS : Z := 38.
Definition CANONICAL_ADDRESS_MASK : Z := u_not (Z.shiftl 1 VIRT_ADDR_BITS - 1).
Definition KERNEL_ASPACE_RANGE : Z * Z := (0xffffffc000000000, USIZE_MAX).
Definition USER_ASPACE_RANGE : Z * Z := (0x200000, Z.shiftl 1 VIRT_ADDR_BITS - 1).

Definition arch_is_canonical (virt : Z) : bool :=
  CANONICAL_ADDRESS_MASK - 1 <=? wrapping_sub (Z.land virt CANONICAL_ADDRESS_MASK) 1.
Definition is_user_address (virt : Z) : bool := Z.land virt CANONICAL_ADDRESS_MASK =? 0.
Definition is_kernel_address (virt : Z) : bool := (KERNEL_ASPACE_RANGE.1 <=? virt) && (virt <? KERNEL_ASPACE_RANGE.2).

(** ** Permissions and the causes of faults (mem/mod.rs) *)

Definition contains (flags other : Z) : bool := Z.land flags other =? other.
Definition difference (flags other : Z) : Z := Z.ldiff flags other.

Definition P_READ : Z := 1.
Definition P_WRITE : Z := 2.
Definition P_EXECUTE : Z := 4.
Definition P_USER : Z := 8.
Definition permissions_valid (p : Z) : bool := negb (contains p (Z.lor P_WRITE P_EXECUTE)).

Definition F_LOAD : Z := 1.
Definition F_STORE : Z := 2.
Definition F_INSTRUCTION : Z := 8.
Definition fault_valid (f : Z) : bool := negb (contains f (Z.lor F_LOAD F_STORE)).
Definition cause_is_write (f : Z) : bool := contains f F_STORE.

Definition permissions_from (f : Z) : Z :=
  let out := if contains f F_STORE then P_WRITE else P_READ in
  if contains f F_INSTRUCTION then Z.lor out P_EXECUTE else out.

(** [PTEFlags] from [Permissions]; bits that are no permission are unreachable. *)
Definition pte_flags_from (p : Z) : outcome Z :=
  let out := Z.lor 1 (Z.lor 64 128) in
  let out := if contains p P_READ then Z.lor out 2 else out in
  let out := if contains p P_WRITE then Z.lor out 4 else out in
  let out := if contains p P_EXECUTE then Z.lor out 8 else out in
  let out := if contains p P_USER then Z.lor out 16 else out in
  _ ← assert_ (difference p 15 =? 0);
  mret out.

(** ** Pending invalidations (mem/flush.rs) *)

Record KFlush := MkKFlush { kf_asid : Z; kf_range : option range }.

Definition kflush_empty (asid : Z) : KFlush := MkKFlush asid None.

Definition extend_range (asid : Z) (other : range) (f : KFlush) : result unit KFlush :=
  if kf_asid f =? asid then
    Ok (MkKFlush asid (match kf_range f with
                       | Some this => Some (Range (Z.min (r_start this) (r_start other)) (Z.max (r_end this) (r_end other)))
                       | None => Some other
                       end))
  else Err tt.

(** ** Interfaces *)

(** The page tables, on the state [S] of the machine. *)
Class ArchAddressSpace (S : Type) := {
  arch_asid : S -> Z;
  arch_map_contiguous : Z -> Z -> Z -> Z -> KFlush -> M S (result unit KFlush);
  arch_update_flags : Z -> Z -> Z -> KFlush -> M S (result unit KFlush);
  arch_unmap : Z -> Z -> KFlush -> M S (result unit KFlush);
  invalidate_range : Z -> range -> M S (result unit unit);
  frame_max_alignment : S -> Z;
}.

(** A paged memory object: the address of the frame for an offset, to write or
    to read, and giving frames back. *)
Class PagedVmo (P S : Type) := {
  require_owned_frame : Z -> P -> M S (result unit Z * P);
  require_read_frame : Z -> P -> M S (result unit Z * P);
  free_frames : range -> P -> M S P;
}.

Inductive Vmo (P : Type) := Wired | Phys (phys : range) | Paged (vmo : P).
Arguments Wired {P}.
Arguments Phys {P}.
Arguments Paged {P}.

(** [PhysVmo::lookup_contiguous] *)
Definition lookup_contiguous (phys : range) (r : range) : outcome (result unit range) :=
  if negb (r_start r mod PAGE_SIZE =? 0) then mret (Err tt)
  else
    start_ ← addr_add (r_start phys) (r_start r);
    end_ ← addr_add (r_start phys) (r_end r);
    if (r_start phys <=? start_) && (end_ <=? r_end phys) then mret (Ok (Range start_ end_)) else mret (Err tt).

(** ** Batches *)

Record Batch := MkBatch { b_range : range; b_flags : Z; b_actions : list (Z * Z) }.

Definition batch_new : Batch := MkBatch (Range 0 0) 0 [].
Definition batch_ignore (b : Batch) : Batch := MkBatch (b_range b) (b_flags b) [].

Section machine.
Context {S P : Type} `{ArchAddressSpace S} `{PagedVmo P S}.

Definition kflush_flush (f : KFlush) : M S (result unit unit) :=
  match kf_range f with
  | Some r => invalidate_range (kf_asid f) r
  | None => mret (Ok tt)
  end.

Definition new_flush : M S KFlush := fun s => Done (kflush_empty (arch_asid s), s).

Fixpoint flush_actions (actions : list (Z * Z)) (virt flags : Z) (f : KFlush) : M S (result unit KFlush) :=
  match actions with
  | [] => mret (Ok f)
  | (phys, len) :: actions =>
      _ ← lift (assert_ (negb (len =? 0)));
      f <-? arch_map_contiguous virt phys len flags f;
      virt ← lift (addr_add virt len);
      flush_actions actions virt flags f
  end.

(** The actions are gone also after an error, when [drain] is dropped. *)
Definition batch_flush (b : Batch) : M S (result unit unit * Batch) :=
  match b_actions b with
  | [] => mret (Ok tt, b)
  | actions =>
      let drained := MkBatch (b_range b) (b_flags b) [] in
      f ← new_flush;
      r ← (f <-? flush_actions actions (r_start (b_range b)) (b_flags b) f; kflush_flush f);
      match r with
      | Err e => mret (Err e, drained)
      | Ok _ => mret (Ok tt, MkBatch (Range (r_end (b_range b)) (r_end (b_range b))) (b_flags b) [])
      end
  end.

Definition queue_map (virt phys len flags : Z) (b : Batch) : M S (result unit Batch) :=
  _ ← lift (assert_ (len mod PAGE_SIZE =? 0));
  if negb (r_end (b_range b) =? virt) || negb (b_flags b =? flags) then
    r ← batch_flush b;
    match r with
    | (Err e, _) => mret (Err e)
    | (Ok _, b) =>
        new ← lift (range_from_start_len virt len);
        mret (Ok (MkBatch new flags (b_actions b ++ [(phys, len)])))
    end
  else
    end_ ← lift (addr_add (r_end (b_range b)) len);
    mret (Ok (MkBatch (Range (r_start (b_range b)) end_) (b_flags b) (b_actions b ++ [(phys, len)]))).

(** ** Operations of a region (address_space_region.rs) *)

Abbreviation KRegion := (AddressSpaceRegion (Vmo P)).

Definition with_vmo (v : Vmo P) (r : KRegion) : KRegion :=
  MkRegion (MkStatic (reg_range r) (s_permissions (reg_static r)) v (s_vmo_offset (reg_static r))) (max_range r) (max_gap r).
Definition with_permissions (p : Z) (r : KRegion) : KRegion :=
  MkRegion (MkStatic (reg_range r) p (s_vmo (reg_static r)) (s_vmo_offset (reg_static r))) (max_range r) (max_gap r).

(** [?] where the object [X] that is borrowed keeps its changes. *)
Definition try_keep {A B X} (m : M S (result unit A * X)) (k : A -> X -> M S (result unit B * X)) : M S (result unit B * X) :=
  r ← m; match r with (Ok a, x) => k a x | (Err e, x) => mret (Err e, x) end.

Definition require_frame (write : bool) (offset : Z) (v : P) : M S (result unit Z * P) :=
  if write then require_owned_frame offset v else require_read_frame offset v.

(** A page of a paged region is mapped, without write permission if only read. *)
Definition map_page (r : KRegion) (write : bool) (addr : Z) (b : Batch) (v : P) : M S (result unit Batch * P) :=
  offset ← lift (addr_offset_from_unsigned addr (r_start (reg_range r)));
  try_keep (require_frame write offset v) (fun frame v =>
    let perms := s_permissions (reg_static r) in
    flags ← lift (pte_flags_from (if write then perms else difference perms P_WRITE));
    b ← queue_map addr frame PAGE_SIZE flags b;
    mret (b, v)).

(** [for addr in range.into_iter().step_by(PAGE_SIZE)] *)
Fixpoint map_pages (n : nat) (r : KRegion) (write : bool) (addr : Z) (b : Batch) (v : P) : M S (result unit Batch * P) :=
  match n with
  | O => mret (Ok b, v)
  | Datatypes.S n =>
      ok ← lift (is_aligned_to addr PAGE_SIZE);
      _ ← lift (assert_ ok);
      try_keep (map_page r write addr b v) (fun b v => map_pages n r write (addr + PAGE_SIZE) b v)
  end.

Definition page_count (r : range) : nat := Z.to_nat ((r_end r - r_start r + (PAGE_SIZE - 1)) / PAGE_SIZE).

(** A physical region: the frames behind a part of it. *)
Definition map_phys (r : KRegion) (phys : range) (virt : Z) (part : range) (b : Batch) : M S (result unit Batch) :=
  lk ← lift (lookup_contiguous phys part);
  match lk with
  | Err _ => lift Panicked
  | Ok range_phys =>
      len ← lift (range_len range_phys);
      _ ← lift (assert_ (negb (len =? 0)));
      flags ← lift (pte_flags_from (s_permissions (reg_static r)));
      queue_map virt (r_start range_phys) len flags b
  end.

Definition region_commit (part : range) (will_write : bool) (b : Batch) (r : KRegion) : M S (result unit Batch * KRegion) :=
  start_ ← lift (addr_offset_from_unsigned (r_start part) (r_start (reg_range r)));
  end_ ← lift (addr_offset_from_unsigned (r_end part) (r_start (reg_range r)));
  match s_vmo (reg_static r) with
  | Wired => lift Panicked
  | Phys phys => b ← map_phys r phys (r_start part) (Range start_ end_) b; mret (b, r)
  | Paged v => bv ← map_pages (page_count part) r will_write (r_start part) b v; mret (bv.1, with_vmo (Paged bv.2) r)
  end.

Definition region_unmap (r : KRegion) (part : range) : M S KRegion :=
  match s_vmo (reg_static r) with
  | Wired => lift Panicked
  | Phys _ => mret r
  | Paged v =>
      start_ ← lift (addr_offset_from_unsigned (r_start part) (r_start (reg_range r)));
      start_ ← lift (u_add start_ (s_vmo_offset (reg_static r)));
      end_ ← lift (addr_offset_from_unsigned (r_end part) (r_start (reg_range r)));
      end_ ← lift (u_add end_ (s_vmo_offset (reg_static r)));
      v ← free_frames (Range start_ end_) v;
      mret (with_vmo (Paged v) r)
  end.

Definition region_page_fault (addr flags : Z) (b : Batch) (r : KRegion) : M S (result unit Batch * KRegion) :=
  ok ← lift (is_aligned_to addr PAGE_SIZE);
  _ ← lift (assert_ (ok && range_contains (reg_range r) addr));
  let diff := difference (permissions_from flags) (s_permissions (reg_static r)) in
  if negb (diff =? 0) then mret (Err tt, r)
  else
    offset ← lift (addr_offset_from_unsigned addr (r_start (reg_range r)));
    match s_vmo (reg_static r) with
    | Wired => lift Panicked
    | Phys phys => end_ ← lift (u_add offset PAGE_SIZE); b ← map_phys r phys addr (Range offset end_) b; mret (b, r)
    | Paged v => bv ← map_page r (cause_is_write flags) addr b v; mret (bv.1, with_vmo (Paged bv.2) r)
    end.

(** ** The address space *)

Inductive AddressSpaceKind := User | Kernel.

(** [R] is the random number generator, [S] the machine. *)
Record AddressSpace (R : Type) := MkSpace {
  a_kind : AddressSpaceKind;
  a_regions : WAVLTree (Regions (Vmo P));
  a_first : Z; a_last : Z;
  a_rng : option R;
  a_last_fault : option (nptr * Z);
  a_machine : S;
}.
End machine.
Arguments MkSpace {S P R}.
Arguments a_kind {S P R}.
Arguments a_regions {S P R}.
Arguments a_first {S P R}.
Arguments a_last {S P R}.
Arguments a_rng {S P R}.
Arguments a_last_fault {S P R}.
Arguments a_machine {S P R}.

Definition VIRT_ALLOC_ENTROPY : Z := 27.

(** The key of a region is the start of its range. *)
Definition key_of {V} (d : Regions V) (p : nptr) : Z := r_start (rng (statics d) p).
Definition keyed {V A} (f : (nptr -> Z) -> W (Regions V) A) : W (Regions V) A := fun w => f (key_of (w_data w)) w.

(** [Box::pin] of a region, and the end of a box. *)
Definition box_region {V} (r : AddressSpaceRegion V) : W (Regions V) nptr := fun w =>
  let p := fresh (dom (w_links w) ∪ dom (w_data w)) in
  Done (p, MkTree (w_root w) (w_size w) (<[p := links_new]> (w_links w)) (<[p := r]> (w_data w))).
Definition drop_region {V} (p : nptr) : W (Regions V) unit := fun w =>
  Done (tt, MkTree (w_root w) (w_size w) (delete p (w_links w)) (delete p (w_data w))).

Definition get_region {V} (p : nptr) : W (Regions V) (AddressSpaceRegion V) := fun w =>
  match w_data w !! p with Some r => Done (r, w) | None => Undefined end.
Definition set_region {V} (p : nptr) (r : AddressSpaceRegion V) : W (Regions V) unit := fun w =>
  Done (tt, MkTree (w_root w) (w_size w) (w_links w) (<[p := r]> (w_data w))).

Section space.
Context {S P : Type} `{ArchAddressSpace S} `{PagedVmo P S}.
Context {R : Type} (sample : R -> Z -> Z * R).

Abbreviation AS := (@AddressSpace S P R).
Abbreviation KRegion := (AddressSpaceRegion (Vmo P)).

Definition in_regions {A} (m : W (Regions (Vmo P)) A) : M AS A := fun a =>
  match m (a_regions a) with
  | Done (x, w) => Done (x, MkSpace (a_kind a) w (a_first a) (a_last a) (a_rng a) (a_last_fault a) (a_machine a))
  | Panicked => Panicked
  | Undefined => Undefined
  end.
Definition in_machine {A} (m : M S A) : M AS A := fun a =>
  match m (a_machine a) with
  | Done (x, s) => Done (x, MkSpace (a_kind a) (a_regions a) (a_first a) (a_last a) (a_rng a) (a_last_fault a) s)
  | Panicked => Panicked
  | Undefined => Undefined
  end.
Definition get_space : M AS AS := fun a => Done (a, a).
Definition set_last_fault (f : option (nptr * Z)) : M AS unit := fun a =>
  Done (tt, MkSpace (a_kind a) (a_regions a) (a_first a) (a_last a) (a_rng a) f (a_machine a)).

(** [ensure!], and [bail!] as [mret (Err tt)]. *)
Definition ensure {A} (b : bool) (k : M AS (result unit A)) : M AS (result unit A) := if b then k else mret (Err tt).

Definition space_new (kind : AddressSpaceKind) (rng : option R) (s : S) : AS :=
  let r := match kind with User => USER_ASPACE_RANGE | Kernel => KERNEL_ASPACE_RANGE end in
  MkSpace kind (wavl_new ∅ ∅) r.1 r.2 rng None s.

(** [prng.sample(Uniform::new(0, n).unwrap())] *)
Definition sample_below (n : Z) : M AS Z := fun a =>
  match a_rng a with
  | None => Panicked
  | Some g =>
      if 0 <? n then
        let '(i, g) := sample g n in
        Done (i, MkSpace (a_kind a) (a_regions a) (a_first a) (a_last a) (Some g) (a_last_fault a) (a_machine a))
      else Panicked
  end.

Definition spot_at (i : Z) (layout : Layout) : M AS (result Z Z) :=
  a ← get_space; lift (find_spot_at_index i layout (a_first a) (a_last a) (a_regions a)).

Definition find_spot (layout : Layout) (entropy : Z) : M AS (result unit Z) :=
  a ← get_space;
  i ← match a_rng a with Some _ => sample_below (Z.shiftl 1 entropy) | None => mret 0 end;
  r ← spot_at i layout;
  let finish spot := _ ← lift (assert_ (arch_is_canonical spot)); mret (Ok spot) in
  match r with
  | Ok spot => finish spot
  | Err n =>
      if n =? 0 then mret (Err tt)
      else
        i ← sample_below n;
        r ← spot_at i layout;
        match r with Ok spot => finish spot | Err _ => lift Panicked end
  end.

(** [regions.insert(Box::pin(region))] *)
Definition insert_region (r : KRegion) : W (Regions (Vmo P)) nptr := p ← box_region r; keyed (fun key => wavl_insert key p).

Definition MapFn : Type := range -> Z -> Batch -> M S (result unit (KRegion * Batch)).

Definition map_internal (r : range) (permissions : Z) (map : MapFn) : M AS (result unit nptr) :=
  rb <-? in_machine (map r permissions batch_new);
  p ← in_regions (insert_region rb.1);
  fl ← in_machine (batch_flush rb.2);
  match fl.1 with Err e => mret (Err e) | Ok _ => mret (Ok p) end.

(** [Layout::pad_to_align] *)
Definition pad_to_align (l : Layout) : Layout := MkLayout (roundup (l_size l) (l_align l)) (l_align l).

Definition map_unchecked (layout : Layout) (permissions : Z) (map : MapFn) : M AS (result unit nptr) :=
  let layout := pad_to_align layout in
  base <-? find_spot layout VIRT_ALLOC_ENTROPY;
  r ← lift (range_from_start_len base (l_size layout));
  map_internal r permissions map.

(** [self.max_range.last.offset_from_unsigned(self.max_range.start)] *)
Definition space_len : M AS Z := a ← get_space; lift (addr_offset_from_unsigned (a_last a) (a_first a)).

Definition space_map (layout : Layout) (permissions : Z) (map : MapFn) : M AS (result unit nptr) :=
  let padded := l_size (pad_to_align layout) in
  ensure (padded mod PAGE_SIZE =? 0) (
  len ← space_len;
  ensure (padded <=? len) (
  a ← get_space;
  ensure (l_align layout <=? frame_max_alignment (a_machine a)) (
  ensure (permissions_valid permissions) (
  map_unchecked layout permissions map)))).

(** The checks of a range that four operations begin with. *)
Definition check_range {A} (r : range) (k : M AS (result unit A)) : M AS (result unit A) :=
  a ← lift (is_aligned_to (r_start r) PAGE_SIZE);
  ensure a (
  b ← lift (is_aligned_to (r_end r) PAGE_SIZE);
  ensure b (
  n ← lift (range_len r);
  len ← space_len;
  ensure (n <=? len) k)).

(** The region before is to end before the range. *)
Definition ensure_free {A} (r : range) (k : M AS (result unit A)) : M AS (result unit A) :=
  prev ← in_regions (keyed (fun key => find_upper_bound key (Included (r_start r))));
  match prev with
  | None => k
  | Some p => reg ← in_regions (get_region p); ensure (r_end (reg_range reg) <=? r_start r) k
  end.

Definition map_specific (r : range) (permissions : Z) (map : MapFn) : M AS (result unit nptr) :=
  check_range r (ensure (permissions_valid permissions) (ensure_free r (map_internal r permissions map))).

Definition reserve (r : range) (permissions : Z) : M AS (result unit nptr) :=
  check_range r (ensure (permissions_valid permissions) (ensure_free r (
    p ← in_regions (insert_region (region_new r permissions Wired)); mret (Ok p)))).

Definition reserve_wired_regions (physmap kernel_virt : range) : M AS unit :=
  a ← reserve physmap 0;
  _ ← match a with Ok _ => mret tt | Err _ => lift Panicked end;
  end_ ← lift (align_up (r_end kernel_virt) PAGE_SIZE);
  b ← reserve (Range (r_start kernel_virt) end_) 0;
  match b with Ok _ => mret tt | Err _ => lift Panicked end.

(** The regions that begin in the range, without holes between them; [f] is
    called on each with what it has gathered. *)
Fixpoint for_each_loop {X} (fuel : nat) (f : KRegion -> X -> outcome (result unit X)) (it : Iter) (prev_end : option Z) (x : X) :
    W (Regions (Vmo P)) (result unit X) :=
  match fuel with
  | O => out_of_fuel
  | Datatypes.S fuel =>
      r ← iter_next it;
      match r.1 with
      | None => mret (Ok x)
      | Some p =>
          reg ← get_region p;
          if bool_decide (is_Some prev_end) && negb (bool_decide (prev_end = Some (r_start (reg_range reg)))) then mret (Err tt)
          else
            x <-? lift (f reg x);
            for_each_loop fuel f r.2 (Some (r_end (reg_range reg))) x
      end
  end.

Definition for_each_region_in_range {X} (r : range) (f : KRegion -> X -> outcome (result unit X)) (x : X) : M AS (result unit X) :=
  in_regions (
    it ← keyed (fun key => wavl_range key (Included (r_start r)) (Excluded (r_end r)));
    fuel ← get_fuel;
    for_each_loop (Datatypes.S fuel) f it None x).

(** The loop of [unmap_unchecked]; [c] is the cursor. *)
Fixpoint unmap_loop (fuel : nat) (c : Link) (bytes_remaining : Z) : M AS (result unit unit) :=
  if bytes_remaining <=? 0 then mret (Ok tt)
  else
    match fuel with
    | O => fun _ => Undefined
    | Datatypes.S fuel =>
        h ← in_regions (cursor_remove c);
        match h.1 with
        | None => lift Panicked
        | Some p =>
            reg ← in_regions (get_region p);
            _ ← in_machine (region_unmap reg (reg_range reg));
            n ← lift (range_len (reg_range reg));
            rest ← lift (u_sub bytes_remaining n);
            _ ← in_regions (drop_region p);
            unmap_loop fuel h.2 rest
        end
    end.

(** [NonZeroUsize::new(range.len()).unwrap()] *)
Definition nonzero_len (r : range) : outcome Z := n ← range_len r; _ ← assert_ (negb (n =? 0)); mret n.

Definition unmap_unchecked (r : range) : M AS (result unit unit) :=
  bytes ← lift (range_len r);
  c ← in_regions (keyed (fun key => find_internal key (r_start r)));
  _ <-? unmap_loop 2 c.1 bytes;
  f ← in_machine new_flush;
  n ← lift (nonzero_len r);
  f <-? in_machine (arch_unmap (r_start r) n f);
  in_machine (kflush_flush f).

Definition add_len (reg : KRegion) (seen : Z) : outcome Z := n ← range_len (reg_range reg); u_add seen n.

Definition space_unmap (r : range) : M AS (result unit unit) :=
  check_range r (
    seen <-? for_each_region_in_range r (fun reg seen => seen ← add_len reg seen; mret (Ok seen)) 0;
    n ← lift (range_len r);
    ensure (seen =? n) (unmap_unchecked r)).

Fixpoint protect_loop (fuel : nat) (c : Link) (r : range) (new_permissions bytes_remaining : Z) : M AS unit :=
  if bytes_remaining <=? 0 then mret tt
  else
    match fuel with
    | O => fun _ => Undefined
    | Datatypes.S fuel =>
        match c with
        | None => lift Panicked
        | Some p =>
            reg ← in_regions (get_region p);
            _ ← in_regions (set_region p (with_permissions new_permissions reg));
            n ← lift (range_len r);
            rest ← lift (u_sub bytes_remaining n);
            protect_loop fuel c r new_permissions rest
        end
    end.

Definition protect_unchecked (r : range) (new_permissions : Z) : M AS (result unit unit) :=
  bytes ← lift (range_len r);
  c ← in_regions (keyed (fun key => find_internal key (r_start r)));
  _ ← protect_loop 1 c.1 r new_permissions bytes;
  f ← in_machine new_flush;
  n ← lift (nonzero_len r);
  flags ← lift (pte_flags_from new_permissions);
  f <-? in_machine (arch_update_flags (r_start r) n flags f);
  in_machine (kflush_flush f).

Definition space_protect (r : range) (new_permissions : Z) : M AS (result unit unit) :=
  check_range r (
    ensure (permissions_valid new_permissions) (
    seen <-? for_each_region_in_range r (fun reg seen =>
      seen ← add_len reg seen;
      mret (if contains (s_permissions (reg_static reg)) new_permissions then Ok seen else Err tt)) 0;
    n ← lift (range_len r);
    ensure (seen =? n) (protect_unchecked r new_permissions))).

(** The region that contains an address, by the bound. *)
Definition region_containing (addr : Z) : W (Regions (Vmo P)) Link :=
  u ← keyed (fun key => find_upper_bound key (Included addr));
  match u with
  | None => mret None
  | Some p => reg ← get_region p; mret (if range_contains (reg_range reg) addr then Some p else None)
  end.

Definition space_page_fault (addr flags : Z) : M AS (result unit unit) :=
  _ ← lift (assert_ (fault_valid flags));
  a ← get_space;
  ensure (match a_kind a with User => is_user_address addr | Kernel => is_kernel_address addr end) (
  ensure ((a_first a <=? addr) && (addr <=? a_last a)) (
  addr ← lift (align_down addr PAGE_SIZE);
  _ ← set_last_fault None;
  region ← match a_last_fault a with
           | Some (last_region, last_addr) =>
               reg ← in_regions (get_region last_region);
               _ ← lift (assert_ (negb (addr =? last_addr)));
               if range_contains (reg_range reg) addr then mret (Some last_region) else in_regions (region_containing addr)
           | None => in_regions (region_containing addr)
           end;
  match region with
  | None => mret (Err tt)
  | Some p =>
      reg ← in_regions (get_region p);
      br ← in_machine (region_page_fault addr flags batch_new reg);
      _ ← in_regions (set_region p br.2);
      match br.1 with
      | Err e => mret (Err e)
      | Ok b =>
          fl ← in_machine (batch_flush b);
          match fl.1 with
          | Err e => mret (Err e)
          | Ok _ => _ ← set_last_fault (Some (p, addr)); mret (Ok tt)
          end
      end
  end)).

Fixpoint commit_loop (fuel : nat) (c : Link) (r : range) (will_write : bool) (bytes_remaining : Z) (b : Batch) : M AS (result unit Batch) :=
  if bytes_remaining <=? 0 then mret (Ok b)
  else
    match fuel with
    | O => fun _ => Undefined
    | Datatypes.S fuel =>
        match c with
        | None => lift Panicked
        | Some p =>
            reg ← in_regions (get_region p);
            br ← in_machine (region_commit (range_intersect r (reg_range reg)) will_write b reg);
            _ ← in_regions (set_region p br.2);
            match br.1 with
            | Err e => mret (Err e)
            | Ok b =>
                n ← lift (range_len r);
                rest ← lift (u_sub bytes_remaining n);
                commit_loop fuel c r will_write rest b
            end
        end
    end.

Definition space_commit (r : range) (will_write : bool) : M AS (result unit unit) :=
  check_range r (
    bytes ← lift (range_len r);
    c ← in_regions (keyed (fun key => find_internal key (r_start r)));
    b <-? commit_loop 1 c.1 r will_write bytes batch_new;
    fl ← in_machine (batch_flush b);
    mret fl.1).
End space.
