(* ===== verification/SpaceCorrect.v ===== *)
(** * Correctness of the address spaces of the kernel

    An address space refines a list of regions that are disjoint, in order and
    within the limits of the space: where [map] finds room, what [reserve] and
    [map_specific] accept, and which region a page fault is for. *)

From stdpp Require Import base numbers list gmap sorting.
From Stdlib Require Import ZArith Lia.
From S2P Require Import Prelude Address Riscv Arch WavlTree WavlRepr WavlBalance WavlShrink WavlSearch WavlOps Regions FindSpot KernelSpace.

(** ** Lists of regions *)

Section placed.
Context {V : Type}.
Implicit Types (s q : Static V) (l : list (Static V)).

Abbreviation start_of s := (r_start (s_range s)).
Abbreviation end_of s := (r_end (s_range s)).

(** The list with a region at its place. *)
Fixpoint place s l : list (Static V) :=
  match l with
  | [] => [s]
  | q :: l' => if start_of s <? start_of q then s :: l else q :: place s l'
  end.

Definition apart s q : Prop := end_of s <= start_of q \/ end_of q <= start_of s.

(** Regions in order, of whole pages, within the limits. *)
Record laid_out (first last_ : Z) l : Prop := {
  lo_pages : Forall (fun s => start_of s < end_of s /\ start_of s mod PAGE_SIZE = 0 /\ end_of s mod PAGE_SIZE = 0) l;
  lo_inside : Forall (fun s => first <= start_of s /\ end_of s <= last_) l;
  lo_sorted : StronglySorted (fun s q => end_of s <= start_of q) l;
}.

Lemma place_elem s q l : q ∈ place s l <-> q = s \/ q ∈ l.
Proof.
  induction l as [| x l IH]; cbn [place]; [set_solver |]. destruct (_ <? _); set_solver.
Qed.

Lemma place_forall (Q : Static V -> Prop) s l : Q s -> Forall Q l -> Forall Q (place s l).
Proof. intros Hs Hl. rewrite Forall_forall in Hl |- *. intros q [-> | Hq]%place_elem; auto. Qed.

Lemma place_sorted s l : start_of s < end_of s -> Forall (fun q => start_of q < end_of q) l -> Forall (apart s) l ->
  StronglySorted (fun s q => end_of s <= start_of q) l -> StronglySorted (fun s q => end_of s <= start_of q) (place s l).
Proof.
  intros Hs Hp Ha Hl. induction Hl as [| q l Hl IH Hq]; cbn [place]; [apply SSorted_cons; constructor |].
  apply Forall_cons in Hp as [Hqq Hp]. apply Forall_cons in Ha as [Haq Ha]. unfold apart in Haq. destruct (Z.ltb_spec (start_of s) (start_of q)).
  - constructor; [by constructor |]. constructor; [lia |]. eapply Forall_impl; [exact Hq |]. cbn. lia.
  - constructor; [auto |]. apply (place_forall (fun x => end_of q <= start_of x)); [lia | done].
Qed.

Lemma place_laid_out first last_ s l : laid_out first last_ l -> laid_out first last_ [s] -> Forall (apart s) l -> laid_out first last_ (place s l).
Proof.
  intros [Hp Hi Hs] [Hp' Hi' _] Ha. rewrite Forall_singleton in Hp', Hi'.
  split; [apply place_forall; [exact Hp' | exact Hp] | apply place_forall; [exact Hi' | exact Hi] |]. apply place_sorted; [tauto | | done | done].
  eapply Forall_impl; [exact Hp |]. cbn. tauto.
Qed.

(** There are not more regions than addresses. *)
Lemma laid_out_length first last_ l : first <= last_ -> laid_out first last_ l -> Z.of_nat (length l) <= last_ - first.
Proof.
  intros Hfl [Hp Hi Hs]. revert first Hfl Hi. induction Hs as [| q l Hs IH Hq]; intros first Hfl Hi; cbn [length]; [lia |].
  apply Forall_cons in Hp as [Hqq Hp]. apply Forall_cons in Hi as [Hqi Hi]. rewrite Nat2Z.inj_succ.
  enough (Z.of_nat (length l) <= last_ - end_of q) by lia. apply (IH Hp (end_of q)); [lia |]. rewrite Forall_forall in *. intros x Hx. specialize (Hq x Hx). specialize (Hi x Hx). cbn in *. lia.
Qed.
End placed.

(** ** The tree of regions *)

Section tree_of_regions.
Context {V : Type}.
Implicit Types (w : WAVLTree (Regions V)) (l : list (Static V)).

(** The tree, with exact summaries, holds the regions [l]. *)
Record regions_ok w (t : tree) l : Prop := {
  ro_tree : tree_ok (Au := exact_augmentation (statics (w_data w))) (key_of (w_data w)) w t;
  ro_list : Forall2 (fun p s => statics (w_data w) !! p = Some s) (nodes t) l;
}.

Lemma rng_static (st : gmap nptr (Static V)) p s : st !! p = Some s -> rng st p = s_range s.
Proof. intros Hp. unfold rng. by rewrite Hp. Qed.


Lemma statics_new (d : Regions V) p r : statics (<[p := r]> d) = <[p := reg_static r]> (statics d).
Proof. apply fmap_insert. Qed.

Lemma sorted_insert_place (d : Regions V) p s ps l : statics d !! p = Some s -> Forall2 (fun p s => statics d !! p = Some s) ps l ->
  Forall2 (fun p s => statics d !! p = Some s) (sorted_insert (key_of d) p ps) (place s l).
Proof.
  intros Hp. induction 1 as [| q x ps l Hq Hl IH]; cbn [sorted_insert place]; [by repeat constructor |].
  unfold key_of at 1 2, key_lt. rewrite (rng_static _ _ _ Hp), (rng_static _ _ _ Hq). cbn [cmp Z_ord]. unfold Z.ltb.
  destruct (_ ?= _); by repeat constructor.
Qed.

(** A new node is in no tree. *)
Lemma tree_dom w t p : repr (w_links w) None t -> p ∈ nodes t -> p ∈ dom (w_links w).
Proof.
  intros Hr Hp. enough (H : forall up, repr (w_links w) up t -> is_Some (w_links w !! p)) by (apply elem_of_dom; eauto). clear Hr.
  induction t as [| l IHl q k r IHr]; cbn in *; [set_solver |]. intros up (Hq & Hl & Hr).
  apply elem_of_app in Hp as [Hp | [-> | Hp]%elem_of_cons]; eauto.
Qed.

Lemma tree_repr {Au : Augmentation (Regions V)} key w t : tree_ok (Au := Au) (K := Z) key w t -> repr (w_links w) None t.
Proof. intros Hok. apply (sat_repr w [] t []), Hok. Qed.

Lemma key_new (d : Regions V) p r q : q <> p -> key_of (<[p := r]> d) q = key_of d q.
Proof. intros Hq. unfold key_of, rng. by rewrite statics_new, lookup_insert_ne. Qed.

Lemma aug_new (st : gmap nptr (Static V)) p s r t (d : Regions V) : p ∉ nodes t -> aug st t d -> aug (<[p := s]> st) t (<[p := r]> d).
Proof.
  assert (Hrng : forall L : list nptr, p ∉ L -> rng (<[p := s]> st) <$> L = rng st <$> L).
  { intros L HL. apply list_fmap_ext. intros i q Hq%list_elem_of_lookup_2. unfold rng. rewrite lookup_insert_ne; [done | congruence]. }
  induction t as [| tl IHl q k tr IHr]; cbn [aug nodes]; [done |]. intros Hp ((reg & Hq & Hs) & Hl & Hr).
  pose proof Hp as Hp'. rewrite elem_of_app, elem_of_cons in Hp'. split; [| tauto]. exists reg.
  rewrite lookup_insert_ne by (intros ->; tauto). split; [done |]. unfold summed in *. by rewrite Hrng.
Qed.

Lemma box_region_ok w t l r : regions_ok w t l ->
  exists p w', box_region r w = Done (p, w') /\ regions_ok w' t l /\ p ∉ nodes t /\ w_links w' !! p = Some links_new
    /\ w_data w' = <[p := r]> (w_data w) /\ w_data w !! p = None.
Proof.
  intros [Hok Hl]. unfold box_region. set (p := fresh _). set (w' := MkTree _ _ _ _). exists p, w'. pose proof (is_fresh (dom (w_links w) ∪ dom (w_data w))) as Hf.
  fold p in Hf. apply not_elem_of_union in Hf as [Hf Hd]. apply not_elem_of_dom in Hd.
  assert (Hp : p ∉ nodes t) by (intros Hp; apply Hf; eapply tree_dom, Hp; by eapply tree_repr).
  split; [done |]. split_and!; [split | done | apply lookup_insert_eq | done | done].
  - destruct Hok as [Hs Hw Hso Hsz Hu [_ Ha]]. split; [| done | | done | done |].
    + destruct Hs as [Hc Hps Hn]. split; [done | | done]. cbn [w_links w']. eapply pieces_frame, Hps. cbn. rewrite app_nil_r.
      intros q Hq. apply lookup_insert_ne. by intros <-.
    + cbn [w_data w']. clear -Hso Hp. induction Hso as [| q ps Hso IH Hq]; [constructor |]. apply not_elem_of_cons in Hp as [Hpq Hp].
      constructor; [auto |]. rewrite Forall_forall in Hq |- *. intros x Hx. unfold before. rewrite !key_new; [by apply Hq | by intros -> | done].
    + cbn [inv exact_augmentation w_data w']. split; [done |]. rewrite statics_new. by apply aug_new.
  - cbn [w_data w']. rewrite statics_new. clear -Hl Hp. induction Hl as [| q s ps l Hq Hl IH]; [constructor |]. apply not_elem_of_cons in Hp as [Hpq Hp].
    constructor; [by rewrite lookup_insert_ne | auto].
Qed.

(** No region begins where one that is apart from all of them does. *)
Lemma find_apart (d : Regions V) p s ps l : statics d !! p = Some s -> Forall2 (fun p s => statics d !! p = Some s) ps l ->
  Forall (fun q => r_start (s_range s) <> r_start (s_range q)) l -> List.find (has_key (key_of d) (key_of d p)) ps = None.
Proof.
  intros Hp. induction 1 as [| q x ps l Hq Hl IH]; [done |]. intros [Hx Hn]%Forall_cons. cbn [List.find]. rewrite IH by done.
  unfold has_key, key_of. rewrite (rng_static _ _ _ Hp), (rng_static _ _ _ Hq). cbn [cmp Z_ord]. destruct (Z.compare_spec (r_start (s_range s)) (r_start (s_range x))); congruence.
Qed.




(** The invariant only depends on what the regions are. *)
Lemma regions_statics w t l st : statics (w_data w) = st ->
  tree_ok (Au := exact_augmentation st) (fun p => r_start (rng st p)) w t -> Forall2 (fun p s => st !! p = Some s) (nodes t) l -> regions_ok w t l.
Proof. intros <- Ht Hl. by split. Qed.
End tree_of_regions.

Section inserted.
Context {P : Type}.
Implicit Types (w : WAVLTree (Regions (Vmo P))) (l : list (Static (Vmo P))).

Lemma insert_region_ok w t l r first last_ :
  regions_ok w t l -> laid_out first last_ l -> first <= last_ -> last_ - first + 1 < USIZE_MOD ->
  max_range r = reg_range r -> max_gap r = 0 -> laid_out first last_ [reg_static r] -> Forall (apart (reg_static r)) l ->
  exists p w' T, insert_region r w = Done (p, w') /\ regions_ok w' T (place (reg_static r) l) /\ statics (w_data w') !! p = Some (reg_static r)
    /\ forall q, q ∈ nodes t -> q ∈ nodes T.
Proof.
  intros Hw Hlo Hfl Hroom Hmr Hmg Hr Ha. destruct (box_region_ok w t l r Hw) as (p & w1 & E1 & [Hok1 Hl1] & Hp & Hlk & Hd & _).
  unfold insert_region. unfold mbind at 1, M_bind at 1. rewrite E1. unfold keyed.
  assert (Hst : statics (w_data w1) !! p = Some (reg_static r)) by (rewrite Hd, statics_new; apply lookup_insert_eq).
  destruct (wavl_insert_ok (Au := exact_augmentation (statics (w_data w1))) (key_of (w_data w1)) w1 t p) as (w' & T & E2 & HT & HnT & _); try done.
  - exists r. rewrite Hd, lookup_insert_eq. done.
  - rewrite (Forall2_length _ _ _ Hl1). pose proof (laid_out_length _ _ _ Hfl Hlo). lia.
  - eapply find_apart; [done | done |]. pose proof (lo_pages _ _ _ Hr) as Hpr. rewrite Forall_singleton in Hpr. pose proof (lo_pages _ _ _ Hlo) as Hpl.
    rewrite Forall_forall in Ha, Hpl |- *. intros q Hq. specialize (Ha q Hq). specialize (Hpl q Hq). cbn in Hpl. unfold apart in Ha. lia.
  - destruct (to_inv _ _ _ HT) as [Hst' _]. exists p, w', T. split; [done |]. rewrite Hst'. split_and!; [| done |].
    + apply (regions_statics w' T _ _ Hst'); [exact HT |]. rewrite HnT. by apply sorted_insert_place.
    + intros q Hq. rewrite HnT. clear -Hq. induction (nodes t) as [| x ps IH]; cbn [sorted_insert]; [set_solver |]. destruct (key_lt _ _); set_solver.
Qed.
End inserted.

(** ** Address spaces *)

Definition limits (kind : AddressSpaceKind) : Z * Z := match kind with User => USER_ASPACE_RANGE | Kernel => KERNEL_ASPACE_RANGE end.

Lemma limits_ok kind : 0 <= (limits kind).1 < (limits kind).2 /\ is_usize (limits kind).1 /\ is_usize (limits kind).2 /\ 2 * ((limits kind).2 - (limits kind).1) + 1 < USIZE_MOD.
Proof. unfold is_usize. destruct kind; vm_compute; repeat split; congruence. Qed.



Section spaces.
Context {S P : Type} `{ArchAddressSpace S} `{PagedVmo P S}.
Context {R : Type} (sample : R -> Z -> Z * R).

Abbreviation AS := (@AddressSpace S P R).
Implicit Types (a : AS) (l : list (Static (Vmo P))).

(** The region of the last fault is in the tree. *)
Definition fault_in (f : option (nptr * Z)) (t : tree) : Prop := forall p x, f = Some (p, x) -> p ∈ nodes t.

(** The address space holds the regions [l]. *)
Record space_ok a l : Prop := {
  sp_tree : exists t, regions_ok (a_regions a) t l /\ fault_in (a_last_fault a) t;
  sp_laid_out : laid_out (a_first a) (a_last a) l;
  sp_limits : (a_first a, a_last a) = limits (a_kind a);
}.

Definition with_regions (w : WAVLTree (Regions (Vmo P))) a : AS := MkSpace (a_kind a) w (a_first a) (a_last a) (a_rng a) (a_last_fault a) (a_machine a).
Definition with_machine (s : S) a : AS := MkSpace (a_kind a) (a_regions a) (a_first a) (a_last a) (a_rng a) (a_last_fault a) s.

Lemma space_limits a l : space_ok a l ->
  0 <= a_first a < a_last a /\ is_usize (a_first a) /\ is_usize (a_last a) /\ 2 * (a_last a - a_first a) + 1 < USIZE_MOD.
Proof. intros [_ _ Hk]. pose proof (limits_ok (a_kind a)) as Hl. by rewrite <- Hk in Hl. Qed.

(** A new address space holds no region. *)
Lemma space_new_ok kind g s : space_ok (space_new kind g s) [].
Proof.
  split; [| by repeat constructor | by destruct kind]. exists E. split; [| by intros ? ?]. split; [| constructor].
  split; try done; [by repeat constructor | constructor].
Qed.











(** ** Requests for a given range *)

Definition acceptable (r : range) (permissions : Z) a : bool :=
  (r_start r mod PAGE_SIZE =? 0) && (r_end r mod PAGE_SIZE =? 0) && (Z.max 0 (r_end r - r_start r) <=? a_last a - a_first a) && permissions_valid permissions.

Lemma space_len_ok {A} a l (f : Z -> M AS A) : space_ok a l -> (space_len ≫= f) a = f (a_last a - a_first a) a.
Proof.
  intros Hok. pose proof (space_limits a l Hok) as (Hfl & Hf & Hl & _). unfold space_len, mbind, M_bind, get_space.
  rewrite (lift_Done _ (a_last a - a_first a)); [done |]. apply addr_offset_from_unsigned_Done; [done | done | lia].
Qed.

Lemma range_len_ok r : is_usize (r_start r) -> is_usize (r_end r) -> range_len r = Done (Z.max 0 (r_end r - r_start r)).
Proof.
  intros Hs He. unfold range_len. destruct (Z.leb_spec (r_end r) (r_start r)); [f_equal; lia |].
  rewrite addr_offset_from_unsigned_Done by (done || lia). f_equal. lia.
Qed.

Lemma check_range_ok {A} a l r (k : M AS (result unit A)) : space_ok a l -> is_usize (r_start r) -> is_usize (r_end r) ->
  check_range r k a
  = if (r_start r mod PAGE_SIZE =? 0) && (r_end r mod PAGE_SIZE =? 0) && (Z.max 0 (r_end r - r_start r) <=? a_last a - a_first a) then k a else Done (Err tt, a).
Proof.
  intros Hok Hs He. unfold check_range, ensure. change PAGE_SIZE with (2 ^ 12). rewrite (lift_Done_bind _ _ _ a (is_aligned_to_pow2 (r_start r) 12 ltac:(lia))).
  destruct (r_start r mod 2 ^ 12 =? 0); [| done]. rewrite (lift_Done_bind _ _ _ a (is_aligned_to_pow2 (r_end r) 12 ltac:(lia))).
  destruct (r_end r mod 2 ^ 12 =? 0); [| done]. rewrite (lift_Done_bind _ _ _ a (range_len_ok r Hs He)). rewrite (space_len_ok a l) by done.
  cbn [andb]. by destruct (_ <=? _).
Qed.

(** The region that contains an address. *)
Definition at_address (x : Z) (s : Static (Vmo P)) : bool := range_contains (s_range s) x.

(** The last region that begins at or before an address is the only one that
    may contain it. *)
Lemma last_before x ps l (d : Regions (Vmo P)) first last_ :
  Forall2 (fun p s => statics d !! p = Some s) ps l -> laid_out first last_ l ->
  match List.find (fun q => negb (upper_cond (Included x) (key_of d q))) (reverse ps) with
  | None => List.find (at_address x) l = None
  | Some p => exists s, p ∈ ps /\ statics d !! p = Some s /\ r_start (s_range s) <= x
                /\ List.find (at_address x) l = if at_address x s then Some s else None
  end.
Proof.
  intros Hl [Hp _ Hs]. induction Hl as [| p s ps l Hps Hl IH]; [done |].
  apply Forall_cons in Hp as [Hpp Hp]. apply StronglySorted_inv in Hs as [Hs Hq]. specialize (IH Hp Hs). rewrite reverse_cons, find_app.
  cbn [List.find].
  assert (Hc : negb (upper_cond (Included x) (key_of d p)) = (r_start (s_range s) <=? x)).
  { unfold key_of. rewrite (rng_static _ _ _ Hps). cbn [upper_cond]. unfold key_lt, Z.leb. cbn [cmp Z_ord].
    rewrite (Z.compare_antisym x (r_start (s_range s))). by destruct (_ ?= _). }
  destruct (List.find _ (reverse ps)) as [q |].
  - destruct IH as (sq & Hqin & Hsq & Hx & ->). exists sq. assert (Hsl : sq ∈ l).
    { clear -Hqin Hsq Hl. induction Hl as [| p' s' ps l Hp' _ IH]; [set_solver |]. apply elem_of_cons in Hqin as [-> | Hin]; [| set_solver].
      rewrite Hp' in Hsq. injection Hsq as ->. set_solver. }
    rewrite Forall_forall in Hq. specialize (Hq sq Hsl). cbn in Hq. split_and!; [set_solver | done | done |].
    unfold at_address at 1, range_contains at 1. rewrite (proj2 (Z.ltb_ge x (r_end (s_range s)))) by lia. by rewrite andb_false_r.
  - rewrite Hc. destruct (Z.leb_spec (r_start (s_range s)) x).
    + exists s. split_and!; [set_solver | done | done |]. rewrite IH. done.
    + cbn [orelse]. unfold at_address at 1, range_contains. rewrite (proj2 (Z.leb_gt (r_start (s_range s)) x)) by lia. exact IH.
Qed.

Lemma in_regions_read {A} (m : W (Regions (Vmo P)) A) x a : m (a_regions a) = Done (x, a_regions a) -> in_regions m a = Done (x, a).
Proof. intros Hm. unfold in_regions. rewrite Hm. by destruct a. Qed.

Lemma bind_Done {X A B} (m : M X A) (f : A -> M X B) x y y' : m y = Done (x, y') -> (m ≫= f) y = f x y'.
Proof. intros Hm. unfold mbind, M_bind. by rewrite Hm. Qed.

Lemma static_region (d : Regions (Vmo P)) p st : statics d !! p = Some st -> exists reg, d !! p = Some reg /\ reg_static reg = st.
Proof. unfold statics. rewrite lookup_fmap, fmap_Some. intros (reg & Hr & ->). by exists reg. Qed.

Lemma get_region_ok (w : WAVLTree (Regions (Vmo P))) p reg : w_data w !! p = Some reg -> get_region p w = Done (reg, w).
Proof. intros Hp. unfold get_region. by rewrite Hp. Qed.

(** The bound that the operations on an address use. *)
Lemma upper_region a t l x : regions_ok (a_regions a) t l -> laid_out (a_first a) (a_last a) l ->
  exists q, in_regions (keyed (fun key => find_upper_bound key (Included x))) a = Done (q, a)
    /\ match q with
       | None => List.find (at_address x) l = None
       | Some p => exists reg, p ∈ nodes t /\ w_data (a_regions a) !! p = Some reg /\ r_start (reg_range reg) <= x
                    /\ List.find (at_address x) l = if range_contains (reg_range reg) x then Some (reg_static reg) else None
       end.
Proof.
  intros [Ht Hl] Hlo. destruct (bounds_ok _ _ _ (Included x) Ht) as [_ Hu]. eexists. split; [apply in_regions_read, Hu |].
  pose proof (last_before x _ _ _ _ _ Hl Hlo) as Hb. destruct (List.find _ (reverse _)) as [p |]; [| done].
  destruct Hb as (st & Hp & (reg & Hreg & <-)%static_region & Hx & Hf). by exists reg.
Qed.

Lemma ensure_free_ok {A} a l r (k : M AS (result unit A)) : space_ok a l ->
  ensure_free r k a = match List.find (at_address (r_start r)) l with Some _ => Done (Err tt, a) | None => k a end.
Proof.
  intros [(t & Ht & _) Hlo _]. destruct (upper_region a t l (r_start r) Ht Hlo) as (q & Hu & Hq). unfold ensure_free. rewrite (bind_Done _ _ _ _ _ Hu).
  destruct q as [p |]; [| by rewrite Hq]. destruct Hq as (reg & _ & Hreg & Hx & ->).
  rewrite (bind_Done _ _ _ _ _ (in_regions_read _ _ _ (get_region_ok _ _ _ Hreg))). unfold ensure, range_contains.
  rewrite (proj2 (Z.leb_le _ _) Hx). cbn [andb]. by destruct (Z.leb_spec (r_end (reg_range reg)) (r_start r)), (Z.ltb_spec (r_start r) (r_end (reg_range reg))); try lia.
Qed.




(** ** Inserting regions *)

(** A region that may be added. *)
Definition addable (st : Static (Vmo P)) a l : Prop := laid_out (a_first a) (a_last a) [st] /\ Forall (apart st) l.

Lemma insert_space_ok a l r : space_ok a l -> addable (reg_static r) a l -> max_range r = reg_range r -> max_gap r = 0 ->
  exists p w, in_regions (insert_region r) a = Done (p, with_regions w a) /\ space_ok (with_regions w a) (place (reg_static r) l)
    /\ statics (w_data w) !! p = Some (reg_static r).
Proof.
  intros Hok [Hlo Ha] Hmr Hmg. pose proof (space_limits a l Hok) as (Hfl & _ & _ & Hroom). destruct Hok as [(t & Ht & Hlf) Hl Hk].
  destruct (insert_region_ok (a_regions a) t l r (a_first a) (a_last a)) as (p & w & T & E1 & HT & Hp & HtT); try done; [lia | lia |].
  exists p, w. unfold in_regions. rewrite E1. split_and!; [done | | done]. split; [exists T; split; [done | intros q x Hq; by eapply HtT, Hlf] | by apply place_laid_out | done].
Qed.

Lemma space_machine a l s : space_ok a l -> space_ok (with_machine s a) l.
Proof. by intros [Ht Hl Hk]. Qed.

(** How a mapping ends: with the region in place, also if the page tables
    cannot be brought up to date. *)
Definition flushed (p : nptr) (b : Batch) a : outcome (result unit nptr * AS) :=
  match batch_flush b (a_machine a) with
  | Done ((Ok _, _), s) => Done (Ok p, with_machine s a)
  | Done ((Err e, _), s) => Done (Err e, with_machine s a)
  | Panicked => Panicked
  | Undefined => Undefined
  end.

Lemma map_internal_ok a l r permissions v (map : MapFn) b s :
  space_ok a l -> addable (MkStatic r permissions v 0) a l -> map r permissions batch_new (a_machine a) = Done (Ok (region_new r permissions v, b), s) ->
  exists p w, map_internal r permissions map a = flushed p b (with_regions w (with_machine s a))
    /\ space_ok (with_regions w (with_machine s a)) (place (MkStatic r permissions v 0) l) /\ statics (w_data w) !! p = Some (MkStatic r permissions v 0).
Proof.
  intros Hok Hadd Hmap. destruct (insert_space_ok (with_machine s a) l (region_new r permissions v)) as (p & w & E1 & Hok' & Hp); try done; [by apply space_machine |].
  exists p, w. split_and!; [| done | done]. unfold map_internal, try_bind. unfold in_machine at 1. rewrite Hmap.
  fold (with_machine s a). cbn [fst snd]. rewrite (bind_Done _ _ _ _ _ E1). unfold flushed, mbind, M_bind, in_machine. cbn [a_machine with_regions with_machine].
  by destruct (batch_flush b s) as [[[[] b'] s'] | |].
Qed.

(** A function given to [map] makes a new region for the range, or fails. *)
Definition creates (map : MapFn (S := S) (P := P)) (permissions : Z) : Prop := forall r s,
  (exists s', map r permissions batch_new s = Done (Err tt, s'))
  \/ (exists v b s', map r permissions batch_new s = Done (Ok (region_new r permissions v, b), s')).

(** How [map_internal] ends for a range that may be added. *)
Definition mapped_at (r : range) (permissions : Z) (map : MapFn) a l (res : outcome (result unit nptr * AS)) : Prop :=
  (exists s, map r permissions batch_new (a_machine a) = Done (Err tt, s) /\ res = Done (Err tt, with_machine s a))
  \/ (exists v b s p w, map r permissions batch_new (a_machine a) = Done (Ok (region_new r permissions v, b), s)
       /\ res = flushed p b (with_regions w (with_machine s a))
       /\ space_ok (with_regions w (with_machine s a)) (place (MkStatic r permissions v 0) l)
       /\ statics (w_data w) !! p = Some (MkStatic r permissions v 0)).

(** Whether a region may be added depends on its range only. *)
Definition room_for (r : range) a l : Prop := forall permissions v, addable (MkStatic r permissions v 0) a l.

Lemma map_internal_cases a l r permissions (map : MapFn) :
  space_ok a l -> room_for r a l -> creates map permissions -> mapped_at r permissions map a l (map_internal r permissions map a).
Proof.
  intros Hok Hadd Hm. destruct (Hm r (a_machine a)) as [(s & Hs) | (v & b & s & Hs)].
  - left. exists s. split; [done |]. unfold map_internal, try_bind. unfold in_machine at 1. by rewrite Hs.
  - right. destruct (map_internal_ok a l r permissions v map b s Hok (Hadd _ _) Hs) as (p & w & E1 & Hok' & Hp). by exists v, b, s, p, w.
Qed.


(** ** Page faults *)

























(** ** What the operations do *)





(** Reserving a range, and mapping at a given range: a request that is not
    for whole pages, too long or for writable code, and one for a range that
    begins inside a region, is refused and changes nothing. A range within the
    limits that overlaps no region is added, as a wired region or as the one
    that the function makes. *)
Theorem reserve_correct r permissions map a l (st := MkStatic r permissions Wired 0) :
  space_ok a l -> is_usize (r_start r) -> is_usize (r_end r) -> creates map permissions ->
  (acceptable r permissions a = false \/ List.find (at_address (r_start r)) l <> None ->
     reserve r permissions a = Done (Err tt, a) /\ map_specific r permissions map a = Done (Err tt, a))
  /\ (acceptable r permissions a = true -> room_for r a l ->
     (exists p w, reserve r permissions a = Done (Ok p, with_regions w a) /\ space_ok (with_regions w a) (place st l) /\ statics (w_data w) !! p = Some st)
     /\ mapped_at r permissions map a l (map_specific r permissions map a)).
Proof.
  intros Hok Hs He Hm. unfold reserve, map_specific, acceptable. rewrite !(check_range_ok a l) by done. unfold ensure.
  destruct ((_ =? 0) && (_ =? 0) && (_ <=? _)); cbn [andb]; [| by split]. destruct (permissions_valid permissions); [| by split]. rewrite !(ensure_free_ok a l) by done. split.
  - intros [? | Hf]; [done |]. by destruct (List.find _ _).
  - intros _ Hadd. assert (Hf : List.find (at_address (r_start r)) l = None).
    { destruct (List.find _ l) as [q |] eqn:Hq; [| done]. apply find_some in Hq as [Hq Hc]. destruct (Hadd permissions Wired) as [[Hp _ _] Ha].
      rewrite Forall_singleton in Hp. rewrite Forall_forall in Ha. specialize (Ha q (proj2 (list_elem_of_In _ _) Hq)).
      unfold apart in Ha. unfold at_address, range_contains in Hc. cbn in Ha, Hp. lia. }
    rewrite Hf. split; [| by apply map_internal_cases].
    destruct (insert_space_ok a l (region_new r permissions Wired) Hok (Hadd _ _) eq_refl eq_refl) as (p & w & E1 & Hok' & Hp).
    exists p, w. by rewrite (bind_Done _ _ _ _ _ E1).
Qed.

End spaces.
