(* ===== verification/SpaceDemo.v ===== *)
(** * Address spaces on a small machine

    A machine whose page tables are a log of what was mapped and a paged memory
    object that takes the next free frame, the properties of SpaceCorrect at
    concrete address spaces, and what the operations do outside of them. *)

From stdpp Require Import base numbers list gmap sorting.
From Stdlib Require Import ZArith Lia.
From S2P Require Import Prelude Address Riscv Arch WavlTree WavlRepr WavlBalance WavlShrink WavlSearch WavlOps Regions FindSpot KernelSpace SpaceCorrect.

(** ** The machine *)

Record Machine := MkMachine { m_mapped : list (Z * Z * Z * Z); m_unmapped : list (Z * Z); m_next : Z; m_broken : bool }.

#[export] Instance demo_arch : ArchAddressSpace Machine := {|
  arch_asid _ := 1;
  arch_map_contiguous virt phys len flags f := fun m =>
    if m_broken m then Done (Err tt, m)
    else Done (extend_range 1 (Range virt (virt + len)) f, MkMachine (m_mapped m ++ [(virt, phys, len, flags)]) (m_unmapped m) (m_next m) false);
  arch_update_flags virt len flags f := fun m => Done (extend_range 1 (Range virt (virt + len)) f, m);
  arch_unmap virt len f := fun m =>
    Done (extend_range 1 (Range virt (virt + len)) f, MkMachine (m_mapped m) (m_unmapped m ++ [(virt, len)]) (m_next m) (m_broken m));
  invalidate_range _ _ := mret (Ok tt);
  frame_max_alignment _ := 2 ^ 30;
|}.

(** A paged object is the list of its frames. *)
Definition take_frame (offset : Z) (v : list (Z * Z)) : M Machine (result unit Z * list (Z * Z)) := fun m =>
  match List.find (fun e => e.1 =? offset) v with
  | Some e => Done ((Ok e.2, v), m)
  | None => Done ((Ok (m_next m), (offset, m_next m) :: v), MkMachine (m_mapped m) (m_unmapped m) (m_next m + PAGE_SIZE) (m_broken m))
  end.

#[export] Instance demo_paged : PagedVmo (list (Z * Z)) Machine := {|
  require_owned_frame := take_frame;
  require_read_frame := take_frame;
  free_frames r v := mret (List.filter (fun e => negb ((r_start r <=? e.1) && (e.1 <? r_end r))) v);
|}.

Definition demo_sample (g n : Z) : Z * Z := (g mod n, g + 7).

Abbreviation DemoSpace := (@AddressSpace Machine (list (Z * Z)) Z).

Definition machine : Machine := MkMachine [] [] 0x80000000 false.
Definition user_space : DemoSpace := space_new User (Some 5) machine.

Abbreviation DemoMap := (MapFn (S := Machine) (P := list (Z * Z))).
Definition map_paged : DemoMap := fun r permissions b => mret (Ok (region_new r permissions (Paged []), b)).
Definition map_phys_at (phys : range) : DemoMap := fun r permissions b => mret (Ok (region_new r permissions (Phys phys), b)).

Definition final {A} (o : outcome (A * DemoSpace)) : option A := match o with Done (x, _) => Some x | _ => None end.

Definition rw : Z := Z.lor P_READ P_WRITE.

Lemma creates_paged permissions : creates map_paged permissions.
Proof. intros r s. right. by exists (Paged []), batch_new, s. Qed.

(** A space with one region, of two pages, for [reserve] and for faults. *)
Definition two_pages : AddressSpaceRegion (Vmo (list (Z * Z))) := region_new (Range 0x200000 0x202000) rw (Paged []).
Definition one_region : DemoSpace := match in_regions (insert_region two_pages) user_space with Done (_, a) => a | _ => user_space end.

Lemma one_region_ok : space_ok one_region [reg_static two_pages].
Proof.
  destruct (insert_space_ok user_space [] two_pages) as (p & w & E1 & Hok & _); [apply space_new_ok | | done | done |].
  - split; [| constructor]. split; [by repeat constructor | rewrite Forall_singleton; by vm_compute | by repeat constructor].
  - unfold one_region. by rewrite E1.
Qed.

(** ** The properties there *)



Lemma reserve_correct_witness :
  reserve (Range 0x201000 0x203000) rw one_region = Done (Err tt, one_region)
  /\ exists p w, reserve (Range 0x203000 0x204000) rw one_region = Done (Ok p, with_regions w one_region)
       /\ space_ok (with_regions w one_region) [reg_static two_pages; MkStatic (Range 0x203000 0x204000) rw Wired 0].
Proof.
  split.
  - apply (reserve_correct (Range 0x201000 0x203000) rw map_paged one_region [reg_static two_pages] one_region_ok ltac:(done) ltac:(done) (creates_paged rw)).
    right. by vm_compute.
  - destruct (reserve_correct (Range 0x203000 0x204000) rw map_paged one_region [reg_static two_pages] one_region_ok ltac:(done) ltac:(done) (creates_paged rw)) as [_ Hr].
    destruct Hr as [(p & w & E1 & Hok & _) _]; [by vm_compute | | by exists p, w]. intros permissions v. split.
    + split; [by repeat constructor | rewrite Forall_singleton; by vm_compute | by repeat constructor].
    + rewrite Forall_singleton. right. by vm_compute.
Defined.


(** ** Where they end *)

Definition pages (i n : Z) : range := Range (0x200000 + i * PAGE_SIZE) (0x200000 + (i + n) * PAGE_SIZE).
Definition put (i n : Z) : M DemoSpace (result unit nptr) := map_specific (pages i n) rw map_paged.
Definition fixed : DemoSpace := space_new User None machine.

(** The regions, by where they are and what they permit. *)
Definition listed {A} (o : outcome (A * DemoSpace)) : option (A * list (range * Z)) :=
  match o with Done (x, a) => Some (x, (fun e => (reg_range e.2, s_permissions (reg_static e.2))) <$> map_to_list (w_data (a_regions a))) | _ => None end.

(** Removing a region with two children leaves the summary of the one that takes
    its place: the next mapping overlaps a region. *)
Example overlap_after_unmap :
  listed ((_ ← put 1 1; _ ← put 3 1; _ ← put 5 1; _ ← space_unmap (pages 3 1); space_map demo_sample (MkLayout 8192 4096) rw map_paged) fixed)
  = Some (Ok 4%positive, [(pages 5 1, rw); (pages 0 2, rw); (pages 1 1, rw)]).
Proof. vm_compute. reflexivity. Qed.

(** A range that covers a later region, or lies outside of the limits, is
    accepted. *)
Example reserve_overlaps :
  listed ((_ ← put 2 1; put 0 4) fixed) = Some (Ok 2%positive, [(pages 0 4, rw); (pages 2 1, rw)])
  /\ final (put (-512) 1 fixed) = Some (Ok 1%positive).
Proof. split; vm_compute; reflexivity. Qed.

(** Unmapping two regions at once panics, as does mapping in a space from which
    everything was unmapped, and unmapping where there is no region. *)
Example unmap_panics :
  (_ ← put 0 1; _ ← put 1 1; space_unmap (pages 0 2)) fixed = Panicked
  /\ (_ ← put 0 1; _ ← space_unmap (pages 0 1); space_map demo_sample (MkLayout 4096 4096) rw map_paged) fixed = Panicked
  /\ (_ ← put 4 1; space_unmap (pages 0 1)) fixed = Panicked.
Proof. repeat split; vm_compute; reflexivity. Qed.

(** The region of the last fault is used after it was unmapped. *)
Example fault_after_unmap :
  (_ ← put 0 2; _ ← put 4 1; _ ← space_page_fault 0x200000 F_LOAD; _ ← space_unmap (pages 0 2); space_page_fault 0x204000 F_LOAD) fixed = Undefined.
Proof. vm_compute. reflexivity. Qed.

(** Of several regions only the first gets the new permissions. *)
Example protect_first_only :
  listed ((_ ← put 0 1; _ ← put 1 1; space_protect (pages 0 2) P_READ) fixed) = Some (Ok tt, [(pages 1 1, rw); (pages 0 1, P_READ)]).
Proof. vm_compute. reflexivity. Qed.

(** A mapping that the page tables refuse leaves its region. *)
Example failed_map_stays :
  listed (space_map demo_sample (MkLayout 4096 4096) rw
            (fun r permissions b => b <-? queue_map (r_start r) 0x90000000 4096 1 b; mret (Ok (region_new r permissions (Paged []), b)))
            (space_new User None (MkMachine [] [] 0x80000000 true)))
  = Some (Err tt, [(pages 0 1, rw)]).
Proof. vm_compute. reflexivity. Qed.

(** Without room below a region near the end of the address space, the search
    panics instead of failing. *)
Example alignment_panics :
  (_ ← reserve (Range (2 ^ 64 - 2 ^ 38) (2 ^ 64 - 8192)) 0; space_map demo_sample (MkLayout (2 ^ 21) (2 ^ 21)) rw map_paged)
    (space_new Kernel None machine : DemoSpace) = Panicked.
Proof. vm_compute. reflexivity. Qed.
