(* ===== verification/FrameList.v ===== *)
(** * Lists of frames (sys/kernel/src/mem/frame_list.rs)

    The frames of a memory object by their offset: a balanced tree of nodes
    with sixteen slots each. [F] is the type of frames; a node owns its frames. *)

From stdpp Require Import base numbers list gmap.
From Stdlib Require Import ZArith Lia.
From S2P Require Import Prelude Address WavlTree WavlRepr WavlBalance WavlShrink WavlSearch WavlOps.

Definition FRAME_LIST_NODE_FANOUT : nat := 16.
Definition FRAME_SIZE : Z := 4096.

Record FrameListNode (F : Type) := MkNode { fn_offset : Z; fn_frames : list (option F) }.
Arguments MkNode {F}.
Arguments fn_offset {F}.
Arguments fn_frames {F}.

Abbreviation FrameNodes F := (gmap nptr (FrameListNode F)).

(** A node does not override the hooks of the tree. *)
#[global] Instance frame_hooks F : Linked (FrameNodes F) := {|
  after_rotate _ _ _ _ _ _ d := Done d;
  after_remove _ _ _ d := Done d;
  after_insert _ _ d := Done d;
|}.

Definition offset_to_node_offset (offset : Z) : Z := Z.land offset (wrapping_sub 0 (FRAME_SIZE * Z.of_nat FRAME_LIST_NODE_FANOUT)).
Definition offset_to_node_index (offset : Z) : nat := Z.to_nat (Z.shiftr offset 12 mod Z.of_nat FRAME_LIST_NODE_FANOUT).

Section list.
Context {F : Type}.
Abbreviation D := (FrameNodes F).
Implicit Types (d : D) (w : WAVLTree D).

(** [get_key]; the tree only asks for the key of its nodes. *)
Definition offset_of d (p : nptr) : Z := match d !! p with Some n => fn_offset n | None => 0 end.
Definition by_offset {A} (f : (nptr -> Z) -> W D A) : W D A := fun w => f (offset_of (w_data w)) w.

Definition get_node (p : nptr) : W D (FrameListNode F) := fun w =>
  match w_data w !! p with Some n => Done (n, w) | None => Undefined end.
Definition set_node (p : nptr) (n : FrameListNode F) : W D unit := fun w =>
  Done (tt, MkTree (w_root w) (w_size w) (w_links w) (<[p := n]> (w_data w))).

(** [Box::pin] of a node without frames. *)
Definition box_node (offset : Z) : W D nptr := fun w =>
  let p := fresh (dom (w_links w) ∪ dom (w_data w)) in
  Done (p, MkTree (w_root w) (w_size w) (<[p := links_new]> (w_links w))
             (<[p := MkNode offset (replicate FRAME_LIST_NODE_FANOUT None)]> (w_data w))).
Definition drop_node (p : nptr) : W D unit := fun w =>
  Done (tt, MkTree (w_root w) (w_size w) (delete p (w_links w)) (delete p (w_data w))).

Definition with_slot (i : nat) (f : option F) (n : FrameListNode F) : FrameListNode F := MkNode (fn_offset n) (<[i := f]> (fn_frames n)).

Definition find_node (offset : Z) : W D Link := r ← by_offset (fun key => find_internal key (offset_to_node_offset offset)); mret r.1.

Definition fl_get (offset : Z) : W D (option F) :=
  c ← find_node offset;
  match c with
  | None => mret None
  | Some p => n ← get_node p; mret (mjoin (fn_frames n !! offset_to_node_index offset))
  end.

Definition fl_take (offset : Z) : W D (option F) :=
  c ← find_node offset;
  match c with
  | None => mret None
  | Some p =>
      n ← get_node p;
      match fn_frames n !! offset_to_node_index offset with
      | None => mret None
      | Some f => _ ← set_node p (with_slot (offset_to_node_index offset) None n); mret f
      end
  end.

(** [nodes.entry(&node_offset).or_insert_with(..)] for a node with the given
    offset. *)
Definition or_insert_node (e : WavlEntry) (offset : Z) : W D nptr :=
  match e with
  | Occupied p => mret p
  | Vacant ps => p ← box_node offset; vacant_insert ps p
  end.

Definition entry_at (offset : Z) : W D WavlEntry := by_offset (fun key => wavl_entry key (offset_to_node_offset offset)).

(** [replace], and [insert], which unwraps instead of giving up and drops the
    old frame: both return it here. *)
Definition fl_replace (offset : Z) (new : F) : W D (option F) :=
  e ← entry_at offset;
  p ← or_insert_node e offset;
  n ← get_node p;
  match fn_frames n !! offset_to_node_index offset with
  | None => mret None
  | Some old => _ ← set_node p (with_slot (offset_to_node_index offset) (Some new) n); mret old
  end.

Definition fl_insert (offset : Z) (new : F) : W D (option F) :=
  e ← entry_at offset;
  p ← or_insert_node e offset;
  n ← get_node p;
  match fn_frames n !! offset_to_node_index offset with
  | None => lift Panicked
  | Some old => _ ← set_node p (with_slot (offset_to_node_index offset) (Some new) n); mret old
  end.

Definition some_frames (n : FrameListNode F) : list F := omap id (fn_frames n).

Definition fl_first : W D (option F) :=
  c ← wavl_front;
  match c with None => mret None | Some p => n ← get_node p; mret (head (some_frames n)) end.
Definition fl_last : W D (option F) :=
  c ← wavl_back;
  match c with None => mret None | Some p => n ← get_node p; mret (last (some_frames n)) end.

(** ** Entries *)

Inductive FrameEntry := FOccupied (node : nptr) (index : nat) | FVacant (entry : WavlEntry) (index : nat) (offset : Z).

Definition fl_entry (offset : Z) : W D FrameEntry :=
  let vacant e := FVacant e (offset_to_node_index offset) (offset_to_node_offset offset) in
  e ← entry_at offset;
  match e with
  | Occupied p =>
      n ← get_node p;
      mret (match mjoin (fn_frames n !! offset_to_node_index offset) with Some _ => FOccupied p (offset_to_node_index offset) | None => vacant e end)
  | Vacant _ => mret (vacant e)
  end.

(** [unwrap_unchecked] of an empty slot. *)
Definition no_frame {A} : W D A := fun _ => Undefined.

Definition occupied_frame (p : nptr) (index : nat) : W D F :=
  n ← get_node p;
  match mjoin (fn_frames n !! index) with Some f => mret f | None => no_frame end.

Definition vacant_frame_insert (e : WavlEntry) (index : nat) (offset : Z) (value : F) : W D unit :=
  p ← or_insert_node e offset;
  n ← get_node p;
  match fn_frames n !! index with
  | None => lift Panicked
  | Some old => _ ← set_node p (with_slot index (Some value) n); lift (assert_ (match old with None => true | Some _ => false end))
  end.

(** [or_insert] *)
Definition frame_or_insert (e : FrameEntry) (default : F) : W D F :=
  match e with
  | FOccupied p i => occupied_frame p i
  | FVacant e i o => _ ← vacant_frame_insert e i o default; mret default
  end.

(** ** Cursors *)

Record FrameCursor := MkFCursor { fc_cursor : Link; fc_index : nat; fc_offset : Z }.

Definition fl_cursor (offset : Z) : W D FrameCursor := c ← find_node offset; mret (MkFCursor c (offset_to_node_index offset) offset).

Definition fcursor_move_next (c : FrameCursor) : W D FrameCursor :=
  offset ← lift (u_add (fc_offset c) FRAME_SIZE);
  let next := c' ← cursor_move_next (fc_cursor c); mret (MkFCursor c' 0 offset) in
  match fc_cursor c with
  | None => next
  | Some p =>
      n ← get_node p;
      if decide (fc_index c + 1 < length (fn_frames n))%nat then mret (MkFCursor (Some p) (fc_index c + 1) offset) else next
  end.

Definition fcursor_get (c : FrameCursor) : W D (option F) :=
  match fc_cursor c with None => mret None | Some p => n ← get_node p; mret (mjoin (fn_frames n !! fc_index c)) end.

Definition fcursor_remove (c : FrameCursor) : W D (option F * FrameCursor) :=
  match fc_cursor c with
  | None => mret (None, c)
  | Some p =>
      n ← get_node p;
      match mjoin (fn_frames n !! fc_index c) with
      | None => mret (None, c)
      | Some f =>
          let n := with_slot (fc_index c) None n in
          _ ← set_node p n;
          if (match some_frames n with [] => true | _ => false end) then
            r ← cursor_remove (Some p);
            _ ← match r.1 with Some h => drop_node h | None => mret tt end;
            mret (Some f, MkFCursor r.2 0 (fc_offset c))
          else mret (Some f, c)
      end
  end.
End list.

(** A list with the number of bytes that it was made for. *)
Record FrameList (F : Type) := MkFrameList { fl_nodes : WAVLTree (FrameNodes F); fl_size : Z }.
Arguments MkFrameList {F}.
Arguments fl_nodes {F}.
Arguments fl_size {F}.

Definition fl_new {F} : FrameList F := MkFrameList (wavl_new ∅ ∅) 0.

(** [FromIterator]: the frames at consecutive offsets. *)
Fixpoint fl_extend {F} (frames : list F) (offset : Z) : W (FrameNodes F) Z :=
  match frames with
  | [] => mret offset
  | frame :: frames =>
      e ← entry_at offset;
      p ← or_insert_node e offset;
      n ← get_node p;
      _ ← set_node p (with_slot (offset_to_node_index offset) (Some frame) n);
      offset ← lift (u_add offset FRAME_SIZE);
      fl_extend frames offset
  end.

Definition fl_from_iter {F} (frames : list F) : outcome (FrameList F) :=
  r ← fl_extend frames 0 (wavl_new ∅ ∅); mret (MkFrameList r.2 r.1).

(** ** Correctness *)

(** The hooks leave the nodes alone. *)
Program Definition frozen {F} (d0 : FrameNodes F) : Augmentation (FrameNodes F) :=
  {| inv := fun _ d => d = d0; ready := fun _ _ => True; removable := fun _ _ => True |}.
Next Obligation. done. Qed.
Next Obligation. intros. by eexists. Qed.
Next Obligation. intros. by eexists. Qed.
Next Obligation. intros. by eexists. Qed.

Lemma node_offset_eq offset : is_usize offset -> offset_to_node_offset offset = offset - offset mod 65536.
Proof. intros Ho. unfold offset_to_node_offset. change (FRAME_SIZE * _) with (2 ^ 16). by rewrite land_high_mask. Qed.

Lemma node_index_eq offset : Z.of_nat (offset_to_node_index offset) = (offset / 4096) mod 16.
Proof.
  unfold offset_to_node_index. rewrite Z.shiftr_div_pow2 by lia. change (2 ^ 12) with 4096. change (Z.of_nat FRAME_LIST_NODE_FANOUT) with 16.
  rewrite Z2Nat.id; [done |]. apply Z.mod_pos_bound. lia.
Qed.

Lemma node_index_lt offset : (offset_to_node_index offset < FRAME_LIST_NODE_FANOUT)%nat.
Proof. pose proof (node_index_eq offset). pose proof (Z.mod_pos_bound (offset / 4096) 16 ltac:(lia)). unfold FRAME_LIST_NODE_FANOUT. lia. Qed.

(** Node and index together are the page. *)
Lemma same_page o o' : is_usize o -> is_usize o' ->
  offset_to_node_offset o = offset_to_node_offset o' -> offset_to_node_index o = offset_to_node_index o' -> o / 4096 = o' / 4096.
Proof.
  intros Ho Ho' Hn Hi. rewrite !node_offset_eq in Hn by done. apply (f_equal Z.of_nat) in Hi. rewrite !node_index_eq in Hi.
  pose proof (Z.div_mod o 65536 ltac:(lia)). pose proof (Z.div_mod o' 65536 ltac:(lia)).
  assert (Hq : o / 65536 = o' / 65536) by lia.
  assert (Hd : forall x, x / 4096 = 16 * (x / 65536) + (x / 4096) mod 16).
  { intros x. change 65536 with (4096 * 16). rewrite <- Z.div_div by lia. apply Z.div_mod. lia. }
  rewrite (Hd o), (Hd o'), Hq, Hi. done.
Qed.

Lemma page_node o o' : is_usize o -> is_usize o' -> o / 4096 = o' / 4096 -> offset_to_node_offset o = offset_to_node_offset o'.
Proof.
  intros Ho Ho' He. rewrite !node_offset_eq by done. change 65536 with (4096 * 16). rewrite !Z.rem_mul_r, He by lia.
  pose proof (Z.div_mod o 4096 ltac:(lia)). pose proof (Z.div_mod o' 4096 ltac:(lia)). lia.
Qed.

Section correct.
Context {F : Type}.
Abbreviation D := (FrameNodes F).
Implicit Types (d : D) (w : WAVLTree D).

Definition node_ok d (p : nptr) : Prop := exists n, d !! p = Some n /\ length (fn_frames n) = FRAME_LIST_NODE_FANOUT /\ is_usize (fn_offset n) /\ fn_offset n mod 65536 = 0.

(** The list is valid: every node has the offset of its first slot as key. *)
Record list_ok w (t : tree) : Prop := {
  lk_tree : tree_ok (Au := frozen (w_data w)) (offset_of (w_data w)) w t;
  lk_nodes : Forall (node_ok (w_data w)) (nodes t);
}.

(** The frame at an offset. *)
Definition held w (t : tree) (offset : Z) : option F :=
  match List.find (has_key (offset_of (w_data w)) (offset_to_node_offset offset)) (nodes t) with
  | Some p => n ← w_data w !! p; mjoin (fn_frames n !! offset_to_node_index offset)
  | None => None
  end.

Lemma fbind_Done {X A B} (m : M X A) (f : A -> M X B) x y y' : m y = Done (x, y') -> (m ≫= f) y = f x y'.
Proof. intros Hm. unfold mbind, M_bind. by rewrite Hm. Qed.

Lemma find_node_ok w t offset : list_ok w t ->
  find_node offset w = Done (List.find (has_key (offset_of (w_data w)) (offset_to_node_offset offset)) (nodes t), w).
Proof.
  intros [Ht _]. unfold find_node. rewrite (fbind_Done _ _ _ _ _ (find_internal_ok _ _ _ (offset_to_node_offset offset) Ht : by_offset (fun key => find_internal key _) w = _)). by rewrite (find_locate _ _ _ _ Ht).
Qed.

Lemma get_node_ok w p n : w_data w !! p = Some n -> get_node p w = Done (n, w).
Proof. intros Hp. unfold get_node. by rewrite Hp. Qed.

Lemma found_node w t k p : list_ok w t -> List.find (has_key (offset_of (w_data w)) k) (nodes t) = Some p ->
  p ∈ nodes t /\ exists n, w_data w !! p = Some n /\ length (fn_frames n) = FRAME_LIST_NODE_FANOUT /\ fn_offset n = k.
Proof.
  intros [_ Hn] [Hp Hk]%find_some. apply list_elem_of_In in Hp. rewrite Forall_forall in Hn. destruct (Hn p Hp) as (n & Hd & Hl & _).
  split; [done |]. exists n. split_and!; [done | done |]. unfold has_key, offset_of in Hk. rewrite Hd in Hk. cbn [cmp Z_ord] in Hk.
  destruct (Z.compare_spec k (fn_offset n)); congruence.
Qed.

Lemma fl_get_ok w t offset : list_ok w t -> fl_get offset w = Done (held w t offset, w).
Proof.
  intros Hok. unfold fl_get. rewrite (fbind_Done _ _ _ _ _ (find_node_ok w t offset Hok)). unfold held.
  destruct (List.find _ _) as [p |] eqn:Hp; [| done]. destruct (found_node _ _ _ _ Hok Hp) as (_ & n & Hd & _).
  rewrite (fbind_Done _ _ _ _ _ (get_node_ok _ _ _ Hd)). by rewrite Hd.
Qed.

(** Writing a slot. *)
Lemma set_slot_ok w t offset p n f : list_ok w t -> is_usize offset ->
  List.find (has_key (offset_of (w_data w)) (offset_to_node_offset offset)) (nodes t) = Some p -> w_data w !! p = Some n ->
  exists w', set_node p (with_slot (offset_to_node_index offset) f n) w = Done (tt, w') /\ list_ok w' t
    /\ forall o, is_usize o -> held w' t o = if o / 4096 =? offset / 4096 then f else held w t o.
Proof.
  intros Hok Hu Hf Hd. pose proof Hok as [Ht Hn]. set (n' := with_slot _ f n). set (d' := <[p := n']> (w_data w)).
  destruct (found_node _ _ _ _ Hok Hf) as (Hp & n0 & Hd0 & Hlen & Hk). rewrite Hd in Hd0. injection Hd0 as <-.
  assert (Hkey : forall q, offset_of d' q = offset_of (w_data w) q).
  { intros q. unfold d', offset_of. destruct (decide (p = q)) as [<- |]; [by rewrite lookup_insert_eq, Hd | by rewrite lookup_insert_ne]. }
  exists (MkTree (w_root w) (w_size w) (w_links w) d'). split; [done |]. split.
  - split; cbn [w_data].
    + destruct Ht as [Hs Hw Hso Hsz Hsu _]. split; [by destruct Hs | done | | done | done | done]. clear -Hso Hkey.
      induction Hso as [| q ps Hso IH Hq]; constructor; [done |]. eapply Forall_impl; [exact Hq |]. intros x. unfold before. by rewrite !Hkey.
    + eapply Forall_impl; [exact Hn |]. intros q (m & Hm & Hml & Hmu & Hmm). unfold node_ok, d'. destruct (decide (p = q)) as [<- |].
      * rewrite lookup_insert_eq. rewrite Hd in Hm. injection Hm as <-. exists n'. split; [done |]. cbn. by rewrite length_insert.
      * rewrite lookup_insert_ne by done. by exists m.
  - intros o Ho. unfold held. cbn [w_data]. assert (Hfind : forall k ps, List.find (has_key (offset_of d') k) ps = List.find (has_key (offset_of (w_data w)) k) ps).
    { intros k ps. induction ps as [| q ps IH]; [done |]. cbn [List.find]. rewrite IH. unfold has_key at 1. by rewrite Hkey. }
    rewrite Hfind. destruct (List.find (has_key (offset_of (w_data w)) (offset_to_node_offset o)) (nodes t)) as [q |] eqn:Hq.
    + destruct (found_node _ _ _ _ Hok Hq) as (_ & m & Hm & _ & Hmk). unfold d'. destruct (decide (p = q)) as [<- | Hne].
      * rewrite lookup_insert_eq, Hm. rewrite Hd in Hm. injection Hm as <-. cbn. assert (Hno : offset_to_node_offset o = offset_to_node_offset offset) by congruence.
        destruct (decide (offset_to_node_index offset = offset_to_node_index o)) as [Hi | Hi].
        -- rewrite Hi, list_lookup_insert_eq by (rewrite Hlen; apply node_index_lt). by rewrite (proj2 (Z.eqb_eq _ _)) by (by apply same_page).
        -- rewrite list_lookup_insert_ne by done. rewrite (proj2 (Z.eqb_neq _ _)); [done |]. intros He. apply Hi.
           apply Nat2Z.inj. by rewrite !node_index_eq, He.
      * rewrite lookup_insert_ne by done. rewrite (proj2 (Z.eqb_neq _ _)); [done |]. intros He. apply Hne.
        rewrite (page_node o offset Ho Hu He), Hf in Hq. by injection Hq.
    + destruct (Z.eqb_spec (o / 4096) (offset / 4096)) as [He |]; [| done]. exfalso.
      rewrite (page_node o offset Ho Hu He), Hf in Hq. done.
Qed.

(** ** A node more *)

Lemma locate_ext (key key' : nptr -> Z) k t c : (forall q, q ∈ nodes t -> key q = key' q) -> locate key k t c = locate key' k t c.
Proof.
  revert c. induction t as [| l IHl p r0 r IHr]; intros c He; [done |]. cbn [locate]. cbn [nodes] in He. setoid_rewrite elem_of_app in He. setoid_rewrite elem_of_cons in He.
  rewrite (He p) by auto. destruct (cmp _ _); [done | apply IHl; auto | apply IHr; auto].
Qed.

Lemma find_insert_other (key : nptr -> Z) f p ps : f p = false -> List.find f (sorted_insert key p ps) = List.find f ps.
Proof. intros Hp. induction ps as [| q ps IH]; cbn [sorted_insert List.find]; [by rewrite Hp |]. destruct (key_lt _ _); cbn [List.find]; [by rewrite Hp | by rewrite IH]. Qed.

Lemma find_insert_new (key : nptr -> Z) f p ps : f p = true -> List.find f ps = None -> List.find f (sorted_insert key p ps) = Some p.
Proof.
  intros Hp. induction ps as [| q ps IH]; cbn [sorted_insert List.find]; [by rewrite Hp |]. destruct (f q) eqn:Hq; [done |]. intros Hn.
  destruct (key_lt _ _); cbn [List.find]; [by rewrite Hp | by rewrite Hq, IH].
Qed.

Lemma find_ext_keys (key key' : nptr -> Z) k ps : (forall q, q ∈ ps -> key q = key' q) -> List.find (has_key key k) ps = List.find (has_key key' k) ps.
Proof.
  intros He. induction ps as [| q ps IH]; [done |]. cbn [List.find]. rewrite IH by set_solver. unfold has_key at 1. by rewrite He by set_solver.
Qed.

(** There are not more nodes than offsets. *)
Lemma few_nodes w t : list_ok w t -> Z.of_nat (length (nodes t)) + 1 < USIZE_MOD.
Proof.
  intros [Ht Hn]. pose proof (to_sorted _ _ _ Ht) as Hs. clear Ht.
  enough (Hg : forall lo, 0 <= lo -> lo mod 65536 = 0 -> Forall (fun q => lo <= offset_of (w_data w) q) (nodes t) -> Z.of_nat (length (nodes t)) * 65536 + lo <= USIZE_MOD \/ nodes t = []).
  { destruct (Hg 0) as [Hg' | ->]; [lia | done | | lia | done]. eapply Forall_impl; [exact Hn |]. intros q (n & Hd & _ & Hu & _). unfold offset_of. rewrite Hd. unfold is_usize in Hu. lia. }
  induction Hs as [| q ps Hs IH Hq]; [by right |]. intros lo Hlo Hm Hall. left. apply Forall_cons in Hn as [(n & Hd & _ & Hu & Hnm) Hn]. apply Forall_cons in Hall as [Hlq _].
  unfold offset_of in Hlq. rewrite Hd in Hlq. unfold is_usize in Hu.
  assert (Hnext : fn_offset n + 65536 <= USIZE_MOD) by (change USIZE_MOD with (281474976710656 * 65536) in *; apply Z.mod_divide in Hnm as [z Hz]; [| lia]; lia).
  destruct (IH Hn (fn_offset n + 65536)) as [Hl | ->]; [lia | by rewrite Z.add_mod, Hnm by lia | | cbn [length]; rewrite Nat2Z.inj_succ; lia | cbn; lia].
  rewrite Forall_forall in Hq, Hn |- *. intros x Hx. specialize (Hq x Hx). destruct (Hn x Hx) as (m & Hmd & _ & _ & Hmm). unfold before, klt, offset_of in *. cbn [cmp Z_ord] in Hq.
  rewrite Hd, Hmd in Hq. rewrite Hmd. rewrite Z.compare_lt_iff in Hq. apply Z.mod_divide in Hnm as [z Hz]; [| lia]. apply Z.mod_divide in Hmm as [y Hy]; [| lia]. lia.
Qed.

Lemma entry_at_ok w t offset : list_ok w t ->
  entry_at offset w = Done (match (locate (offset_of (w_data w)) (offset_to_node_offset offset) t []).2 with
                            | N _ p _ _ => Occupied p
                            | E => Vacant (side_of (locate (offset_of (w_data w)) (offset_to_node_offset offset) t []).1)
                            end, w).
Proof.
  intros [Ht _]. unfold entry_at, by_offset, wavl_entry. rewrite (fbind_Done _ _ _ _ _ (find_internal_ok _ _ _ _ Ht)). cbn [fst snd].
  by destruct (locate _ _ _ _).2.
Qed.

(** The list with a new node on the heap. *)
Lemma box_node_ok w t offset : list_ok w t ->
  exists p w', box_node offset w = Done (p, w') /\ p ∉ nodes t /\ w_links w' !! p = Some links_new
    /\ w_data w' = <[p := MkNode offset (replicate FRAME_LIST_NODE_FANOUT None)]> (w_data w)
    /\ (forall q, q ∈ nodes t -> offset_of (w_data w') q = offset_of (w_data w) q)
    /\ tree_ok (Au := frozen (w_data w')) (offset_of (w_data w')) w' t.
Proof.
  intros [[Hs Hw Hso Hsz Hu _] Hn]. unfold box_node. set (p := fresh _). set (w' := MkTree _ _ _ _). exists p, w'.
  pose proof (is_fresh (dom (w_links w) ∪ dom (w_data w))) as Hf. fold p in Hf. apply not_elem_of_union in Hf as [_ Hd]. apply not_elem_of_dom in Hd.
  assert (Hp : p ∉ nodes t) by (intros Hp; rewrite Forall_forall in Hn; destruct (Hn p Hp) as (n & Hpn & _); congruence).
  assert (Hk : forall q, q ∈ nodes t -> offset_of (w_data w') q = offset_of (w_data w) q)
    by (intros q Hq; unfold offset_of; cbn [w_data w']; rewrite lookup_insert_ne; [done | by intros ->]).
  split_and!; [done | done | apply lookup_insert_eq | done | done |]. split; [| done | | done | done | done].
  - destruct Hs as [Hc Hps Hnd]. split; [done | | done]. cbn [w_links w']. eapply pieces_frame, Hps. cbn. rewrite app_nil_r.
    intros q Hq. apply lookup_insert_ne. by intros <-.
  - clear -Hso Hk. induction Hso as [| q ps Hso IH Hq]; constructor; [apply IH; set_solver |]. rewrite Forall_forall in Hq |- *. intros x Hx.
    unfold before. rewrite !Hk by set_solver. by apply Hq.
Qed.

(** A node is added where the search for its offset ended; the list holds the
    same frames. *)
Lemma vacant_node_ok w t offset c : list_ok w t -> is_usize offset ->
  locate (offset_of (w_data w)) (offset_to_node_offset offset) t [] = (c, E) ->
  exists p w' t', or_insert_node (Vacant (side_of c)) (offset_to_node_offset offset) w = Done (p, w') /\ list_ok w' t'
    /\ List.find (has_key (offset_of (w_data w')) (offset_to_node_offset offset)) (nodes t') = Some p
    /\ w_data w' !! p = Some (MkNode (offset_to_node_offset offset) (replicate FRAME_LIST_NODE_FANOUT None))
    /\ forall o, held w' t' o = held w t o.
Proof.
  intros Hok Hu Hloc. destruct (box_node_ok w t (offset_to_node_offset offset) Hok) as (p & w1 & E1 & Hp & Hlk & Hd & Hk & Ht1).
  pose proof Hok as [Ht Hn]. pose proof (few_nodes w t Hok) as Hlen. set (k := offset_to_node_offset offset) in *.
  assert (Hkp : offset_of (w_data w1) p = k) by (unfold offset_of; by rewrite Hd, lookup_insert_eq).
  assert (Hloc1 : locate (offset_of (w_data w1)) (offset_of (w_data w1) p) t [] = (c, E)) by (rewrite Hkp, <- Hloc; by apply locate_ext).
  assert (Hnone : List.find (has_key (offset_of (w_data w1)) k) (nodes t) = None)
    by (rewrite (find_locate _ _ _ _ Ht1), <- Hkp; by rewrite Hloc1).
  destruct (wavl_insert_ok (Au := frozen (w_data w1)) (offset_of (w_data w1)) w1 t p) as (w' & T & E2 & HT & HnT & _); try done; [by rewrite Hkp |].
  pose proof (to_inv _ _ _ HT) as Hd'. cbn in Hd'. exists p, w', T. assert (Hhk : has_key (offset_of (w_data w1)) k p = true).
  { unfold has_key. rewrite Hkp. cbn [cmp Z_ord]. by rewrite Z.compare_refl. }
  split_and!.
  - unfold or_insert_node. rewrite (fbind_Done _ _ _ _ _ E1). by rewrite (vacant_insert_same (Au := frozen (w_data w1)) (offset_of (w_data w1)) w1 t p c).
  - split; [by rewrite Hd' |]. rewrite Hd', HnT. assert (Hpok : node_ok (w_data w1) p).
    { eexists. split; [by rewrite Hd, lookup_insert_eq |]. cbn [fn_frames fn_offset]. rewrite length_replicate. unfold k. rewrite node_offset_eq by done.
      split_and!; [done | pose proof (Z.mod_pos_bound offset 65536 ltac:(lia)); pose proof (Z.mod_le offset 65536); unfold is_usize in *; lia |]. by rewrite Zminus_mod_idemp_r, Z.sub_diag. }
    rewrite Forall_forall in Hn |- *. intros q Hq. assert (Hq' : q = p \/ q ∈ nodes t).
    { clear -Hq. induction (nodes t) as [| x ps IH]; cbn [sorted_insert] in Hq; [set_solver |]. destruct (key_lt _ _); set_solver. }
    destruct Hq' as [-> | Hq']; [done |]. destruct (Hn q Hq') as (n & Hnd & Hnr). exists n. split; [| done]. rewrite Hd, lookup_insert_ne; [done | by intros ->].
  - rewrite Hd', HnT. by apply find_insert_new.
  - by rewrite Hd', Hd, lookup_insert_eq.
  - intros o. unfold held. rewrite Hd', HnT. destruct (has_key (offset_of (w_data w1)) (offset_to_node_offset o) p) eqn:Ho.
    + unfold has_key in Ho. rewrite Hkp in Ho. cbn [cmp Z_ord] in Ho. destruct (Z.compare_spec (offset_to_node_offset o) k) as [Heq | |]; try done. rewrite Heq.
      rewrite find_insert_new by done. rewrite <- (find_ext_keys (offset_of (w_data w1)) (offset_of (w_data w))), Hnone by done.
      rewrite Hd, lookup_insert_eq. cbn [mbind option_bind fn_frames]. rewrite lookup_replicate_2 by apply node_index_lt. done.
    + rewrite find_insert_other by done. rewrite (find_ext_keys (offset_of (w_data w1)) (offset_of (w_data w))) by done.
      destruct (List.find (has_key (offset_of (w_data w)) (offset_to_node_offset o)) (nodes t)) as [q |] eqn:Hq; [| done]. destruct (found_node _ _ _ _ Hok Hq) as (Hqt & _). rewrite Hd, lookup_insert_ne; [done | by intros ->].
Qed.

Lemma held_found w t offset p n : list_ok w t ->
  List.find (has_key (offset_of (w_data w)) (offset_to_node_offset offset)) (nodes t) = Some p -> w_data w !! p = Some n ->
  held w t offset = mjoin (fn_frames n !! offset_to_node_index offset).
Proof. intros Hok Hf Hd. unfold held. by rewrite Hf, Hd. Qed.

(** The slot of an offset exists in its node. *)
Lemma slot_exists w t offset p n : list_ok w t ->
  List.find (has_key (offset_of (w_data w)) (offset_to_node_offset offset)) (nodes t) = Some p -> w_data w !! p = Some n ->
  fn_frames n !! offset_to_node_index offset = Some (held w t offset).
Proof.
  intros Hok Hf Hd. rewrite (held_found w t offset p n Hok Hf Hd). destruct (found_node _ _ _ _ Hok Hf) as (_ & m & Hm & Hlen & _).
  rewrite Hd in Hm. injection Hm as <-. destruct (lookup_lt_is_Some_2 (fn_frames n) (offset_to_node_index offset)) as [f Hf']; [rewrite Hlen; apply node_index_lt |].
  by rewrite Hf'.
Qed.

(** The node of an offset, which is there or is added. *)
Lemma node_for w t offset new : list_ok w t -> is_usize offset ->
  new = offset_to_node_offset offset \/ List.find (has_key (offset_of (w_data w)) (offset_to_node_offset offset)) (nodes t) <> None ->
  exists e p n w' t', entry_at offset w = Done (e, w) /\ or_insert_node e new w = Done (p, w') /\ list_ok w' t'
    /\ List.find (has_key (offset_of (w_data w')) (offset_to_node_offset offset)) (nodes t') = Some p /\ w_data w' !! p = Some n
    /\ (forall o, held w' t' o = held w t o).
Proof.
  intros Hok Hu Hnew. rewrite (entry_at_ok w t offset Hok). pose proof (find_locate _ _ _ (offset_to_node_offset offset) (lk_tree _ _ Hok)) as Hfl.
  destruct (locate _ _ _ _) as [c [| l p r0 r]] eqn:Hloc; cbn [fst snd root_of] in *.
  - destruct Hnew as [-> | Hnew]; [| by rewrite Hfl in Hnew]. destruct (vacant_node_ok w t offset c Hok Hu Hloc) as (p & w' & t' & E1 & Hok' & Hf & Hd & Hh).
    by eexists _, p, _, w', t'.
  - destruct (found_node _ _ _ _ Hok Hfl) as (_ & n & Hd & _). by eexists _, p, n, w, t.
Qed.

Lemma fl_insert_ok w t offset f : list_ok w t -> is_usize offset ->
  offset mod 65536 = 0 \/ List.find (has_key (offset_of (w_data w)) (offset_to_node_offset offset)) (nodes t) <> None ->
  exists w' t', fl_insert offset f w = Done (held w t offset, w') /\ list_ok w' t'
    /\ forall o, is_usize o -> held w' t' o = if o / 4096 =? offset / 4096 then Some f else held w t o.
Proof.
  intros Hok Hu Hnew. destruct (node_for w t offset offset Hok Hu) as (e & p & n & w1 & t1 & E1 & E2 & Hok1 & Hf & Hd & Hh).
  { destruct Hnew as [Hm | Hnew]; [left; rewrite node_offset_eq by done; lia | by right]. }
  unfold fl_insert. rewrite (fbind_Done _ _ _ _ _ E1), (fbind_Done _ _ _ _ _ E2), (fbind_Done _ _ _ _ _ (get_node_ok _ _ _ Hd)).
  rewrite (slot_exists w1 t1 offset p n Hok1 Hf Hd), Hh. destruct (set_slot_ok w1 t1 offset p n (Some f) Hok1 Hu Hf Hd) as (w' & E3 & Hok' & Hheld).
  exists w', t1. rewrite (fbind_Done _ _ _ _ _ E3). split_and!; [done | done |]. intros o Ho. by rewrite Hheld, Hh.
Qed.

Lemma fl_entry_insert_ok w t offset f : list_ok w t -> is_usize offset ->
  exists w' t', (e ← fl_entry offset; frame_or_insert e f) w = Done (default f (held w t offset), w') /\ list_ok w' t'
    /\ forall o, is_usize o -> held w' t' o = if o / 4096 =? offset / 4096 then Some (default f (held w t offset)) else held w t o.
Proof.
  intros Hok Hu. destruct (node_for w t offset (offset_to_node_offset offset) Hok Hu) as (e & p & n & w1 & t1 & E1 & E2 & Hok1 & Hf & Hd & Hh); [by left |].
  assert (Hvac : held w t offset = None -> exists w' t', vacant_frame_insert e (offset_to_node_index offset) (offset_to_node_offset offset) f w = Done (tt, w') /\ list_ok w' t'
    /\ forall o, is_usize o -> held w' t' o = if o / 4096 =? offset / 4096 then Some f else held w t o).
  { intros Hnone. unfold vacant_frame_insert. rewrite (fbind_Done _ _ _ _ _ E2), (fbind_Done _ _ _ _ _ (get_node_ok _ _ _ Hd)).
    rewrite (slot_exists w1 t1 offset p n Hok1 Hf Hd), Hh, Hnone. destruct (set_slot_ok w1 t1 offset p n (Some f) Hok1 Hu Hf Hd) as (w' & E3 & Hok' & Hheld).
    exists w', t1. rewrite (fbind_Done _ _ _ _ _ E3). split_and!; [done | done |]. intros o Ho. by rewrite Hheld, Hh. }
  unfold fl_entry. cbv zeta. unfold mbind at 1, M_bind at 1. rewrite (fbind_Done _ _ _ _ _ E1). destruct e as [q | ps].
  - injection E2 as <- <-. rewrite (fbind_Done _ _ _ _ _ (get_node_ok _ _ _ Hd)). rewrite <- (held_found w t1 offset q n Hok1 Hf Hd), Hh.
    destruct (held w t offset) as [g |] eqn:Hg.
    + cbn. unfold occupied_frame. rewrite (fbind_Done _ _ _ _ _ (get_node_ok _ _ _ Hd)). rewrite <- (held_found w t1 offset q n Hok1 Hf Hd), Hh, Hg.
      exists w, t1. split_and!; [done | done |]. intros o Ho. rewrite Hh. destruct (Z.eqb_spec (o / 4096) (offset / 4096)) as [He |]; [| done].
      rewrite <- Hg. unfold held. rewrite (page_node o offset Ho Hu He). replace (offset_to_node_index o) with (offset_to_node_index offset); [done |].
      apply Nat2Z.inj. by rewrite !node_index_eq, He.
    + destruct (Hvac eq_refl) as (w' & t' & E3 & Hok' & Hheld). exists w', t'. cbn. by rewrite (fbind_Done _ _ _ _ _ E3).
  - assert (Hg : held w t offset = None).
    { rewrite (entry_at_ok w t offset Hok) in E1. unfold held. rewrite (find_locate _ _ _ _ (lk_tree _ _ Hok)). by destruct (locate _ _ _ _) as [c []]. }
    rewrite Hg in *. destruct (Hvac eq_refl) as (w' & t' & E3 & Hok' & Hheld). exists w', t'. cbn. by rewrite (fbind_Done _ _ _ _ _ E3).
Qed.

Lemma fl_take_ok w t offset : list_ok w t -> is_usize offset ->
  exists w', fl_take offset w = Done (held w t offset, w') /\ list_ok w' t
    /\ forall o, is_usize o -> held w' t o = if o / 4096 =? offset / 4096 then None else held w t o.
Proof.
  intros Hok Hu. unfold fl_take. rewrite (fbind_Done _ _ _ _ _ (find_node_ok w t offset Hok)). destruct (List.find _ _) as [p |] eqn:Hp.
  - destruct (found_node _ _ _ _ Hok Hp) as (_ & n & Hd & _). rewrite (fbind_Done _ _ _ _ _ (get_node_ok _ _ _ Hd)), (slot_exists w t offset p n Hok Hp Hd).
    destruct (set_slot_ok w t offset p n None Hok Hu Hp Hd) as (w' & E1 & Hok' & Hh). exists w'. by rewrite (fbind_Done _ _ _ _ _ E1).
  - exists w. unfold held at 1. rewrite Hp. split_and!; [done | done |]. intros o Ho. destruct (Z.eqb_spec (o / 4096) (offset / 4096)) as [He |]; [| done].
    unfold held. by rewrite (page_node o offset Ho Hu He), Hp.
Qed.

(** C18: A frame list holds at most one frame per page: [get] and [take] return
    the frame of the page, the entry of a page yields it or puts the given frame
    there, and so does [insert], replacing it, if the page is the first of its
    node or the node is there. No other page changes. *)
Theorem frame_list_correct w t offset f :
  list_ok w t -> is_usize offset ->
  fl_get offset w = Done (held w t offset, w)
  /\ (exists w', fl_take offset w = Done (held w t offset, w') /\ list_ok w' t
       /\ forall o, is_usize o -> held w' t o = if o / 4096 =? offset / 4096 then None else held w t o)
  /\ (exists w' t', (e ← fl_entry offset; frame_or_insert e f) w = Done (default f (held w t offset), w') /\ list_ok w' t'
       /\ forall o, is_usize o -> held w' t' o = if o / 4096 =? offset / 4096 then Some (default f (held w t offset)) else held w t o)
  /\ (offset mod 65536 = 0 \/ List.find (has_key (offset_of (w_data w)) (offset_to_node_offset offset)) (nodes t) <> None ->
       exists w' t', fl_insert offset f w = Done (held w t offset, w') /\ list_ok w' t'
         /\ forall o, is_usize o -> held w' t' o = if o / 4096 =? offset / 4096 then Some f else held w t o).
Proof. intros Hok Hu. split_and!; [by apply fl_get_ok | by apply fl_take_ok | by apply fl_entry_insert_ok | by apply fl_insert_ok]. Qed.
End correct.

(** An empty list. *)
Lemma fl_new_ok {F} : list_ok (fl_nodes (fl_new (F := F))) E.
Proof. split; [| constructor]. split; try done; [by repeat constructor | constructor]. Qed.

Lemma frame_list_correct_witness :
  is_usize 0x15000 /\ fl_get 0x15000 (fl_nodes (fl_new (F := Z))) = Done (None, fl_nodes fl_new)
  /\ exists w' t', (e ← fl_entry 0x15000; frame_or_insert e 7) (fl_nodes fl_new) = Done (7, w') /\ list_ok w' t' /\ held w' t' 0x15fff = Some 7.
Proof.
  destruct (frame_list_correct (fl_nodes fl_new) E 0x15000 7 fl_new_ok) as (Hg & _ & (w' & t' & E1 & Hok & Hh) & _); [done |].
  split_and!; [done | exact Hg |]. exists w', t'. split_and!; [exact E1 | done |]. by rewrite Hh.
Defined.

(** ** Where it ends *)

Definition result_of {A F} (o : outcome (A * WAVLTree (FrameNodes F))) : option A := match o with Done (x, _) => Some x | _ => None end.

(** [insert] gives a new node the offset of the frame instead of the offset of
    the node: the frame is not found again, and another insertion at the same
    offset adds another node. *)
Example insert_lost :
  result_of ((_ ← fl_insert 0x1000 7; fl_get 0x1000) (fl_nodes (fl_new (F := Z)))) = Some None
  /\ result_of ((_ ← fl_insert 0x1000 7; old ← fl_insert 0x1000 8; n ← fl_first; mret (old, n)) (fl_nodes (fl_new (F := Z)))) = Some (None, Some 8).
Proof. split; vm_compute; reflexivity. Qed.
