(* ===== verification/Vmo.v ===== *)
(** * Paged memory objects (sys/kernel/src/mem/vmo.rs, provider.rs)

    The frames of a paged object, which are allocated or shared with the zero
    frame on first use and copied on write. The frame allocator and its
    reference-counted frames are an interface; the object implements the
    interface [PagedVmo] that address spaces use. *)

From stdpp Require Import base numbers list gmap.
From Stdlib Require Import ZArith Lia.
From S2P Require Import Prelude Address Riscv Arch WavlTree WavlRepr WavlBalance WavlShrink WavlSearch WavlOps Regions FindSpot KernelSpace FrameList.

(** Reference-counted frames of type [Fr], on the state [S] of the machine. *)
Class Frames (Fr S : Type) := {
  frame_addr : Fr -> Z;
  alloc_one_zeroed : M S (result unit Fr);
  clone_frame : Fr -> M S Fr;
  drop_frame : Fr -> M S unit;
  is_unique : Fr -> M S bool;
  ptr_eq : Fr -> Fr -> bool;
  copy_from_slice : Fr -> Fr -> M S unit;
  the_zero_frame : M S Fr;
}.

Section vmo.
Context {Fr S : Type} `{Frames Fr S}.

(** [TheZeroFrame], the provider of objects that begin as zeroes. *)
Definition get_frame (will_write : bool) : M S (result unit Fr) :=
  if will_write then alloc_one_zeroed else (z ← the_zero_frame; f ← clone_frame z; mret (Ok f)).
Definition free_frame (f : Fr) : M S unit := drop_frame f.

Record PagedObject := MkPaged { pv_frames : WAVLTree (FrameNodes Fr) }.
Definition new_zeroed : PagedObject := MkPaged (fl_nodes fl_new).

(** An operation on the frame list of an object, next to the machine. *)
Definition on_frames {A} (m : W (FrameNodes Fr) A) (v : PagedObject) : M S (A * PagedObject) := fun s =>
  match m (pv_frames v) with
  | Done (a, w) => Done ((a, MkPaged w), s)
  | Panicked => Panicked
  | Undefined => Undefined
  end.

Definition drop_old (o : option Fr) : M S unit := match o with Some f => drop_frame f | None => mret tt end.

(** A frame of its own with the contents of another. *)
Definition copy_on_write (old_frame : Fr) : M S (result unit Fr) :=
  new_frame <-? alloc_one_zeroed;
  z ← the_zero_frame;
  _ ← (if ptr_eq old_frame z then mret tt
       else u ← is_unique new_frame; _ ← lift (assert_ u); copy_from_slice old_frame new_frame);
  mret (Ok new_frame).

Definition paged_require_owned_frame (at_offset : Z) (v : PagedObject) : M S (result unit Z * PagedObject) :=
  g ← on_frames (fl_get at_offset) v;
  match g.1 with
  | Some old_frame =>
      u ← is_unique old_frame;
      _ ← lift (assert_ (negb u));
      c ← copy_on_write old_frame;
      match c with
      | Err e => mret (Err e, v)
      | Ok new_frame =>
          f ← clone_frame new_frame;
          r ← on_frames (fl_insert at_offset f) v;
          _ ← drop_old r.1;
          _ ← drop_frame new_frame;
          mret (Ok (frame_addr f), r.2)
      end
  | None =>
      n ← get_frame true;
      match n with
      | Err e => mret (Err e, v)
      | Ok new_frame =>
          u ← is_unique new_frame;
          _ ← lift (assert_ u);
          r ← on_frames (fl_insert at_offset new_frame) v;
          _ ← drop_old r.1;
          mret (Ok (frame_addr new_frame), r.2)
      end
  end.

Definition paged_require_read_frame (at_offset : Z) (v : PagedObject) : M S (result unit Z * PagedObject) :=
  e ← on_frames (fl_entry at_offset) v;
  match e.1 with
  | FOccupied p i => f ← on_frames (occupied_frame p i) v; mret (Ok (frame_addr f.1), f.2)
  | FVacant e i o =>
      n ← get_frame false;
      match n with
      | Err e => mret (Err e, v)
      | Ok new_frame => r ← on_frames (vacant_frame_insert e i o new_frame) v; mret (Ok (frame_addr new_frame), r.2)
      end
  end.

Fixpoint free_loop (fuel : nat) (end_ : Z) (c : FrameCursor) (v : PagedObject) : M S PagedObject :=
  if fc_offset c <? end_ then
    match fuel with
    | O => fun _ => Undefined
    | Datatypes.S fuel =>
        r ← on_frames (fcursor_remove c) v;
        _ ← match r.1.1 with Some f => free_frame f | None => mret tt end;
        m ← on_frames (fcursor_move_next r.1.2) r.2;
        free_loop fuel end_ m.1 m.2
    end
  else mret v.

(** A round per page. *)
Definition paged_free_frames (r : range) (v : PagedObject) : M S PagedObject :=
  c ← on_frames (fl_cursor (r_start r)) v;
  free_loop (Z.to_nat ((r_end r - r_start r) / FRAME_SIZE + 1)) (r_end r) c.1 c.2.

#[global] Instance paged_object : PagedVmo PagedObject S := {|
  require_owned_frame := paged_require_owned_frame;
  require_read_frame := paged_require_read_frame;
  free_frames := paged_free_frames;
|}.
End vmo.
Arguments PagedObject : clear implicits.

(** ** Reading *)

Section correct.
Context {Fr S : Type} `{Frames Fr S}.
Implicit Types (v : PagedObject Fr).

(** The entry of a page tells whether there is a frame. *)
Lemma fl_entry_read (w : WAVLTree (FrameNodes Fr)) t offset : list_ok w t ->
  exists e, fl_entry offset w = Done (e, w)
    /\ match e with
       | FOccupied p i => exists f, held w t offset = Some f /\ occupied_frame p i w = Done (f, w)
       | FVacant e i o => held w t offset = None /\ i = offset_to_node_index offset /\ o = offset_to_node_offset offset
       end.
Proof.
  intros Hok. unfold fl_entry. cbv zeta. rewrite (fbind_Done _ _ _ _ _ (entry_at_ok w t offset Hok)).
  pose proof (find_locate _ _ _ (offset_to_node_offset offset) (lk_tree _ _ Hok)) as Hfl.
  destruct (locate _ _ _ _) as [c [| l p r0 r]]; cbn [fst snd root_of] in *.
  - eexists. split; [done |]. unfold held. by rewrite Hfl.
  - destruct (found_node _ _ _ _ Hok Hfl) as (_ & n & Hd & _). rewrite (fbind_Done _ _ _ _ _ (get_node_ok _ _ _ Hd)), <- (held_found w t offset p n Hok Hfl Hd).
    destruct (held w t offset) as [f |] eqn:Hh; eexists; (split; [done |]); [| done]. exists f. split; [done |]. unfold occupied_frame.
    by rewrite (fbind_Done _ _ _ _ _ (get_node_ok _ _ _ Hd)), <- (held_found w t offset p n Hok Hfl Hd), Hh.
Qed.

(** C19: A page of a paged object that is read for the first time is backed by
    the zero frame, and from then on by the frame that the object holds for it;
    no other page is affected. *)
Theorem paged_read_correct v t offset s z s1 f s2 :
  list_ok (pv_frames v) t -> is_usize offset -> the_zero_frame s = Done (z, s1) -> clone_frame z s1 = Done (f, s2) ->
  match held (pv_frames v) t offset with
  | Some g => paged_require_read_frame offset v s = Done ((Ok (frame_addr g), v), s)
  | None => exists v' t', paged_require_read_frame offset v s = Done ((Ok (frame_addr f), v'), s2) /\ list_ok (pv_frames v') t'
      /\ (forall s', paged_require_read_frame offset v' s' = Done ((Ok (frame_addr f), v'), s'))
      /\ forall o, is_usize o -> held (pv_frames v') t' o = if o / 4096 =? offset / 4096 then Some f else held (pv_frames v) t o
  end.
Proof.
  intros Hok Hu Hz Hc. assert (Hhit : forall v t g s, list_ok (pv_frames v) t -> held (pv_frames v) t offset = Some g ->
    paged_require_read_frame offset v s = Done ((Ok (frame_addr g), v), s)).
  { clear. intros [w] t g s Hok Hg. cbn [pv_frames] in *. destruct (fl_entry_read w t offset Hok) as (e & E1 & He).
    unfold paged_require_read_frame, mbind, M_bind, on_frames. cbn [pv_frames]. rewrite E1. cbn [fst snd]. destruct e as [p i | e i o].
    - destruct He as (f & Hf & ->). rewrite Hf in Hg. by injection Hg as ->.
    - destruct He as [He _]. congruence. }
  destruct (held (pv_frames v) t offset) as [g |] eqn:Hg; [by apply (Hhit v t) |]. destruct v as [w]. cbn [pv_frames] in *.
  destruct (fl_entry_insert_ok w t offset f Hok Hu) as (w' & t' & E1 & Hok' & Hh). rewrite Hg in E1, Hh. cbn [default] in E1, Hh.
  destruct (fl_entry_read w t offset Hok) as (e & E2 & He). rewrite (fbind_Done _ _ _ _ _ E2) in E1.
  destruct e as [p i | e i o]; [destruct He as (x & Hx & _); congruence |]. cbn [frame_or_insert] in E1. unfold mbind, M_bind in E1.
  destruct (vacant_frame_insert e i o f w) as [[[] w2] | |] eqn:E3; try done. injection E1 as ->.
  exists (MkPaged w'), t'. split_and!; [| done | | done].
  - unfold paged_require_read_frame, mbind, M_bind, on_frames. cbn [pv_frames]. rewrite E2. cbn [fst snd get_frame]. unfold mbind, M_bind. rewrite Hz, Hc.
    cbn [mret M_ret]. unfold mret, M_ret. by rewrite E3.
  - intros s'. apply (Hhit (MkPaged w') t'); [done |]. cbn [pv_frames]. rewrite Hh by done. by rewrite Z.eqb_refl.
Qed.
End correct.

(** ** A machine that counts references *)

(** Frame [0] is the zero frame. *)
Record Pool := MkPool { refs : gmap Z Z; next_frame : Z }.

Definition count (f : Z) (s : Pool) : Z := default 0 (refs s !! f).

#[export] Instance pool_frames : Frames Z Pool := {|
  frame_addr f := 0x80000000 + f * 4096;
  alloc_one_zeroed s := Done (Ok (next_frame s), MkPool (<[next_frame s := 1]> (refs s)) (next_frame s + 1));
  clone_frame f s := Done (f, MkPool (<[f := count f s + 1]> (refs s)) (next_frame s));
  drop_frame f s := Done (tt, MkPool (<[f := count f s - 1]> (refs s)) (next_frame s));
  is_unique f s := Done (count f s =? 1, s);
  ptr_eq := Z.eqb;
  copy_from_slice _ _ := mret tt;
  the_zero_frame := mret 0;
|}.

Definition pool : Pool := MkPool {[ 0 := 1 ]} 1.
Abbreviation PoolObject := (PagedObject Z).

Lemma paged_read_correct_witness :
  exists v' t', paged_require_read_frame 0x3000 (new_zeroed : PoolObject) pool = Done ((Ok 0x80000000, v'), MkPool {[ 0 := 2 ]} 1) /\ list_ok (pv_frames v') t'
    /\ held (pv_frames v') t' 0x3000 = Some 0.
Proof.
  destruct (paged_read_correct (new_zeroed : PoolObject) E 0x3000 pool 0 pool 0 (MkPool {[ 0 := 2 ]} 1) fl_new_ok) as (v' & t' & E1 & Hok & _ & Hh); [done | done | by vm_compute |].
  exists v', t'. split_and!; [exact E1 | done |]. by rewrite Hh.
Defined.

Definition addresses {A} (o : outcome (A * Pool)) : option A := match o with Done (a, _) => Some a | _ => None end.

(** The frame of a page that is written first, and is not the first of its node,
    is lost: reading the page afterwards yields the zero frame. *)
Example write_lost :
  addresses ((a ← paged_require_owned_frame 0x1000 (new_zeroed : PoolObject); b ← paged_require_read_frame 0x1000 a.2; mret (a.1, b.1)) pool)
  = Some (Ok 0x80001000, Ok 0x80000000).
Proof. vm_compute. reflexivity. Qed.

(** Freeing stops at the first node that becomes empty; and a range that begins
    between nodes frees nothing. *)
Example frames_leak :
  addresses ((a ← paged_require_owned_frame 0 (new_zeroed : PoolObject); b ← paged_require_owned_frame 0x10000 a.2; c ← paged_free_frames (Range 0 0x20000) b.2;
              g ← on_frames (fl_get 0x10000) c; d ← paged_free_frames (Range 0x8000 0x20000) c; h ← on_frames (fl_get 0x10000) d; mret (g.1, h.1)) pool)
  = Some (Some 2, Some 2).
Proof. vm_compute. reflexivity. Qed.
