(* ===== verification/KernelPaging.v ===== *)
(** * Page tables of the kernel (sys/kernel/src/arch/riscv64/mem.rs)

    The hardware address space behind an address space of the kernel: mapping
    with the largest pages that fit, changing flags, unmapping with the release
    of empty tables, and lookup, on tables in memory that is accessed through
    the physmap. The frames for tables come from an allocator, which is an
    interface. *)

From stdpp Require Import base numbers list gmap sets.
From Stdlib Require Import ZArith Lia.
From S2P Require Import Prelude Address Riscv Arch PhysMap Machine KernelSpace.

Definition PAGE_SHIFT : Z := 12.
Definition PAGE_TABLE_ENTRIES : Z := 512.
Definition PAGE_TABLE_LEVELS : Z := 3.
Definition PAGE_ENTRY_SHIFT : Z := 9.
Definition PTE_PPN_SHIFT : Z := 2.

(** ** Entries *)

Definition K_VALID : Z := 1.
Definition K_READ : Z := 2.
Definition K_WRITE : Z := 4.
Definition K_EXECUTE : Z := 8.
Definition K_ALL : Z := 255.
Definition K_RWX : Z := Z.lor K_READ (Z.lor K_WRITE K_EXECUTE).

Definition kpte_is_valid (bits : Z) : bool := contains bits K_VALID.
Definition kpte_is_leaf (bits : Z) : bool := negb (Z.land bits K_RWX =? 0).
Definition replace_address_and_flags (address flags : Z) : Z := Z.lor (Z.shiftr address PTE_PPN_SHIFT) flags.
Definition kpte_address (bits : Z) : Z := wrap (Z.shiftl (Z.land bits (u_not K_ALL)) PTE_PPN_SHIFT).
Definition kpte_flags (bits : Z) : Z := Z.land bits K_ALL.

(** ** Levels *)

Definition page_size_for_level (level : Z) : outcome Z :=
  _ ← assert_ (level <? PAGE_TABLE_LEVELS);
  let page_size := Z.shiftl 1 (PAGE_SHIFT + level * PAGE_ENTRY_SHIFT) in
  _ ← assert_ ((page_size =? 4096) || (page_size =? 2097152) || (page_size =? 1073741824));
  mret page_size.

Definition pte_index_for_level (virt lvl : Z) : outcome Z :=
  _ ← assert_ (lvl <? PAGE_TABLE_LEVELS);
  let index := Z.land (Z.shiftr virt (PAGE_SHIFT + lvl * PAGE_ENTRY_SHIFT)) (PAGE_TABLE_ENTRIES - 1) in
  _ ← assert_ (index <? PAGE_TABLE_ENTRIES);
  mret index.

Definition can_map_at_level (virt phys remaining_bytes lvl : Z) : outcome bool :=
  page_size ← page_size_for_level lvl;
  a ← is_aligned_to virt page_size;
  if a : bool then
    b ← is_aligned_to phys page_size;
    mret (b && (page_size <=? remaining_bytes))
  else mret false.

(** ** The address space *)

(** The frames for tables: an allocator with its state [F] next to memory. *)
Class TableFrames (F : Type) := {
  alloc_table : PhysMap -> M (world F) (result unit Z);
  release_table : Z -> M (world F) unit;
}.

Record KAspace := MkKAspace { root_pgtable : Z; wired_frames : list Z; k_asid : Z }.
Record KMachine (F : Type) := MkKMachine { km_world : world F; km_space : KAspace }.
Arguments MkKMachine {F}.
Arguments km_world {F}.
Arguments km_space {F}.

(** [(0..PAGE_TABLE_LEVELS).rev()] *)
Definition levels_rev : list Z := [2; 1; 0].

Section ops.
Context {F : Type} `{TableFrames F} {firmware : Sbi} (physmap : PhysMap).
Abbreviation K := (M (KMachine F)).

Definition in_world {A} (m : M (world F) A) : K A := fun k =>
  match m (km_world k) with
  | Done (a, w) => Done (a, MkKMachine w (km_space k))
  | Panicked => Panicked
  | Undefined => Undefined
  end.
Definition get_kspace : K KAspace := fun k => Done (km_space k, k).
Definition set_wired (frames : list Z) : K unit := fun k =>
  Done (tt, MkKMachine (km_world k) (MkKAspace (root_pgtable (km_space k)) frames (k_asid (km_space k)))).

Definition read_pte (pgtable index : Z) : K Z := in_world (arch_read (pgtable + index * 8)).
Definition write_pte (pgtable index bits : Z) : K unit := in_world (arch_write (pgtable + index * 8) bits).

Definition pgtable_ptr_from_phys (phys : Z) : outcome Z :=
  virt ← phys_to_virt physmap phys;
  _ ← assert_ (negb (virt =? 0));
  mret virt.

(** The operations extend the caller's [&mut Flush]. It comes back with either
    result: an error carries what has been recorded until then. *)
Definition or_flush {A} (f : KFlush) (m : K (result unit A)) : K (result KFlush A) :=
  r ← m; mret (match r with Ok a => Ok a | Err _ => Err f end).

(** [flush.extend_range(self.asid, range)] *)
Definition record (r : range) (f : KFlush) : K (result KFlush KFlush) :=
  a ← get_kspace; or_flush f (mret (extend_range (k_asid a) r f)).

(** One round of the loop over the levels: the size of the page that was mapped,
    or nothing if the levels are exhausted. *)
Fixpoint map_descend (lvls : list Z) (pgtable virt phys remaining_bytes flags : Z) (f : KFlush) : K (result KFlush (option Z * KFlush)) :=
  match lvls with
  | [] => mret (Ok (None, f))
  | lvl :: lvls =>
      index ← lift (pte_index_for_level virt lvl);
      pte ← read_pte pgtable index;
      can ← lift (can_map_at_level virt phys remaining_bytes lvl);
      if can : bool then
        page_size ← lift (page_size_for_level lvl);
        _ ← write_pte pgtable index (replace_address_and_flags phys (Z.lor K_VALID flags));
        end_ ← lift (addr_add virt page_size);
        f <-? record (Range virt end_) f;
        mret (Ok (Some page_size, f))
      else if kpte_is_valid pte && negb (kpte_is_leaf pte) then
        table ← lift (pgtable_ptr_from_phys (kpte_address pte));
        map_descend lvls table virt phys remaining_bytes flags f
      else
        frame <-? or_flush f (in_world (alloc_table physmap));
        _ ← write_pte pgtable index (replace_address_and_flags frame K_VALID);
        table ← lift (pgtable_ptr_from_phys frame);
        a ← get_kspace;
        _ ← set_wired (wired_frames a ++ [frame]);
        map_descend lvls table virt phys remaining_bytes flags f
  end.

Fixpoint map_loop (fuel : nat) (virt phys remaining_bytes flags : Z) (f : KFlush) : K (result KFlush KFlush) :=
  if remaining_bytes <=? 0 then mret (Ok f)
  else
    match fuel with
    | O => fun _ => Undefined
    | Datatypes.S fuel =>
        a ← get_kspace;
        pgtable ← lift (pgtable_ptr_from_phys (root_pgtable a));
        r <-? map_descend levels_rev pgtable virt phys remaining_bytes flags f;
        match r.1 with
        | None => map_loop fuel virt phys remaining_bytes flags r.2
        | Some page_size =>
            virt ← lift (addr_add virt page_size);
            phys ← lift (addr_add phys page_size);
            remaining_bytes ← lift (u_sub remaining_bytes page_size);
            map_loop fuel virt phys remaining_bytes flags r.2
        end
    end.

(** Every round maps a page. *)
Definition rounds (len : Z) : nat := Z.to_nat (len / PAGE_SIZE + 1).

Definition kmap_contiguous (virt phys len flags : Z) (f : KFlush) : K (result KFlush KFlush) :=
  _ ← lift (assert_ (implb (contains flags K_WRITE) (contains flags K_READ)));
  _ ← lift (assert_ (PAGE_SIZE <=? len));
  a ← lift (is_aligned_to virt PAGE_SIZE);
  _ ← lift (assert_ a);
  b ← lift (is_aligned_to phys PAGE_SIZE);
  _ ← lift (assert_ b);
  map_loop (rounds len) virt phys len flags f.

(** ** Changing flags *)

(** A round over the levels: what is left, and the size of the page that was
    changed, if one was. At a vacant entry the loop goes on at the next level
    of the same table. *)
Fixpoint update_descend (lvls : list Z) (pgtable virt remaining_bytes new_flags : Z) (f : KFlush) :
    K (result KFlush (Z * option Z * KFlush)) :=
  match lvls with
  | [] => mret (Ok (remaining_bytes, None, f))
  | lvl :: lvls =>
      index ← lift (pte_index_for_level virt lvl);
      pte ← read_pte pgtable index;
      page_size ← lift (page_size_for_level lvl);
      if kpte_is_valid pte && kpte_is_leaf pte then
        let new_flags := Z.land K_RWX new_flags in
        _ ← write_pte pgtable index (replace_address_and_flags (kpte_address pte) (Z.lor (Z.ldiff (kpte_flags pte) K_RWX) new_flags));
        r ← lift (range_from_start_len virt page_size);
        f <-? record r f;
        mret (Ok (remaining_bytes, Some page_size, f))
      else if kpte_is_valid pte then
        table ← lift (pgtable_ptr_from_phys (kpte_address pte));
        update_descend lvls table virt remaining_bytes new_flags f
      else update_descend lvls pgtable virt (Z.max 0 (remaining_bytes - page_size)) new_flags f
  end.

Fixpoint update_loop (fuel : nat) (virt remaining_bytes new_flags : Z) (f : KFlush) : K (result KFlush KFlush) :=
  if remaining_bytes <=? 0 then mret (Ok f)
  else
    match fuel with
    | O => fun _ => Undefined
    | Datatypes.S fuel =>
        a ← get_kspace;
        pgtable ← lift (pgtable_ptr_from_phys (root_pgtable a));
        r <-? update_descend levels_rev pgtable virt remaining_bytes new_flags f;
        match r.1.2 with
        | None => update_loop fuel virt r.1.1 new_flags r.2
        | Some page_size =>
            virt ← lift (addr_add virt page_size);
            remaining_bytes ← lift (u_sub r.1.1 page_size);
            update_loop fuel virt remaining_bytes new_flags r.2
        end
    end.

Definition kupdate_flags (virt len new_flags : Z) (f : KFlush) : K (result KFlush KFlush) :=
  _ ← lift (assert_ (implb (contains new_flags K_WRITE) (contains new_flags K_READ)));
  _ ← lift (assert_ (PAGE_SIZE <=? len));
  a ← lift (is_aligned_to virt PAGE_SIZE);
  _ ← lift (assert_ a);
  update_loop (rounds len) virt len new_flags f.

(** ** Unmapping *)

(** [self.wired_frames.retain(|wired| wired.addr() != addr)]: the frames that
    go are dropped. *)
Fixpoint release_all (frames : list Z) : K unit :=
  match frames with [] => mret tt | frame :: frames => _ ← in_world (release_table frame); release_all frames end.
Definition unwire (addr : Z) : K unit :=
  a ← get_kspace;
  _ ← set_wired (List.filter (fun frame => negb (frame =? addr)) (wired_frames a));
  release_all (List.filter (fun frame => frame =? addr) (wired_frames a)).

(** [(0..PAGE_TABLE_ENTRIES).any(..)] *)
Fixpoint any_valid (n : nat) (pgtable index : Z) : K bool :=
  match n with
  | O => mret false
  | Datatypes.S n => pte ← read_pte pgtable index; if kpte_is_valid pte then mret true else any_valid n pgtable (index + 1)
  end.

(** What is left after a round: the address and the number of bytes. *)
Fixpoint unmap_inner (lvl : nat) (pgtable virt remaining_bytes : Z) (f : KFlush) : K (result KFlush (Z * Z * KFlush)) :=
  index ← lift (pte_index_for_level virt (Z.of_nat lvl));
  page_size ← lift (page_size_for_level (Z.of_nat lvl));
  pte ← read_pte pgtable index;
  if kpte_is_valid pte && kpte_is_leaf pte then
    _ ← unwire (kpte_address pte);
    _ ← write_pte pgtable index 0;
    r ← lift (range_from_start_len virt page_size);
    f <-? record r f;
    virt ← lift (addr_add virt page_size);
    remaining_bytes ← lift (u_sub remaining_bytes page_size);
    mret (Ok (virt, remaining_bytes, f))
  else if kpte_is_valid pte then
    table ← lift (pgtable_ptr_from_phys (kpte_address pte));
    match lvl with
    | O => lift Panicked
    | Datatypes.S lvl =>
        r <-? unmap_inner lvl table virt remaining_bytes f;
        is_still_populated ← any_valid (Z.to_nat PAGE_TABLE_ENTRIES) table 0;
        _ ← (if is_still_populated : bool then mret tt
             else _ ← unwire (kpte_address pte); write_pte pgtable index 0);
        mret (Ok r)
    end
  else mret (Ok (virt, Z.max 0 (remaining_bytes - page_size), f)).

Fixpoint kunmap_loop (fuel : nat) (virt remaining_bytes : Z) (f : KFlush) : K (result KFlush KFlush) :=
  if remaining_bytes <=? 0 then mret (Ok f)
  else
    match fuel with
    | O => fun _ => Undefined
    | Datatypes.S fuel =>
        a ← get_kspace;
        pgtable ← lift (pgtable_ptr_from_phys (root_pgtable a));
        r <-? unmap_inner 2 pgtable virt remaining_bytes f;
        kunmap_loop fuel r.1.1 r.1.2 r.2
    end.

Definition kunmap (virt len : Z) (f : KFlush) : K (result KFlush KFlush) :=
  _ ← lift (assert_ (PAGE_SIZE <=? len));
  a ← lift (is_aligned_to virt PAGE_SIZE);
  _ ← lift (assert_ a);
  kunmap_loop (rounds len) virt len f.

(** ** Lookup *)

Fixpoint query_descend (lvls : list Z) (pgtable virt : Z) : K (option (Z * Z)) :=
  match lvls with
  | [] => mret None
  | lvl :: lvls =>
      index ← lift (pte_index_for_level virt lvl);
      pte ← read_pte pgtable index;
      if kpte_is_valid pte && kpte_is_leaf pte then mret (Some (kpte_address pte, kpte_flags pte))
      else if kpte_is_valid pte then
        table ← lift (pgtable_ptr_from_phys (kpte_address pte));
        query_descend lvls table virt
      else mret None
  end.

Definition query (virt : Z) : K (option (Z * Z)) :=
  a ← get_kspace;
  pgtable ← lift (pgtable_ptr_from_phys (root_pgtable a));
  query_descend levels_rev pgtable virt.

(** ** Activation and invalidation *)

Definition kactivate : K unit :=
  a ← get_kspace;
  in_world (on_hart (satp_set Sv39 (k_asid a) (Z.shiftr (root_pgtable a) 12))).

Definition kinvalidate_range (asid : Z) (address_range : range) : K (result unit unit) :=
  len ← lift (range_len address_range);
  r ← in_world (on_hart (sfence_vma_asid 0 USIZE_MAX (r_start address_range) len asid));
  mret (match r with Ok _ => Ok tt | Err _ => Err tt end).
End ops.

(** ** Construction *)

Section construct.
Context {F : Type} `{TableFrames F} (physmap : PhysMap).

Definition get_active_pgtable (expected_asid : Z) : M (world F) Z :=
  satp ← on_hart satp_read;
  _ ← lift (assert_ (satp_asid satp =? expected_asid));
  let root := wrap (Z.shiftl (satp_ppn satp) 12) in
  _ ← lift (assert_ (negb (root =? 0)));
  mret root.

Definition kaspace_from_active (asid : Z) : M (world F) (KAspace * KFlush) :=
  root ← get_active_pgtable asid; mret (MkKAspace root [] asid, kflush_empty asid).

(** [copy_from_slice], a word at a time. *)
Fixpoint copy_words (n : nat) (src dst : Z) : M (world F) unit :=
  match n with
  | O => mret tt
  | Datatypes.S n => v ← arch_read src; _ ← arch_write dst v; copy_words n (src + 8) (dst + 8)
  end.

(** A new table shares the upper half of the active one. *)
Definition kaspace_new (asid : Z) : M (world F) (result unit (KAspace * KFlush)) :=
  satp ← on_hart satp_read;
  let active := wrap (Z.shiftl (satp_ppn satp) 12) in
  _ ← lift (assert_ (negb (active =? 0)));
  base ← lift (phys_to_virt physmap active);
  src ← lift (addr_add base (PAGE_SIZE / 2));
  root <-? alloc_table physmap;
  dst ← lift (phys_to_virt physmap root);
  _ ← copy_words (Z.to_nat (PAGE_SIZE / 2 / 8)) src (dst + PAGE_SIZE / 2);
  mret (Ok (MkKAspace root [root] asid, kflush_empty asid)).
End construct.
