(* ===== verification/KernelPagingCorrect.v ===== *)
(** * Correctness of the kernel's page tables

    [query] against what the tables mean ([lk] of PageTable), and the mapping
    of a page: what is found at the page and that nothing else changes. The
    kernel's entries are described as an architecture of Arch, so that the
    tree invariant [Inv] of Walk applies to the kernel's tables. *)

From stdpp Require Import base numbers list gmap sets.
From Stdlib Require Import ZArith Lia.
From S2P Require Import Prelude Address Riscv Arch PhysMap Machine Table PageTable Walk TableOps.
From S2P Require Import KernelSpace KernelPaging.

(** ** The kernel's entries as an architecture *)

(** The bits an entry has for the address (10 to 53) and the flags (0 to 7);
    the kernel takes bits 8 to 61 for the address. *)
Definition tidy (bits : Z) : bool := (bits mod 1024 <? 256) && (bits <? 2 ^ 54).
Definition entry_address (bits : Z) : Z := (bits / 1024) mod 2 ^ 44 * 4096.

(** Only whether an entry can be accessed at all is recorded of the attributes. *)
Definition some_access : MemoryAttributes := with_READ true attributes_new.

Definition kernel_pte : PageTableEntry := {|
  new_leaf p _ := Done (replace_address_and_flags p (Z.lor K_VALID K_READ));
  new_table p := Done (replace_address_and_flags p K_VALID);
  VACANT := 0;
  is_vacant bits := negb (kpte_is_valid bits);
  is_leaf bits := kpte_is_valid bits && (kpte_is_leaf bits || negb (tidy bits));
  is_table bits := kpte_is_valid bits && negb (kpte_is_leaf bits || negb (tidy bits));
  pte_address := entry_address;
  pte_attributes bits := if tidy bits then Done some_access else Panicked;
|}.

Definition klevel (lvl : Z) : PageTableLevel := MkLevel PAGE_TABLE_ENTRIES true (PAGE_SHIFT + lvl * PAGE_ENTRY_SHIFT).

(** The levels below level [n], downwards. *)
Fixpoint below (n : nat) : list Z := match n with O => [] | S n => Z.of_nat n :: below n end.

#[export] Instance kernel_arch : Arch := {|
  arch_pte := kernel_pte;
  LEVELS := klevel <$> below 3;
  DEFAULT_PHYSMAP_BASE := 0xffffffc000000000;
  active_table := mret None;
  set_active_table _ := mret tt;
  fence _ := mret tt;
  fence_all := mret tt;
|}.

(** ** Facts on entries *)

Lemma kpte_flags_mod bits : kpte_flags bits = bits mod 256.
Proof. unfold kpte_flags. change K_ALL with (Z.ones 8). by rewrite Z.land_ones. Qed.

Lemma kpte_address_tidy bits : 0 <= bits -> tidy bits = true -> kpte_address bits = entry_address bits.
Proof.
  unfold tidy, kpte_address, entry_address. intros Hb Ht.
  apply andb_true_iff in Ht as [Ht1 Ht2]. apply Z.ltb_lt in Ht1, Ht2.
  assert (Z.land bits (u_not K_ALL) = bits / 1024 * 1024) as ->.
  { change (u_not K_ALL) with (wrapping_sub 0 (2 ^ 8)).
    rewrite land_high_mask by (unfold is_usize; lia).
    assert (bits mod 2 ^ 8 = bits mod 1024) as ->; [|pose proof (Z.div_mod bits 1024); lia].
    change (2 ^ 8) with 256. rewrite <- (Z.mod_small (bits mod 1024) 256) by (pose proof (Z.mod_pos_bound bits 1024); lia).
    symmetry. apply (Z.mod_mod_divide bits 1024 256). by exists 4. }
  unfold PTE_PPN_SHIFT. rewrite Z.shiftl_mul_pow2 by lia. unfold wrap.
  assert (0 <= bits / 1024 < 2 ^ 44) by (split; [apply Z.div_pos; lia|apply Z.div_lt_upper_bound; lia]).
  rewrite !Z.mod_small by lia. lia.
Qed.

Lemma entry_address_range bits : 0 <= entry_address bits < 2 ^ 56 /\ entry_address bits mod 4096 = 0.
Proof.
  unfold entry_address. pose proof (Z.mod_pos_bound (bits / 1024) (2 ^ 44) ltac:(lia)).
  split; [lia|]. apply Z.mod_mul. lia.
Qed.

Lemma flags_small_bit flags n : 0 <= flags < 256 -> 8 <= n -> Z.testbit flags n = false.
Proof.
  intros Hf Hn. destruct (decide (flags = 0)) as [->|]; [apply Z.bits_0|].
  apply Z.bits_above_log2; [lia|]. apply Z.lt_le_trans with 8; [apply Z.log2_lt_pow2; lia|lia].
Qed.

(** Entries the kernel writes: a frame's address and flags. *)
Lemma entry_shape p flags :
  0 <= p < 2 ^ 56 -> p mod 4096 = 0 -> 0 <= flags < 256 ->
  exists q, 0 <= q < 2 ^ 44 /\ p = q * 4096 /\ replace_address_and_flags p flags = q * 1024 + flags.
Proof.
  intros Hp Hm Hf. exists (p / 4096).
  assert (p = p / 4096 * 4096) as Hq by (pose proof (Z.div_mod p 4096); lia).
  set (q := p / 4096) in *. split; [lia|]. split; [done|]. unfold replace_address_and_flags, PTE_PPN_SHIFT.
  rewrite Z.shiftr_div_pow2 by lia. rewrite Hq. replace (q * 4096) with (q * 1024 * 2 ^ 2) by lia.
  rewrite Z.div_mul by lia.
  enough (Z.land (q * 1024) flags = 0) by (pose proof (Z.add_lor_land (q * 1024) flags); lia).
  apply Z.bits_inj'. intros n Hn. rewrite Z.land_spec, Z.bits_0. change (q * 1024) with (q * 2 ^ 10).
  destruct (decide (n < 10)); [by rewrite Z.mul_pow2_bits_low by lia|].
  rewrite (flags_small_bit flags) by lia. apply andb_false_r.
Qed.

Lemma entry_written p flags :
  0 <= p < 2 ^ 56 -> p mod 4096 = 0 -> 0 <= flags < 256 ->
  let e := replace_address_and_flags p flags in
  is_usize e /\ tidy e = true /\ entry_address e = p /\ kpte_flags e = flags
  /\ kpte_is_valid e = kpte_is_valid flags /\ kpte_is_leaf e = kpte_is_leaf flags.
Proof.
  intros Hp Hm Hf. destruct (entry_shape p flags Hp Hm Hf) as (q & Hq & -> & ->). cbv zeta.
  assert (kpte_flags (q * 1024 + flags) = flags) as Hfl.
  { rewrite kpte_flags_mod. replace (q * 1024 + flags) with (flags + (q * 4) * 256) by lia.
    rewrite Z.mod_add by lia. apply Z.mod_small. lia. }
  split; [unfold is_usize; lia|]. split.
  { unfold tidy. rewrite Z.add_comm, Z.mod_add, Z.mod_small by lia. lia. }
  split. { unfold entry_address. rewrite Z.div_add_l, (Z.div_small flags), Z.add_0_r, Z.mod_small by lia. done. }
  split; [done|]. unfold kpte_is_valid, kpte_is_leaf, contains, kpte_flags in *.
  split.
  - rewrite <- Hfl at 2. by rewrite <- Z.land_assoc.
  - rewrite <- Hfl at 2. by rewrite <- Z.land_assoc.
Qed.

#[export] Instance kernel_laws : ArchLaws.
Proof.
  refine {| PHYS_LIMIT := 2 ^ 56; normalize_attributes := fun _ => some_access |}.
  - done.
  - simpl. lia.
  - repeat (apply Forall_cons; split); [..|by apply Forall_nil]; repeat split; by vm_compute.
  - by vm_compute.
  - repeat (apply Forall_cons; split); [..|by apply Forall_nil]; by vm_compute.
  - by vm_compute.
  - done.
  - done.
  - intros w _. simpl. by destruct (kpte_is_valid w), (kpte_is_leaf w || negb (tidy w)).
  - intros w _. simpl. by destruct (kpte_is_valid w), (kpte_is_leaf w || negb (tidy w)).
  - intros w _. apply entry_address_range.
  - intros w m _ _. simpl. destruct (tidy w); [|done]. intros [= <-]. done.
  - intros p Hp Hm. destruct (entry_written p K_VALID Hp Hm ltac:(done)) as (? & Ht & ? & ? & Hv & Hl).
    eexists. split; [done|]. simpl. by rewrite Hv, Hl, Ht.
  - intros p m Hp Hm _. destruct (entry_written p (Z.lor K_VALID K_READ) Hp Hm ltac:(done)) as (? & Ht & ? & ? & Hv & Hl).
    eexists. split; [done|]. simpl. by rewrite Hv, Hl, Ht.
Defined.

(** ** Levels *)

Definition klevels (n : nat) : list PageTableLevel := klevel <$> below n.

Lemma klevels_wf n : (n <= 3)%nat -> levels_wf (klevels n).
Proof.
  intros Hn. replace (klevels n) with (drop (3 - n) LEVELS); [apply levels_wf_drop|].
  by do 4 (destruct n as [|n]; [done|]); lia.
Qed.

Lemma klevel_page_size n : page_size (klevel (Z.of_nat n)) = 2 ^ (12 + Z.of_nat n * 9).
Proof. unfold page_size, klevel. simpl. by rewrite Z.shiftl_1_l. Qed.

Lemma klevel_span n : span (klevels (S n)) = 512 * page_size (klevel (Z.of_nat n)).
Proof. done. Qed.

Lemma page_size_for_level_Done n :
  (n < 3)%nat -> page_size_for_level (Z.of_nat n) = Done (page_size (klevel (Z.of_nat n))).
Proof. intros Hn. by do 3 (destruct n as [|n]; [done|]); lia. Qed.

Lemma pte_index_for_level_Done n virt :
  (n < 3)%nat -> 0 <= virt ->
  pte_index_for_level virt (Z.of_nat n)
  = Done (virt mod span (klevels (S n)) / page_size (klevel (Z.of_nat n))).
Proof.
  intros Hn Hv. unfold pte_index_for_level, PAGE_TABLE_LEVELS, PAGE_SHIFT, PAGE_ENTRY_SHIFT, PAGE_TABLE_ENTRIES.
  rewrite klevel_span, klevel_page_size.
  replace (Z.of_nat n <? 3) with true by lia. cbn [assert_ mbind outcome_bind].
  set (s := 12 + Z.of_nat n * 9). change (512 - 1) with (Z.ones 9).
  rewrite Z.land_ones, Z.shiftr_div_pow2 by lia. change 512 with (2 ^ 9).
  rewrite <- Z.pow_add_r by lia. replace (9 + s) with (s + 9) by lia. rewrite Z.pow_add_r by lia.
  assert (virt mod (2 ^ s * 2 ^ 9) / 2 ^ s = (virt / 2 ^ s) mod 2 ^ 9) as ->.
  { rewrite Z.rem_mul_r by lia. rewrite (Z.mul_comm (2 ^ s)), Z.div_add by lia.
    rewrite Z.div_small; [lia|]. apply Z.mod_pos_bound. lia. }
  pose proof (Z.mod_pos_bound (virt / 2 ^ s) (2 ^ 9) ltac:(lia)).
  by replace (_ <? _) with true by lia.
Qed.

(** A page of level [n] fits at the start of what is left to map. *)
Definition fits (n : nat) (virt phys remaining_bytes : Z) : bool :=
  let page_size := page_size (klevel (Z.of_nat n)) in
  (virt mod page_size =? 0) && (phys mod page_size =? 0) && (page_size <=? remaining_bytes).

Lemma can_map_at_level_Done n virt phys remaining_bytes :
  (n < 3)%nat ->
  can_map_at_level virt phys remaining_bytes (Z.of_nat n) = Done (fits n virt phys remaining_bytes).
Proof.
  intros Hn. unfold can_map_at_level, fits. rewrite page_size_for_level_Done by done. cbn [mbind outcome_bind].
  rewrite klevel_page_size. rewrite !is_aligned_to_pow2 by lia. cbn [mbind outcome_bind].
  by destruct (virt mod _ =? 0).
Qed.

(** ** What is promised of the frames for tables *)

(** A frame for a table is fresh and zeroed, and nothing else changes; without
    one nothing changes. *)
Class TableFramesLaws (F : Type) {fa : FrameAllocator F} {fal : FrameAllocatorLaws GRANULE_SIZE F}
    {tf : TableFrames F} (pm : PhysMap) : Prop := {
  alloc_table_spec : forall (w : world F) A0,
    mem_ok pm (w_mem w) -> fa_allocated (w_frames w) A0 ->
    exists r w', alloc_table pm w = Done (r, w') /\ w_hart w' = w_hart w
    /\ match r with
       | Ok p => (forall A, fa_allocated (w_frames w) A -> (p ∉ A) /\ fa_allocated (w_frames w') ({[p]} ∪ A))
           /\ frame_ok fa_memory p /\ mem_ok pm (w_mem w')
           /\ (forall i, 0 <= i -> i * PTE_SIZE < GRANULE_SIZE -> w_mem w' !! pv pm (p + i * PTE_SIZE) = Some 0)
           /\ (forall a, (forall i, 0 <= i -> i * PTE_SIZE < GRANULE_SIZE -> a <> pv pm (p + i * PTE_SIZE)) ->
                w_mem w' !! a = w_mem w !! a)
       | Err _ => w_mem w' = w_mem w
           /\ (forall A, fa_allocated (w_frames w) A -> fa_allocated (w_frames w') A)
       end;
}.

Section correct.
Context {F : Type} {fa : FrameAllocator F} {fal : FrameAllocatorLaws GRANULE_SIZE F} {tf : TableFrames F}
  (pm : PhysMap) {tfl : TableFramesLaws F pm} (Hpo : platform_ok pm) (Hbase : 0 < pm_base pm).
Implicit Types (k : KMachine F) (R : gset Z).

Abbreviation mem k := (w_mem (km_world k)).

(** ** Entries and tables *)

Lemma klevel_index n o : 0 <= o < span (klevels (S n)) -> 0 <= o / page_size (klevel (Z.of_nat n)) < 512.
Proof.
  rewrite klevel_span. rewrite klevel_page_size. intros Ho.
  split; [apply Z.div_pos; lia|apply Z.div_lt_upper_bound; lia].
Qed.

Lemma kspan_pos n : 0 < span (klevels (S n)).
Proof. rewrite klevel_span, klevel_page_size. lia. Qed.

Lemma pv_index b i : pv pm b + i * 8 = pv pm (b + i * PTE_SIZE).
Proof. unfold pv, PTE_SIZE. lia. Qed.

(** Reading an entry of a well-formed tree: the kernel's tests on it, and the
    address it follows. *)
Lemma Inv_read n b R k i :
  (n < 3)%nat -> Inv pm (klevels (S n)) b R (km_world k) -> 0 <= i < 512 ->
  let e := ent pm (mem k) b i in
  read_pte (pv pm b) i k = Done (e, k) /\ is_usize e /\ frame_ok fa_memory b
  /\ kpte_is_valid e && kpte_is_leaf e = is_leaf e /\ kpte_is_valid e && negb (kpte_is_leaf e) = is_table e
  /\ (kpte_is_valid e = true -> kpte_address e = pte_address e)
  /\ (is_table e = true -> (0 < n)%nat).
Proof.
  intros Hn HI Hi e. pose proof (klevels_wf (S n) ltac:(lia)) as Hwf.
  destruct (Inv_replace pm _ _ b R _ i Hwf HI Hi) as (S & Ci & HS & _ & _ & _ & _ & _ & He & _).
  fold e in He.
  destruct HI as [Hm _]. apply owns_root in HS as [_ Hf].
  destruct (index_in_frame_wf _ _ i Hwf Hi) as [Hi0 Hi1].
  destruct (arch_read_pv pm Hpo (km_world k) b i Hm Hf Hi0 Hi1) as [Hr Hu]. fold e in Hr, Hu.
  assert (kpte_is_valid e = true -> tidy e = true) as Ht.
  { intros Hv. destruct (tidy e) eqn:Et; [done|]. exfalso. unfold entry_ok in He.
    assert (is_leaf e = true) as Hl by (simpl; by rewrite Hv, Et, orb_true_r).
    assert (is_table e = false) as Htb by (simpl; by rewrite Hv, Et, orb_true_r).
    rewrite Htb in He. destruct He as [_ He]. destruct (He Hl) as [_ [a Ha]]. simpl in Ha. by rewrite Et in Ha. }
  split_and!; try done.
  - unfold read_pte, in_world. rewrite pv_index. rewrite Hr. by destruct k.
  - simpl. destruct (kpte_is_valid e); [|done]. rewrite Ht by done. by rewrite orb_false_r.
  - simpl. destruct (kpte_is_valid e); [|done]. rewrite Ht by done. by rewrite orb_false_r.
  - intros Hv. apply kpte_address_tidy; [apply Hu|by apply Ht].
  - intros Htb. unfold entry_ok in He. rewrite Htb in He. destruct n; [done|lia].
Qed.

Lemma pgtable_ptr_pv b : frame_ok fa_memory b -> pgtable_ptr_from_phys pm b = Done (pv pm b).
Proof.
  intros Hf. destruct (frame_word b 0 Hf ltac:(lia) ltac:(vm_compute; done)) as [Hr _].
  rewrite Z.add_0_r in Hr. unfold pgtable_ptr_from_phys. rewrite (phys_to_virt_pv pm Hpo) by done.
  cbn [mbind outcome_bind]. replace (pv pm b =? 0) with false; [done|].
  destruct Hpo. unfold pv. lia.
Qed.

Lemma Inv_frame n b R k : Inv pm (klevels n) b R (km_world k) -> frame_ok fa_memory b.
Proof. intros (_ & S & HS & _). by apply owns_root in HS as [_ Hf]. Qed.

(** What the kernel reports of a leaf. *)
Definition kfound (r : option (Z * PageTableLevel)) : option (Z * Z) :=
  (fun x => (kpte_address x.1, kpte_flags x.1)) <$> r.

Lemma lk_table n b i o m :
  o / page_size (klevel (Z.of_nat n)) = i -> is_table (ent pm m b i) = true ->
  lk pm (klevels (S n)) m b o
  = lk pm (klevels n) m (pte_address (ent pm m b i)) (o mod page_size (klevel (Z.of_nat n))).
Proof. intros Hi Ht. unfold klevels. cbn [below fmap list_fmap lk]. by rewrite Hi, Ht. Qed.

Lemma lk_entry n b i o m :
  o / page_size (klevel (Z.of_nat n)) = i -> is_table (ent pm m b i) = false ->
  lk pm (klevels (S n)) m b o
  = if is_leaf (ent pm m b i) then Some (ent pm m b i, klevel (Z.of_nat n)) else None.
Proof. intros Hi Ht. unfold klevels. cbn [below fmap list_fmap lk]. by rewrite Hi, Ht. Qed.

Lemma obs_table j n b i o m :
  o / page_size (klevel (Z.of_nat n)) = i -> is_table (ent pm m b i) = true ->
  obs pm (S j) (klevels (S n)) m b o
  = obs pm j (klevels n) m (pte_address (ent pm m b i)) (o mod page_size (klevel (Z.of_nat n))).
Proof. intros Hi Ht. by apply obs_child. Qed.

Lemma lk_level n m b o e l :
  lk pm (klevels n) m b o = Some (e, l) -> exists j, (j < n)%nat /\ l = klevel (Z.of_nat j).
Proof.
  revert b o. induction n as [|n IH]; intros b o Hl; [done|].
  set (i := o / page_size (klevel (Z.of_nat n))) in *. destruct (is_table (ent pm m b i)) eqn:Ht.
  - rewrite (lk_table n b i o m eq_refl Ht) in Hl. apply IH in Hl as (j & Hj & ->). exists j. split; [lia|done].
  - rewrite (lk_entry n b i o m eq_refl Ht) in Hl. destruct (is_leaf _); [|done]. injection Hl as _ <-.
    exists n. split; [lia|done].
Qed.

(** The offset in the table below. *)
Lemma kmod_child n virt :
  (n < 2)%nat ->
  virt mod span (klevels (S (S n))) mod page_size (klevel (Z.of_nat (S n))) = virt mod span (klevels (S n)).
Proof. intros Hn. by apply (mod_span_child (klevel (Z.of_nat (S n))) (klevels (S n)) virt (klevels_wf (S (S n)) ltac:(lia))). Qed.

(** The table below an entry, and the tree around it after it has changed. *)
Lemma Inv_down n b R w i :
  (n < 2)%nat -> Inv pm (klevels (S (S n))) b R w -> 0 <= i < 512 -> is_table (ent pm (w_mem w) b i) = true ->
  let child := pte_address (ent pm (w_mem w) b i) in
  exists Rc, R ⊆ Rc /\ Inv pm (klevels (S n)) child Rc w
  /\ forall w', Inv pm (klevels (S n)) child Rc w' -> keeps pm Rc w w' ->
       Inv pm (klevels (S (S n))) b R w' /\ ent pm (w_mem w') b i = ent pm (w_mem w) b i
       /\ forall j o, 0 <= o < span (klevels (S (S n))) -> o / page_size (klevel (Z.of_nat (S n))) <> i ->
            obs pm j (klevels (S (S n))) (w_mem w') b o = obs pm j (klevels (S (S n))) (w_mem w) b o.
Proof.
  intros Hn HI Hi Ht.
  destruct (Inv_open pm (klevel (Z.of_nat (S n))) (klevels (S n)) b i R w (klevels_wf (S (S n)) ltac:(lia)) HI Hi Ht)
    as (Rc & HR & HIc & Hclose).
  exists Rc. split_and!; [done..|]. intros w' HI' HK. destruct (Hclose w' HI' HK) as (H1 & H2 & H3).
  split_and!; [done..|]. intros j o Ho Hne. by apply H3.
Qed.

Lemma query_descend_ok n b R k virt :
  (n < 3)%nat -> Inv pm (klevels (S n)) b R (km_world k) -> 0 <= virt ->
  query_descend pm (below (S n)) (pv pm b) virt k
  = Done (kfound (lk pm (klevels (S n)) (mem k) b (virt mod span (klevels (S n)))), k).
Proof.
  revert b R. induction n as [n IH] using lt_wf_ind. intros b R Hn HI Hv.
  set (o := virt mod span (klevels (S n))).
  assert (0 <= o < span (klevels (S n))) as Ho by (apply Z.mod_pos_bound, kspan_pos).
  pose proof (klevel_index n o Ho) as Hi.
  destruct (Inv_read n b R k _ Hn HI Hi) as (Hr & Hu & Hf & Hl & Ht & Ha & Htn).
  change (below (S n)) with (Z.of_nat n :: below n). cbn [query_descend].
  step_by (pte_index_for_level_Done n virt Hn Hv). fold o. step_by Hr.
  set (e := ent pm (mem k) b (o / page_size (klevel (Z.of_nat n)))) in *. rewrite Hl.
  destruct (is_table e) eqn:Et.
  - destruct n as [|n]; [by specialize (Htn eq_refl); lia|].
    rewrite (lk_table (S n) b _ o _ eq_refl Et). fold e.
    apply andb_true_iff in Ht as [Hval Hnl%negb_true_iff]. rewrite <- Hl, Hval, Hnl, Ha by done. cbn [andb].
    destruct (Inv_down n b R _ _ ltac:(lia) HI Hi Et) as (Rc & _ & HIc & _).
    step_by (pgtable_ptr_pv _ (Inv_frame (S n) _ Rc k HIc)).
    rewrite (IH n ltac:(lia) _ Rc ltac:(lia) HIc Hv). unfold o. by rewrite kmod_child by lia.
  - rewrite (lk_entry n b _ o _ eq_refl Et). fold e. rewrite <- Hl.
    destruct (kpte_is_valid e), (kpte_is_leaf e); done.
Qed.

(** ** Mapping a page *)

(** The tables have room for a page at [virt]: where one of the sizes that fit
    goes, there is neither a leaf nor a table. *)
Definition room (n : nat) (m : gmap Z Z) (b virt phys remaining_bytes : Z) : Prop :=
  forall j, (j < n)%nat -> fits j virt phys remaining_bytes = true ->
  obs pm (n - 1 - j) (klevels n) m b (virt mod span (klevels n)) = Vac.

(** Offsets outside the page of level [i] at [o0]: the entries they go through
    are as before, from the level on at which they separate from [o0]. *)
Definition kept (n i : nat) (o0 : Z) (m m' : gmap Z Z) (b : Z) : Prop :=
  forall j o, (j < n)%nat -> 0 <= o < span (klevels n) ->
  o / page_size (klevel (Z.of_nat i)) <> o0 / page_size (klevel (Z.of_nat i)) ->
  o / page_size (klevel (Z.of_nat j)) <> o0 / page_size (klevel (Z.of_nat j)) ->
  obs pm (n - 1 - j) (klevels n) m' b o = obs pm (n - 1 - j) (klevels n) m b o.

(** The machine is as a refused request for the frame of a table left it. *)
Definition no_table_frame (w' : world F) : Prop :=
  exists w A, fa_allocated (w_frames w) A /\ alloc_table pm w = Done (Err tt, w').

(** What a round of [map_contiguous] in the table at [b] does: it maps the
    largest page that fits, or there is no frame for a table and nothing is
    mapped. *)
Record round_ok (n : nat) (b : Z) (R : gset Z) (virt phys remaining_bytes flags : Z) (f : KFlush) (k : KMachine F)
    (r : result KFlush (option Z * KFlush)) (k' : KMachine F) : Prop := {
  ro_inv : Inv pm (klevels n) b R (km_world k');
  ro_keeps : keeps pm R (km_world k) (km_world k');
  ro_root : root_pgtable (km_space k') = root_pgtable (km_space k);
  ro_asid : k_asid (km_space k') = k_asid (km_space k);
  ro_result :
    let o0 := virt mod span (klevels n) in
    match r with
    | Err f' => f' = f /\ no_table_frame (km_world k')
        /\ forall o, 0 <= o < span (klevels n) -> lk pm (klevels n) (mem k') b o = lk pm (klevels n) (mem k) b o
    | Ok (size, f') => exists j, (j < n)%nat /\ fits j virt phys remaining_bytes = true
        /\ let page_size := page_size (klevel (Z.of_nat j)) in
           size = Some page_size /\ extend_range (k_asid (km_space k)) (Range virt (virt + page_size)) f = Ok f'
           /\ (forall o, 0 <= o < span (klevels n) -> o / page_size = o0 / page_size ->
                lk pm (klevels n) (mem k') b o
                = Some (replace_address_and_flags phys (Z.lor K_VALID flags), klevel (Z.of_nat j)))
           /\ kept n j o0 (mem k) (mem k') b
    end;
}.

(** Offsets that share an entry are told apart by their offsets below it. *)
Lemma div_split x y P Q :
  0 < P -> 0 < Q -> x / (P * Q) = y / (P * Q) -> ((x mod (P * Q)) / P = (y mod (P * Q)) / P <-> x / P = y / P).
Proof.
  intros HP HQ Hd.
  assert (forall z, z / P = z / (P * Q) * Q + (z mod (P * Q)) / P) as Hz.
  { intros z. rewrite (Z.div_mod z (P * Q)) at 1 by nia.
    replace (P * Q * (z / (P * Q)) + z mod (P * Q)) with (z / (P * Q) * Q * P + z mod (P * Q)) by lia.
    rewrite Z.div_add_l by lia. lia. }
  rewrite (Hz x), (Hz y), Hd. lia.
Qed.

Lemma klevel_multiple i j :
  (i <= j)%nat -> exists q, 0 < q /\ page_size (klevel (Z.of_nat j)) = page_size (klevel (Z.of_nat i)) * q.
Proof.
  intros Hij. exists (2 ^ (Z.of_nat (j - i) * 9)). split; [lia|].
  rewrite !klevel_page_size, <- Z.pow_add_r by lia. f_equal. lia.
Qed.

Lemma klevel_pos j : 0 < page_size (klevel (Z.of_nat j)).
Proof. rewrite klevel_page_size. lia. Qed.

Lemma same_entry_above i j x y :
  (i <= j)%nat -> x / page_size (klevel (Z.of_nat i)) = y / page_size (klevel (Z.of_nat i)) ->
  x / page_size (klevel (Z.of_nat j)) = y / page_size (klevel (Z.of_nat j)).
Proof.
  intros Hij Hx. destruct (klevel_multiple i j Hij) as (q & Hq & ->). pose proof (klevel_pos i).
  by rewrite <- !Z.div_div, Hx by lia.
Qed.

Lemma same_entry_below i j x y :
  (i <= j)%nat -> x / page_size (klevel (Z.of_nat j)) = y / page_size (klevel (Z.of_nat j)) ->
  (x mod page_size (klevel (Z.of_nat j)) / page_size (klevel (Z.of_nat i))
   = y mod page_size (klevel (Z.of_nat j)) / page_size (klevel (Z.of_nat i))
   <-> x / page_size (klevel (Z.of_nat i)) = y / page_size (klevel (Z.of_nat i))).
Proof.
  intros Hij. destruct (klevel_multiple i j Hij) as (q & Hq & ->). apply div_split; [apply klevel_pos|done].
Qed.

Lemma kspan_child n : page_size (klevel (Z.of_nat (S n))) = span (klevels (S n)).
Proof. rewrite klevel_span, !klevel_page_size. change 512 with (2 ^ 9). rewrite <- Z.pow_add_r by lia. f_equal. lia. Qed.

(** A round in the table below an entry is a round in the table of the entry. *)
Lemma round_up n b R virt phys remaining_bytes flags f k :
  let i := virt mod span (klevels (S (S n))) / page_size (klevel (Z.of_nat (S n))) in
  let child := pte_address (ent pm (mem k) b i) in
  (n < 2)%nat -> Inv pm (klevels (S (S n))) b R (km_world k) -> is_table (ent pm (mem k) b i) = true ->
  exists Rc, Inv pm (klevels (S n)) child Rc (km_world k)
  /\ forall r k', round_ok (S n) child Rc virt phys remaining_bytes flags f k r k' ->
       round_ok (S (S n)) b R virt phys remaining_bytes flags f k r k'.
Proof.
  intros i child Hn HI Ht. set (P := page_size (klevel (Z.of_nat (S n)))) in *.
  set (o0 := virt mod span (klevels (S (S n)))) in *.
  assert (0 <= o0 < span (klevels (S (S n)))) as Ho0 by (apply Z.mod_pos_bound, kspan_pos).
  destruct (Inv_down n b R _ i Hn HI (klevel_index _ _ Ho0) Ht) as (Rc & HRc & HIc & Hclose).
  exists Rc. split; [done|]. intros r k' [HI' HK Hroot Has Hres]. destruct (Hclose _ HI' HK) as (HIp & He & Hobs).
  assert (forall o, 0 <= o mod P < span (klevels (S n))) as Hmod.
  { intros o. rewrite <- kspan_child. apply Z.mod_pos_bound, klevel_pos. }
  assert (forall o, o / P = i -> lk pm (klevels (S (S n))) (mem k') b o = lk pm (klevels (S n)) (mem k') child (o mod P)) as Hin.
  { intros o Ho. rewrite (lk_table (S n) b i o _ Ho) by (by rewrite He). by rewrite He. }
  rewrite <- (kmod_child n virt Hn) in Hres. fold o0 P in Hres.
  constructor; [done|by eapply keeps_mono|done|done|]. cbv zeta. fold o0.
  destruct r as [[size f']|f'].
  - destruct Hres as (j & Hj & Hfit & Hsz & Hext & Hlk & Hkept). exists j. split_and!; [lia|done..| |].
    + intros o Ho Hs. pose proof (same_entry_above j (S n) _ _ ltac:(lia) Hs) as HP. fold P in HP. fold i in HP.
      rewrite Hin by done. apply Hlk; [done|]. by apply (same_entry_below j (S n)); [lia|..].
    + intros j' o Hj' Ho Hne0 Hne. destruct (decide (o / P = i)) as [HP|HP]; [|by apply Hobs].
      destruct (decide (j' = S n)) as [->|]; [done|].
      replace (S (S n) - 1 - j')%nat with (S (S n - 1 - j')) by lia.
      rewrite (obs_table _ (S n) b i o (mem k) HP Ht).
      rewrite (obs_table _ (S n) b i o (mem k') HP) by (by rewrite He). rewrite He.
      apply Hkept; [lia|done|..]; intros Hs; [apply Hne0|apply Hne].
      { by apply (same_entry_below j (S n) o o0 ltac:(lia) HP). }
      { by apply (same_entry_below j' (S n) o o0 ltac:(lia) HP). }
  - destruct Hres as (-> & Hno & Hres). split_and!; [done..|].
    intros o Ho. destruct (decide (o / P = i)) as [HP|HP].
    + rewrite Hin, (lk_table (S n) b i o (mem k)) by done. by apply Hres.
    + rewrite <- !(obs_lk pm 0). by rewrite Hobs.
Qed.

(** What is left to map, and how. *)
Record request_ok (virt phys remaining_bytes flags : Z) : Prop := {
  rq_virt : 0 <= virt /\ virt mod 4096 = 0 /\ virt + remaining_bytes < USIZE_MOD;
  rq_phys : 0 <= phys /\ phys mod 4096 = 0 /\ phys + remaining_bytes <= 2 ^ 56;
  rq_len : 4096 <= remaining_bytes;
  rq_flags : 0 <= flags < 256 /\ kpte_is_leaf flags = true;
}.

Lemma fits_page virt phys remaining_bytes flags :
  request_ok virt phys remaining_bytes flags -> fits 0 virt phys remaining_bytes = true.
Proof.
  intros [(_ & Hv & _) (_ & Hp & _) Hl _]. unfold fits. rewrite klevel_page_size.
  change (2 ^ (12 + Z.of_nat 0 * 9)) with 4096. lia.
Qed.

(** The entry of a leaf. *)
Lemma leaf_entry phys flags :
  0 <= phys < 2 ^ 56 -> phys mod 4096 = 0 -> 0 <= flags < 256 -> kpte_is_leaf flags = true ->
  let e := replace_address_and_flags phys (Z.lor K_VALID flags) in
  is_usize e /\ is_table e = false /\ is_leaf e = true /\ pte_address e = phys /\ tidy e = true
  /\ kpte_address e = phys /\ kpte_flags e = Z.lor K_VALID flags.
Proof.
  intros Hp Hm Hf Hl e.
  assert (0 <= Z.lor K_VALID flags < 256) as Hb.
  { split; [apply Z.lor_nonneg; split; [done|lia]|].
    destruct (decide (flags = 0)) as [->|]; [done|]. change 256 with (2 ^ 8).
    apply Z.log2_lt_cancel. rewrite Z.log2_lor by (done || lia). rewrite Z.log2_pow2 by lia.
    assert (Z.log2 flags < 8) by (apply Z.log2_lt_pow2; lia). unfold K_VALID. simpl (Z.log2 1). lia. }
  destruct (entry_written phys _ Hp Hm Hb) as (Hu & Ht & Ha & Hfl & Hv & Hle). fold e in Hu, Ht, Ha, Hfl, Hv, Hle.
  assert (kpte_is_valid e = true) as Hval.
  { rewrite Hv. unfold kpte_is_valid, contains. rewrite Z.land_comm, Z.land_lor_distr_r, Z.land_diag.
    apply Z.eqb_eq, Z.bits_inj'. intros n Hn. rewrite Z.lor_spec, Z.land_spec. by destruct (Z.testbit K_VALID n). }
  assert (kpte_is_leaf e = true) as Hleaf.
  { rewrite Hle. unfold kpte_is_leaf in *. rewrite Z.land_lor_distr_l. by change (Z.land K_VALID K_RWX) with 0. }
  split_and!; try done; [simpl; by rewrite Hval, Hleaf|simpl; by rewrite Hval, Hleaf|].
  by rewrite kpte_address_tidy by (done || apply Hu).
Qed.

Lemma write_pte_Done n b k i e :
  (n < 3)%nat -> mem_ok pm (mem k) -> frame_ok fa_memory b -> 0 <= i < 512 ->
  write_pte (pv pm b) i e k
  = Done (tt, MkKMachine (set_mem (<[pv pm (b + i * PTE_SIZE) := e]> (mem k)) (km_world k)) (km_space k)).
Proof.
  intros Hn Hm Hf Hi. pose proof (klevels_wf (S n) ltac:(lia)) as Hwf.
  destruct (index_in_frame_wf _ _ i Hwf Hi) as [Hi0 Hi1].
  unfold write_pte, in_world. rewrite pv_index. by rewrite (arch_write_pv pm Hpo).
Qed.

Lemma get_kspace_Done k : get_kspace k = Done (km_space k, k).
Proof. done. Qed.

Lemma set_wired_Done frames k :
  set_wired frames k = Done (tt, MkKMachine (km_world k) (MkKAspace (root_pgtable (km_space k)) frames (k_asid (km_space k)))).
Proof. done. Qed.

Lemma or_flush_Done {A} f (m : M (KMachine F) (result unit A)) k r k' :
  m k = Done (r, k') -> or_flush f m k = Done (match r with Ok a => Ok a | Err _ => Err f end, k').
Proof. intros Hm. unfold or_flush. by step_by Hm. Qed.

Lemma record_Done r f f' k : extend_range (k_asid (km_space k)) r f = Ok f' -> record r f k = Done (Ok f', k).
Proof. intros Hf. unfold record. step_by (get_kspace_Done k). by rewrite Hf. Qed.

Lemma extend_same f asid r : kf_asid f = asid -> exists f', extend_range asid r f = Ok f'.
Proof. intros Hf. unfold extend_range. rewrite (proj2 (Z.eqb_eq _ _) Hf). by eexists. Qed.

(** Writing a leaf of level [n] into a vacant entry. *)
Lemma write_leaf n b R k virt phys remaining_bytes flags f :
  (n < 3)%nat -> Inv pm (klevels (S n)) b R (km_world k) -> request_ok virt phys remaining_bytes flags ->
  kf_asid f = k_asid (km_space k) ->
  fits n virt phys remaining_bytes = true -> room (S n) (mem k) b virt phys remaining_bytes ->
  let i := virt mod span (klevels (S n)) / page_size (klevel (Z.of_nat n)) in
  let page_size := page_size (klevel (Z.of_nat n)) in
  exists k' f', write_pte (pv pm b) i (replace_address_and_flags phys (Z.lor K_VALID flags)) k = Done (tt, k')
  /\ addr_add virt page_size = Done (virt + page_size)
  /\ record (Range virt (virt + page_size)) f k' = Done (Ok f', k')
  /\ round_ok (S n) b R virt phys remaining_bytes flags f k (Ok (Some page_size, f')) k'.
Proof.
  intros Hn HI [Hv Hp Hlen [Hfl Hleaf]] Hf Hfit Hroom i P. pose proof (klevels_wf (S n) ltac:(lia)) as Hwf.
  set (o0 := virt mod span (klevels (S n))) in *.
  assert (0 <= o0 < span (klevels (S n))) as Ho0 by (apply Z.mod_pos_bound, kspan_pos).
  pose proof (klevel_index n o0 Ho0) as Hi.
  pose proof (Hroom n ltac:(lia) Hfit) as Hvac. replace (S n - 1 - n)%nat with 0%nat in Hvac by lia.
  destruct (obs_Vac_entry pm Hpo _ _ b (km_world k) R o0 Hwf HI Ho0 Hvac) as [Ht _]. fold i in Ht.
  unfold fits in Hfit. fold P in Hfit. apply andb_true_iff in Hfit as [Hfit HP%Z.leb_le].
  apply andb_true_iff in Hfit as [HPv%Z.eqb_eq HPp%Z.eqb_eq].
  destruct (leaf_entry phys flags ltac:(lia) ltac:(lia) Hfl Hleaf) as (Hu & Het & Hel & Hea & Hti & _).
  set (e := replace_address_and_flags phys (Z.lor K_VALID flags)) in *.
  assert (leaf_ok (klevel (Z.of_nat n)) e) as Hok.
  { intros _. rewrite Hea. split; [done|]. exists some_access. simpl. by rewrite Hti. }
  destruct (Inv_set_entry pm _ _ b R (km_world k) i e Hwf HI Hi Ht Hu Het Hok) as (HI' & HK & He & Hobs).
  destruct (extend_same f _ (Range virt (virt + P)) Hf) as [f' Hf'].
  exists (MkKMachine (set_mem (<[pv pm (b + i * PTE_SIZE) := e]> (mem k)) (km_world k)) (km_space k)), f'.
  split; [apply (write_pte_Done n); [done|apply HI|by eapply Inv_frame|done]|].
  pose proof (klevel_pos n) as HPpos. fold P in HPpos.
  split. { unfold addr_add, u_add, checked. replace (_ && _) with true by lia. done. }
  split; [by apply record_Done|].
  constructor; [done..|]. cbv zeta. exists n. split_and!; [lia|by unfold fits; fold P; lia|done|done|..].
  - intros o Ho Hs. cbn [km_world]. rewrite (lk_entry n b i o _ Hs) by (by rewrite He). by rewrite He, Hel.
  - intros j o Hj Ho Hne _. by apply Hobs.
Qed.

(** A table has been linked into entry [i]: it changes nothing that is mapped. *)
Record linked (n : nat) (b : Z) (R : gset Z) (i : Z) (k k' : KMachine F) : Prop := {
  ln_inv : Inv pm (klevels (S (S n))) b R (km_world k');
  ln_keeps : keeps pm R (km_world k) (km_world k');
  ln_root : root_pgtable (km_space k') = root_pgtable (km_space k);
  ln_asid : k_asid (km_space k') = k_asid (km_space k);
  ln_other : forall j o, 0 <= o < span (klevels (S (S n))) -> o / page_size (klevel (Z.of_nat (S n))) <> i ->
    obs pm j (klevels (S (S n))) (mem k') b o = obs pm j (klevels (S (S n))) (mem k) b o;
  ln_below : forall j o, 0 <= o < span (klevels (S (S n))) ->
    obs pm (S j) (klevels (S (S n))) (mem k') b o = obs pm (S j) (klevels (S (S n))) (mem k) b o;
}.

Lemma linked_room n b R i k k' virt phys remaining_bytes :
  linked n b R i k k' -> fits (S n) virt phys remaining_bytes = false ->
  room (S (S n)) (mem k) b virt phys remaining_bytes -> room (S (S n)) (mem k') b virt phys remaining_bytes.
Proof.
  intros HL Hfit Hroom j Hj Hf. specialize (Hroom j Hj Hf).
  destruct (decide (j = S n)) as [->|]; [by rewrite Hfit in Hf|].
  replace (S (S n) - 1 - j)%nat with (S (n - j)) in * by lia.
  rewrite (ln_below _ _ _ _ _ _ HL); [done|]. apply Z.mod_pos_bound, kspan_pos.
Qed.

Lemma round_after n b R i k k1 virt phys remaining_bytes flags f r k' :
  i = virt mod span (klevels (S (S n))) / page_size (klevel (Z.of_nat (S n))) ->
  linked n b R i k k1 -> round_ok (S (S n)) b R virt phys remaining_bytes flags f k1 r k' ->
  round_ok (S (S n)) b R virt phys remaining_bytes flags f k r k'.
Proof.
  intros Hi HL [HI HK Hroot Has Hres]. destruct HL as [_ HLk HLr HLa HLo HLb].
  constructor; [done|by eapply keeps_trans|congruence|congruence|]. cbv zeta in *. rewrite HLa in Hres.
  destruct r as [[size f']|f'].
  - destruct Hres as (j & Hj & Hfit & Hsz & Hext & Hlk & Hkept). exists j. split_and!; try done.
    intros j' o Hj' Ho Hne0 Hne. rewrite Hkept by done.
    destruct (decide (j' = S n)) as [->|]; [apply HLo; [done|by rewrite Hi]|].
    replace (S (S n) - 1 - j')%nat with (S (n - j')) by lia. by apply HLb.
  - destruct Hres as (-> & Hno & Hres). split_and!; [done..|].
    intros o Ho. rewrite Hres by done. rewrite <- !(obs_lk pm 1). by rewrite HLb.
Qed.

(** A fresh table for a vacant entry. *)
Lemma link_table n b R k i :
  (n < 2)%nat -> Inv pm (klevels (S (S n))) b R (km_world k) -> 0 <= i < 512 ->
  is_table (ent pm (mem k) b i) = false -> is_leaf (ent pm (mem k) b i) = false ->
  exists r k1, in_world (alloc_table pm) k = Done (r, k1) /\ km_space k1 = km_space k
  /\ match r with
     | Err _ => Inv pm (klevels (S (S n))) b R (km_world k1) /\ keeps pm R (km_world k) (km_world k1) /\ mem k1 = mem k
         /\ no_table_frame (km_world k1)
     | Ok p => exists k2, write_pte (pv pm b) i (replace_address_and_flags p K_VALID) k1 = Done (tt, k2)
         /\ linked n b R i k k2 /\ km_space k2 = km_space k /\ pgtable_ptr_from_phys pm p = Done (pv pm p)
         /\ is_table (ent pm (mem k2) b i) = true /\ pte_address (ent pm (mem k2) b i) = p
     end.
Proof.
  intros Hn HI Hi Ht Hl. pose proof (klevels_wf (S (S n)) ltac:(lia)) as Hwf.
  pose proof HI as (Hm & S & HS & HSR & Hal).
  destruct (alloc_table_spec (km_world k) _ Hm Hal) as (r & w1 & Hw1 & Hh & Hr).
  exists r, (MkKMachine w1 (km_space k)). split; [unfold in_world; by rewrite Hw1|]. split; [done|].
  cbn [km_world]. destruct r as [p|[]].
  - destruct Hr as (Hfresh & Hfp & Hm1 & Hz & Hsame).
    assert (0 <= p < 2 ^ 56 /\ p mod 4096 = 0) as [Hp0 Hp1].
    { destruct Hfp as (Hp & Hps & Hpe), Hpo as [Hpm Hst _ Hlim _]. pose proof (pm_phys_start _ Hpm).
      change GRANULE_SIZE with 4096 in *. change PHYS_LIMIT with (2 ^ 56) in *. split; [lia|done]. }
    destruct (entry_written p K_VALID Hp0 Hp1 ltac:(done)) as (Hu & Hti & Ha & _ & Hva & Hle).
    assert (is_table (replace_address_and_flags p K_VALID) = true) as Het by (simpl; by rewrite Hva, Hle, Hti).
    destruct (Inv_new_table pm _ _ _ b R (km_world k) w1 i _ p Hwf HI Hi Ht Hl Hfresh Hh Hm1 Hfp Hz Hsame Hu Het Ha)
      as (HI' & HK & He & Ho & Hb).
    eexists. split; [apply (write_pte_Done n); [lia|done|by eapply Inv_frame|done]|].
    split; [by constructor|]. split; [done|]. split; [by apply pgtable_ptr_pv|]. cbn [km_world]. by rewrite He.
  - destruct Hr as [Hmem Hall]. split; [|split; [|split; [done|by exists (km_world k), (S ∪ R)]]].
    + split; [by rewrite Hmem|]. exists S. rewrite Hmem. auto.
    + split; [done|]. rewrite Hmem. split; [apply agree_refl|done].
Qed.

Lemma room_child n m b virt phys remaining_bytes :
  let i := virt mod span (klevels (S (S n))) / page_size (klevel (Z.of_nat (S n))) in
  (n < 2)%nat -> is_table (ent pm m b i) = true -> room (S (S n)) m b virt phys remaining_bytes ->
  room (S n) m (pte_address (ent pm m b i)) virt phys remaining_bytes.
Proof.
  intros i Hn Ht Hroom j Hj Hf. pose proof (Hroom j ltac:(lia) Hf) as Hvac.
  replace (S (S n) - 1 - j)%nat with (S (S n - 1 - j)) in Hvac by lia.
  by rewrite (obs_table _ (S n) b i _ m eq_refl Ht), kmod_child in Hvac by lia.
Qed.

(** Where there is room for the page but a table is needed, the entry is free. *)
Lemma room_entry n m b virt phys remaining_bytes flags :
  let i := virt mod span (klevels (S n)) / page_size (klevel (Z.of_nat n)) in
  request_ok virt phys remaining_bytes flags -> room (S n) m b virt phys remaining_bytes ->
  is_table (ent pm m b i) = false -> is_leaf (ent pm m b i) = false.
Proof.
  intros i Hrq Hroom Ht. pose proof (Hroom 0%nat ltac:(lia) (fits_page _ _ _ _ Hrq)) as Hvac.
  apply (f_equal status_leaf) in Hvac. rewrite obs_lk, (lk_entry n b i _ m eq_refl Ht) in Hvac.
  by destruct (is_leaf (ent pm m b i)).
Qed.

Lemma map_descend_ok n b R k virt phys remaining_bytes flags f :
  (n < 3)%nat -> Inv pm (klevels (S n)) b R (km_world k) -> request_ok virt phys remaining_bytes flags ->
  kf_asid f = k_asid (km_space k) -> room (S n) (mem k) b virt phys remaining_bytes ->
  exists r k', map_descend pm (below (S n)) (pv pm b) virt phys remaining_bytes flags f k = Done (r, k')
  /\ round_ok (S n) b R virt phys remaining_bytes flags f k r k'.
Proof.
  revert b R k. induction n as [n IH] using lt_wf_ind. intros b R k Hn HI Hrq Hf Hroom.
  assert (0 <= virt mod span (klevels (S n)) < span (klevels (S n))) as Ho by (apply Z.mod_pos_bound, kspan_pos).
  pose proof (klevel_index n _ Ho) as Hi. set (i := virt mod span (klevels (S n)) / page_size (klevel (Z.of_nat n))) in *.
  destruct (Inv_read n b R k _ Hn HI Hi) as (Hr & _ & _ & Hl & Ht & Ha & Htn).
  change (below (S n)) with (Z.of_nat n :: below n). cbn [map_descend].
  step_by (pte_index_for_level_Done n virt Hn ltac:(destruct Hrq; lia)). fold i. step_by Hr.
  step_by (can_map_at_level_Done n virt phys remaining_bytes Hn).
  destruct (fits n virt phys remaining_bytes) eqn:Hfit.
  { step_by (page_size_for_level_Done n Hn).
    destruct (write_leaf n b R k virt phys remaining_bytes flags f Hn HI Hrq Hf Hfit Hroom)
      as (k' & f' & Hw & Hadd & Hrec & Hok).
    fold i in Hw. step_by Hw. step_by Hadd. step_by Hrec. by eexists _, _. }
  destruct n as [|n]; [by rewrite (fits_page _ _ _ flags) in Hfit|].
  rewrite Ht. set (e := ent pm (mem k) b i) in *. destruct (is_table e) eqn:Et.
  - apply andb_true_iff in Ht as [Hval _]. rewrite Ha by done.
    destruct (round_up n b R virt phys remaining_bytes flags f k ltac:(lia) HI Et) as (Rc & HIc & Hup).
    step_by (pgtable_ptr_pv _ (Inv_frame (S n) _ Rc k HIc)).
    destruct (IH n ltac:(lia) _ Rc k ltac:(lia) HIc Hrq Hf) as (r & k' & Hrun & Hok).
    { by apply room_child; [lia|..]. }
    exists r, k'. split; [exact Hrun|by apply Hup].
  - destruct (link_table n b R k i ltac:(lia) HI Hi Et) as (r & k1 & Hal & Hs1 & Hr1).
    { by eapply room_entry. }
    destruct r as [p|[]].
    + destruct Hr1 as (k2 & Hw & HL & Hs2 & Hptr & Het & Hea). step_by (or_flush_Done f _ _ _ _ Hal). step_by Hw. step_by Hptr.
      step_by (get_kspace_Done k2). step_by (set_wired_Done _ k2). set (k3 := MkKMachine _ _).
      assert (linked n b R i k k3) as HL3 by (destruct HL; by constructor).
      destruct (round_up n b R virt phys remaining_bytes flags f k3 ltac:(lia) (ln_inv _ _ _ _ _ _ HL) Het) as (Rc & HIc & Hup).
      destruct (IH n ltac:(lia) _ Rc k3 ltac:(lia) HIc Hrq) as (r & k' & Hrun & Hok).
      { by rewrite Hf, (ln_asid _ _ _ _ _ _ HL3). }
      { apply room_child; [lia|done|]. by eapply linked_room. }
      exists r, k'. fold i in Hrun. cbn [km_world k3] in Hrun. rewrite Hea in Hrun.
      split; [exact Hrun|]. eapply round_after; [done|exact HL3|by apply Hup].
    + destruct Hr1 as (HI1 & HK1 & Hm1 & Hno). erewrite try_bind_Err by exact (or_flush_Done f _ _ _ _ Hal). eexists _, k1. split; [done|].
      constructor; [done|done|by rewrite Hs1|by rewrite Hs1|]. split_and!; [done..|]. intros o Ho'. by rewrite Hm1.
Qed.

(** ** Address spaces *)

Definition root (k : KMachine F) : Z := root_pgtable (km_space k).

(** The tables of the address space are well formed, [R] are the other frames. *)
Definition kspace_ok (R : gset Z) (k : KMachine F) : Prop := Inv pm LEVELS (root k) R (km_world k).

Abbreviation SPAN := (span LEVELS).

(** What an address is translated to: a physical address and the flags. *)
Definition translation (k : KMachine F) (va : Z) : option (Z * Z) :=
  (fun x => (kpte_address x.1 + va mod page_size x.2, kpte_flags x.1)) <$> lk pm LEVELS (mem k) (root k) (va mod SPAN).

(** There is neither a leaf nor a table where a page of the mapping may go. *)
Definition range_free (k : KMachine F) (virt phys len : Z) : Prop :=
  forall j va, (j < 3)%nat -> let page_size := page_size (klevel (Z.of_nat j)) in
  virt <= va -> va + page_size <= virt + len -> va mod page_size = 0 -> (phys + (va - virt)) mod page_size = 0 ->
  obs pm (2 - j) LEVELS (mem k) (root k) (va mod SPAN) = Vac.

(** The translation of the addresses [virt..mid) has changed by [T], and no
    other has. *)
Record changed_to (R : gset Z) (T : Z -> option (Z * Z) -> option (Z * Z)) (virt mid : Z) (k k' : KMachine F) : Prop := {
  ct_ok : kspace_ok R k';
  ct_keeps : keeps pm R (km_world k) (km_world k');
  ct_root : root k' = root k;
  ct_asid : k_asid (km_space k') = k_asid (km_space k);
  ct_changed : forall va, virt <= va < mid -> translation k' va = T va (translation k va);
  ct_other : forall va, ~ (virt mod SPAN <= va mod SPAN < virt mod SPAN + (mid - virt)) ->
    translation k' va = translation k va;
}.

(** Addresses are translated to the physical addresses [offset] above them. *)
Definition to_phys (offset flags : Z) (va : Z) (_ : option (Z * Z)) : option (Z * Z) :=
  Some (va + offset, Z.lor K_VALID flags).

(** [virt..mid) is mapped to physical memory from [phys] on. *)
Definition mapped_to (R : gset Z) (virt phys flags mid : Z) : KMachine F -> KMachine F -> Prop :=
  changed_to R (to_phys (phys - virt) flags) virt mid.

Definition kflush_covers (f : KFlush) (va : Z) : Prop :=
  match kf_range f with Some r => r_start r <= va < r_end r | None => False end.

Lemma extend_covers asid r f f' va :
  extend_range asid r f = Ok f' ->
  kf_asid f' = asid /\ (r_start r <= va < r_end r \/ kflush_covers f va -> kflush_covers f' va).
Proof.
  unfold extend_range, kflush_covers. destruct (kf_asid f =? asid); [|done]. intros [= <-]. split; [done|].
  cbn [kf_range]. destruct (kf_range f) as [[s e]|]; simpl; lia.
Qed.

(** What [virt..mid) needs is invalidated, and what was recorded before. *)
Definition records (virt mid : Z) (f f' : KFlush) : Prop :=
  kf_asid f' = kf_asid f /\ forall va, virt <= va < mid \/ kflush_covers f va -> kflush_covers f' va.

Lemma records_refl virt f : records virt virt f f.
Proof. split; [done|]. intros va [?|?]; [lia|done]. Qed.

Lemma records_page virt next mid f f1 f' :
  extend_range (kf_asid f) (Range virt next) f = Ok f1 -> records next mid f1 f' -> records virt mid f f'.
Proof.
  intros Hext [Has Hcov]. destruct (extend_covers _ _ _ _ 0 Hext) as [Hf1 _]. split; [congruence|]. intros va Hva. apply Hcov.
  destruct (decide (next <= va < mid)); [by left|right].
  apply (extend_covers _ _ _ _ va Hext). cbn [r_start r_end]. destruct Hva; [left; lia|by right].
Qed.

Lemma changed_to_refl R T virt k : kspace_ok R k -> changed_to R T virt virt k k.
Proof. intros HI. constructor; [done|apply keeps_refl|done|done|lia|done]. Qed.

Lemma changed_to_trans R T virt mid mid' k k1 k' :
  virt <= mid <= mid' -> virt mod SPAN + (mid' - virt) <= SPAN ->
  changed_to R T virt mid k k1 -> changed_to R T mid mid' k1 k' -> changed_to R T virt mid' k k'.
Proof.
  intros Hmid Hfit [HI HK Hr Ha Hm Ho] [HI' HK' Hr' Ha' Hm' Ho'].
  assert (forall va, virt <= va -> va - virt < SPAN - virt mod SPAN -> va mod SPAN = virt mod SPAN + (va - virt)) as Hmod.
  { intros va Hv Hs. apply mod_add_small; [apply (kspan_pos 2)|lia|lia]. }
  constructor; [done|by eapply keeps_trans|congruence|congruence|..].
  - intros va Hva. destruct (decide (va < mid)).
    + rewrite Ho'; [by apply Hm; lia|]. rewrite (Hmod va) by lia. destruct (decide (mid < mid')); [rewrite (Hmod mid) by lia|]; lia.
    + rewrite Hm' by lia. f_equal. apply Ho. rewrite (Hmod va) by lia. lia.
  - intros va Hva. rewrite Ho'; [apply Ho; lia|].
    destruct (decide (mid < mid')); [rewrite (Hmod mid) by lia|]; lia.
Qed.

(** The page of level [j] at an aligned address, by offsets. *)
Lemma page_offsets j virt va :
  (j < 3)%nat -> let P := page_size (klevel (Z.of_nat j)) in
  virt mod P = 0 ->
  (va mod SPAN / P = virt mod SPAN / P <-> virt mod SPAN <= va mod SPAN < virt mod SPAN + P)
  /\ (va mod SPAN) mod P = va mod P /\ virt mod SPAN + P <= SPAN.
Proof.
  intros Hj P Hv. pose proof (klevel_pos j) as HP. fold P in HP.
  destruct (klevel_multiple j 3 ltac:(lia)) as (q & Hq & HS). fold P in HS.
  change (page_size (klevel (Z.of_nat 3))) with SPAN in HS.
  assert (forall x, (x mod SPAN) mod P = x mod P) as Hm.
  { intros x. rewrite HS. apply Z.mod_mod_divide. exists q. lia. }
  pose proof (Hm virt) as Hv'. rewrite Hv in Hv'. pose proof (Z.mod_pos_bound virt SPAN (kspan_pos 2)) as Hb.
  set (o := va mod SPAN). set (o0 := virt mod SPAN) in *.
  pose proof (Z.div_mod o0 P ltac:(lia)). pose proof (Z.div_mod o P ltac:(lia)). pose proof (Z.mod_pos_bound o P HP).
  split; [|split; [apply Hm|]].
  2: { rewrite HS in Hb |- *. assert (o0 / P < q) by (apply Z.div_lt_upper_bound; lia). nia. }
  split; [nia|]. intros Ho. symmetry. apply (Z.div_unique _ _ _ (o - o0)); lia.
Qed.

Lemma round_mapped R k virt phys remaining_bytes flags f page_size f' k' :
  request_ok virt phys remaining_bytes flags ->
  round_ok 3 (root k) R virt phys remaining_bytes flags f k (Ok (Some page_size, f')) k' ->
  4096 <= page_size <= remaining_bytes /\ page_size mod 4096 = 0
  /\ extend_range (k_asid (km_space k)) (Range virt (virt + page_size)) f = Ok f'
  /\ mapped_to R virt phys flags (virt + page_size) k k'
  /\ (virt mod SPAN + remaining_bytes <= SPAN -> range_free k virt phys remaining_bytes ->
      range_free k' (virt + page_size) (phys + page_size) (remaining_bytes - page_size)).
Proof.
  intros [Hv Hp Hlen [Hfl Hleaf]] [HI HK Hroot Has (j & Hj & Hfit & [= ->] & Hext & Hlk & Hkept)].
  set (P := Arch.page_size (klevel (Z.of_nat j))) in *.
  unfold fits in Hfit. fold P in Hfit. apply andb_true_iff in Hfit as [Hfit HP%Z.leb_le].
  apply andb_true_iff in Hfit as [HPv%Z.eqb_eq HPp%Z.eqb_eq].
  assert (4096 <= P /\ P mod 4096 = 0) as [HP1 HP2].
  { unfold P. do 3 (destruct j as [|j]; [by vm_compute|]). lia. }
  destruct (leaf_entry phys flags ltac:(lia) ltac:(lia) Hfl Hleaf) as (_ & _ & _ & _ & _ & Hka & Hkf).
  split; [lia|]. split; [done|]. split; [done|]. split.
  - constructor; [by unfold kspace_ok, root; rewrite Hroot|done|done|done|..].
    + intros va Hva. destruct (page_offsets j virt va Hj HPv) as (Hin & _ & Hend). fold P in Hin, Hend.
      assert (va mod SPAN = virt mod SPAN + (va - virt)) as Hva' by (apply mod_add_small; [apply (kspan_pos 2)|lia..]).
      unfold translation, root. rewrite Hroot. rewrite (Hlk (va mod SPAN)).
      * cbn [fmap option_fmap option_map fst snd]. fold P. rewrite Hka, Hkf.
        rewrite (mod_add_small P virt va) by lia. rewrite HPv. unfold to_phys. do 2 f_equal. lia.
      * apply Z.mod_pos_bound, (kspan_pos 2).
      * apply Hin. lia.
    + intros va Hva. destruct (page_offsets j virt va Hj HPv) as (Hin & _). fold P in Hin.
      unfold translation, root. rewrite Hroot. rewrite <- !(obs_lk pm (2 - j)).
      rewrite Hkept; [done|done|apply Z.mod_pos_bound, (kspan_pos 2)|..]; intros Heq; apply Hin in Heq; lia.
  - intros Hfits Hfree i va Hi Q Hge Hle Hal Hph. unfold root. rewrite Hroot.
    assert (va mod SPAN = virt mod SPAN + (va - virt)) as Hva' by (apply mod_add_small; [apply (kspan_pos 2)|..]; pose proof (klevel_pos i); lia).
    rewrite (Hkept i).
    + apply Hfree; try done; [lia|lia|]. by replace (phys + (va - virt)) with (phys + P + (va - (virt + P))) by lia.
    + done.
    + apply Z.mod_pos_bound, (kspan_pos 2).
    + destruct (page_offsets j virt va Hj HPv) as (Hin & _). fold P in Hin. intros Heq. apply Hin in Heq. lia.
    + destruct (page_offsets i va virt Hi Hal) as (Hin & _). intros Heq. symmetry in Heq. apply Hin in Heq. lia.
Qed.

Lemma round_failed R k virt phys remaining_bytes flags f e k' :
  round_ok 3 (root k) R virt phys remaining_bytes flags f k (Err e) k' ->
  mapped_to R virt phys flags virt k k' /\ e = f /\ no_table_frame (km_world k').
Proof.
  intros [HI HK Hroot Has (-> & Hno & Hres)]. split; [|done]. constructor; [by unfold kspace_ok, root; rewrite Hroot|done|done|done|lia|].
  intros va _. unfold translation, root. rewrite Hroot.
  f_equal. apply (Hres (va mod SPAN)), Z.mod_pos_bound, (kspan_pos 2).
Qed.

Lemma range_room k virt phys remaining_bytes :
  range_free k virt phys remaining_bytes -> room 3 (mem k) (root k) virt phys remaining_bytes.
Proof.
  intros Hfree j Hj Hfit. unfold fits in Hfit. apply andb_true_iff in Hfit as [Hfit HP%Z.leb_le].
  apply andb_true_iff in Hfit as [HPv%Z.eqb_eq HPp%Z.eqb_eq].
  replace (3 - 1 - j)%nat with (2 - j)%nat by lia. apply Hfree; [done|lia|lia|done|]. by rewrite Z.sub_diag, Z.add_0_r.
Qed.

Lemma request_rest virt phys remaining_bytes flags page_size :
  request_ok virt phys remaining_bytes flags -> 4096 <= page_size <= remaining_bytes -> page_size mod 4096 = 0 ->
  remaining_bytes mod 4096 = 0 ->
  (remaining_bytes - page_size) mod 4096 = 0
  /\ (remaining_bytes - page_size = 0
      \/ request_ok (virt + page_size) (phys + page_size) (remaining_bytes - page_size) flags).
Proof.
  intros [Hv Hp Hlen Hfl] Hps Hpm Hrm.
  assert (forall a, a mod 4096 = 0 -> (a + page_size) mod 4096 = 0) as Hadd.
  { intros a Ha. rewrite Z.add_mod, Ha, Hpm by lia. done. }
  assert ((remaining_bytes - page_size) mod 4096 = 0) as Hrest by (rewrite Zminus_mod, Hrm, Hpm; done).
  split; [done|]. destruct (decide (remaining_bytes = page_size)); [left; lia|right].
  constructor; [split_and!; [lia|apply Hadd, Hv|lia]|split_and!; [lia|apply Hadd, Hp|lia]| |done].
  apply Znumtheory.Zmod_divide in Hrest as [c Hc]; [|lia]. lia.
Qed.

(** Enough rounds map the whole range, or a table is missing after some pages. *)
Lemma map_loop_ok R flags fuel virt phys remaining_bytes f k :
  remaining_bytes = 0 \/ request_ok virt phys remaining_bytes flags ->
  remaining_bytes mod 4096 = 0 -> remaining_bytes <= 4096 * Z.of_nat fuel ->
  kspace_ok R k -> kf_asid f = k_asid (km_space k) ->
  virt mod SPAN + remaining_bytes <= SPAN -> range_free k virt phys remaining_bytes ->
  exists r k', map_loop pm fuel virt phys remaining_bytes flags f k = Done (r, k')
  /\ match r with
     | Ok f' => mapped_to R virt phys flags (virt + remaining_bytes) k k' /\ records virt (virt + remaining_bytes) f f'
     | Err f' => no_table_frame (km_world k') /\ exists mid, virt <= mid < virt + remaining_bytes
         /\ mapped_to R virt phys flags mid k k' /\ records virt mid f f'
     end.
Proof.
  revert virt phys remaining_bytes f k. induction fuel as [|fuel IH]; intros virt phys rem f k Hrq Hal Hfuel HI Hf Hfits Hfree.
  all: destruct Hrq as [->|Hrq]; [exists (Ok f), k; split; [done|]; rewrite Z.add_0_r;
    split; [by apply changed_to_refl|apply records_refl]|].
  { destruct Hrq. lia. }
  cbn [map_loop]. replace (rem <=? 0) with false by (destruct Hrq; lia). step_by (get_kspace_Done k).
  step_by (pgtable_ptr_pv _ (Inv_frame 3 _ R k HI)).
  destruct (map_descend_ok 2 (root k) R k virt phys rem flags f ltac:(lia) HI Hrq Hf (range_room _ _ _ _ Hfree))
    as (r & k1 & Hrun & Hok).
  destruct r as [[size f1]|e]; last first.
  { erewrite try_bind_Err by exact Hrun. eexists _, k1. split; [done|].
    destruct (round_failed _ _ _ _ _ _ _ _ _ Hok) as (Hmap & -> & Hno). split; [done|]. exists virt.
    split_and!; [destruct Hrq; lia|destruct Hrq; lia|done|apply records_refl]. }
  step_by Hrun. pose proof (ro_result _ _ _ _ _ _ _ _ _ _ _ Hok) as (j & _ & _ & -> & _). cbn [fst snd].
  set (P := page_size _) in *.
  destruct (round_mapped R k virt phys rem flags f P f1 k1 Hrq Hok) as (HP & HPm & Hext & Hmap & Hfree').
  destruct (extend_covers _ _ _ _ 0 Hext) as [Hf1 _].
  step_by (u_add_Done virt P ltac:(unfold is_usize; destruct Hrq; lia)). step_by (u_add_Done phys P ltac:(unfold is_usize; destruct Hrq; lia)).
  step_by (u_sub_Done rem P ltac:(unfold is_usize; destruct Hrq; lia)).
  destruct (request_rest _ _ _ _ P Hrq HP HPm Hal) as [Hal' Hrq'].
  assert ((virt + P) mod SPAN + (rem - P) <= SPAN) as Hfits'.
  { destruct (decide (rem = P)); [pose proof (Z.mod_pos_bound (virt + P) SPAN (kspan_pos 2)); lia|].
    rewrite (mod_add_small SPAN virt) by (first [apply (kspan_pos 2)|lia]). lia. }
  destruct (IH (virt + P) (phys + P) (rem - P) f1 k1 Hrq' Hal' ltac:(lia) (ct_ok _ _ _ _ _ _ Hmap)) as (r & k' & Hrun' & Hr).
  { by rewrite Hf1, (ct_asid _ _ _ _ _ _ Hmap). } { done. } { by apply Hfree'. }
  exists r, k'. split; [done|]. unfold mapped_to in *. replace (phys + P - (virt + P)) with (phys - virt) in Hr by lia.
  rewrite <- Hf in Hext. destruct r as [f'|f'].
  - replace (virt + P + (rem - P)) with (virt + rem) in Hr by lia. destruct Hr as [Hmap' Hcov].
    split; [eapply changed_to_trans; [..|done|done]; lia|]. by eapply records_page.
  - destruct Hr as (Hno & mid & Hmid & Hmap' & Hcov). split; [done|]. exists mid. split; [lia|].
    split; [eapply changed_to_trans; [..|done|done]; lia|]. by eapply records_page.
Qed.

(** ** Changing the flags of a page *)

(** The leaf of level [j] at [virt] has been replaced by [e]. *)
Record releafed (n : nat) (b : Z) (R : gset Z) (j : nat) (virt e : Z) (k k' : KMachine F) : Prop := {
  rl_inv : Inv pm (klevels n) b R (km_world k');
  rl_keeps : keeps pm R (km_world k) (km_world k');
  rl_space : km_space k' = km_space k;
  rl_page : forall o, 0 <= o < span (klevels n) ->
    o / page_size (klevel (Z.of_nat j)) = virt mod span (klevels n) / page_size (klevel (Z.of_nat j)) ->
    lk pm (klevels n) (mem k') b o = Some (e, klevel (Z.of_nat j));
  rl_other : forall o, 0 <= o < span (klevels n) ->
    o / page_size (klevel (Z.of_nat j)) <> virt mod span (klevels n) / page_size (klevel (Z.of_nat j)) ->
    lk pm (klevels n) (mem k') b o = lk pm (klevels n) (mem k) b o;
}.

Lemma releafed_up n b R j virt e k :
  let i := virt mod span (klevels (S (S n))) / page_size (klevel (Z.of_nat (S n))) in
  let child := pte_address (ent pm (mem k) b i) in
  (n < 2)%nat -> (j <= n)%nat -> Inv pm (klevels (S (S n))) b R (km_world k) -> is_table (ent pm (mem k) b i) = true ->
  exists Rc, Inv pm (klevels (S n)) child Rc (km_world k)
  /\ forall k', releafed (S n) child Rc j virt e k k' -> releafed (S (S n)) b R j virt e k k'.
Proof.
  intros i child Hn Hj HI Ht. set (P := page_size (klevel (Z.of_nat (S n)))) in *.
  set (o0 := virt mod span (klevels (S (S n)))) in *.
  assert (0 <= o0 < span (klevels (S (S n)))) as Ho0 by (apply Z.mod_pos_bound, kspan_pos).
  destruct (Inv_down n b R _ i Hn HI (klevel_index _ _ Ho0) Ht) as (Rc & HRc & HIc & Hclose).
  exists Rc. split; [done|]. intros k' [HI' HK Hsp Hpage Hother]. destruct (Hclose _ HI' HK) as (HIp & He & Hobs).
  assert (forall o, 0 <= o mod P < span (klevels (S n))) as Hmod.
  { intros o. rewrite <- kspan_child. apply Z.mod_pos_bound, klevel_pos. }
  assert (forall o, o / P = i -> lk pm (klevels (S (S n))) (mem k') b o = lk pm (klevels (S n)) (mem k') child (o mod P)) as Hin.
  { intros o Ho. rewrite (lk_table (S n) b i o _ Ho) by (by rewrite He). by rewrite He. }
  rewrite <- (kmod_child n virt Hn) in Hpage, Hother. fold o0 P in Hpage, Hother.
  constructor; [done|by eapply keeps_mono|done|..]; fold o0.
  - intros o Ho Hs. pose proof (same_entry_above j (S n) _ _ ltac:(lia) Hs) as HP. fold P in HP. fold i in HP.
    rewrite Hin by done. apply Hpage; [done|]. by apply (same_entry_below j (S n)); [lia|..].
  - intros o Ho Hne. destruct (decide (o / P = i)) as [HP|HP].
    + rewrite Hin, (lk_table (S n) b i o (mem k)) by done. apply Hother; [done|].
      intros Hs. apply Hne. by apply (same_entry_below j (S n) o o0 ltac:(lia) HP).
    + rewrite <- !(obs_lk pm 0). by rewrite Hobs.
Qed.

(** The flags of a page after a change of its permissions. *)
Definition changed_flags (old new : Z) : Z := Z.lor (Z.ldiff old K_RWX) (Z.land K_RWX new).

Lemma kpte_is_valid_bit x : kpte_is_valid x = Z.testbit x 0.
Proof.
  unfold kpte_is_valid, contains. change K_VALID with (Z.ones 1). rewrite Z.land_ones by lia. change (2 ^ 1) with 2.
  rewrite Z.bit0_odd, Zmod_odd. by destruct (Z.odd x).
Qed.

(** Read, write and execute are those of [new], the other flags stay. *)
Lemma changed_flags_bits old new i :
  0 <= i -> Z.testbit (changed_flags old new) i = if (1 <=? i) && (i <=? 3) then Z.testbit new i else Z.testbit old i.
Proof.
  intros Hi. unfold changed_flags. rewrite Z.lor_spec, Z.ldiff_spec, Z.land_spec.
  assert (Z.testbit K_RWX i = (1 <=? i) && (i <=? 3)) as ->.
  { destruct (decide (i < 4)); [assert (i = 0 \/ i = 1 \/ i = 2 \/ i = 3) as [->|[->|[->| ->]]] by lia; done|].
    rewrite Z.bits_above_log2 by (change (Z.log2 K_RWX) with 3; done || lia). lia. }
  destruct ((1 <=? i) && (i <=? 3)), (Z.testbit old i), (Z.testbit new i); done.
Qed.

Lemma changed_flags_ok e new :
  kpte_is_valid e = true -> kpte_is_leaf new = true ->
  let fl := changed_flags (kpte_flags e) new in
  0 <= fl < 256 /\ kpte_is_valid fl = true /\ kpte_is_leaf fl = true.
Proof.
  intros Hv Hl fl.
  assert (fl = Z.land fl (Z.ones 8)) as Hb.
  { apply Z.bits_inj'. intros n Hn. unfold fl, changed_flags, kpte_flags. change K_ALL with (Z.ones 8).
    rewrite Z.land_spec, Z.lor_spec, Z.ldiff_spec, !Z.land_spec.
    assert (Z.testbit K_RWX n = Z.testbit K_RWX n && Z.testbit (Z.ones 8) n) as ->.
    { by rewrite <- Z.land_spec. }
    by destruct (Z.testbit (Z.ones 8) n), (Z.testbit e n), (Z.testbit K_RWX n), (Z.testbit new n). }
  split; [rewrite Hb, Z.land_ones by lia; apply Z.mod_pos_bound; lia|]. split.
  - rewrite kpte_is_valid_bit in *. unfold fl, changed_flags, kpte_flags.
    rewrite Z.lor_spec, Z.ldiff_spec, !Z.land_spec, Hv. done.
  - unfold kpte_is_leaf in *. replace (Z.land fl K_RWX) with (Z.land new K_RWX); [done|].
    apply Z.bits_inj'. intros n Hn. unfold fl, changed_flags. rewrite !Z.land_spec, Z.lor_spec, Z.ldiff_spec, Z.land_spec.
    by destruct (Z.testbit K_RWX n), (Z.testbit new n), (Z.testbit (kpte_flags e) n).
Qed.

(** The entry of a page after a change of its permissions. *)
Definition changed_entry (e new : Z) : Z := replace_address_and_flags (kpte_address e) (changed_flags (kpte_flags e) new).

Definition keeps_page (e new : Z) : Prop :=
  kpte_address (changed_entry e new) = kpte_address e
  /\ kpte_flags (changed_entry e new) = changed_flags (kpte_flags e) new.

Lemma changed_entry_ok l e new :
  is_leaf e = true -> kpte_address e = pte_address e -> kpte_is_leaf new = true -> leaf_ok l e ->
  let e' := changed_entry e new in
  is_usize e' /\ is_table e' = false /\ is_leaf e' = true /\ leaf_ok l e' /\ keeps_page e new.
Proof.
  intros Hl Ha Hn Hok e'. assert (kpte_is_valid e = true) as Hv by (simpl in Hl; by apply andb_true_iff in Hl as [-> _]).
  destruct (changed_flags_ok e new Hv Hn) as (Hb & Hfv & Hfl).
  destruct (entry_address_range e) as [Hr Hm].
  destruct (entry_written (kpte_address e) (changed_flags (kpte_flags e) new)) as (Hu & Ht & Hea & Hef & Hev & Hel);
    [by rewrite Ha|by rewrite Ha|done|].
  change (replace_address_and_flags _ _) with e' in *.
  rewrite Hfv in Hev. rewrite Hfl in Hel.
  split; [done|]. split; [simpl; by rewrite Hev, Hel|]. split; [simpl; by rewrite Hev, Hel|]. split.
  { intros _. destruct (Hok Hl) as [Hal _]. simpl. rewrite Hea, Ha, Ht. split; [done|by eexists]. }
  split; [|done]. fold e'. by rewrite (kpte_address_tidy e') by (done || apply Hu).
Qed.

Lemma klevel_inj i j : klevel (Z.of_nat i) = klevel (Z.of_nat j) -> i = j.
Proof. unfold klevel, PAGE_ENTRY_SHIFT. intros [=]. lia. Qed.

(** Replacing the leaf in an entry of a table of level [n]. *)
Lemma update_leaf n b R k virt new :
  (n < 3)%nat -> Inv pm (klevels (S n)) b R (km_world k) -> kpte_is_leaf new = true ->
  let i := virt mod span (klevels (S n)) / page_size (klevel (Z.of_nat n)) in
  let e := ent pm (mem k) b i in
  is_table e = false -> is_leaf e = true ->
  exists k', write_pte (pv pm b) i (changed_entry e new) k = Done (tt, k')
  /\ keeps_page e new /\ releafed (S n) b R n virt (changed_entry e new) k k'.
Proof.
  intros Hn HI Hnew i e Ht Hl. pose proof (klevels_wf (S n) ltac:(lia)) as Hwf.
  assert (0 <= i < 512) as Hi by (apply klevel_index, Z.mod_pos_bound, kspan_pos).
  destruct (Inv_read n b R k _ Hn HI Hi) as (_ & _ & Hf & Hkl & _ & Ha & _). fold e in Hkl, Ha.
  assert (leaf_ok (klevel (Z.of_nat n)) e) as Hok.
  { destruct (Inv_replace pm _ _ b R _ i Hwf HI Hi) as (S & Ci & _ & _ & _ & _ & _ & _ & He & _).
    fold e in He. unfold entry_ok in He. rewrite Ht in He. apply He. }
  rewrite Hl in Hkl. apply andb_true_iff in Hkl as [Hval _].
  destruct (changed_entry_ok _ e new Hl (Ha Hval) Hnew Hok) as (Hu & Ht' & Hl' & Hok' & Hsame).
  destruct (Inv_set_entry pm _ _ b R (km_world k) i _ Hwf HI Hi Ht Hu Ht' Hok') as (HI' & HK & He & Hobs).
  eexists. split; [apply (write_pte_Done n); [done|apply HI|done|done]|]. split; [done|].
  constructor; [done|done|done|..]; cbn [km_world]; fold i.
  - intros o Ho Hs. rewrite (lk_entry n b i o _ Hs) by (by rewrite He). by rewrite He, Hl'.
  - intros o Ho Hs. rewrite <- !(obs_lk pm 0). by rewrite Hobs.
Qed.

Lemma update_descend_ok n b R k virt remaining_bytes new f e j :
  (n < 3)%nat -> Inv pm (klevels (S n)) b R (km_world k) -> 0 <= virt -> kf_asid f = k_asid (km_space k) ->
  kpte_is_leaf new = true -> lk pm (klevels (S n)) (mem k) b (virt mod span (klevels (S n))) = Some (e, klevel (Z.of_nat j)) ->
  let page_size := page_size (klevel (Z.of_nat j)) in
  virt + page_size < USIZE_MOD ->
  exists f' k', update_descend pm (below (S n)) (pv pm b) virt remaining_bytes new f k
    = Done (Ok (remaining_bytes, Some page_size, f'), k')
  /\ extend_range (k_asid (km_space k)) (Range virt (virt + page_size)) f = Ok f'
  /\ keeps_page e new /\ releafed (S n) b R j virt (changed_entry e new) k k'.
Proof.
  revert b R k. induction n as [n IH] using lt_wf_ind. intros b R k Hn HI Hv Hf Hnew Hlk P HP.
  pose proof (klevels_wf (S n) ltac:(lia)) as Hwf.
  set (o0 := virt mod span (klevels (S n))) in *.
  assert (0 <= o0 < span (klevels (S n))) as Ho by (apply Z.mod_pos_bound, kspan_pos).
  pose proof (klevel_index n _ Ho) as Hi. set (i := o0 / page_size (klevel (Z.of_nat n))) in *.
  destruct (Inv_read n b R k _ Hn HI Hi) as (Hr & _ & _ & Hl & Ht & Ha & Htn).
  change (below (S n)) with (Z.of_nat n :: below n). cbn [update_descend].
  step_by (pte_index_for_level_Done n virt Hn Hv). fold o0. fold i. step_by Hr. step_by (page_size_for_level_Done n Hn).
  destruct (is_table (ent pm (mem k) b i)) eqn:Et.
  - apply andb_true_iff in Ht as [Hval Hnl%negb_true_iff]. rewrite Hval, Hnl, Ha by done. cbn [andb].
    destruct n as [|n]; [by specialize (Htn eq_refl); lia|].
    rewrite (lk_table (S n) b i o0 _ eq_refl Et) in Hlk. unfold o0 in Hlk. rewrite kmod_child in Hlk by lia.
    destruct (lk_level _ _ _ _ _ _ Hlk) as (j' & Hj' & Hjj).
    apply klevel_inj in Hjj as <-.
    destruct (releafed_up n b R j virt (changed_entry e new) k ltac:(lia) ltac:(lia) HI Et) as (Rc & HIc & Hup).
    step_by (pgtable_ptr_pv _ (Inv_frame (S n) _ Rc k HIc)).
    destruct (IH n ltac:(lia) _ Rc k ltac:(lia) HIc Hv Hf Hnew Hlk HP) as (f' & k' & Hrun & Hext & Hsame & Hre).
    exists f', k'. split; [exact Hrun|]. split; [done|]. split; [done|by apply Hup].
  - rewrite (lk_entry n b i o0 _ eq_refl Et) in Hlk. destruct (is_leaf (ent pm (mem k) b i)) eqn:Elf; [|done].
    injection Hlk as He Hj. assert (n = j) as <- by (unfold PAGE_ENTRY_SHIFT in Hj; lia). rewrite He in *. rewrite Hl.
    destruct (update_leaf n b R k virt new Hn HI Hnew) as (k' & Hw & Hsame & Hre); fold o0; fold i; [by rewrite He..|].
    fold o0 in Hw, Hsame, Hre. fold i in Hw, Hsame, Hre. rewrite He in Hw, Hsame, Hre. step_by Hw.
    destruct (extend_same f _ (Range virt (virt + P)) Hf) as [f' Hf']. fold P.
    assert (range_from_start_len virt P = Done (Range virt (virt + P))) as Hrg.
    { unfold range_from_start_len. unfold addr_add. rewrite u_add_Done; [done|]. unfold is_usize. pose proof (klevel_pos n). unfold P in *. lia. }
    step_by Hrg. step_by (record_Done (Range virt (virt + P)) f f' k' ltac:(by rewrite (rl_space _ _ _ _ _ _ _ _ Hre), Hf')). by eexists _, _.
Qed.

(** [virt..virt+len) consists of whole pages. *)
Inductive tiled (k : KMachine F) : Z -> Z -> Prop :=
  | tiled_nil virt : tiled k virt 0
  | tiled_page virt len e j :
      lk pm LEVELS (mem k) (root k) (virt mod SPAN) = Some (e, klevel (Z.of_nat j)) ->
      let page_size := page_size (klevel (Z.of_nat j)) in
      virt mod page_size = 0 -> tiled k (virt + page_size) (len - page_size) -> tiled k virt len.

(** The permissions are replaced, the rest of the flags and the address stay. *)
Definition with_permissions (new : Z) (_ : Z) (old : option (Z * Z)) : option (Z * Z) :=
  (fun x => (x.1, changed_flags x.2 new)) <$> old.

Lemma page_size_bytes j : (j < 3)%nat -> 4096 <= page_size (klevel (Z.of_nat j)) /\ page_size (klevel (Z.of_nat j)) mod 4096 = 0.
Proof. intros Hj. do 3 (destruct j as [|j]; [by vm_compute|]). lia. Qed.

Lemma tiled_len k virt len : tiled k virt len -> 0 <= len.
Proof. induction 1 as [|virt len e j]; [done|]. pose proof (klevel_pos j). lia. Qed.

Lemma tiled_keep k k' virt len virt' j :
  root k' = root k -> (j < 3)%nat -> let P := page_size (klevel (Z.of_nat j)) in
  (forall o, 0 <= o < SPAN -> o / P <> virt mod SPAN / P ->
     lk pm LEVELS (mem k') (root k) o = lk pm LEVELS (mem k) (root k) o) ->
  virt mod P = 0 -> virt + P <= virt' -> virt mod SPAN + (virt' + len - virt) <= SPAN ->
  tiled k virt' len -> tiled k' virt' len.
Proof.
  intros Hroot Hj P Hother Hv Hge Hfits Ht. induction Ht as [|virt' len e i Hlk Q Hal Ht IH]; [constructor|].
  pose proof (klevel_pos i) as HQ. pose proof (tiled_len _ _ _ Ht) as Hlen. fold Q in HQ.
  apply (tiled_page _ _ _ e i); [|done|apply IH; lia]. rewrite Hroot, Hother; [done|apply Z.mod_pos_bound, (kspan_pos 2)|].
  destruct (page_offsets j virt virt' Hj Hv) as (Hin & _ & _). fold P in Hin. intros Heq. apply Hin in Heq.
  rewrite (mod_add_small SPAN virt virt') in Heq; [lia|apply (kspan_pos 2)|unfold P in *; pose proof (klevel_pos j); lia|lia].
Qed.

(** A leaf translates all addresses of its page. *)
Lemma lk_page n m b o o' e j :
  lk pm (klevels n) m b o = Some (e, klevel (Z.of_nat j)) ->
  o' / page_size (klevel (Z.of_nat j)) = o / page_size (klevel (Z.of_nat j)) ->
  lk pm (klevels n) m b o' = Some (e, klevel (Z.of_nat j)).
Proof.
  revert b o o'. induction n as [|n IH]; intros b o o' Hl Hs; [done|].
  destruct (lk_level _ _ _ _ _ _ Hl) as (j' & Hj & <-%klevel_inj).
  pose proof (same_entry_above j n _ _ ltac:(lia) Hs) as Hi.
  set (i := o / page_size (klevel (Z.of_nat n))) in *. destruct (is_table (ent pm m b i)) eqn:Ht.
  - rewrite (lk_table n b i o m eq_refl Ht) in Hl. rewrite (lk_table n b i o' m Hi Ht). apply (IH _ _ _ Hl).
    by apply (same_entry_below j n); [lia|..].
  - rewrite (lk_entry n b i o m eq_refl Ht) in Hl. by rewrite (lk_entry n b i o' m Hi Ht).
Qed.

Lemma page_changed R k k' virt e j new :
  (j < 3)%nat -> let P := page_size (klevel (Z.of_nat j)) in
  virt mod P = 0 -> kspace_ok R k ->
  lk pm LEVELS (mem k) (root k) (virt mod SPAN) = Some (e, klevel (Z.of_nat j)) ->
  keeps_page e new -> releafed 3 (root k) R j virt (changed_entry e new) k k' ->
  changed_to R (with_permissions new) virt (virt + P) k k'.
Proof.
  intros Hj P HPv HI Hlk [Hka Hkf] [HI' HK Hsp Hpage Hother]. change (klevels 3) with LEVELS in *.
  pose proof (fun o => lk_page 3 _ _ _ o _ _ Hlk) as Hold. change (klevels 3) with LEVELS in Hold. fold P in Hold.
  assert (root k' = root k) as Hroot by (unfold root; by rewrite Hsp).
  constructor; [by unfold kspace_ok; rewrite Hroot|done|done|by rewrite Hsp|..].
  - intros va Hva. destruct (page_offsets j virt va Hj HPv) as (Hin & _ & Hend). fold P in Hin, Hend.
    assert (va mod SPAN = virt mod SPAN + (va - virt)) as Hva' by (apply mod_add_small; [apply (kspan_pos 2)|lia..]).
    assert (0 <= va mod SPAN < SPAN) as Hr by (apply Z.mod_pos_bound, (kspan_pos 2)).
    assert (va mod SPAN / P = virt mod SPAN / P) as Heq by (apply Hin; lia).
    unfold translation, with_permissions. rewrite Hroot, (Hold _ Heq).
    rewrite (Hpage (va mod SPAN) Hr Heq). cbn. by rewrite Hka, Hkf.
  - intros va Hva. destruct (page_offsets j virt va Hj HPv) as (Hin & _). fold P in Hin.
    unfold translation. rewrite Hroot. f_equal. apply (Hother (va mod SPAN)); [apply Z.mod_pos_bound, (kspan_pos 2)|].
    intros Heq. apply Hin in Heq. lia.
Qed.

Lemma update_loop_ok R new fuel virt remaining_bytes f k :
  tiled k virt remaining_bytes -> remaining_bytes <= 4096 * Z.of_nat fuel ->
  0 <= virt -> virt + remaining_bytes < USIZE_MOD -> kpte_is_leaf new = true ->
  kspace_ok R k -> kf_asid f = k_asid (km_space k) -> virt mod SPAN + remaining_bytes <= SPAN ->
  exists f' k', update_loop pm fuel virt remaining_bytes new f k = Done (Ok f', k')
  /\ changed_to R (with_permissions new) virt (virt + remaining_bytes) k k' /\ records virt (virt + remaining_bytes) f f'.
Proof.
  revert virt remaining_bytes f k.
  induction fuel as [|fuel IH]; intros virt rem f k Ht Hfuel Hv Hmax Hnew HI Hf Hfits.
  all: inversion Ht as [|virt' len' e j Hlk P HPv Ht']; subst;
    [exists f, k; split; [done|]; rewrite Z.add_0_r; split; [by apply changed_to_refl|apply records_refl]|].
  all: destruct (lk_level 3 _ _ _ _ _ Hlk) as (j' & Hj & <-%klevel_inj); pose proof (tiled_len _ _ _ Ht') as Hlen.
  all: destruct (page_size_bytes j Hj) as [HP HPm]; fold P in HP, HPm, Hlen.
  { lia. }
  cbn [update_loop]. replace (rem <=? 0) with false by lia. step_by (get_kspace_Done k).
  step_by (pgtable_ptr_pv _ (Inv_frame 3 _ R k HI)).
  destruct (update_descend_ok 2 (root k) R k virt rem new f e j ltac:(lia) HI Hv Hf Hnew Hlk ltac:(fold P; lia))
    as (f1 & k1 & Hrun & Hext & Hsame & Hre). fold P in Hrun, Hext.
  step_by Hrun. cbn [fst snd]. step_by (u_add_Done virt P ltac:(unfold is_usize; lia)). step_by (u_sub_Done rem P ltac:(unfold is_usize; lia)).
  pose proof (page_changed R k k1 virt e j new Hj HPv HI Hlk Hsame Hre) as Hch. fold P in Hch.
  assert ((virt + P) mod SPAN + (rem - P) <= SPAN) as Hfits'.
  { destruct (decide (rem = P)); [pose proof (Z.mod_pos_bound (virt + P) SPAN (kspan_pos 2)); lia|].
    rewrite (mod_add_small SPAN virt) by (first [apply (kspan_pos 2)|lia]). lia. }
  destruct (extend_covers _ _ _ _ 0 Hext) as [Hf1 _].
  destruct (IH (virt + P) (rem - P) f1 k1) as (f' & k' & Hrun' & Hch' & Hcov); try done; try lia.
  { eapply (tiled_keep k k1 virt _ _ j); [apply Hch|done|apply Hre|done|fold P; lia|lia|done]. }
  { apply Hch. } { by rewrite Hf1, (ct_asid _ _ _ _ _ _ Hch). }
  exists f', k'. split; [done|]. replace (virt + P + (rem - P)) with (virt + rem) in * by lia.
  split; [eapply changed_to_trans; [..|done|done]; lia|]. rewrite <- Hf in Hext. by eapply records_page.
Qed.

(** A lookup in a well-formed address space of the kernel returns, changes
    nothing, and reports the page the hardware translates the address with: its
    physical address and its flags, or nothing if there is none. *)
Theorem kernel_query_correct R k va :
  kspace_ok R k -> 0 <= va ->
  exists r, query pm va k = Done (r, k)
  /\ match r with
     | Some (phys, flags) => exists j, (j < 3)%nat
         /\ translation k va = Some (phys + va mod page_size (klevel (Z.of_nat j)), flags)
     | None => translation k va = None
     end.
Proof.
  intros HI Hva. unfold query. step_by (get_kspace_Done k). step_by (pgtable_ptr_pv _ (Inv_frame 3 _ R k HI)).
  change levels_rev with (below 3). rewrite (query_descend_ok 2 _ R k va ltac:(lia) HI Hva).
  eexists. split; [done|]. unfold translation, root. change LEVELS with (klevels 3).
  destruct (lk pm (klevels 3) (mem k) _ _) as [[e l]|] eqn:Hl; [|done]. cbn.
  apply lk_level in Hl as (j & Hj & ->). by exists j.
Qed.

Lemma kernel_map_ok R k virt phys len flags f :
  kspace_ok R k -> request_ok virt phys len flags -> len mod 4096 = 0 ->
  implb (contains flags K_WRITE) (contains flags K_READ) = true ->
  kf_asid f = k_asid (km_space k) ->
  virt mod SPAN + len <= SPAN -> range_free k virt phys len ->
  exists r k', kmap_contiguous pm virt phys len flags f k = Done (r, k')
  /\ match r with
     | Ok f' => mapped_to R virt phys flags (virt + len) k k' /\ records virt (virt + len) f f'
     | Err f' => no_table_frame (km_world k') /\ exists mid, virt <= mid < virt + len
         /\ mapped_to R virt phys flags mid k k' /\ records virt mid f f'
     end.
Proof.
  intros HI Hrq Hal Hwr Hf Hfits Hfree. unfold kmap_contiguous. rewrite Hwr. pose proof Hrq as [Hv Hp Hlen _].
  step. step_by (assert_leb PAGE_SIZE len Hlen).
  step_by (is_aligned_to_pow2 virt 12 ltac:(lia)). change (2 ^ 12) with 4096.
  rewrite (proj2 (Z.eqb_eq _ _) (proj1 (proj2 Hv))). step.
  step_by (is_aligned_to_pow2 phys 12 ltac:(lia)). change (2 ^ 12) with 4096.
  rewrite (proj2 (Z.eqb_eq _ _) (proj1 (proj2 Hp))). step.
  apply map_loop_ok; [by right|done| |done..].
  unfold rounds, PAGE_SIZE. pose proof (Z.div_mod len 4096 ltac:(lia)). pose proof (Z.div_pos len 4096 ltac:(lia) ltac:(lia)). lia.
Qed.

(** A table that has just been allocated translates nothing. *)
Lemma fresh_space (w : world F) A p w' asid :
  mem_ok pm (w_mem w) -> fa_allocated (w_frames w) A -> alloc_table pm w = Done (Ok p, w') ->
  let k := MkKMachine w' (MkKAspace p [p] asid) in
  kspace_ok A k /\ forall j o, 0 <= o < SPAN -> obs pm j LEVELS (mem k) (root k) o = Vac.
Proof.
  intros Hm HA Hrun k. destruct (alloc_table_spec w A Hm HA) as (r & w1 & Hrun' & _ & Hr).
  rewrite Hrun in Hrun'. injection Hrun' as <- <-. destruct Hr as (Hfresh & Hfp & Hm' & Hz & _). destruct (Hfresh A HA) as [Hnew HA'].
  destruct (@vacant_table kernel_arch pm fa_memory kernel_laws (klevel 2) (klevels 2) (w_mem w') p Hfp (klevels_wf 3 ltac:(lia)))
    as [Hown Hobs].
  { intros i Hi. unfold ent. rewrite Hz by (change (entries (klevel 2)) with 512 in Hi; change (@GRANULE_SIZE kernel_arch) with 4096; unfold PTE_SIZE; lia).
    by vm_compute. }
  split; [|exact Hobs]. split; [exact Hm'|]. exists {[p]}. split; [exact Hown|]. split; [|exact HA'].
  by apply disjoint_singleton_l.
Qed.

Lemma vacant_translation k va :
  (forall j o, 0 <= o < SPAN -> obs pm j LEVELS (mem k) (root k) o = Vac) -> translation k va = None.
Proof.
  intros Hobs. specialize (Hobs 0%nat (va mod SPAN) ltac:(by apply Z.mod_pos_bound)). unfold translation.
  change LEVELS with (klevels 3) in *. unfold klevels in *. cbn [below fmap list_fmap obs lk] in *.
  destruct (is_table _); [done|]. by destruct (is_leaf _).
Qed.

Lemma vacant_range_free k virt phys len :
  (forall j o, 0 <= o < SPAN -> obs pm j LEVELS (mem k) (root k) o = Vac) -> range_free k virt phys len.
Proof. intros Hobs j va Hj ps _ _ _ _. apply Hobs. by apply Z.mod_pos_bound. Qed.

(** C8: mapping a range that is free into a well-formed address space of the
    kernel returns; the range consists of whole 4 KiB pages, does not wrap around
    the span of the tables, and its flags permit an access and do not permit
    writing without reading. If it succeeds, every address of the range is
    translated to the corresponding physical address with the flags (and the
    valid bit), the range is recorded for invalidation next to what the caller's
    flush held before, and no other translation changes. It fails only when the
    allocator refuses the frame for a table; then a prefix of the range has been
    mapped this way and is recorded in the caller's flush, and nothing else has
    changed. *)
Theorem kernel_map_correct R k virt phys len flags f :
  kspace_ok R k -> request_ok virt phys len flags -> len mod 4096 = 0 ->
  implb (contains flags K_WRITE) (contains flags K_READ) = true ->
  kf_asid f = k_asid (km_space k) ->
  virt mod SPAN + len <= SPAN -> range_free k virt phys len ->
  exists r k', kmap_contiguous pm virt phys len flags f k = Done (r, k')
  /\ match r with
     | Ok f' => mapped_to R virt phys flags (virt + len) k k' /\ records virt (virt + len) f f'
     | Err f' => no_table_frame (km_world k') /\ exists mid, virt <= mid < virt + len
         /\ mapped_to R virt phys flags mid k k' /\ records virt mid f f'
     end.
Proof. apply kernel_map_ok. Qed.

(** C9: changing the flags of a range that consists of whole pages succeeds,
    provided the new flags permit some access: the pages keep their physical
    addresses, the range is recorded for invalidation, and no other translation
    changes. Read, write and execute become those of the new flags, permissions
    that a page did not have before included; its other flags stay. *)
Theorem kernel_update_correct R k virt len new f :
  kspace_ok R k -> tiled k virt len -> 4096 <= len -> 0 <= virt -> virt mod 4096 = 0 -> virt + len < USIZE_MOD ->
  kpte_is_leaf new = true -> implb (contains new K_WRITE) (contains new K_READ) = true ->
  kf_asid f = k_asid (km_space k) -> virt mod SPAN + len <= SPAN ->
  exists f' k', kupdate_flags pm virt len new f k = Done (Ok f', k')
  /\ changed_to R (with_permissions new) virt (virt + len) k k' /\ records virt (virt + len) f f'
  /\ forall old i, 0 <= i ->
       Z.testbit (changed_flags old new) i = if (1 <=? i) && (i <=? 3) then Z.testbit new i else Z.testbit old i.
Proof.
  intros HI Ht Hlen Hv Hal Hmax Hnew Hwr Hf Hfits. unfold kupdate_flags. rewrite Hwr.
  step. step_by (assert_leb PAGE_SIZE len Hlen). step_by (is_aligned_to_pow2 virt 12 ltac:(lia)).
  change (2 ^ 12) with 4096. rewrite (proj2 (Z.eqb_eq _ _) Hal). step.
  destruct (update_loop_ok R new (rounds len) virt len f k) as (f' & k' & Hrun & Hch & Hrec); try done.
  2: { exists f', k'. split_and!; [done..|]. intros old i Hi. by apply changed_flags_bits. }
  unfold rounds, PAGE_SIZE. pose proof (Z.div_mod len 4096 ltac:(lia)). pose proof (Z.mod_pos_bound len 4096 ltac:(lia)).
  pose proof (Z.div_pos len 4096 ltac:(lia) ltac:(lia)). lia.
Qed.
End correct.
