(* ===== verification/KernelPagingDemo.v ===== *)
(** * The kernel's page tables on a small machine

    Sixteen frames of memory, from which tables are allocated, and an address
    space of the kernel in the first of them. The correctness theorems of
    KernelPagingCorrect apply to it; the examples show what the operations do
    outside of the conditions of these theorems. *)

From stdpp Require Import base numbers list gmap sets sorting.
From Stdlib Require Import ZArith Lia.
From S2P Require Import Prelude Address Riscv Arch PhysMap Machine Table PageTable Walk TableOps.
From S2P Require Import TestAllocator Demo KernelSpace KernelPaging KernelPagingCorrect.

(** Tables from a frame allocator. *)
#[export] Instance frame_tables {F} `{FrameAllocator F} : TableFrames F := {|
  alloc_table physmap :=
    r ← allocate_contiguous_zeroed (MkLayout PAGE_SIZE PAGE_SIZE) physmap;
    mret (match r with Ok frame => Ok frame | Err _ => Err tt end);
  release_table frame := on_frames (deallocate frame (MkLayout PAGE_SIZE PAGE_SIZE));
|}.

#[export] Instance frame_tables_laws {F} {fa : FrameAllocator F} {fal : FrameAllocatorLaws (@GRANULE_SIZE kernel_arch) F}
  (pm : PhysMap) (Hpo : @platform_ok kernel_arch kernel_laws F fa fal pm) :
  @TableFramesLaws F fa fal frame_tables pm.
Proof.
  constructor. intros w A0 Hm HA.
  destruct (@allocate_zeroed_table kernel_arch kernel_laws F fa fal pm Hpo w A0 Hm HA) as (r & w' & Hrun & Hh & Hr).
  eexists _, w'. split; [unfold alloc_table, frame_tables; step_by Hrun; reflexivity|]. split; [done|].
  destruct r as [p|e]; [exact Hr|]. split; apply Hr.
Qed.

Lemma kdemo_granule : @GRANULE_SIZE kernel_arch = 2 ^ 12.
Proof. done. Qed.

#[export] Instance kdemo_fal : FrameAllocatorLaws (@GRANULE_SIZE kernel_arch) TestFrameAllocator :=
  test_allocator_laws (@GRANULE_SIZE kernel_arch) 12 ltac:(lia) kdemo_granule demo_ram ltac:(simpl; lia).

Lemma kdemo_platform : @platform_ok kernel_arch kernel_laws _ _ kdemo_fal demo_physmap.
Proof. split; [split | ..]; by vm_compute. Qed.

#[export] Instance kdemo_frames : @TableFramesLaws TestFrameAllocator _ kdemo_fal frame_tables demo_physmap :=
  frame_tables_laws demo_physmap kdemo_platform.

(** The address space: a zeroed root table. *)
Definition kdemo : KMachine TestFrameAllocator :=
  match alloc_table demo_physmap demo_world with
  | Done (Ok frame, w) => MkKMachine w (MkKAspace frame [frame] 0)
  | _ => MkKMachine demo_world (MkKAspace 0 [] 0)
  end.

Lemma kdemo_mem_ok : @mem_ok kernel_arch _ _ kdemo_fal demo_physmap (w_mem demo_world).
Proof. exact demo_mem_ok. Qed.

Lemma kdemo_frames_ok : @fa_allocated _ _ _ kdemo_fal (w_frames demo_world) ∅.
Proof. exact demo_frames_ok. Qed.

(** It is well formed, and nothing is mapped. *)
Lemma kdemo_fresh :
  kspace_ok (fal := kdemo_fal) demo_physmap ∅ kdemo
  /\ forall j o, 0 <= o < span (klevels 3) ->
       @obs kernel_arch demo_physmap j (klevels 3) (w_mem (km_world kdemo)) (root kdemo) o = Vac.
Proof.
  assert (Hroot : match alloc_table demo_physmap demo_world with Done (Ok _, _) => true | _ => false end = true) by by vm_compute.
  unfold kdemo. destruct (alloc_table demo_physmap demo_world) as [[[p|] w]| |] eqn:Hrun; [|discriminate..]. clear Hroot. exact (fresh_space _ demo_world ∅ p w 0 kdemo_mem_ok kdemo_frames_ok Hrun).
Qed.

(** ** Concrete runs *)

Definition KRW : Z := Z.lor K_READ K_WRITE.

(** Maps, or leaves the machine as it is. *)
Definition kmapped (virt phys len flags : Z) (k : KMachine TestFrameAllocator) : KMachine TestFrameAllocator :=
  match kmap_contiguous demo_physmap virt phys len flags (kflush_empty 0) k with Done (_, k') => k' | _ => k end.

Definition finds (va : Z) (k : KMachine TestFrameAllocator) : option (option (Z * Z)) :=
  match query demo_physmap va k with Done (r, _) => Some r | _ => None end.

(** What is found at an address after an operation that succeeds. *)
Definition finds_after (va : Z) (m : outcome (result KFlush KFlush * KMachine TestFrameAllocator)) : option (option (Z * Z)) :=
  match m with Done (Ok _, k) => finds va k | _ => None end.

(** Mapping a page inside a large page that is mapped already puts an empty
    table in its place: the rest of the large page is gone. *)
Example kmap_splits_nothing :
  let k := kmapped 0x40000000 0x80000000 0x200000 KRW kdemo in
  let k' := kmapped 0x40001000 0x90000000 0x1000 KRW k in
  finds 0x40002000 k = Some (Some (0x80000000, 7))
  /\ finds 0x40001000 k' = Some (Some (0x90000000, 7)) /\ finds 0x40002000 k' = Some None.
Proof. by vm_compute. Qed.

(** Unmapping a range whose first page is not mapped leaves its second page
    mapped, and reports success. *)
Example kunmap_stops_at_hole :
  let k := kmapped 0x40001000 0x90000000 0x1000 KRW kdemo in
  finds_after 0x40001000 (kunmap demo_physmap 0x40000000 0x2000 (kflush_empty 0) k) = Some (Some (0x90000000, 7)).
Proof. by vm_compute. Qed.

(** Changing the flags of such a range leaves the flags of its second page. *)
Example kupdate_stops_at_hole :
  let k := kmapped 0x40001000 0x90000000 0x1000 KRW kdemo in
  finds_after 0x40001000 (kupdate_flags demo_physmap 0x40000000 0x2000 K_READ (kflush_empty 0) k)
  = Some (Some (0x90000000, 7)).
Proof. by vm_compute. Qed.

(** A page that is mapped read-only becomes writable. *)
Example kupdate_adds_permissions :
  let k := kmapped 0x40001000 0x90000000 0x1000 K_READ kdemo in
  finds 0x40001000 k = Some (Some (0x90000000, 3))
  /\ finds_after 0x40001000 (kupdate_flags demo_physmap 0x40001000 0x1000 KRW (kflush_empty 0) k)
     = Some (Some (0x90000000, 7)).
Proof. by vm_compute. Qed.

(** Taking all permissions from a large page leaves an entry that is valid and
    points to a table: the contents of the page become page-table entries. The
    large page here begins with a word that is an entry for a page at
    [0x80000000] (it holds the root table). *)
Example kupdate_makes_table :
  let k := kmapped 0 0x80000000 0x40000000 KRW (kmapped 0x40000000 0x80000000 0x200000 KRW kdemo) in
  finds_after 0x40000000 (kupdate_flags demo_physmap 0x40000000 0x200000 0 (kflush_empty 0) k) = Some (Some (0x80000000, 7)).
Proof. by vm_compute. Qed.

(** Unmapping a part of a large page panics. *)
Example kunmap_part_panics :
  kunmap demo_physmap 0x40000000 0x1000 (kflush_empty 0) (kmapped 0x40000000 0x80000000 0x200000 KRW kdemo) = Panicked.
Proof. by vm_compute. Qed.

(** ** The theorems on this machine *)

Lemma kdemo_base : 0 < pm_base demo_physmap.
Proof. by vm_compute. Qed.

Lemma kdemo_free virt phys len : range_free demo_physmap kdemo virt phys len.
Proof. intros j va Hj P _ _ _ _. apply kdemo_fresh, Z.mod_pos_bound, (kspan_pos 2). Qed.

Lemma kdemo_request : request_ok 0x40000000 0x80000000 0x200000 KRW.
Proof. constructor; repeat split; by vm_compute. Qed.

Lemma kernel_query_correct_witness :
  exists r, query demo_physmap 0x40000000 kdemo = Done (r, kdemo)
  /\ match r with
     | Some (phys, flags) => exists j, (j < 3)%nat
         /\ translation demo_physmap kdemo 0x40000000 = Some (phys + 0x40000000 mod page_size (klevel (Z.of_nat j)), flags)
     | None => translation demo_physmap kdemo 0x40000000 = None
     end.
Proof.
  apply (kernel_query_correct demo_physmap kdemo_platform kdemo_base ∅ kdemo 0x40000000); [apply kdemo_fresh|lia].
Defined.

Lemma kernel_map_correct_witness :
  exists r k', kmap_contiguous demo_physmap 0x40000000 0x80000000 0x200000 KRW (kflush_empty 0) kdemo = Done (r, k')
  /\ match r with
     | Ok f' => mapped_to demo_physmap ∅ 0x40000000 0x80000000 KRW (0x40000000 + 0x200000) kdemo k'
         /\ records 0x40000000 (0x40000000 + 0x200000) (kflush_empty 0) f'
     | Err f' => no_table_frame demo_physmap (km_world k') /\ exists mid, 0x40000000 <= mid < 0x40000000 + 0x200000
         /\ mapped_to demo_physmap ∅ 0x40000000 0x80000000 KRW mid kdemo k' /\ records 0x40000000 mid (kflush_empty 0) f'
     end.
Proof.
  apply (kernel_map_correct demo_physmap kdemo_platform kdemo_base ∅ kdemo);
    [apply kdemo_fresh|apply kdemo_request|done|done|by vm_compute|by vm_compute|apply kdemo_free].
Defined.

(** The machine with one page mapped. *)
Definition kpaged (k : KMachine TestFrameAllocator) : KMachine TestFrameAllocator :=
  match map_loop demo_physmap 1 0x40001000 0x90000000 0x1000 KRW (kflush_empty 0) k with Done (_, k') => k' | _ => k end.
Definition kdemo_paged : KMachine TestFrameAllocator := kpaged kdemo.

Lemma kdemo_paged_ok : kspace_ok (fal := kdemo_fal) demo_physmap ∅ kdemo_paged.
Proof.
  destruct (map_loop_ok demo_physmap kdemo_platform kdemo_base ∅ KRW 1 0x40001000 0x90000000 0x1000 (kflush_empty 0) kdemo)
    as (r & k' & Hrun & Hr);
    [right; constructor; repeat split; by vm_compute|done|done|apply kdemo_fresh|by vm_compute|by vm_compute|apply kdemo_free|].
  unfold kdemo_paged, kpaged. rewrite Hrun. destruct r as [f|]; [apply Hr|]. destruct Hr as (_ & mid & _ & Hr & _). apply Hr.
Qed.

Lemma kdemo_tiled : tiled demo_physmap kdemo_paged 0x40001000 0x1000.
Proof.
  eapply (tiled_page _ _ _ _ _ 0); [by vm_compute|by vm_compute|].
  replace (0x1000 - page_size (klevel (Z.of_nat 0))) with 0 by by vm_compute. apply tiled_nil.
Qed.

Lemma kernel_update_correct_witness :
  exists f' k', kupdate_flags demo_physmap 0x40001000 0x1000 K_READ (kflush_empty 0) kdemo_paged = Done (Ok f', k')
  /\ changed_to demo_physmap ∅ (with_permissions K_READ) 0x40001000 (0x40001000 + 0x1000) kdemo_paged k'
  /\ records 0x40001000 (0x40001000 + 0x1000) (kflush_empty 0) f'
  /\ forall old i, 0 <= i ->
       Z.testbit (changed_flags old K_READ) i = if (1 <=? i) && (i <=? 3) then Z.testbit K_READ i else Z.testbit old i.
Proof.
  apply (kernel_update_correct demo_physmap kdemo_platform kdemo_base ∅ kdemo_paged);
    [apply kdemo_paged_ok|apply kdemo_tiled|done|done|done|done|done|done|by vm_compute|by vm_compute].
Defined.
