(* ===== verification/KernelNew.v ===== *)
(** * New address spaces of the kernel

    A new address space shares the upper half of the active one: its root table
    is a fresh frame into which the upper half of the active root table has been
    copied. *)

From stdpp Require Import base numbers list gmap sets.
From Stdlib Require Import ZArith Lia.
From S2P Require Import Prelude Address Riscv Arch PhysMap Machine Table PageTable Walk TableOps.
From S2P Require Import KernelSpace KernelPaging KernelPagingCorrect.

Section trees.
Context {arch : Arch} {laws : ArchLaws} (pm : PhysMap) (memory : range).

(** A table whose entries below [h] are vacant and whose other entries are
    those of the table at [b]. *)
Lemma owns_copy l ls m m' b b' S h :
  levels_wf (l :: ls) -> owns pm memory (l :: ls) m b S -> frame_ok memory b' -> (b' ∉ S) -> agree pm m m' S -> 0 <= h ->
  (forall i, 0 <= i < entries l -> i < h -> is_usize (ent pm m' b' i) /\ is_vacant (ent pm m' b' i) = true) ->
  (forall i, h <= i < entries l -> ent pm m' b' i = ent pm m b i) ->
  exists S', S' ⊆ S ∖ {[b]} /\ owns pm memory (l :: ls) m' b' ({[b']} ∪ S')
  /\ forall k o, 0 <= o < span (l :: ls) ->
       obs pm k (l :: ls) m' b' o = if o / page_size l <? h then Vac else obs pm k (l :: ls) m b o.
Proof.
  intros Hwf (Hf & C & HS & Hb & Hd & HC) Hf' Hn Ha Hh Hlow Hup. destruct (levels_wf_cons _ _ Hwf) as [Hl Hwf'].
  assert (forall i, 0 <= i < entries l -> C i ⊆ S) as Hsub by (intros i Hi x Hx; apply HS; eauto).
  assert (forall i, 0 <= i < entries l -> agree pm m m' (C i)) as HaC by (intros i Hi; eapply agree_mono; [exact Ha|by apply Hsub]).
  exists (⋃ (C <$> seqZ h (entries l - h))).
  assert (forall x, x ∈ ⋃ (C <$> seqZ h (entries l - h)) <-> exists i, h <= i < entries l /\ x ∈ C i) as HU.
  { intros x. rewrite elem_of_union_list. setoid_rewrite list_elem_of_fmap. setoid_rewrite elem_of_seqZ. split.
    - intros (X & (i & -> & Hi) & Hx). exists i. split; [lia|done].
    - intros (i & Hi & Hx). exists (C i). split; [exists i; split; [done|lia]|done]. }
  split; [|split].
  - intros x (i & Hi & Hx)%HU. apply elem_of_difference. split; [eapply Hsub; [|done]; lia|].
    intros ->%elem_of_singleton. by apply (Hb i ltac:(lia)).
  - split; [done|]. exists (fun i => if i <? h then ∅ else C i). split_and!.
    + intros x. rewrite elem_of_union, elem_of_singleton, HU. split; (intros [->|(i & Hi & Hx)]; [by left|right]).
      * exists i. split; [lia|]. by rewrite (proj2 (Z.ltb_ge i h)) by lia.
      * exists i. destruct (Z.ltb_spec i h); [by apply elem_of_empty in Hx|]. split; [lia|done].
    + intros i Hi Hx. destruct (i <? h); [by apply elem_of_empty in Hx|]. by apply Hn, (Hsub i Hi).
    + intros i j Hi Hj Hij. pose proof (Hd i j Hi Hj Hij). destruct (i <? h), (j <? h); sets.
    + intros i Hi. destruct (Z.ltb_spec i h).
      * destruct (Hlow i Hi ltac:(done)) as [Hu Hv]. destruct (vacant_not_table _ Hu Hv) as [-> E].
        split; [done|]. unfold leaf_ok. by rewrite E.
      * rewrite Hup by lia. specialize (HC i Hi). destruct (is_table _); [|done]. eapply owns_agree; eauto.
  - intros k o Ho. pose proof (index_range l ls o Hl Ho) as Hi. cbn [obs]. destruct (Z.ltb_spec (o / page_size l) h).
    + destruct (Hlow _ Hi ltac:(done)) as [Hu Hv]. by destruct (vacant_not_table _ Hu Hv) as [-> ->].
    + rewrite Hup by lia. specialize (HC _ Hi). specialize (HaC _ Hi). destruct (is_table _); [|done].
      assert (0 <= o mod page_size l < span ls).
      { destruct ls; [by destruct HC|]. rewrite <- (page_size_span l) by done.
        apply Z.mod_pos_bound. pose proof (page_size_pos l Hl). lia. }
      destruct k; [f_equal; by eapply lk_agree|by eapply obs_agree].
Qed.
End trees.

Section new.
Context {F : Type} {fa : FrameAllocator F} {fal : FrameAllocatorLaws GRANULE_SIZE F} {tf : TableFrames F}
  (pm : PhysMap) {tfl : TableFramesLaws F pm} (Hpo : platform_ok pm).
Implicit Types (w : world F) (R : gset Z).

Lemma copy_words_ok (n : nat) s d i w :
  frame_ok fa_memory s -> frame_ok fa_memory d -> s <> d -> mem_ok pm (w_mem w) -> 0 <= i -> i + Z.of_nat n <= 512 ->
  exists w', copy_words n (pv pm (s + i * PTE_SIZE)) (pv pm (d + i * PTE_SIZE)) w = Done (tt, w')
  /\ mem_ok pm (w_mem w') /\ w_hart w' = w_hart w /\ w_frames w' = w_frames w
  /\ (forall j, i <= j < i + Z.of_nat n -> ent pm (w_mem w') d j = ent pm (w_mem w) s j)
  /\ (forall a, (forall j, i <= j < i + Z.of_nat n -> a <> pv pm (d + j * PTE_SIZE)) -> w_mem w' !! a = w_mem w !! a).
Proof.
  intros Hs Hd Hne. revert i w. induction n as [|n IH]; intros i w Hm Hi Hn.
  { exists w. split_and!; try done. lia. }
  assert (forall j, 0 <= j < 512 -> 0 <= j /\ j * PTE_SIZE < GRANULE_SIZE) as Hg.
  { intros j Hj. change GRANULE_SIZE with 4096. unfold PTE_SIZE. lia. }
  destruct (Hg i ltac:(lia)) as [Hi0 Hi1]. cbn [copy_words].
  destruct (arch_read_pv pm Hpo w s i Hm Hs Hi0 Hi1) as [Hr Hu]. step_by Hr.
  step_by (arch_write_pv pm Hpo w d i (ent pm (w_mem w) s i) Hm Hd Hi0 Hi1).
  set (w1 := set_mem _ w).
  assert (forall b, pv pm (b + i * PTE_SIZE) + 8 = pv pm (b + (i + 1) * PTE_SIZE)) as Hnext by (intros; unfold pv, PTE_SIZE; lia).
  destruct (IH (i + 1) w1) as (w' & Hrun & Hm' & Hh & Hfr & Hin & Hout); [by apply mem_ok_insert|lia|lia|].
  exists w'. rewrite !Hnext. split_and!; [exact Hrun|done|done|done|..].
  - intros j Hj. destruct (decide (j = i)) as [->|].
    + unfold ent at 1. rewrite Hout; [apply ent_insert|].
      intros j Hj' [_ <-]%(frame_words_disjoint pm); [lia|done|done|..]; apply Hg; lia.
    + rewrite Hin by lia. apply (ent_insert_ne pm); try done; try (by left; congruence); apply Hg; lia.
  - intros a Hna. rewrite Hout by (intros j Hj; apply Hna; lia). apply lookup_insert_ne. intros <-. apply (Hna i); [lia|done].
Qed.

(** The address space of the active root table. *)
Definition active (k : KMachine F) : Prop :=
  wrap (Z.shiftl (satp_ppn (csr_satp (w_hart (km_world k)))) 12) = root k.

(** The space [k] shares the upper half with the space [k0], and its lower half
    is empty. *)
Definition shares_upper_half (k0 k : KMachine F) : Prop :=
  forall j o, 0 <= o < span LEVELS ->
  obs pm j LEVELS (w_mem (km_world k)) (root k) o
  = if o / page_size (klevel 2) <? 256 then Vac else obs pm j LEVELS (w_mem (km_world k0)) (root k0) o.

(** The upper half is copied into a fresh, zeroed frame. *)
Lemma copy_root R k0 p w1 asid :
  kspace_ok pm R k0 -> alloc_table pm (km_world k0) = Done (Ok p, w1) ->
  exists w', copy_words (Z.to_nat (PAGE_SIZE / 2 / 8)) (pv pm (root k0 + 256 * PTE_SIZE)) (pv pm (p + 256 * PTE_SIZE)) w1 = Done (tt, w')
  /\ w_hart w' = w_hart (km_world k0) /\ frame_ok fa_memory p
  /\ let k := MkKMachine w' (MkKAspace p [p] asid) in
     shares_upper_half k0 k
     /\ (forall j o, 0 <= o < span LEVELS ->
          obs pm j LEVELS (w_mem w') (root k0) o = obs pm j LEVELS (w_mem (km_world k0)) (root k0) o)
     /\ exists R', R ∪ {[root k0]} ⊆ R' /\ kspace_ok pm R' k.
Proof.
  intros (Hm & S & HS & HSR & Hal) Hrun. pose proof (owns_root _ _ _ _ _ _ HS) as [HbS Hf].
  destruct (alloc_table_spec _ _ Hm Hal) as (r & w & Hrun' & Hh & Hr). rewrite Hrun in Hrun'. injection Hrun' as <- <-.
  destruct Hr as (Hfresh & Hfp & Hm1 & Hz & Hsame). destruct (Hfresh _ Hal) as [Hnew Hal1].
  assert (p <> root k0) as Hne by (intros ->; sets).
  assert (forall x, x ∈ S ∪ R -> frame_ok fa_memory x) as Hframes by (intros x Hx; by apply (fa_allocated_frame _ _ _ Hal)).
  destruct (copy_words_ok 256 (root k0) p 256 w1 Hf Hfp ltac:(done) Hm1 ltac:(lia) ltac:(lia)) as (w' & Hcopy & Hm' & Hh' & Hfr & Hin & Hout).
  exists w'. split; [exact Hcopy|]. split; [congruence|]. split; [done|].
  assert (forall x i j, x ∈ S ∪ R -> 0 <= i -> i * PTE_SIZE < GRANULE_SIZE -> 0 <= j -> j * PTE_SIZE < GRANULE_SIZE ->
    pv pm (x + i * PTE_SIZE) <> pv pm (p + j * PTE_SIZE)) as Hapart.
  { intros x i j Hx ???? [-> _]%(frame_words_disjoint pm); [done|by apply Hframes|done..]. }
  assert (agree pm (w_mem (km_world k0)) w'.(w_mem) (S ∪ R)) as Hag.
  { intros x i Hx Hi0 Hi1. rewrite Hout, Hsame; [done|by intros; apply Hapart|].
    intros j Hj. apply Hapart; [done..|lia|]. change GRANULE_SIZE with 4096. unfold PTE_SIZE. lia. }
  change (klevels 3) with (klevel 2 :: klevels 2) in HS.
  destruct (owns_copy pm fa_memory (klevel 2) (klevels 2) _ (w_mem w') (root k0) p S 256 (klevels_wf 3 ltac:(lia)) HS Hfp)
    as (S' & HS' & Hown & Hobs); [sets|by eapply agree_mono; [exact Hag|sets]|lia|..].
  { intros i Hi Hlow. unfold ent. rewrite Hout, Hz; [by vm_compute|lia|change GRANULE_SIZE with 4096; unfold PTE_SIZE; lia|].
    intros j Hj [_ <-]%(frame_words_disjoint pm); [lia|done|done|lia|..|lia|]; change GRANULE_SIZE with 4096; unfold PTE_SIZE; lia. }
  { intros i Hi. rewrite Hin by (change (entries (klevel 2)) with 512 in Hi; lia). unfold ent. rewrite Hsame; [done|].
    intros j Hj0 Hj1. apply Hapart; [sets|lia| |done..]. change (entries (klevel 2)) with 512 in Hi. change GRANULE_SIZE with 4096. unfold PTE_SIZE. lia. }
  split; [exact Hobs|]. split.
  { intros j o Ho. eapply (obs_agree pm fa_memory); [apply (klevels_wf 3); lia|exact HS|eapply agree_mono; [exact Hag|sets]|done]. }
  exists (R ∪ (S ∖ S')). split; [sets|]. split; [exact Hm'|]. exists ({[p]} ∪ S'). split; [exact Hown|].
  split; [|cbn [km_world]; rewrite Hfr; replace ({[p]} ∪ S' ∪ (R ∪ S ∖ S')) with ({[p]} ∪ (S ∪ R))]; [sets|exact Hal1|].
  apply set_eq. intros x. destruct (decide (x ∈ S')); sets.
Qed.

Lemma kaspace_new_ok R k0 asid :
  kspace_ok pm R k0 -> active k0 -> root k0 <> 0 ->
  exists r w', kaspace_new pm asid (km_world k0) = Done (r, w') /\ w_hart w' = w_hart (km_world k0)
  /\ match r with
     | Err _ => no_table_frame pm w' /\ w_mem w' = w_mem (km_world k0)
     | Ok (a, f) => f = kflush_empty asid /\ k_asid a = asid /\ wired_frames a = [root_pgtable a]
         /\ shares_upper_half k0 (MkKMachine w' a)
         /\ (forall j o, 0 <= o < span LEVELS ->
               obs pm j LEVELS (w_mem w') (root k0) o = obs pm j LEVELS (w_mem (km_world k0)) (root k0) o)
         /\ exists R', R ∪ {[root k0]} ⊆ R' /\ kspace_ok pm R' (MkKMachine w' a)
     end.
Proof.
  intros (Hm & S & HS & HSR & Hal) Hact Hnz. pose proof (owns_root _ _ _ _ _ _ HS) as [HbS Hf].
  set (w := km_world k0) in *. unfold kaspace_new.
  assert (on_hart satp_read w = Done (csr_satp (w_hart w), w)) as Hsatp by (by destruct w as [? [] ?]).
  step_by Hsatp. cbv zeta. unfold active in Hact. fold w in Hact. rewrite Hact.
  replace (root k0 =? 0) with false by lia. step.
  destruct (frame_word (root k0) 0 Hf ltac:(lia) ltac:(done)) as [Hr0 _]. rewrite Z.mul_0_l, Z.add_0_r in Hr0.
  step_by (phys_to_virt_pv pm Hpo _ Hr0).
  destruct (frame_word (root k0) 256 Hf ltac:(lia) ltac:(done)) as [Hr1 _].
  pose proof (pv_usize pm Hpo (root k0 + 256 * PTE_SIZE) ltac:(lia)) as Hu1.
  assert (addr_add (pv pm (root k0)) (PAGE_SIZE / 2) = Done (pv pm (root k0 + 256 * PTE_SIZE))) as Hadd.
  { unfold addr_add. change (PAGE_SIZE / 2) with 2048. replace (pv pm (root k0 + 256 * PTE_SIZE)) with (pv pm (root k0) + 2048) in * by (unfold pv, PTE_SIZE; lia).
    by apply u_add_Done. }
  step_by Hadd.
  destruct (alloc_table_spec w _ Hm Hal) as (r & w1 & Hrun & Hh & Hr). destruct r as [p|[]]; last first.
  { erewrite try_bind_Err by exact Hrun. exists (Err tt), w1. split_and!; try done; [|apply Hr]. by exists w, (S ∪ R). }
  step_by Hrun. destruct (copy_root R k0 p w1 asid) as (w' & Hcopy & Hh' & Hfp & Hshare & Hold & HR'); [by split; [|exists S]|done|].
  destruct (frame_word p 0 Hfp ltac:(lia) ltac:(done)) as [Hp0 _]. rewrite Z.mul_0_l, Z.add_0_r in Hp0.
  step_by (phys_to_virt_pv pm Hpo _ Hp0).
  replace (pv pm p + PAGE_SIZE / 2) with (pv pm (p + 256 * PTE_SIZE)) by (unfold pv, PTE_SIZE, PAGE_SIZE; change (4096 / 2) with 2048; lia).
  step_by Hcopy. eexists _, w'. split; [done|]. by split_and!.
Qed.
End new.
