(* ===== verification/KernelFrames.v ===== *)
(** * Frame allocation of the kernel (sys/kernel/src/mem/frame_alloc)

    The physical memory is divided into arenas, each a buddy allocator over the
    frames of some memory regions with one slot of bookkeeping per frame; freed
    frames go to a cache of the CPU that frees them. A frame is handled through
    a pointer to its slot. The free lists are intrusive lists of slots, of the crate
    cordyceps: a type with its operations and their laws. *)

From stdpp Require Import base numbers list gmap sorting.
From Stdlib Require Import ZArith Lia.
From S2P Require Import Prelude Address Riscv Arch PhysMap Machine LoaderRegions KernelSpace.

Definition MAX_WASTED_ARENA_BYTES : Z := 0x84000.
Definition MAX_ORDER : nat := 11.
Definition MAX_REFCOUNT : Z := 2 ^ 63 - 1.

(** ** Slots (frame.rs) *)

Record FrameInfo : Type := MkInfo { fi_refcount : Z; fi_addr : Z }.

Definition new_wired (addr : Z) : FrameInfo := MkInfo 1 addr.
Definition new_free (addr : Z) : FrameInfo := MkInfo 0 addr.

(** The slots that have been initialised, by their addresses. *)
Abbreviation Slots := (gmap Z FrameInfo).

Definition read_slot (p : Z) : M Slots FrameInfo := fun s => match s !! p with Some i => Done (i, s) | None => Undefined end.
Definition write_slot (p : Z) (i : FrameInfo) : M Slots unit := fun s => Done (tt, <[p := i]> s).

Definition mark_as_free_for_freelist (p : Z) : M Slots unit := i ← read_slot p; write_slot p (MkInfo 0 (fi_addr i)).

(** ** Lists of slots *)

(** [cordyceps::List<FrameInfo>]: the lists, the pointers that one yields from
    front to back, and the operations. [append] takes the elements of its
    argument, [split_off] is only called within the list. *)
Class SlotList : Type := {
  slist : Type;
  slist_new : slist;
  slist_iter : slist -> list Z;
  slist_len : slist -> Z;
  push_back : Z -> slist -> slist;
  pop_back : slist -> option (Z * slist);
  pop_front : slist -> option (Z * slist);
  slist_append : slist -> slist -> slist;
  slist_split_off : nat -> slist -> slist * slist;
  slist_from_iter : list Z -> slist;
  slist_iter_new : slist_iter slist_new = [];
  slist_len_spec l : slist_len l = Z.of_nat (length (slist_iter l));
  push_back_spec p l : slist_iter (push_back p l) = slist_iter l ++ [p];
  pop_back_spec l : match pop_back l with Some (p, l') => slist_iter l = slist_iter l' ++ [p] | None => slist_iter l = [] end;
  pop_front_spec l : match pop_front l with Some (p, l') => slist_iter l = p :: slist_iter l' | None => slist_iter l = [] end;
  slist_append_spec l l' : slist_iter (slist_append l l') = slist_iter l ++ slist_iter l';
  slist_split_off_spec n l : (n <= length (slist_iter l))%nat ->
    slist_iter (slist_split_off n l).1 = take n (slist_iter l) /\ slist_iter (slist_split_off n l).2 = drop n (slist_iter l);
  slist_from_iter_spec l : slist_iter (slist_from_iter l) = l;
}.

Section frames.
Context {SL : SlotList}.

(** ** Arenas (arena.rs) *)

Record Arena : Type := MkArena {
  ar_free_lists : list slist;
  ar_range : range;
  ar_slots : Z;
  ar_slots_len : Z;
  ar_max_order : nat;
  ar_used_frames : Z;
  ar_total_frames : Z;
}.

Definition with_lists (l : list slist) (a : Arena) : Arena :=
  MkArena l (ar_range a) (ar_slots a) (ar_slots_len a) (ar_max_order a) (ar_used_frames a) (ar_total_frames a).
Definition with_used (n : Z) (a : Arena) : Arena :=
  MkArena (ar_free_lists a) (ar_range a) (ar_slots a) (ar_slots_len a) (ar_max_order a) n (ar_total_frames a).

Record ArenaSelection : Type := MkSelection {
  sel_arena : range;
  sel_regions : list range;
  sel_bookkeeping : range;
  sel_wasted_bytes : Z;
}.

(** [usize::trailing_zeros] and the greatest power of two below a number. *)
Definition trailing_zeros (n : Z) : Z := if n =? 0 then 64 else Z.log2 (Z.land n (wrap (- n))).
Definition prev_power_of_two (num : Z) : outcome Z := if 0 <? num then Done (Z.shiftl 1 (Z.log2 num)) else Panicked.
Definition next_power_of_two (n : Z) : outcome Z := if n <=? 1 then Done 1 else checked (2 ^ Z.log2_up n).

(** [free_lists[order].push_back(p)] *)
Definition push_free (order : nat) (p : Z) (l : list slist) : outcome (list slist) :=
  match l !! order with Some b => Done (<[order := push_back p b]> l) | None => Panicked end.

(** The first list from [i] on, among the next [n], that is not empty. *)
Fixpoint find_free (i n : nat) (l : list slist) : option (nat * Z * list slist) :=
  match n with
  | O => None
  | S n =>
      match l !! i with
      | Some b => match pop_back b with Some (p, b) => Some (i, p, <[i := b]> l) | None => find_free (S i) n l end
      | None => None
      end
  end.

Section arena.
(** [size_of::<FrameInfo>()] *)
Context (ARENA_PAGE_BOOKKEEPING_SIZE : Z).
Abbreviation SIZE := ARENA_PAGE_BOOKKEEPING_SIZE.

Definition bookkeeping_size (region_size : Z) : outcome Z := u_mul (region_size / PAGE_SIZE) SIZE.

(** Every slot starts wired. *)
Fixpoint wire_slots (n : nat) (idx : Z) (slots start : Z) : M Slots unit :=
  match n with
  | O => mret tt
  | S n =>
      offset ← lift (u_mul idx PAGE_SIZE);
      addr ← lift (addr_add start offset);
      _ ← write_slot (slots + idx * SIZE) (new_wired addr);
      wire_slots n (idx + 1) slots start
  end.

(** A region is handed over in blocks that are as large as they can be. *)
Fixpoint free_region (fuel : nat) (a : Arena) (free_frames addr remaining : Z) : M Slots (Arena * Z) :=
  if remaining <=? 0 then mret (a, free_frames)
  else
    match fuel with
    | O => fun _ => Undefined
    | S fuel =>
        prev ← lift (prev_power_of_two remaining);
        let size := Z.min (Z.min (Z.land addr (wrap (- addr))) prev) (Z.shiftl PAGE_SIZE (Z.of_nat MAX_ORDER - 1)) in
        let order := Z.to_nat (trailing_zeros (size / PAGE_SIZE)) in
        let free_frames := free_frames + size / PAGE_SIZE in
        let max_order := Nat.max (ar_max_order a) order in
        offset ← lift (addr_offset_from_unsigned addr (r_start (ar_range a)));
        let idx := offset / PAGE_SIZE in
        _ ← lift (assert_ (idx <? ar_slots_len a));
        let frame := ar_slots a + idx * SIZE in
        _ ← mark_as_free_for_freelist frame;
        lists ← lift (push_free order frame (ar_free_lists a));
        addr ← lift (addr_add addr size);
        remaining ← lift (u_sub remaining size);
        free_region fuel (MkArena lists (ar_range a) (ar_slots a) (ar_slots_len a) max_order (ar_used_frames a) (ar_total_frames a))
          free_frames addr remaining
    end.

Fixpoint free_regions (regions : list range) (a : Arena) (free_frames : Z) : M Slots (Arena * Z) :=
  match regions with
  | [] => mret (a, free_frames)
  | region :: regions =>
      remaining ← lift (range_len region);
      r ← free_region (Z.to_nat (remaining / PAGE_SIZE + 1)) a free_frames (r_start region) remaining;
      free_regions regions r.1 r.2
  end.

Definition from_selection (selection : ArenaSelection) (physmap : PhysMap) : M Slots Arena :=
  blen ← lift (range_len (sel_bookkeeping selection));
  alen ← lift (range_len (sel_arena selection));
  need ← lift (bookkeeping_size alen);
  _ ← lift (assert_ (need <=? blen));
  slots ← lift (phys_to_virt physmap (r_start (sel_bookkeeping selection)));
  let slots_len := blen / SIZE in
  let total_frames := alen / PAGE_SIZE in
  _ ← lift (assert_ (total_frames <=? slots_len));
  _ ← wire_slots (Z.to_nat total_frames) 0 slots (r_start (sel_arena selection));
  r ← free_regions (sel_regions selection)
        (MkArena (replicate MAX_ORDER slist_new) (sel_arena selection) slots slots_len 0 0 total_frames) 0;
  used ← lift (u_sub total_frames r.2);
  mret (with_used used r.1).

Definition max_alignment (a : Arena) : Z := Z.shiftl PAGE_SIZE (Z.of_nat (ar_max_order a)).

Definition find_specific (addr : Z) (a : Arena) : outcome (option Z) :=
  offset ← addr_offset_from_unsigned addr (r_start (ar_range a));
  let index := offset / PAGE_SIZE in
  mret (if index <? ar_slots_len a then Some (ar_slots a + index * SIZE) else None).

(** [for order in (min_order + 1..frame_order + 1).rev()], [n] rounds from
    [min_order + n] downwards: the upper half of the block goes to a free list. *)
Fixpoint split_block (n min_order : nat) (frame : Z) (a : Arena) : M Slots Arena :=
  match n with
  | O => mret a
  | S n =>
      let order := (min_order + S n)%nat in
      i ← read_slot frame;
      buddy_addr ← lift (addr_add (fi_addr i) (Z.shiftl PAGE_SIZE (Z.of_nat order - 1)));
      slot ← lift (find_specific buddy_addr a);
      buddy ← lift (match slot with Some p => Done p | None => Panicked end);
      _ ← write_slot buddy (new_free buddy_addr);
      lists ← lift (push_free (order - 1) buddy (ar_free_lists a));
      split_block n min_order frame (with_lists lists a)
  end.

(** [self.free_lists[..=self.max_order].iter_mut().enumerate().skip(min_order).find_map(..)] *)
Definition take_block (min_order : nat) (a : Arena) : outcome (option (nat * Z * Arena)) :=
  _ ← assert_ (ar_max_order a <? length (ar_free_lists a))%nat;
  mret (match find_free min_order (S (ar_max_order a) - min_order) (ar_free_lists a) with
        | Some (order, frame, lists) => Some (order, frame, with_lists lists a)
        | None => None
        end).

Definition arena_allocate_one (a : Arena) : M Slots (option Z * Arena) :=
  r ← lift (take_block 0 a);
  match r with
  | Some (frame_order, frame, a) => a ← split_block frame_order 0 frame a; mret (Some frame, a)
  | None => mret (None, a)
  end.

(** Initialises the slots of a block. *)
Fixpoint fill_slots (n : nat) (idx frame base : Z) : M Slots (list Z) :=
  match n with
  | O => mret []
  | S n =>
      offset ← lift (u_mul idx PAGE_SIZE);
      addr ← lift (addr_add base offset);
      _ ← write_slot (frame + idx * SIZE) (new_free addr);
      rest ← fill_slots n (idx + 1) frame base;
      mret ((frame + idx * SIZE) :: rest)
  end.

Definition arena_allocate_contiguous (layout : Layout) (a : Arena) : M Slots (option slist * Arena) :=
  _ ← lift (assert_ (PAGE_SIZE <=? l_align layout));
  _ ← lift (assert_ (PAGE_SIZE <=? l_size layout));
  pow ← lift (next_power_of_two (l_size layout));
  let size := Z.max pow (l_align layout) in
  let size_frames := size / PAGE_SIZE in
  let min_order := Z.to_nat (trailing_zeros size_frames) in
  r ← lift (take_block min_order a);
  match r with
  | Some (frame_order, frame, a) =>
      a ← split_block (frame_order - min_order) min_order frame a;
      i ← read_slot frame;
      frames ← fill_slots (Z.to_nat size_frames) 0 frame (fi_addr i);
      mret (Some (slist_from_iter frames), with_used (ar_used_frames a + size_frames) a)
  | None => mret (None, a)
  end.

(** ** Selecting arenas *)

(** The free regions, the last one of the vector first. *)
Record ArenaSelections : Type := MkSelections { as_free_regions : list MemoryRegion; as_wasted_bytes : Z }.

Definition select_arenas (regions : list MemoryRegion) : ArenaSelections := MkSelections (rev regions) 0.

(** The bytes between the hull and a region that does not overlap it. *)
Definition hole_bytes (hull r : range) : outcome Z :=
  _ ← assert_ (negb (range_overlaps hull r));
  if r_end hull <=? r_start r then addr_offset_from_unsigned (r_start r) (r_end hull)
  else
    _ ← assert_ (r_end r <=? r_start hull);
    addr_offset_from_unsigned (r_start hull) (r_end r).

(** Regions are added to the hull as long as the bookkeeping for the holes is
    within bounds: the regions that are left, the wasted bytes, the hull and the
    regions in it. *)
Fixpoint absorb (free : list MemoryRegion) (wasted : Z) (hull : range) (regions : list range) :
    outcome (list MemoryRegion * Z * range * list range) :=
  match free with
  | [] => mret (free, wasted, hull, regions)
  | region :: rest =>
      bytes ← hole_bytes hull (mr_range region);
      waste ← u_mul SIZE (bytes / PAGE_SIZE);
      total ← u_add wasted waste;
      if MAX_WASTED_ARENA_BYTES <? total then mret (free, wasted, hull, regions)
      else
        let r := mr_range region in
        absorb rest total (Range (Z.min (r_start hull) (r_start r)) (Z.max (r_end hull) (r_end r))) (regions ++ [r])
  end.

Fixpoint align_regions (l : list range) : outcome (list range) :=
  match l with
  | [] => mret []
  | r :: l => r ← range_align_in r PAGE_SIZE; l ← align_regions l; mret (r :: l)
  end.

Fixpoint region_lens (l : list range) : outcome (list Z) :=
  match l with [] => mret [] | r :: l => n ← range_len r; l ← region_lens l; mret (n :: l) end.

(** [max_by_key]: the last of the elements with the greatest key. *)
Fixpoint last_max (i : nat) (best : option (nat * Z)) (lens : list Z) : option (nat * Z) :=
  match lens with
  | [] => best
  | n :: lens =>
      last_max (S i) (match best with Some (_, m) => if m <=? n then Some (i, n) else best | None => Some (i, n) end) lens
  end.

Definition by_start (r1 r2 : range) : Prop := r_start r1 <= r_start r2.
#[global] Instance by_start_dec : RelDecision by_start := fun r1 r2 => decide (r_start r1 <= r_start r2).

Definition selections_next : M ArenaSelections (result range (option ArenaSelection)) := fun s =>
  match as_free_regions s with
  | [] => Done (Ok None, s)
  | seed :: free =>
      '(free, wasted, hull, regions) ← absorb free (as_wasted_bytes s) (mr_range seed) [mr_range seed];
      arena ← range_align_in hull PAGE_SIZE;
      aligned ← align_regions regions;
      let regions := merge_sort by_start (List.filter (fun r => negb (range_is_empty r)) aligned) in
      len ← range_len arena;
      need ← bookkeeping_size len;
      lens ← region_lens regions;
      match last_max 0 None lens with
      | Some (i, n) =>
          match regions !! i with
          | Some host =>
              if need <=? n then
                e ← addr_sub (r_end host) need;
                bookkeeping_start ← align_down e PAGE_SIZE;
                let regions := List.filter (fun r => negb (range_is_empty r)) (<[i := Range (r_start host) bookkeeping_start]> regions) in
                Done (Ok (Some (MkSelection arena regions (Range bookkeeping_start (r_end host)) wasted)), MkSelections free 0)
              else Done (Err arena, MkSelections free wasted)
          | None => Panicked
          end
      | None => Done (Err arena, MkSelections free wasted)
      end
  end.

(** ** The frame allocator (mod.rs) *)

(** The slots, the arenas and the caches of the CPUs. *)
Record KFrames : Type := MkFrames { kf_slots : Slots; kf_arenas : list Arena; kf_caches : gmap Z slist; kf_max_alignment : Z }.

Definition cache (cpu : Z) (f : KFrames) : slist := default slist_new (kf_caches f !! cpu).
Definition set_cache (cpu : Z) (l : slist) : M KFrames unit := fun f =>
  Done (tt, MkFrames (kf_slots f) (kf_arenas f) (<[cpu := l]> (kf_caches f)) (kf_max_alignment f)).
Definition in_slots {A} (m : M Slots A) : M KFrames A := fun f =>
  match m (kf_slots f) with
  | Done (a, s) => Done (a, MkFrames s (kf_arenas f) (kf_caches f) (kf_max_alignment f))
  | Panicked => Panicked
  | Undefined => Undefined
  end.

Fixpoint new_arenas (fuel : nat) (physmap : PhysMap) (s : ArenaSelections) (arenas : list Arena) (align : Z) :
    M Slots (list Arena * Z) :=
  match fuel with
  | O => fun _ => Undefined
  | S fuel =>
      r ← lift (selections_next s);
      match r.1 with
      | Ok None => mret (arenas, align)
      | Ok (Some selection) =>
          a ← from_selection selection physmap;
          new_arenas fuel physmap r.2 (arenas ++ [a]) (Z.max align (max_alignment a))
      | Err _ => new_arenas fuel physmap r.2 arenas align
      end
  end.

(** Every selection uses up a region. *)
Definition frames_new (regions : list MemoryRegion) (physmap : PhysMap) : outcome KFrames :=
  match new_arenas (S (length regions)) physmap (select_arenas regions) [] PAGE_SIZE ∅ with
  | Done ((arenas, align), slots) => Done (MkFrames slots arenas ∅ align)
  | Panicked => Panicked
  | Undefined => Undefined
  end.

(** The arenas are tried in order. *)
Fixpoint over_arenas {A} (op : Arena -> M Slots (option A * Arena)) (arenas : list Arena) : M Slots (option A * list Arena) :=
  match arenas with
  | [] => mret (None, [])
  | a :: arenas =>
      r ← op a;
      match r.1 with
      | Some x => mret (Some x, r.2 :: arenas)
      | None => rest ← over_arenas op arenas; mret (rest.1, r.2 :: rest.2)
      end
  end.

Definition global {A} (op : Arena -> M Slots (option A * Arena)) : M KFrames (option A) := fun f =>
  match over_arenas op (kf_arenas f) (kf_slots f) with
  | Done ((x, arenas), s) => Done (x, MkFrames s arenas (kf_caches f) (kf_max_alignment f))
  | Panicked => Panicked
  | Undefined => Undefined
  end.

(** ** Frames (frame.rs) *)

Definition frame_refcount (p : Z) : M KFrames Z := i ← in_slots (read_slot p); mret (fi_refcount i).
Definition frame_addr (p : Z) : M KFrames Z := i ← in_slots (read_slot p); mret (fi_addr i).
Definition set_refcount (p n : Z) : M KFrames unit := i ← in_slots (read_slot p); in_slots (write_slot p (MkInfo n (fi_addr i))).
Definition is_unique (p : Z) : M KFrames bool := n ← frame_refcount p; mret (n =? 1).

Definition from_free_info (p : Z) : M KFrames Z :=
  prev_refcount ← frame_refcount p;
  _ ← set_refcount p 1;
  _ ← lift (assert_ (prev_refcount =? 0));
  mret p.

Definition frame_clone (p : Z) : M KFrames Z :=
  old_size ← frame_refcount p;
  _ ← set_refcount p (wrapping_add old_size 1);
  _ ← lift (assert_ (negb (old_size =? 0)));
  _ ← lift (assert_ (old_size <=? MAX_REFCOUNT));
  mret p.

Definition drop_slow (cpu p : Z) : M KFrames unit := fun f => set_cache cpu (push_back p (cache cpu f)) f.

Definition frame_drop (cpu p : Z) : M KFrames unit :=
  n ← frame_refcount p;
  _ ← set_refcount p (wrapping_sub n 1);
  if n =? 1 then drop_slow cpu p else mret tt.

(** ** Allocation *)

Definition cache_allocate_one (cpu : Z) : M KFrames (option Z) := fun f =>
  match pop_front (cache cpu f) with
  | None => Done (None, f)
  | Some (p, l) => (_ ← set_cache cpu l; mret (Some p)) f
  end.

(** The loop of [find_contiguous_run] over the addresses of the cache. *)
Fixpoint find_run (frames_needed align : Z) (i : nat) (start : nat) (run : Z) (prev : option Z) (addrs : list Z) : outcome (option nat) :=
  match addrs with
  | [] => mret None
  | addr :: addrs =>
      let extends_run := match prev with Some p => wrapping_sub addr p =? PAGE_SIZE | None => false end in
      r ← (if (0 <? run) && extends_run then mret (start, run + 1)
           else aligned ← is_aligned_to addr align; mret (if aligned : bool then (i, 1) else (start, 0)));
      if r.2 =? frames_needed then mret (Some r.1)
      else find_run frames_needed align (S i) r.1 r.2 (Some addr) addrs
  end.
Definition find_contiguous_run (frames_needed align : Z) (addrs : list Z) : outcome (option nat) :=
  find_run frames_needed align 0 0 0 None addrs.

Fixpoint addresses_of (l : list Z) : M KFrames (list Z) :=
  match l with [] => mret [] | p :: l => a ← frame_addr p; l ← addresses_of l; mret (a :: l) end.

Definition cache_allocate_contiguous (cpu : Z) (layout : Layout) : M KFrames (option slist) := fun f =>
  let l := cache cpu f in
  let frames_needed := l_size layout / PAGE_SIZE in
  if (frames_needed =? 0) || (slist_len l <? frames_needed) then Done (None, f)
  else
    (addrs ← addresses_of (slist_iter l);
     r ← lift (find_contiguous_run frames_needed (l_align layout) addrs);
     match r with
     | None => mret None
     | Some start =>
         let first := slist_split_off start l in
         let split := slist_split_off (Z.to_nat frames_needed) first.2 in
         _ ← set_cache cpu (slist_append first.1 split.2);
         mret (Some split.1)
     end) f.

Definition alloc_one (cpu : Z) : M KFrames (result unit Z) :=
  cached ← cache_allocate_one cpu;
  r ← (match cached with Some p => mret (Some p) | None => global arena_allocate_one end);
  match r with
  | Some p => frame ← from_free_info p; n ← frame_refcount frame; _ ← lift (assert_ (n <? MAX_REFCOUNT)); mret (Ok frame)
  | None => mret (Err tt)
  end.

Definition alloc_contiguous (cpu : Z) (layout : Layout) : M KFrames (result unit slist) :=
  r ← cache_allocate_contiguous cpu layout;
  match r with
  | Some frames => mret (Ok frames)
  | None =>
      r ← global (arena_allocate_contiguous layout);
      match r with
      | None => mret (Err tt)
      | Some refill =>
          _ ← (fun f => set_cache cpu (slist_append (cache cpu f) refill) f);
          r ← cache_allocate_contiguous cpu layout;
          mret (match r with Some frames => Ok frames | None => Err tt end)
      end
  end.

(** ** Zeroed memory *)

Definition alloc_one_zeroed (cpu : Z) (physmap : PhysMap) : M (world KFrames) (result unit Z) :=
  frame <-? on_frames (alloc_one cpu);
  addr ← on_frames (frame_addr frame);
  virt ← lift (phys_to_virt physmap addr);
  _ ← arch_write_bytes virt 0 PAGE_SIZE;
  mret (Ok frame).

(** The slice that is zeroed has as many bytes as there are frames. *)
Definition alloc_contiguous_zeroed (cpu : Z) (layout : Layout) (physmap : PhysMap) : M (world KFrames) (result unit slist) :=
  frames <-? on_frames (alloc_contiguous cpu layout);
  first ← lift (match slist_iter frames with p :: _ => Done p | [] => Panicked end);
  addr ← on_frames (frame_addr first);
  virt ← lift (phys_to_virt physmap addr);
  _ ← arch_write_bytes virt 0 (slist_len frames);
  mret (Ok frames).
End arena.
End frames.
