(* ===== verification/KernelFramesCorrect.v ===== *)
(** * Correctness of the kernel's buddy arenas

    What is free in an arena, as a list of frames, and how the operations
    change it. *)

From stdpp Require Import base numbers list gmap sorting.
From Stdlib Require Import ZArith Lia.
From S2P Require Import Prelude Address Riscv Arch PhysMap Machine LoaderRegions KernelSpace KernelFrames.

(** ** Blocks *)

Definition block_size (o : nat) : Z := 4096 * 2 ^ Z.of_nat o.

(** The frames of the block of order [o] at [a]. *)
Definition block_frames (o : nat) (a : Z) : list Z := (fun i => a + i * 4096) <$> seqZ 0 (2 ^ Z.of_nat o).

Lemma block_size_S o : block_size (S o) = 2 * block_size o.
Proof. unfold block_size. rewrite Nat2Z.inj_succ, Z.pow_succ_r by lia. lia. Qed.

Lemma block_size_pos o : 4096 <= block_size o.
Proof. unfold block_size. pose proof (Z.pow_pos_nonneg 2 (Z.of_nat o) ltac:(lia) ltac:(lia)). lia. Qed.

Lemma block_frames_0 a : block_frames 0 a = [a].
Proof. unfold block_frames. change (seqZ 0 (2 ^ Z.of_nat 0)) with [0]. cbn [fmap list_fmap]. by rewrite Z.mul_0_l, Z.add_0_r. Qed.

(** A block consists of two blocks of half its size. *)
Lemma block_frames_S o a : block_frames (S o) a = block_frames o a ++ block_frames o (a + block_size o).
Proof.
  unfold block_frames, block_size. rewrite Nat2Z.inj_succ, Z.pow_succ_r by lia.
  replace (2 * 2 ^ Z.of_nat o) with (2 ^ Z.of_nat o + 2 ^ Z.of_nat o) by lia.
  rewrite seqZ_app by lia. rewrite fmap_app. f_equal. rewrite Z.add_0_l.
  rewrite <- (Z.add_0_r (2 ^ Z.of_nat o)) at 1. rewrite <- fmap_add_seqZ, <- list_fmap_compose.
  apply list_fmap_ext. intros i x _. simpl. lia.
Qed.

Lemma elem_of_block o a x :
  x ∈ block_frames o a <-> exists i, 0 <= i < 2 ^ Z.of_nat o /\ x = a + i * 4096.
Proof.
  unfold block_frames. rewrite list_elem_of_fmap. setoid_rewrite elem_of_seqZ.
  split; intros (i & ? & ?); exists i; split; (lia || done).
Qed.

Lemma block_self o a : a ∈ block_frames o a.
Proof. apply elem_of_block. exists 0. pose proof (Z.pow_pos_nonneg 2 (Z.of_nat o) ltac:(lia) ltac:(lia)). lia. Qed.

Lemma block_in o a x : x ∈ block_frames o a -> a <= x <= a + block_size o - 4096 /\ (x - a) mod 4096 = 0.
Proof.
  rewrite elem_of_block. intros (i & Hi & ->). unfold block_size. split; [lia|].
  replace (a + i * 4096 - a) with (i * 4096) by lia. apply Z.mod_mul. lia.
Qed.

(** ** The free frames of an arena *)

Section arena.
Context {SL : SlotList} (SIZE : Z) (HSIZE : 0 < SIZE).
Implicit Types (s : gmap Z FrameInfo) (a : Arena).

Definition addr_of s (p : Z) : Z := default 0 (fi_addr <$> s !! p).

Definition list_frames s (o : nat) (l : list Z) : list Z := l ≫= (fun p => block_frames o (addr_of s p)).

Fixpoint lists_free s (o : nat) (ls : list (list Z)) : list Z :=
  match ls with [] => [] | l :: ls => list_frames s o l ++ lists_free s (S o) ls end.

(** The pointers of the free lists, by order. *)
Definition blocks a : list (list Z) := slist_iter <$> ar_free_lists a.

Definition arena_free s a : list Z := lists_free s 0 (blocks a).

(** The slot of a frame. *)
Definition slot_of a (x : Z) : Z := ar_slots a + (x - r_start (ar_range a)) / 4096 * SIZE.

(** A block of the arena. *)
Definition block_ok a (o : nat) (x : Z) : Prop :=
  x mod block_size o = 0 /\ r_start (ar_range a) <= x /\ x + block_size o <= r_end (ar_range a).

(** The bookkeeping covers the frames. *)
Record geometry a : Prop := {
  geo_start : 0 <= r_start (ar_range a) /\ r_start (ar_range a) mod 4096 = 0;
  geo_end : r_start (ar_range a) <= r_end (ar_range a) < USIZE_MOD;
  geo_slots : r_end (ar_range a) - r_start (ar_range a) <= 4096 * ar_slots_len a;
}.

Record arena_ok s a : Prop := {
  ao_geometry : geometry a;
  ao_lists : length (blocks a) = MAX_ORDER;
  ao_max : (ar_max_order a < MAX_ORDER)%nat;
  ao_above : forall o l, blocks a !! o = Some l -> (ar_max_order a < o)%nat -> l = [];
  ao_block : forall o l p, blocks a !! o = Some l -> p ∈ l ->
    exists x, s !! p = Some (MkInfo 0 x) /\ p = slot_of a x /\ block_ok a o x;
  ao_nodup : NoDup (arena_free s a);
}.

Lemma list_frames_app s o l l' : list_frames s o (l ++ l') = list_frames s o l ++ list_frames s o l'.
Proof. unfold list_frames. apply bind_app. Qed.

Lemma lists_free_focus s ls o i l :
  ls !! i = Some l -> lists_free s o ls ≡ₚ list_frames s (o + i) l ++ lists_free s o (<[i := []]> ls).
Proof.
  revert o i. induction ls as [|l0 ls IH]; intros o i Hi; [done|]. destruct i as [|i]; simpl in *.
  - injection Hi as ->. by rewrite Nat.add_0_r.
  - rewrite (IH (S o) i Hi). replace (o + S i)%nat with (S o + i)%nat by lia. rewrite !app_assoc.
    f_equiv. apply Permutation_app_comm.
Qed.

Lemma lists_free_insert s ls o i l l' :
  ls !! i = Some l ->
  list_frames s (o + i) l' ++ lists_free s o ls ≡ₚ list_frames s (o + i) l ++ lists_free s o (<[i := l']> ls).
Proof.
  intros Hi. rewrite (lists_free_focus s ls o i l Hi).
  rewrite (lists_free_focus s (<[i := l']> ls) o i l') by (apply list_lookup_insert_eq; by eapply lookup_lt_Some).
  rewrite list_insert_insert_eq. rewrite !app_assoc. f_equiv. apply Permutation_app_comm.
Qed.

Lemma lists_free_agree s s' ls o :
  (forall i l p, ls !! i = Some l -> p ∈ l -> s' !! p = s !! p) -> lists_free s' o ls = lists_free s o ls.
Proof.
  revert o. induction ls as [|l ls IH]; intros o Hag; [done|]. simpl. f_equal.
  - specialize (Hag 0%nat l). unfold list_frames. induction l as [|p l IHl]; [done|]. simpl. f_equal.
    + unfold addr_of. by rewrite (Hag p) by (done || by left).
    + apply IHl. intros q Hq Hin. apply Hag; [done|by right].
  - apply IH. intros i l' p Hi Hp. by apply (Hag (S i) l' p).
Qed.

Lemma lists_free_elem s ls o i l p :
  ls !! i = Some l -> p ∈ l -> forall x, x ∈ block_frames (o + i) (addr_of s p) -> x ∈ lists_free s o ls.
Proof.
  intros Hi Hp x Hx. rewrite (lists_free_focus s ls o i l Hi). apply elem_of_app. left.
  unfold list_frames. apply list_elem_of_bind. by exists p.
Qed.

Lemma arena_free_slot s a o l p :
  arena_ok s a -> blocks a !! o = Some l -> p ∈ l -> exists x, p = slot_of a x /\ x ∈ arena_free s a /\ addr_of s p = x.
Proof.
  intros Ha Ho Hp. destruct (ao_block _ _ Ha o l p Ho Hp) as (x & Hs & -> & _). exists x. split; [done|].
  assert (addr_of s (slot_of a x) = x) as Hx by (unfold addr_of; by rewrite Hs). split; [|done].
  eapply (lists_free_elem s _ 0 o l); [done|done|]. rewrite Hx. apply block_self.
Qed.

(** Frames of the arena have slots of their own. *)
Definition in_arena a (x : Z) : Prop :=
  x mod 4096 = 0 /\ r_start (ar_range a) <= x /\ x + 4096 <= r_end (ar_range a).

Lemma slot_of_inj a x y : geometry a -> in_arena a x -> in_arena a y -> slot_of a x = slot_of a y -> x = y.
Proof.
  intros [[H0 Hs] _ _] [Hx _] [Hy _] Heq. unfold slot_of in Heq.
  assert ((x - r_start (ar_range a)) / 4096 = (y - r_start (ar_range a)) / 4096) as Hd by nia.
  assert (forall z, z mod 4096 = 0 -> z - r_start (ar_range a) = 4096 * ((z - r_start (ar_range a)) / 4096)) as Hz.
  { intros z Hzm. apply Z.div_exact; [lia|]. by rewrite Zminus_mod, Hzm, Hs. }
  pose proof (Hz x Hx). pose proof (Hz y Hy). lia.
Qed.

Lemma block_size_mod o x : x mod block_size o = 0 -> x mod 4096 = 0.
Proof.
  intros Hx. apply Z.mod_divide in Hx as [q ->]; [|pose proof (block_size_pos o); lia]. unfold block_size.
  replace (q * (4096 * 2 ^ Z.of_nat o)) with (q * 2 ^ Z.of_nat o * 4096) by lia. apply Z.mod_mul. lia.
Qed.

Lemma block_in_arena a o x y : block_ok a o x -> y ∈ block_frames o x -> in_arena a y.
Proof.
  intros (Hx & Hs & He) Hy. apply block_in in Hy as [Hy Hm]. apply block_size_mod in Hx.
  split; [|lia]. replace y with (x + (y - x)) by lia. rewrite Z.add_mod, Hx, Hm by lia. done.
Qed.

Lemma lists_free_inv s ls o x :
  x ∈ lists_free s o ls -> exists i l p, ls !! i = Some l /\ p ∈ l /\ x ∈ block_frames (o + i) (addr_of s p).
Proof.
  revert o. induction ls as [|l ls IH]; intros o Hx; [by apply elem_of_nil in Hx|]. simpl in Hx.
  apply elem_of_app in Hx as [Hx|Hx].
  - unfold list_frames in Hx. apply list_elem_of_bind in Hx as (p & Hx & Hp). exists 0%nat, l, p. by rewrite Nat.add_0_r.
  - apply IH in Hx as (i & l' & p & Hi & Hp & Hx). exists (S i), l', p. by replace (o + S i)%nat with (S o + i)%nat by lia.
Qed.

Lemma arena_free_in s a x : arena_ok s a -> x ∈ arena_free s a -> in_arena a x.
Proof.
  intros Ha Hx. apply lists_free_inv in Hx as (i & l & p & Hi & Hp & Hx).
  destruct (ao_block _ _ Ha i l p Hi Hp) as (y & Hs & -> & Hb). unfold addr_of in Hx. rewrite Hs in Hx.
  by eapply block_in_arena.
Qed.

(** ** Taking and splitting a block *)

Lemma read_slot_Done p i s : s !! p = Some i -> read_slot p s = Done (i, s).
Proof. intros Hp. unfold read_slot. by rewrite Hp. Qed.

Lemma write_slot_Done p i s : write_slot p i s = Done (tt, <[p := i]> s).
Proof. done. Qed.

Lemma find_free_Some i n ls j p ls' :
  find_free i n ls = Some (j, p, ls') ->
  (i <= j < i + n)%nat /\ exists b, (slist_iter <$> ls) !! j = Some (b ++ [p]) /\ slist_iter <$> ls' = <[j := b]> (slist_iter <$> ls).
Proof.
  revert i. induction n as [|n IH]; intros i; [done|]. simpl. destruct (ls !! i) as [b|] eqn:Hi; [|done].
  pose proof (pop_back_spec b) as Hb. destruct (pop_back b) as [[q b']|].
  - intros [= <- <- <-]. split; [lia|]. exists (slist_iter b'). rewrite list_lookup_fmap, Hi, list_fmap_insert. cbn. by rewrite Hb.
  - intros Hf. destruct (IH _ Hf) as [Hj Hl]. split; [lia|done].
Qed.

Lemma find_free_None i n ls :
  find_free i n ls = None -> (i + n <= length ls)%nat ->
  forall j l, (i <= j < i + n)%nat -> (slist_iter <$> ls) !! j = Some l -> l = [].
Proof.
  revert i. induction n as [|n IH]; intros i; [lia|]. simpl. intros Hf Hlen j l Hj Hl.
  destruct (lookup_lt_is_Some_2 ls i ltac:(lia)) as [b Hb]. rewrite Hb in Hf.
  pose proof (pop_back_spec b) as Hp. destruct (pop_back b) as [[q b']|]; [done|].
  destruct (decide (i = j)) as [->|]; [rewrite list_lookup_fmap, Hb in Hl; cbn in Hl; congruence|].
  apply (IH (S i) Hf ltac:(lia) j l); [lia|done].
Qed.

(** A list of an arena has lost some of its blocks. *)
Lemma arena_ok_remove s a o b b' ls :
  arena_ok s a -> blocks a !! o = Some (b ++ b') -> slist_iter <$> ls = <[o := b]> (blocks a) ->
  arena_ok s (with_lists ls a) /\ arena_free s a ≡ₚ list_frames s o b' ++ arena_free s (with_lists ls a).
Proof.
  intros Ha Ho Hls. pose proof (lookup_lt_Some _ _ _ Ho) as Hlt. change (slist_iter <$> ls) with (blocks (with_lists ls a)) in Hls.
  assert (arena_free s a ≡ₚ list_frames s o b' ++ arena_free s (with_lists ls a)) as Hperm.
  { unfold arena_free. rewrite Hls. pose proof (lists_free_insert s _ 0 o _ b Ho) as Hp.
    rewrite list_frames_app, <- app_assoc in Hp. by apply Permutation_app_inv_l in Hp. }
  split; [|done]. destruct Ha as [Hg Hlen Hmax Habove Hblock Hnd]. constructor; rewrite ?Hls; cbn [ar_max_order with_lists].
  - by destruct Hg.
  - by rewrite length_insert.
  - done.
  - intros o' l Hl Hgt. destruct (decide (o = o')) as [<-|Hne].
    + rewrite list_lookup_insert_eq in Hl by done. injection Hl as <-. specialize (Habove _ _ Ho Hgt).
      by apply app_eq_nil in Habove as [-> _].
    + rewrite list_lookup_insert_ne in Hl by done. by apply (Habove o').
  - intros o' l p Hl Hp. destruct (decide (o = o')) as [<-|Hne].
    + rewrite list_lookup_insert_eq in Hl by done. injection Hl as <-. eapply Hblock; [done|]. set_solver.
    + rewrite list_lookup_insert_ne in Hl by done. by eapply Hblock.
  - rewrite Hperm in Hnd. by apply NoDup_app in Hnd as (_ & _ & Hnd).
Qed.

Lemma take_block_ok s a m :
  arena_ok s a ->
  exists r, take_block m a = Done r
  /\ match r with
     | None => forall o l, (m <= o)%nat -> blocks a !! o = Some l -> l = []
     | Some (o, p, a') => exists ls x, a' = with_lists ls a /\ (m <= o <= ar_max_order a)%nat
         /\ s !! p = Some (MkInfo 0 x) /\ p = slot_of a x /\ block_ok a o x
         /\ arena_free s a ≡ₚ block_frames o x ++ arena_free s a' /\ arena_ok s a'
     end.
Proof.
  intros Ha. unfold take_block. pose proof (ao_lists _ _ Ha) as Hlen. pose proof (ao_max _ _ Ha) as Hmax.
  unfold blocks in Hlen. rewrite length_fmap in Hlen. rewrite Hlen. replace (ar_max_order a <? MAX_ORDER)%nat with true by (symmetry; by apply Nat.ltb_lt).
  cbn [assert_ mbind outcome_bind]. eexists. split; [done|].
  destruct (find_free _ _ _) as [[[o p] ls]|] eqn:Hf.
  - apply find_free_Some in Hf as (Ho & b & Hl & Hls).
    destruct (arena_ok_remove s a o b [p] ls Ha Hl Hls) as [Ha' Hperm].
    destruct (ao_block _ _ Ha o _ p Hl ltac:(set_solver)) as (x & Hs & Hp & Hb).
    exists ls, x. split; [done|]. split; [lia|]. split; [done|]. split; [done|].
    split; [done|]. split; [|done]. rewrite Hperm. unfold list_frames at 1. cbn. rewrite app_nil_r. unfold addr_of. by rewrite Hs.
  - intros o l Hm Hl. destruct (decide (o <= ar_max_order a)%nat) as [Hle|Hgt].
    + eapply (find_free_None _ _ _ Hf); [|..|exact Hl]; lia.
    + apply (ao_above _ _ Ha o l Hl). lia.
Qed.

(** Only slots of frames of [l] differ, and they are initialised. *)
Definition touched s s' a (l : list Z) : Prop :=
  forall p, s' !! p = s !! p \/ exists x n, x ∈ l /\ p = slot_of a x /\ s' !! p = Some (MkInfo n x).

Lemma touched_other s s' a l p : touched s s' a l -> (forall x, x ∈ l -> p <> slot_of a x) -> s' !! p = s !! p.
Proof. intros Ht Hp. destruct (Ht p) as [|(x & n & Hx & Hs & _)]; [done|]. by destruct (Hp x Hx). Qed.

Lemma touched_refl s a l : touched s s a l.
Proof. intros p. by left. Qed.

Lemma touched_mono s s' a l l' : touched s s' a l -> (forall x, x ∈ l -> x ∈ l') -> touched s s' a l'.
Proof. intros Ht Hl p. destruct (Ht p) as [|(x & n & Hx & Hs)]; [by left|right]. exists x, n. split; [by apply Hl|done]. Qed.

Lemma touched_trans s s1 s' a l : touched s s1 a l -> touched s1 s' a l -> touched s s' a l.
Proof.
  intros H1 H2 p. destruct (H2 p) as [Hp|?]; [|by right]. destruct (H1 p) as [Hp'|(x & n & Hx & Hs & Hn)].
  - left. congruence.
  - right. exists x, n. split_and!; [done|done|congruence].
Qed.

Lemma touched_insert s a y n : touched s (<[slot_of a y := MkInfo n y]> s) a [y].
Proof.
  intros p. destruct (decide (p = slot_of a y)) as [->|].
  - right. exists y, n. split; [by left|]. split; [done|apply lookup_insert_eq].
  - left. by rewrite lookup_insert_ne.
Qed.

(** The slots of the free frames are all an arena depends on. *)
Lemma arena_ok_agree s s' a :
  arena_ok s a -> (forall x, x ∈ arena_free s a -> s' !! slot_of a x = s !! slot_of a x) ->
  arena_free s' a = arena_free s a /\ arena_ok s' a.
Proof.
  intros Ha Hs.
  assert (forall o b p, blocks a !! o = Some b -> p ∈ b -> s' !! p = s !! p) as Hag.
  { intros o b p Ho Hp. destruct (arena_free_slot s a o b p Ha Ho Hp) as (x & -> & Hx & _). by apply Hs. }
  assert (arena_free s' a = arena_free s a) as Hfree by by apply lists_free_agree.
  split; [done|]. destruct Ha as [Hg Hlen Hmax Habove Hblock Hnd]. constructor; try done; [|by rewrite Hfree].
  intros o b p Ho Hp. rewrite (Hag o b p Ho Hp). by eapply Hblock.
Qed.

(** Changing slots of frames that are not free. *)
Lemma arena_ok_touched s s' a l :
  arena_ok s a -> touched s s' a l -> (forall x, x ∈ l -> in_arena a x /\ x ∉ arena_free s a) ->
  arena_free s' a = arena_free s a /\ arena_ok s' a.
Proof.
  intros Ha Ht Hl. apply arena_ok_agree; [done|]. intros x Hx. apply (touched_other _ _ _ _ _ Ht). intros y Hy Heq.
  destruct (Hl y Hy) as [Hin Hnot]. apply slot_of_inj in Heq as ->; [done|apply Ha|by eapply arena_free_in|done].
Qed.

(** A block is freed. *)
Lemma arena_ok_add s a o l y :
  arena_ok s a -> (o <= ar_max_order a)%nat -> ar_free_lists a !! o = Some l -> block_ok a o y ->
  NoDup (block_frames o y ++ arena_free s a) ->
  let s' := <[slot_of a y := MkInfo 0 y]> s in
  let a' := with_lists (<[o := push_back (slot_of a y) l]> (ar_free_lists a)) a in
  arena_ok s' a' /\ arena_free s' a' ≡ₚ block_frames o y ++ arena_free s a.
Proof.
  intros Ha Hmax Hl Hb Hnd s' a'. assert (blocks a !! o = Some (slist_iter l)) as Ho by (unfold blocks; by rewrite list_lookup_fmap, Hl).
  pose proof (lookup_lt_Some _ _ _ Ho) as Hlt.
  assert (blocks a' = <[o := slist_iter l ++ [slot_of a y]]> (blocks a)) as Hls
    by (unfold blocks, a'; cbn [ar_free_lists with_lists]; by rewrite list_fmap_insert, push_back_spec).
  assert (y ∉ arena_free s a) as Hy.
  { apply NoDup_app in Hnd as (_ & Hnd & _). apply Hnd, block_self. }
  assert (in_arena a y) as Hin by (eapply block_in_arena; [done|apply block_self]).
  destruct (arena_ok_touched s s' a [y] Ha (touched_insert _ _ _ _)) as [Hfree Ha1].
  { intros z Hz. by apply list_elem_of_singleton in Hz as ->. }
  assert (addr_of s' (slot_of a y) = y) as Haddr by (unfold addr_of, s'; by rewrite lookup_insert_eq).
  assert (arena_free s' a' ≡ₚ block_frames o y ++ arena_free s a) as Hperm.
  { rewrite <- Hfree. unfold arena_free. rewrite Hls.
    pose proof (lists_free_insert s' _ 0 o _ (slist_iter l ++ [slot_of a y]) Ho) as Hp.
    rewrite list_frames_app, <- app_assoc in Hp. apply Permutation_app_inv_l in Hp.
    rewrite <- Hp. unfold list_frames. cbn. by rewrite app_nil_r, Haddr. }
  split; [|done]. destruct Ha1 as [Hg Hlen Hmo Habove Hblock Hnd1].
  constructor; rewrite ?Hls; cbn [ar_max_order with_lists a']; [by destruct Hg|by rewrite length_insert|done|..].
  - intros o' l' Hl' Hgt. rewrite list_lookup_insert_ne in Hl' by lia. by apply (Habove o').
  - intros o' l' p Hl' Hp. destruct (decide (o = o')) as [<-|Hne].
    + rewrite list_lookup_insert_eq in Hl' by done. injection Hl' as <-. apply elem_of_app in Hp as [Hp|Hp]; [by eapply Hblock|].
      apply list_elem_of_singleton in Hp as ->. exists y. split; [apply lookup_insert_eq|done].
    + rewrite list_lookup_insert_ne in Hl' by done. by eapply Hblock.
  - by rewrite Hperm.
Qed.

Lemma block_halves a o x : block_ok a (S o) x -> block_ok a o x /\ block_ok a o (x + block_size o).
Proof.
  unfold block_ok. rewrite block_size_S. pose proof (block_size_pos o) as Hp. intros (Hx & Hs & He).
  apply Z.mod_divide in Hx as [q ->]; [|lia].
  split; (split; [apply Z.mod_divide; [lia|]|lia]); [exists (2 * q)|exists (2 * q + 1)]; lia.
Qed.

Lemma find_specific_ok a y : geometry a -> in_arena a y -> find_specific SIZE y a = Done (Some (slot_of a y)).
Proof.
  intros [Hs He Hsl] (Hy & Hge & Hle). unfold find_specific, addr_offset_from_unsigned.
  replace (y <? r_start (ar_range a)) with false by lia. cbn [mbind outcome_bind].
  unfold wrapping_sub. rewrite wrap_small by (unfold is_usize; lia).
  assert ((y - r_start (ar_range a)) / PAGE_SIZE < ar_slots_len a) as Hlt by (apply Z.div_lt_upper_bound; unfold PAGE_SIZE; lia).
  apply Z.ltb_lt in Hlt. by rewrite Hlt.
Qed.

Lemma page_shift o : Z.shiftl PAGE_SIZE (Z.of_nat o) = block_size o.
Proof. unfold block_size, PAGE_SIZE. by rewrite Z.shiftl_mul_pow2 by lia. Qed.

(** Splitting a block that is not free: what is left of it is the block of
    order [m] at its start. *)
Lemma split_block_ok n m p x s a :
  arena_ok s a -> (m + n <= ar_max_order a)%nat -> s !! p = Some (MkInfo 0 x) -> p = slot_of a x ->
  block_ok a (m + n) x -> NoDup (block_frames (m + n) x ++ arena_free s a) ->
  exists ls s', split_block SIZE n m p a s = Done (with_lists ls a, s')
  /\ arena_ok s' (with_lists ls a) /\ s' !! p = Some (MkInfo 0 x)
  /\ block_frames m x ++ arena_free s' (with_lists ls a) ≡ₚ block_frames (m + n) x ++ arena_free s a
  /\ touched s s' a (block_frames (m + n) x).
Proof.
  revert s a. induction n as [|n IH]; intros s a Ha Hmax Hs Hp Hb Hnd.
  - exists (ar_free_lists a), s. rewrite Nat.add_0_r. destruct a. do 4 (split; [done|]). apply touched_refl.
  - replace (m + S n)%nat with (S (m + n)) in * by lia. destruct (block_halves a (m + n) x Hb) as [Hb1 Hb2].
    set (y := x + block_size (m + n)) in *. rewrite block_frames_S in Hnd. fold y in Hnd.
    cbn [split_block]. step_by (read_slot_Done _ _ _ Hs). cbn [fi_addr].
    replace (m + S n)%nat with (S (m + n)) by lia.
    replace (Z.of_nat (S (m + n)) - 1) with (Z.of_nat (m + n)) by lia. rewrite page_shift.
    assert (is_usize y) as Hy.
    { pose proof (geo_start _ (ao_geometry _ _ Ha)). pose proof (geo_end _ (ao_geometry _ _ Ha)).
      pose proof (block_size_pos (m + n)). destruct Hb2 as (_ & ? & ?). unfold is_usize. lia. }
    step_by (u_add_Done x (block_size (m + n)) Hy). fold y.
    assert (in_arena a y) as Hin by (eapply block_in_arena; [exact Hb2|apply block_self]).
    step_by (find_specific_ok a y (ao_geometry _ _ Ha) Hin). step. step_by (write_slot_Done (slot_of a y) (new_free y) s).
    destruct (lookup_lt_is_Some_2 (ar_free_lists a) (m + n)) as [l Hl].
    { pose proof (ao_lists _ _ Ha) as Hlen. unfold blocks in Hlen. rewrite length_fmap in Hlen. rewrite Hlen. pose proof (ao_max _ _ Ha). lia. }
    replace (S (m + n) - 1)%nat with (m + n)%nat by lia. unfold push_free at 1. rewrite Hl. step.
    destruct (arena_ok_add s a (m + n) l y Ha ltac:(lia) Hl Hb2) as [Ha1 Hperm1].
    { rewrite <- app_assoc in Hnd. by apply NoDup_app in Hnd as (_ & _ & Hnd). }
    set (a1 := with_lists _ a) in *. change (new_free y) with (MkInfo 0 y). set (s1 := <[slot_of a y := MkInfo 0 y]> s) in *.
    assert (s1 !! p = Some (MkInfo 0 x)) as Hs1.
    { unfold s1. rewrite lookup_insert_ne; [done|]. rewrite Hp. intros Heq. apply slot_of_inj in Heq; [|apply Ha|done|].
      - unfold y in Heq. pose proof (block_size_pos (m + n)). lia.
      - eapply block_in_arena; [exact Hb1|apply block_self]. }
    destruct (IH s1 a1 Ha1 ltac:(cbn; lia) Hs1 Hp Hb1) as (ls & s' & Hrun & Ha' & Hs' & Hperm & Ht).
    { by rewrite Hperm1, app_assoc. }
    exists ls, s'. split; [exact Hrun|]. split; [exact Ha'|]. split; [done|]. split.
    { etransitivity; [exact Hperm|]. by rewrite Hperm1, block_frames_S, app_assoc. }
    apply (touched_trans s s1); [eapply touched_mono; [apply (touched_insert s a y 0)|]|eapply touched_mono; [exact Ht|]].
    + intros z Hz. apply list_elem_of_singleton in Hz as ->. rewrite block_frames_S. apply elem_of_app. right. apply block_self.
    + intros z Hz. rewrite block_frames_S. apply elem_of_app. by left.
Qed.

(** ** Allocation from an arena *)

(** The frames of [l] have been taken out of the arena: their slots are those of
    free frames, and only slots of frames that were free have changed. *)
Record taken s a s' a' (l : list Z) : Prop := {
  tk_ok : arena_ok s' a';
  tk_same : ar_range a' = ar_range a /\ ar_slots a' = ar_slots a /\ ar_slots_len a' = ar_slots_len a;
  tk_free : arena_free s a ≡ₚ l ++ arena_free s' a';
  tk_slots : forall x, x ∈ l -> s' !! slot_of a x = Some (MkInfo 0 x);
  tk_touched : touched s s' a (arena_free s a);
}.

Lemma arena_allocate_one_ok s a :
  arena_ok s a ->
  exists r a' s', arena_allocate_one SIZE a s = Done ((r, a'), s')
  /\ match r with
     | None => a' = a /\ s' = s /\ arena_free s a = []
     | Some p => exists x, p = slot_of a x /\ taken s a s' a' [x]
     end.
Proof.
  intros Ha. unfold arena_allocate_one. destruct (take_block_ok s a 0 Ha) as (r & Hr & Hres). step_by Hr.
  destruct r as [[[o p] a1]|].
  - destruct Hres as (ls & x & -> & Ho & Hs & Hp & Hb & Hperm & Ha1). pose proof (ao_nodup _ _ Ha) as Hnd.
    destruct (split_block_ok o 0 p x s (with_lists ls a) Ha1 ltac:(cbn; lia) Hs Hp Hb) as (ls' & s' & Hrun & Ha' & Hs' & Hperm' & Ht).
    { cbn [Nat.add]. by rewrite <- Hperm. }
    step_by Hrun. eexists _, _, s'. split; [done|]. exists x. split; [done|]. rewrite block_frames_0 in Hperm'.
    constructor; [exact Ha'|done|by rewrite Hperm, <- Hperm'|..].
    + intros y Hy. apply list_elem_of_singleton in Hy as ->. by rewrite <- Hp.
    + eapply touched_mono; [exact Ht|]. intros y Hy. rewrite Hperm. apply elem_of_app. by left.
  - exists None, a, s. split; [done|]. split; [done|]. split; [done|].
    destruct (arena_free s a) as [|x l] eqn:Hf; [done|].
    assert (x ∈ arena_free s a) as Hx by (rewrite Hf; by left).
    apply lists_free_inv in Hx as (i & l' & p & Hi & Hp & _). rewrite (Hres i l' ltac:(lia) Hi) in Hp. by apply elem_of_nil in Hp.
Qed.

Lemma slot_of_next a x i : slot_of a x + i * SIZE = slot_of a (x + i * 4096).
Proof.
  unfold slot_of. replace (x + i * 4096 - r_start (ar_range a)) with (x - r_start (ar_range a) + i * 4096) by lia.
  rewrite Z.div_add by lia. lia.
Qed.

(** The slots of [n] consecutive frames. *)
Lemma fill_slots_ok n idx x s a :
  (forall i, idx <= i < idx + Z.of_nat n -> in_arena a (x + i * 4096)) -> geometry a -> 0 <= idx -> 0 <= x ->
  exists s', fill_slots SIZE n idx (slot_of a x) x s = Done (slot_of a <$> ((fun i => x + i * 4096) <$> seqZ idx (Z.of_nat n)), s')
  /\ (forall i, idx <= i < idx + Z.of_nat n -> s' !! slot_of a (x + i * 4096) = Some (MkInfo 0 (x + i * 4096)))
  /\ touched s s' a ((fun i => x + i * 4096) <$> seqZ idx (Z.of_nat n)).
Proof.
  intros Hin Hg. revert idx s Hin. induction n as [|n IH]; intros idx s Hin Hidx Hx.
  - exists s. split; [done|]. split; [lia|apply touched_refl].
  - assert (is_usize (x + idx * 4096)) as Hu.
    { pose proof (geo_start _ Hg). pose proof (geo_end _ Hg). destruct (Hin idx ltac:(lia)) as (_ & ? & ?). unfold is_usize. lia. }
    cbn [fill_slots]. step_by (u_mul_Done idx PAGE_SIZE ltac:(unfold is_usize, PAGE_SIZE in *; lia)).
    step_by (u_add_Done x (idx * PAGE_SIZE) Hu). change PAGE_SIZE with 4096. rewrite slot_of_next.
    step_by (write_slot_Done (slot_of a (x + idx * 4096)) (new_free (x + idx * 4096)) s).
    destruct (IH (idx + 1) (<[slot_of a (x + idx * 4096) := new_free (x + idx * 4096)]> s)) as (s' & Hrun & Hs & Ht);
      [intros i Hi; apply Hin; lia|lia|done|].
    exists s'. rewrite (seqZ_cons idx) by lia. replace (Z.of_nat (S n) - 1) with (Z.of_nat n) by lia.
    replace (Z.pred (Z.of_nat (S n))) with (Z.of_nat n) by lia. rewrite <- Z.add_1_r.
    split; [step_by Hrun; done|]. cbn [fmap list_fmap]. split.
    + intros i Hi. destruct (decide (i = idx)) as [->|]; [|apply Hs; lia]. rewrite (touched_other _ _ _ _ _ Ht); [apply lookup_insert_eq|].
      intros y Hy Heq. apply list_elem_of_fmap in Hy as (j & -> & Hj%elem_of_seqZ).
      apply slot_of_inj in Heq; [lia|done|apply Hin; lia|apply Hin; lia].
    + eapply touched_trans; [eapply touched_mono; [apply (touched_insert s a (x + idx * 4096) 0)|]|eapply touched_mono; [exact Ht|]].
      * intros y Hy. apply list_elem_of_singleton in Hy as ->. by left.
      * intros y Hy. by right.
Qed.

(** Layouts of the standard library that the allocator accepts. *)
Definition layout_ok (layout : Layout) : Prop :=
  4096 <= l_size layout <= 2 ^ 63 /\ exists j, 12 <= j < 64 /\ l_align layout = 2 ^ j.

Lemma trailing_zeros_pow2 k : 0 <= k < 64 -> trailing_zeros (2 ^ k) = k.
Proof.
  intros Hk. unfold trailing_zeros. pose proof (pow2_usize k Hk) as Hu. pose proof (Z.pow_pos_nonneg 2 k ltac:(lia) ltac:(lia)).
  replace (2 ^ k =? 0) with false by lia. change (wrap (- 2 ^ k)) with (wrapping_sub 0 (2 ^ k)).
  rewrite land_high_mask by done. rewrite Z.mod_same by lia. rewrite Z.sub_0_r. apply Z.log2_pow2. lia.
Qed.

(** The order of the block for a layout. *)
Lemma layout_order layout :
  layout_ok layout ->
  exists pow m, next_power_of_two (l_size layout) = Done pow
  /\ (m <= 51)%nat /\ Z.max pow (l_align layout) = block_size m /\ l_size layout <= block_size m
  /\ block_size m mod l_align layout = 0
  /\ forall o, l_size layout <= block_size o -> l_align layout <= block_size o -> (m <= o)%nat.
Proof.
  intros (Hsz & j & Hj & Hal). unfold next_power_of_two. replace (l_size layout <=? 1) with false by lia.
  set (u := Z.log2_up (l_size layout)).
  assert (12 <= u <= 63) as Hu.
  { split; [change 12 with (Z.log2_up 4096); apply Z.log2_up_le_mono; lia|].
    change 63 with (Z.log2_up (2 ^ 63)). apply Z.log2_up_le_mono. lia. }
  assert (l_size layout <= 2 ^ u) as Hle by (apply Z.log2_up_spec; lia).
  exists (2 ^ u), (Z.to_nat (Z.max u j - 12)). split; [apply checked_Done, pow2_usize; lia|]. split; [lia|].
  assert (forall k, 12 <= k -> block_size (Z.to_nat (k - 12)) = 2 ^ k) as Hbs.
  { intros k Hk. unfold block_size. change 4096 with (2 ^ 12). rewrite <- Z.pow_add_r by lia. f_equal. lia. }
  rewrite Hbs by lia. rewrite Hal.
  assert (Z.max (2 ^ u) (2 ^ j) = 2 ^ Z.max u j) as Hmax.
  { destruct (Z.max_spec u j) as [[? ->]|[? ->]]; [apply Z.max_r|apply Z.max_l]; apply Z.pow_le_mono_r; lia. }
  split; [done|]. split; [rewrite <- Hmax; lia|]. split.
  { replace (Z.max u j) with ((Z.max u j - j) + j) by lia. rewrite Z.pow_add_r by lia. apply Z.mod_mul. lia. }
  intros o Ho1 Ho2. replace (block_size o) with (2 ^ (12 + Z.of_nat o)) in * by (unfold block_size; rewrite Z.pow_add_r by lia; done).
  apply Z.log2_up_le_pow2 in Ho1; [|lia]. apply Z.pow_le_mono_r_iff in Ho2; lia.
Qed.

Lemma block_size_pages m : block_size m / PAGE_SIZE = 2 ^ Z.of_nat m.
Proof. unfold block_size, PAGE_SIZE. rewrite Z.mul_comm, Z.div_mul by lia. done. Qed.

Lemma with_used_ok s a n : arena_ok s a -> arena_ok s (with_used n a).
Proof. intros [[? ? ?] ? ? ? ? ?]. by constructor; [constructor|..]. Qed.

(** The frames of a contiguous allocation. *)
Definition run (x : Z) (n : Z) : list Z := (fun i => x + i * 4096) <$> seqZ 0 n.

Lemma block_ok_le a m o x : (m <= o)%nat -> block_ok a o x -> block_ok a m x.
Proof. induction 1 as [|o Hle IH]; [done|]. intros Hb. by apply IH, block_halves. Qed.

(** A block is split down to order [m], and its slots are initialised. *)
Lemma take_run s a ls o m p x :
  arena_ok s a -> arena_ok s (with_lists ls a) -> (m <= o <= ar_max_order a)%nat ->
  s !! p = Some (MkInfo 0 x) -> p = slot_of a x -> block_ok a o x ->
  arena_free s a ≡ₚ block_frames o x ++ arena_free s (with_lists ls a) ->
  exists ls' s1 s2, split_block SIZE (o - m) m p (with_lists ls a) s = Done (with_lists ls' a, s1)
  /\ s1 !! p = Some (MkInfo 0 x)
  /\ fill_slots SIZE (Z.to_nat (2 ^ Z.of_nat m)) 0 p x s1 = Done (slot_of a <$> run x (2 ^ Z.of_nat m), s2)
  /\ forall used, taken s a s2 (with_used used (with_lists ls' a)) (run x (2 ^ Z.of_nat m)).
Proof.
  intros Ha Ha1 Ho Hs Hp Hb Hperm. pose proof (ao_nodup _ _ Ha) as Hnd. rewrite Hperm in Hnd.
  destruct (split_block_ok (o - m) m p x s (with_lists ls a) Ha1) as (ls' & s1 & Hrun & Ha' & Hs1 & Hperm' & Ht);
    [cbn; lia|done|done|by replace (m + (o - m))%nat with o by lia..|].
  replace (m + (o - m))%nat with o in * by lia. exists ls', s1.
  pose proof (Z.pow_pos_nonneg 2 (Z.of_nat m) ltac:(lia) ltac:(lia)) as Hpos. pose proof (block_ok_le a m o x ltac:(lia) Hb) as Hbm.
  destruct (fill_slots_ok (Z.to_nat (2 ^ Z.of_nat m)) 0 x s1 a) as (s2 & Hfill & Hs2 & Ht2).
  { intros i Hi. eapply block_in_arena; [exact Hbm|]. apply elem_of_block. exists i. split; [lia|done]. }
  { apply Ha. } { lia. } { pose proof (geo_start _ (ao_geometry _ _ Ha)). destruct Hb as (_ & ? & _). lia. }
  rewrite Z2Nat.id in Hfill, Ht2, Hs2 by lia. exists s2. split; [exact Hrun|]. split; [done|]. rewrite Hp. split; [exact Hfill|].
  change ((fun i => x + i * 4096) <$> seqZ 0 (2 ^ Z.of_nat m)) with (block_frames m x) in Ht2.
  rewrite <- Hperm' in Hnd. apply NoDup_app in Hnd as (_ & Hdisj & _).
  destruct (arena_ok_touched s1 s2 (with_lists ls' a) (block_frames m x) Ha' Ht2) as [Hfree Ha2].
  { intros y Hy. split; [by eapply block_in_arena|by apply Hdisj]. }
  intros used. constructor.
  - by apply with_used_ok.
  - done.
  - rewrite Hperm, <- Hperm'. change (arena_free s2 (with_used used (with_lists ls' a))) with (arena_free s2 (with_lists ls' a)).
    by rewrite Hfree.
  - intros y Hy. apply elem_of_block in Hy as (i & Hi & ->). apply Hs2. lia.
  - apply (touched_trans s s1); [eapply touched_mono; [exact Ht|]|eapply touched_mono; [exact Ht2|]]; intros y Hy; rewrite Hperm.
    + apply elem_of_app. by left.
    + rewrite <- Hperm'. apply elem_of_app. by left.
Qed.

Lemma arena_allocate_contiguous_ok s a layout :
  arena_ok s a -> layout_ok layout ->
  exists r a' s', arena_allocate_contiguous SIZE layout a s = Done ((r, a'), s')
  /\ match r with
     | None => a' = a /\ s' = s
         /\ forall o l, l_size layout <= block_size o -> l_align layout <= block_size o -> blocks a !! o = Some l -> l = []
     | Some ptrs => exists x n, slist_iter ptrs = slot_of a <$> run x n /\ taken s a s' a' (run x n)
         /\ l_size layout <= n * 4096 /\ x mod l_align layout = 0
     end.
Proof.
  intros Ha Hlay. destruct (layout_order layout Hlay) as (pow & m & Hpow & Hm & Hmax & Hfit & Hal & Hmin).
  destruct Hlay as (Hsz & j & Hj & Hjal). unfold arena_allocate_contiguous.
  assert (PAGE_SIZE <= l_align layout) as Hpa.
  { rewrite Hjal. change PAGE_SIZE with (2 ^ 12). apply Z.pow_le_mono_r; lia. }
  step_by (assert_leb PAGE_SIZE _ Hpa). step_by (assert_leb PAGE_SIZE (l_size layout) (proj1 Hsz)). step_by Hpow.
  rewrite Hmax, block_size_pages, trailing_zeros_pow2, Nat2Z.id by lia.
  destruct (take_block_ok s a m Ha) as (r & Hr & Hres). step_by Hr. destruct r as [[[o p] a1]|].
  - destruct Hres as (ls & x & -> & Ho & Hs & Hp & Hb & Hperm & Ha1).
    destruct (take_run s a ls o m p x Ha Ha1 Ho Hs Hp Hb Hperm) as (ls' & s1 & s2 & Hsplit & Hs1 & Hfill & Htaken).
    step_by Hsplit. step_by (read_slot_Done _ _ _ Hs1). cbn [fi_addr]. step_by Hfill.
    eexists _, _, s2. split; [done|]. exists x, (2 ^ Z.of_nat m). split; [apply slist_from_iter_spec|]. split; [apply Htaken|].
    split; [unfold block_size in Hfit; lia|]. destruct (block_ok_le a m o x ltac:(lia) Hb) as [Hx _].
    apply Z.mod_divide in Hx as [q ->]; [|pose proof (block_size_pos m); lia].
    by rewrite Z.mul_mod, Hal, Z.mul_0_r, Z.mod_0_l by (rewrite Hjal; apply Z.pow_nonzero; lia).
  - exists None, a, s. split; [done|]. split; [done|]. split; [done|]. intros o l Ho1 Ho2. by apply Hres, Hmin.
Qed.
End arena.
