(* ===== verification/KernelFramesNew.v ===== *)
(** * Setting up an arena

    The blocks a region is divided into, and the arena built from a selection
    of regions. *)

From stdpp Require Import base numbers list gmap sorting.
From Stdlib Require Import ZArith Lia.
From S2P Require Import Prelude Address Riscv Arch PhysMap Machine LoaderRegions KernelSpace KernelFrames KernelFramesCorrect.

(** ** The lowest bit *)

Lemma odd_part p : exists v q, 0 <= v /\ 0 <= q /\ Z.pos p = (2 * q + 1) * 2 ^ v.
Proof.
  induction p as [p IH|p IH|].
  - exists 0, (Z.pos p). split; [lia|]. split; [lia|]. rewrite Z.pow_0_r. lia.
  - destruct IH as (v & q & Hv & Hq & Hp). exists (v + 1), q. split; [lia|]. split; [lia|].
    rewrite Z.pow_add_r by lia. rewrite Pos2Z.inj_xO, Hp. lia.
  - exists 0, 0. by split; [|split].
Qed.

Lemma land_neg q v : 0 <= v -> Z.land ((2 * q + 1) * 2 ^ v) (- ((2 * q + 1) * 2 ^ v)) = 2 ^ v.
Proof.
  intros Hv. set (x := (2 * q + 1) * 2 ^ v). replace (- x) with (Z.lnot (x - 1)) by (unfold Z.lnot; lia).
  rewrite <- Z.ldiff_land. apply Z.bits_inj'. intros n Hn. rewrite Z.ldiff_spec, Z.pow2_bits_eqb by lia.
  unfold x. destruct (decide (n < v)) as [Hlt|Hge].
  { rewrite Z.mul_pow2_bits_low by lia. cbn [andb]. symmetry. apply Z.eqb_neq. lia. }
  assert (Z.testbit ((2 * q + 1) * 2 ^ v - 1) n = Z.testbit (2 * q) (n - v)) as ->.
  { replace n with ((n - v) + v) at 1 by lia. rewrite <- Z.div_pow2_bits by lia. f_equal.
    replace ((2 * q + 1) * 2 ^ v - 1) with (2 * q * 2 ^ v + (2 ^ v - 1)) by lia.
    pose proof (Z.pow_pos_nonneg 2 v ltac:(lia) Hv). rewrite Z.div_add_l by lia. rewrite Z.div_small; lia. }
  rewrite Z.mul_pow2_bits by lia. destruct (decide (n = v)) as [->|Hne].
  - rewrite Z.sub_diag, Z.testbit_odd_0, Z.testbit_even_0. symmetry. by apply Z.eqb_eq.
  - replace (n - v) with (Z.succ (n - v - 1)) by lia.
    rewrite Z.testbit_odd_succ, Z.testbit_even_succ by lia. rewrite andb_negb_r. symmetry. apply Z.eqb_neq. lia.
Qed.

(** [addr & addr.wrapping_neg()] is the largest power of two that divides the
    address. *)
Lemma lowest_bit x : 0 < x < USIZE_MOD ->
  exists v, 0 <= v < 64 /\ Z.land x (wrap (- x)) = 2 ^ v /\ x mod 2 ^ v = 0 /\ forall k, 0 <= k -> x mod 2 ^ k = 0 -> k <= v.
Proof.
  intros Hx. destruct x as [|p|]; try lia. destruct (odd_part p) as (v & q & Hv & Hq & Hp).
  pose proof (Z.pow_pos_nonneg 2 v ltac:(lia) Hv) as Hpos.
  assert (v < 64) as Hlt.
  { apply Z.pow_lt_mono_r_iff with 2; [lia|lia|]. change (2 ^ 64) with USIZE_MOD. nia. }
  exists v. split; [lia|]. split; [|split].
  - unfold wrap. change USIZE_MOD with (2 ^ 64). rewrite <- Z.land_ones by lia.
    rewrite (Z.land_comm (- _)), Z.land_assoc, Z.land_ones by lia. rewrite Z.mod_small by (change (2 ^ 64) with USIZE_MOD; lia).
    rewrite Hp. by apply land_neg.
  - rewrite Hp. apply Z.mod_mul. lia.
  - intros k Hk Hm. destruct (decide (k <= v)); [done|]. exfalso. rewrite Hp in Hm. apply Z.mod_divide in Hm as [c Hc]; [|lia].
    replace k with (1 + (k - 1 - v) + v) in Hc by lia. rewrite !Z.pow_add_r in Hc by lia.
    assert (2 * q + 1 = c * (2 ^ 1 * 2 ^ (k - 1 - v))) as He by nia. lia.
Qed.

(** ** The blocks of a region *)

Lemma run_app x n m : 0 <= n -> 0 <= m -> run x (n + m) = run x n ++ run (x + n * 4096) m.
Proof.
  intros Hn Hm. unfold run. rewrite seqZ_app by lia. rewrite fmap_app. f_equal. rewrite Z.add_0_l.
  rewrite <- (Z.add_0_r n) at 1. rewrite <- fmap_add_seqZ, <- list_fmap_compose.
  apply list_fmap_ext. intros i y _. simpl. lia.
Qed.

Lemma elem_of_run x n y : y ∈ run x n <-> exists i, 0 <= i < n /\ y = x + i * 4096.
Proof.
  unfold run. rewrite list_elem_of_fmap. setoid_rewrite elem_of_seqZ.
  split; intros (i & ? & ?); exists i; split; (lia || done).
Qed.

Lemma run_NoDup x n : NoDup (run x n).
Proof. unfold run. apply NoDup_fmap_2; [intros i j Hij; lia|apply NoDup_seqZ]. Qed.

Lemma length_run x n : 0 <= n -> Z.of_nat (length (run x n)) = n.
Proof. intros Hn. unfold run. rewrite length_fmap, length_seqZ. lia. Qed.

Lemma pages_after o rem : rem / 4096 = 2 ^ Z.of_nat o + (rem - block_size o) / 4096.
Proof. unfold block_size. rewrite Z.add_comm, <- Z.div_add by lia. f_equal. lia. Qed.

Lemma run_block addr rem o :
  block_size o <= rem ->
  run addr (rem / 4096) = block_frames o addr ++ run (addr + block_size o) ((rem - block_size o) / 4096).
Proof.
  intros Hle. rewrite (pages_after o rem), run_app; [by unfold block_size; rewrite (Z.mul_comm _ 4096)|lia|apply Z.div_pos; lia].
Qed.

(** The block at the start of what is left of a region. *)
Lemma next_block addr remaining :
  0 < addr < USIZE_MOD -> addr mod 4096 = 0 -> 0 < remaining < USIZE_MOD -> remaining mod 4096 = 0 ->
  exists prev o, prev_power_of_two remaining = Done prev /\ (o < MAX_ORDER)%nat
  /\ Z.min (Z.min (Z.land addr (wrap (- addr))) prev) (Z.shiftl PAGE_SIZE (Z.of_nat MAX_ORDER - 1)) = block_size o
  /\ Z.to_nat (trailing_zeros (block_size o / PAGE_SIZE)) = o
  /\ addr mod block_size o = 0 /\ block_size o <= remaining.
Proof.
  intros Ha Ham Hr Hrm. destruct (lowest_bit addr Ha) as (v & Hv & Hlow & Hdiv & Hmax).
  unfold prev_power_of_two. replace (0 <? remaining) with true by lia. rewrite Z.shiftl_1_l.
  pose proof (Hmax 12 ltac:(lia) Ham) as Hv12.
  assert (4096 <= remaining) as Hr4 by (apply Z.mod_divide in Hrm as [c ->]; lia).
  assert (12 <= Z.log2 remaining) as Hl12 by (change 12 with (Z.log2 4096); by apply Z.log2_le_mono).
  set (k := Z.min (Z.min v (Z.log2 remaining)) 22).
  assert (block_size (Z.to_nat (k - 12)) = 2 ^ k) as Hbs.
  { unfold block_size. change 4096 with (2 ^ 12). rewrite <- Z.pow_add_r by lia. f_equal. lia. }
  exists (2 ^ Z.log2 remaining), (Z.to_nat (k - 12)). split; [done|]. split; [unfold MAX_ORDER; lia|]. rewrite Hbs, Hlow.
  change (Z.shiftl PAGE_SIZE (Z.of_nat MAX_ORDER - 1)) with (2 ^ 22).
  assert (forall i j, 0 <= i -> 0 <= j -> Z.min (2 ^ i) (2 ^ j) = 2 ^ Z.min i j) as Hmin.
  { intros i j Hi Hj. destruct (Z.min_spec i j) as [[? ->]|[? ->]]; [apply Z.min_l|apply Z.min_r]; apply Z.pow_le_mono_r; lia. }
  rewrite !Hmin by lia. split; [done|]. split.
  { change PAGE_SIZE with (2 ^ 12). rewrite <- Z.pow_sub_r by lia. by rewrite trailing_zeros_pow2 by lia. }
  split.
  - replace v with (k + (v - k)) in Hdiv by lia. rewrite Z.pow_add_r in Hdiv by lia.
    apply Z.mod_divide in Hdiv as [c ->]; [|nia]. replace (c * (2 ^ k * 2 ^ (v - k))) with (c * 2 ^ (v - k) * 2 ^ k) by lia.
    apply Z.mod_mul. lia.
  - transitivity (2 ^ Z.log2 remaining); [apply Z.pow_le_mono_r; lia|]. apply Z.log2_spec. lia.
Qed.

Section new.
Context {SL : SlotList} (SIZE : Z) (HSIZE : 0 < SIZE).
Implicit Types (s : gmap Z FrameInfo) (a : Arena).

(** The slots of all frames have been initialised. *)
Definition slots_ready s a : Prop := forall y, in_arena a y -> exists n, s !! slot_of SIZE a y = Some (MkInfo n y).

Definition same_arena a a' : Prop :=
  ar_range a' = ar_range a /\ ar_slots a' = ar_slots a /\ ar_slots_len a' = ar_slots_len a /\ ar_total_frames a' = ar_total_frames a.

Definition with_max (n : nat) a : Arena :=
  MkArena (ar_free_lists a) (ar_range a) (ar_slots a) (ar_slots_len a) (Nat.max (ar_max_order a) n) (ar_used_frames a) (ar_total_frames a).

Lemma with_max_ok s a n : arena_ok SIZE s a -> (n < MAX_ORDER)%nat -> arena_ok SIZE s (with_max n a).
Proof.
  intros [[? ? ?] Hlen Hmax Habove Hblock Hnd] Hn.
  constructor; unfold blocks in *; cbn [with_max ar_free_lists ar_max_order]; try done; [lia|]. intros o l Ho Hgt. apply (Habove o l Ho). lia.
Qed.

Lemma slots_ready_touched s s' a l :
  slots_ready s a -> geometry a -> (forall x, x ∈ l -> in_arena a x) -> touched SIZE s s' a l -> slots_ready s' a.
Proof.
  intros Hr Hg Hl Ht z Hz. destruct (Ht (slot_of SIZE a z)) as [->|(x & n & Hx & Heq & Hs)]; [by apply Hr|].
  apply slot_of_inj in Heq as ->; [by exists n|done..|by apply Hl].
Qed.

(** What freeing a region achieves. *)
Record freed s a s' a' (l : list Z) : Prop := {
  fr_ok : arena_ok SIZE s' a';
  fr_ready : slots_ready s' a';
  fr_same : same_arena a a';
  fr_free : arena_free s' a' ≡ₚ l ++ arena_free s a;
  fr_touched : touched SIZE s s' a l;
}.

Lemma freed_refl s a : arena_ok SIZE s a -> slots_ready s a -> freed s a s a [].
Proof. intros Ha Hr. constructor; [done..|apply touched_refl]. Qed.

Lemma freed_trans s a s1 a1 s' a' l l' : freed s a s1 a1 l -> freed s1 a1 s' a' l' -> freed s a s' a' (l ++ l').
Proof.
  intros [? ? (Hr & Hs & Hl & Ht) Hf Htc] [? ? (Hr' & Hs' & Hl' & Ht') Hf' Htc'].
  constructor; [done|done|split_and!; congruence| |].
  - rewrite Hf', Hf. rewrite !app_assoc. f_equiv. apply Permutation_app_comm.
  - assert (forall x, slot_of SIZE a1 x = slot_of SIZE a x) as Hslot by (intros x; unfold slot_of; by rewrite Hr, Hs).
    apply (touched_trans SIZE s s1); [eapply touched_mono; [exact Htc|]; intros x Hx; apply elem_of_app; by left|].
    intros p. destruct (Htc' p) as [|(x & n & Hx & Hp & Hsx)]; [by left|right]. exists x, n. rewrite <- Hslot.
    split; [apply elem_of_app; by right|done].
Qed.

(** Freeing the block of order [o] at [x]. *)
Lemma free_block s a o x :
  arena_ok SIZE s a -> slots_ready s a -> (o < MAX_ORDER)%nat -> block_ok a o x -> NoDup (block_frames o x ++ arena_free s a) ->
  exists lists, mark_as_free_for_freelist (slot_of SIZE a x) s = Done (tt, <[slot_of SIZE a x := MkInfo 0 x]> s)
  /\ push_free o (slot_of SIZE a x) (ar_free_lists a) = Done lists
  /\ freed s a (<[slot_of SIZE a x := MkInfo 0 x]> s) (with_lists lists (with_max o a)) (block_frames o x).
Proof.
  intros Ha Hr Ho Hb Hnd. assert (in_arena a x) as Hx by (eapply block_in_arena; [done|apply block_self]).
  destruct (lookup_lt_is_Some_2 (ar_free_lists a) o) as [l Hl]; [pose proof (ao_lists _ _ _ Ha) as Hlen; unfold blocks in Hlen; by rewrite length_fmap in Hlen; rewrite Hlen|].
  destruct (Hr x Hx) as [n Hn]. eexists. split; [|split; [unfold push_free; by rewrite Hl|]].
  { unfold mark_as_free_for_freelist. step_by (read_slot_Done _ _ _ Hn). by rewrite write_slot_Done. }
  destruct (arena_ok_add SIZE HSIZE s (with_max o a) o l x) as [Ha' Hperm];
    [by apply with_max_ok|cbn; lia|done|done|done|].
  assert (touched SIZE s (<[slot_of SIZE a x := MkInfo 0 x]> s) a [x]) as Ht by apply touched_insert.
  constructor; [exact Ha'| |done|exact Hperm|].
  - apply (slots_ready_touched s _ a [x] Hr (ao_geometry _ _ _ Ha)); [|done]. intros y Hy. by apply list_elem_of_singleton in Hy as ->.
  - eapply touched_mono; [exact Ht|]. intros y Hy. apply list_elem_of_singleton in Hy as ->. apply block_self.
Qed.

Lemma free_region_ok fuel s a free addr remaining :
  arena_ok SIZE s a -> slots_ready s a -> 0 < addr -> addr mod 4096 = 0 -> 0 <= remaining -> remaining mod 4096 = 0 ->
  r_start (ar_range a) <= addr -> addr + remaining <= r_end (ar_range a) -> remaining <= 4096 * Z.of_nat fuel ->
  NoDup (run addr (remaining / 4096) ++ arena_free s a) ->
  exists a' s', free_region SIZE fuel a free addr remaining s = Done ((a', free + remaining / 4096), s')
  /\ freed s a s' a' (run addr (remaining / 4096)).
Proof.
  revert s a free addr remaining. induction fuel as [|fuel IH]; intros s a free addr rem Ha Hr Hpos Hal Hrem Hrm Hs He Hfuel Hnd.
  - assert (rem = 0) as -> by lia. exists a, s. cbn. rewrite Z.add_0_r. split; [done|by apply freed_refl].
  - cbn [free_region]. destruct (rem <=? 0) eqn:Hz.
    { assert (rem = 0) as -> by lia. exists a, s. rewrite Z.div_0_l, Z.add_0_r by lia. split; [done|by apply freed_refl]. }
    pose proof (geo_end _ (ao_geometry _ _ _ Ha)) as Hge. pose proof (geo_start _ (ao_geometry _ _ _ Ha)) as Hgs.
    pose proof (geo_slots _ (ao_geometry _ _ _ Ha)) as Hgl.
    destruct (next_block addr rem ltac:(lia) Hal ltac:(lia) Hrm) as (prev & o & Hprev & Ho & Hsize & Hord & Hba & Hle).
    step_by Hprev. rewrite Hsize, Hord. pose proof (block_size_pos o) as Hbp.
    assert (addr_offset_from_unsigned addr (r_start (ar_range a)) = Done (addr - r_start (ar_range a))) as Hoff.
    { unfold addr_offset_from_unsigned, wrapping_sub. replace (addr <? _) with false by lia. by rewrite wrap_small by (unfold is_usize; lia). }
    step_by Hoff. assert (block_ok a o addr) as Hb by (split; [done|lia]).
    assert ((addr - r_start (ar_range a)) / PAGE_SIZE < ar_slots_len a) as Hidx by (apply Z.div_lt_upper_bound; unfold PAGE_SIZE; lia).
    step_by (assert_ltb _ _ Hidx). change (ar_slots a + _ * SIZE) with (slot_of SIZE a addr).
    pose proof (run_block addr rem o Hle) as Hrun. rewrite Hrun, <- app_assoc in Hnd.
    assert (NoDup (block_frames o addr ++ arena_free s a)) as Hnd1.
    { rewrite (Permutation_app_comm (run _ _)) in Hnd. rewrite app_assoc in Hnd. by apply NoDup_app in Hnd as [Hnd _]. }
    destruct (free_block s a o addr Ha Hr Ho Hb Hnd1) as (lists & Hmark & Hpush & Hfreed). step_by Hmark. step_by Hpush.
    step_by (u_add_Done addr (block_size o) ltac:(unfold is_usize; lia)).
    step_by (u_sub_Done rem (block_size o) ltac:(unfold is_usize; lia)).
    change (MkArena lists _ _ _ _ _ _) with (with_lists lists (with_max o a)). set (a1 := with_lists _ _) in *.
    pose proof Hfreed as [Ha1 Hr1 Hsame1 Hfree1 Ht1].
    assert (block_size o mod 4096 = 0) as Hbm by (apply (block_size_mod o), Z.mod_same; lia).
    destruct (IH _ a1 (free + block_size o / PAGE_SIZE) (addr + block_size o) (rem - block_size o) Ha1 Hr1) as (a' & s' & Hrun' & Hfreed').
    { lia. } { by rewrite Z.add_mod, Hal, Hbm by lia. }
    { lia. } { by rewrite Zminus_mod, Hrm, Hbm. }
    { cbn. lia. } { cbn. lia. } { lia. }
    { rewrite Hfree1. rewrite !app_assoc, (Permutation_app_comm (run _ _)), <- app_assoc. done. }
    exists a', s'. split.
    + etransitivity; [exact Hrun'|]. do 3 f_equal. rewrite block_size_pages, (pages_after o rem). lia.
    + rewrite Hrun. by eapply freed_trans.
Qed.

(** ** An arena from a selection *)

(** Whole frames, inside [hull] and not at address zero. *)
Definition region_ok (hull r : range) : Prop :=
  0 < r_start r /\ r_start r mod 4096 = 0 /\ r_end r mod 4096 = 0 /\ r_start r <= r_end r
  /\ r_start hull <= r_start r /\ r_end r <= r_end hull.

Definition region_frames (r : range) : list Z := run (r_start r) ((r_end r - r_start r) / 4096).

Lemma region_len_Done r : 0 <= r_start r <= r_end r -> r_end r < USIZE_MOD -> range_len r = Done (r_end r - r_start r).
Proof.
  intros Hr He. unfold range_len, addr_offset_from_unsigned, wrapping_sub. destruct (r_end r <=? r_start r) eqn:Hle.
  - f_equal. lia.
  - replace (r_end r <? r_start r) with false by lia. by rewrite wrap_small by (unfold is_usize; lia).
Qed.

Lemma free_regions_ok regions s a free :
  arena_ok SIZE s a -> slots_ready s a -> Forall (region_ok (ar_range a)) regions ->
  NoDup ((regions ≫= region_frames) ++ arena_free s a) ->
  exists a' s', free_regions SIZE regions a free s = Done ((a', free + Z.of_nat (length (regions ≫= region_frames))), s')
  /\ freed s a s' a' (regions ≫= region_frames).
Proof.
  revert s a free. induction regions as [|r regions IH]; intros s a free Ha Hr Hreg Hnd.
  { exists a, s. cbn. rewrite Z.add_0_r. split; [done|by apply freed_refl]. }
  apply Forall_cons in Hreg as [(Hpos & Hsm & Hem & Hse & Hs & He) Hreg]. cbn [mbind list_bind free_regions] in *.
  pose proof (geo_end _ (ao_geometry _ _ _ Ha)) as Hge. pose proof (geo_start _ (ao_geometry _ _ _ Ha)) as Hgs.
  step_by (region_len_Done r ltac:(lia) ltac:(lia)).
  assert ((r_end r - r_start r) mod 4096 = 0) as Hm by (rewrite Zminus_mod, Hsm, Hem; done).
  pose proof (Z.div_pos (r_end r - r_start r) 4096 ltac:(lia) ltac:(lia)) as Hdp.
  destruct (free_region_ok (Z.to_nat ((r_end r - r_start r) / PAGE_SIZE + 1)) s a free (r_start r) (r_end r - r_start r))
    as (a1 & s1 & Hrun & Hfreed); try done; try lia.
  { unfold PAGE_SIZE. pose proof (Z.div_mod (r_end r - r_start r) 4096 ltac:(lia)). lia. }
  { rewrite <- app_assoc, (Permutation_app_comm (regions ≫= _)), app_assoc in Hnd. by apply NoDup_app in Hnd as [Hnd _]. }
  step_by Hrun. cbn [fst snd]. pose proof Hfreed as [Ha1 Hr1 (Hrange & _) Hfree1 _].
  destruct (IH s1 a1 (free + (r_end r - r_start r) / 4096) Ha1 Hr1) as (a' & s' & Hrun' & Hfreed').
  { by rewrite Hrange. }
  { rewrite Hfree1, !app_assoc, (Permutation_app_comm (regions ≫= _)), <- app_assoc. by rewrite <- app_assoc in Hnd. }
  exists a', s'. split; [|by eapply freed_trans]. etransitivity; [exact Hrun'|]. do 3 f_equal.
  unfold region_frames at 2. rewrite length_app, Nat2Z.inj_add, length_run by lia. lia.
Qed.

Lemma wire_slots_ok n idx slots start s :
  0 <= idx -> 0 <= start -> start + (idx + Z.of_nat n) * 4096 < USIZE_MOD ->
  exists s', wire_slots SIZE n idx slots start s = Done (tt, s')
  /\ (forall i, idx <= i < idx + Z.of_nat n -> s' !! (slots + i * SIZE) = Some (MkInfo 1 (start + i * 4096)))
  /\ (forall p, (forall i, idx <= i < idx + Z.of_nat n -> p <> slots + i * SIZE) -> s' !! p = s !! p).
Proof.
  revert idx s. induction n as [|n IH]; intros idx s Hi Hs Hmax.
  - exists s. split; [done|]. split; [lia|done].
  - cbn [wire_slots]. step_by (u_mul_Done idx PAGE_SIZE ltac:(unfold is_usize, PAGE_SIZE; lia)).
    step_by (u_add_Done start (idx * PAGE_SIZE) ltac:(unfold is_usize, PAGE_SIZE; lia)). change PAGE_SIZE with 4096.
    step_by (write_slot_Done (slots + idx * SIZE) (new_wired (start + idx * 4096)) s).
    destruct (IH (idx + 1) (<[slots + idx * SIZE := new_wired (start + idx * 4096)]> s)) as (s' & Hrun & Hin & Hout); [lia..|].
    exists s'. split; [done|]. split.
    + intros i Hii. destruct (decide (i = idx)) as [->|]; [|apply Hin; lia]. rewrite Hout; [apply lookup_insert_eq|]. intros j Hj. nia.
    + intros p Hp. rewrite Hout by (intros j Hj; apply Hp; lia). apply lookup_insert_ne. intros <-. by apply (Hp idx); [lia|].
Qed.

Lemma lists_free_replicate s o n : lists_free s o (replicate n []) = [].
Proof. revert o. induction n as [|n IH]; intros o; [done|]. simpl. apply IH. Qed.

Lemma empty_arena_ok s r slots len used total :
  let a := MkArena (replicate MAX_ORDER slist_new) r slots len 0 used total in
  geometry a -> arena_ok SIZE s a /\ arena_free s a = [].
Proof.
  intros a Hg. assert (blocks a = replicate MAX_ORDER []) as Hls by (unfold blocks, a; cbn [ar_free_lists]; by rewrite fmap_replicate, slist_iter_new).
  assert (arena_free s a = []) as Hf by (unfold arena_free; rewrite Hls; apply lists_free_replicate).
  assert (forall o l, blocks a !! o = Some l -> l = []) as Hnil.
  { intros o l Ho. rewrite Hls in Ho. apply (list_elem_of_lookup_2 _ o) in Ho. by apply elem_of_replicate in Ho as [-> _]. }
  split; [|done]. constructor; [done|by rewrite Hls|unfold MAX_ORDER; cbn; lia|..].
  - intros o l Ho _. by eapply Hnil.
  - intros o l p Ho Hp. rewrite (Hnil o l Ho) in Hp. by apply elem_of_nil in Hp.
  - rewrite Hf. constructor.
Qed.

(** The frames of an arena by their indices. *)
Lemma arena_index a total :
  geometry a -> r_end (ar_range a) - r_start (ar_range a) = 4096 * total ->
  (forall i, 0 <= i < total -> in_arena a (r_start (ar_range a) + i * 4096)
     /\ slot_of SIZE a (r_start (ar_range a) + i * 4096) = ar_slots a + i * SIZE)
  /\ forall y, in_arena a y -> exists i, 0 <= i < total /\ y = r_start (ar_range a) + i * 4096.
Proof.
  intros [[H0 Hs] He _] Ht. split.
  - intros i Hi. split; [split; [by rewrite Z.mod_add, Hs by lia|lia]|]. unfold slot_of.
    rewrite Z.add_simpl_l, Z.div_mul by lia. done.
  - intros y (Hm & Hge & Hle). exists ((y - r_start (ar_range a)) / 4096).
    assert (y - r_start (ar_range a) = 4096 * ((y - r_start (ar_range a)) / 4096)) as Hd
      by (apply Z.div_exact; [lia|]; rewrite Zminus_mod, Hm, Hs; done).
    split; [split; [apply Z.div_pos|]|]; lia.
Qed.

(** What a selection has to be. *)
Record selection_ok (physmap : PhysMap) (sel : ArenaSelection) (slots : Z) : Prop := {
  so_arena : 0 <= r_start (sel_arena sel) <= r_end (sel_arena sel) /\ r_end (sel_arena sel) < USIZE_MOD
    /\ r_start (sel_arena sel) mod 4096 = 0 /\ r_end (sel_arena sel) mod 4096 = 0;
  so_regions : Forall (region_ok (sel_arena sel)) (sel_regions sel);
  so_nodup : NoDup (sel_regions sel ≫= region_frames);
  so_bookkeeping : 0 <= r_start (sel_bookkeeping sel) <= r_end (sel_bookkeeping sel) /\ r_end (sel_bookkeeping sel) < USIZE_MOD;
  so_size : (r_end (sel_arena sel) - r_start (sel_arena sel)) / 4096 * SIZE
    <= r_end (sel_bookkeeping sel) - r_start (sel_bookkeeping sel);
  so_slots : phys_to_virt physmap (r_start (sel_bookkeeping sel)) = Done slots;
}.

Lemma region_frames_in hull r x :
  r_start hull mod 4096 = 0 -> region_ok hull r -> x ∈ region_frames r -> x mod 4096 = 0 /\ r_start r <= x /\ x + 4096 <= r_end r.
Proof.
  intros Hh (_ & Hs & He & Hle & _) Hx. apply elem_of_run in Hx as (i & Hi & ->).
  split; [by rewrite Z.mod_add, Hs by lia|]. split; [lia|].
  assert ((r_end r - r_start r) mod 4096 = 0) as Hm by (rewrite Zminus_mod, Hs, He; done).
  pose proof (Z.div_mod (r_end r - r_start r) 4096 ltac:(lia)). lia.
Qed.

(** An arena holds no more frames than it has slots. *)
Lemma frames_count hull regions :
  0 <= r_start hull <= r_end hull -> r_start hull mod 4096 = 0 -> r_end hull mod 4096 = 0 ->
  Forall (region_ok hull) regions -> NoDup (regions ≫= region_frames) ->
  Z.of_nat (length (regions ≫= region_frames)) <= (r_end hull - r_start hull) / 4096.
Proof.
  intros Hh Hs He Hreg Hnd. pose proof (Z.div_pos (r_end hull - r_start hull) 4096 ltac:(lia) ltac:(lia)) as Hdp.
  rewrite <- (length_run (r_start hull) ((r_end hull - r_start hull) / 4096)) by lia. apply Nat2Z.inj_le.
  apply submseteq_length, NoDup_submseteq; [done|]. intros x Hx. apply list_elem_of_bind in Hx as (r & Hx & Hr).
  rewrite Forall_forall in Hreg. pose proof (Hreg r Hr) as Hok. destruct (region_frames_in hull r x Hs Hok Hx) as (Hxm & Hxs & Hxe).
  destruct Hok as (_ & _ & _ & _ & Hhs & Hhe). apply elem_of_run. exists ((x - r_start hull) / 4096).
  assert (x - r_start hull = 4096 * ((x - r_start hull) / 4096)) as Hd by (apply Z.div_exact; [lia|]; rewrite Zminus_mod, Hxm, Hs; done).
  assert ((r_end hull - r_start hull) mod 4096 = 0) as Hm by (rewrite Zminus_mod, Hs, He; done).
  pose proof (Z.div_mod (r_end hull - r_start hull) 4096 ltac:(lia)). split; [split; [apply Z.div_pos; lia|]|]; lia.
Qed.

Lemma from_selection_ok s physmap sel slots :
  selection_ok physmap sel slots ->
  exists a s', from_selection SIZE sel physmap s = Done (a, s')
  /\ arena_ok SIZE s' a /\ slots_ready s' a /\ ar_range a = sel_arena sel /\ ar_slots a = slots
  /\ arena_free s' a ≡ₚ sel_regions sel ≫= region_frames
  /\ (forall p, (forall x, in_arena a x -> p <> slot_of SIZE a x) -> s' !! p = s !! p).
Proof.
  intros [(Hse & Hmax & Hsm & Hem) Hreg Hnd (Hbse & Hbmax) Hsize Hslots]. unfold from_selection.
  set (A := sel_arena sel) in *. set (B := sel_bookkeeping sel) in *.
  assert ((r_end A - r_start A) mod 4096 = 0) as Hm by (rewrite Zminus_mod, Hsm, Hem; done).
  pose proof (Z.div_mod (r_end A - r_start A) 4096 ltac:(lia)) as Hdiv. rewrite Hm, Z.add_0_r in Hdiv.
  pose proof (Z.div_pos (r_end A - r_start A) 4096 ltac:(lia) ltac:(lia)) as Hdp. set (total := (r_end A - r_start A) / 4096) in *.
  step_by (region_len_Done B ltac:(lia) Hbmax). step_by (region_len_Done A ltac:(lia) Hmax).
  assert (bookkeeping_size SIZE (r_end A - r_start A) = Done (total * SIZE)) as Hbs by (apply u_mul_Done; unfold is_usize; nia).
  step_by Hbs. step_by (assert_leb _ _ Hsize). step_by Hslots. change ((r_end A - r_start A) / PAGE_SIZE) with total.
  assert (total <= (r_end B - r_start B) / SIZE) as Hlen by (apply Z.div_le_lower_bound; lia).
  step_by (assert_leb _ _ Hlen).
  destruct (wire_slots_ok (Z.to_nat total) 0 slots (r_start A) s) as (s0 & Hwire & Hin & Hout); [lia..|]. step_by Hwire.
  set (a0 := MkArena _ A slots _ _ _ _).
  assert (geometry a0) as Hg by (constructor; cbn; lia).
  destruct (empty_arena_ok s0 A slots _ 0 total Hg) as [Ha0 Hfree0]. fold a0 in Ha0, Hfree0.
  destruct (arena_index a0 total Hg Hdiv) as [Hidx1 Hidx2]. cbn [a0 ar_range ar_slots] in Hidx1, Hidx2.
  assert (slots_ready s0 a0) as Hr0.
  { intros y Hy. destruct (Hidx2 y Hy) as (i & Hi & ->). exists 1. rewrite (proj2 (Hidx1 i Hi)). apply Hin. lia. }
  destruct (free_regions_ok (sel_regions sel) s0 a0 0 Ha0 Hr0 Hreg) as (a & s' & Hrun & [Ha Hr (Hrg & Hsl & _) Hfree Ht]).
  { by rewrite Hfree0, app_nil_r. }
  step_by Hrun. cbn [fst snd].
  pose proof (frames_count A _ ltac:(lia) Hsm Hem Hreg Hnd) as Hcount. fold total in Hcount.
  assert (is_usize (total - (0 + Z.of_nat (length (sel_regions sel ≫= region_frames))))) as Husz by (unfold is_usize; lia).
  step_by (u_sub_Done _ _ Husz).
  eexists _, s'. split; [done|]. split; [by apply with_used_ok|]. split; [exact Hr|]. split; [done|]. split; [done|].
  split; [by rewrite Hfree0, app_nil_r in Hfree|].
  assert (forall x, slot_of SIZE a x = slot_of SIZE a0 x) as Hslot by (intros x; unfold slot_of; by rewrite Hrg, Hsl).
  assert (forall x, in_arena a0 x -> in_arena a x) as Hina by (unfold in_arena; by rewrite Hrg).
  intros p Hp. rewrite (touched_other SIZE _ _ _ _ _ Ht), Hout; [done|..].
  - intros i Hi Heq. destruct (Hidx1 i ltac:(lia)) as [Hi1 Hi2]. apply (Hp _ (Hina _ Hi1)).
    change (slot_of SIZE (with_used _ a)) with (slot_of SIZE a). by rewrite Hslot, Hi2.
  - intros x Hx Heq. apply (Hp x); [|change (slot_of SIZE (with_used _ a)) with (slot_of SIZE a); by rewrite Hslot].
    apply list_elem_of_bind in Hx as (r & Hx & Hrr). rewrite Forall_forall in Hreg. pose proof (Hreg r Hrr) as Hok.
    destruct (region_frames_in A r x Hsm Hok Hx) as (Hxm & ? & ?). destruct Hok as (_ & _ & _ & _ & ? & ?).
    apply Hina. split; [done|]. cbn. lia.
Qed.
End new.
