(* ===== verification/KernelFramesSelect.v ===== *)
(** * Selecting arenas

    Which regions an arena is made of, and that its frames and its bookkeeping
    are parts of the regions and do not overlap. *)

From stdpp Require Import base numbers list gmap sorting.
From Stdlib Require Import ZArith Lia.
From S2P Require Import Prelude Address Riscv Arch PhysMap Machine LoaderRegions KernelSpace KernelFrames.
From S2P Require Import KernelFramesCorrect KernelFramesNew.

(** Regions of memory, upwards or downwards. *)
Definition memory_region (r : range) : Prop := 0 < r_start r <= r_end r /\ r_end r <= 2 ^ 63.
Definition before (up : bool) (r1 r2 : range) : Prop := if up then r_end r1 <= r_start r2 else r_end r2 <= r_start r1.
Definition ordered (up : bool) (l : list range) : Prop := Forall memory_region l /\ StronglySorted (before up) l.

(** The part of a region that consists of whole frames. *)
Definition inner (r : range) : range := Range (roundup (r_start r) 4096) (r_end r - r_end r mod 4096).

Lemma range_align_in_Done r : memory_region r -> range_align_in r PAGE_SIZE = Done (inner r).
Proof.
  intros [Hs He]. unfold range_align_in, inner. change PAGE_SIZE with (2 ^ 12).
  rewrite align_up_pow2 by (unfold is_usize; lia). cbn [mbind outcome_bind].
  rewrite align_down_pow2 by (unfold is_usize; lia). done.
Qed.

Lemma inner_in r : memory_region r ->
  r_start r <= r_start (inner r) /\ r_start (inner r) mod 4096 = 0 /\ r_end (inner r) mod 4096 = 0 /\ r_end (inner r) <= r_end r
  /\ 0 <= r_end (inner r).
Proof.
  intros [Hs He]. unfold inner, roundup. cbn [r_start r_end].
  pose proof (Z.mod_pos_bound (r_start r + (4096 - 1)) 4096 ltac:(lia)). pose proof (Z.mod_pos_bound (r_end r) 4096 ltac:(lia)).
  pose proof (Z.mod_le (r_end r) 4096 ltac:(lia) ltac:(lia)).
  split; [lia|]. split; [by rewrite Zminus_mod_idemp_r, Z.sub_diag|]. split; [by rewrite Zminus_mod_idemp_r, Z.sub_diag|]. lia.
Qed.

Lemma align_regions_Done l : Forall memory_region l -> align_regions l = Done (inner <$> l).
Proof.
  induction 1 as [|r l Hr _ IH]; [done|]. cbn [align_regions]. rewrite range_align_in_Done by done. cbn [mbind outcome_bind].
  by rewrite IH.
Qed.

(** ** Frames of several regions *)

Lemma region_frames_empty r : r_end r <= r_start r -> region_frames r = [].
Proof.
  intros Hr. unfold region_frames, run. replace (seqZ 0 ((r_end r - r_start r) / 4096)) with (@nil Z); [done|].
  rewrite seqZ_nil; [done|]. assert ((r_end r - r_start r) / 4096 < 1) by (apply Z.div_lt_upper_bound; lia). lia.
Qed.

Lemma filter_frames l :
  List.filter (fun r => negb (range_is_empty r)) l ≫= region_frames = l ≫= region_frames.
Proof.
  induction l as [|r l IH]; [done|]. cbn. unfold range_is_empty at 1. destruct (r_end r <=? r_start r) eqn:He; cbn.
  - rewrite region_frames_empty by lia. done.
  - by rewrite IH.
Qed.

Lemma region_frames_bounds r x : r_start r mod 4096 = 0 -> x ∈ region_frames r ->
  x mod 4096 = 0 /\ r_start r <= x /\ x + 4096 <= r_end r.
Proof.
  intros Hs Hx. apply elem_of_run in Hx as (i & Hi & ->). split; [by rewrite Z.mod_add, Hs by lia|]. split; [lia|].
  pose proof (Z.div_mod (r_end r - r_start r) 4096 ltac:(lia)). pose proof (Z.mod_pos_bound (r_end r - r_start r) 4096 ltac:(lia)). lia.
Qed.

Lemma ordered_NoDup up l : ordered up l -> NoDup ((inner <$> l) ≫= region_frames).
Proof.
  intros [Hreg Hs]. induction Hs as [|r l Hs IH Hb]; [constructor|]. apply Forall_cons in Hreg as [Hr Hreg].
  cbn. apply NoDup_app. split; [apply run_NoDup|]. split; [|by apply IH].
  intros x Hx Hx'. destruct (inner_in r Hr) as (H1 & H2 & _ & H5 & _). apply region_frames_bounds in Hx as (_ & Hx & Hxe); [|done].
  apply list_elem_of_bind in Hx' as (q & Hx' & Hq). apply list_elem_of_fmap in Hq as (r' & -> & Hr').
  rewrite Forall_forall in Hreg, Hb. destruct (inner_in r' (Hreg r' Hr')) as (H6 & H3 & _ & H4 & _).
  apply region_frames_bounds in Hx' as (_ & Hx' & Hxe'); [|done]. specialize (Hb r' Hr'). unfold before in Hb. destruct up; lia.
Qed.

Section select.
Context (SIZE : Z) (HSIZE : 0 < SIZE <= 4096) (up : bool).

Definition inside (hull r : range) : Prop := r_start hull <= r_start r /\ r_end r <= r_end hull.

Lemma inside_refl r : inside r r.
Proof. split; lia. Qed.

(** The bytes between two regions. *)
Definition gap (r1 r2 : range) : Z := if up then r_start r2 - r_end r1 else r_start r1 - r_end r2.

Lemma hole_bytes_Done hull r :
  memory_region hull -> memory_region r -> before up hull r -> hole_bytes hull r = Done (gap hull r).
Proof.
  intros [Hh1 Hh2] [Hr1 Hr2] Hb. unfold before in Hb. unfold hole_bytes, range_overlaps, gap, addr_offset_from_unsigned, wrapping_sub. destruct up.
  - replace (r_start r <? r_end hull) with false by lia. rewrite andb_false_r. cbn [negb assert_ mbind outcome_bind].
    replace (r_end hull <=? r_start r) with true by lia. by rewrite wrap_small by (unfold is_usize; lia).
  - replace (r_start hull <? r_end r) with false by lia. cbn [andb negb assert_ mbind outcome_bind].
    destruct (r_end hull <=? r_start r) eqn:Hle.
    + assert (r_start r = r_end hull /\ r_start hull = r_end r) as [-> ->] by lia. rewrite Z.ltb_irrefl. by rewrite !Z.sub_diag.
    + rewrite assert_leb by done. cbn [mbind outcome_bind].
      replace (r_start hull <? r_end r) with false by lia. by rewrite wrap_small by (unfold is_usize; lia).
Qed.

(** The hull of a hull and the next region. *)
Lemma hull_step hull r :
  memory_region hull -> memory_region r -> before up hull r ->
  let hull' := Range (Z.min (r_start hull) (r_start r)) (Z.max (r_end hull) (r_end r)) in
  memory_region hull' /\ inside hull' hull /\ inside hull' r
  /\ (forall q, before up r q -> before up hull' q) /\ (forall q, before up q hull -> before up q r -> before up q hull').
Proof.
  intros [Hh1 Hh2] [Hr1 Hr2] Hb hull'. unfold memory_region, inside, before, hull' in *. cbn [r_start r_end].
  split_and!; try lia; intros q; destruct up; lia.
Qed.

Lemma waste_bounds hull r :
  memory_region hull -> memory_region r -> before up hull r -> 0 <= SIZE * (gap hull r / PAGE_SIZE) <= 2 ^ 63.
Proof.
  intros [Hh1 Hh2] [Hr1 Hr2] Hb. change PAGE_SIZE with 4096. assert (0 <= gap hull r <= 2 ^ 63) as Hg by (unfold gap, before in *; destruct up; lia).
  pose proof (Z.div_pos (gap hull r) 4096 ltac:(lia) ltac:(lia)). pose proof (Z.mul_div_le (gap hull r) 4096 ltac:(lia)). nia.
Qed.

Lemma inside_trans r1 r2 r3 : inside r1 r2 -> inside r2 r3 -> inside r1 r3.
Proof. unfold inside. lia. Qed.

Lemma absorb_ok free wasted hull regions :
  ordered up (mr_range <$> free) -> Forall (before up hull) (mr_range <$> free) -> memory_region hull ->
  0 <= wasted <= MAX_WASTED_ARENA_BYTES ->
  exists used rest wasted' hull', absorb SIZE free wasted hull regions = Done (rest, wasted', hull', regions ++ (mr_range <$> used))
  /\ free = used ++ rest /\ 0 <= wasted' <= MAX_WASTED_ARENA_BYTES /\ memory_region hull' /\ inside hull' hull
  /\ Forall (inside hull') (mr_range <$> used)
  /\ (forall q, before up hull q -> Forall (fun r => before up r q) (mr_range <$> used) -> before up hull' q)
  /\ (forall q, before up q hull -> Forall (before up q) (mr_range <$> used) -> before up q hull').
Proof.
  revert wasted hull regions. induction free as [|region free IH]; intros wasted hull regions [Hreg Hsort] Hb Hh Hw.
  { exists [], [], wasted, hull. rewrite app_nil_r. split_and!; (done || lia || apply Forall_nil_2 || apply inside_refl). }
  rewrite fmap_cons in *. apply Forall_cons in Hreg as [Hr Hreg], Hb as [Hbr Hb].
  apply StronglySorted_inv in Hsort as [Hsort Hbefore]. set (r := mr_range region) in *.
  cbn [absorb]. fold r. rewrite hole_bytes_Done by done. cbn [mbind outcome_bind].
  pose proof (waste_bounds hull r Hh Hr Hbr) as Hwaste. set (waste := SIZE * (gap hull r / PAGE_SIZE)) in *.
  rewrite u_mul_Done by (unfold is_usize; fold waste; lia). cbn [mbind outcome_bind]. fold waste.
  unfold MAX_WASTED_ARENA_BYTES in *. rewrite u_add_Done by (unfold is_usize; lia). cbn [mbind outcome_bind].
  destruct (_ <? wasted + waste) eqn:Hlim.
  { exists [], (region :: free), wasted, hull. rewrite app_nil_r. split_and!; (done || lia || apply Forall_nil_2 || apply inside_refl). }
  destruct (hull_step hull r Hh Hr Hbr) as (Hh2 & Hin1 & Hin2 & Hlow2 & Hhigh2). set (hull2 := Range (Z.min _ _) (Z.max _ _)) in *.
  destruct (IH (wasted + waste) hull2 (regions ++ [r]))
    as (used & rest & wasted' & hull' & Hrun & -> & Hw' & Hh' & Hin & Hused & Hlow & Hhigh); [done| |done|lia|].
  { eapply Forall_impl; [exact Hbefore|exact Hlow2]. }
  exists (region :: used), rest, wasted', hull'. rewrite <- app_assoc in Hrun. rewrite fmap_cons. fold r.
  split_and!; [exact Hrun|done|lia|lia|done|by eapply inside_trans|constructor; [by eapply inside_trans|done]| |].
  - intros q _ [Hq Hqs]%Forall_cons. apply Hlow; [by apply Hlow2|done].
  - intros q Hq [Hqr Hqs]%Forall_cons. apply Hhigh; [by apply Hhigh2|done].
Qed.

Lemma last_max_Some i best lens k n :
  last_max i best lens = Some (k, n) -> best = Some (k, n) \/ exists j, k = (i + j)%nat /\ lens !! j = Some n.
Proof.
  revert i best. induction lens as [|m lens IH]; intros i best; [by left|]. cbn [last_max]. intros Hl.
  apply IH in Hl as [Hl|(j & -> & Hj)]; [|right; exists (S j); split; [lia|done]].
  assert (best = Some (k, n) \/ (i, m) = (k, n)) as [Hb|[= -> ->]].
  { destruct best as [[k' m']|]; [destruct (m' <=? m)|]; (by left) || (right; congruence). }
  - by left.
  - right. exists 0%nat. split; [lia|done].
Qed.

Lemma region_lens_Done l :
  Forall (fun r => 0 <= r_start r <= r_end r /\ r_end r < USIZE_MOD) l ->
  region_lens l = Done ((fun r => r_end r - r_start r) <$> l).
Proof.
  induction 1 as [|r l [Hr Hm] _ IH]; [done|]. cbn [region_lens]. rewrite region_len_Done by done. cbn [mbind outcome_bind].
  by rewrite IH.
Qed.

(** What a selection promises: its frames and its bookkeeping are in the regions
    that were used, and do not overlap. *)
Record selected (used : list range) (sel : ArenaSelection) : Prop := {
  sd_ok : forall physmap slots, phys_to_virt physmap (r_start (sel_bookkeeping sel)) = Done slots -> selection_ok SIZE physmap sel slots;
  sd_frames : forall x, x ∈ sel_regions sel ≫= region_frames -> exists r, r ∈ used /\ r_start r <= x /\ x + 4096 <= r_end r;
  sd_bookkeeping : exists r, r ∈ used /\ inside r (sel_bookkeeping sel);
  sd_apart : forall x, x ∈ sel_regions sel ≫= region_frames -> x + 4096 <= r_start (sel_bookkeeping sel) \/ r_end (sel_bookkeeping sel) <= x;
  sd_some : r_start (sel_bookkeeping sel) < r_end (sel_bookkeeping sel);
  sd_before : forall q, Forall (fun r => before up r q) used -> before up (sel_arena sel) q;
  sd_after : forall q, Forall (before up q) used -> before up q (sel_arena sel);
}.

(** A region that loses its end to the bookkeeping. *)
Lemma shrink_host host b :
  r_start host mod 4096 = 0 -> b mod 4096 = 0 -> r_start host <= b <= r_end host -> r_end host mod 4096 = 0 ->
  region_frames host = region_frames (Range (r_start host) b) ++ region_frames (Range b (r_end host)).
Proof.
  intros Hs Hb Hle He. unfold region_frames. cbn [r_start r_end].
  assert (forall x y, x mod 4096 = 0 -> y mod 4096 = 0 -> x - y = 4096 * ((x - y) / 4096)) as Hd.
  { intros x y Hx Hy. apply Z.div_exact; [lia|]. by rewrite Zminus_mod, Hx, Hy. }
  pose proof (Hd b (r_start host) Hb Hs) as H1. pose proof (Hd (r_end host) b He Hb) as H2. pose proof (Hd (r_end host) (r_start host) He Hs) as H3.
  replace ((r_end host - r_start host) / 4096) with ((b - r_start host) / 4096 + (r_end host - b) / 4096) by lia.
  rewrite run_app by (apply Z.div_pos; lia). do 2 f_equal. lia.
Qed.

Lemma inner_mono hull r : memory_region hull -> memory_region r -> inside hull r -> inside (inner hull) (inner r).
Proof.
  intros [Hh1 Hh2] [Hr1 Hr2] [H1 H2]. unfold inside, inner, roundup. cbn [r_start r_end].
  assert (forall x y, x <= y -> x - x mod 4096 <= y - y mod 4096) as Hmono.
  { intros x y Hxy. pose proof (Z.div_le_mono x y 4096 ltac:(lia) Hxy).
    pose proof (Z.div_mod x 4096 ltac:(lia)). pose proof (Z.div_mod y 4096 ltac:(lia)). lia. }
  split; apply Hmono; lia.
Qed.

Lemma in_region_frames r x :
  r_start r mod 4096 = 0 -> x mod 4096 = 0 -> r_start r <= x -> x + 4096 <= r_end r -> x ∈ region_frames r.
Proof.
  intros Hs Hx Hge Hle. apply elem_of_run. exists ((x - r_start r) / 4096).
  assert (x - r_start r = 4096 * ((x - r_start r) / 4096)) as Hd by (apply Z.div_exact; [lia|]; rewrite Zminus_mod, Hx, Hs; done).
  split; [|lia]. split; [apply Z.div_pos; lia|]. pose proof (Z.div_mod (r_end r - r_start r) 4096 ltac:(lia)).
  pose proof (Z.mod_pos_bound (r_end r - r_start r) 4096 ltac:(lia)). lia.
Qed.

(** Whole frames of the regions that are used. *)
Definition whole (used : list range) (r : range) : Prop :=
  r_start r < r_end r /\ exists u, u ∈ used /\ r_start r = r_start (inner u) /\ r_end r = r_end (inner u).

Lemma whole_facts hull used r :
  memory_region hull -> Forall memory_region used -> Forall (inside hull) used -> whole used r ->
  0 < r_start r /\ r_start r mod 4096 = 0 /\ r_end r mod 4096 = 0 /\ r_end r <= 2 ^ 63 /\ inside (inner hull) r
  /\ exists u, u ∈ used /\ inside u r.
Proof.
  intros Hh Hm Hin (Hlt & u & Hu & Hs & He). rewrite Forall_forall in Hm, Hin. specialize (Hm u Hu). specialize (Hin u Hu).
  destruct (inner_in u Hm) as (H1 & H2 & H3 & H4 & _). destruct (inner_mono hull u Hh Hm Hin) as [H5 H6].
  destruct Hm as [Hm1 Hm2]. rewrite Hs, He. split; [lia|]. split; [done|]. split; [done|]. split; [lia|].
  split; [split; lia|]. exists u. split; [done|]. split; lia.
Qed.

(** Where the bookkeeping starts. *)
Lemma carve_point host need :
  r_start host mod 4096 = 0 -> 0 <= need <= r_end host - r_start host ->
  let b := (r_end host - need) - (r_end host - need) mod 4096 in
  b mod 4096 = 0 /\ r_start host <= b /\ need <= r_end host - b.
Proof.
  intros Hsm Hn b. pose proof (Z.mod_pos_bound (r_end host - need) 4096 ltac:(lia)). unfold b.
  split; [by rewrite Zminus_mod_idemp_r, Z.sub_diag|].
  split; [|lia]. assert (r_start host = 4096 * (r_start host / 4096)) as Hd by (by apply Z.div_exact).
  pose proof (Z.div_mod (r_end host - need) 4096 ltac:(lia)).
  pose proof (Z.div_le_mono (r_start host) (r_end host - need) 4096 ltac:(lia) ltac:(lia)). lia.
Qed.

Lemma carve_frames regions i host b :
  regions !! i = Some host -> r_start host mod 4096 = 0 -> r_end host mod 4096 = 0 -> b mod 4096 = 0 ->
  r_start host <= b <= r_end host ->
  regions ≫= region_frames ≡ₚ
    region_frames (Range b (r_end host))
    ++ (List.filter (fun r => negb (range_is_empty r)) (<[i := Range (r_start host) b]> regions) ≫= region_frames).
Proof.
  intros Hi Hs He Hb Hle. rewrite filter_frames. rewrite (insert_take_drop _ _ _ (lookup_lt_Some _ _ _ Hi)).
  rewrite <- (take_drop_middle regions i host Hi) at 1. rewrite !bind_app. cbn [mbind list_bind].
  rewrite (shrink_host host b Hs Hb Hle He). solve_Permutation.
Qed.

(** The regions that are left. *)
Lemma carved_elem regions i host b r :
  regions !! i = Some host -> r ∈ List.filter (fun r => negb (range_is_empty r)) (<[i := Range (r_start host) b]> regions) ->
  r_start r < r_end r /\ (r = Range (r_start host) b \/ r ∈ regions).
Proof.
  intros Hi Hr. apply list_elem_of_In, filter_In in Hr as [Hr He]. apply list_elem_of_In in Hr. unfold range_is_empty in He.
  apply negb_true_iff in He. split; [lia|]. apply list_elem_of_lookup in Hr as [j Hr].
  apply list_lookup_insert_Some in Hr as [(_ & <- & _)|[_ Hr%list_elem_of_lookup_2]]; [by left|by right].
Qed.

Lemma carved_source hull used regions i host b r :
  memory_region hull -> Forall memory_region used -> Forall (inside hull) used -> Forall (whole used) regions ->
  b <= r_end host -> regions !! i = Some host ->
  r ∈ List.filter (fun r => negb (range_is_empty r)) (<[i := Range (r_start host) b]> regions) ->
  exists u, u ∈ used /\ inside u r.
Proof.
  intros Hh Hm Hin Hw Hb Hi Hr. rewrite Forall_forall in Hw. destruct (carved_elem regions i host b r Hi Hr) as [_ [->|Hr']].
  - destruct (whole_facts hull used host Hh Hm Hin (Hw host (list_elem_of_lookup_2 _ _ _ Hi))) as (_ & _ & _ & _ & _ & u & Hu & [? ?]).
    exists u. split; [done|]. split; cbn; lia.
  - apply (whole_facts hull used r Hh Hm Hin (Hw r Hr')).
Qed.

Lemma carved_region hull used regions i host b r :
  memory_region hull -> Forall memory_region used -> Forall (inside hull) used -> Forall (whole used) regions ->
  regions !! i = Some host -> r ∈ List.filter (fun r => negb (range_is_empty r)) (<[i := Range (r_start host) b]> regions) ->
  b mod 4096 = 0 -> b <= r_end host -> region_ok (inner hull) r.
Proof.
  intros Hh Hm Hin Hw Hi Hr Hbm Hb. rewrite Forall_forall in Hw. destruct (carved_elem regions i host b r Hi Hr) as [Hlt [->|Hr']].
  - destruct (whole_facts hull used host Hh Hm Hin (Hw host (list_elem_of_lookup_2 _ _ _ Hi))) as (? & ? & ? & _ & [? ?] & _).
    unfold region_ok. cbn [r_start r_end] in *. split_and!; (done || lia).
  - destruct (whole_facts hull used r Hh Hm Hin (Hw r Hr')) as (? & ? & ? & _ & [? ?] & _).
    unfold region_ok. split_and!; (done || lia).
Qed.

(** Taking the bookkeeping from the end of region [i]. *)
Lemma carve_ok hull used regions i host need wasted :
  memory_region hull -> Forall memory_region used -> Forall (inside hull) used ->
  Forall (whole used) regions -> NoDup (regions ≫= region_frames) -> regions !! i = Some host ->
  (forall q, Forall (fun r => before up r q) used -> before up hull q) -> (forall q, Forall (before up q) used -> before up q hull) ->
  need = (r_end (inner hull) - r_start (inner hull)) / 4096 * SIZE -> need <= r_end host - r_start host ->
  let b := (r_end host - need) - (r_end host - need) mod 4096 in
  let rest := List.filter (fun r => negb (range_is_empty r)) (<[i := Range (r_start host) b]> regions) in
  selected used (MkSelection (inner hull) rest (Range b (r_end host)) wasted).
Proof.
  intros Hh Hm Hin Hw Hnd Hi Hlow Hhigh Hneed Hfit b rest. rewrite Forall_forall in Hw.
  pose proof (Hw host (list_elem_of_lookup_2 _ _ _ Hi)) as Hwh.
  destruct (whole_facts hull used host Hh Hm Hin Hwh) as (Hpos & Hsm & Hem & Hmax & [Hi1 Hi2] & u & Hu & [Hu1 Hu2]).
  pose proof (proj1 Hwh) as Hlt. destruct (inner_in hull Hh) as (Hhs & Hhsm & Hhem & Hhe & _). pose proof Hh as [Hh1 Hh2].
  assert (0 <= need) as Hn0.
  { rewrite Hneed. pose proof (Z.div_pos (r_end (inner hull) - r_start (inner hull)) 4096 ltac:(lia) ltac:(lia)). nia. }
  destruct (carve_point host need Hsm ltac:(lia)) as (Hbm & Hb1 & Hb2). fold b in Hbm, Hb1, Hb2.
  pose proof (carve_frames regions i host b Hi Hsm Hem Hbm ltac:(lia)) as Hperm. fold rest in Hperm.
  rewrite Hperm in Hnd. apply NoDup_app in Hnd as (_ & Hdisj & Hnd).
  assert (forall r, r ∈ rest -> region_ok (inner hull) r) as Hrest.
  { intros r Hr. apply (carved_region hull used regions i host b r); (done || lia || by apply Forall_forall). }
  constructor; cbn [sel_arena sel_regions sel_bookkeeping].
  - intros physmap slots Hslots. constructor; cbn [sel_arena sel_regions sel_bookkeeping r_start r_end]; [split_and!; (done || lia)|..].
    + by apply Forall_forall.
    + done.
    + lia.
    + rewrite <- Hneed. lia.
    + done.
  - intros x Hx. apply list_elem_of_bind in Hx as (r & Hx & Hr).
    destruct (carved_source hull used regions i host b r) as (v & Hv & Hv1 & Hv2); try done; [by apply Forall_forall|lia|].
    destruct (region_frames_in (inner hull) r x Hhsm (Hrest r Hr) Hx) as (_ & ? & ?). exists v. split; [done|]. lia.
  - exists u. split; [done|]. split; cbn; lia.
  - cbn [r_start r_end]. intros x Hx. destruct (decide (x + 4096 <= b \/ r_end host <= x)) as [|Hno]; [done|]. exfalso.
    pose proof Hx as Hx'. apply list_elem_of_bind in Hx' as (r & Hx' & Hr).
    destruct (region_frames_in (inner hull) r x Hhsm (Hrest r Hr) Hx') as (Hxm & _ & _).
    apply (Hdisj x); [|done]. assert (forall y z, y mod 4096 = 0 -> z mod 4096 = 0 -> y < z + 4096 -> y <= z) as Hal.
    { intros y z Hy Hz Hyz. assert (y = 4096 * (y / 4096)) by (by apply Z.div_exact). assert (z = 4096 * (z / 4096)) by (by apply Z.div_exact). lia. }
    apply in_region_frames; cbn [r_start r_end]; [done|done|apply Hal; (done || lia)|].
    enough (x <= r_end host - 4096) by lia. apply Hal; [done|by rewrite Zminus_mod, Hem|lia].
  - cbn [r_start r_end]. enough (0 < need) by lia. rewrite Hneed.
    assert (1 <= (r_end (inner hull) - r_start (inner hull)) / 4096); [|nia]. apply Z.div_le_lower_bound; [lia|].
    pose proof (proj2 (Z.div_exact (r_end host - r_start host) 4096 ltac:(lia)) ltac:(by rewrite Zminus_mod, Hem, Hsm)). lia.
  - intros q Hq. specialize (Hlow q Hq). unfold before in *. destruct up; lia.
  - intros q Hq. specialize (Hhigh q Hq). unfold before in *. destruct up; lia.
Qed.

Lemma range_len_any r : 0 <= r_start r -> 0 <= r_end r < USIZE_MOD -> range_len r = Done (Z.max 0 (r_end r - r_start r)).
Proof.
  intros Hs He. destruct (decide (r_start r <= r_end r)).
  - rewrite region_len_Done by lia. f_equal. lia.
  - unfold range_len. replace (r_end r <=? r_start r) with true by lia. f_equal. lia.
Qed.

Lemma align_down_page x : is_usize x -> align_down x 4096 = Done (x - x mod 4096).
Proof. intros Hx. apply (align_down_pow2 x 12 Hx). lia. Qed.

(** The whole frames of the regions, sorted. *)
Lemma sorted_whole used :
  ordered up used ->
  let regions := merge_sort by_start (List.filter (fun r => negb (range_is_empty r)) (inner <$> used)) in
  Forall (whole used) regions /\ NoDup (regions ≫= region_frames).
Proof.
  intros Hd regions. assert (regions ≡ₚ List.filter (fun r => negb (range_is_empty r)) (inner <$> used)) as Hp by apply merge_sort_Permutation.
  split.
  - rewrite Hp. apply Forall_forall. intros r Hr. apply list_elem_of_In, filter_In in Hr as [Hr He].
    apply list_elem_of_In, list_elem_of_fmap in Hr as (u & -> & Hu). unfold range_is_empty in He. apply negb_true_iff in He.
    split; [lia|]. by exists u.
  - rewrite Hp, filter_frames. by apply (ordered_NoDup up).
Qed.

(** A step of the selection: it uses up some of the regions. *)
Lemma selections_next_ok s :
  ordered up (mr_range <$> as_free_regions s) -> 0 <= as_wasted_bytes s <= MAX_WASTED_ARENA_BYTES ->
  exists used rest wasted r, as_free_regions s = used ++ rest /\ selections_next SIZE s = Done (r, MkSelections rest wasted)
  /\ 0 <= wasted <= MAX_WASTED_ARENA_BYTES
  /\ match r with
     | Ok None => used = [] /\ rest = []
     | Ok (Some sel) => used <> [] /\ selected (mr_range <$> used) sel
     | Err _ => used <> []
     end.
Proof.
  intros Hd Hw. unfold selections_next. destruct (as_free_regions s) as [|seed free] eqn:Hfree.
  { exists [], [], (as_wasted_bytes s), (Ok None). destruct s. cbn in *. by subst. }
  destruct Hd as [Hreg Hsort]. rewrite fmap_cons in *. pose proof Hreg as [Hseed Hreg']%Forall_cons.
  apply StronglySorted_inv in Hsort as Hs2. destruct Hs2 as [Hsort' Hb].
  destruct (absorb_ok free (as_wasted_bytes s) (mr_range seed) [mr_range seed]) as
    (used & rest & wasted & hull & Hrun & -> & Hw' & Hh & Hin & Hused & Hlow & Hhigh); [done|done|done|done|].
  rewrite Hrun. cbn [mbind outcome_bind].
  set (all := mr_range seed :: (mr_range <$> used)). change ([mr_range seed] ++ (mr_range <$> used)) with all.
  assert (ordered up all) as Hall.
  { rewrite fmap_app in Hreg, Hsort. change (mr_range seed :: (mr_range <$> used) ++ (mr_range <$> rest)) with (all ++ (mr_range <$> rest)) in *.
    split; [by apply Forall_app in Hreg as [? _]|by eapply StronglySorted_app_1_l]. }
  assert (Forall (inside hull) all) as Hins by (constructor; [done|done]).
  rewrite range_align_in_Done by done. cbn [mbind outcome_bind]. rewrite align_regions_Done by apply Hall. cbn [mbind outcome_bind].
  destruct (sorted_whole all Hall) as [Hwhole Hnd]. set (regions := merge_sort _ _) in *.
  destruct (inner_in hull Hh) as (Hhs & _ & _ & Hhe & Hhe0). pose proof Hh as [Hh1 Hh2].
  rewrite range_len_any by lia. cbn [mbind outcome_bind].
  set (L := Z.max 0 (r_end (inner hull) - r_start (inner hull))).
  assert (0 <= L / 4096 * SIZE < USIZE_MOD) as Hneed.
  { pose proof (Z.div_pos L 4096 ltac:(lia) ltac:(lia)). pose proof (Z.mul_div_le L 4096 ltac:(lia)). nia. }
  unfold bookkeeping_size. rewrite u_mul_Done by exact Hneed. cbn [mbind outcome_bind]. change PAGE_SIZE with 4096.
  assert (Forall (fun r => 0 <= r_start r <= r_end r /\ r_end r < USIZE_MOD) regions) as Hlens.
  { eapply Forall_impl; [exact Hwhole|]. intros r Hr. pose proof (proj1 Hr) as Hlt.
    destruct (whole_facts hull all r Hh (proj1 Hall) Hins Hr) as (? & _ & _ & ? & _). lia. }
  rewrite region_lens_Done by done. cbn [mbind outcome_bind].
  destruct (last_max 0 None _) as [[i n]|] eqn:Hmax.
  2: { by exists (seed :: used), rest, wasted, (Err (inner hull)). }
  apply last_max_Some in Hmax as [?|(j & -> & Hj)]; [done|]. cbn [Nat.add]. apply list_lookup_fmap_Some in Hj as (host & -> & Hhost).
  rewrite Hhost. destruct (L / 4096 * SIZE <=? r_end host - r_start host) eqn:Hfit.
  2: { by exists (seed :: used), rest, wasted, (Err (inner hull)). }
  rewrite Forall_lookup in Hlens. pose proof (Hlens _ _ Hhost) as [Hho1 Hho2].
  unfold addr_sub. rewrite u_sub_Done by (unfold is_usize; lia). cbn [mbind outcome_bind].
  rewrite align_down_page by (unfold is_usize; lia). cbn [mbind outcome_bind].
  eexists (seed :: used), rest, 0, _. split; [done|]. split; [done|]. split; [unfold MAX_WASTED_ARENA_BYTES; lia|]. split; [done|].
  rewrite fmap_cons. fold all. rewrite Forall_lookup in Hwhole. pose proof (Hwhole _ _ Hhost) as Hwh.
  destruct (whole_facts hull all host Hh (proj1 Hall) Hins Hwh) as (_ & _ & _ & _ & [? ?] & _). pose proof (proj1 Hwh).
  apply (carve_ok hull all regions j host (L / 4096 * SIZE)); try done; [apply Hall|by apply Forall_lookup| | | |lia].
  - intros q [Hq Hqs]%Forall_cons. by apply Hlow.
  - intros q [Hq Hqs]%Forall_cons. by apply Hhigh.
  - do 2 f_equal. lia.
Qed.
End select.
