(* ===== verification/KernelFramesAlloc.v ===== *)
(** * Correctness of the kernel's frame allocator

    The frames that are free, in the arenas and in the caches of the CPUs, and
    how allocating and dropping frames changes them. *)

From stdpp Require Import base numbers list gmap sorting.
From Stdlib Require Import ZArith Lia.
From S2P Require Import Prelude Address Riscv Arch PhysMap Machine LoaderRegions KernelSpace KernelFrames.
From S2P Require Import KernelFramesCorrect KernelFramesNew.

Section alloc.
Context {SL : SlotList} (SIZE : Z) (HSIZE : 0 < SIZE).
Implicit Types (s : gmap Z FrameInfo) (a : Arena) (f : KFrames).

(** ** The state *)

(** The pointers in the caches. *)
Definition cached_ptrs (c : gmap Z slist) : list Z := map_to_list c ≫= (fun x => slist_iter x.2).

Definition arenas_free s (arenas : list Arena) : list Z := arenas ≫= arena_free s.

(** The free frames. *)
Definition all_free f : list Z :=
  arenas_free (kf_slots f) (kf_arenas f) ++ (addr_of (kf_slots f) <$> cached_ptrs (kf_caches f)).

(** [p] points to the slot of frame [x]. *)
Definition frame_at (arenas : list Arena) (p x : Z) : Prop := exists a, a ∈ arenas /\ in_arena a x /\ p = slot_of SIZE a x.

(** Two arenas share neither frames nor slots. *)
Definition apart a a' : Prop := forall x y, in_arena a x -> in_arena a' y ->
  x <> y /\ (slot_of SIZE a x + SIZE <= slot_of SIZE a' y \/ slot_of SIZE a' y + SIZE <= slot_of SIZE a x).

Definition arenas_apart (arenas : list Arena) : Prop :=
  forall i j a a', arenas !! i = Some a -> arenas !! j = Some a' -> i <> j -> apart a a'.

Record frames_ok f : Prop := {
  fo_arenas : Forall (arena_ok SIZE (kf_slots f)) (kf_arenas f);
  fo_ready : Forall (slots_ready SIZE (kf_slots f)) (kf_arenas f);
  fo_apart : arenas_apart (kf_arenas f);
  fo_cached : forall p, p ∈ cached_ptrs (kf_caches f) ->
    exists x, frame_at (kf_arenas f) p x /\ kf_slots f !! p = Some (MkInfo 0 x);
  fo_nodup : NoDup (all_free f);
}.

(** Pointers and frames correspond. *)
Lemma frame_at_inj arenas p q x y :
  arenas_apart arenas -> Forall geometry arenas -> frame_at arenas p x -> frame_at arenas q y -> (p = q <-> x = y).
Proof.
  intros Hap Hg (a & Ha & Hx & ->) (a' & Ha' & Hy & ->).
  apply list_elem_of_lookup in Ha as [i Hi], Ha' as [j Hj]. destruct (decide (i = j)) as [<-|Hne].
  - assert (a' = a) as -> by congruence. rewrite Forall_lookup in Hg. split; [|by intros ->].
    intros Heq. eapply slot_of_inj; [done|by eapply Hg|done|done|done].
  - destruct (Hap i j a a' Hi Hj Hne x y Hx Hy) as [Hxy Hpq]. split; [lia|done].
Qed.

(** Slots do not overlap. *)
Lemma frame_at_slots arenas p q x y :
  arenas_apart arenas -> frame_at arenas p x -> frame_at arenas q y -> p <> q -> p + SIZE <= q \/ q + SIZE <= p.
Proof.
  intros Hap (a & Ha & Hx & ->) (a' & Ha' & Hy & ->) Hne.
  apply list_elem_of_lookup in Ha as [i Hi], Ha' as [j Hj]. destruct (decide (i = j)) as [<-|Hij].
  - assert (a' = a) as -> by congruence. unfold slot_of in *.
    set (n := (x - _) / 4096) in *. set (m := (y - _) / 4096) in *. assert (n < m \/ m < n) as [H|H] by nia; nia.
  - by apply (Hap i j a a' Hi Hj Hij x y Hx Hy).
Qed.

Lemma fo_geometry f : frames_ok f -> Forall geometry (kf_arenas f).
Proof. intros Hf. eapply Forall_impl; [apply Hf|]. intros a Ha. apply Ha. Qed.

Lemma arenas_free_at s arenas x :
  Forall (arena_ok SIZE s) arenas -> x ∈ arenas_free s arenas ->
  exists a, a ∈ arenas /\ x ∈ arena_free s a /\ in_arena a x.
Proof.
  intros Hok Hx. apply list_elem_of_bind in Hx as (a & Hx & Ha). rewrite Forall_forall in Hok.
  exists a. split_and!; [done|done|]. eapply arena_free_in; [by apply Hok|done].
Qed.

(** A free frame is a frame of an arena. *)
Lemma all_free_at f x : frames_ok f -> x ∈ all_free f -> exists p, frame_at (kf_arenas f) p x.
Proof.
  intros Hf [Hx|Hx]%elem_of_app.
  - destruct (arenas_free_at _ _ x (fo_arenas f Hf) Hx) as (a & Ha & _ & Hin). by exists (slot_of SIZE a x), a.
  - apply list_elem_of_fmap in Hx as (p & -> & Hp). destruct (fo_cached f Hf p Hp) as (y & Hy & Hs). exists p.
    unfold addr_of. by rewrite Hs.
Qed.

(** ** Changing the slots *)

(** If the slots of free frames stay, so do the free frames. *)
Lemma arenas_agree s s' arenas :
  Forall (arena_ok SIZE s) arenas ->
  (forall a x, a ∈ arenas -> x ∈ arena_free s a -> s' !! slot_of SIZE a x = s !! slot_of SIZE a x) ->
  arenas_free s' arenas = arenas_free s arenas /\ Forall (arena_ok SIZE s') arenas.
Proof.
  induction arenas as [|a arenas IH]; intros Hok Hs; [done|]. apply Forall_cons in Hok as [Ha Hok].
  destruct (arena_ok_agree SIZE s s' a Ha) as [Hf Ha']; [intros x Hx; apply Hs; [by left|done]|].
  destruct (IH Hok) as [Hf' Hok']; [intros b x Hb Hx; apply Hs; [by right|done]|].
  split; [|by constructor]. unfold arenas_free in *. cbn. by rewrite Hf, Hf'.
Qed.

Lemma cached_agree s s' (l : list Z) : (forall p, p ∈ l -> s' !! p = s !! p) -> addr_of s' <$> l = addr_of s <$> l.
Proof.
  induction l as [|p l IH]; intros Hl; [done|]. cbn. f_equal.
  - unfold addr_of. by rewrite Hl by (by left).
  - apply IH. intros q Hq. apply Hl. by right.
Qed.

(** Writing the slot of a frame that is not free. *)
Lemma write_used f p x n :
  frames_ok f -> frame_at (kf_arenas f) p x -> x ∉ all_free f ->
  let f' := MkFrames (<[p := MkInfo n x]> (kf_slots f)) (kf_arenas f) (kf_caches f) (kf_max_alignment f) in
  frames_ok f' /\ all_free f' = all_free f.
Proof.
  intros Hf Hp Hx f'. pose proof (fo_geometry f Hf) as Hg. set (s' := <[p := MkInfo n x]> (kf_slots f)) in *.
  assert (forall q y, frame_at (kf_arenas f) q y -> y <> x -> s' !! q = kf_slots f !! q) as Hkeep.
  { intros q y Hq Hne. apply lookup_insert_ne. intros ->. apply Hne. by apply (frame_at_inj (kf_arenas f) q q y x); [apply Hf|..]. }
  destruct (arenas_agree (kf_slots f) s' (kf_arenas f)) as [Hfree Hok]; [apply Hf|..].
  { intros a y Ha Hy. assert (y ∈ all_free f) as Hy'.
    { apply elem_of_app. left. apply list_elem_of_bind. by exists a. }
    apply (Hkeep _ y); [|by intros ->]. exists a. split_and!; [done| |done]. eapply arena_free_in; [|done].
    pose proof (fo_arenas f Hf) as Hall. rewrite Forall_forall in Hall. by apply Hall. }
  assert (forall q, q ∈ cached_ptrs (kf_caches f) -> s' !! q = kf_slots f !! q) as Hc.
  { intros q Hq. destruct (fo_cached f Hf q Hq) as (y & Hqy & Hs). apply (Hkeep q y Hqy). intros ->. apply Hx.
    apply elem_of_app. right. apply list_elem_of_fmap. exists q. split; [unfold addr_of; by rewrite Hs|done]. }
  assert (all_free f' = all_free f) as Hall by (unfold all_free; f_equal; [exact Hfree|exact (cached_agree _ _ _ Hc)]).
  split; [|done]. constructor; cbn [kf_arenas kf_slots kf_caches f']; [done| |apply Hf| |by rewrite Hall; apply Hf].
  - pose proof (fo_ready f Hf) as Hr. rewrite Forall_forall in Hr |- *. intros a Ha y Hy. destruct (decide (y = x)) as [->|Hne].
    + exists n. assert (slot_of SIZE a x = p) as -> by (apply (frame_at_inj (kf_arenas f) _ _ x x); [apply Hf|done|by exists a|done|done]).
      apply lookup_insert_eq.
    + rewrite (Hkeep _ y); [by apply Hr|by exists a|done].
  - intros q Hq. rewrite (Hc q Hq). by apply Hf.
Qed.

(** ** Taking frames from an arena *)

(** The same frames and slots. *)
Definition alike a a' : Prop := ar_range a' = ar_range a /\ ar_slots a' = ar_slots a.

Lemma alike_in a a' x : alike a a' -> in_arena a' x <-> in_arena a x.
Proof. intros [Hr _]. unfold in_arena. by rewrite Hr. Qed.

Lemma alike_slot a a' x : alike a a' -> slot_of SIZE a' x = slot_of SIZE a x.
Proof. intros [Hr Hs]. unfold slot_of. by rewrite Hr, Hs. Qed.

Lemma insert_alike_lookup (arenas : list Arena) i j a a' b :
  arenas !! i = Some a -> alike a a' -> <[i := a']> arenas !! j = Some b -> exists b0, arenas !! j = Some b0 /\ alike b0 b.
Proof.
  intros Hi Hal Hj. apply list_lookup_insert_Some in Hj as [(<- & <- & _)|[_ Hj]]; [by exists a|]. by exists b.
Qed.

Lemma insert_alike_apart (arenas : list Arena) i a a' :
  arenas !! i = Some a -> alike a a' -> arenas_apart arenas -> arenas_apart (<[i := a']> arenas).
Proof.
  intros Hi Hal Hap j k b c Hb Hc Hne x y Hx Hy.
  destruct (insert_alike_lookup arenas i j a a' b Hi Hal Hb) as (b0 & Hb0 & Hbb).
  destruct (insert_alike_lookup arenas i k a a' c Hi Hal Hc) as (c0 & Hc0 & Hcc).
  rewrite (alike_slot _ _ x Hbb), (alike_slot _ _ y Hcc).
  apply (Hap j k b0 c0 Hb0 Hc0 Hne); [by apply (alike_in _ _ x Hbb)|by apply (alike_in _ _ y Hcc)].
Qed.

Lemma insert_alike_at (arenas : list Arena) i a a' p x :
  arenas !! i = Some a -> alike a a' -> frame_at arenas p x -> frame_at (<[i := a']> arenas) p x.
Proof.
  intros Hi Hal (b & Hb & Hx & ->). apply list_elem_of_lookup in Hb as [j Hj]. pose proof (lookup_lt_Some _ _ _ Hi) as Hlt.
  destruct (decide (i = j)) as [<-|Hne].
  - assert (b = a) as -> by congruence. exists a'. split; [apply (list_elem_of_lookup_2 _ i), list_lookup_insert_eq; done|].
    rewrite (alike_in _ _ x Hal), (alike_slot _ _ x Hal). done.
  - exists b. split; [|done]. apply (list_elem_of_lookup_2 _ j). by rewrite list_lookup_insert_ne.
Qed.

Lemma insert_alike_iff (arenas : list Arena) i a a' p x :
  arenas !! i = Some a -> alike a a' -> frame_at (<[i := a']> arenas) p x <-> frame_at arenas p x.
Proof.
  intros Hi Hal. split; [|by apply (insert_alike_at arenas i a a')].
  intros Hp. rewrite <- (list_insert_id arenas i a Hi), <- (list_insert_insert_eq arenas i a a').
  apply (insert_alike_at _ i a' a); [|split; symmetry; apply Hal|done].
  apply list_lookup_insert_eq. by eapply lookup_lt_Some.
Qed.

Lemma arenas_free_take s s' arenas i a a' l :
  arenas !! i = Some a -> arena_free s a ≡ₚ l ++ arena_free s' a' ->
  (forall j b, arenas !! j = Some b -> j <> i -> arena_free s' b = arena_free s b) ->
  arenas_free s arenas ≡ₚ l ++ arenas_free s' (<[i := a']> arenas).
Proof.
  intros Hi Hfree Hother. unfold arenas_free. rewrite (insert_take_drop _ _ _ (lookup_lt_Some _ _ _ Hi)).
  rewrite <- (take_drop_middle arenas i a Hi) at 1. rewrite !bind_app. cbn [mbind list_bind]. rewrite Hfree.
  assert (take i arenas ≫= arena_free s' = take i arenas ≫= arena_free s) as ->.
  { apply Forall_bind_ext, Forall_lookup. intros j b Hj. apply lookup_take_Some in Hj as [Hj ?]. apply (Hother j); [done|lia]. }
  assert (drop (S i) arenas ≫= arena_free s' = drop (S i) arenas ≫= arena_free s) as ->.
  { apply Forall_bind_ext, Forall_lookup. intros j b Hj. rewrite lookup_drop in Hj. apply (Hother _ b Hj). lia. }
  solve_Permutation.
Qed.

(** What an allocation of the frames of [l] does. *)
Record allocated f f' (l : list Z) : Prop := {
  al_ok : frames_ok f';
  al_free : all_free f ≡ₚ l ++ all_free f';
  al_at : forall p x, frame_at (kf_arenas f') p x <-> frame_at (kf_arenas f) p x;
  al_used : forall p x, frame_at (kf_arenas f) p x -> x ∉ all_free f -> kf_slots f' !! p = kf_slots f !! p;
}.

Section take.
Context f i a s' a' l (Hf : frames_ok f) (Hi : kf_arenas f !! i = Some a) (Ht : taken SIZE (kf_slots f) a s' a' l).

Lemma take_alike : alike a a'.
Proof. destruct (tk_same _ _ _ _ _ _ Ht) as (? & ? & _). by split. Qed.

Lemma take_ok : arena_ok SIZE (kf_slots f) a.
Proof. pose proof (fo_arenas f Hf) as Har. rewrite Forall_lookup in Har. by eapply Har. Qed.

Lemma take_free_at x : x ∈ arena_free (kf_slots f) a -> frame_at (kf_arenas f) (slot_of SIZE a x) x /\ x ∈ all_free f.
Proof.
  intros Hx. pose proof (list_elem_of_lookup_2 _ _ _ Hi) as Ha. split.
  - exists a. split_and!; [done|apply (arena_free_in SIZE _ _ _ take_ok Hx)|done].
  - apply elem_of_app. left. apply list_elem_of_bind. by exists a.
Qed.

(** Slots of frames that are not free in [a] stay. *)
Lemma take_keep p x : frame_at (kf_arenas f) p x -> x ∉ arena_free (kf_slots f) a -> s' !! p = kf_slots f !! p.
Proof.
  intros Hp Hx. apply (touched_other SIZE _ _ _ _ _ (tk_touched _ _ _ _ _ _ Ht)). intros y Hy ->. apply Hx.
  by rewrite (proj1 (frame_at_inj _ _ _ x y (fo_apart f Hf) (fo_geometry f Hf) Hp (proj1 (take_free_at y Hy))) eq_refl).
Qed.

Lemma take_other j b :
  kf_arenas f !! j = Some b -> j <> i ->
  arena_free s' b = arena_free (kf_slots f) b /\ arena_ok SIZE s' b /\ slots_ready SIZE s' b.
Proof.
  intros Hj Hne. pose proof Hf as [Har Hrd Hap _ _]. rewrite Forall_lookup in Har, Hrd. pose proof (Har j b Hj) as Hb.
  pose proof (list_elem_of_lookup_2 _ _ _ Hj) as Hbin.
  assert (forall y, in_arena b y -> s' !! slot_of SIZE b y = kf_slots f !! slot_of SIZE b y) as Hs.
  { intros y Hy. apply (take_keep _ y); [by exists b|]. intros Hya.
    by destruct (Hap j i b a Hj Hi Hne y y Hy (arena_free_in SIZE _ _ _ take_ok Hya)) as [Hyy _]. }
  destruct (arena_ok_agree SIZE _ s' b Hb) as [Hfb Hb']; [intros y Hy; apply Hs; by eapply arena_free_in|].
  split_and!; [done|done|]. intros y Hy. rewrite (Hs y Hy). by eapply Hrd.
Qed.

Lemma take_cached p : p ∈ cached_ptrs (kf_caches f) -> s' !! p = kf_slots f !! p.
Proof.
  intros Hp. destruct (fo_cached f Hf p Hp) as (x & Hpx & Hsp). apply (take_keep p x Hpx). intros Hx.
  pose proof (fo_nodup f Hf) as Hnd. unfold all_free in Hnd. apply NoDup_app in Hnd as (_ & Hnd & _). apply (Hnd x).
  - apply list_elem_of_bind. exists a. split; [done|]. by eapply list_elem_of_lookup_2.
  - apply list_elem_of_fmap. exists p. split; [unfold addr_of; by rewrite Hsp|done].
Qed.

Lemma take_ready : slots_ready SIZE s' a'.
Proof.
  pose proof (fo_ready f Hf) as Hrd. rewrite Forall_lookup in Hrd. intros y Hy. rewrite (alike_slot _ _ y take_alike).
  apply (slots_ready_touched SIZE HSIZE (kf_slots f) s' a (arena_free (kf_slots f) a));
    [by eapply Hrd|apply take_ok|intros x Hx; by apply (arena_free_in SIZE _ _ _ take_ok)|apply Ht|by apply (alike_in _ _ y take_alike)].
Qed.

Lemma take_from : allocated f (MkFrames s' (<[i := a']> (kf_arenas f)) (kf_caches f) (kf_max_alignment f)) l.
Proof.
  assert (all_free f ≡ₚ l ++ all_free (MkFrames s' (<[i := a']> (kf_arenas f)) (kf_caches f) (kf_max_alignment f))) as Hperm.
  { unfold all_free. cbn [kf_slots kf_arenas kf_caches]. rewrite (cached_agree (kf_slots f) s' _ take_cached), app_assoc. f_equiv.
    by apply (arenas_free_take _ s' (kf_arenas f) i a a' l Hi (tk_free _ _ _ _ _ _ Ht)); intros j b Hj Hne; apply (take_other j b). }
  constructor; [|done|intros p x; exact (insert_alike_iff _ i a a' p x Hi take_alike)|].
  - constructor; cbn [kf_slots kf_arenas kf_caches].
    + apply Forall_lookup. intros j b Hj. apply list_lookup_insert_Some in Hj as [(<- & <- & _)|[Hne Hj]]; [apply Ht|by apply (take_other j b)].
    + apply Forall_lookup. intros j b Hj. apply list_lookup_insert_Some in Hj as [(<- & <- & _)|[Hne Hj]]; [apply take_ready|by apply (take_other j b)].
    + exact (insert_alike_apart _ i a a' Hi take_alike (fo_apart f Hf)).
    + intros p Hp. destruct (fo_cached f Hf p Hp) as (x & Hpx & Hsp). exists x.
      split; [exact (insert_alike_at _ i a a' p x Hi take_alike Hpx)|by rewrite (take_cached p Hp)].
    + pose proof (fo_nodup f Hf) as Hnd. rewrite Hperm in Hnd. by apply NoDup_app in Hnd as (_ & _ & ?).
  - intros p x Hp Hx. apply (take_keep p x Hp). intros Hxa. apply Hx. by apply take_free_at.
Qed.
End take.
End alloc.
