(* ===== verification/KernelFramesRun.v ===== *)
(** * Contiguous runs in the frame cache

    [find_contiguous_run] finds a window of the cache that is contiguous and
    aligned, if there is one. *)

From stdpp Require Import base numbers list gmap sorting.
From Stdlib Require Import ZArith Lia.
From S2P Require Import Prelude Address Riscv Arch PhysMap Machine LoaderRegions KernelSpace KernelFrames.
From S2P Require Import KernelFramesCorrect KernelFramesNew.

Section run.
Context (align : Z).

(** A run of consecutive frames that starts at a multiple of [align]. *)
Definition contiguous (l : list Z) : Prop :=
  match l with [] => False | x :: _ => x mod align = 0 /\ l = run x (Z.of_nat (length l)) end.

Lemma run_1 x : run x 1 = [x].
Proof. unfold run. change (seqZ 0 1) with [0]. cbn [fmap list_fmap]. by rewrite Z.mul_0_l, Z.add_0_r. Qed.

Lemma run_snoc x n : 0 <= n -> run x (n + 1) = run x n ++ [x + n * 4096].
Proof. intros Hn. rewrite run_app by lia. by rewrite run_1. Qed.

Lemma contiguous_one a : contiguous [a] <-> a mod align = 0.
Proof. unfold contiguous. cbn [length]. change (Z.of_nat 1) with 1. rewrite run_1. split; [by intros [? _]|done]. Qed.

Lemma last_run x n : 0 < n -> last (run x n) = Some (x + (n - 1) * 4096).
Proof. intros Hn. replace n with (n - 1 + 1) at 1 by lia. rewrite run_snoc by lia. by rewrite last_snoc. Qed.

Lemma contiguous_snoc l p a : last l = Some p -> (contiguous (l ++ [a]) <-> contiguous l /\ a = p + 4096).
Proof.
  intros Hp. destruct l as [|x l]; [done|]. set (n := Z.of_nat (length (x :: l))).
  assert (0 < n) as Hn by (unfold n; cbn [length]; lia).
  unfold contiguous. cbn [app]. rewrite app_comm_cons, length_app. cbn [length] in *.
  replace (Z.of_nat (S (length l) + 1)) with (n + 1) by (unfold n; cbn [length]; lia).
  replace (Z.of_nat (S (length l))) with n by done. rewrite run_snoc by lia. split.
  - intros [Hx Hl]. apply app_inj_tail in Hl as [Hl ->]. split; [done|]. rewrite Hl, last_run in Hp by lia. injection Hp as <-. lia.
  - intros [[Hx Hl] ->]. split; [done|]. rewrite Hl, last_run in Hp by lia. injection Hp as <-. rewrite <- Hl. do 2 f_equal. lia.
Qed.

(** What is known after the frames of [pre]: the current run is the longest
    that ends there, and no window of [n] frames has been passed. *)
Record scanned (n : Z) (pre : list Z) (start : nat) (len : Z) : Prop := {
  sc_len : 0 <= len < n;
  sc_run : 0 < len -> Z.of_nat start + len = Z.of_nat (length pre) /\ contiguous (drop start pre);
  sc_longest : forall j, (j < length pre)%nat -> contiguous (drop j pre) -> 0 < len /\ (start <= j)%nat;
  sc_none : forall j, (j + Z.to_nat n <= length pre)%nat -> ~ contiguous (take (Z.to_nat n) (drop j pre));
}.

Lemma scanned_nil n : 1 <= n -> scanned n [] 0 0.
Proof. intros Hn. constructor; [lia|lia|cbn; lia|]. intros j Hj. cbn in Hj. lia. Qed.

Lemma drop_snoc_last (pre : list Z) j a :
  (j <= length pre)%nat -> drop j (pre ++ [a]) = drop j pre ++ [a].
Proof. intros Hj. by rewrite drop_app_le. Qed.

Lemma last_drop_lt (pre : list Z) j : (j < length pre)%nat -> last (drop j pre) = last pre.
Proof. intros Hj. rewrite <- (take_drop j pre) at 2. rewrite last_app. destruct (last (drop j pre)) eqn:E; [done|]. apply last_None in E.
  apply (f_equal length) in E. rewrite length_drop in E. cbn in E. lia. Qed.

(** The window that ends at the new frame is the current run. *)
Lemma scanned_windows n pre a start len :
  1 <= n -> 0 <= len < n ->
  (forall j, (j <= length pre)%nat -> contiguous (drop j (pre ++ [a])) -> 0 < len /\ (start <= j)%nat) ->
  (0 < len -> Z.of_nat start + len = Z.of_nat (length pre) + 1) ->
  (forall j, (j + Z.to_nat n <= length pre)%nat -> ~ contiguous (take (Z.to_nat n) (drop j pre))) ->
  forall j, (j + Z.to_nat n <= length (pre ++ [a]))%nat -> ~ contiguous (take (Z.to_nat n) (drop j (pre ++ [a]))).
Proof.
  intros Hn Hlen Hlong Hrun Hnone j Hj Hc. rewrite length_app in Hj. cbn in Hj.
  destruct (decide (j + Z.to_nat n <= length pre)%nat) as [Hle|Hgt].
  - apply (Hnone j Hle). rewrite drop_snoc_last, take_app_le in Hc by (rewrite ?length_drop; lia). done.
  - rewrite take_ge in Hc by (rewrite length_drop, length_app; cbn; lia).
    destruct (Hlong j ltac:(lia) Hc) as [Hpos Hs]. specialize (Hrun Hpos). lia.
Qed.

(** One more frame. *)
Lemma scanned_extend n pre p a start len :
  1 <= n -> scanned n pre start len -> last pre = Some p -> 0 < len -> a = p + 4096 ->
  contiguous (drop start (pre ++ [a])) /\ (start <= length pre)%nat
  /\ (len + 1 <> n -> scanned n (pre ++ [a]) start (len + 1)).
Proof.
  intros Hn [Hlen Hrun Hlong Hnone] Hp Hpos Ha. destruct (Hrun Hpos) as [Hs Hc].
  assert (start < length pre)%nat as Hlt by lia.
  assert (contiguous (drop start (pre ++ [a]))) as Hc'.
  { rewrite drop_snoc_last by lia. apply (contiguous_snoc _ p); [rewrite last_drop_lt by lia; done|done]. }
  assert (forall j, (j <= length pre)%nat -> contiguous (drop j (pre ++ [a])) -> 0 < len + 1 /\ (start <= j)%nat) as Hlong'.
  { intros j Hj Hjc. split; [lia|]. destruct (decide (j = length pre)) as [->|]; [lia|].
    rewrite drop_snoc_last in Hjc by lia. apply (contiguous_snoc _ p) in Hjc as [Hjc _]; [|rewrite last_drop_lt by lia; done].
    apply Hlong; [lia|done]. }
  split_and!; [done|lia|]. intros Hne. constructor; [lia| | |].
  - intros _. rewrite length_app. cbn. split; [lia|done].
  - intros j Hj. rewrite length_app in Hj. cbn in Hj. apply Hlong'. lia.
  - apply (scanned_windows n pre a start (len + 1)); [done|lia|done|lia|done].
Qed.

(** No run reaches the new frame, unless it starts there. *)
Lemma scanned_break n pre a start len j :
  scanned n pre start len -> (forall p, last pre = Some p -> 0 < len -> a <> p + 4096) ->
  (j <= length pre)%nat -> contiguous (drop j (pre ++ [a])) -> j = length pre /\ a mod align = 0.
Proof.
  intros [Hlen Hrun Hlong Hnone] Hbr Hj Hc. destruct (decide (j = length pre)) as [->|Hne].
  - rewrite drop_app_length in Hc. split; [done|exact (proj1 (contiguous_one a) Hc)].
  - exfalso. rewrite drop_snoc_last in Hc by done.
    destruct (last pre) as [p|] eqn:Hp; [|apply last_None in Hp; subst pre; cbn in *; lia].
    apply (contiguous_snoc _ p) in Hc as [Hc Ha]; [|rewrite last_drop_lt by lia; done].
    destruct (Hlong j) as [Hpos _]; [lia|done|]. by apply (Hbr p).
Qed.

Lemma scanned_restart n pre a start len :
  1 <= n -> scanned n pre start len -> (forall p, last pre = Some p -> 0 < len -> a <> p + 4096) -> a mod align = 0 ->
  contiguous (drop (length pre) (pre ++ [a])) /\ (1 <> n -> scanned n (pre ++ [a]) (length pre) 1).
Proof.
  intros Hn Hsc Hbr Ha. pose proof (scanned_break n pre a start len) as Hb. split; [rewrite drop_app_length; by apply contiguous_one|].
  intros Hne. constructor; [lia| | |].
  - intros _. rewrite length_app, drop_app_length. cbn. split; [lia|by apply contiguous_one].
  - intros j Hj Hc. rewrite length_app in Hj. cbn in Hj. destruct (Hb j Hsc Hbr ltac:(lia) Hc) as [-> _]. lia.
  - apply (scanned_windows n pre a (length pre) 1); [done|lia| |lia|apply Hsc].
    intros j Hj Hc. destruct (Hb j Hsc Hbr ltac:(lia) Hc) as [-> _]. lia.
Qed.

Lemma scanned_stop n pre a start len :
  1 <= n -> scanned n pre start len -> (forall p, last pre = Some p -> 0 < len -> a <> p + 4096) -> a mod align <> 0 ->
  scanned n (pre ++ [a]) start 0.
Proof.
  intros Hn Hsc Hbr Ha. pose proof (scanned_break n pre a start len) as Hb. constructor; [lia|lia| |].
  - intros j Hj Hc. rewrite length_app in Hj. cbn in Hj. by destruct (Hb j Hsc Hbr ltac:(lia) Hc) as [_ ?].
  - apply (scanned_windows n pre a start 0); [done|lia| |lia|apply Hsc].
    intros j Hj Hc. by destruct (Hb j Hsc Hbr ltac:(lia) Hc) as [_ ?].
Qed.

Definition small (a : Z) : Prop := 0 <= a /\ a + 4096 < USIZE_MOD.

Lemma extends_run_spec a p : small a -> small p -> (wrapping_sub a p =? PAGE_SIZE) = true <-> a = p + 4096.
Proof.
  intros [Ha Ha'] [Hp Hp']. rewrite Z.eqb_eq. unfold wrapping_sub, wrap. split.
  - intros H. pose proof (Z.div_mod (a - p) USIZE_MOD ltac:(done)) as Hd. rewrite H in Hd.
    change PAGE_SIZE with 4096 in Hd. generalize dependent ((a - p) / USIZE_MOD). intros q Hd. lia.
  - intros ->. replace (p + 4096 - p) with 4096 by lia. apply Z.mod_small. done.
Qed.

(** The window found, or that there is none. *)
Definition window_spec (n : Z) (l : list Z) (r : option nat) : Prop :=
  match r with
  | Some k => (k + Z.to_nat n <= length l)%nat /\ contiguous (take (Z.to_nat n) (drop k l))
  | None => forall k, (k + Z.to_nat n <= length l)%nat -> ~ contiguous (take (Z.to_nat n) (drop k l))
  end.

Lemma window_found n pre a l k :
  contiguous (drop k (pre ++ [a])) -> Z.of_nat k + n = Z.of_nat (length pre) + 1 -> 1 <= n -> window_spec n (pre ++ a :: l) (Some k).
Proof.
  intros Hc Hk Hn. unfold window_spec. rewrite cons_middle, app_assoc. rewrite drop_app_le by (rewrite length_app; cbn; lia).
  rewrite take_app_le, take_ge by (rewrite length_drop, length_app; cbn; lia). rewrite !length_app. cbn. split; [lia|done].
Qed.

Context (power : exists j, 0 <= j < 64 /\ align = 2 ^ j).

Lemma find_run_ok n l : forall pre start len,
  1 <= n -> Forall small (pre ++ l) -> scanned n pre start len ->
  exists r, find_run n align (length pre) start len (last pre) l = Done r /\ window_spec n (pre ++ l) r.
Proof.
  induction l as [|a l IH]; intros pre start len Hn Hs Hsc.
  { exists None. rewrite app_nil_r. split; [done|exact (sc_none _ _ _ _ Hsc)]. }
  pose proof Hs as Hs'. rewrite cons_middle, app_assoc in Hs'.
  apply Forall_app in Hs as [Hpre Hal]. apply Forall_cons in Hal as [Ha Hl].
  assert (forall st ln, scanned n (pre ++ [a]) st ln -> exists r, find_run n align (S (length pre)) st ln (Some a) l = Done r
    /\ window_spec n (pre ++ a :: l) r) as Hgo.
  { intros st ln Hst. destruct (IH (pre ++ [a]) st ln Hn Hs' Hst) as (r & Hr & Hw). exists r.
    rewrite length_app, last_snoc, Nat.add_1_r in Hr. split; [done|]. by rewrite cons_middle, app_assoc. }
  cbn [find_run]. set (ext := match last pre with Some p => _ | None => false end).
  assert (ext = true <-> exists p, last pre = Some p /\ a = p + 4096) as Hext.
  { unfold ext. destruct (last pre) as [p|] eqn:Hp; [|split; [done|by intros (? & ? & _)]].
    rewrite extends_run_spec; [|done|apply last_Some in Hp as [l' ->]; apply Forall_app in Hpre as [_ Hpre]; by apply Forall_cons in Hpre as [? _]].
    split; [by exists p|]. by intros (? & [= <-] & ?). }
  destruct ((0 <? len) && ext) eqn:Hb.
  - apply andb_prop in Hb as [Hpos He]. apply Hext in He as (p & Hp & Hpa). apply Z.ltb_lt in Hpos.
    destruct (scanned_extend n pre p a start len Hn Hsc Hp Hpos Hpa) as (Hc & Hle & Hnext). cbn.
    destruct (Z.eqb_spec (len + 1) n) as [Heq|Hne]; [|by apply Hgo, Hnext].
    exists (Some start). split; [done|]. apply window_found; [done| |done]. destruct Hsc as [_ Hrun _ _]. specialize (Hrun Hpos). lia.
  - assert (forall p, last pre = Some p -> 0 < len -> a <> p + 4096) as Hbr.
    { intros p Hp Hpos Heq. rewrite (proj2 Hext), andb_true_r in Hb by (by exists p). lia. }
    destruct power as (j & Hj & Hpow). rewrite Hpow, (is_aligned_to_pow2 a j), <- Hpow by lia. cbn -[Z.eqb].
    destruct (Z.eqb_spec (a mod align) 0) as [Hz|Hnz]; cbn -[Z.eqb].
    + destruct (scanned_restart n pre a start len Hn Hsc Hbr Hz) as [Hc Hnext].
      destruct (Z.eqb_spec 1 n) as [Heq|Hne]; [|by apply Hgo, Hnext].
      exists (Some (length pre)). split; [done|]. by apply window_found; [|lia|].
    + destruct (Z.eqb_spec 0 n) as [Heq|Hne]; [lia|]. apply Hgo. by apply (scanned_stop n pre a start len).
Qed.

Lemma find_contiguous_run_ok n l :
  1 <= n -> Forall small l -> exists r, find_contiguous_run n align l = Done r /\ window_spec n l r.
Proof. intros Hn Hl. apply (find_run_ok n l [] 0 0 Hn Hl). by apply scanned_nil. Qed.
End run.
