(* ===== verification/KernelFramesOps.v ===== *)
(** * Allocating, cloning and dropping frames

    Whatever mix of arenas and caches a frame comes from, it was free before
    and is not free afterwards, and no frame in use changes. *)

From stdpp Require Import base numbers list gmap sorting.
From Stdlib Require Import ZArith Lia.
From S2P Require Import Prelude Address Riscv Arch PhysMap Machine LoaderRegions KernelSpace KernelFrames.
From S2P Require Import KernelFramesCorrect KernelFramesNew KernelFramesAlloc KernelFramesRun.

Section ops.
Context {SL : SlotList} (SIZE : Z) (HSIZE : 0 < SIZE).
Implicit Types (s : gmap Z FrameInfo) (a : Arena) (f : KFrames).

Local Abbreviation frames_ok := (frames_ok SIZE).
Local Abbreviation frame_at := (frame_at SIZE).
Local Abbreviation allocated := (allocated SIZE).

(** ** The arenas in order *)

Lemma over_arenas_ok {A} (op : Arena -> M Slots (option A * Arena)) (N : Arena -> Prop) (P : Arena -> A -> Slots -> Arena -> Prop) s arenas :
  (forall a, a ∈ arenas -> exists r a' s', op a s = Done ((r, a'), s')
     /\ match r with None => a' = a /\ s' = s /\ N a | Some x => P a x s' a' end) ->
  exists r arenas' s', over_arenas op arenas s = Done ((r, arenas'), s')
  /\ match r with
     | None => arenas' = arenas /\ s' = s /\ Forall N arenas
     | Some x => exists i a a', arenas !! i = Some a /\ arenas' = <[i := a']> arenas /\ P a x s' a'
     end.
Proof.
  induction arenas as [|a arenas IH]; intros Hop; [by exists None, [], s|]. cbn [over_arenas].
  destruct (Hop a ltac:(by left)) as (r & a' & s' & Hr & Hres). step_by Hr. destruct r as [x|]; cbn [fst snd].
  - exists (Some x), (a' :: arenas), s'. split; [done|]. by exists 0%nat, a, a'.
  - destruct Hres as (-> & -> & Hn). destruct IH as (r & arenas' & s' & Hrec & Hres); [intros b Hb; apply Hop; by right|].
    step_by Hrec. exists r, (a :: arenas'), s'. split; [done|]. destruct r as [x|]; cbn [fst snd].
    + destruct Hres as (i & b & b' & Hi & -> & HP). by exists (S i), b, b'.
    + destruct Hres as (-> & -> & Hall). split_and!; [done|done|by constructor].
Qed.

Lemma frames_eta f : MkFrames (kf_slots f) (kf_arenas f) (kf_caches f) (kf_max_alignment f) = f.
Proof. by destruct f. Qed.

(** An allocation from the arenas. *)
Lemma global_ok {A} (op : Arena -> M Slots (option A * Arena)) (N : Slots -> Arena -> Prop) (Q : Arena -> A -> list Z -> Prop) f :
  frames_ok f ->
  (forall s a, arena_ok SIZE s a -> exists r a' s', op a s = Done ((r, a'), s')
     /\ match r with None => a' = a /\ s' = s /\ N s a | Some x => exists l, Q a x l /\ taken SIZE s a s' a' l end) ->
  exists r f', global op f = Done (r, f')
  /\ match r with
     | None => f' = f /\ Forall (N (kf_slots f)) (kf_arenas f)
     | Some x => exists a l, a ∈ kf_arenas f /\ Q a x l /\ allocated f f' l /\ kf_caches f' = kf_caches f
         /\ forall y, y ∈ l -> frame_at (kf_arenas f) (slot_of SIZE a y) y /\ kf_slots f' !! slot_of SIZE a y = Some (MkInfo 0 y)
     end.
Proof.
  intros Hf Hop. pose proof (fo_arenas _ _ Hf) as Har. rewrite Forall_forall in Har.
  destruct (over_arenas_ok op (N (kf_slots f)) (fun a x s' a' => exists l, Q a x l /\ taken SIZE (kf_slots f) a s' a' l) (kf_slots f) (kf_arenas f))
    as (r & arenas' & s' & Hrun & Hres); [intros a Ha; by apply Hop, Har|].
  unfold global. rewrite Hrun. exists r. eexists. split; [done|]. destruct r as [x|].
  - destruct Hres as (i & a & a' & Hi & -> & l & HQ & Ht). pose proof (list_elem_of_lookup_2 _ _ _ Hi) as Ha. exists a, l.
    split_and!; [done|done|by apply (take_from SIZE HSIZE f i a)|done|]. intros y Hy. split; [|by apply Ht].
    exists a. split_and!; [done| |done]. apply (arena_free_in SIZE (kf_slots f) a _ (Har a Ha)). rewrite (tk_free _ _ _ _ _ _ Ht).
    apply elem_of_app. by left.
  - destruct Hres as (-> & -> & Hall). by rewrite frames_eta.
Qed.

(** ** The caches *)

(** The free frames outside the cache of [cpu]. *)
Definition elsewhere (cpu : Z) f : list Z :=
  arenas_free (kf_slots f) (kf_arenas f) ++ (addr_of (kf_slots f) <$> cached_ptrs (delete cpu (kf_caches f))).

Lemma cached_ptrs_insert (c : gmap Z slist) cpu l : c !! cpu = None -> cached_ptrs (<[cpu := l]> c) ≡ₚ slist_iter l ++ cached_ptrs c.
Proof. intros Hc. unfold cached_ptrs. by rewrite (map_to_list_insert c cpu l Hc). Qed.

Lemma cached_ptrs_split (c : gmap Z slist) cpu : cached_ptrs c ≡ₚ slist_iter (default slist_new (c !! cpu)) ++ cached_ptrs (delete cpu c).
Proof.
  destruct (c !! cpu) as [l|] eqn:Hc; cbn [default].
  - rewrite <- (insert_delete_id c cpu l Hc) at 1. apply cached_ptrs_insert, lookup_delete_eq.
  - by rewrite (delete_id c cpu Hc), slist_iter_new.
Qed.

Definition with_cache (cpu : Z) (l : slist) f : KFrames :=
  MkFrames (kf_slots f) (kf_arenas f) (<[cpu := l]> (kf_caches f)) (kf_max_alignment f).

Lemma with_cache_ptrs cpu l f : cached_ptrs (kf_caches (with_cache cpu l f)) ≡ₚ slist_iter l ++ cached_ptrs (delete cpu (kf_caches f)).
Proof. cbn. rewrite <- insert_delete_eq. apply cached_ptrs_insert, lookup_delete_eq. Qed.

(** The pointers in the cache of [cpu]. *)
Definition cached (cpu : Z) f : list Z := slist_iter (cache cpu f).

Lemma all_free_split cpu f : all_free f ≡ₚ (addr_of (kf_slots f) <$> cached cpu f) ++ elsewhere cpu f.
Proof. unfold all_free, elsewhere, cached, cache. rewrite (cached_ptrs_split (kf_caches f) cpu), fmap_app. solve_Permutation. Qed.

Lemma with_cache_free cpu l f : all_free (with_cache cpu l f) ≡ₚ (addr_of (kf_slots f) <$> slist_iter l) ++ elsewhere cpu f.
Proof. unfold all_free. rewrite with_cache_ptrs, fmap_app. unfold elsewhere. cbn. solve_Permutation. Qed.

(** [p] points to the slot of [x], which is marked as free. *)
Definition free_ptr f (p x : Z) : Prop := frame_at (kf_arenas f) p x /\ kf_slots f !! p = Some (MkInfo 0 x).

Lemma cache_free_ptr cpu f p : frames_ok f -> p ∈ cached cpu f -> free_ptr f p (addr_of (kf_slots f) p).
Proof.
  intros Hf Hp. destruct (fo_cached _ f Hf p) as (x & Hx & Hs).
  - rewrite (cached_ptrs_split _ cpu). apply elem_of_app. by left.
  - unfold free_ptr, addr_of. rewrite Hs. done.
Qed.

Lemma with_cache_ok cpu l f :
  frames_ok f -> (forall p, p ∈ slist_iter l -> exists x, free_ptr f p x) -> NoDup ((addr_of (kf_slots f) <$> slist_iter l) ++ elsewhere cpu f) ->
  frames_ok (with_cache cpu l f).
Proof.
  intros Hf Hl Hnd. constructor; [apply Hf..| |by rewrite with_cache_free].
  intros p Hp. rewrite with_cache_ptrs in Hp. apply elem_of_app in Hp as [Hp|Hp]; [by apply Hl|].
  apply (fo_cached _ _ Hf). rewrite (cached_ptrs_split _ cpu). apply elem_of_app. by right.
Qed.

Lemma nodup_all cpu f : frames_ok f -> NoDup ((addr_of (kf_slots f) <$> cached cpu f) ++ elsewhere cpu f).
Proof. intros Hf. rewrite <- all_free_split. apply Hf. Qed.

Lemma cache_take cpu f ptrs rest :
  frames_ok f -> cached cpu f ≡ₚ ptrs ++ slist_iter rest -> allocated f (with_cache cpu rest f) (addr_of (kf_slots f) <$> ptrs).
Proof.
  intros Hf Hc. pose proof (nodup_all cpu f Hf) as Hnd. rewrite Hc, fmap_app, <- app_assoc in Hnd. constructor; [|..|done|done].
  - apply with_cache_ok; [done| |by apply NoDup_app in Hnd as (_ & _ & ?)].
    intros p Hp. eexists. apply (cache_free_ptr cpu f p Hf). rewrite Hc. apply elem_of_app. by right.
  - rewrite with_cache_free, (all_free_split cpu f), Hc, fmap_app. by rewrite app_assoc.
Qed.

Lemma allocated_trans f f1 f2 l1 l2 : allocated f f1 l1 -> allocated f1 f2 l2 -> allocated f f2 (l1 ++ l2).
Proof.
  intros [Hok1 Hf1 Hat1 Hu1] [Hok2 Hf2 Hat2 Hu2]. constructor; [done|by rewrite Hf1, Hf2, app_assoc|intros p x; by rewrite Hat2, Hat1|].
  intros p x Hp Hx. rewrite (Hu2 p x), (Hu1 p x); [done|done|done|by apply Hat1|]. intros Hx'. apply Hx. rewrite Hf1. apply elem_of_app. by right.
Qed.

Lemma free_ptrs_addrs f ptrs l : Forall2 (free_ptr f) ptrs l -> addr_of (kf_slots f) <$> ptrs = l.
Proof. induction 1 as [|p x ptrs l [_ Hs] _ IH]; [done|]. cbn. rewrite IH. unfold addr_of. by rewrite Hs. Qed.

(** Frames that are not in use go to the cache. *)
Lemma give_back cpu f ptrs l new :
  frames_ok f -> Forall2 (free_ptr f) ptrs l -> NoDup (l ++ all_free f) -> slist_iter new = cached cpu f ++ ptrs ->
  frames_ok (with_cache cpu new f) /\ all_free (with_cache cpu new f) ≡ₚ l ++ all_free f.
Proof.
  intros Hf Hp Hnd Hnew. assert (all_free (with_cache cpu new f) ≡ₚ l ++ all_free f) as Hfree.
  { rewrite with_cache_free, Hnew, fmap_app, (free_ptrs_addrs f ptrs l Hp), (all_free_split cpu f). solve_Permutation. }
  split; [|done]. apply with_cache_ok; [done| |by rewrite <- with_cache_free, Hfree].
  intros p. rewrite Hnew. intros [Hin|Hin]%elem_of_app; [eexists; by apply (cache_free_ptr cpu f)|].
  apply list_elem_of_lookup in Hin as [i Hi]. destruct (Forall2_lookup_l _ _ _ _ _ Hp Hi) as (x & _ & Hx). by exists x.
Qed.

Lemma refill_ok cpu f f1 ptrs l :
  frames_ok f -> allocated f f1 l -> Forall2 (free_ptr f1) (slist_iter ptrs) l -> allocated f (with_cache cpu (slist_append (cache cpu f1) ptrs) f1) [].
Proof.
  intros Hf [Hok Hfree Hat Hu] Hp. pose proof (fo_nodup _ _ Hf) as Hnd. rewrite Hfree in Hnd.
  destruct (give_back cpu f1 _ l _ Hok Hp Hnd (slist_append_spec _ _)) as [Hok2 Hfree2]. constructor; [done|by rewrite Hfree2|done|done].
Qed.

(** ** Reading and counting *)

Lemma in_slots_read f p i : kf_slots f !! p = Some i -> in_slots (read_slot p) f = Done (i, f).
Proof. intros Hp. unfold in_slots. by rewrite (read_slot_Done _ _ _ Hp), frames_eta. Qed.

Lemma frame_addr_ok f p n x : kf_slots f !! p = Some (MkInfo n x) -> frame_addr p f = Done (x, f).
Proof. intros Hp. unfold frame_addr. by step_by (in_slots_read f p _ Hp). Qed.

Lemma frame_refcount_ok f p n x : kf_slots f !! p = Some (MkInfo n x) -> frame_refcount p f = Done (n, f).
Proof. intros Hp. unfold frame_refcount. by step_by (in_slots_read f p _ Hp). Qed.

Definition with_slot (p : Z) (i : FrameInfo) f : KFrames :=
  MkFrames (<[p := i]> (kf_slots f)) (kf_arenas f) (kf_caches f) (kf_max_alignment f).

Lemma with_slot_ok f p n x :
  frames_ok f -> frame_at (kf_arenas f) p x -> x ∉ all_free f ->
  frames_ok (with_slot p (MkInfo n x) f) /\ all_free (with_slot p (MkInfo n x) f) = all_free f.
Proof. exact (write_used SIZE HSIZE f p x n). Qed.

Lemma set_refcount_ok f p n m x : kf_slots f !! p = Some (MkInfo n x) -> set_refcount p m f = Done (tt, with_slot p (MkInfo m x) f).
Proof.
  intros Hp. unfold set_refcount. by step_by (in_slots_read f p _ Hp).
Qed.

Lemma addresses_of_ok f l :
  (forall p, p ∈ l -> exists x, free_ptr f p x) -> addresses_of l f = Done (addr_of (kf_slots f) <$> l, f).
Proof.
  induction l as [|p l IH]; intros Hl; [done|]. cbn [addresses_of]. destruct (Hl p ltac:(by left)) as (x & _ & Hs).
  step_by (frame_addr_ok f p 0 x Hs). step_by (IH ltac:(intros q Hq; apply Hl; by right)). cbn. unfold addr_of at 2. by rewrite Hs.
Qed.

Lemma frame_at_small f p x : frames_ok f -> frame_at (kf_arenas f) p x -> small x.
Proof.
  intros Hf (a & Ha & (_ & Hx & Hx') & _). pose proof (fo_geometry _ _ Hf) as Hg. rewrite Forall_forall in Hg.
  destruct (Hg a Ha) as [? ?]. unfold small. lia.
Qed.

(** ** One frame *)

(** The frame [x] at [p], which was free, is in use with one reference. *)
Definition handed_out f f' (p x : Z) : Prop :=
  frame_at (kf_arenas f) p x /\ allocated f f' [x] /\ kf_slots f' !! p = Some (MkInfo 1 x).

Lemma from_free_info_ok f f1 p x :
  frames_ok f -> frame_at (kf_arenas f) p x -> allocated f f1 [x] -> kf_slots f1 !! p = Some (MkInfo 0 x) ->
  from_free_info p f1 = Done (p, with_slot p (MkInfo 1 x) f1) /\ handed_out f (with_slot p (MkInfo 1 x) f1) p x.
Proof.
  intros Hf Hp Hal Hs. split.
  { unfold from_free_info. step_by (frame_refcount_ok f1 p 0 x Hs). by step_by (set_refcount_ok f1 p 0 1 x Hs). }
  pose proof Hal as [Hok Hfree Hat Hu]. pose proof (fo_nodup _ _ Hf) as Hnd. rewrite Hfree in Hnd.
  apply NoDup_cons in Hnd as [Hx _].
  destruct (with_slot_ok f1 p 1 x Hok (proj2 (Hat p x) Hp) Hx) as [Hok' Hfree'].
  split_and!; [done| |apply lookup_insert_eq]. constructor; [done|by rewrite Hfree'|done|].
  intros q y Hq Hy. rewrite <- (Hu q y Hq Hy). apply lookup_insert_ne. intros ->. apply Hy.
  rewrite <- (proj1 (frame_at_inj SIZE HSIZE _ _ _ x y (fo_apart _ _ Hf) (fo_geometry _ _ Hf) Hp Hq) eq_refl).
  rewrite Hfree. by left.
Qed.

(** [alloc_one] hands out a frame, or there is none left, neither in the
    arenas nor in the cache of this CPU. *)
Definition alloc_one_spec (cpu : Z) f (r : result unit Z) f' : Prop :=
  match r with
  | Ok p => exists x, handed_out f f' p x
  | Err _ => f' = f /\ cached cpu f = [] /\ arenas_free (kf_slots f) (kf_arenas f) = []
  end.

Lemma finish_one f f1 p x :
  frames_ok f -> frame_at (kf_arenas f) p x -> allocated f f1 [x] -> kf_slots f1 !! p = Some (MkInfo 0 x) ->
  exists f', (frame ← from_free_info p; n ← frame_refcount frame; _ ← lift (assert_ (n <? MAX_REFCOUNT)); mret (@Ok unit Z frame)) f1 = Done (Ok p, f')
  /\ handed_out f f' p x.
Proof.
  intros Hf Hp Hal Hs. destruct (from_free_info_ok f f1 p x Hf Hp Hal Hs) as [Hrun Hout]. exists (with_slot p (MkInfo 1 x) f1).
  split; [|done]. step_by Hrun. by step_by (frame_refcount_ok _ p 1 x (proj2 (proj2 Hout))).
Qed.

Lemma alloc_one_ok cpu f : frames_ok f -> exists r f', alloc_one SIZE cpu f = Done (r, f') /\ alloc_one_spec cpu f r f'.
Proof.
  intros Hf. unfold alloc_one, cache_allocate_one, mbind at 1, M_bind at 1.
  pose proof (pop_front_spec (cache cpu f)) as Hc. fold (cached cpu f) in Hc. destruct (pop_front (cache cpu f)) as [[p l]|]; swap 1 2.
  - destruct (global_ok (arena_allocate_one SIZE) (fun s a => arena_free s a = []) (fun a p l => exists x, p = slot_of SIZE a x /\ l = [x]) f Hf)
      as (r & f1 & Hrun & Hres).
    { intros s a Ha. destruct (arena_allocate_one_ok SIZE HSIZE s a Ha) as (r & a' & s' & Hrun & Hres). exists r, a', s'. split; [done|].
      destruct r as [p|]; [|done]. destruct Hres as (x & -> & Ht). by exists [x]; split; [exists x|]. }
    step_by Hrun. destruct r as [p|].
    + destruct Hres as (a & l & Ha & (x & -> & ->) & Hal & _ & Hl). destruct (Hl x ltac:(by left)) as [Hat Hs].
      destruct (finish_one f f1 (slot_of SIZE a x) x Hf Hat Hal Hs) as (f' & Hfin & Hout). exists (Ok (slot_of SIZE a x)), f'. split; [done|by exists x].
    + destruct Hres as [-> Hall]. exists (Err tt), f. split; [done|]. split_and!; [done|done|].
      unfold arenas_free. induction Hall as [|a arenas Ha _ IH]; [done|]. cbn. by rewrite Ha, IH.
  - destruct (cache_free_ptr cpu f p Hf) as [Hat Hs]; [rewrite Hc; by left|].
    pose proof (cache_take cpu f [p] l Hf ltac:(by rewrite Hc)) as Hal.
    destruct (finish_one f (with_cache cpu l f) p _ Hf Hat Hal Hs) as (f' & Hfin & Hout). exists (Ok p), f'. split; [done|by eexists].
Qed.

(** ** References *)

(** A frame in use with [n] references. *)
Record in_use f (p x n : Z) : Prop := {
  iu_at : frame_at (kf_arenas f) p x;
  iu_slot : kf_slots f !! p = Some (MkInfo n x);
  iu_used : x ∉ all_free f;
}.

(** Nothing but the count of [p] changes. *)
Definition counted f f' (p x n : Z) : Prop :=
  kf_slots f' !! p = Some (MkInfo n x) /\ kf_arenas f' = kf_arenas f /\ forall q, q <> p -> kf_slots f' !! q = kf_slots f !! q.

Lemma handed_out_in_use f f' p x : frames_ok f -> handed_out f f' p x -> in_use f' p x 1.
Proof.
  intros Hf (Hp & Hal & Hs). constructor; [by apply Hal|done|]. pose proof (fo_nodup _ _ Hf) as Hnd.
  rewrite (al_free _ _ _ _ Hal) in Hnd. by apply NoDup_cons in Hnd as [? _].
Qed.

Lemma with_slot_counted f p x n : counted f (with_slot p (MkInfo n x) f) p x n.
Proof. split_and!; [apply lookup_insert_eq|done|]. intros q Hq. by apply lookup_insert_ne. Qed.

Lemma frame_clone_ok f p x n :
  frames_ok f -> in_use f p x n -> 1 <= n <= MAX_REFCOUNT ->
  exists f', frame_clone p f = Done (p, f') /\ frames_ok f' /\ in_use f' p x (n + 1) /\ all_free f' = all_free f /\ counted f f' p x (n + 1).
Proof.
  intros Hf [Hp Hs Hx] Hn. assert (wrapping_add n 1 = n + 1) as Hw by (apply Z.mod_small; unfold MAX_REFCOUNT in *; lia).
  destruct (with_slot_ok f p (n + 1) x Hf Hp Hx) as [Hok Hfree]. exists (with_slot p (MkInfo (n + 1) x) f). split.
  - unfold frame_clone. step_by (frame_refcount_ok f p n x Hs). rewrite Hw. step_by (set_refcount_ok f p n (n + 1) x Hs).
    replace (n =? 0) with false by lia. step. by step_by (assert_leb n MAX_REFCOUNT (proj2 Hn)).
  - split_and!; [done| |done|apply with_slot_counted]. constructor; [done|apply lookup_insert_eq|by rewrite Hfree].
Qed.

(** The last drop returns the frame to the cache of the CPU; any other only
    counts down. *)
Definition drop_spec f f' (p x n : Z) : Prop :=
  frames_ok f' /\ counted f f' p x (n - 1)
  /\ if n =? 1 then all_free f' ≡ₚ x :: all_free f else all_free f' = all_free f.

Lemma frame_drop_ok cpu f p x n :
  frames_ok f -> in_use f p x n -> 1 <= n < USIZE_MOD -> exists f', frame_drop cpu p f = Done (tt, f') /\ drop_spec f f' p x n.
Proof.
  intros Hf [Hp Hs Hx] Hn. assert (wrapping_sub n 1 = n - 1) as Hw by (apply Z.mod_small; lia).
  destruct (with_slot_ok f p (n - 1) x Hf Hp Hx) as [Hok Hfree]. pose proof (with_slot_counted f p x (n - 1)) as Hcnt.
  set (f1 := with_slot p (MkInfo (n - 1) x) f) in *.
  assert (frame_drop cpu p f = (if n =? 1 then drop_slow cpu p else mret tt) f1) as ->.
  { unfold frame_drop. step_by (frame_refcount_ok f p n x Hs). rewrite Hw. by step_by (set_refcount_ok f p n (n - 1) x Hs). }
  unfold drop_spec. destruct (Z.eqb_spec n 1) as [->|Hne].
  - destruct (give_back cpu f1 [p] [x] (push_back p (cache cpu f1))) as [Hok' Hfree'].
    + done.
    + constructor; [|constructor]. split; [done|apply Hcnt].
    + rewrite Hfree. apply NoDup_cons. split; [done|apply Hf].
    + apply push_back_spec.
    + exists (with_cache cpu (push_back p (cache cpu f1)) f1). split; [done|]. split_and!; [done|apply Hcnt..|]. by rewrite Hfree', Hfree.
  - exists f1. split; [done|]. by split_and!; [|apply Hcnt..|].
Qed.

(** ** Contiguous frames *)

(** [ptrs] are the frames of a run of [l_size / PAGE_SIZE] frames that starts
    at a multiple of the alignment; the frames were free. *)
Definition handed_out_run (layout : Layout) f f' (ptrs : list Z) : Prop :=
  exists x, x mod l_align layout = 0
  /\ allocated f f' (run x (l_size layout / 4096)) /\ Forall2 (free_ptr f') ptrs (run x (l_size layout / 4096)).

(** No aligned window of the cache is contiguous. *)
Definition no_window (cpu : Z) (layout : Layout) f : Prop :=
  window_spec (l_align layout) (l_size layout / 4096) (addr_of (kf_slots f) <$> cached cpu f) None.

Lemma contiguous_is_run align (n : Z) l : 0 < n -> contiguous align l -> length l = Z.to_nat n -> exists x, x mod align = 0 /\ l = run x n.
Proof.
  intros Hn Hc Hl. destruct l as [|x l]; [done|]. destruct Hc as [Hx Heq]. exists x. split; [done|].
  rewrite Heq. f_equal. rewrite Hl. lia.
Qed.

Lemma free_ptrs_fmap f ptrs : (forall p, p ∈ ptrs -> exists x, free_ptr f p x) -> Forall2 (free_ptr f) ptrs (addr_of (kf_slots f) <$> ptrs).
Proof.
  induction ptrs as [|p ptrs IH]; intros Hp; constructor; [|apply IH; intros q Hq; apply Hp; by right].
  destruct (Hp p ltac:(by left)) as (x & Hat & Hs). unfold addr_of. rewrite Hs. by split.
Qed.

Lemma cache_ptrs_free cpu f p : frames_ok f -> p ∈ cached cpu f -> exists x, free_ptr f p x.
Proof. intros Hf Hp. eexists. by apply (cache_free_ptr cpu). Qed.

Lemma cache_small cpu f : frames_ok f -> Forall small (addr_of (kf_slots f) <$> cached cpu f).
Proof.
  intros Hf. apply Forall_fmap, Forall_forall. intros p Hp. destruct (cache_free_ptr cpu f p Hf Hp) as [Hat _].
  by apply (frame_at_small f p).
Qed.

Lemma cache_allocate_contiguous_ok cpu layout f :
  frames_ok f -> layout_ok layout ->
  exists r f', cache_allocate_contiguous cpu layout f = Done (r, f')
  /\ match r with
     | None => f' = f /\ no_window cpu layout f
     | Some ptrs => handed_out_run layout f f' (slist_iter ptrs)
     end.
Proof.
  intros Hf (Hsz & j & Hj & Hal). set (n := l_size layout / 4096). unfold cache_allocate_contiguous.
  assert (1 <= n) as Hn by (apply Z.div_le_lower_bound; lia). change (l_size layout / PAGE_SIZE) with n.
  replace (n =? 0) with false by lia. cbn [orb]. rewrite slist_len_spec. fold (cached cpu f). destruct (Z.ltb_spec (Z.of_nat (length (cached cpu f))) n) as [Hlt|Hge].
  { exists None, f. split; [done|]. split; [done|]. intros k Hk. rewrite length_fmap in Hk. fold n in Hk. lia. }
  destruct (find_contiguous_run_ok (l_align layout) ltac:(exists j; split; [lia|done]) n _ Hn (cache_small cpu f Hf)) as (r & Hr & Hw).
  step_by (addresses_of_ok f (cached cpu f) (fun p => cache_ptrs_free cpu f p Hf)). step_by Hr. destruct r as [k|].
  - eexists _, _. split; [done|]. destruct Hw as [Hk Hc]. rewrite length_fmap in Hk. rewrite <- fmap_drop, <- fmap_take in Hc.
    destruct (slist_split_off_spec k (cache cpu f)) as [Hs1 Hs2]; [unfold cached in Hk; lia|]. fold (cached cpu f) in Hs1, Hs2.
    destruct (slist_split_off_spec (Z.to_nat n) (slist_split_off k (cache cpu f)).2) as [Hs3 Hs4]; [rewrite Hs2, length_drop; lia|].
    rewrite Hs2 in Hs3, Hs4. rewrite <- Hs3 in Hc. set (ptrs := slist_split_off (Z.to_nat n) _) in *. set (rest := slist_append _ _).
    assert (cached cpu f ≡ₚ slist_iter ptrs.1 ++ slist_iter rest) as Hperm.
    { unfold rest. rewrite slist_append_spec, Hs1, Hs3, Hs4.
      rewrite <- (take_drop k (cached cpu f)) at 1. rewrite <- (take_drop (Z.to_nat n) (drop k (cached cpu f))) at 1. solve_Permutation. }
    pose proof (cache_take cpu f _ rest Hf Hperm) as Htake.
    destruct (contiguous_is_run (l_align layout) n _ ltac:(lia) Hc) as (x & Hx & Heq).
    { rewrite Hs3, length_fmap, length_take, length_drop. lia. }
    exists x. fold n. rewrite <- Heq. split_and!; [done|done|]. apply (free_ptrs_fmap f). intros p Hp. apply (cache_ptrs_free cpu f p Hf). rewrite Hperm. apply elem_of_app. by left.
  - exists None, f. done.
Qed.

(** The frames that refill the cache are found in it. *)
Lemma refilled_window cpu layout f f1 ptrs x n :
  layout_ok layout -> frames_ok f1 -> kf_slots f = kf_slots f1 -> cached cpu f = cached cpu f1 ++ ptrs ->
  Forall2 (free_ptr f1) ptrs (run x n) -> l_size layout <= n * 4096 -> x mod l_align layout = 0 -> ~ no_window cpu layout f.
Proof.
  intros (Hsz & _) Hf Hs Hc Hp Hn Hx Hw. set (m := l_size layout / 4096) in *.
  assert (1 <= m) as Hm by (apply Z.div_le_lower_bound; lia). assert (m <= n) as Hmn by (apply Z.div_le_upper_bound; lia).
  unfold no_window in Hw. rewrite Hs, Hc, fmap_app, (free_ptrs_addrs f1 ptrs _ Hp) in Hw.
  apply (Hw (length (cached cpu f1))).
  - rewrite length_app, length_fmap. fold m. pose proof (length_run x n ltac:(lia)). lia.
  - rewrite drop_app_length' by (by rewrite length_fmap). fold m. replace n with (m + (n - m)) by lia.
    rewrite run_app by lia. rewrite take_app_length' by (pose proof (length_run x m ltac:(lia)); lia).
    pose proof (length_run x m ltac:(lia)) as Hlen. destruct (run x m) as [|y l] eqn:Hr; [cbn in Hlen; lia|].
    assert (y = x) as ->.
    { unfold run in Hr. replace m with (Z.succ (Z.pred m)) in Hr by lia. rewrite seqZ_cons in Hr by lia. cbn in Hr.
      injection Hr as <- _. lia. }
    split; [done|]. by rewrite Hlen.
Qed.

(** Why an allocation fails: no window of the cache fits, and no arena has a
    free block that is large enough. *)
Definition alloc_contiguous_spec (cpu : Z) (layout : Layout) f (r : result unit slist) f' : Prop :=
  match r with
  | Ok ptrs => handed_out_run layout f f' (slist_iter ptrs)
  | Err _ => f' = f /\ no_window cpu layout f
      /\ Forall (fun a => forall o l, l_size layout <= block_size o -> l_align layout <= block_size o ->
                   blocks a !! o = Some l -> l = []) (kf_arenas f)
  end.

Lemma alloc_contiguous_ok cpu layout f :
  frames_ok f -> layout_ok layout ->
  exists r f', alloc_contiguous SIZE cpu layout f = Done (r, f') /\ alloc_contiguous_spec cpu layout f r f'.
Proof.
  intros Hf Hlay. unfold alloc_contiguous.
  destruct (cache_allocate_contiguous_ok cpu layout f Hf Hlay) as (r & f0 & Hrun & Hres). step_by Hrun. destruct r as [ptrs|].
  { exists (Ok ptrs), f0. done. }
  destruct Hres as [-> Hno].
  destruct (global_ok (arena_allocate_contiguous SIZE layout)
    (fun _ a => forall o l, l_size layout <= block_size o -> l_align layout <= block_size o -> blocks a !! o = Some l -> l = [])
    (fun a ptrs l => exists x n, l = run x n /\ slist_iter ptrs = slot_of SIZE a <$> run x n /\ l_size layout <= n * 4096 /\ x mod l_align layout = 0) f Hf)
    as (r & f1 & Hg & Hres).
  { intros s a Ha. destruct (arena_allocate_contiguous_ok SIZE HSIZE s a layout Ha Hlay) as (r & a' & s' & Hr & Hres). exists r, a', s'.
    split; [done|]. destruct r as [ptrs|]; [|done]. destruct Hres as (x & n & Hptrs & Ht & ? & ?). exists (run x n). split; [by exists x, n|done]. }
  step_by Hg. destruct r as [refill|]; [|by destruct Hres as [-> Hnone]; exists (Err tt), f].
  destruct Hres as (a & l & Ha & (x & n & -> & Hrefill & Hn & Hx) & Hal & Hcaches & Hslots).
  assert (Forall2 (free_ptr f1) (slist_iter refill) (run x n)) as Hptrs.
  { rewrite Hrefill. apply Forall2_fmap_l, Forall_Forall2_diag, Forall_forall. intros y Hy. destruct (Hslots y Hy) as [Hat Hs]. split; [by apply Hal|done]. }
  pose proof (refill_ok cpu f f1 _ _ Hf Hal Hptrs) as Hrefilled. set (f2 := with_cache cpu _ f1) in Hrefilled.
  unfold mbind at 1, M_bind at 1, set_cache at 1.
  destruct (cache_allocate_contiguous_ok cpu layout f2 (al_ok _ _ _ _ Hrefilled) Hlay) as (r & f3 & Hagain & Hres).
  change (MkFrames _ _ _ _) with f2. step_by Hagain. destruct r as [ptrs|].
  - exists (Ok ptrs), f3. split; [done|]. destruct Hres as (y & Hy & Hal3 & Hp3). exists y.
    split_and!; [done|by apply (allocated_trans f f2 f3 [])|done].
  - destruct Hres as [_ Hno2]. exfalso.
    refine (refilled_window cpu layout f2 f1 _ x n Hlay (al_ok _ _ _ _ Hal) eq_refl _ Hptrs Hn Hx Hno2).
    unfold cached at 1, cache at 1. cbn [kf_caches f2 with_cache]. rewrite lookup_insert_eq. apply slist_append_spec.
Qed.

(** C12: allocating contiguous frames, from the cache of the CPU or by refilling
    it from the arenas, returns. If it succeeds, the result is a run of
    [size / PAGE_SIZE] consecutive frames that starts at a multiple of the
    alignment; its frames were free and no longer are, and no frame in use
    changes. It fails only if neither the cache has an aligned contiguous window
    nor an arena a free block of the size, and then nothing has changed. *)
Theorem alloc_contiguous_correct cpu layout f :
  frames_ok f -> layout_ok layout ->
  exists r f', alloc_contiguous SIZE cpu layout f = Done (r, f') /\ alloc_contiguous_spec cpu layout f r f'.
Proof. apply alloc_contiguous_ok. Qed.
End ops.
