(* ===== verification/KernelFramesInit.v ===== *)
(** * Setting up the frame allocator

    [frames_new] makes a well-formed allocator whose free frames are parts of
    the memory regions, and never those that hold the slots. *)

From stdpp Require Import base numbers list gmap sorting.
From Stdlib Require Import ZArith Lia.
From S2P Require Import Prelude Address Riscv Arch PhysMap Machine LoaderRegions KernelSpace KernelFrames.
From S2P Require Import KernelFramesCorrect KernelFramesNew KernelFramesSelect KernelFramesAlloc.

Section init.
Context {SL : SlotList} (SIZE : Z) (HSIZE : 0 < SIZE <= 4096) (up : bool) (physmap : PhysMap) (Hpm : physmap_ok physmap).
Implicit Types (s : gmap Z FrameInfo) (a : Arena).

Local Definition Hpos : 0 < SIZE := proj1 HSIZE.

(** The virtual address of a physical one. *)
Definition virt (b : Z) : Z := pm_base physmap + (b - r_start (range_phys physmap)).

Definition within (r : range) (x n : Z) : Prop := r_start r <= x /\ x + n <= r_end r.

(** The arenas made of the regions of [used]. *)
Record arenas_ok (used : list range) (arenas : list Arena) s : Prop := {
  as_arenas : Forall (arena_ok SIZE s) arenas;
  as_ready : Forall (slots_ready SIZE s) arenas;
  as_apart : arenas_apart SIZE arenas;
  as_below : forall a q, a ∈ arenas -> Forall (fun r => before up r q) used -> before up (ar_range a) q;
  as_slots : forall p y, frame_at SIZE arenas p y -> exists b r, p = virt b /\ r ∈ used /\ within r b SIZE;
  as_free : forall x, x ∈ arenas_free s arenas -> exists r, r ∈ used /\ within r x 4096;
  as_nodup : NoDup (arenas_free s arenas);
  as_disjoint : forall x p y, x ∈ arenas_free s arenas -> frame_at SIZE arenas p y ->
    exists b, p = virt b /\ (x + 4096 <= b \/ b + SIZE <= x);
}.

Lemma frame_at_snoc arenas a p y :
  frame_at SIZE (arenas ++ [a]) p y <-> frame_at SIZE arenas p y \/ (in_arena a y /\ p = slot_of SIZE a y).
Proof.
  unfold frame_at. split.
  - intros (b & [Hb|Hb]%elem_of_app & Hy & ->); [left; by exists b|]. apply list_elem_of_singleton in Hb as ->. by right.
  - intros [(b & Hb & Hy & ->)|[Hy ->]]; [exists b; split_and!; [apply elem_of_app; by left|done|done]|].
    exists a. split_and!; [apply elem_of_app; right; by left|done|done].
Qed.

Lemma arenas_free_snoc s arenas a : arenas_free s (arenas ++ [a]) = arenas_free s arenas ++ arena_free s a.
Proof. unfold arenas_free. rewrite bind_app. cbn. by rewrite app_nil_r. Qed.

(** The slots of a new arena lie in its bookkeeping. *)
Lemma new_slots a B y :
  geometry a -> ar_slots a = virt (r_start B) -> (r_end (ar_range a) - r_start (ar_range a)) / 4096 * SIZE <= r_end B - r_start B ->
  in_arena a y -> exists b, slot_of SIZE a y = virt b /\ within B b SIZE.
Proof.
  intros Hg Hs Hlen (Hy & Hy1 & Hy2). exists (r_start B + (y - r_start (ar_range a)) / 4096 * SIZE).
  unfold slot_of. rewrite Hs. unfold virt, within. destruct (geo_start a Hg) as [? Hm].
  pose proof (Z.div_pos (y - r_start (ar_range a)) 4096 ltac:(lia) ltac:(lia)).
  assert ((y - r_start (ar_range a)) / 4096 + 1 <= (r_end (ar_range a) - r_start (ar_range a)) / 4096).
  { rewrite <- Z.div_add by lia. apply Z.div_le_mono; lia. }
  split; [lia|]. split; nia.
Qed.

Lemma ordered_before l1 l2 r1 r2 : ordered up (l1 ++ l2) -> r1 ∈ l1 -> r2 ∈ l2 -> before up r1 r2.
Proof. intros [_ Hs] H1 H2. exact (StronglySorted_app_1_elem_of (before up) l1 l2 r1 r2 Hs H1 H2). Qed.

(** A new arena made of the regions of [used'] below the others. *)
Record fresh_arena (used' : list range) s (a : Arena) : Prop := {
  fa_ok : arena_ok SIZE s a;
  fa_ready : slots_ready SIZE s a;
  fa_above : forall q, Forall (before up q) used' -> before up q (ar_range a);
  fa_below : forall q, Forall (fun r => before up r q) used' -> before up (ar_range a) q;
  fa_slots : forall y, in_arena a y -> exists b r, slot_of SIZE a y = virt b /\ r ∈ used' /\ within r b SIZE;
  fa_free : forall x, x ∈ arena_free s a -> exists r, r ∈ used' /\ within r x 4096;
  fa_disjoint : forall x y, x ∈ arena_free s a -> in_arena a y -> exists b, slot_of SIZE a y = virt b /\ (x + 4096 <= b \/ b + SIZE <= x);
}.

Lemma from_selection_fresh used sel s :
  selected SIZE up used sel -> Forall (fun r => r_start (range_phys physmap) <= r_start r /\ r_end r <= r_end (range_phys physmap)) used ->
  exists a s', from_selection SIZE sel physmap s = Done (a, s') /\ fresh_arena used s' a
  /\ (forall p, (forall x, in_arena a x -> p <> slot_of SIZE a x) -> s' !! p = s !! p).
Proof.
  intros Hsel Hin. set (B := sel_bookkeeping sel). destruct (sd_bookkeeping _ _ _ _ Hsel) as (u & Hu & Hu1 & Hu2). fold B in Hu1, Hu2.
  pose proof (sd_some _ _ _ _ Hsel) as Hsome. fold B in Hsome. rewrite Forall_forall in Hin. destruct (Hin u Hu) as [Hp1 Hp2].
  assert (phys_to_virt physmap (r_start B) = Done (virt (r_start B))) as Hv.
  { apply phys_to_virt_Done; [done|]. unfold range_contains. apply andb_true_iff. lia. }
  pose proof (sd_ok _ _ _ _ Hsel physmap _ Hv) as Hso.
  destruct (from_selection_ok SIZE Hpos s physmap sel _ Hso) as (a & s' & Hrun & Ha & Hr & Hrange & Hslots & Hfree & Hother).
  exists a, s'. split; [done|]. split; [|done].
  assert (forall y, in_arena a y -> exists b, slot_of SIZE a y = virt b /\ within B b SIZE) as Hb.
  { intros y Hy. apply (new_slots a B y); [apply Ha|done| |done]. rewrite Hrange. apply Hso. }
  constructor; [done|done|..].
  - rewrite Hrange. apply Hsel.
  - rewrite Hrange. apply Hsel.
  - intros y Hy. destruct (Hb y Hy) as (b & Hbs & Hb1 & Hb2). exists b, u. unfold within. split_and!; (done || lia).
  - intros x Hx. rewrite Hfree in Hx. destruct (sd_frames _ _ _ _ Hsel x Hx) as (r & Hrr & ? & ?). by exists r.
  - intros x y Hx Hy. rewrite Hfree in Hx. destruct (Hb y Hy) as (b & Hbs & Hb1 & Hb2). exists b. split; [done|].
    destruct (sd_apart _ _ _ _ Hsel x Hx) as [Hlt|Hlt]; fold B in Hlt; lia.
Qed.

Lemma within_before r1 r2 x1 n1 x2 n2 :
  before up r1 r2 -> within r1 x1 n1 -> within r2 x2 n2 -> x2 + n2 <= x1 \/ x1 + n1 <= x2.
Proof. unfold before, within. destruct up; lia. Qed.

Section step.
Context (done_ used : list range) (arenas : list Arena) (s s' : gmap Z FrameInfo) (a : Arena).
Context (Hd : ordered up (done_ ++ used)) (Ho : arenas_ok done_ arenas s) (Hn : fresh_arena used s' a)
  (Hs : forall p, (forall x, in_arena a x -> p <> slot_of SIZE a x) -> s' !! p = s !! p).

Lemma new_apart b : b ∈ arenas -> apart SIZE b a.
Proof.
  intros Hb x y Hx Hy. split.
  - assert (before up (ar_range b) (ar_range a)) as Hbr.
    { apply (fa_above _ _ _ Hn), Forall_forall. intros r Hr.
      apply (as_below _ _ _ Ho b r Hb), Forall_forall. intros q Hq. by eapply ordered_before. }
    unfold before in Hbr. destruct Hx as (_ & ? & ?), Hy as (_ & ? & ?). destruct up; lia.
  - destruct (as_slots _ _ _ Ho (slot_of SIZE b x) x) as (b1 & r1 & -> & Hr1 & Hw1); [by exists b|].
    destruct (fa_slots _ _ _ Hn y Hy) as (b2 & r2 & -> & Hr2 & Hw2).
    pose proof (within_before _ _ _ _ _ _ (ordered_before _ _ _ _ Hd Hr1 Hr2) Hw1 Hw2). unfold virt. lia.
Qed.

Lemma old_slots b y : b ∈ arenas -> in_arena b y -> s' !! slot_of SIZE b y = s !! slot_of SIZE b y.
Proof. intros Hb Hy. apply Hs. intros x Hx. pose proof (new_apart b Hb y x Hy Hx). lia. Qed.

Lemma old_arenas : arenas_free s' arenas = arenas_free s arenas /\ Forall (arena_ok SIZE s') arenas.
Proof.
  apply (arenas_agree SIZE s s' arenas (as_arenas _ _ _ Ho)). intros b x Hb Hx. apply (old_slots b x Hb).
  pose proof (as_arenas _ _ _ Ho) as Hok. rewrite Forall_forall in Hok. by apply (arena_free_in SIZE s b x (Hok b Hb)).
Qed.

Lemma step_apart : arenas_apart SIZE (arenas ++ [a]).
Proof.
  assert (forall b x y, b ∈ arenas -> in_arena a x -> in_arena b y ->
    x <> y /\ (slot_of SIZE a x + SIZE <= slot_of SIZE b y \/ slot_of SIZE b y + SIZE <= slot_of SIZE a x)) as Hsym.
  { intros b x y Hb Hx Hy. destruct (new_apart b Hb y x Hy Hx). split; [congruence|lia]. }
  intros i j b c [Hi|[Hi Hb]]%lookup_app_Some [Hj|[Hj Hc]]%lookup_app_Some Hne.
  - by apply (as_apart _ _ _ Ho i j).
  - apply list_lookup_singleton_Some in Hc as [_ <-]. apply new_apart. by eapply list_elem_of_lookup_2.
  - apply list_lookup_singleton_Some in Hb as [_ <-]. intros x y. apply Hsym. by eapply list_elem_of_lookup_2.
  - apply list_lookup_singleton_Some in Hb as [? <-], Hc as [? <-]. lia.
Qed.

Lemma step_disjoint x p y :
  x ∈ arenas_free s' (arenas ++ [a]) -> frame_at SIZE (arenas ++ [a]) p y -> exists b, p = virt b /\ (x + 4096 <= b \/ b + SIZE <= x).
Proof.
  rewrite arenas_free_snoc, (proj1 old_arenas). intros [Hx|Hx]%elem_of_app [Hp|[Hy ->]]%frame_at_snoc.
  - by apply (as_disjoint _ _ _ Ho x p y).
  - destruct (fa_slots _ _ _ Hn y Hy) as (b & r & Hb & Hr & Hw). destruct (as_free _ _ _ Ho x Hx) as (r' & Hr' & Hw').
    exists b. split; [done|]. pose proof (within_before _ _ _ _ _ _ (ordered_before _ _ _ _ Hd Hr' Hr) Hw' Hw). lia.
  - destruct (as_slots _ _ _ Ho p y Hp) as (b & r & Hb & Hr & Hw). destruct (fa_free _ _ _ Hn x Hx) as (r' & Hr' & Hw').
    exists b. split; [done|]. pose proof (within_before _ _ _ _ _ _ (ordered_before _ _ _ _ Hd Hr Hr') Hw Hw'). lia.
  - by apply (fa_disjoint _ _ _ Hn x y).
Qed.

Lemma arenas_ok_step : arenas_ok (done_ ++ used) (arenas ++ [a]) s'.
Proof.
  destruct old_arenas as [Hfree Hok]. constructor.
  - apply Forall_app. split; [done|]. by apply Forall_singleton, Hn.
  - apply Forall_app. split; [|by apply Forall_singleton, Hn]. apply Forall_forall. intros b Hb y Hy. rewrite (old_slots b y Hb Hy).
    pose proof (as_ready _ _ _ Ho) as Hr. rewrite Forall_forall in Hr. by apply Hr.
  - apply step_apart.
  - intros b q [Hb|Hb]%elem_of_app [H1 H2]%Forall_app; [by apply (as_below _ _ _ Ho)|].
    apply list_elem_of_singleton in Hb as ->. by apply (fa_below _ _ _ Hn).
  - intros p y [Hp|[Hy ->]]%frame_at_snoc.
    + destruct (as_slots _ _ _ Ho p y Hp) as (b & r & ? & ? & ?). exists b, r. split_and!; [done|apply elem_of_app; by left|done].
    + destruct (fa_slots _ _ _ Hn y Hy) as (b & r & ? & ? & ?). exists b, r. split_and!; [done|apply elem_of_app; by right|done].
  - rewrite arenas_free_snoc, Hfree. intros x [Hx|Hx]%elem_of_app.
    + destruct (as_free _ _ _ Ho x Hx) as (r & ? & ?). exists r. split; [apply elem_of_app; by left|done].
    + destruct (fa_free _ _ _ Hn x Hx) as (r & ? & ?). exists r. split; [apply elem_of_app; by right|done].
  - rewrite arenas_free_snoc, Hfree. apply NoDup_app. split_and!; [apply Ho| |apply (fa_ok _ _ _ Hn)].
    intros x Hx Hx'. destruct (as_free _ _ _ Ho x Hx) as (r & Hr & Hw). destruct (fa_free _ _ _ Hn x Hx') as (r' & Hr' & Hw').
    pose proof (within_before _ _ _ _ _ _ (ordered_before _ _ _ _ Hd Hr Hr') Hw Hw'). lia.
  - exact step_disjoint.
Qed.
End step.

Lemma arenas_ok_more used more arenas s : arenas_ok used arenas s -> arenas_ok (used ++ more) arenas s.
Proof.
  intros Ho. constructor; [apply Ho..| | | |apply Ho|apply Ho].
  - intros a q Ha [Hq _]%Forall_app. by apply (as_below _ _ _ Ho).
  - intros p y Hp. destruct (as_slots _ _ _ Ho p y Hp) as (b & r & ? & ? & ?). exists b, r. split_and!; [done|apply elem_of_app; by left|done].
  - intros x Hx. destruct (as_free _ _ _ Ho x Hx) as (r & ? & ?). exists r. split; [apply elem_of_app; by left|done].
Qed.

Lemma arenas_ok_nil s : arenas_ok [] [] s.
Proof.
  constructor; [constructor|constructor|easy| | | |constructor|].
  - intros a q Ha. by apply elem_of_nil in Ha.
  - intros p y (a & Ha & _). by apply elem_of_nil in Ha.
  - intros x Hx. by apply elem_of_nil in Hx.
  - intros x p y Hx. by apply elem_of_nil in Hx.
Qed.

(** The regions lie in the physical memory that is mapped. *)
Definition mapped_regions (l : list range) : Prop :=
  Forall (fun r => r_start (range_phys physmap) <= r_start r /\ r_end r <= r_end (range_phys physmap)) l.

Lemma new_arenas_ok fuel : forall done_ sel arenas align s,
  (length (as_free_regions sel) < fuel)%nat -> ordered up (done_ ++ (mr_range <$> as_free_regions sel)) ->
  mapped_regions (mr_range <$> as_free_regions sel) -> 0 <= as_wasted_bytes sel <= MAX_WASTED_ARENA_BYTES -> arenas_ok done_ arenas s ->
  exists arenas' align' s', new_arenas SIZE fuel physmap sel arenas align s = Done ((arenas', align'), s')
  /\ arenas_ok (done_ ++ (mr_range <$> as_free_regions sel)) arenas' s'.
Proof.
  induction fuel as [|fuel IH]; intros done_ sel arenas align s Hf Hd Hm Hw Ho; [lia|]. cbn [new_arenas].
  assert (ordered up (mr_range <$> as_free_regions sel)) as Hd'.
  { destruct Hd as [H1 H2]. split; [by apply Forall_app in H1 as [_ ?]|by eapply StronglySorted_app_1_r]. }
  destruct (selections_next_ok SIZE HSIZE up sel Hd' Hw) as (used & rest & wasted & r & Heq & Hrun & Hw' & Hres).
  step_by Hrun. cbn [fst snd]. rewrite Heq, fmap_app in Hd, Hm |- *. rewrite Heq, length_app in Hf. rewrite app_assoc in Hd |- *.
  apply Forall_app in Hm as [Hmu Hmr].
  assert (ordered up (done_ ++ (mr_range <$> used))) as Hdu.
  { destruct Hd as [H1 H2]. split; [by apply Forall_app in H1 as [? _]|by eapply StronglySorted_app_1_l]. }
  destruct r as [[selection|]|e].
  - destruct Hres as [Hne Hsel]. destruct (from_selection_fresh _ selection s Hsel Hmu) as (a & s1 & Hfrom & Hfresh & Hother).
    step_by Hfrom. apply (IH (done_ ++ (mr_range <$> used)) (MkSelections rest wasted)); [|done..|].
    + destruct used; [done|]. cbn in *. lia.
    + by apply (arenas_ok_step done_ _ arenas s).
  - destruct Hres as [-> ->]. exists arenas, align, s. cbn. by rewrite !app_nil_r.
  - apply (IH (done_ ++ (mr_range <$> used)) (MkSelections rest wasted)); [|done..|by apply arenas_ok_more].
    destruct used; [done|]. cbn in *. lia.
Qed.

(** What the frame allocator starts with. *)
Record fresh_frames (regions : list range) (f : KFrames) : Prop := {
  ff_ok : frames_ok SIZE f;
  ff_free : forall x, x ∈ all_free f -> exists r, r ∈ regions /\ within r x 4096;
  ff_slots : forall p y, frame_at SIZE (kf_arenas f) p y -> exists b r, p = virt b /\ r ∈ regions /\ within r b SIZE;
  ff_disjoint : forall x p y, x ∈ all_free f -> frame_at SIZE (kf_arenas f) p y -> virt x + 4096 <= p \/ p + SIZE <= virt x;
}.

Lemma frames_new_ok regions :
  ordered up (mr_range <$> rev regions) -> mapped_regions (mr_range <$> regions) ->
  exists f, frames_new SIZE regions physmap = Done f /\ fresh_frames (mr_range <$> regions) f.
Proof.
  intros Hd Hm. unfold frames_new.
  assert (forall r, r ∈ mr_range <$> rev regions <-> r ∈ mr_range <$> regions) as Hrev.
  { intros r. rewrite !list_elem_of_fmap. setoid_rewrite list_elem_of_In. setoid_rewrite <- in_rev. done. }
  destruct (new_arenas_ok (S (length regions)) [] (select_arenas regions) [] PAGE_SIZE ∅) as (arenas & align & s & Hrun & Ho).
  - cbn. rewrite length_rev. lia.
  - done.
  - apply Forall_forall. intros r Hr. unfold mapped_regions in Hm. rewrite Forall_forall in Hm. by apply Hm, Hrev.
  - cbn. unfold MAX_WASTED_ARENA_BYTES. lia.
  - apply arenas_ok_nil.
  - rewrite Hrun. eexists. split; [done|]. cbn [app select_arenas as_free_regions] in Ho.
    assert (all_free (MkFrames s arenas ∅ align) = arenas_free s arenas) as Hfree by apply app_nil_r.
    constructor; rewrite ?Hfree.
    + constructor; [apply Ho..| |by rewrite Hfree; apply Ho]. intros p Hp. by apply elem_of_nil in Hp.
    + intros x Hx. destruct (as_free _ _ _ Ho x Hx) as (r & Hr & Hw). exists r. split; [by apply Hrev|done].
    + intros p y Hp. destruct (as_slots _ _ _ Ho p y Hp) as (b & r & Hb & Hr & Hw). exists b, r. split_and!; [done|by apply Hrev|done].
    + intros x p y Hx Hp. destruct (as_disjoint _ _ _ Ho x p y Hx Hp) as (b & -> & Hb). unfold virt. lia.
Qed.
End init.
