(* ===== verification/KernelFramesTrace.v ===== *)
(** * Any use of single frames

    A client allocates frames and clones and drops its references in any order.
    Every frame is always either free or held by the client, and is counted as
    often as the client refers to it. *)

From stdpp Require Import base numbers list gmap sorting.
From Stdlib Require Import ZArith Lia.
From S2P Require Import Prelude Address Riscv Arch PhysMap Machine LoaderRegions KernelSpace KernelFrames.
From S2P Require Import KernelFramesCorrect KernelFramesNew KernelFramesSelect KernelFramesAlloc KernelFramesOps KernelFramesInit.

Section trace.
Context {SL : SlotList} (SIZE : Z) (HSIZE : 0 < SIZE).
Implicit Types (f : KFrames) (held : gmap Z Z).

(** What a client does, on which CPU. *)
Inductive frame_op := AllocOne (cpu : Z) | CloneFrame (p : Z) | DropFrame (cpu p : Z).

(** [held] maps the frames of the client to the number of its references; a
    client only clones and drops what it holds. *)
Definition run_op (op : frame_op) f held : outcome (KFrames * gmap Z Z) :=
  match op with
  | AllocOne cpu =>
      '(r, f) ← alloc_one SIZE cpu f;
      mret (f, match r with Ok p => <[p := 1]> held | Err _ => held end)
  | CloneFrame p =>
      match held !! p with
      | Some n => '(q, f) ← frame_clone p f; mret (f, <[q := n + 1]> held)
      | None => mret (f, held)
      end
  | DropFrame cpu p =>
      match held !! p with
      | Some n => '(_, f) ← frame_drop cpu p f; mret (f, if n =? 1 then delete p held else <[p := n - 1]> held)
      | None => mret (f, held)
      end
  end.

Fixpoint run_ops (ops : list frame_op) f held : outcome (KFrames * gmap Z Z) :=
  match ops with
  | [] => mret (f, held)
  | op :: ops => '(f, held) ← run_op op f held; run_ops ops f held
  end.

Definition held_frames f held : list Z := addr_of (kf_slots f) <$> (map_to_list held).*1.

(** The client holds frames in use, and all other frames of [all] are free. *)
Record accounted (all : list Z) (k : Z) f held : Prop := {
  ac_ok : frames_ok SIZE f;
  ac_held : forall p n, held !! p = Some n -> 1 <= n <= k /\ exists x, in_use SIZE f p x n;
  ac_frames : all ≡ₚ held_frames f held ++ all_free f;
}.

Lemma in_use_inj f p q x y n m : frames_ok SIZE f -> in_use SIZE f p x n -> in_use SIZE f q y m -> (p = q <-> x = y).
Proof. intros Hf [Hp _ _] [Hq _ _]. by apply (frame_at_inj SIZE HSIZE (kf_arenas f)); [apply Hf|by apply (fo_geometry SIZE)|..]. Qed.

Lemma held_frames_insert f held p x n m :
  kf_slots f !! p = Some (MkInfo m x) -> held !! p = None -> held_frames f (<[p := n]> held) ≡ₚ x :: held_frames f held.
Proof. intros Hs Hp. unfold held_frames. rewrite map_to_list_insert by done. cbn. unfold addr_of at 1. by rewrite Hs. Qed.

Lemma held_frames_update f held p n n' : held !! p = Some n -> held_frames f (<[p := n']> held) ≡ₚ held_frames f held.
Proof.
  intros Hp. unfold held_frames. rewrite <- (insert_delete_id held p n Hp) at 2. rewrite <- insert_delete_eq.
  rewrite !map_to_list_insert by apply lookup_delete_eq. done.
Qed.

Lemma held_frames_agree f f' held :
  (forall p, is_Some (held !! p) -> addr_of (kf_slots f') p = addr_of (kf_slots f) p) -> held_frames f' held = held_frames f held.
Proof.
  intros Hs. unfold held_frames. apply list_fmap_ext. intros i p Hp. apply list_elem_of_lookup_2 in Hp.
  apply list_elem_of_fmap in Hp as ([q n] & -> & Hin). apply elem_of_map_to_list in Hin. apply Hs. by exists n.
Qed.

Lemma alloc_accounted all k cpu f held :
  1 <= k -> accounted all k f held -> exists f' held', run_op (AllocOne cpu) f held = Done (f', held') /\ accounted all k f' held'.
Proof.
  intros Hk Hac. pose proof Hac as [Hf Hheld Hall]. cbn [run_op].
  destruct (alloc_one_ok SIZE HSIZE cpu f Hf) as (r & f' & Hrun & Hres). step_by Hrun. destruct r as [p|e].
  2: { destruct Hres as [-> _]. by exists f, held. }
  destruct Hres as (x & Hout). pose proof (handed_out_in_use SIZE f f' p x Hf Hout) as Huse.
  destruct Hout as (Hp & [Hf' Hfree Hat Hused] & Hs). exists f', (<[p := 1]> held). split; [done|].
  assert (x ∈ all_free f) as Hx by (rewrite Hfree; by left).
  assert (held !! p = None) as Hnone.
  { destruct (held !! p) as [n|] eqn:Hn; [|done]. destruct (Hheld p n Hn) as (_ & y & [Hpy _ Hy]). destruct Hy.
    rewrite <- (proj1 (frame_at_inj SIZE HSIZE _ _ _ x y (fo_apart _ _ Hf) (fo_geometry _ _ Hf) Hp Hpy) eq_refl). done. }
  assert (forall q n, held !! q = Some n -> kf_slots f' !! q = kf_slots f !! q) as Hkeep.
  { intros q n Hq. destruct (Hheld q n Hq) as (_ & y & [Hqy _ Hy]). by apply (Hused q y). }
  constructor; [done| |].
  - intros q n [(<- & <-)|(Hne & Hq)]%lookup_insert_Some; [split; [lia|by exists x]|].
    destruct (Hheld q n Hq) as (Hn & y & [Hqy Hqs Hy]). split; [done|]. exists y. constructor; [by apply Hat|by rewrite (Hkeep q n Hq)|].
    intros Hy'. apply Hy. rewrite Hfree. by right.
  - rewrite (held_frames_insert f' held p x 1 1 Hs Hnone), (held_frames_agree f f' held), Hall, Hfree; [solve_Permutation|].
    intros q [n Hq]. unfold addr_of. by rewrite (Hkeep q n Hq).
Qed.

(** The count of a held frame changes. *)
Lemma count_accounted all k f f' held p x n m :
  accounted all k f held -> held !! p = Some n -> in_use SIZE f p x n -> 1 <= m <= k + 1 ->
  frames_ok SIZE f' -> all_free f' = all_free f -> counted f f' p x m -> accounted all (k + 1) f' (<[p := m]> held).
Proof.
  intros [Hf Hheld Hall] Hp Huse Hm Hf' Hfree (Hs & Har & Hother). constructor; [done| |].
  - intros q l [(<- & <-)|(Hne & Hq)]%lookup_insert_Some.
    + split; [done|]. exists x. constructor; [rewrite Har; apply Huse|done|rewrite Hfree; apply Huse].
    + destruct (Hheld q l Hq) as (Hl & y & [Hqy Hqs Hy]). split; [lia|]. exists y.
      constructor; [by rewrite Har|by rewrite Hother|by rewrite Hfree].
  - rewrite (held_frames_update f' held p n m Hp), (held_frames_agree f f' held), Hfree; [done|].
    intros q _. unfold addr_of. destruct (decide (q = p)) as [->|Hne]; [by rewrite Hs, (iu_slot _ _ _ _ _ Huse)|by rewrite Hother].
Qed.

Lemma clone_accounted all k p f held :
  1 <= k <= MAX_REFCOUNT -> accounted all k f held ->
  exists f' held', run_op (CloneFrame p) f held = Done (f', held') /\ accounted all (k + 1) f' held'.
Proof.
  intros Hk Hac. cbn [run_op]. destruct (held !! p) as [n|] eqn:Hp.
  - destruct (ac_held _ _ _ _ Hac p n Hp) as (Hn & x & Huse).
    destruct (frame_clone_ok SIZE HSIZE f p x n (ac_ok _ _ _ _ Hac) Huse ltac:(lia)) as (f' & Hrun & Hf' & _ & Hfree & Hc).
    step_by Hrun. exists f', (<[p := n + 1]> held). split; [done|]. by apply (count_accounted all k f f' held p x n); try lia.
  - exists f, held. split; [done|]. destruct Hac as [Hf Hheld Hall]. constructor; [done| |done].
    intros q n Hq. destruct (Hheld q n Hq). split; [lia|done].
Qed.

(** The last reference is dropped. *)
Lemma free_accounted all k f f' held p x :
  accounted all k f held -> held !! p = Some 1 -> in_use SIZE f p x 1 ->
  frames_ok SIZE f' -> all_free f' ≡ₚ x :: all_free f -> counted f f' p x 0 -> accounted all k f' (delete p held).
Proof.
  intros [Hf Hheld Hall] Hp Huse Hf' Hfree (Hs & Har & Hother). constructor; [done| |].
  - intros q l [Hne Hq]%lookup_delete_Some. destruct (Hheld q l Hq) as (Hl & y & Hy). split; [done|]. exists y.
    constructor; [rewrite Har; apply Hy|by rewrite Hother; [apply Hy|]|]. rewrite Hfree. intros [->|Hin]%elem_of_cons.
    + apply Hne. by apply (in_use_inj f p q x x 1 l Hf Huse Hy).
    + by apply Hy.
  - rewrite Hall, Hfree. rewrite <- (insert_delete_id held p 1 Hp) at 1.
    rewrite (held_frames_insert f _ p x 1 1 (iu_slot _ _ _ _ _ Huse) (lookup_delete_eq _ _)).
    rewrite (held_frames_agree f f'); [solve_Permutation|].
    intros q [n [Hne _]%lookup_delete_Some]. unfold addr_of. by rewrite Hother.
Qed.

Lemma drop_accounted all k cpu p f held :
  1 <= k <= MAX_REFCOUNT -> accounted all k f held ->
  exists f' held', run_op (DropFrame cpu p) f held = Done (f', held') /\ accounted all (k + 1) f' held'.
Proof.
  intros Hk Hac. assert (forall g h, accounted all k g h -> accounted all (k + 1) g h) as Hmore.
  { intros g h [Hg Hh Hall]. constructor; [done| |done]. intros q n Hq. destruct (Hh q n Hq). split; [lia|done]. }
  cbn [run_op]. destruct (held !! p) as [n|] eqn:Hp; [|exists f, held; split; [done|by apply Hmore]].
  destruct (ac_held _ _ _ _ Hac p n Hp) as (Hn & x & Huse).
  destruct (frame_drop_ok SIZE HSIZE cpu f p x n (ac_ok _ _ _ _ Hac) Huse) as (f' & Hrun & Hf' & Hc & Hfree).
  { unfold MAX_REFCOUNT in *. lia. }
  step_by Hrun. eexists f', _. split; [done|]. destruct (Z.eqb_spec n 1) as [->|Hne].
  - by apply Hmore, (free_accounted all k f f' held p x).
  - by apply (count_accounted all k f f' held p x n); try lia.
Qed.

Lemma op_accounted all k op f held :
  1 <= k <= MAX_REFCOUNT -> accounted all k f held -> exists f' held', run_op op f held = Done (f', held') /\ accounted all (k + 1) f' held'.
Proof.
  intros Hk Hac. destruct op as [cpu|p|cpu p]; [|by apply clone_accounted|by apply drop_accounted].
  destruct (alloc_accounted all k cpu f held ltac:(lia) Hac) as (f' & held' & Hrun & [Hf Hheld Hall]). exists f', held'.
  split; [done|]. constructor; [done| |done]. intros q n Hq. destruct (Hheld q n Hq). split; [lia|done].
Qed.

Lemma ops_accounted all ops : forall k f held,
  1 <= k -> k + Z.of_nat (length ops) <= MAX_REFCOUNT + 1 -> accounted all k f held ->
  exists f' held', run_ops ops f held = Done (f', held') /\ accounted all (k + Z.of_nat (length ops)) f' held'.
Proof.
  induction ops as [|op ops IH]; intros k f held Hk Hlen Hac; [exists f, held; split; [done|]; by rewrite Z.add_0_r|].
  cbn [run_ops length] in *. destruct (op_accounted all k op f held ltac:(lia) Hac) as (f1 & held1 & Hrun & Hac1). step_by Hrun.
  destruct (IH (k + 1) f1 held1 ltac:(lia) ltac:(lia) Hac1) as (f' & held' & Hrest & Hac'). exists f', held'. split; [done|].
  by replace (k + Z.of_nat (S (length ops))) with (k + 1 + Z.of_nat (length ops)) by lia.
Qed.

Lemma fresh_accounted regions pm f : fresh_frames SIZE pm regions f -> accounted (all_free f) 1 f ∅.
Proof. intros Hff. constructor; [apply Hff|intros p n Hp; by rewrite lookup_empty in Hp|done]. Qed.
End trace.

(** C11: the frame allocator made for a list of memory regions, in ascending or
    descending order, serves any
    sequence of allocations, clones and drops without panicking, and at every
    point each of the frames it started with is either free, once, or held by
    the client, once. The frames are parts of the regions, none of them overlaps
    the memory of a slot, and the count of a held frame is the number of
    references of the client. *)
Theorem frames_conserved {SL : SlotList} SIZE physmap up regions ops :
  0 < SIZE <= 4096 -> physmap_ok physmap ->
  ordered up (mr_range <$> rev regions) -> mapped_regions physmap (mr_range <$> regions) ->
  Z.of_nat (length ops) <= MAX_REFCOUNT ->
  exists f0 f held, frames_new SIZE regions physmap = Done f0 /\ run_ops SIZE ops f0 ∅ = Done (f, held)
  /\ NoDup (all_free f0) /\ all_free f0 ≡ₚ held_frames f held ++ all_free f
  /\ (forall x, x ∈ all_free f0 -> exists r, r ∈ regions /\ within (mr_range r) x 4096)
  /\ (forall x p y, x ∈ all_free f0 -> frame_at SIZE (kf_arenas f0) p y -> virt physmap x + 4096 <= p \/ p + SIZE <= virt physmap x)
  /\ (forall p n, held !! p = Some n -> exists x, kf_slots f !! p = Some (MkInfo n x)).
Proof.
  intros HSIZE Hpm Hd Hm Hlen. destruct (frames_new_ok SIZE HSIZE up physmap Hpm regions Hd Hm) as (f0 & Hnew & Hff).
  destruct (ops_accounted SIZE (proj1 HSIZE) (all_free f0) ops 1 f0 ∅) as (f & held & Hrun & Hac);
    [lia|lia|by apply (fresh_accounted SIZE (mr_range <$> regions) physmap)|].
  exists f0, f, held. split_and!; [done|done|apply Hff|apply Hac| |apply Hff|].
  - intros x Hx. destruct (ff_free _ _ _ _ Hff x Hx) as (r & Hr & Hw). apply list_elem_of_fmap in Hr as (r' & -> & Hr). by exists r'.
  - intros p n Hp. destruct (ac_held _ _ _ _ _ Hac p n Hp) as (_ & x & Huse). exists x. apply Huse.
Qed.
