(* ===== verification/KernelTables.v ===== *)
(** * The kernel's page tables on the kernel's frame allocator

    The page tables of arch/riscv64/mem.rs are proved correct for any allocator
    that hands out unused, zeroed frames. The frame allocator is one. *)

From stdpp Require Import base numbers list gmap sets sorting.
From Stdlib Require Import ZArith Lia.
From S2P Require Import Prelude Address Riscv Arch PhysMap Machine Table PageTable Walk TableOps.
From S2P Require Import LoaderRegions KernelSpace KernelPaging KernelPagingCorrect KernelNew KernelFrames.
From S2P Require Import KernelFramesCorrect KernelFramesNew KernelFramesSelect KernelFramesAlloc KernelFramesOps KernelFramesInit.

Section tables.
Context {SL : SlotList} (SIZE : Z) (HSIZE : 0 < SIZE) (cpu : Z) (memory : range).
Implicit Types (f : KFrames) (A : gset Z).

(** The slot of the frame at [x]. *)
Definition frame_ptr f (x : Z) : outcome Z :=
  match List.find (fun a => (r_start (ar_range a) <=? x) && (x <? r_end (ar_range a))) (kf_arenas f) with
  | Some a => Done (slot_of SIZE a x)
  | None => Undefined
  end.

Definition drop_frame (x : Z) : M KFrames unit := fun f => (p ← lift (frame_ptr f x); frame_drop cpu p) f.

Definition one_frame : M KFrames (result AllocError Z) :=
  r ← alloc_one SIZE cpu;
  match r with
  | Ok p => addr ← frame_addr p; mret (Ok addr)
  | Err _ => mret (Err MkAllocError)
  end.

(** Single frames, by their addresses. *)
#[local] Instance single_frames : FrameAllocator KFrames := {|
  allocate _ := r ← one_frame; mret (match r with Ok x => Ok [Range x (x + PAGE_SIZE)] | Err e => Err e end);
  allocate_contiguous _ := one_frame;
  deallocate x _ := drop_frame x;
|}.

(** The frames of [A] are in use, and all frames are in [memory]. *)
Record frames_used f A : Prop := {
  fu_ok : frames_ok SIZE f;
  fu_memory : forall p x, frame_at SIZE (kf_arenas f) p x -> within memory x 4096;
  fu_used : forall x, x ∈ A -> (exists p, frame_at SIZE (kf_arenas f) p x) /\ x ∉ all_free f;
}.

Lemma handed_out_used f f' p x A :
  frames_used f A -> handed_out SIZE f f' p x -> (x ∉ A) /\ frames_used f' ({[x]} ∪ A).
Proof.
  intros [Hf Hm Hu] Hout. pose proof (handed_out_in_use SIZE f f' p x Hf Hout) as [Hp' _ Hx']. destruct Hout as (Hp & [Hf' Hfree Hat _] & _).
  split; [intros Hx; apply (Hu x Hx); rewrite Hfree; by left|]. constructor; [done|intros q y Hq; by apply (Hm q), Hat|].
  intros y [->%elem_of_singleton|Hy]%elem_of_union; [split; [by exists p|done]|].
  destruct (Hu y Hy) as [[q Hq] Hn]. split; [exists q; by apply Hat|]. intros Hin. apply Hn. rewrite Hfree. by right.
Qed.

(** No frame is free in the arenas or in the cache of this CPU. *)
Definition no_frame_left f : Prop := cached cpu f = [] /\ arenas_free (kf_slots f) (kf_arenas f) = [].

Lemma one_frame_ok f :
  frames_ok SIZE f -> exists r f', alloc_one SIZE cpu f = Done (r, f')
  /\ match r with
     | Ok p => exists x, handed_out SIZE f f' p x /\ frame_addr p f' = Done (x, f') /\ one_frame f = Done (Ok x, f')
     | Err _ => f' = f /\ one_frame f = Done (Err MkAllocError, f) /\ no_frame_left f
     end.
Proof.
  intros Hf. destruct (alloc_one_ok SIZE HSIZE cpu f Hf) as (r & f' & Hrun & Hres). exists r, f'. split; [done|].
  unfold one_frame. step_by Hrun. destruct r as [p|e]; [|by destruct Hres as (-> & ?)].
  destruct Hres as (x & Hout). exists x. pose proof (frame_addr_ok f' p 1 x (proj2 (proj2 Hout))) as Hx.
  split_and!; [done|done|]. by step_by Hx.
Qed.

#[local] Instance single_frames_laws : FrameAllocatorLaws (@GRANULE_SIZE kernel_arch) KFrames.
Proof.
  refine {| fa_allocated := frames_used; fa_memory := memory |}.
  - intros f A p [_ Hm Hu] Hp. destruct (Hu p Hp) as [[q Hq] _]. destruct (Hm q p Hq) as [H1 H2].
    destruct Hq as (a & _ & (Hmod & _) & _). split; [exact Hmod|]. split; [exact H1|exact H2].
  - intros f A Hf. destruct (one_frame_ok f (fu_ok _ _ Hf)) as (r & f' & _ & Hres). destruct r as [p|e].
    + destruct Hres as (x & Hout & _ & Hone). exists (Ok x), f'. split; [exact Hone|]. by apply (handed_out_used f f' p x A).
    + destruct Hres as (-> & Hone & _). exists (Err MkAllocError), f. by split.
Defined.

(** A table is a zeroed frame. *)
#[local] Instance kernel_tables : TableFrames KFrames := {|
  alloc_table physmap :=
    frame <-? alloc_one_zeroed SIZE cpu physmap;
    addr ← on_frames (frame_addr frame);
    mret (Ok addr);
  release_table x := on_frames (drop_frame x);
|}.

Definition as_table (r : result AllocError Z) : result unit Z := match r with Ok x => Ok x | Err _ => Err tt end.

(** Zeroing does not touch the slots, so the address read afterwards is the one
    that was zeroed. *)
Lemma alloc_table_eq pm (w : world KFrames) A :
  frames_used (w_frames w) A ->
  alloc_table pm w = (r ← allocate_contiguous_zeroed (MkLayout PAGE_SIZE PAGE_SIZE) pm; mret (as_table r)) w.
Proof.
  intros Hf. destruct (one_frame_ok (w_frames w) (fu_ok _ _ Hf)) as (r & f' & Hrun & Hres).
  cbv beta iota zeta delta [alloc_table kernel_tables alloc_one_zeroed allocate_contiguous_zeroed allocate_contiguous single_frames
    try_bind mbind M_bind mret M_ret on_frames lift arch_write_bytes]. rewrite Hrun. destruct r as [p|e].
  - destruct Hres as (x & Hout & Hx & Hone). cbn [w_frames w_mem w_hart]. rewrite Hx, Hone.
    destruct (phys_to_virt pm x) as [v| |]; [|done|done]. cbn [w_frames w_mem w_hart l_size].
    destruct (memset _ v 0 (w_mem w)) as [m| |]; [|done|done]. cbn [set_mem w_frames w_mem w_hart]. by rewrite Hx.
  - destruct Hres as (-> & Hone & _), e. by rewrite Hone.
Qed.

(** A table is refused only when no frame is left. *)
Lemma no_table_frame_left pm (w' : world KFrames) : no_table_frame pm w' -> no_frame_left (w_frames w').
Proof.
  intros (w & A & Hf & Hrun). destruct (one_frame_ok (w_frames w) (fu_ok _ _ Hf)) as (r & f' & Hone & Hres).
  rewrite (alloc_table_eq pm w A Hf) in Hrun. unfold allocate_contiguous_zeroed in Hrun. destruct r as [p|e].
  - destruct Hres as (x & _ & _ & Hx). exfalso. revert Hrun. unfold mbind at 1, M_bind at 1.
    erewrite try_bind_Ok by (unfold on_frames, allocate_contiguous, single_frames; rewrite Hx; reflexivity).
    unfold mbind, M_bind, lift. destruct (phys_to_virt pm x) as [v| |]; [|done|done].
    generalize (arch_write_bytes (F := KFrames) v 0 (l_size (MkLayout PAGE_SIZE PAGE_SIZE))). intros m. by destruct (m _) as [[]| |].
  - destruct Hres as (-> & Hx & Hleft). revert Hrun. unfold mbind at 1, M_bind at 1.
    erewrite try_bind_Err by (unfold on_frames, allocate_contiguous, single_frames; rewrite Hx; reflexivity).
    by intros [= <-].
Qed.

#[local] Instance kernel_tables_laws pm (Hpo : @platform_ok kernel_arch kernel_laws KFrames _ _ pm) :
  @TableFramesLaws KFrames _ _ _ pm.
Proof.
  constructor. intros w A0 Hm HA.
  destruct (@allocate_zeroed_table kernel_arch kernel_laws KFrames _ _ pm Hpo w A0 Hm HA) as (r & w' & Hrun & Hh & Hr).
  exists (as_table r), w'. split; [|split; [done|destruct r as [p|e]; [exact Hr|split; apply Hr]]].
  rewrite (alloc_table_eq pm w A0 HA). by step_by Hrun.
Qed.

Local Abbreviation SPAN := (span (@LEVELS kernel_arch)).

(** What is translated in a space that shares the upper half of another. *)
Lemma shared_translation pm (k0 k : KMachine KFrames) va :
  shares_upper_half pm k0 k ->
  translation pm k va = if SPAN / 2 <=? va mod SPAN then translation pm k0 va else None.
Proof.
  intros Hs. assert (0 <= va mod SPAN < SPAN) as Ho by (by apply Z.mod_pos_bound). specialize (Hs 0%nat _ Ho).
  apply (f_equal status_leaf) in Hs. rewrite obs_lk in Hs. unfold translation. rewrite Hs.
  change (SPAN / 2) with (256 * page_size (klevel 2)). change (page_size (klevel 2)) with 1073741824 in *.
  destruct (Z.ltb_spec (va mod SPAN / 1073741824) 256), (Z.leb_spec (256 * 1073741824) (va mod SPAN)); try done.
  - assert (256 <= va mod SPAN / 1073741824) by (apply Z.div_le_lower_bound; lia). lia.
  - by rewrite obs_lk.
  - assert (va mod SPAN / 1073741824 < 256) by (apply Z.div_lt_upper_bound; lia). lia.
Qed.

(** In the lower half there is room for every page. *)
Lemma lower_half_free pm (k0 k : KMachine KFrames) virt phys len :
  0 <= len -> shares_upper_half pm k0 k -> virt mod SPAN + len <= SPAN / 2 -> range_free pm k virt phys len.
Proof.
  intros Hlen Hs Hfits j va Hj P Hge Hle _ _. assert (0 < P) by (unfold P; rewrite klevel_page_size; lia).
  rewrite Hs by (by apply Z.mod_pos_bound).
  assert (SPAN / 2 < SPAN) as Hhalf by by vm_compute.
  rewrite (mod_add_small SPAN virt va) by (done || lia).
  rewrite (proj2 (Z.ltb_lt _ _)); [done|]. apply Z.div_lt_upper_bound; [done|].
  change (SPAN / 2) with (page_size (klevel 2) * 256) in Hfits. lia.
Qed.

(** C10: creating an address space of the kernel, with tables that are frames of
    the frame allocator, returns; the active space is well formed. It fails only
    when neither the arenas nor the cache of the CPU have a frame left, and memory
    is as before then. Otherwise the new space translates the addresses of the
    upper half as the active one and none of the lower half, the active space
    translates as before, and a mapping of whole pages into the lower half
    returns, with the frames that were in use before (the active root table among
    them) still in use and unchanged: exactly the addresses of the range have
    become mapped, to the physical range and with the flags, and are recorded for
    invalidation; if the frames run out, this holds for the part that has been
    mapped. *)
Theorem kernel_tables_on_frames pm (k0 : KMachine KFrames) A asid :
  @platform_ok kernel_arch kernel_laws KFrames _ _ pm -> 0 < pm_base pm ->
  kspace_ok pm A k0 -> active k0 -> root k0 <> 0 ->
  exists r w', kaspace_new pm asid (km_world k0) = Done (r, w')
  /\ match r with
     | Err _ => no_frame_left (w_frames w') /\ w_mem w' = w_mem (km_world k0)
     | Ok (space, flush) => let k := MkKMachine w' space in
         flush = kflush_empty asid /\ k_asid space = asid /\ wired_frames space = [root_pgtable space]
         /\ (forall va, translation pm k va = if SPAN / 2 <=? va mod SPAN then translation pm k0 va else None)
         /\ (forall va, translation pm (MkKMachine w' (km_space k0)) va = translation pm k0 va)
         /\ exists A', A ∪ {[root k0]} ⊆ A' /\ kspace_ok pm A' k
         /\ forall virt phys len flags, request_ok virt phys len flags -> len mod 4096 = 0 ->
              implb (contains flags K_WRITE) (contains flags K_READ) = true -> virt mod SPAN + len <= SPAN / 2 ->
              exists r k' mid, kmap_contiguous pm virt phys len flags flush k = Done (r, k')
              /\ mapped_to pm A' virt phys flags mid k k'
              /\ match r with
                 | Ok f' => mid = virt + len /\ records virt mid flush f'
                 | Err f' => virt <= mid < virt + len /\ records virt mid flush f' /\ no_frame_left (w_frames (km_world k'))
                 end
     end.
Proof.
  intros Hpo Hbase Hk0 Hact Hnz. pose proof (kernel_tables_laws pm Hpo) as Hlaws.
  destruct (kaspace_new_ok pm Hpo A k0 asid Hk0 Hact Hnz) as (r & w' & Hrun & _ & Hr). exists r, w'. split; [done|].
  destruct r as [[space flush]|e]; [|destruct Hr; split; [by eapply no_table_frame_left|done]].
  destruct Hr as (-> & Hasid & Hwired & Hshare & Hold & A' & HA' & Hk). split_and!; [done..| | |].
  { intros va. by apply shared_translation. }
  { intros va. unfold translation. f_equal. rewrite <- !(obs_lk pm 0). f_equal. apply (Hold 0%nat). by apply Z.mod_pos_bound. }
  exists A'. split_and!; [done..|]. intros virt phys len flags Hrq Hlen Hwr Hfits.
  destruct (kernel_map_ok pm Hpo Hbase A' (MkKMachine w' space) virt phys len flags (kflush_empty asid) Hk Hrq Hlen Hwr) as (r & k' & Hmap & Hres).
  - by rewrite <- Hasid.
  - transitivity (SPAN / 2); [exact Hfits|by vm_compute].
  - apply (lower_half_free pm k0); [destruct Hrq; lia|exact Hshare|]. exact Hfits.
  - destruct r as [f'|f'].
    + exists (Ok f'), k', (virt + len). split_and!; [done|apply Hres|done|apply Hres].
    + destruct Hres as (Hno & mid & Hmid & Hmapped & Hrec). exists (Err f'), k', mid. split_and!; try done; [lia..|].
      by eapply no_table_frame_left.
Qed.
End tables.
