(* ===== verification/KernelBoot.v ===== *)
(** * Memory during early boot
      (sys/kernel/src/mem/bootstrap_alloc.rs, and the hand-over to the frame
       allocator in sys/kernel/src/main.rs)

    The bootstrap allocator hands out memory from the end of the last region
    downwards and never takes it back; what is left goes to the frame allocator. *)

From stdpp Require Import base numbers list gmap sorting.
From Stdlib Require Import ZArith Lia.
From S2P Require Import Prelude Address Riscv Arch PhysMap Machine LoaderRegions KernelSpace KernelFrames.
From S2P Require Import KernelFramesNew KernelFramesSelect KernelFramesAlloc KernelFramesInit.

(** [offset] counts the bytes in use from the top of the regions. *)
Record BootstrapAllocator : Type := MkBootstrap { bs_regions : list range; bs_offset : Z }.

Definition bootstrap_new (regions : list range) : BootstrapAllocator := MkBootstrap regions 0.

(** [self.offset += n] *)
Definition bump (n : Z) : M BootstrapAllocator unit := fun b =>
  match u_add (bs_offset b) n with
  | Done offset => Done (tt, MkBootstrap (bs_regions b) offset)
  | Panicked => Panicked
  | Undefined => Undefined
  end.

(** The loop over the regions, from the last one on. *)
Fixpoint bootstrap_loop (requested_size : Z) (regions : list range) (offset : Z) : M BootstrapAllocator (option Z) :=
  match regions with
  | [] => mret None
  | region :: regions =>
      len ← lift (range_len region);
      if offset <? len then
        left ← lift (u_sub len offset);
        if left <? requested_size then
          _ ← bump left;
          bootstrap_loop requested_size regions 0
        else
          n ← lift (u_add offset requested_size);
          frame ← lift (addr_sub (r_end region) n);
          _ ← bump requested_size;
          mret (Some frame)
      else
        offset ← lift (u_sub offset len);
        bootstrap_loop requested_size regions offset
  end.

Definition bootstrap_allocate_contiguous (layout : Layout) : M BootstrapAllocator (option Z) := fun b =>
  let requested_size := l_size (pad_to_align layout) in
  (_ ← lift (assert_ (l_align layout =? PAGE_SIZE));
   bootstrap_loop requested_size (rev (bs_regions b)) (bs_offset b)) b.

Definition bootstrap_allocate_one : M BootstrapAllocator (option Z) :=
  bootstrap_allocate_contiguous (MkLayout PAGE_SIZE PAGE_SIZE).

Definition bootstrap_allocate_contiguous_zeroed (layout : Layout) (physmap : PhysMap) : M (world BootstrapAllocator) (option Z) :=
  let requested_size := l_size (pad_to_align layout) in
  r ← on_frames (bootstrap_allocate_contiguous layout);
  match r with
  | None => mret None
  | Some addr =>
      virt ← lift (phys_to_virt physmap addr);
      _ ← arch_write_bytes virt 0 requested_size;
      mret (Some addr)
  end.

Definition bootstrap_allocate_one_zeroed (physmap : PhysMap) : M (world BootstrapAllocator) (option Z) :=
  bootstrap_allocate_contiguous_zeroed (MkLayout PAGE_SIZE PAGE_SIZE) physmap.

(** [FreeRegions]: the offset and the regions not visited yet. *)
Record FreeRegions : Type := MkFree { fr_offset : Z; fr_inner : list range }.

Definition free_regions (b : BootstrapAllocator) : FreeRegions := MkFree (bs_offset b) (rev (bs_regions b)).

Fixpoint free_next_loop (offset : Z) (inner : list range) : outcome (option range * FreeRegions) :=
  match inner with
  | [] => mret (None, MkFree offset [])
  | region :: inner =>
      len ← range_len region;
      if len <=? offset then
        offset ← u_sub offset len;
        free_next_loop offset inner
      else if 0 <? offset then
        e ← addr_sub (r_end region) offset;
        mret (Some (Range (r_start region) e), MkFree 0 inner)
      else mret (Some region, MkFree offset inner)
  end.
Definition free_next (f : FreeRegions) : outcome (option range * FreeRegions) := free_next_loop (fr_offset f) (fr_inner f).

(** The iterator run to its end. *)
Fixpoint free_collect (fuel : nat) (f : FreeRegions) : outcome (list range) :=
  match fuel with
  | O => Undefined
  | S fuel =>
      '(r, f) ← free_next f;
      match r with
      | None => mret []
      | Some region => rest ← free_collect fuel f; mret (region :: rest)
      end
  end.

(** What main.rs gives to the frame allocator; there are no more regions than
    there were. *)
Definition boot_free_regions (b : BootstrapAllocator) : outcome (list MemoryRegion) :=
  l ← free_collect (S (length (bs_regions b))) (free_regions b);
  Done (map (fun r => MkRegion r Usable) l).

(** The regions the kernel may allocate from. *)
Definition allocatable_memory_regions (memory_regions : list MemoryRegion) : list range :=
  mr_range <$> List.filter (fun r => is_usable (mr_kind r)) memory_regions.
