(* ===== verification/KernelBootCorrect.v ===== *)
(** * Correctness of the memory handling during early boot

    Blocks of the bootstrap allocator, and the frames of the frame allocator that
    takes over, are parts of the usable memory and do not overlap. *)

From stdpp Require Import base numbers list gmap sorting.
From Stdlib Require Import ZArith Lia.
From S2P Require Import Prelude Address Riscv Arch PhysMap Machine LoaderRegions KernelSpace KernelFrames.
From S2P Require Import KernelFramesNew KernelFramesSelect KernelFramesAlloc KernelFramesInit KernelBoot.

Definition len (r : range) : Z := r_end r - r_start r.
Definition total (l : list range) : Z := foldr Z.add 0 (len <$> l).

(** The memory that is left, from the last region on, when [offset] bytes are in
    use. *)
Fixpoint free_of (l : list range) (offset : Z) : list range :=
  match l with
  | [] => []
  | r :: l => if len r <=? offset then free_of l (offset - len r) else Range (r_start r) (r_end r - offset) :: free_of l 0
  end.

Definition left (b : BootstrapAllocator) : list range := free_of (rev (bs_regions b)) (bs_offset b).

Lemma total_cons r l : total (r :: l) = len r + total l.
Proof. done. Qed.

Lemma ranges_total_app l1 l2 : total (l1 ++ l2) = total l1 + total l2.
Proof. induction l1 as [|r l1 IH]; [done|]. cbn [app]. rewrite !total_cons, IH. lia. Qed.

Lemma len_region r : memory_region r -> range_len r = Done (len r) /\ 0 <= len r.
Proof. intros [H1 H2]. unfold len. split; [apply region_len_Done; lia|lia]. Qed.

Lemma ranges_total_nonneg l : Forall memory_region l -> 0 <= total l.
Proof. induction 1 as [|r l Hr _ IH]; [done|]. rewrite total_cons. destruct (len_region r Hr). lia. Qed.

(** Regions that are used up do not matter. *)
Lemma free_of_app l1 l2 offset : Forall memory_region l1 -> 0 <= offset -> free_of (l1 ++ l2) (total l1 + offset) = free_of l2 offset.
Proof.
  intros H Ho. induction H as [|r l1 Hr Hl IH]; [done|]. cbn [app free_of]. rewrite total_cons. pose proof (ranges_total_nonneg l1 Hl).
  replace (len r <=? len r + total l1 + offset) with true by lia. rewrite <- IH. f_equal. lia.
Qed.

Lemma free_of_inside l offset r : Forall memory_region l -> 0 <= offset -> r ∈ free_of l offset -> exists u, u ∈ l /\ inside u r.
Proof.
  intros H. revert offset. induction H as [|u l Hu Hl IH]; intros offset Ho Hr; [by apply elem_of_nil in Hr|]. cbn [free_of] in Hr.
  destruct (Z.leb_spec (len u) offset) as [Hle|Hgt].
  - destruct (IH (offset - len u) ltac:(lia) Hr) as (v & Hv & ?). exists v. split; [by right|done].
  - apply elem_of_cons in Hr as [->|Hr]; [exists u; split; [by left|]; unfold inside; cbn; lia|].
    destruct (IH 0 ltac:(lia) Hr) as (v & Hv & ?). exists v. split; [by right|done].
Qed.

(** What is left is in the same order. *)
Lemma free_of_ordered l offset : ordered false l -> 0 <= offset -> ordered false (free_of l offset).
Proof.
  intros [Hm Hs]. revert offset. induction Hs as [|r l Hs IH Hb]; intros offset Ho; [by split; constructor|].
  apply Forall_cons in Hm as [Hr Hm]. cbn [free_of]. destruct (Z.leb_spec (len r) offset) as [Hle|Hgt]; [apply (IH Hm); lia|].
  destruct (IH Hm 0 ltac:(lia)) as [H1 H2]. split.
  - constructor; [|done]. destruct Hr as [? ?]. unfold len in Hgt. split; cbn; lia.
  - constructor; [done|]. apply Forall_forall. intros q Hq. destruct (free_of_inside l 0 q Hm ltac:(lia) Hq) as (u & Hu & _ & Hle').
    rewrite Forall_forall in Hb. specialize (Hb u Hu). unfold before in *. cbn. lia.
Qed.

Lemma total_ordered l : ordered false l -> total l <= 2 ^ 63.
Proof.
  intros [Hm Hs]. enough (forall m, Forall (fun r => r_end r <= m) l -> 0 <= m -> total l <= m) as He.
  { apply He; [|lia]. eapply Forall_impl; [exact Hm|]. intros r [_ ?]. done. }
  induction Hs as [|r l Hs IH Hb]; intros m Hle H0; [done|]. apply Forall_cons in Hm as [Hr Hm], Hle as [Hle _].
  rewrite total_cons. specialize (IH Hm (r_start r) Hb). destruct Hr. unfold len. lia.
Qed.

(** ** The free regions *)

Lemma free_next_loop_ok inner : forall offset, Forall memory_region inner -> is_usize offset ->
  exists r f, free_next_loop offset inner = Done (r, f)
  /\ match r with
     | None => free_of inner offset = []
     | Some region => free_of inner offset = region :: free_of (fr_inner f) 0 /\ fr_offset f = 0
         /\ (length (fr_inner f) < length inner)%nat /\ Forall memory_region (fr_inner f)
     end.
Proof.
  induction inner as [|region inner IH]; intros offset Hm Ho; [by exists None, (MkFree offset [])|].
  apply Forall_cons in Hm as [Hr Hm]. destruct (len_region region Hr) as [Hlen Hl0]. cbn [free_next_loop free_of]. rewrite Hlen.
  cbn [mbind outcome_bind]. pose proof Hr as [Hr1 Hr2]. unfold is_usize in Ho. destruct (Z.leb_spec (len region) offset) as [Hle|Hgt].
  - rewrite u_sub_Done by (unfold is_usize; lia). cbn [mbind outcome_bind].
    destruct (IH (offset - len region) Hm ltac:(unfold is_usize; lia)) as (r & f & Hrun & Hres). exists r, f. split; [done|].
    destruct r as [q|]; [|done]. destruct Hres as (? & ? & ? & ?). cbn [length]. split_and!; (done || lia).
  - destruct (Z.ltb_spec 0 offset) as [Hpos|Hz].
    + unfold addr_sub, len in *. rewrite u_sub_Done by (unfold is_usize; lia). eexists _, (MkFree 0 inner). split; [done|].
      cbn [length fr_inner]. split_and!; (done || lia).
    + assert (offset = 0) as -> by lia. exists (Some region), (MkFree 0 inner). cbn [length fr_inner]. split; [done|].
      rewrite Z.sub_0_r. destruct region. split_and!; (done || lia).
Qed.

Lemma free_collect_ok fuel : forall f, Forall memory_region (fr_inner f) -> is_usize (fr_offset f) -> (length (fr_inner f) < fuel)%nat ->
  free_collect fuel f = Done (free_of (fr_inner f) (fr_offset f)).
Proof.
  induction fuel as [|fuel IH]; intros f Hm Ho Hlen; [lia|]. cbn [free_collect]. unfold free_next.
  destruct (free_next_loop_ok (fr_inner f) (fr_offset f) Hm Ho) as (r & f' & Hrun & Hres). rewrite Hrun. cbn [mbind outcome_bind].
  destruct r as [region|]; [|by rewrite Hres]. destruct Hres as (-> & Ho' & Hl' & Hm').
  rewrite IH by (done || lia || (rewrite Ho'; done)). by rewrite Ho'.
Qed.

(** ** Allocation *)

Definition bootstrap_ok (b : BootstrapAllocator) : Prop :=
  ordered false (rev (bs_regions b)) /\ 0 <= bs_offset b <= total (rev (bs_regions b)).

Lemma boot_free_regions_ok b : bootstrap_ok b -> boot_free_regions b = Done ((fun r => MkRegion r Usable) <$> left b).
Proof.
  intros [Ho Hoff]. pose proof (total_ordered _ Ho). unfold boot_free_regions.
  rewrite free_collect_ok; [done|apply Ho|unfold is_usize; cbn; lia|cbn; rewrite length_rev; lia].
Qed.

(** A block is the end of the first region that is left and is large enough;
    smaller ones are given up. *)
Definition allocate_spec (req : Z) (before after : list range) (r : option Z) : Prop :=
  match r with
  | Some frame => exists skip reg rest, before = skip ++ reg :: rest /\ Forall (fun q => len q < req) skip
      /\ frame = r_end reg - req /\ r_start reg <= frame
      /\ after = (if r_start reg =? frame then [] else [Range (r_start reg) frame]) ++ rest
  | None => Forall (fun q => len q < req) before /\ after = []
  end.

Lemma allocate_skip req q before after r : len q < req -> allocate_spec req before after r -> allocate_spec req (q :: before) after r.
Proof.
  intros Hq. destruct r as [frame|]; cbn.
  - intros (skip & reg & rest & -> & Hs & ?). exists (q :: skip), reg, rest. split; [done|]. split; [by constructor|done].
  - intros [Hb ->]. split; [by constructor|done].
Qed.

Lemma bump_Done n b : 0 <= bs_offset b + n < USIZE_MOD -> bump n b = Done (tt, MkBootstrap (bs_regions b) (bs_offset b + n)).
Proof. intros H. unfold bump. by rewrite u_add_Done. Qed.

Lemma bootstrap_loop_ok req l : forall passed offset b,
  0 < req < 2 ^ 63 -> Forall memory_region (passed ++ l) -> total (passed ++ l) <= 2 ^ 63 ->
  0 <= offset -> bs_offset b = total passed + offset -> bs_offset b <= total (passed ++ l) ->
  exists r b', bootstrap_loop req l offset b = Done (r, b') /\ bs_regions b' = bs_regions b
  /\ bs_offset b <= bs_offset b' <= total (passed ++ l)
  /\ allocate_spec req (free_of l offset) (free_of (passed ++ l) (bs_offset b')) r.
Proof.
  induction l as [|region l IH]; intros passed offset b Hreq Hm Htot Ho Hb Hbt.
  { exists None, b. rewrite app_nil_r in *. split_and!; (done || lia || idtac). cbn. rewrite Hb, <- (app_nil_r passed) at 1.
    by rewrite free_of_app. }
  pose proof Hm as [Hmp [Hr Hml]%Forall_cons]%Forall_app. destruct (len_region region Hr) as [Hlen Hl0].
  pose proof (ranges_total_nonneg _ Hmp) as Hp0. pose proof (ranges_total_nonneg _ Hml) as Htl.
  assert (total (passed ++ region :: l) = total passed + len region + total l) as Hsum by (rewrite ranges_total_app, total_cons; lia).
  assert (passed ++ region :: l = (passed ++ [region]) ++ l) as Hshift by (by rewrite <- app_assoc).
  assert (total (passed ++ [region]) = total passed + len region) as Hsnoc by (rewrite ranges_total_app; unfold total; cbn; lia).
  cbn [bootstrap_loop]. step_by Hlen. cbn [free_of]. destruct (Z.ltb_spec offset (len region)) as [Hlt|Hge].
  - replace (len region <=? offset) with false by lia. assert (is_usize (len region - offset)) as Hu by (unfold is_usize; lia).
    step_by (u_sub_Done _ _ Hu). destruct (Z.ltb_spec (len region - offset) req) as [Hsmall|Hfit].
    + step_by (bump_Done (len region - offset) b ltac:(lia)).
      destruct (IH (passed ++ [region]) 0 (MkBootstrap (bs_regions b) (bs_offset b + (len region - offset)))) as (r & b' & Hrun & Hreg & Hoff & Hspec);
        [done|by rewrite <- Hshift|by rewrite <- Hshift|lia|cbn; lia|cbn; rewrite <- Hshift; lia|].
      exists r, b'. rewrite <- Hshift in Hoff, Hspec. cbn [bs_offset bs_regions] in *. split_and!; [done|done|lia|lia|].
      apply allocate_skip; [|done]. unfold len in *. cbn. lia.
    + pose proof Hr as [Hr1 Hr2]. unfold len in Hlen, Hfit. assert (is_usize (offset + req)) as Hu1 by (unfold is_usize, len in *; lia).
      assert (is_usize (r_end region - (offset + req))) as Hu2 by (unfold is_usize, len in *; lia).
      step_by (u_add_Done _ _ Hu1). step_by (u_sub_Done _ _ Hu2). step_by (bump_Done req b ltac:(unfold len in *; lia)).
      eexists _, _. split; [done|]. cbn [bs_regions bs_offset]. split_and!; [done|lia|unfold len in *; lia|].
      exists [], (Range (r_start region) (r_end region - offset)), (free_of l 0). cbn [app r_start r_end].
      split_and!; [done|constructor|lia|lia|].
      replace (bs_offset b + req) with (total passed + (offset + req)) by lia. rewrite free_of_app by (done || lia). cbn [free_of].
      destruct (Z.leb_spec (len region) (offset + req)), (Z.eqb_spec (r_start region) (r_end region - (offset + req))); unfold len in *; try lia; [|done].
      replace (offset + req - (r_end region - r_start region)) with 0 by lia. done.
  - replace (len region <=? offset) with true by lia. assert (is_usize (offset - len region)) as Hu by (unfold is_usize; lia).
    step_by (u_sub_Done _ _ Hu).
    destruct (IH (passed ++ [region]) (offset - len region) b) as (r & b' & Hrun & Hreg & Hoff & Hspec);
      [done|by rewrite <- Hshift|by rewrite <- Hshift|lia|lia|by rewrite <- Hshift|].
    exists r, b'. rewrite <- Hshift in Hoff, Hspec. done.
Qed.

(** ** Early boot *)

(** Layouts the bootstrap allocator accepts. *)
Definition boot_layout (layout : Layout) : Prop := 0 < l_size layout < 2 ^ 62 /\ l_align layout = PAGE_SIZE.

(** The memory of a block. *)
Definition block_of (layout : Layout) (frame : Z) : range := Range frame (frame + l_size (pad_to_align layout)).

(** Allocations during early boot, and the blocks they return. *)
Fixpoint boot_run (layouts : list Layout) : M BootstrapAllocator (list range) :=
  match layouts with
  | [] => mret []
  | layout :: layouts =>
      r ← bootstrap_allocate_contiguous layout;
      rest ← boot_run layouts;
      mret (match r with Some frame => block_of layout frame :: rest | None => rest end)
  end.

Lemma boot_request layout : boot_layout layout -> 0 < l_size (pad_to_align layout) < 2 ^ 63.
Proof.
  intros [Hs Ha]. unfold pad_to_align. cbn. rewrite Ha. destruct (roundup_spec (l_size layout) PAGE_SIZE ltac:(done)) as [? _].
  change PAGE_SIZE with 4096 in *. lia.
Qed.

Lemma bootstrap_allocate_ok layout b :
  bootstrap_ok b -> boot_layout layout ->
  exists r b', bootstrap_allocate_contiguous layout b = Done (r, b') /\ bootstrap_ok b' /\ bs_regions b' = bs_regions b
  /\ allocate_spec (l_size (pad_to_align layout)) (left b) (left b') r.
Proof.
  intros [Ho Hoff] Hl. pose proof (boot_request layout Hl) as Hreq.
  destruct (bootstrap_loop_ok _ (rev (bs_regions b)) [] (bs_offset b) b Hreq) as (r & b' & Hrun & Hreg & Hoff' & Hspec);
    [apply Ho|by apply total_ordered|lia|done|apply Hoff|].
  exists r, b'. unfold bootstrap_allocate_contiguous. rewrite (proj2 Hl), Z.eqb_refl. cbn [app] in *.
  split_and!; [exact Hrun| |done|]; unfold bootstrap_ok, left; rewrite Hreg; [|done]. split; [done|lia].
Qed.

(** Nothing in common. *)
Definition disjoint_ranges (r1 r2 : range) : Prop := r_end r1 <= r_start r2 \/ r_end r2 <= r_start r1.

Lemma left_ordered b : bootstrap_ok b -> ordered false (left b).
Proof. intros [Ho Hoff]. apply free_of_ordered; [done|lia]. Qed.

(** A block is in what was left, and not in what is left afterwards. *)
Lemma allocate_spec_block req before after frame :
  0 < req -> ordered false before -> allocate_spec req before after (Some frame) ->
  (exists q, q ∈ before /\ inside q (Range frame (frame + req)))
  /\ (forall q, q ∈ after -> (exists u, u ∈ before /\ inside u q) /\ disjoint_ranges (Range frame (frame + req)) q).
Proof.
  intros Hreq [_ Hs] (skip & reg & rest & -> & _ & -> & Hle & ->).
  assert (reg ∈ skip ++ reg :: rest) as Hreg by (apply elem_of_app; right; by left).
  split; [exists reg; split; [done|]; unfold inside; cbn; lia|].
  intros q [Hq|Hq]%elem_of_app.
  - destruct (Z.eqb_spec (r_start reg) (r_end reg - req)); [by apply elem_of_nil in Hq|]. apply list_elem_of_singleton in Hq as ->.
    split; [exists reg; split; [done|]; unfold inside; cbn; lia|]. right. cbn. lia.
  - split; [exists q; split; [apply elem_of_app; right; by right|apply inside_refl]|].
    apply StronglySorted_app_1_r in Hs. apply StronglySorted_inv in Hs as [_ Hs]. rewrite Forall_forall in Hs.
    specialize (Hs q Hq). unfold before, disjoint_ranges in *. cbn. lia.
Qed.

Lemma allocate_spec_left req before after r q :
  0 < req -> ordered false before -> allocate_spec req before after r -> q ∈ after -> exists u, u ∈ before /\ inside u q.
Proof.
  intros Hreq Ho Hs Hq. destruct r as [frame|]; [by apply (allocate_spec_block req before after frame)|].
  destruct Hs as [_ ->]. by apply elem_of_nil in Hq.
Qed.

Lemma disjoint_inside r u q : disjoint_ranges r u -> inside u q -> disjoint_ranges r q.
Proof. unfold disjoint_ranges, inside. lia. Qed.

(** The blocks and what is left: in the regions and apart from each other. *)
Record boot_spec (given : list range) (blocks : list range) (after : list range) : Prop := {
  bt_inside : forall r, r ∈ blocks ++ after -> exists u, u ∈ given /\ inside u r;
  bt_apart : ForallOrdPairs disjoint_ranges blocks;
  bt_left : forall r q, r ∈ blocks -> q ∈ after -> disjoint_ranges r q;
}.

Lemma boot_run_ok layouts : forall b, bootstrap_ok b -> Forall boot_layout layouts ->
  exists blocks b', boot_run layouts b = Done (blocks, b') /\ bootstrap_ok b' /\ bs_regions b' = bs_regions b
  /\ boot_spec (left b) blocks (left b').
Proof.
  induction layouts as [|layout layouts IH]; intros b Hb Hl.
  { exists [], b. split_and!; try done. constructor; [|constructor|intros r q Hr; by apply elem_of_nil in Hr].
    intros r Hr. exists r. split; [done|apply inside_refl]. }
  apply Forall_cons in Hl as [Hlay Hl]. pose proof (boot_request layout Hlay) as Hreq.
  destruct (bootstrap_allocate_ok layout b Hb Hlay) as (r & b1 & Hrun & Hb1 & Hreg & Hspec).
  destruct (IH b1 Hb1 Hl) as (blocks & b2 & Hrest & Hb2 & Hreg2 & [Hin Hap Hleft]).
  cbn [boot_run]. step_by Hrun. step_by Hrest. eexists _, b2. split; [done|]. split; [done|]. split; [congruence|].
  assert (forall q, q ∈ blocks ++ left b2 -> exists u, u ∈ left b /\ inside u q) as Hin'.
  { intros q Hq. destruct (Hin q Hq) as (u & Hu & Hui).
    destruct (allocate_spec_left _ _ _ _ u (proj1 Hreq) (left_ordered b Hb) Hspec Hu) as (v & Hv & Hvi). exists v.
    split; [done|by eapply inside_trans]. }
  destruct r as [frame|]; [|by constructor].
  destruct (allocate_spec_block _ _ _ frame (proj1 Hreq) (left_ordered b Hb) Hspec) as [Hblock Hafter].
  assert (forall q, q ∈ blocks ++ left b2 -> disjoint_ranges (block_of layout frame) q) as Hdis.
  { intros q Hq. destruct (Hin q Hq) as (u & Hu & Hui). eapply disjoint_inside; [apply (Hafter u Hu)|done]. }
  constructor.
  - intros q [->|Hq]%elem_of_cons; [exact Hblock|by apply Hin'].
  - constructor; [|done]. apply Forall_forall. intros q Hq. apply Hdis, elem_of_app. by left.
  - intros q q' [->|Hq]%elem_of_cons Hq'; [apply Hdis, elem_of_app; by right|by apply Hleft].
Qed.

Lemma ordered_rev up l : ordered up l -> ordered (negb up) (rev l).
Proof.
  intros [Hm Hs]. split; [by apply Forall_rev|]. induction Hs as [|r l Hs IH Hb]; [constructor|]. apply Forall_cons in Hm as [_ Hm].
  cbn [rev]. apply StronglySorted_app_2; [|by apply IH|repeat constructor]. intros x y Hx Hy.
  apply list_elem_of_singleton in Hy as ->. rewrite Forall_forall in Hb. apply list_elem_of_In, in_rev, list_elem_of_In in Hx.
  specialize (Hb x Hx). by destruct up.
Qed.

Definition frame_range (x : Z) : range := Range x (x + 4096).

(** The memory of the frame allocator after early boot. *)
Record boot_memory {SL : SlotList} (SIZE : Z) (physmap : PhysMap) (usable blocks : list range) (f : KFrames) : Prop := {
  bm_frames : frames_ok SIZE f;
  bm_blocks : forall r, r ∈ blocks -> exists u, u ∈ usable /\ inside u r;
  bm_blocks_apart : ForallOrdPairs disjoint_ranges blocks;
  bm_free : forall x, x ∈ all_free f -> x mod 4096 = 0 /\ exists u, u ∈ usable /\ inside u (frame_range x);
  bm_free_distinct : NoDup (all_free f);
  bm_free_apart : forall x r, x ∈ all_free f -> r ∈ blocks -> disjoint_ranges r (frame_range x);
  bm_slots : forall p y, frame_at SIZE (kf_arenas f) p y -> exists b, p = virt physmap b
    /\ let slot := Range b (b + SIZE) in
       (exists u, u ∈ usable /\ inside u slot)
       /\ (forall r, r ∈ blocks -> disjoint_ranges r slot)
       /\ (forall x, x ∈ all_free f -> disjoint_ranges (frame_range x) slot)
       /\ forall p' y', frame_at SIZE (kf_arenas f) p' y' -> p' <> p ->
            exists b', p' = virt physmap b' /\ disjoint_ranges (Range b' (b' + SIZE)) slot;
}.

(** C13: whatever is allocated during early boot, the blocks are parts of the
    usable memory and do not overlap each other, and the frame allocator that is
    made from the rest is well formed: its frames and the slots of its
    bookkeeping are parts of the usable memory, and blocks, frames and slots do
    not overlap each other. The usable regions are ascending, disjoint and in the
    physical map; the layouts have the alignment of a page. *)
Theorem boot_memory_correct {SL : SlotList} SIZE physmap memory_regions layouts :
  0 < SIZE <= 4096 -> physmap_ok physmap -> ordered true (allocatable_memory_regions memory_regions) ->
  mapped_regions physmap (allocatable_memory_regions memory_regions) -> Forall boot_layout layouts ->
  exists blocks b regions f, boot_run layouts (bootstrap_new (allocatable_memory_regions memory_regions)) = Done (blocks, b)
  /\ boot_free_regions b = Done regions /\ frames_new SIZE regions physmap = Done f
  /\ boot_memory SIZE physmap (allocatable_memory_regions memory_regions) blocks f.
Proof.
  intros HSIZE Hpm Hord Hmap Hl. set (usable := allocatable_memory_regions memory_regions) in *. pose proof (ordered_rev true _ Hord) as Hrev.
  assert (bootstrap_ok (bootstrap_new usable)) as Hb0 by (split; [done|cbn; split; [done|by apply ranges_total_nonneg, Hrev]]).
  destruct (boot_run_ok layouts _ Hb0 Hl) as (blocks & b & Hrun & Hb & Hreg & [Hin Hap Hleft]).
  assert (forall r, r ∈ blocks ++ left b -> exists u, u ∈ usable /\ inside u r) as Hin'.
  { intros r Hr. destruct (Hin r Hr) as (u & Hu & Hui).
    destruct (free_of_inside (rev usable) 0 u (proj1 Hrev) ltac:(lia) Hu) as (v & Hv & Hvi). exists v.
    split; [by apply list_elem_of_In, in_rev, list_elem_of_In|by eapply inside_trans]. }
  set (regions := (fun r => MkRegion r Usable) <$> left b).
  assert (mr_range <$> regions = left b) as Hranges by (unfold regions; rewrite <- list_fmap_compose; apply list_fmap_id).
  assert (mr_range <$> rev regions = rev (left b)) as Hranges' by (rewrite <- Hranges; apply map_rev).
  destruct (frames_new_ok SIZE HSIZE true physmap Hpm regions) as (f & Hnew & Hff).
  { rewrite Hranges'. exact (ordered_rev false _ (left_ordered b Hb)). }
  { rewrite Hranges. apply Forall_forall. intros r Hr. destruct (Hin' r) as (u & Hu & [? ?]); [apply elem_of_app; by right|].
    unfold mapped_regions in Hmap. rewrite Forall_forall in Hmap. specialize (Hmap u Hu). lia. }
  rewrite Hranges in Hff. exists blocks, b, regions, f. split_and!; [done|by apply boot_free_regions_ok|done|].
  constructor; [apply Hff|intros r Hr; apply Hin', elem_of_app; by left|done|..].
  - intros x Hx. destruct (ff_free _ _ _ _ Hff x Hx) as (r & Hr & Hw). destruct (Hin' r) as (u & Hu & Hui); [apply elem_of_app; by right|].
    split; [|exists u; split; [done|]; unfold within, inside, frame_range in *; cbn; lia].
    destruct (all_free_at SIZE f x (ff_ok _ _ _ _ Hff) Hx) as (p & a & _ & (Hmod & _) & _). exact Hmod.
  - apply Hff.
  - intros x r Hx Hr. destruct (ff_free _ _ _ _ Hff x Hx) as (q & Hq & Hw). pose proof (Hleft r q Hr Hq) as Hd.
    unfold disjoint_ranges, within in *. cbn. lia.
  - intros p y Hp. destruct (ff_slots _ _ _ _ Hff p y Hp) as (bb & q & -> & Hq & Hw). exists bb. split; [done|]. cbv zeta. split_and!.
    + destruct (Hin' q) as (u & Hu & Hui); [apply elem_of_app; by right|]. exists u. split; [done|]. unfold within, inside in *. cbn. lia.
    + intros r Hr. pose proof (Hleft r q Hr Hq) as Hd. unfold disjoint_ranges, within in *. cbn. lia.
    + intros x Hx. pose proof (ff_disjoint _ _ _ _ Hff x _ y Hx Hp) as Hd. unfold disjoint_ranges, virt in *. cbn. lia.
    + intros p' y' Hp' Hne. destruct (ff_slots _ _ _ _ Hff p' y' Hp') as (b' & q' & -> & _). exists b'. split; [done|].
      pose proof (frame_at_slots SIZE ltac:(lia) _ _ _ _ _ (fo_apart _ _ (ff_ok _ _ _ _ Hff)) Hp' Hp Hne) as Hd.
      unfold disjoint_ranges, virt in *. cbn. lia.
Qed.
