(* ===== verification/KernelHeap.v ===== *)
(** * The growing kernel heap (sys/kernel/src/allocator.rs)

    The heap is managed by [talc], which asks its source for more memory when an
    allocation does not fit. The source gets it from the frame allocator. *)

From stdpp Require Import base numbers list gmap sorting.
From Stdlib Require Import ZArith Lia.
From S2P Require Import Prelude Address Riscv Arch PhysMap Machine TestAllocator BumpAllocator LoaderRegions KernelSpace KernelFrames KernelBoot.
From S2P Require Import KernelFramesCorrect KernelFramesNew KernelFramesAlloc KernelFramesRun KernelFramesOps KernelFramesInit.

Definition HEAP_GROW_CHUNK_PAGES : Z := 512.
Definition HEAP_DEFAULT_MAX_PAGES : Z := 256 * 1024.
Definition MAX_HEAP_CHUNKS : Z := 1024.
Definition INITIAL_HEAP_SIZE_PAGES : Z := 4096 * 2.

Record HeapChunk : Type := MkChunk { hc_phys_start : Z; hc_virt_start : Z; hc_pages : Z }.

(** Whether the frame allocator is wired up, the cap, the pages claimed, and the
    records of the chunks. *)
Record KernelHeapSource : Type := MkSource {
  hs_frame_alloc : bool;
  hs_max_total_pages : Z;
  hs_total_pages : Z;
  hs_chunks : list HeapChunk;
}.

Definition source_new : KernelHeapSource := MkSource false 0 0 [].

(** [Talc::claim(base, size)]: whether the memory was accepted. *)
Class Talc (T : Type) : Type := claim : Z -> Z -> M T (option unit).

(** Memory of at least [CHUNK_UNIT] bytes, and so of a page, is accepted. *)
Class TalcLaws (T : Type) {talc : Talc T} : Prop :=
  claim_page : forall base size t, 4096 <= size -> exists t', claim base size t = Done (Some tt, t').

(** [usize::saturating_sub] *)
Definition saturating_sub (a b : Z) : Z := Z.max 0 (a - b).

Section heap.
Context {SL : SlotList} {T : Type} `{Talc T} (SIZE : Z) (cpu : Z) (physmap : PhysMap).

Record Heap : Type := MkHeap { h_talc : T; h_source : KernelHeapSource; h_frames : KFrames }.

Definition on_talc {A} (m : M T A) : M Heap A := fun h =>
  match m (h_talc h) with
  | Done (a, t) => Done (a, MkHeap t (h_source h) (h_frames h))
  | Panicked => Panicked
  | Undefined => Undefined
  end.
Definition on_kframes {A} (m : M KFrames A) : M Heap A := fun h =>
  match m (h_frames h) with
  | Done (a, f) => Done (a, MkHeap (h_talc h) (h_source h) f)
  | Panicked => Panicked
  | Undefined => Undefined
  end.
Definition get_source : M Heap KernelHeapSource := fun h => Done (h_source h, h).
Definition set_source (s : KernelHeapSource) : M Heap unit := fun h => Done (tt, MkHeap (h_talc h) s (h_frames h)).

(** [layout.size().saturating_add(layout.align() - 1).div_ceil(PAGE_SIZE).saturating_add(1)] *)
Definition needed_pages (layout : Layout) : outcome Z :=
  slack ← u_sub (l_align layout) 1;
  mret (saturating_add (div_ceil (saturating_add (l_size layout) slack) PAGE_SIZE) 1).

(** The pages to ask for. *)
Definition want_pages (needed max_total total : Z) : outcome Z :=
  let want := Z.max needed HEAP_GROW_CHUNK_PAGES in
  if negb (max_total =? 0) then remaining ← u_sub max_total total; mret (Z.min want remaining) else mret want.

(** [want_pages.checked_mul(PAGE_SIZE)] and [Layout::from_size_align] *)
Definition chunk_layout (want : Z) : option Layout :=
  if want * PAGE_SIZE <? USIZE_MOD then layout_from_size_align (want * PAGE_SIZE) PAGE_SIZE else None.

Definition acquire (layout : Layout) : M Heap (result unit unit) :=
  source ← get_source;
  if negb (hs_frame_alloc source) then mret (Err tt)
  else if MAX_HEAP_CHUNKS <=? Z.of_nat (length (hs_chunks source)) then mret (Err tt)
  else
    let max_total := hs_max_total_pages source in
    let total := hs_total_pages source in
    needed ← lift (needed_pages layout);
    if negb (max_total =? 0) && (saturating_sub max_total total <? needed) then mret (Err tt)
    else
      want ← lift (want_pages needed max_total total);
      match chunk_layout want with
      | None => mret (Err tt)
      | Some chunk_layout =>
          frames <-? on_kframes (alloc_contiguous SIZE cpu chunk_layout);
          first ← lift (match slist_iter frames with p :: _ => Done p | [] => Panicked end);
          phys_start ← on_kframes (frame_addr first);
          virt_start ← lift (phys_to_virt physmap phys_start);
          let pages := slist_len frames in
          bytes ← lift (u_mul pages PAGE_SIZE);
          claimed ← on_talc (claim virt_start bytes);
          match claimed with
          | None => mret (Err tt)
          | Some _ =>
              _ ← set_source (MkSource (hs_frame_alloc source) max_total (saturating_add total pages)
                                (hs_chunks source ++ [MkChunk phys_start virt_start pages]));
              mret (Ok tt)
          end
      end.

(** [late_init]: a cap of zero pages is no cap. *)
Definition late_init (heap_max_bytes : option Z) : M Heap unit :=
  source ← get_source;
  let max_total_pages := match heap_max_bytes with Some bytes => bytes / PAGE_SIZE | None => HEAP_DEFAULT_MAX_PAGES end in
  set_source (MkSource true max_total_pages (hs_total_pages source) (hs_chunks source)).

(** [init]: the first heap, from the bootstrap allocator. *)
Definition heap_init (t : T) (source : KernelHeapSource) : M BootstrapAllocator (T * KernelHeapSource) :=
  layout ← lift (match layout_from_size_align (INITIAL_HEAP_SIZE_PAGES * PAGE_SIZE) PAGE_SIZE with Some l => Done l | None => Panicked end);
  r ← bootstrap_allocate_contiguous layout;
  phys ← lift (match r with Some phys => Done phys | None => Panicked end);
  start ← lift (phys_to_virt physmap phys);
  virt ← lift (range_from_start_len start (l_size layout));
  n ← lift (range_len virt);
  claimed ← lift (claim (r_start virt) n t);
  _ ← lift (assert_ (match claimed.1 with Some _ => true | None => false end));
  mret (claimed.2, MkSource (hs_frame_alloc source) (hs_max_total_pages source) INITIAL_HEAP_SIZE_PAGES
                     (hs_chunks source ++ [MkChunk phys (r_start virt) INITIAL_HEAP_SIZE_PAGES])).
End heap.

Arguments MkHeap {SL T}.
Arguments h_talc {SL T}.
Arguments h_source {SL T}.
Arguments h_frames {SL T}.

(** ** Correctness *)

Section correct.
Context {SL : SlotList} {T : Type} {talc : Talc T} {laws : TalcLaws T} (SIZE : Z) (HSIZE : 0 < SIZE) (cpu : Z) (physmap : PhysMap) (Hpm : physmap_ok physmap).
Implicit Types (h : Heap (T := T)).

(** Layouts of the standard library. *)
Definition std_layout (layout : Layout) : Prop := 0 <= l_size layout < 2 ^ 63 /\ 1 <= l_align layout < 2 ^ 63.

Lemma needed_pages_ok layout :
  std_layout layout -> exists n, needed_pages layout = Done n /\ l_size layout + (l_align layout - 1) <= (n - 1) * 4096 /\ 1 <= n <= 2 ^ 52 + 1.
Proof.
  intros [Hs Ha]. unfold needed_pages. rewrite u_sub_Done by (unfold is_usize; lia). cbn [mbind outcome_bind].
  unfold saturating_add. rewrite (Z.min_l (l_size layout + _)) by lia. unfold div_ceil. change PAGE_SIZE with 4096.
  set (x := l_size layout + (l_align layout - 1)). assert (0 <= x < 2 ^ 64 - 1) as Hx by (unfold x; lia).
  pose proof (Z.div_mod (x + 4096 - 1) 4096 ltac:(lia)). pose proof (Z.mod_pos_bound (x + 4096 - 1) 4096 ltac:(lia)).
  exists ((x + 4096 - 1) / 4096 + 1). split; [f_equal; apply Z.min_l; lia|]. lia.
Qed.

Lemma want_pages_ok needed max_total total :
  1 <= needed <= 2 ^ 52 + 1 -> is_usize max_total -> is_usize total -> (max_total = 0 \/ needed <= max_total - total) ->
  exists n, want_pages needed max_total total = Done n /\ needed <= n <= 2 ^ 52 + 1 /\ (max_total = 0 \/ total + n <= max_total).
Proof.
  intros Hn Hm Ht Hcap. unfold want_pages. pose proof (Z.le_max_l needed HEAP_GROW_CHUNK_PAGES).
  assert (Z.max needed HEAP_GROW_CHUNK_PAGES <= 2 ^ 52 + 1) by (unfold HEAP_GROW_CHUNK_PAGES; lia).
  destruct (Z.eqb_spec max_total 0) as [->|Hne]; cbn [negb].
  - eexists. split; [done|]. lia.
  - unfold is_usize in *. rewrite u_sub_Done by (unfold is_usize; lia). eexists. split; [done|]. lia.
Qed.

Lemma chunk_layout_ok want :
  1 <= want -> match chunk_layout want with
  | Some l => layout_ok l /\ l_size l / 4096 = want /\ l_align l = 4096 /\ want < 2 ^ 51
  | None => True
  end.
Proof.
  intros Hw. unfold chunk_layout, layout_from_size_align. change PAGE_SIZE with 4096. destruct (_ <? _); [|done].
  destruct (_ && _) eqn:Hb; [|done]. apply andb_prop in Hb as [_ Hle]. split_and!; [|by apply Z.div_mul|done|lia].
  split; [cbn; lia|]. exists 12. split; [lia|done].
Qed.

(** Every frame is mapped. *)
Definition frames_mapped (f : KFrames) : Prop := forall p x, frame_at SIZE (kf_arenas f) p x -> within (range_phys physmap) x 4096.

(** What growing the heap does: a run of frames that were free is claimed, which
    has room for the layout and a page to spare, and the cap is kept. *)
Definition grown (layout : Layout) h h' : Prop :=
  let s := h_source h in
  exists x n, allocated SIZE (h_frames h) (h_frames h') (run x n)
  /\ l_size layout + (l_align layout - 1) + 4096 <= n * 4096
  /\ (hs_max_total_pages s = 0 \/ hs_total_pages s + n <= hs_max_total_pages s)
  /\ claim (virt physmap x) (n * 4096) (h_talc h) = Done (Some tt, h_talc h')
  /\ h_source h' = MkSource (hs_frame_alloc s) (hs_max_total_pages s) (saturating_add (hs_total_pages s) n)
                     (hs_chunks s ++ [MkChunk x (virt physmap x) n]).

Lemma on_kframes_Done {A} (m : M KFrames A) h a f : m (h_frames h) = Done (a, f) -> on_kframes m h = Done (a, MkHeap (h_talc h) (h_source h) f).
Proof. intros Hm. unfold on_kframes. by rewrite Hm. Qed.

Lemma on_talc_Done {A} (m : M T A) h a t : m (h_talc h) = Done (a, t) -> on_talc m h = Done (a, MkHeap t (h_source h) (h_frames h)).
Proof. intros Hm. unfold on_talc. by rewrite Hm. Qed.

Lemma heap_eta h : MkHeap (h_talc h) (h_source h) (h_frames h) = h.
Proof. by destruct h. Qed.

(** The first of the frames that were allocated. *)
Lemma first_frame f ptrs x n :
  frames_ok SIZE f -> frames_mapped f -> 1 <= n -> Forall2 (free_ptr SIZE f) ptrs (run x n) ->
  exists p rest, ptrs = p :: rest /\ frame_addr p f = Done (x, f) /\ Z.of_nat (length ptrs) = n
  /\ phys_to_virt physmap x = Done (virt physmap x).
Proof.
  intros Hf Hm Hn Hp. pose proof (Forall2_length _ _ _ Hp) as Hlen. pose proof (length_run x n ltac:(lia)) as Hrl.
  replace n with (1 + (n - 1)) in Hp at 1 by lia. rewrite run_app in Hp by lia. rewrite run_1 in Hp. cbn [app] in Hp.
  apply Forall2_cons_inv_r in Hp as (p & rest & [Hat Hs] & _ & ->). exists p, rest.
  split_and!; [done|by apply (frame_addr_ok f p 0 x)|lia|]. destruct (Hm p x Hat) as [? ?].
  apply phys_to_virt_Done; [done|]. unfold range_contains. apply andb_true_iff. lia.
Qed.

(** C14: when the heap asks for memory, its source returns. If it grows, it claims
    the mapped memory of consecutive frames that were free, large enough for the
    layout at any alignment with a page to spare; the pages are counted, the
    chunk is recorded, and the total never exceeds the cap. If it does not grow,
    nothing has changed. *)
Theorem acquire_correct layout h :
  std_layout layout -> frames_ok SIZE (h_frames h) -> frames_mapped (h_frames h) ->
  is_usize (hs_max_total_pages (h_source h)) -> is_usize (hs_total_pages (h_source h)) ->
  exists r h', acquire SIZE cpu physmap layout h = Done (r, h')
  /\ match r with Ok _ => grown layout h h' | Err _ => h' = h end.
Proof.
  intros Hlay Hf Hmap Hmax Htot. unfold acquire, grown. set (s := h_source h) in *.
  assert (get_source h = Done (s, h)) as Hget by done. step_by Hget.
  destruct (hs_frame_alloc s) eqn:Hfa; cbn [negb]; [|by exists (Err tt), h].
  destruct (_ <=? _); [by exists (Err tt), h|].
  destruct (needed_pages_ok layout Hlay) as (needed & Hneeded & Hroom & Hnb). step_by Hneeded.
  destruct (negb (hs_max_total_pages s =? 0) && _) eqn:Hcap; [by exists (Err tt), h|].
  destruct (want_pages_ok needed (hs_max_total_pages s) (hs_total_pages s) Hnb Hmax Htot) as (want & Hwant & Hwb & Hwcap).
  { unfold saturating_sub in Hcap. destruct (Z.eqb_spec (hs_max_total_pages s) 0) as [|Hne]; [by left|right]. cbn in Hcap. lia. }
  step_by Hwant. pose proof (chunk_layout_ok want ltac:(lia)) as Hcl. destruct (chunk_layout want) as [cl|]; [|by exists (Err tt), h].
  destruct Hcl as (Hlok & Hsize & Halign & Hw51).
  destruct (alloc_contiguous_ok SIZE HSIZE cpu cl (h_frames h) Hf Hlok) as (r & f & Hrun & Hres).
  pose proof (on_kframes_Done _ h _ _ Hrun) as Hrun'. destruct r as [ptrs|e].
  2: { destruct Hres as [-> _]. rewrite heap_eta in Hrun'. erewrite try_bind_Err by exact Hrun'. by exists (Err e), h. }
  step_by Hrun'. destruct Hres as (x & _ & Hal & Hptrs). rewrite Hsize in Hal, Hptrs.
  assert (frames_mapped f) as Hmap' by (intros p y Hp; apply (Hmap p), (al_at _ _ _ _ Hal p y), Hp).
  destruct (first_frame f _ x want (al_ok _ _ _ _ Hal) Hmap' ltac:(lia) Hptrs) as (p & rest & Hfirst & Haddr & Hlen & Hvirt).
  rewrite slist_len_spec, Hlen, Hfirst. step. step_by (on_kframes_Done _ (MkHeap (h_talc h) s f) _ _ Haddr). step_by Hvirt.
  assert (is_usize (want * PAGE_SIZE)) as Hu by (unfold is_usize; change PAGE_SIZE with 4096; lia). step_by (u_mul_Done _ _ Hu).
  destruct (claim_page (virt physmap x) (want * PAGE_SIZE) (h_talc h)) as (t & Hclaim); [change PAGE_SIZE with 4096; lia|].
  step_by (on_talc_Done _ (MkHeap (h_talc h) s f) _ _ Hclaim). eexists (Ok tt), _. split; [done|].
  exists x, want. cbn [h_frames h_talc h_source]. split_and!; [done|lia|done|done|done].
Qed.
End correct.
