(* ===== verification/KernelFramesDemo.v ===== *)
(** * The kernel's memory on a small machine

    Two regions of memory, the frame allocator made for them, and the page tables
    and the heap of the kernel on top of it. The theorems on these components
    apply to it; the examples show what the operations do outside of the
    conditions of these theorems. *)

From stdpp Require Import base numbers list gmap sets sorting.
From Stdlib Require Import ZArith Lia.
From S2P Require Import Prelude Address Riscv Arch PhysMap Machine Table PageTable Walk TableOps Demo.
From S2P Require Import LoaderRegions KernelSpace KernelPaging KernelPagingCorrect KernelNew KernelFrames.
From S2P Require Import KernelFramesCorrect KernelFramesNew KernelFramesSelect KernelFramesAlloc KernelFramesRun KernelFramesOps.
From S2P Require Import KernelFramesInit KernelFramesTrace KernelTables KernelBoot KernelBootCorrect KernelHeap.

(** Lists as the sequences of their elements. *)
#[export] Program Instance plain_slots : SlotList := {|
  slist := list Z;
  slist_new := [];
  slist_iter l := l;
  slist_len l := Z.of_nat (length l);
  push_back p l := l ++ [p];
  pop_back l := match last l with Some p => Some (p, removelast l) | None => None end;
  pop_front l := match l with p :: l => Some (p, l) | [] => None end;
  slist_append l l' := l ++ l';
  slist_split_off n l := (take n l, drop n l);
  slist_from_iter l := l;
|}.
Next Obligation. done. Qed.
Next Obligation. done. Qed.
Next Obligation. done. Qed.
Next Obligation.
  intros l. cbn. destruct (last l) as [p|] eqn:Hl; [|by apply last_None].
  apply last_Some in Hl as [l' ->]. by rewrite removelast_last.
Qed.
Next Obligation. by intros []. Qed.
Next Obligation. done. Qed.
Next Obligation. done. Qed.
Next Obligation. done. Qed.

(** Eight frames and, after a hole, seven more. A slot takes 40 bytes. *)
Definition fdemo_regions : list MemoryRegion :=
  [MkRegion (Range 0x80000000 0x80008000) Usable; MkRegion (Range 0x80009000 0x80010000) Usable].

Definition fdemo : KFrames :=
  match frames_new 40 fdemo_regions demo_physmap with Done f => f | _ => MkFrames ∅ [] ∅ 0 end.

(** One arena: of its sixteen frames, one is the hole and one has the slots. *)
Example fdemo_free : length (all_free fdemo) = 14%nat /\ length (kf_arenas fdemo) = 1%nat.
Proof. by vm_compute. Qed.

Lemma fdemo_ordered : ordered false (mr_range <$> rev fdemo_regions).
Proof. split; repeat constructor; unfold memory_region, before; cbn; lia. Qed.

Lemma fdemo_mapped : mapped_regions demo_physmap (mr_range <$> fdemo_regions).
Proof. repeat constructor; by vm_compute. Qed.

Lemma demo_physmap_ok : physmap_ok demo_physmap.
Proof. split; by vm_compute. Qed.

Lemma fdemo_fresh : fresh_frames 40 demo_physmap (mr_range <$> fdemo_regions) fdemo.
Proof.
  destruct (frames_new_ok 40 ltac:(lia) false demo_physmap demo_physmap_ok fdemo_regions fdemo_ordered fdemo_mapped) as (f & Hnew & Hff).
  unfold fdemo. rewrite Hnew. exact Hff.
Qed.

(** ** Frames *)

(** Two allocations, a second reference, three drops. *)
Definition fdemo_ops (p : Z) : list frame_op :=
  [AllocOne 0; AllocOne 1; CloneFrame p; DropFrame 0 p; DropFrame 0 p; DropFrame 1 p].

Lemma frames_conserved_witness :
  exists f0 f held, frames_new 40 fdemo_regions demo_physmap = Done f0 /\ run_ops 40 (fdemo_ops 0) f0 ∅ = Done (f, held)
  /\ NoDup (all_free f0) /\ all_free f0 ≡ₚ held_frames f held ++ all_free f.
Proof.
  destruct (frames_conserved 40 demo_physmap false fdemo_regions (fdemo_ops 0) ltac:(lia) demo_physmap_ok fdemo_ordered fdemo_mapped ltac:(by vm_compute))
    as (f0 & f & held & Hnew & Hrun & Hnd & Hall & _).
  exists f0, f, held. exact (conj Hnew (conj Hrun (conj Hnd Hall))).
Defined.

Lemma alloc_contiguous_correct_witness :
  exists r f', alloc_contiguous 40 0 (MkLayout 0x2000 0x2000) fdemo = Done (r, f')
  /\ alloc_contiguous_spec 40 0 (MkLayout 0x2000 0x2000) fdemo r f'.
Proof.
  apply (alloc_contiguous_correct 40 ltac:(lia)); [exact (ff_ok _ _ _ _ fdemo_fresh)|].
  split; [cbn; lia|]. exists 13. split; [lia|done].
Defined.

Lemma boot_memory_correct_witness :
  let usable := allocatable_memory_regions fdemo_regions in
  exists blocks b regions f, boot_run [MkLayout 0x2000 0x1000; MkLayout 0x6000 0x1000] (bootstrap_new usable) = Done (blocks, b)
  /\ boot_free_regions b = Done regions /\ frames_new 40 regions demo_physmap = Done f /\ boot_memory 40 demo_physmap usable blocks f.
Proof.
  apply (boot_memory_correct 40 demo_physmap fdemo_regions); [lia|exact demo_physmap_ok| |exact fdemo_mapped|].
  - split; repeat constructor; unfold memory_region, before; cbn; lia.
  - repeat constructor; cbn; lia.
Defined.

(** ** Page tables *)

Definition tdemo_world : world KFrames := World (w_mem demo_world) (w_hart demo_world) fdemo.

Definition tdemo_laws : FrameAllocatorLaws (@GRANULE_SIZE kernel_arch) KFrames (fa := single_frames 40 0) :=
  single_frames_laws 40 ltac:(lia) 0 demo_ram.

Lemma fdemo_memory p x : frame_at 40 (kf_arenas fdemo) p x -> within demo_ram x 4096.
Proof.
  intros (a & Ha & (_ & H1 & H2) & _).
  assert (forallb (fun a => (r_start demo_ram <=? r_start (ar_range a)) && (r_end (ar_range a) <=? r_end demo_ram)) (kf_arenas fdemo) = true)
    as Hall by by vm_compute.
  rewrite forallb_forall in Hall. apply list_elem_of_In in Ha. specialize (Hall a Ha). apply andb_prop in Hall as [? ?].
  unfold within. lia.
Qed.

Lemma tdemo_used : frames_used 40 demo_ram fdemo ∅.
Proof. constructor; [apply (ff_ok _ _ _ _ fdemo_fresh)|exact fdemo_memory|]. intros x Hx. by apply elem_of_empty in Hx. Qed.

Lemma tdemo_platform : @platform_ok kernel_arch kernel_laws KFrames (single_frames 40 0) tdemo_laws demo_physmap.
Proof. split; [exact demo_physmap_ok|..]; by vm_compute. Qed.

Lemma tdemo_mem_ok : @mem_ok kernel_arch KFrames (single_frames 40 0) tdemo_laws demo_physmap (w_mem tdemo_world).
Proof. exact demo_mem_ok. Qed.

(** The active address space: an empty root table. *)
Definition active_space (o : outcome (result unit Z * world KFrames)) : KMachine KFrames :=
  match o with
  | Done (Ok root, w) => MkKMachine (World (w_mem w) (Hart (root / 4096) []) (w_frames w)) (MkKAspace root [root] 0)
  | _ => MkKMachine tdemo_world (MkKAspace 0 [] 0)
  end.
Definition tdemo : KMachine KFrames := active_space (@alloc_table KFrames (kernel_tables 40 0) demo_physmap tdemo_world).

Lemma tdemo_ok :
  kspace_ok (fal := tdemo_laws) demo_physmap ∅ tdemo /\ active tdemo /\ root tdemo <> 0.
Proof.
  assert (Hact : (wrap (Z.shiftl (satp_ppn (csr_satp (w_hart (km_world tdemo)))) 12) =? root tdemo) && negb (root tdemo =? 0) = true)
    by by vm_compute.
  unfold active. revert Hact. unfold tdemo.
  destruct (@alloc_table KFrames (kernel_tables 40 0) demo_physmap tdemo_world) as [[[p|] w]| |] eqn:Hrun;
    [|by intros [_ ?]%andb_prop..].
  intros [Hact%Z.eqb_eq Hnz%negb_true_iff%Z.eqb_neq]%andb_prop. split; [|exact (conj Hact Hnz)].
  pose proof (kernel_tables_laws 40 ltac:(lia) 0 demo_ram demo_physmap tdemo_platform) as Hlaws.
  exact (proj1 (fresh_space demo_physmap tdemo_world ∅ p w 0 tdemo_mem_ok tdemo_used Hrun)).
Qed.

(** A page that is mapped in the new space. *)
Lemma kernel_tables_on_frames_witness :
  exists r w', @kaspace_new KFrames (kernel_tables 40 0) demo_physmap 1 (km_world tdemo) = Done (r, w')
  /\ match r with
     | Ok (space, flush) => exists r k' mid,
         @kmap_contiguous KFrames (kernel_tables 40 0) demo_physmap 0x40000000 0x90000000 0x3000 (Z.lor K_READ K_WRITE) flush (MkKMachine w' space) = Done (r, k')
         /\ match r with Ok _ => mid = 0x40000000 + 0x3000 | Err _ => 0x40000000 <= mid < 0x40000000 + 0x3000 end
     | Err _ => no_frame_left 0 (w_frames w')
     end.
Proof.
  destruct tdemo_ok as (Hk & Hact & Hnz).
  destruct (kernel_tables_on_frames 40 ltac:(lia) 0 demo_ram demo_physmap tdemo ∅ 1 tdemo_platform ltac:(by vm_compute) Hk Hact Hnz)
    as (r & w' & Hrun & Hr).
  exists r, w'. split; [exact Hrun|]. destruct r as [[space flush]|e]; [|exact (proj1 Hr)].
  destruct Hr as (_ & _ & _ & _ & _ & A' & _ & _ & Hmap).
  destruct (Hmap 0x40000000 0x90000000 0x3000 (Z.lor K_READ K_WRITE)) as (r & k' & mid & Hrun' & _ & Hr).
  - constructor; repeat split; by vm_compute.
  - reflexivity.
  - reflexivity.
  - by vm_compute.
  - exists r, k', mid. split; [exact Hrun'|]. destruct r as [f'|f']; exact (proj1 Hr).
Defined.

(** ** The heap *)

(** A heap that records what it is given. *)
#[local] Instance list_talc : Talc (list (Z * Z)) := fun base size t =>
  if 4096 <=? size then Done (Some tt, (base, size) :: t) else Done (None, t).

#[local] Instance list_talc_laws : TalcLaws (list (Z * Z)).
Proof. intros base size t Hs. exists ((base, size) :: t). unfold claim, list_talc. by rewrite (proj2 (Z.leb_le _ _) Hs). Qed.

(** Two pages are left of the cap. *)
Definition hdemo : Heap (T := list (Z * Z)) := MkHeap [] (MkSource true 8194 8192 []) fdemo.

Lemma acquire_correct_witness :
  exists r h', acquire 40 0 demo_physmap (MkLayout 100 8) hdemo = Done (r, h')
  /\ match r with Ok _ => grown 40 demo_physmap (MkLayout 100 8) hdemo h' | Err _ => h' = hdemo end.
Proof.
  apply (acquire_correct 40 ltac:(lia) 0 demo_physmap demo_physmap_ok (MkLayout 100 8) hdemo).
  - split; cbn; lia.
  - exact (ff_ok _ _ _ _ fdemo_fresh).
  - exact fdemo_memory.
  - by vm_compute.
  - by vm_compute.
Defined.

(** ** Concrete runs *)

(** The heap grows by the two pages that are left, and is then full. *)
Definition pages_after (o : outcome (result unit unit * Heap (T := list (Z * Z)))) : option (bool * Z) :=
  match o with Done (Ok _, h) => Some (true, hs_total_pages (h_source h)) | Done (Err _, h) => Some (false, hs_total_pages (h_source h)) | _ => None end.

Example heap_grows_to_cap :
  pages_after (acquire 40 0 demo_physmap (MkLayout 100 8) hdemo) = Some (true, 8194)
  /\ pages_after (acquire 40 0 demo_physmap (MkLayout 5000 8) hdemo) = Some (false, 8192).
Proof. by vm_compute. Qed.

(** A cap of less than a page is no cap. *)
Definition cap_after (o : outcome (unit * Heap (T := list (Z * Z)))) : option Z :=
  match o with Done (_, h) => Some (hs_max_total_pages (h_source h)) | _ => None end.

Example small_cap_is_none : cap_after (late_init (Some 100) hdemo) = Some 0.
Proof. by vm_compute. Qed.

(** How many frames an allocation returns. *)
Definition frames_after (o : outcome (result unit (list Z) * KFrames)) : option nat :=
  match o with Done (Ok frames, _) => Some (length frames) | _ => None end.

(** A page and a half gets one frame. *)
Example odd_layout_short : frames_after (alloc_contiguous 40 0 (MkLayout 6144 4096) fdemo) = Some 1%nat.
Proof. by vm_compute. Qed.

(** Memory full of ones. *)
Definition dirty_world : world KFrames :=
  World ((fun _ => 2 ^ 64 - 1) <$> w_mem demo_world) (w_hart demo_world) fdemo.

(** The first two words of the memory of a run. *)
Definition words_after (o : outcome (result unit (list Z) * world KFrames)) : option (option Z * option Z) :=
  match o with
  | Done (Ok (p :: _), w) => match kf_slots (w_frames w) !! p with
      | Some i => let v := virt demo_physmap (fi_addr i) in Some (w_mem w !! v, w_mem w !! (v + 8))
      | None => None
      end
  | _ => None
  end.

(** Of two frames that should be zeroed, two bytes are. *)
Example zeroed_run_short :
  words_after (alloc_contiguous_zeroed 40 0 (MkLayout 0x2000 0x1000) demo_physmap dirty_world)
  = Some (Some (2 ^ 64 - 2 ^ 16), Some (2 ^ 64 - 1)).
Proof. by vm_compute. Qed.

Definition panics {A} (o : outcome A) : bool := match o with Panicked => true | _ => false end.

(** A region at the physical address zero cannot be used. *)
Example region_at_zero_panics :
  panics (frames_new 40 [MkRegion (Range 0 0x10000) Usable] (MkPhysMap 0x1000000 (Range 0 0x10000) (Range 0x1000000 0x1010000))) = true.
Proof. by vm_compute. Qed.

(** After a request that does not fit, the bootstrap allocator has nothing left. *)
Definition boot_after (o : outcome (list range * BootstrapAllocator)) : option (list range * Z) :=
  match o with Done (blocks, b) => Some (blocks, bs_offset b) | _ => None end.

Example bootstrap_failure_uses_all :
  boot_after (boot_run [MkLayout 0x9000 0x1000; MkLayout 0x1000 0x1000] (bootstrap_new (allocatable_memory_regions fdemo_regions)))
  = Some ([], 0xf000).
Proof. by vm_compute. Qed.
