(* ===== verification/Fdt.v ===== *)
(** * The flattened device tree (lib/fdt/src/parser.rs, lib.rs)

    The blob is a slice of 32-bit words in the byte order of the machine, which
    is little-endian; its contents are big-endian. *)

From stdpp Require Import base numbers list.
From Stdlib Require Import ZArith Lia.
From S2P Require Import Prelude.

(** ** Words and bytes *)

(** [u32::to_ne_bytes] *)
Definition u32_bytes (w : Z) : list Z := [w mod 256; (w / 2 ^ 8) mod 256; (w / 2 ^ 16) mod 256; (w / 2 ^ 24) mod 256].

(** The words of a slice as bytes. *)
Definition bytes_of (words : list Z) : list Z := words ≫= u32_bytes.

(** [from_be_bytes] *)
Definition be_value (l : list Z) : Z := foldl (fun n b => n * 256 + b) 0 l.

(** [u32::from_be], [u32::to_be] *)
Definition from_be (w : Z) : Z := be_value (u32_bytes w).
Definition to_be (n : Z) : Z := from_be n.

(** [slice.get(a..b)], [slice.get(a..)] *)
Definition slice_get (a b : Z) (l : list Z) : option (list Z) :=
  if (a <=? b) && (b <=? Z.of_nat (length l)) then Some (take (Z.to_nat (b - a)) (drop (Z.to_nat a) l)) else None.
Definition slice_from (a : Z) (l : list Z) : option (list Z) :=
  if a <=? Z.of_nat (length l) then Some (drop (Z.to_nat a) l) else None.

(** [CStr::from_bytes_until_nul]: the bytes before the first NUL. *)
Fixpoint until_nul (l : list Z) : option (list Z) :=
  match l with
  | [] => None
  | b :: l => if b =? 0 then Some [] else match until_nul l with Some s => Some (b :: s) | None => None end
  end.

(** [str::from_utf8] *)
Definition byte_in (a b x : Z) : bool := (a <=? x) && (x <=? b).
Definition utf8_second_of_3 (a b : Z) : bool :=
  if a =? 0xe0 then byte_in 0xa0 0xbf b else if a =? 0xed then byte_in 0x80 0x9f b else byte_in 0xe1 0xef a && byte_in 0x80 0xbf b.
Definition utf8_second_of_4 (a b : Z) : bool :=
  if a =? 0xf0 then byte_in 0x90 0xbf b else if a =? 0xf4 then byte_in 0x80 0x8f b else byte_in 0xf1 0xf3 a && byte_in 0x80 0xbf b.
Fixpoint valid_utf8 (l : list Z) : bool :=
  match l with
  | [] => true
  | a :: l =>
      if a <? 0x80 then valid_utf8 l
      else match l with
      | [] => false
      | b :: l =>
          if byte_in 0xc2 0xdf a then byte_in 0x80 0xbf b && valid_utf8 l
          else match l with
          | [] => false
          | c :: l =>
              if byte_in 0xe0 0xef a then utf8_second_of_3 a b && byte_in 0x80 0xbf c && valid_utf8 l
              else match l with
              | [] => false
              | d :: l => utf8_second_of_4 a b && byte_in 0x80 0xbf c && byte_in 0x80 0xbf d && valid_utf8 l
              end
          end
      end
  end.

(** [str::split_once(c)] *)
Fixpoint split_once (c : Z) (l : list Z) : option (list Z * list Z) :=
  match l with
  | [] => None
  | b :: l => if b =? c then Some ([], l) else match split_once c l with Some (x, y) => Some (b :: x, y) | None => None end
  end.
(** [str::split(c)] *)
Fixpoint split (c : Z) (l : list Z) : list (list Z) :=
  match l with
  | [] => [[]]
  | b :: l => if b =? c then [] :: split c l
              else match split c l with x :: r => (b :: x) :: r | [] => [[b]] end
  end.

(** ** The parser *)

Inductive FdtError : Type :=
  | UnexpectedEof
  | InvalidUtf8
  | InvalidCStr
  | InvalidToken (t : Z)
  | UnexpectedToken (t : Z)
  | NumericConversion
  | TryFromSlice
  | SliceTooSmall
  | BadMagic
  | InvalidPropertyValue
  | InvalidCellSize
  | InvalidPath.

Abbreviation res := (result FdtError).

Definition BEGIN_NODE : Z := to_be 1.
Definition END_NODE : Z := to_be 2.
Definition PROP : Z := to_be 3.
Definition NOP : Z := to_be 4.
Definition END : Z := to_be 9.

Record CellSizes : Type := MkCells { address_cells : Z; size_cells : Z }.
Definition default_cells : CellSizes := MkCells 2 1.

Record Parser : Type := MkParser { ps_stream : list Z; ps_strings : list Z; ps_structs : list Z }.

Definition with_stream (s : list Z) (p : Parser) : Parser := MkParser s (ps_strings p) (ps_structs p).
Definition set_stream (s : list Z) : M Parser unit := fun p => Done (tt, with_stream s p).
Definition get_parser : M Parser Parser := fun p => Done (p, p).
Definition parser_data : M Parser (list Z) := p ← get_parser; mret (ps_stream p).

Definition ok_or {A} (e : FdtError) (o : option A) : res A := match o with Some a => Ok a | None => Err e end.

(** [Stream::advance], [Stream::skip_many] *)
Definition stream_advance : M Parser (option Z) := fun p =>
  match ps_stream p with [] => Done (None, p) | w :: s => Done (Some w, with_stream s p) end.
Definition skip_many (n : Z) : M Parser unit := fun p => Done (tt, with_stream (default [] (slice_from n (ps_stream p))) p).

Definition is_token (t : Z) : bool := (t =? BEGIN_NODE) || (t =? END_NODE) || (t =? PROP) || (t =? END).

Fixpoint advance_token_loop (s : list Z) : res Z * list Z :=
  match s with
  | [] => (Err UnexpectedEof, [])
  | w :: s => if w =? NOP then advance_token_loop s else if is_token w then (Ok w, s) else (Err (InvalidToken w), s)
  end.
Definition advance_token : M Parser (res Z) := fun p =>
  let r := advance_token_loop (ps_stream p) in Done (r.1, with_stream r.2 p).
Definition peek_token : M Parser (res Z) := fun p => Done ((advance_token_loop (ps_stream p)).1, p).

Definition advance_u32 : M Parser (res Z) := r ← stream_advance; mret (ok_or UnexpectedEof r).

(** [((n + 3) & !3) / 4] *)
Definition words_for (n : Z) : Z := Z.land (n + 3) (u_not 3) / 4.

Definition advance_cstr : M Parser (res (list Z)) :=
  data ← parser_data;
  match until_nul (bytes_of data) with
  | None => mret (Err InvalidCStr)
  | Some s => _ ← skip_many (words_for (Z.of_nat (length s) + 1)); mret (Ok s)
  end.
Definition advance_aligned (n : Z) : M Parser unit := skip_many (words_for n).

Record Header : Type := MkHeader {
  magic : Z; total_size : Z; structs_offset : Z; strings_offset : Z; memory_reserve_map_offset : Z; version : Z;
  last_compatible_version : Z; boot_cpuid : Z; strings_size : Z; structs_size : Z }.

Definition next_u32 : M Parser (res Z) := w <-? advance_u32; mret (Ok (from_be w)).
Definition parse_header : M Parser (res Header) :=
  magic <-? next_u32;
  total_size <-? next_u32;
  struct_offset <-? next_u32;
  strings_offset <-? next_u32;
  memory_reserve_map_offset <-? next_u32;
  version <-? next_u32;
  last_compatible_version <-? next_u32;
  boot_cpuid <-? next_u32;
  strings_size <-? next_u32;
  structs_size <-? next_u32;
  mret (Ok (MkHeader magic total_size struct_offset strings_offset memory_reserve_map_offset version last_compatible_version
              boot_cpuid strings_size structs_size)).

Definition offset_at (strings : list Z) (offset : Z) : res (list Z) :=
  match slice_from offset strings with
  | None => Err UnexpectedEof
  | Some s => match until_nul s with
      | None => Err InvalidCStr
      | Some s => if valid_utf8 s then Ok s else Err InvalidUtf8
      end
  end.

Definition parse_raw_property : M Parser (res (Z * list Z)) :=
  t <-? advance_token;
  if t =? PROP then
    len <-? next_u32;
    name_offset <-? next_u32;
    stream ← parser_data;
    match slice_get 0 len (bytes_of stream) with
    | None => mret (Err UnexpectedEof)
    | Some data => _ ← advance_aligned (Z.of_nat (length data)); mret (Ok (name_offset, data))
    end
  else mret (Err (UnexpectedToken t)).

(** "#address-cells", "#size-cells" and "reg" *)
Definition ADDRESS_CELLS : list Z := [35; 97; 100; 100; 114; 101; 115; 115; 45; 99; 101; 108; 108; 115].
Definition SIZE_CELLS : list Z := [35; 115; 105; 122; 101; 45; 99; 101; 108; 108; 115].
Definition REG : list Z := [114; 101; 103].

Definition parse_cell_count (data : list Z) : option Z := if (length data =? 4)%nat then Some (be_value data) else None.

(** What a property does to the cell counts. *)
Definition update_cells (name data : list Z) (cells : CellSizes) : CellSizes :=
  if bool_decide (name = ADDRESS_CELLS) then
    match parse_cell_count data with Some n => MkCells n (size_cells cells) | None => cells end
  else if bool_decide (name = SIZE_CELLS) then
    match parse_cell_count data with Some n => MkCells (address_cells cells) n | None => cells end
  else cells.

(** The loop over the properties of a node; each has at least a word. *)
Fixpoint child_cells_loop (fuel : nat) (cells : CellSizes) : M Parser (res CellSizes) :=
  match fuel with
  | O => fun _ => Undefined
  | S fuel =>
      t <-? peek_token;
      if t =? PROP then
        r <-? parse_raw_property;
        p ← get_parser;
        match offset_at (ps_strings p) r.1 with
        | Err e => mret (Err e)
        | Ok name => child_cells_loop fuel (update_cells name r.2 cells)
        end
      else mret (Ok cells)
  end.
Definition child_cell_sizes (inherited : CellSizes) : M Parser (res CellSizes) := fun p =>
  child_cells_loop (S (length (ps_stream p))) inherited p.

(** ** The tree *)

Record Node : Type := MkNode { n_name : list Z; n_raw : list Z; n_strings : list Z; n_structs : list Z; n_cell_sizes : CellSizes }.

(** [u32] arithmetic *)
Definition u32_add (a b : Z) : outcome Z := if a + b <? 2 ^ 32 then Done (a + b) else Panicked.
Definition u32_sub (a b : Z) : outcome Z := if b <=? a then Done (a - b) else Panicked.

(** [from_ne_bytes] of the last four bytes, that is the last word. *)
Definition ne_value (l : list Z) : Z := be_value (rev l).

Definition parse_root : M Parser (res Node) :=
  t <-? advance_token;
  if negb (t =? BEGIN_NODE) then mret (Err (UnexpectedToken t))
  else
    stream ← parser_data;
    let byte_data := bytes_of stream in
    start ← lift (u_sub (Z.of_nat (length byte_data)) 4);
    match slice_from start byte_data with
    | None => mret (Err UnexpectedEof)
    | Some data =>
        if negb (length data =? 4)%nat then mret (Err UnexpectedEof)
        else if negb (ne_value data =? END) then mret (Err (UnexpectedToken (ne_value data)))
        else
          name <-? advance_cstr;
          starting_data ← parser_data;
          cell_sizes <-? child_cell_sizes default_cells;
          n ← lift (u_sub (Z.of_nat (length starting_data)) 1);
          p ← get_parser;
          mret (Ok (MkNode name (take (Z.to_nat n) starting_data) (ps_strings p) (ps_structs p) cell_sizes))
    end.

Record Fdt : Type := MkFdt { f_data : list Z; f_reservations : list Z; f_header : Header; f_root : Node }.

Definition DTB_MAGIC : Z := 0xD00DFEED.
Definition MAX_TRACKED_DEPTH : nat := 32.

(** A parser run on its own. *)
Definition run_parser {A} (m : M Parser (res A)) (data strings structs : list Z) : outcome (res A) :=
  r ← m (MkParser data strings structs); mret r.1.

Definition bind_ok {A B} (m : outcome (res A)) (k : A -> outcome (res B)) : outcome (res B) :=
  r ← m; match r with Ok a => k a | Err e => mret (Err e) end.

Definition fdt_new (data : list Z) : outcome (res Fdt) :=
  let n := Z.of_nat (length data) in
  bind_ok (run_parser parse_header data [] []) (fun header =>
  if negb (magic header =? DTB_MAGIC) then mret (Err BadMagic)
  else if n <? total_size header / 4 then mret (Err UnexpectedEof)
  else
    strings_sum ← u32_add (strings_offset header) (strings_size header);
    structs_sum ← u32_add (structs_offset header) (structs_size header);
    if (n <? strings_sum / 4) || (n <? structs_sum / 4) then mret (Err SliceTooSmall)
    else
      let strings_start := strings_offset header in
      bind_ok (mret (ok_or UnexpectedEof (slice_get strings_start (strings_start + strings_size header) (bytes_of data)))) (fun strings =>
      let structs_start := structs_offset header / 4 in
      bind_ok (mret (ok_or UnexpectedEof (slice_get structs_start (structs_start + structs_size header / 4) data))) (fun structs =>
      let reservations_start := memory_reserve_map_offset header / 4 in
      rest ← u32_sub (total_size header) (memory_reserve_map_offset header);
      let reservations_end := structs_start + rest / 4 in
      bind_ok (mret (ok_or UnexpectedEof (slice_get reservations_start reservations_end data))) (fun reservations =>
      bind_ok (run_parser parse_root structs strings structs) (fun root =>
      mret (Ok (MkFdt data reservations header root))))))).

(** The words that can be read from the pointer on; slices have as many words as
    the header, and then the blob, have bytes. *)
Definition from_ptr (memory : list Z) : outcome (res Fdt) :=
  if Z.of_nat (length memory) <? 40 then Undefined
  else
    bind_ok (run_parser parse_header (take 40 memory) [] []) (fun header =>
    if negb (magic header =? DTB_MAGIC) then mret (Err BadMagic)
    else if Z.of_nat (length memory) <? total_size header then Undefined
    else fdt_new (take (Z.to_nat (total_size header)) memory)).

(** [Fdt::as_slice] *)
Definition as_slice (f : Fdt) : list Z := bytes_of (f_data f).

(** ** Properties *)

Record Property : Type := MkProperty { pr_name : list Z; pr_raw : list Z }.

(** [PropertiesIter::next] *)
Definition properties_next : M Parser (res (option Property)) :=
  t <-? peek_token;
  if t =? PROP then
    r <-? parse_raw_property;
    p ← get_parser;
    match offset_at (ps_strings p) r.1 with
    | Err e => mret (Err e)
    | Ok name => mret (Ok (Some (MkProperty name r.2)))
    end
  else mret (Ok None).

Definition node_properties (n : Node) : Parser := MkParser (n_raw n) (n_strings n) (n_structs n).

(** The iterator traits are from another crate; [find] is documented to return
    the first item that satisfies the predicate, or what the iterator ends with. *)
Class PropertiesFind : Type := {
  find : (Property -> bool) -> M Parser (res (option Property));
  find_step f p : find f p =
    (r <-? properties_next;
     match r with
     | None => mret (Ok None)
     | Some x => if f x then mret (Ok (Some x)) else find f
     end) p }.

Definition find_property `{PropertiesFind} (n : Node) (name : list Z) : outcome (res (option Property)) :=
  r ← find (fun p => bool_decide (pr_name p = name)) (node_properties n); mret r.1.

Record NodeName : Type := MkName { nn_name : list Z; nn_unit_address : option (list Z) }.

Definition node_name (n : Node) : res NodeName :=
  let s := n_name n in
  if valid_utf8 s then
    match s with
    | [] => Ok (MkName [47] None)
    | _ => match split_once 64 s with Some (name, unit_address) => Ok (MkName name (Some unit_address)) | None => Ok (MkName s None) end
    end
  else Err InvalidUtf8.

Definition as_u32 (p : Property) : res Z := if (length (pr_raw p) =? 4)%nat then Ok (be_value (pr_raw p)) else Err InvalidPropertyValue.
Definition as_u64 (p : Property) : res Z :=
  if (length (pr_raw p) =? 4)%nat || (length (pr_raw p) =? 8)%nat then Ok (be_value (pr_raw p)) else Err InvalidPropertyValue.
Definition as_usize (p : Property) : res Z := as_u64 p.
Definition as_cstr (p : Property) : res (list Z) := ok_or InvalidCStr (until_nul (pr_raw p)).

(** [trim_end_matches('\0')] *)
Fixpoint drop_nuls (l : list Z) : list Z := match l with b :: l' => if b =? 0 then drop_nuls l' else l | [] => [] end.
Definition trim_nuls (l : list Z) : list Z := rev (drop_nuls (rev l)).
Definition as_str (p : Property) : res (list Z) := if valid_utf8 (pr_raw p) then Ok (trim_nuls (pr_raw p)) else Err InvalidUtf8.
Definition as_strlist (p : Property) : res (list (list Z)) :=
  match as_str p with Ok s => Ok (split 0 s) | Err e => Err e end.

(** ** Registers *)

Record Regs : Type := MkRegs { rg_cells : CellSizes; rg_encoded : list Z }.
Record RegEntry : Type := MkEntry { starting_address : Z; re_size : option Z }.

Definition as_regs (cells : CellSizes) (p : Property) : Regs := MkRegs cells (pr_raw p).

Definition node_reg `{PropertiesFind} (n : Node) : outcome (res (option Regs)) :=
  bind_ok (find_property n REG) (fun r =>
  mret (Ok (match r with Some p => Some (as_regs (n_cell_sizes n) p) | None => None end))).

Definition regs_next : M Regs (res (option RegEntry)) := fun r =>
  let l := rg_encoded r in
  let address_bytes := address_cells (rg_cells r) * 4 in
  let size_bytes := size_cells (rg_cells r) * 4 in
  match l with
  | [] => Done (Ok None, r)
  | _ =>
      match slice_get 0 address_bytes l, slice_get address_bytes (address_bytes + size_bytes) l with
      | Some encoded_address, Some encoded_len =>
          let r := MkRegs (rg_cells r) (drop (Z.to_nat (address_bytes + size_bytes)) l) in
          if negb ((address_cells (rg_cells r) =? 1) || (address_cells (rg_cells r) =? 2)) then Panicked
          else if size_cells (rg_cells r) =? 0 then Done (Ok (Some (MkEntry (be_value encoded_address) None)), r)
          else if negb ((size_cells (rg_cells r) =? 1) || (size_cells (rg_cells r) =? 2)) then Panicked
          else Done (Ok (Some (MkEntry (be_value encoded_address) (Some (be_value encoded_len)))), r)
      | _, _ => Done (Ok None, r)
      end
  end.

(** ** Nodes *)

Record NodesIter : Type := MkNodes { ni_parser : Parser; ni_depth : Z; ni_stack : list CellSizes }.

(** [Fdt::nodes]: past the properties of the root. *)
Fixpoint skip_properties (fuel : nat) : M Parser (res unit) :=
  match fuel with
  | O => fun _ => Undefined
  | S fuel =>
      t <-? peek_token;
      if t =? PROP then _ <-? parse_raw_property; skip_properties fuel else mret (Ok tt)
  end.
Definition fdt_nodes (f : Fdt) : outcome (res NodesIter) :=
  let root := f_root f in
  r ← skip_properties (S (length (n_raw root))) (node_properties root);
  match r.1 with
  | Err e => mret (Err e)
  | Ok _ => mret (Ok (MkNodes r.2 0 (<[0%nat := n_cell_sizes root]> (replicate MAX_TRACKED_DEPTH default_cells))))
  end.

Definition in_parser {A} (m : M Parser A) : M NodesIter A := fun it =>
  match m (ni_parser it) with
  | Done (a, p) => Done (a, MkNodes p (ni_depth it) (ni_stack it))
  | Panicked => Panicked
  | Undefined => Undefined
  end.
Definition set_depth (d : Z) : M NodesIter unit := fun it => Done (tt, MkNodes (ni_parser it) d (ni_stack it)).
Definition get_iter : M NodesIter NodesIter := fun it => Done (it, it).
Definition set_cells (d : Z) (c : CellSizes) : M NodesIter unit := fun it =>
  Done (tt, MkNodes (ni_parser it) (ni_depth it) (<[Z.to_nat d := c]> (ni_stack it))).

(** [while let Ok(END_NODE) = self.parser.peek_token()] *)
Fixpoint leave_nodes (fuel : nat) : M NodesIter unit :=
  match fuel with
  | O => fun _ => Undefined
  | S fuel =>
      t ← in_parser peek_token;
      match t with
      | Ok t =>
          if t =? END_NODE then
            _ ← in_parser advance_token;
            it ← get_iter;
            _ ← set_depth (Z.max 0 (ni_depth it - 1));
            leave_nodes fuel
          else mret tt
      | Err _ => mret tt
      end
  end.

(** The node that begins here. *)
Definition begin_node : M NodesIter (res (option (Z * Node))) :=
  name <-? in_parser advance_cstr;
  starting_data ← in_parser parser_data;
  it ← get_iter;
  prev ← lift (u_sub (ni_depth it) 1);
  let cell_sizes := default default_cells (ni_stack it !! Z.to_nat prev) in
  child <-? in_parser (child_cell_sizes cell_sizes);
  _ ← set_cells (ni_depth it) child;
  mret (Ok (Some (ni_depth it, MkNode name starting_data (ps_strings (ni_parser it)) (ps_structs (ni_parser it)) cell_sizes))).

Definition nodes_next : M NodesIter (res (option (Z * Node))) := fun it =>
  (_ ← leave_nodes (S (length (ps_stream (ni_parser it))));
   t ← in_parser advance_token;
   match t with
   | Ok t =>
       if t =? BEGIN_NODE then
         it ← get_iter;
         depth ← lift (u_add (ni_depth it) 1);
         _ ← set_depth depth;
         begin_node
       else if t =? END then mret (Ok None) else mret (Err (UnexpectedToken t))
   | Err UnexpectedEof => mret (Ok None)
   | Err e => mret (Err e)
   end) it.

(** ** Paths *)

(** Whether a node has the name that is wanted. *)
Definition name_matches (want : list Z) (name : NodeName) : bool :=
  match split_once 64 want with
  | Some (n, a) => bool_decide (n = nn_name name) && bool_decide (nn_unit_address name = Some a)
  | None => bool_decide (want = nn_name name)
  end.

Fixpoint find_node_loop (fuel : nat) (target : Z) (want : list Z) (segments : list (list Z)) : M NodesIter (res (option Node)) :=
  match fuel with
  | O => fun _ => Undefined
  | S fuel =>
      r <-? nodes_next;
      match r with
      | None => mret (Ok None)
      | Some (depth, node) =>
          if depth <? target then mret (Ok None)
          else if target <? depth then find_node_loop fuel target want segments
          else
            match node_name node with
            | Err e => mret (Err e)
            | Ok name =>
                if negb (name_matches want name) then find_node_loop fuel target want segments
                else match segments with
                | [] => mret (Ok (Some node))
                | next :: segments => find_node_loop fuel (target + 1) next segments
                end
            end
      end
  end.

Definition find_node (f : Fdt) (path : list Z) : outcome (res (option Node)) :=
  match path with
  | b :: rest =>
      if b =? 47 then
        match List.filter (fun s => negb (bool_decide (s = []))) (split 47 rest) with
        | [] => mret (Err InvalidPath)
        | want :: segments =>
            bind_ok (fdt_nodes f) (fun nodes =>
            r ← find_node_loop (S (length (n_raw (f_root f)))) 1 want segments nodes; mret r.1)
        end
      else mret (Err InvalidPath)
  | [] => mret (Err InvalidPath)
  end.

(** ** Memory reservations *)

Record ReserveEntry : Type := MkReserve { rv_address : Z; rv_size : Z }.
Record ReserveEntries : Type := MkEntries { rs_buf : list Z; rs_offset : Z; rs_done : bool }.

Definition reserved_entries (f : Fdt) : ReserveEntries := MkEntries (f_reservations f) 0 false.

(** [self.buf[i]] *)
Definition word_at (buf : list Z) (i : Z) : outcome Z := match buf !! Z.to_nat i with Some w => Done w | None => Panicked end.
Definition read_u64 : M ReserveEntries Z := fun r =>
  (low ← word_at (rs_buf r) (rs_offset r);
   hi ← word_at (rs_buf r) (rs_offset r + 1);
   Done (Z.lor low (Z.shiftl hi 32), MkEntries (rs_buf r) (rs_offset r + 2) (rs_done r))).

Definition reserve_next : M ReserveEntries (res (option ReserveEntry)) := fun r =>
  if rs_done r || (rs_offset r =? Z.of_nat (length (rs_buf r))) then Done (Ok None, r)
  else
    (address ← read_u64;
     size ← read_u64;
     let is_empty := (address =? 0) || (size =? 0) in
     _ ← ((fun r => Done (tt, MkEntries (rs_buf r) (rs_offset r) is_empty)) : M ReserveEntries unit);
     mret (Ok (if is_empty then None else Some (MkReserve address size)))) r.
