(* ===== verification/FdtCorrect.v ===== *)
(** * Correctness of the device tree parser

    The wire format as a grammar, what the parser reads of it, and the walk over
    the nodes of a tree. *)

From stdpp Require Import base numbers list sets.
From Stdlib Require Import ZArith Lia.
From S2P Require Import Prelude Fdt.

(** ** Bytes and words *)

Lemma bytes_of_app a b : bytes_of (a ++ b) = bytes_of a ++ bytes_of b.
Proof. apply bind_app. Qed.

Lemma length_bytes_of a : length (bytes_of a) = (4 * length a)%nat.
Proof. induction a as [| w a IH]; [done |]. change (w :: a) with ([w] ++ a). rewrite bytes_of_app, !length_app, IH. simpl. lia. Qed.

Lemma u32_bytes_of a b c d :
  0 <= a < 256 -> 0 <= b < 256 -> 0 <= c < 256 -> 0 <= d < 256 ->
  u32_bytes (a + 256 * (b + 256 * (c + 256 * d))) = [a; b; c; d].
Proof.
  intros. unfold u32_bytes. replace (2 ^ 16) with (2 ^ 8 * 2 ^ 8) by lia. replace (2 ^ 24) with (2 ^ 8 * 2 ^ 8 * 2 ^ 8) by lia.
  rewrite <- !Z.div_div by lia. change (2 ^ 8) with 256.
  assert (E : forall x y, 0 <= x < 256 -> (x + 256 * y) / 256 = y /\ (x + 256 * y) mod 256 = x).
  { clear. intros x y Hx. rewrite (Z.mul_comm 256 y), Z.div_add, Z.mod_add, Z.div_small, Z.mod_small by lia. lia. }
  destruct (E a (b + 256 * (c + 256 * d))) as [-> ->]; [done |].
  destruct (E b (c + 256 * d)) as [-> ->]; [done |]. destruct (E c d) as [-> ->]; [done |]. by rewrite (Z.mod_small d).
Qed.

(** A word is made of four bytes. *)
Lemma u32_split n : 0 <= n < 2 ^ 32 -> exists a b c d,
  n = a + 256 * (b + 256 * (c + 256 * d)) /\ 0 <= a < 256 /\ 0 <= b < 256 /\ 0 <= c < 256 /\ 0 <= d < 256.
Proof.
  intros Hn. exists (n mod 256), (n / 256 mod 256), (n / 256 / 256 mod 256), (n / 256 / 256 / 256).
  pose proof (Z.div_mod n 256 ltac:(lia)). pose proof (Z.div_mod (n / 256) 256 ltac:(lia)).
  pose proof (Z.div_mod (n / 256 / 256) 256 ltac:(lia)). pose proof (Z.mod_pos_bound n 256 ltac:(lia)).
  pose proof (Z.mod_pos_bound (n / 256) 256 ltac:(lia)). pose proof (Z.mod_pos_bound (n / 256 / 256) 256 ltac:(lia)). lia.
Qed.

Lemma be_value_4 a b c d : be_value [a; b; c; d] = d + 256 * (c + 256 * (b + 256 * a)).
Proof. unfold be_value. cbn [foldl]. lia. Qed.

Lemma from_to_be n : 0 <= n < 2 ^ 32 -> from_be (to_be n) = n.
Proof.
  intros Hn. destruct (u32_split n Hn) as (a & b & c & d & -> & ? & ? & ? & ?). unfold to_be, from_be.
  by rewrite u32_bytes_of, be_value_4, u32_bytes_of, be_value_4.
Qed.

Lemma words_for_div n : 0 <= n < 2 ^ 62 -> words_for n = (n + 3) / 4.
Proof.
  intros Hn. unfold words_for. change (u_not 3) with (wrapping_sub 0 (2 ^ 2)). rewrite land_high_mask by (unfold is_usize; lia).
  change (2 ^ 2) with 4. pose proof (Z.div_mod (n + 3) 4 ltac:(lia)).
  replace (n + 3 - (n + 3) mod 4) with ((n + 3) / 4 * 4) by lia. by rewrite Z.div_mul.
Qed.

Lemma until_nul_app s r : 0 ∉ s -> until_nul (s ++ 0 :: r) = Some s.
Proof.
  induction s as [| b s IH]; intros Hs; [done |]. simpl. apply not_elem_of_cons in Hs as [H0 Hs].
  destruct (Z.eqb_spec b 0); [congruence |]. by rewrite IH.
Qed.

(** The words hold the bytes, padded to whole words. *)
Definition holds (ws bytes : list Z) : Prop := exists pad, bytes_of ws = bytes ++ pad /\ (length pad < 4)%nat.

Lemma holds_length ws bytes : holds ws bytes -> Z.of_nat (length ws) = (Z.of_nat (length bytes) + 3) / 4.
Proof.
  intros (pad & E & Hp). apply (f_equal length) in E. rewrite length_bytes_of, length_app in E.
  Z.to_euclidean_division_equations. lia.
Qed.

(** Skipping the words of some bytes. *)
Lemma skip_holds ws bytes rest strings structs :
  holds ws bytes -> Z.of_nat (length bytes) < 2 ^ 62 ->
  skip_many (words_for (Z.of_nat (length bytes))) (MkParser (ws ++ rest) strings structs) = Done (tt, MkParser rest strings structs).
Proof.
  intros Hh Hb. rewrite words_for_div by lia. rewrite <- (holds_length ws bytes Hh). unfold skip_many, slice_from. cbn [ps_stream].
  rewrite length_app. destruct (Z.leb_spec (Z.of_nat (length ws)) (Z.of_nat (length ws + length rest))); [| lia].
  simpl. by rewrite Nat2Z.id, drop_app_length.
Qed.

(** ** The wire format *)

Definition nops (k : nat) : list Z := replicate k NOP.

Inductive forest : Type :=
  | FNil
  | FCons (name : list Z) (props : list Property) (children siblings : forest).

Definition prop_words (strings : list Z) (p : Property) (ws : list Z) : Prop :=
  exists k off dws, ws = nops k ++ PROP :: to_be (Z.of_nat (length (pr_raw p))) :: to_be off :: dws
    /\ 0 <= off < 2 ^ 32 /\ Z.of_nat (length (pr_raw p)) < 2 ^ 32 /\ holds dws (pr_raw p) /\ offset_at strings off = Ok (pr_name p).

Inductive props_words (strings : list Z) : list Property -> list Z -> Prop :=
  | PW_nil : props_words strings [] []
  | PW_cons p ps w ws : prop_words strings p w -> props_words strings ps ws -> props_words strings (p :: ps) (w ++ ws).

Definition name_words (name ws : list Z) : Prop := 0 ∉ name /\ holds ws (name ++ [0]) /\ Z.of_nat (length name) < 2 ^ 60.

Inductive forest_words (strings : list Z) : forest -> list Z -> Prop :=
  | FW_nil : forest_words strings FNil []
  | FW_cons name ps ch sib j k nws pws cws sws :
      name_words name nws -> props_words strings ps pws -> forest_words strings ch cws -> forest_words strings sib sws ->
      forest_words strings (FCons name ps ch sib) (nops j ++ BEGIN_NODE :: nws ++ pws ++ cws ++ nops k ++ END_NODE :: sws).

(** ** What the parser reads *)

Lemma token_loop_nops k s : advance_token_loop (nops k ++ s) = advance_token_loop s.
Proof. induction k as [| k IH]; [done |]. exact IH. Qed.

Lemma token_loop_token t s : t ∈ [BEGIN_NODE; END_NODE; PROP; END] -> advance_token_loop (t :: s) = (Ok t, s).
Proof. intros H. rewrite !elem_of_cons, elem_of_nil in H. destruct H as [-> | [-> | [-> | [-> | []]]]]; reflexivity. Qed.

(** The stream goes on with a token that is not a property. *)
Definition ends_props (s : list Z) : Prop := exists t s', advance_token_loop s = (Ok t, s') /\ t <> PROP.

Lemma end_ends k s : ends_props (nops k ++ END_NODE :: s).
Proof. exists END_NODE, s. rewrite token_loop_nops. by split. Qed.

Lemma forest_ends strings f ws k s : forest_words strings f ws -> ends_props (ws ++ nops k ++ END_NODE :: s).
Proof.
  intros Hf. destruct Hf; [apply end_ends |]. eexists BEGIN_NODE, _. rewrite <- app_assoc, token_loop_nops. by split.
Qed.

Section Reads.
Context (strings structs : list Z).

Abbreviation P s := (MkParser s strings structs).

Lemma advance_token_run s r s' : advance_token_loop s = (r, s') -> advance_token (P s) = Done (r, P s').
Proof. intros E. unfold advance_token. cbn [ps_stream]. by rewrite E. Qed.

Lemma peek_token_run s r s' : advance_token_loop s = (r, s') -> peek_token (P s) = Done (r, P s).
Proof. intros E. unfold peek_token. cbn [ps_stream]. by rewrite E. Qed.

Lemma parser_data_run s : parser_data (P s) = Done (s, P s).
Proof. done. Qed.
Lemma get_parser_run p : get_parser p = Done (p, p).
Proof. done. Qed.

Lemma advance_cstr_run name ws rest : name_words name ws -> advance_cstr (P (ws ++ rest)) = Done (Ok name, P rest).
Proof.
  intros (Hn & Hh & Hl). pose proof Hh as (pad & E & _). unfold advance_cstr. rewrite (M_bind_Done _ _ _ _ _ (parser_data_run _)).
  rewrite bytes_of_app, E, <- !app_assoc. change ([0] ++ ?x) with (0 :: x). rewrite until_nul_app by done.
  replace (Z.of_nat (length name) + 1) with (Z.of_nat (length (name ++ [0]))) by (rewrite length_app; simpl; lia).
  erewrite M_bind_Done by (apply skip_holds; [done | rewrite length_app; simpl; lia]). done.
Qed.

Lemma next_u32_run n s : 0 <= n < 2 ^ 32 -> next_u32 (P (to_be n :: s)) = Done (Ok n, P s).
Proof.
  intros Hn. unfold next_u32. rewrite (try_bind_Ok _ _ _ (to_be n) (P s)) by done. by rewrite from_to_be.
Qed.

Lemma parse_raw_property_run p ws rest :
  prop_words strings p ws ->
  exists off, parse_raw_property (P (ws ++ rest)) = Done (Ok (off, pr_raw p), P rest) /\ offset_at strings off = Ok (pr_name p).
Proof.
  intros (k & off & dws & -> & Hoff & Hlen & Hh & Hn). exists off. split; [| done]. unfold parse_raw_property.
  rewrite <- app_assoc. rewrite <- !app_comm_cons. erewrite try_bind_Ok.
  2: { eapply advance_token_run. rewrite token_loop_nops. apply token_loop_token. set_solver. }
  rewrite Z.eqb_refl. erewrite try_bind_Ok by (apply next_u32_run; lia).
  erewrite try_bind_Ok by (apply next_u32_run; lia).
  pose proof Hh as (pad & E & _). rewrite (M_bind_Done _ _ _ _ _ (parser_data_run _)). unfold slice_get.
  rewrite bytes_of_app, E, <- app_assoc, length_app.
  destruct (Z.leb_spec 0 (Z.of_nat (length (pr_raw p)))); [| lia]. cbn [andb].
  destruct (Z.leb_spec (Z.of_nat (length (pr_raw p))) (Z.of_nat (length (pr_raw p) + length (pad ++ bytes_of rest)))); [| lia].
  rewrite Z.sub_0_r, Nat2Z.id. change (drop (Z.to_nat 0) ?l) with l. rewrite take_app_length. unfold advance_aligned.
  erewrite M_bind_Done by (apply skip_holds; [done | lia]). done.
Qed.

Definition child_cells (cells : CellSizes) (ps : list Property) : CellSizes :=
  foldl (fun c p => update_cells (pr_name p) (pr_raw p) c) cells ps.

Lemma props_next p ps ws rest : props_words strings (p :: ps) ws ->
  exists w ws', ws = w ++ ws' /\ prop_words strings p w /\ props_words strings ps ws' /\ (length ws' < length ws)%nat
  /\ peek_token (P (ws ++ rest)) = Done (Ok PROP, P (ws ++ rest)).
Proof.
  intros H. inversion H as [| ? ? w ws' Hp Hps]; subst. exists w, ws'. split_and!; try done.
  - destruct Hp as (k & off & dws & -> & _). rewrite !length_app. simpl. lia.
  - destruct Hp as (k & off & dws & -> & _). rewrite <- !app_assoc. eapply peek_token_run. rewrite token_loop_nops.
    apply token_loop_token. set_solver.
Qed.

Lemma ends_peek rest : ends_props rest -> exists t, peek_token (P rest) = Done (Ok t, P rest) /\ (t =? PROP) = false.
Proof. intros (t & s' & E & Ht). exists t. split; [by eapply peek_token_run | by apply Z.eqb_neq]. Qed.

Lemma child_cells_loop_run ps : forall fuel cells ws rest,
  props_words strings ps ws -> ends_props rest -> (length ws < fuel)%nat ->
  child_cells_loop fuel cells (P (ws ++ rest)) = Done (Ok (child_cells cells ps), P rest).
Proof.
  induction ps as [| p ps IH]; intros fuel cells ws rest Hps He Hf; (destruct fuel as [| fuel]; [lia |]); simpl.
  - inversion Hps; subst. simpl. destruct (ends_peek rest He) as (t & E & Ht). rewrite (try_bind_Ok _ _ _ _ _ E). by rewrite Ht.
  - destruct (props_next p ps ws rest Hps) as (w & ws' & -> & Hp & Hps' & Hl & E). rewrite (try_bind_Ok _ _ _ _ _ E), Z.eqb_refl.
    rewrite <- app_assoc. destruct (parse_raw_property_run p w (ws' ++ rest) Hp) as (off & E1 & Hn).
    rewrite (try_bind_Ok _ _ _ _ _ E1). rewrite (M_bind_Done _ _ _ _ _ (get_parser_run _)). cbn [ps_strings fst snd]. rewrite Hn.
    apply IH; [done | done | lia].
Qed.

Lemma child_cell_sizes_run ps cells ws rest :
  props_words strings ps ws -> ends_props rest ->
  child_cell_sizes cells (P (ws ++ rest)) = Done (Ok (child_cells cells ps), P rest).
Proof.
  intros Hps He. unfold child_cell_sizes. apply child_cells_loop_run; [done | done |]. cbn [ps_stream]. rewrite length_app. lia.
Qed.

Lemma skip_properties_run ps : forall fuel ws rest,
  props_words strings ps ws -> ends_props rest -> (length ws < fuel)%nat ->
  skip_properties fuel (P (ws ++ rest)) = Done (Ok tt, P rest).
Proof.
  induction ps as [| p ps IH]; intros fuel ws rest Hps He Hf; (destruct fuel as [| fuel]; [lia |]); simpl.
  - inversion Hps; subst. simpl. destruct (ends_peek rest He) as (t & E & Ht). rewrite (try_bind_Ok _ _ _ _ _ E). by rewrite Ht.
  - destruct (props_next p ps ws rest Hps) as (w & ws' & -> & Hp & Hps' & Hl & E). rewrite (try_bind_Ok _ _ _ _ _ E), Z.eqb_refl.
    rewrite <- app_assoc. destruct (parse_raw_property_run p w (ws' ++ rest) Hp) as (off & E1 & Hn).
    rewrite (try_bind_Ok _ _ _ _ _ E1). apply IH; [done | done | lia].
Qed.

(** The properties of a node, one after the other. *)
Lemma properties_next_some p ps ws rest : props_words strings (p :: ps) ws ->
  exists ws', props_words strings ps ws' /\ properties_next (P (ws ++ rest)) = Done (Ok (Some p), P (ws' ++ rest)).
Proof.
  intros Hps. destruct (props_next p ps ws rest Hps) as (w & ws' & -> & Hp & Hps' & Hl & E). exists ws'. split; [done |].
  unfold properties_next. rewrite (try_bind_Ok _ _ _ _ _ E), Z.eqb_refl. rewrite <- app_assoc.
  destruct (parse_raw_property_run p w (ws' ++ rest) Hp) as (off & E1 & Hn). rewrite (try_bind_Ok _ _ _ _ _ E1).
  rewrite (M_bind_Done _ _ _ _ _ (get_parser_run _)). cbn [ps_strings fst snd]. rewrite Hn. by destruct p.
Qed.

Lemma properties_next_none rest : ends_props rest -> properties_next (P rest) = Done (Ok None, P rest).
Proof. intros He. destruct (ends_peek rest He) as (t & E & Ht). unfold properties_next. rewrite (try_bind_Ok _ _ _ _ _ E). by rewrite Ht. Qed.

Context `{PropertiesFind}.

Lemma find_run f ps : forall ws rest,
  props_words strings ps ws -> ends_props rest ->
  exists p', find f (P (ws ++ rest)) = Done (Ok (List.find f ps), p').
Proof.
  induction ps as [| p ps IH]; intros ws rest Hps He; rewrite find_step.
  - inversion Hps; subst. simpl. rewrite (try_bind_Ok _ _ _ _ _ (properties_next_none rest He)). by eexists.
  - destruct (properties_next_some p ps ws rest Hps) as (ws' & Hps' & E). rewrite (try_bind_Ok _ _ _ _ _ E). simpl.
    destruct (f p); [by eexists | by apply IH].
Qed.

End Reads.

(** ** The walk over a tree *)

Record entry : Type := MkEntryOf { e_depth : nat; e_cells : CellSizes; e_name : list Z; e_props : list Property }.

(** The cell counts a node of depth [d] hands to its children, as far as they are
    tracked. *)
Definition tracked (d : nat) (c : CellSizes) : CellSizes := if bool_decide (d < MAX_TRACKED_DEPTH)%nat then c else default_cells.

(** The nodes in preorder. *)
Fixpoint walk (d : nat) (c : CellSizes) (f : forest) : list entry :=
  match f with
  | FNil => []
  | FCons name ps ch sib => MkEntryOf d c name ps :: walk (S d) (tracked d (child_cells c ps)) ch ++ walk d c sib
  end.

(** What is left of a walk: at each level the remaining siblings. *)
Definition levels : Type := list (forest * CellSizes).

Fixpoint items (ls : levels) : list entry :=
  match ls with [] => [] | (f, c) :: ls => walk (S (length ls)) c f ++ items ls end.

Fixpoint drop_nil (ls : levels) : levels :=
  match ls with (FNil, _) :: ls => drop_nil ls | _ => ls end.

Lemma items_drop_nil ls : items (drop_nil ls) = items ls.
Proof. induction ls as [| [[| ] c] ls IH]; [done | exact IH | done]. Qed.

Inductive tail_words (strings : list Z) : levels -> list Z -> Prop :=
  | TW_end k : tail_words strings [] (nops k)
  | TW_level f c ls k fw ws :
      forest_words strings f fw -> tail_words strings ls ws -> tail_words strings ((f, c) :: ls) (fw ++ nops k ++ END_NODE :: ws).

Section Walk.
Context (strings structs : list Z).

Abbreviation P s := (MkParser s strings structs).

Definition stack_ok (stack : list CellSizes) (ls : levels) : Prop :=
  length stack = MAX_TRACKED_DEPTH /\ forall i f c, reverse ls !! i = Some (f, c) -> default default_cells (stack !! i) = c.

Definition iter_at (it : NodesIter) (ls : levels) (ws : list Z) : Prop :=
  ni_parser it = P ws /\ tail_words strings ls ws /\ ni_depth it = Z.of_nat (length ls - 1) /\ stack_ok (ni_stack it) ls
  /\ Z.of_nat (length ls + length ws) < 2 ^ 60.

(** A node with this name, these properties and these cell counts. *)
Definition node_is (n : Node) (name : list Z) (ps : list Property) (c : CellSizes) : Prop :=
  n_name n = name /\ n_cell_sizes n = c
  /\ exists ws rest, node_properties n = P (ws ++ rest) /\ props_words strings ps ws /\ ends_props rest.

Definition entry_is (x : Z * Node) (e : entry) : Prop :=
  x.1 = Z.of_nat (e_depth e) /\ node_is x.2 (e_name e) (e_props e) (e_cells e).

Lemma stack_ok_tail stack f c ls : stack_ok stack ((f, c) :: ls) -> stack_ok stack ls.
Proof.
  intros [Hl Hs]. split; [done |]. intros i f' c' Hi. apply (Hs i f' c'). rewrite reverse_cons. by apply lookup_app_l_Some.
Qed.

Lemma stack_ok_top stack f c ls : stack_ok stack ((f, c) :: ls) -> default default_cells (stack !! length ls) = c.
Proof.
  intros [_ Hs]. apply (Hs _ f c). rewrite reverse_cons. rewrite lookup_app_r by (rewrite length_reverse; lia).
  by rewrite length_reverse, Nat.sub_diag.
Qed.

Lemma stack_ok_push stack f f' c ch c' ls :
  stack_ok stack ((f, c) :: ls) ->
  stack_ok (<[S (length ls) := c']> stack) ((ch, tracked (S (length ls)) c') :: (f', c) :: ls).
Proof.
  intros Hs. pose proof Hs as [Hl _]. split; [by rewrite length_insert |]. intros i g d Hi. rewrite !reverse_cons in Hi.
  apply lookup_app_Some in Hi as [Hi | [Hge Hi]].
  - apply lookup_app_Some in Hi as [Hi | [Hge Hi]].
    + pose proof (lookup_lt_Some _ _ _ Hi) as Hlt. rewrite length_reverse in Hlt. rewrite list_lookup_insert_ne by lia.
      apply (stack_ok_tail _ _ _ _ Hs) in Hi. done.
    + rewrite length_reverse in *. apply list_lookup_singleton_Some in Hi as [Hi [= <- <-]].
      rewrite list_lookup_insert_ne by lia. replace i with (length ls) by lia. by eapply stack_ok_top.
  - rewrite length_app, length_reverse in *. simpl in *. apply list_lookup_singleton_Some in Hi as [Hi [= <- <-]].
    replace i with (S (length ls)) by lia. unfold tracked. case_bool_decide.
    + by rewrite list_lookup_insert_eq by lia.
    + rewrite lookup_ge_None_2; [done | rewrite length_insert; lia].
Qed.

Lemma in_parser_run {A} (m : M Parser A) it a p :
  m (ni_parser it) = Done (a, p) -> in_parser m it = Done (a, MkNodes p (ni_depth it) (ni_stack it)).
Proof. intros E. unfold in_parser. by rewrite E. Qed.

Lemma token_loop_nops_end k : advance_token_loop (nops k) = (Err UnexpectedEof, []).
Proof. rewrite <- (app_nil_r (nops k)), token_loop_nops. done. Qed.

Lemma leave_nodes_stop it t fuel :
  peek_token (ni_parser it) = Done (t, ni_parser it) -> t <> Ok END_NODE -> leave_nodes (S fuel) it = Done (tt, it).
Proof.
  intros E Ht. cbn [leave_nodes]. erewrite M_bind_Done by (by apply in_parser_run). destruct it as [pr dp st]; cbn [ni_parser ni_depth ni_stack] in *. destruct t as [t | e]; [| done].
  destruct (Z.eqb_spec t END_NODE); [congruence | done].
Qed.

Lemma leave_nodes_step it s s' fuel :
  ni_parser it = P s -> advance_token_loop s = (Ok END_NODE, s') ->
  leave_nodes (S fuel) it = leave_nodes fuel (MkNodes (P s') (Z.max 0 (ni_depth it - 1)) (ni_stack it)).
Proof.
  intros Hp E. cbn [leave_nodes]. erewrite M_bind_Done by (apply in_parser_run; rewrite Hp; by eapply peek_token_run). cbv beta iota. rewrite Z.eqb_refl.
  erewrite M_bind_Done by (apply in_parser_run; by eapply advance_token_run). done.
Qed.

Lemma leave_nodes_run ls : forall fuel it ws,
  iter_at it ls ws -> (length ws < fuel)%nat ->
  exists it' ws', leave_nodes fuel it = Done (tt, it') /\ iter_at it' (drop_nil ls) ws' /\ (length ws' <= length ws)%nat.
Proof.
  induction ls as [| [[| name ps ch sib] c] ls IH]; intros fuel it ws Hit Hf; (destruct fuel as [| fuel]; [lia |]);
    pose proof Hit as (Hp & Hw & Hd & Hs & Hb).
  - exists it, ws. inversion Hw; subst. split_and!; [| done | done].
    eapply leave_nodes_stop; [rewrite Hp; eapply peek_token_run; apply token_loop_nops_end | done].
  - inversion Hw as [| ? ? ? k fw ws' Hfw Hw']; subst. inversion Hfw; subst. simpl app in *.
    assert (El : advance_token_loop (nops k ++ END_NODE :: ws') = (Ok END_NODE, ws')) by (by rewrite token_loop_nops).
    rewrite (leave_nodes_step it _ _ fuel Hp El). rewrite length_app in *. simpl length in *.
    destruct (IH fuel (MkNodes (P ws') (Z.max 0 (ni_depth it - 1)) (ni_stack it)) ws') as (it' & ws2 & E2 & Hit2 & Hle); [| lia |].
    { split_and!; simpl; [done | done | rewrite Hd; simpl; lia | by eapply stack_ok_tail | lia]. }
    exists it', ws2. split_and!; [done | done | lia].
  - exists it, ws. inversion Hw as [| ? ? ? k fw ws' Hfw Hw']; subst. inversion Hfw; subst. split_and!; [| done | done].
    eapply leave_nodes_stop; [rewrite Hp; eapply peek_token_run; rewrite <- app_assoc, token_loop_nops; apply token_loop_token; set_solver | done].
Qed.

(** ** One step of the iterator *)

Lemma nodes_next_none it ls ws :
  iter_at it ls ws -> drop_nil ls = [] -> exists it', nodes_next it = Done (Ok None, it').
Proof.
  intros Hit Hl. destruct (leave_nodes_run ls (S (length (ps_stream (ni_parser it)))) it ws Hit) as (it1 & ws1 & E1 & Hit1 & _).
  { destruct Hit as (-> & _). simpl. lia. }
  rewrite Hl in Hit1. destruct Hit1 as (Hp1 & Hw1 & _). inversion Hw1; subst. unfold nodes_next. rewrite (M_bind_Done _ _ _ _ _ E1).
  erewrite M_bind_Done by (apply in_parser_run; rewrite Hp1; eapply advance_token_run; apply token_loop_nops_end). by eexists.
Qed.

(** The iterator past a node whose parent hands down [c]. *)
Lemma begin_node_run it name ps c nws pws rest :
  ni_parser it = P (nws ++ pws ++ rest) -> name_words name nws -> props_words strings ps pws -> ends_props rest ->
  1 <= ni_depth it < 2 ^ 60 -> default default_cells (ni_stack it !! Z.to_nat (ni_depth it - 1)) = c ->
  begin_node it = Done (Ok (Some (ni_depth it, MkNode name (pws ++ rest) strings structs c)),
    MkNodes (P rest) (ni_depth it) (<[Z.to_nat (ni_depth it) := child_cells c ps]> (ni_stack it))).
Proof.
  intros Hp Hn Hps He Hd Hc. unfold begin_node. erewrite try_bind_Ok by (apply in_parser_run; rewrite Hp; by apply advance_cstr_run).
  erewrite M_bind_Done by (apply in_parser_run; apply parser_data_run). erewrite M_bind_Done by done. cbn [ni_depth].
  erewrite M_bind_Done by (apply lift_Done, u_sub_Done; unfold is_usize; lia). cbn [ni_stack ni_parser ps_strings ps_structs].
  rewrite Hc. erewrite try_bind_Ok by (apply in_parser_run; by apply child_cell_sizes_run). done.
Qed.

Lemma nodes_next_some it ls ws name ps ch sib c ls' :
  iter_at it ls ws -> drop_nil ls = (FCons name ps ch sib, c) :: ls' ->
  exists n it' ws', nodes_next it = Done (Ok (Some (Z.of_nat (S (length ls')), n)), it') /\ node_is n name ps c
  /\ iter_at it' ((ch, tracked (S (length ls')) (child_cells c ps)) :: (sib, c) :: ls') ws'.
Proof.
  intros Hit Hl. destruct (leave_nodes_run ls (S (length (ps_stream (ni_parser it)))) it ws Hit) as (it1 & ws1 & E1 & Hit1 & _).
  { destruct Hit as (-> & _). simpl. lia. }
  rewrite Hl in Hit1. destruct Hit1 as (Hp1 & Hw1 & Hd1 & Hs1 & Hb1). inversion Hw1 as [| ? ? ? k fw w Hfw Hw]; subst.
  inversion Hfw as [| ? ? ? ? j k' nws pws cws sws Hn Hps Hcw Hsw]; subst. simpl length in Hd1. rewrite Nat.sub_0_r in Hd1 || simpl in Hd1.
  assert (Hws : (nops j ++ BEGIN_NODE :: nws ++ pws ++ cws ++ nops k' ++ END_NODE :: sws) ++ nops k ++ END_NODE :: w
    = nops j ++ BEGIN_NODE :: nws ++ pws ++ (cws ++ nops k' ++ END_NODE :: (sws ++ nops k ++ END_NODE :: w))).
  { by repeat (rewrite <- app_assoc || rewrite <- app_comm_cons). }
  rewrite Hws in *. clear Hws Hw1 Hfw Hl Hit. set (rest := cws ++ nops k' ++ END_NODE :: (sws ++ nops k ++ END_NODE :: w)) in *.
  assert (He : ends_props rest) by (by eapply forest_ends).
  assert (Hlen : (S (length rest) <= length (nops j ++ BEGIN_NODE :: nws ++ pws ++ rest))%nat) by (rewrite length_app; simpl; rewrite !length_app; lia).
  unfold nodes_next. rewrite (M_bind_Done _ _ _ _ _ E1).
  erewrite M_bind_Done. 2: { apply in_parser_run. rewrite Hp1. eapply advance_token_run. rewrite token_loop_nops. apply token_loop_token. set_solver. }
  cbv beta iota. rewrite Z.eqb_refl. erewrite M_bind_Done by done. cbn [ni_depth].
  erewrite M_bind_Done by (apply lift_Done, u_add_Done; unfold is_usize; simpl in *; lia). erewrite M_bind_Done by done.
  rewrite (begin_node_run _ name ps c nws pws rest); cbn [ni_parser ni_depth ni_stack]; [| done .. | simpl in *; lia |].
  2: { replace (Z.to_nat (ni_depth it1 + 1 - 1)) with (length ls') by lia. by eapply stack_ok_top. }
  replace (ni_depth it1 + 1) with (Z.of_nat (S (length ls'))) by lia. eexists _, _, rest. split; [done |]. rewrite Nat2Z.id. split_and!; try done.
  - split_and!; [done | done |]. by exists pws, rest.
  - split_and!; [done | by apply TW_level, TW_level | done | by eapply stack_ok_push | simpl in *; lia].
Qed.

(** ** The whole walk *)

Inductive yields : NodesIter -> list (Z * Node) -> Prop :=
  | Y_end it it' : nodes_next it = Done (Ok None, it') -> yields it []
  | Y_next it x it' l : nodes_next it = Done (Ok (Some x), it') -> yields it' l -> yields it (x :: l).

Fixpoint forest_size (f : forest) : nat :=
  match f with FNil => 0 | FCons _ _ ch sib => S (forest_size ch + forest_size sib) end.
Definition levels_size (ls : levels) : nat := sum_list_with (fun l => forest_size l.1) ls.

Lemma levels_size_drop ls : levels_size (drop_nil ls) = levels_size ls.
Proof. induction ls as [| [[| ] c] ls IH]; [done | exact IH | done]. Qed.

Lemma drop_nil_cases ls : drop_nil ls = [] \/ exists name ps ch sib c ls', drop_nil ls = (FCons name ps ch sib, c) :: ls'.
Proof. induction ls as [| [[| ] c] ls IH]; [by left | exact IH | right; by repeat eexists]. Qed.

Lemma iter_yields n : forall it ls ws,
  levels_size ls = n -> iter_at it ls ws -> exists l, yields it l /\ Forall2 entry_is l (items ls).
Proof.
  induction n as [n IH] using lt_wf_ind. intros it ls ws Hn Hit. rewrite <- items_drop_nil. rewrite <- levels_size_drop in Hn.
  destruct (drop_nil_cases ls) as [E | (name & ps & ch & sib & c & ls' & E)]; rewrite E in *.
  - destruct (nodes_next_none it ls ws Hit E) as [it' E']. exists []. split; [by eapply Y_end | constructor].
  - destruct (nodes_next_some it ls ws _ _ _ _ _ _ Hit E) as (nd & it' & ws' & E' & Hnd & Hit').
    eapply IH in Hit' as (l & Hy & Hl); [| | done]; [| unfold levels_size in *; simpl in *; lia].
    exists ((Z.of_nat (S (length ls')), nd) :: l). split; [by eapply Y_next |]. simpl in *. constructor; [done |].
    by rewrite <- app_assoc.
Qed.

End Walk.
