(* ===== verification/FdtTree.v ===== *)
(** * Reading a device tree blob

    From the words of a blob to its nodes, their properties, and the node at a path. *)

From stdpp Require Import base numbers list sets.
From Stdlib Require Import ZArith Lia.
From S2P Require Import Prelude Fdt FdtCorrect.

(** ** The blob *)

Definition header_words (h : Header) : list Z :=
  to_be <$> [magic h; total_size h; structs_offset h; strings_offset h; memory_reserve_map_offset h; version h;
             last_compatible_version h; boot_cpuid h; strings_size h; structs_size h].

Definition header_ok (h : Header) : Prop :=
  Forall (fun n => 0 <= n < 2 ^ 32) [magic h; total_size h; structs_offset h; strings_offset h; memory_reserve_map_offset h; version h;
             last_compatible_version h; boot_cpuid h; strings_size h; structs_size h].

(** The structure block of a tree. *)
Definition struct_words (strings : list Z) (name : list Z) (ps : list Property) (f : forest) (ws : list Z) : Prop :=
  exists j k l nws pws fws, ws = nops j ++ BEGIN_NODE :: nws ++ pws ++ (fws ++ nops k ++ END_NODE :: nops l) ++ [END]
    /\ name_words name nws /\ props_words strings ps pws /\ forest_words strings f fws /\ Z.of_nat (length ws) < 2 ^ 59.

(** A blob with this header, strings block and tree. *)
Record blob_ok (data : list Z) (h : Header) (strings structs reservations : list Z) (name : list Z) (ps : list Property) (f : forest) : Prop := {
  bo_header : exists body, data = header_words h ++ body;
  bo_fields : header_ok h;
  bo_magic : magic h = DTB_MAGIC;
  bo_total : total_size h / 4 <= Z.of_nat (length data);
  bo_strings_end : strings_offset h + strings_size h < 2 ^ 32;
  bo_structs_end : structs_offset h + structs_size h < 2 ^ 32 /\ (structs_offset h + structs_size h) / 4 <= Z.of_nat (length data);
  bo_strings : slice_get (strings_offset h) (strings_offset h + strings_size h) (bytes_of data) = Some strings;
  bo_structs : slice_get (structs_offset h / 4) (structs_offset h / 4 + structs_size h / 4) data = Some structs;
  bo_reserve : memory_reserve_map_offset h <= total_size h;
  bo_reservations : slice_get (memory_reserve_map_offset h / 4)
    (structs_offset h / 4 + (total_size h - memory_reserve_map_offset h) / 4) data = Some reservations;
  bo_tree : struct_words strings name ps f structs }.

(** ** Parsing it *)

Lemma parse_header_run h body strings structs :
  header_ok h -> parse_header (MkParser (header_words h ++ body) strings structs) = Done (Ok h, MkParser body strings structs).
Proof.
  intros Hf. unfold header_ok in Hf. rewrite !Forall_cons in Hf. destruct Hf as (? & ? & ? & ? & ? & ? & ? & ? & ? & ? & _).
  unfold header_words. cbn [fmap list_fmap]. rewrite <- !app_comm_cons. unfold parse_header.
  do 10 erewrite try_bind_Ok by (by apply next_u32_run). by destruct h.
Qed.

Lemma last_word X w : slice_from (Z.of_nat (length (bytes_of (X ++ [w]))) - 4) (bytes_of (X ++ [w])) = Some (u32_bytes w).
Proof.
  rewrite bytes_of_app, length_app. change (length (bytes_of [w])) with 4%nat. unfold slice_from. rewrite length_app.
  change (length (bytes_of [w])) with 4%nat. destruct (Z.leb_spec (Z.of_nat (length (bytes_of X) + 4) - 4) (Z.of_nat (length (bytes_of X) + 4))); [| lia].
  replace (Z.to_nat (Z.of_nat (length (bytes_of X) + 4) - 4)) with (length (bytes_of X)) by lia. by rewrite drop_app_length.
Qed.

(** The root node of a block. *)
Definition root_is (strings structs : list Z) (n : Node) (name : list Z) (ps : list Property) (f : forest) : Prop :=
  exists k l pws fws, n = MkNode name (pws ++ fws ++ nops k ++ END_NODE :: nops l) strings structs (child_cells default_cells ps)
    /\ props_words strings ps pws /\ forest_words strings f fws /\ Z.of_nat (length (n_raw n)) < 2 ^ 59.

Lemma parse_root_run strings structs' structs name ps f :
  struct_words strings name ps f structs ->
  exists n p, parse_root (MkParser structs strings structs') = Done (Ok n, p) /\ root_is strings structs' n name ps f.
Proof.
  intros (j & k & l & nws & pws & fws & -> & Hn & Hps & Hfw & Hlen). unfold parse_root.
  erewrite try_bind_Ok. 2: { eapply advance_token_run. rewrite token_loop_nops. apply token_loop_token. set_solver. }
  rewrite Z.eqb_refl. cbn [negb]. rewrite (M_bind_Done _ _ _ _ _ (parser_data_run _ _ _)). cbv zeta.
  set (rest := fws ++ nops k ++ END_NODE :: nops l) in *. set (X := nws ++ pws ++ rest).
  assert (HY : nws ++ pws ++ rest ++ [END] = X ++ [END]) by (unfold X; by rewrite <- !app_assoc). rewrite HY in Hlen |- *.
  assert (HX : Z.of_nat (length (X ++ [END])) < 2 ^ 59).
  { rewrite length_app in Hlen. cbn [length] in Hlen. lia. }
  erewrite M_bind_Done by (apply lift_Done, u_sub_Done; rewrite length_bytes_of; unfold is_usize; rewrite length_app in *; simpl in *; lia).
  rewrite last_word. change (negb (length (u32_bytes END) =? 4)%nat) with false. change (negb (ne_value (u32_bytes END) =? END)) with false.
  cbv iota. unfold X. rewrite <- app_assoc. erewrite try_bind_Ok by (by apply advance_cstr_run).
  rewrite (M_bind_Done _ _ _ _ _ (parser_data_run _ _ _)). rewrite <- app_assoc.
  erewrite try_bind_Ok. 2: { apply child_cell_sizes_run; [done |]. unfold rest. rewrite <- !app_assoc, <- app_comm_cons. by eapply forest_ends. }
  assert (Hr : Z.of_nat (length (pws ++ rest ++ [END])) - 1 = Z.of_nat (length (pws ++ rest))) by (rewrite !length_app; simpl; lia).
  erewrite M_bind_Done by (apply lift_Done, u_sub_Done; rewrite Hr; unfold X, is_usize in *; rewrite !length_app in *; lia).
  rewrite (M_bind_Done _ _ _ _ _ (get_parser_run _)). eexists _, _. split; [done |].
  exists k, l, pws, fws. rewrite Hr, Nat2Z.id, app_assoc, take_app_length. split_and!; try done. simpl. fold rest.
  unfold X in HX. rewrite !length_app in *. lia.
Qed.

Lemma fdt_new_run data h strings structs reservations name ps f :
  blob_ok data h strings structs reservations name ps f ->
  exists n, fdt_new data = Done (Ok (MkFdt data reservations h n)) /\ root_is strings structs n name ps f.
Proof.
  intros [[body Hd] Hf Hm Ht He1 [He2 He3] Hstr Hst Hr Hres Htree]. unfold fdt_new. cbv zeta.
  destruct (parse_root_run strings structs structs name ps f Htree) as (n & p & E & Hn). exists n. split; [| done].
  assert (Eh : run_parser parse_header data [] [] = Done (Ok h)).
  { unfold run_parser. rewrite Hd. by rewrite (outcome_bind_Done _ _ _ (parse_header_run h body [] [] Hf)). }
  unfold bind_ok at 1. rewrite (outcome_bind_Done _ _ _ Eh). rewrite Hm, Z.eqb_refl. cbn [negb].
  rewrite (proj2 (Z.ltb_ge _ _) Ht). unfold u32_add. rewrite (proj2 (Z.ltb_lt _ _) He1), (proj2 (Z.ltb_lt _ _) He2). cbn [mbind outcome_bind].
  unfold header_ok in Hf. rewrite !Forall_cons in Hf. destruct Hf as (_ & ? & ? & ? & ? & _ & _ & _ & ? & ? & _).
  assert (Hsl : (strings_offset h + strings_size h) / 4 <= Z.of_nat (length data)).
  { unfold slice_get in Hstr. destruct (Z.leb_spec (strings_offset h + strings_size h) (Z.of_nat (length (bytes_of data)))) as [Hl |];
      [| by rewrite andb_false_r in Hstr]. rewrite length_bytes_of in Hl. apply Z.div_le_upper_bound; lia. }
  rewrite (proj2 (Z.ltb_ge _ _) Hsl), (proj2 (Z.ltb_ge _ _) He3). cbn [orb]. rewrite Hstr. unfold bind_ok at 1. cbn [ok_or mret outcome_ret mbind outcome_bind].
  rewrite Hst. unfold bind_ok at 1. cbn [ok_or mret outcome_ret mbind outcome_bind]. unfold u32_sub. rewrite (proj2 (Z.leb_le _ _) Hr).
  cbn [mbind outcome_bind]. rewrite Hres. unfold bind_ok at 1. cbn [ok_or mret outcome_ret mbind outcome_bind].
  unfold bind_ok. unfold run_parser. rewrite E. done.
Qed.

Lemma fdt_nodes_run strings structs data reservations h n name ps f :
  root_is strings structs n name ps f ->
  exists it ws, fdt_nodes (MkFdt data reservations h n) = Done (Ok it)
  /\ iter_at strings structs it [(f, child_cells default_cells ps)] ws /\ (length ws <= length (n_raw n))%nat.
Proof.
  intros (k & l & pws & fws & -> & Hps & Hfw & Hlen). unfold fdt_nodes. cbn [f_root n_raw n_cell_sizes]. unfold node_properties. cbn [n_raw n_strings n_structs].
  set (rest := fws ++ nops k ++ END_NODE :: nops l) in *.
  rewrite (outcome_bind_Done _ _ (Ok tt, MkParser rest strings structs)).
  2: { apply skip_properties_run with ps; [done | by eapply forest_ends | rewrite length_app; lia]. }
  eexists _, rest. split; [done |]. cbn [n_raw] in *. rewrite length_app in *. split; [| simpl; rewrite ?length_app; lia].
  split_and!; cbn [ni_parser ni_depth ni_stack]; [done | apply TW_level; [done | constructor] | done | | simpl length; lia].
  split; [by rewrite length_insert, length_replicate |]. intros i f' c' Hi. apply list_lookup_singleton_Some in Hi as [-> [= <- <-]].
  done.
Qed.

(** ** Properties of a node *)

Definition has_name (nm : list Z) (p : Property) : bool := bool_decide (pr_name p = nm).

Lemma find_property_run `{PropertiesFind} strings structs n name ps c nm :
  node_is strings structs n name ps c -> find_property n nm = Done (Ok (List.find (has_name nm) ps)).
Proof.
  intros (_ & _ & ws & rest & E & Hps & He). unfold find_property. rewrite E.
  destruct (find_run strings structs (has_name nm) ps ws rest Hps He) as [p' E']. by rewrite (outcome_bind_Done _ _ _ E').
Qed.

Lemma root_node_is strings structs n name ps f :
  root_is strings structs n name ps f -> node_is strings structs n name ps (child_cells default_cells ps).
Proof.
  intros (k & l & pws & fws & -> & Hps & Hfw & _). split_and!; [done | done |]. exists pws, (fws ++ nops k ++ END_NODE :: nops l).
  split_and!; [done | done | by eapply forest_ends].
Qed.

(** ** The node at a path *)

Definition segments (path : list Z) : list (list Z) :=
  match path with
  | b :: rest => if b =? 47 then List.filter (fun s => negb (bool_decide (s = []))) (split 47 rest) else []
  | [] => []
  end.

(** The name of a node as it is compared. *)
Definition name_of (name : list Z) : NodeName :=
  match name with
  | [] => MkName [47] None
  | _ => match split_once 64 name with Some (n, a) => MkName n (Some a) | None => MkName name None end
  end.

(** The first child that matches, from there on the next segment. *)
Fixpoint lookup (d : nat) (c : CellSizes) (f : forest) (want : list Z) (segs : list (list Z)) : option entry :=
  match f with
  | FNil => None
  | FCons name ps ch sib =>
      if name_matches want (name_of name) then
        match segs with
        | [] => Some (MkEntryOf d c name ps)
        | next :: segs => lookup (S d) (tracked d (child_cells c ps)) ch next segs
        end
      else lookup d c sib want segs
  end.

(** The same on the nodes in preorder. *)
Fixpoint find_entry (d : nat) (want : list Z) (segs : list (list Z)) (l : list entry) : option entry :=
  match l with
  | [] => None
  | e :: l =>
      if bool_decide (e_depth e < d)%nat then None
      else if bool_decide (d < e_depth e)%nat then find_entry d want segs l
      else if name_matches want (name_of (e_name e)) then
        match segs with [] => Some e | next :: segs => find_entry (S d) next segs l end
      else find_entry d want segs l
  end.

Lemma walk_deep f : forall d c, Forall (fun e => d <= e_depth e)%nat (walk d c f).
Proof.
  induction f as [| name ps ch IHc sib IHs]; intros d c; simpl; [constructor |]. constructor; [done |]. apply Forall_app. split; [| done].
  eapply Forall_impl; [apply IHc |]. simpl. lia.
Qed.

Lemma find_entry_skip d want segs l r :
  Forall (fun e => d < e_depth e)%nat l -> find_entry d want segs (l ++ r) = find_entry d want segs r.
Proof.
  induction 1 as [| e l He Hl IH]; [done |]. simpl. rewrite bool_decide_eq_false_2 by lia. by rewrite bool_decide_eq_true_2 by lia.
Qed.

(** Nothing more at this depth. *)
Definition above (d : nat) (l : list entry) : Prop := match l with [] => True | e :: _ => (e_depth e < d)%nat end.

Lemma walk_above d c f r : above d r -> above (S d) (walk d c f ++ r).
Proof. destruct f; simpl; [| lia]. destruct r; simpl; [done | lia]. Qed.

Lemma find_entry_lookup f : forall d c want segs r,
  above d r -> find_entry d want segs (walk d c f ++ r) = lookup d c f want segs.
Proof.
  induction f as [| name ps ch IHc sib IHs]; intros d c want segs r Hr; simpl.
  - destruct r as [| e r]; [done |]. simpl in *. by rewrite bool_decide_eq_true_2.
  - rewrite !bool_decide_eq_false_2 by lia. destruct (name_matches want (name_of name)).
    + destruct segs as [| next segs]; [done |]. rewrite <- app_assoc. apply IHc. by apply walk_above.
    + rewrite <- app_assoc, find_entry_skip; [by apply IHs |]. eapply Forall_impl; [apply walk_deep |]. simpl. lia.
Qed.

Lemma node_name_valid n : valid_utf8 (n_name n) = true -> node_name n = Ok (name_of (n_name n)).
Proof. intros Hv. unfold node_name, name_of. rewrite Hv. destruct (n_name n) as [| b s]; [done |]. by destruct (split_once 64 (b :: s)) as [[? ?] |]. Qed.

(** The node found is the entry's. *)
Definition found (strings structs : list Z) (o : option Node) (e : option entry) : Prop :=
  match o, e with
  | Some n, Some e => node_is strings structs n (e_name e) (e_props e) (e_cells e)
  | None, None => True
  | _, _ => False
  end.

Lemma find_node_loop_run strings structs it l : yields it l -> forall es fuel d want segs,
  Forall2 (entry_is strings structs) l es -> Forall (fun e => valid_utf8 (e_name e) = true) es -> (length l < fuel)%nat ->
  exists o it', find_node_loop fuel (Z.of_nat d) want segs it = Done (Ok o, it') /\ found strings structs o (find_entry d want segs es).
Proof.
  induction 1 as [it it' E | it [dx nx] it' l E Hy IH]; intros es fuel d want segs Hes Hv Hf; (destruct fuel as [| fuel]; [lia |]);
    cbn [find_node_loop]; rewrite (try_bind_Ok _ _ _ _ _ E).
  - inversion Hes; subst. by eexists None, _.
  - inversion Hes as [| ? e ? es' [Hd Hn] Hes']; subst. inversion Hv as [| ? ? Hv1 Hv2]; subst. simpl in Hd, Hn, Hf. subst dx. cbn [find_entry].
    destruct (Z.ltb_spec (Z.of_nat (e_depth e)) (Z.of_nat d)).
    { rewrite bool_decide_eq_true_2 by lia. by eexists None, _. }
    rewrite bool_decide_eq_false_2 by lia. destruct (Z.ltb_spec (Z.of_nat d) (Z.of_nat (e_depth e))).
    { rewrite bool_decide_eq_true_2 by lia. apply IH; [done | done | lia]. }
    rewrite bool_decide_eq_false_2 by lia. pose proof Hn as (En & _). rewrite node_name_valid by (by rewrite En). rewrite En.
    destruct (name_matches want (name_of (e_name e))); cbn [negb].
    + destruct segs as [| next segs]; [by eexists (Some nx), _ |]. replace (Z.of_nat d + 1) with (Z.of_nat (S d)) by lia.
      apply IH; [done | done | lia].
    + apply IH; [done | done | lia].
Qed.

Lemma walk_length f : forall d c, length (walk d c f) = forest_size f.
Proof. induction f as [| name ps ch IHc sib IHs]; intros d c; simpl; [done |]. by rewrite length_app, IHc, IHs. Qed.

Lemma forest_words_size strings f ws : forest_words strings f ws -> (forest_size f <= length ws)%nat.
Proof. induction 1; simpl; [lia |]. repeat (rewrite length_app; simpl). lia. Qed.

(** The lookup by path finds the node that the tree has there, if any. *)
Lemma find_node_run strings structs data reservations h n name ps f path want segs :
  root_is strings structs n name ps f -> segments path = want :: segs ->
  Forall (fun e => valid_utf8 (e_name e) = true) (walk 1 (child_cells default_cells ps) f) ->
  exists o, find_node (MkFdt data reservations h n) path = Done (Ok o)
  /\ found strings structs o (lookup 1 (child_cells default_cells ps) f want segs).
Proof.
  intros Hr Hseg Hv. destruct (fdt_nodes_run strings structs data reservations h n name ps f Hr) as (it & ws & En & Hit & Hlen).
  destruct (iter_yields strings structs _ it _ ws eq_refl Hit) as (l & Hy & Hl). simpl in Hl. rewrite app_nil_r in Hl.
  unfold find_node. destruct path as [| b rest]; [done |]. cbn [segments] in Hseg. destruct (b =? 47); [| done]. rewrite Hseg.
  unfold bind_ok. rewrite (outcome_bind_Done _ _ _ En). change 1 with (Z.of_nat 1). cbn [f_root].
  destruct (find_node_loop_run strings structs it l Hy _ (S (length (n_raw n))) 1 want segs Hl Hv) as (o & it' & E & Ho).
  { apply Forall2_length in Hl. rewrite walk_length in Hl. destruct Hit as (_ & Hw & _). inversion Hw as [| ? ? ? ? fw ? Hfw]; subst.
    apply forest_words_size in Hfw. rewrite length_app in Hlen. lia. }
  rewrite (outcome_bind_Done _ _ _ E). exists o. split; [done |].
  rewrite <- (app_nil_r (walk _ _ _)) in Ho. by rewrite find_entry_lookup in Ho.
Qed.
