(* ===== verification/FdtSafe.v ===== *)
(** * The device tree parser on arbitrary input

    Whatever the words of a blob are, the parser returns: it neither panics nor
    loops, except where the header or a truncated root node make it panic. *)

From stdpp Require Import base numbers list.
From Stdlib Require Import ZArith Lia.
From S2P Require Import Prelude Fdt FdtCorrect.

(** The parser returns and has not gone back; [strict] says it got ahead when
    the result is not an error. *)
Definition runs {A} (strict : bool) (m : M Parser (res A)) : Prop := forall p, exists r s',
  m p = Done (r, with_stream s' p) /\ (length s' <= length (ps_stream p))%nat
  /\ (strict = true -> (exists a, r = Ok a) -> (length s' < length (ps_stream p))%nat).

Lemma with_stream_same p : with_stream (ps_stream p) p = p.
Proof. by destruct p. Qed.

Lemma runs_weaken {A} (m : M Parser (res A)) b : runs b m -> runs false m.
Proof. intros H p. destruct (H p) as (r & s' & E & Hl & _). by exists r, s'. Qed.

Lemma reads_ret {A} (r : res A) : runs false (mret r).
Proof. intros p. exists r, (ps_stream p). rewrite with_stream_same. by split_and!. Qed.

Lemma runs_err {A} b (e : FdtError) : runs (A := A) b (mret (Err e)).
Proof. intros p. exists (Err e), (ps_stream p). rewrite with_stream_same. split_and!; [done | lia |]. intros _ [a [=]]. Qed.

Lemma reads_bind {A B} b (m : M Parser (res A)) (k : A -> M Parser (res B)) :
  runs b m -> (forall a, runs false (k a)) -> runs b (x <-? m; k x).
Proof.
  intros Hm Hk p. destruct (Hm p) as (r & s1 & E & Hl & Hs). destruct r as [a | e].
  - rewrite (try_bind_Ok _ _ _ _ _ E). destruct (Hk a (with_stream s1 p)) as (r & s2 & E2 & Hl2 & _). exists r, s2. rewrite E2.
    simpl in Hl2. split_and!; [by destruct p | lia |]. intros Hb _. specialize (Hs Hb ltac:(by exists a)). lia.
  - rewrite (try_bind_Err _ _ _ _ _ E). exists (Err e), s1. split_and!; [done | done |]. intros _ [a [=]].
Qed.

Lemma runs_read {A} b (f : Parser -> M Parser (res A)) : (forall q, runs b (f q)) -> runs b (p ← get_parser; f p).
Proof. intros H p. destruct (H p p) as (r & s' & E & Hl). exists r, s'. split; [| done]. by rewrite (M_bind_Done _ _ _ _ _ (get_parser_run p)). Qed.

Lemma runs_data {A} b (f : list Z -> M Parser (res A)) : (forall q, runs b (f q)) -> runs b (p ← parser_data; f p).
Proof. intros H p. destruct (H (ps_stream p) p) as (r & s' & E & Hl). by exists r, s'. Qed.

Lemma runs_skip {A} b n (m : M Parser (res A)) : runs b m -> runs b (_ ← skip_many n; m).
Proof.
  intros H p. set (s := default [] (slice_from n (ps_stream p))).
  assert (Hs : (length s <= length (ps_stream p))%nat). { unfold s, slice_from. case_match; simpl; [rewrite length_drop |]; lia. }
  destruct (H (with_stream s p)) as (r & s' & E & Hl & Hlt). simpl in Hl, Hlt. exists r, s'. split_and!; [| lia | intros; specialize (Hlt ltac:(done) ltac:(done)); lia].
  rewrite (M_bind_Done _ _ p tt (with_stream s p)) by done. rewrite E. by destruct p.
Qed.

Lemma token_loop_length s : (length (advance_token_loop s).2 <= length s)%nat
  /\ ((exists t, (advance_token_loop s).1 = Ok t) -> (length (advance_token_loop s).2 < length s)%nat).
Proof.
  induction s as [| w s [IH1 IH2]]; simpl; [by split; [| intros [? [=]]] |]. destruct (w =? NOP); [split; [lia | intros H; specialize (IH2 H); lia] |].
  destruct (is_token w); simpl; split; intros; lia.
Qed.

Lemma runs_advance_token : runs true advance_token.
Proof.
  intros p. destruct (token_loop_length (ps_stream p)) as [H1 H2]. eexists _, _. split; [done |]. split; [done |]. intros _. exact H2.
Qed.

Lemma runs_peek_token : runs false peek_token.
Proof. intros p. eexists _, (ps_stream p). rewrite with_stream_same. by split_and!. Qed.

Lemma runs_next_u32 : runs false next_u32.
Proof.
  unfold next_u32. apply reads_bind; [| intros a; apply reads_ret]. intros [s st sc]. destruct s as [| w s].
  - by exists (Err UnexpectedEof), [].
  - exists (Ok w), s. split_and!; simpl; [done | lia | done].
Qed.

Lemma runs_advance_cstr : runs false advance_cstr.
Proof. apply runs_data. intros s. case_match; [| apply runs_err]. apply runs_skip, reads_ret. Qed.

Lemma runs_parse_header : runs false parse_header.
Proof. unfold parse_header. repeat (apply reads_bind; [apply runs_next_u32 | intros ?]). apply reads_ret. Qed.

Lemma runs_parse_raw_property : runs true parse_raw_property.
Proof.
  unfold parse_raw_property. apply reads_bind; [apply runs_advance_token | intros t]. destruct (t =? PROP); [| apply runs_err].
  apply reads_bind; [apply runs_next_u32 | intros len]. apply reads_bind; [apply runs_next_u32 | intros off].
  apply runs_data. intros s. case_match; [| apply runs_err]. apply runs_skip, reads_ret.
Qed.

(** The loops over properties: what is run with fuel above the length of the
    stream returns. *)
Definition runs_at {A} (m : M Parser (res A)) (p : Parser) : Prop :=
  exists r s', m p = Done (r, with_stream s' p) /\ (length s' <= length (ps_stream p))%nat.

Lemma runs_at_step {A B} (m : M Parser (res A)) (k : A -> M Parser (res B)) p b :
  runs b m -> (forall a s, (length s <= length (ps_stream p))%nat -> (b = true -> (length s < length (ps_stream p))%nat) ->
    runs_at (k a) (with_stream s p)) -> runs_at (x <-? m; k x) p.
Proof.
  intros Hm Hk. destruct (Hm p) as (r & s1 & E & Hl & Hs). destruct r as [a | e].
  - unfold runs_at. rewrite (try_bind_Ok _ _ _ _ _ E). destruct (Hk a s1 Hl) as (r & s2 & E2 & Hl2); [intros Hb; apply Hs; [done | by exists a] |].
    exists r, s2. rewrite E2. simpl in Hl2. split; [by destruct p | lia].
  - unfold runs_at. rewrite (try_bind_Err _ _ _ _ _ E). by exists (Err e), s1.
Qed.

Lemma child_cells_loop_runs fuel : forall cells p, (length (ps_stream p) < fuel)%nat -> runs_at (child_cells_loop fuel cells) p.
Proof.
  induction fuel as [| fuel IH]; intros cells p Hf; [lia |]. cbn [child_cells_loop]. eapply runs_at_step; [apply runs_peek_token |]. intros t s Hs _.
  destruct (t =? PROP).
  2: { destruct (reads_ret (Ok cells) (with_stream s p)) as (r & s' & E & Hl & _). by exists r, s'. }
  eapply runs_at_step; [apply runs_parse_raw_property |]. intros [off raw] s2 _ Hs2. specialize (Hs2 eq_refl). simpl in Hs2.
  unfold runs_at. rewrite (M_bind_Done _ _ _ _ _ (get_parser_run _)). case_match.
  - apply IH. simpl. lia.
  - by eexists _, s2.
Qed.

Lemma runs_child_cell_sizes c : runs false (child_cell_sizes c).
Proof. intros p. destruct (child_cells_loop_runs (S (length (ps_stream p))) c p) as (r & s' & E & Hl); [lia |]. by exists r, s'. Qed.

Lemma skip_properties_runs fuel : forall p, (length (ps_stream p) < fuel)%nat -> runs_at (skip_properties fuel) p.
Proof.
  induction fuel as [| fuel IH]; intros p Hf; [lia |]. cbn [skip_properties]. eapply runs_at_step; [apply runs_peek_token |]. intros t s Hs _.
  destruct (t =? PROP).
  2: { destruct (reads_ret (Ok tt) (with_stream s p)) as (r & s' & E & Hl & _). by exists r, s'. }
  eapply runs_at_step; [apply runs_parse_raw_property |]. intros ? s2 _ Hs2. specialize (Hs2 eq_refl). simpl in Hs2. apply IH. simpl. lia.
Qed.

(** ** The root and the header *)

(** The block ends with the token that begins the root. *)
Definition truncated (structs : list Z) : Prop := advance_token_loop structs = (Ok BEGIN_NODE, []).

Lemma child_cell_sizes_empty c p : ps_stream p = [] -> child_cell_sizes c p = Done (Err UnexpectedEof, p).
Proof. destruct p as [s st sc]. simpl. intros ->. done. Qed.

(** A root node with at most [n] words of contents, if any. *)
Definition raw_within (n : nat) (r : res Node) : Prop := match r with Ok nd => (length (n_raw nd) <= n)%nat | Err _ => True end.

Lemma parse_root_panics p : Z.of_nat (length (ps_stream p)) < 2 ^ 60 ->
  (truncated (ps_stream p) /\ parse_root p = Panicked)
  \/ exists r p', parse_root p = Done (r, p') /\ raw_within (length (ps_stream p)) r.
Proof.
  intros Hb. unfold parse_root. destruct (advance_token_loop (ps_stream p)) as [t s] eqn:Et.
  assert (E : advance_token p = Done (t, with_stream s p)) by (unfold advance_token; by rewrite Et).
  pose proof (token_loop_length (ps_stream p)) as [Hl _]. rewrite Et in Hl. simpl in Hl.
  destruct t as [t | e]; [| rewrite (try_bind_Err _ _ _ _ _ E); right; by eexists _, _]. rewrite (try_bind_Ok _ _ _ _ _ E).
  destruct (Z.eqb_spec t BEGIN_NODE) as [-> |]; [| right; by eexists _, _]. cbn [negb].
  rewrite (M_bind_Done _ _ _ s (with_stream s p)) by done. cbv zeta. destruct s as [| w s].
  { left. split; [exact Et | done]. }
  right. erewrite M_bind_Done by (apply lift_Done, u_sub_Done; rewrite length_bytes_of; unfold is_usize; simpl in *; lia).
  case_match; [| by eexists _, _]. case_match; [by eexists _, _ |]. case_match; [by eexists _, _ |].
  destruct (runs_advance_cstr (with_stream (w :: s) p)) as ([name | e] & s1 & E1 & Hl1 & _).
  2: { rewrite (try_bind_Err _ _ _ _ _ E1). by eexists _, _. }
  rewrite (try_bind_Ok _ _ _ _ _ E1). erewrite M_bind_Done by done. cbn [ps_stream with_stream] in *.
  destruct s1 as [| w1 s1].
  { erewrite try_bind_Err by (by apply child_cell_sizes_empty). by eexists _, _. }
  match goal with |- context [child_cell_sizes ?c] => destruct (runs_child_cell_sizes c (with_stream (w1 :: s1) (with_stream (w :: s) p))) as ([c' | e] & s2 & E2 & _) end.
  2: { rewrite (try_bind_Err _ _ _ _ _ E2). by eexists _, _. }
  rewrite (try_bind_Ok _ _ _ _ _ E2). erewrite M_bind_Done by (apply lift_Done, u_sub_Done; unfold is_usize; simpl in *; lia).
  eexists _, _. split; [done |]. cbn [raw_within n_raw]. rewrite length_take. cbn [ps_stream with_stream] in *. lia.
Qed.

Lemma run_parser_runs {A} b (m : M Parser (res A)) d s t : runs b m -> exists r, run_parser m d s t = Done r.
Proof. intros H. destruct (H (MkParser d s t)) as (r & s' & E & _). exists r. unfold run_parser. by rewrite (outcome_bind_Done _ _ _ E). Qed.

Lemma slice_get_length a b l l' : slice_get a b l = Some l' -> (length l' <= length l)%nat.
Proof. unfold slice_get. case_match; [| done]. intros [= <-]. rewrite length_take, length_drop. lia. Qed.

(** Why opening a blob panics. *)
Definition panic_reason (data : list Z) (h : Header) : Prop :=
  magic h = DTB_MAGIC
  /\ (2 ^ 32 <= strings_offset h + strings_size h \/ 2 ^ 32 <= structs_offset h + structs_size h
      \/ total_size h < memory_reserve_map_offset h
      \/ exists structs, slice_get (structs_offset h / 4) (structs_offset h / 4 + structs_size h / 4) data = Some structs /\ truncated structs).

(** It returns with [Q], or panics for the reason [R]. *)
Definition returns_or {A} (Q : A -> Prop) (R : Prop) (o : outcome A) : Prop := match o with Done a => Q a | Panicked => R | Undefined => False end.

Definition root_within (n : nat) (r : res Fdt) : Prop := match r with Ok fd => (length (n_raw (f_root fd)) <= n)%nat | Err _ => True end.

Lemma fdt_new_returns data : Z.of_nat (length data) < 2 ^ 60 ->
  returns_or (root_within (length data)) (exists h, run_parser parse_header data [] [] = Done (Ok h) /\ panic_reason data h) (fdt_new data).
Proof.
  intros Hb. unfold fdt_new. cbv zeta. destruct (run_parser_runs _ _ data [] [] runs_parse_header) as [[h | e] E]; rewrite E; [| done].
  unfold bind_ok at 1. rewrite (outcome_bind_Done _ _ (Ok h)) by done. set (R := exists h', _ /\ _).
  assert (HR : panic_reason data h -> R) by (intros; by exists h). unfold panic_reason in HR.
  destruct (Z.eqb_spec (magic h) DTB_MAGIC); cbn [negb]; [| done].
  destruct (Z.of_nat (length data) <? total_size h / 4); [done |]. unfold u32_add.
  destruct (Z.ltb_spec (strings_offset h + strings_size h) (2 ^ 32)); [| simpl; auto].
  destruct (Z.ltb_spec (structs_offset h + structs_size h) (2 ^ 32)); [| simpl; auto].
  cbn [mbind outcome_bind]. case_match; [done |].
  match goal with |- context [ok_or _ ?g] => destruct g as [strings |] end; [| done]. unfold bind_ok at 1. cbn [ok_or mret outcome_ret mbind outcome_bind].
  destruct (slice_get (structs_offset h / 4) _ data) as [structs |] eqn:Est; [| done]. unfold bind_ok at 1. cbn [ok_or mret outcome_ret mbind outcome_bind].
  unfold u32_sub. destruct (Z.leb_spec (memory_reserve_map_offset h) (total_size h)); [| simpl; auto 6].
  cbn [mbind outcome_bind]. match goal with |- context [ok_or _ ?g] => destruct g as [reservations |] end; [| done].
  unfold bind_ok at 1. cbn [ok_or mret outcome_ret mbind outcome_bind]. unfold bind_ok, run_parser.
  apply slice_get_length in Est as Hst. destruct (parse_root_panics (MkParser structs strings structs)) as [[Ht ->] | (r & p' & -> & Hr)].
  - simpl. lia.
  - apply HR. split; [done |]. do 3 right. by exists structs.
  - destruct r; [| done]. simpl in *. lia.
Qed.

(** ** The iterator *)

Definition iter_runs {A} (m : M NodesIter A) (it : NodesIter) (Q : A -> NodesIter -> Prop) : Prop := exists r it', m it = Done (r, it') /\ Q r it'.

Definition weight (it : NodesIter) : Z := ni_depth it + Z.of_nat (length (ps_stream (ni_parser it))).

Lemma in_parser_runs {A} b (m : M Parser (res A)) it : runs b m ->
  exists r s', in_parser m it = Done (r, MkNodes (with_stream s' (ni_parser it)) (ni_depth it) (ni_stack it))
    /\ (length s' <= length (ps_stream (ni_parser it)))%nat
    /\ (b = true -> (exists a, r = Ok a) -> (length s' < length (ps_stream (ni_parser it)))%nat).
Proof. intros H. destruct (H (ni_parser it)) as (r & s' & E & Hl). exists r, s'. split; [by apply in_parser_run | done]. Qed.

Lemma leave_nodes_runs fuel : forall it, (length (ps_stream (ni_parser it)) < fuel)%nat -> 0 <= ni_depth it ->
  exists it', leave_nodes fuel it = Done (tt, it') /\ 0 <= ni_depth it' /\ weight it' <= weight it
    /\ (length (ps_stream (ni_parser it')) <= length (ps_stream (ni_parser it)))%nat.
Proof.
  induction fuel as [| fuel IH]; intros it Hf Hd; [lia |]. cbn [leave_nodes].
  destruct it as [[s st sc] d stk]. cbn [ni_parser ni_depth ni_stack ps_stream] in *.
  erewrite M_bind_Done by (apply in_parser_run; done). cbn [ni_parser ni_depth ni_stack ps_stream].
  pose proof (token_loop_length s) as [H1 H2]. destruct (advance_token_loop s) as [[t | e] s1] eqn:Et; cbn [fst snd] in *.
  2: { eexists. split; [done |]. unfold weight. simpl. lia. }
  destruct (t =? END_NODE). 2: { eexists. split; [done |]. unfold weight. simpl. lia. }
  specialize (H2 ltac:(by exists t)).
  erewrite M_bind_Done by (apply in_parser_run; apply advance_token_run; exact Et). cbn [ni_parser ni_depth ni_stack].
  do 2 erewrite M_bind_Done by done. cbn [ni_parser ni_depth ni_stack].
  destruct (IH (MkNodes (MkParser s1 st sc) (Z.max 0 (d - 1)) stk)) as (it' & E & Hd' & Hw & Hl); cbn [ni_parser ni_depth ni_stack ps_stream] in *; [lia | lia |].
  exists it'. split; [exact E |]. unfold weight in *. cbn [ni_parser ni_depth ni_stack ps_stream] in *. lia.
Qed.

Lemma begin_node_runs it : 1 <= ni_depth it -> weight it < 2 ^ 60 ->
  exists r it', begin_node it = Done (r, it') /\ ni_depth it' = ni_depth it
    /\ (length (ps_stream (ni_parser it')) <= length (ps_stream (ni_parser it)))%nat.
Proof.
  intros Hd Hw. unfold begin_node. destruct (in_parser_runs _ _ it runs_advance_cstr) as ([name | e] & s1 & E1 & Hl1 & _).
  2: { rewrite (try_bind_Err _ _ _ _ _ E1). by eexists _, _. }
  rewrite (try_bind_Ok _ _ _ _ _ E1). erewrite M_bind_Done by done. erewrite M_bind_Done by done. cbn [ni_parser ni_depth ni_stack].
  erewrite M_bind_Done by (apply lift_Done, u_sub_Done; unfold is_usize, weight in *; lia).
  match goal with |- context [child_cell_sizes ?c] => set (cc := c) end.
  set (it1 := MkNodes (with_stream s1 (ni_parser it)) (ni_depth it) (ni_stack it)).
  destruct (in_parser_runs _ _ it1 (runs_child_cell_sizes cc)) as ([child | e] & s2 & E2 & Hl2 & _); simpl in Hl2.
  2: { rewrite (try_bind_Err _ _ _ _ _ E2). eexists _, _. split; [done |]. simpl. lia. }
  rewrite (try_bind_Ok _ _ _ _ _ E2). eexists _, _. split; [done |]. simpl. lia.
Qed.

Lemma nodes_next_runs it : 0 <= ni_depth it -> weight it < 2 ^ 60 ->
  exists r it', nodes_next it = Done (r, it') /\ 0 <= ni_depth it' /\ weight it' <= weight it
    /\ ((exists x, r = Ok (Some x)) -> (length (ps_stream (ni_parser it')) < length (ps_stream (ni_parser it)))%nat).
Proof.
  intros Hd Hw. unfold nodes_next.
  destruct (leave_nodes_runs (S (length (ps_stream (ni_parser it)))) it) as (it1 & E1 & Hd1 & Hw1 & Hl1); [lia | done |].
  rewrite (M_bind_Done _ _ _ _ _ E1). destruct (in_parser_runs _ _ it1 runs_advance_token) as (t & s2 & E2 & Hl2 & Hlt2).
  rewrite (M_bind_Done _ _ _ _ _ E2). clear E1 E2. assert (Hstop : forall r : res (option (Z * Node)), (~ exists x, r = Ok (Some x)) ->
    exists r' it', Done (r, MkNodes (with_stream s2 (ni_parser it1)) (ni_depth it1) (ni_stack it1)) = Done (r', it') /\ 0 <= ni_depth it' /\ weight it' <= weight it
    /\ ((exists x : Z * Node, r' = Ok (Some x)) -> (length (ps_stream (ni_parser it')) < length (ps_stream (ni_parser it)))%nat)).
  { intros r Hr. eexists _, _. split; [done |]. unfold weight in *. simpl. split_and!; [done | lia | done]. }
  destruct t as [t | []]; try (apply Hstop; intros [x [=]]).
  specialize (Hlt2 eq_refl ltac:(by exists t)). destruct (t =? BEGIN_NODE).
  2: { destruct (t =? END); apply Hstop; intros [x [=]]. }
  erewrite M_bind_Done by done. cbn [ni_depth]. erewrite M_bind_Done by (apply lift_Done, u_add_Done; unfold is_usize, weight in *; lia).
  erewrite M_bind_Done by done. cbn [ni_parser ni_depth ni_stack].
  destruct (begin_node_runs (MkNodes (with_stream s2 (ni_parser it1)) (ni_depth it1 + 1) (ni_stack it1))) as (r & it' & E & Hd' & Hl');
    unfold weight in *; simpl in *; [lia | lia |].
  exists r, it'. split; [exact E |]. split_and!; [lia | lia | intros _; lia].
Qed.

(** The iterator runs out after these nodes, or stops with an error. *)
Inductive drains : NodesIter -> list (Z * Node) -> Prop :=
  | D_end it r it' : nodes_next it = Done (r, it') -> (~ exists x, r = Ok (Some x)) -> drains it []
  | D_next it x it' l : nodes_next it = Done (Ok (Some x), it') -> drains it' l -> drains it (x :: l).

Lemma nodes_drain n : forall it, length (ps_stream (ni_parser it)) = n -> 0 <= ni_depth it -> weight it < 2 ^ 60 -> exists l, drains it l.
Proof.
  induction n as [n IH] using lt_wf_ind. intros it Hn Hd Hw. destruct (nodes_next_runs it Hd Hw) as (r & it' & E & Hd' & Hw' & Hl).
  assert (Hr : (exists x, r = Ok (Some x)) \/ ~ (exists x, r = Ok (Some x))).
  { destruct r as [[x |] |]; [left; by exists x | right; by intros [? [=]] ..]. }
  destruct Hr as [[x ->] | Hr]; [| exists []; by eapply D_end].
  destruct (IH (length (ps_stream (ni_parser it'))) ltac:(specialize (Hl ltac:(by exists x)); lia) it' eq_refl Hd' ltac:(lia)) as [l Hdr].
  exists (x :: l). by eapply D_next.
Qed.

Lemma fdt_nodes_runs f : Z.of_nat (length (n_raw (f_root f))) < 2 ^ 60 ->
  (exists e, fdt_nodes f = Done (Err e)) \/ exists it l, fdt_nodes f = Done (Ok it) /\ drains it l.
Proof.
  intros Hb. unfold fdt_nodes. destruct (skip_properties_runs (S (length (n_raw (f_root f)))) (node_properties (f_root f))) as (r & s' & E & Hl); [simpl; lia |].
  rewrite (outcome_bind_Done _ _ _ E). cbn [fst snd]. destruct r as [[] | e]; [| left; by eexists]. right. simpl in Hl.
  match goal with |- context [mret (Ok ?i)] => destruct (nodes_drain _ i eq_refl) as [l Hdr] end.
  - simpl. lia.
  - unfold weight. simpl. lia.
  - by eexists _, l.
Qed.

(** Whatever the words of a blob are, opening it returns, or panics because
    the header has sums that overflow or a reservation block past the end, or
    because the structure block ends with the token that begins the root. After
    it opened, walking over its nodes neither panics nor goes on forever: it ends
    with an error or after finitely many nodes. *)
Theorem fdt_safe data : Z.of_nat (length data) < 2 ^ 60 ->
  match fdt_new data with
  | Done (Ok fd) => (exists e, fdt_nodes fd = Done (Err e)) \/ exists it l, fdt_nodes fd = Done (Ok it) /\ drains it l
  | Done (Err _) => True
  | Panicked => exists h, run_parser parse_header data [] [] = Done (Ok h) /\ panic_reason data h
  | Undefined => False
  end.
Proof.
  intros Hb. pose proof (fdt_new_returns data Hb) as Hr. destruct (fdt_new data) as [[fd | e] | |]; simpl in Hr; [| done ..].
  apply fdt_nodes_runs. lia.
Qed.
