(* ===== verification/FdtRegs.v ===== *)
(** * Register properties and the search for properties

    What the entries of a [reg] property decode to, and that the documented
    search over properties can be had. *)

From stdpp Require Import base numbers list.
From Stdlib Require Import ZArith Lia.
From S2P Require Import Prelude Fdt FdtCorrect FdtSafe.

(** ** Decoding registers *)

Definition cells_ok (c : CellSizes) : Prop := (address_cells c = 1 \/ address_cells c = 2) /\ 0 <= size_cells c <= 2.

Definition address_len (c : CellSizes) : nat := Z.to_nat (address_cells c * 4).
Definition size_len (c : CellSizes) : nat := Z.to_nat (size_cells c * 4).
Definition stride (c : CellSizes) : nat := (address_len c + size_len c)%nat.

Definition decode_entry (c : CellSizes) (raw : list Z) : RegEntry :=
  MkEntry (be_value (take (address_len c) raw))
          (if size_cells c =? 0 then None else Some (be_value (take (size_len c) (drop (address_len c) raw)))).
Fixpoint decode_n (n : nat) (c : CellSizes) (raw : list Z) : list RegEntry :=
  match n with O => [] | S n => decode_entry c raw :: decode_n n c (drop (stride c) raw) end.
(** All whole entries. *)
Definition decode_regs (c : CellSizes) (raw : list Z) : list RegEntry := decode_n (length raw / stride c) c raw.

Lemma stride_pos c : cells_ok c -> (4 <= stride c)%nat.
Proof. intros [Ha Hs]. unfold stride, address_len, size_len. lia. Qed.

Lemma slice_get_prefix n l : slice_get 0 (Z.of_nat n) l = if bool_decide (n <= length l)%nat then Some (take n l) else None.
Proof.
  unfold slice_get. destruct (Z.leb_spec 0 (Z.of_nat n)); [| lia]. destruct (Z.leb_spec (Z.of_nat n) (Z.of_nat (length l))).
  - rewrite bool_decide_eq_true_2 by lia. simpl. by rewrite Z.sub_0_r, Nat2Z.id.
  - by rewrite bool_decide_eq_false_2 by lia.
Qed.

Lemma slice_get_mid n m l :
  slice_get (Z.of_nat n) (Z.of_nat n + Z.of_nat m) l = if bool_decide (n + m <= length l)%nat then Some (take m (drop n l)) else None.
Proof.
  unfold slice_get. destruct (Z.leb_spec (Z.of_nat n) (Z.of_nat n + Z.of_nat m)); [| lia].
  destruct (Z.leb_spec (Z.of_nat n + Z.of_nat m) (Z.of_nat (length l))).
  - rewrite bool_decide_eq_true_2 by lia. simpl. rewrite Nat2Z.id. f_equal. f_equal. lia.
  - by rewrite bool_decide_eq_false_2 by lia.
Qed.

(** One entry. *)
Lemma regs_next_run c raw : cells_ok c ->
  regs_next (MkRegs c raw) =
    if bool_decide (stride c <= length raw)%nat then Done (Ok (Some (decode_entry c raw)), MkRegs c (drop (stride c) raw))
    else Done (Ok None, MkRegs c raw).
Proof.
  intros Hc. pose proof (stride_pos c Hc) as Hp. unfold regs_next. cbn [rg_encoded rg_cells].
  destruct raw as [| b raw]; [rewrite bool_decide_eq_false_2 by (simpl; lia); done |]. set (l := b :: raw). clearbody l. clear b raw.
  assert (Ea : address_cells c * 4 = Z.of_nat (address_len c)) by (unfold address_len; destruct Hc; lia).
  assert (Es : size_cells c * 4 = Z.of_nat (size_len c)) by (unfold size_len; destruct Hc; lia).
  rewrite Ea, Es, slice_get_prefix, slice_get_mid. unfold stride in *.
  destruct (decide (address_len c + size_len c <= length l)%nat) as [Hl | Hl].
  2: { rewrite !(bool_decide_eq_false_2 (_ + _ <= _)%nat) by lia. by case_bool_decide. }
  rewrite !bool_decide_eq_true_2 by lia. replace (Z.to_nat (Z.of_nat (address_len c) + Z.of_nat (size_len c))) with (address_len c + size_len c)%nat by lia.
  unfold decode_entry. destruct Hc as [[-> | ->] Hs]; (assert (size_cells c = 0 \/ size_cells c = 1 \/ size_cells c = 2) as [-> | [-> | ->]] by lia); done.
Qed.

Lemma decode_regs_step c raw : cells_ok c -> (stride c <= length raw)%nat ->
  decode_regs c raw = decode_entry c raw :: decode_regs c (drop (stride c) raw).
Proof.
  intros Hc Hl. pose proof (stride_pos c Hc). unfold decode_regs. rewrite length_drop.
  replace (length raw) with ((length raw - stride c) + 1 * stride c)%nat at 1 by lia. rewrite Nat.div_add by lia. by rewrite Nat.add_comm.
Qed.

Lemma decode_regs_end c raw : (length raw < stride c)%nat -> decode_regs c raw = [].
Proof. intros Hl. unfold decode_regs. by rewrite Nat.div_small. Qed.

(** Reading the entries one by one. *)
Inductive regs_yield : Regs -> list RegEntry -> Prop :=
  | RY_end r r' : regs_next r = Done (Ok None, r') -> regs_yield r []
  | RY_next r e r' l : regs_next r = Done (Ok (Some e), r') -> regs_yield r' l -> regs_yield r (e :: l).

Lemma regs_yield_decode c n : cells_ok c -> forall raw, length raw = n -> regs_yield (MkRegs c raw) (decode_regs c raw).
Proof.
  intros Hc. induction n as [n IH] using lt_wf_ind. intros raw Hn. pose proof (regs_next_run c raw Hc) as E. pose proof (stride_pos c Hc).
  case_bool_decide.
  - rewrite decode_regs_step by done. eapply RY_next; [done |]. apply (IH (length raw - stride c)%nat); [lia | by rewrite length_drop].
  - rewrite decode_regs_end by lia. by eapply RY_end.
Qed.

(** ** Encoding *)

Fixpoint be_bytes (k : nat) (n : Z) : list Z := match k with O => [] | S k => be_bytes k (n / 256) ++ [n mod 256] end.

Lemma be_bytes_length k : forall n, length (be_bytes k n) = k.
Proof. induction k as [| k IH]; intros n; simpl; [done |]. rewrite length_app, IH. simpl. lia. Qed.

Lemma be_value_bytes k : forall n, 0 <= n < 256 ^ Z.of_nat k -> be_value (be_bytes k n) = n.
Proof.
  induction k as [| k IH]; intros n Hn; [change (256 ^ Z.of_nat 0) with 1 in Hn; change (be_value (be_bytes 0 n)) with 0; lia |]. simpl be_bytes. unfold be_value. rewrite foldl_snoc. fold (be_value (be_bytes k (n / 256))).
  rewrite Nat2Z.inj_succ, Z.pow_succ_r in Hn by lia. pose proof (Z.div_mod n 256 ltac:(lia)). rewrite IH; [lia |].
  split; [apply Z.div_pos; lia | apply Z.div_lt_upper_bound; lia].
Qed.

Definition encode_entry (c : CellSizes) (e : RegEntry) : list Z :=
  be_bytes (address_len c) (starting_address e) ++ be_bytes (size_len c) (default 0 (re_size e)).
Definition entry_ok (c : CellSizes) (e : RegEntry) : Prop :=
  0 <= starting_address e < 256 ^ Z.of_nat (address_len c)
  /\ match re_size e with
     | None => size_cells c = 0
     | Some s => size_cells c <> 0 /\ 0 <= s < 256 ^ Z.of_nat (size_len c)
     end.

Lemma encode_entry_length c e : length (encode_entry c e) = stride c.
Proof. unfold encode_entry, stride. by rewrite length_app, !be_bytes_length. Qed.

Lemma decode_encode_entry c e rest : entry_ok c e -> decode_entry c (encode_entry c e ++ rest) = e.
Proof.
  intros [Ha Hs]. unfold decode_entry, encode_entry. rewrite <- app_assoc.
  rewrite take_app_length' by (by rewrite be_bytes_length). rewrite drop_app_length' by (by rewrite be_bytes_length).
  rewrite take_app_length' by (by rewrite be_bytes_length). rewrite be_value_bytes by done. destruct e as [a [s |]]; simpl in *.
  - destruct Hs as [Hn Hs]. rewrite (proj2 (Z.eqb_neq _ _) Hn). by rewrite be_value_bytes.
  - rewrite Hs. done.
Qed.

Lemma decode_encode c es : cells_ok c -> Forall (entry_ok c) es -> decode_regs c (es ≫= encode_entry c) = es.
Proof.
  intros Hc. induction 1 as [| e es He Hes IH]; [apply decode_regs_end; pose proof (stride_pos c Hc); simpl; lia |].
  rewrite bind_cons, decode_regs_step; [| done | rewrite length_app, encode_entry_length; lia].
  by rewrite decode_encode_entry, drop_app_length', IH by (done || by rewrite encode_entry_length).
Qed.

(** ** The search for a property *)

(** A loop with as many rounds as the stream has words. *)
Fixpoint find_loop (fuel : nat) (f : Property -> bool) : M Parser (res (option Property)) :=
  match fuel with
  | O => fun _ => Undefined
  | S fuel =>
      r <-? properties_next;
      match r with
      | None => mret (Ok None)
      | Some x => if f x then mret (Ok (Some x)) else find_loop fuel f
      end
  end.

Lemma properties_next_runs p : exists r s', properties_next p = Done (r, with_stream s' p)
  /\ ((exists x, r = Ok (Some x)) -> (length s' < length (ps_stream p))%nat).
Proof.
  unfold properties_next. destruct (advance_token_loop (ps_stream p)) as [t s] eqn:Et.
  assert (E : peek_token p = Done (t, p)) by (unfold peek_token; by rewrite Et). destruct t as [t | e].
  2: { rewrite (try_bind_Err _ _ _ _ _ E). exists (Err e), (ps_stream p). rewrite with_stream_same. split; [done | intros [? [=]]]. }
  rewrite (try_bind_Ok _ _ _ _ _ E). destruct (t =? PROP).
  2: { exists (Ok None), (ps_stream p). rewrite with_stream_same. split; [done | intros [? [=]]]. }
  destruct (runs_parse_raw_property p) as ([r | e] & s' & E1 & _ & Hl).
  - rewrite (try_bind_Ok _ _ _ _ _ E1). rewrite (M_bind_Done _ _ _ _ _ (get_parser_run _)). case_match; eexists _, s'; (split; [done |]).
    + intros _. apply Hl; [done | by exists r].
    + intros [? [=]].
  - rewrite (try_bind_Err _ _ _ _ _ E1). exists (Err e), s'. split; [done | intros [? [=]]].
Qed.

Lemma find_loop_fuel f n : forall m p, (length (ps_stream p) < n)%nat -> (length (ps_stream p) < m)%nat -> find_loop n f p = find_loop m f p.
Proof.
  induction n as [| n IH]; intros m p Hn Hm; [lia |]. destruct m as [| m]; [lia |]. cbn [find_loop].
  destruct (properties_next_runs p) as ([[x |] | e] & s' & E & Hl).
  - rewrite !(try_bind_Ok _ _ _ _ _ E). destruct (f x); [done |]. specialize (Hl ltac:(by exists x)). apply IH; simpl; lia.
  - by rewrite !(try_bind_Ok _ _ _ _ _ E).
  - by rewrite !(try_bind_Err _ _ _ _ _ E).
Qed.

Program Definition loop_find : PropertiesFind := {| find := fun f p => find_loop (S (length (ps_stream p))) f p |}.
Next Obligation.
  intros f p. cbn [find_loop]. destruct (properties_next_runs p) as ([[x |] | e] & s' & E & Hl).
  - rewrite !(try_bind_Ok _ _ _ _ _ E). destruct (f x); [done |]. specialize (Hl ltac:(by exists x)). apply (find_loop_fuel f _ (S (length s'))); simpl; lia.
  - by rewrite !(try_bind_Ok _ _ _ _ _ E).
  - by rewrite !(try_bind_Err _ _ _ _ _ E).
Qed.
