(* ===== verification/LoaderFdt.v ===== *)
(** * What the loader reads from the device tree
      (sys/loader-common/src/fdt.rs, sys/loader-flat/src/machine_info.rs)

    The console, the random seed and the physical memory of the machine. *)

From stdpp Require Import base numbers list.
From Stdlib Require Import ZArith Lia.
From Stdlib Require Ascii String.
Import (notations) String.
From S2P Require Import Prelude Address ArrayVec LoaderRegions KernelMapping Fdt.

(** The bytes of a string literal. *)
Definition lit (s : String.string) : list Z := (fun c => Z.of_nat (Ascii.nat_of_ascii c)) <$> String.list_ascii_of_string s.

Arguments lit _%_string_scope.

(** The errors of the loader that these functions return. *)
Inductive CommonError : Type := CommonFdt (e : FdtError) | CommonTooManyRegions.
Inductive FlatError : Type := FlatFdt (e : FdtError) | FlatCommon (e : CommonError) | NoRngSeed.

(** [.ok().flatten()] on a search *)
Definition ok_flatten {A} (m : outcome (res (option A))) : outcome (option A) :=
  r ← m; mret (match r with Ok o => o | Err _ => None end).
Definition ok_opt {A} (r : res A) : option A := match r with Ok a => Some a | Err _ => None end.
(** [?] on an [Option] *)
Definition and_then {A B} (m : outcome (option A)) (k : A -> outcome (option B)) : outcome (option B) :=
  o ← m; match o with Some a => k a | None => mret None end.
Definition or_else {A} (m k : outcome (option A)) : outcome (option A) :=
  o ← m; match o with Some a => mret (Some a) | None => k end.

Definition boot_hartid (f : Fdt) : option Z := Some (boot_cpuid (f_header f)).

Definition split_options (spec : list Z) : list Z * option (list Z) :=
  match split_once 58 spec with Some (path, options) => (path, Some options) | None => (spec, None) end.

Definition is_digit (b : Z) : bool := (48 <=? b) && (b <=? 57).
Fixpoint leading_digits (l : list Z) : list Z :=
  match l with b :: l => if is_digit b then b :: leading_digits l else [] | [] => [] end.
(** [str::parse::<u32>] on digits *)
Definition parse_u32 (l : list Z) : option Z :=
  let n := foldl (fun n b => n * 10 + (b - 48)) 0 l in
  match l with [] => None | _ => if n <? 2 ^ 32 then Some n else None end.
Definition parse_baud (options : list Z) : option Z := parse_u32 (leading_digits options).

Section Discover.
Context `{PropertiesFind}.

(** [first_chunk::<32>] *)
Definition rng_seed (chosen : Node) : outcome (option (list Z)) :=
  and_then (ok_flatten (find_property chosen (lit "rng-seed"))) (fun prop =>
  mret (if (32 <=? length (pr_raw prop))%nat then Some (take 32 (pr_raw prop)) else None)).

Definition u32_prop (node : Node) (name : list Z) : outcome (option Z) :=
  and_then (ok_flatten (find_property node name)) (fun p => mret (ok_opt (as_u32 p))).

(** The path of the console, and its options. *)
Definition stdout_path (f : Fdt) (prop : list Z) : outcome (option (list Z * option (list Z))) :=
  let '(head, options) := split_options prop in
  if match head with b :: _ => b =? 47 | [] => false end then mret (Some (head, options))
  else
    and_then (ok_flatten (find_node f (lit "/aliases"))) (fun aliases =>
    and_then (ok_flatten (find_property aliases head)) (fun p =>
    and_then (mret (ok_opt (as_str p))) (fun aliased =>
    let '(path, alias_options) := split_options aliased in
    mret (Some (path, match options with Some o => Some o | None => alias_options end))))).

(** The first entry of the [reg] of a node. *)
Definition first_reg (node : Node) : outcome (option RegEntry) :=
  and_then (ok_flatten (node_reg node)) (fun regs => r ← regs_next regs; mret (match r.1 with Ok o => o | Err _ => None end)).

Definition stdout_uart (f : Fdt) (chosen : Node) (page_size : Z) : outcome (option DiscoveredUart) :=
  and_then (or_else (ok_flatten (find_property chosen (lit "stdout-path"))) (ok_flatten (find_property chosen (lit "linux,stdout-path")))) (fun p =>
  and_then (mret (ok_opt (as_str p))) (fun prop =>
  and_then (stdout_path f prop) (fun '(path, options) =>
  and_then (ok_flatten (find_node f path)) (fun node =>
  let cells := n_cell_sizes node in
  if negb ((address_cells cells =? 1) || (address_cells cells =? 2)) || (2 <? size_cells cells) then mret None
  else
    and_then (first_reg node) (fun reg =>
    regs ← range_from_start_len (starting_address reg) (default page_size (re_size reg));
    and_then (u32_prop node (lit "clock-frequency")) (fun clock_frequency =>
    baud ← or_else (mret (match options with Some o => parse_baud o | None => None end)) (u32_prop node (lit "current-speed"));
    reg_shift ← u32_prop node (lit "reg-shift");
    reg_io_width ← u32_prop node (lit "reg-io-width");
    and_then (ok_flatten (find_property node (lit "interrupts"))) (fun irq =>
    and_then (mret (ok_opt (as_u32 irq))) (fun irq_num =>
    mret (Some (MkDiscovered regs clock_frequency (default 115200 baud) (default 0 reg_shift) (default 1 reg_io_width) irq_num)))))))))).

(** ** Physical memory *)

(** The vectors being filled, and the depth of the container of the reserved regions. *)
Record Discovery : Type := MkDiscovery { di_memories : ArrayVec MemoryRegion; di_reserved : ArrayVec MemoryRegion; di_root : option Z }.

Definition map_region_err (m : M (ArrayVec MemoryRegion) (result LoaderError unit)) : M (ArrayVec MemoryRegion) (result CommonError unit) :=
  r ← m; mret (match r with Ok u => Ok u | Err TooManyRegions => Err CommonTooManyRegions end).

(** Each entry takes at least one byte off what is left. *)
Fixpoint collect_loop (fuel : nat) (regs : Regs) : M (ArrayVec MemoryRegion) (result CommonError unit) :=
  match fuel with
  | O => fun _ => Undefined
  | S fuel =>
      r ← lift (regs_next regs);
      match r.1 with
      | Err e => mret (Err (CommonFdt e))
      | Ok None => mret (Ok tt)
      | Ok (Some reg) =>
          rg ← lift (range_from_start_len (starting_address reg) (default 0 (re_size reg)));
          _ <-? map_region_err (push_region (MkRegion rg Usable));
          collect_loop fuel r.2
      end
  end.
Definition collect_regions (node : Node) : M (ArrayVec MemoryRegion) (result CommonError unit) :=
  r ← lift (node_reg node);
  match r with
  | Err e => mret (Err (CommonFdt e))
  | Ok None => mret (Ok tt)
  | Ok (Some regs) => collect_loop (S (length (rg_encoded regs))) regs
  end.

Definition in_memories {A} (m : M (ArrayVec MemoryRegion) A) : M Discovery A := fun d =>
  r ← m (di_memories d); mret (r.1, MkDiscovery r.2 (di_reserved d) (di_root d)).
Definition in_reserved {A} (m : M (ArrayVec MemoryRegion) A) : M Discovery A := fun d =>
  r ← m (di_reserved d); mret (r.1, MkDiscovery (di_memories d) r.2 (di_root d)).
Definition set_root (o : option Z) : M Discovery unit := fun d => Done (tt, MkDiscovery (di_memories d) (di_reserved d) o).
Definition get_root : M Discovery (option Z) := fun d => Done (di_root d, d).

(** [p.as_cstr().ok()] of the device type is [Some(c"memory")] *)
Definition is_memory_type (p : option Property) : bool :=
  match p with Some p => bool_decide (ok_opt (as_cstr p) = Some (lit "memory")) | None => false end.

(** The body of the loop over the nodes. *)
Definition discover_node (depth : Z) (node : Node) : M Discovery (result CommonError unit) :=
  root ← get_root;
  _ ← (if match root with Some root => depth <=? root | None => false end then set_root None else mret tt);
  match node_name node with
  | Err e => mret (Err (CommonFdt e))
  | Ok name =>
      prev ← lift (u_sub depth 1);
      root ← get_root;
      if bool_decide (root = Some prev) then in_reserved (collect_regions node)
      else if bool_decide (nn_name name = lit "reserved-memory") then _ ← set_root (Some depth); mret (Ok tt)
      else if bool_decide (nn_name name = lit "memory") then
        p ← lift (find_property node (lit "device_type"));
        match p with
        | Err e => mret (Err (CommonFdt e))
        | Ok p => if is_memory_type p then in_memories (collect_regions node) else mret (Ok tt)
        end
      else mret (Ok tt)
  end.

Fixpoint discover_nodes (fuel : nat) (nodes : NodesIter) : M Discovery (result CommonError unit) :=
  match fuel with
  | O => fun _ => Undefined
  | S fuel =>
      r ← lift (nodes_next nodes);
      match r.1 with
      | Err e => mret (Err (CommonFdt e))
      | Ok None => mret (Ok tt)
      | Ok (Some (depth, node)) => _ <-? discover_node depth node; discover_nodes fuel r.2
      end
  end.

(** The two loops that apply the reservations. *)
Fixpoint apply_entries (fuel : nat) (reservations : ReserveEntries) : M (ArrayVec MemoryRegion) (result CommonError unit) :=
  match fuel with
  | O => fun _ => Undefined
  | S fuel =>
      r ← lift (reserve_next reservations);
      match r.1 with
      | Err e => mret (Err (CommonFdt e))
      | Ok None => mret (Ok tt)
      | Ok (Some entry) =>
          region ← lift (range_from_start_len (rv_address entry) (rv_size entry));
          _ <-? map_region_err (apply_reservation region Unusable);
          apply_entries fuel r.2
      end
  end.
Fixpoint apply_reserved (fuel : nat) (reserved : @IntoIter MemoryRegion) : M (ArrayVec MemoryRegion) (result CommonError unit) :=
  match fuel with
  | O => fun _ => Undefined
  | S fuel =>
      r ← lift (into_iter_next reserved);
      match r.1 with
      | None => mret (Ok tt)
      | Some region => _ <-? map_region_err (apply_reservation (mr_range region) Unusable); apply_reserved fuel r.2
      end
  end.

Definition apply_all (f : Fdt) (reserved : ArrayVec MemoryRegion) : M (ArrayVec MemoryRegion) (result CommonError unit) :=
  _ <-? apply_entries (S (length (f_reservations f))) (reserved_entries f);
  apply_reserved (S (av_len reserved)) (av_into_iter reserved).

(** The vectors have room for [N] regions. *)
Definition physical_memory_regions (N : nat) (f : Fdt) : outcome (result CommonError (ArrayVec MemoryRegion)) :=
  nodes ← fdt_nodes f;
  match nodes with
  | Err e => mret (Err (CommonFdt e))
  | Ok nodes =>
      '(r, d) ← discover_nodes (S (length (n_raw (f_root f)))) nodes (MkDiscovery (av_new N) (av_new N) None);
      match r with
      | Err e => mret (Err e)
      | Ok _ =>
          '(r, memories) ← apply_all f (di_reserved d) (di_memories d);
          mret (match r with Err e => Err e | Ok _ => Ok memories end)
      end
  end.

(** ** The machine, from the device tree *)

Record MachineInfo : Type := MkMachineInfo { mi_boot_hart_id : Z; mi_raw_fdt : option Z; mi_rng_seed : list Z; mi_uart : option DiscoveredUart }.

(** The bytes of the blob are at [raw_fdt]. *)
Definition apply_fdt_reservation (raw_fdt : Z) (f : Fdt) : M (ArrayVec MemoryRegion) (result CommonError unit) :=
  map_region_err (apply_reservation (Range raw_fdt (raw_fdt + Z.of_nat (length (as_slice f)))) FirmwareTableReclaimable).

(** The loader is between two symbols of the linker. *)
Definition apply_loader_reservation (loader_start loader_end granule_size : Z) : M (ArrayVec MemoryRegion) (result CommonError unit) :=
  a ← lift (is_aligned_to loader_start granule_size);
  _ ← lift (assert_ a);
  b ← lift (is_aligned_to loader_end granule_size);
  _ ← lift (assert_ b);
  map_region_err (apply_reservation (Range loader_start loader_end) LoaderReclaimable).

Definition flat_err (m : M (ArrayVec MemoryRegion) (result CommonError unit)) : M (ArrayVec MemoryRegion) (result FlatError unit) :=
  r ← m; mret (match r with Ok u => Ok u | Err e => Err (FlatCommon e) end).

(** [memory] are the words from [raw_fdt] on. *)
Definition from_dtb (N : nat) (raw_fdt : Z) (memory : list Z) (loader_start loader_end boot_hart_id granule_size : Z) :
    outcome (result FlatError (MachineInfo * ArrayVec MemoryRegion)) :=
  aligned ← is_aligned_to raw_fdt 4;
  _ ← assert_ aligned;
  f ← from_ptr memory;
  match f with
  | Err e => mret (Err (FlatFdt e))
  | Ok f =>
      chosen ← ok_flatten (find_node f (lit "/chosen"));
      match chosen with
      | None => Panicked
      | Some chosen =>
          seed ← rng_seed chosen;
          match seed with
          | None => mret (Err NoRngSeed)
          | Some seed =>
              uart ← stdout_uart f chosen granule_size;
              regions ← physical_memory_regions N f;
              match regions with
              | Err e => mret (Err (FlatCommon e))
              | Ok regions =>
                  '(r, regions) ← (_ <-? flat_err (apply_fdt_reservation raw_fdt f);
                                   flat_err (apply_loader_reservation loader_start loader_end granule_size)) regions;
                  mret (match r with
                        | Err e => Err e
                        | Ok _ => Ok (MkMachineInfo boot_hart_id (Some raw_fdt) seed uart, regions)
                        end)
              end
          end
      end
  end.

End Discover.
