(* ===== verification/LoaderFdtCorrect.v ===== *)
(** * The physical memory the loader finds

    On the blob of a tree, the memory that ends up usable is what the memory nodes
    list, without the reserved regions and the entries of the reservation block. *)

From stdpp Require Import base numbers list sets.
From Stdlib Require Import ZArith Lia.
From Stdlib Require String.
Import (notations) String.
From S2P Require Import Prelude Address ArrayVec LoaderRegions Fdt FdtCorrect FdtTree FdtRegs LoaderFdt.

(** ** What a tree lists *)

Definition entry_range (e : RegEntry) : range := Range (starting_address e) (starting_address e + default 0 (re_size e)).

(** The ranges of the [reg] of a node. *)
Definition node_regs (e : entry) : list RegEntry :=
  match List.find (has_name REG) (e_props e) with Some p => decode_regs (e_cells e) (pr_raw p) | None => [] end.
Definition node_ranges (e : entry) : list range := entry_range <$> node_regs e.

Definition reg_ok (r : RegEntry) : Prop := is_usize (starting_address r) /\ 0 <= default 0 (re_size r) /\ is_usize (starting_address r + default 0 (re_size r)).
Definition node_ok (e : entry) : Prop := cells_ok (e_cells e) /\ Forall reg_ok (node_regs e).

Definition base_name (name : list Z) : list Z := nn_name (name_of name).
Definition is_container (name : list Z) : bool := bool_decide (base_name name = lit "reserved-memory").
Definition is_memory (name : list Z) (ps : list Property) : bool :=
  bool_decide (base_name name = lit "memory") && is_memory_type (List.find (has_name (lit "device_type")) ps).

Inductive role : Type := ReservedRegion | Container | Memory | Other.
Definition node_role (under : bool) (name : list Z) (ps : list Property) : role :=
  if under then ReservedRegion else if is_container name then Container else if is_memory name ps then Memory else Other.

(** The nodes with a role; [under] says the parent is the container. *)
Fixpoint nodes_with (want : role -> bool) (under : bool) (d : nat) (c : CellSizes) (f : forest) : list entry :=
  match f with
  | FNil => []
  | FCons name ps ch sib =>
      let r := node_role under name ps in
      (if want r then [MkEntryOf d c name ps] else [])
      ++ nodes_with want (match r with Container => true | _ => false end) (S d) (tracked d (child_cells c ps)) ch
      ++ nodes_with want under d c sib
  end.
Definition is_mem (r : role) : bool := match r with Memory => true | _ => false end.
Definition is_res (r : role) : bool := match r with ReservedRegion => true | _ => false end.

(** No container inside another one. *)
Fixpoint flat_reserved (inside under : bool) (f : forest) : Prop :=
  match f with
  | FNil => True
  | FCons name ps ch sib =>
      match node_role under name ps with
      | ReservedRegion => flat_reserved true false ch
      | Container => inside = false /\ flat_reserved true true ch
      | _ => flat_reserved inside false ch
      end /\ flat_reserved inside under sib
  end.

(** ** Collecting the regions of a node *)

Lemma range_from_start_len_run s n : is_usize (s + n) -> range_from_start_len s n = Done (Range s (s + n)).
Proof. intros Hu. unfold range_from_start_len, addr_add. by rewrite (outcome_bind_Done _ _ _ (u_add_Done _ _ Hu)). Qed.

Definition usable_regions (rs : list range) : list MemoryRegion := (fun r => MkRegion r Usable) <$> rs.

(** A result: the vector holds more, or there was no room. *)
Definition collected (cap : nat) (l add : list MemoryRegion) (e : result CommonError unit) (v : ArrayVec MemoryRegion) : Prop :=
  match e with
  | Ok _ => holds_cap cap v (l ++ add)
  | Err e => e = CommonTooManyRegions /\ (cap < length l + length add)%nat /\ exists l', holds_cap cap v l'
  end.

Lemma collect_loop_run cap regs es : regs_yield regs es -> forall fuel v l,
  Forall reg_ok es -> holds_cap cap v l -> (length es < fuel)%nat ->
  exists e v', collect_loop fuel regs v = Done (e, v') /\ collected cap l (usable_regions (entry_range <$> es)) e v'.
Proof.
  induction 1 as [r r' E | r e r' es E Hy IH]; intros fuel v l Hok Hh Hf; (destruct fuel as [| fuel]; [simpl in *; lia |]); cbn [collect_loop];
    rewrite (M_bind_Done _ _ _ _ _ (lift_Done _ _ v E)); cbn [fst snd].
  - exists (Ok tt), v. split; [done |]. simpl. by rewrite app_nil_r.
  - inversion Hok as [| ? ? (Ha & Hs & He) Hok']; subst. erewrite M_bind_Done by (apply lift_Done, range_from_start_len_run; done).
    pose proof (push_region_spec cap v l (MkRegion (entry_range e) Usable) Hh) as Hp. unfold map_region_err. case_decide as Hd.
    + destruct Hp as (v1 & Ep & Hh1). erewrite try_bind_Ok by (by erewrite M_bind_Done by exact Ep).
      destruct (IH fuel v1 (l ++ [MkRegion (entry_range e) Usable]) Hok' Hh1) as (e' & v' & E' & Hc); [simpl in *; lia |].
      exists e', v'. split; [exact E' |]. change (usable_regions (entry_range <$> e :: es)) with (MkRegion (entry_range e) Usable :: usable_regions (entry_range <$> es)).
      unfold collected in *. destruct e'; [by rewrite <- app_assoc in Hc |].
      rewrite length_app in Hc. cbn [length] in *. destruct Hc as (? & ? & ?). split_and!; [done | lia | done].
    + erewrite try_bind_Err by (by erewrite M_bind_Done by exact Hp). eexists _, v. split; [done |].
      change (usable_regions (entry_range <$> e :: es)) with (MkRegion (entry_range e) Usable :: usable_regions (entry_range <$> es)).
      unfold collected. cbn [length]. split_and!; [done | lia | by exists l].
Qed.

Lemma decode_length c raw : cells_ok c -> (length (decode_regs c raw) <= length raw)%nat.
Proof.
  intros Hc. unfold decode_regs. assert (E : forall n l, length (decode_n n c l) = n) by (induction n; intros; simpl; congruence).
  rewrite E. apply Nat.div_le_upper_bound; pose proof (stride_pos c Hc); nia.
Qed.

Section Collect.
Context `{PropertiesFind} (strings structs : list Z) (cap : nat).

Lemma collect_regions_run n e v l :
  node_is strings structs n (e_name e) (e_props e) (e_cells e) -> node_ok e -> holds_cap cap v l ->
  exists r v', collect_regions n v = Done (r, v') /\ collected cap l (usable_regions (node_ranges e)) r v'.
Proof.
  intros Hn [Hc Hok] Hh. unfold collect_regions, node_reg, bind_ok, node_ranges, node_regs in *. pose proof Hn as (_ & Ec & _).
  rewrite (find_property_run strings structs n _ _ _ REG Hn). cbn [mbind outcome_bind]. rewrite Ec.
  erewrite M_bind_Done by (apply lift_Done; done). destruct (List.find (has_name REG) (e_props e)) as [p |].
  - eapply collect_loop_run; [apply (regs_yield_decode (e_cells e) _ Hc _ eq_refl) | done | done |]. simpl. pose proof (decode_length (e_cells e) (pr_raw p) Hc). lia.
  - exists (Ok tt), v. split; [done |]. simpl. by rewrite app_nil_r.
Qed.

(** ** One node *)

(** The container that counts at depth [d]. *)
Definition eff (d : nat) (root : option Z) : option Z :=
  match root with Some r => if Z.of_nat d <=? r then None else Some r | None => None end.

Definition holds_di (di : Discovery) (ms rs : list MemoryRegion) : Prop := holds_cap cap (di_memories di) ms /\ holds_cap cap (di_reserved di) rs.

(** What a list of nodes adds. *)
Definition adds (ms rs am ar : list MemoryRegion) (root' : option Z -> Prop) (e : result CommonError unit) (di : Discovery) : Prop :=
  match e with
  | Ok _ => holds_di di (ms ++ am) (rs ++ ar) /\ root' (di_root di)
  | Err e => e = CommonTooManyRegions /\ (cap < length ms + length am \/ cap < length rs + length ar)%nat
  end.

Lemma discover_node_run e n di ms rs under :
  (1 <= e_depth e)%nat -> Z.of_nat (e_depth e) < 2 ^ 60 -> node_is strings structs n (e_name e) (e_props e) (e_cells e) -> valid_utf8 (e_name e) = true ->
  holds_di di ms rs -> (under = true <-> eff (e_depth e) (di_root di) = Some (Z.of_nat (e_depth e) - 1)) ->
  let r := node_role under (e_name e) (e_props e) in
  (is_mem r || is_res r = true -> node_ok e) ->
  exists res di', discover_node (Z.of_nat (e_depth e)) n di = Done (res, di')
  /\ adds ms rs (if is_mem r then usable_regions (node_ranges e) else []) (if is_res r then usable_regions (node_ranges e) else [])
       (fun root => root = match r with Container => Some (Z.of_nat (e_depth e)) | _ => eff (e_depth e) (di_root di) end) res di'.
Proof.
  intros Hd1 Hd2 Hn Hv [Hm Hr] Hu r Hok. unfold discover_node. erewrite M_bind_Done by done.
  set (di1 := MkDiscovery (di_memories di) (di_reserved di) (eff (e_depth e) (di_root di))).
  rewrite (M_bind_Done _ _ _ tt di1). 2: { destruct di as [m rv [ro |]]; unfold eff, di1; simpl; [by case_match |]; done. }
  pose proof Hn as (En & _). rewrite node_name_valid by (by rewrite En). rewrite En.
  erewrite M_bind_Done by (apply lift_Done, u_sub_Done; unfold is_usize; lia). erewrite M_bind_Done by done. change (di_root di1) with (eff (e_depth e) (di_root di)).
  unfold r, node_role in *. clear r. destruct under.
  { rewrite bool_decide_eq_true_2 by (by apply Hu). cbn [is_mem is_res orb] in *. specialize (Hok eq_refl).
    destruct (collect_regions_run n e (di_reserved di) rs Hn Hok Hr) as (res & v' & E & Hc). unfold in_reserved. change (di_reserved di1) with (di_reserved di).
    rewrite (outcome_bind_Done _ _ _ E). eexists res, _. split; [done |]. unfold adds, collected in *. destruct res; [| destruct Hc as (-> & ? & _); auto].
    rewrite app_nil_r. by split. }
  rewrite bool_decide_eq_false_2 by (intros Hx; by apply Hu in Hx). unfold is_container, is_memory, base_name in *.
  case_bool_decide as Hbc.
  { eexists (Ok tt), _. split; [done |]. simpl. rewrite !app_nil_r. by split. }
  case_bool_decide as Hbm; cbn [andb].
  2: { eexists (Ok tt), _. split; [done |]. simpl. rewrite !app_nil_r. by split. }
  erewrite M_bind_Done by (apply lift_Done; by eapply find_property_run). cbv beta iota.
  destruct (is_memory_type _); [| eexists (Ok tt), _; split; [done |]; simpl; rewrite !app_nil_r; by split].
  cbn [is_mem is_res orb andb] in *. specialize (Hok eq_refl).
  destruct (collect_regions_run n e (di_memories di) ms Hn Hok Hm) as (res & v' & E & Hc). unfold in_memories. change (di_memories di1) with (di_memories di).
  rewrite (outcome_bind_Done _ _ _ E). eexists res, _. split; [done |]. unfold adds, collected in *. destruct res; [| destruct Hc as (-> & ? & _); auto].
  rewrite app_nil_r. by split.
Qed.

(** ** All nodes *)

Fixpoint discover_list (l : list (Z * Node)) : M Discovery (result CommonError unit) :=
  match l with [] => mret (Ok tt) | x :: l => _ <-? discover_node x.1 x.2; discover_list l end.

Lemma discover_nodes_list it l : yields it l -> forall fuel di, (length l < fuel)%nat -> discover_nodes fuel it di = discover_list l di.
Proof.
  induction 1 as [it it' E | it [d n] it' l E Hy IH]; intros fuel di Hf; (destruct fuel as [| fuel]; [simpl in *; lia |]); cbn [discover_nodes];
    rewrite (M_bind_Done _ _ _ _ _ (lift_Done _ _ di E)); cbn [fst snd]; [done |]. cbn [discover_list fst snd]. unfold try_bind.
  destruct (discover_node d n di) as [[[u | e] di'] | |]; [| done ..]. apply IH. simpl in *. lia.
Qed.

Lemma discover_list_app l1 l2 di : discover_list (l1 ++ l2) di = (_ <-? discover_list l1; discover_list l2) di.
Proof.
  revert di. induction l1 as [| x l1 IH]; intros di; [done |]. cbn [app discover_list]. unfold try_bind at 1 3.
  destruct (discover_node x.1 x.2 di) as [[[u | e] di'] | |] eqn:E; unfold try_bind in *; rewrite ?E; [apply IH | done ..].
Qed.

(** What counts at a depth: nothing, or a container above. *)
Definition ctx (d : nat) (root : option Z) (inside under : bool) : Prop :=
  (eff d root = None /\ inside = false /\ under = false)
  \/ exists r, eff d root = Some r /\ inside = true /\ (under = true <-> r = Z.of_nat d - 1).

Lemma eff_eff d d' root : (d' <= d)%nat -> eff d' (eff d root) = eff d' root.
Proof. intros Hd. destruct root as [r |]; simpl; [| done]. destruct (Z.leb_spec (Z.of_nat d) r); simpl; [| done]. destruct (Z.leb_spec (Z.of_nat d') r); [done | lia]. Qed.

Lemma ctx_under d root inside under : ctx d root inside under -> (under = true <-> eff d root = Some (Z.of_nat d - 1)).
Proof.
  intros [(E & _ & ->) | (r & E & _ & Hu)]; rewrite E; [by split | rewrite Hu; split; [by intros -> | by intros [= ->]]].
Qed.

Lemma eff_lt d root r : eff d root = Some r -> r < Z.of_nat d.
Proof. destruct root as [r' |]; simpl; [| done]. destruct (Z.leb_spec (Z.of_nat d) r'); [done |]. by intros [= <-]. Qed.

(** Below a node that is no container. *)
Lemma ctx_child d root inside under : ctx d root inside under -> ctx (S d) (eff d root) inside false.
Proof.
  intros [(E & -> & _) | (r & E & -> & _)]; rewrite E; [by left | right; exists r]. apply eff_lt in E. simpl.
  destruct (Z.leb_spec (Z.of_nat (S d)) r); [lia |]. split_and!; [done | done | split; [done | lia]].
Qed.

Lemma ctx_container d : ctx (S d) (Some (Z.of_nat d)) true true.
Proof. right. exists (Z.of_nat d). unfold eff. destruct (Z.leb_spec (Z.of_nat (S d)) (Z.of_nat d)); [lia |]. split_and!; [done | done | split; [lia | done]]. Qed.

Lemma ctx_same d root root' inside under : eff d root' = eff d root -> ctx d root inside under -> ctx d root' inside under.
Proof. unfold ctx. by intros ->. Qed.

(** The state after the nodes of a forest: the container that counts above is the same. *)
Definition same_above (d : nat) (root : option Z) (root' : option Z) : Prop := forall d', (d' <= d)%nat -> eff d' root' = eff d' root.

Definition regions_of (want : role -> bool) (under : bool) (d : nat) (c : CellSizes) (f : forest) : list MemoryRegion :=
  usable_regions (nodes_with want under d c f ≫= node_ranges).

Definition forest_ok (inside under : bool) (d : nat) (c : CellSizes) (f : forest) : Prop :=
  flat_reserved inside under f /\ Forall (fun e => valid_utf8 (e_name e) = true) (walk d c f)
  /\ Forall node_ok (nodes_with (fun r => is_mem r || is_res r) under d c f).

Lemma adds_seq ms rs am ar root1 am' ar' (root2 : option Z -> Prop) r1 di1 (k : M Discovery (result CommonError unit)) :
  adds ms rs am ar root1 r1 di1 ->
  (holds_di di1 (ms ++ am) (rs ++ ar) -> root1 (di_root di1) -> exists r2 di2, k di1 = Done (r2, di2) /\ adds (ms ++ am) (rs ++ ar) am' ar' root2 r2 di2) ->
  exists r di', match r1 with Ok _ => k di1 | Err e => Done (Err e, di1) end = Done (r, di') /\ adds ms rs (am ++ am') (ar ++ ar') root2 r di'.
Proof.
  intros H1 Hk. destruct r1 as [u | e].
  - destruct H1 as [Hh Hr]. destruct (Hk Hh Hr) as (r2 & di2 & E & H2). exists r2, di2. split; [done |]. unfold adds in *. destruct r2.
    + by rewrite !app_assoc.
    + rewrite !length_app in *. destruct H2 as [-> H2]. split; [done | lia].
  - eexists _, di1. split; [done |]. unfold adds in *. rewrite !length_app. destruct H1 as [-> H1]. split; [done | lia].
Qed.

Lemma usable_regions_app a b : usable_regions (a ++ b) = usable_regions a ++ usable_regions b.
Proof. apply fmap_app. Qed.

Lemma regions_of_cons want under d c name ps ch sib (r := node_role under name ps) :
  regions_of want under d c (FCons name ps ch sib) =
    (if want r then usable_regions (node_ranges (MkEntryOf d c name ps)) else [])
    ++ regions_of want (match r with Container => true | _ => false end) (S d) (tracked d (child_cells c ps)) ch
    ++ regions_of want under d c sib.
Proof.
  unfold regions_of. cbn [nodes_with]. rewrite !bind_app, !usable_regions_app. f_equal. unfold r. destruct (want _); [| done].
  rewrite bind_cons. simpl. by rewrite app_nil_r.
Qed.

Lemma forest_ok_cons inside under d c name ps ch sib (r := node_role under name ps) :
  forest_ok inside under d c (FCons name ps ch sib) ->
  (r = Container -> inside = false)
  /\ valid_utf8 name = true /\ (is_mem r || is_res r = true -> node_ok (MkEntryOf d c name ps))
  /\ forest_ok (match r with ReservedRegion | Container => true | _ => inside end) (match r with Container => true | _ => false end)
       (S d) (tracked d (child_cells c ps)) ch
  /\ forest_ok inside under d c sib.
Proof.
  intros (Hf & Hv & Hok). cbn [flat_reserved walk nodes_with] in *. fold r in Hf, Hok. destruct Hf as [Hf1 Hf2]. inversion Hv as [| ? ? Hv1 Hv2]; subst.
  apply Forall_app in Hv2 as [Hv2 Hv3]. rewrite !Forall_app in Hok. destruct Hok as (Hok1 & Hok2 & Hok3). unfold forest_ok. split_and!; try done.
  - intros Hr. by rewrite Hr in Hf1; destruct Hf1.
  - intros Hr. rewrite Hr in Hok1. by inversion Hok1.
  - destruct r; [done | by destruct Hf1 | done | done].
Qed.

(** Below any node. *)
Lemma ctx_below d root root' inside under name ps (r := node_role under name ps) :
  ctx d root inside under -> (r = Container -> inside = false) ->
  root' = match r with Container => Some (Z.of_nat d) | _ => eff d root end ->
  ctx (S d) root' (match r with ReservedRegion | Container => true | _ => inside end) (match r with Container => true | _ => false end)
  /\ same_above d root root'.
Proof.
  intros Hc Hi ->. unfold same_above. destruct r eqn:Er.
  - unfold r, node_role in Er. destruct under; [| destruct (is_container name); [done |]; by destruct (is_memory name ps)].
    split; [| intros; by apply eff_eff]. destruct Hc as [(_ & _ & [=]) | (q & E & -> & Hu)]. apply (ctx_child d root true true). right. by exists q.
  - split; [apply ctx_container |]. intros d' Hd'. specialize (Hi eq_refl). subst inside. destruct Hc as [(E & _ & _) | (q & _ & [=] & _)].
    rewrite <- (eff_eff d d' root Hd'), E. unfold eff. destruct (Z.leb_spec (Z.of_nat d') (Z.of_nat d)); [done | lia].
  - split; [by eapply ctx_child | intros; by apply eff_eff].
  - split; [by eapply ctx_child | intros; by apply eff_eff].
Qed.

Lemma discover_forest_run f : forall d c inside under l di ms rs,
  (1 <= d)%nat -> Z.of_nat (d + forest_size f) < 2 ^ 60 -> Forall2 (entry_is strings structs) l (walk d c f) ->
  forest_ok inside under d c f -> ctx d (di_root di) inside under -> holds_di di ms rs ->
  exists r di', discover_list l di = Done (r, di')
  /\ adds ms rs (regions_of is_mem under d c f) (regions_of is_res under d c f) (same_above d (di_root di)) r di'.
Proof.
  induction f as [| name ps ch IHc sib IHs]; intros d c inside under l di ms rs Hd Hb Hl Hok Hctx Hh.
  { inversion Hl; subst. exists (Ok tt), di. split; [done |]. split; [| done]. unfold regions_of. simpl. by rewrite !app_nil_r. }
  cbn [walk forest_size] in *. apply Forall2_cons_inv_r in Hl as ([dz n] & l1 & [Hdz Hn] & Hl & ->). simpl in Hdz, Hn. subst dz.
  apply Forall2_app_inv_r in Hl as (lc & lsib & Hlc & Hls & ->). apply forest_ok_cons in Hok as (Hi & Hv & Hno & Hokc & Hoks).
  set (r := node_role under name ps) in *. rewrite !regions_of_cons. fold r. cbn [discover_list fst snd]. unfold try_bind at 1.
  destruct (discover_node_run (MkEntryOf d c name ps) n di ms rs under) as (r1 & di1 & E1 & H1); try done; [simpl; lia | by eapply ctx_under |].
  cbn [e_depth e_name e_props e_cells] in E1, H1. fold r in H1. rewrite E1. eapply adds_seq; [exact H1 |]. intros Hh1 Hr1. cbv beta in Hr1.
  destruct (ctx_below d (di_root di) (di_root di1) inside under name ps Hctx Hi Hr1) as [Hctx1 Hs1]. fold r in Hctx1.
  rewrite discover_list_app. unfold try_bind.
  destruct (IHc (S d) _ _ _ lc di1 _ _ ltac:(lia) ltac:(lia) Hlc Hokc Hctx1 Hh1) as (r2 & di2 & E2 & H2). rewrite E2.
  eapply adds_seq; [exact H2 |]. intros Hh2 Hr2. cbv beta in Hr2.
  assert (Hctx2 : ctx d (di_root di2) inside under) by (eapply ctx_same; [| exact Hctx]; rewrite Hr2 by lia; by apply Hs1).
  destruct (IHs d c inside under lsib di2 _ _ Hd ltac:(lia) Hls Hoks Hctx2 Hh2) as (r3 & di3 & E3 & H3).
  exists r3, di3. split; [exact E3 |]. unfold adds in *. destruct r3; [| done]. destruct H3 as [? H3]. split; [done |].
  intros d' Hd'. rewrite H3, Hr2 by lia. by apply Hs1.
Qed.

End Collect.

(** ** Applying reservations *)

(** The entries of the reservation block, as they are read. *)
Definition word64 (low hi : Z) : Z := Z.lor low (Z.shiftl hi 32).
Fixpoint reserve_list (buf : list Z) : option (list (Z * Z)) :=
  match buf with
  | [] => Some []
  | a0 :: a1 :: s0 :: s1 :: rest =>
      if (word64 a0 a1 =? 0) || (word64 s0 s1 =? 0) then Some []
      else match reserve_list rest with Some l => Some ((word64 a0 a1, word64 s0 s1) :: l) | None => None end
  | _ => None
  end.

Inductive reserve_yield : ReserveEntries -> list (Z * Z) -> Prop :=
  | RV_end r r' : reserve_next r = Done (Ok None, r') -> reserve_yield r []
  | RV_next r a s r' l : reserve_next r = Done (Ok (Some (MkReserve a s)), r') -> reserve_yield r' l -> reserve_yield r ((a, s) :: l).

Lemma word_at_app pre w post : word_at (pre ++ w :: post) (Z.of_nat (length pre)) = Done w.
Proof. unfold word_at. rewrite Nat2Z.id, list_lookup_middle by done. done. Qed.

Lemma read_u64_run pre a b post done_ :
  read_u64 (MkEntries (pre ++ a :: b :: post) (Z.of_nat (length pre)) done_)
  = Done (word64 a b, MkEntries ((pre ++ [a; b]) ++ post) (Z.of_nat (length (pre ++ [a; b]))) done_).
Proof.
  unfold read_u64. cbn [rs_buf rs_offset rs_done]. rewrite (outcome_bind_Done _ _ _ (word_at_app pre a (b :: post))).
  assert (E : word_at (pre ++ a :: b :: post) (Z.of_nat (length pre) + 1) = Done b).
  { pose proof (word_at_app (pre ++ [a]) b post) as E. rewrite <- app_assoc in E. rewrite length_app in E. simpl in E.
    by replace (Z.of_nat (length pre) + 1) with (Z.of_nat (length pre + 1)) by lia. }
  rewrite (outcome_bind_Done _ _ _ E). f_equal. f_equal. rewrite <- app_assoc. rewrite length_app. simpl. f_equal. lia.
Qed.

Lemma reserve_next_run pre a0 a1 s0 s1 rest :
  reserve_next (MkEntries (pre ++ a0 :: a1 :: s0 :: s1 :: rest) (Z.of_nat (length pre)) false)
  = let stop := (word64 a0 a1 =? 0) || (word64 s0 s1 =? 0) in
    Done (Ok (if stop then None else Some (MkReserve (word64 a0 a1) (word64 s0 s1))),
          MkEntries ((pre ++ [a0; a1; s0; s1]) ++ rest) (Z.of_nat (length (pre ++ [a0; a1; s0; s1]))) stop).
Proof.
  unfold reserve_next. cbn [rs_buf rs_offset rs_done orb]. rewrite length_app. cbn [length].
  destruct (Z.eqb_spec (Z.of_nat (length pre)) (Z.of_nat (length pre + S (S (S (S (length rest))))))); [lia |].
  rewrite (M_bind_Done _ _ _ _ _ (read_u64_run pre a0 a1 (s0 :: s1 :: rest) false)).
  rewrite (M_bind_Done _ _ _ _ _ (read_u64_run (pre ++ [a0; a1]) s0 s1 rest false)).
  erewrite M_bind_Done by done. rewrite <- !app_assoc. cbn [app]. done.
Qed.

Lemma reserve_yields n : forall pre buf l, length buf = n ->
  reserve_list buf = Some l -> reserve_yield (MkEntries (pre ++ buf) (Z.of_nat (length pre)) false) l.
Proof.
  induction n as [n IH] using lt_wf_ind. intros pre buf l Hn Hl.
  destruct buf as [| a0 [| a1 [| s0 [| s1 rest]]]]; try done; simpl in Hl.
  { simplify_eq. eapply RV_end. unfold reserve_next. cbn [rs_buf rs_offset rs_done]. by rewrite app_nil_r, Z.eqb_refl. }
  pose proof (reserve_next_run pre a0 a1 s0 s1 rest) as E. cbv zeta in E. destruct ((word64 a0 a1 =? 0) || (word64 s0 s1 =? 0)).
  { simplify_eq. by eapply RV_end. }
  destruct (reserve_list rest) as [l' |] eqn:El; [| done]. simplify_eq. eapply RV_next; [exact E |].
  apply (IH (length rest)); [simpl; lia | done | done].
Qed.

(** Only usable and unusable regions. *)
Definition plain (l : list MemoryRegion) : Prop := Forall (fun r => mr_kind r = Usable \/ mr_kind r = Unusable) l.

Definition in_some (a : Z) (rs : list range) : Prop := exists r, r ∈ rs /\ r_start r <= a < r_end r.

(** Regions carved by a list of reservations. *)
Definition reserved_by (cap : nat) (l : list MemoryRegion) (rs : list range) (e : result CommonError unit) (v : ArrayVec MemoryRegion) : Prop :=
  match e with
  | Ok _ => exists l', holds_cap cap v l' /\ plain l' /\ (length l' + 1 <= 2 ^ length rs * (length l + 1))%nat
      /\ (forall a, usable_at l' a <-> usable_at l a /\ ~ in_some a rs) /\ forall r, r ∈ rs \/ MkRegion r Unusable ∈ l -> MkRegion r Unusable ∈ l'
  | Err e => e = CommonTooManyRegions /\ (cap < 2 ^ length rs * (length l + 1))%nat
  end.

Lemma reclaimed_plain res l a : plain l -> ~ reclaimed_at res l a.
Proof. intros Hp (r & Hr & Hk & _). unfold plain in Hp. rewrite Forall_forall in Hp. destruct (Hp r Hr), Hk; congruence. Qed.

Lemma carve_plain res l : plain l -> plain (l ≫= carve res).
Proof.
  unfold plain. rewrite !Forall_forall. intros Hp s Hs. apply list_elem_of_bind in Hs as (r & Hs & Hr).
  destruct (carve_cases res r) as [[_ E] | (_ & _ & _ & Hc)].
  - rewrite E in Hs. apply list_elem_of_singleton in Hs as ->. by apply Hp.
  - apply Hc in Hs as [-> _]. by left.
Qed.

Lemma carve_unusable res l r : MkRegion r Unusable ∈ l -> MkRegion r Unusable ∈ l ≫= carve res.
Proof.
  intros Hr. apply list_elem_of_bind. exists (MkRegion r Unusable). split; [| done]. unfold carve. cbn [mr_kind].
  rewrite bool_decide_eq_true_2 by done. simpl. by left.
Qed.

Fixpoint apply_list (rs : list range) : M (ArrayVec MemoryRegion) (result CommonError unit) :=
  match rs with [] => mret (Ok tt) | r :: rs => _ <-? map_region_err (apply_reservation r Unusable); apply_list rs end.

Lemma apply_list_app a b v : apply_list (a ++ b) v = (_ <-? apply_list a; apply_list b) v.
Proof.
  revert v. induction a as [| r a IH]; intros v; [done |]. cbn [app apply_list]. unfold try_bind at 1 3.
  destruct (map_region_err (apply_reservation r Unusable) v) as [[[u | e] v'] | |] eqn:E; unfold try_bind in *; rewrite ?E; [apply IH | done ..].
Qed.

(** One reservation, as in [apply_list]. *)
Lemma apply_one_run cap r v l : holds_cap cap v l -> plain l ->
  exists e v', map_region_err (apply_reservation r Unusable) v = Done (e, v')
  /\ match e with
     | Ok _ => exists l', holds_cap cap v' l' /\ l' ≡ₚ MkRegion r Unusable :: (l ≫= carve r)
     | Err e => e = CommonTooManyRegions /\ (cap < 2 * length l + 1)%nat
     end.
Proof.
  intros Hh Hp. destruct (apply_reservation_run r Unusable cap v l Hh) as (e & v' & E & He). unfold map_region_err.
  rewrite (M_bind_Done _ _ _ _ _ E). destruct e as [[] | []].
  - destruct He as [_ He]. by exists (Ok tt), v'.
  - exists (Err CommonTooManyRegions), v'. split_and!; [done | done |]. destruct (decide (2 * length l < cap)%nat) as [Hc |]; [| lia].
    destruct He. by apply room_enough.
Qed.

Lemma apply_list_run cap rs : forall v l, holds_cap cap v l -> plain l -> Forall (fun r => r_start r <= r_end r) rs ->
  exists e v', apply_list rs v = Done (e, v') /\ reserved_by cap l rs e v'.
Proof.
  induction rs as [| r rs IH]; intros v l Hh Hp Hrs; cbn [apply_list].
  { exists (Ok tt), v. split; [done |]. exists l. split_and!; [done | done | simpl; lia | |].
    - intros a. split; [intros; split; [done |]; by intros (? & ?%elem_of_nil & _) | by intros [? _]].
    - by intros r [?%elem_of_nil | ?]. }
  inversion Hrs as [| ? ? Hr Hrs']; subst. destruct (apply_one_run cap r v l Hh Hp) as (e1 & v1 & E1 & H1).
  pose proof (carved_length r l) as Hcl. destruct e1 as [u | e1].
  2: { rewrite (try_bind_Err _ _ _ _ _ E1). eexists _, v1. split; [done |]. destruct H1 as [-> H1]. split; [done |]. simpl.
       pose proof (Nat.pow_nonzero 2 (length rs) ltac:(lia)). nia. }
  rewrite (try_bind_Ok _ _ _ _ _ E1). destruct H1 as (l1 & Hh1 & HP1).
  assert (Hlen1 : (length l1 <= 2 * length l + 1)%nat) by (rewrite HP1; simpl; lia).
  assert (Hp1 : plain l1). { unfold plain. rewrite HP1. constructor; [by right | by apply carve_plain]. }
  assert (Hu1 : forall a, usable_at l1 a <-> usable_at l a /\ ~ (r_start r <= a < r_end r)).
  { intros a. rewrite (usable_cons_unusable _ _ _ a HP1) by done. destruct (decide (r_start r <= a < r_end r)) as [Ha | Ha].
    - split; [intros Hx; by apply carved_reserved in Hx | by intros [_ ?]].
    - rewrite carved_usable by done. split; [intros [? | Hx]; [done | by apply reclaimed_plain in Hx] | intros [? _]; by left]. }
  destruct (IH v1 l1 Hh1 Hp1 Hrs') as (e & v' & E & He). exists e, v'. split; [done |]. unfold reserved_by in *. destruct e as [[] | e].
  - destruct He as (l' & Hh' & Hp' & Hlen & Hu & Hin). exists l'. split_and!; [done | done | cbn [length Nat.pow]; nia | |].
    + intros a. rewrite Hu, Hu1. unfold in_some. split.
      * intros [[Ha Hn] Hr']. split; [done |]. intros (q & Hq & Hqa). apply elem_of_cons in Hq as [-> | Hq]; [done |]. apply Hr'. eauto.
      * intros [Ha Hn]. split_and!; [done | intros Hx; apply Hn; exists r; split; [by left | done] |]. intros (q & Hq & Hqa). apply Hn. exists q. split; [by right | done].
    + intros q [[-> | Hq]%elem_of_cons | Hq]; apply Hin; [right; rewrite HP1; by left | by left | right; rewrite HP1; right; by apply carve_unusable].
  - destruct He as [-> He]. split; [done |]. cbn [length Nat.pow]. nia.
Qed.

Definition entry_range_of (e : Z * Z) : range := Range e.1 (e.1 + e.2).

Lemma apply_entries_list r l : reserve_yield r l -> forall fuel v,
  Forall (fun e => is_usize (e.1 + e.2)) l -> (length l < fuel)%nat -> apply_entries fuel r v = apply_list (entry_range_of <$> l) v.
Proof.
  induction 1 as [r r' E | r a s r' l E Hy IH]; intros fuel v Hl Hf; (destruct fuel as [| fuel]; [simpl in *; lia |]); cbn [apply_entries];
    rewrite (M_bind_Done _ _ _ _ _ (lift_Done _ _ v E)); cbn [fst snd]; [done |].
  inversion Hl as [| ? ? Hu Hl']; subst. erewrite M_bind_Done by (apply lift_Done, range_from_start_len_run; exact Hu).
  cbn [rv_address rv_size]. rewrite fmap_cons. cbn [apply_list]. unfold try_bind.
  change (entry_range_of (a, s)) with (Range a (a + s)).
  destruct (map_region_err (apply_reservation (Range a (a + s)) Unusable) v) as [[[u | e] v'] | |]; [| done ..]. apply IH; [done | simpl in *; lia].
Qed.

Lemma apply_reserved_list mid : forall it fuel v,
  into_iter_ok it mid -> (length mid < fuel)%nat -> apply_reserved fuel it v = apply_list (mr_range <$> mid) v.
Proof.
  induction mid as [| x mid IH]; intros it fuel v Hit Hf; (destruct fuel as [| fuel]; [simpl in *; lia |]); cbn [apply_reserved];
    destruct (into_iter_step false it _ Hit) as (it' & E & Hit'); cbn in E, Hit'; rewrite (M_bind_Done _ _ _ _ _ (lift_Done _ _ v E)); cbn [fst snd]; [done |].
  rewrite fmap_cons. cbn [apply_list]. unfold try_bind.
  destruct (map_region_err (apply_reservation (mr_range x) Unusable) v) as [[[u | e] v'] | |]; [| done ..]. apply IH; [done | simpl in *; lia].
Qed.

(** ** The whole function *)

Lemma regs_ordered es : Forall node_ok es -> Forall (fun r => r_start r <= r_end r) (es ≫= node_ranges).
Proof.
  intros Hes. apply Forall_forall. intros r Hr. apply list_elem_of_bind in Hr as (e & Hr & He). rewrite Forall_forall in Hes.
  destruct (Hes e He) as [_ Hok]. unfold node_ranges in Hr. apply list_elem_of_fmap in Hr as (x & -> & Hx). rewrite Forall_forall in Hok.
  destruct (Hok x Hx) as (_ & ? & _). simpl. lia.
Qed.

Lemma nodes_with_sub want under f : forall d c e,
  (forall r, want r = true -> is_mem r || is_res r = true) -> e ∈ nodes_with want under d c f -> e ∈ nodes_with (fun r => is_mem r || is_res r) under d c f.
Proof.
  revert under. induction f as [| name ps ch IHc sib IHs]; intros under d c e Hw He; cbn [nodes_with] in *; [done |].
  rewrite !elem_of_app in *. destruct He as [He | [He | He]]; [left | right; left; by apply IHc | right; right; by apply IHs].
  destruct (want (node_role under name ps)) eqn:Ew; [by rewrite (Hw _ Ew) | by apply elem_of_nil in He].
Qed.

Lemma usable_regions_at rs a : usable_at (usable_regions rs) a <-> in_some a rs.
Proof.
  unfold usable_at, usable_regions, in_some. split.
  - intros (m & Hm & _ & Hin). apply list_elem_of_fmap in Hm as (r & -> & Hr). by exists r.
  - intros (r & Hr & Hin). exists (MkRegion r Usable). split_and!; [apply list_elem_of_fmap; by exists r | done | done].
Qed.

Lemma usable_regions_plain rs : plain (usable_regions rs).
Proof. apply Forall_fmap, Forall_true. by left. Qed.

Lemma usable_regions_ranges rs : mr_range <$> usable_regions rs = rs.
Proof. unfold usable_regions. rewrite <- list_fmap_compose. apply list_fmap_id. Qed.

Lemma reserve_list_length n : forall buf l, length buf = n -> reserve_list buf = Some l -> (length l <= length buf)%nat.
Proof.
  induction n as [n IH] using lt_wf_ind. intros buf l Hn Hl. destruct buf as [| a0 [| a1 [| s0 [| s1 rest]]]]; try done; simpl in *; [by simplify_eq |].
  case_match; [simplify_eq; simpl; lia |]. destruct (reserve_list rest) as [l' |] eqn:El; [| done]. simplify_eq. simpl.
  specialize (IH (length rest) ltac:(lia) rest l' eq_refl El). lia.
Qed.

Lemma apply_all_run cap fd entries v rv ms rs :
  reserve_list (f_reservations fd) = Some entries -> Forall (fun e => is_usize (e.1 + e.2)) entries -> Forall (fun e => 0 <= e.2) entries ->
  Forall (fun r => r_start r <= r_end r) rs -> holds_cap cap v (usable_regions ms) -> holds_cap cap rv (usable_regions rs) ->
  exists e v', apply_all fd rv v = Done (e, v') /\ reserved_by cap (usable_regions ms) ((entry_range_of <$> entries) ++ rs) e v'.
Proof.
  intros Hl Hu Hs Hrs Hv Hrv. unfold apply_all.
  assert (E : forall w, apply_entries (S (length (f_reservations fd))) (reserved_entries fd) w = apply_list (entry_range_of <$> entries) w).
  { intros w. eapply apply_entries_list; [exact (reserve_yields _ [] _ _ eq_refl Hl) | done |].
    pose proof (reserve_list_length _ _ _ eq_refl Hl). lia. }
  assert (E2 : forall w, apply_reserved (S (av_len rv)) (av_into_iter rv) w = apply_list rs w).
  { intros w. rewrite (apply_reserved_list (usable_regions rs)); [by rewrite usable_regions_ranges | |].
    - destruct Hrv as [(Hn & Hle & Ht) _]. unfold into_iter_ok, slots_hold, av_into_iter. cbn [ii_vec ii_index]. rewrite drop_0, Hn. split_and!; [lia | done | done].
    - destruct Hrv as [(-> & _) _]. lia. }
  destruct (apply_list_run cap ((entry_range_of <$> entries) ++ rs) v (usable_regions ms) Hv (usable_regions_plain ms)) as (e & v' & Ea & He).
  { apply Forall_app. split; [| done]. apply Forall_fmap. eapply Forall_impl; [exact Hs |]. simpl. intros. lia. }
  exists e, v'. split; [| done]. rewrite apply_list_app in Ea. unfold try_bind in *. rewrite E.
  destruct (apply_list (entry_range_of <$> entries) v) as [[[u | x] w] | |]; [by rewrite E2 | done ..].
Qed.

Section Physical.
Context `{PropertiesFind}.

(** On the blob of a tree whose memory and reserved regions have proper registers
    and in which no container of reserved regions is inside another, the loader
    opens the blob and returns. Unless there are too many regions, an address ends
    up usable exactly if a memory node lists it and neither a reserved region nor
    an entry of the reservation block does, and every reservation is listed. *)
Lemma physical_memory_ok N data h strings structs reservations name ps f entries (c := child_cells default_cells ps)
    (mems := nodes_with is_mem false 1 c f ≫= node_ranges) (rs := nodes_with is_res false 1 c f ≫= node_ranges)
    (rsv := (entry_range_of <$> entries) ++ rs) :
  blob_ok data h strings structs reservations name ps f -> forest_ok false false 1 c f ->
  reserve_list reservations = Some entries -> Forall (fun e => is_usize (e.1 + e.2)) entries -> Forall (fun e => 0 <= e.2) entries ->
  exists fd e, fdt_new data = Done (Ok fd) /\ physical_memory_regions N fd = Done e
  /\ match e with
     | Ok v => exists l, av_holds v l /\ (forall a, usable_at l a <-> in_some a mems /\ ~ in_some a rsv)
         /\ forall r, r ∈ rsv -> MkRegion r Unusable ∈ l
     | Err e => e = CommonTooManyRegions /\ (N < 2 ^ length rsv * (length mems + 1) \/ N < length rs)%nat
     end.
Proof.
  intros Hblob Hok Hres Hu Hs. destruct (fdt_new_run _ _ _ _ _ _ _ _ Hblob) as (n & En & Hroot).
  destruct (fdt_nodes_run strings structs data reservations h n name ps f Hroot) as (it & ws & Ei & Hit & Hlen).
  destruct (iter_yields strings structs _ it _ ws eq_refl Hit) as (l & Hy & Hl). simpl in Hl. rewrite app_nil_r in Hl. fold c in Hl.
  assert (Hsize : (forest_size f <= length (n_raw n))%nat /\ Z.of_nat (1 + forest_size f) < 2 ^ 60).
  { destruct Hit as (_ & Hw & _ & _ & Hb). inversion Hw as [| ? ? ? ? fw ? Hfw]; subst. apply forest_words_size in Hfw.
    rewrite length_app in *. simpl length in Hb. split; lia. }
  set (fd := MkFdt data reservations h n). exists fd. unfold physical_memory_regions. rewrite (outcome_bind_Done _ _ _ Ei).
  rewrite (discover_nodes_list it l Hy).
  2: { apply Forall2_length in Hl. rewrite walk_length in Hl. cbn [f_root fd]. lia. }
  assert (Hempty : holds_di N (MkDiscovery (av_new N) (av_new N) None) [] []).
  { split; (split; [apply av_new_holds | apply av_capacity_new]). }
  destruct (discover_forest_run strings structs N f 1 c false false l (MkDiscovery (av_new N) (av_new N) None) [] [] ltac:(lia) ltac:(lia) Hl Hok ltac:(by left) Hempty) as (r & di & Ed & Hd).
  rewrite (outcome_bind_Done _ _ _ Ed). unfold adds in Hd. rewrite !app_nil_l in Hd. cbn [length] in Hd.
  destruct r as [u | e].
  2: { exists (Err e). split; [done |]. split; [done |]. destruct Hd as [-> Hd]. split; [done |]. unfold regions_of, usable_regions in Hd.
       rewrite !length_fmap in Hd. fold mems rs in Hd. pose proof (Nat.pow_nonzero 2 (length rsv) ltac:(lia)). nia. }
  destruct Hd as [[Hm Hr] _]. unfold regions_of in Hm, Hr. fold mems in Hm. fold rs in Hr.
  assert (Hrs : Forall (fun r => r_start r <= r_end r) rs).
  { apply regs_ordered, Forall_forall. intros e He. destruct Hok as (_ & _ & Hok). rewrite Forall_forall in Hok. apply Hok.
    eapply nodes_with_sub; [| exact He]. by intros []. }
  destruct (apply_all_run N fd entries _ _ mems rs Hres Hu Hs Hrs Hm Hr) as (e & v & Ea & He). rewrite (outcome_bind_Done _ _ _ Ea).
  fold rsv in He. destruct e as [[] | e].
  - exists (Ok v). split; [done |]. split; [done |]. destruct He as (l' & [Hh _] & _ & _ & Hus & Hin). exists l'. split_and!; [done | |].
    + intros a. by rewrite Hus, usable_regions_at.
    + intros q Hq. apply Hin. by left.
  - exists (Err e). split; [done |]. split; [done |]. destruct He as [-> He]. unfold usable_regions in He. rewrite length_fmap in He. auto.
Qed.
End Physical.
