(* ===== verification/FdtDemo.v ===== *)
(** * A device tree blob, and the theorems on it

    Trees are flattened to blobs; a small tree with memory, a reserved region and
    a console is read back. *)

From stdpp Require Import base numbers list sets.
From Stdlib Require Import ZArith Lia.
From Stdlib Require String.
From S2P Require Import Prelude Address ArrayVec LoaderRegions KernelMapping.
From S2P Require Import Fdt FdtCorrect FdtTree FdtSafe FdtRegs LoaderFdt LoaderFdtCorrect.
Import (notations) String.

(** ** Flattening *)

(** Bytes in little-endian words, padded with zeros. *)
Definition word_of (a b c d : Z) : Z := a + 256 * (b + 256 * (c + 256 * d)).
Fixpoint pack (l : list Z) : list Z :=
  match l with
  | [] => []
  | a :: b :: c :: d :: l => word_of a b c d :: pack l
  | [a] => [word_of a 0 0 0]
  | [a; b] => [word_of a b 0 0]
  | [a; b; c] => [word_of a b c 0]
  end.

Definition is_byte (b : Z) : bool := (0 <=? b) && (b <? 256).

Lemma is_byte_range b : is_byte b = true -> 0 <= b < 256.
Proof. unfold is_byte. lia. Qed.

Lemma bytes_of_cons w ws : bytes_of (w :: ws) = u32_bytes w ++ bytes_of ws.
Proof. done. Qed.

Lemma pack_holds n : forall l, length l = n -> forallb is_byte l = true -> holds (pack l) l.
Proof.
  induction n as [n IH] using lt_wf_ind. intros l Hn Hb.
  destruct l as [| a [| b [| c [| d l]]]]; simpl in Hb; rewrite ?andb_true_r, ?andb_true_iff in Hb; destruct_and?;
    repeat match goal with H : is_byte _ = true |- _ => apply is_byte_range in H end.
  - exists []. split; [done | simpl; lia].
  - exists [0; 0; 0]. split; [| simpl; lia]. unfold pack, word_of. rewrite bytes_of_cons, u32_bytes_of by lia. done.
  - exists [0; 0]. split; [| simpl; lia]. unfold pack, word_of. rewrite bytes_of_cons, u32_bytes_of by lia. done.
  - exists [0]. split; [| simpl; lia]. unfold pack, word_of. rewrite bytes_of_cons, u32_bytes_of by lia. done.
  - destruct (IH (length l)) with (l := l) as (pad & E & Hp); [simpl in Hn; lia | done | done |]. exists pad. split; [| done].
    cbn [pack]. unfold word_of. rewrite bytes_of_cons, u32_bytes_of by lia. rewrite E. done.
Qed.

Section Flatten.
Context (strings : list Z) (offset : list Z -> Z).

Definition encode_prop (p : Property) : list Z :=
  PROP :: to_be (Z.of_nat (length (pr_raw p))) :: to_be (offset (pr_name p)) :: pack (pr_raw p).
Fixpoint encode_forest (f : forest) : list Z :=
  match f with
  | FNil => []
  | FCons name ps ch sib => BEGIN_NODE :: pack (name ++ [0]) ++ (ps ≫= encode_prop) ++ encode_forest ch ++ END_NODE :: encode_forest sib
  end.
Definition encode_struct (name : list Z) (ps : list Property) (f : forest) : list Z :=
  BEGIN_NODE :: pack (name ++ [0]) ++ (ps ≫= encode_prop) ++ (encode_forest f ++ [END_NODE]) ++ [END].

(** What can be encoded. *)
Definition prop_fits (p : Property) : bool :=
  forallb is_byte (pr_raw p) && (Z.of_nat (length (pr_raw p)) <? 2 ^ 32) && (0 <=? offset (pr_name p)) && (offset (pr_name p) <? 2 ^ 32)
  && match offset_at strings (offset (pr_name p)) with Ok n => bool_decide (n = pr_name p) | Err _ => false end.
Definition name_fits (name : list Z) : bool := forallb is_byte name && negb (bool_decide (0 ∈ name)) && (Z.of_nat (length name) <? 2 ^ 60).
Fixpoint forest_fits (f : forest) : bool :=
  match f with FNil => true | FCons name ps ch sib => name_fits name && forallb prop_fits ps && forest_fits ch && forest_fits sib end.

Lemma encode_name_words name : name_fits name = true -> name_words name (pack (name ++ [0])).
Proof.
  unfold name_fits. rewrite !andb_true_iff, negb_true_iff, bool_decide_eq_false. intros [[Hb H0] Hl]. split_and!; [done | | lia].
  eapply pack_holds; [done |]. by rewrite forallb_app, Hb.
Qed.

Lemma encode_props_words ps : forallb prop_fits ps = true -> props_words strings ps (ps ≫= encode_prop).
Proof.
  induction ps as [| p ps IH]; intros Hf; [constructor |]. simpl in Hf. apply andb_true_iff in Hf as [Hp Hps]. rewrite bind_cons. constructor; [| by apply IH].
  unfold prop_fits in Hp. rewrite !andb_true_iff in Hp. destruct Hp as [[[[Hb Hl] Ho1] Ho2] Hn].
  exists 0%nat, (offset (pr_name p)), (pack (pr_raw p)). split_and!; [done | lia | lia | lia | by eapply pack_holds |].
  destruct (offset_at _ _); [| done]. by apply bool_decide_eq_true in Hn as ->.
Qed.

Lemma encode_forest_words f : forest_fits f = true -> forest_words strings f (encode_forest f).
Proof.
  induction f as [| name ps ch IHc sib IHs]; intros Hf; [constructor |]. cbn [forest_fits] in Hf. rewrite !andb_true_iff in Hf.
  destruct Hf as [[[Hn Hp] Hc] Hs]. apply (FW_cons strings name ps ch sib 0 0); [by apply encode_name_words | by apply encode_props_words | by apply IHc | by apply IHs].
Qed.

Lemma encode_struct_words name ps f :
  name_fits name && forallb prop_fits ps && forest_fits f = true -> Z.of_nat (length (encode_struct name ps f)) < 2 ^ 59 ->
  struct_words strings name ps f (encode_struct name ps f).
Proof.
  rewrite !andb_true_iff. intros [[Hn Hp] Hf] Hl. exists 0%nat, 0%nat, 0%nat, (pack (name ++ [0])), (ps ≫= encode_prop), (encode_forest f).
  split_and!; [done | by apply encode_name_words | by apply encode_props_words | by apply encode_forest_words | done].
Qed.
End Flatten.

(** ** The tree *)

Definition cell (n : Z) : list Z := be_bytes 4 n.
Definition nul (s : list Z) : list Z := s ++ [0].

Definition demo_names : list (list Z) :=
  [lit "#address-cells"; lit "#size-cells"; lit "device_type"; lit "reg"; lit "rng-seed"; lit "stdout-path"; lit "clock-frequency"; lit "interrupts"].
Definition demo_strings : list Z := demo_names ≫= nul.
(** Where a name begins. *)
Fixpoint offset_in (names : list (list Z)) (n : list Z) : Z :=
  match names with [] => 0 | x :: names => if bool_decide (x = n) then 0 else Z.of_nat (length x) + 1 + offset_in names n end.

Definition demo_root_props : list Property := [MkProperty (lit "#address-cells") (cell 1); MkProperty (lit "#size-cells") (cell 1)].
Definition demo_tree : forest :=
  FCons (lit "chosen") [MkProperty (lit "rng-seed") (replicate 32 7); MkProperty (lit "stdout-path") (nul (lit "/uart@10000000:9600n8"))] FNil
  (FCons (lit "memory@80000000")
     [MkProperty (lit "device_type") (nul (lit "memory")); MkProperty (lit "reg") (cell 0x80000000 ++ cell 0x8000000)] FNil
  (FCons (lit "reserved-memory") []
     (FCons (lit "firmware") [MkProperty (lit "reg") (cell 0x80000000 ++ cell 0x40000)] FNil FNil)
  (FCons (lit "uart@10000000")
     [MkProperty (lit "reg") (cell 0x10000000 ++ cell 0x100); MkProperty (lit "clock-frequency") (cell 3686400); MkProperty (lit "interrupts") (cell 10)] FNil
   FNil))).

Definition demo_structs : list Z := encode_struct (offset_in demo_names) [] demo_root_props demo_tree.
(** One reservation and the end of the block. *)
Definition demo_entries : list Z := [0x80100000; 0; 0x1000; 0; 0; 0; 0; 0].

Definition demo_header : Header :=
  let structs_size := 4 * Z.of_nat (length demo_structs) in
  let strings_words := Z.of_nat (length (pack demo_strings)) in
  MkHeader DTB_MAGIC (72 + structs_size + 4 * strings_words) 72 (72 + structs_size) 40 17 16 0 (Z.of_nat (length demo_strings)) structs_size.
Definition demo_blob : list Z := header_words demo_header ++ demo_entries ++ demo_structs ++ pack demo_strings.
(** The blob and what comes after it. *)
Definition demo_data : list Z := demo_blob ++ replicate 8 0.

Definition demo_reservations : list Z := take (Z.to_nat (18 + (total_size demo_header - 40) / 4 - 10)) (drop 10 demo_data).

Lemma demo_blob_ok : blob_ok demo_data demo_header demo_strings demo_structs demo_reservations [] demo_root_props demo_tree.
Proof.
  constructor.
  - exists (demo_entries ++ demo_structs ++ pack demo_strings ++ replicate 8 0). unfold demo_data, demo_blob. by rewrite <- !app_assoc.
  - unfold header_ok. repeat (constructor; [by vm_compute |]). constructor.
  - reflexivity.
  - by vm_compute.
  - by vm_compute.
  - split; by vm_compute.
  - vm_compute. reflexivity.
  - vm_compute. reflexivity.
  - by vm_compute.
  - vm_compute. reflexivity.
  - apply encode_struct_words; by vm_compute.
Qed.

(** The tree is well formed; and the memory the loader finds in its blob. *)
Lemma demo_forest_ok : forest_ok false false 1 (child_cells default_cells demo_root_props) demo_tree.
Proof.
  split; [vm_compute; done |]. split; [repeat constructor |].
  repeat (constructor; [split; [split; [by left | by vm_compute] | repeat (constructor; [by vm_compute |]); constructor] |]). constructor.
Qed.

Example demo_memory (find := loop_find) : exists fd v l, fdt_new demo_data = Done (Ok fd)
  /\ physical_memory_regions (H := find) 16 fd = Done (Ok v) /\ av_holds v l
  /\ forall a, usable_at l a <-> 0x80040000 <= a < 0x80100000 \/ 0x80101000 <= a < 0x88000000.
Proof.
  destruct (physical_memory_ok (H := find) 16 _ _ _ _ _ _ _ _ [(0x80100000, 0x1000)] demo_blob_ok demo_forest_ok)
    as (fd & [v | e] & Hnew & Hrun & Hv).
  - by vm_compute.
  - repeat constructor; cbn; lia.
  - repeat constructor; cbn; lia.
  - destruct Hv as (l & Hl & Hus & _). exists fd, v, l. split_and!; [done ..|]. intros a. rewrite Hus. clear.
    change (nodes_with is_mem _ _ _ _ ≫= node_ranges) with [Range 0x80000000 0x88000000].
    change (nodes_with is_res _ _ _ _ ≫= node_ranges) with [Range 0x80000000 0x80040000].
    unfold in_some. cbn. split.
    + intros [(r & Hr & Ha) Hn]. apply list_elem_of_singleton in Hr as ->. cbn in Ha.
      assert (~ 0x80100000 <= a < 0x80101000) by (intros ?; apply Hn; eexists; split; [left | cbn; lia]).
      assert (~ 0x80000000 <= a < 0x80040000) by (intros ?; apply Hn; eexists; split; [right; left | cbn; lia]). lia.
    + intros Ha. split; [eexists; split; [left | cbn; lia] |]. intros (r & [-> | ->%list_elem_of_singleton]%elem_of_cons & Hr); cbn in Hr; lia.
  - destruct Hv as [_ [Hv | Hv]]; vm_compute in Hv; lia.
Qed.
